(* ===== verification/_CoqProject ===== *)
-Q . S2P
Prelude.v
NarwhalConfig.v
NarwhalTypes.v
ConsensusStore.v
ConsensusDag.v
LeaderSchedule.v
Bullshark.v
BullsharkSafety.v
Aggregators.v
SuiCommittee.v
AuthoritySig.v
StakeAggregator.v
GasTables.v
Objects.v
SuiGas.v
TemporaryStore.v
Ownership.v
GasCharger.v
Effects.v
IntoEffects.v
CausalOrder.v
TransactionManager.v
WakeUps.v
MoveFormat.v
BinaryFormat.v
Serializer.v
CheckBounds.v
Deserializer.v
Codec.v
TokenCodec.v
BoundsSafety.v
Totality.v
Tables.v
ModuleBytes.v
RoundTrip.v
ControlFlowGraph.v
AbsInt.v
LocalsSafety.v
AbstractStack.v
StackUsage.v
LoopSummary.v
Reducibility.v
LoadedCode.v
TypeSafety.v
TypingRules.v
TypeCheck.v
TypedCode.v
Lookups.v
SignatureCheck.v
SignatureSafety.v
ModuleChecks.v
StructAbilities.v
Declarations.v
LoadedTypes.v
