(* ===== verification/Prelude.v ===== *)
(** * A verification development for the Sui repository

    The repository ([src/]) is a validator node of the Sui blockchain with its consensus,
    its execution layer and its tools, written in Rust.  This library models the parts that
    decide which transactions are final and what they cost, as executable definitions, and
    proves that they do what they are meant to do.

    ** The program's parts and how they meet

    Certificates of the Narwhal mempool form a DAG.  [narwhal/config] describes the committee
    and its thresholds, [narwhal/primary/src/aggregators.rs] turns votes into certificates,
    [narwhal/primary/src/consensus] orders them (Bullshark) and
    [narwhal/storage/src/consensus_store.rs] persists what has been ordered.  A Sui validator
    ([crates/sui-core]) executes the ordered transactions; agreement on a transaction or its
    effects is a quorum signature ([crates/sui-types/src/crypto.rs], [committee.rs]) that
    [crates/sui-core/src/stake_aggregator.rs] collects.  Executing a transaction
    ([sui-execution/latest/sui-adapter]) works on a temporary store of objects
    ([temporary_store.rs]); the Move VM is metered by [crates/sui-types/src/gas_model], and
    [gas_charger.rs] turns the meter and the storage of the written objects into a charge on
    the gas coins.  What the transaction did to objects becomes its effects
    ([crates/sui-types/src/effects]); a checkpoint lists the effects in causal order
    ([crates/sui-core/src/checkpoints/causal_order.rs]).  A certificate runs when its inputs are
    there, which [crates/sui-core/src/transaction_manager.rs] waits for.  The code that runs is
    published as bytes, which the Move binary format ([external-crates/move/crates/move-binary-format])
    reads into tables and whose indexes it checks; then it has to pass the Move bytecode verifier
    ([move-bytecode-verifier]): its tables, signatures and structs are checked first, then the control flow
    of every function, and then, over the control flow graph, the stack, the types of the operands and
    the locals.

    ** The files

    - [Prelude]: integers at their width, panics, errors and state as monads, sums, ordered
      maps, and the tactics and hints of the library.
    - [NarwhalConfig] ([narwhal/config/src/committee.rs], [lib.rs]): [Comm.new] and [Comm.load]
      are [Committee::new] and [load], with the thresholds, lookups, leader choice and
      [update_primary_network_info].
    - [NarwhalTypes] ([narwhal/types/src/primary.rs], [consensus.rs]): headers, certificates,
      sub-dags, reputation scores, as records with their accessors ([Cert], [Header], ...).
    - [ConsensusStore] ([narwhal/storage/src/consensus_store.rs]): [Store.write_consensus_state]
      and the reads.
    - [ConsensusDag] ([consensus/state.rs], [utils.rs]): [CState.try_insert], [CState.update],
      [CState.new_from_store] are the methods of [ConsensusState]; [order_dag] is the
      depth-first flattening.
    - [LeaderSchedule] ([consensus/leader_schedule.rs]): swap tables and leaders.
    - [Bullshark] ([consensus/bullshark.rs], the task of [state.rs]): [BS.process_certificate] is
      the handler of a certificate, [Task.spawn] and [Task.run_inner] the task around it.
    - [BullsharkSafety]: two nodes of that protocol.
    - [Aggregators] ([narwhal/primary/src/aggregators.rs]): [Votes.append], [Certs.append].
    - [SuiCommittee] ([crates/sui-types/src/committee.rs]).
    - [AuthoritySig] ([crates/sui-types/src/crypto.rs]): signatures of authorities and quorums.
    - [StakeAggregator] ([crates/sui-core/src/stake_aggregator.rs]): [Agg], [Multi], [GenericMulti].
    - [GasTables] ([gas_model/tables.rs], [units_types.rs], [gas_predicates.rs]): the meter of the
      Move VM with its versioned cost tables; [Meter] has one definition per method.
    - [Objects] ([object.rs], [base_types.rs], [execution.rs], part of [transaction.rs]).
    - [SuiGas] ([gas_model/gas_v2.rs], [gas.rs]): [V2] is [SuiGasStatus].
    - [TemporaryStore], [Ownership] ([sui-adapter/src/temporary_store.rs]): [Temp] has one
      definition per method of [TemporaryStore].
    - [GasCharger] ([sui-adapter/src/gas_charger.rs]): [Charger] is [GasCharger].
    - [Effects] ([crates/sui-types/src/effects]): both versions of the effects behind the class
      [TransactionEffectsAPI], which is the trait of that name.
    - [IntoEffects] ([temporary_store.rs]): [Into.into_effects] turns a temporary store into
      effects and an [InnerTemporaryStore].
    - [CausalOrder] ([checkpoints/causal_order.rs]): [causal_sort], against the class of [Effects].
    - [TransactionManager] ([transaction_manager.rs], two queries of [authority_store.rs]): [Tm] has
      one definition per method, with [enqueue_impl] cut where it holds no lock.
    - [WakeUps]: the manager among the tasks that use it, as a step relation.
    - [MoveFormat] ([move-binary-format/src/file_format.rs], [binary_views.rs]): the tables of a
      module, abilities, types, bytecode and its control transfers.
    - [BinaryFormat] ([file_format_common.rs]): tags, limits, integers and ULEB128 numbers, writers and
      cursors, with the laws that relate a writer to the reader of the same data.
    - [Serializer] ([serializer.rs]): [Ser] has one definition per function; the methods for the single
      tables differ only in the entry and share [serialize_table].
    - [Deserializer] ([deserializer.rs], [identifier.rs]): [Des] has one definition per function, and one
      for the body of each loop over a table; [token_loop] is the type parser with its stack.
    - [CheckBounds] ([check_bounds.rs]): [BoundsChecker] has one definition per method.
    - [Codec], [TokenCodec]: for every entry, that the two directions agree.
    - [BoundsSafety]: what the bounds checker decides.  [Totality]: that loading returns.
    - [Tables], [ModuleBytes], [RoundTrip]: whole tables, the layout of a binary, and modules.
    - [LoadedCode]: the verifier on code that has been loaded.
    - [ControlFlowGraph] ([control_flow_graph.rs]): [VMControlFlowGraph::new] and [FunctionView].
    - [AbsInt] ([absint.rs], [meter.rs]): the work-list of [analyze_function], over the classes
      [Meter] and [Analysis]; an analysis gives its lattice and transfer function.
    - [LocalsSafety] ([locals_safety]): an instance of [Analysis].
    - [AbstractStack] ([move-abstract-stack]): the run-length encoded stack.
    - [StackUsage] ([stack_usage_verifier.rs]): the balance of every basic block.
    - [LoopSummary], [Reducibility] ([loop_summary.rs], [control_flow.rs]): the depth-first
      spanning tree, the partition of collapsed loops and the test for reducibility.
    - [TypeSafety] ([type_safety.rs]): [TypeSafety.verify_instr] is the check of one instruction on the
      stack of types, [TypeSafety.verify] runs it over the blocks.  [TypingRules] has typing rules for the
      instructions as an inductive relation, [TypeCheck] shows that the check follows them, and [TypedCode]
      takes this to blocks and paths.
    - [SignatureCheck] ([signature.rs]): [SignatureChecker], with its cache as the state of a monad;
      [Lookups] has what loading guarantees about tables, [SignatureSafety] what the check accepts.
    - [ModuleChecks] ([limits.rs], [check_duplication.rs], [instruction_consistency.rs], [constants.rs],
      [friends.rs], [ability_field_requirements.rs], [script_signature.rs]): a module for each pass.
      [StructAbilities] and [Declarations] have what they accept.
    - [LoadedTypes]: the type check after the passes that run before it.

    ** How the code is modelled

    A [u64] is a [Z]; in the release profile plain arithmetic wraps ([wadd], [wsub], [wmul]),
    and in the modules under [with_checked_arithmetic] it panics ([cadd], [csub], [cmul]).
    [outcome] has the panics, [result] the errors; a method that changes its receiver takes and
    returns it, or runs in the state monads [ST] and [SE].  Asserts of debug builds, logging
    and metrics are left out, except where a metric can panic.  Loops that are not structural take
    fuel, and theorems show that the fuel the callers give is enough: [order_dag] (one more
    than the certificates in the DAG), the retries of [process_certificate] (the distance between
    the leader's round and the committed one), the ownership loop (the theorem bounds it), the
    loops of [causal_sort] (twice the transactions that are left, as each is pushed and popped
    once more), the searches for blocks and for the spanning tree (three per instruction or
    block, the largest number of successors and one visit), ULEB128 numbers (ten bytes), the type parser (two
    steps for each byte that is left), the loaders of tables (their bytes), the climb from a loop's body to its head (the
    blocks), and the work-list of the abstract interpreter ([analysis_fuel]: every pass over the
    blocks raises the state of one of them, whose lattice has a height).

    Code that is not in the repository is a class: [SeededRng] and [WeightedRng] ([rand]),
    [NarwhalCrypto], [SuiCrypto] and [AuthorityKeys] ([fastcrypto], BCS), [Database]
    (RocksDB), [ObjectEnv] (BCS sizes, hashing, Move layouts), [BackingStore], [EventsHash], [LruCache]
    (the [lru] crate), [Bcs] (decoding of constants).  Interfaces of the program itself are classes as well:
    [TransactionEffectsAPI], [Meter], [Analysis] with its [AnalysisLaws].  The laws are
    separate classes with documented behaviour, and each theorem that uses one has a witness
    at a concrete instance.

    ** What the theorems show

    - Consensus: two nodes never order different sub-dags ([agreement]), resting on
      [supported_leader_reached], [linked_iff_path], [order_dag_correct] and the lemma
      [order_leaders_correct]; while no member holds more than the bad nodes' share of the stake, the
      task never panics or diverges on certificates in causal order without equivocation, never commits
      one twice, and stops early only if the store refuses a write ([run_inner_safe],
      [process_certificate_correct]); a restart recovers the state
      ([spawn_recovers], [write_then_read]); which certificates are accepted
      (the lemmas [try_insert_cases] and [try_insert_preserves]); who leads
      ([swap_table_new_correct], and the lemmas [leader_not_bad], [leader_swap_can_panic]).
    - Committees and quorums: [committee_new_correct], [sui_committee_new_correct],
      [quorum_intersection], [sui_quorum_intersection], [update_network_info_spec].
    - Signatures: what a quorum signature proves ([quorum_verify_correct],
      [certificates_intersect], [aggregate_verifies]), what aggregation does with good and bad
      votes ([votes_append_correct], [stake_insert_correct], [honest_votes_kept],
      [quorum_unreachable_correct], [has_quorum_correct], [unknown_signer_blocks_quorum],
      [valid_quorum_not_reported]).
    - Gas: the meter takes exactly the tiered price and never exceeds the budget
      ([charge_correct], [run_within_budget], [computation_charge_correct]); which payments are
      accepted ([check_gas_balance_correct]); charging a valid payment for an execution that
      failed, or that left SUI balanced, never creates or destroys SUI and is all or nothing ([charge_gas_conserves], [charge_gas_atomic]).
    - Ownership: the check terminates and is exact: chains of owners end at authenticated inputs or run
      into a cycle ([check_ownership_correct], and the lemma [owner_cycle_accepted]).
    - Effects: they are what the temporary store says, in both versions ([into_effects_correct],
      [effects_refine_writes]); a checkpoint's order respects them ([causal_sort_correct]).
    - Scheduling: a commit wakes exactly those whose last input it is ([notify_commit_correct]), and in
      any interleaving nothing panics and nothing is sent early; no wake-up is lost as long as versions are
      not announced out of order after an eviction ([no_lost_wakeup], and the lemma [forgotten_version]).
    - Binaries of Move: loading returns on all bytes ([deserialize_returns]); what is written at version 5
      or 6 is read back ([module_round_trip]), and what has been read can be written from version 5 on ([reserialize]),
      resting on [signature_token_exact] and the lemma [uleb_exact]; the bounds checker is exact
      ([bounds_check_exact]), and the verifier does not panic on what it accepts ([loaded_code_checked]).
    - Move verifier: the blocks and edges of the graph ([cfg_new_correct]); irreducible control flow
      is what is rejected ([verify_reducibility_exact]); the interpreter terminates with a fixed point
      ([analyze_function_correct]); code is accepted when no path misuses a local
      ([locals_verify_exact]) and no block underflows the stack or leaves values on it
      ([stack_usage_correct]); the abstract stack is a stack ([abstract_stack_refines]);
      [polymorphic_abilities_correct].
    - Types in the Move verifier: the check of function bodies accepts exactly what follows the typing rules,
      and accepted code does not get stuck on any path ([type_check_correct]); what it needs to run without a
      panic, the passes before it guarantee for all modules that can be loaded ([loaded_types_checked]).
      References, type arguments and phantom parameters ([signature_check_exact]), duplicates, friends and
      limits ([declaration_checks_exact]) are decided exactly, and the fields of every instance of a struct
      have what its abilities require ([struct_abilities_sound]).

    ** Not modelled

    The interpreter and the values of the Move VM, which share a heap of reference-counted
    containers; of the Move verifier reference safety with its borrow graph, the checks for acquired resources,
    recursive structs and instantiation loops (the last two search graphs of the [petgraph] library), links
    between modules, the drivers that run the passes, the older control flow check for version 5 and below, and
    the growth of metering costs, which is in floating point; the compiler and the prover.  The networking and
    synchronisation code, the
    databases and indexers, RPC servers, wallets, SDKs, explorers, the faucet, the bridge, the
    simulator and the test drivers: I/O, user interfaces and tools around the parts above.
    Within the modelled parts: BCS serialization, hashing, messages of errors, logging and metrics.  Of the execution
    layer, the programmable-transaction interpreter, and of the temporary store the
    resolution of packages. *)
From stdpp Require Export base tactics option list list_numbers numbers sorting
  gmap strings fin_maps fin_sets.
From Stdlib Require Export ZArith Lia.
Open Scope Z_scope.

(** * Machine integers *)

Definition U16_MOD : Z := 2 ^ 16.
Definition U64_MOD : Z := 2 ^ 64.
Definition U64_MAX : Z := U64_MOD - 1.

(** A value that a Rust [u64] can hold. *)
Definition is_u64 (z : Z) : Prop := 0 <= z < U64_MOD.

#[global] Instance is_u64_dec z : Decision (is_u64 z).
Proof. unfold is_u64. apply _. Defined.

(** Plain [+], [-] and [*] of the release profile, which does not set
    [overflow-checks]: they wrap around. *)
Definition wadd (a b : Z) : Z := (a + b) mod U64_MOD.
Definition wsub (a b : Z) : Z := (a - b) mod U64_MOD.
Definition wmul (a b : Z) : Z := (a * b) mod U64_MOD.

(** [saturating_sub] and [saturating_add]. *)
Definition sat_sub (a b : Z) : Z := Z.max 0 (a - b).
Definition sat_add (a b : Z) : Z := Z.min U64_MAX (a + b).

(** [checked_add], [checked_sub] and [checked_mul]. *)
Definition checked_add (a b : Z) : option Z :=
  if decide (a + b < U64_MOD) then Some (a + b) else None.
Definition checked_sub (a b : Z) : option Z :=
  if decide (b <= a) then Some (a - b) else None.
Definition checked_mul (a b : Z) : option Z :=
  if decide (a * b < U64_MOD) then Some (a * b) else None.

(** * Panics, results and mutable state *)

(** What running a piece of Rust code comes to: a value, a panic, or (only for
    loops that are modelled with fuel) fuel that did not suffice. *)
Inductive outcome (A : Type) : Type :=
  | Ret (a : A)
  | Panic
  | OutOfFuel.
Arguments Ret {A} _.
Arguments Panic {A}.
Arguments OutOfFuel {A}.

#[global] Instance outcome_ret : MRet outcome := fun A a => Ret a.
#[global] Instance outcome_bind : MBind outcome := fun A B f m =>
  match m with Ret a => f a | Panic => Panic | OutOfFuel => OutOfFuel end.
#[global] Instance outcome_fmap : FMap outcome := fun A B f m =>
  match m with Ret a => Ret (f a) | Panic => Panic | OutOfFuel => OutOfFuel end.

(** [assert!(b)]. *)
Definition assert_ (b : bool) : outcome unit := if b then Ret tt else Panic.

(** [Option::unwrap] and [Option::expect]. *)
Definition unwrap {A} (o : option A) : outcome A :=
  match o with Some a => Ret a | None => Panic end.

Inductive result (E A : Type) : Type :=
  | Ok (a : A)
  | Err (e : E).
Arguments Ok {E A} _.
Arguments Err {E A} _.

(** A method with a [&mut self] receiver that returns [Result<A, E>]: it may
    panic, and when it returns it has updated the state on both branches.  [?]
    is the bind: it stops at the first error and keeps the state reached. *)
Definition ST (S E A : Type) : Type := S → outcome (result E A * S).

#[global] Instance st_ret S E : MRet (ST S E) := fun A a s => Ret (Ok a, s).
#[global] Instance st_bind S E : MBind (ST S E) := fun A B f m s =>
  match m s with
  | Ret (Ok a, s') => f a s'
  | Ret (Err e, s') => Ret (Err e, s')
  | Panic => Panic
  | OutOfFuel => OutOfFuel
  end.

Definition throw {S E A} (e : E) : ST S E A := fun s => Ret (Err e, s).
Definition gets {S E A} (f : S → A) : ST S E A := fun s => Ret (Ok (f s), s).
Definition modify {S E} (f : S → S) : ST S E unit := fun s => Ret (Ok tt, f s).
Definition lift_o {S E A} (m : outcome A) : ST S E A := fun s =>
  match m with Ret a => Ret (Ok a, s) | Panic => Panic | OutOfFuel => OutOfFuel end.
Definition lift_r {S E A} (r : result E A) : ST S E A := fun s => Ret (r, s).

(** The same for a method that cannot panic. *)
Definition SE (S E A : Type) : Type := S → result E A * S.

#[global] Instance se_ret S E : MRet (SE S E) := fun A a s => (Ok a, s).
#[global] Instance se_bind S E : MBind (SE S E) := fun A B f m s =>
  match m s with (Ok a, s') => f a s' | (Err e, s') => (Err e, s') end.

Definition se_throw {S E A} (e : E) : SE S E A := fun s => (Err e, s).

(** [fp_ensure!(b, e)]. *)
Definition fp_ensure {S E} (b : bool) (e : E) : SE S E unit := if b then mret tt else se_throw e.

(** Arithmetic of a module under [#[sui_macros::with_checked_arithmetic]]:
    every overflow panics. *)
Definition cadd (a b : Z) : outcome Z := unwrap (checked_add a b).
Definition csub (a b : Z) : outcome Z := unwrap (checked_sub a b).
Definition cmul (a b : Z) : outcome Z := unwrap (checked_mul a b).

(** * Sums *)

Definition zsum : list Z → Z := foldr Z.add 0.

(** The total weight of the elements of a list, and of a finite set. *)
Definition wsum {A} (w : A → Z) (l : list A) : Z := zsum (w <$> l).
Definition wset `{Countable K} (w : K → Z) (s : gset K) : Z := wsum w (elements s).

(** [Iterator::sum] on [u64] in the release profile. *)
Definition sum_u64 (l : list Z) : Z := foldl wadd 0 l.

#[export] Instance zsum_perm : Proper ((≡ₚ) ==> (=)) zsum.
Proof. induction 1; simpl; lia. Qed.

#[export] Instance wsum_perm {A} (w : A → Z) : Proper ((≡ₚ) ==> (=)) (wsum w).
Proof. intros l k Hl. unfold wsum. by rewrite Hl. Qed.

Lemma zsum_app l k : zsum (l ++ k) = zsum l + zsum k.
Proof. induction l; simpl; lia. Qed.

Section wsum.
Context {A : Type} (w : A → Z).

Lemma wsum_nil : wsum w [] = 0.
Proof. done. Qed.

Lemma wsum_cons x l : wsum w (x :: l) = w x + wsum w l.
Proof. done. Qed.

Lemma wsum_app l k : wsum w (l ++ k) = wsum w l + wsum w k.
Proof. unfold wsum. by rewrite fmap_app, zsum_app. Qed.

Lemma wsum_filter P `{!∀ x, Decision (P x)} l :
  wsum w l = wsum w (filter P l) + wsum w (filter (λ x, ¬ P x) l).
Proof.
  induction l as [|x l IH]; [done|].
  rewrite !filter_cons, wsum_cons.
  do 2 case_decide; rewrite ?wsum_cons; tauto || lia.
Qed.

Hypothesis w_nonneg : ∀ x, 0 <= w x.

Lemma wsum_nonneg l : 0 <= wsum w l.
Proof. induction l as [|x l IH]; [done|]. rewrite wsum_cons. specialize (w_nonneg x). lia. Qed.

Lemma wsum_elem x l : x ∈ l → w x <= wsum w l.
Proof.
  induction 1 as [x l|x y l _ IH]; rewrite wsum_cons.
  - pose proof (wsum_nonneg l). lia.
  - specialize (w_nonneg y). lia.
Qed.

Lemma wsum_submseteq l k : l ⊆+ k → wsum w l <= wsum w k.
Proof.
  intros [k' ->]%submseteq_Permutation. rewrite wsum_app.
  pose proof (wsum_nonneg k'). lia.
Qed.
End wsum.

Lemma wsum_ext {A} (w w' : A → Z) l :
  (∀ x, x ∈ l → w x = w' x) → wsum w l = wsum w' l.
Proof.
  induction l as [|x l IH]; intros Hw; [done|].
  rewrite !wsum_cons, (Hw x), IH; auto; set_solver.
Qed.

Section wset.
Context `{Countable K} (w : K → Z).
Implicit Types s t : gset K.

Lemma wset_empty : wset w ∅ = 0.
Proof. unfold wset. by rewrite elements_empty. Qed.

Lemma wset_singleton x : wset w {[ x ]} = w x.
Proof. unfold wset. rewrite elements_singleton. unfold wsum. simpl. lia. Qed.

Lemma wset_disj_union s t : s ## t → wset w (s ∪ t) = wset w s + wset w t.
Proof. intros. unfold wset. by rewrite elements_disj_union, wsum_app. Qed.

Lemma wset_insert x s : x ∉ s → wset w ({[ x ]} ∪ s) = w x + wset w s.
Proof. intros. rewrite wset_disj_union, wset_singleton; set_solver. Qed.

Lemma wset_difference s t : t ⊆ s → wset w s = wset w t + wset w (s ∖ t).
Proof.
  intros. rewrite <-wset_disj_union by set_solver.
  f_equal. by apply union_difference_L.
Qed.

Lemma wset_union_inter s t :
  wset w (s ∪ t) + wset w (s ∩ t) = wset w s + wset w t.
Proof.
  rewrite (wset_difference s (s ∩ t)) by set_solver.
  assert (s ∪ t = (s ∖ (s ∩ t)) ∪ t) as ->.
  { apply set_eq. intros x. destruct (decide (x ∈ t)); set_solver. }
  rewrite wset_disj_union by set_solver. lia.
Qed.

Lemma wset_list_to_set l : NoDup l → wset w (list_to_set l) = wsum w l.
Proof. intros. unfold wset. by rewrite elements_list_to_set. Qed.

Lemma wset_ext (w' : K → Z) s : (∀ x, x ∈ s → w x = w' x) → wset w s = wset w' s.
Proof. intros Hw. apply wsum_ext. intros x ?%elem_of_elements. auto. Qed.

Hypothesis w_nonneg : ∀ x, 0 <= w x.

Lemma wset_nonneg s : 0 <= wset w s.
Proof. by apply wsum_nonneg. Qed.

Lemma wset_mono s t : s ⊆ t → wset w s <= wset w t.
Proof. intros. rewrite (wset_difference t s) by done. pose proof (wset_nonneg (t ∖ s)). lia. Qed.

(** Two subsets of [u] overlap in at least the weight by which they exceed it. *)
Lemma wset_inter_ge u s t :
  s ⊆ u → t ⊆ u → wset w s + wset w t - wset w u <= wset w (s ∩ t).
Proof.
  intros. pose proof (wset_union_inter s t).
  assert (wset w (s ∪ t) <= wset w u) by (apply wset_mono; set_solver). lia.
Qed.
End wset.

Lemma foldl_wadd_mod l a : foldl wadd a l mod U64_MOD = (a + zsum l) mod U64_MOD.
Proof.
  revert a. induction l as [|x l IH]; intros a; simpl.
  - by rewrite Z.add_0_r.
  - rewrite IH. unfold wadd. rewrite Z.add_mod_idemp_l by done. f_equal. lia.
Qed.

Lemma sum_u64_zsum l : (∀ x, x ∈ l → 0 <= x) → zsum l < U64_MOD → sum_u64 l = zsum l.
Proof.
  assert (∀ l a, 0 <= a → (∀ x, x ∈ l → 0 <= x) → a + zsum l < U64_MOD →
    foldl wadd a l = a + zsum l) as Hgen.
  { induction l0 as [|x l0 IH]; intros a Ha Hl Hb; simpl in *; [lia|].
    assert (0 <= x) by (apply Hl; set_solver).
    assert (0 <= zsum l0).
    { clear -Hl. induction l0 as [|y l0 IH]; simpl; [lia|].
      assert (0 <= y) by (apply Hl; set_solver).
      assert (0 <= zsum l0); [|lia]. apply IH. intros z Hz.
      apply Hl. set_solver. }
    assert (wadd a x = a + x) as -> by (unfold wadd; apply Z.mod_small; lia).
    rewrite IH; [lia|lia| |lia]. set_solver. }
  intros. unfold sum_u64. rewrite Hgen; auto; lia.
Qed.

(** * Ordered maps and [collect] *)

(** [collect] of key-value pairs into a map: a later pair replaces an earlier
    one with the same key. *)
Definition collect `{Countable K} {V} (l : list (K * V)) : gmap K V :=
  foldl (λ m p, <[p.1 := p.2]> m) ∅ l.

(** Iteration over a [BTreeMap]: by increasing key. *)
Definition key_le {V} (p q : Z * V) : Prop := p.1 <= q.1.

#[global] Instance key_le_dec {V} : RelDecision (@key_le V).
Proof. intros p q. unfold key_le. apply _. Defined.

#[global] Instance key_le_trans {V} : Transitive (@key_le V).
Proof. unfold key_le. intros ???. lia. Qed.

#[global] Instance key_le_total {V} : Total (@key_le V).
Proof. unfold key_le. intros ??. lia. Qed.

Definition btree_iter {V} (m : gmap Z V) : list (Z * V) := merge_sort key_le (map_to_list m).
Definition btree_values {V} (m : gmap Z V) : list V := (btree_iter m).*2.
Definition btree_set_iter (s : gset Z) : list Z := merge_sort (≤) (elements s).

Lemma btree_iter_perm {V} (m : gmap Z V) : btree_iter m ≡ₚ map_to_list m.
Proof. apply merge_sort_Permutation. Qed.

Lemma btree_values_perm {V} (m : gmap Z V) : btree_values m ≡ₚ (map_to_list m).*2.
Proof. unfold btree_values. by rewrite btree_iter_perm. Qed.

Lemma elem_of_btree_iter {V} (m : gmap Z V) k v : (k, v) ∈ btree_iter m ↔ m !! k = Some v.
Proof. rewrite btree_iter_perm. apply elem_of_map_to_list. Qed.

Lemma elem_of_btree_values {V} (m : gmap Z V) v : v ∈ btree_values m ↔ ∃ k, m !! k = Some v.
Proof.
  unfold btree_values. rewrite list_elem_of_fmap. split.
  - intros [[k w] [-> ?%elem_of_btree_iter]]. eauto.
  - intros [k ?%elem_of_btree_iter]. by exists (k, v).
Qed.

Lemma NoDup_btree_keys {V} (m : gmap Z V) : NoDup (btree_iter m).*1.
Proof. rewrite btree_iter_perm. apply NoDup_fst_map_to_list. Qed.

Lemma btree_iter_sorted {V} (m : gmap Z V) : StronglySorted key_le (btree_iter m).
Proof. apply (StronglySorted_merge_sort _). Qed.

Lemma length_btree_iter {V} (m : gmap Z V) : length (btree_iter m) = size m.
Proof. by rewrite btree_iter_perm, length_map_to_list. Qed.

Lemma elem_of_btree_set_iter s k : k ∈ btree_set_iter s ↔ k ∈ s.
Proof. unfold btree_set_iter. by rewrite merge_sort_Permutation, elem_of_elements. Qed.

(** A set is iterated in increasing order. *)
Lemma btree_set_iter_list (l : list Z) :
  StronglySorted Z.lt l → btree_set_iter (list_to_set l) = l.
Proof.
  intros Hl. assert (NoDup l) as Hnd.
  { clear -Hl. induction Hl as [|x l _ IH Hx]; constructor; [|done].
    intros Hin. rewrite Forall_forall in Hx. specialize (Hx x Hin). lia. }
  assert (AntiSymm (=) Z.le) by (intros ??; lia).
  apply (StronglySorted_unique Z.le).
  - apply (StronglySorted_merge_sort _).
  - clear -Hl. induction Hl as [|x l Hl IH Hx]; constructor; [done|].
    eapply Forall_impl; [exact Hx|]. simpl. lia.
  - unfold btree_set_iter. rewrite merge_sort_Permutation. by apply elements_list_to_set.
Qed.

Lemma collect_app `{Countable K} {V} (l : list (K * V)) k v :
  collect (l ++ [(k, v)]) = <[k := v]> (collect l).
Proof. unfold collect. by rewrite foldl_app. Qed.

Lemma collect_list_to_map `{Countable K} {V} (l : list (K * V)) :
  NoDup l.*1 → collect l = list_to_map l.
Proof.
  induction l as [|[k v] l IH] using rev_ind; intros Hnd; [done|].
  rewrite collect_app. rewrite fmap_app in Hnd. simpl in Hnd.
  apply NoDup_app in Hnd as (Hnd & Hk & _). rewrite IH by done.
  rewrite list_to_map_app. simpl. rewrite insert_empty.
  symmetry. rewrite map_union_comm.
  - by rewrite <-insert_union_singleton_l.
  - apply map_disjoint_singleton_r. apply not_elem_of_list_to_map_1. set_solver.
Qed.

Lemma collect_lookup `{Countable K} {V} (l : list (K * V)) k v :
  NoDup l.*1 → collect l !! k = Some v ↔ (k, v) ∈ l.
Proof. intros. rewrite collect_list_to_map by done. symmetry. by apply elem_of_list_to_map. Qed.

Lemma NoDup_fst_inj `{Countable K} {V} (l : list (K * V)) k v w :
  NoDup l.*1 → (k, v) ∈ l → (k, w) ∈ l → v = w.
Proof. intros. rewrite <-collect_lookup in * by done. congruence. Qed.

Lemma Forall_choice {A B} (P : A → B → Prop) l : Forall (λ x, ∃ y, P x y) l → ∃ k, Forall2 P l k.
Proof.
  induction 1 as [|x l [y Hy] _ [k Hk]]; [by exists []|]. exists (y :: k). by constructor.
Qed.

Lemma size_list_to_set_le `{Countable A} (l : list A) :
  (size (list_to_set l : gset A) <= length l)%nat.
Proof.
  induction l as [|x l IH]; cbn [list_to_set length]; [done|].
  destruct (decide (x ∈ (list_to_set l : gset A))).
  - replace ({[ x ]} ∪ list_to_set l : gset A) with (list_to_set l : gset A) by set_solver. lia.
  - rewrite size_union, size_singleton by set_solver. lia.
Qed.

Lemma filter_ext_elem {A} (P Q : A → Prop) `{!∀ x, Decision (P x), !∀ x, Decision (Q x)} (l : list A) :
  (∀ x, x ∈ l → P x ↔ Q x) → filter P l = filter Q l.
Proof.
  induction l as [|x l IH]; intros Hpq; [done|]. rewrite !filter_cons, IH by set_solver.
  assert (P x ↔ Q x) by (apply Hpq; set_solver). do 2 case_decide; tauto.
Qed.

Lemma filter_none {A} (P : A → Prop) `{!∀ x, Decision (P x)} (l : list A) :
  (∀ x, x ∈ l → ¬ P x) → filter P l = [].
Proof.
  induction l as [|x l IH]; intros Hn; [done|]. rewrite filter_cons.
  rewrite decide_False by (apply Hn; set_solver). apply IH. set_solver.
Qed.

Lemma filter_sorted {A} (R : A → A → Prop) (P : A → Prop) `{!∀ x, Decision (P x)} (l : list A) :
  StronglySorted R l → StronglySorted R (filter P l).
Proof.
  induction 1 as [|x l Hl IH Hx]; [constructor|]. rewrite filter_cons. case_decide; [|done].
  constructor; [done|]. rewrite Forall_forall in Hx |- *. intros y [_ Hy]%list_elem_of_filter. auto.
Qed.

Lemma filter_fmap {A B} (f : A → B) (P : B → Prop) `{!∀ x, Decision (P x)} (l : list A) :
  filter P (f <$> l) = f <$> filter (λ x, P (f x)) l.
Proof. induction l as [|x l IH]; [done|]. csimpl. rewrite !filter_cons, IH. by case_decide. Qed.

Definition key_lt {V} (p q : Z * V) : Prop := p.1 < q.1.

Lemma StronglySorted_key_lt {V} (l : list (Z * V)) :
  StronglySorted key_le l → NoDup l.*1 → StronglySorted key_lt l.
Proof.
  induction 1 as [|p l Hl IH Hp]; intros Hnd; [constructor|].
  simpl in Hnd. apply NoDup_cons in Hnd as [Hni Hnd]. constructor; [auto|].
  rewrite Forall_forall in Hp |- *. intros q Hq. unfold key_lt.
  specialize (Hp q Hq). unfold key_le in Hp.
  assert (p.1 ≠ q.1); [|lia]. intros Heq. apply Hni. rewrite Heq.
  by apply list_elem_of_fmap_2.
Qed.

Lemma btree_iter_key_lt {V} (m : gmap Z V) : StronglySorted key_lt (btree_iter m).
Proof. apply StronglySorted_key_lt; [apply btree_iter_sorted|apply NoDup_btree_keys]. Qed.

Lemma key_lt_NoDup {V} (l : list (Z * V)) : StronglySorted key_lt l → NoDup l.*1.
Proof.
  induction 1 as [|p l Hl IH Hp]; simpl; constructor; [|done].
  intros [q [Heq Hq]]%list_elem_of_fmap. rewrite Forall_forall in Hp.
  specialize (Hp q Hq). unfold key_lt in Hp. lia.
Qed.

Lemma key_lt_unique {V} (l k : list (Z * V)) :
  StronglySorted key_lt l → StronglySorted key_lt k → l ≡ₚ k → l = k.
Proof.
  intros Hl. revert k. induction Hl as [|p l Hl IH Hp]; intros k Hk Hperm.
  - by apply Permutation_nil_l in Hperm.
  - destruct Hk as [|q k Hk Hq]; [by apply Permutation_nil_r in Hperm|].
    rewrite Forall_forall in Hp, Hq. assert (p = q) as ->.
    { assert (p ∈ q :: k) as Hpk by (rewrite <-Hperm; set_solver).
      assert (q ∈ p :: l) as Hql by (rewrite Hperm; set_solver).
      apply elem_of_cons in Hpk as [?|Hpk]; [done|].
      apply elem_of_cons in Hql as [?|Hql]; [done|].
      specialize (Hp q Hql). specialize (Hq p Hpk). unfold key_lt in *. lia. }
    f_equal. apply IH; [done|]. by apply Permutation_cons_inv in Hperm.
Qed.

Lemma key_lt_fst {V} (l : list (Z * V)) : StronglySorted key_lt l → StronglySorted Z.lt l.*1.
Proof.
  induction 1 as [|p l Hl IH Hp]; simpl; constructor; [done|].
  apply Forall_fmap. eapply Forall_impl; [exact Hp|]. done.
Qed.

(** A list sorted by key is what iterating over the map it builds yields. *)
Lemma btree_iter_collect {V} (l : list (Z * V)) :
  StronglySorted key_lt l → btree_iter (collect l) = l.
Proof.
  intros Hl. pose proof (key_lt_NoDup l Hl).
  apply key_lt_unique; [apply btree_iter_key_lt|done|].
  rewrite btree_iter_perm, collect_list_to_map by done. by apply map_to_list_to_map.
Qed.

Lemma StronglySorted_imap_key {V W} (f : nat → Z * V → W) (l : list (Z * V)) :
  StronglySorted key_lt l → StronglySorted key_lt (imap (λ i p, (p.1, f i p)) l).
Proof.
  intros Hl. revert f. induction Hl as [|p l Hl IH Hp]; intros f; simpl; constructor.
  - apply (IH (λ i, f (S i))).
  - rewrite Forall_forall in Hp. apply Forall_forall. intros q Hq.
    apply elem_of_lookup_imap in Hq as (i & r & -> & Hr). unfold key_lt. simpl.
    apply (Hp r). by eapply list_elem_of_lookup_2.
Qed.

(** * Stable sorting *)

(** [slice::sort_by_key], which is stable: an element goes before the first one
    whose key is not smaller. *)
Fixpoint insert_by {A} (key : A → Z) (x : A) (l : list A) : list A :=
  match l with
  | [] => [x]
  | y :: l' => if key x <=? key y then x :: l else y :: insert_by key x l'
  end.

Definition sort_by_key {A} (key : A → Z) : list A → list A := foldr (insert_by key) [].

Section sort_by_key.
Context {A : Type} (key : A → Z).

Lemma insert_by_perm x l : insert_by key x l ≡ₚ x :: l.
Proof.
  induction l as [|y l IH]; simpl; [done|]. destruct (_ <=? _); [done|].
  rewrite IH. by rewrite Permutation_swap.
Qed.

Lemma sort_by_key_perm l : sort_by_key key l ≡ₚ l.
Proof. induction l as [|x l IH]; simpl; [done|]. by rewrite insert_by_perm, IH. Qed.

Lemma insert_by_sorted x l :
  StronglySorted (λ a b, key a <= key b) l → StronglySorted (λ a b, key a <= key b) (insert_by key x l).
Proof.
  induction 1 as [|y l Hl IH Hy]; simpl; [by repeat constructor|].
  destruct (Z.leb_spec (key x) (key y)).
  - constructor; [by constructor|]. constructor; [done|].
    eapply Forall_impl; [exact Hy|]. simpl. intros. lia.
  - constructor; [done|]. rewrite insert_by_perm. constructor; [lia|done].
Qed.

Lemma sort_by_key_sorted l : StronglySorted (λ a b, key a <= key b) (sort_by_key key l).
Proof. induction l; simpl; [constructor|]. by apply insert_by_sorted. Qed.

Lemma elem_of_sort_by_key x l : x ∈ sort_by_key key l ↔ x ∈ l.
Proof. by rewrite sort_by_key_perm. Qed.

(** Elements with the same key keep their order. *)
Lemma sort_by_key_stable l k :
  filter (λ x, key x = k) (sort_by_key key l) = filter (λ x, key x = k) l.
Proof.
  induction l as [|x l IH]; [done|]. simpl.
  rewrite filter_cons, <-IH. clear IH. pose proof (sort_by_key_sorted l) as Hs.
  induction Hs as [|y l' Hl IH Hy]; simpl; [done|].
  destruct (Z.leb_spec (key x) (key y)).
  - by rewrite filter_cons.
  - rewrite !filter_cons, IH. repeat case_decide; congruence || lia.
Qed.
End sort_by_key.

(** * Sorted sets and [omap] *)

Lemma btree_set_iter_sorted s : StronglySorted Z.lt (btree_set_iter s).
Proof.
  pose proof (StronglySorted_merge_sort Z.le (elements s)) as Hs.
  assert (NoDup (btree_set_iter s)) as Hnd.
  { unfold btree_set_iter. rewrite merge_sort_Permutation. apply NoDup_elements. }
  unfold btree_set_iter in *. induction Hs as [|x l Hl IH Hx]; constructor.
  - apply NoDup_cons in Hnd as [_ Hnd]. by apply IH.
  - apply NoDup_cons in Hnd as [Hn _]. rewrite Forall_forall in *. intros y Hy. specialize (Hx y Hy).
    assert (x ≠ y) by (intros ->; done). lia.
Qed.

Lemma btree_set_iter_filter (P : Z → Prop) `{!∀ x, Decision (P x)} s :
  filter P (btree_set_iter s) = btree_set_iter (filter P s).
Proof.
  rewrite <- (btree_set_iter_list (filter P (btree_set_iter s))).
  - f_equal. apply set_eq. intros x. rewrite elem_of_list_to_set, list_elem_of_filter, elem_of_btree_set_iter, elem_of_filter. done.
  - apply filter_sorted, btree_set_iter_sorted.
Qed.

Lemma btree_iter_keys {V} (m : gmap Z V) : (btree_iter m).*1 = btree_set_iter (dom m).
Proof.
  rewrite <- (btree_set_iter_list (btree_iter m).*1) by apply key_lt_fst, btree_iter_key_lt. f_equal.
  apply set_eq. intros k. rewrite elem_of_list_to_set, list_elem_of_fmap, elem_of_dom. split.
  - intros ([k' v] & -> & Hk). apply elem_of_btree_iter in Hk. by eexists.
  - intros [v Hv]. exists (k, v). split; [done|]. by apply elem_of_btree_iter.
Qed.

Lemma omap_ext_elem {A B} (f h : A → option B) (l : list A) : (∀ x, x ∈ l → f x = h x) → omap f l = omap h l.
Proof.
  induction l as [|x l IH]; intros Hf; [done|]. cbn. rewrite (Hf x) by left.
  rewrite IH; [done|]. intros y Hy. apply Hf. by right.
Qed.

Lemma omap_filter_none {A B} (h : A → option B) (P : A → Prop) `{!∀ x, Decision (P x)} (l : list A) :
  (∀ x, x ∈ l → ¬ P x → h x = None) → omap h l = omap h (filter P l).
Proof.
  induction l as [|x l IH]; intros Hn; [done|]. rewrite filter_cons.
  assert (omap h l = omap h (filter P l)) as IH' by (apply IH; intros y Hy; apply Hn; by right).
  case_decide as HP; cbn; rewrite IH'; [done|]. by rewrite (Hn x) by (done || left).
Qed.

(** Only the identifiers of [u] count. *)
Lemma omap_subset {B} (h : Z → option B) (s u : gset Z) :
  u ⊆ s → (∀ x, x ∈ s → x ∉ u → h x = None) → omap h (btree_set_iter s) = omap h (btree_set_iter u).
Proof.
  intros Hu Hn. rewrite (omap_filter_none h (λ x, x ∈ u)).
  - rewrite btree_set_iter_filter. do 2 f_equal. set_solver.
  - intros x Hx%elem_of_btree_set_iter. by apply Hn.
Qed.

Lemma omap_btree_iter {V B} (h : Z * V → option B) (m : gmap Z V) :
  omap h (btree_iter m) = omap (λ k, m !! k ≫= λ v, h (k, v)) (btree_set_iter (dom m)).
Proof.
  rewrite <- btree_iter_keys.
  assert (∀ l : list (Z * V), (∀ k v, (k, v) ∈ l → m !! k = Some v) →
    omap h l = omap (λ k, m !! k ≫= λ v, h (k, v)) l.*1) as Hl.
  { induction l as [|[k v] l IH]; intros Hl; [done|]. cbn. rewrite (Hl k v) by left. cbn.
    rewrite IH; [done|]. intros k' v' Hk. apply Hl. by right. }
  apply Hl. intros k v Hk. by apply elem_of_btree_iter.
Qed.

Lemma omap_fmap_l {A B C} (f : A → B) (h : B → option C) (l : list A) : omap h (f <$> l) = omap (h ∘ f) l.
Proof. induction l as [|x l IH]; [done|]. cbn. by rewrite IH. Qed.

Lemma omap_total {A B} (f : A → B) (h : A → option B) (l : list A) : (∀ x, x ∈ l → h x = Some (f x)) → omap h l = f <$> l.
Proof.
  induction l as [|x l IH]; intros Hh; [done|]. cbn. rewrite (Hh x) by left.
  f_equal. apply IH. intros y Hy. apply Hh. by right.
Qed.

Lemma filter_id {A} (P : A → Prop) `{!∀ x, Decision (P x)} (l : list A) : (∀ x, x ∈ l → P x) → filter P l = l.
Proof.
  induction l as [|x l IH]; intros Hl; [done|]. rewrite filter_cons, decide_True by (apply Hl; left).
  f_equal. apply IH. intros y Hy. apply Hl. by right.
Qed.

(** * Automation *)

(** Arithmetic that does not overflow. *)

Lemma cmul_fits a b : a * b < U64_MOD → cmul a b = Ret (a * b).
Proof. intros. unfold cmul, checked_mul. by rewrite decide_True. Qed.
Lemma cadd_fits a b : a + b < U64_MOD → cadd a b = Ret (a + b).
Proof. intros. unfold cadd, checked_add. by rewrite decide_True. Qed.
Lemma csub_fits a b : b <= a → csub a b = Ret (a - b).
Proof. intros. unfold csub, checked_sub. by rewrite decide_True. Qed.
Lemma wadd_fits a b : 0 <= a + b < U64_MOD → wadd a b = a + b.
Proof. apply Z.mod_small. Qed.
Lemma wsub_fits a b : 0 <= a - b < U64_MOD → wsub a b = a - b.
Proof. apply Z.mod_small. Qed.
Lemma wmul_fits a b : 0 <= a * b < U64_MOD → wmul a b = a * b.
Proof. apply Z.mod_small. Qed.

(** [arith] rewrites machine arithmetic whose side conditions [lia] proves; [sums] has the
    bounds and equations of the sums over lists and sets. *)
Create Rewrite HintDb arith.
#[export] Hint Rewrite cmul_fits cadd_fits csub_fits wadd_fits wsub_fits wmul_fits using lia : arith.
Create HintDb sums.
Create Rewrite HintDb sums.
#[export] Hint Resolve wsum_nonneg wset_nonneg wsum_submseteq wset_mono wsum_elem : sums.
#[export] Hint Rewrite @wsum_nil @wsum_cons @wsum_app @wset_empty @wset_singleton : sums.

(** Case analysis on the successive tests of a definition in hypothesis [H]. *)
Ltac case_in H :=
  match type of H with
  | context [match ?x with _ => _ end] =>
      lazymatch x with
      | context [match _ with _ => _ end] => fail
      | _ => let E := fresh "E" in destruct x eqn:E; simpl in H
      end
  end.
Ltac cases_in H := repeat (case_in H; try discriminate H).

(** Unfolds the monads. *)
Ltac unfold_m :=
  unfold mbind, outcome_bind, st_bind, se_bind, mret, outcome_ret, st_ret, se_ret, fmap,
    outcome_fmap, se_throw, fp_ensure, throw, gets, modify, lift_o, lift_r, assert_, unwrap in *.

(** [lia] with quotients and remainders. *)
Ltac div_lia := Z.to_euclidean_division_equations; lia.
