(* ===== verification/NarwhalConfig.v ===== *)
(** * The Narwhal committee ([narwhal/config/src/committee.rs])

    [Authority], [Committee] and [CommitteeBuilder], with every operation of
    the committee that the consensus uses: the construction with its sanity
    checks, the secondary index by identifier, the two stake thresholds, the
    seeded leader choice and the network-information update.

    A public key, a network key and a network address only matter up to equality and
    order; they are modelled by [Z] (a byte string read as a big-endian
    number, which has the same order).  The [BTreeMap]s are [gmap]s iterated with
    [btree_iter].  Seeded random choice ([rand]'s [StdRng] and [SliceRandom]) is
    the class [SeededRng]. *)
From S2P Require Import Prelude.

Abbreviation PublicKey := Z (only parsing).
Abbreviation AuthorityIdentifier := Z (only parsing).
Abbreviation Multiaddr := Z (only parsing).
Abbreviation Stake := Z (only parsing).
Abbreviation Epoch := Z (only parsing).

Record Authority := mkAuthority {
  auth_id : AuthorityIdentifier;
  auth_protocol_key : PublicKey;
  auth_protocol_key_bytes : Z;
  auth_stake : Stake;
  auth_primary_address : Multiaddr;
  auth_network_key : Z;
  auth_hostname : string;
  auth_initialised : bool;
}.

#[global] Instance Authority_eq_dec : EqDecision Authority.
Proof. solve_decision. Defined.

Module Auth.
(** [Authority::new]; the conversion of a key to its bytes is the identity of
    the model of keys. *)
Definition new (protocol_key : PublicKey) (stake : Stake) (primary_address : Multiaddr)
    (network_key : Z) (hostname : string) : Authority :=
  mkAuthority 0 protocol_key protocol_key stake primary_address network_key hostname false.

Definition initialise (a : Authority) (id : AuthorityIdentifier) : Authority :=
  mkAuthority id (auth_protocol_key a) (auth_protocol_key_bytes a) (auth_stake a)
    (auth_primary_address a) (auth_network_key a) (auth_hostname a) true.

Definition with_primary_address (a : Authority) (address : Multiaddr) : Authority :=
  mkAuthority (auth_id a) (auth_protocol_key a) (auth_protocol_key_bytes a) (auth_stake a)
    address (auth_network_key a) (auth_hostname a) (auth_initialised a).

(** The public accessors check that the authority was initialised. *)
Definition id (a : Authority) : outcome AuthorityIdentifier :=
  assert_ (auth_initialised a);; Ret (auth_id a).
Definition protocol_key (a : Authority) : outcome PublicKey :=
  assert_ (auth_initialised a);; Ret (auth_protocol_key a).
Definition stake (a : Authority) : outcome Stake :=
  assert_ (auth_initialised a);; Ret (auth_stake a).
Definition primary_address (a : Authority) : outcome Multiaddr :=
  assert_ (auth_initialised a);; Ret (auth_primary_address a).
Definition network_key (a : Authority) : outcome Z :=
  assert_ (auth_initialised a);; Ret (auth_network_key a).
Definition hostname (a : Authority) : outcome string :=
  assert_ (auth_initialised a);; Ret (auth_hostname a).
End Auth.

Record Committee := mkCommittee {
  authorities : gmap Z Authority;          (* by public key *)
  authorities_by_id : gmap Z Authority;    (* by identifier *)
  epoch : Epoch;
  quorum_threshold : Stake;
  validity_threshold : Stake;
}.

Inductive CommitteeUpdateError :=
  | NotInCommittee (pk : PublicKey)
  | MissingFromUpdate (pk : PublicKey)
  | DifferentStake (pk : PublicKey).

(** [rand]: a choice made by a generator seeded with a number.  The [as f32]
    cast of the weights belongs to the parameter. *)
Class SeededRng := {
  choose_weighted : Z → list (Authority * Z) → option Authority;
  choose : Z → list Authority → option Authority;
}.

(** What the documentation of [rand] promises of these choices. *)
Class SeededRngLaws (R : SeededRng) : Prop := {
  choose_weighted_elem seed l a : choose_weighted seed l = Some a → a ∈ l.*1;
  choose_weighted_some seed l :
    Forall (λ p, 0 <= p.2) l → (∃ p, p ∈ l ∧ 0 < p.2) → is_Some (choose_weighted seed l);
  choose_elem seed l a : choose seed l = Some a → a ∈ l;
  choose_some seed l : l ≠ [] → is_Some (choose seed l);
}.

Module Comm.
Definition total_stake (c : Committee) : Stake :=
  sum_u64 (auth_stake <$> btree_values (authorities c)).

(** [NonZeroU64::new(v).unwrap().get()]. *)
Definition non_zero (v : Z) : outcome Z := assert_ (negb (v =? 0));; Ret v.

Definition calculate_quorum_threshold (c : Committee) : outcome Stake :=
  let total_votes := total_stake c in
  non_zero (wadd (wmul 2 total_votes / 3) 1).

Definition calculate_validity_threshold (c : Committee) : outcome Stake :=
  let total_votes := total_stake c in
  non_zero (wadd total_votes 2 / 3).

(** The authorities in key order, each initialised with its position; the
    counter is a [u16]. *)
Definition initialised_authorities (m : gmap Z Authority) : list (Z * Authority) :=
  imap (λ i p, (p.1, Auth.initialise p.2 (Z.of_nat i mod U16_MOD))) (btree_iter m).

Definition load (c : Committee) : outcome Committee :=
  let l := initialised_authorities (authorities c) in
  let c' := mkCommittee (collect l) (collect ((λ p, (auth_id p.2, p.2)) <$> l)) (epoch c)
              (quorum_threshold c) (validity_threshold c) in
  v ← calculate_validity_threshold c';
  q ← calculate_quorum_threshold c';
  Ret (mkCommittee (authorities c') (authorities_by_id c') (epoch c') q v).

Definition new (auths : gmap Z Authority) (e : Epoch) : outcome Committee :=
  committee ← load (mkCommittee auths ∅ e 0 0);
  assert_ (bool_decide (size (authorities_by_id committee) = size (authorities committee)));;
  v ← calculate_validity_threshold committee;
  assert_ (validity_threshold committee =? v);;
  q ← calculate_quorum_threshold committee;
  assert_ (quorum_threshold committee =? q);;
  assert_ (forallb (λ b, b) (imap (λ i p, Z.of_nat i mod U16_MOD =? auth_id p.2)
                                (btree_iter (authorities committee))));;
  Ret committee.

Definition authority (c : Committee) (identifier : AuthorityIdentifier) : option Authority :=
  authorities_by_id c !! identifier.

Definition authority_safe (c : Committee) (identifier : AuthorityIdentifier) : outcome Authority :=
  unwrap (authorities_by_id c !! identifier).

Definition authority_by_key (c : Committee) (key : PublicKey) : option Authority :=
  authorities c !! key.

Definition keys (c : Committee) : list PublicKey := (btree_iter (authorities c)).*1.

Definition authorities_iter (c : Committee) : list Authority := btree_values (authorities c).

Definition authority_by_network_key (c : Committee) (network_key : Z) : option Authority :=
  snd <$> head (filter (λ p, auth_network_key p.2 = network_key) (btree_iter (authorities c))).

Definition size (c : Committee) : nat := base.size (authorities c).

Definition stake (c : Committee) (name : PublicKey) : Stake :=
  match authorities c !! name with None => 0 | Some x => auth_stake x end.

Definition stake_by_id (c : Committee) (id : AuthorityIdentifier) : Stake :=
  match authorities_by_id c !! id with None => 0 | Some a => auth_stake a end.

Definition reached_quorum (c : Committee) (s : Stake) : bool := quorum_threshold c <=? s.
Definition reached_validity (c : Committee) (s : Stake) : bool := validity_threshold c <=? s.

(** The choice is seeded by the round; an error of the weighted choice panics. *)
Definition leader `{SeededRng} (c : Committee) (seed : Z) : outcome Authority :=
  let choices := (λ a, (a, auth_stake a)) <$> btree_values (authorities c) in
  unwrap (choose_weighted seed choices).

Definition primary (c : Committee) (to : PublicKey) : option Multiaddr :=
  auth_primary_address <$> authorities c !! to.

Definition primary_by_id (c : Committee) (to : AuthorityIdentifier) : option Multiaddr :=
  auth_primary_address <$> authorities_by_id c !! to.

Definition network_key (c : Committee) (pk : PublicKey) : option Z :=
  auth_network_key <$> authorities c !! pk.

Definition others_primaries (c : Committee) (myself : PublicKey) : list (PublicKey * Multiaddr * Z) :=
  (λ p, (p.1, auth_primary_address p.2, auth_network_key p.2))
    <$> filter (λ p, p.1 ≠ myself) (btree_iter (authorities c)).

Definition get_all_network_addresses (c : Committee) : gset Z :=
  list_to_set (auth_primary_address <$> btree_values (authorities c)).

Definition network_diff (c other : Committee) : gset Z :=
  get_all_network_addresses c ∖ get_all_network_addresses other.

(** The closure [push_error_and_return]. *)
Definition push_error_and_return {A} (acc : result (list CommitteeUpdateError) A)
    (error : CommitteeUpdateError) : result (list CommitteeUpdateError) A :=
  match acc with Err errors => Err (errors ++ [error]) | Ok _ => Err [error] end.

(** One step of the fold over the committee's table; [new_info] loses the key. *)
Definition update_step
    (st : result (list CommitteeUpdateError) (gmap Z Authority) * gmap Z (Stake * Multiaddr))
    (p : Z * Authority) :=
  let '(acc, new_info) := st in
  let '(pk, authority) := p in
  match new_info !! pk with
  | Some (s, address) =>
      (if s =? auth_stake authority then
         match acc with
         | Ok bmap => Ok (<[pk := Auth.with_primary_address authority address]> bmap)
         | Err _ => acc
         end
       else push_error_and_return acc (DifferentStake pk), delete pk new_info)
  | None => (push_error_and_return acc (MissingFromUpdate pk), new_info)
  end.

Definition update_primary_network_info (c : Committee) (new_info : gmap Z (Stake * Multiaddr)) :
    result (list CommitteeUpdateError) unit * Committee :=
  let '(res, unknown) := foldl update_step (Ok ∅, new_info) (btree_iter (authorities c)) in
  let res := foldl (λ acc p, push_error_and_return acc (NotInCommittee p.1)) res (btree_iter unknown) in
  match res with
  | Ok new_table =>
      (Ok tt, mkCommittee new_table (authorities_by_id c) (epoch c) (quorum_threshold c)
                (validity_threshold c))
  | Err errs => (Err errs, c)
  end.

Definition advance_epoch (c : Committee) (new_epoch : Epoch) : outcome Committee :=
  new (authorities c) new_epoch.
End Comm.

Module Builder.
Record CommitteeBuilder := mkBuilder {
  b_epoch : Epoch;
  b_authorities : gmap Z Authority;
}.

Definition new (e : Epoch) : CommitteeBuilder := mkBuilder e ∅.

Definition add_authority (b : CommitteeBuilder) (protocol_key : PublicKey) (stake : Stake)
    (primary_address : Multiaddr) (network_key : Z) (hostname : string) : CommitteeBuilder :=
  mkBuilder (b_epoch b)
    (<[protocol_key := Auth.new protocol_key stake primary_address network_key hostname]>
       (b_authorities b)).

Definition build (b : CommitteeBuilder) : outcome Committee :=
  Comm.new (b_authorities b) (b_epoch b).
End Builder.

(** * Facts about committees *)

(** The input [Comm.new] is meant for: stakes that are [u64]s with a positive
    total that twice over still fits, and at most as many authorities as there are
    identifiers. *)
Definition table_stake (m : gmap Z Authority) : Z := wsum auth_stake (btree_values m).

Record table_ok (m : gmap Z Authority) : Prop := {
  tok_nonneg k a : m !! k = Some a → 0 <= auth_stake a;
  tok_pos : 0 < table_stake m;
  tok_bound : 2 * table_stake m < U64_MOD;
  tok_size : Z.of_nat (base.size m) <= U16_MOD;
}.

(** Well-formed committees: the two tables hold the same initialised
    authorities, identifiers are unique, and the thresholds are those of the
    total stake. *)
Record committee_wf (c : Committee) : Prop := {
  wf_table : table_ok (authorities c);
  wf_by_key k a : authorities c !! k = Some a → authorities_by_id c !! auth_id a = Some a;
  wf_by_id i a : authorities_by_id c !! i = Some a → auth_id a = i ∧ ∃ k, authorities c !! k = Some a;
  wf_inj k1 k2 a1 a2 : authorities c !! k1 = Some a1 → authorities c !! k2 = Some a2 →
    auth_id a1 = auth_id a2 → k1 = k2;
  wf_init k a : authorities c !! k = Some a → auth_initialised a = true;
  wf_quorum : quorum_threshold c = 2 * table_stake (authorities c) / 3 + 1;
  wf_validity : validity_threshold c = (table_stake (authorities c) + 2) / 3;
}.

(** The stake of a set of identifiers. *)
Definition set_stake (c : Committee) (s : gset Z) : Z := wset (Comm.stake_by_id c) s.

(** All the identifiers of the committee. *)
Definition members (c : Committee) : gset Z := dom (authorities_by_id c).

Lemma total_stake_table c : table_ok (authorities c) →
  Comm.total_stake c = table_stake (authorities c).
Proof.
  intros Hok. unfold Comm.total_stake. apply sum_u64_zsum.
  - intros x (a & -> & (k & Hk)%elem_of_btree_values)%list_elem_of_fmap.
    by eapply tok_nonneg.
  - pose proof (tok_bound _ Hok). pose proof (tok_pos _ Hok).
    unfold table_stake, wsum in *. lia.
Qed.

Lemma thresholds_spec c : table_ok (authorities c) →
  Comm.calculate_quorum_threshold c = Ret (2 * table_stake (authorities c) / 3 + 1) ∧
  Comm.calculate_validity_threshold c = Ret ((table_stake (authorities c) + 2) / 3).
Proof.
  intros Hok. pose proof (tok_bound _ Hok). pose proof (tok_pos _ Hok).
  unfold Comm.calculate_quorum_threshold, Comm.calculate_validity_threshold.
  rewrite total_stake_table by done. set (T := table_stake (authorities c)) in *.
  unfold Comm.non_zero, wadd, wmul, U64_MOD in *.
  rewrite (Z.mod_small (2 * T)), (Z.mod_small (T + 2)), (Z.mod_small (2 * T / 3 + 1)) by div_lia.
  assert ((2 * T / 3 + 1 =? 0) = false) as -> by div_lia.
  assert (((T + 2) / 3 =? 0) = false) as -> by div_lia. done.
Qed.

Lemma initialised_lookup m i k a : btree_iter m !! i = Some (k, a) →
  Comm.initialised_authorities m !! i = Some (k, Auth.initialise a (Z.of_nat i mod U16_MOD)).
Proof. intros Hi. unfold Comm.initialised_authorities. by rewrite list_lookup_imap, Hi. Qed.

Lemma elem_of_initialised m k a : (k, a) ∈ Comm.initialised_authorities m ↔
  ∃ i a0, btree_iter m !! i = Some (k, a0) ∧ a = Auth.initialise a0 (Z.of_nat i mod U16_MOD).
Proof.
  unfold Comm.initialised_authorities. rewrite elem_of_lookup_imap. split.
  - intros (i & [k0 a0] & [= -> ->] & Hi). eauto.
  - intros (i & a0 & Hi & ->). by exists i, (k, a0).
Qed.

Lemma initialised_sorted m : StronglySorted key_lt (Comm.initialised_authorities m).
Proof. apply StronglySorted_imap_key, btree_iter_key_lt. Qed.

Lemma collect_initialised m k a : collect (Comm.initialised_authorities m) !! k = Some a ↔
  ∃ i a0, btree_iter m !! i = Some (k, a0) ∧ a = Auth.initialise a0 (Z.of_nat i mod U16_MOD).
Proof.
  rewrite collect_lookup by (apply key_lt_NoDup, initialised_sorted). apply elem_of_initialised.
Qed.

Lemma initialised_stakes m :
  auth_stake <$> (Comm.initialised_authorities m).*2 = auth_stake <$> btree_values m.
Proof.
  unfold Comm.initialised_authorities, btree_values. apply list_eq. intros i.
  rewrite !list_lookup_fmap, list_lookup_imap. by destruct (btree_iter m !! i).
Qed.

Lemma initialised_id_NoDup m : table_ok m →
  NoDup ((λ p : Z * Authority, auth_id p.2) <$> Comm.initialised_authorities m).
Proof.
  intros Hok. apply NoDup_alt. intros i j x Hi Hj.
  rewrite list_lookup_fmap in Hi, Hj. unfold Comm.initialised_authorities in Hi, Hj.
  rewrite list_lookup_imap in Hi, Hj.
  destruct (btree_iter m !! i) eqn:Ei; [|done]. destruct (btree_iter m !! j) eqn:Ej; [|done].
  simpl in Hi, Hj. injection Hi as <-. injection Hj as Hj.
  apply lookup_lt_Some in Ei, Ej. rewrite length_btree_iter in Ei, Ej.
  pose proof (tok_size _ Hok). rewrite !Z.mod_small in Hj by lia. lia.
Qed.

Lemma collect_by_id m i a : table_ok m →
  collect ((λ p : Z * Authority, (auth_id p.2, p.2)) <$> Comm.initialised_authorities m) !! i = Some a
  ↔ auth_id a = i ∧ ∃ k, (k, a) ∈ Comm.initialised_authorities m.
Proof.
  intros Hok. rewrite collect_lookup.
  - rewrite list_elem_of_fmap. split.
    + intros ([k a'] & [= -> ->] & ?). eauto.
    + intros (<- & k & ?). by exists (k, a).
  - rewrite <-list_fmap_compose. by apply initialised_id_NoDup.
Qed.

Lemma load_spec m e : table_ok m → ∃ c, Comm.load (mkCommittee m ∅ e 0 0) = Ret c ∧
  committee_wf c ∧ epoch c = e ∧ authorities c = collect (Comm.initialised_authorities m) ∧
  table_stake (authorities c) = table_stake m ∧
  base.size (authorities c) = base.size m ∧ base.size (authorities_by_id c) = base.size m.
Proof.
  intros Hok. pose proof (initialised_sorted m) as Hs.
  pose proof (btree_iter_collect _ Hs) as Hit. pose proof (key_lt_NoDup _ Hs) as Hnd.
  set (l := Comm.initialised_authorities m) in *.
  assert (table_stake (collect l) = table_stake m) as Hst.
  { unfold table_stake, wsum, btree_values. rewrite Hit. unfold l.
    by rewrite initialised_stakes. }
  assert (base.size (collect l) = base.size m) as Hsz.
  { rewrite <-length_btree_iter, Hit. unfold l, Comm.initialised_authorities.
    by rewrite length_imap, length_btree_iter. }
  assert (table_ok (collect l)) as Hok'.
  { split; rewrite ?Hst, ?Hsz; try apply Hok.
    intros k a (i & a0 & Hi & ->)%collect_initialised.
    apply (tok_nonneg _ Hok k a0), elem_of_btree_iter.
    by eapply list_elem_of_lookup_2. }
  set (by_id := collect ((λ p : Z * Authority, (auth_id p.2, p.2)) <$> l)).
  destruct (thresholds_spec (mkCommittee (collect l) by_id e 0 0) Hok') as [Hq Hv].
  unfold Comm.load, mbind, outcome_bind. cbv zeta. cbn [authorities epoch
    authorities_by_id quorum_threshold validity_threshold] in *. fold l. fold by_id.
  rewrite Hv, Hq. eexists. split; [reflexivity|]. simpl.
  split_and!; try done.
  - split; simpl; try done.
    + intros k a Hk%collect_lookup; [|done]. apply collect_by_id; eauto.
    + intros i a (<- & k & Hk)%collect_by_id; [|done].
      split; [done|]. exists k. by apply collect_lookup.
    + intros k1 k2 a1 a2 H1%collect_lookup H2%collect_lookup Hid; [|done..].
      apply list_elem_of_lookup in H1 as [i Hi], H2 as [j Hj].
      assert (i = j) as ->.
      { eapply (NoDup_lookup _ i j (auth_id a1)); [by apply (initialised_id_NoDup m)|..];
          rewrite list_lookup_fmap; fold l; rewrite ?Hi, ?Hj; simpl; congruence. }
      congruence.
    + intros k a (i & a0 & Hi & ->)%collect_initialised; done.
  - unfold by_id. rewrite collect_list_to_map.
    + rewrite map_size_list_to_map; [by rewrite length_fmap, <-Hsz, <-(length_btree_iter (collect l)), Hit|].
      rewrite <-list_fmap_compose. by apply initialised_id_NoDup.
    + rewrite <-list_fmap_compose. by apply initialised_id_NoDup.
Qed.

Lemma new_spec m e : table_ok m → ∃ c, Comm.new m e = Ret c ∧ committee_wf c ∧ epoch c = e ∧
  authorities c = collect (Comm.initialised_authorities m).
Proof.
  intros Hok. destruct (load_spec m e Hok) as (c & Hl & Hwf & He & Ha & Hst & Hs1 & Hs2).
  exists c. split_and!; try done. unfold Comm.new. rewrite Hl. simpl.
  destruct (thresholds_spec c (wf_table c Hwf)) as [Hq Hv].
  rewrite bool_decide_eq_true_2 by congruence. simpl. rewrite Hv. simpl.
  rewrite (wf_validity c Hwf), Z.eqb_refl. simpl. rewrite Hq. simpl.
  rewrite (wf_quorum c Hwf), Z.eqb_refl. simpl.
  rewrite Ha, btree_iter_collect by apply initialised_sorted.
  destruct (forallb _ _) eqn:Hb; [done|]. exfalso.
  apply not_true_iff_false in Hb. apply Hb, forallb_forall. intros b Hin.
  apply list_elem_of_In, elem_of_lookup_imap in Hin as (i & [k a] & -> & Hi).
  unfold Comm.initialised_authorities in Hi. rewrite list_lookup_imap in Hi.
  destruct (btree_iter m !! i) as [[k0 a0]|]; [|done]. simpl in Hi.
  injection Hi as <- <-. simpl. apply Z.eqb_refl.
Qed.

Lemma new_wf m e c : table_ok m → Comm.new m e = Ret c → committee_wf c.
Proof. intros Hok Hc. destruct (new_spec m e Hok) as (c' & Hc' & Hwf & _). congruence. Qed.

Lemma stake_by_id_nonneg c i : committee_wf c → 0 <= Comm.stake_by_id c i.
Proof.
  intros Hwf. unfold Comm.stake_by_id. destruct (_ !! i) as [a|] eqn:E; [|done].
  apply (wf_by_id c Hwf) in E as [_ [k Hk]]. exact (tok_nonneg _ (wf_table c Hwf) _ _ Hk).
Qed.

Lemma members_stake c : committee_wf c → set_stake c (members c) = table_stake (authorities c).
Proof.
  intros Hwf. set (ids := auth_id <$> btree_values (authorities c)).
  assert (NoDup ids) as Hnd.
  { unfold ids, btree_values. rewrite <-list_fmap_compose. apply NoDup_fmap_2_strong.
    - intros [k1 a1] [k2 a2] H1%elem_of_btree_iter H2%elem_of_btree_iter Heq. simpl in Heq.
      assert (k1 = k2) as -> by (by eapply wf_inj). congruence.
    - eapply NoDup_fmap_1, NoDup_btree_keys. }
  assert (members c = list_to_set ids) as ->.
  { apply set_eq. intros i. unfold members, ids.
    rewrite elem_of_dom, elem_of_list_to_set, list_elem_of_fmap. split.
    - intros [a Ha]. destruct (wf_by_id c Hwf _ _ Ha) as [<- [k Hk]].
      exists a. split; [done|]. apply elem_of_btree_values. eauto.
    - intros (a & -> & [k Hk]%elem_of_btree_values). eexists. by eapply wf_by_key. }
  unfold set_stake. rewrite wset_list_to_set by done. unfold ids, table_stake, wsum.
  rewrite <-list_fmap_compose. f_equal. apply list_fmap_ext. intros i a Hi%list_elem_of_lookup_2.
  apply elem_of_btree_values in Hi as [k Hk]. simpl. unfold Comm.stake_by_id.
  by rewrite (wf_by_key c Hwf _ _ Hk).
Qed.

Lemma quorum_intersection_wf c s t : committee_wf c → s ⊆ members c → t ⊆ members c →
  quorum_threshold c <= set_stake c s → quorum_threshold c <= set_stake c t →
  validity_threshold c <= set_stake c (s ∩ t).
Proof.
  intros Hwf Hs Ht Hqs Hqt. pose proof (members_stake c Hwf) as HT.
  pose proof (wset_inter_ge _ (λ i, stake_by_id_nonneg c i Hwf) (members c) s t Hs Ht) as Hi.
  fold (set_stake c s) (set_stake c t) (set_stake c (members c)) (set_stake c (s ∩ t)) in Hi.
  rewrite (wf_quorum c Hwf) in *. rewrite (wf_validity c Hwf). div_lia.
Qed.

Lemma quorum_available_wf c f : committee_wf c → f ⊆ members c →
  set_stake c f < validity_threshold c →
  quorum_threshold c <= set_stake c (members c ∖ f).
Proof.
  intros Hwf Hf Hlt. pose proof (members_stake c Hwf) as HT.
  unfold set_stake in *. rewrite (wset_difference _ (members c) f Hf) in HT.
  rewrite (wf_quorum c Hwf). rewrite (wf_validity c Hwf) in Hlt. div_lia.
Qed.

(** A set with less than [validity_threshold] stake cannot meet every quorum:
    a quorum and a set that reaches availability always share a member. *)
Lemma quorum_validity_meet c s t : committee_wf c → s ⊆ members c → t ⊆ members c →
  quorum_threshold c <= set_stake c s → validity_threshold c <= set_stake c t →
  s ∩ t ≠ ∅.
Proof.
  intros Hwf Hs Ht Hqs Hvt Hem. pose proof (members_stake c Hwf) as HT.
  pose proof (wset_inter_ge _ (λ i, stake_by_id_nonneg c i Hwf) (members c) s t Hs Ht) as Hi.
  rewrite Hem, wset_empty in Hi. unfold set_stake in *.
  rewrite (wf_quorum c Hwf) in *. rewrite (wf_validity c Hwf) in *. div_lia.
Qed.

(** ** The network-information update *)

(** [new_info] names exactly the authorities of the table, with their stakes. *)
Definition info_matches (m : gmap Z Authority) (new_info : gmap Z (Stake * Multiaddr)) : Prop :=
  dom new_info = dom m ∧
  ∀ k a s addr, m !! k = Some a → new_info !! k = Some (s, addr) → s = auth_stake a.

(** The fold over a prefix [l] of the table: either every key seen so far had
    matching information, or errors were recorded. *)
Definition fold_ok (l : list (Z * Authority)) (new_info : gmap Z (Stake * Multiaddr))
    (bmap : gmap Z Authority) : Prop :=
  (∀ k a, (k, a) ∈ l → ∃ addr, new_info !! k = Some (auth_stake a, addr) ∧
     bmap !! k = Some (Auth.with_primary_address a addr)) ∧
  (∀ k, k ∉ l.*1 → bmap !! k = None).

Definition fold_inv (l : list (Z * Authority)) (new_info : gmap Z (Stake * Multiaddr))
    (st : result (list CommitteeUpdateError) (gmap Z Authority) * gmap Z (Stake * Multiaddr)) : Prop :=
  (∀ k, st.2 !! k = if decide (k ∈ l.*1) then None else new_info !! k) ∧
  match st.1 with
  | Ok bmap => fold_ok l new_info bmap
  | Err errs => errs ≠ [] ∧ ∃ k a, (k, a) ∈ l ∧ ∀ addr, new_info !! k ≠ Some (auth_stake a, addr)
  end.

Lemma fold_inv_step l new_info st k a : k ∉ l.*1 → fold_inv l new_info st →
  fold_inv (l ++ [(k, a)]) new_info (Comm.update_step st (k, a)).
Proof.
  destruct st as [acc info]. intros Hk [Hinfo Hacc]. simpl in Hinfo, Hacc.
  pose proof (Hinfo k) as Hik. rewrite decide_False in Hik by done.
  assert (∀ k' : Z, k' ∈ (l ++ [(k, a)]).*1 ↔ k' = k ∨ k' ∈ l.*1) as Hin.
  { intros k'. rewrite fmap_app. set_solver. }
  split.
  - intros k'. simpl. rewrite Hik. pose proof (Hinfo k') as Hk'.
    destruct (new_info !! k) as [[s addr]|] eqn:Hn; simpl.
    + rewrite lookup_delete, Hk'. repeat case_decide; try done; naive_solver.
    + rewrite Hk'. repeat case_decide; naive_solver.
  - simpl. rewrite Hik. destruct (new_info !! k) as [[s addr]|] eqn:Hn; simpl.
    + destruct (Z.eqb_spec s (auth_stake a)) as [->|Hne]; destruct acc as [bmap|errs]; simpl.
      * destruct Hacc as [Hb1 Hb2]. split.
        -- intros k' a' [Hl|Heq]%elem_of_app.
           ++ destruct (Hb1 _ _ Hl) as (addr' & ? & ?). exists addr'. split; [done|].
              rewrite lookup_insert_ne; [done|]. intros <-. apply Hk.
              by apply (list_elem_of_fmap_2 fst) in Hl.
           ++ apply list_elem_of_singleton in Heq as [= -> ->]. exists addr.
              by rewrite lookup_insert_eq.
        -- intros k' Hk'. rewrite Hin in Hk'. rewrite lookup_insert_ne by naive_solver.
           apply Hb2. naive_solver.
      * destruct Hacc as (? & k' & a' & ? & ?). split; [done|]. exists k', a'. set_solver.
      * split; [done|]. exists k, a. split; [set_solver|]. intros. congruence.
      * split; [by destruct errs|]. exists k, a. split; [set_solver|]. intros. congruence.
    + destruct acc as [bmap|errs]; simpl; (split; [by try destruct errs|]);
        exists k, a; (split; [set_solver|]); intros; congruence.
Qed.

Lemma fold_inv_table (l : list (Z * Authority)) new_info : NoDup l.*1 →
  fold_inv l new_info (foldl Comm.update_step (Ok ∅, new_info) l).
Proof.
  induction l as [|[k a] l IH] using rev_ind; intros Hnd.
  - split; [done|]. simpl. split; [set_solver|done].
  - rewrite fmap_app in Hnd. apply NoDup_app in Hnd as (Hnd & Hk & _).
    rewrite foldl_app. simpl. apply fold_inv_step; [set_solver|]. auto.
Qed.

Lemma foldl_push_error {A B} (f : B → CommitteeUpdateError) l
    (r : result (list CommitteeUpdateError) A) :
  foldl (λ acc p, Comm.push_error_and_return acc (f p)) r l =
  match l with
  | [] => r
  | _ => Err (match r with Ok _ => [] | Err e => e end ++ (f <$> l))
  end.
Proof.
  revert r. induction l as [|x l IH]; intros r; [done|]. simpl. rewrite IH.
  destruct l, r; simpl; by rewrite <-?app_assoc.
Qed.

Lemma update_ok c new_info : info_matches (authorities c) new_info →
  ∃ c', Comm.update_primary_network_info c new_info = (Ok tt, c') ∧
    authorities_by_id c' = authorities_by_id c ∧
    (∀ k, authorities c' !! k =
       a ← authorities c !! k; i ← new_info !! k; Some (Auth.with_primary_address a i.2)).
Proof.
  intros [Hdom Hst]. unfold Comm.update_primary_network_info.
  pose proof (fold_inv_table (btree_iter (authorities c)) new_info (NoDup_btree_keys _)) as Hinv.
  destruct (foldl _ _ _) as [acc info]. destruct Hinv as [Hinfo Hacc]. simpl in *.
  assert (∀ k, k ∈ (btree_iter (authorities c)).*1 ↔ k ∈ dom (authorities c)) as Hkeys.
  { intros k. rewrite elem_of_dom, list_elem_of_fmap. split.
    - intros ([k' a] & -> & ?%elem_of_btree_iter). by eexists.
    - intros [a ?%elem_of_btree_iter]. by exists (k, a). }
  assert (info = ∅) as ->.
  { apply map_empty. intros k. rewrite Hinfo. case_decide as Hk; [done|].
    apply not_elem_of_dom. rewrite Hdom. naive_solver. }
  rewrite foldl_push_error. replace (btree_iter (∅ : gmap Z (Z * Z))) with (@nil (Z * (Z * Z))) by done.
  destruct acc as [bmap|errs].
  - eexists. split_and!; [done|done|]. destruct Hacc as [H1 H2]. intros k. simpl.
    destruct (authorities c !! k) as [a|] eqn:Ha; simpl.
    + destruct (H1 k a) as (addr & -> & ->); [|done]. by apply elem_of_btree_iter.
    + apply H2. rewrite Hkeys. by apply not_elem_of_dom.
  - exfalso. destruct Hacc as (_ & k & a & Hin%elem_of_btree_iter & Hn).
    assert (k ∈ dom new_info) as [[s addr] Hs]%elem_of_dom by (rewrite Hdom; by eapply elem_of_dom_2).
    apply (Hn addr). rewrite Hs. repeat f_equal. by eapply Hst.
Qed.

Lemma update_err c new_info : ¬ info_matches (authorities c) new_info →
  ∃ errs, errs ≠ [] ∧ Comm.update_primary_network_info c new_info = (Err errs, c).
Proof.
  intros Hnot. unfold Comm.update_primary_network_info.
  pose proof (fold_inv_table (btree_iter (authorities c)) new_info (NoDup_btree_keys _)) as Hinv.
  destruct (foldl _ _ _) as [acc info]. destruct Hinv as [Hinfo Hacc]. simpl in *.
  rewrite foldl_push_error. destruct (btree_iter info) as [|p l] eqn:Hl.
  2:{ eexists. split; [|done]. intros [_ Hnil]%app_nil. by apply fmap_nil_inv in Hnil. }
  destruct acc as [bmap|errs]; [|naive_solver].
  exfalso. apply Hnot. destruct Hacc as [H1 H2]. split.
  - apply set_eq. intros k. rewrite !elem_of_dom. split.
    + intros [i Hi]. destruct (authorities c !! k) as [a|] eqn:Ha; [by eexists|]. exfalso.
      assert (info !! k = Some i) as Hk.
      { rewrite Hinfo, decide_False; [done|].
        intros ([k' a] & -> & Hin%elem_of_btree_iter)%list_elem_of_fmap. simpl in *. congruence. }
      apply elem_of_btree_iter in Hk. rewrite Hl in Hk. set_solver.
    + intros [a Ha%elem_of_btree_iter]. destruct (H1 _ _ Ha) as (addr & Hi & _). by eexists.
  - intros k a s addr Ha%elem_of_btree_iter Hs. destruct (H1 _ _ Ha) as (addr' & Hi & _). congruence.
Qed.

(** * A seeded choice that meets the laws of [SeededRng] *)

Definition first_positive (l : list (Authority * Z)) : option Authority :=
  fst <$> head (filter (λ p, 0 < p.2) l).

#[global] Instance cyclic_rng : SeededRng := {
  choose_weighted seed l := first_positive l;
  choose seed l := l !! (Z.to_nat seed mod length l)%nat;
}.

#[global] Instance cyclic_rng_laws : SeededRngLaws cyclic_rng.
Proof.
  split; simpl; unfold first_positive.
  - intros _ l a Hh. destruct (head _) as [p|] eqn:E; [|done]. injection Hh as <-.
    apply head_Some_elem_of, list_elem_of_filter in E as [_ ?]. by apply list_elem_of_fmap_2.
  - intros _ l _ (p & Hp & Hpos). destruct (head _) as [q|] eqn:E; [by eexists|].
    apply head_None in E. assert (p ∈ filter (λ p, 0 < p.2) l) as Hin by (by apply list_elem_of_filter).
    rewrite E in Hin. set_solver.
  - intros seed l a Hl. by eapply list_elem_of_lookup_2.
  - intros seed l Hl. apply lookup_lt_is_Some. apply Nat.mod_upper_bound. by destruct l.
Qed.

(** * Properties *)

(** A committee of four authorities for the examples: keys 10, 20, 30, 40. *)
Definition example_table : gmap Z Authority :=
  list_to_map [(30, Auth.new 30 1 300 3000 "c"); (10, Auth.new 10 1 100 1000 "a");
               (40, Auth.new 40 1 400 4000 "d"); (20, Auth.new 20 1 200 2000 "b")].

Lemma example_table_ok : table_ok example_table.
Proof.
  split; [|vm_compute; reflexivity..|vm_compute; discriminate].
  assert (Forall (λ p : Z * Authority, 0 <= auth_stake p.2) (map_to_list example_table)) as HF.
  { vm_compute. repeat constructor; discriminate. }
  intros k a Hk%elem_of_map_to_list. rewrite Forall_forall in HF. exact (HF (k, a) Hk).
Qed.

Definition example_committee : Committee :=
  match Comm.new example_table 1 with Ret c => c | _ => mkCommittee ∅ ∅ 0 0 0 end.

(** C38: building a committee from a non-empty table of authorities whose stake
    fits and whose number fits the identifier type never panics, and gives every
    key an initialised authority with its stake unchanged, retrievable under its
    identifier, with identifiers that are distinct. *)
Theorem committee_new_correct m e : table_ok m →
  ∃ c, Comm.new m e = Ret c ∧ epoch c = e ∧
    (∀ k, Comm.stake c k = match m !! k with Some a => auth_stake a | None => 0 end) ∧
    (∀ k a, Comm.authority_by_key c k = Some a →
       Auth.id a = Ret (auth_id a) ∧ Comm.authority c (auth_id a) = Some a) ∧
    (∀ i a, Comm.authority c i = Some a → Auth.id a = Ret i) ∧
    (∀ k1 k2 a1 a2, Comm.authority_by_key c k1 = Some a1 → Comm.authority_by_key c k2 = Some a2 →
       auth_id a1 = auth_id a2 → k1 = k2).
Proof.
  intros Hok. destruct (new_spec m e Hok) as (c & Hc & Hwf & He & Ha).
  exists c. split_and!; [done|done| | | |].
  - intros k. unfold Comm.stake. destruct (authorities c !! k) as [a|] eqn:E; rewrite Ha in E.
    + apply collect_initialised in E as (i & a0 & Hi%list_elem_of_lookup_2 & ->).
      apply elem_of_btree_iter in Hi. by rewrite Hi.
    + destruct (m !! k) as [a0|] eqn:Em; [|done].
      apply elem_of_btree_iter, list_elem_of_lookup in Em as [i Hi].
      assert (is_Some (collect (Comm.initialised_authorities m) !! k)) as [? ?]; [|congruence].
      eexists. apply collect_initialised. eauto.
  - intros k a Hk. unfold Auth.id. rewrite (wf_init c Hwf k a Hk).
    split; [done|]. by eapply wf_by_key.
  - intros i a Hi. destruct (wf_by_id c Hwf i a Hi) as [<- [k Hk]].
    unfold Auth.id. by rewrite (wf_init c Hwf k a Hk).
  - intros k1 k2 a1 a2. apply (wf_inj c Hwf).
Qed.

Lemma committee_new_correct_witness :
  table_ok example_table ∧ ∃ c, Comm.new example_table 1 = Ret c ∧ epoch c = 1.
Proof.
  split; [exact example_table_ok|].
  destruct (committee_new_correct example_table 1 example_table_ok) as (c & Hc & He & _).
  exists c. exact (conj Hc He).
Defined.

(** in a committee built by [Comm.new], two sets of members that both reach the
    quorum threshold share members whose stake reaches the validity threshold, so
    at least one honest member when the faulty stake stays below it. *)
Theorem quorum_intersection m e c s t : table_ok m → Comm.new m e = Ret c →
  s ⊆ members c → t ⊆ members c →
  Comm.reached_quorum c (set_stake c s) = true →
  Comm.reached_quorum c (set_stake c t) = true →
  Comm.reached_validity c (set_stake c (s ∩ t)) = true.
Proof.
  intros Hok Hc Hs Ht Hqs Hqt. destruct (new_spec m e Hok) as (c' & Hc' & Hwf & _).
  assert (c' = c) as -> by congruence. apply Z.leb_le.
  apply Z.leb_le in Hqs, Hqt. by apply quorum_intersection_wf.
Qed.

Lemma quorum_intersection_witness :
  Comm.reached_validity example_committee
    (set_stake example_committee ({[0; 1; 2]} ∩ {[1; 2; 3]})) = true.
Proof.
  apply (quorum_intersection example_table 1 example_committee {[0; 1; 2]} {[1; 2; 3]});
    [exact example_table_ok|vm_compute; reflexivity| | |vm_compute; reflexivity..].
  - apply (bool_decide_unpack _). vm_compute. exact I.
  - apply (bool_decide_unpack _). vm_compute. exact I.
Defined.

(** When the stake of the faulty members stays below the validity threshold,
    the other members reach the quorum threshold on their own. *)
Theorem quorum_available m e c faulty : table_ok m → Comm.new m e = Ret c →
  faulty ⊆ members c →
  Comm.reached_validity c (set_stake c faulty) = false →
  Comm.reached_quorum c (set_stake c (members c ∖ faulty)) = true.
Proof.
  intros Hok Hc Hf Hv. destruct (new_spec m e Hok) as (c' & Hc' & Hwf & _).
  assert (c' = c) as -> by congruence. apply Z.leb_le.
  apply Z.leb_gt in Hv. by apply quorum_available_wf.
Qed.

Lemma quorum_available_witness :
  Comm.reached_quorum example_committee
    (set_stake example_committee (members example_committee ∖ {[2]})) = true.
Proof.
  apply (quorum_available example_table 1 example_committee {[2]});
    [exact example_table_ok|vm_compute; reflexivity| |vm_compute; reflexivity].
  apply (bool_decide_unpack _). vm_compute. exact I.
Defined.

(** the network-information update succeeds exactly when the information
    covers the committee's keys with their stakes; then [primary] returns the
    new addresses while [primary_by_id] still returns the old ones, since the index
    by identifier is left as it was.  On a mismatch nothing changes. *)
Theorem update_network_info_spec c new_info :
  (info_matches (authorities c) new_info →
   ∃ c', Comm.update_primary_network_info c new_info = (Ok tt, c') ∧
     (∀ k, Comm.primary c' k = (_ ← authorities c !! k; snd <$> new_info !! k)) ∧
     (∀ i, Comm.primary_by_id c' i = Comm.primary_by_id c i)) ∧
  (¬ info_matches (authorities c) new_info →
   ∃ errs, errs ≠ [] ∧ Comm.update_primary_network_info c new_info = (Err errs, c)).
Proof.
  split; [|apply update_err]. intros Hm.
  destruct (update_ok c new_info Hm) as (c' & Hu & Hid & Hl). exists c'. split_and!; [done| |].
  - intros k. unfold Comm.primary. rewrite Hl.
    destruct (authorities c !! k); [|done]. by destruct (new_info !! k) as [[??]|].
  - intros i. unfold Comm.primary_by_id. by rewrite Hid.
Qed.
