(* ===== verification/NarwhalTypes.v ===== *)
(** * Headers, certificates and committed sub-dags
    ([narwhal/types/src/primary.rs], [narwhal/types/src/consensus.rs])

    The data that the consensus orders: headers and certificates with the
    accessors of [HeaderAPI] and [CertificateAPI], and the outputs of a commit,
    [CommittedSubDag], [ReputationScores] and the persisted [ConsensusCommit].

    The digest of a header is a BLAKE2b hash ([fastcrypto]) that the header caches in
    a [OnceCell]; the model keeps the cached value.  That two headers with the same
    digest are the same header is never built in: a theorem that needs it says so.
    Signatures and batch digests are opaque numbers; a roaring bitmap is the set of
    its members; an [IndexMap] is the list of its entries in insertion order. *)
From S2P Require Import Prelude NarwhalConfig.

Abbreviation Round := Z (only parsing).
Abbreviation TimestampMs := Z (only parsing).
Abbreviation CertificateDigest := Z (only parsing).
Abbreviation SequenceNumber := Z (only parsing).

Inductive SystemMessage :=
  | DkgMessage (bytes : list Z)
  | DkgConfirmation (bytes : list Z)
  | RandomnessSignature (round : Z) (bytes : list Z).

Record HeaderV1 := mkHeaderV1 {
  h1_author : AuthorityIdentifier;
  h1_round : Round;
  h1_epoch : Epoch;
  h1_created_at : TimestampMs;
  h1_payload : list (Z * (Z * TimestampMs));
  h1_parents : gset Z;
  h1_digest : Z;
}.

Record HeaderV2 := mkHeaderV2 {
  h2_author : AuthorityIdentifier;
  h2_round : Round;
  h2_epoch : Epoch;
  h2_created_at : TimestampMs;
  h2_payload : list (Z * (Z * TimestampMs));
  h2_system_messages : list SystemMessage;
  h2_parents : gset Z;
  h2_digest : Z;
}.

Inductive Header :=
  | HV1 (h : HeaderV1)
  | HV2 (h : HeaderV2).

Inductive SignatureVerificationState :=
  | Unsigned (bytes : Z)
  | Unverified (bytes : Z)
  | VerifiedDirectly (bytes : Z)
  | VerifiedIndirectly (bytes : Z)
  | Genesis.

Record CertificateV1 := mkCertificateV1 {
  c1_header : Header;
  c1_aggregated_signature : Z;
  c1_signed_authorities : gset Z;
  c1_created_at : TimestampMs;
}.

Record CertificateV2 := mkCertificateV2 {
  c2_header : Header;
  c2_signature_verification_state : SignatureVerificationState;
  c2_signed_authorities : gset Z;
  c2_created_at : TimestampMs;
}.

Inductive Certificate :=
  | CV1 (c : CertificateV1)
  | CV2 (c : CertificateV2).

#[global] Instance SystemMessage_eq_dec : EqDecision SystemMessage.
Proof. solve_decision. Defined.
#[global] Instance HeaderV1_eq_dec : EqDecision HeaderV1.
Proof. solve_decision. Defined.
#[global] Instance HeaderV2_eq_dec : EqDecision HeaderV2.
Proof. solve_decision. Defined.
#[global] Instance Header_eq_dec : EqDecision Header.
Proof. solve_decision. Defined.
#[global] Instance SignatureVerificationState_eq_dec : EqDecision SignatureVerificationState.
Proof. solve_decision. Defined.
#[global] Instance CertificateV1_eq_dec : EqDecision CertificateV1.
Proof. solve_decision. Defined.
#[global] Instance CertificateV2_eq_dec : EqDecision CertificateV2.
Proof. solve_decision. Defined.
#[global] Instance Certificate_eq_dec : EqDecision Certificate.
Proof. solve_decision. Defined.

Module HeaderAPI.
Definition author (h : Header) : AuthorityIdentifier :=
  match h with HV1 h => h1_author h | HV2 h => h2_author h end.
Definition round (h : Header) : Round :=
  match h with HV1 h => h1_round h | HV2 h => h2_round h end.
Definition epoch (h : Header) : Epoch :=
  match h with HV1 h => h1_epoch h | HV2 h => h2_epoch h end.
Definition created_at (h : Header) : TimestampMs :=
  match h with HV1 h => h1_created_at h | HV2 h => h2_created_at h end.
Definition payload (h : Header) : list (Z * (Z * TimestampMs)) :=
  match h with HV1 h => h1_payload h | HV2 h => h2_payload h end.
Definition system_messages (h : Header) : list SystemMessage :=
  match h with HV1 _ => [] | HV2 h => h2_system_messages h end.
Definition parents (h : Header) : gset Z :=
  match h with HV1 h => h1_parents h | HV2 h => h2_parents h end.
Definition digest (h : Header) : Z :=
  match h with HV1 h => h1_digest h | HV2 h => h2_digest h end.
End HeaderAPI.

Module Cert.
Definition header (c : Certificate) : Header :=
  match c with CV1 c => c1_header c | CV2 c => c2_header c end.
Definition aggregated_signature (c : Certificate) : option Z :=
  match c with
  | CV1 c => Some (c1_aggregated_signature c)
  | CV2 c =>
      match c2_signature_verification_state c with
      | VerifiedDirectly bytes | Unverified bytes | VerifiedIndirectly bytes | Unsigned bytes =>
          Some bytes
      | Genesis => None
      end
  end.
Definition signed_authorities (c : Certificate) : gset Z :=
  match c with CV1 c => c1_signed_authorities c | CV2 c => c2_signed_authorities c end.
Definition round (c : Certificate) : Round := HeaderAPI.round (header c).
Definition epoch (c : Certificate) : Epoch := HeaderAPI.epoch (header c).
Definition origin (c : Certificate) : AuthorityIdentifier := HeaderAPI.author (header c).
Definition parents (c : Certificate) : gset Z := HeaderAPI.parents (header c).
Definition digest (c : Certificate) : CertificateDigest := HeaderAPI.digest (header c).

Definition is_v2 (c : Certificate) : bool :=
  match c with CV1 _ => false | CV2 _ => true end.

(** [PartialEq]: by digest, round, epoch and origin; comparing the two versions
    is [unimplemented!]. *)
Definition eq (c other : Certificate) : outcome bool :=
  if eqb (is_v2 c) (is_v2 other) then
    Ret ((HeaderAPI.digest (header c) =? HeaderAPI.digest (header other)) &&
         (round c =? round other) && (epoch c =? epoch other) && (origin c =? origin other))
  else Panic.

(** [slice.contains(&x)], which compares from the front until it finds [x]. *)
Fixpoint contains (l : list Certificate) (x : Certificate) : outcome bool :=
  match l with
  | [] => Ret false
  | c :: l => b ← eq c x; if (b : bool) then Ret true else contains l x
  end.
End Cert.

Record ReputationScores := mkScores {
  scores_per_authority : gmap Z Z;
  final_of_schedule : bool;
}.

Module Scores.
(** [a.id()] of every authority, in committee order. *)
Fixpoint ids (l : list Authority) : outcome (list AuthorityIdentifier) :=
  match l with
  | [] => Ret []
  | a :: l => i ← Auth.id a; rest ← ids l; Ret (i :: rest)
  end.

Definition new (c : Committee) : outcome ReputationScores :=
  l ← ids (Comm.authorities_iter c);
  Ret (mkScores (collect ((λ i, (i, 0)) <$> l)) false).

Definition add_score (r : ReputationScores) (authority : AuthorityIdentifier) (score : Z) :
    ReputationScores :=
  mkScores
    (match scores_per_authority r !! authority with
     | Some value => <[authority := wadd value score]> (scores_per_authority r)
     | None => <[authority := score]> (scores_per_authority r)
     end) (final_of_schedule r).

Definition with_final (r : ReputationScores) (final : bool) : ReputationScores :=
  mkScores (scores_per_authority r) final.

Definition total_authorities (r : ReputationScores) : Z := Z.of_nat (size (scores_per_authority r)).

Definition all_zero (r : ReputationScores) : bool :=
  negb (existsb (λ p, 0 <? p.2) (map_to_list (scores_per_authority r))).

(** The comparison of [sort_by]: by decreasing score, equal scores by
    decreasing identifier. *)
Definition desc (a1 a2 : AuthorityIdentifier * Z) : Prop :=
  a2.2 < a1.2 ∨ (a2.2 = a1.2 ∧ a2.1 <= a1.1).

#[global] Instance desc_dec : RelDecision desc.
Proof. intros a1 a2. unfold desc. apply _. Defined.

Definition sort_desc (l : list (AuthorityIdentifier * Z)) : list (AuthorityIdentifier * Z) :=
  merge_sort desc l.

Definition authorities_by_score_desc (r : ReputationScores) : list (AuthorityIdentifier * Z) :=
  sort_desc (map_to_list (scores_per_authority r)).
End Scores.

Record CommittedSubDag := mkSubDag {
  certificates : list Certificate;
  leader : Certificate;
  sub_dag_index : SequenceNumber;
  reputation_score : ReputationScores;
  commit_timestamp : TimestampMs;
}.

Record CommittedSubDagShell := mkShell {
  sh_certificates : list CertificateDigest;
  sh_leader : CertificateDigest;
  sh_leader_round : Round;
  sh_sub_dag_index : SequenceNumber;
  sh_reputation_score : ReputationScores;
}.

Record ConsensusCommitV2 := mkCommitV2 {
  cc_certificates : list CertificateDigest;
  cc_leader : CertificateDigest;
  cc_leader_round : Round;
  cc_sub_dag_index : SequenceNumber;
  cc_reputation_score : ReputationScores;
  cc_commit_timestamp : TimestampMs;
}.

Inductive ConsensusCommit :=
  | CommitV1 (c : CommittedSubDagShell)
  | CommitV2 (c : ConsensusCommitV2).

Module Commit.
Definition certificates (c : ConsensusCommit) : list CertificateDigest :=
  match c with CommitV1 c => sh_certificates c | CommitV2 c => cc_certificates c end.
Definition leader (c : ConsensusCommit) : CertificateDigest :=
  match c with CommitV1 c => sh_leader c | CommitV2 c => cc_leader c end.
Definition leader_round (c : ConsensusCommit) : Round :=
  match c with CommitV1 c => sh_leader_round c | CommitV2 c => cc_leader_round c end.
Definition sub_dag_index (c : ConsensusCommit) : SequenceNumber :=
  match c with CommitV1 c => sh_sub_dag_index c | CommitV2 c => cc_sub_dag_index c end.
Definition reputation_score (c : ConsensusCommit) : ReputationScores :=
  match c with CommitV1 c => sh_reputation_score c | CommitV2 c => cc_reputation_score c end.
Definition commit_timestamp (c : ConsensusCommit) : TimestampMs :=
  match c with CommitV1 _ => 0 | CommitV2 c => cc_commit_timestamp c end.

(** [ConsensusCommitV2::from_sub_dag]. *)
Definition from_sub_dag (d : CommittedSubDag) : ConsensusCommitV2 :=
  mkCommitV2 (Cert.digest <$> NarwhalTypes.certificates d) (Cert.digest (NarwhalTypes.leader d))
    (Cert.round (NarwhalTypes.leader d)) (NarwhalTypes.sub_dag_index d)
    (NarwhalTypes.reputation_score d) (NarwhalTypes.commit_timestamp d).

(** [CommittedSubDagShell::from_sub_dag]. *)
Definition shell_from_sub_dag (d : CommittedSubDag) : CommittedSubDagShell :=
  mkShell (Cert.digest <$> NarwhalTypes.certificates d) (Cert.digest (NarwhalTypes.leader d))
    (Cert.round (NarwhalTypes.leader d)) (NarwhalTypes.sub_dag_index d)
    (NarwhalTypes.reputation_score d).
End Commit.

Module SubDag.
(** The previous sub-dag's raw field is read, not its accessor. *)
Definition new (certs : list Certificate) (ldr : Certificate) (index : SequenceNumber)
    (scores : ReputationScores) (previous_sub_dag : option CommittedSubDag) : CommittedSubDag :=
  let previous_sub_dag_ts :=
    match previous_sub_dag with Some s => commit_timestamp s | None => 0 end in
  mkSubDag certs ldr index scores
    (Z.max previous_sub_dag_ts (HeaderAPI.created_at (Cert.header ldr))).

Definition from_commit (commit : ConsensusCommit) (certs : list Certificate) (ldr : Certificate) :
    CommittedSubDag :=
  mkSubDag certs ldr (Commit.sub_dag_index commit) (Commit.reputation_score commit)
    (Commit.commit_timestamp commit).

Definition len (d : CommittedSubDag) : nat := length (certificates d).
Definition is_empty (d : CommittedSubDag) : bool := (len d =? 0)%nat.
Definition num_batches (d : CommittedSubDag) : nat :=
  sum_list_with (λ x, length (HeaderAPI.payload (Cert.header x))) (certificates d).
Definition is_last (d : CommittedSubDag) (output : Certificate) : outcome bool :=
  match last (certificates d) with None => Ret false | Some x => Cert.eq x output end.
Definition leader_round (d : CommittedSubDag) : Round := Cert.round (leader d).
Definition timestamp (d : CommittedSubDag) : TimestampMs :=
  if commit_timestamp d =? 0 then HeaderAPI.created_at (Cert.header (leader d))
  else commit_timestamp d.
End SubDag.
