(* ===== verification/ConsensusStore.v ===== *)
(** * The persistent store of the sequencer ([narwhal/storage/src/consensus_store.rs])

    The two column families of [ConsensusStore] are maps ordered by key; the batch
    that persists a commit is written as a whole or fails as a whole.  Whether
    RocksDB accepts a batch is the class [Database]: every theorem holds whatever
    it answers. *)
From S2P Require Import Prelude NarwhalConfig NarwhalTypes.

Record ConsensusStore := mkStore {
  st_last_committed : gmap Z Z;
  committed_sub_dags_by_index_v2 : gmap Z ConsensusCommit;
}.

Inductive TypedStoreError := RocksDBError.

(** RocksDB refuses the batch that would store the commit with this index. *)
Class Database := { write_fails : ConsensusStore → SequenceNumber → bool }.

(** A database that accepts every batch. *)
Definition reliable_db : Database := {| write_fails _ _ := false |}.

Module Store.
Definition empty : ConsensusStore := mkStore ∅ ∅.

Definition clear (s : ConsensusStore) : ConsensusStore := mkStore ∅ ∅.

Definition write_consensus_state `{Database} (s : ConsensusStore) (last_committed : gmap Z Z)
    (sub_dag : CommittedSubDag) : result TypedStoreError unit * ConsensusStore :=
  let commit := CommitV2 (Commit.from_sub_dag sub_dag) in
  if write_fails s (sub_dag_index sub_dag) then (Err RocksDBError, s)
  else (Ok tt, mkStore (last_committed ∪ st_last_committed s)
          (<[sub_dag_index sub_dag := commit]> (committed_sub_dags_by_index_v2 s))).

Definition read_last_committed (s : ConsensusStore) : gmap Z Z := st_last_committed s.

(** [unbounded_iter().skip_to_last().next()]. *)
Definition last_entry (s : ConsensusStore) : option (Z * ConsensusCommit) :=
  last (btree_iter (committed_sub_dags_by_index_v2 s)).

Definition get_latest_sub_dag_index (s : ConsensusStore) : SequenceNumber :=
  default 0 (fst <$> last_entry s).

Definition get_latest_sub_dag (s : ConsensusStore) : option ConsensusCommit := snd <$> last_entry s.

Definition read_committed_sub_dags_from (s : ConsensusStore) (from : SequenceNumber) :
    list ConsensusCommit :=
  snd <$> filter (λ p, from <= p.1) (btree_iter (committed_sub_dags_by_index_v2 s)).

Definition read_consensus_commit (s : ConsensusStore) (seq : SequenceNumber) : option ConsensusCommit :=
  committed_sub_dags_by_index_v2 s !! seq.

(** The loop over the commits from the last to the first. *)
Fixpoint find_final (l : list ConsensusCommit) : option ConsensusCommit :=
  match l with
  | [] => None
  | commit :: l => if final_of_schedule (Commit.reputation_score commit) then Some commit else find_final l
  end.

Definition read_latest_commit_with_final_reputation_scores (s : ConsensusStore) :
    option ConsensusCommit :=
  find_final (rev (btree_iter (committed_sub_dags_by_index_v2 s)).*2).
End Store.

(** * Facts *)

(** Inserting above every key appends to the iteration. *)
Lemma btree_iter_insert_last {V} (m : gmap Z V) k v : (∀ j, is_Some (m !! j) → j < k) →
  btree_iter (<[k := v]> m) = btree_iter m ++ [(k, v)].
Proof.
  intros Hk. assert (m !! k = None) as Hnone.
  { apply eq_None_not_Some. intros Hs%Hk. lia. }
  apply key_lt_unique; [apply btree_iter_key_lt| |].
  - pose proof (btree_iter_key_lt m) as Hs.
    assert (∀ p, p ∈ btree_iter m → p.1 < k) as Hlt.
    { intros [j w] Hin%elem_of_btree_iter. apply Hk. eauto. }
    induction Hs as [|p l Hl IH Hp]; simpl; [repeat constructor|].
    constructor; [apply IH; set_solver|]. apply Forall_app. split; [done|].
    repeat constructor. apply Hlt. left.
  - rewrite btree_iter_perm, map_to_list_insert by done. rewrite (btree_iter_perm m).
    by rewrite Permutation_cons_append.
Qed.

Lemma last_entry_spec s k v : Store.last_entry s = Some (k, v) →
  committed_sub_dags_by_index_v2 s !! k = Some v ∧
  ∀ j, is_Some (committed_sub_dags_by_index_v2 s !! j) → j <= k.
Proof.
  unfold Store.last_entry. intros Hl. pose proof (btree_iter_key_lt (committed_sub_dags_by_index_v2 s)) as Hs.
  apply last_Some in Hl as [l Hl]. split.
  - apply elem_of_btree_iter. rewrite Hl. set_solver.
  - intros j [w Hj%elem_of_btree_iter]. rewrite Hl in Hj, Hs.
    apply elem_of_app in Hj as [Hj|Hj]; [|set_solver].
    apply StronglySorted_app in Hs as (Hs & _ & _). specialize (Hs (j, w) (k, v) Hj ltac:(set_solver)).
    unfold key_lt in Hs. simpl in Hs. lia.
Qed.

Lemma find_final_spec l c : Store.find_final l = Some c →
  c ∈ l ∧ final_of_schedule (Commit.reputation_score c) = true.
Proof.
  induction l as [|x l IH]; simpl; [done|].
  destruct (final_of_schedule (Commit.reputation_score x)) eqn:E.
  - intros [= <-]. split; [left|done].
  - intros [? ?]%IH. split; [by right|done].
Qed.

(** Every persisted index is at most [i]. *)
Definition store_upto (s : ConsensusStore) (i : SequenceNumber) : Prop :=
  ∀ j, is_Some (committed_sub_dags_by_index_v2 s !! j) → j <= i.

(** What a successful write of the next commit leaves in the store. *)
Lemma write_next `{Database} s lc d s' : store_upto s (sub_dag_index d - 1) →
  Store.write_consensus_state s lc d = (Ok tt, s') →
  btree_iter (committed_sub_dags_by_index_v2 s') =
    btree_iter (committed_sub_dags_by_index_v2 s) ++ [(sub_dag_index d, CommitV2 (Commit.from_sub_dag d))] ∧
  st_last_committed s' = lc ∪ st_last_committed s ∧ store_upto s' (sub_dag_index d).
Proof.
  unfold Store.write_consensus_state. intros Hup. destruct (write_fails _ _); [done|].
  intros [= <-]. simpl. split_and!; [|done|].
  - apply btree_iter_insert_last. intros j Hj%Hup. lia.
  - intros j. simpl. rewrite lookup_insert. case_decide; [lia|]. intros Hj%Hup. lia.
Qed.

(** * Properties *)

(** what the store returns after the next commit has been persisted: the latest
    sub-dag and its index are that commit's, reading from any index no greater than its own
    yields the older commits followed by it, the latest commit with final scores is
    the new one if its scores are final and otherwise the one before, and a refused
    batch leaves the store as it was. *)
Theorem write_then_read `{Database} s lc d : store_upto s (sub_dag_index d - 1) →
  match Store.write_consensus_state s lc d with
  | (Ok _, s') =>
      Store.get_latest_sub_dag s' = Some (CommitV2 (Commit.from_sub_dag d)) ∧
      Store.get_latest_sub_dag_index s' = sub_dag_index d ∧
      (∀ from, from <= sub_dag_index d → Store.read_committed_sub_dags_from s' from =
         Store.read_committed_sub_dags_from s from ++ [CommitV2 (Commit.from_sub_dag d)]) ∧
      Store.read_latest_commit_with_final_reputation_scores s' =
        (if final_of_schedule (reputation_score d) then Some (CommitV2 (Commit.from_sub_dag d))
         else Store.read_latest_commit_with_final_reputation_scores s) ∧
      (∀ a r, lc !! a = Some r → Store.read_last_committed s' !! a = Some r)
  | (Err _, s') => s' = s
  end.
Proof.
  intros Hup. destruct (Store.write_consensus_state s lc d) as [[[]|e] s'] eqn:E.
  - destruct (write_next _ _ _ _ Hup E) as (Hiter & Hlc & _).
    unfold Store.get_latest_sub_dag, Store.get_latest_sub_dag_index, Store.last_entry,
      Store.read_committed_sub_dags_from, Store.read_latest_commit_with_final_reputation_scores,
      Store.read_last_committed. rewrite Hiter, Hlc, last_snoc. split_and!; try done.
    + intros from Hf. rewrite filter_app, fmap_app, (filter_cons_True _ (_, _)) by done.
      by rewrite filter_nil.
    + rewrite fmap_app, rev_app_distr. done.
    + intros a r Ha. by apply lookup_union_Some_l.
  - unfold Store.write_consensus_state in E. destruct (write_fails _ _); by simplify_eq.
Qed.

Lemma write_then_read_witness :
  Store.get_latest_sub_dag_index
    (Store.write_consensus_state (H := reliable_db) Store.empty {[ 3 := 2 ]}
       (mkSubDag [] (CV2 (mkCertificateV2 (HV2 (mkHeaderV2 3 2 0 0 [] [] ∅ 7)) Genesis ∅ 0)) 1
          (mkScores ∅ false) 5)).2 = 1.
Proof.
  apply (write_then_read (H := reliable_db) Store.empty {[ 3 := 2 ]}
    (mkSubDag [] (CV2 (mkCertificateV2 (HV2 (mkHeaderV2 3 2 0 0 [] [] ∅ 7)) Genesis ∅ 0)) 1
       (mkScores ∅ false) 5)).
  intros j [c Hc]. simpl in Hc. by rewrite lookup_empty in Hc.
Defined.
