(* ===== verification/ConsensusDag.v ===== *)
(** * The consensus state and the flattening of a sub-dag
    ([narwhal/primary/src/consensus/state.rs], [.../utils.rs])

    [ConsensusState] with its DAG of certificates by round and origin: insertion
    with the parent check and the equivocation check, the update after a commit
    with garbage collection, recovery from the certificate store, and
    [order_dag], the depth-first flattening of the sub-dag below a leader.

    Metrics and logging are left out.  A [HashMap] is a [gmap]; [order_dag]
    looks a digest up among the values of a round, of which at most one matches in a
    well-formed DAG.  The loop of [order_dag] takes as fuel one more than the number of
    certificates in the DAG, which [order_dag_correct] shows to be enough. *)
From S2P Require Import Prelude NarwhalConfig NarwhalTypes.

Abbreviation Table := (gmap Z (Z * Certificate)) (only parsing).
Abbreviation Dag := (gmap Z (gmap Z (Z * Certificate))) (only parsing).

Inductive ConsensusError :=
  | StoreError
  | CertificateEquivocation (certificate existing : Certificate)
  | ShuttingDown.

Record ConsensusRound := mkRound {
  committed_round : Round;
  gc_round : Round;
}.

(** [utils::gc_round]. *)
Definition utils_gc_round (commit_round gc_depth : Round) : Round := sat_sub commit_round gc_depth.

Module CRound.
Definition new_with_gc_depth (committed : Round) (gc_depth : Round) : ConsensusRound :=
  mkRound committed (utils_gc_round committed gc_depth).

Definition update (r : ConsensusRound) (new_committed_round gc_depth : Round) : ConsensusRound :=
  let last_committed_round := Z.max (committed_round r) new_committed_round in
  mkRound last_committed_round (utils_gc_round last_committed_round gc_depth).
End CRound.

Record ConsensusState := mkState {
  last_round : ConsensusRound;
  gc_depth : Round;
  last_committed : gmap Z Z;
  last_committed_sub_dag : option CommittedSubDag;
  dag : gmap Z (gmap Z (Z * Certificate));
}.

(** The part of [CertificateStore] that recovery reads. *)
Record CertificateStore := mkCertStore {
  read : CertificateDigest → option Certificate;
  after_round : Round → list Certificate;
}.

Module CState.
Definition new (gc_depth : Round) : ConsensusState := mkState (mkRound 0 0) gc_depth ∅ None ∅.

Definition with_dag (s : ConsensusState) (d : Dag) : ConsensusState :=
  mkState (last_round s) (gc_depth s) (last_committed s) (last_committed_sub_dag s) d.

Definition with_sub_dag (s : ConsensusState) (d : CommittedSubDag) : ConsensusState :=
  mkState (last_round s) (gc_depth s) (last_committed s) (Some d) (dag s).

(** Checks that the parents of a certificate exist and crashes if not. *)
Definition check_parents (certificate : Certificate) (d : Dag) (gc_round : Round) : outcome unit :=
  let round := Cert.round certificate in
  if round <=? wadd gc_round 1 then Ret tt
  else
    match d !! wsub round 1 with
    | Some round_table =>
        let store_parents : gset Z := list_to_set ((map_to_list round_table).*2).*1 in
        assert_ (bool_decide (Cert.parents certificate ⊆ store_parents))
    | None => Panic
    end.

Definition insert_certificate (d : Dag) (certificate : Certificate) : Dag :=
  <[Cert.round certificate :=
      <[Cert.origin certificate := (Cert.digest certificate, certificate)]>
        (default ∅ (d !! Cert.round certificate))]> d.

Definition try_insert_in_dag (d : Dag) (last_committed : gmap Z Z) (gc_round : Round)
    (certificate : Certificate) : outcome (result ConsensusError bool * Dag) :=
  if Cert.round certificate <=? gc_round then Ret (Ok false, d)
  else
    check_parents certificate d gc_round;;
    let d' := insert_certificate d certificate in
    let fresh := default 0 (last_committed !! Cert.origin certificate) <? Cert.round certificate in
    match default ∅ (d !! Cert.round certificate) !! Cert.origin certificate with
    | Some (_, existing_certificate) =>
        if negb (Cert.digest existing_certificate =? Cert.digest certificate) then
          Ret (Err (CertificateEquivocation certificate existing_certificate), d')
        else Ret (Ok fresh, d')
    | None => Ret (Ok fresh, d')
    end.

Definition try_insert (certificate : Certificate) : ST ConsensusState ConsensusError bool := λ s,
  '(r, d) ← try_insert_in_dag (dag s) (last_committed s) (gc_round (last_round s)) certificate;
  Ret (r, with_dag s d).

(** Update and clean up internal state after committing a certificate. *)
Definition update (s : ConsensusState) (certificate : Certificate) : ConsensusState :=
  let lc :=
    match last_committed s !! Cert.origin certificate with
    | Some r => <[Cert.origin certificate := Z.max r (Cert.round certificate)]> (last_committed s)
    | None => <[Cert.origin certificate := Cert.round certificate]> (last_committed s)
    end in
  let lr := CRound.update (last_round s) (Cert.round certificate) (gc_depth s) in
  mkState lr (gc_depth s) lc (last_committed_sub_dag s)
    (filter (λ p, gc_round lr < p.1) (dag s)).

Definition next_sub_dag_index (s : ConsensusState) : SequenceNumber :=
  wadd (match last_committed_sub_dag s with Some d => sub_dag_index d | None => 0 end) 1.

(** The loop of [construct_dag_from_cert_store]. *)
Fixpoint insert_all (certs : list Certificate) (d : Dag) (last_committed : gmap Z Z)
    (gc_round : Round) : outcome (result ConsensusError Dag) :=
  match certs with
  | [] => Ret (Ok d)
  | cert :: certs =>
      '(r, d) ← try_insert_in_dag d last_committed gc_round cert;
      match r with
      | Ok _ => insert_all certs d last_committed gc_round
      | Err e => Ret (Err e)
      end
  end.

Definition construct_dag_from_cert_store (cert_store : CertificateStore)
    (last_committed : gmap Z Z) (gc_round : Round) : outcome (result ConsensusError Dag) :=
  insert_all (after_round cert_store (wadd gc_round 1)) ∅ last_committed gc_round.

(** [read(d).unwrap().expect(..)] of every digest. *)
Fixpoint read_all (cert_store : CertificateStore) (digests : list CertificateDigest) :
    outcome (list Certificate) :=
  match digests with
  | [] => Ret []
  | d :: ds => c ← unwrap (read cert_store d); cs ← read_all cert_store ds; Ret (c :: cs)
  end.

Definition new_from_store (last_committed_round : Round) (gc_depth : Round)
    (recovered_last_committed : gmap Z Z) (latest_sub_dag : option ConsensusCommit)
    (cert_store : CertificateStore) : outcome ConsensusState :=
  let last_round := CRound.new_with_gc_depth last_committed_round gc_depth in
  r ← construct_dag_from_cert_store cert_store recovered_last_committed (gc_round last_round);
  match r with
  | Err _ => Panic
  | Ok d =>
      last_sub_dag ←
        match latest_sub_dag with
        | Some latest =>
            certs ← read_all cert_store (Commit.certificates latest);
            ldr ← unwrap (read cert_store (Commit.leader latest));
            Ret (Some (SubDag.from_commit latest certs ldr))
        | None => Ret None
        end;
      Ret (mkState last_round gc_depth recovered_last_committed last_sub_dag d)
  end.
End CState.

(** ** [utils::order_dag] *)

(** [x.values().find(|(x, _)| x == parent)]. *)
Definition find_digest (tbl : Table) (d : CertificateDigest) : option (CertificateDigest * Certificate) :=
  head (filter (λ p, p.1 = d) (map_to_list tbl).*2).

(** The test whether a certificate is at or below the last committed round of
    its origin. *)
Definition is_committed (lc : gmap Z Z) (c : Certificate) : bool :=
  match lc !! Cert.origin c with Some r => Cert.round c <=? r | None => false end.

(** The inner loop, over the parents of [x]; the buffer is a stack. *)
Fixpoint push_parents (s : ConsensusState) (x : Certificate) (parents : list CertificateDigest)
    (buffer : list Certificate) (already_ordered : gset Z) :
    outcome (list Certificate * gset Z) :=
  match parents with
  | [] => Ret (buffer, already_ordered)
  | parent :: parents =>
      '(digest, certificate) ←
        unwrap (tbl ← dag s !! wsub (Cert.round x) 1; find_digest tbl parent);
      let skip := bool_decide (digest ∈ already_ordered) || is_committed (last_committed s) certificate in
      if skip then push_parents s x parents buffer already_ordered
      else push_parents s x parents (certificate :: buffer) ({[digest]} ∪ already_ordered)
  end.

Fixpoint order_loop (fuel : nat) (s : ConsensusState) (gc_round : Round)
    (buffer : list Certificate) (already_ordered : gset Z) (ordered : list Certificate) :
    outcome (list Certificate) :=
  match buffer with
  | [] => Ret ordered
  | x :: buffer =>
      match fuel with
      | O => OutOfFuel
      | S fuel =>
          let ordered := ordered ++ [x] in
          if Cert.round x =? wadd gc_round 1 then
            order_loop fuel s gc_round buffer already_ordered ordered
          else
            '(buffer, already_ordered) ←
              push_parents s x (btree_set_iter (Cert.parents x)) buffer already_ordered;
            order_loop fuel s gc_round buffer already_ordered ordered
      end
  end.

Definition dag_size (d : Dag) : nat := sum_list_with (λ p, size p.2) (map_to_list d).

Definition order_dag (ldr : Certificate) (s : ConsensusState) : outcome (list Certificate) :=
  assert_ (0 <? Cert.round ldr);;
  let gc_round := sat_sub (Cert.round ldr) (gc_depth s) in
  ordered ← order_loop (S (dag_size (dag s))) s gc_round [ldr] ∅ [];
  Ret (sort_by_key Cert.round ordered).

(** * Well-formed DAGs *)

Definition in_dag (d : Dag) (c : Certificate) : Prop :=
  ∃ tbl, d !! Cert.round c = Some tbl ∧ tbl !! Cert.origin c = Some (Cert.digest c, c).

(** Every entry is stored under its round, origin and digest. *)
Definition dag_wf (d : Dag) : Prop :=
  ∀ r tbl o dg c, d !! r = Some tbl → tbl !! o = Some (dg, c) →
    r = Cert.round c ∧ o = Cert.origin c ∧ dg = Cert.digest c ∧ is_u64 r.

(** Collision resistance of the digest, on the certificates of the DAG. *)
Definition digest_inj (d : Dag) : Prop :=
  ∀ c1 c2, in_dag d c1 → in_dag d c2 → Cert.digest c1 = Cert.digest c2 → c1 = c2.

(** [p] is a parent of [c] that the DAG holds. *)
Definition parent_of (d : Dag) (c p : Certificate) : Prop :=
  in_dag d p ∧ Cert.round p = Cert.round c - 1 ∧ Cert.digest p ∈ Cert.parents c.

(** Every certificate more than one round above [g] has all its parents. *)
Definition dag_closed (d : Dag) (g : Round) : Prop :=
  ∀ c, in_dag d c → g + 1 < Cert.round c →
    ∀ dg, dg ∈ Cert.parents c → ∃ p, parent_of d c p ∧ Cert.digest p = dg.

(** What every reachable consensus state satisfies. *)
Record state_wf (s : ConsensusState) : Prop := {
  swf_dag : dag_wf (dag s);
  swf_inj : digest_inj (dag s);
  swf_closed : dag_closed (dag s) (gc_round (last_round s));
  swf_gc : gc_round (last_round s) = utils_gc_round (committed_round (last_round s)) (gc_depth s);
  swf_depth : 1 <= gc_depth s;
  swf_committed : is_u64 (committed_round (last_round s));
  swf_above r tbl : dag s !! r = Some tbl → gc_round (last_round s) < r;
  swf_lc o r : last_committed s !! o = Some r → r <= committed_round (last_round s);
}.

Lemma in_dag_lookup d r tbl o dg c : dag_wf d → d !! r = Some tbl → tbl !! o = Some (dg, c) →
  in_dag d c ∧ Cert.round c = r ∧ Cert.digest c = dg ∧ Cert.origin c = o.
Proof.
  intros Hwf Hr Ho. destruct (Hwf _ _ _ _ _ Hr Ho) as (-> & -> & -> & _).
  split_and!; try done. exists tbl. done.
Qed.

Lemma in_dag_round d c : dag_wf d → in_dag d c → is_u64 (Cert.round c).
Proof. intros Hwf (tbl & Hr & Ho). by destruct (Hwf _ _ _ _ _ Hr Ho) as (_ & _ & _ & ?). Qed.

(** A round holds one certificate per origin. *)
Lemma in_dag_unique d c1 c2 : in_dag d c1 → in_dag d c2 →
  Cert.round c1 = Cert.round c2 → Cert.origin c1 = Cert.origin c2 → c1 = c2.
Proof. intros (t1 & H1 & H1') (t2 & H2 & H2') Hr Ho. rewrite Hr, Ho in *. congruence. Qed.

Lemma find_digest_spec tbl dg dg' c : find_digest tbl dg = Some (dg', c) →
  dg' = dg ∧ ∃ o, tbl !! o = Some (dg, c).
Proof.
  unfold find_digest. intros Hh%head_Some_elem_of.
  apply list_elem_of_filter in Hh as [Hdg Hin]. simpl in Hdg. subst dg'. split; [done|].
  apply list_elem_of_fmap in Hin as ([o p] & -> & Ho%elem_of_map_to_list). eauto.
Qed.

Lemma find_digest_complete tbl o dg c : tbl !! o = Some (dg, c) →
  ∃ c', find_digest tbl dg = Some (dg, c').
Proof.
  intros Ho. destruct (find_digest tbl dg) as [[dg' c']|] eqn:E.
  - apply find_digest_spec in E as [-> _]. eauto.
  - exfalso. unfold find_digest in E. apply head_None in E.
    assert ((dg, c) ∈ filter (λ p, p.1 = dg) (map_to_list tbl).*2) as Hin; [|rewrite E in Hin; set_solver].
    apply list_elem_of_filter. split; [done|]. apply list_elem_of_fmap.
    exists (o, (dg, c)). by rewrite elem_of_map_to_list.
Qed.

(** The lookup of a parent's digest in the round below. *)
Lemma find_parent d c p : dag_wf d → digest_inj d → is_u64 (Cert.round c) → 1 <= Cert.round c →
  parent_of d c p →
  (tbl ← d !! wsub (Cert.round c) 1; find_digest tbl (Cert.digest p)) = Some (Cert.digest p, p).
Proof.
  intros Hwf Hinj Hu Hr ((tbl & Hp & Ho) & Hround & _).
  unfold wsub. rewrite Z.mod_small by (unfold is_u64 in Hu; lia). rewrite <-Hround, Hp. simpl.
  destruct (find_digest_complete _ _ _ _ Ho) as [c' Hf]. rewrite Hf.
  apply find_digest_spec in Hf as [_ [o' Ho']].
  destruct (in_dag_lookup _ _ _ _ _ _ Hwf Hp Ho') as (Hin' & _ & Hdg & _).
  repeat f_equal. apply Hinj; [done|by exists tbl|done].
Qed.

(** ** Insertion, update and recovery *)

Lemma insert_lookup d c r : CState.insert_certificate d c !! r =
  if decide (r = Cert.round c)
  then Some (<[Cert.origin c := (Cert.digest c, c)]> (default ∅ (d !! r))) else d !! r.
Proof.
  unfold CState.insert_certificate. case_decide as Hr.
  - subst r. by rewrite lookup_insert_eq.
  - by rewrite lookup_insert_ne by done.
Qed.

Lemma insert_wf d c : dag_wf d → is_u64 (Cert.round c) → dag_wf (CState.insert_certificate d c).
Proof.
  intros Hwf Hu r tbl o dg c'. rewrite insert_lookup. case_decide as Hr; [|apply Hwf].
  intros [= <-]. rewrite lookup_insert. case_decide as Ho.
  - intros [= <- <-]. by subst.
  - intros Hin. destruct (d !! r) as [t|] eqn:Ht; simpl in Hin; [by eapply Hwf|].
    by rewrite lookup_empty in Hin.
Qed.

Lemma insert_in_dag d c c' : in_dag (CState.insert_certificate d c) c' ↔
  c' = c ∨ (in_dag d c' ∧ ¬ (Cert.round c' = Cert.round c ∧ Cert.origin c' = Cert.origin c)).
Proof.
  unfold in_dag. rewrite insert_lookup. split.
  - intros (tbl & Hr & Ho). case_decide as Hd.
    + injection Hr as <-. rewrite lookup_insert in Ho. case_decide as Hd'.
      * injection Ho as _ ->. by left.
      * right. split; [|naive_solver].
        destruct (d !! Cert.round c') as [t|]; simpl in Ho; [eauto|by rewrite lookup_empty in Ho].
    + right. split; [eauto|]. naive_solver.
  - intros [->|[(tbl & Hr & Ho) Hne]].
    + rewrite decide_True by done. eexists. split; [done|]. by rewrite lookup_insert_eq.
    + case_decide as Hd; [|eauto]. eexists. split; [done|]. rewrite Hr. simpl.
      rewrite lookup_insert_ne; [done|]. naive_solver.
Qed.

(** The parent check asks for the round below as soon as it is above the
    garbage-collection boundary. *)
Definition parents_present (d : Dag) (g : Round) (c : Certificate) : Prop :=
  g + 1 < Cert.round c →
  ∃ tbl, d !! (Cert.round c - 1) = Some tbl ∧
    ∀ dg, dg ∈ Cert.parents c → ∃ o c', tbl !! o = Some (dg, c').

Lemma elem_of_table_digests (tbl : Table) dg :
  dg ∈ (list_to_set ((map_to_list tbl).*2).*1 : gset Z) ↔ ∃ o c, tbl !! o = Some (dg, c).
Proof.
  rewrite elem_of_list_to_set, list_elem_of_fmap. split.
  - intros ([dg' c] & -> & Hin).
    apply list_elem_of_fmap in Hin as ([o p] & Heq & Ho%elem_of_map_to_list).
    simpl in *. subst p. eauto.
  - intros (o & c & Ho%elem_of_map_to_list). exists (dg, c). split; [done|].
    apply list_elem_of_fmap. by exists (o, (dg, c)).
Qed.

Lemma check_parents_spec d c g : is_u64 (Cert.round c) → 0 <= g → g < Cert.round c →
  (CState.check_parents c d g = Ret tt ∧ parents_present d g c) ∨
  (CState.check_parents c d g = Panic ∧ ¬ parents_present d g c).
Proof.
  intros Hu Hg Hlt. unfold CState.check_parents, parents_present, wadd, wsub, is_u64 in *.
  rewrite !Z.mod_small by lia.
  destruct (Z.leb_spec (Cert.round c) (g + 1)); [left; split; [done|lia]|].
  destruct (d !! (Cert.round c - 1)) as [tbl|] eqn:Hr.
  - unfold assert_. case_bool_decide as Hs.
    + left. split; [done|]. intros _. exists tbl. split; [done|]. intros dg Hdg.
      apply elem_of_table_digests. set_solver.
    + right. split; [done|]. intros Hp. apply Hs. intros dg Hdg.
      destruct Hp as (t & [= <-] & Ht); [lia|]. by apply elem_of_table_digests, Ht.
  - right. split; [done|]. intros Hp. destruct Hp as (t & ? & _); [lia|done].
Qed.

Lemma parents_present_closed d g c : dag_wf d → parents_present d g c → g + 1 < Cert.round c →
  ∀ dg, dg ∈ Cert.parents c → ∃ p, parent_of d c p ∧ Cert.digest p = dg.
Proof.
  intros Hwf Hp Hg dg Hdg. destruct (Hp Hg) as (tbl & Hr & Ht).
  destruct (Ht dg Hdg) as (o & p & Ho).
  destruct (in_dag_lookup _ _ _ _ _ _ Hwf Hr Ho) as (Hin & Hrp & Hd & _).
  exists p. split; [|done]. split_and!; [done|lia|by rewrite Hd].
Qed.

(** The certificate that the DAG holds at the place of [c], if any. *)
Definition existing (d : Dag) (c : Certificate) : option Certificate :=
  tbl ← d !! Cert.round c; snd <$> tbl !! Cert.origin c.

Lemma existing_in_dag d c c' : dag_wf d → existing d c = Some c' →
  in_dag d c' ∧ Cert.round c' = Cert.round c ∧ Cert.origin c' = Cert.origin c.
Proof.
  unfold existing. intros Hwf. destruct (d !! Cert.round c) as [tbl|] eqn:Hr; [|done]. simpl.
  destruct (tbl !! Cert.origin c) as [[dg x]|] eqn:Ho; [|done]. simpl. intros [= <-].
  destruct (in_dag_lookup _ _ _ _ _ _ Hwf Hr Ho) as (? & ? & _ & ?). done.
Qed.

Lemma existing_None d c c' : existing d c = None → in_dag d c' →
  ¬ (Cert.round c' = Cert.round c ∧ Cert.origin c' = Cert.origin c).
Proof.
  unfold existing. intros He (tbl & Hr & Ho) [Er Eo]. rewrite Er in Hr. rewrite Eo in Ho.
  rewrite Hr in He. simpl in He. by rewrite Ho in He.
Qed.

(** All the branches of the insertion. *)
Lemma try_insert_in_dag_spec d lc g c : is_u64 (Cert.round c) → 0 <= g →
  match CState.try_insert_in_dag d lc g c with
  | Ret (Ok b, d') =>
      if decide (g < Cert.round c) then
        parents_present d g c ∧ d' = CState.insert_certificate d c ∧
        b = bool_decide (default 0 (lc !! Cert.origin c) < Cert.round c) ∧
        ∀ c', existing d c = Some c' → Cert.digest c' = Cert.digest c
      else b = false ∧ d' = d
  | Ret (Err e, d') =>
      g < Cert.round c ∧ d' = CState.insert_certificate d c ∧
      ∃ c', existing d c = Some c' ∧ Cert.digest c' ≠ Cert.digest c ∧ e = CertificateEquivocation c c'
  | Panic => g < Cert.round c ∧ ¬ parents_present d g c
  | OutOfFuel => False
  end.
Proof.
  intros Hu Hg. unfold CState.try_insert_in_dag.
  destruct (Z.leb_spec (Cert.round c) g); [by rewrite decide_False by lia|].
  assert ((default 0 (lc !! Cert.origin c) <? Cert.round c) =
    bool_decide (default 0 (lc !! Cert.origin c) < Cert.round c)) as Hb.
  { case_bool_decide; lia. }
  destruct (check_parents_spec d c g Hu Hg) as [[-> Hp]|[-> Hp]]; [lia| |by split].
  simpl. unfold existing. destruct (d !! Cert.round c) as [tbl|]; simpl.
  2:{ rewrite lookup_empty, decide_True by done. split_and!; try done. }
  destruct (tbl !! Cert.origin c) as [[dg c']|]; simpl.
  - destruct (Z.eqb_spec (Cert.digest c') (Cert.digest c)); simpl.
    + rewrite decide_True by done. split_and!; try done. by intros ? [= <-].
    + split_and!; try done. exists c'. done.
  - rewrite decide_True by done. done.
Qed.

(** Insertion of a certificate without a digest collision keeps the state
    well-formed and adds only that certificate. *)
Lemma try_insert_wf s c b s' : state_wf s → is_u64 (Cert.round c) →
  (∀ c', in_dag (dag s) c' → Cert.digest c' = Cert.digest c → c' = c) →
  CState.try_insert c s = Ret (Ok b, s') →
  state_wf s' ∧ last_round s' = last_round s ∧ gc_depth s' = gc_depth s ∧
  last_committed s' = last_committed s ∧ last_committed_sub_dag s' = last_committed_sub_dag s ∧
  (∀ x, in_dag (dag s') x ↔
     in_dag (dag s) x ∨ (x = c ∧ gc_round (last_round s) < Cert.round c)) ∧
  b = bool_decide (gc_round (last_round s) < Cert.round c ∧
        default 0 (last_committed s !! Cert.origin c) < Cert.round c).
Proof.
  intros Hwf Hu Hcol. unfold CState.try_insert.
  assert (0 <= gc_round (last_round s)) as Hg.
  { rewrite (swf_gc s Hwf). unfold utils_gc_round, sat_sub. lia. }
  pose proof (try_insert_in_dag_spec (dag s) (last_committed s) _ c Hu Hg) as Hspec.
  destruct (CState.try_insert_in_dag _ _ _ _) as [[[b0|e] d']| |]; simpl; try done.
  intros [= <- <-]. simpl. case_decide as Hlt.
  2:{ destruct Hspec as [-> ->]. destruct s. simpl in *.
      split_and!; try done; [naive_solver|]. by rewrite bool_decide_eq_false_2 by naive_solver. }
  destruct Hspec as (Hp & -> & -> & Hex).
  assert (∀ x, in_dag (CState.insert_certificate (dag s) c) x ↔ in_dag (dag s) x ∨ x = c) as Hin.
  { intros x. rewrite insert_in_dag. split; [naive_solver|].
    intros [Hx| ->]; [|by left]. destruct (decide (x = c)) as [->|Hne]; [by left|].
    right. split; [done|]. intros [Er Eo]. apply Hne, Hcol; [done|].
    destruct Hx as (tbl & Hr & Ho). apply Hex. unfold existing. rewrite <-Er, Hr. simpl.
    by rewrite <-Eo, Ho. }
  split_and!; try done.
  - split; simpl; try apply Hwf.
    + by apply insert_wf; [apply Hwf|].
    + intros c1 c2. rewrite !Hin. intros [H1| ->] [H2| ->] Hd; [by apply (swf_inj s)| | |done].
      * by apply Hcol.
      * symmetry. by apply Hcol.
    + intros x. rewrite Hin. intros Hx Hg' dg Hdg.
      assert (∃ p, parent_of (dag s) x p ∧ Cert.digest p = dg) as (p & (Hpin & Hpr & Hpd) & Hpe).
      { destruct Hx as [Hx| ->]; [by apply (swf_closed s)|].
        eapply parents_present_closed; eauto. apply Hwf. }
      exists p. split; [|done]. split_and!; [apply Hin; by left|done|done].
    + intros r tbl. rewrite insert_lookup. case_decide as Hr; [intros; by subst|apply Hwf].
  - intros x. rewrite Hin. naive_solver.
  - repeat case_bool_decide; naive_solver.
Qed.

Lemma update_in_dag s c x : in_dag (dag (CState.update s c)) x ↔
  in_dag (dag s) x ∧ gc_round (last_round (CState.update s c)) < Cert.round x.
Proof.
  unfold in_dag, CState.update. simpl. setoid_rewrite map_lookup_filter_Some. naive_solver.
Qed.

Lemma update_lc s c o : last_committed (CState.update s c) !! o =
  if decide (o = Cert.origin c)
  then Some (match last_committed s !! o with Some r => Z.max r (Cert.round c) | None => Cert.round c end)
  else last_committed s !! o.
Proof.
  unfold CState.update. simpl. case_decide as Ho.
  - subst o. destruct (last_committed s !! Cert.origin c); by rewrite lookup_insert_eq.
  - destruct (last_committed s !! Cert.origin c); by rewrite lookup_insert_ne.
Qed.

Lemma update_round s c : committed_round (last_round (CState.update s c)) =
  Z.max (committed_round (last_round s)) (Cert.round c).
Proof. done. Qed.

(** Committing a certificate of the DAG keeps the state well-formed. *)
Lemma update_wf s c : state_wf s → is_u64 (Cert.round c) → state_wf (CState.update s c).
Proof.
  intros Hwf Hu. pose proof (swf_gc s Hwf) as Hgc. pose proof (swf_committed s Hwf) as Hc.
  assert (gc_round (last_round s) <= gc_round (last_round (CState.update s c))) as Hmono.
  { simpl. rewrite Hgc. unfold utils_gc_round, sat_sub. lia. }
  split.
  - intros r tbl o dg c' Hr. unfold CState.update in Hr. simpl in Hr.
    apply map_lookup_filter_Some in Hr as [Hr _]. by apply (swf_dag s Hwf).
  - intros c1 c2 [H1 _]%update_in_dag [H2 _]%update_in_dag. by apply (swf_inj s).
  - intros x [Hx Hgx]%update_in_dag Hg dg Hdg.
    destruct (swf_closed s Hwf x Hx ltac:(lia) dg Hdg) as (p & (Hp & Hr & Hd) & He).
    exists p. split; [|done]. split_and!; [|done|done]. apply update_in_dag. split; [done|lia].
  - done.
  - apply Hwf.
  - simpl. unfold is_u64 in *. lia.
  - intros r tbl Hr. unfold CState.update in Hr. simpl in Hr.
    by apply map_lookup_filter_Some in Hr as [_ ?].
  - intros o r. rewrite update_lc, update_round. case_decide as Ho.
    + intros [= <-]. destruct (last_committed s !! o) as [r|] eqn:E; [|lia].
      apply (swf_lc s Hwf) in E. lia.
    + intros E%(swf_lc s Hwf). lia.
Qed.

(** ** The flattened sub-dag *)

Section order_dag.
Context (s : ConsensusState) (ldr : Certificate).

(** The garbage-collection round of the flattening. *)
Let lgc : Z := sat_sub (Cert.round ldr) (gc_depth s).

(** The certificates that a commit of the leader must contain: the leader, and
    every uncommitted parent of one that is above the lowest round kept. *)
Inductive flat : Certificate → Prop :=
  | flat_leader : flat ldr
  | flat_parent x p : flat x → Cert.round x ≠ sat_sub (Cert.round ldr) (gc_depth s) + 1 →
      parent_of (dag s) x p → is_committed (last_committed s) p = false → flat p.

Hypothesis Hwf : state_wf s.
Hypothesis Hldr : in_dag (dag s) ldr.
Hypothesis Hpos : 0 < Cert.round ldr.
Hypothesis Hnew : committed_round (last_round s) <= Cert.round ldr.

Lemma lgc_bounds : 0 <= lgc ∧ lgc + 1 <= Cert.round ldr ∧ gc_round (last_round s) <= lgc.
Proof.
  pose proof (swf_depth s Hwf). pose proof (swf_committed s Hwf) as Hc. unfold is_u64 in Hc.
  rewrite (swf_gc s Hwf). unfold lgc, utils_gc_round, sat_sub. lia.
Qed.

Lemma flat_in_dag x : flat x → in_dag (dag s) x ∧ lgc + 1 <= Cert.round x <= Cert.round ldr ∧
  (x ≠ ldr → Cert.round x < Cert.round ldr).
Proof.
  pose proof lgc_bounds. induction 1 as [|x p Hx IH Hne (Hp & Hr & Hd) Hc].
  - split_and!; [done|lia|lia|done].
  - fold lgc in Hne. split_and!; [done|lia|lia|]. intros. lia.
Qed.

Lemma flat_round_u64 x : flat x → is_u64 (Cert.round x).
Proof. intros (Hin & _)%flat_in_dag. eapply in_dag_round; [apply Hwf|done]. Qed.

(** Where the loop looks for parents, it finds every one of them. *)
Lemma flat_parents x dg : flat x → Cert.round x ≠ lgc + 1 → dg ∈ Cert.parents x →
  ∃ p, parent_of (dag s) x p ∧ Cert.digest p = dg.
Proof.
  intros Hx Hne Hdg. destruct (flat_in_dag x Hx) as (Hin & Hb & _). pose proof lgc_bounds.
  apply (swf_closed s Hwf x Hin); [lia|done].
Qed.

(** The loop's state: the certificates found so far are those in the buffer
    and those already ordered; [todo] are parent digests of [x] still to visit. *)
Record loop_inv (buffer : list Certificate) (already : gset Z) (ordered : list Certificate) : Prop := {
  li_flat c : c ∈ buffer ++ ordered → flat c;
  li_nodup : NoDup (buffer ++ ordered);
  li_already c : c ∈ buffer ++ ordered → c = ldr ∨ Cert.digest c ∈ already;
  li_found dg : dg ∈ already → ∃ c, c ∈ buffer ++ ordered ∧ c ≠ ldr ∧ Cert.digest c = dg;
  li_leader : ldr ∈ buffer ++ ordered;
}.

(** All the parents of [x] with a digest in [ds] have been found. *)
Definition visited (found : list Certificate) (x : Certificate) (ds : list Z) : Prop :=
  ∀ p, parent_of (dag s) x p → Cert.digest p ∈ ds → is_committed (last_committed s) p = false →
    p ∈ found.

Lemma loop_inv_push x p buffer already ordered : flat x → Cert.round x ≠ lgc + 1 →
  parent_of (dag s) x p → is_committed (last_committed s) p = false → Cert.digest p ∉ already →
  loop_inv buffer already ordered →
  loop_inv (p :: buffer) ({[Cert.digest p]} ∪ already) ordered.
Proof.
  intros Hx Hne Hp Hc Hd Hinv.
  assert (flat p) as Hfp by (by eapply flat_parent).
  assert (p ≠ ldr) as Hpl.
  { intros ->. destruct (flat_in_dag x Hx) as (_ & ? & _). destruct Hp as (_ & ? & _). lia. }
  split; simpl.
  - intros c [->|?]%elem_of_cons; [done|]. by eapply li_flat.
  - constructor; [|apply Hinv]. intros Hin. destruct (li_already _ _ _ Hinv p Hin); [done|].
    done.
  - intros c [->|Hin]%elem_of_cons; [set_solver|].
    destruct (li_already _ _ _ Hinv c Hin); set_solver.
  - intros dg [->%elem_of_singleton|Hin]%elem_of_union; [exists p; set_solver|].
    destruct (li_found _ _ _ Hinv dg Hin) as (c & ? & ? & ?). exists c. set_solver.
  - pose proof (li_leader _ _ _ Hinv). set_solver.
Qed.

Lemma push_parents_spec x ds buffer already ordered : flat x → Cert.round x ≠ lgc + 1 →
  (∀ dg, dg ∈ ds → dg ∈ Cert.parents x) → loop_inv buffer already ordered →
  ∃ buffer' already', push_parents s x ds buffer already = Ret (buffer', already') ∧
    loop_inv buffer' already' ordered ∧ (∀ c, c ∈ buffer → c ∈ buffer') ∧
    visited (buffer' ++ ordered) x ds.
Proof.
  intros Hx Hne. revert buffer already. induction ds as [|dg ds IH]; intros buffer already Hds Hinv.
  - exists buffer, already. split_and!; [done|done|done|]. intros p _ Hin. set_solver.
  - destruct (flat_parents x dg Hx Hne) as (p & Hp & Hpd); [apply Hds; set_solver|].
    destruct (flat_in_dag x Hx) as (Hin & Hb & _). pose proof lgc_bounds.
    assert ((tbl ← dag s !! wsub (Cert.round x) 1; find_digest tbl dg) = Some (dg, p)) as Hf.
    { rewrite <-Hpd. apply find_parent; [apply Hwf|apply Hwf|by apply flat_round_u64|lia|done]. }
    assert (∀ q, parent_of (dag s) x q → Cert.digest q = dg → q = p) as Huniq.
    { intros q Hq Hqd. apply (swf_inj s Hwf); [apply Hq|apply Hp|congruence]. }
    simpl push_parents. rewrite Hf. simpl.
    destruct (bool_decide (dg ∈ already) || is_committed (last_committed s) p) eqn:Hskip.
    + destruct (IH buffer already) as (b' & a' & Hpp & Hinv' & Hsub & Hvis); [set_solver|done|].
      exists b', a'. split_and!; [done|done|done|].
      intros q Hq Hqin Hqc. apply elem_of_cons in Hqin as [Hqd|Hqin]; [|by apply Hvis].
      assert (q = p) as -> by (by apply Huniq).
      rewrite Hqc, orb_false_r in Hskip. apply bool_decide_eq_true in Hskip.
      destruct (li_found _ _ _ Hinv dg Hskip) as (c & Hc & _ & Hcd).
      assert (c = p) as <-.
      { apply (swf_inj s Hwf); [|apply Hp|congruence].
        apply flat_in_dag, (li_flat _ _ _ Hinv), Hc. }
      apply elem_of_app in Hc as [Hc|Hc]; apply elem_of_app; [left; by apply Hsub|by right].
    + apply orb_false_iff in Hskip as [Hna%bool_decide_eq_false Hnc].
      destruct (IH (p :: buffer) ({[dg]} ∪ already)) as (b' & a' & Hpp & Hinv' & Hsub & Hvis).
      { set_solver. }
      { rewrite <-Hpd. apply (loop_inv_push x); by rewrite ?Hpd. }
      exists b', a'. split_and!; [done|done|set_solver|].
      intros q Hq Hqin Hqc. apply elem_of_cons in Hqin as [Hqd|Hqin]; [|by apply Hvis].
      assert (q = p) as -> by (by apply Huniq). apply elem_of_app. left. apply Hsub. set_solver.
Qed.

(** Every certificate found is in the DAG, so they are at most as many. *)
Lemma length_flat l : NoDup l → (∀ c, c ∈ l → in_dag (dag s) c) → (length l <= dag_size (dag s))%nat.
Proof.
  intros Hnd Hl.
  set (all := map_to_list (dag s) ≫= λ p : Z * Table, snd <$> (snd <$> map_to_list p.2)).
  assert (length all = dag_size (dag s)) as <-.
  { unfold all, dag_size. generalize (map_to_list (dag s)) as k.
    induction k as [|p k IH]; [done|]. rewrite bind_cons, length_app, IH.
    simpl. by rewrite !length_fmap, length_map_to_list. }
  apply submseteq_length, NoDup_submseteq; [done|]. intros c Hc.
  destruct (Hl c Hc) as (tbl & Hr & Ho). unfold all. apply list_elem_of_bind.
  exists (Cert.round c, tbl). split; [|by apply elem_of_map_to_list].
  rewrite <-list_fmap_compose. apply list_elem_of_fmap.
  exists (Cert.origin c, (Cert.digest c, c)). split; [done|]. by apply elem_of_map_to_list.
Qed.

(** Ordered certificates have had their parents visited. *)
Definition expanded (found ordered : list Certificate) : Prop :=
  ∀ x, x ∈ ordered → Cert.round x ≠ lgc + 1 → ∀ p, parent_of (dag s) x p →
    is_committed (last_committed s) p = false → p ∈ found.

Lemma loop_inv_pop x buffer already ordered :
  loop_inv (x :: buffer) already ordered → loop_inv buffer already (ordered ++ [x]).
Proof.
  intros Hinv. assert (buffer ++ ordered ++ [x] ≡ₚ (x :: buffer) ++ ordered) as Hperm.
  { simpl. rewrite app_assoc. by rewrite <-Permutation_cons_append. }
  split; setoid_rewrite Hperm; apply Hinv.
Qed.

Lemma order_loop_spec fuel buffer already ordered :
  loop_inv buffer already ordered → expanded (buffer ++ ordered) ordered →
  (dag_size (dag s) < fuel + length ordered)%nat →
  ∃ l, order_loop fuel s lgc buffer already ordered = Ret l ∧
    NoDup l ∧ (∀ c, c ∈ l ↔ flat c).
Proof.
  revert buffer already ordered.
  induction fuel as [|fuel IH]; intros buffer already ordered Hinv Hexp Hfuel.
  { exfalso. assert (length (buffer ++ ordered) <= dag_size (dag s))%nat as Hlen.
    { apply length_flat; [apply Hinv|]. intros c Hc. by apply flat_in_dag, (li_flat _ _ _ Hinv). }
    rewrite length_app in Hlen. lia. }
  destruct buffer as [|x buffer]; simpl.
  - exists ordered. split_and!; [done|apply Hinv|]. intros c. split; [apply Hinv|].
    induction 1 as [|x p Hx IHx Hne Hp Hc]; [apply (li_leader _ _ _ Hinv)|].
    by apply (Hexp x IHx).
  - assert (flat x) as Hx by (apply (li_flat _ _ _ Hinv); set_solver).
    pose proof lgc_bounds. pose proof (flat_round_u64 _ flat_leader) as Hu.
    assert (wadd lgc 1 = lgc + 1) as ->.
    { unfold wadd, is_u64 in *. apply Z.mod_small. lia. }
    apply loop_inv_pop in Hinv.
    assert (length (ordered ++ [x]) = S (length ordered)) as Hlen.
    { rewrite length_app. simpl. lia. }
    destruct (Z.eqb_spec (Cert.round x) (lgc + 1)) as [He|Hne].
    + apply IH; [done| |lia]. intros y Hy Hyr p Hp Hc.
      apply elem_of_app in Hy as [Hy| ->%list_elem_of_singleton]; [|done].
      specialize (Hexp y Hy Hyr p Hp Hc). set_solver.
    + destruct (push_parents_spec x (btree_set_iter (Cert.parents x)) buffer already (ordered ++ [x]))
        as (b' & a' & -> & Hinv' & Hsub & Hvis); [done|done|set_unfold; apply elem_of_btree_set_iter|done|].
      simpl. apply IH; [done| |lia]. intros y Hy Hyr p Hp Hc.
      apply elem_of_app in Hy as [Hy| ->%list_elem_of_singleton].
      * specialize (Hexp y Hy Hyr p Hp Hc). set_solver.
      * apply Hvis; [done| |done]. apply elem_of_btree_set_iter. apply Hp.
Qed.

Lemma order_dag_spec : ∃ l, order_dag ldr s = Ret l ∧ NoDup l ∧ (∀ c, c ∈ l ↔ flat c) ∧
  StronglySorted (λ a b, Cert.round a <= Cert.round b) l.
Proof.
  unfold order_dag, assert_, mbind, outcome_bind. replace (0 <? Cert.round ldr) with true by lia.
  cbv beta iota zeta. fold lgc.
  destruct (order_loop_spec (S (dag_size (dag s))) [ldr] ∅ []) as (l & Hl & Hnd & Hiff).
  - split; simpl; try set_solver.
    + intros c ->%list_elem_of_singleton. constructor.
    + apply NoDup_singleton.
  - intros x Hx. set_solver.
  - simpl. lia.
  - rewrite Hl. eexists. split_and!; [done|by rewrite sort_by_key_perm| |].
    + intros c. by rewrite elem_of_sort_by_key.
    + apply sort_by_key_sorted.
Qed.
End order_dag.

(** ** Recovery *)

(** No two certificates of a collection share a digest. *)
Definition no_collision (P : Certificate → Prop) : Prop :=
  ∀ c1 c2, P c1 → P c2 → Cert.digest c1 = Cert.digest c2 → c1 = c2.

Lemma insert_all_wf s certs d' : state_wf s → (∀ c, c ∈ certs → is_u64 (Cert.round c)) →
  no_collision (λ c, in_dag (dag s) c ∨ c ∈ certs) →
  CState.insert_all certs (dag s) (last_committed s) (gc_round (last_round s)) = Ret (Ok d') →
  state_wf (CState.with_dag s d') ∧
  ∀ c, in_dag d' c ↔ in_dag (dag s) c ∨ (c ∈ certs ∧ gc_round (last_round s) < Cert.round c).
Proof.
  revert s. induction certs as [|x certs IH]; intros s Hwf Hu Hcol.
  - simpl. intros [= <-]. split; [by destruct s|]. intros c. set_solver.
  - simpl. intros Hins.
    destruct (CState.try_insert_in_dag (dag s) (last_committed s) (gc_round (last_round s)) x)
      as [[[b|e] d1]| |] eqn:E; simpl in Hins; try discriminate Hins.
    assert (CState.try_insert x s = Ret (Ok b, CState.with_dag s d1)) as Hti.
    { unfold CState.try_insert. rewrite E. done. }
    destruct (try_insert_wf s x b _ Hwf (Hu x ltac:(left)) ltac:(intros; apply Hcol; set_solver) Hti)
      as (Hwf1 & _ & _ & _ & _ & Hin & _). simpl in Hin.
    destruct (IH (CState.with_dag s d1)) as [Hwf' Hin']; simpl; [done|set_solver| |done|].
    { intros c1 c2. rewrite !Hin. intros H1 H2. apply Hcol; set_solver. }
    split; [exact Hwf'|]. intros c. rewrite Hin'. simpl. rewrite Hin. set_solver.
Qed.

(** Certificates that can be inserted one after the other: every one that is above
    the boundary finds its parents among those before it. *)
Fixpoint insertable (g : Round) (before certs : list Certificate) : Prop :=
  match certs with
  | [] => True
  | c :: certs =>
      is_u64 (Cert.round c) ∧ g < Cert.round c ∧
      (g + 1 < Cert.round c →
         Exists (λ p, Cert.round p = Cert.round c - 1) before ∧
         set_Forall (λ dg, Exists (λ p, Cert.round p = Cert.round c - 1 ∧ Cert.digest p = dg) before)
           (Cert.parents c)) ∧
      Forall (λ p, Cert.round p = Cert.round c ∧ Cert.origin p = Cert.origin c → p = c) before ∧
      insertable g (before ++ [c]) certs
  end.

#[global] Instance insertable_dec g before certs : Decision (insertable g before certs).
Proof. revert before. induction certs; intros; simpl; apply _. Defined.

Lemma insertable_parents d g before c : dag_wf d → (∀ x, x ∈ before → in_dag d x) →
  (g + 1 < Cert.round c →
     Exists (λ p, Cert.round p = Cert.round c - 1) before ∧
     set_Forall (λ dg, Exists (λ p, Cert.round p = Cert.round c - 1 ∧ Cert.digest p = dg) before)
       (Cert.parents c)) → parents_present d g c.
Proof.
  intros Hwf Hb Hp Hg. destruct (Hp Hg) as [(p & Hpb & Hpr)%Exists_exists Hall].
  destruct (Hb p Hpb) as (tbl & Htbl & _). rewrite Hpr in Htbl. exists tbl. split; [done|].
  intros dg Hdg. apply Hall, Exists_exists in Hdg as (q & Hq & Hqr & <-).
  destruct (Hb q Hq) as (t & Ht & Ho). rewrite Hqr in Ht. assert (t = tbl) as -> by congruence.
  eauto.
Qed.

Lemma insert_all_total d before certs lc g : dag_wf d → 0 <= g →
  (∀ x, in_dag d x ↔ x ∈ before) → insertable g before certs →
  ∃ d', CState.insert_all certs d lc g = Ret (Ok d') ∧
    (∀ x, in_dag d' x ↔ x ∈ before ++ certs) ∧ dag_wf d'.
Proof.
  intros Hwf Hg. revert d before Hwf. induction certs as [|c certs IH]; intros d before Hwf Hin Hi.
  - exists d. rewrite app_nil_r. done.
  - destruct Hi as (Hu & Hgc & Hp & Huniq & Hi). simpl.
    pose proof (try_insert_in_dag_spec d lc g c Hu Hg) as Hspec.
    assert (parents_present d g c) as Hpp by (eapply insertable_parents; [done|apply Hin|done]).
    rewrite Forall_forall in Huniq.
    assert (∀ c', existing d c = Some c' → c' = c) as Hex.
    { intros c' (Hc' & ? & ?)%existing_in_dag; [|done]. by apply Huniq; [apply Hin|]. }
    destruct (CState.try_insert_in_dag d lc g c) as [[[b|e] d1]| |]; simpl.
    + rewrite decide_True in Hspec by done. destruct Hspec as (_ & -> & _).
      destruct (IH (CState.insert_certificate d c) (before ++ [c])) as (d' & -> & Hd' & Hwf').
      * by apply insert_wf.
      * intros x. rewrite insert_in_dag, elem_of_app, list_elem_of_singleton, Hin.
        split; [naive_solver|]. destruct (decide (x = c)) as [->|]; [by left|].
        intros [Hx|?]; [|by left]. right. split; [done|]. intros Hrc. by apply Huniq in Hrc.
      * done.
      * exists d'. split_and!; [done| |done]. intros x. rewrite Hd'. by rewrite <-app_assoc.
    + destruct Hspec as (_ & _ & c' & Hc' & Hne & _). by rewrite (Hex c' Hc') in Hne.
    + destruct Hspec as [_ Hn]. done.
    + done.
Qed.

Lemma state_new_wf gc_depth : 1 <= gc_depth → state_wf (CState.new gc_depth).
Proof.
  intros Hd.
  assert (∀ c, ¬ in_dag ∅ c) as He by (intros c (tbl & Ht & _); by rewrite lookup_empty in Ht).
  split; simpl; [|intros c1 c2 H1; by apply He in H1|intros c Hc; by apply He in Hc|..].
  - intros r tbl o dg c Hr. by rewrite lookup_empty in Hr.
  - unfold utils_gc_round, sat_sub. lia.
  - done.
  - done.
  - intros r tbl Hr. by rewrite lookup_empty in Hr.
  - intros o r Hr. by rewrite lookup_empty in Hr.
Qed.

(** The certificates of a well-formed DAG in round order can be inserted again. *)
Lemma sorted_insertable s before certs : state_wf s →
  (∀ c, in_dag (dag s) c ↔ c ∈ before ++ certs) →
  StronglySorted (λ a b, Cert.round a <= Cert.round b) (before ++ certs) →
  (∀ c, in_dag (dag s) c → Cert.parents c ≠ ∅) →
  insertable (gc_round (last_round s)) before certs.
Proof.
  intros Hwf. revert before. induction certs as [|c certs IH]; intros before Hin Hs Hne; [done|].
  assert (in_dag (dag s) c) as Hc by (apply Hin; set_solver).
  assert (∀ p, in_dag (dag s) p → Cert.round p < Cert.round c → p ∈ before) as Hbefore.
  { intros p Hp%Hin Hr. apply elem_of_app in Hp as [?|Hp]; [done|exfalso].
    apply StronglySorted_app in Hs as (_ & _ & Hs).
    apply StronglySorted_inv in Hs as [_ HF]. apply elem_of_cons in Hp as [->|Hp]; [lia|].
    rewrite Forall_forall in HF. specialize (HF p Hp). simpl in HF. lia. }
  split_and!.
  - eapply in_dag_round; [apply Hwf|done].
  - destruct Hc as (tbl & Ht & _). by eapply swf_above.
  - intros Hg. pose proof (swf_closed s Hwf c Hc Hg) as Hcl. split.
    + destruct (set_choose_L (Cert.parents c)) as [dg Hdg]; [by apply Hne|].
      destruct (Hcl dg Hdg) as (p & (Hp & Hr & _) & _).
      apply Exists_exists. exists p. split; [|done]. apply Hbefore; [done|lia].
    + intros dg Hdg. destruct (Hcl dg Hdg) as (p & (Hp & Hr & _) & Hd).
      apply Exists_exists. exists p. split; [|done]. apply Hbefore; [done|lia].
  - apply Forall_forall. intros p Hp [Hr Ho].
    eapply in_dag_unique; [|exact Hc|done|done]. apply Hin. set_solver.
  - apply IH; [intros x; rewrite Hin; set_solver|by rewrite <-app_assoc|done].
Qed.

Lemma read_all_spec st certs :
  (∀ c, c ∈ certs → read st (Cert.digest c) = Some c) →
  CState.read_all st (Cert.digest <$> certs) = Ret certs.
Proof.
  induction certs as [|c certs IH]; intros Hr; [done|]. rewrite fmap_cons.
  cbn [CState.read_all]. rewrite (Hr c) by set_solver. unfold_m. rewrite IH; [done|]. set_solver.
Qed.

(** Recovery rebuilds a state from what it persisted: the certificate store returns, in
    round order, the certificates that the DAG had, and the persisted commit is
    that of the last sub-dag. *)
Lemma new_from_store_spec s st : state_wf s →
  (∀ c, in_dag (dag s) c ↔ c ∈ after_round st (gc_round (last_round s) + 1)) →
  StronglySorted (λ a b, Cert.round a <= Cert.round b) (after_round st (gc_round (last_round s) + 1)) →
  (∀ c, in_dag (dag s) c → Cert.parents c ≠ ∅) →
  (∀ d c, last_committed_sub_dag s = Some d → c ∈ leader d :: certificates d →
     read st (Cert.digest c) = Some c) →
  ∃ s', CState.new_from_store (committed_round (last_round s)) (gc_depth s) (last_committed s)
          ((λ d, CommitV2 (Commit.from_sub_dag d)) <$> last_committed_sub_dag s) st = Ret s' ∧
    state_wf s' ∧ last_round s' = last_round s ∧ last_committed s' = last_committed s ∧
    last_committed_sub_dag s' = last_committed_sub_dag s ∧ ∀ c, in_dag (dag s') c ↔ in_dag (dag s) c.
Proof.
  intros Hwf Hin Hs Hne Hread. unfold CState.new_from_store, CState.construct_dag_from_cert_store.
  unfold CRound.new_with_gc_depth. rewrite <-(swf_gc s Hwf). cbn [gc_round].
  pose proof (swf_committed s Hwf) as Hc. pose proof (swf_depth s Hwf).
  assert (0 <= gc_round (last_round s) < U64_MOD - 1) as Hg.
  { rewrite (swf_gc s Hwf). unfold utils_gc_round, sat_sub, is_u64, U64_MOD in *. lia. }
  assert (wadd (gc_round (last_round s)) 1 = gc_round (last_round s) + 1) as ->.
  { unfold wadd. apply Z.mod_small. lia. }
  assert (∀ c, ¬ in_dag ∅ c) as Hem by (intros c (tbl & Ht & _); by rewrite lookup_empty in Ht).
  destruct (insert_all_total ∅ [] (after_round st (gc_round (last_round s) + 1))
    (last_committed s) (gc_round (last_round s))) as (d' & Hins & Hin' & Hwf').
  { intros r tbl o dg c Hr. by rewrite lookup_empty in Hr. }
  { lia. }
  { intros x. split; [by intros ?%Hem|set_solver]. }
  { by apply sorted_insertable. }
  rewrite Hins. cbn [mbind outcome_bind].
  assert (match (λ d, CommitV2 (Commit.from_sub_dag d)) <$> last_committed_sub_dag s with
    | Some latest => certs ← CState.read_all st (Commit.certificates latest);
        ldr ← unwrap (read st (Commit.leader latest)); Ret (Some (SubDag.from_commit latest certs ldr))
    | None => Ret None end = Ret (last_committed_sub_dag s)) as ->.
  { destruct (last_committed_sub_dag s) as [d|]; [|done]. simpl.
    rewrite read_all_spec by (intros c Hcd; apply (Hread d); [done|by right]).
    rewrite (Hread d (leader d)); [|done|left]. by destruct d. }
  cbn [mbind outcome_bind]. eexists. split; [reflexivity|]. simpl in *.
  assert (∀ c, in_dag d' c ↔ in_dag (dag s) c) as Heq by (intros c; by rewrite Hin', Hin).
  split_and!; [|by destruct (last_round s)|done|done|done].
  destruct (insert_all_wf (mkState (last_round s) (gc_depth s) (last_committed s) (last_committed_sub_dag s) ∅)
    (after_round st (gc_round (last_round s) + 1)) d') as [Hres _]; simpl.
  - split; simpl; try apply Hwf; try (intros c H1; by destruct (Hem c H1)).
    + intros r tbl o dg c Hr. by rewrite lookup_empty in Hr.
    + intros c1 c2 H1. by destruct (Hem c1 H1).
    + intros r tbl Hr. by rewrite lookup_empty in Hr.
  - intros c Hcc%Hin. eapply in_dag_round; [apply Hwf|done].
  - intros c1 c2 [?%Hem|H1] [?%Hem|H2]; [done..|]. apply Hin in H1, H2. by apply (swf_inj s).
  - done.
  - destruct s as [[] ? ? ? ?]. exact Hres.
Qed.

(** * Properties *)

(** An example DAG: [n] full rounds of four authorities. *)
Definition example_cert (r o : Z) : Certificate :=
  CV2 (mkCertificateV2
    (HV2 (mkHeaderV2 o r 0 (100 * r + o) [] []
            (list_to_set ((λ p, 10 * (r - 1) + p) <$> [0; 1; 2; 3])) (10 * r + o)))
    (VerifiedDirectly 0) {[0; 1; 2]} 0).
Definition example_certs (n : nat) : list Certificate :=
  seqZ 1 (Z.of_nat n) ≫= λ r, example_cert r <$> [0; 1; 2; 3].
Definition example_state (n : nat) : ConsensusState :=
  match CState.insert_all (example_certs n) ∅ ∅ 0 with
  | Ret (Ok d) => CState.with_dag (CState.new 50) d
  | _ => CState.new 50
  end.

Lemma example_state_spec n : bool_decide (insertable 0 [] (example_certs n)) = true →
  bool_decide (NoDup (Cert.digest <$> example_certs n)) = true →
  state_wf (example_state n) ∧ (∀ c, in_dag (dag (example_state n)) c ↔ c ∈ example_certs n).
Proof.
  intros Hi%bool_decide_eq_true Hd%bool_decide_eq_true. unfold example_state.
  assert (dag (CState.new 50) = ∅) as He by done.
  pose proof (state_new_wf 50 ltac:(lia)) as Hwf.
  assert (∀ c, ¬ in_dag ∅ c) as Hem by (intros c (tbl & Ht & _); by rewrite lookup_empty in Ht).
  destruct (insert_all_total ∅ [] (example_certs n) ∅ 0) as (d & Hins & Hin & _);
    [apply Hwf|lia|intros x; split; [by intros ?%Hem|set_solver]|done|].
  rewrite Hins. destruct (insert_all_wf (CState.new 50) (example_certs n) d Hwf) as [Hw _];
    [| |done|by split].
  - intros c Hc%Hin. destruct (insert_all_total ∅ [] (example_certs n) ∅ 0)
      as (d2 & Hins2 & _ & Hwf2); [apply Hwf|lia|intros x; split; [by intros ?%Hem|set_solver]|done|].
    assert (d2 = d) as -> by congruence. by eapply in_dag_round.
  - intros c1 c2 [?%Hem|H1] [?%Hem|H2] Hdd; [done..|].
    apply list_elem_of_lookup in H1 as [i Hi1], H2 as [j Hj].
    assert (i = j) as ->; [|congruence].
    eapply (NoDup_lookup _ i j (Cert.digest c1) Hd); rewrite list_lookup_fmap;
      [by rewrite Hi1|rewrite Hj; simpl; congruence].
Qed.

Lemma example_3 : state_wf (example_state 3) ∧
  (∀ c, in_dag (dag (example_state 3)) c ↔ c ∈ example_certs 3).
Proof. apply example_state_spec; vm_compute; reflexivity. Qed.

(** C20: in a well-formed state, flattening the sub-dag below a leader of the DAG that
    is not below the committed round terminates without a panic, and the result
    holds, each once and by increasing round, exactly the leader and the
    uncommitted certificates reachable from it above the garbage-collection round. *)
Theorem order_dag_correct s ldr : state_wf s → in_dag (dag s) ldr → 0 < Cert.round ldr →
  committed_round (last_round s) <= Cert.round ldr →
  ∃ l, order_dag ldr s = Ret l ∧ NoDup l ∧ (∀ c, c ∈ l ↔ flat s ldr c) ∧
    StronglySorted (λ a b, Cert.round a <= Cert.round b) l.
Proof. intros. by apply order_dag_spec. Qed.

Lemma order_dag_correct_witness : ∃ l, order_dag (example_cert 2 1) (example_state 3) = Ret l ∧
  NoDup l ∧ (∀ c, c ∈ l ↔ flat (example_state 3) (example_cert 2 1) c) ∧
  StronglySorted (λ a b, Cert.round a <= Cert.round b) l.
Proof.
  apply (order_dag_correct (example_state 3) (example_cert 2 1)).
  - apply example_3.
  - apply example_3. apply (bool_decide_unpack _). vm_compute. exact I.
  - vm_compute. reflexivity.
  - vm_compute. discriminate.
Defined.

(** every branch of [ConsensusState::try_insert]: at or below the
    garbage-collection round nothing happens; above it a certificate with a missing
    parent panics; otherwise it is inserted, and the result is an equivocation
    error exactly when another certificate of the same origin and round was there. *)
Theorem try_insert_cases s c : state_wf s → is_u64 (Cert.round c) →
  match CState.try_insert c s with
  | Ret (Ok b, s') =>
      if decide (gc_round (last_round s) < Cert.round c) then
        parents_present (dag s) (gc_round (last_round s)) c ∧
        s' = CState.with_dag s (CState.insert_certificate (dag s) c) ∧
        b = bool_decide (default 0 (last_committed s !! Cert.origin c) < Cert.round c) ∧
        ∀ c', existing (dag s) c = Some c' → Cert.digest c' = Cert.digest c
      else b = false ∧ s' = s
  | Ret (Err e, s') =>
      s' = CState.with_dag s (CState.insert_certificate (dag s) c) ∧
      ∃ c', existing (dag s) c = Some c' ∧ Cert.digest c' ≠ Cert.digest c ∧
        e = CertificateEquivocation c c'
  | Panic => gc_round (last_round s) < Cert.round c ∧
      ¬ parents_present (dag s) (gc_round (last_round s)) c
  | OutOfFuel => False
  end.
Proof.
  intros Hwf Hu. unfold CState.try_insert.
  assert (0 <= gc_round (last_round s)) as Hg.
  { rewrite (swf_gc s Hwf). unfold utils_gc_round, sat_sub. lia. }
  pose proof (try_insert_in_dag_spec (dag s) (last_committed s) _ c Hu Hg) as Hspec.
  destruct (CState.try_insert_in_dag _ _ _ _) as [[[b|e] d']| |]; simpl; [|naive_solver..].
  case_decide; [naive_solver|]. destruct Hspec as [-> ->]. by destruct s.
Qed.

Lemma try_insert_cases_witness :
  ∃ e s', CState.try_insert (CV2 (mkCertificateV2 (HV2 (mkHeaderV2 1 1 0 0 [] [] ∅ 99)) Genesis ∅ 0))
            (example_state 3) = Ret (Err e, s') ∧
  s' = CState.with_dag (example_state 3) (CState.insert_certificate (dag (example_state 3))
         (CV2 (mkCertificateV2 (HV2 (mkHeaderV2 1 1 0 0 [] [] ∅ 99)) Genesis ∅ 0))).
Proof.
  pose proof (try_insert_cases (example_state 3)
    (CV2 (mkCertificateV2 (HV2 (mkHeaderV2 1 1 0 0 [] [] ∅ 99)) Genesis ∅ 0)) (proj1 example_3)) as H.
  destruct (CState.try_insert _ _) as [[[b|e] s']| |] eqn:E.
  - exfalso. vm_compute in E. discriminate E.
  - exists e, s'. split; [reflexivity|]. apply H. vm_compute. split; [discriminate|reflexivity].
  - exfalso. vm_compute in E. discriminate E.
  - exfalso. vm_compute in E. discriminate E.
Defined.

(** inserting a certificate keeps the state well-formed (in particular, closed
    under parents above the garbage-collection round), changes nothing but the DAG
    and adds that certificate and no other. *)
Theorem try_insert_preserves s c b s' : state_wf s → is_u64 (Cert.round c) →
  no_collision (λ x, in_dag (dag s) x ∨ x = c) → CState.try_insert c s = Ret (Ok b, s') →
  state_wf s' ∧ last_round s' = last_round s ∧ last_committed s' = last_committed s ∧
  ∀ x, in_dag (dag s') x ↔
    in_dag (dag s) x ∨ (x = c ∧ gc_round (last_round s) < Cert.round c).
Proof.
  intros Hwf Hu Hcol Hti.
  destruct (try_insert_wf s c b s' Hwf Hu) as (? & ? & ? & ? & ? & ? & ?); [|done|done].
  intros c' Hc' Hd. apply Hcol; auto.
Qed.

Lemma try_insert_preserves_witness :
  ∃ b s', CState.try_insert (example_cert 3 3) (example_state 3) = Ret (Ok b, s') ∧ state_wf s'.
Proof.
  destruct (CState.try_insert (example_cert 3 3) (example_state 3)) as [[[b|e] s']| |] eqn:E;
    [|exfalso; vm_compute in E; discriminate E..].
  exists b, s'. split; [reflexivity|].
  apply (try_insert_preserves (example_state 3) (example_cert 3 3) b s').
  - apply example_3.
  - vm_compute. split; [discriminate|reflexivity].
  - assert (in_dag (dag (example_state 3)) (example_cert 3 3)) as Hin.
    { apply example_3. apply (bool_decide_unpack _). vm_compute. exact I. }
    intros c1 c2 H1 H2. apply (swf_inj _ (proj1 example_3)); naive_solver.
  - exact E.
Defined.

