(* ===== verification/LeaderSchedule.v ===== *)
(** * The leader schedule ([narwhal/primary/src/consensus/leader_schedule.rs])

    The swap table built from final reputation scores, the leader of a round under a
    swap table, and the leader's certificate in a DAG.  The table sits behind a
    lock in the code and is replaced as a whole; the model keeps it as a field. *)
From S2P Require Import Prelude NarwhalConfig NarwhalTypes ConsensusStore ConsensusDag.

Record LeaderSwapTable := mkSwapTable {
  st_round : Round;
  good_nodes : list Authority;
  bad_nodes : gmap Z Authority;
}.

Record LeaderSchedule := mkSchedule {
  ls_committee : Committee;
  leader_swap_table : LeaderSwapTable;
}.

Module SwapTable.
Definition default : LeaderSwapTable := mkSwapTable 0 [] ∅.

(** The loop of [retrieve_first_nodes]; [stake] is what the authorities seen so
    far have. *)
Fixpoint retrieve_loop (c : Committee) (authorities : list (AuthorityIdentifier * Z))
    (stake_threshold : Z) (stake : Stake) : outcome (list Authority) :=
  match authorities with
  | [] => Ret []
  | (authority_id, _) :: authorities =>
      let stake := wadd stake (Comm.stake_by_id c authority_id) in
      if wmul stake_threshold (Comm.total_stake c) / 100 <? stake then Ret []
      else
        a ← Comm.authority_safe c authority_id;
        rest ← retrieve_loop c authorities stake_threshold stake;
        Ret (a :: rest)
  end.

Definition retrieve_first_nodes (c : Committee) (authorities : list (AuthorityIdentifier * Z))
    (stake_threshold : Z) : outcome (list Authority) :=
  retrieve_loop c authorities stake_threshold 0.

(** [.map(|authority| (authority.id(), authority)).collect()]. *)
Fixpoint with_ids (l : list Authority) : outcome (list (Z * Authority)) :=
  match l with
  | [] => Ret []
  | a :: l => i ← Auth.id a; rest ← with_ids l; Ret ((i, a) :: rest)
  end.

Definition new (c : Committee) (round : Round) (scores : ReputationScores)
    (bad_nodes_stake_threshold : Z) : outcome LeaderSwapTable :=
  assert_ ((0 <=? bad_nodes_stake_threshold) && (bad_nodes_stake_threshold <=? 33));;
  assert_ (final_of_schedule scores);;
  good ← retrieve_first_nodes c (Scores.authorities_by_score_desc scores) bad_nodes_stake_threshold;
  bad ← retrieve_first_nodes c (rev (Scores.authorities_by_score_desc scores))
          bad_nodes_stake_threshold;
  bad ← with_ids bad;
  Ret (mkSwapTable round good (collect bad)).

(** The good node that replaces a bad leader; the choice is seeded by the round. *)
Definition swap `{SeededRng} (t : LeaderSwapTable) (ldr : AuthorityIdentifier)
    (leader_round : Round) : outcome (option Authority) :=
  match bad_nodes t !! ldr with
  | Some _ => good_node ← unwrap (choose leader_round (good_nodes t)); Ret (Some good_node)
  | None => Ret None
  end.
End SwapTable.

Module Schedule.
Definition new (c : Committee) (t : LeaderSwapTable) : LeaderSchedule := mkSchedule c t.

(** The threshold comes from the protocol configuration. *)
Definition from_store (c : Committee) (store : ConsensusStore) (bad_nodes_stake_threshold : Z) :
    outcome LeaderSchedule :=
  table ← match Store.read_latest_commit_with_final_reputation_scores store with
          | None => Ret SwapTable.default
          | Some commit =>
              SwapTable.new c (Commit.leader_round commit) (Commit.reputation_score commit)
                bad_nodes_stake_threshold
          end;
  Ret (new c table).

Definition update_leader_swap_table (s : LeaderSchedule) (t : LeaderSwapTable) : LeaderSchedule :=
  mkSchedule (ls_committee s) t.

(** The production branch of the [cfg_if]. *)
Definition leader `{SeededRng} (s : LeaderSchedule) (round : Round) : outcome Authority :=
  assert_ (round mod 2 =? 0);;
  ldr ← Comm.leader (ls_committee s) round;
  i ← Auth.id ldr;
  swapped ← SwapTable.swap (leader_swap_table s) i round;
  Ret (match swapped with Some a => a | None => ldr end).

Definition leader_certificate `{SeededRng} (s : LeaderSchedule) (round : Round) (d : Dag) :
    outcome (Authority * option Certificate) :=
  ldr ← leader s round;
  i ← Auth.id ldr;
  match (tbl ← d !! round; tbl !! i) with
  | None => Ret (ldr, None)
  | Some (_, certificate) => Ret (ldr, Some certificate)
  end.

Definition num_of_bad_nodes (s : LeaderSchedule) : nat := size (bad_nodes (leader_swap_table s)).
End Schedule.

(** * Facts *)

(** The scores cover the committee, as [resolve_reputation_score] asserts. *)
Definition scores_cover (c : Committee) (r : ReputationScores) : Prop :=
  dom (scores_per_authority r) = members c.

#[global] Instance scores_cover_dec c r : Decision (scores_cover c r).
Proof. unfold scores_cover. apply _. Defined.

(** ** Sorting by score does not depend on the iteration order of the map *)

#[global] Instance desc_trans : Transitive Scores.desc.
Proof. intros [] [] []. unfold Scores.desc. simpl. lia. Qed.
#[global] Instance desc_total : Total Scores.desc.
Proof. intros [] []. unfold Scores.desc. simpl. lia. Qed.
#[global] Instance desc_antisymm : AntiSymm (=) Scores.desc.
Proof. intros [a1 s1] [a2 s2]. unfold Scores.desc. simpl. intros. f_equal; lia. Qed.

Lemma sort_desc_unique l k : l ≡ₚ k → Scores.sort_desc l = Scores.sort_desc k.
Proof.
  intros Hp. apply (Sorted_unique_strong Scores.desc).
  - intros x1 x2 _ _. apply (anti_symm Scores.desc).
  - apply (Sorted_merge_sort _).
  - apply (Sorted_merge_sort _).
  - unfold Scores.sort_desc. by rewrite !merge_sort_Permutation.
Qed.

Lemma scores_desc_perm r : Scores.authorities_by_score_desc r ≡ₚ map_to_list (scores_per_authority r).
Proof. apply merge_sort_Permutation. Qed.

Lemma scores_desc_NoDup r : NoDup (Scores.authorities_by_score_desc r).*1.
Proof. rewrite scores_desc_perm. apply NoDup_fst_map_to_list. Qed.

Lemma scores_desc_sorted r : StronglySorted Scores.desc (Scores.authorities_by_score_desc r).
Proof. apply (StronglySorted_merge_sort _). Qed.

Lemma scores_desc_members c r i : scores_cover c r →
  i ∈ (Scores.authorities_by_score_desc r).*1 → i ∈ members c.
Proof.
  intros Hc. rewrite scores_desc_perm. intros ([j v] & -> & Hin%elem_of_map_to_list)%list_elem_of_fmap.
  rewrite <-Hc. by eapply elem_of_dom_2.
Qed.

(** ** The swap table *)

Section swap_table.
Context (c : Committee) (Hwf : committee_wf c).
Hypothesis Hfit : 100 * table_stake (authorities c) < U64_MOD.

Let w (p : AuthorityIdentifier * Z) : Z := Comm.stake_by_id c p.1.

(** The stake that the first nodes of a list may reach. *)
Definition limit (thr : Z) : Z := thr * table_stake (authorities c) / 100.

(** [res] are the authorities of the longest prefix within the limit. *)
Definition first_nodes (l : list (AuthorityIdentifier * Z)) (thr : Z) (res : list Authority) : Prop :=
  ∃ pre suf, l = pre ++ suf ∧
    Forall2 (λ p a, Comm.authority c p.1 = Some a) pre res ∧
    wsum (λ p, Comm.stake_by_id c p.1) pre <= limit thr ∧
    match suf with [] => True | p :: _ => limit thr < wsum (λ p, Comm.stake_by_id c p.1) (pre ++ [p]) end.

Lemma w_nonneg p : 0 <= w p.
Proof. by apply stake_by_id_nonneg. Qed.

Lemma wsum_ids l : NoDup l.*1 → (∀ i, i ∈ l.*1 → i ∈ members c) → wsum w l <= table_stake (authorities c).
Proof.
  intros Hnd Hm. rewrite <-members_stake by done. unfold set_stake.
  transitivity (wset (Comm.stake_by_id c) (list_to_set l.*1)).
  - rewrite wset_list_to_set by done. unfold wsum. rewrite <-list_fmap_compose. done.
  - apply wset_mono; [intros; by apply stake_by_id_nonneg|]. set_solver.
Qed.

Lemma threshold_eq thr : 0 <= thr <= 33 →
  wmul thr (Comm.total_stake c) / 100 = limit thr ∧ 0 <= limit thr.
Proof.
  intros Hthr. pose proof (wf_table c Hwf) as Hok. pose proof (tok_pos _ Hok).
  rewrite total_stake_table by done. unfold wmul, limit. rewrite Z.mod_small by nia.
  split; [done|]. apply Z.div_pos; nia.
Qed.

Lemma limit_third thr : 0 <= thr <= 33 → 2 * limit thr < table_stake (authorities c).
Proof.
  intros Hthr. pose proof (tok_pos _ (wf_table c Hwf)). unfold limit.
  set (T := table_stake (authorities c)) in *.
  assert (thr * T / 100 <= 33 * T / 100) by (apply Z.div_le_mono; nia). div_lia.
Qed.

Lemma retrieve_loop_spec l thr acc : 0 <= thr <= 33 → 0 <= acc <= limit thr →
  acc + wsum w l < U64_MOD → (∀ i, i ∈ l.*1 → i ∈ members c) →
  ∃ pre suf res, l = pre ++ suf ∧ SwapTable.retrieve_loop c l thr acc = Ret res ∧
    Forall2 (λ p a, Comm.authority c p.1 = Some a) pre res ∧ acc + wsum w pre <= limit thr ∧
    match suf with [] => True | p :: _ => limit thr < acc + wsum w (pre ++ [p]) end.
Proof.
  intros Hthr. revert acc. induction l as [|[i v] l IH]; intros acc Hacc Hb Hm.
  - exists [], [], []. split_and!; try done. simpl. unfold wsum. simpl. lia.
  - rewrite wsum_cons in Hb. pose proof (w_nonneg (i, v)) as Hw.
    pose proof (wsum_nonneg w w_nonneg l) as Hl. simpl.
    destruct (threshold_eq thr Hthr) as [-> _]. change (Comm.stake_by_id c i) with (w (i, v)).
    assert (wadd acc (w (i, v)) = acc + w (i, v)) as -> by (unfold wadd; apply Z.mod_small; lia).
    destruct (Z.ltb_spec (limit thr) (acc + w (i, v))) as [Hlt|Hge].
    + exists [], ((i, v) :: l), []. split_and!; try done; [unfold wsum; simpl; lia|].
      rewrite app_nil_l, wsum_cons, wsum_nil. lia.
    + destruct (IH (acc + w (i, v))) as (pre & suf & res & -> & -> & HF & Hle & Hsuf);
        [lia|lia|set_solver|].
      assert (i ∈ dom (authorities_by_id c)) as [a Ha]%elem_of_dom by (apply Hm; set_solver).
      unfold Comm.authority_safe. rewrite Ha. simpl.
      exists ((i, v) :: pre), suf, (a :: res). rewrite wsum_cons.
      split_and!; [done|done|by constructor|lia|].
      destruct suf; [done|]. simpl. rewrite wsum_cons. lia.
Qed.

Lemma retrieve_first_nodes_spec l thr : 0 <= thr <= 33 → NoDup l.*1 →
  (∀ i, i ∈ l.*1 → i ∈ members c) →
  ∃ res, SwapTable.retrieve_first_nodes c l thr = Ret res ∧ first_nodes l thr res.
Proof.
  intros Hthr Hnd Hm. destruct (threshold_eq thr Hthr) as [_ Hl0].
  pose proof (wsum_ids l Hnd Hm). pose proof (wf_table c Hwf) as Hok. pose proof (tok_pos _ Hok).
  destruct (retrieve_loop_spec l thr 0) as (pre & suf & res & Hl & Hr & HF & Hle & Hsuf);
    [done|lia|lia|done|].
  exists res. split; [done|]. exists pre, suf. split_and!; [done|done|fold w; lia|].
  destruct suf; [done|]. fold w. lia.
Qed.

Lemma authority_init i a : Comm.authority c i = Some a → Auth.id a = Ret i ∧ auth_id a = i.
Proof.
  intros Hi. destruct (wf_by_id c Hwf i a Hi) as [<- [k Hk]].
  unfold Auth.id. by rewrite (wf_init c Hwf k a Hk).
Qed.

Lemma with_ids_spec (pre : list (AuthorityIdentifier * Z)) res :
  Forall2 (λ p a, Comm.authority c p.1 = Some a) pre res →
  SwapTable.with_ids res = Ret (zip pre.*1 res).
Proof.
  induction 1 as [|p a pre res Ha HF IH]; [done|]. simpl.
  destruct (authority_init _ _ Ha) as [-> _]. simpl. by rewrite IH.
Qed.

Lemma swap_table_new_spec round r thr : 0 <= thr <= 33 → scores_cover c r →
  final_of_schedule r = true →
  ∃ t, SwapTable.new c round r thr = Ret t ∧ st_round t = round ∧
    first_nodes (Scores.authorities_by_score_desc r) thr (good_nodes t) ∧
    ∃ bad, first_nodes (rev (Scores.authorities_by_score_desc r)) thr bad ∧
      bad_nodes t = collect ((λ a, (auth_id a, a)) <$> bad).
Proof.
  intros Hthr Hcov Hfin. unfold SwapTable.new. rewrite Hfin.
  replace ((0 <=? thr) && (thr <=? 33)) with true by lia. simpl.
  set (l := Scores.authorities_by_score_desc r).
  assert (rev l ≡ₚ l) as Hrev by (symmetry; apply Permutation_rev).
  destruct (retrieve_first_nodes_spec l thr) as (good & -> & Hgood);
    [done|apply scores_desc_NoDup|intros i; by apply scores_desc_members|]. simpl.
  destruct (retrieve_first_nodes_spec (rev l) thr) as (bad & -> & Hbad);
    [done|rewrite Hrev; apply scores_desc_NoDup|intros i; rewrite Hrev; by apply scores_desc_members|].
  simpl. destruct Hbad as (pre & suf & Hl & HF & Hrest).
  rewrite (with_ids_spec pre bad HF). simpl. eexists. split; [done|]. split; [done|]. split; [done|].
  exists bad. split; [by exists pre, suf|]. simpl. f_equal. clear -HF Hwf.
  induction HF as [|p a pre res Ha HF IH]; [done|]. simpl. f_equal; [|exact IH].
  by destruct (authority_init _ _ Ha) as [_ ->].
Qed.

Lemma first_nodes_ids l thr res a : first_nodes l thr res → a ∈ res →
  Comm.authority c (auth_id a) = Some a ∧ auth_id a ∈ l.*1.
Proof.
  intros (pre & suf & -> & HF & _) Ha.
  apply list_elem_of_lookup in Ha as [i Hi].
  destruct (Forall2_lookup_r _ _ _ _ _ HF Hi) as (p & Hp & Hpa).
  destruct (authority_init _ _ Hpa) as [_ ->]. split; [done|].
  apply list_elem_of_fmap_2. apply elem_of_app. left. by eapply list_elem_of_lookup_2.
Qed.

(** A prefix within a third of the stake and a suffix within another third
    cannot overlap. *)
Lemma good_bad_disjoint l thr good bad a : 0 <= thr <= 33 → NoDup l.*1 →
  (∀ i, i ∈ l.*1 ↔ i ∈ members c) →
  first_nodes l thr good → first_nodes (rev l) thr bad → a ∈ good → a ∈ bad → False.
Proof.
  intros Hthr Hnd Hm (pre & suf & Hl & HF & Hle & _) (pre' & suf' & Hl' & HF' & Hle' & _) Hg Hb.
  apply list_elem_of_lookup in Hg as [i Hi], Hb as [j Hj].
  destruct (Forall2_lookup_r _ _ _ _ _ HF Hi) as (p & Hp & Hpa).
  destruct (Forall2_lookup_r _ _ _ _ _ HF' Hj) as (q & Hq & Hqa).
  destruct (authority_init _ _ Hpa) as [_ E1]. destruct (authority_init _ _ Hqa) as [_ E2].
  assert (wsum w l = table_stake (authorities c)) as HT.
  { rewrite <-members_stake by done. unfold set_stake.
    replace (members c) with (list_to_set l.*1 : gset Z) by set_solver.
    rewrite wset_list_to_set by done. unfold wsum. by rewrite <-list_fmap_compose. }
  pose proof (tok_pos _ (wf_table c Hwf)).
  destruct (decide (length l <= length pre + length pre')%nat) as [Hlen|Hlen].
  - assert (suf ⊆+ pre') as Hsub.
    { assert (rev pre' ≡ₚ pre') as <- by (symmetry; apply Permutation_rev).
      assert (l = rev suf' ++ rev pre') as Hl2 by (rewrite <-rev_app_distr, <-Hl'; by rewrite rev_involutive).
      apply sublist_submseteq. assert (suf = drop (length pre) l) as -> by (rewrite Hl; by rewrite drop_app_length).
      assert (rev pre' = drop (length (rev suf')) l) as -> by (rewrite Hl2; by rewrite drop_app_length).
      assert (length l = length (rev suf') + length (rev pre'))%nat as Hle3 by (rewrite Hl2 at 1; apply length_app).
      rewrite (length_rev pre') in Hle3.
      replace (length pre) with (length (rev suf') + (length pre - length (rev suf')))%nat by lia.
      rewrite <-drop_drop. apply sublist_drop. }
    apply (wsum_submseteq w w_nonneg) in Hsub. rewrite Hl, wsum_app in HT.
    fold w in Hle, Hle'. pose proof (limit_third thr Hthr). lia.
  - (* no overlap: the shared node would occur twice in [l] *)
    assert (l = rev suf' ++ rev pre') as Hl2 by (rewrite <-rev_app_distr, <-Hl'; by rewrite rev_involutive).
    assert (length l = length (rev suf') + length (rev pre'))%nat as Hle3 by (rewrite Hl2 at 1; apply length_app).
    assert (q ∈ rev pre') as Hqr.
    { apply list_elem_of_In, in_rev. rewrite rev_involutive. apply list_elem_of_In. by eapply list_elem_of_lookup_2. }
    apply list_elem_of_lookup in Hqr as [k Hk].
    assert (l !! (length (rev suf') + k)%nat = Some q) as H1.
    { rewrite Hl2, lookup_app_r by lia. by rewrite Nat.add_comm, Nat.add_sub. }
    assert (l !! i = Some p) as H2 by (rewrite Hl; by apply lookup_app_l_Some).
    assert (i = length (rev suf') + k)%nat.
    { eapply (NoDup_lookup l.*1); [done|rewrite list_lookup_fmap, H2; done|].
      rewrite list_lookup_fmap, H1. simpl. congruence. }
    apply lookup_lt_Some in Hp. rewrite (length_rev pre') in Hle3. lia.
Qed.
End swap_table.

Lemma StronglySorted_app_inv {A} (R : A → A → Prop) l k x y :
  StronglySorted R (l ++ k) → x ∈ l → y ∈ k → R x y.
Proof.
  induction l as [|z l IH]; simpl; [set_solver|]. intros Hs%StronglySorted_inv Hx Hy.
  destruct Hs as [Hs HF]. apply elem_of_cons in Hx as [->|Hx]; [|by apply IH].
  rewrite Forall_forall in HF. apply HF. set_solver.
Qed.

Lemma collect_ids_lookup (bad : list Authority) i :
  is_Some (collect ((λ a, (auth_id a, a)) <$> bad) !! i) ↔ i ∈ auth_id <$> bad.
Proof.
  induction bad as [|a bad IH] using rev_ind.
  - split; [intros [a Ha]; discriminate Ha|set_solver].
  - rewrite !fmap_app. simpl. rewrite collect_app, lookup_insert. case_decide as Hi.
    + subst. split; [set_solver|]. by eexists.
    + rewrite IH. set_solver.
Qed.

Section schedule.
Context (c : Committee) (Hwf : committee_wf c).
Hypothesis Hfit : 100 * table_stake (authorities c) < U64_MOD.
Context (round : Round) (r : ReputationScores) (thr : Z).
Hypothesis Hthr : 0 <= thr <= 33.
Hypothesis Hcov : scores_cover c r.

Definition score_of (i : AuthorityIdentifier) : Z := default 0 (scores_per_authority r !! i).

Lemma scores_iff i : i ∈ (Scores.authorities_by_score_desc r).*1 ↔ i ∈ members c.
Proof.
  split; [by apply scores_desc_members|]. rewrite scores_desc_perm, <-Hcov.
  intros [v Hv]%elem_of_dom. apply list_elem_of_fmap. exists (i, v).
  by rewrite elem_of_map_to_list.
Qed.

Lemma scores_desc_score p : p ∈ Scores.authorities_by_score_desc r → score_of p.1 = p.2.
Proof.
  rewrite scores_desc_perm. destruct p as [i v]. intros Hi%elem_of_map_to_list.
  unfold score_of. simpl. by rewrite Hi.
Qed.

(** The first nodes of the list score at least as much as the other members. *)
Lemma first_nodes_best good a i : first_nodes c (Scores.authorities_by_score_desc r) thr good →
  a ∈ good → i ∈ members c → i ∉ auth_id <$> good → score_of i <= score_of (auth_id a).
Proof.
  intros Hg Ha Hi Hni. destruct Hg as (pre & suf & Hl & HF & _).
  apply list_elem_of_lookup in Ha as [n Hn].
  destruct (Forall2_lookup_r _ _ _ _ _ HF Hn) as (p & Hp & Hpa).
  destruct (authority_init c Hwf _ _ Hpa) as [_ ->].
  apply scores_iff, list_elem_of_fmap in Hi as (q & -> & Hq).
  pose proof (scores_desc_sorted r) as Hs. rewrite Hl in Hs, Hq.
  apply elem_of_app in Hq as [Hq|Hq].
  - exfalso. apply Hni. apply list_elem_of_lookup in Hq as [k Hk].
    destruct (Forall2_lookup_l _ _ _ _ _ HF Hk) as (b & Hb & Hqb).
    destruct (authority_init c Hwf _ _ Hqb) as [_ <-].
    apply list_elem_of_fmap_2. by eapply list_elem_of_lookup_2.
  - apply list_elem_of_lookup_2 in Hp.
    pose proof (StronglySorted_app_inv _ _ _ _ _ Hs Hp Hq) as Hd.
    rewrite !scores_desc_score by (rewrite Hl; set_solver). unfold Scores.desc in Hd. lia.
Qed.

Lemma good_nodes_nonempty good : (∀ i, Comm.stake_by_id c i <= limit c thr) →
  first_nodes c (Scores.authorities_by_score_desc r) thr good → good ≠ [].
Proof.
  intros Hsmall (pre & suf & Hl & HF & _ & Hsuf) ->. apply Forall2_nil_inv_r in HF as ->.
  destruct suf as [|p suf].
  - assert (members c = ∅) as Hem.
    { apply set_eq. intros i. rewrite <-scores_iff, Hl. set_solver. }
    pose proof (members_stake c Hwf) as HT. rewrite Hem in HT. unfold set_stake in HT.
    rewrite wset_empty in HT. pose proof (tok_pos _ (wf_table c Hwf)). lia.
  - specialize (Hsmall p.1). rewrite app_nil_l, wsum_cons, wsum_nil in Hsuf. lia.
Qed.

(** A choice of the committee always succeeds and finds an initialised member. *)
Lemma comm_leader_spec {R : SeededRng} {Hr : SeededRngLaws R} seed : ∃ a, Comm.leader c seed = Ret a ∧
  Comm.authority c (auth_id a) = Some a.
Proof.
  unfold Comm.leader. set (l := (λ a, (a, auth_stake a)) <$> btree_values (authorities c)).
  assert (is_Some (choose_weighted seed l)) as [a Ha].
  { apply choose_weighted_some.
    - apply Forall_fmap, Forall_forall. intros a (k & Hk)%elem_of_btree_values. simpl.
      exact (tok_nonneg _ (wf_table c Hwf) _ _ Hk).
    - pose proof (tok_pos _ (wf_table c Hwf)) as Hpos. unfold table_stake in Hpos.
      destruct (decide (Exists (λ a, 0 < auth_stake a) (btree_values (authorities c)))) as [HE|HE].
      + apply Exists_exists in HE as (a & Ha & Hp). exists (a, auth_stake a).
        split; [|done]. by apply (list_elem_of_fmap_2 (λ a, (a, auth_stake a))).
      + exfalso. apply not_Exists_Forall in HE; [|apply _].
        induction HE as [|a k Ha HE IH]; [unfold wsum in Hpos; simpl in Hpos; lia|].
        rewrite wsum_cons in Hpos. apply IH. simpl in Ha. lia. }
  rewrite Ha. exists a. split; [done|]. apply choose_weighted_elem in Ha. unfold l in Ha.
  rewrite <-list_fmap_compose in Ha. simpl in Ha.
  apply list_elem_of_fmap in Ha as (a' & -> & [k Hk]%elem_of_btree_values). by eapply wf_by_key.
Qed.
End schedule.

(** A good node is not among the bad ones. *)
Lemma good_not_bad c r thr good bad m g : committee_wf c →
  100 * table_stake (authorities c) < U64_MOD → 0 <= thr <= 33 → scores_cover c r →
  first_nodes c (Scores.authorities_by_score_desc r) thr good →
  first_nodes c (rev (Scores.authorities_by_score_desc r)) thr bad →
  m = collect ((λ a, (auth_id a, a)) <$> bad) → g ∈ good → m !! auth_id g = None.
Proof.
  intros Hwf Hfit Hthr Hcov Hg Hb -> Hgn. apply eq_None_not_Some. rewrite collect_ids_lookup.
  intros (b & Hbid & Hin)%list_elem_of_fmap.
  destruct (first_nodes_ids c Hwf _ _ _ _ Hg Hgn) as [Hgid _].
  destruct (first_nodes_ids c Hwf _ _ _ _ Hb Hin) as [Hb' _].
  assert (g = b) as <- by congruence.
  eapply (good_bad_disjoint c Hwf Hfit); [exact Hthr|apply scores_desc_NoDup| |exact Hg|exact Hb|done|done].
  intros i. by apply scores_iff.
Qed.

(** Under a table built from covering scores every even round has a leader. *)
Lemma schedule_leader_spec {R : SeededRng} {L : SeededRngLaws R} c r0 r thr t round :
  committee_wf c → 100 * table_stake (authorities c) < U64_MOD →
  SwapTable.new c r0 r thr = Ret t → scores_cover c r →
  (∀ i, Comm.stake_by_id c i <= limit c thr) → round mod 2 = 0 →
  ∃ a, Schedule.leader (Schedule.new c t) round = Ret a ∧
    Comm.authority c (auth_id a) = Some a ∧ bad_nodes t !! auth_id a = None.
Proof.
  intros Hwf Hfit Ht Hcov Hsmall Heven.
  assert (0 <= thr <= 33 ∧ final_of_schedule r = true) as [Hthr Hfin].
  { unfold SwapTable.new in Ht. unfold_m. cases_in Ht. split; [lia|done]. }
  destruct (swap_table_new_spec c Hwf Hfit r0 r thr Hthr Hcov Hfin)
    as (t' & Ht' & _ & Hg & bad & Hb & Hbad). assert (t' = t) as -> by congruence.
  destruct (comm_leader_spec c Hwf round) as (a & Ha & Hid).
  unfold Schedule.leader. rewrite Heven. simpl. rewrite Ha. simpl.
  destruct (authority_init c Hwf _ _ Hid) as [-> _]. simpl. unfold SwapTable.swap.
  destruct (bad_nodes t !! auth_id a) as [b|] eqn:Hbn; simpl; [|by exists a].
  destruct (choose_some round (good_nodes t)) as [g Hgn];
    [by apply (good_nodes_nonempty c Hwf Hfit r thr Hthr Hcov)|].
  rewrite Hgn. simpl. exists g. apply choose_elem in Hgn.
  destruct (first_nodes_ids c Hwf _ _ _ _ Hg Hgn) as [Hgid _]. split_and!; [done|done|].
  by eapply good_not_bad.
Qed.

(** The leader under the table of a node that has not committed any final scores. *)
Lemma schedule_leader_default {R : SeededRng} {L : SeededRngLaws R} c round :
  committee_wf c → round mod 2 = 0 →
  ∃ a, Schedule.leader (Schedule.new c SwapTable.default) round = Ret a ∧
    Comm.authority c (auth_id a) = Some a.
Proof.
  intros Hwf Heven. destruct (comm_leader_spec c Hwf round) as (a & Ha & Hid).
  unfold Schedule.leader. rewrite Heven. simpl. rewrite Ha. simpl.
  destruct (authority_init c Hwf _ _ Hid) as [-> _]. simpl. unfold SwapTable.swap. simpl.
  rewrite lookup_empty. simpl. eauto.
Qed.

(** * Properties *)

(** Final scores 5, 3, 1, 0 of the example committee. *)
Definition example_scores : ReputationScores :=
  mkScores (list_to_map [(0, 5); (1, 3); (2, 1); (3, 0)]) true.

(** A committee of five equal authorities, so that a fifth of the stake is one. *)
Definition five_table : gmap Z Authority :=
  list_to_map ((λ k, (k, Auth.new k 1 k k "")) <$> [10; 20; 30; 40; 50]).
Definition five_committee : Committee :=
  match Comm.new five_table 0 with Ret c => c | _ => mkCommittee ∅ ∅ 0 0 0 end.
Definition five_scores : ReputationScores :=
  mkScores (list_to_map [(0, 5); (1, 3); (2, 4); (3, 0); (4, 2)]) true.
Definition five_swap : LeaderSwapTable :=
  match SwapTable.new five_committee 8 five_scores 20 with Ret t => t | _ => SwapTable.default end.

Lemma five_table_ok : table_ok five_table.
Proof.
  split; [|vm_compute; reflexivity..|vm_compute; discriminate].
  assert (Forall (λ p : Z * Authority, 0 <= auth_stake p.2) (map_to_list five_table)) as HF.
  { vm_compute. repeat constructor; discriminate. }
  intros k a Hk%elem_of_map_to_list. rewrite Forall_forall in HF. exact (HF (k, a) Hk).
Qed.

(** The order of the authorities by score is the same whatever order the hash
    map of scores is iterated in, so validators with the same scores compute the
    same list; it is a permutation of the entries in decreasing score order. *)
Theorem scores_order_deterministic r l : l ≡ₚ map_to_list (scores_per_authority r) →
  Scores.sort_desc l = Scores.authorities_by_score_desc r ∧
  Scores.authorities_by_score_desc r ≡ₚ l ∧
  StronglySorted Scores.desc (Scores.authorities_by_score_desc r).
Proof.
  intros Hl. split_and!; [by apply sort_desc_unique| |apply scores_desc_sorted].
  by rewrite scores_desc_perm, Hl.
Qed.

Lemma scores_order_deterministic_witness :
  Scores.sort_desc [(3, 0); (2, 1); (0, 5); (1, 3)] = Scores.authorities_by_score_desc example_scores.
Proof.
  apply (scores_order_deterministic example_scores).
  apply (bool_decide_unpack _). vm_compute. exact I.
Defined.

(** C39: for final scores that cover the committee and a threshold of at most 33
    percent, building the swap table never panics.  The good nodes hold at most that
    share of the stake and score at least as much as every other member, the bad
    nodes are members, and no node is both good and bad.  There are as many of them as the
    share allows: the good nodes are the longest run from the top of the scores, and the
    bad nodes the longest one from the bottom, whose stake is within it. *)
Theorem swap_table_new_correct m e c round r thr : table_ok m → Comm.new m e = Ret c →
  100 * table_stake (authorities c) < U64_MOD → 0 <= thr <= 33 →
  scores_cover c r → final_of_schedule r = true →
  ∃ t, SwapTable.new c round r thr = Ret t ∧
    100 * wsum auth_stake (good_nodes t) <= thr * table_stake (authorities c) ∧
    (∀ a i, a ∈ good_nodes t → i ∈ members c → i ∉ auth_id <$> good_nodes t →
       score_of r i <= score_of r (auth_id a)) ∧
    (∀ i, is_Some (bad_nodes t !! i) → i ∈ members c) ∧
    (∀ a, a ∈ good_nodes t → bad_nodes t !! auth_id a = None) ∧
    first_nodes c (Scores.authorities_by_score_desc r) thr (good_nodes t) ∧
    ∃ bad, first_nodes c (rev (Scores.authorities_by_score_desc r)) thr bad ∧
      bad_nodes t = collect ((λ a, (auth_id a, a)) <$> bad).
Proof.
  intros Hok Hc Hfit Hthr Hcov Hfin. pose proof (new_wf _ _ _ Hok Hc) as Hwf.
  destruct (swap_table_new_spec c Hwf Hfit round r thr Hthr Hcov Hfin)
    as (t & Ht & _ & Hg & bad & Hb & Hbad).
  exists t. split_and!; [done| | | | |done|by exists bad].
  - destruct Hg as (pre & suf & _ & HF & Hle & _).
    assert (wsum auth_stake (good_nodes t) = wsum (λ p, Comm.stake_by_id c p.1) pre) as ->.
    { clear -HF. induction HF as [|p a pre l Ha HF IH]; [done|]. rewrite !wsum_cons, IH. f_equal.
      unfold Comm.stake_by_id. unfold Comm.authority in Ha. by rewrite Ha. }
    unfold limit in Hle. div_lia.
  - intros a i. by apply (first_nodes_best c Hwf Hfit r thr Hthr Hcov).
  - intros i. rewrite Hbad, collect_ids_lookup. intros (a & -> & Ha)%list_elem_of_fmap.
    destruct (first_nodes_ids c Hwf _ _ _ _ Hb Ha) as [Hi _].
    unfold members. apply elem_of_dom. by exists a.
  - intros a Ha. by eapply good_not_bad.
Qed.

Lemma swap_table_new_correct_witness : ∃ t, SwapTable.new five_committee 8 five_scores 20 = Ret t ∧
  ∀ a, a ∈ good_nodes t → bad_nodes t !! auth_id a = None.
Proof.
  destruct (swap_table_new_correct five_table 0 five_committee 8 five_scores 20)
    as (t & Ht & _ & _ & _ & Hd & _);
    [exact five_table_ok|vm_compute; reflexivity..|lia| |vm_compute; reflexivity|].
  - apply (bool_decide_unpack _). vm_compute. exact I.
  - exists t. exact (conj Ht Hd).
Defined.

(** with such a table, and when no single member holds more stake than the share
    that the table may take, every even round has a leader, which is a member of the
    committee and not one of the bad nodes. *)
Theorem leader_not_bad {R : SeededRng} {L : SeededRngLaws R} m e c r0 r thr t round :
  table_ok m → Comm.new m e = Ret c → 100 * table_stake (authorities c) < U64_MOD →
  SwapTable.new c r0 r thr = Ret t → scores_cover c r →
  (∀ i, Comm.stake_by_id c i <= limit c thr) → round mod 2 = 0 →
  ∃ a, Schedule.leader (Schedule.new c t) round = Ret a ∧
    Comm.authority c (auth_id a) = Some a ∧ bad_nodes t !! auth_id a = None.
Proof.
  intros Hok Hc Hfit Ht Hcov Hsmall Heven. pose proof (new_wf _ _ _ Hok Hc) as Hwf.
  by eapply schedule_leader_spec.
Qed.

Lemma leader_not_bad_witness : ∃ a, Schedule.leader (Schedule.new five_committee five_swap) 10 = Ret a ∧
  Comm.authority five_committee (auth_id a) = Some a ∧ bad_nodes five_swap !! auth_id a = None.
Proof.
  apply (leader_not_bad five_table 0 five_committee 8 five_scores 20 five_swap 10);
    [exact five_table_ok|vm_compute; reflexivity..| | |vm_compute; reflexivity].
  - apply (bool_decide_unpack _). vm_compute. exact I.
  - intros i. unfold Comm.stake_by_id. destruct (_ !! i) as [a|] eqn:E; [|vm_compute; discriminate].
    assert (Forall (λ p : Z * Authority, auth_stake p.2 <= limit five_committee 20)
              (map_to_list (authorities_by_id five_committee))) as HF
      by (vm_compute; repeat constructor; discriminate).
    rewrite Forall_forall in HF. apply (HF (i, a)). by apply elem_of_map_to_list.
Defined.

(** A committee in which one member holds almost all the stake and the best score. *)
Definition big_table : gmap Z Authority :=
  list_to_map [(10, Auth.new 10 10 1 1 ""); (20, Auth.new 20 90 2 2 "")].
Definition big_committee : Committee :=
  match Comm.new big_table 1 with Ret c => c | _ => mkCommittee ∅ ∅ 0 0 0 end.
Definition big_scores : ReputationScores := mkScores (list_to_map [(0, 0); (1, 7)]) true.
Definition big_swap : LeaderSwapTable :=
  match SwapTable.new big_committee 8 big_scores 20 with Ret t => t | _ => SwapTable.default end.

Lemma swap_no_good_panics {R : SeededRng} {L : SeededRngLaws R} t i round :
  good_nodes t = [] → is_Some (bad_nodes t !! i) → SwapTable.swap t i round = Panic.
Proof.
  intros Hg [b Hb]. unfold SwapTable.swap. rewrite Hb, Hg. unfold_m.
  destruct (choose round []) as [a|] eqn:E; [|done]. apply choose_elem in E. set_solver.
Qed.

(** without the bound on a single member's stake the good nodes can be empty
    while there are bad nodes; a round whose stake-weighted choice falls on the bad
    member then panics instead of electing a leader. *)
Theorem leader_swap_can_panic :
  SwapTable.new big_committee 8 big_scores 20 = Ret big_swap ∧
  ∀ (R : SeededRng) (L : SeededRngLaws R) round,
    Comm.leader big_committee round = Comm.authority_safe big_committee 0 →
    Schedule.leader (Schedule.new big_committee big_swap) round = Panic.
Proof.
  split; [vm_compute; reflexivity|]. intros R L round Hl. unfold Schedule.leader.
  destruct (round mod 2 =? 0); [|done].
  assert (good_nodes big_swap = []) as Hg by (vm_compute; reflexivity).
  assert (is_Some (bad_nodes big_swap !! 0)) as Hb by (vm_compute; by eexists).
  assert (Comm.authority_safe big_committee 0 = Ret (mkAuthority 0 10 10 10 1 1 "" true)) as Ha
    by (vm_compute; reflexivity).
  pose proof (swap_no_good_panics big_swap 0 round Hg Hb) as Hs.
  unfold Schedule.new, ls_committee, leader_swap_table. rewrite Hl, Ha.
  unfold_m. unfold Auth.id. unfold_m. cbv beta iota delta [auth_initialised auth_id].
  by rewrite Hs.
Qed.

Lemma leader_swap_can_panic_witness :
  Schedule.leader (Schedule.new big_committee big_swap) 2 = Panic.
Proof. apply (proj2 leader_swap_can_panic cyclic_rng cyclic_rng_laws 2). vm_compute. reflexivity. Defined.
