(* ===== verification/Bullshark.v ===== *)
(** * The Bullshark ordering ([narwhal/primary/src/consensus/bullshark.rs], [.../state.rs])

    [Bullshark] with the election of leaders, the search for the uncommitted leaders
    that a leader is linked to, the commit of their sub-dags with reputation scores
    and schedule changes, the handler of a certificate, and the [Consensus] task
    around it: recovery in [spawn] and the body of [run_inner].

    A handler works on the pair of the protocol and the consensus state.  The
    retry loop of [process_certificate] takes as fuel the distance between the leader
    round and the committed round; every retry follows a commit, which raises the
    committed round.  Metrics only appear through the calls that can panic
    ([hostname], [unwrap]); timers are left out.  What the task sends on its
    channels is the list of its events. *)
From S2P Require Import Prelude NarwhalConfig NarwhalTypes ConsensusStore ConsensusDag LeaderSchedule.

Inductive Outcome :=
  | CertificateBelowCommitRound
  | NoLeaderElectedForOddRound
  | LeaderBelowCommitRound
  | LeaderNotFound
  | NotEnoughSupportForLeader
  | Committed
  | ScheduleChanged.

#[global] Instance Outcome_eq_dec : EqDecision Outcome.
Proof. solve_decision. Defined.

Record Bullshark := mkBullshark {
  committee : Committee;
  consensus_bad_nodes_stake_threshold : Z;
  store : ConsensusStore;
  max_inserted_certificate_round : Round;
  num_sub_dags_per_schedule : Z;
  leader_schedule : LeaderSchedule;
}.

(** [a % b], which panics when [b] is zero. *)
Definition rem_ (a b : Z) : outcome Z := if b =? 0 then Panic else Ret (a mod b).

(** [(lo..=hi).rev().step_by(2)]. *)
Definition rev_step_2 (lo hi : Z) : list Z :=
  if hi <? lo then [] else (λ i, hi - 2 * i) <$> seqZ 0 ((hi - lo) / 2 + 1).

Module BS.
Definition new (c : Committee) (st : ConsensusStore) (bad_nodes_stake_threshold : Z)
    (num_sub_dags : Z) (schedule : LeaderSchedule) : Bullshark :=
  mkBullshark c bad_nodes_stake_threshold st 0 num_sub_dags schedule.

Definition with_store (b : Bullshark) (st : ConsensusStore) : Bullshark :=
  mkBullshark (committee b) (consensus_bad_nodes_stake_threshold b) st
    (max_inserted_certificate_round b) (num_sub_dags_per_schedule b) (leader_schedule b).
Definition with_max_round (b : Bullshark) (r : Round) : Bullshark :=
  mkBullshark (committee b) (consensus_bad_nodes_stake_threshold b) (store b) r
    (num_sub_dags_per_schedule b) (leader_schedule b).
Definition with_schedule (b : Bullshark) (l : LeaderSchedule) : Bullshark :=
  mkBullshark (committee b) (consensus_bad_nodes_stake_threshold b) (store b)
    (max_inserted_certificate_round b) (num_sub_dags_per_schedule b) l.

(** One point to the origin of a certificate that refers to the previous leader. *)
Definition score_vote (previous_leader : CertificateDigest) (r : ReputationScores) (c : Certificate) :
    ReputationScores :=
  if bool_decide (previous_leader ∈ Cert.parents c) then Scores.add_score r (Cert.origin c) 1 else r.

Definition resolve_reputation_score (b : Bullshark) (s : ConsensusState)
    (committed_sequence : list Certificate) (index : SequenceNumber) : outcome ReputationScores :=
  reset ← (if index =? 1 then Ret true
           else m ← rem_ index (num_sub_dags_per_schedule b); Ret (m =? 0));
  score ← (if (reset : bool) then Scores.new (committee b)
           else d ← unwrap (last_committed_sub_dag s); Ret (reputation_score d));
  let score :=
    match last_committed_sub_dag s with
    | Some d => foldl (score_vote (Cert.digest (leader d))) score committed_sequence
    | None => score
    end in
  m ← rem_ (wadd index 1) (num_sub_dags_per_schedule b);
  let score := Scores.with_final score (m =? 0) in
  assert_ (Scores.total_authorities score =? Z.of_nat (Comm.size (committee b)));;
  Ret score.

(** One round of the loop of [linked]: the certificates of round [r] that one of
    [parents] refers to. *)
Definition linked_step (d : Dag) (parents : list Certificate) (r : Round) : outcome (list Certificate) :=
  tbl ← unwrap (d !! r);
  Ret (snd <$> filter (λ p, Exists (λ x, p.1 ∈ Cert.parents x) parents) (map_to_list tbl).*2).

Fixpoint linked_loop (d : Dag) (parents : list Certificate) (rounds : list Round) :
    outcome (list Certificate) :=
  match rounds with
  | [] => Ret parents
  | r :: rounds => parents ← linked_step d parents r; linked_loop d parents rounds
  end.

Definition linked (ldr prev_leader : Certificate) (d : Dag) : outcome bool :=
  let rounds := rev (seqZ (Cert.round prev_leader) (Cert.round ldr - Cert.round prev_leader)) in
  parents ← linked_loop d [ldr] rounds;
  Cert.contains parents prev_leader.

(** The loop of [order_leaders] over the rounds of the earlier leaders. *)
Fixpoint order_leaders_loop `{SeededRng} (b : Bullshark) (d : Dag) (rounds : list Round)
    (ldr : Certificate) (to_commit : list Certificate) : outcome (list Certificate) :=
  match rounds with
  | [] => Ret to_commit
  | r :: rounds =>
      '(authority, prev) ← Schedule.leader_certificate (leader_schedule b) r d;
      match prev with
      | None => _ ← Auth.hostname authority; order_leaders_loop b d rounds ldr to_commit
      | Some prev_leader =>
          l ← linked ldr prev_leader d;
          if (l : bool) then order_leaders_loop b d rounds prev_leader (prev_leader :: to_commit)
          else _ ← Auth.hostname authority; order_leaders_loop b d rounds ldr to_commit
      end
  end.

(** The loop that reports the leaders found. *)
Fixpoint report_leaders (c : Committee) (l : list Certificate) : outcome unit :=
  match l with
  | [] => Ret tt
  | x :: l => a ← unwrap (Comm.authority c (Cert.origin x)); _ ← Auth.hostname a; report_leaders c l
  end.

Definition order_leaders `{SeededRng} (b : Bullshark) (ldr : Certificate) (s : ConsensusState) :
    outcome (list Certificate) :=
  assert_ (Cert.round ldr mod 2 =? 0);;
  let rounds := rev_step_2 (wadd (committed_round (last_round s)) 2) (wsub (Cert.round ldr) 2) in
  to_commit ← order_leaders_loop b (dag s) rounds ldr [ldr];
  report_leaders (committee b) to_commit;;
  Ret to_commit.

Definition update_leader_schedule (b : Bullshark) (leader_round : Round) (scores : ReputationScores) :
    outcome (bool * Bullshark) :=
  if final_of_schedule scores then
    t ← SwapTable.new (committee b) leader_round scores (consensus_bad_nodes_stake_threshold b);
    Ret (true, with_schedule b (Schedule.update_leader_swap_table (leader_schedule b) t))
  else Ret (false, b).

(** The loop of [commit_leader] over the leaders to commit. *)
Fixpoint commit_loop `{Database} (leaders_to_commit : list Certificate) (b : Bullshark)
    (s : ConsensusState) :
    outcome (result ConsensusError (Outcome * list CommittedSubDag) * (Bullshark * ConsensusState)) :=
  match leaders_to_commit with
  | [] => Ret (Ok (Committed, []), (b, s))
  | ldr :: rest =>
      let index := CState.next_sub_dag_index s in
      sequence ← order_dag ldr s;
      let s := foldl CState.update s sequence in
      scores ← resolve_reputation_score b s sequence index;
      let sub_dag := SubDag.new sequence ldr index scores (last_committed_sub_dag s) in
      match Store.write_consensus_state (store b) (last_committed s) sub_dag with
      | (Err _, st) => Ret (Err StoreError, (with_store b st, s))
      | (Ok _, st) =>
          let s := CState.with_sub_dag s sub_dag in
          '(changed, b) ← update_leader_schedule (with_store b st) (Cert.round ldr) scores;
          if (changed && negb (bool_decide (rest = [])) : bool) then
            Ret (Ok (ScheduleChanged, [sub_dag]), (b, s))
          else
            '(res, bs) ← commit_loop rest b s;
            Ret (match res with
                 | Ok (o, sub_dags) => Ok (o, sub_dag :: sub_dags)
                 | Err e => Err e
                 end, bs)
      end
  end.

(** The stake of the certificates of round [leader_round + 1] that refer to the leader. *)
Definition support (c : Committee) (ldr : Certificate) (tbl : Table) : Stake :=
  sum_u64 ((λ p, Comm.stake_by_id c (Cert.origin p.2)) <$>
    filter (λ p, Cert.digest ldr ∈ Cert.parents p.2) (map_to_list tbl).*2).

Definition commit_leader `{SeededRng, Database} (leader_round : Round) (b : Bullshark)
    (s : ConsensusState) :
    outcome (result ConsensusError (Outcome * list CommittedSubDag) * (Bullshark * ConsensusState)) :=
  '(_, found) ← Schedule.leader_certificate (leader_schedule b) leader_round (dag s);
  match found with
  | None => Ret (Ok (LeaderNotFound, []), (b, s))
  | Some ldr =>
      tbl ← unwrap (dag s !! wadd leader_round 1);
      if support (committee b) ldr tbl <? validity_threshold (committee b) then
        Ret (Ok (NotEnoughSupportForLeader, []), (b, s))
      else
        leaders_to_commit ← order_leaders b ldr s;
        commit_loop leaders_to_commit b s
  end.

Definition report_leader_on_time_metrics `{SeededRng} (b : Bullshark) (certificate_round : Round) :
    outcome Bullshark :=
  (if (max_inserted_certificate_round b <? certificate_round) && (certificate_round mod 2 =? 0) &&
      (2 <? certificate_round) then
     a ← Schedule.leader (leader_schedule b) (certificate_round - 2);
     _ ← Auth.hostname a; Ret tt
   else Ret tt);;
  Ret (with_max_round b (Z.max (max_inserted_certificate_round b) certificate_round)).

(** The retry loop. *)
Fixpoint commit_retry `{SeededRng, Database} (fuel : nat) (leader_round : Round) (b : Bullshark)
    (s : ConsensusState) :
    outcome (result ConsensusError (Outcome * list CommittedSubDag) * (Bullshark * ConsensusState)) :=
  match fuel with
  | O => OutOfFuel
  | S fuel =>
      '(res, (b, s)) ← commit_leader leader_round b s;
      match res with
      | Err e => Ret (Err e, (b, s))
      | Ok (o, committed) =>
          if decide (o = ScheduleChanged) then
            '(res, bs) ← commit_retry fuel leader_round b s;
            Ret (match res with
                 | Ok (o, sub_dags) => Ok (o, committed ++ sub_dags)
                 | Err e => Err e
                 end, bs)
          else Ret (Ok (o, committed), (b, s))
      end
  end.

Definition process_certificate `{SeededRng, Database} (b : Bullshark) (s : ConsensusState)
    (certificate : Certificate) :
    outcome (result ConsensusError (Outcome * list CommittedSubDag) * (Bullshark * ConsensusState)) :=
  let round := Cert.round certificate in
  '(inserted, s) ← CState.try_insert certificate s;
  match inserted with
  | Err e => Ret (Err e, (b, s))
  | Ok false => Ret (Ok (CertificateBelowCommitRound, []), (b, s))
  | Ok true =>
      b ← report_leader_on_time_metrics b round;
      let r := wsub round 1 in
      if negb (r mod 2 =? 0) || (r <? 2) then
        Ret (Ok (NoLeaderElectedForOddRound, []), (b, s))
      else if r <=? committed_round (last_round s) then
        Ret (Ok (LeaderBelowCommitRound, []), (b, s))
      else
        '(res, bs) ← commit_retry (Z.to_nat (r - committed_round (last_round s))) r b s;
        match res with
        | Err e => Ret (Err e, bs)
        | Ok (o, []) => Ret (Ok (o, []), bs)
        | Ok (_, sub_dags) => Ret (Ok (Committed, sub_dags), bs)
        end
  end.
End BS.

(** ** The consensus task *)

(** What the task sends: to the executor, to the primary, and the new rounds. *)
Inductive Event :=
  | Sequence (sub_dag : CommittedSubDag)
  | CommittedCertificates (round : Round) (certs : list Certificate)
  | RoundUpdate (r : ConsensusRound).

Record Consensus := mkConsensus {
  c_committee : Committee;
  protocol : Bullshark;
  state : ConsensusState;
}.

Module Task.
(** The greatest of the last committed rounds. *)
Definition max_round (m : gmap Z Z) : Round := foldr Z.max 0 (map_to_list m).*2.

Definition spawn (c : Committee) (gc_depth : Round) (st : ConsensusStore)
    (cert_store : CertificateStore) (p : Bullshark) : outcome (Consensus * list Event) :=
  let recovered_last_committed := Store.read_last_committed st in
  let last_committed_round := max_round recovered_last_committed in
  let latest_sub_dag := Store.get_latest_sub_dag st in
  match latest_sub_dag with
  | Some sub_dag => assert_ (Commit.leader_round sub_dag =? last_committed_round)
  | None => Ret tt
  end;;
  s ← CState.new_from_store last_committed_round gc_depth recovered_last_committed latest_sub_dag
        cert_store;
  Ret (mkConsensus c p s, [RoundUpdate (last_round s)]).

(** The branch of [run_inner] for a received certificate. *)
Definition on_certificate `{SeededRng, Database} (t : Consensus) (certificate : Certificate) :
    outcome (result ConsensusError (list Event) * Consensus) :=
  if negb (Cert.epoch certificate =? epoch (c_committee t)) then Ret (Ok [], t)
  else
    '(res, (p, s)) ← BS.process_certificate (protocol t) (state t) certificate;
    let t := mkConsensus (c_committee t) p s in
    match res with
    | Err e => Ret (Err e, t)
    | Ok (_, committed_sub_dags) =>
        let committed_certificates := committed_sub_dags ≫= certificates in
        let sequence := Sequence <$> committed_sub_dags in
        match committed_certificates with
        | [] => Ret (Ok sequence, t)
        | x :: xs =>
            let leader_commit_round := foldr Z.max (Cert.round x) (Cert.round <$> xs) in
            assert_ (committed_round (last_round s) =? leader_commit_round);;
            Ret (Ok (sequence ++ [CommittedCertificates leader_commit_round committed_certificates;
                                  RoundUpdate (last_round s)]), t)
        end
    end.

(** The loop of [run_inner], over the certificates received until shutdown; [run]
    panics on an error. *)
Fixpoint run_inner `{SeededRng, Database} (t : Consensus) (received : list Certificate) :
    outcome (result ConsensusError (list Event) * Consensus) :=
  match received with
  | [] => Ret (Ok [], t)
  | certificate :: received =>
      '(res, t) ← on_certificate t certificate;
      match res with
      | Err e => Ret (Err e, t)
      | Ok events =>
          '(res, t) ← run_inner t received;
          Ret (match res with Ok events' => Ok (events ++ events') | Err e => Err e end, t)
      end
  end.
End Task.

(** * Facts *)

(** ** Paths in the DAG *)

(** The DAGs that the protocol builds, besides being well-formed: certificates of one
    version, of members, with at least one parent. *)
Record dag_ok (c : Committee) (d : Dag) : Prop := {
  dok_version : ∃ v, ∀ x, in_dag d x → Cert.is_v2 x = v;
  dok_members x : in_dag d x → Cert.origin x ∈ members c;
  dok_parents x : in_dag d x → Cert.parents x ≠ ∅;
}.

(** [y] is reached from [x] by following parents. *)
Definition path (d : Dag) : Certificate → Certificate → Prop := rtc (parent_of d).

Lemma path_round d x y : path d x y → Cert.round y <= Cert.round x ∧ (x = y ∨ Cert.round y < Cert.round x).
Proof.
  induction 1 as [x|x y z (_ & Hr & _) _ IH]; [split; [lia|by left]|]. split; [lia|]. right. lia.
Qed.

Lemma path_in_dag d x y : in_dag d x → path d x y → in_dag d y.
Proof. induction 2 as [|x y z (Hp & _) _ IH]; auto. Qed.

Lemma path_same_round d x y : path d x y → Cert.round x = Cert.round y → x = y.
Proof. intros Hp Hr. apply path_round in Hp as [_ [?|?]]; [done|lia]. Qed.

Section linked.
Context (c : Committee) (s : ConsensusState).
Hypothesis Hwf : state_wf s.
Hypothesis Hok : dag_ok c (dag s).

Let g := gc_round (last_round s).

(** The whole history of a certificate above the boundary is there. *)
Lemma history_present x r : in_dag (dag s) x → g < r <= Cert.round x → ∃ tbl, dag s !! r = Some tbl.
Proof.
  intros Hx [Hg Hr].
  assert (∃ n, Cert.round x = r + Z.of_nat n) as [n Hn].
  { exists (Z.to_nat (Cert.round x - r)). lia. }
  clear Hr. revert x Hx Hn. induction n as [|n IH]; intros x Hx Hn.
  - destruct Hx as (tbl & Ht & _). exists tbl. by replace r with (Cert.round x) by lia.
  - destruct (set_choose_L _ (dok_parents _ _ Hok x Hx)) as [dg Hdg].
    destruct (swf_closed s Hwf x Hx ltac:(fold g; lia) dg Hdg) as (p & (Hp & Hpr & _) & _).
    apply (IH p Hp). lia.
Qed.

Lemma elem_of_linked_step ps r tbl x : dag s !! r = Some tbl →
  Forall (λ p, Cert.round p = r + 1) ps →
  x ∈ (snd <$> filter (λ p, Exists (λ y, p.1 ∈ Cert.parents y) ps) (map_to_list tbl).*2)
  ↔ ∃ y, y ∈ ps ∧ parent_of (dag s) y x.
Proof.
  intros Ht Hps. rewrite Forall_forall in Hps. rewrite list_elem_of_fmap. split.
  - intros ([dg z] & -> & [Hex Hin]%list_elem_of_filter). simpl in *.
    apply list_elem_of_fmap in Hin as ([o q] & Hq & Ho%elem_of_map_to_list). simpl in Hq. subst q.
    destruct (in_dag_lookup _ _ _ _ _ _ (swf_dag s Hwf) Ht Ho) as (Hz & Hr & <- & _).
    apply Exists_exists in Hex as (y & Hy & Hyp). exists y. split; [done|].
    split_and!; [done| |done]. rewrite (Hps y Hy). lia.
  - intros (y & Hy & (Hx & Hr & Hd)). pose proof Hx as (t & Ht' & Ho).
    assert (Cert.round x = r) as Hxr by (rewrite Hr, (Hps y Hy); lia).
    rewrite Hxr in Ht'. assert (t = tbl) as -> by congruence.
    exists (Cert.digest x, x). split; [done|]. apply list_elem_of_filter. split.
    + apply Exists_exists. by exists y.
    + apply list_elem_of_fmap. exists (Cert.origin x, (Cert.digest x, x)).
      by rewrite elem_of_map_to_list.
Qed.

Lemma linked_loop_spec (n : nat) lo ps : g < lo →
  Forall (λ p, Cert.round p = lo + Z.of_nat n) ps →
  (∀ r, lo <= r < lo + Z.of_nat n → ∃ tbl, dag s !! r = Some tbl) →
  ∃ res, BS.linked_loop (dag s) ps (rev (seqZ lo (Z.of_nat n))) = Ret res ∧
    ∀ x, x ∈ res ↔ Cert.round x = lo ∧ ∃ y, y ∈ ps ∧ path (dag s) y x.
Proof.
  intros Hlo. revert ps. induction n as [|n IH]; intros ps Hps Htbl.
  - exists ps. split; [done|]. intros x. rewrite Forall_forall in Hps. split.
    + intros Hx. rewrite (Hps x Hx). split; [lia|]. exists x. split; [done|]. constructor.
    + intros (Hr & y & Hy & Hp). rewrite <-(path_same_round _ _ _ Hp); [done|].
      rewrite (Hps y Hy). lia.
  - rewrite seqZ_S, rev_app_distr. simpl. unfold BS.linked_step.
    destruct (Htbl (lo + Z.of_nat n)) as [tbl Ht]; [lia|]. rewrite Ht. simpl.
    set (ps' := snd <$> _). pose proof (elem_of_linked_step ps (lo + Z.of_nat n) tbl) as Hel.
    specialize (fun x => Hel x Ht).
    assert (Forall (λ p, Cert.round p = lo + Z.of_nat n + 1) ps) as Hps1.
    { eapply Forall_impl; [exact Hps|]. simpl. intros. lia. }
    assert (∀ x, x ∈ ps' ↔ ∃ y, y ∈ ps ∧ parent_of (dag s) y x) as Hel' by (intros x; by apply Hel).
    clear Hel. rewrite Forall_forall in Hps1.
    destruct (IH ps') as (res & Hres & Hiff).
    + apply Forall_forall. intros x (y & Hy & _ & Hr & _)%Hel'. rewrite Hr, (Hps1 y Hy). lia.
    + intros r Hr. apply Htbl. lia.
    + exists res. split; [done|]. intros x. rewrite Hiff. split.
      * intros (Hr & y & (z & Hz & Hzy)%Hel' & Hp). split; [done|]. exists z. split; [done|].
        by eapply rtc_l.
      * intros (Hr & y & Hy & Hp). split; [done|]. inversion Hp as [|? z ? Hyz Hzx]; subst.
        { rewrite (Hps1 x Hy) in Hlo. specialize (Hps1 x Hy). lia. }
        exists z. split; [apply Hel'; by exists y|done].
Qed.

Lemma contains_spec res x : (∀ y, y ∈ res → in_dag (dag s) y) → in_dag (dag s) x →
  Cert.contains res x = Ret (bool_decide (x ∈ res)).
Proof.
  intros Hres Hx. destruct (dok_version _ _ Hok) as [v Hv].
  induction res as [|y res IH]; [by rewrite bool_decide_eq_false_2 by set_solver|].
  assert (in_dag (dag s) y) as Hy by (apply Hres; left).
  simpl. unfold Cert.eq. rewrite (Hv x Hx), (Hv y Hy), eqb_reflx. simpl.
  destruct (decide (y = x)) as [->|Hne].
  - rewrite !Z.eqb_refl. simpl. by rewrite bool_decide_eq_true_2 by left.
  - destruct (Z.eqb_spec (HeaderAPI.digest (Cert.header y)) (HeaderAPI.digest (Cert.header x))) as [E|E].
    { destruct Hne. by apply (swf_inj s Hwf). }
    simpl. rewrite IH by set_solver. f_equal. apply bool_decide_ext. set_solver.
Qed.

(** [linked] decides whether there is a path. *)
Lemma linked_spec ldr prev : in_dag (dag s) ldr → in_dag (dag s) prev →
  Cert.round prev <= Cert.round ldr →
  ∃ b, BS.linked ldr prev (dag s) = Ret b ∧ (b = true ↔ path (dag s) ldr prev).
Proof.
  intros Hl Hp Hr. unfold BS.linked.
  assert (∃ n, Cert.round ldr = Cert.round prev + Z.of_nat n) as [n Hn].
  { exists (Z.to_nat (Cert.round ldr - Cert.round prev)). lia. }
  replace (Cert.round ldr - Cert.round prev) with (Z.of_nat n) by lia.
  assert (g < Cert.round prev) as Hg by (destruct Hp as (t & Ht & _); by eapply swf_above).
  destruct (linked_loop_spec n (Cert.round prev) [ldr]) as (res & -> & Hiff); [done| | |].
  - repeat constructor. lia.
  - intros r Hr'. apply (history_present ldr); [done|]. lia.
  - simpl. rewrite contains_spec; [|intros y (_ & z & ->%list_elem_of_singleton & Hz)%Hiff|done].
    + eexists. split; [done|]. rewrite bool_decide_eq_true, Hiff. split.
      * by intros (_ & y & ->%list_elem_of_singleton & Hy).
      * intros Hpath. split; [done|]. exists ldr. split; [left|done].
    + eapply path_in_dag; [|exact Hz]. done.
Qed.
End linked.

(** ** The election and the chain of leaders *)

(** The schedule elects an initialised member in every even round. *)
Definition schedule_ok `{SeededRng} (sch : LeaderSchedule) (c : Committee) : Prop :=
  ∀ r, r mod 2 = 0 → ∃ a, Schedule.leader sch r = Ret a ∧ Comm.authority c (auth_id a) = Some a.

(** The certificate is that of the leader of its round. *)
Definition leads `{SeededRng} (sch : LeaderSchedule) (x : Certificate) : Prop :=
  ∃ a, Schedule.leader sch (Cert.round x) = Ret a ∧ auth_id a = Cert.origin x.

(** The older leaders, newest first, that a commit of [ldr] reaches when it looks
    at the given rounds: in each, the leader's certificate if the DAG holds it and
    there is a path to it from the last leader taken. *)
Inductive chain `{SeededRng} (sch : LeaderSchedule) (d : Dag) :
    list Round → Certificate → list Certificate → Prop :=
  | chain_nil ldr : chain sch d [] ldr []
  | chain_skip r rs ldr l :
      (∀ p, in_dag d p → Cert.round p = r → leads sch p → ¬ path d ldr p) →
      chain sch d rs ldr l → chain sch d (r :: rs) ldr l
  | chain_link r rs ldr p l :
      in_dag d p → Cert.round p = r → leads sch p → path d ldr p →
      chain sch d rs p l → chain sch d (r :: rs) ldr (p :: l).

Lemma leader_certificate_spec `{SeededRng} sch c d r : committee_wf c → schedule_ok sch c →
  dag_wf d → r mod 2 = 0 →
  ∃ a o, Schedule.leader_certificate sch r d = Ret (a, o) ∧ Comm.authority c (auth_id a) = Some a ∧
    (∀ x, o = Some x ↔ in_dag d x ∧ Cert.round x = r ∧ leads sch x).
Proof.
  intros Hc Hs Hwf Hr. destruct (Hs r Hr) as (a & Ha & Hid).
  destruct (authority_init c Hc _ _ Hid) as [Hai _].
  unfold Schedule.leader_certificate. rewrite Ha. simpl. rewrite Hai. simpl.
  match goal with |- context [match ?e with Some _ => _ | None => _ end] => set (found := e) end.
  assert (∀ x, in_dag d x ∧ Cert.round x = r ∧ leads sch x ↔ found = Some (Cert.digest x, x)) as Hiff.
  { intros x. unfold found. split.
    - intros ((t & Ht & Ho) & Hxr & a' & Ha' & Hx). rewrite Hxr in *. rewrite Ht. simpl.
      assert (a' = a) as -> by congruence. by rewrite Hx.
    - destruct (d !! r) as [t|] eqn:Ht; [|done]. simpl. intros Ho.
      destruct (in_dag_lookup _ _ _ _ _ _ Hwf Ht Ho) as (Hin & Hxr & _ & Hox).
      split_and!; [done|done|]. exists a. by rewrite Hxr. }
  assert (∀ dg x, found = Some (dg, x) → dg = Cert.digest x) as Hdg.
  { unfold found. intros dg x. destruct (d !! r) as [t|] eqn:Ht; [|done]. simpl. intros Ho.
    by destruct (in_dag_lookup _ _ _ _ _ _ Hwf Ht Ho) as (_ & _ & -> & _). }
  destruct found as [[dg x]|].
  - exists a, (Some x). split_and!; [done|done|]. intros y. rewrite Hiff.
    specialize (Hdg dg x eq_refl). naive_solver.
  - exists a, None. split_and!; [done|done|]. intros y. rewrite Hiff. naive_solver.
Qed.

Lemma elem_of_rev_step_2 lo hi r : r ∈ rev_step_2 lo hi ↔ lo <= r <= hi ∧ (hi - r) mod 2 = 0.
Proof.
  unfold rev_step_2. destruct (Z.ltb_spec hi lo); [set_solver by lia|].
  rewrite list_elem_of_fmap. setoid_rewrite elem_of_seqZ. split.
  - intros (i & -> & Hi). split; [div_lia|]. replace (hi - (hi - 2 * i)) with (i * 2) by lia.
    apply Z_mod_mult.
  - intros [Hr Hm]. exists ((hi - r) / 2). split; div_lia.
Qed.

Lemma rev_step_2_sorted lo hi : StronglySorted Z.gt (rev_step_2 lo hi).
Proof.
  unfold rev_step_2. destruct (hi <? lo); [constructor|].
  generalize ((hi - lo) / 2 + 1) as n. intros n. unfold seqZ. generalize (Z.to_nat n) as k.
  clear n. intros k. rewrite <-!list_fmap_compose. generalize 0%nat as m.
  induction k as [|k IH]; intros m; simpl; constructor.
  - apply (IH (S m)).
  - apply Forall_fmap, Forall_forall. intros j Hj%elem_of_seq. simpl. lia.
Qed.

Section order_leaders.
Context {R : SeededRng} (b : Bullshark) (s : ConsensusState).
Hypothesis Hc : committee_wf (committee b).
Hypothesis Hsch : schedule_ok (leader_schedule b) (committee b).
Hypothesis Hwf : state_wf s.
Hypothesis Hok : dag_ok (committee b) (dag s).

Lemma hostname_spec a : Comm.authority (committee b) (auth_id a) = Some a →
  Auth.hostname a = Ret (auth_hostname a).
Proof.
  intros Ha. destruct (authority_init _ Hc _ _ Ha) as [Hi _].
  unfold Auth.id, Auth.hostname in *. destruct (auth_initialised a); done.
Qed.

Lemma order_leaders_loop_spec rounds ldr acc : in_dag (dag s) ldr →
  StronglySorted Z.gt (Cert.round ldr :: rounds) → Forall (λ r, r mod 2 = 0) rounds →
  ∃ l, BS.order_leaders_loop b (dag s) rounds ldr acc = Ret (rev l ++ acc) ∧
    chain (leader_schedule b) (dag s) rounds ldr l.
Proof.
  revert ldr acc. induction rounds as [|r rounds IH]; intros ldr acc Hl Hs He.
  { exists []. split; [done|constructor]. }
  apply StronglySorted_inv in Hs as [Hs Hgt]. apply Forall_cons in He as [He1 He].
  rewrite Forall_forall in Hgt. pose proof (Hgt r ltac:(left)) as Hlr.
  destruct (leader_certificate_spec (leader_schedule b) _ (dag s) r Hc Hsch (swf_dag s Hwf) He1)
    as (a & o & Hlc & Ha & Ho).
  assert (StronglySorted Z.gt (Cert.round ldr :: rounds)) as Hs'.
  { apply StronglySorted_inv in Hs as [Hs _]. constructor; [done|].
    apply Forall_forall. intros x Hx. apply Hgt. by right. }
  simpl. rewrite Hlc. simpl.
  pose proof (hostname_spec a Ha) as Hhost.
  destruct o as [prev|].
  - destruct (proj1 (Ho prev) eq_refl) as (Hp & Hpr & Hlead).
    destruct (linked_spec (committee b) s Hwf Hok ldr prev Hl Hp ltac:(lia)) as (l & -> & Hiff). simpl.
    destruct l.
    + destruct (IH prev (prev :: acc)) as (l & Hloop & Hch); [done|by rewrite Hpr|done|].
      exists (prev :: l). rewrite Hloop. simpl. rewrite <-app_assoc. split; [done|].
      apply chain_link; [done|done|done|by apply Hiff|done].
    + rewrite Hhost. simpl. destruct (IH ldr acc) as (l & Hloop & Hch); [done|done|done|].
      exists l. split; [done|]. apply chain_skip; [|done].
      intros p Hin Hr Hlp Hpath. assert (Some prev = Some p) as [= ->] by (by apply Ho).
      apply Hiff in Hpath. done.
  - rewrite Hhost. simpl. destruct (IH ldr acc) as (l & Hloop & Hch); [done|done|done|].
    exists l. split; [done|]. apply chain_skip; [|done]. intros p Hin Hr Hlp _.
    assert (None = Some p) by (by apply Ho). done.
Qed.

Lemma chain_spec rounds ldr l : in_dag (dag s) ldr →
  chain (leader_schedule b) (dag s) rounds ldr l →
  Forall (λ p, in_dag (dag s) p ∧ Cert.round p ∈ rounds ∧ leads (leader_schedule b) p ∧
               path (dag s) ldr p) l.
Proof.
  intros Hl Hch. induction Hch as [ldr|r rs ldr l Hno Hch IH|r rs ldr p l Hp Hr Hlead Hpath Hch IH].
  - constructor.
  - eapply Forall_impl; [by apply IH|]. simpl. intros q (? & ? & ? & ?). split_and!; try done. by right.
  - constructor; [split_and!; [done| |done|done]; rewrite Hr; left|].
    eapply Forall_impl; [by apply IH|]. simpl. intros q (? & ? & ? & ?).
    split_and!; [done|by right|done|]. unfold path in *. by etrans.
Qed.

Lemma report_leaders_spec l : Forall (λ x, in_dag (dag s) x) l →
  BS.report_leaders (committee b) l = Ret tt.
Proof.
  induction 1 as [|x l Hx Hl IH]; [done|]. simpl.
  assert (Cert.origin x ∈ dom (authorities_by_id (committee b))) as [a Ha]%elem_of_dom
    by (by apply (dok_members _ _ Hok)).
  unfold Comm.authority. rewrite Ha. simpl.
  rewrite hostname_spec; [done|]. by destruct (authority_init _ Hc _ _ Ha) as [_ ->].
Qed.

(** The rounds of the leaders between the committed round and [r]. *)
Definition leader_rounds (committed r : Round) : list Round := rev_step_2 (committed + 2) (r - 2).

Lemma order_leaders_spec ldr : in_dag (dag s) ldr → Cert.round ldr mod 2 = 0 →
  committed_round (last_round s) < Cert.round ldr → 2 <= Cert.round ldr →
  ∃ l, BS.order_leaders b ldr s = Ret (rev (ldr :: l)) ∧
    chain (leader_schedule b) (dag s)
      (leader_rounds (committed_round (last_round s)) (Cert.round ldr)) ldr l.
Proof.
  intros Hl He Hgt H2. pose proof (swf_committed s Hwf) as Hcu.
  pose proof (in_dag_round _ _ (swf_dag s Hwf) Hl) as Hu.
  unfold BS.order_leaders. rewrite He. simpl.
  assert (wadd (committed_round (last_round s)) 2 = committed_round (last_round s) + 2) as ->.
  { unfold wadd. apply Z.mod_small. unfold is_u64, U64_MOD in *.
    assert (Cert.round ldr ≠ 2 ^ 64 - 1) by (intros E; by rewrite E in He). lia. }
  assert (wsub (Cert.round ldr) 2 = Cert.round ldr - 2) as ->.
  { unfold wsub, is_u64 in *. apply Z.mod_small. lia. }
  fold (leader_rounds (committed_round (last_round s)) (Cert.round ldr)).
  set (rs := leader_rounds _ _).
  destruct (order_leaders_loop_spec rs ldr [ldr]) as (l & -> & Hch); [done| | |].
  - constructor; [apply rev_step_2_sorted|]. apply Forall_forall.
    intros r [Hr _]%elem_of_rev_step_2. lia.
  - apply Forall_forall. intros r [Hr Hm]%elem_of_rev_step_2. div_lia.
  - simpl. rewrite report_leaders_spec; [by exists l|].
    apply Forall_app. split; [|repeat constructor; done].
    apply Forall_rev. eapply Forall_impl; [by eapply chain_spec|]. by intros x (? & _).
Qed.
End order_leaders.

(** ** The effect of committing a sequence of certificates *)

Abbreviation rounds_u64 := (Forall (λ x, is_u64 (Cert.round x))).
Abbreviation updates := (foldl CState.update).

Lemma fold_update_wf s seq : state_wf s → rounds_u64 seq → state_wf (updates s seq).
Proof.
  intros Hwf Hu. revert s Hwf. induction Hu as [|x seq Hx Hs IH]; intros s Hwf; [done|].
  apply IH. by apply update_wf.
Qed.

Lemma fold_update_fields s seq : gc_depth (updates s seq) = gc_depth s ∧
  last_committed_sub_dag (updates s seq) = last_committed_sub_dag s.
Proof. revert s. induction seq as [|x seq IH]; intros s; [done|]. apply (IH (CState.update s x)). Qed.

Lemma fold_update_committed s seq r : Forall (λ x, Cert.round x <= r) seq →
  Exists (λ x, Cert.round x = r) seq → committed_round (last_round s) <= r →
  committed_round (last_round (updates s seq)) = r.
Proof.
  assert (∀ l s, Forall (λ x, Cert.round x <= r) l → committed_round (last_round s) = r →
    committed_round (last_round (updates s l)) = r) as Haux.
  { induction l as [|x l IH]; intros t Hl Hs; [done|]. apply Forall_cons in Hl as [Hx Hl].
    apply IH; [done|]. rewrite update_round. lia. }
  revert s. induction seq as [|x seq IH]; intros s Hle Hex Hs; [by apply Exists_nil in Hex|].
  apply Forall_cons in Hle as [Hx Hle]. apply Exists_cons in Hex as [Heq|Hex].
  - apply (Haux seq); [done|]. rewrite update_round. lia.
  - apply IH; [done|done|]. rewrite update_round. lia.
Qed.

Lemma update_is_committed s x y : is_committed (last_committed (CState.update s x)) y = true ↔
  is_committed (last_committed s) y = true ∨
  (Cert.origin x = Cert.origin y ∧ Cert.round y <= Cert.round x).
Proof.
  unfold is_committed. rewrite update_lc. case_decide as Ho.
  - rewrite Ho. destruct (last_committed s !! Cert.origin x) as [r|]; rewrite ?Z.leb_le.
    + rewrite Z.max_le_iff. naive_solver.
    + naive_solver.
  - split; [by left|]. intros [?|[? _]]; [done|congruence].
Qed.

Lemma fold_update_is_committed s seq y : is_committed (last_committed (updates s seq)) y = true ↔
  is_committed (last_committed s) y = true ∨
  Exists (λ x, Cert.origin x = Cert.origin y ∧ Cert.round y <= Cert.round x) seq.
Proof.
  revert s. induction seq as [|x seq IH]; intros s.
  - rewrite Exists_nil. simpl. tauto.
  - simpl. rewrite IH, Exists_cons, update_is_committed. tauto.
Qed.

Lemma fold_update_gc s seq : state_wf s → rounds_u64 seq →
  gc_round (last_round s) <= gc_round (last_round (updates s seq)).
Proof.
  intros Hwf Hu. revert s Hwf. induction Hu as [|y seq Hy Hs IH]; intros s Hwf; [done|].
  simpl. etrans; [|apply IH; by apply update_wf]. simpl. rewrite (swf_gc s Hwf).
  unfold utils_gc_round, sat_sub. lia.
Qed.

Lemma fold_update_in_dag s seq x : state_wf s → rounds_u64 seq →
  in_dag (dag (updates s seq)) x ↔
  in_dag (dag s) x ∧ gc_round (last_round (updates s seq)) < Cert.round x.
Proof.
  intros Hwf Hu. revert s Hwf. induction Hu as [|y seq Hy Hs IH]; intros s Hwf.
  - split; [|by intros [? _]]. intros Hx. split; [done|]. destruct Hx as (t & Ht & _).
    by eapply swf_above.
  - simpl. rewrite IH by (by apply update_wf). rewrite update_in_dag.
    pose proof (fold_update_gc _ _ (update_wf s y Hwf Hy) Hs). naive_solver lia.
Qed.

(** ** Reputation scores *)

Lemma member_ids c : committee_wf c →
  members c = list_to_set (auth_id <$> Comm.authorities_iter c) ∧
  NoDup (auth_id <$> Comm.authorities_iter c).
Proof.
  intros Hc. unfold Comm.authorities_iter. split.
  - apply set_eq. intros i. unfold members. rewrite elem_of_dom, elem_of_list_to_set, list_elem_of_fmap.
    split.
    + intros [a Ha]. destruct (wf_by_id c Hc i a Ha) as [<- [k Hk]]. exists a. split; [done|].
      apply elem_of_btree_values. eauto.
    + intros (a & -> & [k Hk]%elem_of_btree_values). exists a. by eapply wf_by_key.
  - unfold btree_values. rewrite <-list_fmap_compose.
    apply NoDup_fmap_2_strong; [|eapply NoDup_fmap_1, NoDup_btree_keys].
    intros [k1 a1] [k2 a2] H1%elem_of_btree_iter H2%elem_of_btree_iter Heq. simpl in Heq.
    assert (k1 = k2) as -> by (by eapply wf_inj). congruence.
Qed.

Lemma members_size c : committee_wf c → size (members c) = Comm.size c.
Proof.
  intros Hc. destruct (member_ids c Hc) as [-> Hnd]. rewrite size_list_to_set by done.
  unfold Comm.size, Comm.authorities_iter, btree_values. by rewrite !length_fmap, length_btree_iter.
Qed.

Lemma scores_new_spec c : committee_wf c → ∃ r, Scores.new c = Ret r ∧ scores_cover c r.
Proof.
  intros Hc. destruct (member_ids c Hc) as [Hm Hnd].
  assert (Scores.ids (Comm.authorities_iter c) = Ret (auth_id <$> Comm.authorities_iter c)) as Hids.
  { clear Hm Hnd. assert (Forall (λ a, auth_initialised a = true) (Comm.authorities_iter c)) as HF.
    { apply Forall_forall. intros a [k Hk]%elem_of_btree_values. by eapply wf_init. }
    induction HF as [|a l Ha HF IH]; [done|]. simpl. unfold Auth.id. rewrite Ha. simpl. by rewrite IH. }
  unfold Scores.new. rewrite Hids. simpl. eexists. split; [done|]. unfold scores_cover. simpl.
  rewrite collect_list_to_map.
  - rewrite dom_list_to_map_L, <-list_fmap_compose, Hm. f_equal. simpl.
    by rewrite list_fmap_id.
  - rewrite <-list_fmap_compose. simpl. by rewrite list_fmap_id.
Qed.

Lemma score_votes_cover c dg seq r : scores_cover c r → Forall (λ x, Cert.origin x ∈ members c) seq →
  scores_cover c (foldl (BS.score_vote dg) r seq).
Proof.
  intros Hr Hs. revert r Hr. induction Hs as [|x seq Hx Hs IH]; intros r Hr; [done|]. simpl.
  apply IH. unfold BS.score_vote. case_bool_decide; [|done].
  unfold scores_cover, Scores.add_score in *. simpl. rewrite <-Hr in Hx.
  destruct (scores_per_authority r !! _); rewrite dom_insert_L, <-Hr; set_solver.
Qed.

(** The configuration of a node that the theorems are about. *)
Record config_ok `{SeededRng} (b : Bullshark) : Prop := {
  co_committee : committee_wf (committee b);
  co_fit : 100 * table_stake (authorities (committee b)) < U64_MOD;
  co_thr : 0 <= consensus_bad_nodes_stake_threshold b <= 33;
  co_small i : Comm.stake_by_id (committee b) i <=
    limit (committee b) (consensus_bad_nodes_stake_threshold b);
  co_num : 1 <= num_sub_dags_per_schedule b;
  co_same : ls_committee (leader_schedule b) = committee b;
  co_schedule : schedule_ok (leader_schedule b) (committee b);
}.

(** The invariant of the protocol and its state. *)
Record sys_ok `{SeededRng} (b : Bullshark) (s : ConsensusState) : Prop := {
  so_config : config_ok b;
  so_state : state_wf s;
  so_dag : dag_ok (committee b) (dag s);
  so_scores d : last_committed_sub_dag s = Some d → scores_cover (committee b) (reputation_score d);
}.

(** The scores are final in the last commit of a schedule. *)
Definition is_final_index (b : Bullshark) (index : SequenceNumber) : bool :=
  wadd index 1 mod num_sub_dags_per_schedule b =? 0.

Lemma resolve_spec `{SeededRng} b s seq : config_ok b →
  (∀ d, last_committed_sub_dag s = Some d → scores_cover (committee b) (reputation_score d)) →
  Forall (λ x, Cert.origin x ∈ members (committee b)) seq →
  ∃ r, BS.resolve_reputation_score b s seq (CState.next_sub_dag_index s) = Ret r ∧
    scores_cover (committee b) r ∧
    final_of_schedule r = is_final_index b (CState.next_sub_dag_index s).
Proof.
  intros Hb Hs Hseq. unfold BS.resolve_reputation_score. set (index := CState.next_sub_dag_index s).
  pose proof (co_num b Hb) as Hn. pose proof (co_committee b Hb) as Hc.
  assert (∀ a, rem_ a (num_sub_dags_per_schedule b) = Ret (a mod num_sub_dags_per_schedule b)) as Hrem.
  { intros a. unfold rem_. by replace (num_sub_dags_per_schedule b =? 0) with false by lia. }
  destruct (scores_new_spec _ Hc) as (r0 & Hnew & Hr0).
  assert (∃ reset r1, (if index =? 1 then Ret true
       else m ← rem_ index (num_sub_dags_per_schedule b); Ret (m =? 0)) = Ret reset ∧
     (if (reset : bool) then Scores.new (committee b)
      else d ← unwrap (last_committed_sub_dag s); Ret (reputation_score d)) = Ret r1 ∧
     scores_cover (committee b) r1) as (reset & r1 & Hreset & Hr1 & Hcov).
  { rewrite Hrem. simpl. destruct (Z.eqb_spec index 1) as [|Hne]; [by exists true, r0|].
    destruct (_ =? 0); [by exists true, r0|]. unfold index, CState.next_sub_dag_index in Hne.
    destruct (last_committed_sub_dag s) as [d|]; [|done].
    exists false, (reputation_score d). split_and!; [done|done|]. by apply Hs. }
  rewrite Hreset. cbn [mbind outcome_bind]. rewrite Hr1. cbn [mbind outcome_bind]. rewrite Hrem.
  set (r2 := match last_committed_sub_dag s with Some _ => _ | None => _ end).
  assert (scores_cover (committee b) r2) as Hr2.
  { unfold r2. destruct (last_committed_sub_dag s); [by apply score_votes_cover|done]. }
  exists (Scores.with_final r2 (is_final_index b index)). split_and!; [|done|done].
  cbn [mbind outcome_bind]. unfold Scores.total_authorities, Scores.with_final. simpl.
  rewrite <-(members_size _ Hc), <-Hr2, size_dom, Z.eqb_refl. done.
Qed.

Lemma update_schedule_spec {R : SeededRng} {L : SeededRngLaws R} b round r : config_ok b →
  scores_cover (committee b) r →
  ∃ b', BS.update_leader_schedule b round r = Ret (final_of_schedule r, b') ∧ config_ok b' ∧
    committee b' = committee b ∧ store b' = store b ∧
    (final_of_schedule r = false → b' = b).
Proof.
  intros Hb Hr. unfold BS.update_leader_schedule. destruct (final_of_schedule r) eqn:Hf.
  - destruct (swap_table_new_spec (committee b) (co_committee b Hb) (co_fit b Hb) round r _
      (co_thr b Hb) Hr Hf) as (t & Ht & _). rewrite Ht. simpl. eexists. split; [done|].
    split_and!; [|done|done|done]. destruct Hb as [Hc Hfit Hthr Hsmall Hn Hsame Hsch].
    split; simpl; try done. intros rd Hrd. unfold Schedule.update_leader_swap_table. rewrite Hsame.
    destruct (schedule_leader_spec _ _ _ _ _ rd Hc Hfit Ht Hr Hsmall Hrd) as (a & ? & ? & _). eauto.
  - exists b. done.
Qed.

(** ** The history of commits *)

(** What the sub-dags committed so far, oldest first, satisfy together with the
    state: no certificate is in two of them or twice in one, everything in them
    counts as committed, leaders advance, timestamps never go back, indices are
    consecutive from one, and the last one is the state's. *)
Record history_ok (s : ConsensusState) (H : list CommittedSubDag) : Prop := {
  ho_last : last H = last_committed_sub_dag s;
  ho_nodup : NoDup (H ≫= certificates);
  ho_committed x : x ∈ H ≫= certificates → is_committed (last_committed s) x = true;
  ho_rounds : StronglySorted (λ d e, SubDag.leader_round d < SubDag.leader_round e) H;
  ho_bound d : d ∈ H → SubDag.leader_round d <= committed_round (last_round s);
  ho_times : StronglySorted (λ d e, commit_timestamp d <= commit_timestamp e) H;
  ho_index i d : H !! i = Some d → sub_dag_index d = (Z.of_nat i + 1) mod U64_MOD;
  ho_sub d : d ∈ H → leader d ∈ certificates d ∧
    StronglySorted (λ x y, Cert.round x <= Cert.round y) (certificates d) ∧
    Forall (λ x, Cert.round x <= SubDag.leader_round d) (certificates d);
}.

Lemma StronglySorted_snoc {A} (R : A → A → Prop) l x :
  StronglySorted R l → (∀ y, y ∈ l → R y x) → StronglySorted R (l ++ [x]).
Proof.
  intros Hl Hx. apply StronglySorted_app. split_and!; [|done|repeat constructor].
  intros y z Hy ->%list_elem_of_singleton. auto.
Qed.

Lemma StronglySorted_last {A} (R : A → A → Prop) l x y :
  StronglySorted R l → (∀ z, R z z) → last l = Some x → y ∈ l → R y x.
Proof.
  intros Hs Hrefl [k ->]%last_Some Hy. apply StronglySorted_app in Hs as (Hs & _ & _).
  apply elem_of_app in Hy as [Hy| ->%list_elem_of_singleton]; [|done]. apply Hs; [done|left].
Qed.

Lemma history_next_index s H : history_ok s H →
  CState.next_sub_dag_index s = (Z.of_nat (length H) + 1) mod U64_MOD.
Proof.
  intros Hh. unfold CState.next_sub_dag_index, wadd. rewrite <-(ho_last s H Hh).
  destruct (last H) as [d|] eqn:E.
  - pose proof E as [k Hk]%last_Some. rewrite last_lookup in E.
    apply (ho_index s H Hh) in E. rewrite E, Z.add_mod_idemp_l by done. f_equal.
    rewrite Hk, length_app. simpl. lia.
  - apply last_None in E as ->. done.
Qed.

(** A leader above the committed round has not been committed. *)
Lemma not_committed_above s x : state_wf s → committed_round (last_round s) < Cert.round x →
  is_committed (last_committed s) x = false.
Proof.
  intros Hwf Hx. unfold is_committed. destruct (last_committed s !! Cert.origin x) as [r|] eqn:E; [|done].
  apply (swf_lc s Hwf) in E. lia.
Qed.

Section commit_one.
Context {R : SeededRng} {L : SeededRngLaws R} (b : Bullshark) (s : ConsensusState)
  (H : list CommittedSubDag) (ldr : Certificate).
Hypothesis Hsys : sys_ok b s.
Hypothesis Hhist : history_ok s H.
Hypothesis Hldr : in_dag (dag s) ldr.
Hypothesis Habove : committed_round (last_round s) < Cert.round ldr.

Lemma flat_not_committed x : flat s ldr x → is_committed (last_committed s) x = false.
Proof.
  pose proof (so_state b s Hsys) as Hwf. inversion 1; subst; [|done]. by apply not_committed_above.
Qed.

(** Everything that the flattened sub-dag of the leader satisfies. *)
Lemma order_dag_facts : ∃ seq, order_dag ldr s = Ret seq ∧ NoDup seq ∧ (∀ x, x ∈ seq ↔ flat s ldr x) ∧
  ldr ∈ seq ∧ StronglySorted (λ x y, Cert.round x <= Cert.round y) seq ∧
  Forall (λ x, in_dag (dag s) x ∧ Cert.round x <= Cert.round ldr) seq ∧
  committed_round (last_round (updates s seq)) = Cert.round ldr ∧ rounds_u64 seq.
Proof.
  pose proof (so_state b s Hsys) as Hwf. pose proof (swf_committed s Hwf) as Hcu. unfold is_u64 in Hcu.
  destruct (order_dag_spec s ldr Hwf Hldr ltac:(lia) ltac:(lia)) as (seq & Ho & Hnd & Hiff & Hs).
  exists seq. assert (ldr ∈ seq) as Hl by (apply Hiff; constructor).
  assert (Forall (λ x, in_dag (dag s) x ∧ Cert.round x <= Cert.round ldr) seq) as HF.
  { apply Forall_forall. intros x Hx%Hiff.
    destruct (flat_in_dag s ldr Hwf Hldr ltac:(lia) ltac:(lia) x Hx) as (? & ? & _). split; [done|lia]. }
  split_and!; try done.
  - apply fold_update_committed; [|apply Exists_exists; eauto|lia].
    eapply Forall_impl; [exact HF|]. by intros x [_ ?].
  - eapply Forall_impl; [exact HF|]. intros x [Hx _]. eapply in_dag_round; [apply Hwf|done].
Qed.

Lemma commit_one seq scores : let s1 := updates s seq in
  let d := SubDag.new seq ldr (CState.next_sub_dag_index s) scores (last_committed_sub_dag s1) in
  order_dag ldr s = Ret seq → scores_cover (committee b) scores →
  sys_ok b (CState.with_sub_dag s1 d) ∧ history_ok (CState.with_sub_dag s1 d) (H ++ [d]) ∧
  (∀ x, in_dag (dag s1) x ↔ in_dag (dag s) x ∧ gc_round (last_round s1) < Cert.round x) ∧
  committed_round (last_round s1) = Cert.round ldr.
Proof.
  intros s1 d Ho Hcov. pose proof (so_state b s Hsys) as Hwf.
  destruct order_dag_facts as (seq' & Ho' & Hnd & Hiff & Hl & Hsort & HF & Hcr & Hu).
  assert (seq' = seq) as -> by congruence. clear Ho'.
  assert (∀ x, in_dag (dag s1) x ↔ in_dag (dag s) x ∧ gc_round (last_round s1) < Cert.round x) as Hin
    by (intros x; by apply fold_update_in_dag).
  assert (last_committed_sub_dag s1 = last H) as Hlast.
  { rewrite (ho_last s H Hhist). apply fold_update_fields. }
  split_and!; [| |done|done].
  - destruct (so_dag b s Hsys) as [[v Hv] Hm Hp]. split.
    + apply Hsys.
    + pose proof (fold_update_wf s seq Hwf Hu) as []. split; assumption.
    + split; [exists v; intros x Hx%Hin; naive_solver|intros x Hx%Hin; naive_solver..].
    + by intros ? [= <-].
  - assert (((H ++ [d]) ≫= certificates) = (H ≫= certificates) ++ seq) as Hcat.
    { rewrite bind_app. simpl. by rewrite app_nil_r. }
    split; rewrite ?Hcat.
    + by rewrite last_snoc.
    + apply NoDup_app. split_and!; [apply Hhist| |done]. intros x Hx Hxs%Hiff.
      apply flat_not_committed in Hxs. apply (ho_committed s H Hhist) in Hx. congruence.
    + intros x Hx. simpl. apply fold_update_is_committed.
      apply elem_of_app in Hx as [Hx|Hx]; [left; by apply (ho_committed s H Hhist)|right].
      apply Exists_exists. exists x. split; [done|split; [done|lia]].
    + apply StronglySorted_snoc; [apply Hhist|]. intros y Hy%(ho_bound s H Hhist).
      unfold SubDag.leader_round in *. simpl. lia.
    + intros y Hy. simpl. fold s1. unfold s1. rewrite Hcr.
      apply elem_of_app in Hy as [Hy| ->%list_elem_of_singleton]; [|done].
      apply (ho_bound s H Hhist) in Hy. lia.
    + apply StronglySorted_snoc; [apply Hhist|]. intros y Hy. simpl. rewrite Hlast.
      destruct (last H) as [e|] eqn:E; [|apply last_None in E as ->; set_solver].
      transitivity (commit_timestamp e); [|lia].
      by apply (StronglySorted_last (λ d e, commit_timestamp d <= commit_timestamp e) H e y
        (ho_times s H Hhist)).
    + intros i e Hi. apply lookup_app_Some in Hi as [Hi|[Hge Hi]]; [by eapply ho_index|].
      apply list_lookup_singleton_Some in Hi as [Hi <-]. simpl.
      rewrite (history_next_index s H Hhist). do 2 f_equal. lia.
    + intros e [He| ->%list_elem_of_singleton]%elem_of_app; [by eapply ho_sub|]. split_and!; [done|done|].
      eapply Forall_impl; [exact HF|]. by intros x [_ ?].
Qed.
End commit_one.

(** ** What is persisted *)

(** The store holds the last committed rounds and every commit of the history. *)
Definition persisted (st : ConsensusStore) (s : ConsensusState) (H : list CommittedSubDag) : Prop :=
  st_last_committed st = last_committed s ∧
  (Z.of_nat (length H) + 1 < U64_MOD → btree_iter (committed_sub_dags_by_index_v2 st) =
     (λ d, (sub_dag_index d, CommitV2 (Commit.from_sub_dag d))) <$> H).

Lemma fold_update_union s seq :
  last_committed (updates s seq) ∪ last_committed s = last_committed (updates s seq).
Proof.
  apply map_eq. intros o. rewrite lookup_union.
  assert (is_Some (last_committed s !! o) → is_Some (last_committed (updates s seq) !! o)) as Hm.
  { revert s. induction seq as [|x seq IH]; intros s Ho; [done|]. apply (IH (CState.update s x)).
    rewrite update_lc. case_decide; [by eexists|done]. }
  destruct (last_committed s !! o) as [r|]; [|by destruct (last_committed (updates s seq) !! o)].
  destruct Hm as [r' ->]; [by eexists|done].
Qed.

Lemma persisted_write {DB : Database} st st' s H seq d : history_ok s H → persisted st s H →
  sub_dag_index d = CState.next_sub_dag_index s →
  Store.write_consensus_state st (last_committed (updates s seq)) d = (Ok tt, st') →
  persisted st' (CState.with_sub_dag (updates s seq) d) (H ++ [d]).
Proof.
  intros Hh [Hlc Hp] Hi Hw. split; simpl.
  - unfold Store.write_consensus_state in Hw. destruct (write_fails _ _); [done|].
    injection Hw as <-. simpl. rewrite Hlc. apply fold_update_union.
  - rewrite length_app. simpl. intros Hlen. specialize (Hp ltac:(lia)).
    rewrite (history_next_index s H Hh), Z.mod_small in Hi by lia.
    destruct (write_next st (last_committed (updates s seq)) d st') as (Hiter & _ & _); [|done|].
    + intros j [c Hj%elem_of_btree_iter]. rewrite Hp in Hj.
      apply list_elem_of_fmap in Hj as (e & [= -> ->] & He).
      apply list_elem_of_lookup in He as [i He]. pose proof (lookup_lt_Some _ _ _ He).
      apply (ho_index s H Hh) in He. rewrite He, Z.mod_small by lia. lia.
    + by rewrite Hiter, Hp, fmap_app.
Qed.

(** ** The commit of a list of leaders *)

(** Leaders that can be committed one after the other. *)
Definition leaders_ok (s : ConsensusState) (ls : list Certificate) : Prop :=
  Forall (λ x, in_dag (dag s) x ∧ committed_round (last_round s) < Cert.round x) ls ∧
  StronglySorted (λ x y, Cert.round x < Cert.round y) ls.

(** The state after sub-dags [ds] have been committed. *)
Record advanced {R : SeededRng} (b : Bullshark) (s : ConsensusState) (H : list CommittedSubDag)
    (b' : Bullshark) (s' : ConsensusState) (ds : list CommittedSubDag) : Prop := {
  adv_sys : sys_ok b' s';
  adv_history : history_ok s' (H ++ ds);
  adv_persisted : persisted (store b) s H → persisted (store b') s' (H ++ ds);
  adv_committee : committee b' = committee b;
  adv_gc : gc_round (last_round s) <= gc_round (last_round s');
  adv_dag x : in_dag (dag s') x ↔ in_dag (dag s) x ∧ gc_round (last_round s') < Cert.round x;
  adv_round : committed_round (last_round s') =
    match last ds with Some d => SubDag.leader_round d | None => committed_round (last_round s) end;
  adv_lc : ds = [] → last_committed s' = last_committed s;
}.

Lemma advanced_refl {R : SeededRng} b s H : sys_ok b s → history_ok s H → advanced b s H b s [].
Proof.
  intros Hs Hh. split; rewrite ?app_nil_r; try done.
  intros x. split; [|by intros [? _]]. intros Hx. split; [done|]. destruct Hx as (t & Ht & _).
  eapply swf_above; [apply Hs|done].
Qed.

Lemma advanced_trans {R : SeededRng} b s H b1 s1 ds1 b2 s2 ds2 : advanced b s H b1 s1 ds1 →
  advanced b1 s1 (H ++ ds1) b2 s2 ds2 → advanced b s H b2 s2 (ds1 ++ ds2).
Proof.
  intros [] []. split; rewrite ?app_assoc; auto; [congruence|lia| | |].
  - intros x. rewrite adv_dag1, adv_dag0. naive_solver lia.
  - rewrite adv_round1, last_app. by destruct (last ds2).
  - intros [-> ->]%app_nil. by rewrite adv_lc1, adv_lc0.
Qed.


Lemma config_with_store {R : SeededRng} b st : config_ok b → config_ok (BS.with_store b st).
Proof. intros []. by split. Qed.

Lemma sys_ok_config {R : SeededRng} b b' s : sys_ok b s → config_ok b' → committee b' = committee b →
  sys_ok b' s.
Proof. intros [] Hb Hc. split; rewrite ?Hc; done. Qed.

(** The effect of committing the leader [ldr]: the sub-dag and the state and protocol
    after it. *)
Definition commit_of (b : Bullshark) (s : ConsensusState) (ldr : Certificate) (d : CommittedSubDag)
    (b' : Bullshark) (s' : ConsensusState) : Prop :=
  let s1 := updates s (certificates d) in
  ∃ scores st changed, order_dag ldr s = Ret (certificates d) ∧
    BS.resolve_reputation_score b s1 (certificates d) (CState.next_sub_dag_index s) = Ret scores ∧
    d = SubDag.new (certificates d) ldr (CState.next_sub_dag_index s) scores (last_committed_sub_dag s1) ∧
    s' = CState.with_sub_dag s1 d ∧
    BS.update_leader_schedule (BS.with_store b st) (Cert.round ldr) scores = Ret (changed, b').

Section commit.
Context {R : SeededRng} {L : SeededRngLaws R} {DB : Database}.

(** One turn of the loop of [commit_leader]: either the store refuses the commit, or
    the sub-dag of the leader is committed. *)
Lemma commit_loop_cons ldr rest b s H : sys_ok b s → history_ok s H → in_dag (dag s) ldr →
  committed_round (last_round s) < Cert.round ldr →
  (∃ bs, BS.commit_loop (ldr :: rest) b s = Ret (Err StoreError, bs)) ∨
  ∃ b1 s1 d, advanced b s H b1 s1 [d] ∧ leader d = ldr ∧ commit_of b s ldr d b1 s1 ∧
    (final_of_schedule (reputation_score d) = false → leader_schedule b1 = leader_schedule b) ∧
    BS.commit_loop (ldr :: rest) b s =
      if final_of_schedule (reputation_score d) && negb (bool_decide (rest = [])) then
        Ret (Ok (ScheduleChanged, [d]), (b1, s1))
      else
        '(res, bs) ← BS.commit_loop rest b1 s1;
        Ret (match res with Ok (o, ds) => Ok (o, d :: ds) | Err e => Err e end, bs).
Proof.
  intros Hsys Hh Hl Ha. pose proof (so_state b s Hsys) as Hwf. pose proof (so_config b s Hsys) as Hcfg.
  destruct (order_dag_facts b s ldr Hsys Hl Ha) as (seq & Ho & Hnd & Hiff & _ & _ & HF & Hcr & Hu).
  destruct (fold_update_fields s seq) as [_ Hsub].
  destruct (resolve_spec b (updates s seq) seq Hcfg) as (r & Hr & Hcov & _).
  { rewrite Hsub. apply Hsys. }
  { eapply Forall_impl; [exact HF|]. intros x [Hx _]. by apply (so_dag b s Hsys). }
  assert (CState.next_sub_dag_index (updates s seq) = CState.next_sub_dag_index s) as Hidx.
  { unfold CState.next_sub_dag_index. by rewrite Hsub. }
  rewrite Hidx in Hr. cbn [BS.commit_loop]. rewrite Ho. cbn [mbind outcome_bind]. rewrite Hr.
  cbn [mbind outcome_bind].
  set (d := SubDag.new seq ldr _ r _).
  destruct (commit_one b s H ldr Hsys Hh Hl Ha seq r Ho Hcov) as (Hsys1 & Hh1 & Hin1 & _).
  fold d in Hsys1, Hh1.
  destruct (Store.write_consensus_state (store b) (last_committed (updates s seq)) d)
    as [[[]|e] st] eqn:Hw; [right|left; by eexists].
  destruct (update_schedule_spec (BS.with_store b st) (Cert.round ldr) r)
    as (b1 & Hb1 & Hcfg1 & Hcom & Hst & Hsame); [by apply config_with_store|done|].
  rewrite Hb1. cbn [mbind outcome_bind]. exists b1, (CState.with_sub_dag (updates s seq) d), d.
  split_and!; [|done|by eexists r, st, _|simpl; by intros ->%Hsame|done]. split.
  - by apply (sys_ok_config b).
  - done.
  - intros Hp. rewrite Hst. simpl. by eapply persisted_write.
  - by rewrite Hcom.
  - simpl. by apply fold_update_gc.
  - done.
  - simpl. by rewrite Hcr.
  - done.
Qed.

Lemma leaders_ok_tail ldr rest b s H b1 s1 d : sys_ok b s → leaders_ok s (ldr :: rest) →
  advanced b s H b1 s1 [d] → leader d = ldr → leaders_ok s1 rest.
Proof.
  intros Hsys [HF Hs] Hadv Hd. apply Forall_cons in HF as [_ HF].
  apply StronglySorted_inv in Hs as [Hs Hlt]. split; [|done].
  pose proof (so_state _ _ (adv_sys _ _ _ _ _ _ Hadv)) as Hwf1.
  pose proof (adv_round _ _ _ _ _ _ Hadv) as Hr. simpl in Hr. unfold SubDag.leader_round in Hr.
  rewrite Hd in Hr. rewrite Forall_forall in HF, Hlt. apply Forall_forall. intros x Hx.
  destruct (HF x Hx) as [Hin _]. specialize (Hlt x Hx). simpl in Hlt.
  assert (committed_round (last_round s1) < Cert.round x) as Hcx by lia.
  split; [|done]. apply (adv_dag _ _ _ _ _ _ Hadv). split; [done|].
  rewrite (swf_gc s1 Hwf1). pose proof (swf_depth s1 Hwf1). pose proof (swf_committed s1 Hwf1) as Hu.
  unfold utils_gc_round, sat_sub, is_u64 in *. lia.
Qed.

Lemma commit_loop_spec ls b s H : sys_ok b s → history_ok s H → leaders_ok s ls →
  (∃ bs, BS.commit_loop ls b s = Ret (Err StoreError, bs)) ∨
  ∃ o ds b' s', BS.commit_loop ls b s = Ret (Ok (o, ds), (b', s')) ∧ advanced b s H b' s' ds ∧
    ((o = Committed ∧ leader <$> ds = ls) ∨
     (o = ScheduleChanged ∧ ds ≠ [] ∧ ∃ rest, rest ≠ [] ∧ ls = (leader <$> ds) ++ rest)).
Proof.
  revert b s H. induction ls as [|ldr rest IH]; intros b s H Hsys Hh Hls.
  { right. exists Committed, [], b, s. split_and!; [done|by apply advanced_refl|by left]. }
  assert (in_dag (dag s) ldr ∧ committed_round (last_round s) < Cert.round ldr) as [Hl Ha].
  { destruct Hls as [HF _]. by apply Forall_cons in HF as [? _]. }
  destruct (commit_loop_cons ldr rest b s H Hsys Hh Hl Ha)
    as [?|(b1 & s1 & d & Hadv & Hd & _ & _ & ->)]; [by left|].
  destruct (final_of_schedule (reputation_score d) && negb (bool_decide (rest = []))) eqn:Hf.
  { apply andb_true_iff in Hf as [_ Hne%negb_true_iff%bool_decide_eq_false].
    right. exists ScheduleChanged, [d], b1, s1. split_and!; [done|done|]. right. split_and!; [done|done|].
    exists rest. simpl. by rewrite Hd. }
  destruct (IH b1 s1 (H ++ [d])) as [[bs Hbs]|(o & ds & b' & s' & Hloop & Hadv' & Hres)].
  - apply Hadv.
  - apply Hadv.
  - by eapply leaders_ok_tail.
  - left. exists bs. by rewrite Hbs.
  - right. exists o, (d :: ds), b', s'. rewrite Hloop. split_and!; [done| |].
    + by apply (advanced_trans b s H b1 s1 [d] b' s' ds).
    + destruct Hres as [[-> <-]|(-> & _ & r & Hr & ->)]; [left; by rewrite fmap_cons, Hd|].
      right. split_and!; [done|done|]. exists r. by rewrite fmap_cons, Hd.
Qed.

Lemma chain_sorted sch d rounds ldr l : StronglySorted Z.gt (Cert.round ldr :: rounds) →
  chain sch d rounds ldr l → StronglySorted (λ x y, Cert.round y < Cert.round x) (ldr :: l).
Proof.
  intros Hs Hch. induction Hch as [ldr|r rs ldr l Hno Hch IH|r rs ldr p l Hp Hr Hlead Hpath Hch IH].
  - repeat constructor.
  - apply IH. apply StronglySorted_inv in Hs as [Hs HF]. apply StronglySorted_inv in Hs as [Hs _].
    apply Forall_cons in HF as [_ HF]. by constructor.
  - apply StronglySorted_inv in Hs as [Hs HF]. subst r. specialize (IH Hs).
    constructor; [done|]. apply Forall_cons in HF as [Hlp _]. constructor; [lia|].
    apply StronglySorted_inv in IH as [_ HF']. eapply Forall_impl; [exact HF'|]. simpl. intros. lia.
Qed.

Lemma StronglySorted_rev {A} (Q : A → A → Prop) l : StronglySorted Q l → StronglySorted (flip Q) (rev l).
Proof.
  induction 1 as [|x l Hl IH HF]; simpl; [constructor|]. apply StronglySorted_snoc; [done|].
  intros y Hy. rewrite Forall_forall in HF. apply HF. by apply list_elem_of_In, in_rev, list_elem_of_In.
Qed.

(** The leaders found below a leader can be committed in order. *)
Lemma order_leaders_ok b s ldr : sys_ok b s → in_dag (dag s) ldr → Cert.round ldr mod 2 = 0 →
  committed_round (last_round s) < Cert.round ldr → 2 <= Cert.round ldr →
  ∃ l, BS.order_leaders b ldr s = Ret (rev (ldr :: l)) ∧ leaders_ok s (rev (ldr :: l)) ∧
    chain (leader_schedule b) (dag s)
      (leader_rounds (committed_round (last_round s)) (Cert.round ldr)) ldr l.
Proof.
  intros Hsys Hl He Ha H2. destruct (so_config b s Hsys) as [Hc _ _ _ _ _ Hsch].
  destruct (order_leaders_spec b s Hc Hsch (so_state b s Hsys) (so_dag b s Hsys) ldr Hl He Ha H2)
    as (l & Ho & Hch). exists l. split_and!; [done| |done]. split.
  - apply Forall_rev. constructor; [done|].
    eapply Forall_impl; [by eapply chain_spec|]. intros x (Hx & Hr & _). split; [done|].
    apply elem_of_rev_step_2 in Hr. lia.
  - eapply (StronglySorted_rev (λ x y, Cert.round y < Cert.round x)), chain_sorted, Hch.
    constructor; [apply rev_step_2_sorted|]. apply Forall_forall.
    intros r [Hr _]%elem_of_rev_step_2. lia.
Qed.

(** The result of trying to commit the leader of a round. *)
Definition commit_result (leader_round : Round) (s s' : ConsensusState) (o : Outcome)
    (ds : list CommittedSubDag) : Prop :=
  match o with
  | LeaderNotFound | NotEnoughSupportForLeader => ds = []
  | Committed => ds ≠ [] ∧ committed_round (last_round s') = leader_round
  | ScheduleChanged => ds ≠ [] ∧
      committed_round (last_round s) < committed_round (last_round s') < leader_round
  | _ => False
  end.

Lemma commit_leader_spec leader_round b s H x : sys_ok b s → history_ok s H →
  leader_round mod 2 = 0 → 2 <= leader_round → committed_round (last_round s) < leader_round →
  in_dag (dag s) x → Cert.round x = leader_round + 1 →
  (∃ bs, BS.commit_leader leader_round b s = Ret (Err StoreError, bs)) ∨
  ∃ o ds b' s', BS.commit_leader leader_round b s = Ret (Ok (o, ds), (b', s')) ∧
    advanced b s H b' s' ds ∧ commit_result leader_round s s' o ds.
Proof.
  intros Hsys Hh He H2 Ha Hx Hxr. pose proof (so_state b s Hsys) as Hwf.
  destruct (so_config b s Hsys) as [Hc _ _ _ _ _ Hsch].
  destruct (leader_certificate_spec (leader_schedule b) _ (dag s) leader_round Hc Hsch (swf_dag s Hwf) He)
    as (a & o & Hlc & _ & Hiff).
  unfold BS.commit_leader. rewrite Hlc. cbn [mbind outcome_bind]. destruct o as [ldr|].
  2:{ right. exists LeaderNotFound, [], b, s. split_and!; [done|by apply advanced_refl|done]. }
  destruct (proj1 (Hiff ldr) eq_refl) as (Hl & Hlr & _).
  pose proof (in_dag_round _ _ (swf_dag s Hwf) Hx) as Hu.
  assert (wadd leader_round 1 = leader_round + 1) as ->.
  { unfold wadd, is_u64 in *. apply Z.mod_small. lia. }
  destruct Hx as (tbl & Ht & _). rewrite <-Hxr, Ht. cbn [unwrap mbind outcome_bind].
  destruct (_ <? _).
  { right. exists NotEnoughSupportForLeader, [], b, s. split_and!; [done|by apply advanced_refl|done]. }
  destruct (order_leaders_ok b s ldr Hsys Hl ltac:(by rewrite Hlr) ltac:(lia) ltac:(lia))
    as (l & -> & Hok & _). cbn [mbind outcome_bind].
  destruct (commit_loop_spec _ b s H Hsys Hh Hok) as [?|(o & ds & b' & s' & Hloop & Hadv & Hres)]; [by left|].
  right. exists o, ds, b', s'. split_and!; [done|done|].
  pose proof (adv_round _ _ _ _ _ _ Hadv) as Hr. simpl rev in *.
  destruct Hres as [[-> Hds]|(-> & Hne & rest & Hrest & Heq)].
  - assert (last (leader <$> ds) = Some ldr) as Hlast by (rewrite Hds; by rewrite last_snoc).
    rewrite fmap_last in Hlast. destruct (last ds) as [d|] eqn:E; [|done]. injection Hlast as Hd.
    split; [by intros ->|]. rewrite Hr. unfold SubDag.leader_round. by rewrite Hd.
  - split; [done|]. destruct (last ds) as [d|] eqn:E; [|by apply last_None in E].
    unfold SubDag.leader_round in Hr.
    assert (leader d ∈ leader <$> ds) as Hdin.
    { apply list_elem_of_fmap_2. apply last_Some in E as [k ->]. set_solver. }
    assert (ldr ∈ rest) as Hldr.
    { assert (last (rev l ++ [ldr]) = Some ldr) as Hlast by apply last_snoc.
      rewrite Heq, last_app in Hlast. destruct (last rest) as [y|] eqn:Ey; [|by apply last_None in Ey].
      injection Hlast as ->. apply last_Some in Ey as [k ->]. set_solver. }
    destruct Hok as [HF Hs]. rewrite Heq in HF, Hs. apply Forall_app in HF as [HF _].
    rewrite Forall_forall in HF. destruct (HF _ Hdin) as [_ Hgt].
    apply StronglySorted_app in Hs as (Hs & _ & _). specialize (Hs _ _ Hdin Hldr). lia.
Qed.

(** The retry loop ends within the distance to the committed round. *)
Lemma commit_retry_spec fuel leader_round b s H x : sys_ok b s → history_ok s H →
  leader_round mod 2 = 0 → 2 <= leader_round → committed_round (last_round s) < leader_round →
  in_dag (dag s) x → Cert.round x = leader_round + 1 →
  leader_round - committed_round (last_round s) <= Z.of_nat fuel →
  (∃ bs, BS.commit_retry fuel leader_round b s = Ret (Err StoreError, bs)) ∨
  ∃ o ds b' s', BS.commit_retry fuel leader_round b s = Ret (Ok (o, ds), (b', s')) ∧
    advanced b s H b' s' ds ∧ o ≠ ScheduleChanged ∧ (o = Committed → ds ≠ []).
Proof.
  revert b s H. induction fuel as [|fuel IH]; intros b s H Hsys Hh He H2 Ha Hx Hxr Hf; [lia|].
  cbn [BS.commit_retry].
  destruct (commit_leader_spec leader_round b s H x Hsys Hh He H2 Ha Hx Hxr)
    as [[[b1 s1] ->]|(o & ds & b1 & s1 & -> & Hadv & Hres)]; cbn [mbind outcome_bind]; [by left; eexists|].
  destruct (decide (o = ScheduleChanged)) as [->|Hne].
  2:{ right. exists o, ds, b1, s1. split_and!; [done|done|done|]. intros ->. apply Hres. }
  destruct Hres as (Hds & Hlt1 & Hlt2).
  assert (in_dag (dag s1) x) as Hx1.
  { apply (adv_dag _ _ _ _ _ _ Hadv). split; [done|].
    pose proof (so_state _ _ (adv_sys _ _ _ _ _ _ Hadv)) as Hwf1.
    rewrite (swf_gc s1 Hwf1). pose proof (swf_depth s1 Hwf1). pose proof (swf_committed s1 Hwf1) as Hu.
    unfold utils_gc_round, sat_sub, is_u64 in *. lia. }
  destruct (IH b1 s1 (H ++ ds)) as [[bs ->]|(o & ds2 & b2 & s2 & -> & Hadv2 & Hne & _)];
    [apply Hadv|apply Hadv|done|done|done|done|done|lia|left; by eexists|].
  right. exists o, (ds ++ ds2), b2, s2. split_and!; [done|by eapply advanced_trans|done|].
  intros _ [? _]%app_nil. done.
Qed.

Lemma report_spec b r : config_ok b →
  BS.report_leader_on_time_metrics b r =
    Ret (BS.with_max_round b (Z.max (max_inserted_certificate_round b) r)).
Proof.
  intros Hb. unfold BS.report_leader_on_time_metrics.
  destruct (_ && _ && _) eqn:E; [|done]. apply andb_true_iff in E as [[_ He]%andb_true_iff _].
  destruct (co_schedule b Hb (r - 2)) as (a & -> & Ha); [div_lia|]. simpl.
  by rewrite (hostname_spec b (co_committee b Hb) a Ha).
Qed.

(** The certificates that the node hands to the protocol: of a member, with parents
    in the DAG (or at the boundary), of the version of the others, and neither
    colliding nor equivocating with them. *)
Record cert_ok (b : Bullshark) (s : ConsensusState) (x : Certificate) : Prop := {
  cok_round : is_u64 (Cert.round x);
  cok_member : Cert.origin x ∈ members (committee b);
  cok_parents : Cert.parents x ≠ ∅;
  cok_version y : in_dag (dag s) y → Cert.is_v2 y = Cert.is_v2 x;
  cok_collision : no_collision (λ y, in_dag (dag s) y ∨ y = x);
  cok_present : gc_round (last_round s) < Cert.round x →
    parents_present (dag s) (gc_round (last_round s)) x;
  cok_unique y : existing (dag s) x = Some y → y = x;
}.

Lemma insert_ok b s x : sys_ok b s → cert_ok b s x →
  ∃ inserted s1, CState.try_insert x s = Ret (Ok inserted, s1) ∧ sys_ok b s1 ∧
    (∀ H, history_ok s H → history_ok s1 H) ∧ (∀ st H, persisted st s H → persisted st s1 H) ∧
    last_round s1 = last_round s ∧
    last_committed s1 = last_committed s ∧
    (∀ y, in_dag (dag s1) y ↔ in_dag (dag s) y ∨ (y = x ∧ gc_round (last_round s) < Cert.round x)) ∧
    (inserted = true → in_dag (dag s1) x ∧ 0 < Cert.round x).
Proof.
  intros Hsys Hx. pose proof (so_state b s Hsys) as Hwf.
  assert (0 <= gc_round (last_round s)) as Hg.
  { rewrite (swf_gc s Hwf). unfold utils_gc_round, sat_sub. lia. }
  pose proof (try_insert_in_dag_spec (dag s) (last_committed s) _ x (cok_round _ _ _ Hx) Hg) as Hspec.
  assert (∃ i s1, CState.try_insert x s = Ret (Ok i, s1)) as (i & s1 & Hti).
  { unfold CState.try_insert. destruct (CState.try_insert_in_dag _ _ _ x) as [[[i|e] d']| |]; simpl.
    - by eexists _, _.
    - destruct Hspec as (_ & _ & y & Hy & Hd & _). apply (cok_unique _ _ _ Hx) in Hy. by subst.
    - destruct Hspec as [Hlt Hn]. by destruct Hn; apply Hx.
    - done. }
  destruct (try_insert_wf s x i s1 Hwf (cok_round _ _ _ Hx)) as (Hwf1 & Hlr & _ & Hlc & Hsub & Hin & Hi).
  { intros y Hy Hd. apply (cok_collision _ _ _ Hx); auto. }
  { done. }
  exists i, s1. split_and!; [done| | | |done|done|done|].
  - destruct (so_dag b s Hsys) as [[v Hv] Hm Hp]. split; [apply Hsys|done| |].
    + split.
      * exists (Cert.is_v2 x). intros y [Hy|[-> _]]%Hin; [by apply Hx|done].
      * intros y [Hy|[-> _]]%Hin; [by apply Hm|apply Hx].
      * intros y [Hy|[-> _]]%Hin; [by apply Hp|apply Hx].
    + rewrite Hsub. apply Hsys.
  - intros H []. split; rewrite ?Hlr, ?Hlc, ?Hsub; done.
  - intros st H [? ?]. by split; rewrite ?Hlc.
  - intros ->. symmetry in Hi. apply bool_decide_eq_true in Hi as [? _]. split; [|lia].
    apply Hin. by right.
Qed.

(** The state after a certificate has been handled with outcome [o] and the
    sub-dags [ds] have been committed. *)
Record processed (b : Bullshark) (s : ConsensusState) (H : list CommittedSubDag) (x : Certificate)
    (o : Outcome) (ds : list CommittedSubDag) (b' : Bullshark) (s' : ConsensusState) : Prop := {
  pr_sys : sys_ok b' s';
  pr_history : history_ok s' (H ++ ds);
  pr_outcome : o ≠ ScheduleChanged ∧ (o = Committed ↔ ds ≠ []);
  pr_persisted : persisted (store b) s H → persisted (store b') s' (H ++ ds);
  pr_committee : committee b' = committee b;
  pr_dag y : in_dag (dag s') y ↔
    (in_dag (dag s) y ∨ y = x) ∧ gc_round (last_round s') < Cert.round y;
  pr_gc : gc_round (last_round s) <= gc_round (last_round s');
  pr_round : committed_round (last_round s') =
    match last ds with Some d => SubDag.leader_round d | None => committed_round (last_round s) end;
  pr_lc : ds = [] → last_committed s' = last_committed s;
}.

Lemma process_certificate_spec b s H x : sys_ok b s → history_ok s H → cert_ok b s x →
  (∃ bs, BS.process_certificate b s x = Ret (Err StoreError, bs)) ∨
  ∃ o ds b' s', BS.process_certificate b s x = Ret (Ok (o, ds), (b', s')) ∧
    processed b s H x o ds b' s'.
Proof.
  intros Hsys Hh Hx.
  destruct (insert_ok b s x Hsys Hx) as (i & s1 & Hti & Hsys1 & Hh1 & Hp1 & Hlr & Hlc & Hin & Htrue).
  assert (∀ y, in_dag (dag s1) y ↔
    (in_dag (dag s) y ∨ y = x) ∧ gc_round (last_round s1) < Cert.round y) as Hin1.
  { intros y. rewrite Hin, Hlr. split; [|naive_solver]. intros [Hy|[-> ?]]; [|naive_solver].
    split; [by left|]. destruct Hy as (t & Ht & _). eapply swf_above; [apply Hsys|done]. }
  assert (∀ b1 o, config_ok b1 → committee b1 = committee b → store b1 = store b →
    o ≠ Committed → o ≠ ScheduleChanged → processed b s H x o [] b1 s1) as Hnone.
  { intros b1 o Hb1 Hc1 Hst Ho1 Ho2. split; rewrite ?app_nil_r, ?Hst; auto.
    - by apply (sys_ok_config b).
    - naive_solver.
    - by rewrite Hlr.
    - simpl. by rewrite Hlr. }
  unfold BS.process_certificate. rewrite Hti. cbn [mbind outcome_bind]. destruct i.
  2:{ right. eexists _, _, _, _. split; [done|]. apply Hnone; [apply Hsys|done..]. }
  destruct (Htrue eq_refl) as [Hxin Hpos]. pose proof (cok_round _ _ _ Hx) as Hu.
  rewrite report_spec by apply Hsys. cbn [mbind outcome_bind].
  set (b1 := BS.with_max_round b _).
  assert (config_ok b1) as Hb1 by (destruct (so_config b s Hsys); by split).
  assert (wsub (Cert.round x) 1 = Cert.round x - 1) as ->.
  { unfold wsub, is_u64 in *. apply Z.mod_small. lia. }
  destruct (negb _ || _) eqn:E1; [right; eexists _, _, _, _; split; [done|by apply Hnone]|].
  apply orb_false_iff in E1 as [E1 E2]. apply negb_false_iff in E1.
  destruct (Z.leb_spec (Cert.round x - 1) (committed_round (last_round s1)));
    [right; eexists _, _, _, _; split; [done|by apply Hnone]|].
  destruct (commit_retry_spec (Z.to_nat (Cert.round x - 1 - committed_round (last_round s1)))
    (Cert.round x - 1) b1 s1 H x) as [[bs ->]|(o & ds & b' & s' & -> & Hadv & Hne & Hcom)];
    [by apply (sys_ok_config b)|by apply Hh1|lia|lia|lia|done|lia|lia|left; by eexists|].
  cbn [mbind outcome_bind]. right.
  exists (match ds with [] => o | _ => Committed end), ds, b', s'. destruct Hadv.
  split; [by destruct ds|]. split; try done.
  - destruct ds; [|done]. split; [done|]. split; [|done]. intros ->. by apply Hcom.
  - intros Hp. apply adv_persisted0. by apply Hp1.
  - intros y. rewrite adv_dag0, Hin1. naive_solver lia.
  - by rewrite <-Hlr.
  - rewrite adv_round0. by destruct (last ds); rewrite ?Hlr.
  - intros Hds. by rewrite adv_lc0.
Qed.
End commit.

(** ** Runs of the task *)

(** The sub-dags among the events. *)
Definition sequenced (events : list Event) : list CommittedSubDag :=
  omap (λ e, match e with Sequence d => Some d | _ => None end) events.

(** The certificates of the DAG are those received that are above the boundary. *)
Definition received_ok (s : ConsensusState) (before : list Certificate) : Prop :=
  ∀ y, in_dag (dag s) y ↔ y ∈ before ∧ gc_round (last_round s) < Cert.round y.

(** What relates the committed round and the last committed rounds to the history. *)
Definition rounds_ok (s : ConsensusState) (H : list CommittedSubDag) : Prop :=
  committed_round (last_round s) = match last H with Some d => SubDag.leader_round d | None => 0 end ∧
  (H = [] → last_committed s = ∅).

(** Certificates from which a node can be driven: received after their parents,
    without collision or equivocation, of members, of one version. *)
Record input_ok (c : Committee) (certs : list Certificate) : Prop := {
  in_causal : insertable 0 [] certs;
  in_collision : no_collision (λ x, x ∈ certs);
  in_version : ∃ v, Forall (λ x, Cert.is_v2 x = v) certs;
  in_members : Forall (λ x, Cert.origin x ∈ members c ∧ Cert.parents x ≠ ∅) certs;
}.

Lemma insertable_app g before l1 l2 : insertable g before (l1 ++ l2) →
  insertable g (before ++ l1) l2.
Proof.
  revert before. induction l1 as [|x l1 IH]; intros before; [by rewrite app_nil_r|].
  simpl. intros (_ & _ & _ & _ & Hi). apply IH in Hi. by rewrite <-app_assoc in Hi.
Qed.

Lemma input_cert_ok {R : SeededRng} b s before x after : sys_ok b s →
  received_ok s before → input_ok (committee b) (before ++ x :: after) → cert_ok b s x.
Proof.
  intros Hsys Hrec [Hi Hcol [v Hv] Hm]. apply insertable_app in Hi. simpl in Hi.
  destruct Hi as (Hu & Hpos & Hp & Huniq & _).
  apply Forall_app in Hm as [_ [[Hmx Hpx] _]%Forall_cons]. rewrite Forall_forall in Hv, Huniq.
  pose proof (so_state b s Hsys) as Hwf.
  assert (0 <= gc_round (last_round s)) as Hg.
  { rewrite (swf_gc s Hwf). unfold utils_gc_round, sat_sub. lia. }
  split; try done.
  - intros y [Hy _]%Hrec. rewrite (Hv y), (Hv x); set_solver.
  - intros y z Hy Hz. apply Hcol; [destruct Hy as [[? _]%Hrec| ->]|destruct Hz as [[? _]%Hrec| ->]]; set_solver.
  - intros _ Hgx. destruct Hp as [Hex Hall]; [lia|].
    apply Exists_exists in Hex as (p & Hpb & Hpr).
    assert (in_dag (dag s) p) as (tbl & Ht & _) by (apply Hrec; split; [done|lia]).
    rewrite Hpr in Ht. exists tbl. split; [done|]. intros dg Hdg.
    apply Hall, Exists_exists in Hdg as (q & Hq & Hqr & <-).
    assert (in_dag (dag s) q) as (t & Ht' & Ho) by (apply Hrec; split; [done|lia]).
    rewrite Hqr in Ht'. assert (t = tbl) as -> by congruence. eauto.
  - intros y (Hy & ? & ?)%existing_in_dag; [|apply Hwf]. apply Huniq; [by apply Hrec|done].
Qed.

Section run.
Context {R : SeededRng} {L : SeededRngLaws R} {DB : Database}.

(** The invariant of the task. *)
Record task_ok (t : Consensus) (before : list Certificate) (H : list CommittedSubDag) : Prop := {
  tk_sys : sys_ok (protocol t) (state t);
  tk_history : history_ok (state t) H;
  tk_received : received_ok (state t) before;
  tk_rounds : rounds_ok (state t) H;
  tk_persisted : persisted (store (protocol t)) (state t) H;
  tk_committee : c_committee t = committee (protocol t);
}.

Lemma foldr_max_bound m a l : a <= m → Forall (λ x, x <= m) l → m ∈ a :: l → foldr Z.max a l = m.
Proof.
  intros Ha HF Hm. apply Z.le_antisymm.
  - clear Hm. induction HF; simpl; lia.
  - assert (∀ x, x ∈ a :: l → x <= foldr Z.max a l) as Hge; [|by apply Hge].
    clear. induction l as [|y l IH]; simpl; intros x Hx; [set_solver by lia|].
    rewrite !elem_of_cons in Hx. specialize (IH x). rewrite elem_of_cons in IH.
    destruct Hx as [->|[->|Hx]]; [|lia|]; (rewrite Z.max_le_iff; right; apply IH; auto).
Qed.

(** The assertion of [run_inner] on the highest round committed. *)
Lemma commit_round_max s H ds d x xs : history_ok s (H ++ ds) → last ds = Some d →
  ds ≫= certificates = x :: xs → committed_round (last_round s) = SubDag.leader_round d →
  foldr Z.max (Cert.round x) (Cert.round <$> xs) = committed_round (last_round s).
Proof.
  intros Hh Hd Hcat Hr.
  assert (∀ y, y ∈ x :: xs → Cert.round y <= SubDag.leader_round d) as Hle.
  { rewrite <-Hcat. intros y (e & Hy & He)%list_elem_of_bind.
    destruct (ho_sub _ _ Hh e) as (_ & _ & HF); [set_solver|]. rewrite Forall_forall in HF.
    etrans; [by apply HF|]. rewrite <-Hr. apply (ho_bound _ _ Hh). set_solver. }
  rewrite Hr. apply foldr_max_bound.
  - apply Hle. left.
  - apply Forall_fmap, Forall_forall. intros y Hy. apply Hle. by right.
  - apply last_Some in Hd as [k ->].
    destruct (ho_sub _ _ Hh d) as (Hl & _ & _); [set_solver|].
    assert (leader d ∈ x :: xs) as Hin.
    { rewrite <-Hcat. apply list_elem_of_bind. exists d. split; [done|set_solver]. }
    rewrite <-fmap_cons. by apply (list_elem_of_fmap_2 Cert.round).
Qed.

Lemma sequenced_app l k : sequenced (l ++ k) = sequenced l ++ sequenced k.
Proof. apply omap_app. Qed.

Lemma sequenced_sequence ds : sequenced (Sequence <$> ds) = ds.
Proof. unfold sequenced. induction ds as [|d ds IH]; [done|]. simpl. by f_equal. Qed.

Lemma on_certificate_spec t before x after H : task_ok t before H →
  Cert.epoch x = epoch (c_committee t) → input_ok (c_committee t) (before ++ x :: after) →
  (∃ t', Task.on_certificate t x = Ret (Err StoreError, t')) ∨
  ∃ events t', Task.on_certificate t x = Ret (Ok events, t') ∧
    task_ok t' (before ++ [x]) (H ++ sequenced events) ∧ c_committee t' = c_committee t.
Proof.
  intros Ht He Hi. unfold Task.on_certificate. rewrite He, Z.eqb_refl. cbn [negb].
  destruct Ht as [Hsys Hh Hrec [Hr1 Hr2] Hp Hc]. rewrite Hc in Hi.
  pose proof (input_cert_ok _ _ _ _ _ Hsys Hrec Hi) as Hx.
  destruct (process_certificate_spec (protocol t) (state t) H x Hsys Hh Hx)
    as [[[b s] ->]|(o & ds & b & s & -> & Hpr)]; cbn [mbind outcome_bind]; [by left; eexists|right].
  destruct Hpr as [Hsys' Hh' _ Hp' Hc' Hd' Hgc Hround Hlc].
  assert (task_ok (mkConsensus (c_committee t) b s) (before ++ [x]) (H ++ ds)) as Hok.
  { split; simpl; try done; [| |by apply Hp'|congruence].
    - intros y. rewrite Hd', (Hrec y), elem_of_app, list_elem_of_singleton. naive_solver lia.
    - split; [rewrite Hround, last_app; by destruct (last ds)|].
      intros [-> ->]%app_nil. rewrite Hlc by done. by apply Hr2. }
  destruct (ds ≫= certificates) as [|y ys] eqn:Hcat; simpl.
  - exists (Sequence <$> ds), (mkConsensus (c_committee t) b s). by rewrite sequenced_sequence.
  - destruct (last ds) as [d|] eqn:Hd; [|by apply last_None in Hd as ->].
    rewrite (commit_round_max s H ds d y ys Hh' Hd Hcat Hround), Z.eqb_refl. simpl.
    eexists _, _. split; [done|]. rewrite sequenced_app, sequenced_sequence. simpl.
    by rewrite app_nil_r.
Qed.

Lemma run_inner_spec t before received H : task_ok t before H →
  input_ok (c_committee t) (before ++ filter (λ x, Cert.epoch x = epoch (c_committee t)) received) →
  (∃ t', Task.run_inner t received = Ret (Err StoreError, t')) ∨
  ∃ events t', Task.run_inner t received = Ret (Ok events, t') ∧
    task_ok t' (before ++ filter (λ x, Cert.epoch x = epoch (c_committee t)) received)
      (H ++ sequenced events).
Proof.
  revert t before H. induction received as [|x received IH]; intros t before H Ht Hi.
  { right. exists [], t. by rewrite filter_nil, !app_nil_r in *. }
  rewrite filter_cons in *. cbn [Task.run_inner]. case_decide as He.
  - destruct (on_certificate_spec t before x _ H Ht He Hi) as [[t' ->]|(ev & t' & -> & Ht' & Hc)];
      [left; by eexists|]. cbn [mbind outcome_bind].
    rewrite (cons_middle x _ (filter _ _)), app_assoc, <-Hc in Hi |- *.
    destruct (IH t' (before ++ [x]) (H ++ sequenced ev) Ht' Hi) as [[t2 ->]|(ev2 & t2 & -> & Ht2)];
      [left; by eexists|right]. cbn [mbind outcome_bind].
    exists (ev ++ ev2), t2. by rewrite sequenced_app, app_assoc.
  - unfold Task.on_certificate. replace (Cert.epoch x =? epoch (c_committee t)) with false by lia.
    cbn [negb mbind outcome_bind].
    destruct (IH t before H Ht Hi) as [[t2 ->]|(ev2 & t2 & -> & Ht2)]; [left; by eexists|right].
    cbn [mbind outcome_bind]. by exists ev2, t2.
Qed.
End run.

(** ** Starting and restarting *)

(** A node of a new epoch. *)
Definition genesis (c : Committee) (bad_nodes_stake_threshold num_sub_dags gc_depth : Z) : Consensus :=
  mkConsensus c (BS.new c Store.empty bad_nodes_stake_threshold num_sub_dags
                   (Schedule.new c SwapTable.default)) (CState.new gc_depth).

(** Committees and parameters that a node can run with. *)
Record params_ok (c : Committee) (thr num_sub_dags gc_depth : Z) : Prop := {
  po_committee : committee_wf c;
  po_fit : 100 * table_stake (authorities c) < U64_MOD;
  po_thr : 0 <= thr <= 33;
  po_small i : Comm.stake_by_id c i <= limit c thr;
  po_num : 1 <= num_sub_dags;
  po_depth : 1 <= gc_depth;
}.

Lemma history_nil s : last_committed_sub_dag s = None → history_ok s [].
Proof.
  intros Hn. split; rewrite ?Hn; simpl; try done; try by constructor.
  all: intros; set_solver.
Qed.

Lemma genesis_ok {R : SeededRng} {L : SeededRngLaws R} c thr n gc : params_ok c thr n gc →
  task_ok (genesis c thr n gc) [] [].
Proof.
  intros [Hc Hfit Hthr Hsmall Hn Hgc].
  assert (∀ x, ¬ in_dag ∅ x) as Hem by (intros x (t & Ht & _); by rewrite lookup_empty in Ht).
  split; simpl; try done.
  - split; [|by apply state_new_wf| |done]; simpl.
    + split; try done. intros r Hr. by apply schedule_leader_default.
    + split; [exists true|..]; intros x Hx; by apply Hem in Hx.
  - by apply history_nil.
  - intros y. split; [by intros ?%Hem|set_solver].
Qed.

Lemma max_round_spec s H : state_wf s → history_ok s H → rounds_ok s H →
  Task.max_round (last_committed s) = committed_round (last_round s).
Proof.
  intros Hwf Hh [Hr He]. pose proof (swf_committed s Hwf) as Hu. unfold is_u64 in Hu.
  unfold Task.max_round. apply foldr_max_bound; [lia| |].
  - apply Forall_forall. intros r ([o r'] & -> & Ho%elem_of_map_to_list)%list_elem_of_fmap.
    by eapply swf_lc.
  - destruct (last H) as [d|] eqn:E; [|rewrite Hr; left]. right.
    assert (d ∈ H) as Hd by (apply last_Some in E as [k ->]; set_solver).
    destruct (ho_sub s H Hh d Hd) as (Hl & _).
    assert (is_committed (last_committed s) (leader d) = true) as Hcm.
    { apply (ho_committed s H Hh). apply list_elem_of_bind. by exists d. }
    unfold is_committed in Hcm. destruct (last_committed s !! Cert.origin (leader d)) as [r|] eqn:Hlc; [|done].
    pose proof (swf_lc s Hwf _ _ Hlc) as Hle. unfold SubDag.leader_round in Hr.
    assert (r = committed_round (last_round s)) as <- by lia.
    apply list_elem_of_fmap. exists (Cert.origin (leader d), r). by rewrite elem_of_map_to_list.
Qed.

Lemma persisted_latest st s H : history_ok s H → persisted st s H →
  Z.of_nat (length H) + 1 < U64_MOD →
  Store.get_latest_sub_dag st =
    (λ d, CommitV2 (Commit.from_sub_dag d)) <$> last_committed_sub_dag s.
Proof.
  intros Hh [_ Hp] Hlen. unfold Store.get_latest_sub_dag, Store.last_entry.
  rewrite (Hp Hlen), fmap_last, <-(ho_last s H Hh). by destruct (last H).
Qed.

(** What the certificate store of a node returns for the DAG that it had. *)
Record cert_store_ok (st : CertificateStore) (s : ConsensusState) : Prop := {
  cs_after c : in_dag (dag s) c ↔ c ∈ after_round st (gc_round (last_round s) + 1);
  cs_sorted : StronglySorted (λ a b, Cert.round a <= Cert.round b)
    (after_round st (gc_round (last_round s) + 1));
  cs_read d c : last_committed_sub_dag s = Some d → c ∈ leader d :: certificates d →
    read st (Cert.digest c) = Some c;
}.

Lemma spawn_spec {R : SeededRng} t before H cs p : task_ok t before H →
  Z.of_nat (length H) + 1 < U64_MOD → cert_store_ok cs (state t) →
  ∃ s', Task.spawn (c_committee t) (gc_depth (state t)) (store (protocol t)) cs p =
          Ret (mkConsensus (c_committee t) p s', [RoundUpdate (last_round (state t))]) ∧
    state_wf s' ∧ last_round s' = last_round (state t) ∧
    last_committed s' = last_committed (state t) ∧
    last_committed_sub_dag s' = last_committed_sub_dag (state t) ∧
    ∀ c, in_dag (dag s') c ↔ in_dag (dag (state t)) c.
Proof.
  intros [Hsys Hh Hrec Hr Hp Hc] Hlen [Hafter Hsort Hread].
  pose proof (so_state _ _ Hsys) as Hwf. destruct (so_dag _ _ Hsys) as [_ _ Hpar].
  destruct (new_from_store_spec (state t) cs Hwf Hafter Hsort Hpar Hread)
    as (s' & Hnew & Hwf' & Hlr & Hlc & Hsub & Hin).
  unfold Task.spawn, Store.read_last_committed. rewrite (persisted_latest _ _ _ Hh Hp Hlen).
  rewrite (proj1 Hp), (max_round_spec _ _ Hwf Hh Hr).
  assert (match (λ d, CommitV2 (Commit.from_sub_dag d)) <$> last_committed_sub_dag (state t) with
    | Some sub_dag => assert_ (Commit.leader_round sub_dag =? committed_round (last_round (state t)))
    | None => Ret tt end = Ret tt) as ->.
  { destruct Hr as [Hr _]. rewrite (ho_last _ _ Hh) in Hr.
    destruct (last_committed_sub_dag (state t)) as [d|]; [|done]. simpl. rewrite Hr.
    unfold SubDag.leader_round. by rewrite Z.eqb_refl. }
  cbn [mbind outcome_bind]. rewrite Hnew. cbn [mbind outcome_bind]. rewrite Hlr. by exists s'.
Qed.

(** * Properties *)

(** The example: five members of equal stake; four of them have certificates in
    rounds one to five. *)
Definition example_task : Consensus := genesis five_committee 20 10 50.

Lemma five_params : params_ok five_committee 20 10 50.
Proof.
  split; [|vm_compute; reflexivity|lia| |lia|lia].
  - apply (new_wf five_table 0); [apply five_table_ok|vm_compute; reflexivity].
  - intros i. unfold Comm.stake_by_id. destruct (_ !! i) as [a|] eqn:E; [|vm_compute; discriminate].
    assert (Forall (λ p : Z * Authority, auth_stake p.2 <= limit five_committee 20)
              (map_to_list (authorities_by_id five_committee))) as HF
      by (vm_compute; repeat constructor; discriminate).
    rewrite Forall_forall in HF. apply (HF (i, a)). by apply elem_of_map_to_list.
Qed.

Lemma no_collision_list l : NoDup (Cert.digest <$> l) → no_collision (λ x, x ∈ l).
Proof.
  intros Hd c1 c2 H1 H2 Heq. apply list_elem_of_lookup in H1 as [i Hi], H2 as [j Hj].
  assert (i = j) as ->; [|congruence].
  eapply (NoDup_lookup _ i j (Cert.digest c1) Hd); rewrite list_lookup_fmap;
    [by rewrite Hi|rewrite Hj; simpl; congruence].
Qed.

Lemma example_input : input_ok five_committee (example_certs 5).
Proof.
  split.
  - apply (bool_decide_unpack _). vm_compute. exact I.
  - apply no_collision_list, (bool_decide_unpack _). vm_compute. exact I.
  - exists true. apply (bool_decide_unpack _). vm_compute. exact I.
  - apply (bool_decide_unpack _). vm_compute. exact I.
Qed.

(** ** Errors of the store *)

Section refused.
Context {R : SeededRng} {DB : Database}.

(** RocksDB has refused some batch. *)
Definition refused : Prop := ∃ st i, write_fails st i = true.

Lemma write_refused st lc d e st' : Store.write_consensus_state st lc d = (Err e, st') → refused.
Proof.
  unfold Store.write_consensus_state. destruct (write_fails st _) eqn:Hw; [|done]. intros _. by eexists _, _.
Qed.

Lemma commit_loop_refused ls b s e bs : BS.commit_loop ls b s = Ret (Err e, bs) → refused.
Proof.
  revert b s e bs. induction ls as [|ldr rest IH]; intros b s e bs; cbn [BS.commit_loop]; [done|].
  destruct (order_dag ldr s) as [sq| |]; [|done..]. cbn [mbind outcome_bind].
  destruct (BS.resolve_reputation_score _ _ _ _) as [sc| |]; [|done..]. cbn [mbind outcome_bind].
  destruct (Store.write_consensus_state _ _ _) as [[[]|e1] st] eqn:Hw; [|by apply write_refused in Hw].
  destruct (BS.update_leader_schedule _ _ _) as [[[] b1]| |]; [..|done|done]; cbn [mbind outcome_bind].
  all: destruct (_ && _); [done|].
  all: destruct (BS.commit_loop rest b1 _) as [[[[]|e2] bs2]| |] eqn:Hl; cbn; [done| |done..].
  all: intros _; by eapply IH.
Qed.

Lemma commit_leader_refused r b s e bs : BS.commit_leader r b s = Ret (Err e, bs) → refused.
Proof.
  unfold BS.commit_leader. destruct (Schedule.leader_certificate _ _ _) as [[a [ldr|]]| |]; [|done..].
  cbn [mbind outcome_bind]. destruct (dag s !! wadd r 1); [|done]. cbn [unwrap mbind outcome_bind].
  destruct (_ <? _); [done|]. destruct (BS.order_leaders b ldr s); [|done..]. apply commit_loop_refused.
Qed.

Lemma commit_retry_refused fuel r b s e bs : BS.commit_retry fuel r b s = Ret (Err e, bs) → refused.
Proof.
  revert b s e bs. induction fuel as [|fuel IH]; intros b s e bs; cbn [BS.commit_retry]; [done|].
  destruct (BS.commit_leader r b s) as [[[[o ds]|e1] [b1 s1]]| |] eqn:Hl; cbn [mbind outcome_bind]; [| |done..].
  - case_decide; [|done]. destruct (BS.commit_retry fuel r b1 s1) as [[[[]|e2] bs2]| |] eqn:Hr; cbn; [done| |done..].
    intros _. by eapply IH.
  - intros _. by eapply commit_leader_refused.
Qed.

(** The only other error of the protocol is that of an equivocating certificate. *)
Lemma process_certificate_refused b s x bs : BS.process_certificate b s x = Ret (Err StoreError, bs) → refused.
Proof.
  unfold BS.process_certificate, CState.try_insert, CState.try_insert_in_dag.
  destruct (_ <=? _); [done|]. destruct (CState.check_parents _ _ _); [|done..]. cbn [mbind outcome_bind].
  destruct (default ∅ _ !! _) as [[? y]|]; [destruct (negb (Cert.digest y =? Cert.digest x)); [done|]|]; cbn [mbind outcome_bind].
  all: destruct (_ <? Cert.round x); [|done]; destruct (BS.report_leader_on_time_metrics _ _); [|done..].
  all: cbn [mbind outcome_bind]; destruct (_ || _); [done|]; destruct (_ <=? _); [done|].
  all: destruct (BS.commit_retry _ _ _ _) as [[[[o []]|e] bs1]| |] eqn:Hr; cbn; [done|done| |done..].
  all: intros _; by eapply commit_retry_refused.
Qed.

Lemma on_certificate_refused t x t' : Task.on_certificate t x = Ret (Err StoreError, t') → refused.
Proof.
  unfold Task.on_certificate. destruct (negb _); [done|].
  destruct (BS.process_certificate _ _ _) as [[[[o ds]|e] [p s]]| |] eqn:Hp; cbn [mbind outcome_bind]; [| |done..].
  - destruct (ds ≫= certificates); [done|]. by destruct (_ =? _).
  - intros [= -> _]. by eapply process_certificate_refused.
Qed.

Lemma run_inner_refused t received t' : Task.run_inner t received = Ret (Err StoreError, t') → refused.
Proof.
  revert t t'. induction received as [|x received IH]; intros t t'; cbn [Task.run_inner]; [done|].
  destruct (Task.on_certificate t x) as [[[ev|e] t1]| |] eqn:Ho; cbn [mbind outcome_bind]; [| |done..].
  - destruct (Task.run_inner t1 received) as [[[ev2|e2] t2]| |] eqn:Hr; cbn; [done| |done..].
    intros [= -> _]. by eapply IH.
  - intros [= -> _]. by eapply on_certificate_refused.
Qed.
End refused.

(** C4: the consensus task of a new epoch.  The committee is well-formed, a hundred times
    its stake fits into 64 bits, and no member holds more than the share of the stake that
    bad nodes may have, which is at most 33 percent ([params_ok]; a member with more can
    make the swap of leaders panic).  The certificates of the epoch, of the many received,
    arrive after their parents, are of members, have parents and one version, and neither
    collide nor equivocate ([input_ok]).  Then the task never panics and never loops for
    ever; it stops early only with [StoreError], and only if the store has refused a write.
    The sub-dags that it sends form a history: no certificate is committed twice, indices
    are consecutive from one, leader rounds increase, timestamps never decrease, each
    sub-dag is sorted by round and ends at its leader, and all of it is persisted. *)
Theorem run_inner_safe {R : SeededRng} {L : SeededRngLaws R} {DB : Database} c thr n gc received :
  params_ok c thr n gc → input_ok c (filter (λ x, Cert.epoch x = epoch c) received) →
  (refused ∧ ∃ t', Task.run_inner (genesis c thr n gc) received = Ret (Err StoreError, t')) ∨
  ∃ events t', Task.run_inner (genesis c thr n gc) received = Ret (Ok events, t') ∧
    history_ok (state t') (sequenced events) ∧
    persisted (store (protocol t')) (state t') (sequenced events) ∧ state_wf (state t').
Proof.
  intros Hp Hi. destruct (run_inner_spec (genesis c thr n gc) [] received [] (genesis_ok c thr n gc Hp) Hi)
    as [[t' Hrun]|(ev & t' & Hrun & Ht)]; [left|right].
  - split; [by eapply run_inner_refused|by eexists].
  - exists ev, t'. split; [done|]. destruct Ht as [Hsys Hh _ _ Hps _]. split_and!; [done|done|apply Hsys].
Qed.

Lemma run_inner_safe_witness : ∃ events t',
  Task.run_inner (H0 := reliable_db) example_task (example_certs 5) = Ret (Ok events, t') ∧
  SubDag.leader_round <$> sequenced events = [2; 4] ∧ history_ok (state t') (sequenced events).
Proof.
  destruct (run_inner_safe (DB := reliable_db) five_committee 20 10 50 (example_certs 5))
    as [((st & i & Hw) & _)|(ev & t' & Hrun & Hh & _)].
  - exact five_params.
  - replace (filter _ _) with (example_certs 5) by (vm_compute; reflexivity). exact example_input.
  - discriminate Hw.
  - exists ev, t'. split; [exact Hrun|split; [|exact Hh]].
    assert (fmap (M := outcome) (λ p, match p.1 with Ok e => SubDag.leader_round <$> sequenced e | Err _ => [] end)
      (Task.run_inner (H0 := reliable_db) example_task (example_certs 5)) = Ret [2; 4]) as Hv
      by (vm_compute; reflexivity).
    unfold example_task in Hv. rewrite Hrun in Hv. simpl in Hv. congruence.
Defined.

Lemma example_sys : sys_ok (protocol example_task) (example_state 3).
Proof.
  destruct (genesis_ok _ _ _ _ five_params) as [Hsys _ _ _ _ _]. destruct example_3 as [Hwf Hin].
  assert (Forall (λ x, Cert.is_v2 x = true ∧ Cert.origin x ∈ members five_committee ∧ Cert.parents x ≠ ∅)
    (example_certs 3)) as HF by (apply (bool_decide_unpack _); vm_compute; exact I).
  rewrite Forall_forall in HF. split; [apply Hsys|exact Hwf| |].
  - split; [exists true|..]; intros x Hx%Hin; by apply HF.
  - intros d Hd. unfold example_state in Hd.
    destruct (CState.insert_all _ _ _ _) as [[d'|]| |]; discriminate Hd.
Qed.

Lemma example_history : history_ok (example_state 3) [].
Proof. apply history_nil. vm_compute. reflexivity. Qed.

Lemma elem_example_3 r o : bool_decide (example_cert r o ∈ example_certs 3) = true →
  in_dag (dag (example_state 3)) (example_cert r o).
Proof. intros H%bool_decide_eq_true. by apply example_3. Qed.

(** C36: [Bullshark::linked] decides whether the DAG has a path of parents from a leader
    to an earlier one; in a well-formed state it finds every round on the way. *)
Theorem linked_iff_path c s ldr prev : state_wf s → dag_ok c (dag s) → in_dag (dag s) ldr →
  in_dag (dag s) prev → Cert.round prev <= Cert.round ldr →
  ∃ b, BS.linked ldr prev (dag s) = Ret b ∧ (b = true ↔ path (dag s) ldr prev).
Proof. intros Hwf Hok. by apply (linked_spec c). Qed.

Lemma linked_iff_path_witness : path (dag (example_state 3)) (example_cert 3 0) (example_cert 1 2).
Proof.
  destruct (linked_iff_path five_committee (example_state 3) (example_cert 3 0) (example_cert 1 2))
    as (b & Hb & Hiff).
  - apply example_3.
  - apply example_sys.
  - apply elem_example_3. vm_compute. reflexivity.
  - apply elem_example_3. vm_compute. reflexivity.
  - vm_compute. discriminate.
  - apply Hiff. assert (BS.linked (example_cert 3 0) (example_cert 1 2) (dag (example_state 3)) = Ret true)
      as Ht by (vm_compute; reflexivity). congruence.
Defined.

(** [order_leaders] returns, oldest first, the given leader and the chain of
    earlier leaders that a commit reaches: from the round two below down to the
    committed round, the certificate of the elected leader whenever the DAG holds it
    and the last leader taken has a path to it.  All of them are in the DAG, above the
    committed round and strictly increasing. *)
Theorem order_leaders_correct {R : SeededRng} b s ldr : sys_ok b s → in_dag (dag s) ldr →
  Cert.round ldr mod 2 = 0 → committed_round (last_round s) < Cert.round ldr → 2 <= Cert.round ldr →
  ∃ l, BS.order_leaders b ldr s = Ret (rev (ldr :: l)) ∧ leaders_ok s (rev (ldr :: l)) ∧
    chain (leader_schedule b) (dag s)
      (leader_rounds (committed_round (last_round s)) (Cert.round ldr)) ldr l.
Proof. apply order_leaders_ok. Qed.

Lemma order_leaders_correct_witness : ∃ l,
  BS.order_leaders (protocol example_task) (example_cert 2 0) (example_state 3) =
    Ret (rev (example_cert 2 0 :: l)) ∧ leaders_ok (example_state 3) (rev (example_cert 2 0 :: l)).
Proof.
  destruct (order_leaders_correct (protocol example_task) (example_state 3) (example_cert 2 0))
    as (l & Ho & Hl & _).
  - exact example_sys.
  - apply elem_example_3. vm_compute. reflexivity.
  - vm_compute. reflexivity.
  - vm_compute. reflexivity.
  - vm_compute. discriminate.
  - exists l. exact (conj Ho Hl).
Defined.

(** C25: handling a certificate that is fit for the DAG ([cert_ok]), in a state that keeps the
    invariant ([sys_ok], which has the bound on the stakes and the range of the threshold of
    [params_ok]), terminates without a panic and, unless the store refuses a write, reports
    a commit exactly when sub-dags have been committed; the invariant of the protocol, its
    history and what is persisted are kept, and the committed round is that of the last
    leader. *)
Theorem process_certificate_correct {R : SeededRng} {L : SeededRngLaws R} {DB : Database} b s H x :
  sys_ok b s → history_ok s H → cert_ok b s x →
  (∃ bs, BS.process_certificate b s x = Ret (Err StoreError, bs)) ∨
  ∃ o ds b' s', BS.process_certificate b s x = Ret (Ok (o, ds), (b', s')) ∧
    processed b s H x o ds b' s'.
Proof. apply process_certificate_spec. Qed.

Lemma process_certificate_correct_witness : ∃ ds b' s',
  BS.process_certificate (H0 := reliable_db) (protocol example_task) (example_state 3) (example_cert 3 1) =
    Ret (Ok (Committed, ds), (b', s')) ∧
  processed (protocol example_task) (example_state 3) [] (example_cert 3 1) Committed ds b' s'.
Proof.
  destruct (process_certificate_correct (DB := reliable_db) (protocol example_task) (example_state 3) []
    (example_cert 3 1)) as [[bs Hb]|(o & ds & b' & s' & Hb & Hpr)].
  - exact example_sys.
  - exact example_history.
  - assert (in_dag (dag (example_state 3)) (example_cert 3 1)) as Hin
      by (apply elem_example_3; vm_compute; reflexivity).
    destruct example_sys as [_ Hwf [Hv Hm Hp] _]. split.
    + eapply in_dag_round; [apply Hwf|exact Hin].
    + exact (Hm _ Hin).
    + exact (Hp _ Hin).
    + intros y Hy. destruct Hv as [v Hv]. rewrite (Hv _ Hin). exact (Hv _ Hy).
    + intros y z Hy Hz. apply (swf_inj _ Hwf); naive_solver.
    + intros _ Hg. destruct Hin as (t & Ht & Ho).
      destruct (history_present five_committee (example_state 3) Hwf (so_dag _ _ example_sys)
        (example_cert 3 1) 2) as [tbl Htbl];
        [exists t; exact (conj Ht Ho)|vm_compute; split; [reflexivity|discriminate]|].
      exists tbl. split; [exact Htbl|]. intros dg Hdg.
      destruct (swf_closed _ Hwf (example_cert 3 1) ltac:(exists t; exact (conj Ht Ho)) Hg dg Hdg)
        as (p & ((t' & Ht' & Ho') & Hr & _) & <-). rewrite Hr in Ht'.
      change (Cert.round (example_cert 3 1) - 1) with 2 in Ht'.
      assert (t' = tbl) as -> by congruence. exists (Cert.origin p), p. exact Ho'.
    + intros y (Hy & Hr & Ho)%existing_in_dag; [|apply Hwf].
      exact (in_dag_unique _ _ _ Hy Hin Hr Ho).
  - exfalso. assert (fmap (M := outcome) (λ p, match p.1 with Ok _ => true | Err _ => false end)
      (BS.process_certificate (H0 := reliable_db) (protocol example_task) (example_state 3)
         (example_cert 3 1)) = Ret true) as Hv by (vm_compute; reflexivity).
    rewrite Hb in Hv. discriminate Hv.
  - assert (o = Committed) as ->; [|exists ds, b', s'; exact (conj Hb Hpr)].
    assert (fmap (M := outcome) (λ p, match p.1 with Ok q => bool_decide (q.1 = Committed) | Err _ => false end)
      (BS.process_certificate (H0 := reliable_db) (protocol example_task) (example_state 3)
         (example_cert 3 1)) = Ret true) as Hv by (vm_compute; reflexivity).
    rewrite Hb in Hv. injection Hv as Hv. by apply bool_decide_eq_true in Hv.
Defined.

(** C30: a node that crashes after any number of commits and restarts from its stores, of
    which the certificate store has the certificates of the DAG above the garbage collection
    round ([cert_store_ok]), comes back with the committed round, the last committed rounds, the last sub-dag
    and the certificates that it had, and the assertion of [spawn] on the last
    leader's round holds. *)
Theorem spawn_recovers {R : SeededRng} t before H cs p : task_ok t before H →
  Z.of_nat (length H) + 1 < U64_MOD → cert_store_ok cs (state t) →
  ∃ s', Task.spawn (c_committee t) (gc_depth (state t)) (store (protocol t)) cs p =
          Ret (mkConsensus (c_committee t) p s', [RoundUpdate (last_round (state t))]) ∧
    state_wf s' ∧ last_round s' = last_round (state t) ∧
    last_committed s' = last_committed (state t) ∧
    last_committed_sub_dag s' = last_committed_sub_dag (state t) ∧
    ∀ c, in_dag (dag s') c ↔ in_dag (dag (state t)) c.
Proof. apply spawn_spec. Qed.

(** The certificate store of the example node. *)
Definition example_cert_store : CertificateStore :=
  mkCertStore (λ dg, list_find (λ c, Cert.digest c = dg) (example_certs 5) ≫= λ p, Some p.2)
    (λ r, filter (λ c, r <= Cert.round c) (example_certs 5)).

Lemma spawn_recovers_witness : ∃ t s',
  Task.spawn five_committee 50 (store (protocol t)) example_cert_store (protocol t) =
    Ret (mkConsensus five_committee (protocol t) s', [RoundUpdate (mkRound 4 0)]) ∧
  ∀ c, in_dag (dag s') c ↔ c ∈ example_certs 5.
Proof.
  destruct (run_inner_spec (DB := reliable_db) example_task [] (example_certs 5) []
    (genesis_ok _ _ _ _ five_params)) as [[t Ht]|(ev & t & Hrun & Ht)].
  { replace ([] ++ filter _ _) with (example_certs 5) by (vm_compute; reflexivity). exact example_input. }
  { exfalso. assert (fmap (M := outcome) (λ p, match p.1 with Ok _ => true | Err _ => false end)
      (Task.run_inner (H0 := reliable_db) example_task (example_certs 5)) = Ret true) as Hv
      by (vm_compute; reflexivity).
    rewrite Ht in Hv. discriminate Hv. }
  replace ([] ++ filter _ _) with (example_certs 5) in Ht by (vm_compute; reflexivity).
  assert (fmap (M := outcome) (λ p, (last_round (state p.2), gc_depth (state p.2), c_committee p.2,
      match p.1 with Ok e => length (sequenced e) | Err _ => 0%nat end))
    (Task.run_inner (H0 := reliable_db) example_task (example_certs 5)) =
      Ret (mkRound 4 0, 50, five_committee, 2%nat)) as Hv by (vm_compute; reflexivity).
  rewrite Hrun in Hv. injection Hv as Hlr Hgc Hc Hlen.
  destruct (spawn_recovers t (example_certs 5) (sequenced ev) example_cert_store (protocol t) Ht)
    as (s' & Hs' & _ & _ & _ & _ & Hin).
  - rewrite Hlen. reflexivity.
  - assert (∀ c, c ∈ example_certs 5 → 1 <= Cert.round c) as Hpos.
    { apply Forall_forall, (bool_decide_unpack _). vm_compute. exact I. }
    split.
    + intros c. rewrite (tk_received _ _ _ Ht c), Hlr. simpl. rewrite list_elem_of_filter.
      specialize (Hpos c). split; [intros [? ?]; split; [lia|assumption]|]. intros [? ?]. split; [assumption|lia].
    + rewrite Hlr. apply (bool_decide_unpack _). vm_compute. exact I.
    + intros d c Hd Hc'. assert (c ∈ example_certs 5) as Hin5.
      { assert (d ∈ sequenced ev) as Hdin.
        { rewrite <-(ho_last _ _ (tk_history _ _ _ Ht)) in Hd. apply last_Some in Hd as [k Hk].
          change ([] ++ sequenced ev) with (sequenced ev) in Hk. rewrite Hk. apply elem_of_app. right. left. }
        assert (fmap (M := outcome) (λ p, match p.1 with
             | Ok e => forallb (λ d, bool_decide (Forall (λ c, c ∈ example_certs 5) (leader d :: certificates d)))
                         (sequenced e)
             | Err _ => false end)
          (Task.run_inner (H0 := reliable_db) example_task (example_certs 5)) = Ret true) as Hv
          by (vm_compute; reflexivity).
        rewrite Hrun in Hv. injection Hv as Hv. rewrite forallb_forall in Hv.
        specialize (Hv d ltac:(by apply list_elem_of_In)). apply bool_decide_eq_true in Hv.
        rewrite Forall_forall in Hv. by apply Hv. }
      clear Hc' Hd. revert c Hin5. apply Forall_forall, (bool_decide_unpack _). vm_compute. exact I.
  - exists t, s'. rewrite Hlr in Hs'. split; [rewrite <-Hc, <-Hgc; exact Hs'|].
    intros c. rewrite Hin, (tk_received _ _ _ Ht c), Hlr. simpl.
    split; [by intros [? _]|]. intros Hc5. split; [assumption|].
    revert c Hc5. apply Forall_forall, (bool_decide_unpack _). vm_compute. exact I.
Defined.
