(* ===== verification/BullsharkSafety.v ===== *)
(** * Agreement of Bullshark

    Two nodes that run [bullshark.rs] over different DAGs, both drawn from a universe
    of certificates without equivocation in which every certificate refers to a
    quorum of the round below, commit the same sub-dags in the same order: the log
    of one is a prefix of the log of the other.

    The argument follows the protocol.  A leader that a node may commit directly is
    supported by [f + 1] stake, so every certificate two or more rounds above has a
    path to it (quorums meet).  The chain of leaders that another node walks
    therefore passes through it, and below it the chains of both nodes are the same.
    Flattening a leader gives the same list in both DAGs, and scores, sub-dags and
    schedule changes only depend on what has been committed before. *)
From S2P Require Import Prelude NarwhalConfig NarwhalTypes ConsensusStore ConsensusDag LeaderSchedule Bullshark.

(** ** The universe of certificates *)

(** What honest voting guarantees of the certificates of an epoch: no equivocation, no
    digest collision, and above the first round the parents of a quorum. *)
Record universe_ok (c : Committee) (U : Certificate → Prop) : Prop := {
  u_unique x y : U x → U y → Cert.round x = Cert.round y → Cert.origin x = Cert.origin y → x = y;
  u_collision : no_collision U;
  u_quorum x : U x → 1 < Cert.round x →
    ∃ Q : gset Z, Q ⊆ members c ∧ quorum_threshold c <= set_stake c Q ∧
      ∀ o, o ∈ Q → ∃ p, U p ∧ Cert.round p = Cert.round x - 1 ∧ Cert.origin p = o ∧
        Cert.digest p ∈ Cert.parents x;
}.

(** The certificates of the DAG belong to the universe. *)
Definition dag_in (U : Certificate → Prop) (s : ConsensusState) : Prop := ∀ x, in_dag (dag s) x → U x.

(** A leader that members with [f + 1] stake refer to in the next round. *)
Definition supported (c : Committee) (d : Dag) (ldr : Certificate) : Prop :=
  ∃ S : gset Z, S ⊆ members c ∧ validity_threshold c <= set_stake c S ∧
    ∀ o, o ∈ S → ∃ y, in_dag d y ∧ Cert.round y = Cert.round ldr + 1 ∧ Cert.origin y = o ∧
      Cert.digest ldr ∈ Cert.parents y.

Lemma support_supported c s ldr tbl : committee_wf c → state_wf s → dag_ok c (dag s) →
  dag s !! (Cert.round ldr + 1) = Some tbl → validity_threshold c <= BS.support c ldr tbl →
  supported c (dag s) ldr.
Proof.
  intros Hc Hwf Hok Ht Hv. set (ps := filter (λ p, Cert.digest ldr ∈ Cert.parents p.2) (map_to_list tbl).*2).
  assert (∀ p, p ∈ ps → in_dag (dag s) p.2 ∧ Cert.round p.2 = Cert.round ldr + 1 ∧
    Cert.digest ldr ∈ Cert.parents p.2) as Hps.
  { intros [dg y] [Hp Hin]%list_elem_of_filter. simpl in *.
    apply list_elem_of_fmap in Hin as ([o q] & Hq & Ho%elem_of_map_to_list). simpl in Hq. subst q.
    destruct (in_dag_lookup _ _ _ _ _ _ (swf_dag s Hwf) Ht Ho) as (? & ? & _). done. }
  assert (NoDup ((λ p : Z * Certificate, Cert.origin p.2) <$> ps)) as Hnd.
  { apply NoDup_fmap_2_strong.
    - intros [d1 x1] [d2 x2] H1 H2 Heq. destruct (Hps _ H1) as (Hi1 & Hr1 & _).
      destruct (Hps _ H2) as (Hi2 & Hr2 & _). simpl in *.
      assert (x1 = x2) as -> by (eapply in_dag_unique; [done|done|congruence|done]). f_equal.
      apply list_elem_of_filter in H1 as [_ H1], H2 as [_ H2].
      apply list_elem_of_fmap in H1 as ([o1 q1] & E1 & Ho1%elem_of_map_to_list).
      apply list_elem_of_fmap in H2 as ([o2 q2] & E2 & Ho2%elem_of_map_to_list). simpl in *. subst.
      destruct (in_dag_lookup _ _ _ _ _ _ (swf_dag s Hwf) Ht Ho1) as (_ & _ & <- & _).
      by destruct (in_dag_lookup _ _ _ _ _ _ (swf_dag s Hwf) Ht Ho2) as (_ & _ & <- & _).
    - apply NoDup_filter. apply NoDup_fmap_2_strong; [|apply NoDup_map_to_list].
      intros [o1 [dg1 x1]] [o2 [dg2 x2]] Ho1%elem_of_map_to_list Ho2%elem_of_map_to_list [= -> ->].
      destruct (in_dag_lookup _ _ _ _ _ _ (swf_dag s Hwf) Ht Ho1) as (_ & _ & _ & <-).
      by destruct (in_dag_lookup _ _ _ _ _ _ (swf_dag s Hwf) Ht Ho2) as (_ & _ & _ & <-). }
  set (S := list_to_set ((λ p : Z * Certificate, Cert.origin p.2) <$> ps) : gset Z).
  assert (S ⊆ members c) as HS.
  { intros o (p & -> & Hp)%elem_of_list_to_set%list_elem_of_fmap. apply (dok_members _ _ Hok), Hps, Hp. }
  exists S. split_and!; [done| |].
  - unfold BS.support in Hv. fold ps in Hv.
    assert (set_stake c S = zsum ((λ p : Z * Certificate, Comm.stake_by_id c (Cert.origin p.2)) <$> ps)) as HSs.
    { unfold set_stake, S. rewrite wset_list_to_set by done. unfold wsum. by rewrite <-list_fmap_compose. }
    rewrite sum_u64_zsum in Hv; [lia| |].
    + intros z (p & -> & _)%list_elem_of_fmap. by apply stake_by_id_nonneg.
    + rewrite <-HSs. pose proof (wset_mono _ (λ i, stake_by_id_nonneg c i Hc) S (members c) HS) as Hm.
      fold (set_stake c S) (set_stake c (members c)) in Hm. rewrite (members_stake c Hc) in Hm.
      pose proof (tok_bound _ (wf_table c Hc)). pose proof (tok_pos _ (wf_table c Hc)). lia.
  - intros o (p & -> & Hp)%elem_of_list_to_set%list_elem_of_fmap. exists p.2.
    destruct (Hps p Hp) as (? & ? & ?). done.
Qed.

Section two_dags.
Context (c : Committee) (U : Certificate → Prop).
Hypothesis Hc : committee_wf c.
Hypothesis HU : universe_ok c U.
Context (s1 s2 : ConsensusState).
Hypothesis Hwf1 : state_wf s1.
Hypothesis Hwf2 : state_wf s2.
Hypothesis Hin1 : dag_in U s1.
Hypothesis Hin2 : dag_in U s2.

(** The parent that a certificate of the second DAG refers to is there. *)
Lemma parent_in x p : in_dag (dag s2) x → U p → Cert.digest p ∈ Cert.parents x →
  gc_round (last_round s2) + 1 < Cert.round x → parent_of (dag s2) x p.
Proof.
  intros Hx Hp Hd Hg. destruct (swf_closed s2 Hwf2 x Hx Hg _ Hd) as (q & Hq & Hqd).
  assert (q = p) as <-; [|done]. apply (u_collision c U HU); [apply Hin2, Hq|done|done].
Qed.

(** A path in one DAG is a path in the other, as far down as that keeps. *)
Lemma path_transfer x y : in_dag (dag s2) x → path (dag s1) x y →
  gc_round (last_round s2) < Cert.round y → path (dag s2) x y.
Proof.
  intros Hx Hp Hg. induction Hp as [|x p y Hxp Hpy IH]; [constructor|].
  assert (parent_of (dag s2) x p) as Hxp2.
  { destruct Hxp as (Hp & Hr & Hd). apply parent_in; [done|by apply Hin1|done|].
    apply path_round in Hpy as [? _]. lia. }
  eapply rtc_l; [done|]. apply IH; [apply Hxp2|done].
Qed.

(** Every certificate two or more rounds above a supported leader reaches it. *)
Lemma supported_reached ldr x : in_dag (dag s1) ldr → supported c (dag s1) ldr →
  in_dag (dag s2) x → Cert.round ldr + 2 <= Cert.round x → 0 < Cert.round ldr →
  gc_round (last_round s2) < Cert.round ldr → path (dag s2) x ldr.
Proof.
  intros Hl (S & HS & Hv & Hsup) Hx Hr Hpos Hg.
  assert (∃ n, Cert.round x = Cert.round ldr + 2 + Z.of_nat n) as [n Hn].
  { exists (Z.to_nat (Cert.round x - (Cert.round ldr + 2))). lia. }
  clear Hr. revert x Hx Hn. induction n as [|n IH]; intros x Hx Hn;
    destruct (u_quorum c U HU x (Hin2 x Hx) ltac:(lia)) as (Q & HQ & Hq & Hpar).
  - destruct (set_choose_L _ (quorum_validity_meet c Q S Hc HQ HS Hq Hv)) as [o [HoQ HoS]%elem_of_intersection].
    destruct (Hpar o HoQ) as (p & Hp & Hpr & Hpo & Hpd).
    destruct (Hsup o HoS) as (y & Hy & Hyr & Hyo & Hyd).
    assert (y = p) as ->.
    { apply (u_unique c U HU); [by apply Hin1|done|lia|congruence]. }
    assert (parent_of (dag s2) x p) as Hxp by (apply parent_in; [done|done|done|lia]).
    eapply rtc_l; [exact Hxp|]. eapply rtc_l; [|constructor].
    apply parent_in; [apply Hxp|by apply Hin1|done|lia].
  - assert (Q ≠ ∅) as [o Ho]%set_choose_L.
    { intros ->. unfold set_stake in Hq. rewrite wset_empty, (wf_quorum c Hc) in Hq.
      pose proof (tok_pos _ (wf_table c Hc)). div_lia. }
    destruct (Hpar o Ho) as (p & Hp & Hpr & _ & Hpd).
    assert (parent_of (dag s2) x p) as Hxp by (apply parent_in; [done|done|done|lia]).
    eapply rtc_l; [exact Hxp|]. apply IH; [apply Hxp|lia].
Qed.
End two_dags.

(** ** Chains of leaders *)

Lemma leads_unique {R : SeededRng} sch x y : leads sch x → leads sch y →
  Cert.round x = Cert.round y → Cert.origin x = Cert.origin y.
Proof. intros (a & Ha & <-) (a' & Ha' & <-) Hr. rewrite Hr in Ha. congruence. Qed.

Lemma chain_unique {R : SeededRng} sch d rounds ldr l1 l2 :
  chain sch d rounds ldr l1 → chain sch d rounds ldr l2 → l1 = l2.
Proof.
  intros H1. revert l2. induction H1 as [ldr|r rs ldr l Hno Hch IH|r rs ldr p l Hp Hr Hl Hpath Hch IH];
    intros l2 H2; inversion H2 as [|? ? ? ? Hno2 Hch2|? ? ? p2 ? Hp2 Hr2 Hl2 Hpath2 Hch2]; subst.
  - done.
  - by apply IH.
  - exfalso. by eapply Hno.
  - exfalso. by eapply Hno2.
  - assert (p2 = p) as ->.
    { eapply in_dag_unique; [done|done|done|]. by eapply leads_unique. }
    f_equal. by apply IH.
Qed.

Lemma chain_app {R : SeededRng} sch d rs1 rs2 ldr l : chain sch d (rs1 ++ rs2) ldr l →
  ∃ l1 l2, l = l1 ++ l2 ∧ chain sch d rs1 ldr l1 ∧
    chain sch d rs2 (default ldr (last l1)) l2.
Proof.
  revert ldr l. induction rs1 as [|r rs1 IH]; intros ldr l Hch.
  { exists [], l. split_and!; [done|constructor|done]. }
  simpl in Hch. inversion Hch as [|? ? ? ? Hno Hch'|? ? ? p l' Hp Hr Hl Hpath Hch']; subst.
  - destruct (IH _ _ Hch') as (l1 & l2 & -> & H1 & H2). exists l1, l2. split_and!; [done| |done].
    by apply chain_skip.
  - destruct (IH _ _ Hch') as (l1 & l2 & -> & H1 & H2). exists (p :: l1), l2. split_and!; [done| |].
    + by apply chain_link.
    + destruct l1 as [|q l1]; [done|]. rewrite last_cons. by destruct (last (q :: l1)).
Qed.

Section chains.
Context {R : SeededRng} (c : Committee) (U : Certificate → Prop).
Hypothesis Hc : committee_wf c.
Hypothesis HU : universe_ok c U.
Context (s1 s2 : ConsensusState) (sch : LeaderSchedule).
Hypothesis Hwf1 : state_wf s1.
Hypothesis Hwf2 : state_wf s2.
Hypothesis Hin1 : dag_in U s1.
Hypothesis Hin2 : dag_in U s2.

(** From a leader that both DAGs hold, the chains are the same. *)
Lemma chain_transfer rounds ldr l : in_dag (dag s1) ldr → in_dag (dag s2) ldr →
  Forall (λ r, gc_round (last_round s1) < r ∧ gc_round (last_round s2) < r) rounds →
  chain sch (dag s1) rounds ldr l → chain sch (dag s2) rounds ldr l.
Proof.
  intros Hl1 Hl2 Hg Hch. revert Hl1 Hl2 Hg.
  induction Hch as [ldr|r rs ldr l Hno Hch IH|r rs ldr p l Hp Hr Hlead Hpath Hch IH];
    intros Hl1 Hl2 Hg; [constructor|..]; apply Forall_cons in Hg as [[Hg1 Hg2] Hg].
  - apply chain_skip; [|by apply IH]. intros p Hp Hr Hlead Hpath.
    assert (path (dag s1) ldr p) as Hpath1.
    { eapply (path_transfer c U HU s2 s1); [done|done|done|done|done|lia]. }
    apply (Hno p); [by eapply path_in_dag|done|done|done].
  - assert (path (dag s2) ldr p) as Hpath2.
    { eapply (path_transfer c U HU s1 s2); [done|done|done|done|done|lia]. }
    assert (in_dag (dag s2) p) as Hp2 by (by eapply path_in_dag).
    apply chain_link; [done|done|done|done|]. by apply IH.
Qed.

(** The chain that starts above a leader supported in the first DAG passes
    through it. *)
Lemma chain_through rs1 rs2 ldr1 ldr2 l : in_dag (dag s1) ldr1 → supported c (dag s1) ldr1 →
  leads sch ldr1 → 0 < Cert.round ldr1 → gc_round (last_round s2) < Cert.round ldr1 →
  in_dag (dag s2) ldr2 → Cert.round ldr1 + 2 <= Cert.round ldr2 →
  Forall (λ r, Cert.round ldr1 + 2 <= r) rs1 →
  chain sch (dag s2) (rs1 ++ Cert.round ldr1 :: rs2) ldr2 l →
  ∃ l1 l2, l = l1 ++ ldr1 :: l2 ∧ chain sch (dag s2) rs2 ldr1 l2.
Proof.
  intros Hl1 Hsup Hlead Hpos Hg Hl2 Hr Hrs Hch.
  apply chain_app in Hch as (l1 & l2 & -> & Hch1 & Hch2).
  set (last_ldr := default ldr2 (last l1)) in *.
  assert (in_dag (dag s2) last_ldr ∧ Cert.round ldr1 + 2 <= Cert.round last_ldr) as [Hll Hlr].
  { unfold last_ldr. destruct (last l1) as [x|] eqn:E; [|done]. simpl.
    assert (x ∈ l1) as Hx by (apply last_Some in E as [k ->]; set_solver).
    clear -Hch1 Hx Hl2 Hrs. induction Hch1 as [|r rs ldr l Hno Hch IH|r rs ldr p l Hp Hr' Hle Hpath Hch IH].
    - set_solver.
    - apply Forall_cons in Hrs as [_ Hrs]. by apply IH.
    - apply Forall_cons in Hrs as [Hpr Hrs]. apply elem_of_cons in Hx as [->|Hx].
      + split; [done|lia].
      + by apply IH. }
  assert (path (dag s2) last_ldr ldr1) as Hpath.
  { eapply (supported_reached c U Hc HU s1 s2); done. }
  inversion Hch2 as [|? ? ? ? Hno2 Hch'|? ? ? p l3 Hp Hpr Hpl Hpp Hch']; subst.
  - exfalso. apply (Hno2 ldr1); [by eapply path_in_dag|done|done|done].
  - assert (p = ldr1) as ->.
    { eapply in_dag_unique; [done|by eapply (path_in_dag _ last_ldr)|done|by eapply leads_unique]. }
    by exists l1, l3.
Qed.
End chains.

Lemma rev_step_2_split lo hi r : lo <= r <= hi → (hi - r) mod 2 = 0 →
  rev_step_2 lo hi = rev_step_2 (r + 2) hi ++ r :: rev_step_2 lo (r - 2).
Proof.
  intros Hr Hm.
  assert (StronglySorted Z.gt (rev_step_2 (r + 2) hi ++ r :: rev_step_2 lo (r - 2))) as Hs.
  { apply StronglySorted_app. split_and!.
    - intros x y [Hx _]%elem_of_rev_step_2 [->|[Hy _]%elem_of_rev_step_2]%elem_of_cons; lia.
    - apply rev_step_2_sorted.
    - constructor; [apply rev_step_2_sorted|]. apply Forall_forall.
      intros y [Hy _]%elem_of_rev_step_2. lia. }
  assert (∀ l, StronglySorted Z.gt l → NoDup l) as Hnd.
  { induction 1 as [|x l Hl IH HF]; constructor; [|done]. intros Hx. rewrite Forall_forall in HF.
    specialize (HF x Hx). lia. }
  assert (AntiSymm (=) Z.gt) by (intros x y; lia).
  apply (StronglySorted_unique Z.gt); [apply rev_step_2_sorted|done|].
  apply NoDup_Permutation; [apply Hnd, rev_step_2_sorted|by apply Hnd|].
  intros x. rewrite elem_of_app, elem_of_cons, !elem_of_rev_step_2. split.
  - intros [Hx Hxm]. destruct (decide (x = r)); [by auto|].
    destruct (decide (r < x)); [left; split; [div_lia|done]|right; right; split; [div_lia|div_lia]].
  - intros [[? ?]|[->|[? ?]]]; (split; [lia|div_lia]).
Qed.

(** What two nodes that have committed the same sub-dags share: everything but the DAG,
    the store and the counter of rounds seen. *)
Record core_eq (b1 : Bullshark) (s1 : ConsensusState) (b2 : Bullshark) (s2 : ConsensusState) : Prop := {
  ce_committee : committee b1 = committee b2;
  ce_thr : consensus_bad_nodes_stake_threshold b1 = consensus_bad_nodes_stake_threshold b2;
  ce_num : num_sub_dags_per_schedule b1 = num_sub_dags_per_schedule b2;
  ce_schedule : leader_schedule b1 = leader_schedule b2;
  ce_round : last_round s1 = last_round s2;
  ce_depth : gc_depth s1 = gc_depth s2;
  ce_lc : last_committed s1 = last_committed s2;
  ce_sub : last_committed_sub_dag s1 = last_committed_sub_dag s2;
}.

(** A leader of the DAG that can be committed directly. *)
Record anchor {R : SeededRng} (b : Bullshark) (s : ConsensusState) (x : Certificate) : Prop := {
  an_dag : in_dag (dag s) x;
  an_leads : leads (leader_schedule b) x;
  an_even : Cert.round x mod 2 = 0;
  an_above : committed_round (last_round s) < Cert.round x;
  an_two : 2 <= Cert.round x;
  an_support : supported (committee b) (dag s) x;
}.

(** A node's system in the universe. *)
Definition sys_in {R : SeededRng} (U : Certificate → Prop) (b : Bullshark) (s : ConsensusState) : Prop :=
  sys_ok b s ∧ dag_in U s ∧ committed_round (last_round s) mod 2 = 0.

Lemma gc_le_committed s : state_wf s → gc_round (last_round s) <= committed_round (last_round s).
Proof.
  intros Hwf. rewrite (swf_gc s Hwf). pose proof (swf_depth s Hwf). pose proof (swf_committed s Hwf) as Hu.
  unfold utils_gc_round, sat_sub, is_u64 in *. lia.
Qed.

Section prefix.
Context {R : SeededRng} (U : Certificate → Prop) (b1 b2 : Bullshark) (s1 s2 : ConsensusState).
Hypothesis HU : universe_ok (committee b1) U.
Hypothesis Hsys1 : sys_in U b1 s1.
Hypothesis Hsys2 : sys_in U b2 s2.
Hypothesis Hcore : core_eq b1 s1 b2 s2.

Lemma anchor_transfer x1 x2 l1 l2 : anchor b1 s1 x1 → anchor b2 s2 x2 →
  Cert.round x1 <= Cert.round x2 →
  BS.order_leaders b1 x1 s1 = Ret l1 → BS.order_leaders b2 x2 s2 = Ret l2 → l1 `prefix_of` l2.
Proof.
  intros [Hd1 Hle1 He1 Ha1 Ht1 Hs1] [Hd2 Hle2 He2 Ha2 Ht2 Hs2] Hr Ho1 Ho2.
  destruct Hsys1 as (Hok1 & Hi1 & Hev), Hsys2 as (Hok2 & Hi2 & _). destruct Hcore as [Ec _ _ Es Er _ _ _].
  pose proof (so_state _ _ Hok1) as Hwf1. pose proof (so_state _ _ Hok2) as Hwf2.
  pose proof (co_committee _ (so_config _ _ Hok1)) as Hc.
  destruct (order_leaders_ok b1 s1 x1 Hok1 Hd1 He1 Ha1 Ht1) as (k1 & Hk1 & _ & Hch1).
  destruct (order_leaders_ok b2 s2 x2 Hok2 Hd2 He2 Ha2 Ht2) as (k2 & Hk2 & _ & Hch2).
  assert (l1 = rev (x1 :: k1)) as -> by congruence. assert (l2 = rev (x2 :: k2)) as -> by congruence.
  rewrite <-Es, <-Er in *.
  pose proof (gc_le_committed s1 Hwf1) as Hg1. pose proof (gc_le_committed s2 Hwf2) as Hg2.
  rewrite <-Er in Hg2.
  assert (∀ l, in_dag (dag s2) x1 → chain (leader_schedule b1) (dag s2)
    (leader_rounds (committed_round (last_round s1)) (Cert.round x1)) x1 l → l = k1) as Hsame.
  { intros l Hx Hl. eapply chain_unique; [exact Hl|].
    eapply (chain_transfer (committee b1) U HU s1 s2); try done.
    apply Forall_forall. intros r [? _]%elem_of_rev_step_2. rewrite <-Er. lia. }
  destruct (decide (Cert.round x1 = Cert.round x2)) as [Heq|Hne].
  - assert (x1 = x2) as <-.
    { apply (u_unique _ _ HU); [by apply Hi1|by apply Hi2|done|by eapply leads_unique]. }
    rewrite (Hsame k2); done.
  - assert (Cert.round x1 + 2 <= Cert.round x2) as Hr2 by div_lia.
    unfold leader_rounds in Hch2.
    rewrite (rev_step_2_split _ (Cert.round x2 - 2) (Cert.round x1)) in Hch2 by div_lia.
    destruct (chain_through (committee b1) U Hc HU s1 s2 (leader_schedule b1) Hwf1 Hwf2 Hi1 Hi2
      (rev_step_2 (Cert.round x1 + 2) (Cert.round x2 - 2))
      (rev_step_2 (committed_round (last_round s1) + 2) (Cert.round x1 - 2)) x1 x2 k2) as (k3 & k4 & -> & Hch4);
      [done|done|done|lia|rewrite <-Er; lia|done|done| |exact Hch2|].
    { apply Forall_forall. intros r [? _]%elem_of_rev_step_2. lia. }
    assert (in_dag (dag s2) x1) as Hx12.
    { eapply path_in_dag; [exact Hd2|].
      eapply (supported_reached (committee b1) U Hc HU s1 s2); try done; [lia|rewrite <-Er; lia]. }
    rewrite (Hsame k4) by done. exists (rev (x2 :: k3)). simpl. rewrite rev_app_distr. simpl.
    by rewrite <-!app_assoc.
Qed.
End prefix.

(** ** Flattening gives the same list *)

Section same_flattening.
Context {R : SeededRng} (U : Certificate → Prop) (b1 b2 : Bullshark) (s1 s2 : ConsensusState).
Hypothesis HU : universe_ok (committee b1) U.
Hypothesis Hsys1 : sys_in U b1 s1.
Hypothesis Hsys2 : sys_in U b2 s2.
Hypothesis Hcore : core_eq b1 s1 b2 s2.

Let in_both x := in_dag (dag s1) x ∧ in_dag (dag s2) x.
Let g := gc_round (last_round s1).

Lemma find_parent_same x dg : in_both x → g + 1 < Cert.round x → dg ∈ Cert.parents x →
  ∃ p, in_both p ∧ Cert.round p = Cert.round x - 1 ∧
    (tbl ← dag s1 !! wsub (Cert.round x) 1; find_digest tbl dg) = Some (dg, p) ∧
    (tbl ← dag s2 !! wsub (Cert.round x) 1; find_digest tbl dg) = Some (dg, p).
Proof.
  intros [Hx1 Hx2] Hg Hdg. destruct Hsys1 as (Hok1 & Hi1 & _), Hsys2 as (Hok2 & Hi2 & _).
  pose proof (so_state _ _ Hok1) as Hwf1. pose proof (so_state _ _ Hok2) as Hwf2.
  pose proof (ce_round _ _ _ _ Hcore) as Er.
  assert (0 <= g) by (unfold g; rewrite (swf_gc s1 Hwf1); unfold utils_gc_round, sat_sub; lia).
  pose proof (in_dag_round _ _ (swf_dag s1 Hwf1) Hx1) as Hu.
  destruct (swf_closed s1 Hwf1 x Hx1 Hg dg Hdg) as (p & Hp & <-).
  destruct (swf_closed s2 Hwf2 x Hx2 ltac:(rewrite <-Er; done) _ Hdg) as (q & Hq & Hqd).
  assert (q = p) as ->.
  { apply (u_collision _ _ HU); [apply Hi2, Hq|apply Hi1, Hp|done]. }
  exists p. split_and!; [split; [apply Hp|apply Hq]|apply Hp|..].
  - apply find_parent; [apply Hwf1|apply Hwf1|done|lia|done].
  - apply find_parent; [apply Hwf2|apply Hwf2|done|lia|done].
Qed.

Lemma push_parents_same x ds buffer already : in_both x → g + 1 < Cert.round x →
  (∀ dg, dg ∈ ds → dg ∈ Cert.parents x) → Forall in_both buffer →
  Forall (λ y, Cert.round x - 1 <= Cert.round y ∨ g < Cert.round y) buffer →
  push_parents s1 x ds buffer already = push_parents s2 x ds buffer already ∧
  ∀ buffer' already', push_parents s1 x ds buffer already = Ret (buffer', already') →
    Forall (λ y, y ∈ buffer ∨ (in_both y ∧ Cert.round y = Cert.round x - 1)) buffer'.
Proof.
  intros Hx Hg. revert buffer already. induction ds as [|dg ds IH]; intros buffer already Hds Hb Hr.
  { split; [done|]. intros b' a' [= <- <-]. apply Forall_forall. auto. }
  destruct (find_parent_same x dg Hx Hg (Hds dg ltac:(left))) as (p & Hp & Hpr & Hf1 & Hf2).
  cbn [push_parents]. rewrite Hf1, Hf2. cbn [unwrap mbind outcome_bind].
  rewrite <-(ce_lc _ _ _ _ Hcore). destruct (_ || _).
  - apply IH; [set_solver|done|done].
  - destruct (IH (p :: buffer) ({[dg]} ∪ already)) as [Heq HF]; [set_solver|by constructor| |].
    { constructor; [|done]. left. lia. }
    split; [done|]. intros b' a' Hres. eapply Forall_impl; [by eapply HF|]. simpl.
    intros y [[->|?]%elem_of_cons|?]; auto.
Qed.

Lemma order_loop_same fuel1 fuel2 lgc buffer already ordered l1 l2 : g <= lgc → 0 <= lgc < U64_MOD - 1 →
  Forall in_both buffer → Forall (λ y, lgc < Cert.round y) buffer →
  order_loop fuel1 s1 lgc buffer already ordered = Ret l1 →
  order_loop fuel2 s2 lgc buffer already ordered = Ret l2 → l1 = l2.
Proof.
  intros Hg Hlgc. revert fuel2 buffer already ordered.
  induction fuel1 as [|fuel1 IH]; intros fuel2 buffer already ordered Hb Hr H1 H2;
    destruct buffer as [|x buffer]; simpl in H1.
  - destruct fuel2; simpl in H2; congruence.
  - done.
  - destruct fuel2; simpl in H2; congruence.
  - destruct fuel2 as [|fuel2]; [done|]. simpl in H2.
    assert (wadd lgc 1 = lgc + 1) as Hw by (unfold wadd; apply Z.mod_small; lia). rewrite Hw in *.
    apply Forall_cons in Hb as [Hx Hb]. apply Forall_cons in Hr as [Hxr Hr].
    destruct (Z.eqb_spec (Cert.round x) (lgc + 1)) as [He|Hne]; [by eapply IH|].
    destruct (push_parents_same x (btree_set_iter (Cert.parents x)) buffer already) as [Heq HF];
      [done|lia|intros dg; apply elem_of_btree_set_iter|done| |].
    { eapply Forall_impl; [exact Hr|]. simpl. intros. right. lia. }
    rewrite <-Heq in H2.
    destruct (push_parents s1 x (btree_set_iter (Cert.parents x)) buffer already)
      as [[buffer' already']| |]; simpl in H1, H2; [|done..].
    specialize (HF buffer' already' eq_refl). rewrite Forall_forall in HF, Hb, Hr.
    eapply IH; [| |exact H1|exact H2]; apply Forall_forall; intros y Hy.
    + destruct (HF y Hy) as [?|[? _]]; auto.
    + destruct (HF y Hy) as [?|[_ ?]]; [by apply Hr|lia].
Qed.

Lemma order_dag_same ldr l1 l2 : in_both ldr → committed_round (last_round s1) < Cert.round ldr →
  order_dag ldr s1 = Ret l1 → order_dag ldr s2 = Ret l2 → l1 = l2.
Proof.
  intros Hl Ha H1 H2. pose proof Hsys1 as (Hok1 & _ & _). pose proof (so_state _ _ Hok1) as Hwf1.
  pose proof (swf_committed s1 Hwf1) as Hcu. pose proof (swf_depth s1 Hwf1) as Hd.
  pose proof (in_dag_round _ _ (swf_dag s1 Hwf1) (proj1 Hl)) as Hu.
  unfold order_dag, assert_, mbind, outcome_bind, is_u64 in *.
  rewrite <-(ce_depth _ _ _ _ Hcore) in H2. destruct (0 <? Cert.round ldr); [|done].
  set (lgc := sat_sub (Cert.round ldr) (gc_depth s1)) in *.
  assert (g <= lgc).
  { unfold g, lgc. rewrite (swf_gc s1 Hwf1). unfold utils_gc_round, sat_sub. lia. }
  destruct (order_loop _ s1 _ _ _ _) as [k1| |] eqn:E1; [|done..].
  destruct (order_loop _ s2 _ _ _ _) as [k2| |] eqn:E2; [|done..].
  assert (k1 = k2) as ->; [|congruence].
  eapply (order_loop_same _ _ lgc); [done| | | |exact E1|exact E2].
  - unfold lgc, sat_sub, U64_MOD in *. lia.
  - by apply Forall_singleton.
  - apply Forall_singleton. unfold lgc, sat_sub. lia.
Qed.

(** Committing the same leader has the same effect. *)
Lemma commit_of_same ldr d1 d2 b1' s1' b2' s2' : in_both ldr →
  committed_round (last_round s1) < Cert.round ldr →
  commit_of b1 s1 ldr d1 b1' s1' → commit_of b2 s2 ldr d2 b2' s2' →
  d1 = d2 ∧ core_eq b1' s1' b2' s2'.
Proof.
  intros Hl Ha (r1 & st1 & f1 & Ho1 & Hr1 & Hd1 & Hs1 & Hu1) (r2 & st2 & f2 & Ho2 & Hr2 & Hd2 & Hs2 & Hu2).
  assert (certificates d1 = certificates d2) as Hcert by (by eapply order_dag_same).
  pose proof Hcore as [Ec Et En Es Er Eg El Eb].
  assert (CState.next_sub_dag_index s1 = CState.next_sub_dag_index s2) as Hidx.
  { unfold CState.next_sub_dag_index. by rewrite Eb. }
  set (seq := certificates d2) in *. rewrite Hcert in *. clear Hcert.
  destruct (fold_update_fields s1 seq) as [Hg1 Hb1]. destruct (fold_update_fields s2 seq) as [Hg2 Hb2].
  assert (last_round (updates s1 seq) = last_round (updates s2 seq) ∧
    last_committed (updates s1 seq) = last_committed (updates s2 seq)) as [Hlr Hlc].
  { clear -Er El Eg. revert s1 s2 Er El Eg. induction seq as [|x seq IH]; intros t1 t2 Er El Eg; [done|].
    apply (IH (CState.update t1 x) (CState.update t2 x)); unfold CState.update; simpl;
      by rewrite ?Er, ?El, ?Eg. }
  assert (r1 = r2) as ->.
  { unfold BS.resolve_reputation_score in Hr1, Hr2. rewrite Hb1 in Hr1. rewrite Hb2 in Hr2.
    rewrite Ec, En, Hidx, Eb in Hr1. congruence. }
  assert (d1 = d2) as ->.
  { rewrite Hd1, Hd2. by rewrite Hidx, Hb1, Hb2, Eb. }
  split; [done|].
  assert (leader_schedule b1' = leader_schedule b2' ∧ committee b1' = committee b2' ∧
    consensus_bad_nodes_stake_threshold b1' = consensus_bad_nodes_stake_threshold b2' ∧
    num_sub_dags_per_schedule b1' = num_sub_dags_per_schedule b2') as (? & ? & ? & ?).
  { unfold BS.update_leader_schedule in Hu1, Hu2. destruct (final_of_schedule r2).
    - simpl in Hu1, Hu2. rewrite Ec, Et in Hu1.
      destruct (SwapTable.new _ _ _ _) as [t| |]; [|done..]. simpl in *. injection Hu1 as _ <-.
      injection Hu2 as _ <-. simpl. by rewrite Es.
    - injection Hu1 as _ <-. injection Hu2 as _ <-. done. }
  subst s1' s2'. split; simpl; try done. by rewrite Hg1, Hg2.
Qed.
End same_flattening.

(** ** Logs *)

Lemma core_eq_refl b s : core_eq b s b s.
Proof. by split. Qed.
Lemma core_eq_sym b1 s1 b2 s2 : core_eq b1 s1 b2 s2 → core_eq b2 s2 b1 s1.
Proof. intros []. by split. Qed.
Lemma core_eq_trans b1 s1 b2 s2 b3 s3 :
  core_eq b1 s1 b2 s2 → core_eq b2 s2 b3 s3 → core_eq b1 s1 b3 s3.
Proof. intros [] []. split; congruence. Qed.

(** The logs that a node can have produced since it started in [b0] and [s0], and the
    states that it can be in: it commits the first leader below an anchor of the
    DAG it has at that time, and in between only its DAG changes. *)
Inductive logs {R : SeededRng} (U : Certificate → Prop) (b0 : Bullshark) (s0 : ConsensusState) :
    list CommittedSubDag → Bullshark → ConsensusState → Prop :=
  | logs_nil b s : core_eq b0 s0 b s → logs U b0 s0 [] b s
  | logs_snoc H b s x ldr rest d b1 s1 b' s' :
      logs U b0 s0 H b s → sys_in U b s → anchor b s x →
      BS.order_leaders b x s = Ret (ldr :: rest) → commit_of b s ldr d b1 s1 →
      core_eq b1 s1 b' s' → logs U b0 s0 (H ++ [d]) b' s'.

Lemma logs_core {R : SeededRng} U b0 s0 H b s b' s' :
  logs U b0 s0 H b s → core_eq b s b' s' → logs U b0 s0 H b' s'.
Proof.
  intros Hl He. destruct Hl as [b s He0|H b s x ldr rest d b1 s1 b2 s2 Hl Hs Ha Ho Hc He0].
  - apply logs_nil. by eapply core_eq_trans.
  - eapply logs_snoc; [done..|]. by eapply core_eq_trans.
Qed.

Lemma logs_prefix {R : SeededRng} U b0 s0 H K b s :
  logs U b0 s0 (H ++ K) b s → ∃ b' s', logs U b0 s0 H b' s'.
Proof.
  revert b s. induction K as [|d K IH] using rev_ind; intros b s Hl.
  { rewrite app_nil_r in Hl. eauto. }
  rewrite app_assoc in Hl. inversion Hl as [? ? ? E|H' ? ? ? ? ? d' ? ? ? ? Hl' ? ? ? ? ? E]; subst.
  - by destruct (H ++ K).
  - apply app_inj_tail in E as [-> _]. by eapply IH.
Qed.

Lemma logs_committee {R : SeededRng} U b0 s0 H b s : logs U b0 s0 H b s → committee b = committee b0.
Proof.
  induction 1 as [b s []|H b s x ldr rest d b1 s1 b' s' Hl IH Hs Ha Ho (r & st & f & _ & _ & _ & _ & Hu) []];
    [congruence|].
  rewrite <-ce_committee0, <-IH. unfold BS.update_leader_schedule in Hu. destruct (final_of_schedule r).
  - simpl in Hu. destruct (SwapTable.new _ _ _ _); [|done..]. by injection Hu as _ <-.
  - by injection Hu as _ <-.
Qed.

(** Two logs of the same length are equal, and so is what the nodes share. *)
Lemma logs_agree {R : SeededRng} U b0 s0 H1 b1 s1 H2 b2 s2 : universe_ok (committee b0) U →
  logs U b0 s0 H1 b1 s1 → logs U b0 s0 H2 b2 s2 → length H1 = length H2 →
  H1 = H2 ∧ core_eq b1 s1 b2 s2.
Proof.
  intros HU Hl1. revert H2 b2 s2.
  induction Hl1 as [b s He|H b s x ldr rest d b' s' b1 s1 Hl IH Hs Ha Ho Hc He];
    intros H2 b2 s2 Hl2 Hlen; destruct Hl2 as [b2 s2 He2|H2 c2 t2 x2 ldr2 rest2 d2 c2' t2' b2 s2 Hl2 Hs2 Ha2 Ho2 Hc2 He2].
  - split; [done|]. eapply core_eq_trans; [by apply core_eq_sym|done].
  - rewrite length_app in Hlen. simpl in Hlen. lia.
  - rewrite length_app in Hlen. simpl in Hlen. lia.
  - rewrite !length_app in Hlen. simpl in Hlen. destruct (IH H2 c2 t2 Hl2 ltac:(lia)) as [<- Hcore].
    pose proof (logs_committee _ _ _ _ _ _ Hl) as Hcb. pose proof (logs_committee _ _ _ _ _ _ Hl2) as Hcc.
    assert (ldr2 = ldr) as ->.
    { destruct (Z.le_ge_cases (Cert.round x) (Cert.round x2)) as [Hle|Hle].
      - destruct (anchor_transfer U b c2 s t2 ltac:(by rewrite Hcb) Hs Hs2 Hcore x x2 _ _ Ha Ha2 Hle Ho Ho2)
          as [k Hk]. simpl in Hk. congruence.
      - destruct (anchor_transfer U c2 b t2 s ltac:(by rewrite Hcc) Hs2 Hs (core_eq_sym _ _ _ _ Hcore)
          x2 x _ _ Ha2 Ha Hle Ho2 Ho) as [k Hk]. simpl in Hk. congruence. }
    assert (∀ b s x rest, sys_in U b s → anchor b s x → BS.order_leaders b x s = Ret (ldr :: rest) →
      in_dag (dag s) ldr ∧ committed_round (last_round s) < Cert.round ldr) as Hin.
    { clear. intros b s x rest (Hok & _) [Hd _ He Ha Ht _] Ho.
      destruct (order_leaders_ok b s x Hok Hd He Ha Ht) as (l & Hl & [HF _] & _).
      assert (rev (x :: l) = ldr :: rest) as E by congruence. rewrite E in HF. by apply Forall_cons in HF as [? _]. }
    destruct (Hin _ _ _ _ Hs Ha Ho) as [Hd1 Habove]. destruct (Hin _ _ _ _ Hs2 Ha2 Ho2) as [Hd2 _].
    destruct (commit_of_same U b c2 s t2 ltac:(by rewrite Hcb) Hs Hs2 Hcore ldr d d2 b' s' c2' t2'
      (conj Hd1 Hd2) Habove Hc Hc2) as [-> Hcore'].
    split; [done|]. eapply core_eq_trans; [by apply core_eq_sym|]. by eapply core_eq_trans.
Qed.

Lemma logs_comparable {R : SeededRng} U b0 s0 H1 b1 s1 H2 b2 s2 : universe_ok (committee b0) U →
  logs U b0 s0 H1 b1 s1 → logs U b0 s0 H2 b2 s2 → H1 `prefix_of` H2 ∨ H2 `prefix_of` H1.
Proof.
  intros HU Hl1 Hl2.
  assert (∀ H1 b1 s1 H2 b2 s2, logs U b0 s0 H1 b1 s1 → logs U b0 s0 H2 b2 s2 →
    (length H1 <= length H2)%nat → H1 `prefix_of` H2) as Hw.
  { clear -HU. intros H1 b1 s1 H2 b2 s2 Hl1 Hl2 Hle.
    rewrite <-(take_drop (length H1) H2) in Hl2. destruct (logs_prefix _ _ _ _ _ _ _ Hl2) as (b & s & Hl).
    destruct (logs_agree U b0 s0 _ _ _ _ _ _ HU Hl1 Hl) as [-> _]; [rewrite length_take; lia|].
    apply prefix_take. }
  destruct (Nat.le_ge_cases (length H1) (length H2)); [left|right]; by eapply Hw.
Qed.

(** ** The code produces such logs *)

Section produce.
Context {R : SeededRng} {L : SeededRngLaws R} {DB : Database} (U : Certificate → Prop).

(** After the oldest leader of the chain has been committed, the others are what
    [order_leaders] finds for the same anchor. *)
Lemma anchor_next b s H x ldr rest b1 s1 d : universe_ok (committee b) U → sys_in U b s →
  anchor b s x → BS.order_leaders b x s = Ret (ldr :: rest) → rest ≠ [] →
  advanced b s H b1 s1 [d] → leader d = ldr → leader_schedule b1 = leader_schedule b →
  dag_in U s1 → anchor b1 s1 x ∧ BS.order_leaders b1 x s1 = Ret rest.
Proof.
  intros HU (Hok & Hi & Hev) [Hd Hle He Ha Ht (S & HS & Hv & Hsup)] Ho Hne Hadv Hld Hsch Hi1.
  pose proof (so_state _ _ Hok) as Hwf. pose proof (adv_sys _ _ _ _ _ _ Hadv) as Hok1.
  pose proof (so_state _ _ Hok1) as Hwf1. pose proof (adv_committee _ _ _ _ _ _ Hadv) as Hcc.
  pose proof (adv_round _ _ _ _ _ _ Hadv) as Hr1. simpl in Hr1. unfold SubDag.leader_round in Hr1.
  rewrite Hld in Hr1. pose proof (gc_le_committed s1 Hwf1) as Hg1.
  destruct (order_leaders_ok b s x Hok Hd He Ha Ht) as (k & Hk & Hlok & Hch).
  assert (rev (x :: k) = ldr :: rest) as Hrev by congruence. rewrite Hrev in Hlok.
  (* the oldest leader is the last of the chain *)
  destruct k as [|y k _] using rev_ind; [by injection Hrev as _ <-|].
  simpl in Hrev. rewrite rev_app_distr in Hrev. simpl in Hrev. injection Hrev as -> <-.
  assert (Cert.round ldr ∈ leader_rounds (committed_round (last_round s)) (Cert.round x)) as Hin.
  { pose proof (chain_spec b s _ _ _ Hd Hch) as HF. apply Forall_app in HF as [_ HF].
    by apply Forall_singleton in HF as (_ & ? & _). }
  assert (Cert.round ldr + 2 <= Cert.round x) as Hlx by (apply elem_of_rev_step_2 in Hin; lia).
  assert (chain (leader_schedule b) (dag s) (leader_rounds (Cert.round ldr) (Cert.round x)) x k) as Hch'.
  { unfold leader_rounds in Hch. pose proof Hin as [Hb Hm]%elem_of_rev_step_2.
    rewrite (rev_step_2_split _ _ (Cert.round ldr)) in Hch by done.
    apply chain_app in Hch as (l1 & l2 & Hl & Hc1 & Hc2).
    assert (k = l1) as ->; [|exact Hc1].
    assert (∀ z, z ∈ l1 → Cert.round ldr < Cert.round z) as Hl1.
    { intros z Hz. pose proof (chain_spec b s _ _ _ Hd Hc1) as HF. rewrite Forall_forall in HF.
      destruct (HF z Hz) as (_ & [? _]%elem_of_rev_step_2 & _). lia. }
    assert (in_dag (dag s) (default x (last l1))) as Hdl.
    { destruct (last l1) as [z|] eqn:E; [|done]. simpl. pose proof (chain_spec b s _ _ _ Hd Hc1) as HF.
      rewrite Forall_forall in HF. apply HF. apply last_Some in E as [? ->]. set_solver. }
    assert (∀ z, z ∈ l2 → Cert.round z <= Cert.round ldr) as Hl2.
    { intros z Hz. pose proof (chain_spec b s _ _ _ Hdl Hc2) as HF. rewrite Forall_forall in HF.
      destruct (HF z Hz) as (_ & [->|[? _]%elem_of_rev_step_2]%elem_of_cons & _); lia. }
    destruct l2 as [|z l2 _] using rev_ind.
    { rewrite app_nil_r in Hl. subst l1. specialize (Hl1 ldr ltac:(set_solver)). lia. }
    rewrite app_assoc in Hl. apply app_inj_tail in Hl as [-> ->].
    destruct l2 as [|w l2]; [by rewrite app_nil_r|exfalso].
    specialize (Hl2 w ltac:(set_solver)). destruct Hlok as [_ Hs].
    apply StronglySorted_inv in Hs as [_ HF]. rewrite Forall_forall in HF.
    specialize (HF w). simpl in HF. apply Zlt_not_le in HF; [done|].
    apply elem_of_app. left. apply list_elem_of_In, in_rev. rewrite rev_involutive.
    apply list_elem_of_In. set_solver. }
  assert (in_dag (dag s1) x) as Hd1.
  { apply (adv_dag _ _ _ _ _ _ Hadv). split; [done|]. lia. }
  split.
  - split; [done|by rewrite Hsch|done|lia|done|]. exists S. rewrite Hcc. split_and!; [done|done|].
    intros o Ho'. destruct (Hsup o Ho') as (z & Hz & Hzr & ? & ?). exists z. split_and!; try done.
    apply (adv_dag _ _ _ _ _ _ Hadv). split; [done|]. lia.
  - destruct (order_leaders_ok b1 s1 x Hok1 Hd1 He ltac:(lia) Ht) as (k2 & Hk2 & _ & Hch2).
    rewrite Hk2. simpl. do 2 f_equal. f_equal. rewrite Hsch, Hr1 in Hch2.
    eapply chain_unique; [exact Hch2|].
    eapply (chain_transfer (committee b) U HU s s1); try done.
    apply Forall_forall. intros r [? _]%elem_of_rev_step_2.
    pose proof (adv_gc _ _ _ _ _ _ Hadv). lia.
Qed.

(** The leaders come from an anchor. *)
Definition anchored (b : Bullshark) (s : ConsensusState) (ls : list Certificate) : Prop :=
  ls = [] ∨ ∃ x, anchor b s x ∧ BS.order_leaders b x s = Ret ls.

Lemma anchored_leaders b s x ls : sys_ok b s → anchor b s x → BS.order_leaders b x s = Ret ls →
  leaders_ok s ls ∧ Forall (λ y, Cert.round y mod 2 = 0) ls.
Proof.
  intros Hok [Hd _ He Ha Ht _] Ho.
  destruct (order_leaders_ok b s x Hok Hd He Ha Ht) as (k & Hk & Hlok & Hch).
  assert (ls = rev (x :: k)) as -> by congruence. split; [done|]. apply Forall_rev. constructor; [done|].
  eapply Forall_impl; [by eapply chain_spec|]. intros y (_ & [? ?]%elem_of_rev_step_2 & _). div_lia.
Qed.

(** The system stays in the universe, and its log is a possible one. *)
Definition logged (b0 : Bullshark) (s0 : ConsensusState) (H : list CommittedSubDag) (b : Bullshark)
    (s : ConsensusState) : Prop :=
  logs U b0 s0 H b s ∧ sys_in U b s ∧ history_ok s H.

Lemma logged_commit b0 s0 H b s x ldr rest b1 s1 d : logged b0 s0 H b s → anchor b s x →
  BS.order_leaders b x s = Ret (ldr :: rest) → advanced b s H b1 s1 [d] → leader d = ldr →
  commit_of b s ldr d b1 s1 → logged b0 s0 (H ++ [d]) b1 s1.
Proof.
  intros (Hl & Hs & Hh) Ha Ho Hadv Hd Hc. pose proof Hs as (Hok & Hi & _).
  destruct (anchored_leaders b s x _ Hok Ha Ho) as [_ [He _]%Forall_cons].
  split_and!; [|split_and!|apply Hadv].
  - eapply logs_snoc; [done|done|done|done|done|apply core_eq_refl].
  - apply Hadv.
  - intros y [Hy _]%(adv_dag _ _ _ _ _ _ Hadv). by apply Hi.
  - rewrite (adv_round _ _ _ _ _ _ Hadv). simpl. unfold SubDag.leader_round. by rewrite Hd.
Qed.

Lemma commit_loop_logged b0 s0 ls b s H o ds b' s' : universe_ok (committee b) U →
  logged b0 s0 H b s → anchored b s ls →
  BS.commit_loop ls b s = Ret (Ok (o, ds), (b', s')) → logged b0 s0 (H ++ ds) b' s'.
Proof.
  revert b s H o ds. induction ls as [|ldr rest IH]; intros b s H o ds HU Hlog Hanc Hrun.
  { injection Hrun as <- <- <- <-. by rewrite app_nil_r. }
  destruct Hanc as [?|(x & Ha & Ho)]; [done|]. pose proof Hlog as (Hl & Hs & Hh). pose proof Hs as (Hok & Hi & _).
  destruct (anchored_leaders b s x _ Hok Ha Ho) as [[[[Hin Hab] _]%Forall_cons _] _].
  destruct (commit_loop_cons ldr rest b s H Hok Hh Hin Hab)
    as [[bs Hbs]|(b1 & s1 & d & Hadv & Hd & Hc & Hsch & Hloop)]; [congruence|].
  pose proof (logged_commit b0 s0 H b s x ldr rest b1 s1 d Hlog Ha Ho Hadv Hd Hc) as Hlog1.
  rewrite Hloop in Hrun. destruct (final_of_schedule (reputation_score d) && negb (bool_decide (rest = []))) eqn:Hf.
  { by injection Hrun as _ <- <- <-. }
  destruct (BS.commit_loop rest b1 s1) as [[[[o1 ds1]|e] [b2 s2]]| |] eqn:E; simpl in Hrun; try done.
  injection Hrun as <- <- <- <-. rewrite (cons_middle d H ds1), app_assoc.
  eapply IH; [|done| |exact E]; [by rewrite (adv_committee _ _ _ _ _ _ Hadv)|].
  destruct rest as [|y rest]; [by left|right]. exists x.
  apply andb_false_iff in Hf as [Hf|Hf]; [|by rewrite bool_decide_eq_false_2 in Hf].
  eapply anchor_next; try done; [by apply Hsch|]. apply Hlog1.
Qed.

Lemma commit_leader_logged b0 s0 leader_round b s H y o ds b' s' : universe_ok (committee b) U →
  logged b0 s0 H b s → leader_round mod 2 = 0 → 2 <= leader_round →
  committed_round (last_round s) < leader_round → in_dag (dag s) y → Cert.round y = leader_round + 1 →
  BS.commit_leader leader_round b s = Ret (Ok (o, ds), (b', s')) → logged b0 s0 (H ++ ds) b' s'.
Proof.
  intros HU Hlog He H2 Ha Hy Hyr Hrun. pose proof Hlog as (_ & (Hok & _) & _).
  pose proof (so_state b s Hok) as Hwf. destruct (so_config b s Hok) as [Hc _ _ _ _ _ Hsch].
  destruct (leader_certificate_spec (leader_schedule b) _ (dag s) leader_round Hc Hsch (swf_dag s Hwf) He)
    as (a & ol & Hlc & _ & Hiff).
  unfold BS.commit_leader in Hrun. rewrite Hlc in Hrun. cbn [mbind outcome_bind] in Hrun.
  destruct ol as [ldr|]; [|injection Hrun as <- <- <- <-; by rewrite app_nil_r].
  destruct (proj1 (Hiff ldr) eq_refl) as (Hl & Hlr & Hlead).
  pose proof (in_dag_round _ _ (swf_dag s Hwf) Hy) as Hu.
  assert (wadd leader_round 1 = Cert.round ldr + 1) as Hw.
  { unfold wadd, is_u64 in *. rewrite Z.mod_small; lia. }
  destruct Hy as (tbl & Ht & _). rewrite Hyr, <-Hlr in Ht.
  rewrite Hw, Ht in Hrun. cbn [unwrap mbind outcome_bind] in Hrun.
  destruct (Z.ltb_spec (BS.support (committee b) ldr tbl) (validity_threshold (committee b))) as [|Hv];
    [injection Hrun as <- <- <- <-; by rewrite app_nil_r|].
  destruct (BS.order_leaders b ldr s) as [ls| |] eqn:Ho; cbn [mbind outcome_bind] in Hrun; try done.
  eapply commit_loop_logged; [done|done| |exact Hrun]. right. exists ldr. split; [|done].
  split; [done|done|by rewrite Hlr|lia|lia|]. eapply support_supported; [done|done|apply Hok|done|done].
Qed.

Lemma commit_retry_logged b0 s0 fuel leader_round b s H y o ds b' s' : universe_ok (committee b) U →
  logged b0 s0 H b s → leader_round mod 2 = 0 → 2 <= leader_round →
  committed_round (last_round s) < leader_round → in_dag (dag s) y → Cert.round y = leader_round + 1 →
  BS.commit_retry fuel leader_round b s = Ret (Ok (o, ds), (b', s')) → logged b0 s0 (H ++ ds) b' s'.
Proof.
  revert b s H o ds. induction fuel as [|fuel IH]; intros b s H o ds HU Hlog He H2 Ha Hy Hyr Hrun; [done|].
  cbn [BS.commit_retry] in Hrun. pose proof Hlog as (_ & (Hok & _) & Hh).
  destruct (commit_leader_spec leader_round b s H y Hok Hh He H2 Ha Hy Hyr)
    as [[[b1 s1] Hcl]|(o1 & ds1 & b1 & s1 & Hcl & Hadv & Hres)];
    rewrite Hcl in Hrun; cbn [mbind outcome_bind] in Hrun; [done|].
  pose proof (commit_leader_logged b0 s0 leader_round b s H y o1 ds1 b1 s1 HU Hlog He H2 Ha Hy Hyr Hcl) as Hlog1.
  destruct (decide (o1 = ScheduleChanged)) as [->|Hne]; [|by injection Hrun as <- <- <- <-].
  destruct (BS.commit_retry fuel leader_round b1 s1) as [[[[o2 ds2]|e] [b2 s2]]| |] eqn:E;
    simpl in Hrun; try done.
  injection Hrun as <- <- <- <-. rewrite app_assoc. destruct Hres as (_ & _ & Hlt).
  eapply IH; [|done|done|done|done| |exact Hyr|exact E]; [by rewrite (adv_committee _ _ _ _ _ _ Hadv)|].
  apply (adv_dag _ _ _ _ _ _ Hadv). split; [done|].
  pose proof (gc_le_committed s1 (so_state _ _ (adv_sys _ _ _ _ _ _ Hadv))). lia.
Qed.

Lemma process_certificate_logged b0 s0 b s H x o ds b' s' : universe_ok (committee b) U →
  logged b0 s0 H b s → cert_ok b s x → U x →
  BS.process_certificate b s x = Ret (Ok (o, ds), (b', s')) → logged b0 s0 (H ++ ds) b' s'.
Proof.
  intros HU (Hl & (Hok & Hi & Hev) & Hh) Hx HUx Hrun.
  destruct (insert_ok b s x Hok Hx) as (i & s1 & Hti & Hok1 & Hh1 & _ & Hlr & Hlc & Hin & Htrue).
  assert (core_eq b s b s1) as Hcore.
  { destruct (try_insert_wf s x i s1 (so_state _ _ Hok) (cok_round _ _ _ Hx))
      as (_ & _ & ? & _ & ? & _); [|done|by split].
    intros y Hy Hd. apply (cok_collision _ _ _ Hx); auto. }
  assert (∀ b1, config_ok b1 → core_eq b s1 b1 s1 → logged b0 s0 H b1 s1) as Hlog.
  { intros b1 Hb1 He1. split_and!; [|split_and!|by apply Hh1].
    - eapply logs_core; [done|]. by eapply core_eq_trans.
    - apply (sys_ok_config b); [done|done|]. symmetry. apply He1.
    - intros y [Hy|[-> _]]%Hin; [by apply Hi|done].
    - by rewrite Hlr. }
  unfold BS.process_certificate in Hrun. rewrite Hti in Hrun. cbn [mbind outcome_bind] in Hrun.
  destruct i.
  2:{ injection Hrun as <- <- <- <-. rewrite app_nil_r. apply Hlog; [apply Hok|apply core_eq_refl]. }
  rewrite report_spec in Hrun by apply Hok. cbn [mbind outcome_bind] in Hrun.
  destruct (Htrue eq_refl) as [Hxin Hpos]. pose proof (cok_round _ _ _ Hx) as Hu.
  set (b1 := BS.with_max_round b _) in *.
  assert (logged b0 s0 H b1 s1) as Hlog1.
  { apply Hlog; [|by split]. destruct (so_config b s Hok). by split. }
  assert (wsub (Cert.round x) 1 = Cert.round x - 1) as Hw.
  { unfold wsub, is_u64 in *. apply Z.mod_small. lia. }
  rewrite Hw in Hrun. destruct (negb _ || _) eqn:E1.
  { injection Hrun as <- <- <- <-. by rewrite app_nil_r. }
  apply orb_false_iff in E1 as [E1 E2]. apply negb_false_iff in E1.
  destruct (Z.leb_spec (Cert.round x - 1) (committed_round (last_round s1))).
  { injection Hrun as <- <- <- <-. by rewrite app_nil_r. }
  destruct (BS.commit_retry _ _ _ _) as [[[[o1 ds1]|e] [b2 s2]]| |] eqn:E;
    cbn [mbind outcome_bind] in Hrun; try done.
  assert (logged b0 s0 (H ++ ds1) b2 s2) as Hres.
  { eapply (commit_retry_logged b0 s0 _ (Cert.round x - 1) b1 s1 H x); [done|done|lia|lia|lia|done|lia|exact E]. }
  by destruct ds1; injection Hrun as <- <- <- <-.
Qed.

Lemma run_inner_logged b0 s0 t before received H events t' : universe_ok (c_committee t) U →
  task_ok t before H → logged b0 s0 H (protocol t) (state t) →
  (∀ x, x ∈ received → Cert.epoch x = epoch (c_committee t) → U x) →
  input_ok (c_committee t) (before ++ filter (λ x, Cert.epoch x = epoch (c_committee t)) received) →
  Task.run_inner t received = Ret (Ok events, t') →
  logged b0 s0 (H ++ sequenced events) (protocol t') (state t').
Proof.
  revert t before H events. induction received as [|x received IH];
    intros t before H events HU Ht Hlog HUx Hi Hrun.
  { injection Hrun as <- <-. by rewrite app_nil_r. }
  rewrite filter_cons in Hi. cbn [Task.run_inner] in Hrun.
  destruct (decide (Cert.epoch x = epoch (c_committee t))) as [He|He].
  - destruct (on_certificate_spec t before x _ H Ht He Hi) as [[t1 Ho]|(ev & t1 & Ho & Ht1 & Hc)];
      rewrite Ho in Hrun; cbn [mbind outcome_bind] in Hrun; [done|].
    destruct (Task.run_inner t1 received) as [[[ev2|e] t2]| |] eqn:E; simpl in Hrun; try done.
    injection Hrun as <- <-. rewrite sequenced_app, app_assoc.
    rewrite (cons_middle x _ (filter _ _)), app_assoc, <-Hc in Hi.
    eapply (IH t1 (before ++ [x])); [by rewrite Hc|done| | |done|done].
    + unfold Task.on_certificate in Ho. rewrite He, Z.eqb_refl in Ho. cbn [negb] in Ho.
      destruct Ht as [Hsys Hh Hrec _ _ Hcp]. rewrite Hcp in *. rewrite <-app_assoc in Hi. rewrite Hc in Hi.
      pose proof (input_cert_ok _ _ _ _ _ Hsys Hrec Hi) as Hx.
      destruct (process_certificate_spec (protocol t) (state t) H x Hsys Hh Hx)
        as [[[b s] Hp]|(o & ds & b & s & Hp & Hpr)]; rewrite Hp in Ho; cbn [mbind outcome_bind] in Ho; [done|].
      assert (logged b0 s0 (H ++ ds) b s) as Hl.
      { eapply process_certificate_logged; [done|done|done| |done]. apply HUx; [left|done]. }
      destruct (ds ≫= certificates) eqn:Hcat.
      * injection Ho as <- <-. by rewrite sequenced_sequence.
      * destruct (assert_ _) as [[]| |]; simpl in Ho; try done. injection Ho as <- <-.
        rewrite sequenced_app, sequenced_sequence. simpl. by rewrite app_nil_r.
    + intros y Hy. rewrite Hc. apply HUx. by right.
  - unfold Task.on_certificate in Hrun. replace (Cert.epoch x =? epoch (c_committee t)) with false in Hrun by lia.
    cbn [negb mbind outcome_bind] in Hrun.
    destruct (Task.run_inner t received) as [[[ev2|e] t2]| |] eqn:E; simpl in Hrun; try done.
    injection Hrun as <- <-. eapply (IH t before); try done. intros y Hy. apply HUx. by right.
Qed.
End produce.

(** * Properties *)

Lemma genesis_logged {R : SeededRng} {L : SeededRngLaws R} U c thr n gc : params_ok c thr n gc →
  let t := genesis c thr n gc in logged U (protocol t) (state t) [] (protocol t) (state t).
Proof.
  intros Hp t. pose proof (genesis_ok c thr n gc Hp) as [Hsys Hh _ _ _ _].
  split_and!; [apply logs_nil, core_eq_refl|split_and!; [done| |done]|done].
  intros x (tbl & Ht & _). simpl in Ht. by rewrite lookup_empty in Ht.
Qed.

(** The universe of the example. *)
Definition example_universe (x : Certificate) : Prop := x ∈ example_certs 5.

Lemma example_universe_ok : universe_ok five_committee example_universe.
Proof.
  split.
  - intros x y Hx Hy Hr Ho. assert (NoDup ((λ x, (Cert.round x, Cert.origin x)) <$> example_certs 5)) as Hnd
      by (apply (bool_decide_unpack _); vm_compute; exact I).
    apply list_elem_of_lookup in Hx as [i Hi], Hy as [j Hj]. assert (i = j) as ->; [|congruence].
    eapply (NoDup_lookup _ i j (Cert.round x, Cert.origin x) Hnd); rewrite list_lookup_fmap;
      [by rewrite Hi|rewrite Hj; simpl; congruence].
  - apply no_collision_list, (bool_decide_unpack _). vm_compute. exact I.
  - intros x Hx Hr. exists {[0; 1; 2; 3]}.
    split_and!; [apply (bool_decide_unpack _); vm_compute; exact I|vm_compute; discriminate|].
    assert (Forall (λ x, 1 < Cert.round x → set_Forall (λ o, Exists (λ p,
      Cert.round p = Cert.round x - 1 ∧ Cert.origin p = o ∧ Cert.digest p ∈ Cert.parents x)
      (example_certs 5)) ({[0; 1; 2; 3]} : gset Z)) (example_certs 5)) as HF
      by (apply (bool_decide_unpack _); vm_compute; exact I).
    rewrite Forall_forall in HF. intros o Ho.
    apply (HF x Hx Hr), Exists_exists in Ho as (p & Hp & ? & ? & ?). exists p. by split_and!.
Qed.

(** C1: agreement.  Two nodes of an epoch start alike, with a committee and parameters as in
    [params_ok] (no member holds more than the bad nodes' share of the stake), and receive
    certificates of one universe without equivocation, each in an order of its own (parents
    first) and as many as reach it; their databases may fail differently.  Then the sub-dags that one has sent to execution are a prefix
    of those that the other has sent. *)
Theorem agreement {R : SeededRng} {L : SeededRngLaws R} (DB1 DB2 : Database) c thr n gc U
    received1 received2 events1 events2 t1 t2 :
  params_ok c thr n gc → universe_ok c U →
  (∀ x, x ∈ received1 ∨ x ∈ received2 → Cert.epoch x = epoch c → U x) →
  input_ok c (filter (λ x, Cert.epoch x = epoch c) received1) →
  input_ok c (filter (λ x, Cert.epoch x = epoch c) received2) →
  Task.run_inner (H0 := DB1) (genesis c thr n gc) received1 = Ret (Ok events1, t1) →
  Task.run_inner (H0 := DB2) (genesis c thr n gc) received2 = Ret (Ok events2, t2) →
  sequenced events1 `prefix_of` sequenced events2 ∨ sequenced events2 `prefix_of` sequenced events1.
Proof.
  intros Hp HU HUx Hi1 Hi2 Hr1 Hr2. pose proof (genesis_ok c thr n gc Hp) as Ht.
  pose proof (genesis_logged U c thr n gc Hp) as Hl.
  destruct (run_inner_logged (DB := DB1) U _ _ (genesis c thr n gc) [] received1 [] events1 t1
    HU Ht Hl ltac:(intros; apply HUx; auto) Hi1 Hr1) as (Hl1 & _).
  destruct (run_inner_logged (DB := DB2) U _ _ (genesis c thr n gc) [] received2 [] events2 t2
    HU Ht Hl ltac:(intros; apply HUx; auto) Hi2 Hr2) as (Hl2 & _).
  eapply logs_comparable; [|exact Hl1|exact Hl2]. exact HU.
Qed.

Lemma agreement_witness : ∃ events1 events2 t1 t2,
  Task.run_inner (H0 := reliable_db) example_task (example_certs 3) = Ret (Ok events1, t1) ∧
  Task.run_inner (H0 := reliable_db) example_task (example_certs 5) = Ret (Ok events2, t2) ∧
  (sequenced events1 `prefix_of` sequenced events2 ∨ sequenced events2 `prefix_of` sequenced events1).
Proof.
  destruct (Task.run_inner (H0 := reliable_db) example_task (example_certs 3))
    as [[[events1|e] t1]| |] eqn:E1.
  2-4: assert (fmap (M := outcome) (λ p, match p.1 with Ok _ => true | Err _ => false end)
      (Task.run_inner (H0 := reliable_db) example_task (example_certs 3)) = Ret true) as Hv
      by (vm_compute; reflexivity); rewrite E1 in Hv; discriminate Hv.
  destruct (Task.run_inner (H0 := reliable_db) example_task (example_certs 5))
    as [[[events2|e] t2]| |] eqn:E2.
  2-4: assert (fmap (M := outcome) (λ p, match p.1 with Ok _ => true | Err _ => false end)
      (Task.run_inner (H0 := reliable_db) example_task (example_certs 5)) = Ret true) as Hv
      by (vm_compute; reflexivity); rewrite E2 in Hv; discriminate Hv.
  exists events1, events2, t1, t2. split; [reflexivity|]. split; [reflexivity|].
  apply (agreement reliable_db reliable_db five_committee 20 10 50 example_universe
    (example_certs 3) (example_certs 5) events1 events2 t1 t2).
  - exact five_params.
  - exact example_universe_ok.
  - intros x [Hx|Hx] _; [|exact Hx]. unfold example_universe.
    revert x Hx. apply Forall_forall, (bool_decide_unpack _). vm_compute. exact I.
  - replace (filter _ _) with (example_certs 3) by (vm_compute; reflexivity). split.
    + apply (bool_decide_unpack _). vm_compute. exact I.
    + apply no_collision_list, (bool_decide_unpack _). vm_compute. exact I.
    + exists true. apply (bool_decide_unpack _). vm_compute. exact I.
    + apply (bool_decide_unpack _). vm_compute. exact I.
  - replace (filter _ _) with (example_certs 5) by (vm_compute; reflexivity). exact example_input.
  - exact E1.
  - exact E2.
Defined.

(** C31: a leader that members with [f + 1] stake refer to in one node's DAG is reached by a
    path from every certificate two or more rounds above it in any other node's DAG,
    down to that node's garbage-collection round: such a leader cannot be skipped. *)
Theorem supported_leader_reached c U s1 s2 ldr tbl x : committee_wf c → universe_ok c U →
  state_wf s1 → state_wf s2 → dag_in U s1 → dag_in U s2 → dag_ok c (dag s1) →
  in_dag (dag s1) ldr → 0 < Cert.round ldr →
  dag s1 !! (Cert.round ldr + 1) = Some tbl → validity_threshold c <= BS.support c ldr tbl →
  in_dag (dag s2) x → Cert.round ldr + 2 <= Cert.round x →
  gc_round (last_round s2) < Cert.round ldr → path (dag s2) x ldr.
Proof.
  intros Hc HU Hwf1 Hwf2 Hi1 Hi2 Hok Hl Hpos Ht Hv Hx Hr Hg.
  eapply (supported_reached c U Hc HU s1 s2); try done. by eapply support_supported.
Qed.

Lemma supported_leader_reached_witness :
  path (dag (example_state 4)) (example_cert 4 2) (example_cert 2 0).
Proof.
  destruct (example_state_spec 4) as [Hwf4 Hin4]; [vm_compute; reflexivity..|].
  destruct example_3 as [Hwf3 Hin3].
  destruct (dag (example_state 3) !! (Cert.round (example_cert 2 0) + 1)) as [tbl|] eqn:Ht.
  2:{ exfalso. vm_compute in Ht. discriminate Ht. }
  apply (supported_leader_reached five_committee example_universe (example_state 3) (example_state 4)
    (example_cert 2 0) tbl (example_cert 4 2)); [apply five_params|exact example_universe_ok|exact Hwf3|exact Hwf4|..].
  - intros y Hy%Hin3. revert y Hy. apply Forall_forall, (bool_decide_unpack _). vm_compute. exact I.
  - intros y Hy%Hin4. revert y Hy. apply Forall_forall, (bool_decide_unpack _). vm_compute. exact I.
  - apply example_sys.
  - apply elem_example_3. vm_compute. reflexivity.
  - vm_compute. reflexivity.
  - exact Ht.
  - assert (match dag (example_state 3) !! (Cert.round (example_cert 2 0) + 1) with
      | Some tbl => validity_threshold five_committee <=? BS.support five_committee (example_cert 2 0) tbl
      | None => false end = true) as Hv by (vm_compute; reflexivity).
    rewrite Ht in Hv. by apply Z.leb_le.
  - apply Hin4, (bool_decide_unpack _). vm_compute. exact I.
  - vm_compute. discriminate.
  - vm_compute. reflexivity.
Defined.
