(* ===== verification/Aggregators.v ===== *)
(** * Certificates from votes ([narwhal/primary/src/aggregators.rs],
    [narwhal/types/src/primary.rs])

    The construction of a certificate from votes ([new_unsafe] of both versions), the
    stake and keys behind it ([signed_by]), [VotesAggregator], which turns votes for a
    header into a certificate, and [CertificatesAggregator], which collects
    certificates of a round until they are a quorum.

    BLS signatures are [fastcrypto]'s and [crypto]'s: the class [NarwhalCrypto] gives
    the operations used, and no theorem assumes anything of them. *)
From S2P Require Import Prelude NarwhalConfig NarwhalTypes.

Abbreviation Signature := Z (only parsing).

Class NarwhalCrypto := {
  (** [AggregateSignature::default], [aggregate] and [try_from] of its bytes. *)
  default_aggregate : Z;
  aggregate : list Signature → option Z;
  parse_aggregate : Z → bool;
  (** [verify_secure] of an aggregate for the keys, and of a single signature. *)
  verify_aggregate : Z → Z → list PublicKey → bool;
  verify_signature : Signature → Z → PublicKey → bool;
}.

(** The errors of [DagError] that arise here. *)
Inductive DagError :=
  | AuthorityReuse (authority : AuthorityIdentifier)
  | InvalidBitmap
  | UnknownAuthority (authority : AuthorityIdentifier)
  | CertificateRequiresQuorum
  | InvalidSignature.

Record Vote := mkVote {
  v_author : AuthorityIdentifier;
  v_signature : Signature;
}.

Module CertNew.
(** The [while] loop that removes repeats of the vote just taken. *)
Fixpoint drop_repeats (v : Z * Signature) (votes : list (Z * Signature)) : list (Z * Signature) :=
  match votes with
  | w :: votes' => if decide (w = v) then drop_repeats v votes' else votes
  | [] => []
  end.

(** What the [filter] over the enumerated authorities leaves: the votes not taken, the
    weight, the signatures taken and the indices. *)
Fixpoint filter_votes (auths : list Authority) (index : Z) (votes : list (Z * Signature))
    (weight : Stake) (sigs : list (Z * Signature)) (indices : list Z) :
    outcome (list (Z * Signature) * Stake * list (Z * Signature) * list Z) :=
  match auths with
  | [] => Ret (votes, weight, sigs, indices)
  | authority :: auths =>
      match votes with
      | [] => filter_votes auths (index + 1) votes weight sigs indices
      | v :: rest =>
          i ← Auth.id authority;
          if i =? v.1 then
            s ← Auth.stake authority;
            filter_votes auths (index + 1) (drop_repeats v rest) (wadd weight s) (sigs ++ [v])
              (indices ++ [index])
          else filter_votes auths (index + 1) votes weight sigs indices
      end
  end.

(** [RoaringBitmap::from_sorted_iter]. *)
Fixpoint strictly_increasing (l : list Z) : bool :=
  match l with
  | x :: (y :: _) as l' => (x <? y) && strictly_increasing l'
  | _ => true
  end.

(** [now] is the time of the call, which [Metadata::default] reads from the clock. *)
Definition new_unsafe `{NarwhalCrypto} (now : TimestampMs) (v2 : bool) (c : Committee) (header : Header)
    (votes : list (Z * Signature)) (check_stake : bool) : outcome (result DagError Certificate) :=
  '(rest, weight, sigs, indices) ←
     filter_votes (Comm.authorities_iter c) 0 (sort_by_key fst votes) 0 [] [];
  if negb (strictly_increasing indices) then Ret (Err InvalidBitmap)
  else
    match rest with
    | v :: _ => Ret (Err (UnknownAuthority v.1))
    | [] =>
        if check_stake && (weight <? quorum_threshold c) then Ret (Err CertificateRequiresQuorum)
        else
          match (match sigs with [] => Some default_aggregate | _ => aggregate sigs.*2 end) with
          | None => Ret (Err InvalidSignature)
          | Some bytes =>
              Ret (Ok (if v2 then
                         CV2 (mkCertificateV2 header (if check_stake then Unverified bytes else Unsigned bytes)
                                (list_to_set indices) now)
                       else CV1 (mkCertificateV1 header bytes (list_to_set indices) now)))
          end
    end.

Definition new_unverified `{NarwhalCrypto} (now : TimestampMs) (v2 : bool) (c : Committee) (header : Header)
    (votes : list (Z * Signature)) := new_unsafe now v2 c header votes true.
Definition new_unsigned `{NarwhalCrypto} (now : TimestampMs) (v2 : bool) (c : Committee) (header : Header)
    (votes : list (Z * Signature)) := new_unsafe now v2 c header votes false.

(** The [filter] of [signed_by]; [indexes] are the bitmap's members not passed yet. *)
Fixpoint signed_loop (auths : list Authority) (i : Z) (indexes : list Z) (weight : Stake)
    (pks : list PublicKey) : outcome (Stake * list PublicKey) :=
  match auths with
  | [] => Ret (weight, pks)
  | authority :: auths =>
      match indexes with
      | index :: indexes' =>
          if index =? i then
            s ← Auth.stake authority;
            pk ← Auth.protocol_key authority;
            signed_loop auths (i + 1) indexes' (wadd weight s) (pks ++ [pk])
          else signed_loop auths (i + 1) indexes weight pks
      | [] => signed_loop auths (i + 1) indexes weight pks
      end
  end.

Definition signed_by (cert : Certificate) (c : Committee) : outcome (Stake * list PublicKey) :=
  signed_loop (Comm.authorities_iter c) 0 (btree_set_iter (Cert.signed_authorities cert)) 0 [].

Definition set_signature_verification_state (cert : Certificate) (st : SignatureVerificationState) :
    outcome Certificate :=
  match cert with
  | CV2 c => Ret (CV2 (mkCertificateV2 (c2_header c) st (c2_signed_authorities c) (c2_created_at c)))
  | CV1 _ => Panic
  end.
End CertNew.

Record VotesAggregator := mkVotes {
  narwhal_certificate_v2 : bool;
  weight : Stake;
  votes : list (Z * Signature);
  used : gset Z;
}.

Module Votes.
Definition new (v2 : bool) : VotesAggregator := mkVotes v2 0 [] ∅.

(** [self.votes.retain(..)], which takes the weight of a removed vote away. *)
Fixpoint retain `{NarwhalCrypto} (c : Committee) (digest : Z) (l : list (Z * Signature)) (w : Stake) :
    outcome (list (Z * Signature) * Stake) :=
  match l with
  | [] => Ret ([], w)
  | (id, sig) :: l =>
      a ← Comm.authority_safe c id;
      pk ← Auth.protocol_key a;
      if verify_signature sig digest pk then
        '(l', w) ← retain c digest l w; Ret ((id, sig) :: l', w)
      else retain c digest l (wsub w (Comm.stake c pk))
  end.

Definition append `{NarwhalCrypto} (now : TimestampMs) (vote : Vote) (c : Committee) (header : Header) :
    ST VotesAggregator DagError (option Certificate) := λ a,
  let author := v_author vote in
  if bool_decide (author ∈ used a) then Ret (Err (AuthorityReuse author), a)
  else
    let a := mkVotes (narwhal_certificate_v2 a) (wadd (weight a) (Comm.stake_by_id c author))
               (votes a ++ [(author, v_signature vote)]) ({[author]} ∪ used a) in
    if quorum_threshold c <=? weight a then
      r ← CertNew.new_unverified now (narwhal_certificate_v2 a) c header (votes a);
      match r with
      | Err e => Ret (Err e, a)
      | Ok cert =>
          '(_, pks) ← CertNew.signed_by cert c;
          match Cert.aggregated_signature cert with
          | None => Ret (Err InvalidSignature, a)
          | Some bytes =>
              if negb (parse_aggregate bytes) then Ret (Err InvalidSignature, a)
              else if verify_aggregate bytes (Cert.digest cert) pks then
                cert ← (if narwhal_certificate_v2 a
                        then CertNew.set_signature_verification_state cert (VerifiedDirectly bytes)
                        else Ret cert);
                Ret (Ok (Some cert), a)
              else
                '(kept, w) ← retain c (Cert.digest cert) (votes a) (weight a);
                Ret (Ok None, mkVotes (narwhal_certificate_v2 a) w kept (used a))
          end
      end
    else Ret (Ok None, a).
End Votes.

Record CertificatesAggregator := mkCerts {
  ca_weight : Stake;
  ca_certificates : list Certificate;
  ca_used : gset Z;
}.

Module Certs.
Definition new : CertificatesAggregator := mkCerts 0 [] ∅.

Definition append (certificate : Certificate) (c : Committee) (a : CertificatesAggregator) :
    option (list Certificate) * CertificatesAggregator :=
  let origin := Cert.origin certificate in
  if bool_decide (origin ∈ ca_used a) then (None, a)
  else
    let certs := ca_certificates a ++ [certificate] in
    let w := wadd (ca_weight a) (Comm.stake_by_id c origin) in
    let u := {[origin]} ∪ ca_used a in
    if quorum_threshold c <=? w then (Some certs, mkCerts w [] u) else (None, mkCerts w certs u).
End Certs.

(** * Facts *)

(** Committees as the builder makes them: authorities are numbered in the order of
    their keys and stored under their own key. *)
Record signing_ok (c : Committee) : Prop := {
  sg_wf : committee_wf c;
  sg_ids : auth_id <$> Comm.authorities_iter c = seqZ 0 (Z.of_nat (Comm.size c));
  sg_keys k a : authorities c !! k = Some a → auth_protocol_key a = k;
}.

Lemma new_signing_ok m e c : table_ok m → (∀ k a, m !! k = Some a → auth_protocol_key a = k) →
  Comm.new m e = Ret c → signing_ok c.
Proof.
  intros Hok Hkeys Hnew. destruct (new_spec m e Hok) as (c' & Hc' & Hwf & _ & Ha).
  assert (c' = c) as -> by congruence. split; [done| |].
  - unfold Comm.authorities_iter, Comm.size, btree_values. rewrite Ha, <-length_btree_iter.
    rewrite btree_iter_collect by apply initialised_sorted. apply list_eq. intros i.
    unfold Comm.initialised_authorities. rewrite !list_lookup_fmap, list_lookup_imap, length_imap.
    destruct (btree_iter m !! i) as [[k a]|] eqn:E; simpl.
    + pose proof (lookup_lt_Some _ _ _ E) as Hlt. rewrite lookup_seqZ_lt by lia. f_equal.
      pose proof (tok_size m Hok). rewrite length_btree_iter in Hlt. rewrite Z.mod_small by lia. lia.
    + apply lookup_ge_None in E. rewrite lookup_seqZ_ge by lia. done.
  - intros k a. rewrite Ha, collect_initialised. intros (i & a0 & Hi & ->). simpl.
    apply Hkeys. apply elem_of_btree_iter. by eapply list_elem_of_lookup_2.
Qed.

(** The key of a member. *)
Definition key_of (c : Committee) (i : AuthorityIdentifier) : PublicKey :=
  match Comm.authority c i with Some a => auth_protocol_key a | None => 0 end.

Lemma authorities_iter_facts c a : committee_wf c → a ∈ Comm.authorities_iter c →
  auth_initialised a = true ∧ Comm.stake_by_id c (auth_id a) = auth_stake a ∧
  key_of c (auth_id a) = auth_protocol_key a ∧ 0 <= auth_stake a.
Proof.
  intros Hwf [k Hk]%elem_of_btree_values. pose proof (wf_by_key c Hwf k a Hk) as Hid.
  unfold Comm.stake_by_id, key_of, Comm.authority. rewrite Hid. split_and!; try done.
  - by eapply wf_init.
  - by eapply (tok_nonneg _ (wf_table c Hwf)).
Qed.

Lemma NoDup_fst_filter {A B} (P : A * B → Prop) `{!∀ p, Decision (P p)} (l : list (A * B)) :
  NoDup l.*1 → NoDup (filter P l).*1.
Proof.
  induction l as [|p l IH]; intros Hnd; [done|]. apply NoDup_cons in Hnd as [Hp Hnd].
  rewrite filter_cons. case_decide; [|auto]. constructor; [|auto].
  intros (q & Hq & [_ Hin]%list_elem_of_filter)%list_elem_of_fmap. apply Hp. rewrite Hq.
  by apply (list_elem_of_fmap_2 fst).
Qed.

Lemma drop_repeats_id v rest : (∀ w, w ∈ rest → v.1 < w.1) → CertNew.drop_repeats v rest = rest.
Proof.
  destruct rest as [|w rest]; [done|]. intros Hlt. simpl. rewrite decide_False; [done|].
  intros ->. specialize (Hlt v ltac:(left)). lia.
Qed.

Section loops.
Context (c : Committee) (auths : list Authority).
Hypothesis Hfacts : ∀ a, a ∈ auths → auth_initialised a = true ∧
  Comm.stake_by_id c (auth_id a) = auth_stake a ∧ key_of c (auth_id a) = auth_protocol_key a ∧
  0 <= auth_stake a.

Lemma filter_votes_spec k votes w sigs idx : auth_id <$> auths = seqZ k (Z.of_nat (length auths)) →
  StronglySorted key_lt votes → (∀ v, v ∈ votes → k <= v.1 < k + Z.of_nat (length auths)) →
  (∀ i, 0 <= Comm.stake_by_id c i) → 0 <= w → w + wsum (Comm.stake_by_id c) votes.*1 < U64_MOD →
  CertNew.filter_votes auths k votes w sigs idx =
    Ret ([], w + wsum (Comm.stake_by_id c) votes.*1, sigs ++ votes, idx ++ votes.*1).
Proof.
  intros Hids Hs Hrange Hnn. revert k votes w sigs idx Hids Hs Hrange.
  induction auths as [|a l IH]; intros k votes w sigs idx Hids Hs Hrange Hw Hfit.
  - destruct votes as [|v votes]; [|specialize (Hrange v ltac:(left)); simpl in Hrange; lia].
    simpl. rewrite !app_nil_r. unfold wsum. simpl. by rewrite Z.add_0_r.
  - destruct (Hfacts a ltac:(left)) as (Hinit & Hst & _ & _).
    assert (auth_id a = k ∧ auth_id <$> l = seqZ (k + 1) (Z.of_nat (length l))) as [Ha Hl].
    { cbn [length] in Hids. rewrite Nat2Z.inj_succ, seqZ_cons, Z.pred_succ in Hids by lia.
      rewrite fmap_cons in Hids. injection Hids as ? ?. split; [done|]. by rewrite Z.add_1_r. }
    cbn [length] in Hrange. destruct votes as [|v votes]; simpl.
    + rewrite (IH ltac:(intros; apply Hfacts; by right)); [done|done|constructor|set_solver|done|done].
    + unfold Auth.id, Auth.stake. rewrite Hinit. simpl. apply StronglySorted_inv in Hs as [Hs HF].
      rewrite Forall_forall in HF. unfold key_lt in HF.
      assert (∀ x, x ∈ votes → k + 1 <= x.1 < k + 1 + Z.of_nat (length l)) as Hr'.
      { intros x Hx. specialize (HF x Hx). pose proof (Hrange x ltac:(by right)).
        pose proof (Hrange v ltac:(left)). lia. }
      pose proof (Hrange v ltac:(left)) as Hv. rewrite Ha.
      destruct (Z.eqb_spec k v.1) as [Heq|Hne].
      * rewrite fmap_cons, wsum_cons in *. rewrite drop_repeats_id by done.
        assert (auth_stake a = Comm.stake_by_id c v.1) as Hav by (rewrite <-Hst; congruence).
        pose proof (wsum_nonneg _ Hnn votes.*1). pose proof (Hnn v.1).
        assert (wadd w (auth_stake a) = w + Comm.stake_by_id c v.1) as ->.
        { unfold wadd. rewrite Hav. apply Z.mod_small. lia. }
        rewrite (IH ltac:(intros; apply Hfacts; by right)); [|done|done|done|lia|lia].
        by rewrite <-!app_assoc, Z.add_assoc, Heq.
      * rewrite (IH ltac:(intros; apply Hfacts; by right)); [done|done|constructor; [done|by apply Forall_forall]| |done|done].
        { intros x [->|Hx]%elem_of_cons; [lia|by apply Hr']. }
Qed.

Lemma signed_loop_spec k indexes w pks : auth_id <$> auths = seqZ k (Z.of_nat (length auths)) →
  StronglySorted Z.lt indexes → (∀ i, i ∈ indexes → k <= i < k + Z.of_nat (length auths)) →
  (∀ i, 0 <= Comm.stake_by_id c i) → 0 <= w → w + wsum (Comm.stake_by_id c) indexes < U64_MOD →
  CertNew.signed_loop auths k indexes w pks =
    Ret (w + wsum (Comm.stake_by_id c) indexes, pks ++ (key_of c <$> indexes)).
Proof.
  intros Hids Hs Hrange Hnn. revert k indexes w pks Hids Hs Hrange.
  induction auths as [|a l IH]; intros k indexes w pks Hids Hs Hrange Hw Hfit.
  - destruct indexes as [|i indexes]; [|specialize (Hrange i ltac:(left)); simpl in Hrange; lia].
    simpl. rewrite !app_nil_r. unfold wsum. simpl. by rewrite Z.add_0_r.
  - destruct (Hfacts a ltac:(left)) as (Hinit & Hst & Hk & _).
    assert (auth_id a = k ∧ auth_id <$> l = seqZ (k + 1) (Z.of_nat (length l))) as [Ha Hl].
    { cbn [length] in Hids. rewrite Nat2Z.inj_succ, seqZ_cons, Z.pred_succ in Hids by lia.
      rewrite fmap_cons in Hids. injection Hids as ? ?. split; [done|]. by rewrite Z.add_1_r. }
    cbn [length] in Hrange. destruct indexes as [|i indexes]; simpl.
    + rewrite (IH ltac:(intros; apply Hfacts; by right)); [done|done|constructor|set_solver|done|done].
    + apply StronglySorted_inv in Hs as [Hs HF]. rewrite Forall_forall in HF.
      assert (∀ x, x ∈ indexes → k + 1 <= x < k + 1 + Z.of_nat (length l)) as Hr'.
      { intros x Hx. specialize (HF x Hx). pose proof (Hrange x ltac:(by right)).
        pose proof (Hrange i ltac:(left)). lia. }
      pose proof (Hrange i ltac:(left)) as Hi. rewrite wsum_cons in *.
      destruct (Z.eqb_spec i k) as [Heq|Hne].
      * unfold Auth.stake, Auth.protocol_key. rewrite Hinit. simpl.
        pose proof (wsum_nonneg _ Hnn indexes). pose proof (Hnn i).
        assert (auth_stake a = Comm.stake_by_id c i) as Hav by (rewrite <-Hst; congruence).
        assert (wadd w (auth_stake a) = w + Comm.stake_by_id c i) as ->.
        { unfold wadd. rewrite Hav. apply Z.mod_small. lia. }
        rewrite (IH ltac:(intros; apply Hfacts; by right)); [|done|done|done|lia|lia].
        by rewrite <-app_assoc, Z.add_assoc, <-Hk, Ha, Heq.
      * rewrite (IH ltac:(intros; apply Hfacts; by right)); [by rewrite wsum_cons|done|constructor; [done|by apply Forall_forall]| |done|by rewrite wsum_cons].
        { intros x [->|Hx]%elem_of_cons; [lia|by apply Hr']. }
Qed.
End loops.

Lemma lt_sorted_unique (l k : list Z) : StronglySorted Z.lt l → StronglySorted Z.lt k → l ≡ₚ k → l = k.
Proof.
  assert (AntiSymm (=) Z.lt) by (intros x y; lia). apply (StronglySorted_unique Z.lt).
Qed.

Lemma lt_sorted_NoDup (l : list Z) : StronglySorted Z.lt l → NoDup l.
Proof.
  induction 1 as [|x l Hl IH HF]; constructor; [|done]. intros Hx. rewrite Forall_forall in HF.
  specialize (HF x Hx). lia.
Qed.

Lemma le_sorted_lt {A} (f : A → Z) (l : list A) : StronglySorted (λ a b, f a <= f b) l →
  NoDup (f <$> l) → StronglySorted (λ a b, f a < f b) l.
Proof.
  induction 1 as [|x l Hl IH HF]; intros Hnd; constructor.
  - apply IH. by apply NoDup_cons in Hnd as [_ ?].
  - apply NoDup_cons in Hnd as [Hx _]. rewrite Forall_forall in HF. apply Forall_forall. intros y Hy.
    specialize (HF y Hy). simpl in HF. assert (f x ≠ f y); [|lia]. intros Heq. apply Hx. rewrite Heq.
    by apply list_elem_of_fmap_2.
Qed.

Lemma strictly_increasing_sorted l : StronglySorted Z.lt l → CertNew.strictly_increasing l = true.
Proof.
  induction 1 as [|x l Hl IH HF]; [done|]. destruct l as [|y l]; [done|].
  apply Forall_cons in HF as [Hxy _]. cbn [CertNew.strictly_increasing].
  apply andb_true_iff. split; [lia|done].
Qed.

Section certificates.
Context {X : NarwhalCrypto} (c : Committee).
Hypothesis Hc : signing_ok c.

Lemma member_range i : i ∈ members c → 0 <= i < Z.of_nat (length (Comm.authorities_iter c)).
Proof.
  intros Hi. destruct Hc as [Hwf Hids _].
  assert (length (Comm.authorities_iter c) = Comm.size c) as ->.
  { unfold Comm.authorities_iter, btree_values, Comm.size. by rewrite length_fmap, length_btree_iter. }
  unfold members in Hi. apply elem_of_dom in Hi as [a Ha].
  destruct (wf_by_id c Hwf i a Ha) as [<- [k Hk]].
  assert (auth_id a ∈ auth_id <$> Comm.authorities_iter c) as Hin.
  { apply list_elem_of_fmap_2, elem_of_btree_values. eauto. }
  rewrite Hids in Hin. apply elem_of_seqZ in Hin. lia.
Qed.

Lemma ids_stake_fits l : NoDup l → (∀ i, i ∈ l → i ∈ members c) →
  wsum (Comm.stake_by_id c) l = set_stake c (list_to_set l) ∧
  wsum (Comm.stake_by_id c) l < U64_MOD.
Proof.
  intros Hnd Hm. pose proof (sg_wf c Hc) as Hwf. unfold set_stake. rewrite wset_list_to_set by done.
  split; [done|]. rewrite <-(wset_list_to_set (Comm.stake_by_id c)) by done.
  pose proof (wset_mono _ (λ i, stake_by_id_nonneg c i Hwf) (list_to_set l) (members c)) as Hle.
  pose proof (members_stake c Hwf) as HT. unfold set_stake in HT.
  pose proof (tok_bound _ (wf_table c Hwf)). pose proof (tok_pos _ (wf_table c Hwf)).
  assert (list_to_set l ⊆ members c) as Hsub by (intros i Hi%elem_of_list_to_set; auto).
  specialize (Hle Hsub). lia.
Qed.

(** The set of the voters. *)
Definition voters (vs : list (Z * Signature)) : gset Z := list_to_set vs.*1.

Lemma signed_by_spec cert (s : gset Z) : Cert.signed_authorities cert = s → s ⊆ members c →
  CertNew.signed_by cert c = Ret (set_stake c s, key_of c <$> btree_set_iter s).
Proof.
  intros Hs Hm. unfold CertNew.signed_by. rewrite Hs. pose proof (sg_wf c Hc) as Hwf.
  assert (∀ i, i ∈ btree_set_iter s → i ∈ members c) as Hm' by (intros i Hi%elem_of_btree_set_iter; auto).
  destruct (ids_stake_fits (btree_set_iter s)) as [Hw Hfit]; [apply lt_sorted_NoDup, btree_set_iter_sorted|done|].
  assert (list_to_set (btree_set_iter s) = s) as Hset.
  { apply set_eq. intros i. by rewrite elem_of_list_to_set, elem_of_btree_set_iter. }
  rewrite Hset in Hw.
  rewrite (signed_loop_spec c (Comm.authorities_iter c)); [by rewrite Hw|..].
  - intros a Ha. by apply authorities_iter_facts.
  - rewrite (sg_ids c Hc). f_equal. unfold Comm.authorities_iter, btree_values, Comm.size.
    by rewrite length_fmap, length_btree_iter.
  - apply btree_set_iter_sorted.
  - intros i Hi. apply member_range. auto.
  - intros i. by apply stake_by_id_nonneg.
  - lia.
  - lia.
Qed.

(** A certificate built from votes of distinct members. *)
Lemma new_unsafe_spec now v2 h vs check : NoDup vs.*1 → (∀ i, i ∈ vs.*1 → i ∈ members c) →
  CertNew.new_unsafe now v2 c h vs check =
    if check && (set_stake c (voters vs) <? quorum_threshold c) then Ret (Err CertificateRequiresQuorum)
    else match (match sort_by_key fst vs with [] => Some default_aggregate
                | l => aggregate l.*2 end) with
         | None => Ret (Err InvalidSignature)
         | Some bytes => Ret (Ok (if v2 then
             CV2 (mkCertificateV2 h (if check then Unverified bytes else Unsigned bytes) (voters vs) now)
             else CV1 (mkCertificateV1 h bytes (voters vs) now)))
         end.
Proof.
  intros Hnd Hm. unfold CertNew.new_unsafe. pose proof (sg_wf c Hc) as Hwf.
  set (l := sort_by_key fst vs). assert (l ≡ₚ vs) as Hp by apply sort_by_key_perm.
  assert (StronglySorted key_lt l) as Hs.
  { apply (le_sorted_lt fst); [apply sort_by_key_sorted|]. by rewrite Hp. }
  assert (NoDup l.*1) as Hndl by (by rewrite Hp).
  assert (∀ i, i ∈ l.*1 → i ∈ members c) as Hml by (intros i; rewrite Hp; apply Hm).
  destruct (ids_stake_fits l.*1 Hndl Hml) as [Hw Hfit].
  assert (list_to_set l.*1 = voters vs) as Hset.
  { apply set_eq. intros i. unfold voters. by rewrite !elem_of_list_to_set, Hp. }
  rewrite Hset in Hw.
  rewrite (filter_votes_spec c (Comm.authorities_iter c)).
  - cbn [mbind outcome_bind]. rewrite !app_nil_l, Z.add_0_l, Hw, Hset.
    assert (StronglySorted Z.lt l.*1) as Hsl.
    { clear -Hs. induction Hs as [|p l Hl IH HF]; simpl; constructor; [done|]. apply Forall_fmap. exact HF. }
    rewrite (strictly_increasing_sorted _ Hsl). clearbody l. by destruct l.
  - intros a Ha. by apply authorities_iter_facts.
  - rewrite (sg_ids c Hc). f_equal. unfold Comm.authorities_iter, btree_values, Comm.size.
    by rewrite length_fmap, length_btree_iter.
  - done.
  - intros v Hv. apply member_range, Hml. by apply (list_elem_of_fmap_2 fst).
  - intros i. by apply stake_by_id_nonneg.
  - lia.
  - lia.
Qed.
End certificates.

(** ** The aggregators *)

Section aggregators.
Context {X : NarwhalCrypto} (c : Committee).
Hypothesis Hc : signing_ok c.

(** The votes held are of distinct members, and the weight is their stake. *)
Record votes_ok (a : VotesAggregator) : Prop := {
  vo_nodup : NoDup (votes a).*1;
  vo_used i : i ∈ (votes a).*1 → i ∈ used a;
  vo_members i : i ∈ (votes a).*1 → i ∈ members c;
  vo_weight : weight a = set_stake c (voters (votes a));
}.

Lemma votes_ok_push a i sg : votes_ok a → i ∈ members c → i ∉ used a →
  votes_ok (mkVotes (narwhal_certificate_v2 a) (wadd (weight a) (Comm.stake_by_id c i))
    (votes a ++ [(i, sg)]) ({[i]} ∪ used a)).
Proof.
  intros [Hnd Hu Hm Hw] Hi Hni.
  assert (NoDup (votes a ++ [(i, sg)]).*1) as Hnd'.
  { rewrite fmap_app. apply NoDup_app. split_and!; [done| |apply NoDup_singleton].
    intros x Hx%Hu. simpl. set_solver. }
  assert (∀ x, x ∈ (votes a ++ [(i, sg)]).*1 → x ∈ members c) as Hm'.
  { intros x. rewrite fmap_app, elem_of_app. simpl. intros [?|?]; [by apply Hm|set_solver]. }
  split; simpl; try done.
  - intros x. rewrite fmap_app, elem_of_app. simpl. intros [?%Hu|?]; set_solver.
  - destruct (ids_stake_fits c Hc _ Hnd' Hm') as [Hs Hfit].
    assert (voters (votes a ++ [(i, sg)]) = {[i]} ∪ voters (votes a)) as Hv.
    { unfold voters. rewrite fmap_app, list_to_set_app_L. simpl. set_solver. }
    unfold voters in Hv at 1. rewrite Hv in Hs. unfold voters at 1. rewrite Hv.
    assert (set_stake c ({[i]} ∪ voters (votes a)) = Comm.stake_by_id c i + weight a) as Hsum.
    { rewrite Hw. unfold set_stake. apply wset_insert. unfold voters. intros ?%elem_of_list_to_set%Hu. done. }
    rewrite Hsum in Hs |- *. unfold wadd. rewrite Z.mod_small; [lia|].
    pose proof (stake_by_id_nonneg c i (sg_wf c Hc)).
    assert (0 <= weight a).
    { rewrite Hw. apply wset_nonneg. intros x. by apply stake_by_id_nonneg, Hc. }
    lia.
Qed.

Lemma retain_spec dg l w : NoDup l.*1 → (∀ i, i ∈ l.*1 → i ∈ members c) →
  set_stake c (voters l) <= w < U64_MOD →
  Votes.retain c dg l w =
    Ret (filter (λ p, verify_signature p.2 dg (key_of c p.1) = true) l,
         w - set_stake c (voters (filter (λ p, ¬ verify_signature p.2 dg (key_of c p.1) = true) l))).
Proof.
  revert w. induction l as [|[i sg] l IH]; intros w Hnd Hm Hw.
  { simpl. rewrite !filter_nil. unfold voters, set_stake. simpl. rewrite wset_empty. do 2 f_equal. lia. }
  pose proof (sg_wf c Hc) as Hwf. apply NoDup_cons in Hnd as [Hi Hnd].
  assert (i ∈ dom (authorities_by_id c)) as [a Ha]%elem_of_dom by (apply Hm; left).
  destruct (wf_by_id c Hwf i a Ha) as [Hid [k Hk]].
  assert (∀ j, 0 <= Comm.stake_by_id c j) as Hnn by (intros; by apply stake_by_id_nonneg).
  assert (∀ m, i ∉ m.*1 → set_stake c (voters ((i, sg) :: m)) = Comm.stake_by_id c i + set_stake c (voters m))
    as Hcons.
  { intros m Him. unfold voters, set_stake. simpl. apply wset_insert.
    by intros ?%elem_of_list_to_set. }
  rewrite Hcons in Hw by done. simpl. unfold Comm.authority_safe. rewrite Ha. simpl.
  unfold Auth.protocol_key. rewrite (wf_init c Hwf k a Hk). simpl.
  assert (key_of c i = auth_protocol_key a) as Hkey by (unfold key_of, Comm.authority; by rewrite Ha).
  assert (Comm.stake c (auth_protocol_key a) = Comm.stake_by_id c i) as Hst.
  { rewrite (sg_keys c Hc k a Hk). unfold Comm.stake, Comm.stake_by_id. by rewrite Hk, Ha. }
  pose proof (wset_nonneg _ Hnn (voters l)) as Hge. fold (set_stake c (voters l)) in Hge.
  specialize (Hnn i). rewrite !filter_cons. simpl. rewrite Hkey.
  destruct (verify_signature sg dg (auth_protocol_key a)) eqn:Hv.
  - rewrite decide_True, decide_False by naive_solver.
    rewrite IH; [done|done|intros; apply Hm; by right|lia].
  - rewrite decide_False, decide_True by naive_solver. rewrite Hst.
    assert (wsub w (Comm.stake_by_id c i) = w - Comm.stake_by_id c i) as ->.
    { unfold wsub. apply Z.mod_small. lia. }
    rewrite IH; [|done|intros; apply Hm; by right|lia]. rewrite Hcons; [do 2 f_equal; lia|].
    intros (p & Hpi & [_ Hp]%list_elem_of_filter)%list_elem_of_fmap. apply Hi. simpl. rewrite Hpi.
    by apply (list_elem_of_fmap_2 fst).
Qed.

(** Dropping votes takes exactly their stake away. *)
Lemma votes_ok_retain a (P : Z * Signature → Prop) `{!∀ p, Decision (P p)} : votes_ok a →
  votes_ok (mkVotes (narwhal_certificate_v2 a)
    (weight a - set_stake c (voters (filter (λ p, ¬ P p) (votes a)))) (filter P (votes a)) (used a)).
Proof.
  intros [Hnd Hu Hm Hw].
  assert (∀ i, i ∈ (filter P (votes a)).*1 → i ∈ (votes a).*1) as Hsub.
  { intros i (p & -> & [_ Hp]%list_elem_of_filter)%list_elem_of_fmap. by apply (list_elem_of_fmap_2 fst). }
  split; simpl; auto using NoDup_fst_filter.
  rewrite Hw. unfold voters, set_stake.
  rewrite !wset_list_to_set by auto using NoDup_fst_filter. unfold wsum. rewrite <-!list_fmap_compose.
  pose proof (wsum_filter (λ p, Comm.stake_by_id c p.1) P (votes a)) as Hf. unfold wsum in Hf.
  unfold compose. lia.
Qed.

(** The keys of the voters, in the order in which the signatures are aggregated. *)
Definition voter_keys (vs : list (Z * Signature)) : list PublicKey :=
  key_of c <$> btree_set_iter (voters vs).

(** The votes with [vote] added, and the signatures that are aggregated for votes. *)
Definition with_vote (a : VotesAggregator) (vote : Vote) : list (Z * Signature) := votes a ++ [(v_author vote, v_signature vote)].
Definition vote_signatures (vs : list (Z * Signature)) : list Signature := (sort_by_key fst vs).*2.

(** What [append] does with the first vote of an authority: the result [r] and the votes [kept]. *)
Definition first_vote (h : Header) (v2 : bool) (all : list (Z * Signature)) (r : result DagError (option Certificate)) (kept : list (Z * Signature)) : Prop :=
  match r with
  | Err e => e = InvalidSignature ∧ kept = all ∧ quorum_threshold c <= set_stake c (voters all) ∧
      (aggregate (vote_signatures all) = None ∨ ∃ bytes, aggregate (vote_signatures all) = Some bytes ∧ parse_aggregate bytes = false)
  | Ok None =>
      (kept = all ∧ set_stake c (voters all) < quorum_threshold c) ∨
      (kept = filter (λ p, verify_signature p.2 (HeaderAPI.digest h) (key_of c p.1) = true) all ∧ quorum_threshold c <= set_stake c (voters all) ∧
       ∃ bytes, aggregate (vote_signatures all) = Some bytes ∧ verify_aggregate bytes (HeaderAPI.digest h) (voter_keys all) = false)
  | Ok (Some cert) => kept = all ∧ Cert.header cert = h ∧ Cert.signed_authorities cert = voters all ∧
      quorum_threshold c <= set_stake c (voters all) ∧ CertNew.signed_by cert c = Ret (set_stake c (voters all), voter_keys all) ∧
      ∃ bytes, aggregate (vote_signatures all) = Some bytes ∧ Cert.aggregated_signature cert = Some bytes ∧
        verify_aggregate bytes (Cert.digest cert) (voter_keys all) = true ∧
        match cert with CV2 cert => v2 = true ∧ c2_signature_verification_state cert = VerifiedDirectly bytes | CV1 _ => v2 = false end
  end.

(** What [append] promises of its result [r] and the aggregator [a'] after it. *)
Definition append_ok (a : VotesAggregator) (vote : Vote) (h : Header)
    (r : result DagError (option Certificate)) (a' : VotesAggregator) : Prop :=
  if decide (v_author vote ∈ used a) then r = Err (AuthorityReuse (v_author vote)) ∧ a' = a
  else votes_ok a' ∧ used a' = {[v_author vote]} ∪ used a ∧ narwhal_certificate_v2 a' = narwhal_certificate_v2 a ∧
    first_vote h (narwhal_certificate_v2 a) (with_vote a vote) r (votes a').

Lemma aggregate_some vs : vs ≠ [] →
  match sort_by_key fst vs with [] => Some default_aggregate | l => aggregate l.*2 end = aggregate (vote_signatures vs).
Proof.
  intros Hne. unfold vote_signatures. destruct (sort_by_key fst vs) eqn:Hs; [|done].
  pose proof (sort_by_key_perm fst vs) as Hp. rewrite Hs in Hp. by apply Permutation_nil_l in Hp.
Qed.

Lemma append_spec now vote h a : votes_ok a → v_author vote ∈ members c →
  ∃ r a', Votes.append now vote c h a = Ret (r, a') ∧ append_ok a vote h r a'.
Proof.
  intros Ha Hm. unfold Votes.append, append_ok. destruct (decide (v_author vote ∈ used a)) as [Hused|Hused].
  { rewrite bool_decide_true by done. by eexists _, _. }
  rewrite bool_decide_false by done.
  pose proof (votes_ok_push a (v_author vote) (v_signature vote) Ha Hm Hused) as Ha1.
  set (a1 := mkVotes _ _ _ _) in *. pose proof (vo_weight a1 Ha1) as Hw. change (with_vote a vote) with (votes a1).
  destruct (Z.leb_spec (quorum_threshold c) (weight a1)) as [Hq|Hq].
  2:{ eexists _, a1. split; [done|]. split_and!; [done..|]. left. split; [done|]. lia. }
  unfold CertNew.new_unverified.
  rewrite (new_unsafe_spec c Hc now _ h (votes a1) true (vo_nodup a1 Ha1) (vo_members a1 Ha1)).
  replace (set_stake c (voters (votes a1)) <? quorum_threshold c) with false by lia. cbn [andb]. rewrite Hw in Hq.
  rewrite (aggregate_some (votes a1)) by apply not_eq_sym, app_cons_not_nil.
  destruct (aggregate (vote_signatures (votes a1))) as [bytes|] eqn:Hagg; [|eexists _, a1; do 7 (split; [done|]); by left]. cbn [mbind outcome_bind].
  set (cert := if narwhal_certificate_v2 a1 then _ else _).
  assert (Cert.signed_authorities cert = voters (votes a1) ∧ Cert.header cert = h ∧
    Cert.aggregated_signature cert = Some bytes) as (Hsa & Hh & Hbytes).
  { unfold cert. by destruct (narwhal_certificate_v2 a1). }
  assert (Cert.digest cert = HeaderAPI.digest h) as Hdg by (unfold Cert.digest; by rewrite Hh).
  assert (voters (votes a1) ⊆ members c) as Hsub.
  { intros i Hi%elem_of_list_to_set. by apply (vo_members a1 Ha1). }
  rewrite (signed_by_spec c Hc cert _ Hsa Hsub). cbn [mbind outcome_bind]. rewrite Hbytes.
  destruct (parse_aggregate bytes) eqn:Hparse; cbn [negb]; [|eexists _, a1; do 7 (split; [done|]); right; by exists bytes].
  fold (voter_keys (votes a1)). destruct (verify_aggregate bytes _ _) eqn:Hv.
  - exists (Ok (Some (if narwhal_certificate_v2 a1 then CV2 (mkCertificateV2 h (VerifiedDirectly bytes) (voters (votes a1)) now) else cert))), a1.
    split; [unfold cert; by destruct (narwhal_certificate_v2 a1)|]. split_and!; [done..|].
    split; [done|]. split; [unfold cert; by destruct (narwhal_certificate_v2 a1)|]. split; [unfold cert; by destruct (narwhal_certificate_v2 a1)|]. split; [done|].
    split; [apply signed_by_spec; [done|unfold cert; by destruct (narwhal_certificate_v2 a1)|done]|].
    exists bytes. rewrite Hdg in Hv. unfold cert. by destruct (narwhal_certificate_v2 a1) eqn:E; rewrite ?E.
  - rewrite (retain_spec (Cert.digest cert) (votes a1) (weight a1) (vo_nodup a1 Ha1) (vo_members a1 Ha1)).
    + cbn [mbind outcome_bind]. rewrite Hdg in *. eexists _, _. split; [done|]. split_and!; [by apply (votes_ok_retain a1)|done..|].
      right. split_and!; [done..|]. by exists bytes.
    + destruct (ids_stake_fits c Hc _ (vo_nodup a1 Ha1) (vo_members a1 Ha1)) as [Hs Hfit].
      unfold voters in *. lia.
Qed.

(** Certificates received one after the other: the batches handed on and the
    aggregator afterwards. *)
Fixpoint feed (cs : list Certificate) (a : CertificatesAggregator) :
    list (list Certificate) * CertificatesAggregator :=
  match cs with
  | [] => ([], a)
  | x :: cs =>
      let '(r, a) := Certs.append x c a in
      let '(bs, a) := feed cs a in
      (match r with Some b => b :: bs | None => bs end, a)
  end.

(** The first certificate of every origin that is not in [seen], in the order received. *)
Fixpoint firsts (seen : gset Z) (cs : list Certificate) : list Certificate :=
  match cs with
  | [] => []
  | x :: cs => if decide (Cert.origin x ∈ seen) then firsts seen cs
               else x :: firsts ({[Cert.origin x]} ∪ seen) cs
  end.

Definition origins (cs : list Certificate) : gset Z := list_to_set (Cert.origin <$> cs).

Record certs_ok (a : CertificatesAggregator) : Prop := {
  co_members : ca_used a ⊆ members c;
  co_weight : ca_weight a = set_stake c (ca_used a);
}.

Lemma certs_push a i : certs_ok a → i ∈ members c → i ∉ ca_used a →
  wadd (ca_weight a) (Comm.stake_by_id c i) = set_stake c ({[i]} ∪ ca_used a).
Proof.
  intros [Hm Hw] Hi Hni. pose proof (sg_wf c Hc) as Hwf.
  assert (∀ j, 0 <= Comm.stake_by_id c j) as Hnn by (intros; by apply stake_by_id_nonneg).
  pose proof (wset_mono _ Hnn ({[i]} ∪ ca_used a) (members c) ltac:(set_solver)) as Hle.
  pose proof (members_stake c Hwf) as HT. pose proof (tok_bound _ (wf_table c Hwf)).
  pose proof (tok_pos _ (wf_table c Hwf)). unfold set_stake in *.
  rewrite (wset_insert _ i) in Hle |- * by done. rewrite Hw. unfold wadd.
  pose proof (wset_nonneg _ Hnn (ca_used a)). specialize (Hnn i). rewrite Z.mod_small; lia.
Qed.

Lemma feed_spec cs a : certs_ok a → (∀ x, x ∈ cs → Cert.origin x ∈ members c) →
  let '(bs, a') := feed cs a in
  certs_ok a' ∧ ca_used a' = ca_used a ∪ origins cs ∧
  concat bs ++ ca_certificates a' = ca_certificates a ++ firsts (ca_used a) cs ∧
  match bs with
  | [] => firsts (ca_used a) cs = [] ∨ set_stake c (ca_used a') < quorum_threshold c
  | b :: _ => ∃ pre, b = ca_certificates a ++ pre ∧ pre `prefix_of` firsts (ca_used a) cs ∧
      quorum_threshold c <= set_stake c (ca_used a ∪ origins pre)
  end.
Proof.
  revert a. induction cs as [|x cs IH]; intros a Ha Hm; simpl.
  { split_and!; [done| |by rewrite app_nil_r|by left]. unfold origins. set_solver. }
  unfold Certs.append. case_bool_decide as Hused; case_decide; try done.
  - specialize (IH a Ha ltac:(set_solver)). destruct (feed cs a) as [bs a']. simpl.
    destruct IH as (? & Hu & ? & ?). split_and!; try done. rewrite Hu. unfold origins. set_solver.
  - assert (Cert.origin x ∈ members c) as Hx by (apply Hm; left).
    rewrite (certs_push a (Cert.origin x) Ha Hx Hused).
    set (u := {[Cert.origin x]} ∪ ca_used a).
    assert (∀ l, certs_ok (mkCerts (set_stake c u) l u)) as Hok.
    { intros l. split; simpl; [|done]. unfold u. pose proof (co_members a Ha). set_solver. }
    destruct (Z.leb_spec (quorum_threshold c) (set_stake c u)) as [Hq|Hq].
    + specialize (IH (mkCerts (set_stake c u) [] u) (Hok _) ltac:(set_solver)).
      destruct (feed cs _) as [bs a']. simpl in *. destruct IH as (? & Hu & Hcat & _).
      split_and!; [done|rewrite Hu; unfold u, origins; set_solver| |].
      * rewrite <-!app_assoc, Hcat. done.
      * exists [x]. split_and!; [done|by exists (firsts u cs)|].
        replace (ca_used a ∪ origins [x]) with u by (unfold u, origins; set_solver). done.
    + specialize (IH (mkCerts (set_stake c u) (ca_certificates a ++ [x]) u) (Hok _) ltac:(set_solver)).
      destruct (feed cs _) as [bs a']. simpl in *. destruct IH as (? & Hu & Hcat & Hb).
      split_and!; [done|rewrite Hu; unfold u, origins; set_solver|by rewrite Hcat, <-app_assoc|].
      destruct bs as [|b bs].
      * right. destruct Hb as [Hf|?]; [|done].
        assert (origins cs ⊆ u) as Hsub.
        { clear -Hf. intros o (y & -> & Hy)%elem_of_list_to_set%list_elem_of_fmap. revert Hf.
          generalize u. induction cs as [|z cs IH]; [set_solver|]. simpl. intros v.
          case_decide; [|done]. intros Hf. apply elem_of_cons in Hy as [->|Hy]; [done|]. by apply IH. }
        rewrite Hu. by replace (u ∪ origins cs) with u by set_solver.
      * destruct Hb as (pre & -> & [k Hk] & Hst). exists (x :: pre). rewrite <-app_assoc.
        split_and!; [done|exists k; simpl; by rewrite Hk|].
        replace (ca_used a ∪ origins (x :: pre)) with (u ∪ origins pre); [done|].
        unfold u, origins. set_solver.
Qed.
End aggregators.

(** * Properties *)

(** Signatures for the examples: a signature is valid if it equals the signer's key
    plus the digest, and an aggregate is the sum. *)
#[local] Instance toy_crypto : NarwhalCrypto := {
  default_aggregate := 0;
  aggregate l := Some (zsum l);
  parse_aggregate _ := true;
  verify_aggregate bytes dg pks := bytes =? zsum ((λ pk, pk + dg) <$> pks);
  verify_signature sig dg pk := sig =? pk + dg;
}.

Lemma example_signing : signing_ok example_committee.
Proof.
  apply (new_signing_ok example_table 1); [apply example_table_ok| |vm_compute; reflexivity].
  assert (Forall (λ p : Z * Authority, auth_protocol_key p.2 = p.1) (map_to_list example_table)) as HF
    by (apply (bool_decide_unpack _); vm_compute; exact I).
  intros k a Hk%elem_of_map_to_list. rewrite Forall_forall in HF. exact (HF (k, a) Hk).
Qed.

(** A certificate built from the votes of distinct members is refused exactly when a
    quorum is asked for and missing, or the signatures cannot be aggregated; otherwise
    [signed_by] gives back the stake and the keys of precisely the voters, whatever
    order the votes came in. *)
Theorem certificate_signers {X : NarwhalCrypto} now c v2 h vs check : signing_ok c → NoDup vs.*1 →
  (∀ i, i ∈ vs.*1 → i ∈ members c) →
  match CertNew.new_unsafe now v2 c h vs check with
  | Ret (Ok cert) => Cert.header cert = h ∧
      (check = true → quorum_threshold c <= set_stake c (voters vs)) ∧
      CertNew.signed_by cert c = Ret (set_stake c (voters vs), voter_keys c vs)
  | Ret (Err CertificateRequiresQuorum) => check = true ∧ set_stake c (voters vs) < quorum_threshold c
  | Ret (Err InvalidSignature) => aggregate (sort_by_key fst vs).*2 = None
  | _ => False
  end.
Proof.
  intros Hc Hnd Hm. rewrite new_unsafe_spec by done.
  destruct (check && _) eqn:Hq; [apply andb_true_iff in Hq as [-> Hq]; split; [done|lia]|].
  set (agg := match sort_by_key fst vs with [] => _ | _ => _ end).
  assert (agg = None → aggregate (sort_by_key fst vs).*2 = None) as Hagg.
  { unfold agg. by destruct (sort_by_key fst vs). }
  destruct agg as [bytes|]; [|auto]. split_and!.
  - by destruct v2.
  - intros ->. simpl in Hq. lia.
  - apply signed_by_spec; [done|by destruct v2|]. intros i Hi%elem_of_list_to_set. auto.
Qed.

Lemma certificate_signers_witness :
  match CertNew.new_unsafe 5 true example_committee (HV2 (mkHeaderV2 0 2 1 0 [] [] ∅ 7))
          [(3, 47); (0, 17); (2, 37)] true with
  | Ret (Ok cert) => CertNew.signed_by cert example_committee = Ret (3, [10; 30; 40])
  | _ => False
  end.
Proof.
  pose proof (certificate_signers 5 example_committee true (HV2 (mkHeaderV2 0 2 1 0 [] [] ∅ 7))
    [(3, 47); (0, 17); (2, 37)] true example_signing) as H.
  destruct (CertNew.new_unsafe _ _ _ _ _ _) as [[cert|e]| |] eqn:E.
  - destruct H as (_ & _ & ->); [apply (bool_decide_unpack _); vm_compute; exact I| |].
    + intros i Hi. revert i Hi. apply Forall_forall, (bool_decide_unpack _). vm_compute. exact I.
    + vm_compute. reflexivity.
  - exfalso. vm_compute in E. discriminate E.
  - exfalso. vm_compute in E. discriminate E.
  - exfalso. vm_compute in E. discriminate E.
Defined.

(** C32: [VotesAggregator::append] on a member's vote never panics and keeps its weight equal to the stake of
    the votes it holds.  A second vote of an authority is refused and changes nothing.  A first vote is added to
    the votes, and then: below a quorum they are all kept; with a quorum whose aggregate verifies, they are all
    kept and the certificate returned is signed by exactly the voters, with that aggregate; with a quorum whose
    aggregate does not verify, exactly the votes that verify on their own are kept, in their order; if the
    signatures cannot be aggregated, the votes are kept and the error is [InvalidSignature]. *)
Theorem votes_append_correct {X : NarwhalCrypto} now c vote h a : signing_ok c → votes_ok c a →
  v_author vote ∈ members c →
  ∃ r a', Votes.append now vote c h a = Ret (r, a') ∧ append_ok c a vote h r a'.
Proof. intros Hc. by apply append_spec. Qed.

Lemma votes_append_correct_witness : ∃ cert a',
  Votes.append 5 (mkVote 3 47) example_committee (HV2 (mkHeaderV2 0 2 1 0 [] [] ∅ 7))
    (mkVotes true 2 [(0, 17); (2, 37)] {[0; 2]}) = Ret (Ok (Some cert), a') ∧
  Cert.signed_authorities cert = {[0; 2; 3]}.
Proof.
  destruct (votes_append_correct 5 example_committee (mkVote 3 47) (HV2 (mkHeaderV2 0 2 1 0 [] [] ∅ 7))
    (mkVotes true 2 [(0, 17); (2, 37)] {[0; 2]})) as (r & a' & E & Hr).
  - exact example_signing.
  - split.
    + apply (bool_decide_unpack _). vm_compute. exact I.
    + intros i Hi. revert i Hi. apply Forall_forall, (bool_decide_unpack _). vm_compute. exact I.
    + intros i Hi. revert i Hi. apply Forall_forall, (bool_decide_unpack _). vm_compute. exact I.
    + vm_compute. reflexivity.
  - apply (bool_decide_unpack _). vm_compute. exact I.
  - assert (fmap (M := outcome) (λ p, (match p.1 with Ok (Some _) => true | _ => false end, voters (votes p.2)))
      (Votes.append 5 (mkVote 3 47) example_committee (HV2 (mkHeaderV2 0 2 1 0 [] [] ∅ 7))
         (mkVotes true 2 [(0, 17); (2, 37)] {[0; 2]})) = Ret (true, {[0; 2; 3]})) as Hv
      by (vm_compute; reflexivity).
    rewrite E in Hv. destruct r as [[cert|]|]; [|discriminate Hv..]. injection Hv as Hv.
    exists cert, a'. split; [exact E|]. unfold append_ok in Hr. rewrite decide_False in Hr by (apply (bool_decide_unpack _); vm_compute; exact I).
    destruct Hr as (_ & _ & _ & Hk & _ & -> & _). rewrite <- Hk. exact Hv.
Defined.

(** Feeding certificates of members to a new [CertificatesAggregator], nothing is handed
    on until the origins seen hold a quorum; the first batch then has a quorum of
    distinct origins, and over all batches every origin's first certificate is
    handed on or kept, once and in order, and no other. *)
Theorem certificates_batches c cs : signing_ok c → (∀ x, x ∈ cs → Cert.origin x ∈ members c) →
  let '(bs, a) := feed c cs Certs.new in
  concat bs ++ ca_certificates a = firsts ∅ cs ∧
  match bs with
  | [] => set_stake c (origins cs) < quorum_threshold c
  | b :: _ => b `prefix_of` firsts ∅ cs ∧ quorum_threshold c <= set_stake c (origins b)
  end.
Proof.
  intros Hc Hm. pose proof (sg_wf c Hc) as Hwf.
  assert (set_stake c ∅ = 0) as Hempty by apply wset_empty.
  pose proof (feed_spec c Hc cs Certs.new) as Hf. destruct (feed c cs Certs.new) as [bs a].
  destruct Hf as (_ & Hu & Hcat & Hb); [split; [set_solver|done]|done|].
  split; [done|]. simpl in *. rewrite (left_id_L ∅ (∪)) in Hu. destruct bs as [|b bs].
  - destruct Hb as [Hf|Hf]; [|by rewrite Hu in Hf].
    destruct cs as [|x cs]; [|simpl in Hf; rewrite decide_False in Hf by set_solver; done].
    unfold origins. simpl. rewrite Hempty, (wf_quorum c Hwf).
    pose proof (tok_pos _ (wf_table c Hwf)). div_lia.
  - destruct Hb as (pre & -> & Hpre & Hq). rewrite (left_id_L ∅ (∪)) in Hq. done.
Qed.

Lemma certificates_batches_witness :
  let mk o := CV2 (mkCertificateV2 (HV2 (mkHeaderV2 o 1 1 0 [] [] ∅ o)) Genesis ∅ 0) in
  (feed example_committee [mk 0; mk 1; mk 0; mk 3; mk 2] Certs.new).1 = [[mk 0; mk 1; mk 3]; [mk 2]] ∧
  concat (feed example_committee [mk 0; mk 1; mk 0; mk 3; mk 2] Certs.new).1 ++
    ca_certificates (feed example_committee [mk 0; mk 1; mk 0; mk 3; mk 2] Certs.new).2 =
    firsts ∅ [mk 0; mk 1; mk 0; mk 3; mk 2].
Proof.
  intros mk. split; [vm_compute; reflexivity|].
  pose proof (certificates_batches example_committee [mk 0; mk 1; mk 0; mk 3; mk 2] example_signing) as H.
  destruct (feed _ _ _) as [bs a]. apply H. intros x Hx. revert x Hx.
  apply Forall_forall, (bool_decide_unpack _). vm_compute. exact I.
Defined.
