(* ===== verification/SuiCommittee.v ===== *)
(** * The Sui committee ([crates/sui-types/src/committee.rs])

    The committee of validators of an epoch, with voting power normalised to
    10,000.  [Committee::new] checks and sorts the voting rights and builds the
    two secondary tables; [weight] and [authority_exists] use a binary search on
    the sorted vector, modelled as the loop of the standard library.

    An [AuthorityName] is a byte string; it is a [Z] here (read as a big-endian number, which
    has the same order).  Decoding a name to a public key
    ([AuthorityKeys]) and [rand]'s weighted sampling ([WeightedRng]) are classes.
    [HashMap]s are [gmap]s. *)
From S2P Require Import Prelude.

Abbreviation AuthorityName := Z (only parsing).
Abbreviation EpochId := Z (only parsing).
Abbreviation StakeUnit := Z (only parsing).

Definition TOTAL_VOTING_POWER : StakeUnit := 10000.
Definition QUORUM_THRESHOLD : StakeUnit := 6667.
Definition VALIDITY_THRESHOLD : StakeUnit := 3334.
Definition U32_MOD : Z := 2 ^ 32.

(** [AuthorityPublicKey::try_from(AuthorityName)]. *)
Class AuthorityKeys := {
  AuthorityPublicKey : Type;
  try_into : AuthorityName → option AuthorityPublicKey;
}.

(** [SliceRandom::choose_multiple_weighted]; the weights are cast to [f64] by
    the caller and the cast belongs to the parameter. *)
Class WeightedRng := {
  rng : Type;
  slice_choose_multiple_weighted :
    list (AuthorityName * StakeUnit) → nat → rng → option (list (AuthorityName * StakeUnit)) * rng;
}.

(** Sampling as many elements as there are, without repetition, gives all of them. *)
Class WeightedRngLaws (R : WeightedRng) : Prop := {
  choose_all l r :
    Forall (λ p, 0 < p.2) l →
    ∃ l' r', slice_choose_multiple_weighted l (length l) r = (Some l', r') ∧ l' ≡ₚ l;
}.

(** * [slice::binary_search_by_key] *)

(** The loop [while size > 1] of the standard library. *)
Fixpoint search_loop {V} (l : list (Z * V)) (k : Z) (fuel base size : nat) : nat :=
  match fuel with
  | O => base
  | S fuel =>
      if (1 <? size)%nat then
        let half := (size / 2)%nat in
        let mid := (base + half)%nat in
        let greater := match l !! mid with Some p => k <? p.1 | None => false end in
        search_loop l k fuel (if greater then base else mid) (size - half)
      else base
  end.

Definition binary_search_by_key {V} (l : list (Z * V)) (k : Z) : result nat nat :=
  let base := search_loop l k (length l) 0 (length l) in
  match l !! base with
  | None => Err 0%nat
  | Some p => if p.1 =? k then Ok base else if p.1 <? k then Err (S base) else Err base
  end.

(** * The committee *)

Section committee.
Context {K : AuthorityKeys}.

Record Committee := mkCommittee {
  epoch : EpochId;
  voting_rights : list (AuthorityName * StakeUnit);
  expanded_keys : gmap AuthorityName AuthorityPublicKey;
  index_map : gmap AuthorityName Z;
}.
End committee.

(** The errors of [crates/sui-types/src/error.rs] that the modelled code returns, without
    their message texts. *)
Inductive SuiError :=
  | WrongEpoch (expected_epoch actual_epoch : EpochId)
  | UnknownSigner (signer : option AuthorityName) (index : option Z)
  | StakeAggregatorRepeatedSigner (signer : AuthorityName) (conflicting_sig : bool)
  | InvalidAddress
  | InvalidAuthenticator
  | InvalidSignature
  | CertificateRequiresQuorum
  | InvalidCommittee (authority : AuthorityName) (size : nat).

Module Comm.
Section comm.
Context {K : AuthorityKeys}.

(** The keys of [expanded_keys]; the [expect] panics on a name that is not a key. *)
Fixpoint expand (voting_rights : list (AuthorityName * StakeUnit)) :
    outcome (list (AuthorityName * AuthorityPublicKey)) :=
  match voting_rights with
  | [] => Ret []
  | (addr, _) :: l => k ← unwrap (try_into addr); r ← expand l; Ret ((addr, k) :: r)
  end.

Definition load_inner (voting_rights : list (AuthorityName * StakeUnit)) :
    outcome (gmap AuthorityName AuthorityPublicKey * gmap AuthorityName Z) :=
  expanded_keys ← expand voting_rights;
  let index_map := imap (λ index p, (p.1, Z.of_nat index)) voting_rights in
  Ret (collect expanded_keys, collect index_map).

Definition new (e : EpochId) (rights : gmap AuthorityName StakeUnit) : outcome Committee :=
  let voting_rights := btree_iter rights in
  assert_ (negb (bool_decide (voting_rights = [])));;
  assert_ (existsb (λ p, negb (p.2 =? 0)) voting_rights);;
  let voting_rights := sort_by_key fst voting_rights in
  let total_votes := sum_u64 voting_rights.*2 in
  assert_ (total_votes =? TOTAL_VOTING_POWER);;
  '(expanded_keys, index_map) ← load_inner voting_rights;
  Ret (mkCommittee e voting_rights expanded_keys index_map).

(** [i as u32] keeps the low 32 bits. *)
Definition authority_index (c : Committee) (author : AuthorityName) : option Z :=
  (λ i, i mod U32_MOD) <$> index_map c !! author.

Definition authority_by_index (c : Committee) (index : Z) : option AuthorityName :=
  fst <$> voting_rights c !! Z.to_nat index.

Definition public_key (c : Committee) (authority : AuthorityName) :
    result SuiError AuthorityPublicKey :=
  match expanded_keys c !! authority with
  | Some v => Ok v
  | None => Err (InvalidCommittee authority (size (expanded_keys c)))
  end.

Definition total_votes (_ : Committee) : StakeUnit := TOTAL_VOTING_POWER.
Definition quorum_threshold (_ : Committee) : StakeUnit := QUORUM_THRESHOLD.
Definition validity_threshold (_ : Committee) : StakeUnit := VALIDITY_THRESHOLD.
Definition threshold (STRENGTH : bool) (_ : Committee) : StakeUnit :=
  if STRENGTH then QUORUM_THRESHOLD else VALIDITY_THRESHOLD.

Definition num_members (c : Committee) : nat := length (voting_rights c).
Definition members (c : Committee) : list (AuthorityName * StakeUnit) := voting_rights c.
Definition names (c : Committee) : list AuthorityName := fst <$> voting_rights c.
Definition stakes (c : Committee) : list StakeUnit := snd <$> voting_rights c.

Definition authority_exists (c : Committee) (name : AuthorityName) : bool :=
  match binary_search_by_key (voting_rights c) name with Ok _ => true | Err _ => false end.

(** The index is in range ([weight_lookup] below), so the default is never used. *)
Definition weight (c : Committee) (author : AuthorityName) : StakeUnit :=
  match binary_search_by_key (voting_rights c) author with
  | Err _ => 0
  | Ok idx => default 0 (snd <$> voting_rights c !! idx)
  end.

Definition choose_multiple_weighted {R : WeightedRng} (slice : list (AuthorityName * StakeUnit))
    (count : nat) (r : rng) : outcome (list AuthorityName * rng) :=
  let '(chosen, r) := slice_choose_multiple_weighted slice count r in
  chosen ← unwrap chosen; Ret (chosen.*1, r).

Definition sample {R : WeightedRng} (c : Committee) (r : rng) : outcome (AuthorityName * rng) :=
  '(chosen, r) ← choose_multiple_weighted (voting_rights c) 1 r;
  name ← unwrap (head chosen); Ret (name, r).

(** The [filter] closure of [shuffle_by_stake_with_rng]. *)
Definition permitted (restrict_to : option (gset AuthorityName)) (name : AuthorityName) : Prop :=
  match restrict_to with Some s => name ∈ s | None => True end.

#[global] Instance permitted_dec restrict_to name : Decision (permitted restrict_to name).
Proof. destruct restrict_to; simpl; apply _. Defined.

Definition shuffle_by_stake_with_rng {R : WeightedRng} (c : Committee)
    (preferences restrict_to : option (gset AuthorityName)) (r : rng) :
    outcome (list AuthorityName * rng) :=
  let restricted := filter (λ p, permitted restrict_to p.1) (voting_rights c) in
  let '(preferred, rest) :=
    match preferences with
    | Some s => (filter (λ p, p.1 ∈ s) restricted, filter (λ p, p.1 ∉ s) restricted)
    | None => ([], restricted)
    end in
  '(l1, r) ← choose_multiple_weighted preferred (length preferred) r;
  '(l2, r) ← choose_multiple_weighted rest (length rest) r;
  Ret (l1 ++ l2, r).
End comm.
End Comm.

(** * The binary search *)

Section search.
Context {V : Type} (l : list (Z * V)) (k : Z).
Hypothesis Hl : StronglySorted key_lt l.

Lemma sorted_lookup_lt i j p q :
  l !! i = Some p → l !! j = Some q → (i < j)%nat → p.1 < q.1.
Proof.
  revert i j. induction Hl as [|r l' Hl' IH Hr]; intros i j Hi Hj Hij; [done|].
  destruct j as [|j]; [lia|]. simpl in Hj. destruct i as [|i]; simplify_eq/=.
  - rewrite Forall_forall in Hr. apply Hr. by eapply list_elem_of_lookup_2.
  - apply (IH Hl' i j); auto with lia.
Qed.

(** The loop keeps the position of the key inside the window. *)
Lemma search_loop_spec fuel base size :
  (size <= fuel)%nat → (1 <= size)%nat → (base + size <= length l)%nat →
  let b := search_loop l k fuel base size in
  (base <= b < length l)%nat ∧
  ∀ j p, l !! j = Some p → p.1 = k → (base <= j < base + size)%nat → j = b.
Proof.
  revert base size. induction fuel as [|fuel IH]; intros base size Hf Hs Hlen; [lia|].
  cbn [search_loop].
  destruct (Nat.ltb_spec 1 size).
  2: { split; [lia|]. intros. lia. }
  pose proof (Nat.div_lt size 2). pose proof (Nat.div_le_lower_bound size 2 1).
  assert (size / 2 + size / 2 <= size)%nat by (pose proof (Nat.Div0.mul_div_le size 2); lia).
  destruct (lookup_lt_is_Some_2 l (base + size / 2)) as [q Hq]; [lia|]. rewrite Hq.
  destruct (Z.ltb_spec k q.1) as [Hgt|Hle].
  - destruct (IH base (size - size / 2)%nat) as [Hb Hj]; [lia..|].
    split; [done|]. intros j p Hp Hk ?. apply (Hj j p); [done..|].
    destruct (decide (j < base + size / 2)%nat); [lia|].
    destruct (decide (j = base + size / 2)%nat); [simplify_eq; lia|].
    pose proof (sorted_lookup_lt _ j q p Hq Hp). lia.
  - destruct (IH (base + size / 2)%nat (size - size / 2)%nat) as [Hb Hj]; [lia..|].
    split; [lia|]. intros j p Hp Hk ?. apply (Hj j p); [done..|].
    destruct (decide (base + size / 2 <= j)%nat); [lia|].
    pose proof (sorted_lookup_lt j _ p q Hp Hq). lia.
Qed.

Lemma binary_search_spec :
  match binary_search_by_key l k with
  | Ok i => ∃ v, l !! i = Some (k, v)
  | Err _ => k ∉ l.*1
  end.
Proof.
  unfold binary_search_by_key. destruct (decide (length l = 0%nat)) as [Hz|Hz].
  { apply nil_length_inv in Hz. rewrite Hz. simpl. set_solver. }
  destruct (search_loop_spec (length l) 0 (length l)) as [Hb Hj]; [lia..|].
  destruct (lookup_lt_is_Some_2 l (search_loop l k (length l) 0 (length l))) as [[a v] Hv]; [lia|].
  rewrite Hv. simpl. destruct (Z.eqb_spec a k) as [->|Hne]; [eauto|].
  assert (k ∉ l.*1) as Hni.
  { intros [p [Hp Hin]]%list_elem_of_fmap. apply list_elem_of_lookup in Hin as [j Hin].
    pose proof (lookup_lt_Some _ _ _ Hin). assert (j = search_loop l k (length l) 0 (length l)) as ->.
    { apply (Hj j p); [done..|lia]. }
    simplify_eq/=. }
  by destruct (_ <? _).
Qed.
End search.

(** * Invariant and lookups *)

Section spec.
Context {K : AuthorityKeys}.
Implicit Types (c : Committee) (rights : gmap AuthorityName StakeUnit).

(** What a committee built by [new] satisfies. *)
Record committee_ok c : Prop := {
  ok_sorted : StronglySorted key_lt (voting_rights c);
  ok_stakes : Forall (λ p, 0 <= p.2) (voting_rights c);
  ok_total : zsum (Comm.stakes c) = TOTAL_VOTING_POWER;
  ok_index : index_map c = collect (imap (λ i p, (p.1, Z.of_nat i)) (voting_rights c));
  ok_keys a : a ∈ Comm.names c → ∃ k, try_into a = Some k ∧ expanded_keys c !! a = Some k;
}.

Lemma ok_nodup c : committee_ok c → NoDup (Comm.names c).
Proof. intros Hc. apply key_lt_NoDup, Hc. Qed.

(** The vector read as a table: this only needs it to be sorted. *)
Lemma weight_collect c a :
  StronglySorted key_lt (voting_rights c) →
  Comm.weight c a = default 0 (collect (voting_rights c) !! a).
Proof.
  intros Hc. unfold Comm.weight.
  pose proof (binary_search_spec (voting_rights c) a Hc) as Hs.
  pose proof (key_lt_NoDup _ Hc) as Hnd.
  destruct (binary_search_by_key _ _) as [i|e].
  - destruct Hs as [v Hv]. rewrite Hv. apply list_elem_of_lookup_2 in Hv.
    by rewrite (proj2 (collect_lookup _ a v Hnd) Hv).
  - rewrite collect_list_to_map by done. by rewrite not_elem_of_list_to_map_1.
Qed.

Lemma authority_exists_collect c a :
  StronglySorted key_lt (voting_rights c) →
  Comm.authority_exists c a = bool_decide (a ∈ Comm.names c).
Proof.
  intros Hc. unfold Comm.authority_exists.
  pose proof (binary_search_spec (voting_rights c) a Hc) as Hs.
  destruct (binary_search_by_key _ _) as [i|e].
  - destruct Hs as [v Hv]. rewrite bool_decide_true; [done|].
    apply list_elem_of_lookup_2 in Hv. by apply (list_elem_of_fmap_2 fst _ (a, v)).
  - by rewrite bool_decide_false.
Qed.

Lemma weight_elem c a w : committee_ok c → (a, w) ∈ voting_rights c → Comm.weight c a = w.
Proof.
  intros Hc Hin. rewrite weight_collect by apply Hc.
  by rewrite (proj2 (collect_lookup _ a w (ok_nodup c Hc)) Hin).
Qed.

Lemma weight_not_member c a : committee_ok c → a ∉ Comm.names c → Comm.weight c a = 0.
Proof.
  intros Hc Hni. rewrite weight_collect, collect_list_to_map by (apply Hc || by apply ok_nodup).
  by rewrite not_elem_of_list_to_map_1.
Qed.

Lemma weight_nonneg c a : committee_ok c → 0 <= Comm.weight c a.
Proof.
  intros Hc. destruct (decide (a ∈ Comm.names c)) as [Hin|Hni].
  - apply list_elem_of_fmap in Hin as [[a' w] [-> Hin]]. simpl.
    rewrite (weight_elem c a' w) by done.
    pose proof (ok_stakes c Hc) as Hst. rewrite Forall_forall in Hst. by apply (Hst (a', w)).
  - by rewrite weight_not_member.
Qed.

Lemma weight_pos_member c a : committee_ok c → 0 < Comm.weight c a → a ∈ Comm.names c.
Proof.
  intros Hc Hw. destruct (decide (a ∈ Comm.names c)); [done|].
  rewrite weight_not_member in Hw by done. lia.
Qed.

Lemma wsum_names c : committee_ok c → wsum (Comm.weight c) (Comm.names c) = TOTAL_VOTING_POWER.
Proof.
  intros Hc. rewrite <-(ok_total c Hc). unfold wsum, Comm.names, Comm.stakes.
  rewrite <-list_fmap_compose. f_equal. apply list_fmap_ext. intros i [a w] Hi.
  apply (weight_elem c a w Hc). by eapply list_elem_of_lookup_2.
Qed.

Definition member_set c : gset Z := list_to_set (Comm.names c).

Lemma wset_member_set c : committee_ok c → wset (Comm.weight c) (member_set c) = TOTAL_VOTING_POWER.
Proof. intros Hc. by rewrite <-(wsum_names c Hc), <-(wset_list_to_set _ (Comm.names c)) by by apply ok_nodup. Qed.

(** Strangers have no weight. *)
Lemma wset_members c (s : gset Z) :
  committee_ok c → wset (Comm.weight c) s = wset (Comm.weight c) (s ∩ member_set c).
Proof.
  intros Hc. rewrite (wset_difference _ s (s ∩ member_set c)) by set_solver.
  assert (wset (Comm.weight c) (s ∖ (s ∩ member_set c)) = 0) as ->; [|lia].
  rewrite (wset_ext _ (λ _, 0)).
  - unfold wset. induction (elements _); [done|]. by rewrite wsum_cons.
  - intros x Hx. apply weight_not_member; [done|]. unfold member_set in Hx. set_solver.
Qed.

(** No set of authorities weighs more than the committee. *)
Lemma wset_total c (s : gset Z) : committee_ok c → wset (Comm.weight c) s <= TOTAL_VOTING_POWER.
Proof.
  intros Hc. rewrite wset_members, <-(wset_member_set c Hc) by done.
  apply wset_mono; [by intros; apply weight_nonneg|set_solver].
Qed.

Lemma wset_others c (s : gset Z) :
  committee_ok c →
  wset (Comm.weight c) (member_set c ∖ s) = TOTAL_VOTING_POWER - wset (Comm.weight c) s.
Proof.
  intros Hc. rewrite (wset_members c s), <-(wset_member_set c Hc) by done.
  rewrite (wset_difference _ (member_set c) (s ∩ member_set c)) by set_solver.
  assert (member_set c ∖ (s ∩ member_set c) = member_set c ∖ s) as -> by set_solver. lia.
Qed.

Lemma authority_index_spec c a i :
  committee_ok c → Z.of_nat (Comm.num_members c) <= U32_MOD →
  Comm.authority_index c a = Some i ↔ 0 <= i ∧ Comm.authority_by_index c i = Some a.
Proof.
  intros Hc Hn. unfold Comm.authority_index, Comm.authority_by_index.
  pose proof (ok_index c Hc) as Hix.
  assert (NoDup (imap (λ i p, (p.1, Z.of_nat i)) (voting_rights c)).*1) as Hnd.
  { apply key_lt_NoDup. apply (StronglySorted_imap_key (λ i _, Z.of_nat i)). apply Hc. }
  rewrite fmap_Some, Hix. split.
  - intros (j & Hj & ->). apply (collect_lookup _ _ _ Hnd) in Hj.
    apply elem_of_lookup_imap in Hj as (n & [b w] & Heq & Hb). simplify_eq/=.
    pose proof (lookup_lt_Some _ _ _ Hb). unfold Comm.num_members in Hn.
    rewrite Z.mod_small by lia. rewrite Nat2Z.id, Hb. split; [lia|done].
  - intros (Hi & (p & Hp & ->)%fmap_Some). exists i.
    pose proof (lookup_lt_Some _ _ _ Hp). unfold Comm.num_members in Hn. split.
    + apply (collect_lookup _ _ _ Hnd). apply elem_of_lookup_imap.
      exists (Z.to_nat i), p. rewrite Z2Nat.id by lia. done.
    + rewrite Z.mod_small; lia.
Qed.

Lemma authority_index_member c a :
  committee_ok c → is_Some (Comm.authority_index c a) ↔ a ∈ Comm.names c.
Proof.
  intros Hc. unfold Comm.authority_index. rewrite fmap_is_Some, (ok_index c Hc).
  rewrite <-elem_of_dom, collect_list_to_map, dom_list_to_map_L.
  - rewrite elem_of_list_to_set. unfold Comm.names. by rewrite fmap_imap, <-imap_const.
  - apply key_lt_NoDup. apply (StronglySorted_imap_key (λ i _, Z.of_nat i)). apply Hc.
Qed.

(** ** [Committee::new] *)

Lemma expand_spec l :
  match Comm.expand l with
  | Ret r => r.*1 = l.*1 ∧ Forall (λ p, try_into p.1 = Some p.2) r
  | Panic => ∃ a, a ∈ l.*1 ∧ try_into a = None
  | OutOfFuel => False
  end.
Proof.
  induction l as [|[a s] l IH]; simpl; [by auto|].
  destruct (try_into a) as [k|] eqn:Hk; simpl; [|exists a; set_solver].
  destruct (Comm.expand l) as [r| |]; simpl; [|set_solver|done].
  destruct IH as [Heq IH]. split; [by f_equal|by constructor].
Qed.

(** The vector that [new] sorts is sorted already. *)
Lemma sort_btree_iter {V} (m : gmap Z V) : sort_by_key fst (btree_iter m) = btree_iter m.
Proof.
  apply key_lt_unique.
  - apply StronglySorted_key_lt; [apply (sort_by_key_sorted fst)|].
    rewrite sort_by_key_perm. apply NoDup_btree_keys.
  - apply btree_iter_key_lt.
  - apply sort_by_key_perm.
Qed.

Lemma zsum_zero (l : list (Z * Z)) :
  existsb (λ p, negb (p.2 =? 0)) l = false → zsum l.*2 = 0.
Proof.
  induction l as [|[a s] l IH]; [done|]. cbn [existsb snd].
  intros [Hs Hl]%orb_false_iff. change (s + zsum l.*2 = 0). rewrite (IH Hl).
  apply negb_false_iff, Z.eqb_eq in Hs. lia.
Qed.

(** The first two assertions follow from the third. *)
Lemma sum_u64_nonzero (l : list (Z * Z)) :
  sum_u64 l.*2 = TOTAL_VOTING_POWER → existsb (λ p, negb (p.2 =? 0)) l = true.
Proof.
  intros Hs. destruct (existsb _ l) eqn:He; [done|]. apply zsum_zero in He.
  pose proof (foldl_wadd_mod l.*2 0) as Hm. fold (sum_u64 l.*2) in Hm.
  rewrite Hs, He in Hm. vm_compute in Hm. discriminate.
Qed.

Lemma sui_new_spec e rights :
  (∃ ks, Comm.expand (btree_iter rights) = Ret ks ∧
    sum_u64 (btree_values rights) = TOTAL_VOTING_POWER ∧
    Comm.new e rights = Ret (mkCommittee e (btree_iter rights) (collect ks)
      (collect (imap (λ i p, (p.1, Z.of_nat i)) (btree_iter rights))))) ∨
  (Comm.new e rights = Panic ∧
    (sum_u64 (btree_values rights) ≠ TOTAL_VOTING_POWER ∨
     ∃ a, a ∈ dom rights ∧ try_into a = None)).
Proof.
  unfold Comm.new. rewrite sort_btree_iter. fold (btree_values rights).
  destruct (decide (sum_u64 (btree_values rights) = TOTAL_VOTING_POWER)) as [Hs|Hs].
  - pose proof (sum_u64_nonzero _ Hs) as Hex. rewrite Hex.
    rewrite bool_decide_false by (intros Hn; by rewrite Hn in Hex).
    rewrite (proj2 (Z.eqb_eq _ _) Hs). simpl. unfold Comm.load_inner.
    pose proof (expand_spec (btree_iter rights)) as Hx.
    destruct (Comm.expand _) as [ks| |]; [left; eauto| |done].
    right. split; [done|]. right. destruct Hx as (a & Ha & Hk). exists a. split; [|done].
    apply list_elem_of_fmap in Ha as [[b v] [-> Hin]]. apply elem_of_btree_iter in Hin.
    by apply elem_of_dom_2 in Hin.
  - right. split; [|by left]. rewrite (proj2 (Z.eqb_neq _ _) Hs).
    by destruct (bool_decide _), (existsb _ _).
Qed.
End spec.

(** ** Properties *)

Section properties.
Context {K : AuthorityKeys}.
Implicit Types (c : Committee) (rights : gmap AuthorityName StakeUnit).

(** The voting rights are [u64]s whose sum does not overflow. *)
Definition rights_fit rights : Prop :=
  (∀ a s, rights !! a = Some s → 0 <= s) ∧ zsum (btree_values rights) < U64_MOD.

Lemma new_ok e rights c : rights_fit rights → Comm.new e rights = Ret c → committee_ok c.
Proof.
  intros [Hpos Hfit] Hnew.
  destruct (sui_new_spec e rights) as [(ks & Hks & Hs & Heq)|[Heq _]]; [|congruence].
  rewrite Heq in Hnew. simplify_eq. pose proof (expand_spec (btree_iter rights)) as Hx.
  rewrite Hks in Hx. destruct Hx as [Hk1 Hk2].
  assert (∀ v, v ∈ btree_values rights → 0 <= v) as Hnn.
  { intros v [a Ha]%elem_of_btree_values. eauto. }
  split; simpl.
  - apply btree_iter_key_lt.
  - apply Forall_forall. intros [a v] Hin%elem_of_btree_iter. eauto.
  - rewrite <-Hs. symmetry. by apply sum_u64_zsum.
  - done.
  - unfold Comm.names. simpl. intros a Ha. rewrite <-Hk1 in Ha.
    apply list_elem_of_fmap in Ha as [[a' k] [-> Hin]].
    rewrite Forall_forall in Hk2. exists k. split; [by apply (Hk2 (a', k))|].
    apply collect_lookup; [|done]. rewrite Hk1. apply NoDup_btree_keys.
Qed.

(** [Committee::new] returns exactly when the stakes add up (as a [u64]) to the total
    voting power and every name decodes to a public key, and panics otherwise.
    The committee it returns has the given epoch; its binary search finds the
    voting right of every name (0 for a stranger), and it returns the decoded key
    of exactly the members. *)
Theorem sui_committee_new_correct e rights :
  match Comm.new e rights with
  | Ret c =>
      sum_u64 (btree_values rights) = TOTAL_VOTING_POWER ∧
      (∀ a, a ∈ dom rights → is_Some (try_into a)) ∧ epoch c = e ∧
      (∀ a, Comm.weight c a = default 0 (rights !! a)) ∧
      (∀ a, Comm.authority_exists c a = bool_decide (a ∈ dom rights)) ∧
      (∀ a k, Comm.public_key c a = Ok k ↔ a ∈ dom rights ∧ try_into a = Some k)
  | Panic =>
      sum_u64 (btree_values rights) ≠ TOTAL_VOTING_POWER ∨ ∃ a, a ∈ dom rights ∧ try_into a = None
  | OutOfFuel => False
  end.
Proof.
  destruct (sui_new_spec e rights) as [(ks & Hks & Hs & ->)|[-> Hp]]; [|done].
  pose proof (expand_spec (btree_iter rights)) as Hx. rewrite Hks in Hx. destruct Hx as [Hk1 Hk2].
  pose proof (btree_iter_key_lt rights) as Hlt.
  assert (∀ a, a ∈ dom rights ↔ a ∈ (btree_iter rights).*1) as Hdom.
  { intros a. rewrite btree_iter_perm, elem_of_dom. split.
    - intros [v Hv]. apply (list_elem_of_fmap_2 fst _ (a, v)). by apply elem_of_map_to_list.
    - intros [[b v] [-> Hin%elem_of_map_to_list]]%list_elem_of_fmap. eauto. }
  assert (∀ a k, (a, k) ∈ ks ↔ a ∈ dom rights ∧ try_into a = Some k) as Hkeys.
  { intros a k. rewrite Hdom, <-Hk1, Forall_forall in *. split.
    - intros Hin. split; [by apply (list_elem_of_fmap_2 fst _ (a, k))|by apply (Hk2 (a, k))].
    - intros [[[b k'] [-> Hin]]%list_elem_of_fmap Hk]. specialize (Hk2 _ Hin). simplify_eq/=. congruence. }
  split_and!; [done| |done|..].
  - intros a Ha. assert (a ∈ ks.*1) as Hin by (rewrite Hk1; by apply Hdom).
    apply list_elem_of_fmap in Hin as [[b k] [-> Hin]]. apply Hkeys in Hin as [_ Hk]. eauto.
  - intros a. rewrite weight_collect by done. simpl. f_equal. apply option_eq. intros v.
    rewrite collect_lookup by apply NoDup_btree_keys. apply elem_of_btree_iter.
  - intros a. rewrite authority_exists_collect by done. by apply bool_decide_ext.
  - intros a k. rewrite <-Hkeys, <-(collect_lookup ks) by (rewrite Hk1; apply NoDup_btree_keys).
    unfold Comm.public_key. simpl. destruct (collect ks !! a); split; congruence.
Qed.

Lemma quorums_meet c (s t : gset Z) :
  committee_ok c → Comm.quorum_threshold c <= wset (Comm.weight c) s →
  Comm.quorum_threshold c <= wset (Comm.weight c) t →
  Comm.validity_threshold c <= wset (Comm.weight c) (s ∩ t).
Proof.
  intros Hc Hs Ht. pose proof (wset_union_inter (Comm.weight c) s t).
  pose proof (wset_total c (s ∪ t) Hc).
  unfold Comm.quorum_threshold, Comm.validity_threshold, QUORUM_THRESHOLD, VALIDITY_THRESHOLD,
    TOTAL_VOTING_POWER in *. lia.
Qed.

(** in a committee that [new] built, any two sets of authorities that both reach the quorum
    threshold share authorities whose voting power reaches the validity threshold. *)
Theorem sui_quorum_intersection e rights c (s t : gset Z) :
  rights_fit rights → Comm.new e rights = Ret c →
  Comm.quorum_threshold c <= wset (Comm.weight c) s →
  Comm.quorum_threshold c <= wset (Comm.weight c) t →
  Comm.validity_threshold c <= wset (Comm.weight c) (s ∩ t).
Proof. intros Hf Hn. by apply quorums_meet, (new_ok e rights). Qed.

Context {R : WeightedRng} {RL : WeightedRngLaws R}.

(** When all voting rights are positive, [shuffle_by_stake_with_rng] does not
    panic; it returns every permitted member exactly once, the preferred ones first. *)
Theorem shuffle_by_stake_correct c preferences restrict_to r :
  Forall (λ p, 0 < p.2) (voting_rights c) →
  ∃ l1 l2 r', Comm.shuffle_by_stake_with_rng c preferences restrict_to r = Ret (l1 ++ l2, r') ∧
    l1 ++ l2 ≡ₚ filter (Comm.permitted restrict_to) (Comm.names c) ∧
    (∀ a, a ∈ l1 → ∃ s, preferences = Some s ∧ a ∈ s) ∧
    (∀ a s, a ∈ l2 → preferences = Some s → a ∉ s).
Proof.
  intros Hpos. unfold Comm.shuffle_by_stake_with_rng, Comm.choose_multiple_weighted.
  set (restricted := filter _ (voting_rights c)).
  set (split_ := match preferences with Some s => _ | None => _ end).
  assert (split_.1 ++ split_.2 ≡ₚ restricted ∧
    (∀ p, p ∈ split_.1 → ∃ s, preferences = Some s ∧ p.1 ∈ s) ∧
    (∀ p s, p ∈ split_.2 → preferences = Some s → p.1 ∉ s)) as (Hperm & H1 & H2).
  { subst split_. destruct preferences as [s|]; simpl.
    - split_and!; [apply filter_app_complement|..].
      + intros p [Hp _]%list_elem_of_filter. eauto.
      + intros p s' [Hp _]%list_elem_of_filter ?. by simplify_eq.
    - split_and!; [done|set_solver|done]. }
  assert (Forall (λ p, 0 < p.2) (split_.1 ++ split_.2)) as [Hp1 Hp2]%Forall_app.
  { rewrite Hperm. rewrite Forall_forall in *. subst restricted. intros p [_ Hp]%list_elem_of_filter. auto. }
  destruct split_ as [preferred rest]. simpl in *.
  destruct (choose_all preferred r Hp1) as (l1 & r1 & -> & Hl1). simpl.
  destruct (choose_all rest r1 Hp2) as (l2 & r2 & -> & Hl2). simpl.
  exists l1.*1, l2.*1, r2. split; [done|]. split_and!.
  - rewrite <-fmap_app, Hl1, Hl2, Hperm. subst restricted. unfold Comm.names.
    by rewrite filter_fmap.
  - intros a [p [-> Hp]]%list_elem_of_fmap. apply H1. by rewrite <-Hl1.
  - intros a s [p [-> Hp]]%list_elem_of_fmap. apply H2. by rewrite <-Hl2.
Qed.
End properties.

(** ** A concrete committee *)

#[global] Instance plain_keys : AuthorityKeys :=
  {| AuthorityPublicKey := Z; try_into a := if 0 <=? a then Some a else None |}.

(** Sampling in the order of the slice. *)
#[global] Instance ordered_rng : WeightedRng :=
  {| rng := unit; slice_choose_multiple_weighted l n r := (Some (take n l), r) |}.

#[global] Instance ordered_rng_laws : WeightedRngLaws ordered_rng.
Proof. split. intros l r _. exists l, r. simpl. by rewrite firstn_all. Qed.

Definition example_rights : gmap Z Z := {[ 1 := 1000; 2 := 3000; 3 := 2600; 4 := 3400 ]}.

Definition example_committee : Committee :=
  match Comm.new 7 example_rights with Ret c => c | _ => mkCommittee 0 [] ∅ ∅ end.

Lemma example_rights_fit : rights_fit example_rights.
Proof.
  split; [|vm_compute; reflexivity]. apply map_Forall_lookup. apply (bool_decide_unpack _).
  vm_compute. exact I.
Qed.

Lemma example_committee_new : Comm.new 7 example_rights = Ret example_committee.
Proof. vm_compute. reflexivity. Qed.

Lemma example_committee_ok : committee_ok example_committee.
Proof. apply (new_ok 7 example_rights); [apply example_rights_fit|apply example_committee_new]. Qed.

Lemma sui_quorum_intersection_witness :
  Comm.validity_threshold example_committee <=
    wset (Comm.weight example_committee) ({[ 1; 2; 3; 4 ]} ∩ {[ 1; 2; 4 ]}).
Proof.
  apply (sui_quorum_intersection 7 example_rights).
  - apply example_rights_fit.
  - apply example_committee_new.
  - vm_compute. discriminate.
  - vm_compute. discriminate.
Defined.

Lemma shuffle_by_stake_correct_witness :
  ∃ l1 l2 r', Comm.shuffle_by_stake_with_rng example_committee (Some {[ 3 ]}) (Some {[ 2; 3; 9 ]}) tt
      = Ret (l1 ++ l2, r') ∧
    l1 ++ l2 ≡ₚ filter (Comm.permitted (Some {[ 2; 3; 9 ]})) (Comm.names example_committee) ∧
    (∀ a, a ∈ l1 → ∃ s : gset Z, Some {[ 3 ]} = Some s ∧ a ∈ s) ∧
    (∀ a (s : gset Z), a ∈ l2 → Some {[ 3 ]} = Some s → a ∉ s).
Proof.
  apply (shuffle_by_stake_correct (R := ordered_rng) example_committee (Some {[ 3 ]}) (Some {[ 2; 3; 9 ]}) tt).
  apply (bool_decide_unpack _). vm_compute. exact I.
Defined.
