(* ===== verification/AuthoritySig.v ===== *)
(** * Authority signatures and quorum signatures ([crates/sui-types/src/crypto.rs])

    [AuthoritySignInfo] is one validator's signature, [AuthorityQuorumSignInfo] the
    aggregate of a quorum with a bitmap of its signers, and
    [VerificationObligation] collects what is then verified in one batch.

    The BLS library ([fastcrypto]) and BCS serialization are the class [SuiCrypto].  A
    [RoaringBitmap] is a finite set of 32-bit indices, iterated in increasing order. *)
From S2P Require Import Prelude SuiCommittee.

(** [Data] is the signed type [T], [SCOPE] its intent [Intent::sui_app(T::SCOPE)]. *)
Class SuiCrypto {K : AuthorityKeys} := {
  AuthoritySignature : Type;
  AggregateAuthoritySignature : Type;
  agg_default : AggregateAuthoritySignature;
  agg_add_signature : AggregateAuthoritySignature → AuthoritySignature → option AggregateAuthoritySignature;
  agg_add_aggregate :
    AggregateAuthoritySignature → AggregateAuthoritySignature → option AggregateAuthoritySignature;
  agg_aggregate : list AuthoritySignature → option AggregateAuthoritySignature;
  agg_batch_verify :
    list AggregateAuthoritySignature → list (list AuthorityPublicKey) → list (list Z) → bool;
  Data : Type;
  Intent : Type;
  SCOPE : Intent;
  intent_message_bytes : Intent → Data → list Z;
}.

(** BCS of a [u64]: eight bytes, the lowest first. *)
Definition bcs_u64 (n : Z) : list Z := (λ i, n / 2 ^ (8 * Z.of_nat i) mod 256) <$> seq 0 8.

Section types.
Context {K : AuthorityKeys} {C : SuiCrypto}.

Record AuthoritySignInfo := mkSignInfo {
  sig_epoch : EpochId;
  authority : AuthorityName;
  signature : AuthoritySignature;
}.

(** [STRONG_THRESHOLD] is the argument of the operations below. *)
Record AuthorityQuorumSignInfo := mkQuorumSignInfo {
  quorum_epoch : EpochId;
  quorum_signature : AggregateAuthoritySignature;
  signers_map : gset Z;
}.

Record VerificationObligation := mkObligation {
  messages : list (list Z);
  signatures : list AggregateAuthoritySignature;
  public_keys : list (list AuthorityPublicKey);
}.
End types.

Module Obligation.
Section obligation.
Context {K : AuthorityKeys} {C : SuiCrypto}.
Implicit Types o : VerificationObligation.

Definition new : VerificationObligation := mkObligation [] [] [].

Definition add_message (o : VerificationObligation) (message_value : Data) (e : EpochId)
    (intent : Intent) : nat * VerificationObligation :=
  let bytes := intent_message_bytes intent message_value ++ bcs_u64 e in
  let o := mkObligation (messages o ++ [bytes]) (signatures o ++ [agg_default]) (public_keys o ++ [[]]) in
  ((length (messages o) - 1)%nat, o).

(** [public_keys.get_mut(idx).ok_or(e)?.push(pk?)]. *)
Definition push_public_key (idx : nat) (e : SuiError) (pk : result SuiError AuthorityPublicKey) :
    SE VerificationObligation SuiError unit := λ o,
  match public_keys o !! idx, pk with
  | None, _ => (Err e, o)
  | Some _, Err e' => (Err e', o)
  | Some l, Ok k => (Ok tt, mkObligation (messages o) (signatures o) (<[idx := l ++ [k]]> (public_keys o)))
  end.

(** [signatures.get_mut(idx).ok_or(e)?.add(..).map_err(InvalidSignature)?]. *)
Definition extend_signature (idx : nat) (e : SuiError)
    (add : AggregateAuthoritySignature → option AggregateAuthoritySignature) :
    SE VerificationObligation SuiError unit := λ o,
  match signatures o !! idx with
  | None => (Err e, o)
  | Some s =>
      match add s with
      | None => (Err InvalidSignature, o)
      | Some s' => (Ok tt, mkObligation (messages o) (<[idx := s']> (signatures o)) (public_keys o))
      end
  end.

Definition add_signature_and_public_key (s : AuthoritySignature) (pk : AuthorityPublicKey) (idx : nat) :
    SE VerificationObligation SuiError unit :=
  push_public_key idx InvalidAuthenticator (Ok pk);;
  extend_signature idx InvalidAuthenticator (λ a, agg_add_signature a s).

Definition verify_all (o : VerificationObligation) : result SuiError unit :=
  if agg_batch_verify (signatures o) (public_keys o) (messages o) then Ok tt else Err InvalidSignature.

(** The shape of both [verify_secure] methods. *)
Definition verify_with (add : nat → SE VerificationObligation SuiError unit) (data : Data)
    (e : EpochId) (intent : Intent) : result SuiError unit :=
  let '(idx, o) := add_message new data e intent in
  match add idx o with
  | (Err err, _) => Err err
  | (Ok _, o) => verify_all o
  end.
End obligation.
End Obligation.

Module SignInfo.
Section sign_info.
Context {K : AuthorityKeys} {C : SuiCrypto}.

Definition add_to_verification_obligation (i : AuthoritySignInfo) (c : Committee) (message_index : nat) :
    SE VerificationObligation SuiError unit :=
  fp_ensure (sig_epoch i =? epoch c) (WrongEpoch (epoch c) (sig_epoch i));;
  let weight := Comm.weight c (authority i) in
  fp_ensure (0 <? weight) (UnknownSigner (Some (authority i)) None);;
  Obligation.push_public_key message_index InvalidAddress (Comm.public_key c (authority i));;
  Obligation.extend_signature message_index InvalidAddress (λ a, agg_add_signature a (signature i)).

Definition verify_secure (i : AuthoritySignInfo) (data : Data) (intent : Intent) (c : Committee) :
    result SuiError unit :=
  Obligation.verify_with (add_to_verification_obligation i c) data (sig_epoch i) intent.

(** [PartialEq]: the signatures are not compared. *)
Definition eq (i j : AuthoritySignInfo) : bool :=
  (sig_epoch i =? sig_epoch j) && (authority i =? authority j).
End sign_info.
End SignInfo.

Module QuorumSignInfo.
Section quorum_sign_info.
Context {K : AuthorityKeys} {C : SuiCrypto} (STRONG_THRESHOLD : bool).

Definition quorum_threshold (c : Committee) : StakeUnit := Comm.threshold STRONG_THRESHOLD c.

(** The loop over [signers_map]; returns the weight. *)
Fixpoint add_signers (c : Committee) (message_index : nat) (indices : list Z) (weight : StakeUnit) :
    SE VerificationObligation SuiError StakeUnit :=
  match indices with
  | [] => mret weight
  | authority_index :: rest =>
      match Comm.authority_by_index c authority_index with
      | None => se_throw (UnknownSigner None (Some authority_index))
      | Some a =>
          let voting_rights := Comm.weight c a in
          fp_ensure (0 <? voting_rights) (UnknownSigner (Some a) (Some authority_index));;
          Obligation.push_public_key message_index InvalidAuthenticator (Comm.public_key c a);;
          add_signers c message_index rest (wadd weight voting_rights)
      end
  end.

Definition add_to_verification_obligation (q : AuthorityQuorumSignInfo) (c : Committee)
    (message_index : nat) : SE VerificationObligation SuiError unit :=
  fp_ensure (quorum_epoch q =? epoch c) (WrongEpoch (epoch c) (quorum_epoch q));;
  Obligation.extend_signature message_index InvalidAuthenticator
    (λ a, agg_add_aggregate a (quorum_signature q));;
  weight ← add_signers c message_index (btree_set_iter (signers_map q)) 0;
  fp_ensure (quorum_threshold c <=? weight) CertificateRequiresQuorum.

Definition verify_secure (q : AuthorityQuorumSignInfo) (data : Data) (intent : Intent) (c : Committee) :
    result SuiError unit :=
  Obligation.verify_with (add_to_verification_obligation q c) data (quorum_epoch q) intent.

(** The bitmap of the signers' indices. *)
Fixpoint index_signers (c : Committee) (names : list AuthorityName) (map : gset Z) :
    result SuiError (gset Z) :=
  match names with
  | [] => Ok map
  | pk :: names =>
      match Comm.authority_index c pk with
      | None => Err (UnknownSigner (Some pk) None)
      | Some i => index_signers c names ({[ i ]} ∪ map)
      end
  end.

Definition new_from_auth_sign_infos (auth_sign_infos : list AuthoritySignInfo) (c : Committee) :
    result SuiError AuthorityQuorumSignInfo :=
  if negb (forallb (λ a, sig_epoch a =? epoch c) auth_sign_infos) then Err InvalidSignature else
  let total_stake := sum_u64 ((λ a, Comm.weight c (authority a)) <$> auth_sign_infos) in
  if negb (quorum_threshold c <=? total_stake) then Err InvalidSignature else
  let signatures := collect ((λ a, (authority a, signature a)) <$> auth_sign_infos) in
  match index_signers c (btree_iter signatures).*1 ∅ with
  | Err e => Err e
  | Ok map =>
      match agg_aggregate (btree_values signatures) with
      | None => Err InvalidSignature
      | Some s => Ok (mkQuorumSignInfo (epoch c) s map)
      end
  end.

Definition authorities (q : AuthorityQuorumSignInfo) (c : Committee) : list (result SuiError AuthorityName) :=
  (λ i, match Comm.authority_by_index c i with
        | Some a => Ok a | None => Err InvalidAuthenticator end) <$> btree_set_iter (signers_map q).

Definition len (q : AuthorityQuorumSignInfo) : Z := Z.of_nat (size (signers_map q)).
Definition is_empty (q : AuthorityQuorumSignInfo) : bool := bool_decide (signers_map q = ∅).
End quorum_sign_info.
End QuorumSignInfo.

(** * Specification *)

Section laws.
Context {K : AuthorityKeys} {C : SuiCrypto}.

(** The bytes that are signed. *)
Definition signed_bytes (data : Data) (e : EpochId) (intent : Intent) : list Z :=
  intent_message_bytes intent data ++ bcs_u64 e.

(** One signature verifies on its own. *)
Definition sig_valid (msg : list Z) (pk : AuthorityPublicKey) (s : AuthoritySignature) : Prop :=
  ∃ a, agg_add_signature agg_default s = Some a ∧ agg_batch_verify [a] [[pk]] [msg] = true.

(** Completeness of BLS aggregation: signatures of one message that verify one by one
    aggregate to one that verifies under the list of their keys. *)
Class SuiCryptoLaws : Prop := {
  aggregate_complete msg pks sigs :
    sigs ≠ [] → Forall2 (sig_valid msg) pks sigs →
    ∃ a a', agg_aggregate sigs = Some a ∧ agg_add_aggregate agg_default a = Some a' ∧
      agg_batch_verify [a'] [pks] [msg] = true;
}.
End laws.

Arguments SuiCryptoLaws {K} C.

Section spec.
Context {K : AuthorityKeys} {C : SuiCrypto}.
Implicit Types (c : Committee) (i : AuthoritySignInfo) (q : AuthorityQuorumSignInfo).

Lemma public_key_ok c a k : Comm.public_key c a = Ok k ↔ expanded_keys c !! a = Some k.
Proof. unfold Comm.public_key. destruct (_ !! a); split; congruence. Qed.

Lemma sign_info_verify i data intent c :
  SignInfo.verify_secure i data intent c = Ok tt ↔
    sig_epoch i = epoch c ∧ 0 < Comm.weight c (authority i) ∧
    ∃ k, expanded_keys c !! authority i = Some k ∧
      sig_valid (signed_bytes data (sig_epoch i) intent) k (signature i).
Proof.
  unfold SignInfo.verify_secure, Obligation.verify_with, SignInfo.add_to_verification_obligation. simpl.
  unfold_m. unfold Obligation.push_public_key, Obligation.extend_signature, sig_valid, signed_bytes.
  destruct (Z.eqb_spec (sig_epoch i) (epoch c)); simpl; [|naive_solver].
  destruct (Z.ltb_spec 0 (Comm.weight c (authority i))); simpl; [|naive_solver lia].
  destruct (Comm.public_key c (authority i)) as [k|err] eqn:Hk; simpl.
  2: { split; [done|]. intros (_ & _ & k & Hk' & _). apply public_key_ok in Hk'. congruence. }
  apply public_key_ok in Hk. rewrite Hk.
  destruct (agg_add_signature _ _) as [a|] eqn:Ha; simpl.
  2: { split; [done|]. intros (_ & _ & k' & Hk' & a' & Ha' & _). congruence. }
  unfold Obligation.verify_all. simpl. destruct (agg_batch_verify _ _ _) eqn:Hv.
  - split; [|done]. intros _. split_and!; [done..|]. exists k. split; [done|]. by exists a.
  - split; [done|]. intros (_ & _ & k' & Hk' & a' & Ha' & Hv'). simplify_eq. congruence.
Qed.

Lemma add_signers_ok c indices w ms ss ks w' o' :
  QuorumSignInfo.add_signers c 0 indices w (mkObligation ms ss [ks]) = (Ok w', o') ↔
  ∃ names keys,
    Forall2 (λ j a, Comm.authority_by_index c j = Some a) indices names ∧
    Forall (λ a, 0 < Comm.weight c a) names ∧
    Forall2 (λ a k, expanded_keys c !! a = Some k) names keys ∧
    w' = foldl wadd w (Comm.weight c <$> names) ∧ o' = mkObligation ms ss [ks ++ keys].
Proof.
  revert w ks. induction indices as [|j indices IH]; intros w ks; simpl.
  { unfold_m. split.
    - intros. simplify_eq. exists [], []. rewrite app_nil_r. auto.
    - intros (names & keys & Hn & _ & Hk & -> & ->).
      inversion Hn; subst. inversion Hk; subst. by rewrite app_nil_r. }
  destruct (Comm.authority_by_index c j) as [a|] eqn:Ha.
  2: { unfold_m. split; [done|]. intros (names & keys & Hn & _). inversion Hn; subst. congruence. }
  unfold_m. unfold Obligation.push_public_key. destruct (Z.ltb_spec 0 (Comm.weight c a)) as [Hw|Hw].
  2: { split; [done|]. intros (names & keys & Hn & Hp & _). inversion Hn; subst.
       inversion Hp; subst. simplify_eq. lia. }
  simpl. destruct (Comm.public_key c a) as [k|err] eqn:Hk.
  2: { split; [done|]. intros (names & keys & Hn & _ & Hkk & _).
       inversion Hn; subst. inversion Hkk; subst. simplify_eq.
       match goal with H : expanded_keys c !! _ = Some _ |- _ => apply public_key_ok in H end. congruence. }
  simpl. rewrite IH. apply public_key_ok in Hk. split.
  - intros (names & keys & Hn & Hp & Hkk & -> & ->). exists (a :: names), (k :: keys).
    split_and!; [by constructor..|done|]. by rewrite <-app_assoc.
  - intros (names & keys & Hn & Hp & Hkk & -> & ->).
    inversion Hn as [|? b ? names' Hb Hn']; subst. inversion Hp; subst.
    inversion Hkk as [|? k' ? keys' Hk' Hkk']; subst. simplify_eq.
    exists names', keys'. split_and!; [done..|]. by rewrite <-app_assoc.
Qed.
(** Distinct indices denote distinct members. *)
Lemma by_index_NoDup c indices names :
  committee_ok c → NoDup indices → Forall (λ j, 0 <= j) indices →
  Forall2 (λ j a, Comm.authority_by_index c j = Some a) indices names → NoDup names.
Proof.
  intros Hc Hnd Hpos Hn. induction Hn as [|j a indices names Hj Hn IH]; [constructor|].
  apply NoDup_cons in Hnd as [Hni Hnd]. apply Forall_cons in Hpos as [Hj0 Hpos].
  constructor; [|by auto]. intros Hin. destruct Hni.
  apply list_elem_of_lookup in Hin as [n Hin].
  destruct (Forall2_lookup_r _ _ _ _ _ Hn Hin) as (j' & Hj' & Ha).
  assert (j' = j) as <-; [|by eapply list_elem_of_lookup_2].
  assert (0 <= j') by (rewrite Forall_forall in Hpos; apply Hpos; by eapply list_elem_of_lookup_2).
  unfold Comm.authority_by_index in *. rewrite <-!list_lookup_fmap in *.
  pose proof (NoDup_lookup _ _ _ _ (ok_nodup c Hc) Ha Hj). lia.
Qed.

Lemma sum_weights c (l : list Z) :
  committee_ok c → NoDup l → sum_u64 (Comm.weight c <$> l) = wset (Comm.weight c) (list_to_set l).
Proof.
  intros Hc Hnd. rewrite wset_list_to_set by done. unfold wsum. apply sum_u64_zsum.
  - intros x [a [-> _]]%list_elem_of_fmap. by apply weight_nonneg.
  - fold (wsum (Comm.weight c) l). rewrite <-wset_list_to_set by done.
    pose proof (wset_total c (list_to_set l) Hc). unfold TOTAL_VOTING_POWER in *.
    assert (10000 < U64_MOD) by done. lia.
Qed.

(** The signers of a quorum signature, in index order. *)
Definition signed_by c q (names : list Z) : Prop :=
  Forall2 (λ j a, Comm.authority_by_index c j = Some a) (btree_set_iter (signers_map q)) names.

(** What it means for a quorum signature to verify. *)
Definition quorum_valid STRONG q data intent c (names : list Z) : Prop :=
  quorum_epoch q = epoch c ∧ signed_by c q names ∧ NoDup names ∧
  Forall (λ a, 0 < Comm.weight c a) names ∧
  Comm.threshold STRONG c <= wset (Comm.weight c) (list_to_set names) ∧
  ∃ keys a,
    Forall2 (λ a k, expanded_keys c !! a = Some k) names keys ∧
    agg_add_aggregate agg_default (quorum_signature q) = Some a ∧
    agg_batch_verify [a] [keys] [signed_bytes data (quorum_epoch q) intent] = true.

Lemma NoDup_btree_set_iter (s : gset Z) : NoDup (btree_set_iter s).
Proof. unfold btree_set_iter. rewrite merge_sort_Permutation. apply NoDup_elements. Qed.

Lemma signed_by_NoDup c q names :
  committee_ok c → (∀ j, j ∈ signers_map q → 0 <= j) → signed_by c q names → NoDup names.
Proof.
  intros Hc Hpos Hn. eapply (by_index_NoDup c); [done|apply NoDup_btree_set_iter| |exact Hn].
  apply Forall_forall. intros j Hj%elem_of_btree_set_iter. auto.
Qed.

Lemma quorum_verify STRONG q data intent c :
  committee_ok c → (∀ j, j ∈ signers_map q → 0 <= j) →
  QuorumSignInfo.verify_secure STRONG q data intent c = Ok tt ↔
    ∃ names, quorum_valid STRONG q data intent c names.
Proof.
  intros Hc Hpos. unfold QuorumSignInfo.verify_secure, Obligation.verify_with, quorum_valid,
    QuorumSignInfo.add_to_verification_obligation. simpl.
  unfold_m. unfold Obligation.extend_signature. simpl.
  destruct (Z.eqb_spec (quorum_epoch q) (epoch c)) as [He|He]; [|naive_solver].
  simpl. destruct (agg_add_aggregate agg_default _) as [a|] eqn:Ha; simpl.
  2: { split; [done|]. intros (? & _ & _ & _ & _ & _ & ? & ? & _ & Ha' & _). congruence. }
  destruct (QuorumSignInfo.add_signers _ _ _ _ _) as [[w|err] o] eqn:Hs.
  - apply add_signers_ok in Hs as (names & keys & Hn & Hp & Hk & -> & ->).
    pose proof (signed_by_NoDup c q names Hc Hpos Hn) as Hnd.
    fold (sum_u64 (Comm.weight c <$> names)). rewrite (sum_weights c names Hc Hnd).
    assert (∀ names', signed_by c q names' → names' = names) as Huniq.
    { intros names' Hn'. apply (Forall2_unique _ _ _ _ Hn' Hn). congruence. }
    unfold QuorumSignInfo.quorum_threshold.
    destruct (Z.leb_spec (Comm.threshold STRONG c) (wset (Comm.weight c) (list_to_set names))); simpl.
    2: { split; [done|]. intros (names' & _ & ->%Huniq & _ & _ & ? & _). lia. }
    unfold Obligation.verify_all. simpl. destruct (agg_batch_verify _ _ _) eqn:Hv; split; try done.
    + intros _. exists names. split_and!; [done..|]. by exists keys, a.
    + intros (names' & _ & ->%Huniq & _ & _ & _ & keys' & a' & Hk' & [= <-] & Hv').
      assert (keys' = keys) as ->; [|unfold signed_bytes in *; congruence].
      apply (Forall2_unique _ _ _ _ Hk' Hk). congruence.
  - split; [done|]. intros (names & _ & Hn & _ & Hp & _ & keys & a' & Hk & _).
    match type of Hs with QuorumSignInfo.add_signers _ _ _ _ (mkObligation ?m ?s _) = _ =>
      pose proof (proj2 (add_signers_ok c (btree_set_iter (signers_map q)) 0 m s [] _ _)
        (ex_intro _ names (ex_intro _ keys (conj Hn (conj Hp (conj Hk (conj eq_refl eq_refl))))))) end.
    congruence.
Qed.

(** C21: [AuthorityQuorumSignInfo::verify_secure] accepts exactly the signatures of the
    committee's epoch whose bitmap denotes distinct members with positive voting power
    that reaches the threshold, and whose aggregate verifies, over the
    message and epoch, under exactly those members' public keys. *)
Theorem quorum_verify_correct STRONG q data intent c :
  committee_ok c → (∀ j, j ∈ signers_map q → 0 <= j) →
  QuorumSignInfo.verify_secure STRONG q data intent c = Ok tt ↔
    ∃ names, quorum_valid STRONG q data intent c names.
Proof. apply quorum_verify. Qed.

(** ** Aggregation *)

Lemma index_signers_spec c names map :
  match QuorumSignInfo.index_signers c names map with
  | Ok m => ∃ idx, Forall2 (λ a j, Comm.authority_index c a = Some j) names idx ∧
              m = list_to_set idx ∪ map
  | Err e => ∃ a, a ∈ names ∧ Comm.authority_index c a = None ∧ e = UnknownSigner (Some a) None
  end.
Proof.
  revert map. induction names as [|a names IH]; intros map; simpl.
  - exists []. split; [done|set_solver].
  - destruct (Comm.authority_index c a) as [j|] eqn:Hj; [|exists a; set_solver].
    specialize (IH ({[ j ]} ∪ map)). destruct (QuorumSignInfo.index_signers _ _ _) as [m|e].
    + destruct IH as (idx & Hidx & ->). exists (j :: idx). split; [by constructor|set_solver].
    + destruct IH as (b & Hb & ?). exists b. set_solver.
Qed.

(** The vector is sorted by name, so names and indices have the same order. *)
Lemma authority_index_mono c a b (i j : Z) :
  committee_ok c → Z.of_nat (Comm.num_members c) <= U32_MOD →
  Comm.authority_index c a = Some i → Comm.authority_index c b = Some j → a < b → i < j.
Proof.
  intros Hc Hn Ha Hb Hlt.
  apply authority_index_spec in Ha as [Hi (p & Hp & ->)%fmap_Some]; [|done..].
  apply authority_index_spec in Hb as [Hj (r & Hr & ->)%fmap_Some]; [|done..].
  destruct (decide (i < j)); [done|]. exfalso.
  destruct (decide (i = j)); [simplify_eq; lia|].
  pose proof (sorted_lookup_lt _ (ok_sorted c Hc) _ _ _ _ Hr Hp). lia.
Qed.

Lemma index_sorted c names idx :
  committee_ok c → Z.of_nat (Comm.num_members c) <= U32_MOD →
  Forall2 (λ a j, Comm.authority_index c a = Some j) names idx →
  StronglySorted Z.lt names → StronglySorted Z.lt idx.
Proof.
  intros Hc Hn Hidx. induction Hidx as [|a j names idx Hj Hidx IH]; intros Hs; [constructor|].
  inversion Hs as [|? ? Hs' Ha]; subst. constructor; [auto|].
  rewrite Forall_forall in *. intros j' [n Hj']%list_elem_of_lookup.
  destruct (Forall2_lookup_r _ _ _ _ _ Hidx Hj') as (b & Hb & Hib).
  eapply authority_index_mono; eauto. apply Ha. by eapply list_elem_of_lookup_2.
Qed.

Definition by_authority (infos : list AuthoritySignInfo) : gmap Z AuthoritySignature :=
  collect ((λ i, (authority i, signature i)) <$> infos).

(** The conditions under which [new_from_auth_sign_infos] accepts. *)
Definition infos_ok STRONG c (infos : list AuthoritySignInfo) : Prop :=
  Forall (λ i, sig_epoch i = epoch c) infos ∧
  Forall (λ i, authority i ∈ Comm.names c) infos ∧
  Comm.threshold STRONG c <= wset (Comm.weight c) (list_to_set (authority <$> infos)).

Lemma elem_of_by_authority infos a :
  NoDup (authority <$> infos) → a ∈ (btree_iter (by_authority infos)).*1 ↔ a ∈ authority <$> infos.
Proof.
  intros Hnd. rewrite btree_iter_perm. unfold by_authority. rewrite collect_list_to_map.
  - rewrite map_to_list_to_map; rewrite <-list_fmap_compose; [done|by apply Hnd].
  - rewrite <-list_fmap_compose. apply Hnd.
Qed.

Lemma new_from_spec STRONG infos c :
  committee_ok c → Z.of_nat (Comm.num_members c) <= U32_MOD → NoDup (authority <$> infos) →
  match QuorumSignInfo.new_from_auth_sign_infos STRONG infos c with
  | Ok q =>
      infos_ok STRONG c infos ∧ quorum_epoch q = epoch c ∧
      signed_by c q (btree_iter (by_authority infos)).*1 ∧
      (∀ j, j ∈ signers_map q → 0 <= j) ∧
      agg_aggregate (btree_values (by_authority infos)) = Some (quorum_signature q)
  | Err e =>
      ¬ infos_ok STRONG c infos ∨ agg_aggregate (btree_values (by_authority infos)) = None
  end.
Proof.
  intros Hc Hn Hnd. unfold QuorumSignInfo.new_from_auth_sign_infos, infos_ok.
  destruct (forallb _ infos) eqn:Hep; simpl.
  2: { left. intros (He & _). apply not_true_iff_false in Hep. apply Hep, forallb_forall.
       intros i Hi. rewrite Forall_forall in He. apply Z.eqb_eq, He. by apply list_elem_of_In. }
  rewrite forallb_forall in Hep.
  assert (Forall (λ i, sig_epoch i = epoch c) infos) as He.
  { apply Forall_forall. intros i Hi. apply Z.eqb_eq, Hep. by apply list_elem_of_In. }
  assert ((λ a, Comm.weight c (authority a)) <$> infos = Comm.weight c <$> (authority <$> infos)) as ->
    by by rewrite <-list_fmap_compose.
  rewrite sum_weights by done.
  unfold QuorumSignInfo.quorum_threshold. destruct (Z.leb_spec (Comm.threshold STRONG c)
    (wset (Comm.weight c) (list_to_set (authority <$> infos)))); simpl.
  2: { left. intros (_ & _ & ?). lia. }
  fold (by_authority infos).
  pose proof (index_signers_spec c (btree_iter (by_authority infos)).*1 ∅) as Hix.
  destruct (QuorumSignInfo.index_signers _ _ _) as [m|e].
  2: { left. intros (_ & Hm & _). destruct Hix as (a & Ha%elem_of_by_authority & Hnone & _); [|done].
       apply list_elem_of_fmap in Ha as (i & -> & Hi). rewrite Forall_forall in Hm.
       apply Hm, (authority_index_member c) in Hi; [|done]. rewrite Hnone in Hi. by destruct Hi. }
  destruct Hix as (idx & Hidx & ->).
  destruct (agg_aggregate _) as [s|]; [|by right]. simpl.
  assert (∀ a j, Comm.authority_index c a = Some j → 0 <= j ∧ Comm.authority_by_index c j = Some a) as Hback.
  { intros a j Hj. by apply authority_index_spec. }
  split_and!; try done.
  - apply Forall_forall. intros i Hi. apply (authority_index_member c _ Hc).
    assert (authority i ∈ (btree_iter (by_authority infos)).*1) as [k Hk]%list_elem_of_lookup.
    { apply elem_of_by_authority; [done|]. by apply list_elem_of_fmap_2. }
    destruct (Forall2_lookup_l _ _ _ _ _ Hidx Hk) as (j & _ & ->). eauto.
  - unfold signed_by. simpl. rewrite (right_id_L ∅ (∪)), btree_set_iter_list.
    + apply Forall2_flip. eapply Forall2_impl; [exact Hidx|]. intros a j Hj. by apply Hback.
    + eapply index_sorted; [done..|exact Hidx|]. apply key_lt_fst, btree_iter_key_lt.
  - intros j Hj. rewrite (right_id_L ∅ (∪)), elem_of_list_to_set in Hj.
    apply list_elem_of_lookup in Hj as [k Hk].
    destruct (Forall2_lookup_r _ _ _ _ _ Hidx Hk) as (a & _ & Ha). by apply (Hback a).
Qed.

Lemma by_authority_elem infos a s :
  NoDup (authority <$> infos) →
  (a, s) ∈ btree_iter (by_authority infos) ↔ ∃ i, i ∈ infos ∧ authority i = a ∧ signature i = s.
Proof.
  intros Hnd. rewrite elem_of_btree_iter. unfold by_authority.
  rewrite collect_lookup by (rewrite <-list_fmap_compose; apply Hnd).
  rewrite list_elem_of_fmap. naive_solver.
Qed.

Lemma threshold_pos STRONG c : 0 < Comm.threshold STRONG c.
Proof. by destruct STRONG. Qed.

Context {CL : SuiCryptoLaws C}.

(** Signatures that verify one by one aggregate to a quorum signature that verifies. *)
Lemma aggregate_valid STRONG infos data intent c :
  committee_ok c → Z.of_nat (Comm.num_members c) <= U32_MOD → NoDup (authority <$> infos) →
  Forall (λ i, SignInfo.verify_secure i data intent c = Ok tt) infos →
  Comm.threshold STRONG c <= wset (Comm.weight c) (list_to_set (authority <$> infos)) →
  ∃ q, QuorumSignInfo.new_from_auth_sign_infos STRONG infos c = Ok q ∧
    QuorumSignInfo.verify_secure STRONG q data intent c = Ok tt ∧
    signed_by c q (btree_iter (by_authority infos)).*1.
Proof.
  intros Hc Hn Hnd Hv Hw.
  set (msg := signed_bytes data (epoch c) intent).
  assert (∀ i, i ∈ infos → sig_epoch i = epoch c ∧ 0 < Comm.weight c (authority i) ∧
    ∃ k, expanded_keys c !! authority i = Some k ∧ sig_valid msg k (signature i)) as Hi.
  { intros i Hi. rewrite Forall_forall in Hv. apply Hv, sign_info_verify in Hi as (He & ? & k & ? & Hk).
    rewrite He in Hk. eauto 10. }
  assert (∃ keys, Forall2 (λ p k, expanded_keys c !! p.1 = Some k ∧ sig_valid msg k p.2)
    (btree_iter (by_authority infos)) keys) as [keys Hkeys].
  { apply Forall_choice, Forall_forall. intros [a s] (i & Hin & <- & <-)%by_authority_elem; [|done].
    by apply Hi. }
  destruct (aggregate_complete msg keys (btree_values (by_authority infos))) as (s & s' & Hs & Hs' & Hb).
  { intros Hnil. pose proof (threshold_pos STRONG c). destruct infos as [|i infos].
    - simpl in Hw. rewrite wset_empty in Hw. lia.
    - assert ((authority i, signature i) ∈ btree_iter (by_authority (i :: infos))) as Hin.
      { apply by_authority_elem; [done|]. exists i. set_solver. }
      apply (list_elem_of_fmap_2 snd) in Hin. fold (btree_values (by_authority (i :: infos))) in Hin.
      rewrite Hnil in Hin. set_solver. }
  { unfold btree_values. apply Forall2_fmap_r, Forall2_flip.
    eapply Forall2_impl; [exact Hkeys|]. by intros p k []. }
  pose proof (new_from_spec STRONG infos c Hc Hn Hnd) as Hnew.
  destruct (QuorumSignInfo.new_from_auth_sign_infos STRONG infos c) as [q|e].
  - destruct Hnew as (_ & He & Hsb & Hpos & Hq). exists q. split_and!; [done| |done].
    apply quorum_verify; [done..|]. exists (btree_iter (by_authority infos)).*1.
    pose proof (signed_by_NoDup c q _ Hc Hpos Hsb). split_and!; [done..| | |].
    + apply Forall_forall. intros a Ha. apply elem_of_by_authority, list_elem_of_fmap in Ha
        as (i & -> & Hin); [|done]. by apply Hi.
    + assert (list_to_set (btree_iter (by_authority infos)).*1 = (list_to_set (authority <$> infos) : gset Z))
        as ->; [|done]. apply set_eq. intros a. rewrite !elem_of_list_to_set. by apply elem_of_by_authority.
    + exists keys, s'. split_and!; [|congruence|by rewrite He].
      apply Forall2_fmap_l. eapply Forall2_impl; [exact Hkeys|]. by intros p k [].
  - destruct Hnew as [Hnot|Hnone]; [|congruence]. destruct Hnot. split_and!; [..|done].
    + apply Forall_forall. intros i Hin. by apply Hi.
    + apply Forall_forall. intros i Hin. apply weight_pos_member; [done|]. by apply Hi.
Qed.
End spec.

Section properties.
Context {K : AuthorityKeys} {C : SuiCrypto}.

(** C34: two strong quorum signatures that verify against the same committee, over whatever
    messages, have common signers whose voting power reaches the validity threshold. *)
Theorem certificates_intersect q q' data data' intent intent' c :
  committee_ok c → (∀ j, j ∈ signers_map q ∪ signers_map q' → 0 <= j) →
  QuorumSignInfo.verify_secure true q data intent c = Ok tt →
  QuorumSignInfo.verify_secure true q' data' intent' c = Ok tt →
  ∃ names names', signed_by c q names ∧ signed_by c q' names' ∧
    Comm.validity_threshold c <= wset (Comm.weight c) (list_to_set names ∩ list_to_set names').
Proof.
  intros Hc Hpos Hv Hv'.
  apply quorum_verify in Hv as (names & _ & Hs & _ & _ & Hw & _); [|set_solver..].
  apply quorum_verify in Hv' as (names' & _ & Hs' & _ & _ & Hw' & _); [|set_solver..].
  exists names, names'. split_and!; [done..|]. by apply quorums_meet.
Qed.

(** when every collected signature verifies on its own and the signers reach the
    threshold, [new_from_auth_sign_infos] succeeds, its result verifies, and its bitmap
    denotes exactly the signers. *)
Theorem aggregate_verifies {CL : SuiCryptoLaws C} STRONG infos data intent c :
  committee_ok c → Z.of_nat (Comm.num_members c) <= U32_MOD → NoDup (authority <$> infos) →
  Forall (λ i, SignInfo.verify_secure i data intent c = Ok tt) infos →
  Comm.threshold STRONG c <= wset (Comm.weight c) (list_to_set (authority <$> infos)) →
  ∃ q names, QuorumSignInfo.new_from_auth_sign_infos STRONG infos c = Ok q ∧
    QuorumSignInfo.verify_secure STRONG q data intent c = Ok tt ∧
    signed_by c q names ∧ names ≡ₚ authority <$> infos.
Proof.
  intros Hc Hn Hnd Hv Hw.
  destruct (aggregate_valid STRONG infos data intent c) as (q & ? & ? & ?); [done..|].
  exists q, (btree_iter (by_authority infos)).*1. split_and!; [done..|].
  apply NoDup_Permutation; [apply NoDup_btree_keys|done|]. intros a. by apply elem_of_by_authority.
Qed.
End properties.

(** * A concrete scheme *)

(** Additive signatures: a key [k] signs [m] with [k + zsum m]. *)
Definition sum_verify (s : Z) (pks : list Z) (m : list Z) : bool :=
  s =? zsum ((λ k, k + zsum m) <$> pks).

#[global] Instance sum_crypto : SuiCrypto (K := plain_keys) := {|
  AuthoritySignature := Z;
  AggregateAuthoritySignature := Z;
  agg_default := 0;
  agg_add_signature a s := Some (a + s);
  agg_add_aggregate a b := Some (a + b);
  agg_aggregate l := match l with [] => None | _ => Some (zsum l) end;
  agg_batch_verify sigs pks msgs :=
    forallb (λ p, sum_verify p.1.1 p.1.2 p.2) (zip (zip sigs pks) msgs);
  Data := Z;
  Intent := Z;
  SCOPE := 0;
  intent_message_bytes i d := [i; d];
|}.

Lemma sum_aggregate msg (pks sigs : list Z) :
  Forall2 (sig_valid (C := sum_crypto) msg) pks sigs → zsum sigs = zsum ((λ k, k + zsum msg) <$> pks).
Proof.
  induction 1 as [|k s pks sigs (a & Ha & Hv) _ IH]; [done|].
  simpl in Ha. simplify_eq. simpl in Hv. rewrite andb_true_r in Hv. unfold sum_verify in Hv.
  apply Z.eqb_eq in Hv. simpl in Hv. change (zsum (s :: sigs)) with (s + zsum sigs).
  change (zsum ((λ k, k + zsum msg) <$> k :: pks))
    with (k + zsum msg + zsum ((λ k, k + zsum msg) <$> pks)). lia.
Qed.

#[global] Instance sum_crypto_laws : SuiCryptoLaws sum_crypto.
Proof.
  split. intros msg pks sigs Hne Hv. apply sum_aggregate in Hv.
  exists (zsum sigs), (zsum sigs). split_and!.
  - by destruct sigs.
  - done.
  - simpl. rewrite andb_true_r. unfold sum_verify. by apply Z.eqb_eq.
Qed.

(** A correct signature of the example committee on message [d]. *)
Definition good_sig (d a : Z) : AuthoritySignInfo (C := sum_crypto) :=
  mkSignInfo (C := sum_crypto) 7 a (a + zsum ([0; d] ++ bcs_u64 7)).

Definition example_infos (d : Z) (l : list Z) : list (AuthoritySignInfo (C := sum_crypto)) :=
  good_sig d <$> l.

Definition example_quorum (d : Z) (l : list Z) : AuthorityQuorumSignInfo (C := sum_crypto) :=
  match QuorumSignInfo.new_from_auth_sign_infos true (example_infos d l) example_committee with
  | Ok q => q | Err _ => mkQuorumSignInfo (C := sum_crypto) 0 0 ∅ end.

Lemma quorum_verify_correct_witness :
  QuorumSignInfo.verify_secure (C := sum_crypto) true (example_quorum 5 [2; 3; 4]) 5 0 example_committee = Ok tt ↔
    ∃ names, quorum_valid (C := sum_crypto) true (example_quorum 5 [2; 3; 4]) 5 0 example_committee names.
Proof.
  apply (quorum_verify_correct (C := sum_crypto)); [apply example_committee_ok|].
  apply set_Forall_elements. apply (bool_decide_unpack _). vm_compute. exact I.
Defined.

Lemma certificates_intersect_witness :
  ∃ names names', signed_by (C := sum_crypto) example_committee (example_quorum 5 [2; 3; 4]) names ∧
    signed_by (C := sum_crypto) example_committee (example_quorum 6 [1; 2; 4]) names' ∧
    Comm.validity_threshold example_committee <=
      wset (Comm.weight example_committee) (list_to_set names ∩ list_to_set names').
Proof.
  apply (certificates_intersect (C := sum_crypto) _ _ 5 6 0 0).
  - apply example_committee_ok.
  - apply set_Forall_elements. apply (bool_decide_unpack _). vm_compute. exact I.
  - vm_compute. reflexivity.
  - vm_compute. reflexivity.
Defined.

Lemma aggregate_verifies_witness :
  ∃ q names,
    QuorumSignInfo.new_from_auth_sign_infos true (example_infos 5 [4; 2; 3]) example_committee = Ok q ∧
    QuorumSignInfo.verify_secure (C := sum_crypto) true q 5 0 example_committee = Ok tt ∧
    signed_by example_committee q names ∧ names ≡ₚ authority <$> example_infos 5 [4; 2; 3].
Proof.
  apply (aggregate_verifies (C := sum_crypto) true).
  - apply example_committee_ok.
  - vm_compute. discriminate.
  - apply (bool_decide_unpack _). vm_compute. exact I.
  - repeat constructor; vm_compute; reflexivity.
  - vm_compute. discriminate.
Defined.
