(* ===== verification/StakeAggregator.v ===== *)
(** * Stake aggregation ([crates/sui-core/src/stake_aggregator.rs])

    [StakeAggregator] counts the voting power behind one value and returns a quorum
    signature; [MultiStakeAggregator] keeps one per value and tells when no value
    can reach a quorum any more; [GenericMultiStakeAggregator] does the same without
    signatures.  The [HashMap]s are [gmap]s; where the code iterates over
    one, its iteration order is that of [map_to_list]. *)
From S2P Require Import Prelude SuiCommittee AuthoritySig.

(** [PartialEq] of the type of votes. *)
Class RustEq (S : Type) := rust_eq : S → S → bool.

#[global] Instance unit_rust_eq : RustEq unit := λ _ _, true.
#[global] Instance sign_info_rust_eq {K : AuthorityKeys} {C : SuiCrypto} : RustEq AuthoritySignInfo :=
  SignInfo.eq.

Section types.
Context {K : AuthorityKeys}.

Record StakeAggregator (S : Type) := mkAggregator {
  data : gmap AuthorityName S;
  total_votes : StakeUnit;
  committee : Committee;
}.

Inductive InsertResult (CertT : Type) :=
  | QuorumReached (c : CertT)
  | Failed (error : SuiError)
  | NotEnoughVotes (bad_votes : Z) (bad_authorities : list AuthorityName).

End types.

Arguments mkAggregator {K S}.
Arguments data {K S}.
Arguments total_votes {K S}.
Arguments committee {K S}.
Arguments QuorumReached {CertT}.
Arguments Failed {CertT}.
Arguments NotEnoughVotes {CertT}.

Definition is_quorum_reached {CertT} (r : InsertResult CertT) : bool :=
  match r with QuorumReached _ => true | _ => false end.

Module Agg.
Section agg.
Context {K : AuthorityKeys} (STRENGTH : bool).

Section generic.
Context {S : Type} `{!RustEq S}.
Implicit Types a : StakeAggregator S.

Definition new (c : Committee) : StakeAggregator S := mkAggregator ∅ 0 c.

Definition has_quorum (a : StakeAggregator S) : bool :=
  Comm.threshold STRENGTH (committee a) <=? total_votes a.

Definition insert_generic (a : StakeAggregator S) (authority : AuthorityName) (s : S) :
    InsertResult (gmap AuthorityName S) * StakeAggregator S :=
  match data a !! authority with
  | Some old => (Failed (StakeAggregatorRepeatedSigner authority (rust_eq old s)), a)
  | None =>
      let a := mkAggregator (<[authority := s]> (data a)) (total_votes a) (committee a) in
      let votes := Comm.weight (committee a) authority in
      if 0 <? votes then
        let a := mkAggregator (data a) (wadd (total_votes a) votes) (committee a) in
        if Comm.threshold STRENGTH (committee a) <=? total_votes a then (QuorumReached (data a), a)
        else (NotEnoughVotes 0 [], a)
      else (Failed InvalidAuthenticator, a)
  end.

Fixpoint from_iter_loop (a : StakeAggregator S) (l : list (AuthorityName * S)) : StakeAggregator S :=
  match l with
  | [] => a
  | (authority, s) :: l => from_iter_loop (insert_generic a authority s).2 l
  end.

Definition from_iter (c : Committee) (l : list (AuthorityName * S)) : StakeAggregator S :=
  from_iter_loop (new c) l.

Definition contains_key (a : StakeAggregator S) (authority : AuthorityName) : bool :=
  bool_decide (is_Some (data a !! authority)).
Definition keys (a : StakeAggregator S) : list AuthorityName := (map_to_list (data a)).*1.
Definition validator_sig_count (a : StakeAggregator S) : nat := size (data a).
End generic.

Section signed.
Context {C : SuiCrypto}.

(** The loop that verifies the signatures one by one and drops the bad ones. *)
Fixpoint drop_bad (d : Data) (sigs : list (AuthorityName * AuthoritySignInfo))
    (a : StakeAggregator AuthoritySignInfo) (bad_votes : Z) (bad_authorities : list AuthorityName) :
    InsertResult AuthorityQuorumSignInfo * StakeAggregator AuthoritySignInfo :=
  match sigs with
  | [] => (NotEnoughVotes bad_votes bad_authorities, a)
  | (name, sig) :: sigs =>
      match SignInfo.verify_secure sig d SCOPE (committee a) with
      | Ok _ => drop_bad d sigs a bad_votes bad_authorities
      | Err _ =>
          let votes := Comm.weight (committee a) name in
          drop_bad d sigs
            (mkAggregator (delete name (data a)) (wsub (total_votes a) votes) (committee a))
            (wadd bad_votes votes) (bad_authorities ++ [name])
      end
  end.

(** The envelope is the pair of its data and its signature. *)
Definition insert (a : StakeAggregator AuthoritySignInfo) (envelope : Data * AuthoritySignInfo) :
    InsertResult AuthorityQuorumSignInfo * StakeAggregator AuthoritySignInfo :=
  let '(d, sig) := envelope in
  if negb (epoch (committee a) =? sig_epoch sig)
  then (Failed (WrongEpoch (epoch (committee a)) (sig_epoch sig)), a)
  else
    match insert_generic a (authority sig) sig with
    | (QuorumReached _, a) =>
        match QuorumSignInfo.new_from_auth_sign_infos STRENGTH (map_to_list (data a)).*2 (committee a) with
        | Ok aggregated =>
            match QuorumSignInfo.verify_secure STRENGTH aggregated d SCOPE (committee a) with
            | Ok _ => (QuorumReached aggregated, a)
            | Err _ => drop_bad d (map_to_list (data a)) a 0 []
            end
        | Err error => (Failed error, a)
        end
    | (Failed error, a) => (Failed error, a)
    | (NotEnoughVotes bad_votes bad_authorities, a) => (NotEnoughVotes bad_votes bad_authorities, a)
    end.
End signed.
End agg.
End Agg.

Arguments Agg.insert : simpl never.

(** ** One aggregator per value *)

Section multi_types.
Context {K : AuthorityKeys} {C : SuiCrypto}.

(** A key [K] of the map (a digest) is a [Z]; the value [V] is the signed data. *)
Record MultiStakeAggregator := mkMulti {
  multi_committee : Committee;
  stake_maps : gmap Z (Data * StakeAggregator AuthoritySignInfo);
}.

Record GenericMultiStakeAggregator := mkGenericMulti {
  generic_committee : Committee;
  generic_stake_maps : gmap Z (StakeAggregator unit);
  votes_per_authority : gmap AuthorityName Z;
}.
End multi_types.

Module Multi.
Section multi.
Context {K : AuthorityKeys} {C : SuiCrypto} (STRENGTH : bool).
Implicit Types m : MultiStakeAggregator.

Definition new (c : Committee) : MultiStakeAggregator := mkMulti c ∅.
Definition unique_key_count (m : MultiStakeAggregator) : nat := size (stake_maps m).

(** The accumulated votes of every value. *)
Definition values (m : MultiStakeAggregator) : list StakeUnit :=
  (λ p, total_votes p.2.2) <$> map_to_list (stake_maps m).

Definition total_votes_ (m : MultiStakeAggregator) : StakeUnit := sum_u64 (values m).

Definition insert (m : MultiStakeAggregator) (k : Z) (envelope : Data * AuthoritySignInfo) :
    InsertResult AuthorityQuorumSignInfo * MultiStakeAggregator :=
  match stake_maps m !! k with
  | Some (v, entry) =>
      let '(r, entry) := Agg.insert STRENGTH entry envelope in
      (r, mkMulti (multi_committee m) (<[k := (v, entry)]> (stake_maps m)))
  | None =>
      let '(r, new_entry) := Agg.insert STRENGTH (Agg.new (multi_committee m)) envelope in
      match r with
      | Failed _ => (r, m)
      | _ => (r, mkMulti (multi_committee m) (<[k := (envelope.1, new_entry)]> (stake_maps m)))
      end
  end.

Definition get_all_unique_values (m : MultiStakeAggregator) : gmap Z (list AuthorityName * StakeUnit) :=
  (λ p, (Agg.keys p.2, total_votes p.2)) <$> stake_maps m.

Definition authorities_for_key (m : MultiStakeAggregator) (k : Z) : option (list AuthorityName) :=
  (λ p, Agg.keys p.2) <$> stake_maps m !! k.

Definition uncommitted_stake (m : MultiStakeAggregator) : StakeUnit :=
  wsub (Comm.total_votes (multi_committee m)) (total_votes_ m).

Definition plurality_stake (m : MultiStakeAggregator) : StakeUnit := foldr Z.max 0 (values m).

Definition quorum_unreachable (m : MultiStakeAggregator) : bool :=
  wadd (uncommitted_stake m) (plurality_stake m) <? Comm.threshold STRENGTH (multi_committee m).
End multi.
End Multi.

Module GenericMulti.
Section generic_multi.
Context {K : AuthorityKeys} (STRENGTH : bool).

Definition new (c : Committee) : GenericMultiStakeAggregator := mkGenericMulti c ∅ ∅.

Definition insert (m : GenericMultiStakeAggregator) (authority : AuthorityName) (k : Z) :
    InsertResult (gmap AuthorityName unit) * GenericMultiStakeAggregator :=
  let agg := default (Agg.new (generic_committee m)) (generic_stake_maps m !! k) in
  let votes :=
    if Agg.contains_key agg authority then votes_per_authority m
    else <[authority := wadd (default 0 (votes_per_authority m !! authority)) 1]> (votes_per_authority m) in
  let '(r, agg) := Agg.insert_generic STRENGTH agg authority tt in
  (r, mkGenericMulti (generic_committee m) (<[k := agg]> (generic_stake_maps m)) votes).

Definition has_quorum_for_key (m : GenericMultiStakeAggregator) (k : Z) : bool :=
  match generic_stake_maps m !! k with
  | Some entry => Agg.has_quorum STRENGTH entry
  | None => false
  end.

Definition votes_for_authority (m : GenericMultiStakeAggregator) (authority : AuthorityName) : Z :=
  default 0 (votes_per_authority m !! authority).
End generic_multi.
End GenericMulti.

(** * Correctness of one aggregator *)

Section invariant.
Context {K : AuthorityKeys} {S : Type} `{!RustEq S} (STRENGTH : bool).
Implicit Types (a : StakeAggregator S) (c : Committee).

(** The counter is the voting power of the authorities that have voted. *)
Definition agg_ok a : Prop :=
  committee_ok (committee a) ∧ total_votes a = wset (Comm.weight (committee a)) (dom (data a)).

Lemma new_agg_ok c : committee_ok c → agg_ok (Agg.new c).
Proof. intros. split; [done|]. simpl. by rewrite dom_empty_L, wset_empty. Qed.

Lemma total_votes_bound a : agg_ok a → 0 <= total_votes a <= TOTAL_VOTING_POWER.
Proof.
  intros [Hc ->]. split; [|by apply wset_total]. apply wset_nonneg. intros. by apply weight_nonneg.
Qed.

Lemma small_u64 x : 0 <= x <= TOTAL_VOTING_POWER → 0 <= x < U64_MOD.
Proof. assert (TOTAL_VOTING_POWER < U64_MOD) by done. lia. Qed.

Lemma insert_generic_spec a x s :
  agg_ok a →
  let '(r, a') := Agg.insert_generic STRENGTH a x s in
  agg_ok a' ∧ committee a' = committee a ∧
  match data a !! x with
  | Some old => r = Failed (StakeAggregatorRepeatedSigner x (rust_eq old s)) ∧ a' = a
  | None =>
      data a' = <[x := s]> (data a) ∧
      r = if Comm.weight (committee a) x =? 0 then Failed InvalidAuthenticator
          else if Comm.threshold STRENGTH (committee a) <=? total_votes a' then QuorumReached (data a')
          else NotEnoughVotes 0 []
  end.
Proof.
  intros Ha. pose proof Ha as [Hc Ht]. unfold Agg.insert_generic.
  destruct (data a !! x) as [old|] eqn:Hx; [done|]. simpl.
  pose proof (weight_nonneg (committee a) x Hc).
  assert (wset (Comm.weight (committee a)) (dom (<[x:=s]> (data a))) =
    Comm.weight (committee a) x + total_votes a) as Hsum.
  { rewrite dom_insert_L, wset_insert, <-Ht; [done|]. by apply not_elem_of_dom. }
  destruct (Z.ltb_spec 0 (Comm.weight (committee a) x)).
  - rewrite (proj2 (Z.eqb_neq _ _)) by lia.
    pose proof (wset_total (committee a) (dom (<[x:=s]> (data a))) Hc) as Hle.
    assert (wadd (total_votes a) (Comm.weight (committee a) x) =
      wset (Comm.weight (committee a)) (dom (<[x:=s]> (data a)))) as Hadd.
    { rewrite Hsum in Hle |- *. unfold wadd. pose proof (total_votes_bound a Ha).
      rewrite Z.mod_small; [lia|]. apply small_u64. lia. }
    destruct (_ <=? _) eqn:Hq; simpl; rewrite Hq; (split_and!; [by split|done..]).
  - assert (Comm.weight (committee a) x = 0) as Hz by lia. rewrite Hz. simpl.
    split_and!; [split; [done|]|done..]. simpl. lia.
Qed.

Lemma from_iter_spec a l :
  agg_ok a →
  agg_ok (Agg.from_iter_loop STRENGTH a l) ∧
  committee (Agg.from_iter_loop STRENGTH a l) = committee a ∧
  dom (data (Agg.from_iter_loop STRENGTH a l)) = dom (data a) ∪ list_to_set l.*1.
Proof.
  revert a. induction l as [|[x s] l IH]; intros a Ha; simpl.
  { split_and!; [done..|set_solver]. }
  pose proof (insert_generic_spec a x s Ha) as Hi.
  destruct (Agg.insert_generic STRENGTH a x s) as [r a'] eqn:Heq. destruct Hi as (Ha' & Hc & Hd). simpl.
  destruct (IH a' Ha') as (H1 & H2 & H3). split_and!; [done|congruence|]. rewrite H3.
  destruct (data a !! x) eqn:Hx.
  - destruct Hd as [_ ->]. apply elem_of_dom_2 in Hx. set_solver.
  - destruct Hd as [-> _]. rewrite dom_insert_L. set_solver.
Qed.

(** whatever votes are fed to an aggregator, in whatever order and with whatever repetitions,
    [has_quorum] holds exactly when the distinct voters' voting power
    reaches the threshold. *)
Theorem has_quorum_correct c l :
  committee_ok c →
  Agg.has_quorum STRENGTH (Agg.from_iter STRENGTH (S := S) c l) = true ↔
    Comm.threshold STRENGTH c <= wset (Comm.weight c) (list_to_set l.*1).
Proof.
  intros Hc. destruct (from_iter_spec (Agg.new c) l) as ([_ Ht] & Hcm & Hd); [by apply new_agg_ok|].
  unfold Agg.has_quorum. fold (Agg.from_iter STRENGTH c l) in *. rewrite Z.leb_le, Ht, Hd, Hcm. simpl.
  by rewrite dom_empty_L, (left_id_L ∅ (∪)).
Qed.
End invariant.

Section signed.
Context {K : AuthorityKeys} {C : SuiCrypto} (STRENGTH : bool).
Implicit Types (a : StakeAggregator AuthoritySignInfo) (c : Committee).

(** Every vote is filed under its own authority and is of the committee's epoch. *)
Definition signed_ok a : Prop :=
  agg_ok a ∧ Z.of_nat (Comm.num_members (committee a)) <= U32_MOD ∧
  map_Forall (λ n s, authority s = n ∧ sig_epoch s = epoch (committee a)) (data a).

(** A vote that verifies. *)
Definition sig_ok (d : Data) c (s : AuthoritySignInfo) : bool :=
  match SignInfo.verify_secure s d SCOPE c with Ok _ => true | Err _ => false end.

Lemma sig_ok_true d c s : sig_ok d c s = true ↔ SignInfo.verify_secure s d SCOPE c = Ok tt.
Proof. unfold sig_ok. destruct (SignInfo.verify_secure _ _ _ _) as [[]|]; split; congruence. Qed.

Definition bad_of (d : Data) c (sigs : list (Z * AuthoritySignInfo)) : list Z :=
  (filter (λ p, sig_ok d c p.2 = false) sigs).*1.

Lemma bad_of_cons d c n s sigs :
  bad_of d c ((n, s) :: sigs) = if sig_ok d c s then bad_of d c sigs else n :: bad_of d c sigs.
Proof. unfold bad_of. rewrite filter_cons. case_decide; destruct (sig_ok d c s) eqn:E; done || (simpl in *; congruence). Qed.

Lemma drop_bad_spec d sigs a bad_votes bad :
  agg_ok a → NoDup sigs.*1 → (∀ p, p ∈ sigs → data a !! p.1 = Some p.2) →
  0 <= bad_votes → bad_votes + total_votes a <= TOTAL_VOTING_POWER →
  let names := bad_of d (committee a) sigs in
  ∃ a', Agg.drop_bad d sigs a bad_votes bad =
      (NotEnoughVotes (bad_votes + wsum (Comm.weight (committee a)) names) (bad ++ names), a') ∧
    committee a' = committee a ∧ agg_ok a' ∧
    data a' = filter (λ p, p.1 ∉ names) (data a).
Proof.
  revert a bad_votes bad. induction sigs as [|[n s] sigs IH];
    intros a bad_votes bad Ha Hnd Hin Hb0 Hb; simpl.
  { exists a. unfold bad_of. simpl. rewrite Z.add_0_r, app_nil_r. split_and!; [done..|].
    symmetry. apply map_filter_id. set_solver. }
  apply NoDup_cons in Hnd as [Hni Hnd]. rewrite bad_of_cons. unfold sig_ok.
  destruct (SignInfo.verify_secure s d SCOPE (committee a)) as [u|e].
  { apply IH; [done..| |done|done]. set_solver. }
  pose proof Ha as [Hc Ht].
  assert (data a !! n = Some s) as Hn by (apply (Hin (n, s)); set_solver).
  pose proof (total_votes_bound a Ha). pose proof (weight_nonneg (committee a) n Hc).
  assert (total_votes a = Comm.weight (committee a) n +
    wset (Comm.weight (committee a)) (dom (delete n (data a)))) as Hsum.
  { rewrite Ht, dom_delete_L, <-wset_insert by set_solver. f_equal.
    apply elem_of_dom_2 in Hn. symmetry. rewrite <-union_difference_singleton_L; done. }
  pose proof (wset_nonneg (Comm.weight (committee a)) (λ x, weight_nonneg _ x Hc) (dom (delete n (data a)))).
  set (a1 := mkAggregator (delete n (data a)) (wsub (total_votes a) (Comm.weight (committee a) n))
               (committee a)).
  assert (total_votes a1 = wset (Comm.weight (committee a)) (dom (delete n (data a)))) as Ht1.
  { simpl. unfold wsub. rewrite Z.mod_small; [lia|]. apply small_u64. lia. }
  assert (wadd bad_votes (Comm.weight (committee a) n) = bad_votes + Comm.weight (committee a) n) as ->.
  { unfold wadd. rewrite Z.mod_small; [done|]. apply small_u64. lia. }
  destruct (IH a1 (bad_votes + Comm.weight (committee a) n) (bad ++ [n])) as (a' & Heq & Hc' & Ha' & Hd');
    [by split|done| |lia|lia|].
  { intros p Hp. simpl. rewrite lookup_delete_ne; [apply Hin; set_solver|].
    intros Hpn. apply Hni. simpl. rewrite Hpn. by apply (list_elem_of_fmap_2 fst). }
  exists a'. simpl in Heq. rewrite Heq. simpl. split_and!; [|done..|].
  - f_equal. f_equal; [|by rewrite <-app_assoc]. rewrite wsum_cons. lia.
  - rewrite Hd'. simpl. apply map_eq. intros m. apply option_eq. intros v.
    rewrite !map_lookup_filter_Some, lookup_delete_Some. simpl. set_solver.
Qed.

Lemma new_signed_ok c :
  committee_ok c → Z.of_nat (Comm.num_members c) <= U32_MOD → signed_ok (Agg.new c).
Proof. intros. split_and!; [by apply new_agg_ok|done|apply map_Forall_empty]. Qed.

Lemma authorities_of a :
  signed_ok a → authority <$> (map_to_list (data a)).*2 = (map_to_list (data a)).*1.
Proof.
  intros (_ & _ & Hd). rewrite <-list_fmap_compose. apply list_fmap_ext. intros k [n s] Hn. simpl.
  apply list_elem_of_lookup_2, elem_of_map_to_list in Hn. by apply (Hd n s).
Qed.

Lemma dom_keys {V} (m : gmap Z V) : list_to_set (map_to_list m).*1 = dom m.
Proof. rewrite <-(list_to_map_to_list m) at 2. by rewrite dom_list_to_map_L. Qed.

(** The votes after the given one has been added. *)
Definition added a (sig : AuthoritySignInfo) : gmap Z AuthoritySignInfo :=
  <[authority sig := sig]> (data a).

(** What the three results of [insert] mean. *)
Definition insert_outcome a (d : Data) (sig : AuthoritySignInfo)
    (r : InsertResult AuthorityQuorumSignInfo) a' : Prop :=
  let c := committee a in
  match r with
  | QuorumReached q =>
      data a !! authority sig = None ∧ data a' = added a sig ∧
      Comm.threshold STRENGTH c <= total_votes a' ∧
      QuorumSignInfo.verify_secure STRENGTH q d SCOPE c = Ok tt ∧
      ∃ names, signed_by c q names ∧ names ≡ₚ elements (dom (data a'))
  | NotEnoughVotes bad_votes bad =>
      data a !! authority sig = None ∧
      ((data a' = added a sig ∧ bad = [] ∧ bad_votes = 0 ∧ total_votes a' < Comm.threshold STRENGTH c) ∨
       (data a' = filter (λ p, sig_ok d c p.2 = true) (added a sig) ∧
        bad ≡ₚ elements (dom (added a sig) ∖ dom (data a')) ∧
        bad_votes = wset (Comm.weight c) (dom (added a sig) ∖ dom (data a')) ∧
        Comm.threshold STRENGTH c <= bad_votes + total_votes a' ∧
        (∀ n, n ∈ dom (added a sig) → n ∈ Comm.names c) ∧
        (SuiCryptoLaws C → bad ≠ [])))
  | Failed e =>
      (a' = a ∧ (sig_epoch sig ≠ epoch c ∨ is_Some (data a !! authority sig))) ∨
      (data a !! authority sig = None ∧ data a' = added a sig)
  end.

Lemma bad_of_elem d c (m : gmap Z AuthoritySignInfo) n :
  n ∈ bad_of d c (map_to_list m) ↔ ∃ s, m !! n = Some s ∧ sig_ok d c s = false.
Proof.
  unfold bad_of. rewrite list_elem_of_fmap. split.
  - intros ([n' s] & -> & [Hs Hin%elem_of_map_to_list]%list_elem_of_filter). eauto.
  - intros (s & Hm & Hs). exists (n, s). split; [done|]. apply list_elem_of_filter.
    split; [done|]. by apply elem_of_map_to_list.
Qed.

Lemma NoDup_bad_of d c (m : gmap Z AuthoritySignInfo) : NoDup (bad_of d c (map_to_list m)).
Proof.
  unfold bad_of. apply (sublist_NoDup _ (map_to_list m).*1); [apply NoDup_fst_map_to_list|].
  generalize (map_to_list m). intros l. induction l as [|p l IH]; [done|].
  rewrite filter_cons. case_decide; simpl; by constructor.
Qed.

(** The fallback loop on all the votes. *)
Lemma drop_all_bad d a :
  signed_ok a →
  ∃ a' bad, Agg.drop_bad d (map_to_list (data a)) a 0 [] =
      (NotEnoughVotes (wset (Comm.weight (committee a)) (dom (data a) ∖ dom (data a'))) bad, a') ∧
    committee a' = committee a ∧ signed_ok a' ∧
    data a' = filter (λ p, sig_ok d (committee a) p.2 = true) (data a) ∧
    bad ≡ₚ elements (dom (data a) ∖ dom (data a')) ∧
    (bad = [] → map_Forall (λ _ s, sig_ok d (committee a) s = true) (data a)).
Proof.
  intros (Ha & Hn & Hd). pose proof (total_votes_bound a Ha).
  destruct (drop_bad_spec d (map_to_list (data a)) a 0 []) as (a' & Heq & Hc & Ha' & Hd');
    [done|apply NoDup_fst_map_to_list| |lia|lia|].
  { intros [n s] Hin. by apply elem_of_map_to_list in Hin. }
  set (bad := bad_of d (committee a) (map_to_list (data a))) in *.
  assert (data a' = filter (λ p, sig_ok d (committee a) p.2 = true) (data a)) as Hf.
  { rewrite Hd'. apply map_filter_ext. intros n s Hs. simpl. subst bad. rewrite bad_of_elem.
    destruct (sig_ok d (committee a) s) eqn:E; naive_solver congruence. }
  assert (bad ≡ₚ elements (dom (data a) ∖ dom (data a'))) as Hperm.
  { apply NoDup_Permutation; [apply NoDup_bad_of|apply NoDup_elements|]. intros n.
    rewrite elem_of_elements, elem_of_difference, !elem_of_dom, Hd'. unfold is_Some.
    setoid_rewrite map_lookup_filter_Some. simpl. subst bad. split.
    - intros Hb. pose proof Hb as (s & Hs & _)%bad_of_elem. naive_solver.
    - intros [[s Hs] Hno]. destruct (decide (n ∈ bad_of d (committee a) (map_to_list (data a)))); [done|].
      destruct Hno. eauto. }
  exists a', bad. rewrite Heq. split_and!; [|done| |done|done|].
  - f_equal. f_equal. simpl. rewrite Hperm. done.
  - split_and!; [done|by rewrite Hc|]. rewrite Hc, Hf.
    intros n s [Hs _]%map_lookup_filter_Some. by apply (Hd n s).
  - intros Hnil n s Hs. destruct (sig_ok d (committee a) s) eqn:E; [done|].
    assert (n ∈ bad) as Hin by (apply bad_of_elem; eauto). rewrite Hnil in Hin. set_solver.
Qed.

Lemma added_signed_ok a sig a1 :
  signed_ok a → agg_ok a1 → committee a1 = committee a → data a1 = added a sig →
  sig_epoch sig = epoch (committee a) → signed_ok a1.
Proof.
  intros (_ & Hn & Hd) Ha1 Hc Hd1 He. split_and!; [done|by rewrite Hc|].
  rewrite Hc, Hd1. by apply map_Forall_insert_2.
Qed.

(** Aggregating the votes of an aggregator. *)
Lemma aggregate_votes a :
  signed_ok a →
  match QuorumSignInfo.new_from_auth_sign_infos STRENGTH (map_to_list (data a)).*2 (committee a) with
  | Ok q => ∃ names, signed_by (committee a) q names ∧ names ≡ₚ elements (dom (data a)) ∧
      (∀ n, n ∈ dom (data a) → n ∈ Comm.names (committee a)) ∧
      ∀ d, map_Forall (λ _ s, sig_ok d (committee a) s = true) (data a) →
        SuiCryptoLaws C → Comm.threshold STRENGTH (committee a) <= total_votes a →
        QuorumSignInfo.verify_secure STRENGTH q d SCOPE (committee a) = Ok tt
  | Err _ => True
  end.
Proof.
  intros Hok. pose proof Hok as ([Hc Ht] & Hn & Hd). pose proof (authorities_of a Hok) as Hauth.
  assert (NoDup (authority <$> (map_to_list (data a)).*2)) as Hnd
    by (rewrite Hauth; apply NoDup_fst_map_to_list).
  pose proof (new_from_spec STRENGTH _ (committee a) Hc Hn Hnd) as Hnew.
  destruct (QuorumSignInfo.new_from_auth_sign_infos _ _ _) as [q|e] eqn:Hq; [|done].
  destruct Hnew as ((_ & Hm & _) & He & Hs & Hpos & _). eexists. split_and!; [exact Hs|..].
  - apply NoDup_Permutation; [apply NoDup_btree_keys|apply NoDup_elements|]. intros n.
    rewrite elem_of_by_authority, Hauth, elem_of_elements, <-dom_keys, elem_of_list_to_set by done. done.
  - intros n Hin. rewrite <-dom_keys, <-Hauth, elem_of_list_to_set in Hin.
    apply list_elem_of_fmap in Hin as (s & -> & Hin). rewrite Forall_forall in Hm. auto.
  - intros d Hall CL Hth.
    destruct (aggregate_valid STRENGTH (map_to_list (data a)).*2 d SCOPE (committee a)) as (q' & Hq' & Hv & _);
      [done..| | |congruence].
    + apply Forall_fmap, Forall_forall. intros [n s] Hin%elem_of_map_to_list.
      apply sig_ok_true. by apply (Hall n s).
    + rewrite Hauth, dom_keys, <-Ht. done.
Qed.

Lemma insert_spec a d sig :
  signed_ok a →
  let '(r, a') := Agg.insert STRENGTH a (d, sig) in
  signed_ok a' ∧ committee a' = committee a ∧ insert_outcome a d sig r a'.
Proof.
  intros Hok. pose proof Hok as (Ha & Hn & Hd). unfold Agg.insert.
  destruct (Z.eqb_spec (epoch (committee a)) (sig_epoch sig)) as [He|He]; simpl.
  2: { split_and!; [done..|]. left. split; [done|]. by left. }
  pose proof (insert_generic_spec STRENGTH a (authority sig) sig Ha) as Hg.
  destruct (Agg.insert_generic STRENGTH a (authority sig) sig) as [r a1] eqn:Hins.
  destruct Hg as (Ha1 & Hc1 & Hg). destruct (data a !! authority sig) as [old|] eqn:Hx.
  { destruct Hg as [-> ->]. split_and!; [done..|]. left. eauto. }
  destruct Hg as [Hd1 Hr]. fold (added a sig) in Hd1.
  pose proof (added_signed_ok a sig a1 Hok Ha1 Hc1 Hd1 (eq_sym He)) as Hok1.
  destruct (Comm.weight (committee a) (authority sig) =? 0).
  { subst r. split_and!; [done..|by right]. }
  destruct (Z.leb_spec (Comm.threshold STRENGTH (committee a)) (total_votes a1)) as [Hth|Hth]; subst r.
  2: { split_and!; [done..|]. split; [done|]. by left. }
  pose proof (aggregate_votes a1 Hok1) as Hagg. rewrite Hc1 in Hagg |- *.
  destruct (QuorumSignInfo.new_from_auth_sign_infos _ _ _) as [q|e].
  2: { split_and!; [done..|by right]. }
  destruct Hagg as (names & Hs & Hperm & Hmem & Hcomp).
  destruct (QuorumSignInfo.verify_secure STRENGTH q d SCOPE (committee a)) as [[]|e] eqn:Hv.
  { split_and!; [done..|]. split_and!; [done..|]. eauto. }
  destruct (drop_all_bad d a1 Hok1) as (a' & bad & -> & Hc' & Hok' & Hf & Hbad & Hall).
  rewrite Hc1 in *. split_and!; [done..|]. split; [done|]. right. rewrite <-Hd1.
  split_and!; [done..| |done|].
  - destruct Hok' as [[_ Ht'] _]. destruct Ha1 as [_ Ht1].
    assert (dom (data a') ⊆ dom (data a1)) by (rewrite Hf; apply dom_filter_subseteq).
    rewrite Ht', Hc'. rewrite Ht1, Hc1 in Hth.
    rewrite (wset_difference _ (dom (data a1)) (dom (data a'))) in Hth by done. lia.
  - intros CL Hnil. rewrite Hcomp in Hv by auto. congruence.
Qed.

(** C18: the three results of [StakeAggregator::insert].  A quorum is reported only with a
    quorum signature that verifies over the message and whose signers are exactly the
    authorities recorded.  [NotEnoughVotes] without bad votes means that the votes
    are below the threshold; with bad votes, that exactly the votes that do not
    verify were dropped, with their voting power.  The counter stays the voting
    power of the recorded authorities throughout.  The fallback always drops
    something, when aggregation is complete. *)
Theorem stake_insert_correct a d sig r a' :
  signed_ok a → Agg.insert STRENGTH a (d, sig) = (r, a') →
  signed_ok a' ∧ committee a' = committee a ∧ insert_outcome a d sig r a'.
Proof. intros Hok Hi. pose proof (insert_spec a d sig Hok) as Hs. by rewrite Hi in Hs. Qed.

(** Inserting a sequence of envelopes. *)
Fixpoint insert_all a (es : list (Data * AuthoritySignInfo)) :
    list (InsertResult AuthorityQuorumSignInfo) * StakeAggregator AuthoritySignInfo :=
  match es with
  | [] => ([], a)
  | e :: es =>
      let '(r, a) := Agg.insert STRENGTH a e in
      let '(rs, a) := insert_all a es in (r :: rs, a)
  end.

Lemma signed_by_member c q names n : signed_by c q names → n ∈ names → n ∈ Comm.names c.
Proof.
  intros Hs [k Hk]%list_elem_of_lookup.
  destruct (Forall2_lookup_r _ _ _ _ _ Hs Hk) as (j & _ & (p & Hp & ->)%fmap_Some).
  apply list_elem_of_fmap_2. by eapply list_elem_of_lookup_2.
Qed.

(** once an authority that is not in the committee has been recorded, which
    [insert] does before it rejects it, no later sequence of inserts ever
    returns a quorum. *)
Theorem unknown_signer_blocks_quorum a x es :
  signed_ok a → x ∈ dom (data a) → x ∉ Comm.names (committee a) →
  Forall (λ r, is_quorum_reached r = false) (insert_all a es).1.
Proof.
  intros Hok Hx Hni. revert a Hok Hx Hni. induction es as [|[d sig] es IH];
    intros a Hok Hx Hni; simpl; [constructor|].
  pose proof (insert_spec a d sig Hok) as Hs. destruct (Agg.insert STRENGTH a (d, sig)) as [r a'].
  destruct Hs as (Hok' & Hc & Ho).
  assert (x ∈ dom (added a sig)) as Hadd by (unfold added; set_solver).
  assert (is_quorum_reached r = false ∧ x ∈ dom (data a')) as [Hr Hx'].
  { destruct r as [q|e|bv bad]; simpl in *.
    - destruct Ho as (_ & Hd & _ & _ & names & Hs & Hp). destruct Hni.
      eapply signed_by_member; [exact Hs|]. rewrite Hp, elem_of_elements. by rewrite Hd.
    - destruct Ho as [[-> _]|[_ ->]]; done.
    - destruct Ho as [_ [(-> & _)|(_ & _ & _ & _ & Hm & _)]]; [done|]. destruct Hni. auto. }
  assert (x ∉ Comm.names (committee a')) as Hni' by by rewrite Hc.
  specialize (IH a' Hok' Hx' Hni'). revert IH.
  destruct (insert_all a' es) as [rs a'']. simpl. intros IH. by constructor.
Qed.

(** Votes of honest authorities stay. *)
Lemma insert_keeps (H : gset Z) a d sig :
  signed_ok a → (∀ n s, n ∈ H → data a !! n = Some s → sig_ok d (committee a) s = true) →
  (authority sig ∈ H → sig_ok d (committee a) sig = true) →
  let a' := (Agg.insert STRENGTH a (d, sig)).2 in
  (∀ n s, n ∈ H → data a' !! n = Some s → sig_ok d (committee a) s = true) ∧
  (∀ n, n ∈ H → n ∈ dom (data a) ∨ n = authority sig → n ∈ dom (data a')).
Proof.
  intros Hok Hd Hsig. pose proof (insert_spec a d sig Hok) as Hs.
  assert (authority sig ∈ H → epoch (committee a) = sig_epoch sig) as Hep.
  { intros Hin. by apply Hsig, sig_ok_true, sign_info_verify in Hin as [-> _]. }
  assert (∀ n s, n ∈ H → added a sig !! n = Some s → sig_ok d (committee a) s = true) as Hadd.
  { unfold added. intros n s Hn [[<- <-]|[_ ?]]%lookup_insert_Some; eauto. }
  assert (dom (added a sig) = {[ authority sig ]} ∪ dom (data a)) as Hdom by apply dom_insert_L.
  destruct (Agg.insert STRENGTH a (d, sig)) as [r a'] eqn:Hi. destruct Hs as (_ & _ & Ho). simpl.
  assert ((data a' = added a sig ∨ data a' = filter (λ p, sig_ok d (committee a) p.2 = true) (added a sig))
    ∨ (a' = a ∧ (authority sig ∈ H → authority sig ∈ dom (data a)))) as Hcases.
  { destruct r as [q|e|bv bad]; simpl in Ho; [naive_solver| |naive_solver].
    destruct Ho as [[-> Hwhy]|[_ ->]]; [right|auto]. split; [done|]. intros Hin.
    destruct Hwhy as [Hne|Hs]; [by destruct Hne; rewrite Hep|by apply elem_of_dom]. }
  destruct Hcases as [[->| ->]|[-> Hin]].
  - split; [done|]. rewrite Hdom. set_solver.
  - split; [intros n s Hn [Hs _]%map_lookup_filter_Some; eauto|].
    intros n Hn Hor. assert (n ∈ dom (added a sig)) as [s Hs]%elem_of_dom by (rewrite Hdom; set_solver).
    apply elem_of_dom. exists s. apply map_lookup_filter_Some. split; [done|]. simpl. eauto.
  - split; [done|]. intros n Hn [?| ->]; auto.
Qed.

Lemma insert_all_keeps (H : gset Z) d a (sigs : list AuthoritySignInfo) :
  signed_ok a → (∀ n s, n ∈ H → data a !! n = Some s → sig_ok d (committee a) s = true) →
  (∀ s, s ∈ sigs → authority s ∈ H → sig_ok d (committee a) s = true) →
  let a' := (insert_all a (pair d <$> sigs)).2 in
  signed_ok a' ∧ committee a' = committee a ∧
  ∀ n, n ∈ H → n ∈ dom (data a) ∨ n ∈ authority <$> sigs → n ∈ dom (data a').
Proof.
  revert a. induction sigs as [|sig sigs IH]; intros a Hok Hd Hsig.
  { simpl. split_and!; [done..|]. set_solver. }
  rewrite fmap_cons. cbn [insert_all].
  destruct (insert_keeps H a d sig Hok Hd) as [Hd1 Hk1]; [by apply Hsig; set_solver|].
  pose proof (insert_spec a d sig Hok) as Hs. revert Hd1 Hk1.
  destruct (Agg.insert STRENGTH a (d, sig)) as [r a1]. destruct Hs as (Hok1 & Hc1 & _). simpl.
  intros Hd1 Hk1. specialize (IH a1 Hok1). rewrite Hc1 in IH.
  destruct IH as (Hok' & Hc' & Hk'); [done|set_solver|]. revert Hok' Hc' Hk'.
  destruct (insert_all a1 (pair d <$> sigs)) as [rs a2]. simpl. intros Hok' Hc' Hk'.
  split_and!; [done..|]. intros n Hn Hor. apply Hk'; [done|]. set_solver.
Qed.

End signed.

(** * Several values *)

(** The weight of disjoint sets adds up. *)
Lemma wset_union_list (w : Z → Z) (ss : list (gset Z)) :
  (∀ i j s t, i ≠ j → ss !! i = Some s → ss !! j = Some t → s ## t) →
  wset w (⋃ ss) = zsum (wset w <$> ss).
Proof.
  induction ss as [|s ss IH]; intros Hd; [done|].
  change (⋃ (s :: ss)) with (s ∪ ⋃ ss). rewrite wset_disj_union.
  - rewrite fmap_cons. change (zsum (wset w s :: (wset w <$> ss)))
      with (wset w s + zsum (wset w <$> ss)).
    rewrite IH; [done|]. intros i j s' t Hij Hi Hj. by apply (Hd (S i) (S j)); [congruence|..].
  - apply elem_of_disjoint. intros x Hx (t & Ht & Hxt)%elem_of_union_list.
    apply list_elem_of_lookup in Ht as [i Hi].
    apply (Hd 0%nat (S i) s t) in Hi; [set_solver|done..].
Qed.

Section multi.
Context {K : AuthorityKeys} {C : SuiCrypto} (STRENGTH : bool).
Implicit Types m : MultiStakeAggregator.

Definition multi_ok m : Prop :=
  committee_ok (multi_committee m) ∧ Z.of_nat (Comm.num_members (multi_committee m)) <= U32_MOD ∧
  map_Forall (λ _ p, signed_ok p.2 ∧ committee p.2 = multi_committee m) (stake_maps m).

Lemma multi_insert_ok m k d sig : multi_ok m → multi_ok (Multi.insert STRENGTH m k (d, sig)).2.
Proof.
  intros (Hc & Hn & Hm). unfold Multi.insert. destruct (stake_maps m !! k) as [[v entry]|] eqn:Hk.
  - destruct (Hm k _ Hk) as [Hok Hce]. simpl in *.
    pose proof (insert_spec STRENGTH entry d sig Hok) as Hs.
    destruct (Agg.insert STRENGTH entry (d, sig)) as [r entry']. destruct Hs as (Hok' & Hc' & _).
    split_and!; [done..|]. apply map_Forall_insert_2; [|done]. split; simpl; congruence.
  - pose proof (insert_spec STRENGTH (Agg.new (multi_committee m)) d sig (new_signed_ok _ Hc Hn)) as Hs.
    destruct (Agg.insert STRENGTH (Agg.new (multi_committee m)) (d, sig)) as [r entry'].
    destruct Hs as (Hok' & Hc' & _).
    assert (multi_ok (mkMulti (multi_committee m) (<[k:=(d, entry')]> (stake_maps m)))).
    { split_and!; [done..|]. by apply map_Forall_insert_2. }
    by destruct r.
Qed.

(** The authorities that voted for the value [k], and those that voted at all. *)
Definition voters m (k : Z) : gset Z :=
  match stake_maps m !! k with Some p => dom (data p.2) | None => ∅ end.
Definition voted m : gset Z := ⋃ ((λ p, dom (data p.2.2)) <$> map_to_list (stake_maps m)).

(** Every authority votes for at most one value, as the users of [MultiStakeAggregator] ensure. *)
Definition votes_disjoint m : Prop := ∀ k k', k ≠ k' → voters m k ## voters m k'.

Lemma values_weights m :
  multi_ok m → Multi.values m =
    wset (Comm.weight (multi_committee m)) <$> ((λ p, dom (data p.2.2)) <$> map_to_list (stake_maps m)).
Proof.
  intros (_ & _ & Hm). unfold Multi.values. rewrite <-list_fmap_compose. apply list_fmap_ext.
  intros i [k p] Hi. apply list_elem_of_lookup_2, elem_of_map_to_list in Hi.
  destruct (Hm k p Hi) as [[[_ Ht] _] Hc]. simpl. by rewrite Ht, Hc.
Qed.

Lemma voted_weight m :
  multi_ok m → votes_disjoint m →
  zsum (Multi.values m) = wset (Comm.weight (multi_committee m)) (voted m).
Proof.
  intros Hok Hd. rewrite values_weights by done. symmetry. apply wset_union_list.
  intros i j s t Hij Hi Hj. rewrite list_lookup_fmap in Hi, Hj.
  apply fmap_Some in Hi as ([k p] & Hi & ->). apply fmap_Some in Hj as ([k' p'] & Hj & ->). simpl. assert (k ≠ k') as Hk.
  { intros ->. apply Hij. eapply NoDup_lookup; [apply (NoDup_fst_map_to_list (stake_maps m))|..];
      rewrite list_lookup_fmap, ?Hi, ?Hj; done. }
  specialize (Hd k k' Hk). unfold voters in Hd.
  apply list_elem_of_lookup_2, elem_of_map_to_list in Hi, Hj. by rewrite Hi, Hj in Hd.
Qed.

Lemma plurality_lt m x :
  0 < x → Multi.plurality_stake m < x ↔ ∀ v, v ∈ Multi.values m → v < x.
Proof.
  intros Hx. unfold Multi.plurality_stake. induction (Multi.values m) as [|v l IH]; simpl.
  - split; [set_solver|lia].
  - rewrite Z.max_lub_lt_iff, IH. set_solver.
Qed.

Lemma voters_voted m k : voters m k ⊆ voted m.
Proof.
  unfold voters, voted. destruct (stake_maps m !! k) as [p|] eqn:Hk; [|set_solver].
  intros x Hx. apply elem_of_union_list. exists (dom (data p.2)). split; [|done].
  apply list_elem_of_fmap. exists (k, p). split; [done|]. by apply elem_of_map_to_list.
Qed.

Lemma elem_of_values m v :
  multi_ok m → v ∈ Multi.values m ↔
    ∃ k, k ∈ dom (stake_maps m) ∧ v = wset (Comm.weight (multi_committee m)) (voters m k).
Proof.
  intros Hok. rewrite values_weights, list_elem_of_fmap by done. unfold voters. split.
  - intros (s & -> & Hs). apply list_elem_of_fmap in Hs as ([k p] & -> & Hin%elem_of_map_to_list). exists k.
    rewrite Hin. split; [by apply elem_of_dom_2 in Hin|done].
  - intros (k & [p Hp]%elem_of_dom & ->). rewrite Hp. eexists. split; [done|].
    apply list_elem_of_fmap. exists (k, p). split; [done|]. by apply elem_of_map_to_list.
Qed.

Lemma plurality_bound m :
  (∀ v, v ∈ Multi.values m → 0 <= v) → 0 <= Multi.plurality_stake m <= zsum (Multi.values m).
Proof.
  unfold Multi.plurality_stake. induction (Multi.values m) as [|v l IH]; simpl; intros Hv; [done|].
  assert (0 <= v) by (apply Hv; set_solver).
  assert (0 <= foldr Z.max 0 l <= zsum l) by (apply IH; set_solver). lia.
Qed.

Lemma unreachable_iff m :
  multi_ok m → votes_disjoint m →
  let c := multi_committee m in
  Multi.quorum_unreachable STRENGTH m = true ↔
    Multi.plurality_stake m <
      Comm.threshold STRENGTH c - (TOTAL_VOTING_POWER - wset (Comm.weight c) (voted m)).
Proof.
  intros Hok Hd c. pose proof Hok as (Hc & _ & _). fold c in Hc.
  pose proof (wset_total c (voted m) Hc).
  assert (∀ v, v ∈ Multi.values m → 0 <= v) as Hv.
  { intros v (k & _ & ->)%elem_of_values; [|done]. apply wset_nonneg. intros. by apply weight_nonneg. }
  pose proof (plurality_bound m Hv) as Hp. rewrite voted_weight in Hp by done. fold c in Hp.
  assert (TOTAL_VOTING_POWER < U64_MOD) by done.
  unfold Multi.quorum_unreachable, Multi.uncommitted_stake, Multi.total_votes_. fold c.
  rewrite sum_u64_zsum by (done || (rewrite voted_weight by done; fold c; lia)).
  rewrite voted_weight by done. fold c. unfold Comm.total_votes, wsub, wadd, TOTAL_VOTING_POWER in *.
  rewrite (Z.mod_small (10000 - _)) by lia. rewrite Z.mod_small by lia. rewrite Z.ltb_lt. lia.
Qed.

(** when every authority has voted for one value at most, [quorum_unreachable] holds
    exactly when no value, already voted for or not, could reach the
    threshold even if all the members that have not voted did vote for it. *)
Theorem quorum_unreachable_correct m :
  multi_ok m → votes_disjoint m →
  Multi.quorum_unreachable STRENGTH m = true ↔
    ∀ k, wset (Comm.weight (multi_committee m))
           (voters m k ∪ (member_set (multi_committee m) ∖ voted m)) <
         Comm.threshold STRENGTH (multi_committee m).
Proof.
  intros Hok Hd. rewrite unreachable_iff by done. pose proof Hok as (Hc & _ & _).
  set (c := multi_committee m) in *.
  assert (∀ k, wset (Comm.weight c) (voters m k ∪ (member_set c ∖ voted m)) =
    wset (Comm.weight c) (voters m k) + (TOTAL_VOTING_POWER - wset (Comm.weight c) (voted m))) as Hk.
  { intros k. rewrite wset_disj_union, wset_others; [done..|]. pose proof (voters_voted m k). set_solver. }
  set (x := Comm.threshold STRENGTH c - (TOTAL_VOTING_POWER - wset (Comm.weight c) (voted m))).
  assert (0 <= Multi.plurality_stake m) by (unfold Multi.plurality_stake; induction (Multi.values m); simpl; lia).
  split.
  - intros Hp k. assert (0 < x) by lia. rewrite plurality_lt in Hp by done. rewrite Hk. unfold x in *.
    destruct (decide (k ∈ dom (stake_maps m))) as [Hin|Hni].
    + specialize (Hp (wset (Comm.weight c) (voters m k))). rewrite elem_of_values in Hp by done.
      specialize (Hp (ex_intro _ k (conj Hin eq_refl))). lia.
    + unfold voters. apply not_elem_of_dom in Hni. rewrite Hni, wset_empty. lia.
  - intros Hall. apply plurality_lt.
    + pose proof (is_fresh (dom (stake_maps m))) as Hf. specialize (Hall (fresh (dom (stake_maps m)))).
      rewrite Hk in Hall. unfold voters in Hall. apply not_elem_of_dom in Hf. rewrite Hf, wset_empty in Hall.
      unfold x. lia.
    + intros v (k & _ & ->)%elem_of_values; [|done]. specialize (Hall k). rewrite Hk in Hall.
      unfold x. fold c. lia.
Qed.
End multi.

Section generic_multi.
Context {K : AuthorityKeys} (STRENGTH : bool).
Implicit Types (m : GenericMultiStakeAggregator) (votes : list (Z * Z)).

Definition insert_votes (c : Committee) votes : GenericMultiStakeAggregator :=
  foldl (λ m p, (GenericMulti.insert STRENGTH m p.1 p.2).2) (GenericMulti.new c) votes.

(** The authorities that voted for [k] and the values that [a] voted for. *)
Definition voters_of votes (k : Z) : gset Z := list_to_set (filter (λ p, p.2 = k) votes).*1.
Definition values_of votes (a : Z) : gset Z := list_to_set (filter (λ p, p.1 = a) votes).*2.

Lemma elem_of_voters_of votes k a : a ∈ voters_of votes k ↔ (a, k) ∈ votes.
Proof.
  unfold voters_of. rewrite elem_of_list_to_set, list_elem_of_fmap. setoid_rewrite list_elem_of_filter.
  split; [intros ([? ?] & -> & <- & ?); done|]. intros. by exists (a, k).
Qed.

Lemma elem_of_values_of votes k a : k ∈ values_of votes a ↔ (a, k) ∈ votes.
Proof.
  unfold values_of. rewrite elem_of_list_to_set, list_elem_of_fmap. setoid_rewrite list_elem_of_filter.
  split; [intros ([? ?] & -> & <- & ?); done|]. intros. by exists (a, k).
Qed.

Lemma size_values_of votes a : (size (values_of votes a) <= length votes)%nat.
Proof.
  unfold values_of. etrans; [apply size_list_to_set_le|]. rewrite length_fmap. apply length_filter.
Qed.

Lemma values_of_snoc votes a k x :
  values_of (votes ++ [(a, k)]) x =
    if decide (x = a) then {[ k ]} ∪ values_of votes x else values_of votes x.
Proof.
  apply set_eq. intros j. rewrite elem_of_values_of, elem_of_app, list_elem_of_singleton.
  case_decide; rewrite ?elem_of_union, ?elem_of_singleton, ?elem_of_values_of; naive_solver.
Qed.

Definition agg_of m (k : Z) : StakeAggregator unit :=
  default (Agg.new (generic_committee m)) (generic_stake_maps m !! k).

(** The state that a sequence of votes leads to. *)
Record reflects (c : Committee) votes m : Prop := {
  reflects_committee : generic_committee m = c;
  reflects_agg k : agg_ok (agg_of m k) ∧ committee (agg_of m k) = c;
  reflects_voters k : dom (data (agg_of m k)) = voters_of votes k;
  reflects_count a : GenericMulti.votes_for_authority m a = Z.of_nat (size (values_of votes a));
}.

Lemma reflects_insert c votes m a k :
  Z.of_nat (length votes) + 1 < U64_MOD → reflects c votes m →
  reflects c (votes ++ [(a, k)]) (GenericMulti.insert STRENGTH m a k).2.
Proof.
  intros Hlen [Hc Hagg Hv Hn]. unfold GenericMulti.insert. fold (agg_of m k).
  destruct (Hagg k) as [Ha Hca]. pose proof (insert_generic_spec STRENGTH (agg_of m k) a tt Ha) as Hi.
  destruct (Agg.insert_generic STRENGTH (agg_of m k) a tt) as [r agg'].
  destruct Hi as (Ha' & Hc' & Hd).
  assert (dom (data agg') = {[ a ]} ∪ voters_of votes k) as Hdom.
  { rewrite <-Hv. destruct (data (agg_of m k) !! a) eqn:Hx.
    - destruct Hd as [_ ->]. apply elem_of_dom_2 in Hx. set_solver.
    - destruct Hd as [-> _]. by rewrite dom_insert_L. }
  assert (∀ k', agg_of (mkGenericMulti (generic_committee m) (<[k:=agg']> (generic_stake_maps m))
    (if Agg.contains_key (agg_of m k) a then votes_per_authority m
     else <[a := wadd (default 0 (votes_per_authority m !! a)) 1]> (votes_per_authority m))) k' =
    if decide (k' = k) then agg' else agg_of m k') as Hof.
  { intros k'. unfold agg_of. simpl. case_decide as Hk; [subst; by rewrite lookup_insert_eq|].
    by rewrite lookup_insert_ne. }
  split; simpl.
  - done.
  - intros k'. rewrite Hof. case_decide; [split; congruence|apply Hagg].
  - intros k'. rewrite Hof. apply set_eq. intros x. rewrite elem_of_voters_of, elem_of_app, list_elem_of_singleton.
    case_decide as Hk.
    + subst. rewrite Hdom, elem_of_union, elem_of_singleton, elem_of_voters_of. naive_solver.
    + rewrite Hv, elem_of_voters_of. naive_solver.
  - intros x. specialize (Hn x). unfold GenericMulti.votes_for_authority, Agg.contains_key in *. simpl.
    assert (is_Some (data (agg_of m k) !! a) ↔ (a, k) ∈ votes) as Hin.
    { by rewrite <-elem_of_dom, Hv, elem_of_voters_of. }
    pose proof (size_values_of votes x). rewrite values_of_snoc. case_bool_decide as Hb.
    + rewrite Hn. case_decide; [|done]. subst. do 2 f_equal. apply Hin in Hb.
      pose proof (proj2 (elem_of_values_of votes k a) Hb). set_solver.
    + case_decide as Hx.
      * subst. rewrite lookup_insert_eq. simpl. rewrite Hn, size_union, size_singleton.
        -- unfold wadd. rewrite Z.mod_small; lia.
        -- assert (k ∉ values_of votes a); [|set_solver]. rewrite elem_of_values_of. tauto.
      * by rewrite lookup_insert_ne.
Qed.

Lemma reflects_votes c votes :
  committee_ok c → Z.of_nat (length votes) < U64_MOD → reflects c votes (insert_votes c votes).
Proof.
  intros Hc. induction votes as [|[a k] votes IH] using rev_ind; intros Hlen.
  - assert (∀ k, agg_of (insert_votes c []) k = Agg.new c) as Hof by done.
    split; [done|..]; intros k; rewrite ?Hof; [split; [by apply new_agg_ok|done]|done|done].
  - rewrite length_app in Hlen. simpl in Hlen. unfold insert_votes. rewrite foldl_app. simpl.
    apply reflects_insert; [lia|]. apply IH. lia.
Qed.

(** After any sequence of votes, in which authorities may vote several times and for several values,
    [has_quorum_for_key] holds exactly when the distinct authorities that voted for the value
    reach the threshold, and [votes_for_authority] is the number of distinct values that the
    authority voted for. *)
Theorem generic_multi_correct c votes k a :
  committee_ok c → Z.of_nat (length votes) < U64_MOD →
  let m := insert_votes c votes in
  (GenericMulti.has_quorum_for_key STRENGTH m k = true ↔
     Comm.threshold STRENGTH c <= wset (Comm.weight c) (voters_of votes k)) ∧
  GenericMulti.votes_for_authority m a = Z.of_nat (size (values_of votes a)).
Proof.
  intros Hc Hlen m. destruct (reflects_votes c votes Hc Hlen) as [Hcm Hagg Hv Hn]. fold m in Hcm, Hagg, Hv, Hn.
  split; [|apply Hn]. unfold GenericMulti.has_quorum_for_key. rewrite <-Hv.
  destruct (Hagg k) as [[_ Ht] Hca]. unfold agg_of in *.
  destruct (generic_stake_maps m !! k) as [agg|]; simpl in *.
  - unfold Agg.has_quorum. by rewrite Z.leb_le, Ht, Hca.
  - rewrite dom_empty_L, wset_empty. pose proof (threshold_pos STRENGTH c). split; [done|lia].
Qed.
End generic_multi.

(** * Concrete runs *)

(** A signature that does not verify. *)
Definition bad_sig (d a : Z) : AuthoritySignInfo (C := sum_crypto) :=
  mkSignInfo (C := sum_crypto) 7 a 0.

(** Authority 1 votes with a signature that does not verify, then all the others vote. *)
Definition late_run : list (InsertResult (AuthorityQuorumSignInfo (C := sum_crypto))) *
    StakeAggregator (AuthoritySignInfo (C := sum_crypto)) :=
  insert_all (C := sum_crypto) true (Agg.new example_committee) (pair 5 <$> [bad_sig 5 1; good_sig 5 2; good_sig 5 3; good_sig 5 4]).

(** [insert] can leave a quorum of verified votes unreported.  When the vote that crosses the threshold
    triggers the fallback, the bad votes are dropped and [NotEnoughVotes] is returned without
    comparing what is left with the threshold: here all four authorities have voted, the
    three valid votes weigh 9,000 of 10,000, [has_quorum] holds, and no insert has reported a quorum. *)
Theorem valid_quorum_not_reported :
  Forall (λ r, is_quorum_reached r = false) late_run.1 ∧
  Agg.has_quorum true late_run.2 = true ∧ total_votes late_run.2 = 9000 ∧
  map_Forall (λ _ s, sig_ok (C := sum_crypto) 5 example_committee s = true) (data late_run.2).
Proof.
  split_and!.
  - apply (bool_decide_unpack _). vm_compute. exact I.
  - vm_compute. reflexivity.
  - vm_compute. reflexivity.
  - apply (bool_decide_unpack _). vm_compute. exact I.
Qed.

Lemma example_size : Z.of_nat (Comm.num_members example_committee) <= U32_MOD.
Proof. vm_compute. discriminate. Qed.

Lemma has_quorum_correct_witness :
  Agg.has_quorum true (Agg.from_iter true (S := unit) example_committee [(2, tt); (2, tt); (4, tt); (9, tt); (3, tt)]) = true ↔
    Comm.threshold true example_committee <=
      wset (Comm.weight example_committee) (list_to_set [(2, tt); (2, tt); (4, tt); (9, tt); (3, tt)].*1).
Proof. apply (has_quorum_correct true). apply example_committee_ok. Defined.

Definition two_votes : StakeAggregator (AuthoritySignInfo (C := sum_crypto)) :=
  (insert_all (C := sum_crypto) true (Agg.new example_committee) (pair 5 <$> [good_sig 5 2; good_sig 5 3])).2.

Lemma two_votes_ok : signed_ok two_votes.
Proof.
  eapply (insert_all_keeps (C := sum_crypto) true ∅ 5); [|set_solver|set_solver].
  apply new_signed_ok; [apply example_committee_ok|apply example_size].
Qed.

Lemma stake_insert_correct_witness :
  let '(r, a') := Agg.insert (C := sum_crypto) true two_votes (5, good_sig 5 4) in
  signed_ok a' ∧ committee a' = committee two_votes ∧ insert_outcome (C := sum_crypto) true two_votes 5 (good_sig 5 4) r a'.
Proof.
  destruct (Agg.insert (C := sum_crypto) true two_votes (5, good_sig 5 4)) as [r a'] eqn:Hi.
  exact (stake_insert_correct (C := sum_crypto) true two_votes 5 (good_sig 5 4) r a' two_votes_ok Hi).
Defined.

(** Authority 9 is not in the committee. *)
Definition poisoned : StakeAggregator (AuthoritySignInfo (C := sum_crypto)) :=
  (insert_all (C := sum_crypto) true (Agg.new example_committee) [(5, good_sig 5 9)]).2.

Lemma poisoned_ok : signed_ok poisoned.
Proof.
  apply (insert_all_keeps (C := sum_crypto) true ∅ 5 (Agg.new example_committee) [good_sig 5 9]); [|set_solver|set_solver].
  apply new_signed_ok; [apply example_committee_ok|apply example_size].
Qed.

Lemma unknown_signer_blocks_quorum_witness :
  Forall (λ r, is_quorum_reached r = false)
    (insert_all (C := sum_crypto) true poisoned (pair 5 <$> [good_sig 5 1; good_sig 5 2; good_sig 5 3; good_sig 5 4])).1.
Proof.
  apply (unknown_signer_blocks_quorum (C := sum_crypto) true poisoned 9).
  - apply poisoned_ok.
  - apply (bool_decide_unpack _). vm_compute. exact I.
  - apply (bool_decide_unpack _). vm_compute. exact I.
Defined.


Definition one_vote : MultiStakeAggregator (C := sum_crypto) :=
  (Multi.insert (C := sum_crypto) true (Multi.new example_committee) 1 (5, good_sig 5 2)).2.

Definition split_votes : MultiStakeAggregator (C := sum_crypto) :=
  (Multi.insert (C := sum_crypto) true one_vote 2 (6, good_sig 6 4)).2.

Lemma split_votes_ok : multi_ok split_votes.
Proof.
  unfold split_votes. apply (multi_insert_ok (C := sum_crypto) true).
  unfold one_vote. apply (multi_insert_ok (C := sum_crypto) true).
  split_and!; [apply example_committee_ok|apply example_size|apply map_Forall_empty].
Qed.

Lemma split_votes_voters : (λ p, dom (data p.2)) <$> stake_maps split_votes = {[ 1 := {[ 2 ]}; 2 := {[ 4 ]} ]}.
Proof. vm_compute. reflexivity. Qed.

Lemma split_votes_disjoint : votes_disjoint split_votes.
Proof.
  intros k k' Hk. set (voted_for := {[ 1 := {[ 2 ]}; 2 := {[ 4 ]} ]} : gmap Z (gset Z)).
  assert (∀ j, voters split_votes j = default ∅ (voted_for !! j)) as Hv.
  { intros j. unfold voted_for. rewrite <-split_votes_voters, lookup_fmap. unfold voters.
    by destruct (_ !! j). }
  assert (map_Forall (λ k s, map_Forall (λ k' s', k = k' ∨ s ## s') voted_for) voted_for) as Hall.
  { apply (bool_decide_unpack _). vm_compute. exact I. }
  rewrite !Hv. destruct (voted_for !! k) as [s|] eqn:Hs; [|apply disjoint_empty_l].
  destruct (voted_for !! k') as [s'|] eqn:Hs'; [|apply disjoint_empty_r].
  by destruct (Hall k s Hs k' s' Hs').
Qed.

Lemma quorum_unreachable_correct_witness :
  Multi.quorum_unreachable true split_votes = true ↔
    ∀ k, wset (Comm.weight (multi_committee split_votes))
           (voters split_votes k ∪ (member_set (multi_committee split_votes) ∖ voted split_votes)) <
         Comm.threshold true (multi_committee split_votes).
Proof.
  exact (quorum_unreachable_correct (C := sum_crypto) true split_votes split_votes_ok split_votes_disjoint).
Defined.

Lemma generic_multi_correct_witness :
  let votes := [(1, 10); (2, 10); (1, 20); (1, 10); (4, 10); (3, 10)] in
  let m := insert_votes true example_committee votes in
  (GenericMulti.has_quorum_for_key true m 10 = true ↔
     Comm.threshold true example_committee <= wset (Comm.weight example_committee) (voters_of votes 10)) ∧
  GenericMulti.votes_for_authority m 1 = Z.of_nat (size (values_of votes 1)).
Proof.
  apply (generic_multi_correct true example_committee
    [(1, 10); (2, 10); (1, 20); (1, 10); (4, 10); (3, 10)] 10 1).
  - apply example_committee_ok.
  - vm_compute. reflexivity.
Defined.
