(* ===== verification/GasTables.v ===== *)
(** * The gas meter of the Move VM ([crates/sui-types/src/gas_model])

    [units_types.rs] (cost tables with tiers), [tables.rs] ([GasStatus] and its
    [GasMeter] implementation, the versioned cost schedules), [gas_predicates.rs], and
    the parts of [move-core-types/src/gas_algebra.rs] they use.

    These modules use plain arithmetic, which wraps in the release profile, next to checked and
    saturating operations.  A [GasQuantity] is its value.  A value of the VM is seen
    through [ValueView], as in the code: only its two abstract sizes matter.
    A [BTreeMap<u64, u64>] of tiers is a [gmap] iterated in key order. *)
From S2P Require Import Prelude.

Abbreviation InternalGas := Z (only parsing).
Abbreviation Gas := Z (only parsing).
Abbreviation AbstractMemorySize := Z (only parsing).

(** ** Gas quantities ([gas_algebra.rs]) *)

(** The two assertions, that neither number is 0, hold of the one ratio used below. *)
Definition apply_ratio_round_down (val nominator denominator : Z) : Z :=
  let res := val * nominator / denominator in if U64_MAX <? res then U64_MAX else res.

(** [InternalGas::to_unit_round_down] with the ratio 1/1000 of [units_types.rs]. *)
Definition to_unit_round_down (val : InternalGas) : Gas := apply_ratio_round_down val 1 1000.

(** ** Cost tables ([units_types.rs]) *)

Definition INSTRUCTION_TIER_DEFAULT : Z := 1.
Definition STACK_HEIGHT_TIER_DEFAULT : Z := 1.
Definition STACK_SIZE_TIER_DEFAULT : Z := 1.

Record CostTable := mkCostTable {
  instruction_tiers : gmap Z Z;
  stack_height_tiers : gmap Z Z;
  stack_size_tiers : gmap Z Z;
}.

Definition get_current_and_future_tier (tiers : gmap Z Z) (current default_ : Z) : Z * option Z :=
  let current_cost :=
    match tiers !! current with
    | Some v => v
    | None => default default_ (snd <$> last (filter (λ p, p.1 < current) (btree_iter tiers)))
    end in
  let next_tier_start := fst <$> head (filter (λ p, current < p.1) (btree_iter tiers)) in
  (current_cost, next_tier_start).

Definition instruction_tier (t : CostTable) (instr_count : Z) : Z * option Z :=
  get_current_and_future_tier (instruction_tiers t) instr_count INSTRUCTION_TIER_DEFAULT.
Definition stack_height_tier (t : CostTable) (stack_height : Z) : Z * option Z :=
  get_current_and_future_tier (stack_height_tiers t) stack_height STACK_HEIGHT_TIER_DEFAULT.
Definition stack_size_tier (t : CostTable) (stack_size : Z) : Z * option Z :=
  get_current_and_future_tier (stack_size_tiers t) stack_size STACK_SIZE_TIER_DEFAULT.

Record GasCost := mkGasCost {
  instruction_gas : Z;
  memory_gas : Z;
  stack_height_gas : Z;
}.

Module Cost.
Definition total (c : GasCost) : Z := wadd (wadd (instruction_gas c) (memory_gas c)) (stack_height_gas c).
Definition total_internal (c : GasCost) : InternalGas :=
  wadd (wadd (instruction_gas c) (memory_gas c)) (stack_height_gas c).
End Cost.

(** ** Versions ([gas_predicates.rs]) *)

Definition dont_charge_budget_on_storage_oog (gas_model_version : Z) : bool := 4 <=? gas_model_version.
Definition gas_price_too_high (gas_model_version : Z) : bool := 4 <=? gas_model_version.
Definition charge_input_as_memory (gas_model_version : Z) : bool := gas_model_version =? 4.
Definition use_legacy_abstract_size (gas_model_version : Z) : bool := gas_model_version <=? 7.
Definition charge_upgrades (gas_model_version : Z) : bool := 7 <=? gas_model_version.

(** ** Cost schedules ([tables.rs]) *)

Definition zero_cost_schedule : CostTable := mkCostTable {[ 0 := 0 ]} {[ 0 := 0 ]} {[ 0 := 0 ]}.
Definition unit_cost_schedule : CostTable := mkCostTable {[ 0 := 1 ]} {[ 0 := 1 ]} {[ 0 := 1 ]}.

Definition initial_cost_schedule_v1 : CostTable := {|
  instruction_tiers := collect [(0, 1); (3000, 2); (6000, 3); (8000, 5); (9000, 9); (9500, 16);
    (10000, 29); (10500, 50)];
  stack_height_tiers := collect [(0, 1); (400, 2); (800, 3); (1200, 5); (1500, 9); (1800, 16);
    (2000, 29); (2200, 50)];
  stack_size_tiers := collect [(0, 1); (2000, 2); (5000, 3); (8000, 5); (10000, 9); (11000, 16);
    (11500, 29); (11500, 50)];
|}.

Definition initial_cost_schedule_v2 : CostTable := {|
  instruction_tiers := collect [(0, 1); (3000, 2); (6000, 3); (8000, 5); (9000, 9); (9500, 16);
    (10000, 29); (10500, 50); (12000, 150); (15000, 250)];
  stack_height_tiers := collect [(0, 1); (400, 2); (800, 3); (1200, 5); (1500, 9); (1800, 16);
    (2000, 29); (2200, 50); (3000, 150); (5000, 250)];
  stack_size_tiers := collect [(0, 1); (2000, 2); (5000, 3); (8000, 5); (10000, 9); (11000, 16);
    (11500, 29); (11500, 50); (15000, 150); (20000, 250)];
|}.

Definition initial_cost_schedule_v3 : CostTable := {|
  instruction_tiers := collect [(0, 1); (3000, 2); (6000, 3); (8000, 5); (9000, 9); (9500, 16);
    (10000, 29); (10500, 50); (15000, 100)];
  stack_height_tiers := collect [(0, 1); (400, 2); (800, 3); (1200, 5); (1500, 9); (1800, 16);
    (2000, 29); (2200, 50); (5000, 100)];
  stack_size_tiers := collect [(0, 1); (2000, 2); (5000, 3); (8000, 5); (10000, 9); (11000, 16);
    (11500, 29); (11500, 50); (20000, 100)];
|}.

Definition initial_cost_schedule_v4 : CostTable := {|
  instruction_tiers := collect [(0, 1); (20000, 2); (50000, 10); (100000, 50); (200000, 100)];
  stack_height_tiers := collect [(0, 1); (1000, 2); (10000, 10)];
  stack_size_tiers := collect [(0, 1); (100000, 2); (500000, 5); (1000000, 100)];
|}.

Definition initial_cost_schedule_v5 : CostTable := {|
  instruction_tiers := collect [(0, 1); (20000, 2); (50000, 10); (100000, 50); (200000, 100);
    (10000000, 1000)];
  stack_height_tiers := collect [(0, 1); (1000, 2); (10000, 10)];
  stack_size_tiers := collect [(0, 1); (100000, 2); (500000, 5); (1000000, 100); (100000000, 1000)];
|}.

Definition cost_table_for_version (gas_model : Z) : CostTable :=
  if gas_model <=? 3 then initial_cost_schedule_v1
  else if gas_model =? 4 then initial_cost_schedule_v2
  else if gas_model =? 5 then initial_cost_schedule_v3
  else if gas_model <=? 7 then initial_cost_schedule_v4
  else initial_cost_schedule_v5.

(** ** The meter ([tables.rs]) *)

Definition REFERENCE_SIZE : AbstractMemorySize := 8.
Definition STRUCT_SIZE : AbstractMemorySize := 2.
Definition VEC_SIZE : AbstractMemorySize := 8.

Record GasStatus := mkGasStatus {
  gas_model_version : Z;
  cost_table : CostTable;
  gas_left : InternalGas;
  gas_price : Z;
  initial_budget : InternalGas;
  charging : bool;  (* the field [charge] *)
  stack_height_high_water_mark : Z;
  stack_height_current : Z;
  stack_height_next_tier_start : option Z;
  stack_height_current_tier_mult : Z;
  stack_size_high_water_mark : Z;
  stack_size_current : Z;
  stack_size_next_tier_start : option Z;
  stack_size_current_tier_mult : Z;
  instructions_executed : Z;
  instructions_next_tier_start : option Z;
  instructions_current_tier_mult : Z;
}.

(** The status codes that the meter returns. *)
Inductive StatusCode := ARITHMETIC_OVERFLOW | PC_OVERFLOW | OUT_OF_GAS.

(** [ValueView]: the size of a value under the old and under the new rules. *)
Record ValueView := mkValueView {
  legacy_abstract_memory_size_ : AbstractMemorySize;
  abstract_memory_size_ : AbstractMemorySize;
}.

(** Updates of groups of fields. *)
Definition with_gas_left (s : GasStatus) (g : InternalGas) : GasStatus :=
  mkGasStatus (gas_model_version s) (cost_table s) g (gas_price s) (initial_budget s) (charging s)
    (stack_height_high_water_mark s) (stack_height_current s) (stack_height_next_tier_start s)
    (stack_height_current_tier_mult s) (stack_size_high_water_mark s) (stack_size_current s)
    (stack_size_next_tier_start s) (stack_size_current_tier_mult s) (instructions_executed s)
    (instructions_next_tier_start s) (instructions_current_tier_mult s).

Definition with_charging (s : GasStatus) (b : bool) : GasStatus :=
  mkGasStatus (gas_model_version s) (cost_table s) (gas_left s) (gas_price s) (initial_budget s) b
    (stack_height_high_water_mark s) (stack_height_current s) (stack_height_next_tier_start s)
    (stack_height_current_tier_mult s) (stack_size_high_water_mark s) (stack_size_current s)
    (stack_size_next_tier_start s) (stack_size_current_tier_mult s) (instructions_executed s)
    (instructions_next_tier_start s) (instructions_current_tier_mult s).

Definition with_stack_height (s : GasStatus) (high current : Z) (next : option Z) (mult : Z) : GasStatus :=
  mkGasStatus (gas_model_version s) (cost_table s) (gas_left s) (gas_price s) (initial_budget s) (charging s)
    high current next mult (stack_size_high_water_mark s) (stack_size_current s)
    (stack_size_next_tier_start s) (stack_size_current_tier_mult s) (instructions_executed s)
    (instructions_next_tier_start s) (instructions_current_tier_mult s).

Definition with_stack_size (s : GasStatus) (high current : Z) (next : option Z) (mult : Z) : GasStatus :=
  mkGasStatus (gas_model_version s) (cost_table s) (gas_left s) (gas_price s) (initial_budget s) (charging s)
    (stack_height_high_water_mark s) (stack_height_current s) (stack_height_next_tier_start s)
    (stack_height_current_tier_mult s) high current next mult (instructions_executed s)
    (instructions_next_tier_start s) (instructions_current_tier_mult s).

Definition with_instructions (s : GasStatus) (executed : Z) (next : option Z) (mult : Z) : GasStatus :=
  mkGasStatus (gas_model_version s) (cost_table s) (gas_left s) (gas_price s) (initial_budget s) (charging s)
    (stack_height_high_water_mark s) (stack_height_current s) (stack_height_next_tier_start s)
    (stack_height_current_tier_mult s) (stack_size_high_water_mark s) (stack_size_current s)
    (stack_size_next_tier_start s) (stack_size_current_tier_mult s) executed next mult.

Module Meter.
(** A method with a [&mut self] receiver that returns [PartialVMResult<A>]. *)
Abbreviation VM := (SE GasStatus StatusCode).

Definition get : VM GasStatus := λ s, (Ok s, s).
Definition put (s : GasStatus) : VM unit := λ _, (Ok tt, s).

Definition INTERNAL_UNIT_MULTIPLIER : Z := 1000.
Definition to_internal_units (val : Z) : InternalGas := wmul val INTERNAL_UNIT_MULTIPLIER.
Definition to_mist (s : GasStatus) (val : InternalGas) : Z := wmul (to_unit_round_down val) (gas_price s).

Definition new (table : CostTable) (budget price gas_model_version : Z) : outcome GasStatus :=
  assert_ (0 <? price);;
  let budget_in_unit := budget / price in
  let gas_left := to_internal_units budget_in_unit in
  let '(height_mult, height_next) := stack_height_tier table 0 in
  let '(size_mult, size_next) := stack_size_tier table 0 in
  let '(instr_mult, instr_next) := instruction_tier table 0 in
  Ret (mkGasStatus gas_model_version table gas_left price gas_left true
         0 0 height_next height_mult 0 0 size_next size_mult 0 instr_next instr_mult).

Definition new_unmetered : GasStatus :=
  mkGasStatus 4 zero_cost_schedule 0 1 0 false 0 0 None 0 0 0 None 0 0 None 0.

(** The new tier, once the counter is above the start of the next one. *)
Definition advance (tier : Z → Z * option Z) (current : Z) (next : option Z) (mult : Z) : Z * option Z :=
  match next with
  | Some start => if start <? current then tier current else (mult, next)
  | None => (mult, next)
  end.

Definition push_stack (pushes : Z) : VM unit :=
  s ← get;
  match checked_add (stack_height_current s) pushes with
  | None => se_throw ARITHMETIC_OVERFLOW
  | Some new_height =>
      let high := if stack_height_high_water_mark s <? new_height then new_height
                  else stack_height_high_water_mark s in
      let '(mult, next) := advance (stack_height_tier (cost_table s)) new_height
                             (stack_height_next_tier_start s) (stack_height_current_tier_mult s) in
      put (with_stack_height s high new_height next mult)
  end.

Definition pop_stack (pops : Z) : VM unit :=
  s ← get;
  put (with_stack_height s (stack_height_high_water_mark s) (sat_sub (stack_height_current s) pops)
         (stack_height_next_tier_start s) (stack_height_current_tier_mult s)).

Definition increase_instruction_count (amount : Z) : VM unit :=
  s ← get;
  match checked_add (instructions_executed s) amount with
  | None => se_throw PC_OVERFLOW
  | Some new_pc =>
      let '(mult, next) := advance (instruction_tier (cost_table s)) new_pc
                             (instructions_next_tier_start s) (instructions_current_tier_mult s) in
      put (with_instructions s new_pc next mult)
  end.

Definition increase_stack_size (size_amount : Z) : VM unit :=
  s ← get;
  match checked_add (stack_size_current s) size_amount with
  | None => se_throw ARITHMETIC_OVERFLOW
  | Some new_size =>
      let high := if stack_size_high_water_mark s <? new_size then new_size
                  else stack_size_high_water_mark s in
      let '(mult, next) := advance (stack_size_tier (cost_table s)) new_size
                             (stack_size_next_tier_start s) (stack_size_current_tier_mult s) in
      put (with_stack_size s high new_size next mult)
  end.

Definition decrease_stack_size (size_amount : Z) : VM unit :=
  s ← get;
  let new_size := sat_sub (stack_size_current s) size_amount in
  let high := if stack_size_high_water_mark s <? new_size then new_size
              else stack_size_high_water_mark s in
  put (with_stack_size s high new_size (stack_size_next_tier_start s) (stack_size_current_tier_mult s)).

Definition remaining_gas_units (s : GasStatus) : Gas := to_unit_round_down (gas_left s).

Definition deduct_gas (amount : InternalGas) : VM unit :=
  s ← get;
  if negb (charging s) then mret tt
  else
    match checked_sub (gas_left s) amount with
    | Some g => put (with_gas_left s g)
    | None => put (with_gas_left s 0);; se_throw OUT_OF_GAS
    end.

Definition deduct_units (amount : Z) : VM unit := deduct_gas amount.

Definition set_metering (s : GasStatus) (enabled : bool) : GasStatus := with_charging s enabled.

(** [checked_mul(..).ok_or_else(ARITHMETIC_OVERFLOW)?]. *)
Definition mul_or_overflow (a b : Z) : VM Z :=
  match checked_mul a b with Some v => mret v | None => se_throw ARITHMETIC_OVERFLOW end.

Definition charge (num_instructions pushes pops incr_size _decr_size : Z) : VM unit :=
  push_stack pushes;;
  increase_instruction_count num_instructions;;
  increase_stack_size incr_size;;
  s ← get;
  i ← mul_or_overflow (instructions_current_tier_mult s) num_instructions;
  m ← mul_or_overflow (stack_size_current_tier_mult s) incr_size;
  h ← mul_or_overflow (stack_height_current_tier_mult s) pushes;
  deduct_gas (Cost.total_internal (mkGasCost i m h));;
  pop_stack pops.

Definition gas_used_pre_gas_price (s : GasStatus) : Gas :=
  match checked_sub (initial_budget s) (gas_left s) with
  | Some val => to_unit_round_down val
  | None => to_unit_round_down (initial_budget s)
  end.

Definition charge_bytes (size cost_per_byte : Z) : VM unit :=
  s ← get;
  (if charge_input_as_memory (gas_model_version s) then
     increase_stack_size size;;
     s ← get;
     mret (wmul (wmul (stack_size_current_tier_mult s) size) cost_per_byte)
   else mret (wmul size cost_per_byte))
  ≫= deduct_units.

Definition abstract_memory_size (s : GasStatus) (val : ValueView) : AbstractMemorySize :=
  if use_legacy_abstract_size (gas_model_version s) then legacy_abstract_memory_size_ val
  else abstract_memory_size_ val.
End Meter.

(** ** [GasMeter for GasStatus] *)

Inductive SimpleInstruction :=
  | Nop | Ret_ | BrTrue | BrFalse | Branch
  | LdU8 | LdU64 | LdU128 | LdTrue | LdFalse
  | FreezeRef | MutBorrowLoc | ImmBorrowLoc | ImmBorrowField | MutBorrowField
  | ImmBorrowFieldGeneric | MutBorrowFieldGeneric
  | CastU8 | CastU64 | CastU128
  | Add | Sub | Mul | Mod | Div | BitOr | BitAnd | Xor | Shl | Shr
  | Or | And | Not | Lt | Gt | Le | Ge | Abort
  | LdU16 | LdU32 | LdU256 | CastU16 | CastU32 | CastU256.

(** [Type::size] of the primitive types ([LEGACY_BASE_MEMORY_SIZE]). *)
Definition primitive_size : AbstractMemorySize := 1.

(** Pops, pushes, size taken off the stack, size put on it. *)
Definition get_simple_instruction_stack_change (instr : SimpleInstruction) :
    Z * Z * AbstractMemorySize * AbstractMemorySize :=
  let b := primitive_size in
  match instr with
  | Nop | Ret_ => (0, 0, 0, 0)
  | BrTrue | BrFalse => (1, 0, b, 0)
  | Branch => (0, 0, 0, 0)
  | LdU8 | LdU16 | LdU32 | LdU64 | LdU128 | LdU256 => (0, 1, 0, b)
  | LdTrue | LdFalse => (0, 1, 0, b)
  | FreezeRef => (1, 1, REFERENCE_SIZE, REFERENCE_SIZE)
  | ImmBorrowLoc | MutBorrowLoc => (0, 1, 0, REFERENCE_SIZE)
  | ImmBorrowField | MutBorrowField | ImmBorrowFieldGeneric | MutBorrowFieldGeneric =>
      (1, 1, REFERENCE_SIZE, REFERENCE_SIZE)
  | CastU8 | CastU16 | CastU32 | CastU64 | CastU128 | CastU256 => (1, 1, b, b)
  | Add | Sub | Mul | Mod | Div => (2, 1, sat_add b b, b)
  | BitOr | BitAnd | Xor => (2, 1, sat_add b b, b)
  | Shl | Shr => (2, 1, sat_add b b, b)
  | Or | And => (2, 1, sat_add b b, b)
  | Lt | Gt | Le | Ge => (2, 1, sat_add b b, b)
  | Not => (1, 1, b, b)
  | Abort => (1, 0, b, 0)
  end.

Module GasMeter.
Import Meter.

Definition len {A} (l : list A) : Z := Z.of_nat (length l).

(** [fold(AbstractMemorySize::new(start), |acc, elem| acc + size(elem))], which saturates. *)
Definition total_size (s : GasStatus) (start : AbstractMemorySize) (vals : list ValueView) :
    AbstractMemorySize :=
  foldl (λ acc v, sat_add acc (abstract_memory_size s v)) start vals.

Definition charge_simple_instr (instr : SimpleInstruction) : VM unit :=
  let '(pops, pushes, pop_size, push_size) := get_simple_instruction_stack_change instr in
  charge 1 pushes pops push_size pop_size.

Definition charge_pop (popped_val : ValueView) : VM unit :=
  s ← get; charge 1 0 1 0 (abstract_memory_size s popped_val).

Definition charge_native_function (amount : InternalGas) (ret_vals : option (list ValueView)) : VM unit :=
  s ← get;
  let pushes := match ret_vals with Some l => len l | None => 0 end in
  let size_increase := match ret_vals with Some l => total_size s 0 l | None => 0 end in
  charge 0 pushes 0 size_increase 0;;
  deduct_gas amount.

Definition charge_native_function_before_execution (args : list ValueView) : VM unit :=
  s ← get;
  let pops := len args in
  charge 1 0 pops 0 (total_size s pops args).

Definition charge_call (args : list ValueView) : VM unit :=
  s ← get; charge 1 0 (len args) 0 (total_size s 0 args).

Definition charge_call_generic (args : list ValueView) : VM unit :=
  s ← get; charge 1 0 (len args) 0 (total_size s 0 args).

Definition charge_ld_const (size : Z) : VM unit := charge 1 1 0 size 0.

Definition charge_ld_const_after_deserialization (_ : ValueView) : VM unit := mret tt.

Definition charge_copy_loc (val : ValueView) : VM unit :=
  s ← get; charge 1 1 0 (abstract_memory_size s val) 0.

Definition charge_move_loc (val : ValueView) : VM unit :=
  s ← get; charge 1 1 0 (abstract_memory_size s val) 0.

Definition charge_store_loc (val : ValueView) : VM unit :=
  s ← get; charge 1 0 1 0 (abstract_memory_size s val).

Definition charge_pack (args : list ValueView) : VM unit := charge 1 1 (len args) STRUCT_SIZE 0.

Definition charge_unpack (args : list ValueView) : VM unit := charge 1 (len args) 1 0 STRUCT_SIZE.

Definition charge_read_ref (ref_val : ValueView) : VM unit :=
  s ← get; charge 1 1 1 (abstract_memory_size s ref_val) REFERENCE_SIZE.

Definition charge_write_ref (new_val old_val : ValueView) : VM unit :=
  s ← get; charge 1 1 2 (abstract_memory_size s new_val) (abstract_memory_size s old_val).

Definition charge_eq (lhs rhs : ValueView) : VM unit :=
  s ← get;
  let size_reduction := sat_add (abstract_memory_size s lhs) (abstract_memory_size s rhs) in
  charge 1 1 2 (sat_add primitive_size size_reduction) size_reduction.

Definition charge_neq (lhs rhs : ValueView) : VM unit :=
  s ← get;
  let size_reduction := sat_add (abstract_memory_size s lhs) (abstract_memory_size s rhs) in
  charge 1 1 2 primitive_size size_reduction.

Definition charge_vec_pack (args : list ValueView) : VM unit := charge 1 1 (len args) VEC_SIZE 0.

Definition charge_vec_len : VM unit := charge 1 1 1 primitive_size REFERENCE_SIZE.

Definition charge_vec_borrow : VM unit :=
  charge 1 1 2 REFERENCE_SIZE (sat_add REFERENCE_SIZE primitive_size).

Definition charge_vec_push_back : VM unit := charge 1 0 2 0 REFERENCE_SIZE.

Definition charge_vec_pop_back : VM unit := charge 1 1 1 0 REFERENCE_SIZE.

Definition charge_vec_unpack (expect_num_elements : Z) : VM unit := charge 1 expect_num_elements 1 0 VEC_SIZE.

Definition charge_vec_swap : VM unit :=
  let size_decrease := sat_add (sat_add REFERENCE_SIZE primitive_size) primitive_size in
  charge 1 1 1 0 size_decrease.

Definition charge_drop_frame (_ : list ValueView) : VM unit := mret tt.

Definition remaining_gas (s : GasStatus) : InternalGas :=
  if negb (charging s) then U64_MAX else gas_left s.

(** Everything that the VM can ask the meter to charge. *)
Inductive Op :=
  | OSimple (i : SimpleInstruction) | OPop (v : ValueView)
  | ONative (amount : InternalGas) (ret_vals : option (list ValueView)) | OBefore (args : list ValueView)
  | OCall (args : list ValueView) | OCallGeneric (args : list ValueView)
  | OLdConst (size : Z) | OLdConstAfter (v : ValueView)
  | OCopyLoc (v : ValueView) | OMoveLoc (v : ValueView) | OStoreLoc (v : ValueView)
  | OPack (args : list ValueView) | OUnpack (args : list ValueView)
  | OReadRef (v : ValueView) | OWriteRef (n o : ValueView) | OEq (l r : ValueView) | ONeq (l r : ValueView)
  | OVecPack (args : list ValueView) | OVecLen | OVecBorrow | OVecPushBack | OVecPopBack
  | OVecUnpack (n : Z) | OVecSwap | ODropFrame (l : list ValueView)
  | OBytes (size cost_per_byte : Z).

Definition run_op (o : Op) : VM unit :=
  match o with
  | OSimple i => charge_simple_instr i
  | OPop v => charge_pop v
  | ONative a r => charge_native_function a r
  | OBefore l => charge_native_function_before_execution l
  | OCall l => charge_call l
  | OCallGeneric l => charge_call_generic l
  | OLdConst n => charge_ld_const n
  | OLdConstAfter v => charge_ld_const_after_deserialization v
  | OCopyLoc v => charge_copy_loc v
  | OMoveLoc v => charge_move_loc v
  | OStoreLoc v => charge_store_loc v
  | OPack l => charge_pack l
  | OUnpack l => charge_unpack l
  | OReadRef v => charge_read_ref v
  | OWriteRef n o => charge_write_ref n o
  | OEq l r => charge_eq l r
  | ONeq l r => charge_neq l r
  | OVecPack l => charge_vec_pack l
  | OVecLen => charge_vec_len
  | OVecBorrow => charge_vec_borrow
  | OVecPushBack => charge_vec_push_back
  | OVecPopBack => charge_vec_pop_back
  | OVecUnpack n => charge_vec_unpack n
  | OVecSwap => charge_vec_swap
  | ODropFrame l => charge_drop_frame l
  | OBytes n c => charge_bytes n c
  end.

(** The VM stops at the first error. *)
Fixpoint run_ops (l : list Op) : VM unit :=
  match l with
  | [] => mret tt
  | o :: l => run_op o;; run_ops l
  end.
End GasMeter.

(** * Tiers *)

Definition tier_cost (tiers : gmap Z Z) (default_ h : Z) : Z :=
  (get_current_and_future_tier tiers h default_).1.

Section tiers.
Context (tiers : gmap Z Z) (default_ : Z).

Lemma last_filter_le (l : list (Z * Z)) h v :
  StronglySorted key_lt l → (h, v) ∈ l → last (filter (λ p, p.1 <= h) l) = Some (h, v).
Proof.
  induction 1 as [|p l Hl IH Hp]; intros Hin; [set_solver|]. rewrite filter_cons.
  apply elem_of_cons in Hin as [<-|Hin]; simpl.
  - rewrite decide_True by lia. rewrite filter_none; [done|]. intros q Hq. rewrite Forall_forall in Hp.
    specialize (Hp q Hq). unfold key_lt in Hp. simpl in Hp. lia.
  - rewrite Forall_forall in Hp. pose proof (Hp _ Hin) as Hlt. unfold key_lt in Hlt. simpl in Hlt.
    rewrite decide_True by lia. by rewrite last_cons, IH.
Qed.

(** The cost of the last tier that starts at [h] or below. *)
Lemma tier_cost_alt h :
  tier_cost tiers default_ h =
    default default_ (snd <$> last (filter (λ p, p.1 <= h) (btree_iter tiers))).
Proof.
  unfold tier_cost, get_current_and_future_tier. simpl. destruct (tiers !! h) as [v|] eqn:Hv.
  - rewrite (last_filter_le _ h v); [done|apply btree_iter_key_lt|]. by apply elem_of_btree_iter.
  - do 3 f_equal. apply filter_ext_elem. intros [k v] Hk%elem_of_btree_iter. simpl.
    assert (k ≠ h) by congruence. lia.
Qed.

Lemma tier_cost_const p h :
  p <= h → (∀ k v, tiers !! k = Some v → ¬ (p < k <= h)) →
  tier_cost tiers default_ p = tier_cost tiers default_ h.
Proof.
  intros Hp Hno. rewrite !tier_cost_alt. do 3 f_equal. apply filter_ext_elem.
  intros [k v] Hk%elem_of_btree_iter. simpl. specialize (Hno k v Hk). lia.
Qed.

Lemma next_tier_start p :
  match (get_current_and_future_tier tiers p default_).2 with
  | Some b => p < b ∧ is_Some (tiers !! b) ∧ ∀ k v, tiers !! k = Some v → p < k → b <= k
  | None => ∀ k v, tiers !! k = Some v → k <= p
  end.
Proof.
  simpl. pose proof (btree_iter_key_lt tiers) as Hs.
  destruct (filter (λ q, p < q.1) (btree_iter tiers)) as [|[b w] l] eqn:Hf; simpl.
  - intros k v Hk%elem_of_btree_iter. destruct (decide (p < k)); [|lia].
    assert ((k, v) ∈ filter (λ q, p < q.1) (btree_iter tiers)) as Hin by (by apply list_elem_of_filter).
    rewrite Hf in Hin. set_solver.
  - assert ((b, w) ∈ filter (λ q, p < q.1) (btree_iter tiers)) as Hb by (rewrite Hf; set_solver).
    apply list_elem_of_filter in Hb as [Hpb Hb%elem_of_btree_iter]. split_and!; [done|eauto|].
    intros k v Hk Hpk. assert ((k, v) ∈ filter (λ q, p < q.1) (btree_iter tiers)) as Hin.
    { apply list_elem_of_filter. split; [done|]. by apply elem_of_btree_iter. }
    rewrite Hf in Hin. apply elem_of_cons in Hin as [?|Hin]; [simplify_eq; lia|].
    assert (StronglySorted key_lt ((b, w) :: l)) as Hs'.
    { rewrite <-Hf. by apply filter_sorted. }
    inversion Hs' as [|? ? _ Hall]; subst. rewrite Forall_forall in Hall.
    specialize (Hall _ Hin). unfold key_lt in Hall. simpl in Hall. lia.
Qed.

(** The multiplier and next start that go with a high-water mark [h]: they were looked up at some
    mark [p] and [h] has not passed the next start since. *)
Definition tier_state (h : Z) (next : option Z) (mult : Z) : Prop :=
  ∃ p, 0 <= p <= h ∧ get_current_and_future_tier tiers p default_ = (mult, next) ∧
    ∀ b, next = Some b → h <= b.

(** The multiplier is that of the tier of [h], except that a mark exactly at the
    start of a tier may still be charged at the tier below. *)
Lemma tier_state_mult h next mult :
  tier_state h next mult →
  mult = tier_cost tiers default_ h ∨
  (is_Some (tiers !! h) ∧ mult = tier_cost tiers default_ (h - 1)).
Proof.
  intros (p & Hp & Heq & Hb). pose proof (next_tier_start p) as Hn. rewrite Heq in Hn. simpl in Hn.
  assert (mult = tier_cost tiers default_ p) as -> by (unfold tier_cost; by rewrite Heq).
  destruct next as [b|].
  - destruct Hn as (Hpb & Hs & Hmin). specialize (Hb b eq_refl). destruct (decide (h = b)) as [->|].
    + right. split; [done|]. apply tier_cost_const; [lia|]. intros k v Hk ?.
      specialize (Hmin k v Hk). lia.
    + left. apply tier_cost_const; [lia|]. intros k v Hk ?. specialize (Hmin k v Hk). lia.
  - left. apply tier_cost_const; [lia|]. intros k v Hk ?. specialize (Hn k v Hk). lia.
Qed.

Lemma tier_state_start :
  tier_state 0 (get_current_and_future_tier tiers 0 default_).2 (get_current_and_future_tier tiers 0 default_).1.
Proof.
  exists 0. split; [lia|]. split; [by destruct (get_current_and_future_tier _ _ _)|].
  intros b Hb. pose proof (next_tier_start 0) as Hn. rewrite Hb in Hn. lia.
Qed.

Lemma advance_spec h next mult new mult' next' :
  tier_state h next mult → 0 <= new →
  Meter.advance (λ x, get_current_and_future_tier tiers x default_) new next mult = (mult', next') →
  tier_state (Z.max h new) next' mult'.
Proof.
  intros (p & Hp & Heq & Hb) Hnew. unfold Meter.advance. destruct next as [start|].
  - specialize (Hb start eq_refl). destruct (Z.ltb_spec start new) as [Hlt|Hge]; intros Ha.
    + exists new. split; [lia|]. split; [done|]. intros b ->.
      pose proof (next_tier_start new) as Hn. rewrite Ha in Hn. simpl in Hn.
      pose proof (next_tier_start p) as Hn'. rewrite Heq in Hn'. simpl in Hn'. lia.
    + simplify_eq. exists p. split; [lia|]. split; [done|]. intros b [= <-]. lia.
  - intros [= <- <-]. exists p. split; [lia|]. split; [done|]. done.
Qed.
End tiers.

(** * The invariant of the meter *)

Record meter_ok (s : GasStatus) : Prop := {
  ok_gas : 0 <= gas_left s <= initial_budget s;
  ok_budget : initial_budget s < U64_MOD;
  ok_height : 0 <= stack_height_current s <= stack_height_high_water_mark s;
  ok_height_tier :
    tier_state (stack_height_tiers (cost_table s)) STACK_HEIGHT_TIER_DEFAULT
      (stack_height_high_water_mark s) (stack_height_next_tier_start s) (stack_height_current_tier_mult s);
  ok_size : 0 <= stack_size_current s <= stack_size_high_water_mark s;
  ok_size_tier :
    tier_state (stack_size_tiers (cost_table s)) STACK_SIZE_TIER_DEFAULT
      (stack_size_high_water_mark s) (stack_size_next_tier_start s) (stack_size_current_tier_mult s);
  ok_instr : 0 <= instructions_executed s;
  ok_instr_tier :
    tier_state (instruction_tiers (cost_table s)) INSTRUCTION_TIER_DEFAULT
      (instructions_executed s) (instructions_next_tier_start s) (instructions_current_tier_mult s);
}.

(** What no operation of the meter changes. *)
Definition same_terms (s s' : GasStatus) : Prop :=
  initial_budget s' = initial_budget s ∧ gas_price s' = gas_price s ∧ charging s' = charging s ∧
  cost_table s' = cost_table s ∧ gas_model_version s' = gas_model_version s.

#[export] Instance same_terms_preorder : PreOrder same_terms.
Proof.
  split; unfold same_terms; [by intros|]. intros s1 s2 s3 (?&?&?&?&?) (?&?&?&?&?). split_and!; congruence.
Qed.

Section operations.
Implicit Types s : GasStatus.

Lemma max_high (h x : Z) : (if h <? x then x else h) = Z.max h x.
Proof. destruct (Z.ltb_spec h x); lia. Qed.

Lemma push_stack_spec s n :
  meter_ok s → 0 <= n →
  match Meter.push_stack n s with
  | (Ok _, s') => ∃ next mult,
      s' = with_stack_height s (Z.max (stack_height_high_water_mark s) (stack_height_current s + n))
             (stack_height_current s + n) next mult ∧ meter_ok s'
  | (Err e, s') => s' = s ∧ e = ARITHMETIC_OVERFLOW
  end.
Proof.
  intros [] Hn. unfold Meter.push_stack, checked_add. unfold_m. simpl.
  case_decide; simpl; [|done]. rewrite max_high.
  destruct (Meter.advance _ _ _ _) as [mult next] eqn:Ha. simpl. exists next, mult. split; [done|].
  eapply advance_spec in Ha; [|done|lia]. split; simpl; try done; lia.
Qed.

Lemma increase_instruction_count_spec s n :
  meter_ok s → 0 <= n →
  match Meter.increase_instruction_count n s with
  | (Ok _, s') => ∃ next mult,
      s' = with_instructions s (instructions_executed s + n) next mult ∧ meter_ok s'
  | (Err e, s') => s' = s ∧ e = PC_OVERFLOW
  end.
Proof.
  intros [] Hn. unfold Meter.increase_instruction_count, checked_add. unfold_m. simpl.
  case_decide; simpl; [|done].
  destruct (Meter.advance _ _ _ _) as [mult next] eqn:Ha. simpl. exists next, mult. split; [done|].
  eapply advance_spec in Ha; [|done|lia]. rewrite Z.max_r in Ha by lia.
  split; simpl; try done; lia.
Qed.

Lemma increase_stack_size_spec s n :
  meter_ok s → 0 <= n →
  match Meter.increase_stack_size n s with
  | (Ok _, s') => ∃ next mult,
      s' = with_stack_size s (Z.max (stack_size_high_water_mark s) (stack_size_current s + n))
             (stack_size_current s + n) next mult ∧ meter_ok s'
  | (Err e, s') => s' = s ∧ e = ARITHMETIC_OVERFLOW
  end.
Proof.
  intros [] Hn. unfold Meter.increase_stack_size, checked_add. unfold_m. simpl.
  case_decide; simpl; [|done]. rewrite max_high.
  destruct (Meter.advance _ _ _ _) as [mult next] eqn:Ha. simpl. exists next, mult. split; [done|].
  eapply advance_spec in Ha; [|done|lia]. split; simpl; try done; lia.
Qed.

Lemma pop_stack_spec s n :
  meter_ok s → 0 <= n →
  ∃ s', Meter.pop_stack n s = (Ok tt, s') ∧ meter_ok s' ∧
    s' = with_stack_height s (stack_height_high_water_mark s) (Z.max 0 (stack_height_current s - n))
           (stack_height_next_tier_start s) (stack_height_current_tier_mult s).
Proof. intros [] Hn. eexists. split; [done|]. split; [|done]. split; simpl; try done. unfold sat_sub. lia. Qed.

Lemma deduct_gas_spec s amount :
  meter_ok s → 0 <= amount →
  match Meter.deduct_gas amount s with
  | (Ok _, s') => meter_ok s' ∧
      s' = with_gas_left s (if charging s then gas_left s - amount else gas_left s)
  | (Err e, s') => meter_ok s' ∧ s' = with_gas_left s 0 ∧ e = OUT_OF_GAS ∧ charging s = true ∧
      gas_left s < amount
  end.
Proof.
  intros [] Hn. unfold Meter.deduct_gas, checked_sub. unfold_m. simpl. destruct (charging s) eqn:Hc; simpl.
  - case_decide; simpl; (split; [split; simpl; try done; lia|]); [done|].
    split_and!; [done..|lia].
  - split; [by split|]. by destruct s.
Qed.

(** A multiplier [m] that a mark [h] is charged at. *)
Definition priced (tiers : gmap Z Z) (default_ h m : Z) : Prop :=
  m = tier_cost tiers default_ h ∨ (is_Some (tiers !! h) ∧ m = tier_cost tiers default_ (h - 1)).

(** The cost of [n] instructions that push [p] values of total size [i], at the tiers that
    [s] has reached. *)
Definition charge_cost s (n p i cost : Z) : Prop :=
  ∃ im sm hm,
    priced (instruction_tiers (cost_table s)) INSTRUCTION_TIER_DEFAULT (instructions_executed s) im ∧
    priced (stack_size_tiers (cost_table s)) STACK_SIZE_TIER_DEFAULT (stack_size_high_water_mark s) sm ∧
    priced (stack_height_tiers (cost_table s)) STACK_HEIGHT_TIER_DEFAULT (stack_height_high_water_mark s) hm ∧
    cost = (im * n + sm * i + hm * p) mod U64_MOD.

(** What one charge does to the gas. *)
Definition charge_outcome s (n p i : Z) (r : result StatusCode unit) s' : Prop :=
  match r with
  | Ok _ => ∃ cost, charge_cost s' n p i cost ∧
      gas_left s' = (if charging s then gas_left s - cost else gas_left s)
  | Err OUT_OF_GAS => ∃ cost, charge_cost s' n p i cost ∧
      charging s = true ∧ gas_left s < cost ∧ gas_left s' = 0
  | Err _ => gas_left s' = gas_left s
  end.

Lemma wadd_mod3 a b c : wadd (wadd a b) c = (a + b + c) mod U64_MOD.
Proof. unfold wadd. by rewrite Z.add_mod_idemp_l. Qed.

Lemma mul_or_overflow_spec a b s :
  Meter.mul_or_overflow a b s = (Ok (a * b), s) ∨ Meter.mul_or_overflow a b s = (Err ARITHMETIC_OVERFLOW, s).
Proof. unfold Meter.mul_or_overflow, checked_mul. case_decide; [by left|by right]. Qed.

Lemma charge_cost_intro s n p i :
  meter_ok s →
  charge_cost s n p i (Cost.total_internal (mkGasCost (instructions_current_tier_mult s * n)
    (stack_size_current_tier_mult s * i) (stack_height_current_tier_mult s * p))).
Proof.
  intros []. do 3 eexists. split_and!; [by eapply tier_state_mult..|]. apply wadd_mod3.
Qed.

Lemma charge_cost_gas s g n p i cost : charge_cost (with_gas_left s g) n p i cost ↔ charge_cost s n p i cost.
Proof. done. Qed.

Lemma charge_steps s n p q i d :
  meter_ok s → 0 <= n → 0 <= p → 0 <= q → 0 <= i →
  let '(r, s') := Meter.charge n p q i d s in
  meter_ok s' ∧ same_terms s s' ∧ charge_outcome s n p i r s'.
Proof.
  intros Hs Hn Hp Hq Hi. unfold Meter.charge. unfold_m.
  pose proof (push_stack_spec s p Hs Hp) as H1. destruct (Meter.push_stack p s) as [[[]|e] s1].
  2: { destruct H1 as [-> ->]. split_and!; done. }
  destruct H1 as (next1 & mult1 & Heq1 & Hs1).
  pose proof (increase_instruction_count_spec s1 n Hs1 Hn) as H2.
  destruct (Meter.increase_instruction_count n s1) as [[[]|e] s2].
  2: { destruct H2 as [-> ->]. subst s1. split_and!; done. }
  destruct H2 as (next2 & mult2 & Heq2 & Hs2).
  pose proof (increase_stack_size_spec s2 i Hs2 Hi) as H3.
  destruct (Meter.increase_stack_size i s2) as [[[]|e] s3].
  2: { destruct H3 as [-> ->]. subst s2 s1. split_and!; done. }
  destruct H3 as (next3 & mult3 & Heq3 & Hs3). unfold Meter.get.
  assert (same_terms s s3 ∧ gas_left s3 = gas_left s) as [Hst Hg] by (subst s3 s2 s1; done).
  pose proof (charge_cost_intro s3 n p i Hs3) as Hcost.
  destruct (mul_or_overflow_spec (instructions_current_tier_mult s3) n s3) as [-> | ->]; [|done].
  destruct (mul_or_overflow_spec (stack_size_current_tier_mult s3) i s3) as [-> | ->]; [|done].
  destruct (mul_or_overflow_spec (stack_height_current_tier_mult s3) p s3) as [-> | ->]; [|done].
  set (cost := Cost.total_internal _) in *. clearbody cost. clear Heq1 Heq2 Heq3.
  assert (0 <= cost) as Hc0 by (destruct Hcost as (?&?&?&_&_&_&->); by apply Z.mod_pos_bound).
  pose proof (deduct_gas_spec s3 cost Hs3 Hc0) as H4. destruct Hst as (Hb & Hpr & Hch & Hct & Hv).
  destruct (Meter.deduct_gas cost s3) as [[[]|e] s4].
  - destruct H4 as [Hs4 Heq4]. destruct (pop_stack_spec s4 q Hs4 Hq) as (s5 & -> & Hs5 & Heq5).
    subst s5 s4. split_and!; [done|done|]. exists cost. split; [done|]. simpl. by rewrite Hch, Hg.
  - destruct H4 as (Hs4 & Heq4 & -> & Hchg & Hlt). subst s4. split_and!; [done|done|].
    exists cost. simpl. split_and!; [done|congruence|lia|done].
Qed.

(** C40: the price of an instruction.  [charge] charges the instruction count, the pushed values
    and the size put on the stack at the multiplier of the tier that each high water mark has
    reached (a mark that is exactly the start of a tier may still pay the tier below); the sum
    is taken modulo 2^64.  It takes exactly this cost off the gas, or runs out of gas when less
    is left, in which case nothing is left; an overflow of a counter or of a product leaves the
    gas as it was.  The state stays well-formed, and budget, price and table never change. *)
Theorem charge_correct s n p q i d :
  meter_ok s → 0 <= n → 0 <= p → 0 <= q → 0 <= i →
  let '(r, s') := Meter.charge n p q i d s in
  meter_ok s' ∧ same_terms s s' ∧ charge_outcome s n p i r s'.
Proof. apply charge_steps. Qed.
End operations.

(** ** Whole runs *)

(** A method that keeps the invariant and only ever takes gas. *)
Definition takes_gas (m : SE GasStatus StatusCode unit) : Prop :=
  ∀ s, meter_ok s →
    let '(r, s') := m s in
    meter_ok s' ∧ same_terms s s' ∧ gas_left s' <= gas_left s ∧ (r = Err OUT_OF_GAS → gas_left s' = 0).

Lemma takes_gas_ret : takes_gas (mret tt).
Proof. intros s Hs. split_and!; [done..|lia|done]. Qed.

Lemma takes_gas_seq m1 m2 : takes_gas m1 → takes_gas m2 → takes_gas (m1;; m2).
Proof.
  intros H1 H2 s Hs. specialize (H1 s Hs). unfold_m. destruct (m1 s) as [[u|e] s1]; [|naive_solver].
  destruct H1 as (Hs1 & Hst & Hle & _). specialize (H2 s1 Hs1). destruct (m2 s1) as [r s2].
  destruct H2 as (? & ? & ? & ?). split_and!; [done|by etrans|lia|done].
Qed.

Lemma takes_gas_get f : (∀ s, meter_ok s → takes_gas (f s)) → takes_gas (s ← Meter.get; f s).
Proof. intros Hf s Hs. by apply Hf. Qed.

Lemma takes_gas_charge n p q i d : 0 <= n → 0 <= p → 0 <= q → 0 <= i → takes_gas (Meter.charge n p q i d).
Proof.
  intros ? ? ? ? s Hs. pose proof (charge_steps s n p q i d) as Hc.
  destruct (Meter.charge _ _ _ _ _ s) as [r s']. destruct Hc as (Hs' & Hst & Ho); [done..|].
  destruct Hs as [[? ?] ? ? ? ? ? ? ?]. split_and!; [done|done|..]; destruct r as [[]|[]]; simpl in Ho; try done; try lia.
  - destruct Ho as (c & (?&?&?&_&_&_&->) & ->). destruct (charging s); [|lia].
    pose proof (Z.mod_pos_bound (x * n + x0 * i + x1 * p) U64_MOD ltac:(done)). lia.
  - destruct Ho as (c & _ & _ & _ & ->). lia.
  - by destruct Ho as (c & _ & _ & _ & ->).
Qed.

Lemma takes_gas_deduct amount : 0 <= amount → takes_gas (Meter.deduct_gas amount).
Proof.
  intros Ha s Hs. pose proof (deduct_gas_spec s amount Hs Ha) as H.
  destruct (Meter.deduct_gas amount s) as [[[]|e] s'].
  - destruct H as [Hs' ->]. split_and!; [done|done| |done]. simpl. destruct (charging s); lia.
  - destruct H as (Hs' & -> & _). destruct Hs. split_and!; [done|done|simpl; lia|done].
Qed.

Lemma takes_gas_size n : 0 <= n → takes_gas (Meter.increase_stack_size n).
Proof.
  intros Hn s Hs. pose proof (increase_stack_size_spec s n Hs Hn) as H.
  destruct (Meter.increase_stack_size n s) as [[[]|e] s'].
  - destruct H as (? & ? & -> & Hs'). split_and!; [done|done|simpl; lia|done].
  - destruct H as [-> ->]. split_and!; [done|done|lia|done].
Qed.

Lemma takes_gas_bytes size cost : 0 <= size → takes_gas (Meter.charge_bytes size cost).
Proof.
  intros Hn s Hs. unfold Meter.charge_bytes, Meter.deduct_units. unfold_m. simpl.
  assert (∀ a b, 0 <= wmul a b) as Hw by (intros; by apply Z.mod_pos_bound).
  destruct (charge_input_as_memory _); [|by apply takes_gas_deduct].
  pose proof (takes_gas_size size Hn s Hs) as H1. destruct (Meter.increase_stack_size size s) as [[[]|e] s1]; [|done].
  destruct H1 as (Hs1 & Hst & Hle & _). unfold Meter.get.
  pose proof (takes_gas_deduct _ (Hw (wmul (stack_size_current_tier_mult s1) size) cost) s1 Hs1) as H2.
  destruct (Meter.deduct_gas _ s1) as [r s2]. destruct H2 as (? & ? & ? & ?).
  split_and!; [done|by etrans|lia|done].
Qed.

Create HintDb gas.
#[export] Hint Resolve takes_gas_ret takes_gas_seq takes_gas_charge takes_gas_deduct takes_gas_bytes : gas.
#[export] Hint Extern 1 (takes_gas (Meter.get ≫= _)) => apply takes_gas_get; intros ?? : gas.

Definition view_ok (v : ValueView) : Prop := 0 <= legacy_abstract_memory_size_ v ∧ 0 <= abstract_memory_size_ v.

(** The sizes, counts and amounts of an operation are unsigned numbers. *)
Definition op_ok (o : GasMeter.Op) : Prop :=
  match o with
  | GasMeter.OPop v | GasMeter.OLdConstAfter v | GasMeter.OCopyLoc v | GasMeter.OMoveLoc v
  | GasMeter.OStoreLoc v | GasMeter.OReadRef v => view_ok v
  | GasMeter.OWriteRef v w | GasMeter.OEq v w | GasMeter.ONeq v w => view_ok v ∧ view_ok w
  | GasMeter.ONative a r => 0 <= a ∧ Forall view_ok (default [] r)
  | GasMeter.OBefore l | GasMeter.OCall l | GasMeter.OCallGeneric l | GasMeter.OPack l
  | GasMeter.OUnpack l | GasMeter.OVecPack l | GasMeter.ODropFrame l => Forall view_ok l
  | GasMeter.OLdConst n | GasMeter.OVecUnpack n => 0 <= n
  | GasMeter.OBytes n c => 0 <= n ∧ 0 <= c
  | _ => True
  end.

Lemma view_size_nonneg s v : view_ok v → 0 <= Meter.abstract_memory_size s v.
Proof. intros []. unfold Meter.abstract_memory_size. by case_match. Qed.

Lemma sat_add_nonneg a b : 0 <= a → 0 <= b → 0 <= sat_add a b.
Proof. unfold sat_add. pose proof (eq_refl : U64_MAX = 18446744073709551615). lia. Qed.

Lemma total_size_nonneg s start l : 0 <= start → Forall view_ok l → 0 <= GasMeter.total_size s start l.
Proof.
  intros Hs Hl. unfold GasMeter.total_size. revert start Hs.
  induction Hl as [|v l Hv Hl IH]; intros start Hs; [done|].
  apply IH, sat_add_nonneg; [done|by apply view_size_nonneg].
Qed.

Lemma len_nonneg {A} (l : list A) : 0 <= GasMeter.len l.
Proof. unfold GasMeter.len. lia. Qed.

#[export] Hint Resolve view_size_nonneg sat_add_nonneg total_size_nonneg len_nonneg Z.le_0_1 Z.le_0_2 Z.le_refl : gas.

#[export] Hint Extern 5 (0 <= _) => first [by vm_compute | lia] : gas.

Lemma run_op_takes_gas o : op_ok o → takes_gas (GasMeter.run_op o).
Proof.
  destruct o as [i| |a r| | | | | | | | | | | | | | | | | | | | | | |]; simpl; intros Ho;
    repeat match goal with H : _ ∧ _ |- _ => destruct H end.
  1: by destruct i; apply takes_gas_charge.
  2: { apply takes_gas_get. intros s Hs. apply takes_gas_seq; destruct r; eauto with gas. }
  all: try by eauto with gas.
  all: try (apply takes_gas_get; intros s Hs; by eauto 8 with gas).
Qed.

Lemma run_ops_takes_gas l : Forall op_ok l → takes_gas (GasMeter.run_ops l).
Proof. induction 1; simpl; eauto using run_op_takes_gas with gas. Qed.

(** [new] and its failure. *)
Lemma new_meter_spec table budget price v :
  0 <= budget →
  match Meter.new table budget price v with
  | Ret s => 0 < price ∧ meter_ok s ∧ gas_price s = price ∧ charging s = true ∧ cost_table s = table ∧
      gas_model_version s = v ∧ gas_left s = initial_budget s ∧
      initial_budget s = budget / price * 1000 mod U64_MOD
  | _ => price <= 0
  end.
Proof.
  intros Hb. unfold Meter.new. unfold_m. destruct (Z.ltb_spec 0 price); [|done].
  destruct (stack_height_tier table 0) as [hm hn] eqn:Hh.
  destruct (stack_size_tier table 0) as [sm sn] eqn:Hs.
  destruct (instruction_tier table 0) as [im i_n] eqn:Hi.
  pose proof (tier_state_start (stack_height_tiers table) STACK_HEIGHT_TIER_DEFAULT) as T1.
  pose proof (tier_state_start (stack_size_tiers table) STACK_SIZE_TIER_DEFAULT) as T2.
  pose proof (tier_state_start (instruction_tiers table) INSTRUCTION_TIER_DEFAULT) as T3.
  unfold stack_height_tier in Hh. unfold stack_size_tier in Hs. unfold instruction_tier in Hi.
  rewrite Hh in T1. rewrite Hs in T2. rewrite Hi in T3.
  pose proof (Z.mod_pos_bound (budget / price * 1000) U64_MOD ltac:(done)) as Hm.
  split_and!; [done| |done..]. split; simpl; try done; unfold Meter.to_internal_units, wmul, Meter.INTERNAL_UNIT_MULTIPLIER; lia.
Qed.

Lemma to_unit_spec g : 0 <= g < U64_MOD → to_unit_round_down g = g / 1000.
Proof.
  intros Hg. unfold to_unit_round_down, apply_ratio_round_down. rewrite Z.mul_1_r.
  assert (0 <= g / 1000 <= g) by (split; [apply Z.div_pos; lia|apply Z.div_le_upper_bound; lia]).
  pose proof (eq_refl : U64_MAX = U64_MOD - 1). destruct (Z.ltb_spec U64_MAX (g / 1000)); lia.
Qed.

Lemma gas_used_spec s : meter_ok s → Meter.gas_used_pre_gas_price s = (initial_budget s - gas_left s) / 1000.
Proof.
  intros []. unfold Meter.gas_used_pre_gas_price, checked_sub. rewrite decide_True by lia.
  apply to_unit_spec. lia.
Qed.

(** the meter never charges more than the budget.  However the VM uses the meter, the gas
    used so far, at the price of the transaction, is at most the budget; it never goes down;
    and when the VM stops because it ran out of gas, every whole unit of the budget has been
    used (for every budget whose internal units fit in 64 bits). *)
Theorem run_within_budget table budget price v s l1 l2 :
  0 <= budget → Meter.new table budget price v = Ret s → Forall op_ok l1 → Forall op_ok l2 →
  let s1 := (GasMeter.run_ops l1 s).2 in
  let '(r, s2) := GasMeter.run_ops l2 s1 in
  Meter.gas_used_pre_gas_price s1 <= Meter.gas_used_pre_gas_price s2 ∧
  Meter.gas_used_pre_gas_price s2 * price <= budget ∧
  (r = Err OUT_OF_GAS → budget / price * 1000 < U64_MOD →
     Meter.gas_used_pre_gas_price s2 = budget / price).
Proof.
  intros Hb Hnew Hl1 Hl2. pose proof (new_meter_spec table budget price v Hb) as H0. rewrite Hnew in H0.
  destruct H0 as (Hp & Hs & _ & _ & _ & _ & _ & Hi).
  pose proof (run_ops_takes_gas l1 Hl1 s Hs) as H1. destruct (GasMeter.run_ops l1 s) as [r1 s1]. simpl.
  destruct H1 as (Hs1 & (Hi1 & _) & _).
  pose proof (run_ops_takes_gas l2 Hl2 s1 Hs1) as H2. destruct (GasMeter.run_ops l2 s1) as [r s2].
  destruct H2 as (Hs2 & (Hi2 & _) & Hle & Hoog). rewrite !gas_used_spec by done.
  rewrite Hi2, Hi1, Hi. rewrite Hi1, Hi in Hi2.
  pose proof (Z.div_pos budget price Hb Hp) as Hq. split_and!.
  - apply Z.div_le_mono; lia.
  - etrans; [|apply (Z.mul_div_le budget price Hp)]. rewrite Z.mul_comm. apply Z.mul_le_mono_nonneg_l; [lia|].
    apply Z.div_le_upper_bound; [lia|]. destruct Hs2.
    pose proof (Z.mod_le (budget / price * 1000) U64_MOD ltac:(lia) ltac:(done)). lia.
  - intros Hr Hfit. rewrite (Hoog Hr), Z.mod_small by lia. rewrite Z.sub_0_r. by apply Z.div_mul.
Qed.

(** ** A concrete meter *)

(** Ten units of gas at a price of ten. *)
Definition small_meter : GasStatus :=
  match Meter.new initial_cost_schedule_v5 109 10 8 with Ret s => s | _ => Meter.new_unmetered end.

Lemma small_meter_new : Meter.new initial_cost_schedule_v5 109 10 8 = Ret small_meter.
Proof. vm_compute. reflexivity. Qed.

Lemma small_meter_ok : meter_ok small_meter.
Proof. pose proof (new_meter_spec initial_cost_schedule_v5 109 10 8 ltac:(lia)) as H. rewrite small_meter_new in H. tauto. Qed.

Lemma charge_correct_witness :
  let s' := (Meter.charge 1 1 0 8 0 small_meter).2 in
  (Meter.charge 1 1 0 8 0 small_meter).1 = Ok tt ∧ gas_left s' = 9990 ∧
  charge_outcome small_meter 1 1 8 (Ok tt) s'.
Proof.
  split; [vm_compute; reflexivity|]. split; [vm_compute; reflexivity|].
  pose proof (charge_correct small_meter 1 1 0 8 0 small_meter_ok ltac:(lia) ltac:(lia) ltac:(lia) ltac:(lia)) as H.
  assert ((Meter.charge 1 1 0 8 0 small_meter).1 = Ok tt) as Hr by (vm_compute; reflexivity). revert H Hr.
  destruct (Meter.charge 1 1 0 8 0 small_meter) as [r s']. cbn [fst snd]. intros (_ & _ & H) ->. exact H.
Defined.

Lemma run_within_budget_witness :
  let s1 := (GasMeter.run_ops [GasMeter.OSimple LdU64; GasMeter.OSimple LdU64; GasMeter.OSimple Add] small_meter).2 in
  let '(r, s2) := GasMeter.run_ops [GasMeter.ONative 20000 None] s1 in
  gas_left s1 = 9991 ∧ r = Err OUT_OF_GAS ∧
  Meter.gas_used_pre_gas_price s2 * 10 <= 109 ∧ Meter.gas_used_pre_gas_price s2 = 10.
Proof.
  set (l1 := [GasMeter.OSimple LdU64; GasMeter.OSimple LdU64; GasMeter.OSimple Add]).
  set (l2 := [GasMeter.ONative 20000 None]).
  assert (Forall op_ok l1) as Hl1 by (do 3 (apply Forall_cons; split; [exact I|]); constructor).
  assert (Forall op_ok l2) as Hl2 by (apply Forall_cons; split; [split; [lia|constructor]|constructor]).
  pose proof (run_within_budget initial_cost_schedule_v5 109 10 8 small_meter l1 l2 ltac:(lia) small_meter_new Hl1 Hl2) as H.
  assert (gas_left (GasMeter.run_ops l1 small_meter).2 = 9991) as H1 by (vm_compute; reflexivity).
  assert ((GasMeter.run_ops l2 (GasMeter.run_ops l1 small_meter).2).1 = Err OUT_OF_GAS) as H2 by (vm_compute; reflexivity).
  revert H H1 H2. cbv zeta. destruct (GasMeter.run_ops l2 _) as [r s2]. cbn [fst snd]. intros (_ & Hb & Ho) H1 Hr.
  split_and!; [done..|]. by apply Ho.
Defined.
