(* ===== verification/Objects.v ===== *)
(** Objects ([crates/sui-types/src/object.rs], [move_package.rs], [base_types.rs]), the
    inputs of a transaction ([transaction.rs], [InputObjects]) and the results that the
    execution of a transaction leaves ([execution.rs], [ExecutionResultsV2]).

    An [ObjectID] and an address are 32 bytes; they are numbers here, read big-endian, so
    that the order of the maps is the order of the numbers.  Contents are lists of bytes. *)
From S2P Require Import Prelude.

Abbreviation ObjectID := Z (only parsing).
Abbreviation SuiAddress := Z (only parsing).
Abbreviation SequenceNumber := Z (only parsing).
Abbreviation TransactionDigest := Z (only parsing).
Abbreviation ObjectDigest := Z (only parsing).
Abbreviation VersionDigest := (Z * Z)%type (only parsing).
Abbreviation ObjectRef := (Z * Z * Z)%type (only parsing).

(** ** Types of Move objects *)

Inductive TypeTag :=
  | TBool | TU8 | TU64 | TU128 | TAddress | TSigner
  | TVector (t : TypeTag) | TStruct (s : StructTag)
  | TU16 | TU32 | TU256
with StructTag := mkStructTag (address : SuiAddress) (module name : string) (type_params : list TypeTag).

Definition SUI_FRAMEWORK_ADDRESS : Z := 2.

Module GAS.
Definition type_ : StructTag := mkStructTag SUI_FRAMEWORK_ADDRESS "sui" "SUI" [].
Definition type_tag : TypeTag := TStruct type_.
Definition is_gas (other : StructTag) : bool :=
  match other with
  | mkStructTag a m n [] => (a =? SUI_FRAMEWORK_ADDRESS) && String.eqb m "sui" && String.eqb n "SUI"
  | _ => false
  end.
Definition is_gas_type (other : TypeTag) : bool :=
  match other with TStruct s => is_gas s | _ => false end.
End GAS.

Inductive MoveObjectType :=
  | Other (s : StructTag)
  | GasCoin
  | StakedSui
  | Coin (t : TypeTag).

Definition is_gas_coin (t : MoveObjectType) : bool := match t with GasCoin => true | _ => false end.
Definition is_coin (t : MoveObjectType) : bool := match t with GasCoin | Coin _ => true | _ => false end.
Definition coin_type_maybe (t : MoveObjectType) : option TypeTag :=
  match t with GasCoin => Some GAS.type_tag | Coin inner => Some inner | StakedSui | Other _ => None end.

(** ** Sequence numbers *)

Module Seq.
Definition increment (v : SequenceNumber) : outcome SequenceNumber :=
  assert_ (negb (v =? U64_MAX));; Ret (v + 1).
(** Only a debug build checks the order of the two. *)
Definition increment_to (_ next : SequenceNumber) : SequenceNumber := next.
Definition lamport_increment (inputs : list SequenceNumber) : outcome SequenceNumber :=
  let max_input := foldl Z.max 0 inputs in
  assert_ (negb (max_input =? U64_MAX));; Ret (max_input + 1).
End Seq.

(** ** Owners *)

Inductive Owner :=
  | AddressOwner (a : SuiAddress)
  | ObjectOwner (a : SuiAddress)
  | Shared (initial_shared_version : SequenceNumber)
  | Immutable.

Module Own.
Definition get_address_owner_address (o : Owner) : option SuiAddress :=
  match o with AddressOwner a => Some a | _ => None end.
Definition get_owner_address (o : Owner) : option SuiAddress :=
  match o with AddressOwner a | ObjectOwner a => Some a | Shared _ | Immutable => None end.
Definition is_immutable (o : Owner) : bool := match o with Immutable => true | _ => false end.
Definition is_address_owned (o : Owner) : bool := match o with AddressOwner _ => true | _ => false end.
Definition is_child_object (o : Owner) : bool := match o with ObjectOwner _ => true | _ => false end.
Definition is_shared (o : Owner) : bool := match o with Shared _ => true | _ => false end.
End Own.

(** ** Move objects and packages *)

Record MoveObject := mkMoveObject {
  type_ : MoveObjectType;
  has_public_transfer : bool;
  mversion : SequenceNumber;
  contents : list Z;
}.

Record TypeOrigin := mkTypeOrigin { module_name : string; struct_name : string; package : ObjectID }.
Record UpgradeInfo := mkUpgradeInfo { upgraded_id : ObjectID; upgraded_version : SequenceNumber }.

Record MovePackage := mkMovePackage {
  pid : ObjectID;
  pversion : SequenceNumber;
  module_map : gmap string (list Z);
  type_origin_table : list TypeOrigin;
  linkage_table : gmap Z UpgradeInfo;
}.

Inductive Data := Move (m : MoveObject) | Package (p : MovePackage).

Record Object := mkObject {
  data : Data;
  owner : Owner;
  previous_transaction : TransactionDigest;
  storage_rebate : Z;
}.

Definition with_data (o : Object) (d : Data) : Object :=
  mkObject d (owner o) (previous_transaction o) (storage_rebate o).
Definition with_rebate (o : Object) (r : Z) : Object :=
  mkObject (data o) (owner o) (previous_transaction o) r.

(** What is not in the sources: the BCS encoding (through the size of a type), the hash, the
    layout of a Rust enum in memory, Move events, and the walk over the fields of an object
    that is not a coin, which needs the layouts of its types. *)
Class ObjectEnv := {
  Event : Type;
  type_size : MoveObjectType → Z;
  owner_size : Z;
  digest : Object → ObjectDigest;
  layout_sui : MoveObject → option Z;
}.

Class ObjectEnvLaws `{!ObjectEnv} : Prop := {
  type_size_nonneg t : 0 <= type_size t;
  owner_size_nonneg : 0 <= owner_size;
  layout_sui_nonneg m n : layout_sui m = Some n → 0 <= n;
}.

Definition ID_END_INDEX : nat := 32.
Definition ID_LENGTH : Z := 32.

(** [u64::to_le_bytes], [u64::from_le_bytes] and the number of big-endian bytes. *)
Fixpoint to_le_bytes (n : nat) (v : Z) : list Z :=
  match n with O => [] | S n => v mod 256 :: to_le_bytes n (v / 256) end.
Fixpoint from_le_bytes (l : list Z) : Z :=
  match l with [] => 0 | b :: l => b + 256 * from_le_bytes l end.
Definition from_be_bytes (l : list Z) : Z := foldl (λ a b, 256 * a + b) 0 l.

Module MoveObj.
Definition id_opt (c : list Z) : option ObjectID :=
  if (length c <? ID_END_INDEX)%nat then None else Some (from_be_bytes (take ID_END_INDEX c)).
Definition id (m : MoveObject) : outcome ObjectID := unwrap (id_opt (contents m)).

(** The slice from 32 on must have exactly 8 bytes. *)
Definition get_coin_value_unsafe (m : MoveObject) : outcome Z :=
  assert_ (ID_END_INDEX <=? length (contents m))%nat;;
  let rest := drop ID_END_INDEX (contents m) in
  assert_ (length rest =? 8)%nat;;
  Ret (from_le_bytes rest).

Definition set_coin_value_unsafe (m : MoveObject) (value : Z) : outcome MoveObject :=
  assert_ (ID_END_INDEX <=? length (contents m))%nat;;
  Ret (mkMoveObject (type_ m) (has_public_transfer m) (mversion m)
         (take ID_END_INDEX (contents m) ++ to_le_bytes 8 value)).

Definition update_contents_with_limit (m : MoveObject) (new_contents : list Z) (max_move_object_size : Z) :
    result (Z * Z) MoveObject :=
  let len := Z.of_nat (length new_contents) in
  if max_move_object_size <? len then Err (len, max_move_object_size)
  else Ok (mkMoveObject (type_ m) (has_public_transfer m) (mversion m) new_contents).

Definition increment_version_to (m : MoveObject) (next : SequenceNumber) : MoveObject :=
  mkMoveObject (type_ m) (has_public_transfer m) (Seq.increment_to (mversion m) next) (contents m).
End MoveObj.

Module Pkg.
(** Sums of the lengths of data that is in memory: they fit in a [usize]. *)
Definition size (p : MovePackage) : Z :=
  let module_map_size :=
    wsum (λ e, Z.of_nat (String.length e.1 + length e.2)) (map_to_list (module_map p)) in
  let type_origin_table_size :=
    wsum (λ t, Z.of_nat (String.length (module_name t) + String.length (struct_name t)) + ID_LENGTH)
      (type_origin_table p) in
  let linkage_table_size := Z.of_nat (base.size (linkage_table p)) * (ID_LENGTH + (ID_LENGTH + 8)) in
  8 + module_map_size + type_origin_table_size + linkage_table_size.
Definition object_size_for_gas_metering (p : MovePackage) : Z := size p.
Definition increment_version (p : MovePackage) : outcome MovePackage :=
  v ← Seq.increment (pversion p);
  Ret (mkMovePackage (pid p) v (module_map p) (type_origin_table p) (linkage_table p)).
End Pkg.

Definition try_as_move (d : Data) : option MoveObject :=
  match d with Move m => Some m | Package _ => None end.
Definition try_as_package (d : Data) : option MovePackage :=
  match d with Move _ => None | Package p => Some p end.

(** 0x1, 0x2, 0x3 and 0xdee9. *)
Definition is_system_package (addr : SuiAddress) : bool :=
  (addr =? 1) || (addr =? SUI_FRAMEWORK_ADDRESS) || (addr =? 3) || (addr =? 57065).

Section objects.
Context `{!ObjectEnv}.

(** [MoveObject::object_size_for_gas_metering]. *)
Definition move_object_size (m : MoveObject) : Z :=
  Z.of_nat (length (contents m)) + type_size (type_ m) + 1 + 8.

Definition move_total_sui (m : MoveObject) : outcome (option Z) :=
  match coin_type_maybe (type_ m) with
  | Some type_tag =>
      balance ← MoveObj.get_coin_value_unsafe m;
      Ret (Some (if GAS.is_gas_type type_tag then balance else 0))
  | None => Ret (layout_sui m)
  end.
End objects.

Module Obj.
Section obj.
Context `{!ObjectEnv}.

Definition is_immutable (o : Object) : bool := Own.is_immutable (owner o).
Definition is_address_owned (o : Object) : bool := Own.is_address_owned (owner o).
Definition is_child_object (o : Object) : bool := Own.is_child_object (owner o).
Definition is_shared (o : Object) : bool := Own.is_shared (owner o).
Definition get_single_owner (o : Object) : option SuiAddress := Own.get_owner_address (owner o).
Definition is_package (o : Object) : bool := match data o with Package _ => true | Move _ => false end.

Definition id (o : Object) : outcome ObjectID :=
  match data o with Move v => MoveObj.id v | Package m => Ret (pid m) end.
Definition version (o : Object) : SequenceNumber :=
  match data o with Move v => mversion v | Package p => pversion p end.
Definition is_gas_coin (o : Object) : bool :=
  match try_as_move (data o) with Some m => Objects.is_gas_coin (type_ m) | None => false end.
Definition get_coin_value_unsafe (o : Object) : outcome Z :=
  m ← unwrap (try_as_move (data o)); MoveObj.get_coin_value_unsafe m.
Definition compute_object_reference (o : Object) : outcome ObjectRef :=
  i ← id o; Ret (i, version o, digest o).
Definition transfer (o : Object) (new_owner : SuiAddress) : Object :=
  mkObject (data o) (AddressOwner new_owner) (previous_transaction o) (storage_rebate o).

(** [size_of] of the owner, of a digest and of a [u64]. *)
Definition object_size_for_gas_metering (o : Object) : Z :=
  let meta_data_size := owner_size + 32 + 8 in
  let data_size :=
    match data o with Move m => move_object_size m | Package p => Pkg.object_size_for_gas_metering p end in
  meta_data_size + data_size.

Definition get_total_sui (o : Object) : outcome (option Z) :=
  match data o with
  | Move m =>
      r ← move_total_sui m;
      Ret (match r with Some n => Some (wadd (storage_rebate o) n) | None => None end)
  | Package _ => Ret (Some (wadd (storage_rebate o) 0))
  end.
End obj.
End Obj.

(** ** The inputs of a transaction *)

Inductive InputObjectKind :=
  | InputMovePackage (id : ObjectID)
  | ImmOrOwnedMoveObject (r : ObjectRef)
  | SharedMoveObject (id : ObjectID) (initial_shared_version : SequenceNumber) (mutable : bool).

Inductive ObjectReadResultKind :=
  | ReadObject (o : Object)
  | DeletedSharedObject (v : SequenceNumber) (tx : TransactionDigest).

Record ObjectReadResult := mkObjectReadResult {
  input_object_kind : InputObjectKind;
  object : ObjectReadResultKind;
}.

Definition InputObjects : Type := list ObjectReadResult.

Module Inputs.
Section inputs.
Context `{!ObjectEnv}.

Definition object_id (k : InputObjectKind) : ObjectID :=
  match k with
  | InputMovePackage id | SharedMoveObject id _ _ => id
  | ImmOrOwnedMoveObject (id, _, _) => id
  end.
Definition id (r : ObjectReadResult) : ObjectID := object_id (input_object_kind r).
Definition as_object (r : ObjectReadResult) : option Object :=
  match object r with ReadObject o => Some o | DeletedSharedObject _ _ => None end.

Definition mutable_input (r : ObjectReadResult) : outcome (option (ObjectID * (VersionDigest * Owner))) :=
  match input_object_kind r, object r with
  | InputMovePackage _, _ => Ret None
  | ImmOrOwnedMoveObject (i, v, d), ReadObject o =>
      Ret (if Obj.is_immutable o then None else Some (i, ((v, d), owner o)))
  | ImmOrOwnedMoveObject _, DeletedSharedObject _ _ => Panic
  | SharedMoveObject _ _ _, DeletedSharedObject _ _ => Ret None
  | SharedMoveObject _ _ mutable, ReadObject o =>
      if mutable then
        oref ← Obj.compute_object_reference o;
        let '(i, v, d) := oref in Ret (Some (i, ((v, d), owner o)))
      else Ret None
  end.

(** [filter_map(..).collect()] with a closure that can panic. *)
Fixpoint filter_map_o {A B} (f : A → outcome (option B)) (l : list A) : outcome (list B) :=
  match l with
  | [] => Ret []
  | a :: l =>
      b ← f a; k ← filter_map_o f l;
      Ret (match b with Some b => b :: k | None => k end)
  end.

Definition mutable_inputs (l : InputObjects) : outcome (gmap Z (VersionDigest * Owner)) :=
  collect <$> filter_map_o mutable_input l.

Definition lamport_timestamp (l : InputObjects) (receiving_objects : list ObjectRef) : outcome SequenceNumber :=
  let input_versions :=
    omap (λ r, match object r with
               | ReadObject o => mversion <$> try_as_move (data o)
               | DeletedSharedObject v _ => Some v
               end) l ++ ((λ r, r.1.2) <$> receiving_objects) in
  Seq.lamport_increment input_versions.

Definition into_object_map (l : InputObjects) : gmap Z Object :=
  collect (omap (λ r, (λ o, (id r, o)) <$> as_object r) l).
End inputs.
End Inputs.

(** ** Keys of inputs *)

(** [storage/mod.rs]. *)
Inductive InputKey :=
  | VersionedObject (id : ObjectID) (version : SequenceNumber)
  | PackageKey (id : ObjectID).

Module Key.
Definition id (k : InputKey) : ObjectID := match k with VersionedObject id _ | PackageKey id => id end.
Definition version (k : InputKey) : option SequenceNumber :=
  match k with VersionedObject _ version => Some version | PackageKey _ => None end.
End Key.

#[global] Instance input_key_eq_dec : EqDecision InputKey.
Proof. solve_decision. Defined.
#[global] Program Instance input_key_countable : Countable InputKey :=
  inj_countable' (λ k, (Key.id k, Key.version k))
    (λ p, match p.2 with Some v => VersionedObject p.1 v | None => PackageKey p.1 end) _.
Next Obligation. by intros []. Qed.

(** ** The results of an execution *)

Record ExecutionResultsV2 `{!ObjectEnv} := mkResults {
  written_objects : gmap Z Object;
  modified_objects : gset Z;
  created_object_ids : gset Z;
  deleted_object_ids : gset Z;
  user_events : list Event;
}.

Module Results.
Section results.
Context `{!ObjectEnv}.

Definition default_ : ExecutionResultsV2 := mkResults _ ∅ ∅ ∅ ∅ [].

Definition drop_writes (r : ExecutionResultsV2) : ExecutionResultsV2 := mkResults _ ∅ ∅ ∅ ∅ [].

(** [BTreeMap::extend] replaces the values of the keys that are already there. *)
Definition merge_results (r new_results : ExecutionResultsV2) : ExecutionResultsV2 :=
  mkResults _
    (written_objects new_results ∪ written_objects r)
    (modified_objects r ∪ modified_objects new_results)
    (created_object_ids r ∪ created_object_ids new_results)
    (deleted_object_ids r ∪ deleted_object_ids new_results)
    (user_events r ++ user_events new_results).

(** One iteration of the loop of [update_version_and_previous_tx]. *)
Definition update_one (r : ExecutionResultsV2) (lamport_version : SequenceNumber)
    (prev_tx : TransactionDigest) (id : ObjectID) (obj : Object) : outcome Object :=
  d ← match data obj with
      | Move m => Ret (Move (MoveObj.increment_version_to m lamport_version))
      | Package p =>
          if bool_decide (id ∈ modified_objects r) then Package <$> Pkg.increment_version p
          else Ret (Package p)
      end;
  o ← match owner obj with
      | Shared initial =>
          if bool_decide (id ∈ created_object_ids r) then
            assert_ (initial =? 0);; Ret (Shared lamport_version)
          else Ret (Shared initial)
      | o => Ret o
      end;
  Ret (mkObject d o prev_tx (storage_rebate obj)).

Fixpoint update_all (f : ObjectID → Object → outcome Object) (l : list (Z * Object)) :
    outcome (list (Z * Object)) :=
  match l with
  | [] => Ret []
  | (id, obj) :: l => obj' ← f id obj; k ← update_all f l; Ret ((id, obj') :: k)
  end.

Definition update_version_and_previous_tx (r : ExecutionResultsV2) (lamport_version : SequenceNumber)
    (prev_tx : TransactionDigest) : outcome ExecutionResultsV2 :=
  l ← update_all (update_one r lamport_version prev_tx) (btree_iter (written_objects r));
  Ret (mkResults _ (collect l) (modified_objects r) (created_object_ids r) (deleted_object_ids r)
         (user_events r)).
End results.
End Results.

(** ** Coins as bytes *)

Definition is_bytes (l : list Z) : Prop := Forall (λ b, 0 <= b < 256) l.

Lemma length_to_le_bytes n v : length (to_le_bytes n v) = n.
Proof. revert v. induction n; intros v; cbn [to_le_bytes length]; auto. Qed.

Lemma to_le_bytes_bytes n v : is_bytes (to_le_bytes n v).
Proof.
  revert v. induction n as [|n IH]; intros v; cbn [to_le_bytes]; [constructor|].
  constructor; [by apply Z.mod_pos_bound|apply IH].
Qed.

Lemma from_to_le_bytes n v : from_le_bytes (to_le_bytes n v) = v mod 256 ^ Z.of_nat n.
Proof.
  revert v. induction n as [|n IH]; intros v; cbn [to_le_bytes from_le_bytes]; [by rewrite Z.mod_1_r|].
  rewrite IH, Nat2Z.inj_succ, Z.pow_succ_r, Z.rem_mul_r by lia. done.
Qed.

Lemma from_le_bytes_bound l : is_bytes l → 0 <= from_le_bytes l < 256 ^ Z.of_nat (length l).
Proof.
  induction 1 as [|b l Hb Hl IH]; [done|].
  cbn [length from_le_bytes]. rewrite Nat2Z.inj_succ, Z.pow_succ_r by lia. lia.
Qed.

Arguments to_le_bytes : simpl never.

(** A Move object that holds a coin: an identifier and a balance. *)
Definition coin_contents (m : MoveObject) : Prop := is_bytes (contents m) ∧ length (contents m) = 40%nat.

Lemma get_coin_value_ok m :
  coin_contents m → ∃ v, MoveObj.get_coin_value_unsafe m = Ret v ∧ is_u64 v.
Proof.
  intros [Hb Hl]. unfold MoveObj.get_coin_value_unsafe. rewrite length_drop, Hl. simpl.
  eexists. split; [done|]. unfold is_u64.
  pose proof (from_le_bytes_bound (drop ID_END_INDEX (contents m))) as H.
  rewrite length_drop, Hl in H. apply H. by apply Forall_drop.
Qed.

(** Setting the balance gives a coin with the same identifier, type, version and size that
    holds exactly that balance. *)
Lemma set_coin_value_ok m v :
  coin_contents m → is_u64 v →
  ∃ m', MoveObj.set_coin_value_unsafe m v = Ret m' ∧ coin_contents m' ∧
    MoveObj.get_coin_value_unsafe m' = Ret v ∧ MoveObj.id m' = MoveObj.id m ∧
    type_ m' = type_ m ∧ mversion m' = mversion m.
Proof.
  intros [Hb Hl] Hv. unfold MoveObj.set_coin_value_unsafe. rewrite Hl.
  eexists. split; [reflexivity|].
  assert (length (take ID_END_INDEX (contents m)) = ID_END_INDEX) as Ht by (rewrite length_take, Hl; done).
  assert (length (take ID_END_INDEX (contents m) ++ to_le_bytes 8 v) = 40%nat) as Hlen
    by (rewrite length_app, Ht, length_to_le_bytes; done).
  split_and!; cbn [contents type_ mversion]; try done.
  - split; [|done]. apply Forall_app. split; [by apply Forall_take|apply to_le_bytes_bytes].
  - unfold MoveObj.get_coin_value_unsafe. cbn [contents]. rewrite Hlen.
    rewrite drop_app_length' by done. rewrite length_to_le_bytes. simpl assert_.
    cbn [mbind outcome_bind]. rewrite from_to_le_bytes. f_equal. apply Z.mod_small, Hv.
  - unfold MoveObj.id, MoveObj.id_opt. cbn [contents]. rewrite Hlen, Hl. simpl Nat.ltb. do 2 f_equal.
    by rewrite take_app_length' by done.
Qed.
