(* ===== verification/SuiGas.v ===== *)
(** The gas of a transaction: [SuiGasStatus] ([crates/sui-types/src/gas_model/gas_v2.rs]),
    [GasCostSummary] and the gas coin operations ([crates/sui-types/src/gas.rs]).

    Both modules are under [with_checked_arithmetic]: an overflow of [+], [-] or [*] panics.
    [ProtocolConfig] is a record of the constants that the gas model reads. *)
From S2P Require Import Prelude GasTables Objects.

Record ProtocolConfig := mkProtocolConfig {
  base_tx_cost_fixed : Z;
  max_tx_gas : Z;
  package_publish_cost_per_byte : Z;
  obj_access_cost_read_per_byte : Z;
  obj_data_cost_refundable : Z;
  config_gas_model_version : Z;
  max_gas_computation_bucket : Z;
  max_gas_price : Z;
  storage_gas_price : Z;
  storage_rebate_rate : Z;
  gas_rounding_step_as_option : option Z;
  txn_base_cost_as_multiplier_flag : bool;
}.

Definition txn_base_cost_as_multiplier (c : ProtocolConfig) : bool := txn_base_cost_as_multiplier_flag c.

(** The errors of this component; [OtherExecutionError] stands for every kind of execution
    error that comes from elsewhere. *)
Inductive ExecutionError := InsufficientGas | InvariantViolation | OtherExecutionError (kind : Z).

Inductive UserInputError :=
  | GasPriceUnderRGP (gas_price reference_gas_price : Z)
  | GasPriceTooHigh (max_gas_price : Z)
  | GasObjectNotOwnedObject (owner : Owner)
  | MissingGasPayment
  | GasBudgetTooHigh (gas_budget max_budget : Z)
  | GasBudgetTooLow (gas_budget min_budget : Z)
  | GasBalanceTooLow (gas_balance needed_gas_amount : Z)
  | InvalidGasObject (object_id : Z).

(** ** Computation buckets *)

Record ComputationBucket := mkBucket { bmin : Z; bmax : Z; bcost : Z }.

Module Bucket.
Definition new (min max cost : Z) : ComputationBucket := mkBucket min max cost.
Definition simple (min max : Z) : ComputationBucket := new min max max.
End Bucket.

Fixpoint find_bucket (table : list ComputationBucket) (computation_cost : Z) : option ComputationBucket :=
  match table with
  | [] => None
  | b :: table => if computation_cost <=? bmax b then Some b else find_bucket table computation_cost
  end.

Definition get_bucket_cost (table : list ComputationBucket) (computation_cost : Z) : Z :=
  match find_bucket table computation_cost with
  | Some b => bcost b
  | None => match last table with None => 5000000 | Some b => bcost b end
  end.

Definition computation_bucket (max_bucket_cost : Z) : outcome (list ComputationBucket) :=
  assert_ (5000000 <=? max_bucket_cost);;
  Ret [Bucket.simple 0 1000; Bucket.simple 1000 5000; Bucket.simple 5000 10000;
       Bucket.simple 10000 20000; Bucket.simple 20000 50000; Bucket.simple 50000 200000;
       Bucket.simple 200000 1000000; Bucket.simple 1000000 max_bucket_cost].

(** The product and the sum are taken in [u128] and cannot overflow there. *)
Definition BASIS_POINTS : Z := 10000.
Definition sender_rebate (storage_rebate storage_rebate_rate : Z) : Z :=
  ((storage_rebate * storage_rebate_rate + BASIS_POINTS / 2) / BASIS_POINTS) mod U64_MOD.

(** ** Cost table *)

Record SuiCostTable := mkSuiCostTable {
  min_transaction_cost : Z;
  max_gas_budget : Z;
  package_publish_per_byte_cost : Z;
  object_read_per_byte_cost : Z;
  storage_per_byte_cost : Z;
  execution_cost_table : CostTable;
  buckets : list ComputationBucket;
}.

Module SuiCost.
Definition new (c : ProtocolConfig) (gas_price : Z) : outcome SuiCostTable :=
  min_transaction_cost ← (if txn_base_cost_as_multiplier c then cmul (base_tx_cost_fixed c) gas_price
                          else Ret (base_tx_cost_fixed c));
  b ← computation_bucket (max_gas_computation_bucket c);
  Ret (mkSuiCostTable min_transaction_cost (max_tx_gas c) (package_publish_cost_per_byte c)
         (obj_access_cost_read_per_byte c) (obj_data_cost_refundable c)
         (cost_table_for_version (config_gas_model_version c)) b).

Definition unmetered : outcome SuiCostTable :=
  b ← computation_bucket 5000000;
  Ret (mkSuiCostTable 0 U64_MAX 0 0 0 zero_cost_schedule b).
End SuiCost.

(** ** Summary of the charges *)

Module Summary.
Record GasCostSummary := mkSummary {
  computation_cost : Z;
  storage_cost : Z;
  storage_rebate : Z;
  non_refundable_storage_fee : Z;
}.

Definition default_ : GasCostSummary := mkSummary 0 0 0 0.
Definition gas_used (s : GasCostSummary) : outcome Z := cadd (computation_cost s) (storage_cost s).
Definition sender_rebate (s : GasCostSummary) (storage_rebate_rate : Z) : Z :=
  ((storage_rebate s * storage_rebate_rate + BASIS_POINTS / 2) / BASIS_POINTS) mod U64_MOD.

(** [as i64] of a [u64], and subtraction in [i64]. *)
Definition as_i64 (z : Z) : Z := if z <? 2 ^ 63 then z else z - U64_MOD.
Definition csub_i64 (a b : Z) : outcome Z :=
  let d := a - b in if (- 2 ^ 63 <=? d) && (d <? 2 ^ 63) then Ret d else Panic.

Definition net_gas_usage (s : GasCostSummary) : outcome Z :=
  u ← gas_used s; csub_i64 (as_i64 u) (as_i64 (storage_rebate s)).

(** [Iterator::sum] is not part of the checked module. *)
Definition new_from_txn_effects (l : list GasCostSummary) : GasCostSummary :=
  mkSummary (sum_u64 (computation_cost <$> l)) (sum_u64 (storage_cost <$> l))
    (sum_u64 (storage_rebate <$> l)) (sum_u64 (non_refundable_storage_fee <$> l)).

Definition add_assign (s other : GasCostSummary) : outcome GasCostSummary :=
  a ← cadd (computation_cost s) (computation_cost other);
  b ← cadd (storage_cost s) (storage_cost other);
  c ← cadd (storage_rebate s) (storage_rebate other);
  d ← cadd (non_refundable_storage_fee s) (non_refundable_storage_fee other);
  Ret (mkSummary a b c d).
End Summary.
Import Summary (GasCostSummary).

(** ** Gas coins *)

Definition deduct_gas (gas_object : Object) (charge_or_rebate : Z) : outcome Object :=
  gas_coin ← unwrap (try_as_move (data gas_object));
  balance ← MoveObj.get_coin_value_unsafe gas_coin;
  new_balance ← (if charge_or_rebate <? 0 then cadd balance ((- charge_or_rebate) mod U64_MOD)
                 else assert_ (charge_or_rebate mod U64_MOD <=? balance);;
                      csub balance (charge_or_rebate mod U64_MOD));
  m ← MoveObj.set_coin_value_unsafe gas_coin new_balance;
  Ret (with_data gas_object (Move m)).

Definition get_gas_balance (gas_object : Object) : outcome (result UserInputError Z) :=
  match try_as_move (data gas_object) with
  | Some move_obj =>
      if negb (is_gas_coin (type_ move_obj)) then
        i ← Obj.id gas_object; Ret (Err (InvalidGasObject i))
      else Ok <$> MoveObj.get_coin_value_unsafe move_obj
  | None => i ← Obj.id gas_object; Ret (Err (InvalidGasObject i))
  end.

(** ** [SuiGasStatus], version 2 *)

Module V2.
Record SuiGasStatus := mkSuiGasStatus {
  gas_status : GasStatus;
  cost_table : SuiCostTable;
  gas_budget : Z;
  computation_cost : Z;
  charge : bool;
  gas_price : Z;
  reference_gas_price : Z;
  storage_gas_price : Z;
  storage_cost : Z;
  storage_rebate : Z;
  rebate_rate : Z;
  unmetered_storage_rebate : Z;
  gas_rounding_step : option Z;
}.

Definition with_gas_status (s : SuiGasStatus) (g : GasStatus) : SuiGasStatus :=
  mkSuiGasStatus g (cost_table s) (gas_budget s) (computation_cost s) (charge s) (gas_price s)
    (reference_gas_price s) (storage_gas_price s) (storage_cost s) (storage_rebate s) (rebate_rate s)
    (unmetered_storage_rebate s) (gas_rounding_step s).

Definition with_computation_cost (s : SuiGasStatus) (c : Z) : SuiGasStatus :=
  mkSuiGasStatus (gas_status s) (cost_table s) (gas_budget s) c (charge s) (gas_price s)
    (reference_gas_price s) (storage_gas_price s) (storage_cost s) (storage_rebate s) (rebate_rate s)
    (unmetered_storage_rebate s) (gas_rounding_step s).

Definition with_storage (s : SuiGasStatus) (cost rebate unmetered : Z) : SuiGasStatus :=
  mkSuiGasStatus (gas_status s) (cost_table s) (gas_budget s) (computation_cost s) (charge s) (gas_price s)
    (reference_gas_price s) (storage_gas_price s) cost rebate (rebate_rate s) unmetered (gas_rounding_step s).

Definition new (move_gas_status : GasStatus) (gas_budget : Z) (charge : bool)
    (gas_price reference_gas_price storage_gas_price rebate_rate : Z) (gas_rounding_step : option Z)
    (cost_table : SuiCostTable) : SuiGasStatus :=
  let gas_rounding_step := (λ val, Z.max val 1) <$> gas_rounding_step in
  mkSuiGasStatus move_gas_status cost_table gas_budget 0 charge gas_price reference_gas_price
    storage_gas_price 0 0 rebate_rate 0 gas_rounding_step.

Definition new_with_budget (gas_budget gas_price reference_gas_price : Z) (config : ProtocolConfig) :
    outcome SuiGasStatus :=
  max_computation_budget ← cmul (max_gas_computation_bucket config) gas_price;
  let computation_budget :=
    if max_computation_budget <? gas_budget then max_computation_budget else gas_budget in
  sui_cost_table ← SuiCost.new config gas_price;
  gs ← Meter.new (execution_cost_table sui_cost_table) computation_budget gas_price
         (config_gas_model_version config);
  Ret (new gs gas_budget true gas_price reference_gas_price (SuiGas.storage_gas_price config)
         (storage_rebate_rate config) (gas_rounding_step_as_option config) sui_cost_table).

Definition new_unmetered : outcome SuiGasStatus :=
  table ← SuiCost.unmetered;
  Ret (new Meter.new_unmetered 0 false 0 0 0 0 None table).

(** The three loops and checks of [check_gas_balance]. *)
Fixpoint check_owners (gas_objs : list ObjectReadResult) : result UserInputError unit :=
  match gas_objs with
  | [] => Ok tt
  | r :: gas_objs =>
      match Inputs.as_object r with
      | Some obj => if negb (Obj.is_address_owned obj) then Err (GasObjectNotOwnedObject (owner obj))
                    else check_owners gas_objs
      | None => Err MissingGasPayment
      end
  end.

(** The balance is summed in [u128], which a vector of [u64] values cannot overflow. *)
Fixpoint sum_balances (gas_objs : list ObjectReadResult) (gas_balance : Z) :
    outcome (result UserInputError Z) :=
  match gas_objs with
  | [] => Ret (Ok gas_balance)
  | r :: gas_objs =>
      obj ← unwrap (Inputs.as_object r);
      b ← get_gas_balance obj;
      match b with
      | Ok b => sum_balances gas_objs (gas_balance + b)
      | Err e => Ret (Err e)
      end
  end.

Definition check_gas_balance (s : SuiGasStatus) (gas_objs : list ObjectReadResult) (gas_budget : Z) :
    outcome (result UserInputError unit) :=
  match check_owners gas_objs with
  | Err e => Ret (Err e)
  | Ok _ =>
      if max_gas_budget (cost_table s) <? gas_budget then
        Ret (Err (GasBudgetTooHigh gas_budget (max_gas_budget (cost_table s))))
      else if gas_budget <? min_transaction_cost (cost_table s) then
        Ret (Err (GasBudgetTooLow gas_budget (min_transaction_cost (cost_table s))))
      else
        b ← sum_balances gas_objs 0;
        match b with
        | Err e => Ret (Err e)
        | Ok gas_balance =>
            if gas_balance <? gas_budget then Ret (Err (GasBalanceTooLow gas_balance gas_budget))
            else Ret (Ok tt)
        end
  end.

Definition is_unmetered (s : SuiGasStatus) : bool := negb (charge s).
Definition gas_used (s : SuiGasStatus) : Z := Meter.gas_used_pre_gas_price (gas_status s).

(** The amount that [bucketize_computation] compares with the budget. *)
Definition rounded_computation (s : SuiGasStatus) : outcome Z :=
  let gas_used := Meter.gas_used_pre_gas_price (gas_status s) in
  match gas_rounding_step s with
  | Some gas_rounding =>
      assert_ (negb ((0 <? gas_used) && (gas_rounding =? 0)));;
      if (0 <? gas_used) && (gas_used mod gas_rounding =? 0) then cmul gas_used (gas_price s)
      else
        assert_ (negb (gas_rounding =? 0));;
        n ← cadd (gas_used / gas_rounding) 1;
        r ← cmul n gas_rounding;
        cmul r (gas_price s)
  | None => cmul (get_bucket_cost (buckets (cost_table s)) gas_used) (gas_price s)
  end.

Definition bucketize_computation : ST SuiGasStatus ExecutionError unit :=
  s ← gets id;
  gas_used ← lift_o (rounded_computation s);
  if gas_budget s <=? gas_used then
    modify (λ s, with_computation_cost s (gas_budget s));; throw InsufficientGas
  else modify (λ s, with_computation_cost s gas_used).

Definition summary (s : SuiGasStatus) : outcome GasCostSummary :=
  let sr := sender_rebate (storage_rebate s) (rebate_rate s) in
  assert_ (sr <=? storage_rebate s);;
  non_refundable_storage_fee ← csub (storage_rebate s) sr;
  Ret (Summary.mkSummary (computation_cost s) (storage_cost s) sr non_refundable_storage_fee).

Definition reset_storage_cost_and_rebate (s : SuiGasStatus) : SuiGasStatus := with_storage s 0 0 0.

(** [map_err] turns every error of the meter into [InsufficientGas]. *)
Definition charge_meter_bytes (size cost_per_byte : Z) (s : SuiGasStatus) :
    result ExecutionError unit * SuiGasStatus :=
  match Meter.charge_bytes size cost_per_byte (gas_status s) with
  | (Ok _, g) => (Ok tt, with_gas_status s g)
  | (Err _, g) => (Err InsufficientGas, with_gas_status s g)
  end.

Definition charge_storage_read (size : Z) : SE SuiGasStatus ExecutionError unit :=
  λ s, charge_meter_bytes size (object_read_per_byte_cost (cost_table s)) s.
Definition charge_publish_package (size : Z) : SE SuiGasStatus ExecutionError unit :=
  λ s, charge_meter_bytes size (package_publish_per_byte_cost (cost_table s)) s.

Definition track_storage_mutation (s : SuiGasStatus) (new_size old_rebate : Z) : outcome (Z * SuiGasStatus) :=
  if is_unmetered s then
    u ← cadd (unmetered_storage_rebate s) old_rebate;
    Ret (0, with_storage s (storage_cost s) (storage_rebate s) u)
  else
    r ← cadd (storage_rebate s) old_rebate;
    p ← cmul new_size (storage_per_byte_cost (cost_table s));
    cost ← cmul p (storage_gas_price s);
    total ← cadd (storage_cost s) cost;
    Ret (cost, with_storage s total r (unmetered_storage_rebate s)).

Definition charge_storage_and_rebate (s : SuiGasStatus) : outcome (result ExecutionError unit) :=
  let sr := sender_rebate (storage_rebate s) (rebate_rate s) in
  assert_ (sr <=? storage_rebate s);;
  if storage_cost s <=? sr then Ret (Ok tt)
  else
    gas_left ← csub (gas_budget s) (computation_cost s);
    need ← csub (storage_cost s) sr;
    Ret (if gas_left <? need then Err InsufficientGas else Ok tt).

Definition adjust_computation_on_out_of_gas (s : SuiGasStatus) : SuiGasStatus :=
  with_computation_cost (with_storage s 0 0 (unmetered_storage_rebate s)) (gas_budget s).
End V2.
Import V2 (SuiGasStatus).

(** [SuiGasStatus::new] of [gas.rs]: the checks on the price come first. *)
Definition new_gas_status (gas_budget gas_price reference_gas_price : Z) (config : ProtocolConfig) :
    outcome (result UserInputError SuiGasStatus) :=
  if gas_price <? reference_gas_price then Ret (Err (GasPriceUnderRGP gas_price reference_gas_price))
  else if gas_price_too_high (config_gas_model_version config) && (max_gas_price config <=? gas_price) then
    Ret (Err (GasPriceTooHigh (max_gas_price config)))
  else Ok <$> V2.new_with_budget gas_budget gas_price reference_gas_price config.

(** * Properties *)

(** ** Rounding of the computation cost *)

Lemma find_bucket_spec table u :
  StronglySorted (λ a b, bmax a <= bmax b) table →
  match find_bucket table u with
  | Some b => b ∈ table ∧ u <= bmax b ∧ ∀ b', b' ∈ table → u <= bmax b' → bmax b <= bmax b'
  | None => ∀ b, b ∈ table → bmax b < u
  end.
Proof.
  induction 1 as [|b table Ht IH Hb]; simpl; [set_solver|].
  rewrite Forall_forall in Hb. destruct (Z.leb_spec u (bmax b)) as [Hu|Hu].
  - split_and!; [left|done|]. intros b' [->|Hb']%elem_of_cons _; [done|by apply Hb].
  - destruct (find_bucket table u) as [c|].
    + destruct IH as (Hc & Huc & Hmin). split_and!; [by right|done|].
      intros b' [->|Hb']%elem_of_cons Hu'; [lia|auto].
    + intros b' [->|Hb']%elem_of_cons; [done|auto].
Qed.

(** The number of gas units that [used] units are rounded to: a bound of a bucket, the least
    one that is high enough, or the least positive multiple of the rounding step. *)
Definition rounds_to (s : SuiGasStatus) (used c : Z) : Prop :=
  used <= c ∧
  match V2.gas_rounding_step s with
  | Some step => (step | c) ∧ 0 < c ∧ ∀ d, used <= d → 0 < d → (step | d) → c <= d
  | None => (∃ b, b ∈ buckets (V2.cost_table s) ∧ c = bmax b) ∧
      ∀ b, b ∈ buckets (V2.cost_table s) → used <= bmax b → c <= bmax b
  end.

Lemma next_multiple used step :
  0 < step → 0 <= used → ¬ (0 < used ∧ used mod step = 0) →
  let c := (used / step + 1) * step in
  used <= c ∧ (step | c) ∧ 0 < c ∧ ∀ d, used <= d → 0 < d → (step | d) → c <= d.
Proof.
  intros Hs Hu Hn c. pose proof (Z.div_mod used step ltac:(lia)) as Hd.
  pose proof (Z.mod_pos_bound used step Hs) as Hm. pose proof (Z.div_pos used step Hu Hs) as Hq.
  split_and!; [subst c; nia|by apply Z.divide_factor_r|subst c; nia|].
  intros d Hud Hd0 [k ->]. subst c. apply Z.mul_le_mono_nonneg_r; [lia|].
  destruct (Z.le_gt_cases k (used / step)) as [Hk|]; [|lia].
  exfalso. apply Hn. assert (k * step <= used / step * step) by nia. assert (0 < k) by nia. split; nia.
Qed.

(** What a meter that started with the budget of [new_with_budget] can have used. *)
Record gas_status_ok (s : SuiGasStatus) : Prop := {
  gs_meter : meter_ok (V2.gas_status s);
  gs_budget : is_u64 (V2.gas_budget s);
  gs_price : 0 < V2.gas_price s;
  gs_rate : 0 <= V2.rebate_rate s <= BASIS_POINTS;
  gs_step : ∀ step, V2.gas_rounding_step s = Some step → 0 < step;
  gs_sorted : StronglySorted (λ a b, bmax a <= bmax b) (buckets (V2.cost_table s));
  gs_simple : ∀ b, b ∈ buckets (V2.cost_table s) → bcost b = bmax b ∧ 0 <= bmax b;
  gs_used : ∃ b, b ∈ buckets (V2.cost_table s) ∧ V2.gas_used s <= bmax b;
}.

(** No product of [bucketize_computation] overflows. *)
Definition rounding_fits (s : SuiGasStatus) : Prop :=
  ∀ c, rounds_to s (V2.gas_used s) c → c * V2.gas_price s < U64_MOD.

Lemma gas_used_nonneg s : gas_status_ok s → 0 <= V2.gas_used s.
Proof.
  intros []. unfold V2.gas_used. rewrite gas_used_spec by done. destruct gs_meter0. apply Z.div_pos; lia.
Qed.

Lemma rounded_computation_spec s :
  gas_status_ok s → rounding_fits s →
  ∃ c, rounds_to s (V2.gas_used s) c ∧ V2.rounded_computation s = Ret (c * V2.gas_price s).
Proof.
  intros Hs Hfit. pose proof (gas_used_nonneg s Hs) as Hu. destruct Hs.
  unfold V2.rounded_computation, rounding_fits, rounds_to in *. fold (V2.gas_used s).
  set (u := V2.gas_used s) in *. clearbody u. destruct (V2.gas_rounding_step s) as [step|] eqn:Hstep.
  - specialize (gs_step0 step eq_refl).
    assert ((step =? 0) = false) as -> by lia. rewrite andb_false_r. unfold_m. simpl.
    destruct ((0 <? u) && (u mod step =? 0)) eqn:Hc.
    + exists u. apply andb_prop in Hc as [Hc1 Hc2].
      assert ((step | u)) as Hdiv by (apply Z.mod_divide; lia).
      assert (u <= u ∧ (step | u) ∧ 0 < u ∧ ∀ d, u <= d → 0 < d → (step | d) → u <= d) as H by (split_and!; auto; lia).
      split; [done|]. by apply cmul_fits, Hfit.
    + pose proof (next_multiple u step gs_step0 Hu ltac:(intros [? ?]; lia)) as H. cbv zeta in H.
      exists ((u / step + 1) * step). split; [done|]. specialize (Hfit _ H).
      assert (0 <= u / step) by (apply Z.div_pos; lia).
      rewrite cadd_fits by nia. rewrite cmul_fits by nia. by apply cmul_fits.
  - pose proof (find_bucket_spec _ u gs_sorted0) as Hf. unfold get_bucket_cost.
    destruct (find_bucket _ u) as [b|].
    + destruct Hf as (Hb & Hub & Hmin). destruct (gs_simple0 b Hb) as [-> _]. exists (bmax b).
      assert (u <= bmax b ∧ (∃ b0, b0 ∈ buckets (V2.cost_table s) ∧ bmax b = bmax b0) ∧
        ∀ b0, b0 ∈ buckets (V2.cost_table s) → u <= bmax b0 → bmax b <= bmax b0) as H by (split_and!; eauto).
      split; [done|]. by apply cmul_fits, Hfit.
    + destruct gs_used0 as (b & Hb & Hub). specialize (Hf b Hb). lia.
Qed.

Lemma bucketize_spec s :
  gas_status_ok s → rounding_fits s →
  ∃ c r, rounds_to s (V2.gas_used s) c ∧
    V2.bucketize_computation s =
      Ret (r, V2.with_computation_cost s (Z.min (V2.gas_budget s) (c * V2.gas_price s))) ∧
    (r = Ok tt ∧ c * V2.gas_price s < V2.gas_budget s ∨
     r = Err InsufficientGas ∧ V2.gas_budget s <= c * V2.gas_price s).
Proof.
  intros Hs Hfit. destruct (rounded_computation_spec s Hs Hfit) as (c & Hc & Heq). exists c.
  unfold V2.bucketize_computation. unfold_m. simpl. rewrite Heq.
  destruct (Z.leb_spec (V2.gas_budget s) (c * V2.gas_price s)) as [Hle|Hlt].
  - exists (Err InsufficientGas). rewrite Z.min_l by done. auto.
  - exists (Ok tt). rewrite Z.min_r by lia. auto.
Qed.

(** ** Rebates *)

Lemma sender_rebate_spec r rate :
  is_u64 r → 0 <= rate <= BASIS_POINTS →
  0 <= sender_rebate r rate <= r ∧
  - BASIS_POINTS / 2 <= BASIS_POINTS * sender_rebate r rate - r * rate <= BASIS_POINTS / 2.
Proof.
  unfold is_u64, sender_rebate, BASIS_POINTS. intros Hr Hrate. change (10000 / 2) with 5000.
  change (- 10000 / 2) with (-5000).
  assert (0 <= (r * rate + 5000) / 10000 <= r) as Hb.
  { split; [apply Z.div_pos; nia|]. apply Z.lt_succ_r, Z.div_lt_upper_bound; nia. }
  rewrite Z.mod_small by lia. div_lia.
Qed.

Lemma summary_spec s :
  gas_status_ok s → is_u64 (V2.storage_rebate s) →
  ∃ sr, 0 <= sr <= V2.storage_rebate s ∧ sr = sender_rebate (V2.storage_rebate s) (V2.rebate_rate s) ∧
    V2.summary s = Ret (Summary.mkSummary (V2.computation_cost s) (V2.storage_cost s) sr
                          (V2.storage_rebate s - sr)).
Proof.
  intros [] Hr. destruct (sender_rebate_spec (V2.storage_rebate s) (V2.rebate_rate s)) as [Hb _]; [done..|].
  eexists. split; [exact Hb|]. split; [done|]. unfold V2.summary.
  unfold_m. destruct (Z.leb_spec (sender_rebate (V2.storage_rebate s) (V2.rebate_rate s)) (V2.storage_rebate s)); [|lia].
  by rewrite csub_fits by lia.
Qed.

(** Whether the storage can be paid for out of what the computation left of the budget. *)
Lemma charge_storage_spec s :
  gas_status_ok s → is_u64 (V2.storage_rebate s) → V2.computation_cost s <= V2.gas_budget s →
  let sr := sender_rebate (V2.storage_rebate s) (V2.rebate_rate s) in
  V2.charge_storage_and_rebate s =
    Ret (if decide (V2.computation_cost s + V2.storage_cost s - sr <= V2.gas_budget s)
         then Ok tt else Err InsufficientGas).
Proof.
  intros [] Hr Hc sr. destruct (sender_rebate_spec (V2.storage_rebate s) (V2.rebate_rate s)) as [Hb _]; [done..|].
  fold sr in Hb. unfold V2.charge_storage_and_rebate. fold sr. unfold_m.
  destruct (Z.leb_spec sr (V2.storage_rebate s)); [|lia].
  destruct (Z.leb_spec (V2.storage_cost s) sr).
  - by rewrite decide_True by lia.
  - rewrite !csub_fits by lia.
    destruct (Z.ltb_spec (V2.gas_budget s - V2.computation_cost s) (V2.storage_cost s - sr)).
    + by rewrite decide_False by lia.
    + by rewrite decide_True by lia.
Qed.

(** ** From the creation of the status to the rounded cost *)

Definition config_ok (c : ProtocolConfig) : Prop := 0 <= storage_rebate_rate c <= BASIS_POINTS.

Lemma buckets_ok max :
  5000000 <= max →
  ∃ table, computation_bucket max = Ret table ∧ StronglySorted (λ a b, bmax a <= bmax b) table ∧
    (∀ b, b ∈ table → bcost b = bmax b ∧ 0 <= bmax b <= max) ∧ Bucket.simple 1000000 max ∈ table.
Proof.
  intros Hm. unfold computation_bucket. unfold_m. destruct (Z.leb_spec 5000000 max); [|lia].
  eexists. split; [done|]. split; [|split].
  - repeat (constructor; [|repeat (constructor; [simpl; lia|]); constructor]). constructor.
  - intros b Hb. repeat (apply elem_of_cons in Hb as [->|Hb]; [simpl; lia|]). by apply elem_of_nil in Hb.
  - do 7 right. left.
Qed.

Lemma new_gas_status_inv config budget price rgp s :
  new_gas_status budget price rgp config = Ret (Ok s) →
  let max := max_gas_computation_bucket config in
  ∃ cost bs gs, 0 < price ∧ 5000000 <= max ∧ computation_bucket max = Ret bs ∧
    Meter.new (cost_table_for_version (config_gas_model_version config)) (Z.min budget (max * price)) price
      (config_gas_model_version config) = Ret gs ∧
    s = V2.new gs budget true price rgp (storage_gas_price config) (storage_rebate_rate config)
          (gas_rounding_step_as_option config)
          (mkSuiCostTable cost (max_tx_gas config) (package_publish_cost_per_byte config)
             (obj_access_cost_read_per_byte config) (obj_data_cost_refundable config)
             (cost_table_for_version (config_gas_model_version config)) bs).
Proof.
  intros Hnew max. unfold new_gas_status in Hnew.
  destruct (price <? rgp); [done|]. destruct (_ && _); [done|]. cbn [fmap outcome_fmap] in Hnew.
  destruct (V2.new_with_budget budget price rgp config) as [s1| |] eqn:H1; try done. simplify_eq/=.
  unfold V2.new_with_budget, SuiCost.new in H1. unfold_m. fold max in H1.
  destruct (cmul max price) as [mcb| |] eqn:Hm; try done.
  unfold cmul, checked_mul in Hm. case_decide; [|done]. simplify_eq/=.
  destruct (if txn_base_cost_as_multiplier config then _ else _) as [cost| |]; try done.
  destruct (computation_bucket max) as [bs| |] eqn:Hbs; try done. simpl in H1.
  destruct (Meter.new _ _ price _) as [gs| |] eqn:Hgs; try done. simplify_eq/=.
  assert ((if max * price <? budget then max * price else budget) = Z.min budget (max * price)) as Hmin
    by (destruct (Z.ltb_spec (max * price) budget); lia).
  rewrite Hmin in Hgs. exists cost, bs, gs. split_and!; try done.
  - unfold Meter.new in Hgs. unfold_m. by destruct (Z.ltb_spec 0 price).
  - unfold computation_bucket in Hbs. unfold_m. by destruct (Z.leb_spec 5000000 max).
Qed.

(** What [new_gas_status] makes, and what running the meter of it keeps. *)
Lemma new_gas_status_ok config budget price rgp s g :
  config_ok config → is_u64 budget → new_gas_status budget price rgp config = Ret (Ok s) →
  meter_ok g → same_terms (V2.gas_status s) g →
  let s' := V2.with_gas_status s g in
  gas_status_ok s' ∧ V2.gas_budget s' = budget ∧ V2.gas_price s' = price ∧
  V2.gas_rounding_step s' = (λ v, Z.max v 1) <$> gas_rounding_step_as_option config ∧
  V2.gas_used s' * price <= budget ∧ V2.gas_used s' <= max_gas_computation_bucket config ∧
  (∀ b, b ∈ buckets (V2.cost_table s') → bmax b <= max_gas_computation_bucket config).
Proof.
  intros Hc Hb Hnew Hg (Hib & _).
  destruct (new_gas_status_inv _ _ _ _ _ Hnew) as (cost & bs & gs & Hp & Hmax & Hbs & Hgs & ->).
  set (max := max_gas_computation_bucket config) in *. set (cb := Z.min budget (max * price)) in *.
  destruct (buckets_ok max Hmax) as (bs' & Hbs' & Hsort & Hsimple & Htop). rewrite Hbs in Hbs'. simplify_eq.
  unfold is_u64 in Hb. assert (0 <= cb <= budget ∧ cb <= max * price) as [Hcb Hcb2] by nia. clearbody cb.
  pose proof (new_meter_spec (cost_table_for_version (config_gas_model_version config)) cb price
    (config_gas_model_version config) ltac:(lia)) as Hnm.
  rewrite Hgs in Hnm. destruct Hnm as (_ & _ & _ & _ & _ & _ & _ & Hi). simpl in Hib. rewrite <- Hib in Hi.
  assert (Meter.gas_used_pre_gas_price g <= cb / price) as Hused.
  { rewrite gas_used_spec by done. apply Z.div_le_upper_bound; [lia|]. destruct Hg.
    assert (0 <= cb / price) by (apply Z.div_pos; lia).
    pose proof (Z.mod_le (cb / price * 1000) U64_MOD ltac:(lia) ltac:(done)). lia. }
  assert (cb / price <= max) as Hq by (apply Z.div_le_upper_bound; lia).
  assert (cb / price * price <= cb) as Hqp by (rewrite Z.mul_comm; by apply Z.mul_div_le).
  cbv zeta. unfold V2.gas_used. split_and!; try done; simpl; try nia.
  - split; simpl; try done.
    + intros step Hst. destruct (gas_rounding_step_as_option config); simplify_eq/=. lia.
    + intros b Hin. destruct (Hsimple b Hin). lia.
    + exists (Bucket.simple 1000000 max). split; [done|]. simpl. unfold V2.gas_used. simpl. lia.
  - intros b Hin. apply (Hsimple b Hin).
Qed.

Lemma rounding_fits_intro s max :
  gas_status_ok s → V2.gas_used s <= max → (∀ b, b ∈ buckets (V2.cost_table s) → bmax b <= max) →
  (max + default 0 (V2.gas_rounding_step s)) * V2.gas_price s < U64_MOD → rounding_fits s.
Proof.
  intros Hs Hu Hb Hfit c [_ Hc]. pose proof (gas_used_nonneg s Hs) as Hu0. destruct Hs. eapply Z.le_lt_trans; [|exact Hfit].
  apply Z.mul_le_mono_nonneg_r; [lia|]. destruct (V2.gas_rounding_step s) as [step|]; simpl.
  - destruct Hc as (_ & _ & Hmin). specialize (gs_step0 step eq_refl).
    pose proof (Z.div_mod (V2.gas_used s) step ltac:(lia)). pose proof (Z.mod_pos_bound (V2.gas_used s) step gs_step0).
    pose proof (Z.div_pos (V2.gas_used s) step Hu0 gs_step0).
    etrans; [apply (Hmin ((V2.gas_used s / step + 1) * step)); [nia|nia|by apply Z.divide_factor_r]|nia].
  - destruct Hc as [(b & Hin & ->) _]. specialize (Hb b Hin). lia.
Qed.

(** the computation charge.  For a transaction whose gas status was created by [new], after
    any use of the meter by the VM, [bucketize_computation] does not panic: it rounds the gas used
    up to the least bucket that is large enough (or to the least positive multiple of the rounding
    step), and charges that times the gas price.  When this reaches the budget, the whole budget is
    charged and the transaction fails with [InsufficientGas]; the gas really used never costs more
    than the budget. *)
Theorem computation_charge_correct config budget price rgp s0 ops :
  config_ok config → is_u64 budget → new_gas_status budget price rgp config = Ret (Ok s0) →
  Forall op_ok ops →
  (max_gas_computation_bucket config + default 0 (V2.gas_rounding_step s0)) * price < U64_MOD →
  let s := V2.with_gas_status s0 (GasMeter.run_ops ops (V2.gas_status s0)).2 in
  ∃ c r, rounds_to s (V2.gas_used s) c ∧ V2.gas_used s * price <= budget ∧
    V2.bucketize_computation s = Ret (r, V2.with_computation_cost s (Z.min budget (c * price))) ∧
    (r = Ok tt ∧ c * price < budget ∨ r = Err InsufficientGas ∧ budget <= c * price).
Proof.
  intros Hc Hb Hnew Hops Hfit s.
  assert (meter_ok (V2.gas_status s0)) as Hm0.
  { destruct (new_gas_status_inv _ _ _ _ _ Hnew) as (cost & bs & gs & Hp & Hmax & _ & Hgs & ->). unfold is_u64 in Hb.
    pose proof (new_meter_spec (cost_table_for_version (config_gas_model_version config))
      (Z.min budget (max_gas_computation_bucket config * price)) price (config_gas_model_version config) ltac:(nia)) as H.
    rewrite Hgs in H. tauto. }
  pose proof (run_ops_takes_gas ops Hops _ Hm0) as Hrun. subst s.
  destruct (GasMeter.run_ops ops (V2.gas_status s0)) as [r g]. destruct Hrun as (Hg & Hst & _). cbn [snd].
  destruct (new_gas_status_ok _ _ _ _ _ g Hc Hb Hnew Hg Hst) as (Hs & Hbud & Hpr & Hstep & Hle & Hmax & Hbs).
  cbv zeta in *. set (s := V2.with_gas_status s0 g) in *.
  assert (rounding_fits s) as Hrf by (eapply rounding_fits_intro; [done..|]; by rewrite Hpr).
  destruct (bucketize_spec s Hs Hrf) as (c & r' & H). rewrite Hbud, Hpr in H. exists c, r'. tauto.
Qed.

(** ** Gas payments *)

(** An input that is an address-owned gas coin with balance [b]. *)
Definition pays (r : ObjectReadResult) (b : Z) : Prop :=
  ∃ o, Inputs.as_object r = Some o ∧ Obj.is_address_owned o = true ∧ get_gas_balance o = Ret (Ok b).

Lemma check_owners_spec l :
  V2.check_owners l = Ok tt ↔
  Forall (λ r, ∃ o, Inputs.as_object r = Some o ∧ Obj.is_address_owned o = true) l.
Proof.
  induction l as [|r l IH]; simpl; [by split|]. rewrite Forall_cons, <- IH.
  destruct (Inputs.as_object r) as [o|]; [|split; [done|intros [(? & ? & _) _]; done]].
  destruct (Obj.is_address_owned o) eqn:Ho; simpl; split; try done.
  - intros ?. split; [by exists o|done].
  - by intros [_ ?].
  - intros [(o' & [= <-] & ?) _]. congruence.
Qed.

Lemma sum_balances_spec l acc total :
  V2.sum_balances l acc = Ret (Ok total) ↔
  ∃ bs, Forall2 (λ r b, ∃ o, Inputs.as_object r = Some o ∧ get_gas_balance o = Ret (Ok b)) l bs ∧
    total = acc + zsum bs.
Proof.
  revert acc. induction l as [|r l IH]; intros acc; simpl.
  - split; [intros [= ->]; exists []; split; [constructor|simpl; lia]|].
    intros (bs & Hbs & ->). inversion Hbs. subst. simpl. do 2 f_equal. lia.
  - unfold_m. destruct (Inputs.as_object r) as [o|] eqn:Ho.
    2: { split; [done|]. intros (bs & Hbs & _). inversion Hbs as [|? ? ? ? (? & ? & _)]. congruence. }
    destruct (get_gas_balance o) as [[b|e]| |] eqn:Hb; simpl.
    + rewrite IH. split.
      * intros (bs & Hbs & ->). exists (b :: bs). split; [constructor; eauto|simpl; lia].
      * intros (bs & Hbs & ->). inversion Hbs as [|? b' ? bs' (o' & ? & ?) Hbs']. simplify_eq/=.
        assert (b' = b) as -> by congruence. exists bs'. split; [done|lia].
    + split; [done|]. intros (bs & Hbs & _). inversion Hbs as [|? ? ? ? (? & ? & ?)]. congruence.
    + split; [done|]. intros (bs & Hbs & _). inversion Hbs as [|? ? ? ? (? & ? & ?)]. congruence.
    + split; [done|]. intros (bs & Hbs & _). inversion Hbs as [|? ? ? ? (? & ? & ?)]. congruence.
Qed.

(** which gas payments are accepted.  [check_gas_balance] succeeds exactly when every gas
    object is an address-owned gas coin, the budget lies between the least transaction cost and
    the largest budget, and the balances of the coins add up to at least the budget. *)
Theorem check_gas_balance_correct s objs budget :
  V2.check_gas_balance s objs budget = Ret (Ok tt) ↔
  ∃ bs, Forall2 pays objs bs ∧ budget <= zsum bs ∧
    min_transaction_cost (V2.cost_table s) <= budget <= max_gas_budget (V2.cost_table s).
Proof.
  unfold V2.check_gas_balance. destruct (V2.check_owners objs) as [[]|e] eqn:Ho.
  - apply check_owners_spec in Ho. rewrite Forall_forall in Ho.
    destruct (Z.ltb_spec (max_gas_budget (V2.cost_table s)) budget); [split; [done|intros (? & ? & ? & ?); lia]|].
    destruct (Z.ltb_spec budget (min_transaction_cost (V2.cost_table s))); [split; [done|intros (? & ? & ? & ?); lia]|].
    unfold_m. split.
    + destruct (V2.sum_balances objs 0) as [[total|e]| |] eqn:Hs; try done.
      apply sum_balances_spec in Hs as (bs & Hbs & ->). destruct (Z.ltb_spec (0 + zsum bs) budget); [done|].
      intros _. exists bs. split; [|lia]. apply Forall2_same_length_lookup. 
      apply Forall2_same_length_lookup in Hbs as [Hl Hbs]. split; [done|]. intros i r b Hr Hb.
      destruct (Hbs i r b Hr Hb) as (o & Hro & Hbal). exists o. split_and!; [done| |done].
      destruct (Ho r) as (o' & ? & ?); [by eapply list_elem_of_lookup_2|]. congruence.
    + intros (bs & Hbs & Hle & _). assert (V2.sum_balances objs 0 = Ret (Ok (0 + zsum bs))) as ->.
      { apply sum_balances_spec. exists bs. split; [|done]. eapply Forall2_impl; [done|]. intros r b (o & ? & _ & ?). eauto. }
      destruct (Z.ltb_spec (0 + zsum bs) budget); [lia|done].
  - split; [done|]. intros (bs & Hbs & _). exfalso.
    assert (V2.check_owners objs = Ok tt) as Ho'; [|congruence]. apply check_owners_spec.
    apply Forall_forall. intros r [i Hr]%list_elem_of_lookup. apply Forall2_same_length_lookup in Hbs as [Hl Hbs].
    destruct (lookup_lt_is_Some_2 bs i) as [b Hb]; [rewrite <- Hl; by eapply lookup_lt_Some|].
    destruct (Hbs i r b Hr Hb) as (o & ? & ? & _). eauto.
Qed.

(** ** A concrete configuration *)

Definition example_config : ProtocolConfig := {|
  base_tx_cost_fixed := 1000;
  max_tx_gas := 50000000000;
  package_publish_cost_per_byte := 80;
  obj_access_cost_read_per_byte := 15;
  obj_data_cost_refundable := 100;
  config_gas_model_version := 8;
  max_gas_computation_bucket := 5000000;
  max_gas_price := 100000;
  storage_gas_price := 76;
  storage_rebate_rate := 9900;
  gas_rounding_step_as_option := Some 1000;
  txn_base_cost_as_multiplier_flag := true;
|}.

(** The status of a transaction with a budget of 10000000 at a price of 1000. *)
Definition example_status : SuiGasStatus :=
  match new_gas_status 10000000 1000 1000 example_config with
  | Ret (Ok s) => s
  | _ => V2.new Meter.new_unmetered 0 false 0 0 0 0 None (mkSuiCostTable 0 0 0 0 0 zero_cost_schedule [])
  end.

Lemma example_status_new : new_gas_status 10000000 1000 1000 example_config = Ret (Ok example_status).
Proof. vm_compute. reflexivity. Qed.

Definition example_ops : list GasMeter.Op :=
  [GasMeter.OSimple LdU64; GasMeter.OSimple LdU64; GasMeter.OSimple Add; GasMeter.ONative 1500000 None].

Lemma example_ops_ok : Forall op_ok example_ops.
Proof. do 3 (apply Forall_cons; split; [exact I|]). apply Forall_cons; split; [split; [lia|constructor]|constructor]. Qed.

(** 1500 units are rounded up to 2000, and 2000000 is charged. *)
Lemma computation_charge_correct_witness :
  let s := V2.with_gas_status example_status (GasMeter.run_ops example_ops (V2.gas_status example_status)).2 in
  ∃ c r, rounds_to s (V2.gas_used s) c ∧ V2.gas_used s * 1000 <= 10000000 ∧
    V2.bucketize_computation s = Ret (r, V2.with_computation_cost s (Z.min 10000000 (c * 1000))) ∧
    (r = Ok tt ∧ c * 1000 < 10000000 ∨ r = Err InsufficientGas ∧ 10000000 <= c * 1000).
Proof.
  apply (computation_charge_correct example_config 10000000 1000 1000 example_status example_ops).
  - unfold config_ok, BASIS_POINTS. simpl. lia.
  - vm_compute. split; congruence.
  - exact example_status_new.
  - exact example_ops_ok.
  - vm_compute. reflexivity.
Defined.

Lemma example_charge :
  let s := V2.with_gas_status example_status (GasMeter.run_ops example_ops (V2.gas_status example_status)).2 in
  V2.rounded_computation s = Ret 2000000.
Proof. vm_compute. reflexivity. Qed.
