(* ===== verification/TemporaryStore.v ===== *)
(** The store that holds the effects of a transaction while it runs
    ([sui-execution/latest/sui-adapter/src/temporary_store.rs]).

    The backing store is a class.  The module is not under [with_checked_arithmetic], so that
    its own sums wrap; panics of [unwrap], of indexing and of [assert!] are modelled, checks
    of debug builds are not. *)
From S2P Require Import Prelude GasTables Objects SuiGas.
Import SuiGas.V2 (SuiGasStatus).
Import SuiGas.Summary (GasCostSummary).

(** The store of the authority, and what its methods return. *)
Class BackingStore := {
  get_package_object : ObjectID → result unit (option Object);
  get_object : ObjectID → result unit (option Object);
  get_object_by_key : ObjectID → SequenceNumber → result unit (option Object);
}.

Record DynamicallyLoadedObjectMetadata := mkMetadata {
  md_version : SequenceNumber;
  md_digest : ObjectDigest;
  md_owner : Owner;
  md_storage_rebate : Z;
  md_previous_transaction : TransactionDigest;
}.

(** [GasCharger] of [gas_charger.rs]; its operations are in the file [GasCharger]. *)
Record GasCharger := mkGasCharger {
  charger_tx_digest : TransactionDigest;
  charger_gas_model_version : Z;
  gas_coins : list ObjectRef;
  smashed_gas_coin : option ObjectID;
  charger_status : SuiGasStatus;
}.

Definition with_status (g : GasCharger) (s : SuiGasStatus) : GasCharger :=
  mkGasCharger (charger_tx_digest g) (charger_gas_model_version g) (gas_coins g) (smashed_gas_coin g) s.

(** [GasCharger::track_storage_mutation]. *)
Definition track_storage_mutation (g : GasCharger) (new_size storage_rebate : Z) : outcome (Z * GasCharger) :=
  r ← V2.track_storage_mutation (charger_status g) new_size storage_rebate;
  Ret (r.1, with_status g r.2).

Record TemporaryStore `{!ObjectEnv} := mkStore {
  tx_digest : TransactionDigest;
  input_objects : gmap Z Object;
  lamport_timestamp : SequenceNumber;
  mutable_input_refs : gmap Z (VersionDigest * Owner);
  execution_results : ExecutionResultsV2;
  loaded_runtime_objects : gmap Z DynamicallyLoadedObjectMetadata;
  wrapped_object_containers : gmap Z ObjectID;
  receiving_objects : list ObjectRef;
}.

Definition SUI_SYSTEM_STATE_OBJECT_ID : ObjectID := 5.

Abbreviation ModifiedObjectInfo := (Z * option DynamicallyLoadedObjectMetadata * option Object)%type (only parsing).

Abbreviation written t := (written_objects (execution_results t)).
Abbreviation modified t := (modified_objects (execution_results t)).
Abbreviation created t := (created_object_ids (execution_results t)).
Abbreviation deleted t := (deleted_object_ids (execution_results t)).

Module Temp.
Section temp.
Context `{!ObjectEnv} `{!BackingStore}.
Implicit Types t : TemporaryStore.

Definition with_results t (r : ExecutionResultsV2) : TemporaryStore :=
  mkStore _ (tx_digest t) (input_objects t) (lamport_timestamp t) (mutable_input_refs t) r
    (loaded_runtime_objects t) (wrapped_object_containers t) (receiving_objects t).

Definition with_loaded t l w : TemporaryStore :=
  mkStore _ (tx_digest t) (input_objects t) (lamport_timestamp t) (mutable_input_refs t)
    (execution_results t) l w (receiving_objects t).

Definition new (inputs : InputObjects) (receiving_objects : list ObjectRef) (tx_digest : TransactionDigest) :
    outcome TemporaryStore :=
  mutable_input_refs ← Inputs.mutable_inputs inputs;
  lamport_timestamp ← Inputs.lamport_timestamp inputs receiving_objects;
  Ret (mkStore _ tx_digest (Inputs.into_object_map inputs) lamport_timestamp mutable_input_refs
         Results.default_ ∅ ∅ receiving_objects).

Definition update_object_version_and_prev_tx t : outcome TemporaryStore :=
  r ← Results.update_version_and_previous_tx (execution_results t) (lamport_timestamp t) (tx_digest t);
  Ret (with_results t r).

(** [modified_objects.insert(id)] and [written_objects.insert(id, object)]. *)
Definition insert_written t (id : ObjectID) (o : Object) : TemporaryStore :=
  let r := execution_results t in
  with_results t (mkResults _ (<[id := o]> (written_objects r)) ({[ id ]} ∪ modified_objects r)
    (created_object_ids r) (deleted_object_ids r) (user_events r)).

Definition mutate_input_object t (object : Object) : outcome TemporaryStore :=
  id ← Obj.id object; Ret (insert_written t id object).

Definition mutate_child_object t (old_object new_object : Object) : outcome TemporaryStore :=
  id ← Obj.id new_object;
  old_ref ← Obj.compute_object_reference old_object;
  let m := mkMetadata old_ref.1.2 old_ref.2 (owner old_object) (storage_rebate old_object)
             (previous_transaction old_object) in
  let t := with_loaded t (<[id := m]> (loaded_runtime_objects t)) (wrapped_object_containers t) in
  Ret (insert_written t id new_object).

Definition upgrade_system_package t (package : Object) : outcome TemporaryStore :=
  id ← Obj.id package;
  assert_ (Obj.is_package package && is_system_package id);;
  Ret (insert_written t id package).

Definition create_object t (object : Object) : outcome TemporaryStore :=
  id ← Obj.id object;
  let r := execution_results t in
  Ret (with_results t (mkResults _ (<[id := object]> (written_objects r)) (modified_objects r)
         ({[ id ]} ∪ created_object_ids r) (deleted_object_ids r) (user_events r))).

Definition delete_input_object t (id : ObjectID) : TemporaryStore :=
  let r := execution_results t in
  with_results t (mkResults _ (written_objects r) ({[ id ]} ∪ modified_objects r)
    (created_object_ids r) ({[ id ]} ∪ deleted_object_ids r) (user_events r)).

Definition drop_writes t : TemporaryStore := with_results t (Results.drop_writes (execution_results t)).

Definition read_object t (id : ObjectID) : option Object :=
  match written t !! id with Some o => Some o | None => input_objects t !! id end.

Definition save_loaded_runtime_objects t (l : gmap Z DynamicallyLoadedObjectMetadata) : TemporaryStore :=
  with_loaded t (l ∪ loaded_runtime_objects t) (wrapped_object_containers t).
Definition save_wrapped_object_containers t (w : gmap Z ObjectID) : TemporaryStore :=
  with_loaded t (loaded_runtime_objects t) (w ∪ wrapped_object_containers t).

Definition record_execution_results t (results : ExecutionResultsV2) : TemporaryStore :=
  with_results t (Results.merge_results (execution_results t) results).

(** [map(..).collect::<Vec<_>>()] with a closure that can panic. *)
Fixpoint map_o {A B} (f : A → outcome B) (l : list A) : outcome (list B) :=
  match l with
  | [] => Ret []
  | a :: l => b ← f a; k ← map_o f l; Ret (b :: k)
  end.

(** A loop with state that can panic. *)
Fixpoint fold_o {A S} (f : S → A → outcome S) (s : S) (l : list A) : outcome S :=
  match l with
  | [] => Ret s
  | a :: l => s' ← f s a; fold_o f s' l
  end.

Definition ensure_active_inputs_mutated t : outcome TemporaryStore :=
  to_be_updated ←
    map_o (λ id, unwrap (input_objects t !! id))
      (filter (λ id, id ∉ modified t) (btree_iter (mutable_input_refs t)).*1);
  fold_o mutate_input_object t to_be_updated.

Definition get_object_modified_at t (id : ObjectID) : outcome (option DynamicallyLoadedObjectMetadata) :=
  if bool_decide (id ∈ modified t) then
    match mutable_input_refs t !! id with
    | Some ((version, digest), owner) =>
        obj ← unwrap (input_objects t !! id);
        Ret (Some (mkMetadata version digest owner (storage_rebate obj) (previous_transaction obj)))
    | None =>
        match loaded_runtime_objects t !! id with
        | Some m => Ret (Some m)
        | None =>
            match get_package_object id with
            | Ok (Some obj) =>
                Ret (Some (mkMetadata (Obj.version obj) (digest obj) (owner obj) (storage_rebate obj)
                             (previous_transaction obj)))
            | _ => Panic
            end
        end
    end
  else Ret None.

Definition conserve_unmetered_storage_rebate t (unmetered_storage_rebate : Z) : outcome TemporaryStore :=
  if unmetered_storage_rebate =? 0 then Ret t
  else
    system_state_wrapper ← unwrap (read_object t SUI_SYSTEM_STATE_OBJECT_ID);
    assert_ (storage_rebate system_state_wrapper =? 0);;
    mutate_input_object t (with_rebate system_state_wrapper unmetered_storage_rebate).

Definition written_objects_size t : Z :=
  foldl (λ sum o, wadd sum (Obj.object_size_for_gas_metering o)) 0 (btree_values (written t)).

(** ** Ownership *)

(** The closure of the [filter_map] over the input objects. *)
Definition authenticated_root (sender : SuiAddress) (gas_objs : gset Z) (e : Z * Object) :
    outcome (option ObjectID) :=
  let '(id, obj) := e in
  if bool_decide (id ∈ gas_objs) then Ret None
  else
    match owner obj with
    | AddressOwner a => assert_ (sender =? a);; Ret (Some id)
    | Shared _ => Ret (Some id)
    | Immutable => Ret None
    | ObjectOwner _ => Panic
    end.

(** The object that has to be authenticated for [id] to be; [None] when there is nothing left
    to check for it. *)
Definition parent_of t (is_epoch_change : bool) (id : ObjectID) : outcome (result unit (option ObjectID)) :=
  match wrapped_object_containers t !! id with
  | Some container_id => Ret (Ok (Some container_id))
  | None =>
      match get_object id with
      | Err e => Ret (Err e)
      | Ok None => Panic
      | Ok (Some old_obj) =>
          match owner old_obj with
          | ObjectOwner parent | AddressOwner parent => Ret (Ok (Some parent))
          | Shared _ => Panic
          | Immutable =>
              assert_ is_epoch_change;; assert_ (is_system_package id);; Ret (Ok None)
          end
      end
  end.

(** The [while let Some(..) = objects_to_authenticate.pop()] loop. *)
Fixpoint authenticate t (is_epoch_change : bool) (fuel : nat) (authenticated_for_mutation : gset Z)
    (objects_to_authenticate : list ObjectID) : outcome (result unit unit) :=
  match objects_to_authenticate, fuel with
  | [], _ => Ret (Ok tt)
  | _ :: _, O => OutOfFuel
  | to_authenticate :: rest, S fuel =>
      if bool_decide (to_authenticate ∈ authenticated_for_mutation) then
        authenticate t is_epoch_change fuel authenticated_for_mutation rest
      else
        p ← parent_of t is_epoch_change to_authenticate;
        match p with
        | Err e => Ret (Err e)
        | Ok None => authenticate t is_epoch_change fuel authenticated_for_mutation rest
        | Ok (Some parent) =>
            authenticate t is_epoch_change fuel ({[ to_authenticate ]} ∪ authenticated_for_mutation)
              (parent :: rest)
        end
  end.

(** The objects that are authenticated to begin with, and those that have to be. *)
Definition authenticated_roots t (sender : SuiAddress) (gas_objs mutable_inputs : gset Z) : outcome (gset Z) :=
  roots ← Inputs.filter_map_o (authenticated_root sender gas_objs) (btree_iter (input_objects t));
  Ret (list_to_set (filter (λ id, id ∈ mutable_inputs) roots)).
Definition objects_to_authenticate t (gas_objs : gset Z) : list ObjectID :=
  reverse (filter (λ id, id ∉ gas_objs) (btree_set_iter (modified t))).

Definition check_ownership_invariants t (fuel : nat) (sender : SuiAddress) (gas_charger : GasCharger)
    (mutable_inputs : gset Z) (is_epoch_change : bool) : outcome (result unit unit) :=
  let gas_objs : gset Z := list_to_set ((λ r : ObjectRef, r.1.1) <$> gas_coins gas_charger) in
  roots ← authenticated_roots t sender gas_objs mutable_inputs;
  authenticate t is_epoch_change fuel roots (objects_to_authenticate t gas_objs).

(** ** Storage charges *)

Fixpoint track_written (g : GasCharger) (l : list (Z * Object)) (old_storage_rebates : list Z) :
    outcome (list (Z * Object) * GasCharger) :=
  match l, old_storage_rebates with
  | (id, object) :: l, old :: olds =>
      r ← track_storage_mutation g (Obj.object_size_for_gas_metering object) old;
      k ← track_written r.2 l olds;
      Ret ((id, with_rebate object r.1) :: k.1, k.2)
  | l, _ => Ret (l, g)
  end.

Definition collect_rebate t (gas_charger : GasCharger) : outcome GasCharger :=
  fold_o (λ g id,
    if bool_decide (is_Some (written t !! id)) then Ret g
    else
      m ← get_object_modified_at t id;
      m ← unwrap m;
      r ← track_storage_mutation g 0 (md_storage_rebate m);
      Ret r.2) gas_charger (btree_set_iter (modified t)).

Definition set_written t (w : gmap Z Object) : TemporaryStore :=
  let r := execution_results t in
  with_results t (mkResults _ w (modified_objects r) (created_object_ids r) (deleted_object_ids r)
    (user_events r)).

Definition old_rebate t (id : ObjectID) : outcome Z :=
  m ← get_object_modified_at t id; Ret (default 0 (md_storage_rebate <$> m)).

Definition collect_storage_and_rebate t (gas_charger : GasCharger) : outcome (TemporaryStore * GasCharger) :=
  let objects := btree_iter (written t) in
  old_storage_rebates ← map_o (old_rebate t) objects.*1;
  r ← track_written gas_charger objects old_storage_rebates;
  let t := set_written t (collect r.1) in
  g ← collect_rebate t r.2;
  Ret (t, g).

Definition check_execution_results_consistency t : result ExecutionError unit :=
  if negb (forallb (λ id, negb (bool_decide (id ∈ deleted t)) && negb (bool_decide (id ∈ modified t)))
             (btree_set_iter (created t))) then Err InvariantViolation
  else if negb (forallb (λ id, bool_decide (is_Some (mutable_input_refs t !! id)) ||
                               bool_decide (is_Some (loaded_runtime_objects t !! id)) ||
                               is_system_package id) (btree_set_iter (modified t))) then Err InvariantViolation
  else Ok tt.

(** ** Conservation of SUI *)


Definition get_modified_objects t : outcome (list ModifiedObjectInfo) :=
  l ← map_o (λ id, m ← get_object_modified_at t id; Ret (id, m, written t !! id)) (btree_set_iter (modified t));
  Ret (l ++ omap (λ e, if bool_decide (e.1 ∈ modified t) then None else Some (e.1, None, Some e.2))
              (btree_iter (written t))).

Definition check_sui_conserved t (simple_conservation_checks : bool) (gas_summary : GasCostSummary) :
    outcome (result ExecutionError unit) :=
  if negb simple_conservation_checks then Ret (Ok tt)
  else
    l ← get_modified_objects t;
    let total_input_rebate :=
      foldl (λ n e, match e.1.2 with Some m => wadd n (md_storage_rebate m) | None => n end) 0 l in
    let total_output_rebate :=
      foldl (λ n e, match e.2 with Some o => wadd n (storage_rebate o) | None => n end) 0 l in
    if Summary.storage_cost gas_summary =? 0 then
      if total_input_rebate =? wadd (wadd total_output_rebate (Summary.storage_rebate gas_summary))
                                 (Summary.non_refundable_storage_fee gas_summary)
      then Ret (Ok tt) else Ret (Err InvariantViolation)
    else if negb (total_input_rebate =? wadd (Summary.storage_rebate gas_summary)
                                          (Summary.non_refundable_storage_fee gas_summary))
    then Ret (Err InvariantViolation)
    else if negb (Summary.storage_cost gas_summary =? total_output_rebate)
    then Ret (Err InvariantViolation)
    else Ret (Ok tt).

Definition get_input_sui t (id : ObjectID) (expected_version : SequenceNumber) :
    outcome (result ExecutionError Z) :=
  match input_objects t !! id with
  | Some obj =>
      if negb (Obj.version obj =? expected_version) then Ret (Err InvariantViolation)
      else r ← Obj.get_total_sui obj; Ret (match r with Some n => Ok n | None => Err InvariantViolation end)
  | None =>
      match get_object_by_key id expected_version with
      | Ok (Some obj) =>
          r ← Obj.get_total_sui obj; Ret (match r with Some n => Ok n | None => Err InvariantViolation end)
      | _ => Ret (Err InvariantViolation)
      end
  end.

(** The loop of [check_sui_conserved_expensive]. *)
Fixpoint total_sui t (l : list ModifiedObjectInfo) (acc : Z * Z) : outcome (result ExecutionError (Z * Z)) :=
  match l with
  | [] => Ret (Ok acc)
  | (id, input, output) :: l =>
      i ← match input with Some m => get_input_sui t id (md_version m) | None => Ret (Ok 0) end;
      match i with
      | Err e => Ret (Err e)
      | Ok i =>
          o ← match output with Some object => Obj.get_total_sui object | None => Ret (Some 0) end;
          match o with
          | None => Ret (Err InvariantViolation)
          | Some o => total_sui t l (wadd acc.1 i, wadd acc.2 o)
          end
      end
  end.

Definition check_sui_conserved_expensive t (gas_summary : GasCostSummary)
    (advance_epoch_gas_summary : option (Z * Z)) : outcome (result ExecutionError unit) :=
  l ← get_modified_objects t;
  r ← total_sui t l (0, 0);
  match r with
  | Err e => Ret (Err e)
  | Ok (total_input_sui, total_output_sui) =>
      let total_output_sui :=
        wadd total_output_sui (wadd (Summary.computation_cost gas_summary)
                                 (Summary.non_refundable_storage_fee gas_summary)) in
      let '(total_input_sui, total_output_sui) :=
        match advance_epoch_gas_summary with
        | Some (epoch_fees, epoch_rebates) =>
            (wadd total_input_sui epoch_fees, wadd total_output_sui epoch_rebates)
        | None => (total_input_sui, total_output_sui)
        end in
      Ret (if total_input_sui =? total_output_sui then Ok tt else Err InvariantViolation)
  end.
End temp.
End Temp.

(** * Properties *)

(** ** Sums over the written objects *)

Definition msum (f : Object → Z) (m : gmap Z Object) : Z := wsum (λ e, f e.2) (map_to_list m).

Section msum.
Implicit Types (f : Object → Z) (m : gmap Z Object).

Lemma msum_empty f : msum f ∅ = 0.
Proof. unfold msum. by rewrite map_to_list_empty. Qed.

Lemma msum_insert f m k o : m !! k = None → msum f (<[k := o]> m) = f o + msum f m.
Proof. intros Hk. unfold msum. by rewrite map_to_list_insert, wsum_cons. Qed.

Lemma msum_delete f m k o : m !! k = Some o → msum f m = f o + msum f (delete k m).
Proof. intros Hk. rewrite <- (insert_delete_id m k o Hk) at 1. by rewrite msum_insert by apply lookup_delete_eq. Qed.

Lemma msum_replace f m k o o' : m !! k = Some o → msum f (<[k := o']> m) = msum f m - f o + f o'.
Proof.
  intros Hk. rewrite (msum_delete f m k o) by done. rewrite <- insert_delete_eq.
  rewrite msum_insert by apply lookup_delete_eq. lia.
Qed.

Lemma msum_ext f f' m : (∀ k o, m !! k = Some o → f o = f' o) → msum f m = msum f' m.
Proof.
  intros Hf. apply wsum_ext. intros [k o] Hk. apply elem_of_map_to_list in Hk. by apply (Hf k).
Qed.

Lemma msum_fmap f (h : Object → Object) m : msum f (h <$> m) = msum (f ∘ h) m.
Proof. unfold msum. rewrite map_to_list_fmap. unfold wsum. f_equal. by rewrite <- list_fmap_compose. Qed.

Lemma msum_btree f m : wsum (λ e, f e.2) (btree_iter m) = msum f m.
Proof. unfold msum. by rewrite btree_iter_perm. Qed.

Lemma msum_nonneg f m : (∀ k o, m !! k = Some o → 0 <= f o) → 0 <= msum f m.
Proof.
  induction m as [|k o m Hk IH] using map_ind; intros Hf; [by rewrite msum_empty|].
  rewrite msum_insert by done. pose proof (Hf k o (lookup_insert_eq _ _ _)).
  assert (0 <= msum f m); [|lia]. apply IH. intros k' o' Hk'. apply (Hf k'). rewrite lookup_insert_ne; congruence.
Qed.

Lemma msum_dom (w : Z → Z) f m : (∀ k o, m !! k = Some o → f o = w k) → msum f m = wset w (dom m).
Proof.
  induction m as [|k o m Hk IH] using map_ind; intros Hf.
  { by rewrite msum_empty, dom_empty_L, wset_empty. }
  rewrite msum_insert, dom_insert_L, wset_insert by (done || by apply not_elem_of_dom).
  rewrite (Hf k o (lookup_insert_eq _ _ _)), IH; [done|].
  intros k' o' Hk'. apply Hf. rewrite lookup_insert_ne; congruence.
Qed.

Lemma msum_union f m1 m2 : m1 ##ₘ m2 → msum f (m1 ∪ m2) = msum f m1 + msum f m2.
Proof.
  induction m1 as [|k o m1 Hk IH] using map_ind; intros Hd.
  { by rewrite map_empty_union, msum_empty. }
  apply map_disjoint_insert_l in Hd as [Hk2 Hd]. rewrite <- insert_union_l.
  rewrite !msum_insert by (done || by apply lookup_union_None). rewrite IH by done. lia.
Qed.

Lemma msum_plus f f' m : msum (λ o, f o + f' o) m = msum f m + msum f' m.
Proof.
  induction m as [|k o m Hk IH] using map_ind; [by rewrite !msum_empty|].
  rewrite !msum_insert by done. lia.
Qed.
End msum.

(** ** Loops *)

Lemma map_o_ok {A B} (f : A → outcome B) (h : A → B) l :
  (∀ a, a ∈ l → f a = Ret (h a)) → Temp.map_o f l = Ret (h <$> l).
Proof.
  induction l as [|a l IH]; intros Hf; simpl; [done|]. rewrite Hf by left. cbn [mbind outcome_bind].
  rewrite IH; [done|]. intros b Hb. apply Hf. by right.
Qed.

Lemma fold_o_ok {A S} (f : S → A → outcome S) (h : S → A → S) (P : S → Prop) s l :
  P s → (∀ s a, P s → a ∈ l → f s a = Ret (h s a) ∧ P (h s a)) →
  Temp.fold_o f s l = Ret (foldl h s l) ∧ P (foldl h s l).
Proof.
  revert s. induction l as [|a l IH]; intros s Hs Hf; simpl; [done|].
  destruct (Hf s a Hs ltac:(left)) as [-> Ha]. cbn [mbind outcome_bind]. apply IH; [done|].
  intros s' b Hs' Hb. apply Hf; [done|by right].
Qed.

Section store.
Context `{!ObjectEnv} `{!BackingStore}.
Implicit Types (t : TemporaryStore) (g : GasCharger).

(** ** The state before the transaction *)

(** What [get_object_modified_at] returns for an object that is modified. *)
Definition meta_of t (id : ObjectID) : option DynamicallyLoadedObjectMetadata :=
  match mutable_input_refs t !! id with
  | Some ((version, digest), owner) =>
      (λ obj, mkMetadata version digest owner (storage_rebate obj) (previous_transaction obj)) <$>
        (input_objects t !! id)
  | None =>
      match loaded_runtime_objects t !! id with
      | Some m => Some m
      | None =>
          match get_package_object id with
          | Ok (Some obj) => Some (mkMetadata (Obj.version obj) (digest obj) (owner obj) (storage_rebate obj)
                                     (previous_transaction obj))
          | _ => None
          end
      end
  end.

(** The storage rebate that [id] had before the transaction. *)
Definition rebate_in t (id : ObjectID) : Z := default 0 (md_storage_rebate <$> meta_of t id).

Lemma modified_at_ok t id m :
  id ∈ modified t → meta_of t id = Some m → Temp.get_object_modified_at t id = Ret (Some m).
Proof.
  intros Hid Hm. unfold Temp.get_object_modified_at, meta_of in *. rewrite bool_decide_true by done.
  destruct (mutable_input_refs t !! id) as [[[v d] ow]|].
  - destruct (input_objects t !! id) as [obj|]; by simplify_eq/=.
  - destruct (loaded_runtime_objects t !! id); [by simplify_eq/=|].
    destruct (get_package_object id) as [[obj|]|]; by simplify_eq/=.
Qed.

Lemma modified_at_none t id : id ∉ modified t → Temp.get_object_modified_at t id = Ret None.
Proof. intros Hid. unfold Temp.get_object_modified_at. by rewrite bool_decide_false. Qed.

(** Nothing that the charging of gas does changes these. *)
Definition same_base t t' : Prop :=
  input_objects t' = input_objects t ∧ mutable_input_refs t' = mutable_input_refs t ∧
  loaded_runtime_objects t' = loaded_runtime_objects t ∧
  wrapped_object_containers t' = wrapped_object_containers t ∧
  lamport_timestamp t' = lamport_timestamp t ∧ tx_digest t' = tx_digest t ∧
  receiving_objects t' = receiving_objects t.

#[export] Instance same_base_equiv : Equivalence same_base.
Proof.
  split; unfold same_base; [by intros|intros ?? (?&?&?&?&?&?&?); split_and!; congruence|].
  intros ??? (?&?&?&?&?&?&?) (?&?&?&?&?&?&?); split_and!; congruence.
Qed.

Lemma same_base_results t r : same_base t (Temp.with_results t r).
Proof. done. Qed.

Lemma meta_of_base t t' id : same_base t t' → meta_of t' id = meta_of t id.
Proof. intros (Hi & Hm & Hl & _). unfold meta_of. by rewrite Hi, Hm, Hl. Qed.

#[export] Instance rebate_in_proper : Proper (same_base ==> eq ==> eq) rebate_in.
Proof. intros t t' Ht id _ <-. unfold rebate_in. by rewrite (meta_of_base t t' id). Qed.

(** ** Well-formed stores *)

Record store_ok t : Prop := {
  so_inputs : ∀ id o, input_objects t !! id = Some o → Obj.id o = Ret id ∧ 0 <= storage_rebate o;
  so_mutable : ∀ id, id ∈ dom (mutable_input_refs t) → is_Some (input_objects t !! id);
  so_written : ∀ id o, written t !! id = Some o → Obj.id o = Ret id;
  so_written_mutable : ∀ id, id ∈ dom (mutable_input_refs t) → id ∈ dom (written t) → id ∈ modified t;
  so_modified : ∀ id, id ∈ modified t → is_Some (meta_of t id);
  so_rebates : ∀ id m, meta_of t id = Some m → 0 <= md_storage_rebate m;
}.

Lemma rebate_in_nonneg t id : store_ok t → 0 <= rebate_in t id.
Proof. intros []. unfold rebate_in. destruct (meta_of t id) as [m|] eqn:Hm; simpl; [by eapply so_rebates0|done]. Qed.

Lemma meta_of_mutable t id :
  store_ok t → id ∈ dom (mutable_input_refs t) →
  ∃ o m, input_objects t !! id = Some o ∧ meta_of t id = Some m ∧ rebate_in t id = storage_rebate o.
Proof.
  intros [] Hid. destruct (so_mutable0 id Hid) as [o Ho]. apply elem_of_dom in Hid as [[[v d] ow] Hm].
  assert (meta_of t id = Some (mkMetadata v d ow (storage_rebate o) (previous_transaction o))) as Hmeta
    by (unfold meta_of; by rewrite Hm, Ho).
  exists o. eexists. split_and!; [done..|]. unfold rebate_in. by rewrite Hmeta.
Qed.

(** A change of the results that keeps well-formedness. *)
Lemma store_ok_results t r :
  store_ok t →
  (∀ id o, written_objects r !! id = Some o → Obj.id o = Ret id) →
  (∀ id, id ∈ dom (mutable_input_refs t) → id ∈ dom (written_objects r) → id ∈ modified_objects r) →
  (∀ id, id ∈ modified_objects r → is_Some (meta_of t id)) →
  store_ok (Temp.with_results t r).
Proof. intros [] ???. by split. Qed.

(** ** [mutate_input_object] and [ensure_active_inputs_mutated] *)

Lemma mutate_input_ok t o id :
  Obj.id o = Ret id → Temp.mutate_input_object t o = Ret (Temp.insert_written t id o).
Proof. intros Hid. unfold Temp.mutate_input_object. by rewrite Hid. Qed.

Lemma insert_written_ok t o id :
  store_ok t → Obj.id o = Ret id → id ∈ dom (mutable_input_refs t) → store_ok (Temp.insert_written t id o).
Proof.
  intros Ht Hid Hm. destruct (meta_of_mutable t id Ht Hm) as (o0 & m & _ & Hmeta & _). destruct Ht.
  apply store_ok_results; [by split|..]; simpl.
  - intros id' o'. destruct (decide (id' = id)) as [->|Hne]; [rewrite lookup_insert_eq; congruence|].
    rewrite lookup_insert_ne by done. apply so_written0.
  - intros id' Hid'. rewrite dom_insert_L. set_solver.
  - intros id' [->%elem_of_singleton|Hid']%elem_of_union; [by eexists|by apply so_modified0].
Qed.

(** The input objects with an identifier in [s]. *)
Definition inputs_at t (s : gset Z) : gmap Z Object := filter (λ e, e.1 ∈ s) (input_objects t).

Lemma inputs_at_lookup t s id : id ∈ s → inputs_at t s !! id = input_objects t !! id.
Proof.
  intros Hid. unfold inputs_at. destruct (input_objects t !! id) as [o|] eqn:Ho.
  - by apply map_lookup_filter_Some.
  - apply map_lookup_filter_None. by left.
Qed.

Lemma inputs_at_None t s id : id ∉ s → inputs_at t s !! id = None.
Proof. intros Hid. apply map_lookup_filter_None. right. by intros o _ ?. Qed.

(** The store with the inputs of [s] written back as they are. *)
Definition write_inputs t (s : gset Z) : TemporaryStore :=
  Temp.with_results t (mkResults _ (inputs_at t s ∪ written t) (modified t ∪ s) (created t) (deleted t)
    (user_events (execution_results t))).

Lemma write_inputs_insert t id o s :
  input_objects t !! id = Some o →
  write_inputs (Temp.insert_written t id o) s = write_inputs t ({[ id ]} ∪ s).
Proof.
  intros Ho. unfold write_inputs, Temp.insert_written, Temp.with_results. simpl. do 2 f_equal; [|set_solver].
  apply map_eq. intros k. change (inputs_at (mkStore _ _ _ _ _ _ _ _ _) s) with (inputs_at t s).
  rewrite !lookup_union. destruct (decide (k ∈ s)) as [Hk|Hk].
  - rewrite !inputs_at_lookup by set_solver. destruct (decide (k = id)) as [->|Hne].
    + rewrite Ho, lookup_insert_eq. by destruct (written t !! id).
    + by rewrite lookup_insert_ne.
  - rewrite (inputs_at_None t s) by done. destruct (decide (k = id)) as [->|Hne].
    + rewrite inputs_at_lookup, Ho, lookup_insert_eq by set_solver. by destruct (written t !! id).
    + by rewrite inputs_at_None, lookup_insert_ne by set_solver.
Qed.

Lemma write_inputs_empty t : write_inputs t ∅ = t.
Proof.
  unfold write_inputs, Temp.with_results. destruct t as [a b c d [w m cr de ev] e f h]. simpl. do 2 f_equal; [|set_solver].
  apply map_eq. intros k. by rewrite lookup_union, inputs_at_None, (left_id_L None _) by set_solver.
Qed.

Lemma mutate_inputs_ok t ids d :
  (∀ id, id ∈ ids → ∃ o, input_objects t !! id = Some o ∧ Obj.id o = Ret id) →
  Temp.fold_o Temp.mutate_input_object t ((λ id, default d (input_objects t !! id)) <$> ids) =
    Ret (write_inputs t (list_to_set ids)).
Proof.
  revert t. induction ids as [|id ids IH]; intros t Hids; [by rewrite write_inputs_empty|].
  destruct (Hids id ltac:(left)) as (o & Ho & Hid). cbn [fmap list_fmap Temp.fold_o].
  rewrite Ho. cbn [default from_option]. rewrite (mutate_input_ok _ _ _ Hid). cbn [mbind outcome_bind].
  change (input_objects t) with (input_objects (Temp.insert_written t id o)).
  rewrite IH; [|intros id' Hid'; apply Hids; by right].
  by rewrite (write_inputs_insert t id o _ Ho).
Qed.

(** The inputs that [ensure_active_inputs_mutated] writes back. *)
Definition untouched t : gset Z := dom (mutable_input_refs t) ∖ modified t.

Lemma ensure_active_spec t :
  store_ok t → Temp.ensure_active_inputs_mutated t = Ret (write_inputs t (untouched t)).
Proof.
  intros Ht. unfold Temp.ensure_active_inputs_mutated.
  set (ids := filter _ _). set (d := mkObject (Move (mkMoveObject GasCoin true 0 [])) Immutable 0 0).
  assert (∀ id, id ∈ ids ↔ id ∈ untouched t) as Hids.
  { intros id. subst ids. unfold untouched. rewrite list_elem_of_filter, elem_of_difference, elem_of_dom. unfold is_Some.
    split.
    - intros [Hm Hid]. split; [|done]. apply list_elem_of_fmap in Hid as ([k v] & -> & Hk).
      apply elem_of_btree_iter in Hk. eauto.
    - intros [[v Hv] Hm]. split; [done|]. apply list_elem_of_fmap. exists (id, v). split; [done|].
      by apply elem_of_btree_iter. }
  assert (∀ id, id ∈ ids → ∃ o, input_objects t !! id = Some o ∧ Obj.id o = Ret id) as Hin.
  { intros id Hid%Hids. apply elem_of_difference in Hid as [Hid _].
    destruct (so_mutable t Ht id Hid) as [o Ho]. exists o. split; [done|]. by apply (so_inputs t Ht). }
  rewrite (map_o_ok _ (λ id, default d (input_objects t !! id))).
  2: { intros id Hid. destruct (Hin id Hid) as (o & -> & _). done. }
  cbn [mbind outcome_bind]. rewrite mutate_inputs_ok by done. do 2 f_equal.
  apply set_eq. intros id. by rewrite elem_of_list_to_set, Hids.
Qed.

Lemma write_inputs_ok t s : store_ok t → s ⊆ dom (mutable_input_refs t) → store_ok (write_inputs t s).
Proof.
  intros Ht Hs. pose proof Ht as []. apply store_ok_results; [done|..]; simpl.
  - intros id o. rewrite lookup_union_Some_raw. intros [Ho|[_ Ho]]; [|by apply so_written0].
    apply map_lookup_filter_Some in Ho as [Ho _]. by apply so_inputs0.
  - intros id Hid. rewrite dom_union_L. intros [Hw|Hw]%elem_of_union; [|apply elem_of_union; left; auto].
    apply elem_of_union. right. apply elem_of_dom in Hw as [o Ho]. by apply map_lookup_filter_Some in Ho as [_ ?].
  - intros id [Hid|Hid]%elem_of_union; [by apply so_modified0|].
    destruct (meta_of_mutable t id Ht) as (o & m & _ & Hm & _); [by apply Hs|]. by eexists.
Qed.
End store.

(** ** Storage charges *)

Section storage.
Context `{!ObjectEnv} `{!ObjectEnvLaws} `{!BackingStore}.
Implicit Types (t : TemporaryStore) (g : GasCharger).

(** The price of keeping an object. *)
Definition object_cost g (o : Object) : Z :=
  Obj.object_size_for_gas_metering o * storage_per_byte_cost (V2.cost_table (charger_status g)) *
    V2.storage_gas_price (charger_status g).

(** The charger with [cost] and [rebate] added to its totals. *)
Definition add_storage g (cost rebate : Z) : GasCharger :=
  let s := charger_status g in
  with_status g (V2.with_storage s (V2.storage_cost s + cost) (V2.storage_rebate s + rebate)
    (V2.unmetered_storage_rebate s)).

(** A metered status with prices that make sense. *)
Record metered g : Prop := {
  me_charge : V2.charge (charger_status g) = true;
  me_per_byte : 0 <= storage_per_byte_cost (V2.cost_table (charger_status g));
  me_price : 0 < V2.storage_gas_price (charger_status g);
  me_cost : 0 <= V2.storage_cost (charger_status g);
  me_rebate : 0 <= V2.storage_rebate (charger_status g);
}.

Lemma object_size_nonneg o : 0 <= Obj.object_size_for_gas_metering o.
Proof.
  unfold Obj.object_size_for_gas_metering, move_object_size, Pkg.object_size_for_gas_metering, Pkg.size, ID_LENGTH.
  pose proof owner_size_nonneg. destruct (data o) as [m|p].
  - pose proof (type_size_nonneg (type_ m)). lia.
  - assert (∀ A (f : A → Z) (l : list A), (∀ x, 0 <= f x) → 0 <= wsum f l) as Hw
      by (intros A f l Hf; by apply wsum_nonneg).
    pose proof (Hw _ (λ e : string * list Z, Z.of_nat (String.length e.1 + length e.2)) (map_to_list (module_map p)) ltac:(intros; cbv beta; lia)).
    pose proof (Hw _ (λ t : TypeOrigin, Z.of_nat (String.length (module_name t) + String.length (struct_name t)) + 32)
      (type_origin_table p) ltac:(intros; cbv beta; lia)). lia.
Qed.

Lemma object_cost_nonneg g o : metered g → 0 <= object_cost g o.
Proof. intros []. pose proof (object_size_nonneg o). unfold object_cost. nia. Qed.

Lemma add_storage_metered g c r : metered g → 0 <= c → 0 <= r → metered (add_storage g c r).
Proof. intros [] ??. split; simpl; try done; lia. Qed.

Lemma add_storage_add g c r c' r' : add_storage (add_storage g c r) c' r' = add_storage g (c + c') (r + r').
Proof. unfold add_storage, V2.with_storage, with_status. simpl. by rewrite !Z.add_assoc. Qed.

Lemma add_storage_0 g : add_storage g 0 0 = g.
Proof. destruct g as [a b c d []]. unfold add_storage, V2.with_storage, with_status. simpl. by rewrite !Z.add_0_r. Qed.

Lemma track_ok g size old :
  metered g → 0 <= size → 0 <= old →
  V2.storage_rebate (charger_status g) + old < U64_MOD →
  let cost := size * storage_per_byte_cost (V2.cost_table (charger_status g)) *
                V2.storage_gas_price (charger_status g) in
  V2.storage_cost (charger_status g) + cost < U64_MOD →
  track_storage_mutation g size old = Ret (cost, add_storage g cost old).
Proof.
  intros [] Hsz Hold Hr cost Hc. unfold track_storage_mutation, V2.track_storage_mutation, V2.is_unmetered.
  rewrite me_charge0. cbn [negb mbind outcome_bind].
  rewrite cadd_fits by done. cbn [mbind outcome_bind].
  rewrite (cmul_fits size) by (subst cost; nia). cbn [mbind outcome_bind].
  rewrite cmul_fits by (subst cost; lia). cbn [mbind outcome_bind].
  rewrite cadd_fits by done. done.
Qed.

Lemma track_written_ok g l (h : Z → Z) :
  metered g → (∀ id, 0 <= h id) →
  V2.storage_cost (charger_status g) + wsum (λ e, object_cost g e.2) l < U64_MOD →
  V2.storage_rebate (charger_status g) + wsum h l.*1 < U64_MOD →
  Temp.track_written g l (h <$> l.*1) =
    Ret ((λ e, (e.1, with_rebate e.2 (object_cost g e.2))) <$> l,
         add_storage g (wsum (λ e, object_cost g e.2) l) (wsum h l.*1)).
Proof.
  revert g. induction l as [|[id o] l IH]; intros g Hg Hh Hc Hr.
  { cbn. by rewrite add_storage_0. }
  cbn [fmap list_fmap fst] in *. rewrite wsum_cons in Hc |- *. rewrite wsum_cons in Hr |- *. cbn [fst snd] in Hc.
  pose proof (object_cost_nonneg g o Hg) as Ho. pose proof (Hh id) as Hid.
  assert (0 <= wsum (λ e, object_cost g e.2) l) by (apply wsum_nonneg; intros; by apply object_cost_nonneg).
  assert (0 <= wsum h l.*1) by (by apply wsum_nonneg).
  cbn [Temp.track_written]. rewrite track_ok; [|done|apply object_size_nonneg|done|lia|fold (object_cost g o); lia].
  cbn [mbind outcome_bind fst snd]. fold (object_cost g o).
  rewrite IH; [|by apply add_storage_metered|done| |cbn; lia].
  2: { change (V2.storage_cost (charger_status g) + object_cost g o + wsum (λ e, object_cost g e.2) l < U64_MOD). lia. }
  cbn [mbind outcome_bind fst snd]. by rewrite add_storage_add.
Qed.

Lemma collect_fmap (f : Object → Object) (m : gmap Z Object) :
  collect ((λ e, (e.1, f e.2)) <$> btree_iter m) = f <$> m.
Proof.
  apply map_eq. intros k. apply option_eq. intros o.
  assert (((λ e : Z * Object, (e.1, f e.2)) <$> btree_iter m).*1 = (btree_iter m).*1) as Hk
    by (rewrite <- list_fmap_compose; by apply list_fmap_ext).
  rewrite collect_lookup by (rewrite Hk; apply NoDup_btree_keys). rewrite list_elem_of_fmap, lookup_fmap, fmap_Some.
  split.
  - intros ([k' o'] & Heq & Hin). simplify_eq/=. apply elem_of_btree_iter in Hin. eauto.
  - intros (o' & Ho' & ->). exists (k, o'). split; [done|]. by apply elem_of_btree_iter.
Qed.

Lemma collect_rebate_ok t g :
  store_ok t → metered g → V2.storage_cost (charger_status g) < U64_MOD →
  V2.storage_rebate (charger_status g) + wset (rebate_in t) (modified t ∖ dom (written t)) < U64_MOD →
  Temp.collect_rebate t g = Ret (add_storage g 0 (wset (rebate_in t) (modified t ∖ dom (written t)))).
Proof.
  intros Ht Hg Hc Hr. unfold Temp.collect_rebate.
  assert (wset (rebate_in t) (modified t ∖ dom (written t)) =
    wsum (rebate_in t) (filter (λ id, id ∉ dom (written t)) (btree_set_iter (modified t)))) as Heq.
  { unfold wset. apply wsum_perm, NoDup_Permutation; [apply NoDup_elements| |].
    - apply NoDup_filter. unfold btree_set_iter. rewrite merge_sort_Permutation. apply NoDup_elements.
    - intros id. rewrite elem_of_elements, elem_of_difference, list_elem_of_filter, elem_of_btree_set_iter. tauto. }
  rewrite Heq in Hr |- *. clear Heq. assert (∀ id, id ∈ btree_set_iter (modified t) → id ∈ modified t) as Hin
    by (intros id; by rewrite elem_of_btree_set_iter).
  revert g Hg Hc Hr Hin. generalize (btree_set_iter (modified t)) as ids.
  induction ids as [|id ids IH]; intros g Hg Hc Hr Hin; [by rewrite add_storage_0|].
  cbn [Temp.fold_o]. pose proof (rebate_in_nonneg t id Ht) as Hid.
  rewrite filter_cons in Hr |- *. destruct (decide (id ∉ dom (written t))) as [Hw|Hw]; rewrite elem_of_dom in Hw.
  - rewrite bool_decide_false by done. destruct (so_modified t Ht id (Hin id ltac:(left))) as [m Hm].
    rewrite (modified_at_ok t id m) by (done || apply Hin; left). cbn [mbind outcome_bind unwrap].
    assert (rebate_in t id = md_storage_rebate m) as Hrm by (unfold rebate_in; by rewrite Hm).
    rewrite wsum_cons in Hr |- *. assert (0 <= wsum (rebate_in t) (filter (λ id, id ∉ dom (written t)) ids))
      by (apply wsum_nonneg; intros; by apply rebate_in_nonneg).
    rewrite track_ok by (done || lia). cbn [mbind outcome_bind snd]. rewrite !Z.mul_0_l.
    rewrite IH; [|apply add_storage_metered; [done|lia..]|cbn; lia|cbn; lia|intros; apply Hin; by right].
    rewrite add_storage_add, Hrm. done.
  - rewrite bool_decide_true by (by apply dec_stable). cbn [mbind outcome_bind].
    apply IH; [done..|intros; apply Hin; by right].
Qed.

(** The store with the rebates of the written objects set to their cost. *)
Definition with_costs g t : TemporaryStore :=
  Temp.set_written t ((λ o, with_rebate o (object_cost g o)) <$> written t).

Lemma with_costs_ok g t : store_ok t → store_ok (with_costs g t).
Proof.
  intros Ht. pose proof Ht as []. apply store_ok_results; [done|..]; cbn [written_objects modified_objects].
  - intros id o Ho. apply lookup_fmap_Some in Ho as (o' & <- & Ho). by apply so_written0 in Ho.
  - intros id. rewrite dom_fmap_L. apply so_written_mutable0.
  - apply so_modified0.
Qed.

Lemma wset_zero (s : gset Z) : wset (λ _, 0) s = 0.
Proof. unfold wset, wsum. induction (elements s) as [|x l IH]; [done|exact IH]. Qed.

(** What the written objects carried before: nothing, for those that are new. *)
Definition written_rebate t (id : ObjectID) : Z := if bool_decide (id ∈ modified t) then rebate_in t id else 0.

Lemma written_rebate_nonneg t id : store_ok t → 0 <= written_rebate t id.
Proof. intros Ht. unfold written_rebate. case_bool_decide; [by apply rebate_in_nonneg|done]. Qed.

Lemma written_rebate_ok t id : store_ok t → Temp.old_rebate t id = Ret (written_rebate t id).
Proof.
  intros Ht. unfold Temp.old_rebate, written_rebate. case_bool_decide as Hid.
  - destruct (so_modified t Ht id Hid) as [m Hm]. rewrite (modified_at_ok t id m) by done.
    unfold rebate_in. by rewrite Hm.
  - by rewrite modified_at_none.
Qed.

Lemma written_rebates t :
  wsum (written_rebate t) (btree_iter (written t)).*1 = wset (rebate_in t) (modified t ∩ dom (written t)).
Proof.
  assert ((btree_iter (written t)).*1 ≡ₚ elements (dom (written t))) as ->.
  { apply NoDup_Permutation; [apply NoDup_btree_keys|apply NoDup_elements|]. intros id.
    rewrite elem_of_elements, elem_of_dom, list_elem_of_fmap. split.
    - intros ([k o] & -> & Hk%elem_of_btree_iter). by eexists.
    - intros [o Ho]. exists (id, o). split; [done|]. by apply elem_of_btree_iter. }
  fold (wset (written_rebate t) (dom (written t))). unfold written_rebate.
  rewrite (wset_difference _ (dom (written t)) (modified t ∩ dom (written t))) by set_solver.
  rewrite (wset_ext _ (rebate_in t) (modified t ∩ dom (written t))).
  2: { intros id Hid. simpl. rewrite bool_decide_true; [done|set_solver]. }
  rewrite (wset_ext _ (λ _, 0) (dom (written t) ∖ (modified t ∩ dom (written t)))).
  2: { intros id Hid. simpl. rewrite bool_decide_false; [done|set_solver]. }
  rewrite wset_zero. lia.
Qed.

(** The two loops together: every written object now carries its cost as rebate, the
    total cost is the sum of these, and the total rebate is what the modified objects carried. *)
Lemma collect_storage_ok t g :
  store_ok t → metered g →
  V2.storage_cost (charger_status g) + msum (object_cost g) (written t) < U64_MOD →
  V2.storage_rebate (charger_status g) + wset (rebate_in t) (modified t) < U64_MOD →
  Temp.collect_storage_and_rebate t g =
    Ret (with_costs g t, add_storage g (msum (object_cost g) (written t)) (wset (rebate_in t) (modified t))).
Proof.
  intros Ht Hg Hc Hr. unfold Temp.collect_storage_and_rebate.
  rewrite (map_o_ok _ (written_rebate t)) by (intros; by apply written_rebate_ok).
  assert (∀ id, 0 <= rebate_in t id) as Hri by (intros; by apply rebate_in_nonneg).
  pose proof (wset_difference (rebate_in t) (modified t) (modified t ∩ dom (written t)) ltac:(set_solver)) as Hsplit.
  assert (modified t ∖ (modified t ∩ dom (written t)) = modified t ∖ dom (written t)) as Hset by set_solver.
  rewrite Hset in Hsplit. clear Hset.
  assert (0 <= wset (rebate_in t) (modified t ∖ dom (written t))) by (by apply wset_nonneg).
  cbn [mbind outcome_bind]. rewrite track_written_ok; [|done|intros; by apply written_rebate_nonneg|by rewrite (msum_btree (object_cost g))|rewrite written_rebates; lia].
  cbn [mbind outcome_bind fst snd]. rewrite (collect_fmap (λ o, with_rebate o (object_cost g o))).
  rewrite (msum_btree (object_cost g)), written_rebates. fold (with_costs g t).
  assert (0 <= msum (object_cost g) (written t)) by (apply msum_nonneg; intros; by apply object_cost_nonneg).
  assert (0 <= wset (rebate_in t) (modified t ∩ dom (written t))) by (by apply wset_nonneg).
  assert (dom (written (with_costs g t)) = dom (written t)) as Hdom by apply dom_fmap_L.
  rewrite collect_rebate_ok; [|by apply with_costs_ok|by apply add_storage_metered|cbn; lia|].
  - rewrite Hdom. change (modified (with_costs g t)) with (modified t).
    change (rebate_in (with_costs g t)) with (rebate_in t). cbn [mbind outcome_bind].
    by rewrite add_storage_add, Hsplit, Z.add_0_r.
  - rewrite Hdom. change (modified (with_costs g t)) with (modified t).
    change (rebate_in (with_costs g t)) with (rebate_in t). cbn. lia.
Qed.
End storage.

(** ** The conservation checks *)

Lemma foldl_wadd_opt {A B} (f : A → option B) (h : B → Z) l a :
  0 <= a < U64_MOD →
  foldl (λ n e, match f e with Some m => wadd n (h m) | None => n end) a l =
    (a + wsum (λ e, default 0 (h <$> f e)) l) mod U64_MOD.
Proof.
  revert a. induction l as [|e l IH]; intros a Ha; cbn [foldl].
  { rewrite wsum_nil, Z.add_0_r. by rewrite Z.mod_small. }
  rewrite wsum_cons. destruct (f e) as [b|].
  - change (default 0 (h <$> Some b)) with (h b). rewrite IH by (by apply Z.mod_pos_bound). unfold wadd. rewrite Z.add_mod_idemp_l by done. f_equal. lia.
  - change (default 0 (h <$> None)) with 0. by rewrite IH, Z.add_0_l.
Qed.

Lemma wsum_btree_dom (F : Z → Object → Z) (m : gmap Z Object) :
  wsum (λ e, F e.1 e.2) (btree_iter m) = wset (λ id, default 0 (F id <$> m !! id)) (dom m).
Proof.
  rewrite btree_iter_perm. induction m as [|k o m Hk IH] using map_ind.
  { by rewrite map_to_list_empty, dom_empty_L, wset_empty. }
  rewrite map_to_list_insert, wsum_cons, dom_insert_L, wset_insert by (done || by apply not_elem_of_dom).
  rewrite lookup_insert_eq. change (default 0 (F k <$> Some o)) with (F k o). cbn [fst snd]. f_equal. rewrite IH.
  apply wset_ext. intros id Hid. rewrite lookup_insert_ne; [done|]. intros ->. by apply elem_of_dom in Hid as [? ?]; congruence.
Qed.

Section conservation.
Context `{!ObjectEnv} `{!BackingStore}.
Implicit Types t : TemporaryStore.

(** What [get_modified_objects] lists. *)
Definition modified_list t : list ModifiedObjectInfo :=
  ((λ id, (id, meta_of t id, written t !! id)) <$> btree_set_iter (modified t)) ++
  omap (λ e, if bool_decide (e.1 ∈ modified t) then None else Some (e.1, None, Some e.2)) (btree_iter (written t)).

Lemma get_modified_ok t : store_ok t → Temp.get_modified_objects t = Ret (modified_list t).
Proof.
  intros Ht. unfold Temp.get_modified_objects.
  rewrite (map_o_ok _ (λ id, (id, meta_of t id, written t !! id))); [done|].
  intros id Hid%elem_of_btree_set_iter. destruct (so_modified t Ht id Hid) as [m Hm].
  by rewrite (modified_at_ok t id m), Hm.
Qed.

Lemma wsum_btree_set (w : Z → Z) s : wsum w (btree_set_iter s) = wset w s.
Proof. unfold wset, btree_set_iter. by rewrite merge_sort_Permutation. Qed.

Lemma modified_list_input t (u : Z → DynamicallyLoadedObjectMetadata → Z) :
  wsum (λ e, default 0 (u e.1.1 <$> e.1.2)) (modified_list t) =
    wset (λ id, default 0 (u id <$> meta_of t id)) (modified t).
Proof.
  unfold modified_list. rewrite wsum_app. unfold wsum at 1. rewrite <- list_fmap_compose.
  fold (wsum ((λ e, default 0 (u e.1.1 <$> e.1.2)) ∘ (λ id, (id, meta_of t id, written t !! id))) (btree_set_iter (modified t))).
  rewrite wsum_btree_set. cbn [compose fst snd].
  assert (∀ l, wsum (λ e : ModifiedObjectInfo, default 0 (u e.1.1 <$> e.1.2))
    (omap (λ e : Z * Object, if bool_decide (e.1 ∈ modified t) then None else Some (e.1, None, Some e.2)) l) = 0) as ->; [|by rewrite Z.add_0_r].
  induction l as [|[id o] l IH]; [done|]. csimpl. case_bool_decide; [done|]. by rewrite wsum_cons.
Qed.

Lemma modified_list_output t (v : Object → Z) :
  wsum (λ e, default 0 (v <$> e.2)) (modified_list t) = msum v (written t).
Proof.
  unfold modified_list. rewrite wsum_app. unfold wsum at 1. rewrite <- list_fmap_compose.
  fold (wsum ((λ e, default 0 (v <$> e.2)) ∘ (λ id, (id, meta_of t id, written t !! id))) (btree_set_iter (modified t))).
  rewrite wsum_btree_set. cbn [compose fst snd]. set (w := λ id, default 0 (v <$> written t !! id)).
  assert (∀ l, wsum (λ e : ModifiedObjectInfo, default 0 (v <$> e.2))
    (omap (λ e : Z * Object, if bool_decide (e.1 ∈ modified t) then None else Some (e.1, None, Some e.2)) l) =
    wsum (λ e, if bool_decide (e.1 ∈ modified t) then 0 else v e.2) l) as ->.
  { induction l as [|[id o] l IH]; [done|]. csimpl. rewrite wsum_cons. cbn [fst snd].
    case_bool_decide; [by rewrite IH|]. by rewrite wsum_cons, IH. }
  set (F := λ id o, if bool_decide (id ∈ modified t) then 0 else v o).
  etrans; [apply (f_equal (Z.add _)), (wsum_btree_dom F)|]. subst F. cbv beta.
  rewrite (msum_dom w) by (intros k o Hk; unfold w; by rewrite Hk).
  match goal with |- ?a + _ = _ => change a with (wset w (modified t)) end.
  rewrite (wset_difference w (modified t) (modified t ∩ dom (written t))) by set_solver.
  rewrite (wset_ext w (λ _, 0) (modified t ∖ (modified t ∩ dom (written t)))).
  2: { intros id Hid. unfold w. assert (id ∉ dom (written t)) as ->%not_elem_of_dom by set_solver. done. }
  rewrite (wset_difference _ (dom (written t)) (modified t ∩ dom (written t))) by set_solver.
  rewrite (wset_difference w (dom (written t)) (modified t ∩ dom (written t))) by set_solver.
  rewrite (wset_ext (λ id, default 0 _) (λ _, 0) (modified t ∩ dom (written t))).
  2: { intros id Hid. rewrite bool_decide_true by set_solver. by destruct (written t !! id). }
  rewrite (wset_ext (λ id, default 0 _) w (dom (written t) ∖ _)).
  2: { intros id Hid. rewrite bool_decide_false by set_solver. done. }
  rewrite !wset_zero. lia.
Qed.

(** When the simple check accepts. *)
Lemma check_sui_conserved_ok t (s : GasCostSummary) :
  store_ok t →
  let i := wset (rebate_in t) (modified t) in
  let o := msum storage_rebate (written t) in
  (Summary.storage_cost s = o ∧ is_u64 o ∧ i = Summary.storage_rebate s + Summary.non_refundable_storage_fee s ∨
   Summary.storage_cost s = 0 ∧ i = o + Summary.storage_rebate s + Summary.non_refundable_storage_fee s) →
  Temp.check_sui_conserved t true s = Ret (Ok tt).
Proof.
  intros Ht i o Hs. unfold Temp.check_sui_conserved. cbn [negb]. rewrite get_modified_ok by done.
  cbn [mbind outcome_bind]. rewrite (foldl_wadd_opt (λ e : ModifiedObjectInfo, e.1.2) md_storage_rebate) by done.
  rewrite (foldl_wadd_opt (λ e : ModifiedObjectInfo, e.2) storage_rebate) by done. rewrite !Z.add_0_l.
  rewrite (modified_list_input t (λ _, md_storage_rebate)), modified_list_output.
  change (wset _ (modified t)) with i. fold o. unfold wadd. rewrite Z.add_mod_idemp_l, <- Z.add_assoc, Z.add_mod_idemp_l by done.
  destruct Hs as [(Hsc & Ho & Hi)|(Hsc & Hi)].
  - unfold is_u64 in Ho. rewrite (Z.mod_small o) by done. rewrite Hsc, Hi.
    destruct (Z.eqb_spec o 0) as [->|]; [rewrite Z.add_0_l, Z.eqb_refl; done|]. by rewrite !Z.eqb_refl.
  - rewrite Hsc, Hi, Z.add_assoc. cbn [Z.eqb]. by rewrite Z.eqb_refl.
Qed.

(** *** All the SUI of an object *)

(** The SUI in the contents of an object. *)
Definition sui_of (o : Object) : option Z :=
  match data o with
  | Move m => match move_total_sui m with Ret r => r | _ => None end
  | Package _ => Some 0
  end.
Definition object_sui (o : Object) : Z := default 0 (sui_of o).
Definition object_total (o : Object) : Z := object_sui o + storage_rebate o.

(** The version of a modified object that the check compares with. *)
Definition old_object t (id : ObjectID) (m : DynamicallyLoadedObjectMetadata) : option Object :=
  match input_objects t !! id with
  | Some o => if Obj.version o =? md_version m then Some o else None
  | None => match get_object_by_key id (md_version m) with Ok (Some o) => Some o | _ => None end
  end.

Definition sui_in t (id : ObjectID) : Z :=
  default 0 (m ← meta_of t id; object_sui <$> old_object t id m).

(** The objects before the transaction can be found, with the rebate of the metadata. *)
Definition old_known t (id : ObjectID) : Prop :=
  ∃ m o, meta_of t id = Some m ∧ old_object t id m = Some o ∧ is_Some (sui_of o) ∧
    storage_rebate o = md_storage_rebate m.

Lemma get_total_sui_ok o :
  is_Some (sui_of o) → ∃ v, Obj.get_total_sui o = Ret (Some v) ∧ v = object_total o mod U64_MOD.
Proof.
  unfold object_total, object_sui, sui_of, Obj.get_total_sui. intros [n Hn]. destruct (data o) as [m|p]; [|].
  - destruct (move_total_sui m) as [r| |]; try done. rewrite Hn. cbn [mbind outcome_bind default from_option].
    exists (wadd (storage_rebate o) n). split; [done|]. unfold wadd. by rewrite Z.add_comm.
  - exists (wadd (storage_rebate o) 0). split; [done|]. unfold wadd. by rewrite Z.add_comm.
Qed.

Lemma get_input_sui_ok t id m :
  meta_of t id = Some m → old_known t id →
  ∃ v, Temp.get_input_sui t id (md_version m) = Ret (Ok v) ∧ v = (sui_in t id + rebate_in t id) mod U64_MOD.
Proof.
  intros Hm (m' & o & Hm' & Ho & Hs & Hr). rewrite Hm in Hm'. simplify_eq.
  destruct (get_total_sui_ok o Hs) as (v & Hv & Hveq). exists v. split.
  - unfold Temp.get_input_sui, old_object in *. destruct (input_objects t !! id) as [o'|].
    + destruct (Obj.version o' =? md_version m'); simplify_eq. cbn [negb]. by rewrite Hv.
    + destruct (get_object_by_key id (md_version m')) as [[o'|]|]; simplify_eq. by rewrite Hv.
  - unfold sui_in, rebate_in. rewrite Hm. cbn [mbind option_bind]. rewrite Ho. rewrite Hveq.
    unfold object_total. cbn. by rewrite Hr.
Qed.

Lemma total_sui_ok t l a b :
  is_u64 a → is_u64 b →
  (∀ e m, e ∈ l → e.1.2 = Some m → meta_of t e.1.1 = Some m ∧ old_known t e.1.1) →
  (∀ e o, e ∈ l → e.2 = Some o → is_Some (sui_of o)) →
  Temp.total_sui t l (a, b) =
    Ret (Ok ((a + wsum (λ e, default 0 ((λ _, sui_in t e.1.1 + rebate_in t e.1.1) <$> e.1.2)) l) mod U64_MOD,
             (b + wsum (λ e, default 0 (object_total <$> e.2)) l) mod U64_MOD)).
Proof.
  revert a b. induction l as [|[[id i] o] l IH]; intros a b Ha Hb Hin Hout.
  { cbn [Temp.total_sui]. rewrite !wsum_nil, !Z.add_0_r. by rewrite !Z.mod_small. }
  rewrite !wsum_cons. cbn [Temp.total_sui fst snd].
  assert (∃ v, match i with Some m => Temp.get_input_sui t id (md_version m) | None => Ret (Ok 0) end = Ret (Ok v) ∧
    v = default 0 ((λ _, sui_in t id + rebate_in t id) <$> i) mod U64_MOD) as (v & -> & Hv).
  { destruct i as [m|]; [|by eexists]. destruct (Hin (id, Some m, o) m) as [Hm Hk]; [left|done|].
    by apply get_input_sui_ok. }
  assert (∃ v, match o with Some object => Obj.get_total_sui object | None => Ret (Some 0) end = Ret (Some v) ∧
    v = default 0 (object_total <$> o) mod U64_MOD) as (u & -> & Hu).
  { destruct o as [o|]; [|by eexists]. apply get_total_sui_ok. apply (Hout (id, i, Some o)); [left|done]. }
  cbn [mbind outcome_bind]. rewrite IH.
  - unfold wadd. rewrite Hv, Hu. do 3 f_equal;
      rewrite Z.add_mod_idemp_r, Z.add_mod_idemp_l by done; f_equal; lia.
  - by apply Z.mod_pos_bound.
  - by apply Z.mod_pos_bound.
  - intros e m He. apply Hin. by right.
  - intros e o' He. apply Hout. by right.
Qed.

(** When the expensive check accepts. *)
Lemma check_sui_conserved_expensive_ok t (s : GasCostSummary) :
  store_ok t → (∀ id, id ∈ modified t → old_known t id) →
  (∀ id o, written t !! id = Some o → is_Some (sui_of o)) →
  wset (sui_in t) (modified t) + wset (rebate_in t) (modified t) =
    msum object_sui (written t) + msum storage_rebate (written t) +
    Summary.computation_cost s + Summary.non_refundable_storage_fee s →
  Temp.check_sui_conserved_expensive t s None = Ret (Ok tt).
Proof.
  intros Ht Hin Hout Heq. unfold Temp.check_sui_conserved_expensive. rewrite get_modified_ok by done.
  cbn [mbind outcome_bind]. rewrite total_sui_ok; [|done|done|..].
  - cbn [mbind outcome_bind]. rewrite !Z.add_0_l.
    rewrite (modified_list_input t (λ id _, sui_in t id + rebate_in t id)), modified_list_output.
    assert (wset (λ id, default 0 ((λ _, sui_in t id + rebate_in t id) <$> meta_of t id)) (modified t) =
      wset (sui_in t) (modified t) + wset (rebate_in t) (modified t)) as ->.
    { rewrite (wset_ext _ (λ id, sui_in t id + rebate_in t id)).
      - unfold wset, wsum. induction (elements (modified t)) as [|x l IH]; [done|]. csimpl. lia.
      - intros id Hid. by destruct (Hin id Hid) as (m & o & -> & _). }
    rewrite Heq. unfold object_total. rewrite msum_plus. unfold wadd.
    rewrite Z.add_mod_idemp_l, Z.add_mod_idemp_r by done. rewrite Z.add_assoc. by rewrite Z.eqb_refl.
  - intros e m He Hm. unfold modified_list in He. apply elem_of_app in He as [He|He].
    + apply list_elem_of_fmap in He as (id & -> & Hid%elem_of_btree_set_iter). cbn [fst snd] in *. auto.
    + apply list_elem_of_omap in He as (e' & _ & He'). case_bool_decide; simplify_eq/=.
  - intros e o He Ho. unfold modified_list in He. apply elem_of_app in He as [He|He].
    + apply list_elem_of_fmap in He as (id & -> & Hid). cbn [fst snd] in *. by eapply Hout.
    + apply list_elem_of_omap in He as ([k o'] & Hk%elem_of_btree_iter & He'). case_bool_decide; simplify_eq/=. by eapply Hout.
Qed.
End conservation.
