(* ===== verification/Ownership.v ===== *)
(** The ownership check of the temporary store
    ([TemporaryStore::check_ownership_invariants] of
    [sui-execution/latest/sui-adapter/src/temporary_store.rs]): its loop terminates, and it
    accepts exactly the transactions whose modified objects belong, through a chain of owners, to
    authenticated inputs, or have owners that form a cycle. *)
From S2P Require Import Prelude GasTables Objects SuiGas TemporaryStore.

Section ownership.
Context `{!ObjectEnv} `{!BackingStore}.
Implicit Types t : TemporaryStore.

(** Every object of [s] is authenticated, needs no authentication, or has its parent in [s]. *)
Definition covered t (is_epoch_change : bool) (auth s : gset Z) : Prop :=
  ∀ id, id ∈ s →
    id ∈ auth ∨ Temp.parent_of t is_epoch_change id = Ret (Ok None) ∨
    ∃ p, Temp.parent_of t is_epoch_change id = Ret (Ok (Some p)) ∧ p ∈ s.

(** A set of objects that has all the parents of its objects. *)
Definition parents_in t (is_epoch_change : bool) (u : gset Z) : Prop :=
  ∀ id p, id ∈ u → Temp.parent_of t is_epoch_change id = Ret (Ok (Some p)) → p ∈ u.

Lemma size_insert_lt (u auth : gset Z) id :
  id ∈ u → id ∉ auth → (size (u ∖ ({[ id ]} ∪ auth)) < size (u ∖ auth))%nat.
Proof. intros Hu Ha. apply subset_size. set_solver. Qed.

(** The loop: each round either shortens the stack or authenticates another object. *)
Lemma authenticate_ends t e u fuel auth stack :
  parents_in t e u → (∀ id, id ∈ stack → id ∈ u) →
  (2 * size (u ∖ auth) + length stack <= fuel)%nat →
  Temp.authenticate t e fuel auth stack ≠ OutOfFuel.
Proof.
  intros Hu. revert auth stack. induction fuel as [|fuel IH]; intros auth [|id stack] Hs Hf; try done.
  { simpl in Hf. lia. }
  cbn [Temp.authenticate]. simpl in Hf. assert (∀ x, x ∈ stack → x ∈ u) as Hs' by set_solver.
  case_bool_decide as Ha; [apply IH; [done|lia]|].
  destruct (Temp.parent_of t e id) as [[[p|]|err]| |] eqn:Hp; cbn [mbind outcome_bind]; try done.
  - apply IH; [|pose proof (size_insert_lt u auth id ltac:(apply Hs; left) Ha); simpl; lia].
    intros x [->|Hx]%elem_of_cons; [|by apply Hs']. eapply Hu; [|exact Hp]. apply Hs. left.
  - apply IH; [done|lia].
  - unfold Temp.parent_of in Hp. destruct (wrapped_object_containers t !! id); [done|].
    destruct (get_object id) as [[o|]|]; try done. destruct (owner o); try done.
    destruct e, (is_system_package id); done.
Qed.

Lemma authenticate_sound t e fuel auth stack :
  Temp.authenticate t e fuel auth stack = Ret (Ok tt) →
  ∃ s, (∀ id, id ∈ stack → id ∈ s) ∧ covered t e auth s.
Proof.
  revert auth stack. induction fuel as [|fuel IH]; intros auth [|id stack]; cbn [Temp.authenticate]; try done.
  { intros _. exists ∅. split; set_solver. }
  { intros _. exists ∅. split; set_solver. }
  case_bool_decide as Ha.
  { intros (s & Hs & Hc)%IH. exists ({[ id ]} ∪ s). split; [set_solver|].
    intros x [->%elem_of_singleton|Hx]%elem_of_union; [by left|].
    destruct (Hc x Hx) as [|[|(p & ? & ?)]]; [by left|by right; left|right; right; exists p; set_solver]. }
  destruct (Temp.parent_of t e id) as [[[p|]|err]| |] eqn:Hp; cbn [mbind outcome_bind]; try done.
  - intros (s & Hs & Hc)%IH. exists ({[ id ]} ∪ s). split; [set_solver|].
    assert (p ∈ s) as Hps by (apply Hs; left).
    intros x Hx. destruct (decide (x = id)) as [->|Hne]; [right; right; exists p; set_solver|].
    assert (x ∈ s) as Hxs by set_solver.
    destruct (Hc x Hxs) as [|[|(q & ? & ?)]]; [left; set_solver|by right; left|right; right; exists q; set_solver].
  - intros (s & Hs & Hc)%IH. exists ({[ id ]} ∪ s). split; [set_solver|].
    intros x [->%elem_of_singleton|Hx]%elem_of_union; [by right; left|].
    destruct (Hc x Hx) as [|[|(p & ? & ?)]]; [by left|by right; left|right; right; exists p; set_solver].
Qed.

Lemma authenticate_complete t e fuel auth stack (P : ObjectID → Prop) :
  (∀ id, id ∈ stack → P id) →
  (∀ id, P id → id ∈ auth ∨ Temp.parent_of t e id = Ret (Ok None) ∨ ∃ p, Temp.parent_of t e id = Ret (Ok (Some p)) ∧ P p) →
  Temp.authenticate t e fuel auth stack ≠ OutOfFuel → Temp.authenticate t e fuel auth stack = Ret (Ok tt).
Proof.
  revert auth stack. induction fuel as [|fuel IH]; intros auth [|id stack] Hs Hc; cbn [Temp.authenticate]; try done.
  assert (∀ x, x ∈ stack → P x) as Hs' by set_solver. case_bool_decide as Ha; [by apply IH|].
  destruct (Hc id ltac:(apply Hs; left)) as [|[-> |(p & -> & Hp)]]; [done|by apply IH|].
  cbn [mbind outcome_bind]. apply IH; [intros x [->|?]%elem_of_cons; auto|].
  intros x Hx. destruct (Hc x Hx) as [|[|?]]; [left; set_solver|by right; left|by right; right].
Qed.

(** ** Chains of owners *)

(** [p] is the owner of [id]: the object that wraps it, or its owner in the store. *)
Definition parent t (is_epoch_change : bool) (id p : ObjectID) : Prop := Temp.parent_of t is_epoch_change id = Ret (Ok (Some p)).

(** The chain of owners that starts at an object ends at a root, or at a system package upgraded at the
    end of an epoch. *)
Inductive owned t (is_epoch_change : bool) (root : ObjectID → Prop) : ObjectID → Prop :=
  | owned_root id : root id → owned t is_epoch_change root id
  | owned_package id : Temp.parent_of t is_epoch_change id = Ret (Ok None) → owned t is_epoch_change root id
  | owned_parent id p : parent t is_epoch_change id p → owned t is_epoch_change root p → owned t is_epoch_change root id.

(** The chain runs into a cycle. *)
Definition cyclic t (is_epoch_change : bool) (id : ObjectID) : Prop :=
  ∃ x, rtc (parent t is_epoch_change) id x ∧ tc (parent t is_epoch_change) x x.

Lemma cyclic_parent t e id : cyclic t e id → ∃ p, parent t e id p ∧ cyclic t e p.
Proof.
  intros (x & Hr & Hx). destruct Hr as [x|x y z Hxy Hyz]; [|exists y; split; [done|by exists z]].
  inversion Hx as [? ? Hy|? y ? Hy Hyx]; subst; [exists x; split; [done|by exists x]|].
  exists y. split; [done|]. exists x. split; [by apply tc_rtc|done].
Qed.

(** Within a finite set that has the parents of its objects, every chain ends or runs into a cycle. *)
Lemma covered_chain t e auth s id : covered t e auth s → id ∈ s → owned t e (λ id, id ∈ auth) id ∨ cyclic t e id.
Proof.
  intros Hc. enough (∀ n (V : gset Z) id, (size (s ∖ V) < n)%nat → id ∈ s → (∀ v, v ∈ V → tc (parent t e) v id) →
    owned t e (λ id, id ∈ auth) id ∨ cyclic t e id) as Hn by (intros Hid; apply (Hn (S (size (s ∖ ∅))) ∅ id); [lia|done|set_solver]).
  intros n. clear id. induction n as [|n IH]; intros V id Hsize Hid HV; [lia|].
  destruct (decide (id ∈ V)) as [Hin|Hin]; [right; exists id; split; [done|by apply HV]|].
  destruct (Hc id Hid) as [?|[?|(p & Hp & Hps)]]; [left; by constructor|left; by constructor|].
  destruct (IH ({[ id ]} ∪ V) p) as [Ho|(x & Hr & Hx)]; [|done| |left; by eapply owned_parent|right; exists x; split; [by eapply rtc_l|done]].
  - pose proof (size_insert_lt s V id Hid Hin). lia.
  - intros v [->%elem_of_singleton|Hv]%elem_of_union; [by apply tc_once|]. eapply tc_r; [by apply HV|done].
Qed.

(** The roots: the inputs of the sender and the shared inputs that may be mutated. *)
Definition is_root t (sender : SuiAddress) (gas_objs mutable_inputs : gset Z) (id : ObjectID) : Prop :=
  id ∈ mutable_inputs ∧ (id ∉ gas_objs) ∧
  ∃ o, input_objects t !! id = Some o ∧ (owner o = AddressOwner sender ∨ ∃ v, owner o = Shared v).

Definition input_allowed (sender : SuiAddress) (o : Object) : Prop :=
  match owner o with AddressOwner a => a = sender | Shared _ | Immutable => True | ObjectOwner _ => False end.

Definition root_of (gas_objs : gset Z) (e : Z * Object) : option ObjectID :=
  if bool_decide (e.1 ∈ gas_objs) then None
  else match owner e.2 with AddressOwner _ | Shared _ => Some e.1 | ObjectOwner _ | Immutable => None end.

Lemma authenticated_root_cases sender gas_objs e :
  Temp.authenticated_root sender gas_objs e = Ret (root_of gas_objs e) ∧ (e.1 ∈ gas_objs ∨ input_allowed sender e.2) ∨
  Temp.authenticated_root sender gas_objs e = Panic ∧ (e.1 ∉ gas_objs) ∧ ¬ input_allowed sender e.2.
Proof.
  destruct e as [id o]. unfold Temp.authenticated_root, root_of, input_allowed. cbn [fst snd].
  case_bool_decide; [by left; auto|]. destruct (owner o) as [a|a|v|]; cbn; try (by left; auto); [|by right; auto].
  destruct (Z.eqb_spec sender a) as [->|]; cbn; [by left; auto|]. right. split; [done|]. split; [done|]. congruence.
Qed.

Lemma filter_roots sender gas_objs l :
  match Inputs.filter_map_o (Temp.authenticated_root sender gas_objs) l with
  | Ret k => k = omap (root_of gas_objs) l ∧ ∀ e, e ∈ l → e.1 ∈ gas_objs ∨ input_allowed sender e.2
  | Panic => ∃ e, e ∈ l ∧ (e.1 ∉ gas_objs) ∧ ¬ input_allowed sender e.2
  | OutOfFuel => False
  end.
Proof.
  induction l as [|e l IH]; cbn [Inputs.filter_map_o]; [set_solver|].
  destruct (authenticated_root_cases sender gas_objs e) as [[-> He]|[-> He]]; cbn [mbind outcome_bind].
  - destruct (Inputs.filter_map_o _ l) as [k| |]; cbn [mbind outcome_bind]; [|set_solver|done].
    destruct IH as [-> IH]. split; [csimpl; by destruct (root_of gas_objs e)|].
    intros x [->|Hx]%elem_of_cons; [done|by apply IH].
  - exists e. split; [left|done].
Qed.

Lemma authenticated_roots_spec t sender gas_objs mutable_inputs :
  match Temp.authenticated_roots t sender gas_objs mutable_inputs with
  | Ret roots => (∀ id, id ∈ roots ↔ is_root t sender gas_objs mutable_inputs id) ∧
      ∀ id o, input_objects t !! id = Some o → id ∉ gas_objs → input_allowed sender o
  | Panic => ∃ id o, input_objects t !! id = Some o ∧ (id ∉ gas_objs) ∧ ¬ input_allowed sender o
  | OutOfFuel => False
  end.
Proof.
  unfold Temp.authenticated_roots. pose proof (filter_roots sender gas_objs (btree_iter (input_objects t))) as Hfr.
  destruct (Inputs.filter_map_o _ _) as [k| |]; cbn [mbind outcome_bind]; [|..|done].
  - destruct Hfr as [-> Hall].
    assert (∀ id o, input_objects t !! id = Some o → id ∉ gas_objs → input_allowed sender o) as Hal.
    { intros id o Ho Hg. destruct (Hall (id, o)); [by apply elem_of_btree_iter|done|done]. }
    split; [|done]. intros id. rewrite elem_of_list_to_set, list_elem_of_filter, list_elem_of_omap. unfold is_root. split.
    + intros [Hm ([id' o] & Ho%elem_of_btree_iter & Hr)]. unfold root_of in Hr. cbn [fst snd] in Hr.
      case_bool_decide as Hg; [done|]. pose proof (Hal id' o Ho Hg) as Ha. unfold input_allowed in Ha.
      destruct (owner o) as [a|a|v|] eqn:How; simplify_eq; split_and!; try done; exists o; rewrite How; eauto.
    + intros (Hm & Hg & o & Ho & How). split; [done|]. exists (id, o). split; [by apply elem_of_btree_iter|].
      unfold root_of. cbn [fst snd]. rewrite bool_decide_false by done. destruct How as [-> |[v ->]]; done.
  - destruct Hfr as ([id o] & Ho%elem_of_btree_iter & ? & ?). eauto.
Qed.

Lemma check_ownership_exact t fuel sender g mutable_inputs e u :
  parents_in t e u → modified t ⊆ u → (2 * size u + size (modified t) <= fuel)%nat →
  let gas_objs : gset Z := list_to_set ((λ r : ObjectRef, r.1.1) <$> gas_coins g) in
  let r := Temp.check_ownership_invariants t fuel sender g mutable_inputs e in
  r ≠ OutOfFuel ∧
  (r = Ret (Ok tt) ↔ (∀ id o, input_objects t !! id = Some o → id ∉ gas_objs → input_allowed sender o) ∧
     ∀ id, id ∈ modified t ∖ gas_objs → owned t e (is_root t sender gas_objs mutable_inputs) id ∨ cyclic t e id).
Proof.
  intros Hu Hm Hf gas_objs r. subst r. unfold Temp.check_ownership_invariants. fold gas_objs.
  pose proof (authenticated_roots_spec t sender gas_objs mutable_inputs) as Hr.
  destruct (Temp.authenticated_roots t sender gas_objs mutable_inputs) as [roots| |]; cbn [mbind outcome_bind]; [|..|done].
  2: { split; [done|]. split; [done|]. intros [Hall _]. destruct Hr as (id & o & Ho & Hg & Hn). by destruct Hn; eapply Hall. }
  destruct Hr as [Hroots Hall]. set (stack := Temp.objects_to_authenticate t gas_objs).
  assert (∀ id, id ∈ stack ↔ id ∈ modified t ∖ gas_objs) as Hstack.
  { intros id. subst stack. unfold Temp.objects_to_authenticate.
    rewrite elem_of_reverse, list_elem_of_filter, elem_of_btree_set_iter, elem_of_difference. tauto. }
  assert (length stack <= size (modified t))%nat as Hlen.
  { subst stack. unfold Temp.objects_to_authenticate. rewrite length_reverse. etrans; [apply length_filter|].
    unfold btree_set_iter. by rewrite merge_sort_Permutation. }
  assert (Temp.authenticate t e fuel roots stack ≠ OutOfFuel) as Hends.
  { apply (authenticate_ends t e u); [done|intros id Hid%Hstack; set_solver|].
    pose proof (subseteq_size (u ∖ roots) u ltac:(set_solver)). lia. }
  assert (∀ id, owned t e (λ id, id ∈ roots) id ↔ owned t e (is_root t sender gas_objs mutable_inputs) id) as Howned.
  { intros id. split; induction 1; [by apply owned_root, Hroots|by apply owned_package|by eapply owned_parent|..];
      [by apply owned_root, Hroots|by apply owned_package|by eapply owned_parent]. }
  split; [done|]. split.
  - intros (s & Hs & Hc)%authenticate_sound. split; [done|]. intros id Hid. rewrite <- Howned. eapply covered_chain; [done|]. by apply Hs, Hstack.
  - intros [_ Hc]. apply (authenticate_complete t e fuel roots stack (λ id, owned t e (λ id, id ∈ roots) id ∨ cyclic t e id)); [| |done].
    + intros id Hid%Hstack. rewrite Howned. auto.
    + intros id [Ho|Hcy]; [|right; right; apply cyclic_parent in Hcy as (p & ? & ?); exists p; auto].
      destruct Ho as [|?|id p]; [by left|by right; left|right; right; exists p; auto].
Qed.

(** C28: the ownership check terminates and is exact.  Whenever the parents of the objects stay
    within a finite set [u] (as they do: the store is finite), twice its size plus the number of
    modified objects bounds the number of rounds of the loop.  The check then accepts exactly the
    transactions whose inputs, other than the gas, are shared, immutable or of the sender, and
    in which the chain of owners of each modified object, other than the gas, ends at a mutable
    input of the sender or a mutable shared input, ends at a system package upgraded at the end of an
    epoch, or runs into a cycle (the loop marks an object as authenticated before it looks at the
    owner).  If no chain of owners has a cycle, every modified object is owned by such an input or
    is such a package. *)
Theorem check_ownership_correct t fuel sender g mutable_inputs e u :
  parents_in t e u → modified t ⊆ u → (2 * size u + size (modified t) <= fuel)%nat →
  let gas_objs : gset Z := list_to_set ((λ r : ObjectRef, r.1.1) <$> gas_coins g) in
  let root := is_root t sender gas_objs mutable_inputs in
  let r := Temp.check_ownership_invariants t fuel sender g mutable_inputs e in
  let inputs_allowed := ∀ id o, input_objects t !! id = Some o → id ∉ gas_objs → input_allowed sender o in
  r ≠ OutOfFuel ∧
  (r = Ret (Ok tt) ↔ inputs_allowed ∧ ∀ id, id ∈ modified t ∖ gas_objs → owned t e root id ∨ cyclic t e id) ∧
  ((∀ id, ¬ tc (parent t e) id id) →
     r = Ret (Ok tt) ↔ inputs_allowed ∧ ∀ id, id ∈ modified t ∖ gas_objs → owned t e root id).
Proof.
  intros Hu Hm Hf gas_objs root r inputs_allowed. subst r.
  pose proof (check_ownership_exact t fuel sender g mutable_inputs e u Hu Hm Hf) as [Hends Hiff]. fold gas_objs root inputs_allowed in Hiff.
  split; [done|]. split; [done|]. intros Hacyclic. rewrite Hiff. apply and_iff_compat_l. split; intros Hall id Hid; [|auto].
  destruct (Hall id Hid) as [?|(x & _ & Hx)]; [done|]. by destruct (Hacyclic x).
Qed.
End ownership.

(** ** A concrete transaction *)

(** An object 7 of the sender 100, with a child 20 that has a child 21; all three are modified. *)
Module Children.
#[local] Instance plain_env : ObjectEnv :=
  {| Event := unit; type_size := λ _, 1; owner_size := 40; digest := λ _, 0; layout_sui := λ _, None |}.

Definition obj (id : Z) (o : Owner) : Object :=
  mkObject (Package (mkMovePackage id 1 ∅ [] ∅)) o 0 0.

#[local] Instance children : BackingStore :=
  {| get_package_object := λ _, Ok None;
     get_object := λ id,
       if id =? 7 then Ok (Some (obj 7 (AddressOwner 100)))
       else if id =? 20 then Ok (Some (obj 20 (ObjectOwner 7)))
       else if id =? 21 then Ok (Some (obj 21 (ObjectOwner 20)))
       else Ok None;
     get_object_by_key := λ _ _, Ok None |}.

Definition store : TemporaryStore :=
  mkStore _ 0 {[ 7 := obj 7 (AddressOwner 100) ]} 2 {[ 7 := ((1, 0), AddressOwner 100) ]}
    (mkResults _ ∅ {[ 7; 20; 21 ]} ∅ ∅ []) ∅ ∅ [].

Definition charger : GasCharger :=
  mkGasCharger 0 8 [(9, 1, 0)] (Some 9)
    (V2.new Meter.new_unmetered 0 false 0 0 0 0 None (mkSuiCostTable 0 0 0 0 0 zero_cost_schedule [])).

Lemma parent_cases id p :
  Temp.parent_of store false id = Ret (Ok (Some p)) →
  id = 7 ∧ p = 100 ∨ id = 20 ∧ p = 7 ∨ id = 21 ∧ p = 20.
Proof.
  unfold Temp.parent_of. cbn [wrapped_object_containers store]. rewrite lookup_empty. cbn [get_object children].
  destruct (Z.eqb_spec id 7) as [->|]; [cbn; intros; simplify_eq; auto|].
  destruct (Z.eqb_spec id 20) as [->|]; [cbn; intros; simplify_eq; auto|].
  destruct (Z.eqb_spec id 21) as [->|]; [cbn; intros; simplify_eq; auto|done].
Qed.

Lemma all_owned id : id = 7 ∨ id = 20 ∨ id = 21 → owned store false (is_root store 100 {[ 9 ]} {[ 7 ]}) id.
Proof.
  assert (owned store false (is_root store 100 {[ 9 ]} {[ 7 ]}) 7) as H7.
  { apply owned_root. split; [set_solver|]. split; [set_solver|]. eexists. split; [reflexivity|]. left. reflexivity. }
  assert (owned store false (is_root store 100 {[ 9 ]} {[ 7 ]}) 20) as H20 by (eapply owned_parent; [reflexivity|exact H7]).
  intros [-> |[-> | ->]]; [exact H7|exact H20|eapply owned_parent; [reflexivity|exact H20]].
Qed.
End Children.

Lemma check_ownership_correct_witness :
  Temp.check_ownership_invariants (H := Children.plain_env) (H0 := Children.children)
    Children.store 11 100 Children.charger {[ 7 ]} false = Ret (Ok tt).
Proof.
  assert (size ({[ 7; 20; 21; 100 ]} : gset Z) = 4%nat) as Hsize by (vm_compute; reflexivity).
  assert (size (modified Children.store) = 3%nat) as Hmod by (vm_compute; reflexivity).
  destruct (check_ownership_correct (H := Children.plain_env) (H0 := Children.children)
           Children.store 11 100 Children.charger {[ 7 ]} false {[ 7; 20; 21; 100 ]}) as (_ & Hiff & _).
  - intros id p _ Hp. apply Children.parent_cases in Hp. set_solver.
  - cbn. set_solver.
  - rewrite Hsize, Hmod. lia.
  - apply Hiff. split.
    + intros id o Ho _. cbn in Ho. apply lookup_singleton_Some in Ho as [<- <-]. reflexivity.
    + intros id Hid. left.
      replace (list_to_set _ : gset Z) with ({[ 9 ]} : gset Z) by (vm_compute; reflexivity).
      apply Children.all_owned. cbn in Hid. set_solver.
Defined.

(** Two objects that own each other are accepted, though no input is involved. *)
Module OwnerCycle.
#[local] Existing Instance Children.plain_env.
#[local] Instance cycle : BackingStore :=
  {| get_package_object := λ _, Ok None;
     get_object := λ id,
       if id =? 20 then Ok (Some (Children.obj 20 (ObjectOwner 21)))
       else if id =? 21 then Ok (Some (Children.obj 21 (ObjectOwner 20)))
       else Ok None;
     get_object_by_key := λ _ _, Ok None |}.

Definition store : TemporaryStore :=
  mkStore _ 0 ∅ 2 ∅ (mkResults _ ∅ {[ 20 ]} ∅ ∅ []) ∅ ∅ [].

Lemma owner_cycle_accepted :
  Temp.check_ownership_invariants store 9 100 Children.charger ∅ false = Ret (Ok tt).
Proof. vm_compute. reflexivity. Qed.
End OwnerCycle.
