(* ===== verification/GasCharger.v ===== *)
(** Charging a transaction for gas
    ([sui-execution/latest/sui-adapter/src/gas_charger.rs]): smashing the gas coins, charging
    for computation and storage, and what happens when the gas does not suffice.

    The module is under [with_checked_arithmetic].  The result of the execution, which
    [charge_gas] may replace by an error, is passed in and out. *)
From S2P Require Import Prelude GasTables Objects SuiGas TemporaryStore.
Import SuiGas.V2 (SuiGasStatus).
Import SuiGas.Summary (GasCostSummary).

Module Charger.
Section charger.
Context `{!ObjectEnv} `{!BackingStore}.
Implicit Types (g : GasCharger) (t : TemporaryStore).

Definition new (tx_digest : TransactionDigest) (gas_coins : list ObjectRef) (gas_status : SuiGasStatus)
    (protocol_config : ProtocolConfig) : GasCharger :=
  mkGasCharger tx_digest (config_gas_model_version protocol_config) gas_coins None gas_status.

Definition new_unmetered (tx_digest : TransactionDigest) : outcome GasCharger :=
  s ← V2.new_unmetered; Ret (mkGasCharger tx_digest 6 [] None s).

Definition gas_coin g : option ObjectID := smashed_gas_coin g.
Definition gas_budget g : Z := V2.gas_budget (charger_status g).
Definition unmetered_storage_rebate g : Z := V2.unmetered_storage_rebate (charger_status g).
Definition no_charges g : bool :=
  (V2.gas_used (charger_status g) =? 0) && (V2.storage_rebate (charger_status g) =? 0) &&
  (V2.storage_cost (charger_status g) =? 0).
Definition is_unmetered g : bool := V2.is_unmetered (charger_status g).
Definition summary g : outcome GasCostSummary := V2.summary (charger_status g).

(** The closure that reads one gas coin: [unwrap] of the lookup, then an error that the caller
    turns into a panic. *)
Definition coin_balance t (obj_ref : ObjectRef) : outcome Z :=
  obj ← unwrap (input_objects t !! obj_ref.1.1);
  match data obj with
  | Move move_obj =>
      if negb (is_gas_coin (type_ move_obj)) then Panic else MoveObj.get_coin_value_unsafe move_obj
  | Package _ => Panic
  end.

Definition with_smashed g (id : ObjectID) : GasCharger :=
  mkGasCharger (charger_tx_digest g) (charger_gas_model_version g) (gas_coins g) (Some id) (charger_status g).

Definition smash_gas g t : outcome (GasCharger * TemporaryStore) :=
  match gas_coins g with
  | [] => Ret (g, t)
  | (gas_coin_id, _, _) :: rest =>
      if bool_decide (rest = []) && (gas_coin_id =? 0) then Ret (g, t)
      else
        let g := with_smashed g gas_coin_id in
        match rest with
        | [] => Ret (g, t)
        | _ :: _ =>
            balances ← Temp.map_o (coin_balance t) (gas_coins g);
            let new_balance := sum_u64 balances in
            primary_gas_object ← unwrap (input_objects t !! gas_coin_id);
            let t := foldl (λ t r, Temp.delete_input_object t r.1.1) t rest in
            m ← unwrap (try_as_move (data primary_gas_object));
            m ← MoveObj.set_coin_value_unsafe m new_balance;
            t ← Temp.mutate_input_object t (with_data primary_gas_object (Move m));
            Ret (g, t)
        end
  end.

Definition charge_publish_package (size : Z) g : result ExecutionError unit * GasCharger :=
  let '(r, s) := V2.charge_publish_package size (charger_status g) in (r, with_status g s).

Definition charge_upgrade_package (size : Z) g : result ExecutionError unit * GasCharger :=
  if charge_upgrades (charger_gas_model_version g) then charge_publish_package size g else (Ok tt, g).

Definition charge_input_objects g t : result ExecutionError unit * GasCharger :=
  let total_size :=
    sum_u64 ((λ e, Obj.object_size_for_gas_metering e.2) <$>
               filter (λ e, is_system_package e.1 = false) (btree_iter (input_objects t))) in
  let '(r, s) := V2.charge_storage_read total_size (charger_status g) in (r, with_status g s).

Definition reset_storage_cost_and_rebate g : GasCharger :=
  with_status g (V2.reset_storage_cost_and_rebate (charger_status g)).

Definition reset g t : outcome (GasCharger * TemporaryStore) :=
  smash_gas (reset_storage_cost_and_rebate g) (Temp.drop_writes t).

(** [if execution_result.is_ok() { *execution_result = Err(err) }]. *)
Definition fail_with {T} (err : ExecutionError) (r : result ExecutionError T) : result ExecutionError T :=
  match r with Ok _ => Err err | Err e => Err e end.

(** The last resort of both handlers: no storage charges, the whole budget as computation. *)
Definition charge_whole_budget g t : outcome (GasCharger * TemporaryStore) :=
  gt ← reset g t;
  let '(g, t) := gt in
  let g := with_status g (V2.adjust_computation_on_out_of_gas (charger_status g)) in
  t ← Temp.ensure_active_inputs_mutated t;
  g ← Temp.collect_rebate t g;
  Ret (g, t).

Definition handle_storage_and_rebate_v1 {T} g t (execution_result : result ExecutionError T) :
    outcome (GasCharger * TemporaryStore * result ExecutionError T) :=
  c ← V2.charge_storage_and_rebate (charger_status g);
  match c with
  | Ok _ => Ret (g, t, execution_result)
  | Err err =>
      gt ← charge_whole_budget g t;
      Ret (gt.1, gt.2, fail_with err execution_result)
  end.

Definition handle_storage_and_rebate_v2 {T} g t (execution_result : result ExecutionError T) :
    outcome (GasCharger * TemporaryStore * result ExecutionError T) :=
  c ← V2.charge_storage_and_rebate (charger_status g);
  match c with
  | Ok _ => Ret (g, t, execution_result)
  | Err err =>
      gt ← reset g t;
      let '(g, t) := gt in
      t ← Temp.ensure_active_inputs_mutated t;
      tg ← Temp.collect_storage_and_rebate t g;
      let '(t, g) := tg in
      c ← V2.charge_storage_and_rebate (charger_status g);
      match c with
      | Err err =>
          gt ← charge_whole_budget g t;
          Ret (gt.1, gt.2, fail_with err execution_result)
      | Ok _ => Ret (g, t, fail_with err execution_result)
      end
  end.

(** [charge_gas] up to the point where the storage charges are collected. *)
Definition charge_computation {T} g t (execution_result : result ExecutionError T) :
    outcome (GasCharger * TemporaryStore * result ExecutionError T) :=
  match smashed_gas_coin g with
  | None => Ret (g, t, execution_result)
  | Some _ =>
      b ← V2.bucketize_computation (charger_status g);
      let g := with_status g b.2 in
      let execution_result :=
        match b.1 with Ok _ => execution_result | Err err => fail_with err execution_result end in
      match execution_result with
      | Ok _ => Ret (g, t, execution_result)
      | Err _ => gt ← reset g t; Ret (gt.1, gt.2, execution_result)
      end
  end.

Definition charge_gas {T} g t (execution_result : result ExecutionError T) :
    outcome (GasCostSummary * GasCharger * TemporaryStore * result ExecutionError T) :=
  gtr ← charge_computation g t execution_result;
  let '(g, t, execution_result) := gtr in
  t ← Temp.ensure_active_inputs_mutated t;
  tg ← Temp.collect_storage_and_rebate t g;
  let '(t, g) := tg in
  match smashed_gas_coin g with
  | Some gas_object_id =>
      gtr ← (if dont_charge_budget_on_storage_oog (charger_gas_model_version g)
             then handle_storage_and_rebate_v2 g t execution_result
             else handle_storage_and_rebate_v1 g t execution_result);
      let '(g, t, execution_result) := gtr in
      cost_summary ← V2.summary (charger_status g);
      gas_used ← Summary.net_gas_usage cost_summary;
      gas_object ← unwrap (Temp.read_object t gas_object_id);
      gas_object ← deduct_gas gas_object gas_used;
      t ← Temp.mutate_input_object t gas_object;
      Ret (cost_summary, g, t, execution_result)
  | None => Ret (Summary.default_, g, t, execution_result)
  end.
End charger.
End Charger.

(** * Properties *)

(** ** Gas coins *)

Definition is_coin_obj (o : Object) : Prop := ∃ m, data o = Move m ∧ type_ m = GasCoin ∧ coin_contents m.

Definition coin_value (o : Object) : Z :=
  match data o with
  | Move m => match MoveObj.get_coin_value_unsafe m with Ret v => v | _ => 0 end
  | Package _ => 0
  end.

Definition set_coin (o : Object) (v : Z) : Object :=
  match data o with
  | Move m => with_data o (Move (mkMoveObject (type_ m) (has_public_transfer m) (mversion m)
                                   (take ID_END_INDEX (contents m) ++ to_le_bytes 8 v)))
  | Package _ => o
  end.

Section coins.
Context `{!ObjectEnv}.

Lemma coin_value_ok o m :
  data o = Move m → coin_contents m → MoveObj.get_coin_value_unsafe m = Ret (coin_value o) ∧ is_u64 (coin_value o).
Proof.
  intros Hd Hc. destruct (get_coin_value_ok m Hc) as (v & Hv & Hu). unfold coin_value. rewrite Hd, Hv. done.
Qed.

Lemma coin_sui o : is_coin_obj o → sui_of o = Some (coin_value o).
Proof.
  intros (m & Hd & Hty & Hc). destruct (coin_value_ok o m Hd Hc) as [Hv _].
  unfold sui_of, move_total_sui. rewrite Hd, Hty. cbn [coin_type_maybe]. rewrite Hv. done.
Qed.

(** What setting the balance of a coin changes, and what it does not. *)
Record same_but_balance (o o' : Object) : Prop := {
  sb_coin : is_coin_obj o';
  sb_id : Obj.id o' = Obj.id o;
  sb_rebate : storage_rebate o' = storage_rebate o;
  sb_size : Obj.object_size_for_gas_metering o' = Obj.object_size_for_gas_metering o;
}.

Lemma same_but_balance_refl o : is_coin_obj o → same_but_balance o o.
Proof. by split. Qed.

Lemma set_coin_ok o m v :
  is_coin_obj o → data o = Move m → is_u64 v →
  ∃ m', MoveObj.set_coin_value_unsafe m v = Ret m' ∧ set_coin o v = with_data o (Move m') ∧
    same_but_balance o (set_coin o v) ∧ coin_value (set_coin o v) = v.
Proof.
  intros (m1 & Hd1 & Hty & Hc) Hd Hv. rewrite Hd in Hd1. simplify_eq.
  destruct (set_coin_value_ok m1 v Hc Hv) as (m' & Hset & Hc' & Hget & Hid & Hty' & Hver).
  assert (set_coin o v = with_data o (Move m')) as Heq.
  { unfold set_coin. rewrite Hd. unfold MoveObj.set_coin_value_unsafe in Hset. destruct Hc as [_ Hl].
    rewrite Hl in Hset. cbn in Hset. by simplify_eq. }
  exists m'. split_and!; [done..| |]; rewrite Heq.
  - split; [|by unfold Obj.id; cbn; rewrite Hd|done|].
    + exists m'. split_and!; [done|congruence|done].
    + unfold Obj.object_size_for_gas_metering. cbn [data with_data]. rewrite Hd. unfold move_object_size.
      destruct Hc as [_ ->], Hc' as [_ ->]. by rewrite Hty'.
  - unfold coin_value. cbn [data with_data]. by rewrite Hget.
Qed.

(** [deduct_gas] takes a charge that the coin can pay, or adds a refund. *)
Lemma deduct_gas_ok o net :
  is_coin_obj o → - 2 ^ 63 < net < 2 ^ 63 → net <= coin_value o → coin_value o - net < U64_MOD →
  deduct_gas o net = Ret (set_coin o (coin_value o - net)).
Proof.
  intros Ho Hnet Hle Hfit. pose proof Ho as (m & Hd & Hty & Hc). destruct (coin_value_ok o m Hd Hc) as [Hv Hu].
  unfold is_u64 in Hu. unfold deduct_gas. rewrite Hd. cbn [try_as_move unwrap mbind outcome_bind]. rewrite Hv.
  cbn [mbind outcome_bind].
  destruct (set_coin_ok o m (coin_value o - net) Ho Hd ltac:(unfold is_u64; lia)) as (m' & Hset & Heq & _ & _).
  assert (U64_MOD = 2 ^ 64) as HU by done.
  destruct (Z.ltb_spec net 0).
  - rewrite (Z.mod_small (- net)) by lia. rewrite cadd_fits by lia. cbn [mbind outcome_bind].
    rewrite Z.add_opp_r, Hset. cbn [mbind outcome_bind]. by rewrite Heq.
  - rewrite (Z.mod_small net) by lia. unfold assert_. destruct (Z.leb_spec net (coin_value o)); [|lia].
    cbn [mbind outcome_bind]. rewrite csub_fits by lia. cbn [mbind outcome_bind]. rewrite Hset. by rewrite Heq.
Qed.
End coins.

(** ** Smashing and resetting *)

Section smash.
Context `{!ObjectEnv} `{!ObjectEnvLaws} `{!BackingStore}.
Implicit Types (g : GasCharger) (t : TemporaryStore).

Definition gas_ids g : list Z := (λ r : ObjectRef, r.1.1) <$> gas_coins g.

Definition coin_in t (id : ObjectID) : Z := default 0 (coin_value <$> input_objects t !! id).

(** The gas payment: distinct mutable inputs that are gas coins, whose sum is a [u64]. *)
Record gas_coins_ok g t (first : ObjectID) (rest : list ObjectID) : Prop := {
  gc_ids : gas_ids g = first :: rest;
  gc_single : rest = [] → first ≠ 0;
  gc_nodup : NoDup (first :: rest);
  gc_mutable : ∀ id, id ∈ first :: rest → id ∈ dom (mutable_input_refs t);
  gc_coin : ∀ id, id ∈ first :: rest → ∃ o, input_objects t !! id = Some o ∧ is_coin_obj o;
  gc_total : wsum (coin_in t) (first :: rest) < U64_MOD;
}.

Definition delete_all t (ids : list Z) : TemporaryStore :=
  Temp.with_results t (mkResults _ (written t) (list_to_set ids ∪ modified t) (created t)
    (list_to_set ids ∪ deleted t) (user_events (execution_results t))).

Lemma delete_all_ok t ids : foldl Temp.delete_input_object t ids = delete_all t ids.
Proof.
  revert t. induction ids as [|id ids IH]; intros t; cbn [foldl].
  - destruct t as [a b c d [w m cr de ev] e f h]. unfold delete_all, Temp.with_results. cbn.
    do 2 f_equal; set_solver.
  - rewrite IH. unfold delete_all, Temp.delete_input_object, Temp.with_results. cbn. do 2 f_equal; set_solver.
Qed.

(** The store that [smash_gas] leaves. *)
Definition smash_store t (first : ObjectID) (rest : list ObjectID) (o : Object) : TemporaryStore :=
  match rest with
  | [] => t
  | _ :: _ => Temp.insert_written (delete_all t rest) first (set_coin o (wsum (coin_in t) (first :: rest)))
  end.

Lemma coin_balance_ok t r o :
  input_objects t !! r.1.1 = Some o → is_coin_obj o → Charger.coin_balance t r = Ret (coin_in t r.1.1).
Proof.
  intros Ho Hc. pose proof Hc as (m & Hd & Hty & Hm). unfold Charger.coin_balance, coin_in. rewrite Ho.
  cbn [unwrap mbind outcome_bind]. rewrite Hd, Hty. cbn [is_gas_coin negb].
  by destruct (coin_value_ok o m Hd Hm) as [-> _].
Qed.

Lemma coin_in_nonneg g t first rest id : gas_coins_ok g t first rest → id ∈ first :: rest → 0 <= coin_in t id.
Proof.
  intros [] Hid. destruct (gc_coin0 id Hid) as (o & Ho & m & Hd & _ & Hc). unfold coin_in. rewrite Ho.
  destruct (coin_value_ok o m Hd Hc) as [_ []]. done.
Qed.

Lemma gas_total_bounds g t first rest :
  gas_coins_ok g t first rest → is_u64 (wsum (coin_in t) (first :: rest)).
Proof.
  intros Hg. split; [|by destruct Hg].
  assert (∀ l, (∀ id, id ∈ l → 0 <= coin_in t id) → 0 <= wsum (coin_in t) l) as Hw.
  { induction l as [|x l IH]; intros Hl; [done|]. rewrite wsum_cons. pose proof (Hl x ltac:(left)).
    assert (0 <= wsum (coin_in t) l); [|lia]. apply IH. intros. apply Hl. by right. }
  apply Hw. intros id. by apply (coin_in_nonneg g t first rest).
Qed.

Lemma smash_gas_ok g t first rest :
  gas_coins_ok g t first rest → store_ok t →
  ∃ o, input_objects t !! first = Some o ∧
    Charger.smash_gas g t = Ret (Charger.with_smashed g first, smash_store t first rest o).
Proof.
  intros Hg Ht. pose proof (gas_total_bounds g t first rest Hg) as Htot.
  pose proof Hg as [Hids Hsingle Hnd Hmut Hcoin Hlt].
  destruct (Hcoin first ltac:(left)) as (o & Ho & Hoc). exists o. split; [done|].
  unfold Charger.smash_gas, gas_ids in *. destruct (gas_coins g) as [|[[f v] d] refs] eqn:Hgc; [done|].
  cbn in Hids. injection Hids as -> Hrest.
  destruct refs as [|r refs].
  { subst rest. cbn. destruct (Z.eqb_spec first 0); [by destruct Hsingle|done]. }
  rewrite bool_decide_false by done. cbn [andb].
  assert (gas_coins (Charger.with_smashed g first) = (first, v, d) :: r :: refs) as -> by done.
  rewrite (map_o_ok _ (λ r, coin_in t r.1.1)).
  2: { intros r' Hr'. destruct (Hcoin r'.1.1) as (o' & Ho' & Hc'); [|by eapply coin_balance_ok].
    subst rest. change (first :: ((λ r : ObjectRef, r.1.1) <$> r :: refs)) with ((λ r : ObjectRef, r.1.1) <$> (first, v, d) :: r :: refs).
    by apply (list_elem_of_fmap_2 (λ r : ObjectRef, r.1.1)). }
  cbn [mbind outcome_bind]. rewrite Ho. cbn [unwrap mbind outcome_bind].
  assert (sum_u64 ((λ r : ObjectRef, coin_in t r.1.1) <$> (first, v, d) :: r :: refs) = wsum (coin_in t) (first :: rest)) as Hsum.
  { assert ((λ r : ObjectRef, coin_in t r.1.1) <$> (first, v, d) :: r :: refs = coin_in t <$> first :: rest) as ->.
    { subst rest. change (first :: ((λ r : ObjectRef, r.1.1) <$> r :: refs)) with ((λ r : ObjectRef, r.1.1) <$> (first, v, d) :: r :: refs).
      by rewrite <- list_fmap_compose. }
    apply sum_u64_zsum; [|done]. intros x Hx. apply list_elem_of_fmap in Hx as (id & -> & Hid).
    by eapply coin_in_nonneg. }
  rewrite Hsum. pose proof Hoc as (m & Hd & _).
  destruct (set_coin_ok o m _ Hoc Hd Htot) as (m' & Hset & Heq & [Hc' Hid' _ _] & _).
  rewrite Hd. cbn [try_as_move unwrap mbind outcome_bind]. rewrite Hset. cbn [mbind outcome_bind].
  rewrite <- Heq. destruct (so_inputs t Ht first o Ho) as [Hid _]. rewrite (mutate_input_ok _ _ first) by congruence.
  cbn [mbind outcome_bind]. f_equal. f_equal. unfold smash_store. subst rest. cbn [fmap list_fmap].
  f_equal. rewrite <- delete_all_ok. change (r.1.1 :: ((λ r : ObjectRef, r.1.1) <$> refs)) with ((λ r : ObjectRef, r.1.1) <$> r :: refs).
  by rewrite foldl_fmap.
Qed.

(** The store as if the transaction had only paid for gas: every mutable input is written
    back, the gas coins are smashed into the first, and nothing else is there. *)
Record fresh t (first : ObjectID) (rest : list ObjectID) t' : Prop := {
  fr_base : same_base t t';
  fr_modified : modified t' = dom (mutable_input_refs t);
  fr_created : created t' = ∅;
  fr_events : user_events (execution_results t') = [];
  fr_written : ∃ o o1, input_objects t !! first = Some o ∧ same_but_balance o o1 ∧
    coin_value o1 = wsum (coin_in t) (first :: rest) ∧
    written t' = <[first := o1]> (inputs_at t (dom (mutable_input_refs t) ∖ list_to_set (first :: rest)));
}.

Lemma drop_writes_ok t : store_ok t → store_ok (Temp.drop_writes t).
Proof. intros Ht. apply store_ok_results; [done|..]; cbn; set_solver. Qed.

Lemma gas_coins_base g g' t t' first rest :
  gas_ids g' = gas_ids g → same_base t t' → gas_coins_ok g t first rest → gas_coins_ok g' t' first rest.
Proof.
  intros Hg (Hi & Hm & _) []. split; try done; rewrite ?Hi, ?Hm, ?Hg; try done.
  unfold coin_in. by rewrite Hi.
Qed.

Lemma delete_all_store t ids :
  store_ok t → (∀ id, id ∈ ids → id ∈ dom (mutable_input_refs t)) → store_ok (delete_all t ids).
Proof.
  intros Ht Hids. apply store_ok_results; [done|apply (so_written t Ht)|..]; cbn [written_objects modified_objects].
  - intros id Hid Hw. apply elem_of_union_r. by apply (so_written_mutable t Ht).
  - intros id [Hid%elem_of_list_to_set|Hid]%elem_of_union; [|by apply (so_modified t Ht)].
    destruct (meta_of_mutable t id Ht (Hids id Hid)) as (o & m & _ & Hm & _). by eexists.
Qed.

Lemma smash_store_ok g t first rest o :
  gas_coins_ok g t first rest → store_ok t → input_objects t !! first = Some o →
  store_ok (smash_store t first rest o).
Proof.
  intros Hg Ht Ho. pose proof (gas_total_bounds g t first rest Hg) as Htot. destruct Hg. unfold smash_store.
  destruct rest as [|x rest]; [done|]. destruct (gc_coin0 first ltac:(left)) as (o' & Ho' & Hc).
  assert (o' = o) as -> by congruence. pose proof Hc as (m & Hd & _).
  destruct (set_coin_ok o m _ Hc Hd Htot) as (_ & _ & _ & [_ Hid _ _] & _).
  apply insert_written_ok.
  - apply delete_all_store; [done|]. intros id Hid'. apply gc_mutable0. by right.
  - destruct (so_inputs t Ht first o Ho) as [Hf _]. congruence.
  - apply gc_mutable0. left.
Qed.

Lemma fresh_smash g t first rest o :
  gas_coins_ok g t first rest → store_ok t → input_objects t !! first = Some o →
  let t1 := smash_store (Temp.drop_writes t) first rest o in
  fresh t first rest (write_inputs t1 (untouched t1)).
Proof.
  intros Hg Ht Ho t1. pose proof (gas_total_bounds g t first rest Hg) as Htot. destruct Hg.
  destruct (gc_coin0 first ltac:(left)) as (o' & Ho' & Hc). assert (o' = o) as -> by congruence.
  pose proof Hc as (m & Hd & _). set (M := dom (mutable_input_refs t)).
  assert (first ∈ M) as Hf by (apply gc_mutable0; left).
  destruct rest as [|x rest]; subst t1; cbn [smash_store].
  - split; [done| |done|done|].
    + cbn. fold M. unfold untouched. cbn. fold M. set_solver.
    + exists o, o. split; [done|]. split; [by apply same_but_balance_refl|]. split.
      { unfold wsum, coin_in. cbn. rewrite Ho. cbn. lia. }
      cbn [write_inputs Temp.with_results execution_results written_objects].
      apply map_eq. intros k. rewrite lookup_union. unfold untouched. cbn [Temp.drop_writes Temp.with_results
        execution_results Results.drop_writes written_objects modified_objects mutable_input_refs]. fold M.
      change (inputs_at (Temp.drop_writes t)) with (inputs_at t). rewrite lookup_empty, (right_id_L None _).
      destruct (decide (k = first)) as [->|Hne].
      * rewrite inputs_at_lookup, lookup_insert_eq by set_solver. done.
      * rewrite lookup_insert_ne by done. destruct (decide (k ∈ M)).
        -- rewrite !inputs_at_lookup by set_solver. done.
        -- rewrite !inputs_at_None by set_solver. done.
  - set (ids := x :: rest) in *. destruct (set_coin_ok o m _ Hc Hd Htot) as (_ & _ & _ & Hsb & Hval).
    assert (wsum (coin_in (Temp.drop_writes t)) (first :: ids) = wsum (coin_in t) (first :: ids)) as -> by done.
    set (o1 := set_coin o _) in *. clearbody o1.
    assert (list_to_set (C := gset Z) (first :: ids) ⊆ M) as HidsM.
    { intros id Hid%elem_of_list_to_set. by apply gc_mutable0. }
    assert (list_to_set (C := gset Z) (first :: ids) = {[ first ]} ∪ list_to_set ids) as Hls by done.
    split; [done| |done|done|].
    + unfold untouched. cbn [write_inputs Temp.insert_written delete_all Temp.drop_writes Temp.with_results
        execution_results Results.drop_writes modified_objects mutable_input_refs]. fold M.
      rewrite (right_id_L ∅ (∪)), <- Hls. symmetry. by apply union_difference_L.
    + exists o, o1. split_and!; [done..|].
      cbn [write_inputs Temp.with_results execution_results written_objects].
      apply map_eq. intros k. rewrite lookup_union. unfold untouched.
      cbn [Temp.insert_written delete_all Temp.drop_writes Temp.with_results
        execution_results Results.drop_writes written_objects modified_objects mutable_input_refs]. fold M.
      match goal with |- context [inputs_at ?a ?s !! k] => change (inputs_at a) with (inputs_at t) end.
      rewrite (right_id_L ∅ (∪)). rewrite <- Hls.
      destruct (decide (k = first)) as [->|Hne].
      * rewrite inputs_at_None, !lookup_insert_eq by set_solver. done.
      * rewrite !(lookup_insert_ne _ first) by done. rewrite lookup_empty, (right_id_L None _). done.
Qed.

Lemma reset_spec g t first rest :
  gas_coins_ok g t first rest → store_ok t → smashed_gas_coin g = Some first →
  ∃ t1 t2, Charger.reset g t = Ret (Charger.reset_storage_cost_and_rebate g, t1) ∧ store_ok t1 ∧
    Temp.ensure_active_inputs_mutated t1 = Ret t2 ∧ store_ok t2 ∧ fresh t first rest t2.
Proof.
  intros Hg Ht Hsm. pose proof (drop_writes_ok t Ht) as Ht0.
  assert (gas_coins_ok (Charger.reset_storage_cost_and_rebate g) (Temp.drop_writes t) first rest) as Hg0
    by (by apply (gas_coins_base g _ t)).
  destruct (smash_gas_ok _ _ first rest Hg0 Ht0) as (o & Ho & Hsmash).
  pose proof (smash_store_ok _ _ _ _ _ Hg0 Ht0 Ho) as Ht1.
  set (t1 := smash_store (Temp.drop_writes t) first rest o) in *.
  exists t1, (write_inputs t1 (untouched t1)). split_and!; [|done|by apply ensure_active_spec| |].
  - unfold Charger.reset. rewrite Hsmash. do 2 f_equal. destruct g. cbn in *. by subst.
  - apply write_inputs_ok; [done|]. unfold untouched. set_solver.
  - by eapply fresh_smash.
Qed.
End smash.

(** ** Settling the bill *)

Section settle.
Context `{!ObjectEnv} `{!ObjectEnvLaws} `{!BackingStore}.
Implicit Types (g : GasCharger) (t : TemporaryStore).

(** The execution neither made nor lost SUI in the contents of the objects. *)
Definition balanced t : Prop := wset (sui_in t) (modified t) = msum object_sui (written t).

Definition total_rebate t : Z := wset (rebate_in t) (modified t).

(** A store whose mutable inputs have all been touched and whose gas coin can pay [budget]. *)
Record ready t (first : ObjectID) (budget : Z) : Prop := {
  rd_store : store_ok t;
  rd_first : first ∈ dom (mutable_input_refs t);
  rd_touched : dom (mutable_input_refs t) ⊆ modified t;
  rd_known : ∀ id, id ∈ modified t → old_known t id;
  rd_sui : ∀ id o, written t !! id = Some o → is_Some (sui_of o);
  rd_balanced : balanced t;
  rd_rebate : budget + total_rebate t < 2 ^ 63;
  rd_gas : ∃ o, written t !! first = Some o ∧ is_coin_obj o ∧ budget <= coin_value o ∧
    coin_value o + total_rebate t < U64_MOD;
}.

Lemma total_rebate_nonneg t : store_ok t → 0 <= total_rebate t.
Proof. intros Ht. apply wset_nonneg. intros id. by apply rebate_in_nonneg. Qed.

(** The totals of the status say what the store says. *)
Definition accounted (s : SuiGasStatus) t : Prop :=
  V2.storage_cost s = msum storage_rebate (written t) ∧ is_u64 (V2.storage_cost s) ∧
    V2.storage_rebate s = total_rebate t ∨
  V2.storage_cost s = 0 ∧ total_rebate t = msum storage_rebate (written t) + V2.storage_rebate s.

Record payable (s : SuiGasStatus) t (first : ObjectID) : Prop := {
  py_ready : ready t first (V2.gas_budget s);
  py_status : gas_status_ok s;
  py_computation : 0 <= V2.computation_cost s <= V2.gas_budget s;
  py_rebate : 0 <= V2.storage_rebate s <= total_rebate t;
  py_cost : 0 <= V2.storage_cost s;
  py_accounted : accounted s t;
  py_budget : V2.computation_cost s + V2.storage_cost s - sender_rebate (V2.storage_rebate s) (V2.rebate_rate s)
                <= V2.gas_budget s;
}.

(** What the gas coin pays. *)
Definition net (s : GasCostSummary) : Z :=
  Summary.computation_cost s + Summary.storage_cost s - Summary.storage_rebate s.

Lemma net_gas_usage_ok (s : GasCostSummary) :
  0 <= Summary.computation_cost s → 0 <= Summary.storage_cost s → 0 <= Summary.storage_rebate s →
  Summary.computation_cost s + Summary.storage_cost s < 2 ^ 63 → Summary.storage_rebate s < 2 ^ 63 →
  Summary.net_gas_usage s = Ret (net s).
Proof.
  intros. unfold Summary.net_gas_usage, Summary.gas_used. rewrite cadd_fits by (change U64_MOD with (2 ^ 64); lia).
  cbn [mbind outcome_bind]. unfold Summary.csub_i64, Summary.as_i64, net.
  destruct (Z.ltb_spec (Summary.computation_cost s + Summary.storage_cost s) (2 ^ 63)); [|lia].
  destruct (Z.ltb_spec (Summary.storage_rebate s) (2 ^ 63)); [|lia].
  rewrite (proj2 (Z.leb_le _ _)), (proj2 (Z.ltb_lt _ _)) by lia. done.
Qed.

(** The store after the gas coin has paid. *)
Lemma pay_store t first o o' budget :
  ready t first budget → written t !! first = Some o → is_coin_obj o → same_but_balance o o' →
  let t' := Temp.insert_written t first o' in
  store_ok t' ∧ modified t' = modified t ∧ total_rebate t' = total_rebate t ∧
  msum storage_rebate (written t') = msum storage_rebate (written t) ∧
  msum object_sui (written t') = msum object_sui (written t) - coin_value o + coin_value o' ∧
  (∀ id o, written t' !! id = Some o → is_Some (sui_of o)).
Proof.
  intros [] Ho Hc [] t'. assert (modified t' = modified t) as Hmod by (cbn; set_solver).
  split_and!; [|done|unfold total_rebate; by rewrite Hmod|..].
  - apply insert_written_ok; [done| |done]. rewrite sb_id0. by apply (so_written t).
  - cbn. rewrite (msum_replace _ _ _ o) by done. lia.
  - cbn. rewrite (msum_replace _ _ _ o) by done. unfold object_sui. rewrite !coin_sui by done. done.
  - cbn. intros id o1. destruct (decide (id = first)) as [->|Hne].
    + rewrite lookup_insert_eq. intros [= <-]. rewrite coin_sui by done. by eexists.
    + rewrite lookup_insert_ne by done. apply rd_sui0.
Qed.

(** The last part of [charge_gas]. *)
Lemma settle_ok s t first :
  payable s t first →
  ∃ c o o' t', V2.summary s = Ret c ∧ Summary.net_gas_usage c = Ret (net c) ∧
    Temp.read_object t first = Some o ∧ deduct_gas o (net c) = Ret o' ∧
    Temp.mutate_input_object t o' = Ret t' ∧ t' = Temp.insert_written t first o' ∧
    written t !! first = Some o ∧ same_but_balance o o' ∧ coin_value o' = coin_value o - net c ∧
    Temp.check_sui_conserved t' true c = Ret (Ok tt) ∧
    Temp.check_sui_conserved_expensive t' c None = Ret (Ok tt) ∧
    0 <= Summary.computation_cost c <= V2.gas_budget s ∧ net c <= V2.gas_budget s.
Proof.
  intros [Hr Hst Hcomp Hreb Hcost Hacc Hbud]. pose proof Hr as [Ht Hf Htouch Hknown Hsui Hbal Hfit Hgas].
  destruct Hgas as (o & Ho & Hoc & Hble & Hbfit). pose proof (total_rebate_nonneg t Ht) as Htr.
  destruct (summary_spec s Hst) as (sr & Hsr & Hsreq & Hsum).
  { split; [lia|]. change U64_MOD with (2 ^ 64). lia. }
  rewrite <- Hsreq in Hbud. set (c := Summary.mkSummary _ _ _ _) in Hsum.
  assert (net c = V2.computation_cost s + V2.storage_cost s - sr) as Hnet by done.
  destruct (coin_value_ok o (match data o with Move m => m | Package _ => mkMoveObject GasCoin true 0 [] end)) as [_ Hval].
  { by destruct Hoc as (m & -> & _). }
  { by destruct Hoc as (m & -> & _ & ?). }
  unfold is_u64 in Hval.
  assert (deduct_gas o (net c) = Ret (set_coin o (coin_value o - net c))) as Hded.
  { apply deduct_gas_ok; [done|rewrite Hnet; lia..]. }
  pose proof Hoc as (m & Hd & _).
  destruct (set_coin_ok o m (coin_value o - net c) Hoc Hd ltac:(unfold is_u64; rewrite Hnet; lia)) as (_ & _ & _ & Hsb & Hval').
  set (o' := set_coin o (coin_value o - net c)) in *.
  assert (Obj.id o' = Ret first) as Hid by (destruct Hsb as [_ -> _ _]; by apply (so_written t Ht)).
  destruct (pay_store t first o o' _ Hr Ho Hoc Hsb) as (Ht' & Hmod & Htr' & Hreb' & Hsui' & Hws').
  exists c, o, o', (Temp.insert_written t first o'). split_and!; try done; try (rewrite ?Hnet; cbn; lia).
  - apply net_gas_usage_ok; cbn; lia.
  - unfold Temp.read_object. by rewrite Ho.
  - by apply mutate_input_ok.
  - apply check_sui_conserved_ok; [done|]. fold (total_rebate (Temp.insert_written t first o')).
    rewrite Htr', Hreb'. subst c. cbn. destruct Hacc as [(-> & Hu & Hre)|(-> & Hre)]; [left|right]; split_and!; try done; lia.
  - apply check_sui_conserved_expensive_ok; [done| |done|].
    + rewrite Hmod. intros id Hid'. exact (Hknown id Hid').
    + fold (total_rebate (Temp.insert_written t first o')). rewrite Htr', Hreb', Hsui', Hmod, Hval', Hnet.
      change (sui_in (Temp.insert_written t first o')) with (sui_in t). unfold balanced in Hbal. rewrite Hbal.
      subst c. cbn. destruct Hacc as [(-> & _ & Hre)|(-> & Hre)]; lia.
Qed.
End settle.

(** ** The ways to the bill *)

Section ways.
Context `{!ObjectEnv} `{!ObjectEnvLaws} `{!BackingStore}.
Implicit Types (g : GasCharger) (t : TemporaryStore).

(** The charger [g] with another computation cost and other storage totals. *)
Definition at_costs g (c a b u : Z) : GasCharger :=
  with_status g (V2.with_storage (V2.with_computation_cost (charger_status g) c) a b u).

Lemma at_costs_status g c a b u : gas_status_ok (charger_status g) → gas_status_ok (charger_status (at_costs g c a b u)).
Proof. intros []. by split. Qed.

Lemma at_costs_metered g c a b u : metered g → 0 <= a → 0 <= b → metered (at_costs g c a b u).
Proof. intros [] ??. by split. Qed.

(** What the charging relies on that the execution does not touch. *)
Record base_ok g t (first : ObjectID) (rest : list ObjectID) : Prop := {
  bo_status : gas_status_ok (charger_status g);
  bo_metered : metered g;
  bo_coins : gas_coins_ok g t first rest;
  bo_smashed : smashed_gas_coin g = Some first;
  bo_known : ∀ id, id ∈ dom (mutable_input_refs t) → old_known t id;
  bo_cost : msum (object_cost g) (inputs_at t (dom (mutable_input_refs t))) < U64_MOD;
  bo_budget : V2.gas_budget (charger_status g) <= wsum (coin_in t) (first :: rest);
  bo_rebate : V2.gas_budget (charger_status g) + wset (rebate_in t) (dom (mutable_input_refs t)) < 2 ^ 63;
  bo_total : wsum (coin_in t) (first :: rest) + wset (rebate_in t) (dom (mutable_input_refs t)) < U64_MOD;
}.

Lemma base_ok_base g t t' first rest : same_base t t' → base_ok g t first rest → base_ok g t' first rest.
Proof.
  intros Hb []. pose proof Hb as (Hi & Hm & Hl & _).
  assert (∀ id, rebate_in t' id = rebate_in t id) as Hr by (intros id; by rewrite Hb).
  split; try done; rewrite ?Hm.
  - by apply (gas_coins_base g _ t).
  - intros id Hid. destruct (bo_known0 id Hid) as (m & o & Hmeta & Ho & Hs & Hreb). exists m, o.
    rewrite (meta_of_base t t') by done. unfold old_object in *. by rewrite Hi.
  - unfold inputs_at. by rewrite Hi.
  - unfold coin_in. by rewrite Hi.
  - by rewrite (wset_ext _ (rebate_in t)).
  - unfold coin_in. rewrite Hi. by rewrite (wset_ext _ (rebate_in t)).
Qed.

Lemma msum_inputs_at f t (s : gset Z) :
  (∀ id, id ∈ s → is_Some (input_objects t !! id)) →
  msum f (inputs_at t s) = wset (λ id, default 0 (f <$> input_objects t !! id)) s.
Proof.
  intros Hs. rewrite (msum_dom (λ id, default 0 (f <$> input_objects t !! id))).
  - f_equal. apply set_eq. intros id. rewrite elem_of_dom. split.
    + intros [o Ho]. by apply map_lookup_filter_Some in Ho as [_ ?].
    + intros Hid. rewrite inputs_at_lookup by done. auto.
  - intros k o Hk. apply map_lookup_filter_Some in Hk as [-> _]. done.
Qed.

Lemma sui_in_mutable t id :
  old_known t id → store_ok t → id ∈ dom (mutable_input_refs t) →
  ∃ o, input_objects t !! id = Some o ∧ is_Some (sui_of o) ∧ sui_in t id = object_sui o ∧
    rebate_in t id = storage_rebate o.
Proof.
  intros (m & o & Hm & Ho & Hs & Hr) Ht Hid. destruct (meta_of_mutable t id Ht Hid) as (o' & m' & Hi & Hm' & Hrb).
  exists o'. unfold old_object in Ho. rewrite Hi in Ho.
  destruct (Obj.version o' =? md_version m) eqn:Hv; simplify_eq.
  split_and!; try done. unfold sui_in. rewrite Hm. cbn [mbind option_bind]. unfold old_object.
  by rewrite Hi, Hv.
Qed.

(** Sums over a fresh store. *)
Lemma fresh_sum (f : Object → Z) g t first rest t' :
  base_ok g t first rest → store_ok t → fresh t first rest t' →
  let M := dom (mutable_input_refs t) in
  ∃ o o1, input_objects t !! first = Some o ∧ written t' !! first = Some o1 ∧ same_but_balance o o1 ∧
    coin_value o1 = wsum (coin_in t) (first :: rest) ∧
    msum f (written t') = f o1 + wset (λ id, default 0 (f <$> input_objects t !! id)) (M ∖ list_to_set (first :: rest)).
Proof.
  intros Hb Ht [_ _ _ _ (o & o1 & Ho & Hsb & Hval & Hw)] M. exists o, o1. split_and!; try done.
  - by rewrite Hw, lookup_insert_eq.
  - rewrite Hw, msum_insert by (apply inputs_at_None; set_solver).
    rewrite msum_inputs_at; [done|]. intros id [Hid _]%elem_of_difference. by apply (so_mutable t Ht).
Qed.

(** The gas coins, as a part of the mutable inputs. *)
Lemma gas_set_split g t first rest (w : Z → Z) :
  gas_coins_ok g t first rest →
  let M := dom (mutable_input_refs t) in
  wset w M = wsum w (first :: rest) + wset w (M ∖ list_to_set (first :: rest)) ∧
  wset w M = w first + wset w (M ∖ list_to_set (first :: rest)) + wset w (list_to_set rest) ∧
  list_to_set (first :: rest) ⊆ M.
Proof.
  intros [] M. assert (list_to_set (C := gset Z) (first :: rest) ⊆ M) as Hsub.
  { intros id Hid%elem_of_list_to_set. by apply gc_mutable0. }
  pose proof (wset_difference w M _ Hsub) as Hd. rewrite wset_list_to_set in Hd by done.
  apply NoDup_cons in gc_nodup0 as [_ Hnd].
  split_and!; [done| |done]. rewrite (wset_list_to_set w rest) by done. rewrite wsum_cons in Hd. lia.
Qed.

Lemma fresh_balanced g t first rest t' :
  base_ok g t first rest → store_ok t → fresh t first rest t' → balanced t'.
Proof.
  intros Hb Ht Hf. destruct (fresh_sum object_sui g t first rest t' Hb Ht Hf) as (o & o1 & Ho & Ho1 & Hsb & Hval & Hsum).
  destruct Hf as [(Hi & Hm & Hl & _) Hmod _ _ _]. destruct Hb. unfold balanced. rewrite Hmod, Hsum.
  assert (∀ id, sui_in t' id = sui_in t id) as Hsi.
  { intros id. unfold sui_in, meta_of, old_object. by rewrite Hi, Hm, Hl. }
  rewrite (wset_ext _ (sui_in t)) by (intros; apply Hsi).
  destruct (gas_set_split g t first rest (sui_in t) bo_coins0) as (-> & _ & Hsub). f_equal.
  - unfold object_sui. rewrite coin_sui by (by destruct Hsb). cbn [default from_option]. rewrite Hval.
    apply wsum_ext. intros id Hid. destruct bo_coins0. destruct (gc_coin0 id Hid) as (oi & Hoi & Hc).
    destruct (sui_in_mutable t id) as (o2 & Ho2 & _ & -> & _); [auto..|]. assert (o2 = oi) as -> by congruence.
    unfold coin_in, object_sui. by rewrite Hoi, coin_sui.
  - apply wset_ext. intros id [Hid _]%elem_of_difference.
    destruct (sui_in_mutable t id) as (o2 & -> & _ & -> & _); auto.
Qed.

Lemma fresh_ready g t first rest t' :
  base_ok g t first rest → store_ok t → store_ok t' → fresh t first rest t' →
  ready t' first (V2.gas_budget (charger_status g)) ∧ msum (object_cost g) (written t') < U64_MOD.
Proof.
  intros Hb Ht Ht' Hf. pose proof (fresh_balanced _ _ _ _ _ Hb Ht Hf) as Hbal.
  destruct (fresh_sum (object_cost g) g t first rest t' Hb Ht Hf) as (o & o1 & Ho & Ho1 & Hsb & Hval & Hsum).
  pose proof Hf as [Hbase Hmod _ _ (o2 & o3 & Ho2 & Hsb2 & Hval2 & Hw)]. pose proof Hb as Hb0. destruct Hb.
  destruct (base_ok_base g t t' first rest Hbase Hb0) as [_ _ _ _ Hknown _ _ _ _].
  assert (mutable_input_refs t' = mutable_input_refs t) as HM by apply Hbase.
  assert (total_rebate t' = wset (rebate_in t) (dom (mutable_input_refs t))) as Htr.
  { unfold total_rebate. rewrite Hmod. apply wset_ext. intros. by rewrite Hbase. }
  split.
  - split; [done|rewrite HM; apply bo_coins0; left|by rewrite HM, Hmod| | |done|by rewrite Htr|].
    + rewrite Hmod, <- HM. done.
    + intros id oi. rewrite Hw. destruct (decide (id = first)) as [->|Hne].
      * rewrite lookup_insert_eq. intros [= <-]. rewrite coin_sui by apply Hsb2. by eexists.
      * rewrite lookup_insert_ne by done. intros [Hi Hin]%map_lookup_filter_Some.
        apply elem_of_difference in Hin as [Hin _].
        destruct (sui_in_mutable t id) as (o4 & Ho4 & Hs & _); [auto..|]. cbn in *. congruence.
    + exists o1. rewrite Htr, Hval. split_and!; try done. apply Hsb.
  - rewrite Hsum. eapply Z.le_lt_trans; [|exact bo_cost0].
    rewrite msum_inputs_at by (intros; by apply (so_mutable t Ht)).
    set (w := λ id, default 0 (object_cost g <$> input_objects t !! id)).
    destruct (gas_set_split g t first rest w bo_coins0) as (_ & -> & Hsub).
    assert (∀ id, 0 <= w id) as Hw0.
    { intros id. unfold w. destruct (input_objects t !! id); [by apply object_cost_nonneg|done]. }
    assert (0 <= wset w (list_to_set rest)) by (by apply wset_nonneg).
    assert (w first = object_cost g o1) as ->; [|lia].
    unfold w. rewrite Ho. cbn [fmap option_fmap option_map default from_option]. unfold object_cost. by rewrite (sb_size _ _ Hsb).
Qed.

Lemma fresh_rebates g t first rest t' :
  base_ok g t first rest → store_ok t → fresh t first rest t' →
  modified t' ∖ dom (written t') = list_to_set rest ∧
  total_rebate t' = msum storage_rebate (written t') + wset (rebate_in t') (list_to_set rest).
Proof.
  intros Hb Ht Hf. destruct (fresh_sum storage_rebate g t first rest t' Hb Ht Hf) as (o & o1 & Ho & Ho1 & Hsb & Hval & Hsum).
  destruct Hf as [Hbase Hmod _ _ (o2 & o3 & Ho2 & Hsb2 & Hval2 & Hw)]. pose proof Hb as []. 
  destruct (gas_set_split g t first rest (rebate_in t) bo_coins0) as (_ & Hsplit & Hsub).
  assert (∀ id, id ∈ dom (mutable_input_refs t) → rebate_in t id = default 0 (storage_rebate <$> input_objects t !! id)) as Hre.
  { intros id Hid. by destruct (sui_in_mutable t id) as (o4 & -> & _ & _ & ->); auto. }
  split.
  - rewrite Hmod, Hw, dom_insert_L. pose proof (gc_nodup _ _ _ _ bo_coins0) as [Hnf _]%NoDup_cons.
    assert (dom (inputs_at t (dom (mutable_input_refs t) ∖ list_to_set (first :: rest))) =
      dom (mutable_input_refs t) ∖ list_to_set (first :: rest)) as ->.
    { apply set_eq. intros id. rewrite elem_of_dom. split.
      - intros [oi Hi]. by apply map_lookup_filter_Some in Hi as [_ ?].
      - intros Hid. rewrite inputs_at_lookup by done. apply (so_mutable t Ht). set_solver. }
    apply set_eq. intros id. rewrite list_to_set_cons in Hsub |- *. specialize (Hsub id).
    rewrite <- (elem_of_list_to_set (C := gset Z)) in Hnf.
    rewrite !elem_of_difference, !elem_of_union, !elem_of_difference, !elem_of_union, !elem_of_singleton in *.
    destruct (decide (id = first)) as [->|]; [tauto|].
    destruct (decide (id ∈ (list_to_set rest : gset Z))); tauto.
  - assert (total_rebate t' = wset (rebate_in t) (dom (mutable_input_refs t))) as ->.
    { unfold total_rebate. rewrite Hmod. apply wset_ext. intros. by rewrite Hbase. }
    rewrite (wset_ext (rebate_in t') (rebate_in t)) by (intros; by rewrite Hbase).
    rewrite Hsplit, Hsum. f_equal. f_equal.
    + rewrite Hre by (apply Hsub; set_solver). rewrite Ho. cbn. by rewrite (sb_rebate _ _ Hsb).
    + apply wset_ext. intros id Hid. apply Hre. set_solver.
Qed.
End ways.

(** ** [charge_gas] *)

Section charge.
Context `{!ObjectEnv} `{!ObjectEnvLaws} `{!BackingStore}.
Implicit Types (g : GasCharger) (t : TemporaryStore).

(** What a successful execution has to leave behind, which the Move runtime is relied on for:
    SUI in balance before any charge, a gas coin that still holds the budget, and rebates and
    storage costs whose sums fit. *)
Record executed g t (first : ObjectID) : Prop := {
  ex_known : ∀ id, id ∈ modified t → old_known t id;
  ex_sui : ∀ id o, written t !! id = Some o → is_Some (sui_of o);
  ex_balanced : balanced t;
  ex_gas_kept : first ∈ modified t → first ∈ dom (written t);
  ex_gas : ∃ o, Temp.read_object t first = Some o ∧ is_coin_obj o ∧
    V2.gas_budget (charger_status g) <= coin_value o ∧
    coin_value o + wset (rebate_in t) (modified t ∪ dom (mutable_input_refs t)) < U64_MOD;
  ex_rebate : V2.gas_budget (charger_status g) +
    wset (rebate_in t) (modified t ∪ dom (mutable_input_refs t)) < 2 ^ 63;
  ex_cost : msum (object_cost g) (written t) +
    msum (object_cost g) (inputs_at t (dom (mutable_input_refs t))) < U64_MOD;
}.

Lemma untouched_disjoint t : store_ok t → inputs_at t (untouched t) ##ₘ written t.
Proof.
  intros Ht. apply map_disjoint_spec. intros id o1 o2 [_ Hid]%map_lookup_filter_Some Ho.
  cbn in Hid. unfold untouched in Hid. apply elem_of_difference in Hid as [HM Hm].
  apply Hm, (so_written_mutable t Ht); [done|].
  by apply elem_of_dom_2 in Ho.
Qed.

(** The store after the untouched inputs have been written back. *)
Lemma executed_ready g t first rest :
  base_ok g t first rest → store_ok t → executed g t first →
  let t' := write_inputs t (untouched t) in
  ready t' first (V2.gas_budget (charger_status g)) ∧ msum (object_cost g) (written t') < U64_MOD.
Proof.
  intros Hb Ht [Hknown Hsui Hbal Hkept (o & Ho & Hc & Hble & Hfit) Hreb Hcost] t'. destruct Hb.
  assert (first ∈ dom (mutable_input_refs t)) as Hfirst by (apply bo_coins0; left).
  set (M := dom (mutable_input_refs t)) in *.
  assert (modified t' = modified t ∪ M) as Hmod.
  { cbn. unfold untouched. fold M. apply set_eq. intros id. destruct (decide (id ∈ modified t)); set_solver. }
  pose proof (untouched_disjoint t Ht) as Hdisj.
  assert (∀ f, msum f (written t') = msum f (inputs_at t (untouched t)) + msum f (written t)) as Hsum
    by (intros f; by apply msum_union).
  assert (∀ id, id ∈ untouched t → id ∈ M) as Hun by (unfold untouched; set_solver).
  assert (∀ id, id ∈ untouched t → is_Some (input_objects t !! id)) as Hin by (intros; by apply (so_mutable t Ht), Hun).
  split; [split|].
  - apply write_inputs_ok; [done|]. unfold untouched. set_solver.
  - done.
  - change (dom (mutable_input_refs t')) with M. rewrite Hmod. set_solver.
  - rewrite Hmod. intros id [Hid|Hid]%elem_of_union; [exact (Hknown id Hid)|exact (bo_known0 id Hid)].
  - intros id oi. change (written t') with (inputs_at t (untouched t) ∪ written t). rewrite lookup_union_Some by done.
    intros [[Hi Hid]%map_lookup_filter_Some|Hi]; [|by eapply Hsui].
    destruct (sui_in_mutable t id) as (o4 & Ho4 & Hs & _); [by apply bo_known0, Hun|done|by apply Hun|]. cbn in *. congruence.
  - unfold balanced. rewrite Hmod, Hsum. change (sui_in t') with (sui_in t).
    assert (modified t ∪ M = untouched t ∪ modified t) as ->.
    { unfold untouched. fold M. apply set_eq. intros id. destruct (decide (id ∈ modified t)); set_solver. }
    rewrite wset_disj_union by (unfold untouched; set_solver). unfold balanced in Hbal. rewrite Hbal. f_equal.
    rewrite msum_inputs_at by done. apply wset_ext. intros id Hid.
    destruct (sui_in_mutable t id) as (o4 & -> & _ & -> & _); [by apply bo_known0, Hun|done|by apply Hun|done].
  - unfold total_rebate. by rewrite Hmod.
  - exists o. unfold total_rebate. rewrite Hmod. split_and!; try done.
    change (written t') with (inputs_at t (untouched t) ∪ written t). rewrite lookup_union_Some by done.
    unfold Temp.read_object in Ho. destruct (written t !! first) as [o'|] eqn:Hw; [right; congruence|].
    left. rewrite inputs_at_lookup; [done|]. unfold untouched. apply elem_of_difference. split; [done|]. intros Hm.
    apply Hkept, elem_of_dom in Hm as [? ?]. congruence.
  - rewrite Hsum. eapply Z.le_lt_trans; [|exact Hcost]. rewrite Z.add_comm. apply Z.add_le_mono_l.
    rewrite !msum_inputs_at by (done || (intros; by apply (so_mutable t Ht))). apply wset_mono.
    + intros id. destruct (input_objects t !! id); [by apply object_cost_nonneg|done].
    + intros id. apply Hun.
Qed.

Lemma with_costs_ready g t first budget : ready t first budget → ready (with_costs g t) first budget.
Proof.
  intros []. split; try done.
  - by apply with_costs_ok.
  - intros id o Ho. cbn in Ho. apply lookup_fmap_Some in Ho as (o' & <- & Ho). exact (rd_sui0 id o' Ho).
  - unfold balanced in *. cbn [with_costs Temp.set_written Temp.with_results execution_results written_objects].
    rewrite msum_fmap. exact rd_balanced0.
  - destruct rd_gas0 as (o & Ho & Hc & Hb & Hf). exists (with_rebate o (object_cost g o)).
    split_and!; try done. cbn. by rewrite lookup_fmap, Ho.
Qed.

(** Collecting the storage charges: either the budget pays for them, or the check fails. *)
Lemma collect_payable g t first c u :
  gas_status_ok (charger_status g) → metered g →
  ready t first (V2.gas_budget (charger_status g)) → msum (object_cost g) (written t) < U64_MOD →
  0 <= c <= V2.gas_budget (charger_status g) →
  ∃ a b, let g' := at_costs g c a b u in let t' := with_costs g t in
    Temp.collect_storage_and_rebate t (at_costs g c 0 0 u) = Ret (t', g') ∧ store_ok t' ∧
    (V2.charge_storage_and_rebate (charger_status g') = Ret (Ok tt) ∧ payable (charger_status g') t' first ∨
     V2.charge_storage_and_rebate (charger_status g') = Ret (Err InsufficientGas)).
Proof.
  intros Hst Hme Hr Hcost Hc. pose proof Hr as []. pose proof (total_rebate_nonneg t rd_store0) as Htr.
  exists (msum (object_cost g) (written t)), (total_rebate t). cbv zeta.
  set (g' := at_costs g c (msum (object_cost g) (written t)) (total_rebate t) u). pose proof (with_costs_ready g t first _ Hr) as Hr'.
  assert (0 <= msum (object_cost g) (written t)) as Hc0 by (apply msum_nonneg; intros; by apply object_cost_nonneg).
  assert (2 ^ 63 < U64_MOD) as HU by done.
  assert (0 <= V2.gas_budget (charger_status g)) as Hb0 by (destruct Hst as [_ []]; done).
  assert (gas_status_ok (charger_status g')) as Hst' by (by apply at_costs_status).
  split; [|split; [by apply with_costs_ok|]].
  - rewrite collect_storage_ok; [done|done|by apply at_costs_metered|done|]. cbn. fold (total_rebate t). lia.
  - pose proof (charge_storage_spec (charger_status g') Hst') as Hcs. cbv zeta in Hcs.
    rewrite Hcs; [|split; cbn; lia|cbn; lia].
    case_decide as Hle; [left|by right]. split; [done|]. split; try done; cbn.
    left. split_and!; cbn; try done. unfold with_costs. cbn [Temp.set_written Temp.with_results execution_results written_objects].
    by rewrite msum_fmap.
Qed.

(** The last resort always works. *)
Lemma whole_budget_payable g t first rest c a b u :
  base_ok g t first rest → store_ok t →
  ∃ g' t', Charger.charge_whole_budget (at_costs g c a b u) t = Ret (g', t') ∧
    (∃ c a b u, g' = at_costs g c a b u) ∧ payable (charger_status g') t' first ∧ fresh t first rest t'.
Proof.
  intros Hb Ht. pose proof Hb as []. set (budget := V2.gas_budget (charger_status g)) in *.
  destruct (reset_spec (at_costs g c a b u) t first rest) as (t1 & t2 & Hreset & Ht1 & Hens & Ht2 & Hf);
    [by apply (gas_coins_base g _ t)|done|done|].
  destruct (fresh_ready g t first rest t2 Hb Ht Ht2 Hf) as [Hr _].
  destruct (fresh_rebates g t first rest t2 Hb Ht Hf) as [Hdel Htr].
  assert (0 <= budget) as Hb0 by (destruct bo_status0 as [_ []]; done).
  assert (2 ^ 63 < U64_MOD) as HU by done.
  set (x := wset (rebate_in t2) (list_to_set rest)) in *.
  assert (0 <= x) as Hx by (apply wset_nonneg; intros; by apply rebate_in_nonneg).
  assert (x <= total_rebate t2) as Hxt.
  { rewrite <- (fr_modified _ _ _ _ Hf) in *. subst x. rewrite <- Hdel. apply wset_mono; [intros; by apply rebate_in_nonneg|set_solver]. }
  pose proof (rd_rebate _ _ _ Hr) as Hfit. fold budget in Hfit.
  exists (at_costs g budget 0 x 0), t2. split_and!; [|by do 4 eexists| |done].
  - unfold Charger.charge_whole_budget. rewrite Hreset. cbn [mbind outcome_bind]. rewrite Hens. cbn [mbind outcome_bind].
    rewrite collect_rebate_ok; [|done|apply (at_costs_metered g budget 0 0 0); [done|lia..]|done|].
    + rewrite Hdel. fold x. done.
    + rewrite Hdel. fold x. cbn. lia.
  - assert (gas_status_ok (charger_status (at_costs g budget 0 x 0))) as Hst by (by apply at_costs_status).
    destruct (sender_rebate_spec x (V2.rebate_rate (charger_status g))) as [Hsr _]; [split; lia|by destruct bo_status0|].
    split; try done; cbn; try (fold budget; lia). right. cbn. split; [done|]. lia.
Qed.

(** The contents of the written objects other than the gas coin. *)
Definition contents_but (first : ObjectID) (m : gmap Z Object) : gmap Z (Data * Owner * TransactionDigest) :=
  (λ o, (data o, owner o, previous_transaction o)) <$> delete first m.

Lemma contents_with_costs g t first : contents_but first (written (with_costs g t)) = contents_but first (written t).
Proof.
  unfold contents_but. cbn. rewrite <- fmap_delete, <- map_fmap_compose. by apply map_fmap_ext.
Qed.

Lemma contents_fresh t first rest t' :
  fresh t first rest t' →
  contents_but first (written t') =
    contents_but first (inputs_at t (dom (mutable_input_refs t) ∖ list_to_set (first :: rest))).
Proof. intros [_ _ _ _ (o & o1 & _ & _ & _ & ->)]. unfold contents_but. by rewrite delete_insert_eq. Qed.

(** What the writes of a transaction come to: those of the execution, or only the inputs. *)
Definition kept t (first : ObjectID) t' : Prop :=
  contents_but first (written t') = contents_but first (written (write_inputs t (untouched t))).
Definition dropped t (first : ObjectID) (rest : list ObjectID) t' : Prop :=
  contents_but first (written t') =
    contents_but first (inputs_at t (dom (mutable_input_refs t) ∖ list_to_set (first :: rest))) ∧
  modified t' = dom (mutable_input_refs t) ∧ created t' = ∅ ∧ user_events (execution_results t') = [].

(** The balance of the gas coin. *)
Definition holds t (first : ObjectID) (v : Z) : Prop := ∃ o, written t !! first = Some o ∧ coin_value o = v.

(** The transaction has been undone, and the gas coin holds all the gas coins. *)
Definition undone t (first : ObjectID) (rest : list ObjectID) t' : Prop :=
  dropped t first rest t' ∧ holds t' first (wsum (coin_in t) (first :: rest)).

Lemma undone_fresh t first rest t' : fresh t first rest t' → undone t first rest t'.
Proof.
  intros Hf. split; [split_and!; [by apply contents_fresh|apply Hf..]|].
  destruct Hf as [_ _ _ _ (o & o1 & _ & _ & Hv & Hw)]. exists o1. by rewrite Hw, lookup_insert_eq.
Qed.

Lemma holds_with_costs g t first v : holds t first v → holds (with_costs g t) first v.
Proof. intros (o & Ho & Hv). exists (with_rebate o (object_cost g o)). split; [|done]. cbn. by rewrite lookup_fmap, Ho. Qed.

Lemma undone_with_costs g t first rest t' : undone t first rest t' → undone t first rest (with_costs g t').
Proof.
  intros [(Hc & ? & ? & ?) Hh]. split; [|by apply holds_with_costs]. split_and!; try done. by rewrite contents_with_costs.
Qed.

Lemma undone_base t t0 first rest t' : same_base t t0 → undone t0 first rest t' → undone t first rest t'.
Proof. intros (Hi & Hm & _). unfold undone, dropped, coin_in, inputs_at. by rewrite Hi, Hm. Qed.

(** Both handlers, on a charger that has collected the storage charges. *)
Lemma handle_ok {T} (v2 : bool) g t first rest c a b u (r : result ExecutionError T) :
  base_ok g t first rest → store_ok t → 0 <= c <= V2.gas_budget (charger_status g) →
  let g0 := at_costs g c a b u in
  V2.charge_storage_and_rebate (charger_status g0) = Ret (Ok tt) ∧ payable (charger_status g0) t first ∨
  V2.charge_storage_and_rebate (charger_status g0) = Ret (Err InsufficientGas) →
  ∃ g' t' r',
    (if v2 then Charger.handle_storage_and_rebate_v2 g0 t r else Charger.handle_storage_and_rebate_v1 g0 t r) =
      Ret (g', t', r') ∧
    (∃ c a b u, g' = at_costs g c a b u) ∧ payable (charger_status g') t' first ∧
    (t' = t ∧ r' = r ∨ undone t first rest t' ∧ r' = Charger.fail_with InsufficientGas r).
Proof.
  intros Hb Ht Hc g0 [[Hok Hpay]|Herr].
  { exists g0, t, r. split; [|split; [by do 4 eexists|]; split; [done|by left]].
    destruct v2; [unfold Charger.handle_storage_and_rebate_v2|unfold Charger.handle_storage_and_rebate_v1]; by rewrite Hok. }
  destruct v2.
  - destruct (reset_spec g0 t first rest) as (t1 & t2 & Hreset & Ht1 & Hens & Ht2 & Hf);
      [by apply (gas_coins_base g _ t), Hb|done|apply Hb|].
    destruct (fresh_ready g t first rest t2 Hb Ht Ht2 Hf) as [Hr Hcost].
    destruct (collect_payable g t2 first c 0 (bo_status _ _ _ _ Hb) (bo_metered _ _ _ _ Hb) Hr Hcost Hc)
      as (a' & b' & Hcol & Ht3 & Hch). cbv zeta in *.
    assert (same_base t (with_costs g t2)) as Hbase by (etrans; [apply Hf|done]).
    pose proof (undone_with_costs g t first rest t2 (undone_fresh _ _ _ _ Hf)) as Hdrop.
    assert (Charger.handle_storage_and_rebate_v2 g0 t r =
      (gt ← Ret (at_costs g c a' b' 0, with_costs g t2);
       let '(g, t) := gt in
       c ← V2.charge_storage_and_rebate (charger_status g);
       match c with
       | Err err => gt ← Charger.charge_whole_budget g t; Ret (gt.1, gt.2, Charger.fail_with err r)
       | Ok _ => Ret (g, t, Charger.fail_with InsufficientGas r)
       end)) as ->.
    { unfold Charger.handle_storage_and_rebate_v2. rewrite Herr. cbn [mbind outcome_bind]. rewrite Hreset.
      cbn [mbind outcome_bind]. rewrite Hens. cbn [mbind outcome_bind].
      change (Charger.reset_storage_cost_and_rebate g0) with (at_costs g c 0 0 0). by rewrite Hcol. }
    cbn [mbind outcome_bind]. destruct Hch as [[-> Hpay]| ->]; cbn [mbind outcome_bind].
    + do 3 eexists. split; [done|]. split; [by do 4 eexists|]. split; [done|by right].
    + destruct (whole_budget_payable g (with_costs g t2) first rest c a' b' 0) as (g' & t' & -> & Hg' & Hpay & Hf');
        [by apply (base_ok_base g t)|done|]. cbn [mbind outcome_bind fst snd].
      do 3 eexists. split; [done|]. split; [done|]. split; [done|]. right. split; [|done].
      by apply (undone_base t _ _ _ _ Hbase), undone_fresh.
  - destruct (whole_budget_payable g t first rest c a b u Hb Ht) as (g' & t' & Hw & Hg' & Hpay & Hf').
    exists g', t', (Charger.fail_with InsufficientGas r). split.
    + unfold Charger.handle_storage_and_rebate_v1. rewrite Herr. cbn [mbind outcome_bind]. subst g0. by rewrite Hw.
    + split; [done|]. split; [done|]. right. split; [by apply undone_fresh|done].
Qed.

(** Everything that charging for gas needs: a well-formed store and payment, nothing charged
    for storage yet, and, when the execution succeeded, results as in [executed].  Of an
    execution that failed nothing is required: its writes are dropped. *)
Record chargeable {T} g t (r : result ExecutionError T) (first : ObjectID) (rest : list ObjectID) : Prop := {
  ch_base : base_ok g t first rest;
  ch_store : store_ok t;
  ch_round : rounding_fits (charger_status g);
  ch_zero : V2.storage_cost (charger_status g) = 0 ∧ V2.storage_rebate (charger_status g) = 0;
  ch_executed : ∀ v, r = Ok v → executed g t first;
}.

Lemma fail_with_err {T} e (r : result ExecutionError T) : ∃ e', Charger.fail_with e r = Err e'.
Proof. destruct r; by eexists. Qed.

Lemma computation_ok {T} g t (r : result ExecutionError T) first rest :
  chargeable g t r first rest →
  ∃ c u r1 t1, Charger.charge_computation g t r = Ret (at_costs g c 0 0 u, t1, r1) ∧
    0 <= c <= V2.gas_budget (charger_status g) ∧ same_base t t1 ∧ store_ok t1 ∧
    (r1 = r ∧ (∃ v, r = Ok v) ∧ t1 = t ∨
     (∃ e, r1 = Err e) ∧ (∃ t2, Temp.ensure_active_inputs_mutated t1 = Ret t2 ∧ store_ok t2 ∧ fresh t first rest t2)).
Proof.
  intros [Hb Ht Hround [Hz1 Hz2] Hex]. pose proof (bo_status _ _ _ _ Hb) as Hst.
  destruct (bucketize_spec _ Hst Hround) as (c & br & Hrt & Hbk & Hbr).
  set (s := charger_status g) in *. set (c' := Z.min (V2.gas_budget s) (c * V2.gas_price s)) in *.
  assert (0 <= c' <= V2.gas_budget s) as Hc'.
  { pose proof (gas_used_nonneg s Hst) as Hu. destruct Hst as [_ [Hb0 _] Hp _ _ _ _ _]. destruct Hrt as [Hle _]. nia. }
  assert (with_status g (V2.with_computation_cost s c') = at_costs g c' 0 0 (V2.unmetered_storage_rebate s)) as Hgeq.
  { unfold at_costs, V2.with_storage, V2.with_computation_cost. cbn. fold s. by rewrite Hz1, Hz2. }
  destruct (reset_spec (at_costs g c' 0 0 (V2.unmetered_storage_rebate s)) t first rest)
    as (t1 & t2 & Hreset & Ht1 & Hens & Ht2 & Hf); [by apply (gas_coins_base g _ t), Hb|done|apply Hb|].
  assert (same_base t t1) as Hbase.
  { transitivity t2; [apply Hf|]. rewrite (ensure_active_spec t1 Ht1) in Hens. by simplify_eq. }
  unfold Charger.charge_computation. rewrite (bo_smashed _ _ _ _ Hb). fold s. rewrite Hbk. cbn [mbind outcome_bind fst snd].
  rewrite Hgeq. set (r1 := match br with Ok _ => r | Err err => Charger.fail_with err r end).
  destruct r1 as [v|e] eqn:Hr1.
  - assert (r = Ok v) as ->.
    { subst r1. destruct br as [u|e]; [done|]. destruct (fail_with_err e r) as [e' He]. congruence. }
    exists c', (V2.unmetered_storage_rebate s), (Ok v), t. split; [done|]. split; [done|]. split; [done|].
    split; [done|]. left. split_and!; eauto.
  - rewrite Hreset. cbn [mbind outcome_bind fst snd].
    exists c', 0, (Err e), t1. split; [done|]. split; [done|]. split; [done|]. split; [done|]. right. split; eauto.
Qed.

(** What [charge_gas] does to a transaction that can be charged. *)
Record charged {T} g t (r : result ExecutionError T) (first : ObjectID) (rest : list ObjectID)
    (c : GasCostSummary) t' (r' : result ExecutionError T) : Prop := {
  cg_conserved : Temp.check_sui_conserved t' true c = Ret (Ok tt);
  cg_conserved_expensive : Temp.check_sui_conserved_expensive t' c None = Ret (Ok tt);
  cg_computation : 0 <= Summary.computation_cost c <= V2.gas_budget (charger_status g);
  cg_budget : net c <= V2.gas_budget (charger_status g);
  cg_coin : ∃ o, written t' !! first = Some o ∧ is_coin_obj o;
  cg_result :
    (∃ v o, r = Ok v ∧ r' = Ok v ∧ kept t first t' ∧
       Temp.read_object t first = Some o ∧ holds t' first (coin_value o - net c)) ∨
    (∃ e, r' = Err e ∧ dropped t first rest t' ∧ holds t' first (wsum (coin_in t) (first :: rest) - net c));
}.

Lemma settle_charged {T} g t (r r' : result ExecutionError T) first rest c a b u t1 :
  payable (charger_status (at_costs g c a b u)) t1 first →
  (∃ v o, r = Ok v ∧ r' = Ok v ∧ kept t first t1 ∧ Temp.read_object t first = Some o ∧ holds t1 first (coin_value o)) ∨
  (∃ e, r' = Err e ∧ undone t first rest t1) →
  let s := charger_status (at_costs g c a b u) in
  ∃ k t', (cost_summary ← V2.summary s;
           gas_used ← Summary.net_gas_usage cost_summary;
           gas_object ← unwrap (Temp.read_object t1 first);
           gas_object ← deduct_gas gas_object gas_used;
           t ← Temp.mutate_input_object t1 gas_object;
           Ret (cost_summary, at_costs g c a b u, t, r')) = Ret (k, at_costs g c a b u, t', r') ∧
    charged g t r first rest k t' r'.
Proof.
  intros Hpay Hres s. destruct (settle_ok _ _ _ Hpay) as (k & o & o' & t' & Hsum & Hnet & Hread & Hded & Hmut & Ht' & Hw &
    Hsb & Hval & Hc1 & Hc2 & Hcomp & Hbud). fold s in Hsum.
  exists k, t'. rewrite Hsum. cbn [mbind outcome_bind]. rewrite Hnet. cbn [mbind outcome_bind]. rewrite Hread.
  cbn [unwrap mbind outcome_bind]. rewrite Hded. cbn [mbind outcome_bind]. rewrite Hmut. split; [done|].
  assert (contents_but first (written t') = contents_but first (written t1)) as Hcont.
  { rewrite Ht'. unfold contents_but. cbn. by rewrite delete_insert_eq. }
  assert (∀ v, holds t1 first v → holds t' first (v - net k)) as Hh.
  { intros v (o2 & Ho2 & <-). exists o'. rewrite Ht'. cbn. rewrite lookup_insert_eq. split; [done|]. congruence. }
  assert (modified t' = modified t1) as Hmod.
  { rewrite Ht'. cbn. destruct Hpay as [[] _ _ _ _ _ _]. set_solver. }
  split; try done.
  - exists o'. rewrite Ht'. cbn. rewrite lookup_insert_eq. split; [done|apply Hsb].
  - destruct Hres as [(v & o2 & -> & -> & Hk & Hr & Hho)|(e & -> & (Hd1 & Hd2 & Hd3 & Hd4) & Hho)].
    + left. exists v, o2. split_and!; try done; [|by apply Hh]. unfold kept in *. congruence.
    + right. exists e. split_and!; [done| |by apply Hh]. split_and!; [congruence|congruence|..]; by rewrite Ht'.
Qed.

(** The store with all inputs touched, on both ways to it. *)
Lemma touched_ready {T} g t (r r1 : result ExecutionError T) first rest t1 :
  chargeable g t r first rest → same_base t t1 → store_ok t1 →
  (r1 = r ∧ (∃ v, r = Ok v) ∧ t1 = t ∨
   (∃ e, r1 = Err e) ∧ (∃ t2, Temp.ensure_active_inputs_mutated t1 = Ret t2 ∧ store_ok t2 ∧ fresh t first rest t2)) →
  ∃ t2, Temp.ensure_active_inputs_mutated t1 = Ret t2 ∧ same_base t t2 ∧
    ready t2 first (V2.gas_budget (charger_status g)) ∧ msum (object_cost g) (written t2) < U64_MOD ∧
    ((∃ v o, r = Ok v ∧ r1 = Ok v ∧ kept t first t2 ∧ Temp.read_object t first = Some o ∧ holds t2 first (coin_value o)) ∨
     (∃ e, r1 = Err e ∧ undone t first rest t2)).
Proof.
  intros [Hb Ht Hround _ Hex] Hbase1 Ht1 [(-> & (v & Hv) & ->)|((e & ->) & t2 & Hens & Ht2 & Hf)].
  - destruct (executed_ready g t first rest Hb Ht (Hex v Hv)) as [Hr Hcost].
    exists (write_inputs t (untouched t)). split; [by apply ensure_active_spec|]. split; [done|]. split; [done|].
    split; [done|]. left. destruct (Hex v Hv) as [_ _ _ Hkept (o & Ho & _) _ _]. exists v, o. split_and!; try done.
    destruct (rd_gas _ _ _ Hr) as (o' & Ho' & _). exists o'. split; [done|]. f_equal.
    unfold Temp.read_object in Ho. cbn in Ho'. apply lookup_union_Some_raw in Ho' as [Hi|[Hi Hw]].
    + apply map_lookup_filter_Some in Hi as [Hi Hun]. destruct (written t !! first) as [o2|] eqn:Hw; [|congruence].
      exfalso. cbn in Hun. unfold untouched in Hun. apply elem_of_difference in Hun as [HM Hm].
      apply Hm, (so_written_mutable t Ht); [done|]. by apply elem_of_dom_2 in Hw.
    + rewrite Hw in Ho. congruence.
  - destruct (fresh_ready g t first rest t2 Hb Ht Ht2 Hf) as [Hr Hcost]. exists t2.
    split; [done|]. split; [apply Hf|]. split; [done|]. split; [done|]. right. exists e. split; [done|by apply undone_fresh].
Qed.

Lemma charge_gas_spec {T} g t (r : result ExecutionError T) first rest :
  chargeable g t r first rest →
  ∃ c g' t' r', Charger.charge_gas g t r = Ret (c, g', t', r') ∧ charged g t r first rest c t' r'.
Proof.
  intros Hch. destruct (computation_ok g t r first rest Hch) as (c & u & r1 & t1 & Hcomp & Hc & Hbase1 & Ht1 & Hcase).
  destruct (touched_ready g t r r1 first rest t1 Hch Hbase1 Ht1 Hcase) as (t2 & Hens & Hbase2 & Hr & Hcost & Hres).
  destruct Hch as [Hb Ht Hround _ Hex].
  destruct (collect_payable g t2 first c u (bo_status _ _ _ _ Hb) (bo_metered _ _ _ _ Hb) Hr Hcost Hc)
    as (a & b & Hcol & Ht3 & Hchs). cbv zeta in *.
  assert (same_base t (with_costs g t2)) as Hbase3 by (etrans; [exact Hbase2|done]).
  destruct (handle_ok (dont_charge_budget_on_storage_oog (charger_gas_model_version g)) g (with_costs g t2) first rest c a b u r1
    (base_ok_base g t _ _ _ Hbase3 Hb) Ht3 Hc Hchs) as (g' & t4 & r' & Hh & (c' & a' & b' & u' & ->) & Hpay & Hr').
  destruct (settle_charged g t r r' first rest c' a' b' u' t4 Hpay) as (k & t' & Htail & Hcharged).
  { destruct Hr' as [[-> ->]|[Hun ->]].
    - destruct Hres as [(v & o & Hv & Hv1 & Hk & Ho & Hho)|(e & He & Hun)].
      + left. exists v, o. split_and!; try done; [|by apply holds_with_costs]. unfold kept in *. by rewrite contents_with_costs.
      + right. exists e. split; [done|]. by apply undone_with_costs.
    - right. destruct (fail_with_err InsufficientGas r1) as [e He]. exists e. split; [done|].
      by apply (undone_base t (with_costs g t2)). }
  exists k, (at_costs g c' a' b' u'), t', r'. split; [|done]. unfold Charger.charge_gas. rewrite Hcomp.
  cbn [mbind outcome_bind]. rewrite Hens. cbn [mbind outcome_bind]. rewrite Hcol. cbn [mbind outcome_bind].
  change (smashed_gas_coin (at_costs g c a b u)) with (smashed_gas_coin g). rewrite (bo_smashed _ _ _ _ Hb).
  change (charger_gas_model_version (at_costs g c a b u)) with (charger_gas_model_version g).
  rewrite Hh. exact Htail.
Qed.

(** C5: charging for gas never panics and conserves SUI.  The transaction is metered, its
    store is well-formed and its payment are distinct mutable coins that hold the budget, with
    sums within 64 bits; its execution either failed, having done whatever, or succeeded and
    left SUI in balance, the budget in the gas coin, and rebates and storage costs within
    bounds ([chargeable]).  Then [charge_gas] returns; both conservation checks accept the store
    and the summary that it leaves; the computation cost is at most the budget; and what the
    gas coin pays, storage charges and rebates included, is at most the budget. *)
Theorem charge_gas_conserves {T} g t (r : result ExecutionError T) first rest :
  chargeable g t r first rest →
  ∃ c g' t' r', Charger.charge_gas g t r = Ret (c, g', t', r') ∧
    Temp.check_sui_conserved t' true c = Ret (Ok tt) ∧
    Temp.check_sui_conserved_expensive t' c None = Ret (Ok tt) ∧
    0 <= Summary.computation_cost c <= V2.gas_budget (charger_status g) ∧
    net c <= V2.gas_budget (charger_status g).
Proof.
  intros Hch. destruct (charge_gas_spec g t r first rest Hch) as (c & g' & t' & r' & Heq & []).
  exists c, g', t', r'. split_and!; try done; lia.
Qed.

(** C26: a transaction (with the payment and the results of [chargeable]) is all or nothing.
    When [charge_gas] leaves a success, the execution had succeeded and all its writes are
    kept, and the gas coin holds what the execution left in it minus the charge; when it leaves
    an error, all that is written are the mutable inputs as they were, nothing is created and
    no event is emitted, and the gas coin holds the sum of the gas coins minus the charge. *)
Theorem charge_gas_atomic {T} g t (r : result ExecutionError T) first rest c g' t' r' :
  chargeable g t r first rest → Charger.charge_gas g t r = Ret (c, g', t', r') →
  (∃ v o, r = Ok v ∧ r' = Ok v ∧ kept t first t' ∧
     Temp.read_object t first = Some o ∧ holds t' first (coin_value o - net c)) ∨
  (∃ e, r' = Err e ∧ dropped t first rest t' ∧ holds t' first (wsum (coin_in t) (first :: rest) - net c)).
Proof.
  intros Hch Heq. destruct (charge_gas_spec g t r first rest Hch) as (c1 & g1 & t1 & r1 & Heq1 & []).
  rewrite Heq in Heq1. by simplify_eq.
Qed.
End charge.

(** * A concrete transaction *)

Module Payment.
#[local] Instance plain_env : ObjectEnv :=
  {| Event := unit; type_size := λ _, 1; owner_size := 40; digest := λ _, 0; layout_sui := λ _, None |}.
#[local] Instance plain_env_laws : ObjectEnvLaws.
Proof. by split. Qed.
#[local] Instance no_store : BackingStore :=
  {| get_package_object := λ _, Ok None; get_object := λ _, Ok None; get_object_by_key := λ _ _, Ok None |}.

(** A gas coin whose identifier is the byte [id]. *)
Definition coin (id v : Z) : Object :=
  mkObject (Move (mkMoveObject GasCoin true 3 (repeat 0 31 ++ [id] ++ to_le_bytes 8 v))) (AddressOwner 100) 55 988000.

Definition inputs : InputObjects :=
  [mkObjectReadResult (ImmOrOwnedMoveObject (7, 3, 0)) (ReadObject (coin 7 9000000));
   mkObjectReadResult (ImmOrOwnedMoveObject (9, 3, 0)) (ReadObject (coin 9 5000000))].

Definition status : SuiGasStatus := V2.with_gas_status example_status (V2.gas_status example_status).

(** The state after the gas coins have been smashed. *)
Definition start : outcome (GasCharger * TemporaryStore) :=
  t ← Temp.new inputs [] 77;
  Charger.smash_gas (Charger.new 77 [(7, 3, 0); (9, 3, 0)] status example_config) t.

Definition state : GasCharger * TemporaryStore :=
  match start with
  | Ret gt => gt
  | _ => (Charger.new 77 [] status example_config, mkStore _ 0 ∅ 0 ∅ Results.default_ ∅ ∅ [])
  end.
Abbreviation g0 := (state.1).
Abbreviation t0 := (state.2).

Lemma status_ok : gas_status_ok (charger_status g0).
Proof.
  assert (charger_status g0 = status) as -> by (vm_compute; reflexivity).
  apply (new_gas_status_ok example_config 10000000 1000 1000).
  - unfold config_ok, BASIS_POINTS. simpl. lia.
  - split; [lia|done].
  - exact example_status_new.
  - pose proof (new_meter_spec initial_cost_schedule_v5 10000000 1000 8 ltac:(lia)) as H.
    assert (Meter.new initial_cost_schedule_v5 10000000 1000 8 = Ret (V2.gas_status example_status)) as Heq
      by (vm_compute; reflexivity). rewrite Heq in H. tauto.
  - reflexivity.
Qed.

Lemma dom_lookup {A} (m : gmap Z A) (l : list (Z * A)) id o : map_to_list m = l → m !! id = Some o → (id, o) ∈ l.
Proof. intros <-. apply elem_of_map_to_list. Qed.

Lemma elem_two {A} (x a b : A) : x ∈ [a; b] → x = a ∨ x = b.
Proof. rewrite !elem_of_cons, elem_of_nil. tauto. Qed.

Lemma elem_one {A} (x a : A) : x ∈ [a] → x = a.
Proof. rewrite !elem_of_cons, elem_of_nil. tauto. Qed.

Lemma inputs_cases id o : input_objects t0 !! id = Some o → (id, o) = (7, coin 7 9000000) ∨ (id, o) = (9, coin 9 5000000).
Proof. intros H. apply elem_two. eapply dom_lookup; [|exact H]. vm_compute. reflexivity. Qed.

Lemma mutable_cases id : id ∈ dom (mutable_input_refs t0) → id = 7 ∨ id = 9.
Proof.
  intros [x Hx]%elem_of_dom. assert ((id, x) = (7, ((3, 0), AddressOwner 100)) ∨ (id, x) = (9, ((3, 0), AddressOwner 100))) as H.
  { apply elem_two. eapply dom_lookup; [|exact Hx]. vm_compute. reflexivity. }
  destruct H; simplify_eq; auto.
Qed.

Lemma written_cases id o : written t0 !! id = Some o → (id, o) = (7, coin 7 14000000).
Proof. intros H. apply elem_one. eapply dom_lookup; [|exact H]. vm_compute. reflexivity. Qed.

Lemma modified_cases id : id ∈ modified t0 → id = 7 ∨ id = 9.
Proof.
  intros H. apply elem_two. assert (elements (modified t0) = [7; 9]) as <- by (vm_compute; reflexivity).
  by apply elem_of_elements.
Qed.

Lemma coin_ok id v : 0 <= id < 256 → is_coin_obj (coin id v) ∧ Obj.id (coin id v) = Ret id.
Proof.
  intros Hid. split.
  - eexists. split; [done|]. split; [done|]. split; cbn [contents]; [|by rewrite !length_app, length_to_le_bytes].
    apply Forall_app. split; [|apply Forall_app; split; [constructor; [done|constructor]|apply to_le_bytes_bytes]].
    by apply (bool_decide_unpack _).
  - unfold Obj.id. cbn [data coin]. unfold MoveObj.id, MoveObj.id_opt. cbn [contents].
    rewrite !length_app, length_to_le_bytes. cbn [length repeat Nat.add Nat.ltb Nat.leb ID_END_INDEX unwrap].
    rewrite app_assoc, take_app_length' by done. done.
Qed.

Lemma meta_cases id m : meta_of t0 id = Some m → id = 7 ∨ id = 9.
Proof.
  unfold meta_of. destruct (mutable_input_refs t0 !! id) as [[[v d] ow]|] eqn:Hm.
  - intros _. apply mutable_cases. by apply elem_of_dom_2 in Hm.
  - assert (loaded_runtime_objects t0 = ∅) as -> by (vm_compute; reflexivity). by rewrite lookup_empty.
Qed.

Lemma t0_ok : store_ok t0.
Proof.
  split.
  - intros id o [[= -> ->]|[= -> ->]]%inputs_cases; split; try (by apply coin_ok); done.
  - intros id [-> | ->]%mutable_cases; by eexists.
  - intros id o [= -> ->]%written_cases. by apply coin_ok.
  - intros id _ [o Ho]%elem_of_dom. apply written_cases in Ho. simplify_eq.
    apply (bool_decide_unpack _). vm_compute. exact I.
  - intros id [-> | ->]%modified_cases; by eexists.
  - intros id m Hm. destruct (meta_cases id m Hm) as [Heq|Heq]; subst id; vm_compute in Hm; injection Hm as <-; done.
Qed.

Lemma old_known_ok id : id = 7 ∨ id = 9 → old_known t0 id.
Proof.
  intros [-> | ->].
  - exists (mkMetadata 3 0 (AddressOwner 100) 988000 55), (coin 7 9000000).
    split_and!; [vm_compute; reflexivity|vm_compute; reflexivity|by eexists|vm_compute; reflexivity].
  - exists (mkMetadata 3 0 (AddressOwner 100) 988000 55), (coin 9 5000000).
    split_and!; [vm_compute; reflexivity|vm_compute; reflexivity|by eexists|vm_compute; reflexivity].
Qed.

Lemma coins_ok : gas_coins_ok g0 t0 7 [9].
Proof.
  split.
  - vm_compute. reflexivity.
  - done.
  - apply (bool_decide_unpack _). vm_compute. exact I.
  - intros id [-> | ->]%elem_two; apply (bool_decide_unpack _); vm_compute; exact I.
  - intros id [-> | ->]%elem_two; eexists; (split; [vm_compute; reflexivity|]).
    + by apply (coin_ok 7 9000000).
    + by apply (coin_ok 9 5000000).
  - vm_compute. reflexivity.
Qed.

Lemma base_holds : base_ok g0 t0 7 [9].
Proof.
  split; [exact status_ok| |exact coins_ok|vm_compute; reflexivity|..].
  - split; vm_compute; congruence || reflexivity.
  - intros id Hid%mutable_cases. by apply old_known_ok.
  - vm_compute. reflexivity.
  - vm_compute. congruence.
  - vm_compute. reflexivity.
  - vm_compute. reflexivity.
Qed.

Lemma executed_holds : executed g0 t0 7.
Proof.
  split.
  - intros id Hid%modified_cases. by apply old_known_ok.
  - intros id o [= -> ->]%written_cases. vm_compute. by eexists.
  - vm_compute. reflexivity.
  - intros _. apply (bool_decide_unpack _). vm_compute. exact I.
  - exists (coin 7 14000000). split; [vm_compute; reflexivity|]. split; [by apply coin_ok|].
    split; vm_compute; congruence || reflexivity.
  - vm_compute. reflexivity.
  - vm_compute. reflexivity.
Qed.

Lemma chargeable_holds (r : result ExecutionError unit) : chargeable g0 t0 r 7 [9].
Proof.
  split; [exact base_holds|exact t0_ok| |vm_compute; done|intros; exact executed_holds].
  apply (rounding_fits_intro _ 5000000); [exact status_ok|vm_compute; congruence| |vm_compute; reflexivity].
  intros b Hb. change (b ∈ buckets (V2.cost_table status)) in Hb.
  destruct (buckets_ok 5000000 ltac:(lia)) as (bs & Heq & _ & Hle & _).
  assert (computation_bucket 5000000 = Ret (buckets (V2.cost_table status))) as Heq' by (vm_compute; reflexivity).
  rewrite Heq in Heq'. simplify_eq. by apply Hle.
Qed.
End Payment.

(** The transaction succeeds: 1000000 for computation, 988000 for the coin that stays, and
    1956240 of the rebates of both coins given back. *)
Lemma charge_gas_conserves_witness :
  ∃ c g' t' r',
    Charger.charge_gas (H := Payment.plain_env) (H0 := Payment.no_store) (fst Payment.state) (snd Payment.state) (Ok tt) =
      Ret (c, g', t', r') ∧ net c <= 10000000.
Proof.
  destruct (charge_gas_conserves (H := Payment.plain_env) (H0 := Payment.plain_env_laws) (H1 := Payment.no_store) _ _ (Ok tt) 7 [9]
    (Payment.chargeable_holds (Ok tt))) as (c & g' & t' & r' & H & _ & _ & _ & Hnet).
  exists c, g', t', r'. split; [exact H|exact Hnet].
Defined.

Lemma payment_charge :
  match Charger.charge_gas (H := Payment.plain_env) (H0 := Payment.no_store) (fst Payment.state) (snd Payment.state) (Ok tt) with
  | Ret (c, _, _, r) => c = Summary.mkSummary 1000000 988000 1956240 19760 ∧ r = Ok tt
  | _ => False
  end.
Proof. vm_compute. done. Qed.

(** The same transaction when its execution has failed. *)
Lemma charge_gas_atomic_witness :
  ∃ c g' t' e,
    Charger.charge_gas (H := Payment.plain_env) (H0 := Payment.no_store) (fst Payment.state) (snd Payment.state)
      (@Err _ unit (OtherExecutionError 1)) = Ret (c, g', t', Err e) ∧
    dropped (snd Payment.state) 7 [9] t' ∧ holds t' 7 (14000000 - net c).
Proof.
  destruct (charge_gas_spec (H0 := Payment.plain_env_laws) (H1 := Payment.no_store) _ _ (@Err _ unit (OtherExecutionError 1)) 7 [9]
    (Payment.chargeable_holds _)) as (c & g' & t' & r' & Heq & _).
  destruct (charge_gas_atomic (H0 := Payment.plain_env_laws) (H1 := Payment.no_store) _ _ (@Err _ unit (OtherExecutionError 1)) 7 [9]
    c g' t' r' (Payment.chargeable_holds _) Heq) as [(v & o & H & _)|(e & -> & Hd & Hh)]; [discriminate H|].
  exists c, g', t', e. split; [exact Heq|]. split; [exact Hd|exact Hh].
Defined.
