(* ===== verification/Effects.v ===== *)
(** The effects of a transaction ([crates/sui-types/src/effects/mod.rs], [effects_v1.rs],
    [effects_v2.rs], [object_change.rs]).

    [TransactionEffectsAPI] is the trait that both versions implement, as a class; the enum
    [TransactionEffects] dispatches on the version.  Methods that can panic return an
    [outcome].  The digest of the events and of the auxiliary data are hashes, kept as numbers.  The
    setters for tests, printing and the digest of the effects themselves are left out. *)
From S2P Require Import Prelude GasTables Objects SuiGas.
Import SuiGas.Summary (GasCostSummary).

(** * Data *)

(** [execution_status.rs]; the failure is the kind of an [ExecutionError]. *)
Inductive ExecutionStatus :=
  | Success
  | Failure (error : ExecutionError) (command : option Z).

Inductive ObjectIn :=
  | InNotExist
  | InExist (e : VersionDigest * Owner).

Inductive ObjectOut :=
  | OutNotExist
  | ObjectWrite (w : ObjectDigest * Owner)
  | PackageWrite (w : VersionDigest).

Inductive IDOperation := IdNone | IdCreated | IdDeleted.

Record EffectsObjectChange := mkObjectChange {
  input_state : ObjectIn;
  output_state : ObjectOut;
  id_operation : IDOperation;
}.

Inductive UnchangedSharedKind :=
  | ReadOnlyRoot (v : VersionDigest)
  | UMutateDeleted (v : SequenceNumber)
  | UReadDeleted (v : SequenceNumber).

(** [execution.rs]: a shared object that the transaction names, as it is when it runs. *)
Inductive SharedInput :=
  | Existing (r : ObjectRef)
  | SharedDeleted (id : ObjectID) (version : SequenceNumber) (mutable : bool) (tx : TransactionDigest).

Inductive InputSharedObject :=
  | Mutate (r : ObjectRef)
  | ReadOnly (r : ObjectRef)
  | ReadDeleted (id : ObjectID) (version : SequenceNumber)
  | MutateDeleted (id : ObjectID) (version : SequenceNumber).

Record ObjectChange := mkChange {
  ch_id : ObjectID;
  input_version : option SequenceNumber;
  input_digest : option ObjectDigest;
  output_version : option SequenceNumber;
  output_digest : option ObjectDigest;
  ch_operation : IDOperation;
}.

Inductive WriteKind := WriteMutate | WriteCreate | WriteUnwrap.
Inductive ObjectRemoveKind := RemoveDelete | RemoveWrap.

Definition OBJECT_DIGEST_MIN : ObjectDigest := from_be_bytes (repeat 0 32).
Definition OBJECT_DIGEST_DELETED : ObjectDigest := from_be_bytes (repeat 99 32).
Definition OBJECT_DIGEST_WRAPPED : ObjectDigest := from_be_bytes (repeat 88 32).

(** What stands for the gas object of a transaction that has none. *)
Definition no_gas_object : ObjectRef * Owner := ((0, 0, OBJECT_DIGEST_MIN), AddressOwner 0).

#[global] Instance owner_eq_dec : EqDecision Owner.
Proof. solve_decision. Defined.

(** ** [EffectsObjectChange::new] *)
Definition new_object_change `{!ObjectEnv} (modified_at : option (VersionDigest * Owner))
    (written : option Object) (id_created id_deleted : bool) : EffectsObjectChange :=
  mkObjectChange
    (match modified_at with Some e => InExist e | None => InNotExist end)
    (match written with
     | None => OutNotExist
     | Some o =>
         if Obj.is_package o then PackageWrite (Obj.version o, digest o)
         else ObjectWrite (digest o, owner o)
     end)
    (if id_created then IdCreated else if id_deleted then IdDeleted else IdNone).

(** * The interface *)

Class TransactionEffectsAPI (E : Type) := {
  status : E → ExecutionStatus;
  executed_epoch : E → Z;
  modified_at_versions : E → list (ObjectID * SequenceNumber);
  lamport_version : E → outcome SequenceNumber;
  old_object_metadata : E → outcome (list (ObjectRef * Owner));
  input_shared_objects : E → list InputSharedObject;
  created_objects : E → list (ObjectRef * Owner);
  mutated_objects : E → list (ObjectRef * Owner);
  unwrapped_objects : E → list (ObjectRef * Owner);
  deleted_objects : E → list ObjectRef;
  unwrapped_then_deleted : E → list ObjectRef;
  wrapped_objects : E → list ObjectRef;
  object_changes : E → list ObjectChange;
  gas_object : E → outcome (ObjectRef * Owner);
  events_digest : E → option Z;
  dependencies : E → list TransactionDigest;
  transaction_digest : E → TransactionDigest;
  gas_cost_summary : E → GasCostSummary;
}.

Module Shared.
Definition object_ref (i : InputSharedObject) : ObjectRef :=
  match i with
  | Mutate oref | ReadOnly oref => oref
  | ReadDeleted id version | MutateDeleted id version => (id, version, OBJECT_DIGEST_DELETED)
  end.
Definition id_and_version (i : InputSharedObject) : ObjectID * SequenceNumber := (object_ref i).1.
End Shared.

(** * Version 1 *)

Module EffectsV1.
Record TransactionEffectsV1 := mkV1 {
  status_ : ExecutionStatus;
  executed_epoch_ : Z;
  gas_used : GasCostSummary;
  modified_at_versions_ : list (ObjectID * SequenceNumber);
  shared_objects : list ObjectRef;
  transaction_digest_ : TransactionDigest;
  created_ : list (ObjectRef * Owner);
  mutated_ : list (ObjectRef * Owner);
  unwrapped_ : list (ObjectRef * Owner);
  deleted_ : list ObjectRef;
  unwrapped_then_deleted_ : list ObjectRef;
  wrapped_ : list ObjectRef;
  gas_object_ : ObjectRef * Owner;
  events_digest_ : option Z;
  dependencies_ : list TransactionDigest;
}.
Implicit Types e : TransactionEffectsV1.

Definition lamport_version_ e : outcome SequenceNumber :=
  Seq.lamport_increment (modified_at_versions_ e).*2.

Definition input_shared_objects_ e : list InputSharedObject :=
  let modified : gset Z := list_to_set (modified_at_versions_ e).*1 in
  (λ r : ObjectRef, if bool_decide (r.1.1 ∈ modified) then Mutate r else ReadOnly r) <$> shared_objects e.

Definition object_changes_ e : list ObjectChange :=
  let modified_at : gmap Z SequenceNumber := collect (modified_at_versions_ e) in
  let written (input : ObjectID → option SequenceNumber) (op : IDOperation) (x : ObjectRef * Owner) :=
    let '((id, v, d), _) := x in mkChange id (input id) None (Some v) (Some d) op in
  let removed (input : ObjectID → option SequenceNumber) (op : IDOperation) (x : ObjectRef) :=
    let '(id, _, _) := x in mkChange id (input id) None None None op in
  (written (λ _, None) IdCreated <$> created_ e) ++
  (written (λ id, modified_at !! id) IdNone <$> mutated_ e) ++
  (written (λ _, None) IdNone <$> unwrapped_ e) ++
  (removed (λ id, modified_at !! id) IdDeleted <$> deleted_ e) ++
  (removed (λ _, None) IdDeleted <$> unwrapped_then_deleted_ e) ++
  (removed (λ id, modified_at !! id) IdNone <$> wrapped_ e).

(** [old_object_metadata] is [unimplemented!]. *)
#[global] Instance api : TransactionEffectsAPI TransactionEffectsV1 := {
  status := status_;
  executed_epoch := executed_epoch_;
  modified_at_versions := modified_at_versions_;
  lamport_version := lamport_version_;
  old_object_metadata _ := Panic;
  input_shared_objects := input_shared_objects_;
  created_objects := created_;
  mutated_objects := mutated_;
  unwrapped_objects := unwrapped_;
  deleted_objects := deleted_;
  unwrapped_then_deleted := unwrapped_then_deleted_;
  wrapped_objects := wrapped_;
  object_changes := object_changes_;
  gas_object e := Ret (gas_object_ e);
  events_digest := events_digest_;
  dependencies := dependencies_;
  transaction_digest := transaction_digest_;
  gas_cost_summary := gas_used;
}.
End EffectsV1.

(** * Version 2 *)

Module EffectsV2.
Record TransactionEffectsV2 := mkV2 {
  status_ : ExecutionStatus;
  executed_epoch_ : Z;
  gas_used : GasCostSummary;
  transaction_digest_ : TransactionDigest;
  gas_object_index : option Z;
  events_digest_ : option Z;
  dependencies_ : list TransactionDigest;
  lamport_version_ : SequenceNumber;
  changed_objects : list (ObjectID * EffectsObjectChange);
  unchanged_shared_objects : list (ObjectID * UnchangedSharedKind);
  aux_data_digest : option Z;
}.
Implicit Types e : TransactionEffectsV2.

Definition modified_at_versions_ e : list (ObjectID * SequenceNumber) :=
  omap (λ c : ObjectID * EffectsObjectChange, let '(id, change) := c in
    match input_state change with
    | InExist ((version, _), _) => Some (id, version)
    | InNotExist => None
    end) (changed_objects e).

Definition old_object_metadata_ e : list (ObjectRef * Owner) :=
  omap (λ c : ObjectID * EffectsObjectChange, let '(id, change) := c in
    match input_state change with
    | InExist ((version, digest), owner) => Some ((id, version, digest), owner)
    | InNotExist => None
    end) (changed_objects e).

Definition input_shared_objects_ e : list InputSharedObject :=
  omap (λ c : ObjectID * EffectsObjectChange, let '(id, change) := c in
    match input_state change with
    | InExist ((version, digest), Shared _) => Some (Mutate (id, version, digest))
    | _ => None
    end) (changed_objects e) ++
  ((λ c : ObjectID * UnchangedSharedKind, let '(id, change_kind) := c in
    match change_kind with
    | ReadOnlyRoot (version, digest) => ReadOnly (id, version, digest)
    | UMutateDeleted seqno => MutateDeleted id seqno
    | UReadDeleted seqno => ReadDeleted id seqno
    end) <$> unchanged_shared_objects e).

Definition created_ e : list (ObjectRef * Owner) :=
  omap (λ c : ObjectID * EffectsObjectChange, let '(id, change) := c in
    match input_state change, output_state change, id_operation change with
    | InNotExist, ObjectWrite (digest, owner), IdCreated => Some ((id, lamport_version_ e, digest), owner)
    | InNotExist, PackageWrite (version, digest), IdCreated => Some ((id, version, digest), Immutable)
    | _, _, _ => None
    end) (changed_objects e).

Definition mutated_ e : list (ObjectRef * Owner) :=
  omap (λ c : ObjectID * EffectsObjectChange, let '(id, change) := c in
    match input_state change, output_state change with
    | InExist _, ObjectWrite (digest, owner) => Some ((id, lamport_version_ e, digest), owner)
    | InExist _, PackageWrite (version, digest) => Some ((id, version, digest), Immutable)
    | _, _ => None
    end) (changed_objects e).

Definition unwrapped_ e : list (ObjectRef * Owner) :=
  omap (λ c : ObjectID * EffectsObjectChange, let '(id, change) := c in
    match input_state change, output_state change, id_operation change with
    | InNotExist, ObjectWrite (digest, owner), IdNone => Some ((id, lamport_version_ e, digest), owner)
    | _, _, _ => None
    end) (changed_objects e).

Definition deleted_ e : list ObjectRef :=
  omap (λ c : ObjectID * EffectsObjectChange, let '(id, change) := c in
    match input_state change, output_state change, id_operation change with
    | InExist _, OutNotExist, IdDeleted => Some (id, lamport_version_ e, OBJECT_DIGEST_DELETED)
    | _, _, _ => None
    end) (changed_objects e).

Definition unwrapped_then_deleted_ e : list ObjectRef :=
  omap (λ c : ObjectID * EffectsObjectChange, let '(id, change) := c in
    match input_state change, output_state change, id_operation change with
    | InNotExist, OutNotExist, IdDeleted => Some (id, lamport_version_ e, OBJECT_DIGEST_DELETED)
    | _, _, _ => None
    end) (changed_objects e).

Definition wrapped_ e : list ObjectRef :=
  omap (λ c : ObjectID * EffectsObjectChange, let '(id, change) := c in
    match input_state change, output_state change, id_operation change with
    | InExist _, OutNotExist, IdNone => Some (id, lamport_version_ e, OBJECT_DIGEST_WRAPPED)
    | _, _, _ => None
    end) (changed_objects e).

Definition object_changes_ e : list ObjectChange :=
  (λ c : ObjectID * EffectsObjectChange, let '(id, change) := c in
    let input_version_digest :=
      match input_state change with InNotExist => None | InExist (vd, _) => Some vd end in
    let output_version_digest :=
      match output_state change with
      | OutNotExist => None
      | ObjectWrite (d, _) => Some (lamport_version_ e, d)
      | PackageWrite vd => Some vd
      end in
    mkChange id (fst <$> input_version_digest) (snd <$> input_version_digest)
      (fst <$> output_version_digest) (snd <$> output_version_digest) (id_operation change))
  <$> changed_objects e.

Definition gas_object_ e : outcome (ObjectRef * Owner) :=
  match gas_object_index e with
  | Some gas_object_index =>
      entry ← unwrap (changed_objects e !! Z.to_nat gas_object_index);
      match output_state entry.2 with
      | ObjectWrite (digest, owner) => Ret ((entry.1, lamport_version_ e, digest), owner)
      | _ => Panic
      end
  | None => Ret no_gas_object
  end.

#[global] Instance api : TransactionEffectsAPI TransactionEffectsV2 := {
  status := status_;
  executed_epoch := executed_epoch_;
  modified_at_versions := modified_at_versions_;
  lamport_version e := Ret (lamport_version_ e);
  old_object_metadata e := Ret (old_object_metadata_ e);
  input_shared_objects := input_shared_objects_;
  created_objects := created_;
  mutated_objects := mutated_;
  unwrapped_objects := unwrapped_;
  deleted_objects := deleted_;
  unwrapped_then_deleted := unwrapped_then_deleted_;
  wrapped_objects := wrapped_;
  object_changes := object_changes_;
  gas_object := gas_object_;
  events_digest := events_digest_;
  dependencies := dependencies_;
  transaction_digest := transaction_digest_;
  gas_cost_summary := gas_used;
}.

(** The shared inputs that the transaction did not change. *)
Definition unchanged_shared (changed_objects : gmap Z EffectsObjectChange) (shared_input : SharedInput) :
    option (ObjectID * UnchangedSharedKind) :=
  match shared_input with
  | Existing (id, version, digest) =>
      if bool_decide (is_Some (changed_objects !! id)) then None
      else Some (id, ReadOnlyRoot (version, digest))
  | SharedDeleted id version mutable _ =>
      if mutable then Some (id, UMutateDeleted version) else Some (id, UReadDeleted version)
  end.

(** [iter().position(..).unwrap() as u32]: the index is in memory, the cast keeps it below [2 ^ 32]. *)
Definition position (id : ObjectID) (l : list (ObjectID * EffectsObjectChange)) : outcome Z :=
  i ← unwrap (fst <$> list_find (λ c, c.1 = id) l);
  Ret (Z.of_nat i mod 2 ^ 32).

Definition new (status : ExecutionStatus) (executed_epoch : Z) (gas_used : GasCostSummary)
    (shared_objects : list SharedInput) (transaction_digest : TransactionDigest)
    (lamport_version : SequenceNumber) (changed_objects : gmap Z EffectsObjectChange)
    (gas_object : option ObjectID) (events_digest : option Z) (dependencies : list TransactionDigest) :
    outcome TransactionEffectsV2 :=
  let unchanged_shared_objects := omap (unchanged_shared changed_objects) shared_objects in
  let changed_objects := btree_iter changed_objects in
  gas_object_index ←
    match gas_object with
    | Some gas_id => i ← position gas_id changed_objects; Ret (Some i)
    | None => Ret None
    end;
  Ret (mkV2 status executed_epoch gas_used transaction_digest gas_object_index events_digest dependencies
         lamport_version changed_objects unchanged_shared_objects None).
End EffectsV2.

(** * Both versions *)

Inductive TransactionEffects :=
  | V1 (e : EffectsV1.TransactionEffectsV1)
  | V2 (e : EffectsV2.TransactionEffectsV2).

(** [enum_dispatch]. *)
#[global] Instance effects_api : TransactionEffectsAPI TransactionEffects := {
  status e := match e with V1 e => status e | V2 e => status e end;
  executed_epoch e := match e with V1 e => executed_epoch e | V2 e => executed_epoch e end;
  modified_at_versions e := match e with V1 e => modified_at_versions e | V2 e => modified_at_versions e end;
  lamport_version e := match e with V1 e => lamport_version e | V2 e => lamport_version e end;
  old_object_metadata e := match e with V1 e => old_object_metadata e | V2 e => old_object_metadata e end;
  input_shared_objects e := match e with V1 e => input_shared_objects e | V2 e => input_shared_objects e end;
  created_objects e := match e with V1 e => created_objects e | V2 e => created_objects e end;
  mutated_objects e := match e with V1 e => mutated_objects e | V2 e => mutated_objects e end;
  unwrapped_objects e := match e with V1 e => unwrapped_objects e | V2 e => unwrapped_objects e end;
  deleted_objects e := match e with V1 e => deleted_objects e | V2 e => deleted_objects e end;
  unwrapped_then_deleted e := match e with V1 e => unwrapped_then_deleted e | V2 e => unwrapped_then_deleted e end;
  wrapped_objects e := match e with V1 e => wrapped_objects e | V2 e => wrapped_objects e end;
  object_changes e := match e with V1 e => object_changes e | V2 e => object_changes e end;
  gas_object e := match e with V1 e => gas_object e | V2 e => gas_object e end;
  events_digest e := match e with V1 e => events_digest e | V2 e => events_digest e end;
  dependencies e := match e with V1 e => dependencies e | V2 e => dependencies e end;
  transaction_digest e := match e with V1 e => transaction_digest e | V2 e => transaction_digest e end;
  gas_cost_summary e := match e with V1 e => gas_cost_summary e | V2 e => gas_cost_summary e end;
}.

Module Effects.
Section effects.
Context {E : Type} `{!TransactionEffectsAPI E}.
Implicit Types e : E.

Definition deleted_mutably_accessed_shared_objects e : list ObjectID :=
  omap (λ kind, match kind with MutateDeleted id _ => Some id | _ => None end) (input_shared_objects e).

Definition all_changed_objects e : list (ObjectRef * Owner * WriteKind) :=
  ((λ x, (x, WriteMutate)) <$> mutated_objects e) ++
  ((λ x, (x, WriteCreate)) <$> created_objects e) ++
  ((λ x, (x, WriteUnwrap)) <$> unwrapped_objects e).

Definition all_removed_objects e : list (ObjectRef * ObjectRemoveKind) :=
  ((λ x, (x, RemoveDelete)) <$> deleted_objects e) ++ ((λ x, (x, RemoveWrap)) <$> wrapped_objects e).

Definition all_tombstones e : list (ObjectID * SequenceNumber) :=
  (λ r : ObjectRef, r.1) <$> deleted_objects e ++ unwrapped_then_deleted e ++ wrapped_objects e.

(** The comparison is evaluated for each mutated object, and with it [gas_object]. *)
Definition mutated_excluding_gas e : outcome (list (ObjectRef * Owner)) :=
  Inputs.filter_map_o (λ o, g ← gas_object e; Ret (if decide (o = g) then None else Some o))
    (mutated_objects e).
End effects.

Definition check_version_supported (enable_effects_v2 : bool) (e : TransactionEffects) : result unit unit :=
  match e with V1 _ => Ok tt | V2 _ => if enable_effects_v2 then Ok tt else Err tt end.

(** Sizes in bytes, roughly. *)
Definition APPROX_SIZE_OF_OBJECT_REF : Z := 80.
Definition APPROX_SIZE_OF_EXECUTION_STATUS : Z := 120.
Definition APPROX_SIZE_OF_EPOCH_ID : Z := 10.
Definition APPROX_SIZE_OF_GAS_COST_SUMMARY : Z := 40.
Definition APPROX_SIZE_OF_OPT_TX_EVENTS_DIGEST : Z := 40.
Definition APPROX_SIZE_OF_TX_DIGEST : Z := 40.
Definition APPROX_SIZE_OF_OWNER : Z := 48.

Definition fixed_sizes : Z :=
  APPROX_SIZE_OF_EXECUTION_STATUS + APPROX_SIZE_OF_EPOCH_ID + APPROX_SIZE_OF_GAS_COST_SUMMARY +
  APPROX_SIZE_OF_OPT_TX_EVENTS_DIGEST.

(** The counts are lengths of collections in memory, so that nothing here can overflow. *)
Definition estimate_effects_size_upperbound_v1 (num_writes num_mutables num_deletes num_deps : Z) : Z :=
  let approx_change_entry_size :=
    1000 + (APPROX_SIZE_OF_OWNER + APPROX_SIZE_OF_OBJECT_REF) * num_writes +
    APPROX_SIZE_OF_OBJECT_REF * num_mutables + APPROX_SIZE_OF_OBJECT_REF * num_deletes in
  let deps_size := 1000 + APPROX_SIZE_OF_TX_DIGEST * num_deps in
  fixed_sizes + approx_change_entry_size + deps_size.

Definition estimate_effects_size_upperbound_v2 (num_writes num_modifies num_deps : Z) : Z :=
  let approx_change_entry_size :=
    1000 + (APPROX_SIZE_OF_OWNER + APPROX_SIZE_OF_OBJECT_REF) * num_writes +
    (APPROX_SIZE_OF_OWNER + APPROX_SIZE_OF_OBJECT_REF) * num_modifies in
  let deps_size := 1000 + APPROX_SIZE_OF_TX_DIGEST * num_deps in
  fixed_sizes + approx_change_entry_size + deps_size.
End Effects.
