(* ===== verification/IntoEffects.v ===== *)
(** The effects of a finished transaction, built from its temporary store
    ([TemporaryStore::into_effects] and what it calls, in
    [sui-execution/latest/sui-adapter/src/temporary_store.rs]), and what is handed on with
    them ([crates/sui-types/src/inner_temporary_store.rs]).

    The flag of the protocol configuration that selects version 2 is an argument.  The hash of the
    events is a class.  Fields of [InnerTemporaryStore] that only configure the loading of
    packages are left out. *)
From S2P Require Import Prelude GasTables Objects SuiGas TemporaryStore GasCharger Effects.
Import SuiGas.Summary (GasCostSummary).

(** [TransactionEvents::digest]. *)
Class EventsHash `{!ObjectEnv} := { hash_events : list Event → Z }.

Record InnerTemporaryStore `{!ObjectEnv} := mkInner {
  inner_input_objects : gmap Z Object;
  inner_mutable_inputs : gmap Z (VersionDigest * Owner);
  inner_written : gmap Z Object;
  inner_loaded_runtime_objects : gmap Z DynamicallyLoadedObjectMetadata;
  inner_events : list Event;
  inner_lamport_version : SequenceNumber;
}.

Module Into.
Section into.
Context `{!ObjectEnv} `{!BackingStore} `{!EventsHash}.
Implicit Types t : TemporaryStore.

Definition into_inner t : InnerTemporaryStore :=
  mkInner _ (input_objects t) (mutable_input_refs t) (written t) (loaded_runtime_objects t)
    (user_events (execution_results t)) (lamport_timestamp t).

Definition all_ids t : gset Z := created t ∪ deleted t ∪ modified t ∪ dom (written t).

Definition object_change t (id : ObjectID) : outcome (ObjectID * EffectsObjectChange) :=
  m ← Temp.get_object_modified_at t id;
  Ret (id, new_object_change ((λ m, ((md_version m, md_digest m), md_owner m)) <$> m) (written t !! id)
             (bool_decide (id ∈ created t)) (bool_decide (id ∈ deleted t))).

Definition get_object_changes t : outcome (gmap Z EffectsObjectChange) :=
  collect <$> Temp.map_o (object_change t) (btree_set_iter (all_ids t)).

Definition events_digest_of (events : list Event) : option Z :=
  match events with [] => None | _ => Some (hash_events events) end.

(** What the loop over the written objects pushes: [modified_at_versions], [created], [mutated]
    and [unwrapped]. *)
Abbreviation V1Written :=
  (list (Z * Z) * list (Z * Z * Z * Owner) * list (Z * Z * Z * Owner) * list (Z * Z * Z * Owner))%type
  (only parsing).

Definition v1_written t (acc : V1Written) (e : ObjectID * Object) : outcome V1Written :=
  let '(modified_at_versions, created', mutated, unwrapped) := acc in
  let '(id, object) := e in
  object_ref ← Obj.compute_object_reference object;
  m ← Temp.get_object_modified_at t id;
  match m with
  | Some old_object_meta =>
      Ret (modified_at_versions ++ [(id, md_version old_object_meta)], created',
           mutated ++ [(object_ref, owner object)], unwrapped)
  | None =>
      if bool_decide (id ∈ created t)
      then Ret (modified_at_versions, created' ++ [(object_ref, owner object)], mutated, unwrapped)
      else Ret (modified_at_versions, created', mutated, unwrapped ++ [(object_ref, owner object)])
  end.

(** What the loop over the modified objects that are not written pushes: [deleted_at_versions],
    [deleted] and [wrapped]. *)
Definition v1_removed t (acc : list (Z * Z) * list ObjectRef * list ObjectRef) (id : ObjectID) :
    outcome (list (Z * Z) * list ObjectRef * list ObjectRef) :=
  let '(deleted_at_versions, deleted', wrapped) := acc in
  m ← Temp.get_object_modified_at t id;
  old_object_meta ← unwrap m;
  let deleted_at_versions := deleted_at_versions ++ [(id, md_version old_object_meta)] in
  Ret (if bool_decide (id ∈ deleted t)
       then (deleted_at_versions, deleted' ++ [(id, lamport_timestamp t, OBJECT_DIGEST_DELETED)], wrapped)
       else (deleted_at_versions, deleted', wrapped ++ [(id, lamport_timestamp t, OBJECT_DIGEST_WRAPPED)])).

Definition into_effects_v1 t (shared_object_refs : list ObjectRef) (transaction_digest : TransactionDigest)
    (transaction_dependencies : gset Z) (gas_cost_summary : GasCostSummary) (status : ExecutionStatus)
    (gas_charger : GasCharger) (epoch : Z) : outcome (InnerTemporaryStore * TransactionEffects) :=
  updated_gas_object_info ←
    match Charger.gas_coin gas_charger with
    | Some coin_id =>
        object ← unwrap (written t !! coin_id);
        r ← Obj.compute_object_reference object;
        Ret (r, owner object)
    | None => Ret no_gas_object
    end;
  w ← Temp.fold_o (v1_written t) ([], [], [], []) (btree_iter (written t));
  let '(modified_at_versions, created', mutated, unwrapped) := w in
  m ← Temp.fold_o (v1_removed t) ([], [], [])
        (filter (λ id, written t !! id = None) (btree_set_iter (modified t)));
  let '(deleted_at_versions, deleted', wrapped) := m in
  let unwrapped_then_deleted :=
    (λ id, (id, lamport_timestamp t, OBJECT_DIGEST_DELETED)) <$>
    filter (λ id, id ∉ modified t) (btree_set_iter (deleted t)) in
  let inner := into_inner t in
  Ret (inner, V1 (EffectsV1.mkV1 status epoch gas_cost_summary (modified_at_versions ++ deleted_at_versions)
    shared_object_refs transaction_digest created' mutated unwrapped deleted' unwrapped_then_deleted wrapped
    updated_gas_object_info (events_digest_of (inner_events inner)) (btree_set_iter transaction_dependencies))).

Definition into_effects_v2 t (shared_object_refs : list SharedInput) (transaction_digest : TransactionDigest)
    (transaction_dependencies : gset Z) (gas_cost_summary : GasCostSummary) (status : ExecutionStatus)
    (gas_charger : GasCharger) (epoch : Z) : outcome (InnerTemporaryStore * TransactionEffects) :=
  let gas_coin := Charger.gas_coin gas_charger in
  object_changes ← get_object_changes t;
  let inner := into_inner t in
  e ← EffectsV2.new status epoch gas_cost_summary shared_object_refs transaction_digest (lamport_timestamp t)
        object_changes gas_coin (events_digest_of (inner_events inner)) (btree_set_iter transaction_dependencies);
  Ret (inner, V2 e).

(** The dependencies on the transactions that sent the objects received. *)
Definition add_received t (deps : gset Z) (r : ObjectRef) : gset Z :=
  let '(id, expected_version, expected_digest) := r in
  match loaded_runtime_objects t !! id with
  | Some obj_meta =>
      let loaded_via_receive :=
        (md_version obj_meta =? expected_version) && (md_digest obj_meta =? expected_digest) &&
        Own.is_address_owned (md_owner obj_meta) in
      if loaded_via_receive then {[ md_previous_transaction obj_meta ]} ∪ deps else deps
  | None => deps
  end.

Definition existing_ref (s : SharedInput) : outcome ObjectRef :=
  match s with Existing oref => Ret oref | SharedDeleted _ _ _ _ => Panic end.

Definition into_effects (enable_effects_v2 : bool) t (shared_object_refs : list SharedInput)
    (transaction_digest : TransactionDigest) (transaction_dependencies : gset Z)
    (gas_cost_summary : GasCostSummary) (status : ExecutionStatus) (gas_charger : GasCharger) (epoch : Z) :
    outcome (InnerTemporaryStore * TransactionEffects) :=
  t ← Temp.update_object_version_and_prev_tx t;
  let deps := foldl (add_received t) transaction_dependencies (receiving_objects t) in
  if enable_effects_v2
  then into_effects_v2 t shared_object_refs transaction_digest deps gas_cost_summary status gas_charger epoch
  else
    refs ← Temp.map_o existing_ref shared_object_refs;
    into_effects_v1 t refs transaction_digest deps gas_cost_summary status gas_charger epoch.

Definition estimate_effects_size_upperbound (enable_effects_v2 : bool) t : Z :=
  if enable_effects_v2 then
    Effects.estimate_effects_size_upperbound_v2 (Z.of_nat (size (written t))) (Z.of_nat (size (modified t)))
      (Z.of_nat (size (input_objects t)))
  else
    let num_deletes :=
      Z.of_nat (size (deleted t)) +
      Z.of_nat (length (filter (λ id, written t !! id = None ∧ id ∉ deleted t) (btree_set_iter (modified t)))) in
    Effects.estimate_effects_size_upperbound_v1 (Z.of_nat (size (written t)))
      (Z.of_nat (size (mutable_input_refs t))) num_deletes (Z.of_nat (size (input_objects t))).
(** The keys that the objects written and deleted make available; the order of the deleted
    ones is that of a [HashMap]. *)
Definition get_output_keys (inner : InnerTemporaryStore) (effects : TransactionEffects) : list InputKey :=
  let output_keys :=
    (λ e : ObjectID * Object,
       if Obj.is_package e.2 then PackageKey e.1 else VersionedObject e.1 (Obj.version e.2))
    <$> btree_iter (inner_written inner) in
  let deleted : gmap Z SequenceNumber := collect ((λ oref : ObjectRef, oref.1) <$> deleted_objects effects) in
  let deleted_output_keys :=
    (λ e : ObjectID * SequenceNumber, VersionedObject e.1 e.2) <$>
    filter (λ e, Obj.is_shared <$> inner_input_objects inner !! e.1 = Some true) (map_to_list deleted) in
  let smeared_version := inner_lamport_version inner in
  output_keys ++ deleted_output_keys ++
  ((λ object_id, VersionedObject object_id smeared_version) <$>
     Effects.deleted_mutably_accessed_shared_objects effects).
End into.
End Into.

(** * Properties *)

(** ** Versions and previous transactions *)

Section finished.
Context `{!ObjectEnv} `{!BackingStore}.
Implicit Types (t : TemporaryStore) (g : GasCharger).

(** A transaction that has been executed and charged: the checks of [check_invariants] and
    [check_execution_results_consistency] hold, packages are immutable and new or upgraded, and
    the gas coin is written. *)
Record finished t g : Prop := {
  fi_store : store_ok t;
  fi_consistent : Temp.check_execution_results_consistency t = Ok tt;
  fi_deleted : ∀ id, id ∈ deleted t → written t !! id = None;
  fi_package : ∀ id o p, written t !! id = Some o → data o = Package p →
    owner o = Immutable ∧ (id ∈ created t ∨ id ∈ modified t) ∧ pversion p ≠ U64_MAX;
  fi_shared : ∀ id o v, written t !! id = Some o → id ∈ created t → owner o = Shared v → v = 0;
  fi_gas : ∀ id, Charger.gas_coin g = Some id → ∃ o m, written t !! id = Some o ∧ data o = Move m;
  fi_size : Z.of_nat (size (Into.all_ids t)) <= 2 ^ 32;
}.

Definition stamp_data t (id : ObjectID) (d : Data) : Data :=
  match d with
  | Move m => Move (MoveObj.increment_version_to m (lamport_timestamp t))
  | Package p =>
      if bool_decide (id ∈ modified t)
      then Package (mkMovePackage (pid p) (pversion p + 1) (module_map p) (type_origin_table p) (linkage_table p))
      else Package p
  end.
Definition stamp_owner t (id : ObjectID) (o : Owner) : Owner :=
  match o with
  | Shared v => if bool_decide (id ∈ created t) then Shared (lamport_timestamp t) else Shared v
  | o => o
  end.
Definition stamp_object t (id : ObjectID) (o : Object) : Object :=
  mkObject (stamp_data t id (data o)) (stamp_owner t id (owner o)) (tx_digest t) (storage_rebate o).
Definition stamp t : TemporaryStore :=
  Temp.set_written t (map_imap (λ id o, Some (stamp_object t id o)) (written t)).

Lemma stamp_lookup t id : written (stamp t) !! id = stamp_object t id <$> written t !! id.
Proof. cbn. rewrite map_lookup_imap. by destruct (written t !! id). Qed.

Lemma stamp_dom t : dom (written (stamp t)) = dom (written t).
Proof.
  apply set_eq. intros id. rewrite !elem_of_dom, stamp_lookup. destruct (written t !! id); cbn; [|done].
  split; by eexists.
Qed.

Lemma update_one_ok t g id o :
  finished t g → written t !! id = Some o →
  Results.update_one (execution_results t) (lamport_timestamp t) (tx_digest t) id o = Ret (stamp_object t id o).
Proof.
  intros Hf Ho. unfold Results.update_one, stamp_object.
  assert (∀ d, (match owner o with
    | Shared initial =>
        if bool_decide (id ∈ created t) then assert_ (initial =? 0);; Ret (Shared (lamport_timestamp t))
        else Ret (Shared initial)
    | o => Ret o end ≫= λ ow, Ret (mkObject d ow (tx_digest t) (storage_rebate o))) =
    Ret (mkObject d (stamp_owner t id (owner o)) (tx_digest t) (storage_rebate o))) as Hown.
  { intros d. unfold stamp_owner. destruct (owner o) as [| |v|] eqn:Hv; [done..| |done].
    destruct (bool_decide_reflect (id ∈ created t)) as [Hc|]; [|done].
    by rewrite (fi_shared t g Hf id o v Ho Hc Hv). }
  destruct (data o) as [m|p] eqn:Hd; cbn [mbind outcome_bind stamp_data].
  { apply Hown. }
  destruct (fi_package t g Hf id o p Ho Hd) as (_ & _ & Hv).
  destruct (bool_decide (id ∈ modified t)); [|apply Hown].
  unfold Pkg.increment_version, Seq.increment. destruct (Z.eqb_spec (pversion p) U64_MAX); [done|].
  apply Hown.
Qed.

Lemma update_all_ok (f : ObjectID → Object → outcome Object) h l :
  (∀ id o, (id, o) ∈ l → f id o = Ret (h id o)) →
  Results.update_all f l = Ret ((λ e, (e.1, h e.1 e.2)) <$> l).
Proof.
  induction l as [|[id o] l IH]; intros Hf; [done|]. cbn. rewrite (Hf id o) by left. cbn.
  rewrite IH; [done|]. intros id' o' Hl. apply Hf. by right.
Qed.

Lemma update_stamps t g : finished t g → Temp.update_object_version_and_prev_tx t = Ret (stamp t).
Proof.
  intros Hf. unfold Temp.update_object_version_and_prev_tx, Results.update_version_and_previous_tx.
  rewrite (update_all_ok _ (stamp_object t)).
  2: { intros id o Ho%elem_of_btree_iter. by apply (update_one_ok t g). }
  cbn [mbind outcome_bind]. unfold stamp, Temp.set_written. do 3 f_equal.
  apply map_eq. intros id. rewrite map_lookup_imap. apply option_eq. intros o.
  rewrite collect_lookup.
  2: { rewrite <- list_fmap_compose. apply NoDup_btree_keys. }
  rewrite list_elem_of_fmap. split.
  - intros ([id' o'] & [= -> ->] & Ho'%elem_of_btree_iter). by rewrite Ho'.
  - destruct (written t !! id) as [o'|] eqn:Ho'; [|done]. intros [= <-]. exists (id, o').
    split; [done|]. by apply elem_of_btree_iter.
Qed.

Lemma stamp_same_base t : same_base t (stamp t).
Proof. by split_and!. Qed.

Lemma stamp_id t id o : Obj.id (stamp_object t id o) = Obj.id o.
Proof.
  unfold Obj.id, stamp_object, stamp_data. cbn. destruct (data o) as [m|p]; [done|]. by case_bool_decide.
Qed.

Lemma stamp_store_ok t : store_ok t → store_ok (stamp t).
Proof.
  intros Ht. apply store_ok_results; [done|..]; cbn [written_objects modified_objects].
  - intros id o Ho. change (written (stamp t) !! id = Some o) in Ho. rewrite stamp_lookup in Ho.
    destruct (written t !! id) as [o'|] eqn:Ho'; [|done]. cbn in Ho. simplify_eq. rewrite stamp_id.
    by apply (so_written t Ht).
  - intros id Hm Hid. change (id ∈ dom (written (stamp t))) in Hid. rewrite stamp_dom in Hid.
    by apply (so_written_mutable t Ht).
  - apply (so_modified t Ht).
Qed.
End finished.

(** ** What the effects report *)

Section reports.
Context `{!ObjectEnv} `{!BackingStore} `{!EventsHash}.
Implicit Types (t : TemporaryStore) (g : GasCharger).

(** A finished transaction whose written objects have their versions. *)
Record stamped t g : Prop := {
  sp_store : store_ok t;
  sp_created : ∀ id, id ∈ created t → (id ∉ deleted t) ∧ (id ∉ modified t);
  sp_deleted : ∀ id, id ∈ deleted t → written t !! id = None;
  sp_move : ∀ id o m, written t !! id = Some o → data o = Move m → mversion m = lamport_timestamp t;
  sp_package : ∀ id o p, written t !! id = Some o → data o = Package p →
    owner o = Immutable ∧ (id ∈ created t ∨ id ∈ modified t);
  sp_gas : ∀ id, Charger.gas_coin g = Some id → ∃ o m, written t !! id = Some o ∧ data o = Move m;
  sp_size : Z.of_nat (size (Into.all_ids t)) <= 2 ^ 32;
}.

Lemma consistent_created t id :
  Temp.check_execution_results_consistency t = Ok tt → id ∈ created t → (id ∉ deleted t) ∧ (id ∉ modified t).
Proof.
  unfold Temp.check_execution_results_consistency. intros Hc Hid.
  destruct (forallb _ (btree_set_iter (created t))) eqn:Hall; [|done].
  rewrite forallb_forall in Hall. specialize (Hall id).
  rewrite <- list_elem_of_In, elem_of_btree_set_iter in Hall. specialize (Hall Hid).
  apply andb_true_iff in Hall as [Hd Hm]. split; intros Hin.
  - by rewrite bool_decide_true in Hd.
  - by rewrite bool_decide_true in Hm.
Qed.

Lemma stamp_stamped t g : finished t g → stamped (stamp t) g.
Proof.
  intros Hf. pose proof (fi_store t g Hf) as Hs. split.
  - by apply stamp_store_ok.
  - intros id Hid. by apply consistent_created; [apply (fi_consistent t g Hf)|].
  - intros id Hid. rewrite stamp_lookup. by rewrite (fi_deleted t g Hf id Hid).
  - intros id o m Ho Hd. rewrite stamp_lookup in Ho. destruct (written t !! id) as [o'|]; [|done].
    cbn in Ho. simplify_eq. cbn in Hd. unfold stamp_data in Hd. destruct (data o') as [m'|p].
    + by simplify_eq.
    + by case_bool_decide.
  - intros id o p Ho Hd. rewrite stamp_lookup in Ho. destruct (written t !! id) as [o'|] eqn:Ho'; [|done].
    cbn in Ho. simplify_eq. cbn in Hd. unfold stamp_data in Hd. destruct (data o') as [m'|p'] eqn:Hd'; [done|].
    destruct (fi_package t g Hf id o' p' Ho' Hd') as (Hi & Hcm & _). split; [|done].
    cbn. by rewrite Hi.
  - intros id Hid. destruct (fi_gas t g Hf id Hid) as (o & m & Ho & Hd). do 2 eexists.
    rewrite stamp_lookup, Ho. split; [done|]. cbn. by rewrite Hd.
  - pose proof (fi_size t g Hf) as Hz. unfold Into.all_ids in *. by rewrite stamp_dom.
Qed.

(** The object before the transaction, if the transaction modifies it. *)
Definition before t (id : ObjectID) : option DynamicallyLoadedObjectMetadata :=
  if bool_decide (id ∈ modified t) then meta_of t id else None.

Lemma modified_at_before t id : store_ok t → Temp.get_object_modified_at t id = Ret (before t id).
Proof.
  intros Ht. unfold before. case_bool_decide as Hm; [|by apply modified_at_none].
  destruct (so_modified t Ht id Hm) as [m Hmeta]. rewrite Hmeta. by apply modified_at_ok.
Qed.

Lemma before_modified t id : store_ok t → id ∈ modified t → ∃ m, before t id = Some m.
Proof. intros Ht Hm. unfold before. rewrite bool_decide_true by done. by apply (so_modified t Ht). Qed.

Lemma before_none t id : id ∉ modified t → before t id = None.
Proof. intros Hm. unfold before. by rewrite bool_decide_false. Qed.

(** The reference, with the new owner, of a written object. *)
Definition out_ref t (id : ObjectID) : option (ObjectRef * Owner) :=
  (λ o, ((id, Obj.version o, digest o), owner o)) <$> written t !! id.

Definition old_version t (id : ObjectID) : option (ObjectID * SequenceNumber) :=
  (λ m, (id, md_version m)) <$> before t id.

(** References of the written objects of a set, and tombstones. *)
Definition refs t (s : gset Z) : list (ObjectRef * Owner) := omap (out_ref t) (btree_set_iter s).
Definition gone t (d : ObjectDigest) (s : gset Z) : list ObjectRef :=
  (λ id, (id, lamport_timestamp t, d)) <$> btree_set_iter s.

(** The effects [e] report exactly what the store [t] holds, object by object. *)
Record described {E} `{!TransactionEffectsAPI E} t (e : E) : Prop := {
  de_created : created_objects e = refs t (created t);
  de_mutated : mutated_objects e = refs t (modified t);
  de_unwrapped : unwrapped_objects e = refs t (dom (written t) ∖ (modified t ∪ created t));
  de_deleted : deleted_objects e = gone t OBJECT_DIGEST_DELETED (modified t ∩ deleted t);
  de_unwrapped_then_deleted :
    unwrapped_then_deleted e = gone t OBJECT_DIGEST_DELETED (deleted t ∖ modified t);
  de_wrapped : wrapped_objects e = gone t OBJECT_DIGEST_WRAPPED (modified t ∖ (deleted t ∪ dom (written t)));
  de_versions : modified_at_versions e ≡ₚ omap (old_version t) (btree_set_iter (modified t));
}.

(** Version 1. *)
Lemma v1_written_ok t l a b c d :
  store_ok t → (∀ id o, (id, o) ∈ l → written t !! id = Some o) →
  Temp.fold_o (Into.v1_written t) (a, b, c, d) l =
    Ret (a ++ omap (old_version t) l.*1,
         b ++ omap (λ id, if bool_decide ((id ∉ modified t) ∧ id ∈ created t) then out_ref t id else None) l.*1,
         c ++ omap (λ id, if bool_decide (id ∈ modified t) then out_ref t id else None) l.*1,
         d ++ omap (λ id, if bool_decide ((id ∉ modified t) ∧ (id ∉ created t)) then out_ref t id else None) l.*1).
Proof.
  intros Ht. revert a b c d. induction l as [|[id o] l IH]; intros a b c d Hl; [by rewrite !app_nil_r|].
  pose proof (Hl id o ltac:(left)) as Ho. cbn [Temp.fold_o Into.v1_written].
  unfold Obj.compute_object_reference. rewrite (so_written t Ht id o Ho). cbn [mbind outcome_bind].
  rewrite modified_at_before by done. cbn [mbind outcome_bind]. cbn [fmap list_fmap fst omap list_omap].
  assert (out_ref t id = Some ((id, Obj.version o, digest o), owner o)) as -> by (unfold out_ref; by rewrite Ho).
  assert (∀ id o, (id, o) ∈ l → written t !! id = Some o) as Hl' by (intros ?? ?; apply Hl; by right).
  destruct (decide (id ∈ modified t)) as [Hm|Hm].
  - destruct (before_modified t id Ht Hm) as [m Hb]. rewrite Hb. cbn [mbind outcome_bind].
    assert (old_version t id = Some (id, md_version m)) as -> by (unfold old_version; by rewrite Hb).
    rewrite IH by done. rewrite (bool_decide_true (id ∈ modified t)) by done.
    rewrite !(bool_decide_false (_ ∧ _)) by tauto. by rewrite <- !app_assoc.
  - assert (old_version t id = None) as -> by (unfold old_version; by rewrite before_none).
    rewrite before_none by done. rewrite (bool_decide_false (id ∈ modified t)) by done.
    destruct (decide (id ∈ created t)) as [Hc|Hc].
    + rewrite (bool_decide_true (id ∈ created t)) by done. cbn [mbind outcome_bind]. rewrite IH by done.
      rewrite bool_decide_true by done. rewrite bool_decide_false by tauto. by rewrite <- !app_assoc.
    + rewrite (bool_decide_false (id ∈ created t)) by done. cbn [mbind outcome_bind]. rewrite IH by done.
      rewrite bool_decide_false by tauto. rewrite bool_decide_true by done. by rewrite <- !app_assoc.
Qed.

Lemma v1_removed_ok t l a b c :
  store_ok t → (∀ id, id ∈ l → id ∈ modified t) →
  Temp.fold_o (Into.v1_removed t) (a, b, c) l =
    Ret (a ++ omap (old_version t) l,
         b ++ ((λ id, (id, lamport_timestamp t, OBJECT_DIGEST_DELETED)) <$> filter (λ id, id ∈ deleted t) l),
         c ++ ((λ id, (id, lamport_timestamp t, OBJECT_DIGEST_WRAPPED)) <$> filter (λ id, id ∉ deleted t) l)).
Proof.
  intros Ht. revert a b c. induction l as [|id l IH]; intros a b c Hl; [by rewrite !app_nil_r|].
  cbn [Temp.fold_o Into.v1_removed]. rewrite modified_at_before by done. cbn [mbind outcome_bind].
  destruct (before_modified t id Ht (Hl id ltac:(left))) as [m Hb].
  cbn [omap list_omap].
  assert (old_version t id = Some (id, md_version m)) as -> by (unfold old_version; by rewrite Hb).
  rewrite Hb. cbn [unwrap mbind outcome_bind].
  assert (∀ id, id ∈ l → id ∈ modified t) as Hl' by (intros ??; apply Hl; by right).
  rewrite !filter_cons. destruct (decide (id ∈ deleted t)) as [Hd|Hd].
  - rewrite bool_decide_true by done. rewrite IH by done. rewrite (decide_False (P := id ∉ deleted t)) by tauto.
    cbn. by rewrite <- !app_assoc.
  - rewrite bool_decide_false by done. rewrite IH by done. rewrite (decide_True (P := id ∉ deleted t)) by done.
    cbn. by rewrite <- !app_assoc.
Qed.

(** What does not depend on the version: the gas object and what is passed through. *)
Definition gas_info t g : ObjectRef * Owner :=
  match Charger.gas_coin g with Some id => default no_gas_object (out_ref t id) | None => no_gas_object end.

Record reported {E} `{!TransactionEffectsAPI E} t g tx (deps : gset Z) cost st epoch (e : E) : Prop := {
  re_described : described t e;
  re_gas : gas_object e = Ret (gas_info t g);
  re_tx : transaction_digest e = tx;
  re_deps : dependencies e = btree_set_iter deps;
  re_cost : gas_cost_summary e = cost;
  re_status : status e = st;
  re_epoch : executed_epoch e = epoch;
  re_events : events_digest e = Into.events_digest_of (user_events (execution_results t));
}.

Lemma gas_coin_info t g id :
  stamped t g → Charger.gas_coin g = Some id →
  ∃ o m, written t !! id = Some o ∧ data o = Move m ∧ Obj.compute_object_reference o = Ret (gas_info t g).1 ∧
    owner o = (gas_info t g).2 ∧ gas_info t g = ((id, lamport_timestamp t, digest o), owner o).
Proof.
  intros Hs Hid. destruct (sp_gas t g Hs id Hid) as (o & m & Ho & Hd). exists o, m.
  assert (gas_info t g = ((id, lamport_timestamp t, digest o), owner o)) as Hg.
  { unfold gas_info, out_ref. rewrite Hid, Ho. cbn. unfold Obj.version. rewrite Hd.
    by rewrite (sp_move t g Hs id o m Ho Hd). }
  rewrite Hg. split_and!; [done..| |done|done].
  unfold Obj.compute_object_reference. rewrite (so_written t (sp_store t g Hs) id o Ho). cbn.
  unfold Obj.version. rewrite Hd. by rewrite (sp_move t g Hs id o m Ho Hd).
Qed.

(** [omap] over the written objects, restricted to those of a set. *)
Lemma refs_written t (P : Z → Prop) `{!∀ x, Decision (P x)} (s : gset Z) :
  (∀ id, id ∈ dom (written t) → id ∈ s ↔ P id) →
  omap (λ id, if bool_decide (P id) then out_ref t id else None) (btree_set_iter (dom (written t))) = refs t s.
Proof.
  intros Hs. unfold refs. rewrite (omap_subset (out_ref t) s (s ∩ dom (written t))).
  3: { intros x Hx Hn. unfold out_ref. rewrite (not_elem_of_dom_1 (written t) x); [done|set_solver]. }
  2: set_solver.
  rewrite (omap_subset _ (dom (written t)) (s ∩ dom (written t))).
  - apply omap_ext_elem. intros x [Hx Hd]%elem_of_btree_set_iter%elem_of_intersection.
    rewrite bool_decide_true; [done|]. by apply Hs.
  - set_solver.
  - intros x Hd Hn. rewrite bool_decide_false; [done|]. intros HP%Hs; set_solver.
Qed.

Lemma gone_filter t d (P : Z → Prop) `{!∀ x, Decision (P x)} (s u : gset Z) :
  (∀ id, id ∈ u ↔ P id ∧ id ∈ s) →
  (λ id, (id, lamport_timestamp t, d)) <$> filter P (btree_set_iter s) = gone t d u.
Proof.
  intros Hu. unfold gone. rewrite btree_set_iter_filter. do 2 f_equal. apply set_eq. intros x.
  by rewrite elem_of_filter, Hu.
Qed.

Lemma versions_split t :
  store_ok t →
  omap (old_version t) (btree_set_iter (dom (written t))) ++
  omap (old_version t) (filter (λ id, written t !! id = None) (btree_set_iter (modified t)))
  ≡ₚ omap (old_version t) (btree_set_iter (modified t)).
Proof.
  intros Ht. rewrite (omap_subset _ (dom (written t)) (modified t ∩ dom (written t))).
  2: set_solver.
  2: { intros x Hd Hn. unfold old_version. rewrite before_none; [done|set_solver]. }
  rewrite btree_set_iter_filter, <- omap_app. apply omap_Permutation.
  unfold btree_set_iter. rewrite !merge_sort_Permutation.
  rewrite <- elements_disj_union.
  - f_equiv. apply set_equiv. intros x. rewrite elem_of_union, elem_of_intersection, elem_of_filter, <- not_elem_of_dom.
    destruct (decide (x ∈ dom (written t))); tauto.
  - intros x [_ Hd]%elem_of_intersection [Hn _]%elem_of_filter. by apply not_elem_of_dom in Hn.
Qed.

Lemma into_v1_ok t g shared tx deps cost st epoch :
  stamped t g →
  ∃ e, Into.into_effects_v1 t shared tx deps cost st g epoch = Ret (Into.into_inner t, V1 e) ∧
    reported t g tx deps cost st epoch e ∧ EffectsV1.shared_objects e = shared.
Proof.
  intros Hs. pose proof (sp_store t g Hs) as Ht. unfold Into.into_effects_v1.
  rewrite (v1_written_ok t (btree_iter (written t)) [] [] [] [] Ht).
  2: { intros id o. by rewrite elem_of_btree_iter. }
  rewrite v1_removed_ok; [|done|].
  2: { intros id. rewrite list_elem_of_filter, elem_of_btree_set_iter. tauto. }
  rewrite btree_iter_keys, !app_nil_l.
  assert (match Charger.gas_coin g with
    | Some coin_id => object ← unwrap (written t !! coin_id);
        r ← Obj.compute_object_reference object; Ret (r, owner object)
    | None => Ret no_gas_object end = Ret (gas_info t g)) as ->.
  { destruct (Charger.gas_coin g) as [id|] eqn:Hg; [|unfold gas_info; by rewrite Hg].
    destruct (gas_coin_info t g id Hs Hg) as (o & m & -> & _ & Hr & Ho & _). cbn [unwrap mbind outcome_bind].
    rewrite Hr. cbn [mbind outcome_bind]. rewrite Ho. by destruct (gas_info t g). }
  cbn [mbind outcome_bind]. eexists. split; [reflexivity|]. split; [|done]. split; try done. split; cbn.
  - apply refs_written. intros id Hid. split; [intros Hc; by split; [apply (sp_created t g Hs)|]|tauto].
  - by apply refs_written.
  - apply refs_written. intros id Hid. set_solver.
  - rewrite list_filter_filter. apply gone_filter. intros id. rewrite elem_of_intersection.
    split; [intros [? Hd]; split_and!; [done|by apply (sp_deleted t g Hs)|done]|tauto].
  - apply gone_filter. set_solver.
  - rewrite list_filter_filter. apply gone_filter. intros id.
    rewrite elem_of_difference, elem_of_union, <- not_elem_of_dom. tauto.
  - by apply versions_split.
Qed.

(** Version 2. *)
Definition change_of t (id : ObjectID) : EffectsObjectChange :=
  new_object_change ((λ m, ((md_version m, md_digest m), md_owner m)) <$> before t id) (written t !! id)
    (bool_decide (id ∈ created t)) (bool_decide (id ∈ deleted t)).

Definition changes t : list (ObjectID * EffectsObjectChange) :=
  (λ id, (id, change_of t id)) <$> btree_set_iter (Into.all_ids t).

Lemma changes_sorted t : StronglySorted key_lt (changes t).
Proof.
  unfold changes. pose proof (btree_set_iter_sorted (Into.all_ids t)) as Hs.
  induction Hs as [|x l Hl IH Hx]; cbn; constructor; [done|]. apply Forall_fmap.
  eapply Forall_impl; [exact Hx|]. done.
Qed.

Lemma get_object_changes_ok t :
  store_ok t → ∃ m, Into.get_object_changes t = Ret m ∧ btree_iter m = changes t ∧ dom m = Into.all_ids t.
Proof.
  intros Ht. unfold Into.get_object_changes. rewrite (map_o_ok _ (λ id, (id, change_of t id))).
  2: { intros id _. unfold Into.object_change. by rewrite modified_at_before. }
  eexists. split; [reflexivity|]. fold (changes t).
  pose proof (btree_iter_collect (changes t) (changes_sorted t)) as Hc. split; [done|].
  apply set_eq. intros id. rewrite <- elem_of_btree_set_iter, <- btree_iter_keys, Hc. unfold changes.
  rewrite <- list_fmap_compose. cbn. rewrite list_fmap_id. apply elem_of_btree_set_iter.
Qed.

(** The six cases of a change, each against the sets of the execution results. *)
Ltac case_member id s H :=
  destruct (decide (id ∈ s)) as [H|H];
  [rewrite ?(bool_decide_true (id ∈ s)) by done|rewrite ?(bool_decide_false (id ∈ s)) by done].
Ltac change_cases t g Hs id :=
  let Ht := fresh "Ht" in
  pose proof (sp_store t g Hs) as Ht;
  unfold change_of, new_object_change; cbn [input_state output_state id_operation];
  let Hm := fresh "Hm" in let Hc := fresh "Hc" in let Hd := fresh "Hd" in let Ho := fresh "Ho" in
  (destruct (decide (id ∈ modified t)) as [Hm|Hm];
   [destruct (before_modified t id Ht Hm) as [? ->]|rewrite (before_none t id Hm)]);
  case_member id (created t) Hc; case_member id (deleted t) Hd;
  try (exfalso; pose proof (sp_created t g Hs id Hc); tauto);
  unfold out_ref; destruct (written t !! id) as [o|] eqn:Ho; cbn;
  try (pose proof (sp_deleted t g Hs id Hd); congruence).

(** A written object is reported with its version and owner. *)
Lemma report_write t g id o :
  stamped t g → written t !! id = Some o →
  (if Obj.is_package o then PackageWrite (Obj.version o, digest o) else ObjectWrite (digest o, owner o)) =
  match data o with
  | Move _ => ObjectWrite (digest o, owner o)
  | Package _ => PackageWrite (Obj.version o, digest o)
  end ∧
  match data o with Move _ => Obj.version o = lamport_timestamp t | Package _ => owner o = Immutable end ∧
  (match data o with Package _ => id ∈ created t ∨ id ∈ modified t | Move _ => True end).
Proof.
  intros Hs Ho. unfold Obj.is_package, Obj.version. destruct (data o) as [m|p] eqn:Hd.
  - by rewrite (sp_move t g Hs id o m Ho Hd).
  - by destruct (sp_package t g Hs id o p Ho Hd).
Qed.

Ltac report_writes t g Hs id :=
  try match goal with Ho : written t !! id = Some ?o |- _ =>
    destruct (report_write t g id o Hs Ho) as (-> & ? & ?); destruct (data o); cbn;
    repeat match goal with H : Obj.version o = _ |- _ => rewrite H | H : owner o = _ |- _ => rewrite H end
  end.

(** A list of version 2 that selects the changes of the set [u]. *)
Lemma changes_refs t g (h : ObjectID * EffectsObjectChange → option (ObjectRef * Owner)) (u : gset Z) :
  (∀ id, id ∈ u → h (id, change_of t id) = out_ref t id) →
  (∀ id, id ∉ u → h (id, change_of t id) = None) → u ⊆ Into.all_ids t →
  omap h (changes t) = refs t u.
Proof.
  intros Hin Hout Hu. unfold changes, refs. rewrite omap_fmap_l, (omap_subset _ _ u); [|done|].
  - apply omap_ext_elem. intros id Hid%elem_of_btree_set_iter. by apply Hin.
  - intros id _ Hid. by apply Hout.
Qed.

Lemma changes_gone t g d (h : ObjectID * EffectsObjectChange → option ObjectRef) (u : gset Z) :
  (∀ id, id ∈ u → h (id, change_of t id) = Some (id, lamport_timestamp t, d)) →
  (∀ id, id ∉ u → h (id, change_of t id) = None) → u ⊆ Into.all_ids t →
  omap h (changes t) = gone t d u.
Proof.
  intros Hin Hout Hu. unfold changes, gone. rewrite omap_fmap_l, (omap_subset _ _ u); [|done|].
  - apply omap_total. intros id Hid%elem_of_btree_set_iter. by apply Hin.
  - intros id _ Hid. by apply Hout.
Qed.

Ltac by_change t g Hs :=
  let id := fresh "id" in let Hid := fresh "Hid" in
  intros id Hid; rewrite ?elem_of_difference, ?elem_of_intersection, ?elem_of_union, ?elem_of_dom in Hid;
  change_cases t g Hs id; report_writes t g Hs id; unfold is_Some in *;
  first [done | exfalso; naive_solver | tauto].

Lemma v2_described t g e :
  stamped t g → EffectsV2.changed_objects e = changes t → EffectsV2.lamport_version_ e = lamport_timestamp t →
  described t e.
Proof.
  intros Hs Hch Hl. pose proof (sp_store t g Hs) as Hst. split; cbn.
  - unfold EffectsV2.created_. rewrite Hch, Hl. apply (changes_refs t g); [by_change t g Hs..|].
    unfold Into.all_ids. set_solver.
  - unfold EffectsV2.mutated_. rewrite Hch, Hl. apply (changes_refs t g); [by_change t g Hs..|].
    unfold Into.all_ids. set_solver.
  - unfold EffectsV2.unwrapped_. rewrite Hch, Hl. apply (changes_refs t g); [by_change t g Hs..|].
    unfold Into.all_ids. set_solver.
  - unfold EffectsV2.deleted_. rewrite Hch, Hl. apply (changes_gone t g); [by_change t g Hs..|].
    unfold Into.all_ids. set_solver.
  - unfold EffectsV2.unwrapped_then_deleted_. rewrite Hch, Hl. apply (changes_gone t g); [by_change t g Hs..|].
    unfold Into.all_ids. set_solver.
  - unfold EffectsV2.wrapped_. rewrite Hch, Hl. apply (changes_gone t g); [by_change t g Hs..|].
    unfold Into.all_ids. set_solver.
  - unfold EffectsV2.modified_at_versions_. rewrite Hch. unfold changes. rewrite omap_fmap_l.
    rewrite (omap_subset _ _ (modified t)).
    + apply reflexive_eq, omap_ext_elem. intros id Hid%elem_of_btree_set_iter. unfold old_version.
      destruct (before_modified t id Hst Hid) as [m Hb]. cbn. by rewrite Hb.
    + unfold Into.all_ids. set_solver.
    + intros id _ Hid. cbn. by rewrite before_none.
Qed.

(** The gas coin is found among the changes. *)
Lemma position_ok t g id o m :
  stamped t g → written t !! id = Some o → data o = Move m →
  ∃ i, EffectsV2.position id (changes t) = Ret i ∧
    changes t !! Z.to_nat i = Some (id, change_of t id) ∧
    output_state (change_of t id) = ObjectWrite (digest o, owner o).
Proof.
  intros Hs Ho Hd.
  assert ((id, change_of t id) ∈ changes t) as Hin.
  { unfold changes. apply list_elem_of_fmap. exists id. split; [done|]. apply elem_of_btree_set_iter.
    unfold Into.all_ids. rewrite !elem_of_union. right. by apply elem_of_dom. }
  destruct (list_find_elem_of (λ c : Z * EffectsObjectChange, c.1 = id) (changes t) _ Hin eq_refl) as [[i c] Hf].
  pose proof Hf as (Hi & Hc & _)%list_find_Some. exists (Z.of_nat i).
  assert (c = (id, change_of t id)) as ->.
  { apply list_elem_of_lookup_2 in Hi. unfold changes in Hi. apply list_elem_of_fmap in Hi as (id' & -> & _).
    cbn in Hc. by subst. }
  assert (Z.of_nat i < 2 ^ 32) as Hlt.
  { apply lookup_lt_Some in Hi. unfold changes, btree_set_iter in Hi.
    rewrite length_fmap, merge_sort_Permutation in Hi. pose proof (sp_size t g Hs) as Hz.
    unfold size, set_size in Hz. cbn in Hz. lia. }
  split_and!.
  - unfold EffectsV2.position. rewrite Hf. cbn. by rewrite Z.mod_small by lia.
  - by rewrite Nat2Z.id.
  - unfold change_of, new_object_change. cbn. rewrite Ho. unfold Obj.is_package. by rewrite Hd.
Qed.

Lemma into_v2_ok t g shared tx deps cost st epoch :
  stamped t g →
  ∃ e m, Into.into_effects_v2 t shared tx deps cost st g epoch = Ret (Into.into_inner t, V2 e) ∧
    reported t g tx deps cost st epoch e ∧ lamport_version e = Ret (lamport_timestamp t) ∧
    EffectsV2.changed_objects e = changes t ∧ dom m = Into.all_ids t ∧
    EffectsV2.unchanged_shared_objects e = omap (EffectsV2.unchanged_shared m) shared.
Proof.
  intros Hs. pose proof (sp_store t g Hs) as Ht. unfold Into.into_effects_v2.
  destruct (get_object_changes_ok t Ht) as (m & -> & Hm & Hdom). cbn [mbind outcome_bind].
  unfold EffectsV2.new. rewrite Hm.
  assert (∃ i, match Charger.gas_coin g with
    | Some gas_id => i ← EffectsV2.position gas_id (changes t); Ret (Some i)
    | None => Ret None end = Ret i ∧
    ∀ e, EffectsV2.gas_object_index e = i → EffectsV2.changed_objects e = changes t →
      EffectsV2.lamport_version_ e = lamport_timestamp t → EffectsV2.gas_object_ e = Ret (gas_info t g)) as (i & -> & Hgas).
  { destruct (Charger.gas_coin g) as [id|] eqn:Hg.
    - destruct (gas_coin_info t g id Hs Hg) as (o & mo & Ho & Hd & _ & _ & Hinfo).
      destruct (position_ok t g id o mo Hs Ho Hd) as (i & -> & Hi & Hout). eexists. split; [reflexivity|].
      intros e Hei Hch Hl. unfold EffectsV2.gas_object_. rewrite Hei, Hch, Hi. cbn [unwrap mbind outcome_bind fst snd].
      by rewrite Hout, Hl, Hinfo.
    - eexists. split; [reflexivity|]. intros e Hei _ _. unfold EffectsV2.gas_object_, gas_info. by rewrite Hei, Hg. }
  cbn [mbind outcome_bind]. eexists _, m. split; [reflexivity|]. split_and!; [|done..].
  split; [by apply (v2_described t g)|by apply Hgas|done..].
Qed.

(** Version 1 knows no deleted shared inputs. *)
Definition shared_supported (enable_effects_v2 : bool) (shared : list SharedInput) : Prop :=
  enable_effects_v2 = false → Forall (λ s, ∃ r, s = Existing r) shared.

Lemma existing_refs_ok shared :
  Forall (λ s, ∃ r, s = Existing r) shared →
  ∃ l, Temp.map_o Into.existing_ref shared = Ret l ∧ shared = Existing <$> l.
Proof.
  induction 1 as [|s shared [r ->] _ (l & Hl & ->)]; [by exists []|]. exists (r :: l). cbn. by rewrite Hl.
Qed.

Lemma into_effects_ok b t g shared tx deps cost st epoch :
  finished t g → shared_supported b shared →
  ∃ e, Into.into_effects b t shared tx deps cost st g epoch = Ret (Into.into_inner (stamp t), e) ∧
    reported (stamp t) g tx (foldl (Into.add_received (stamp t)) deps (receiving_objects t)) cost st epoch e.
Proof.
  intros Hf Hsup. pose proof (stamp_stamped t g Hf) as Hs. unfold Into.into_effects.
  rewrite (update_stamps t g Hf). cbn [mbind outcome_bind].
  change (receiving_objects (stamp t)) with (receiving_objects t). destruct b.
  - edestruct (into_v2_ok (stamp t) g) as (e & m & He & Hr & _); [done|]. rewrite He. eexists. split; [done|].
    destruct Hr as [[] ]. by repeat split.
  - destruct (existing_refs_ok shared (Hsup eq_refl)) as (l & -> & _). cbn [mbind outcome_bind].
    edestruct (into_v1_ok (stamp t) g) as (e & He & Hr & _); [done|]. rewrite He. eexists. split; [done|].
    destruct Hr as [[] ]. by repeat split.
Qed.

(** ** The table of live objects *)

(** How a node that keeps the current reference and owner of every object follows the effects. *)
Definition apply_effects {E} `{!TransactionEffectsAPI E} (e : E)
    (live : gmap Z (SequenceNumber * ObjectDigest * Owner)) : gmap Z (SequenceNumber * ObjectDigest * Owner) :=
  foldr (λ w : ObjectRef * Owner * WriteKind, <[w.1.1.1.1 := (w.1.1.1.2, w.1.1.2, w.1.2)]>)
    (foldr (λ r : ObjectRef * ObjectRemoveKind, delete r.1.1.1) live (Effects.all_removed_objects e))
    (Effects.all_changed_objects e).

(** The table before the transaction has the objects that the transaction modifies, and not
    the others that it touches. *)
Definition live_before t (live : gmap Z (SequenceNumber * ObjectDigest * Owner)) : Prop :=
  (∀ id m, id ∈ modified t → meta_of t id = Some m → live !! id = Some (md_version m, md_digest m, md_owner m)) ∧
  (∀ id, id ∈ Into.all_ids t → id ∉ modified t → live !! id = None).

Lemma insert_all_lookup {A B} (key : B → Z) (val : B → A) (f : Z → option A) (l : list B) (m : gmap Z A) id :
  (∀ x, x ∈ l → Some (val x) = f (key x)) →
  foldr (λ x, <[key x := val x]>) m l !! id = if bool_decide (id ∈ key <$> l) then f id else m !! id.
Proof.
  induction l as [|x l IH]; intros Hl; [done|]. cbn [foldr].
  assert (∀ x, x ∈ l → Some (val x) = f (key x)) as Hl' by (intros ??; apply Hl; by right).
  destruct (decide (key x = id)) as [<-|Hne].
  - rewrite lookup_insert_eq, bool_decide_true by (cbn; left). by apply Hl; left.
  - rewrite lookup_insert_ne by done. rewrite IH by done. erewrite bool_decide_ext; [done|].
    cbn. rewrite elem_of_cons. naive_solver.
Qed.

Lemma delete_all_lookup {A B} (key : B → Z) (l : list B) (m : gmap Z A) id :
  foldr (λ x, delete (key x)) m l !! id = if bool_decide (id ∈ key <$> l) then None else m !! id.
Proof.
  induction l as [|x l IH]; [done|]. cbn [foldr]. destruct (decide (key x = id)) as [<-|Hne].
  - rewrite lookup_delete_eq. by rewrite bool_decide_true by (cbn; left).
  - rewrite lookup_delete_ne by done. rewrite IH. erewrite bool_decide_ext; [done|].
    cbn. rewrite elem_of_cons. naive_solver.
Qed.

Lemma elem_of_refs t s r :
  r ∈ refs t s ↔ r.1.1.1 ∈ s ∧ ∃ o, written t !! r.1.1.1 = Some o ∧ r.1.1.2 = Obj.version o ∧
    r.1.2 = digest o ∧ r.2 = owner o.
Proof.
  unfold refs. rewrite list_elem_of_omap. unfold out_ref. split.
  - intros (id & Hid%elem_of_btree_set_iter & Ho). destruct (written t !! id) as [o|] eqn:Hw; [|done].
    cbn in Ho. simplify_eq. cbn. eauto 6.
  - destruct r as [[[id v] d] ow]. cbn. intros (Hs & o & Ho & -> & -> & ->). exists id.
    rewrite elem_of_btree_set_iter, Ho. done.
Qed.

Lemma elem_of_gone t d s (r : ObjectRef) : r ∈ gone t d s ↔ r.1.1 ∈ s ∧ r = (r.1.1, lamport_timestamp t, d).
Proof.
  unfold gone. rewrite list_elem_of_fmap. split.
  - intros (id & -> & Hid). by rewrite <- elem_of_btree_set_iter.
  - intros [Hs ->]. eexists. by rewrite elem_of_btree_set_iter.
Qed.

(** What the two lists of changes hold, for effects that describe [t]. *)
Lemma elem_of_changed {E} `{!TransactionEffectsAPI E} t g (e : E) r k :
  stamped t g → described t e →
  (r, k) ∈ Effects.all_changed_objects e ↔
    (∃ o, written t !! r.1.1.1 = Some o ∧ r.1.1.2 = Obj.version o ∧ r.1.2 = digest o ∧ r.2 = owner o) ∧
    k = (if bool_decide (r.1.1.1 ∈ modified t) then WriteMutate
         else if bool_decide (r.1.1.1 ∈ created t) then WriteCreate else WriteUnwrap).
Proof.
  intros Hs []. unfold Effects.all_changed_objects. rewrite de_created0, de_mutated0, de_unwrapped0.
  rewrite !elem_of_app, !list_elem_of_fmap. split.
  - intros [(r' & [= <- ->] & [Hin Ho]%elem_of_refs)|[(r' & [= <- ->] & [Hin Ho]%elem_of_refs)|(r' & [= <- ->] & [Hin Ho]%elem_of_refs)]];
      split; try done.
    + by rewrite bool_decide_true.
    + destruct (sp_created t g Hs _ Hin). by rewrite bool_decide_false, bool_decide_true.
    + rewrite !bool_decide_false; set_solver.
  - intros [(o & Ho & Hr) ->]. assert (r.1.1.1 ∈ dom (written t)) by by apply elem_of_dom.
    assert (∀ s : gset Z, r.1.1.1 ∈ s → r ∈ refs t s) as Hin by (intros; apply elem_of_refs; eauto).
    case_bool_decide; [left; exists r; auto|]. case_bool_decide; [right; left; exists r; auto|].
    right. right. exists r. split; [done|]. apply Hin. set_solver.
Qed.

Lemma elem_of_removed {E} `{!TransactionEffectsAPI E} t g (e : E) id :
  stamped t g → described t e →
  id ∈ (λ r : ObjectRef * ObjectRemoveKind, r.1.1.1) <$> Effects.all_removed_objects e ↔
    id ∈ modified t ∧ written t !! id = None.
Proof.
  intros Hs []. unfold Effects.all_removed_objects. rewrite de_deleted0, de_wrapped0.
  rewrite list_elem_of_fmap. setoid_rewrite elem_of_app. setoid_rewrite list_elem_of_fmap. split.
  - intros (r & -> & [(r' & -> & [Hin _]%elem_of_gone)|(r' & -> & [Hin _]%elem_of_gone)]); cbn.
    + apply elem_of_intersection in Hin as [Hm Hd]. split; [done|]. by apply (sp_deleted t g Hs).
    + rewrite <- not_elem_of_dom. set_solver.
  - intros [Hm Hw]. destruct (decide (id ∈ deleted t)) as [Hd|Hd].
    + exists ((id, lamport_timestamp t, OBJECT_DIGEST_DELETED), RemoveDelete). split; [done|]. left.
      eexists. split; [done|]. apply elem_of_gone. set_solver.
    + exists ((id, lamport_timestamp t, OBJECT_DIGEST_WRAPPED), RemoveWrap). split; [done|]. right.
      eexists. split; [done|]. apply elem_of_gone. apply not_elem_of_dom in Hw. set_solver.
Qed.

Lemma apply_effects_lookup {E} `{!TransactionEffectsAPI E} t g (e : E) live id :
  stamped t g → described t e →
  apply_effects e live !! id =
    match written t !! id with
    | Some o => Some (Obj.version o, digest o, owner o)
    | None => if bool_decide (id ∈ modified t) then None else live !! id
    end.
Proof.
  intros Hs Hd. unfold apply_effects.
  rewrite (insert_all_lookup _ _ (λ id, (λ o, (Obj.version o, digest o, owner o)) <$> written t !! id)).
  2: { intros [[[[k v] d] ow] kind]. rewrite (elem_of_changed t g) by done. cbn.
    intros [(o & -> & -> & -> & ->) _]. done. }
  rewrite delete_all_lookup. destruct (written t !! id) as [o|] eqn:Ho.
  - rewrite bool_decide_true; [done|]. apply list_elem_of_fmap.
    exists (((id, Obj.version o, digest o), owner o),
      if bool_decide (id ∈ modified t) then WriteMutate
      else if bool_decide (id ∈ created t) then WriteCreate else WriteUnwrap).
    split; [done|]. rewrite (elem_of_changed t g) by done. cbn. eauto 6.
  - rewrite bool_decide_false.
    2: { intros ([r k] & -> & Hr)%list_elem_of_fmap. rewrite (elem_of_changed t g) in Hr by done.
      destruct Hr as [(o & Hw & _) _]. cbn in Ho. congruence. }
    erewrite bool_decide_ext; [done|]. rewrite (elem_of_removed t g) by done. tauto.
Qed.

(** C17: the effects of a finished transaction, in either version, are built without a panic and
    report exactly what the transaction did.  The written objects first get their versions: a Move
    object the version of the transaction, an upgraded package the next one, and all of them
    the transaction as the previous one.  Then an object is reported as created, mutated, unwrapped,
    deleted, unwrapped and deleted, or wrapped exactly according to whether it was created,
    modified, deleted and written, with its new reference and owner, in the order of the
    identifiers; both versions give the same lists.  The gas object is the coin that paid. *)
Theorem into_effects_correct b t g shared tx deps cost st epoch :
  finished t g → shared_supported b shared →
  ∃ t' e,
    Temp.update_object_version_and_prev_tx t = Ret t' ∧
    Into.into_effects b t shared tx deps cost st g epoch = Ret (Into.into_inner t', e) ∧
    (∀ id, is_Some (written t' !! id) ↔ is_Some (written t !! id)) ∧
    (∀ id o, written t' !! id = Some o →
       previous_transaction o = tx_digest t ∧
       match data o with
       | Move m => mversion m = lamport_timestamp t
       | Package p => ∃ o' p', written t !! id = Some o' ∧ data o' = Package p' ∧
           pversion p = if bool_decide (id ∈ modified t) then pversion p' + 1 else pversion p'
       end) ∧
    reported t' g tx (foldl (Into.add_received t') deps (receiving_objects t)) cost st epoch e.
Proof.
  intros Hf Hsup. destruct (into_effects_ok b t g shared tx deps cost st epoch Hf Hsup) as (e & He & Hr).
  exists (stamp t), e. split_and!; [by apply (update_stamps t g)|done| | |done].
  - intros id. by rewrite <- !elem_of_dom, stamp_dom.
  - intros id o Ho. rewrite stamp_lookup in Ho. destruct (written t !! id) as [o'|]; [|done].
    cbn in Ho. simplify_eq. cbn. split; [done|]. unfold stamp_data.
    destruct (data o') as [m|p] eqn:Hd; [done|]. case_bool_decide; eauto.
Qed.

(** C27: the effects, in either version, carry the whole change of the object store.  A node
    that keeps a table of the live objects and follows the effects (remove what was deleted or
    wrapped, then insert what was mutated, created or unwrapped) ends with the table of the
    written objects laid over the objects that the transaction did not modify; and the
    effects tell the updates of live objects from new ones. *)
Theorem effects_refine_writes b t g shared tx deps cost st epoch live :
  finished t g → shared_supported b shared → live_before t live →
  ∃ inner e,
    Into.into_effects b t shared tx deps cost st g epoch = Ret (inner, e) ∧
    (∀ id, apply_effects e live !! id =
       match inner_written inner !! id with
       | Some o => Some (Obj.version o, digest o, owner o)
       | None => if bool_decide (id ∈ modified t) then None else live !! id
       end) ∧
    (∀ r o k, (r, o, k) ∈ Effects.all_changed_objects e → k = WriteMutate ↔ is_Some (live !! r.1.1)) ∧
    (∀ r k, (r, k) ∈ Effects.all_removed_objects e → is_Some (live !! r.1.1)).
Proof.
  intros Hf Hsup [Hlive Hnew]. pose proof (stamp_stamped t g Hf) as Hs.
  destruct (into_effects_ok b t g shared tx deps cost st epoch Hf Hsup) as (e & He & Hr).
  pose proof (re_described _ _ _ _ _ _ _ _ Hr) as Hd.
  assert (∀ id, id ∈ modified t → is_Some (live !! id)) as Hmod.
  { intros id Hm. destruct (so_modified t (fi_store t g Hf) id Hm) as [m Hmeta]. rewrite (Hlive id m); done. }
  exists (Into.into_inner (stamp t)), e. split_and!; [done|..].
  - intros id. by apply (apply_effects_lookup (stamp t) g).
  - intros r o k Hin. apply (elem_of_changed (stamp t) g) in Hin as [(o' & Ho' & _) ->]; [|done..]. cbn in Ho' |- *.
    change (modified_objects (execution_results (stamp t))) with (modified t).
    destruct (decide (r.1.1 ∈ modified t)) as [Hm|Hm].
    + rewrite bool_decide_true by done. split; [intros _; by apply Hmod|done].
    + rewrite (bool_decide_false (r.1.1 ∈ modified t)) by done. rewrite Hnew; [|..|done].
      * split; [by case_bool_decide|by intros []].
      * unfold Into.all_ids. rewrite !elem_of_union. right. rewrite <- stamp_dom. by apply elem_of_dom.
  - intros r k Hin. apply Hmod. apply (elem_of_removed (stamp t) g e (r.1.1)); [done..|].
    apply list_elem_of_fmap. by exists (r, k).
Qed.
End reports.

(** * A concrete transaction *)

(** Two gas coins are smashed into the first; an object is shared and a package is published. *)
Module Finished.
#[local] Existing Instance Payment.plain_env.
#[local] Existing Instance Payment.no_store.
#[local] Instance no_hash : EventsHash := {| hash_events := λ l, Z.of_nat (length l) |}.

Definition shared : Object := mkObject (data (Payment.coin 11 5)) (Shared 0) 0 10.
Definition package : Object := mkObject (Package (mkMovePackage 12 1 ∅ [] ∅)) Immutable 0 10.

Definition store : TemporaryStore :=
  mkStore _ 77 {[ 7 := Payment.coin 7 9000000; 9 := Payment.coin 9 5000000 ]} 4
    {[ 7 := ((3, 0), AddressOwner 100); 9 := ((3, 0), AddressOwner 100) ]}
    (mkResults _ {[ 7 := Payment.coin 7 13000000; 11 := shared; 12 := package ]} {[ 7; 9 ]} {[ 11; 12 ]} {[ 9 ]} [tt])
    ∅ ∅ [].
Definition charger : GasCharger :=
  mkGasCharger 77 8 [(7, 3, 0); (9, 3, 0)] (Some 7) Payment.status.
Definition live : gmap Z (Z * Z * Owner) := {[ 7 := (3, 0, AddressOwner 100); 9 := (3, 0, AddressOwner 100) ]}.

Lemma reported_written_cases id o :
  written store !! id = Some o →
  (id = 7 ∧ o = Payment.coin 7 13000000) ∨ (id = 11 ∧ o = shared) ∨ (id = 12 ∧ o = package).
Proof.
  cbn. rewrite !lookup_insert_Some, lookup_singleton_Some. naive_solver.
Qed.

Lemma reported_modified_cases id : id ∈ modified store → id = 7 ∨ id = 9.
Proof. cbn. set_solver. Qed.

Lemma finished_holds : finished store charger.
Proof.
  split.
  - split.
    + intros id o. cbn. rewrite lookup_insert_Some, lookup_singleton_Some.
      intros [[<- <-]|(_ & <- & <-)]; (split; [vm_compute; reflexivity|by vm_compute]).
    + intros id. cbn. rewrite dom_insert_L, dom_singleton_L, elem_of_union, !elem_of_singleton.
      intros [->| ->]; eexists; reflexivity.
    + intros id o [[-> ->]|[[-> ->]|[-> ->]]]%reported_written_cases; vm_compute; reflexivity.
    + intros id. cbn. rewrite dom_insert_L, dom_singleton_L, elem_of_union, !elem_of_singleton.
      intros [->| ->] _; apply (bool_decide_unpack _); vm_compute; exact I.
    + intros id [->| ->]%reported_modified_cases; eexists; reflexivity.
    + intros id m Hm. unfold meta_of in Hm.
      destruct (mutable_input_refs store !! id) as [[[v d] ow]|]; [|done].
      destruct (input_objects store !! id) as [o|] eqn:Ho; [|done]. cbn in Hm. injection Hm as <-. cbn in Ho |- *.
      rewrite lookup_insert_Some, lookup_singleton_Some in Ho.
      destruct Ho as [[_ <-]|(_ & _ & <-)]; by vm_compute.
  - vm_compute. reflexivity.
  - intros id. cbn. rewrite elem_of_singleton. intros ->. reflexivity.
  - intros id o p [[-> ->]|[[-> ->]|[-> ->]]]%reported_written_cases Hd; [done..|]. injection Hd as <-.
    split_and!; [done| |done]. left. apply (bool_decide_unpack _). vm_compute. exact I.
  - intros id o v [[-> ->]|[[-> ->]|[-> ->]]]%reported_written_cases _ Ho; [discriminate Ho|by injection Ho as <-|discriminate Ho].
  - intros id [= <-]. eexists _, _. split; reflexivity.
  - vm_compute. discriminate.
Qed.

Lemma live_holds : live_before store live.
Proof.
  split.
  - intros id m [->| ->]%reported_modified_cases Hm; vm_compute in Hm; injection Hm as <-; vm_compute; reflexivity.
  - intros id Hid Hm. unfold live. rewrite lookup_insert_None, lookup_singleton_None.
    cbn in Hm. set_solver.
Qed.
End Finished.

(** Version 1 reports the second coin as deleted. *)
Lemma into_effects_correct_witness :
  ∃ t' e,
    Into.into_effects (H := Payment.plain_env) (H0 := Payment.no_store) (H1 := Finished.no_hash) false
      Finished.store [] 77 {[ 55 ]} Summary.default_ Success Finished.charger 1 = Ret (Into.into_inner t', e) ∧
    deleted_objects e = gone t' OBJECT_DIGEST_DELETED {[ 9 ]}.
Proof.
  destruct (into_effects_correct (H := Payment.plain_env) (H0 := Payment.no_store) (H1 := Finished.no_hash) false
    Finished.store Finished.charger [] 77 {[ 55 ]} Summary.default_ Success 1 Finished.finished_holds
    ltac:(intros _; constructor)) as (t' & e & Hu & He & _ & _ & Hr).
  exists t', e. split; [exact He|]. rewrite (de_deleted _ _ (re_described _ _ _ _ _ _ _ _ Hr)).
  rewrite (update_stamps _ _ Finished.finished_holds) in Hu. injection Hu as <-. f_equal.
Defined.

(** The table of live objects after the transaction, from effects of version 2. *)
Lemma effects_refine_writes_witness :
  ∃ inner e,
    Into.into_effects (H := Payment.plain_env) (H0 := Payment.no_store) (H1 := Finished.no_hash) true
      Finished.store [] 77 {[ 55 ]} Summary.default_ Success Finished.charger 1 = Ret (inner, e) ∧
    apply_effects e Finished.live !! 9 =
      match inner_written inner !! 9 with Some o => Some (Obj.version o, 0, owner o) | None => None end.
Proof.
  destruct (effects_refine_writes (H := Payment.plain_env) (H0 := Payment.no_store) (H1 := Finished.no_hash) true
    Finished.store Finished.charger [] 77 {[ 55 ]} Summary.default_ Success 1 Finished.live Finished.finished_holds
    ltac:(intros [=]) Finished.live_holds) as (inner & e & He & Hl & _).
  exists inner, e. split; [exact He|]. rewrite (Hl 9). by destruct (inner_written inner !! 9).
Defined.

(** The lists that both versions give for this transaction. *)
Lemma finished_effects b :
  match Into.into_effects (H := Payment.plain_env) (H0 := Payment.no_store) (H1 := Finished.no_hash) b
    Finished.store [] 77 {[ 55 ]} Summary.default_ Success Finished.charger 1 with
  | Ret (_, e) =>
      created_objects e = [((11, 4, 0), Shared 4); ((12, 1, 0), Immutable)] ∧
      mutated_objects e = [((7, 4, 0), AddressOwner 100)] ∧
      deleted_objects e = [(9, 4, OBJECT_DIGEST_DELETED)] ∧
      modified_at_versions e = [(7, 3); (9, 3)] ∧ lamport_version e = Ret 4
  | _ => False
  end.
Proof. destruct b; vm_compute; done. Qed.
