(* ===== verification/CausalOrder.v ===== *)
(** The causal order of the transactions of a checkpoint
    ([crates/sui-core/src/checkpoints/causal_order.rs]).

    The effects are seen through [TransactionEffectsAPI].  A [BTreeMap] is a [gmap] iterated in
    key order, a stack or a vector that is popped from its end is a list whose head is that end.  The two
    [while] loops take fuel; [causal_sort] gives them twice the number of transactions that are
    left, and one more than that number, which [causal_sort_correct] shows to be enough. *)
From S2P Require Import Prelude GasTables Objects SuiGas Effects.

Abbreviation ObjectKey := (Z * Z)%type (only parsing).

(** * Dependencies *)

Record RWLockDependencyBuilder := mkBuilder {
  read_version : gmap ObjectKey (list TransactionDigest);
  overwrite_versions : gmap Z (list ObjectKey);
}.

(** [entry(k).or_default().push(x)]. *)
Definition push_entry {K A} `{Countable K} (k : K) (x : A) (m : gmap K (list A)) : gmap K (list A) :=
  <[k := default [] (m !! k) ++ [x]]> m.

Module Builder.
Section builder.
Context {E : Type} `{!TransactionEffectsAPI E}.

Definition add_input (digest : TransactionDigest) (b : RWLockDependencyBuilder) (kind : InputSharedObject) :
    RWLockDependencyBuilder :=
  match kind with
  | ReadOnly obj_ref => mkBuilder (push_entry obj_ref.1 digest (read_version b)) (overwrite_versions b)
  | Mutate obj_ref => mkBuilder (read_version b) (push_entry digest obj_ref.1 (overwrite_versions b))
  | ReadDeleted oid version =>
      mkBuilder (push_entry (oid, version) digest (read_version b)) (overwrite_versions b)
  | MutateDeleted oid version =>
      mkBuilder (read_version b) (push_entry digest (oid, version) (overwrite_versions b))
  end.

Definition from_effects (effects : list E) : RWLockDependencyBuilder :=
  foldl (λ b effect, foldl (add_input (transaction_digest effect)) b (input_shared_objects effect))
    (mkBuilder ∅ ∅) effects.

Definition add_dependencies_for (b : RWLockDependencyBuilder) (digest : TransactionDigest) (v : gset Z) : gset Z :=
  match overwrite_versions b !! digest with
  | None => v
  | Some overwrites =>
      foldl (λ v obj_ver,
        match read_version b !! obj_ver with
        | None => v
        | Some reads => foldl (λ v dep, {[ dep ]} ∪ v) v reads
        end) v overwrites
  end.
End builder.
End Builder.

Record TransactionDependencies {E : Type} := mkDependencies {
  td_digest : TransactionDigest;
  td_dependencies : gset Z;
  td_effects : E;
}.
Arguments TransactionDependencies : clear implicits.
Arguments mkDependencies {E} _ _ _.

Definition dependencies_from_effects {E} `{!TransactionEffectsAPI E} (rwlock_builder : RWLockDependencyBuilder) (effects : E) :
    TransactionDependencies E :=
  mkDependencies (transaction_digest effects)
    (Builder.add_dependencies_for rwlock_builder (transaction_digest effects) (list_to_set (dependencies effects)))
    effects.

(** * The sort *)

Record CausalOrder {E : Type} := mkOrder {
  not_seen : gmap Z (TransactionDependencies E);
  output : list E;
}.
Arguments CausalOrder : clear implicits.
Arguments mkOrder {E} _ _.

Record InsertState {E : Type} := mkInsert {
  is_dependencies : list TransactionDigest;
  is_transaction : option (TransactionDependencies E);
}.
Arguments InsertState : clear implicits.
Arguments mkInsert {E} _ _.

Module Insert.
Section insert.
Context {E : Type}.
Implicit Types c : CausalOrder E.

Definition new (transaction : TransactionDependencies E) : InsertState E :=
  mkInsert (reverse (btree_set_iter (td_dependencies transaction))) (Some transaction).

(** The loop over the dependencies that are left: the state to continue with, the dependencies
    that remain and the order. *)
Fixpoint next_dependency (deps : list TransactionDigest) c :
    option (TransactionDependencies E * list TransactionDigest * CausalOrder E) :=
  match deps with
  | [] => None
  | dep :: deps =>
      match not_seen c !! dep with
      | Some dep_transaction => Some (dep_transaction, deps, mkOrder (delete dep (not_seen c)) (output c))
      | None => next_dependency deps c
      end
  end.

Definition process (s : InsertState E) c : outcome (option (InsertState E) * InsertState E * CausalOrder E) :=
  match next_dependency (is_dependencies s) c with
  | Some (dep_transaction, deps, c) => Ret (Some (new dep_transaction), mkInsert deps (is_transaction s), c)
  | None =>
      transaction ← unwrap (is_transaction s);
      Ret (None, mkInsert [] None, mkOrder (not_seen c) (output c ++ [td_effects transaction]))
  end.
End insert.
End Insert.

Module Causal.
Section causal.
Context {E : Type} `{!TransactionEffectsAPI E}.
Implicit Types c : CausalOrder E.

Definition from_vec (effects : list E) : CausalOrder E :=
  let rwlock_builder := Builder.from_effects effects in
  let dependencies := dependencies_from_effects rwlock_builder <$> effects in
  mkOrder (collect ((λ e, (td_digest e, e)) <$> dependencies)) [].

Definition pop_first c : option (TransactionDependencies E * CausalOrder E) :=
  match btree_iter (not_seen c) with
  | [] => None
  | (key, t) :: _ => Some (t, mkOrder (delete key (not_seen c)) (output c))
  end.

(** [while let Some(state) = states.last_mut()]. *)
Fixpoint run_states (fuel : nat) (states : list (InsertState E)) c : outcome (CausalOrder E) :=
  match states, fuel with
  | [], _ => Ret c
  | _ :: _, O => OutOfFuel
  | state :: rest, S fuel =>
      r ← Insert.process state c;
      match r with
      | (Some new_state, state, c) => run_states fuel (new_state :: state :: rest) c
      | (None, _, c) => run_states fuel rest c
      end
  end.

Definition insert c (transaction : TransactionDependencies E) : outcome (CausalOrder E) :=
  run_states (S (2 * size (not_seen c))) [Insert.new transaction] c.

Definition into_list c : list E := output c.

(** [while let Some(item) = this.pop_first()]. *)
Fixpoint sort_loop (fuel : nat) c : outcome (CausalOrder E) :=
  match pop_first c, fuel with
  | None, _ => Ret c
  | Some _, O => OutOfFuel
  | Some (item, c), S fuel => c ← insert c item; sort_loop fuel c
  end.

Definition causal_sort (effects : list E) : outcome (list E) :=
  let this := from_vec effects in
  c ← sort_loop (size (not_seen this)) this;
  Ret (into_list c).
End causal.
End Causal.

(** * Properties *)

(** ** Dependencies *)

(** The versions of shared objects that a transaction reads and those that it overwrites. *)
Definition read_key (i : InputSharedObject) : option ObjectKey :=
  match i with
  | ReadOnly r => Some r.1
  | ReadDeleted oid version => Some (oid, version)
  | Mutate _ | MutateDeleted _ _ => None
  end.
Definition write_key (i : InputSharedObject) : option ObjectKey :=
  match i with
  | Mutate r => Some r.1
  | MutateDeleted oid version => Some (oid, version)
  | ReadOnly _ | ReadDeleted _ _ => None
  end.

Section dependencies.
Context {E : Type} `{!TransactionEffectsAPI E}.
Implicit Types (e : E) (l : list E).

(** [e] must come after the transaction [d]: its effects say so, or [d] reads a version of a
    shared object that [e] overwrites. *)
Definition depends l e (d : TransactionDigest) : Prop :=
  d ∈ dependencies e ∨
  ∃ k e', k ∈ omap write_key (input_shared_objects e) ∧ e' ∈ l ∧ transaction_digest e' = d ∧
    k ∈ omap read_key (input_shared_objects e').

Lemma elem_of_push_entry {K A} `{Countable K} (k k' : K) (x y : A) m :
  y ∈ default [] (push_entry k x m !! k') ↔ y ∈ default [] (m !! k') ∨ (k' = k ∧ y = x).
Proof.
  unfold push_entry. destruct (decide (k = k')) as [->|Hne].
  - rewrite lookup_insert_eq. cbn. rewrite elem_of_app, list_elem_of_singleton. naive_solver.
  - rewrite lookup_insert_ne by done. naive_solver.
Qed.

Lemma add_inputs_spec d (ins : list InputSharedObject) b k x :
  (x ∈ default [] (read_version (foldl (Builder.add_input d) b ins) !! k) ↔
     x ∈ default [] (read_version b !! k) ∨ (x = d ∧ k ∈ omap read_key ins)) ∧
  (k ∈ default [] (overwrite_versions (foldl (Builder.add_input d) b ins) !! x) ↔
     k ∈ default [] (overwrite_versions b !! x) ∨ (x = d ∧ k ∈ omap write_key ins)).
Proof.
  revert b. induction ins as [|i ins IH]; intros b.
  { cbn. split; [split; [tauto|intros [?|[_ []%elem_of_nil]]; done]|split; [tauto|intros [?|[_ []%elem_of_nil]]; done]]. }
  cbn [foldl]. destruct (IH (Builder.add_input d b i)) as [-> ->].
  destruct i as [r|r|oid v|oid v]; cbn; rewrite ?elem_of_push_entry, ?elem_of_cons; split; naive_solver.
Qed.

Lemma from_effects_spec l k x :
  (x ∈ default [] (read_version (Builder.from_effects l) !! k) ↔
     ∃ e, e ∈ l ∧ x = transaction_digest e ∧ k ∈ omap read_key (input_shared_objects e)) ∧
  (k ∈ default [] (overwrite_versions (Builder.from_effects l) !! x) ↔
     ∃ e, e ∈ l ∧ x = transaction_digest e ∧ k ∈ omap write_key (input_shared_objects e)).
Proof.
  unfold Builder.from_effects. induction l as [|e l IH] using rev_ind.
  { cbn. rewrite !lookup_empty. cbn. split; (split; [by intros ?%elem_of_nil|intros (e & []%elem_of_nil & _)]). }
  rewrite foldl_app. cbn [foldl].
  destruct (add_inputs_spec (transaction_digest e) (input_shared_objects e)
    (foldl (λ b effect, foldl (Builder.add_input (transaction_digest effect)) b (input_shared_objects effect))
       (mkBuilder ∅ ∅) l) k x) as [-> ->].
  destruct IH as [-> ->]. setoid_rewrite elem_of_app. setoid_rewrite list_elem_of_singleton. naive_solver.
Qed.

Lemma insert_reads_spec (reads : list Z) (v : gset Z) d :
  d ∈ foldl (λ v dep, {[ dep ]} ∪ v) v reads ↔ d ∈ v ∨ d ∈ reads.
Proof.
  revert v. induction reads as [|r reads IH]; intros v; cbn [foldl].
  - rewrite elem_of_nil. tauto.
  - rewrite IH, elem_of_union, elem_of_singleton, elem_of_cons. tauto.
Qed.

Lemma add_dependencies_spec b x v d :
  d ∈ Builder.add_dependencies_for b x v ↔
  d ∈ v ∨ ∃ k, k ∈ default [] (overwrite_versions b !! x) ∧ d ∈ default [] (read_version b !! k).
Proof.
  unfold Builder.add_dependencies_for. destruct (overwrite_versions b !! x) as [ks|]; cbn.
  2: { split; [tauto|]. intros [?|(k & []%elem_of_nil & _)]. done. }
  revert v. induction ks as [|k ks IH]; intros v; cbn [foldl].
  { split; [tauto|]. intros [?|(k & []%elem_of_nil & _)]. done. }
  rewrite IH. setoid_rewrite elem_of_cons.
  assert (d ∈ match read_version b !! k with
    | Some reads => foldl (λ v dep, {[ dep ]} ∪ v) v reads | None => v end ↔
    d ∈ v ∨ d ∈ default [] (read_version b !! k)) as ->.
  { destruct (read_version b !! k); cbn; [apply insert_reads_spec|]. rewrite elem_of_nil. tauto. }
  naive_solver.
Qed.

Lemma digest_inj l e e' :
  NoDup (transaction_digest <$> l) → e ∈ l → e' ∈ l → transaction_digest e = transaction_digest e' → e = e'.
Proof.
  intros Hnd [i Hi]%list_elem_of_lookup [j Hj]%list_elem_of_lookup Heq.
  assert (i = j) as ->; [|congruence].
  apply (NoDup_lookup _ i j (transaction_digest e) Hnd); rewrite list_lookup_fmap.
  - by rewrite Hi.
  - rewrite Hj. cbn. by rewrite Heq.
Qed.

(** The dependencies that the sort works with. *)
Lemma from_effects_dependencies l e d :
  NoDup (transaction_digest <$> l) → e ∈ l →
  d ∈ td_dependencies (dependencies_from_effects (Builder.from_effects l) e) ↔ depends l e d.
Proof.
  intros Hnd He. cbn. rewrite add_dependencies_spec, elem_of_list_to_set. unfold depends.
  setoid_rewrite (λ k, proj1 (from_effects_spec l k d)).
  setoid_rewrite (λ k, proj2 (from_effects_spec l k (transaction_digest e))).
  split; (intros [?|Hk]; [by left|right]).
  - destruct Hk as (k & (e1 & He1 & Heq & Hw) & (e2 & He2 & -> & Hr)).
    rewrite <- (digest_inj l e e1) in Hw by done. eauto 8.
  - destruct Hk as (k & e' & Hw & He' & <- & Hr). exists k. eauto 10.
Qed.
End dependencies.

(** ** The depth-first search *)

Section search.
Context {E : Type} `{!TransactionEffectsAPI E}.
Implicit Types (c : CausalOrder E) (states : list (InsertState E)) (td : TransactionDependencies E).

(** All transactions, by digest. *)
Variable all : gmap Z (TransactionDependencies E).
Hypothesis all_keys : ∀ k td, all !! k = Some td → td_digest td = k ∧ transaction_digest (td_effects td) = k.

Definition digests states : list Z := omap (λ s, td_digest <$> is_transaction s) states.
Abbreviation ids l := (transaction_digest <$> l).

(** Every transaction is in the output, on the stack or not seen, and in only one of them. *)
Record search_ok states c : Prop := {
  so_not_seen : not_seen c ⊆ all;
  so_states : Forall (λ s, ∃ td, is_transaction s = Some td ∧ all !! td_digest td = Some td ∧
    ∀ d, d ∈ is_dependencies s → d ∈ td_dependencies td) states;
  so_output : Forall (λ e, ∃ td, all !! transaction_digest e = Some td ∧ td_effects td = e) (output c);
  so_parts : ids (output c) ++ digests states ++ elements (dom (not_seen c)) ≡ₚ elements (dom all);
}.

(** Dependencies come before the transactions that have them. *)
Inductive causal : list E → Prop :=
  | causal_nil : causal []
  | causal_snoc l e td : causal l → all !! transaction_digest e = Some td →
      (∀ d, d ∈ td_dependencies td → d ∈ dom all → d ∈ ids l) → causal (l ++ [e]).

Definition acyclic (rank : Z → nat) : Prop :=
  ∀ k td d, all !! k = Some td → d ∈ td_dependencies td → d ∈ dom all → (rank d < rank k)%nat.

(** The dependencies that a state on the stack has passed are done, or above it. *)
Fixpoint stack_ok (past : list Z) states : Prop :=
  match states with
  | [] => True
  | s :: rest =>
      ∀ td, is_transaction s = Some td →
        (∀ d, d ∈ td_dependencies td → d ∈ dom all → d ∈ is_dependencies s ∨ d ∈ past) ∧
        stack_ok (td_digest td :: past) rest
  end.

Record ordered (rank : Z → nat) states c : Prop := {
  or_output : causal (output c);
  or_stack : stack_ok (ids (output c)) states;
  or_ranks : StronglySorted (λ a b, (rank a < rank b)%nat) (digests states);
}.

Lemma stack_ok_mono past past' states : past ⊆ past' → stack_ok past states → stack_ok past' states.
Proof.
  revert past past'. induction states as [|s rest IH]; intros past past' Hd; [done|]. cbn. intros Hs td Htd.
  destruct (Hs td Htd) as [Hdeps Hrest]. split.
  - intros d Hin Hall. destruct (Hdeps d Hin Hall); [by left|right; by apply Hd].
  - eapply IH; [|exact Hrest]. set_solver.
Qed.

Lemma next_dependency_spec deps c :
  match Insert.next_dependency deps c with
  | None => ∀ d, d ∈ deps → not_seen c !! d = None
  | Some (td, rest, c') =>
      ∃ skipped d, deps = skipped ++ d :: rest ∧ (∀ x, x ∈ skipped → not_seen c !! x = None) ∧
        not_seen c !! d = Some td ∧ c' = mkOrder (delete d (not_seen c)) (output c)
  end.
Proof.
  induction deps as [|d deps IH]; cbn; [by intros d ?%elem_of_nil|].
  destruct (not_seen c !! d) as [td|] eqn:Hd.
  - exists [], d. split_and!; [done|by intros x ?%elem_of_nil|done|done].
  - destruct (Insert.next_dependency deps c) as [[[td rest] c']|].
    + destruct IH as (skipped & d' & -> & Hs & Hd' & ->). exists (d :: skipped), d'. split_and!; [done| |done|done].
      intros x [->|Hx]%elem_of_cons; [done|by apply Hs].
    + intros x [->|Hx]%elem_of_cons; [done|by apply IH].
Qed.

Lemma elements_delete (m : gmap Z (TransactionDependencies E)) k td :
  m !! k = Some td → elements (dom m) ≡ₚ k :: elements (dom (delete k m)).
Proof.
  intros Hk. rewrite dom_delete_L. rewrite <- elements_union_singleton by set_solver.
  f_equiv. apply set_equiv. intros x. assert (k ∈ dom m) by by apply elem_of_dom.
  destruct (decide (x = k)); set_solver.
Qed.

Lemma size_delete (m : gmap Z (TransactionDependencies E)) k td :
  m !! k = Some td → size m = S (size (delete k m)).
Proof.
  intros Hk. rewrite map_size_delete_Some by by eexists. assert (size m ≠ 0)%nat as Hz; [|lia].
  intros Hz. apply map_size_empty_iff in Hz. by rewrite Hz, lookup_empty in Hk.
Qed.

Lemma search_ok_nodup states c : search_ok states c → NoDup (ids (output c) ++ digests states ++ elements (dom (not_seen c))).
Proof. intros []. rewrite so_parts0. apply NoDup_elements. Qed.

(** A dependency of the top of the stack that has been seen is in the output. *)
Lemma seen_in_output rank s rest c td d :
  search_ok (s :: rest) c → ordered rank (s :: rest) c → acyclic rank → is_transaction s = Some td →
  d ∈ td_dependencies td → d ∈ dom all → not_seen c !! d = None → d ∈ ids (output c).
Proof.
  intros Hok Hord Hac Htd Hd Hall Hns. apply elem_of_elements in Hall.
  rewrite <- (so_parts _ _ Hok), !elem_of_app in Hall. apply elem_of_elements in Hd as Hd'.
  destruct Hall as [?|[Hst|Hn]]; [done| |].
  2: { by apply elem_of_elements, elem_of_dom in Hn as [? ?]; simplify_eq. }
  exfalso. pose proof (or_ranks _ _ _ Hord) as Hr. cbn in Hr, Hst. rewrite Htd in Hr, Hst. cbn in Hr, Hst.
  apply StronglySorted_inv in Hr as [_ Hr]. rewrite Forall_forall in Hr.
  pose proof (so_states _ _ Hok) as Hss. apply Forall_cons in Hss as [(td' & Htd' & Hk & _) _]. simplify_eq.
  assert (rank d < rank (td_digest td))%nat as Hlt.
  { apply (Hac (td_digest td) td d Hk Hd). apply elem_of_dom.
    apply elem_of_cons in Hst as [->|Hst]; [by eexists|].
    apply list_elem_of_omap in Hst as (s' & Hs' & Hx). pose proof (so_states _ _ Hok) as Hss.
    apply Forall_cons in Hss as [_ Hss]. rewrite Forall_forall in Hss.
    destruct (Hss s' Hs') as (td' & Htd' & Hk' & _). rewrite Htd' in Hx. cbn in Hx. simplify_eq. by eexists. }
  apply elem_of_cons in Hst as [->|Hst]; [lia|]. specialize (Hr d Hst). cbn in Hr. lia.
Qed.

Lemma new_dependencies td d : d ∈ is_dependencies (Insert.new td) ↔ d ∈ td_dependencies td.
Proof. cbn. by rewrite elem_of_reverse, elem_of_btree_set_iter. Qed.

(** Both steps of the loop keep the invariants. *)
Lemma push_search_ok s rest c td d skipped deps :
  search_ok (s :: rest) c → is_dependencies s = skipped ++ d :: deps → not_seen c !! d = Some td →
  search_ok (Insert.new td :: mkInsert deps (is_transaction s) :: rest)
    (mkOrder (delete d (not_seen c)) (output c)).
Proof.
  intros Hok Hdeps Hd. pose proof (lookup_weaken _ _ _ _ Hd (so_not_seen _ _ Hok)) as Hall.
  destruct (all_keys d td Hall) as [Hkey _].
  split; cbn [not_seen output].
  - etrans; [apply delete_subseteq|apply (so_not_seen _ _ Hok)].
  - pose proof (so_states _ _ Hok) as Hs. apply Forall_cons in Hs as [(std & Hstd & Hsk & Hin) Hrest].
    constructor; [|constructor; [|done]].
    + exists td. rewrite Hkey. split_and!; [done..|]. intros x. apply new_dependencies.
    + exists std. split_and!; [done..|]. intros x Hx. apply Hin. rewrite Hdeps. set_solver.
  - apply (so_output _ _ Hok).
  - rewrite <- (so_parts _ _ Hok), (elements_delete _ _ _ Hd). f_equiv.
    assert (digests (Insert.new td :: mkInsert deps (is_transaction s) :: rest) = d :: digests (s :: rest)) as ->
      by (unfold digests; cbn; by rewrite Hkey).
    apply Permutation_middle.
Qed.

Lemma push_ordered rank s rest c td d skipped deps :
  search_ok (s :: rest) c → ordered rank (s :: rest) c → acyclic rank →
  is_dependencies s = skipped ++ d :: deps → (∀ x, x ∈ skipped → not_seen c !! x = None) →
  not_seen c !! d = Some td →
  ordered rank (Insert.new td :: mkInsert deps (is_transaction s) :: rest)
    (mkOrder (delete d (not_seen c)) (output c)).
Proof.
  intros Hok Hord Hac Hdeps Hskip Hd. pose proof (lookup_weaken _ _ _ _ Hd (so_not_seen _ _ Hok)) as Hall.
  destruct (all_keys d td Hall) as [Hkey _].
  pose proof (so_states _ _ Hok) as Hss. apply Forall_cons in Hss as [(std & Hstd & Hsk & Hin) _].
  split; cbn [not_seen output].
  - apply (or_output _ _ _ Hord).
  - pose proof (or_stack _ _ _ Hord) as Hst. cbn in Hst. destruct (Hst std Hstd) as [Hpast Hrest].
    cbn. intros td' [= <-]. split.
    { intros x Hx _. left. by apply new_dependencies. }
    intros td' Htd'. rewrite Hstd in Htd'. injection Htd' as <-. split.
    + intros x Hx Hxall. destruct (Hpast x Hx Hxall) as [Hrem|?]; [|right; by right].
      rewrite Hdeps, elem_of_app, elem_of_cons in Hrem.
      destruct Hrem as [Hsk'|[->|?]]; [|right; rewrite Hkey; by left|by left].
      right. right. by apply (seen_in_output rank s rest c std); [..|apply Hskip].
    + eapply stack_ok_mono; [|exact Hrest]. set_solver.
  - cbn. pose proof (or_ranks _ _ _ Hord) as Hr. cbn in Hr. rewrite Hstd in Hr |- *. cbn in Hr |- *. rewrite Hkey.
    assert (rank d < rank (td_digest std))%nat as Hlt.
    { apply (Hac _ std d Hsk); [apply Hin; rewrite Hdeps; set_solver|]. apply elem_of_dom. by eexists. }
    constructor; [done|]. apply StronglySorted_inv in Hr as [_ Hr]. constructor; [done|].
    eapply Forall_impl; [exact Hr|]. cbn. lia.
Qed.

Lemma pop_search_ok s rest c td :
  search_ok (s :: rest) c → is_transaction s = Some td →
  search_ok rest (mkOrder (not_seen c) (output c ++ [td_effects td])).
Proof.
  intros Hok Htd. pose proof (so_states _ _ Hok) as Hss. apply Forall_cons in Hss as [(td' & Htd' & Hk & _) Hrest].
  simplify_eq. destruct (all_keys _ _ Hk) as [_ Hdig]. split; cbn [not_seen output].
  - apply (so_not_seen _ _ Hok).
  - done.
  - apply Forall_app. split; [apply (so_output _ _ Hok)|]. constructor; [|done]. exists td. by rewrite Hdig.
  - rewrite <- (so_parts _ _ Hok), fmap_app, <- app_assoc. cbn. rewrite Htd. cbn. by rewrite Hdig.
Qed.

Lemma pop_ordered rank s rest c td :
  search_ok (s :: rest) c → ordered rank (s :: rest) c → acyclic rank → is_transaction s = Some td →
  (∀ d, d ∈ is_dependencies s → not_seen c !! d = None) →
  ordered rank rest (mkOrder (not_seen c) (output c ++ [td_effects td])).
Proof.
  intros Hok Hord Hac Htd Hseen. pose proof (so_states _ _ Hok) as Hss.
  apply Forall_cons in Hss as [(td' & Htd' & Hk & _) _]. simplify_eq. destruct (all_keys _ _ Hk) as [_ Hdig].
  pose proof (or_stack _ _ _ Hord) as Hst. cbn in Hst. destruct (Hst td Htd) as [Hpast Hrest].
  split; cbn [not_seen output].
  - apply (causal_snoc _ _ td); [apply (or_output _ _ _ Hord)|by rewrite Hdig|].
    intros d Hd Hall. destruct (Hpast d Hd Hall) as [Hrem|?]; [|done].
    by apply (seen_in_output rank s rest c td); [..|apply Hseen].
  - eapply stack_ok_mono; [|exact Hrest]. rewrite fmap_app. cbn. rewrite Hdig. set_solver.
  - pose proof (or_ranks _ _ _ Hord) as Hr. cbn in Hr. rewrite Htd in Hr. cbn in Hr.
    by apply StronglySorted_inv in Hr as [Hr _].
Qed.

Definition reached states c : Prop :=
  search_ok states c ∧ ∀ rank, acyclic rank → ordered rank states c.

Lemma run_states_ok fuel states c :
  reached states c → (2 * size (not_seen c) + length states <= fuel)%nat →
  ∃ c', Causal.run_states fuel states c = Ret c' ∧ reached [] c' ∧ (size (not_seen c') <= size (not_seen c))%nat.
Proof.
  revert states c. induction fuel as [|fuel IH]; intros states c [Hok Hord] Hfuel.
  { destruct states; [|cbn in Hfuel; lia]. exists c. done. }
  destruct states as [|s rest]; [by exists c|]. cbn [Causal.run_states]. unfold Insert.process.
  pose proof (next_dependency_spec (is_dependencies s) c) as Hnext.
  destruct (Insert.next_dependency (is_dependencies s) c) as [[[td deps] c1]|].
  - destruct Hnext as (skipped & d & Hdeps & Hskip & Hd & ->). cbn [mbind outcome_bind].
    pose proof (size_delete _ _ _ Hd) as Hsz.
    destruct (IH (Insert.new td :: mkInsert deps (is_transaction s) :: rest)
      (mkOrder (delete d (not_seen c)) (output c))) as (c' & Hrun & Hr & Hle).
    + split; [by apply (push_search_ok _ _ _ _ _ skipped)|]. intros rank Hac.
      eapply (push_ordered rank s rest c td d skipped); eauto.
    + cbn in Hfuel |- *. lia.
    + exists c'. split_and!; [done..|]. cbn in Hle. lia.
  - pose proof (so_states _ _ Hok) as Hss. apply Forall_cons in Hss as [(td & Htd & _) _].
    rewrite Htd. cbn [unwrap mbind outcome_bind].
    destruct (IH rest (mkOrder (not_seen c) (output c ++ [td_effects td]))) as (c' & Hrun & Hr & Hle).
    + split; [by apply (pop_search_ok s)|]. intros rank Hac. apply (pop_ordered rank s); auto.
    + cbn in Hfuel |- *. lia.
    + by exists c'.
Qed.

Lemma insert_reached c k td :
  reached [] c → not_seen c !! k = Some td →
  ∃ c', Causal.insert (mkOrder (delete k (not_seen c)) (output c)) td = Ret c' ∧ reached [] c' ∧
    (size (not_seen c') < size (not_seen c))%nat.
Proof.
  intros [Hok Hord] Hk. pose proof (lookup_weaken _ _ _ _ Hk (so_not_seen _ _ Hok)) as Hall.
  destruct (all_keys k td Hall) as [Hkey _].
  pose proof (size_delete _ _ _ Hk) as Hsz.
  unfold Causal.insert.
  destruct (run_states_ok (S (2 * size (not_seen (mkOrder (delete k (not_seen c)) (output c))))) [Insert.new td]
    (mkOrder (delete k (not_seen c)) (output c))) as (c' & Hrun & Hr & Hle).
  - split.
    + split; cbn [not_seen output]; [|..|apply (so_output _ _ Hok)|].
      * etrans; [apply delete_subseteq|apply (so_not_seen _ _ Hok)].
      * constructor; [|done]. exists td. rewrite Hkey. split_and!; [done..|].
        intros x. apply new_dependencies.
      * rewrite <- (so_parts _ _ Hok), (elements_delete _ _ _ Hk). cbn. by rewrite Hkey.
    + intros rank Hac. specialize (Hord rank Hac). split; cbn [output]; [apply (or_output _ _ _ Hord)| |].
      * cbn. intros td' [= <-]. split; [|done]. intros x Hx _. left. by apply new_dependencies.
      * cbn. by repeat constructor.
  - cbn. lia.
  - exists c'. split_and!; [done..|]. cbn in Hle. lia.
Qed.

Lemma sort_loop_ok fuel c :
  reached [] c → (size (not_seen c) <= fuel)%nat →
  ∃ c', Causal.sort_loop fuel c = Ret c' ∧ reached [] c' ∧ not_seen c' = ∅.
Proof.
  revert c. induction fuel as [|fuel IH]; intros c Hr Hfuel.
  all: cbn [Causal.sort_loop]; unfold Causal.pop_first.
  all: destruct (btree_iter (not_seen c)) as [|[k td] l] eqn:Hit.
  1,3: exists c; split_and!; [done..|]; apply map_size_empty_iff; by rewrite <- length_btree_iter, Hit.
  { exfalso. rewrite <- length_btree_iter, Hit in Hfuel. cbn in Hfuel. lia. }
  assert (not_seen c !! k = Some td) as Hk by (apply elem_of_btree_iter; rewrite Hit; left).
  destruct (insert_reached c k td Hr Hk) as (c' & -> & Hr' & Hlt). cbn [mbind outcome_bind]. apply IH; [done|lia].
Qed.
End search.

Lemma causal_lookup {E} `{!TransactionEffectsAPI E} all (l : list E) i e td d :
  causal all l → l !! i = Some e → all !! transaction_digest e = Some td → d ∈ td_dependencies td → d ∈ dom all →
  ∃ j, (j < i)%nat ∧ (transaction_digest <$> l) !! j = Some d.
Proof.
  intros Hc. revert i. induction Hc as [|l e' td' Hc IH Htd' Hdeps]; intros i Hi Htd Hd Hall; [done|].
  apply lookup_snoc_Some in Hi as [[Hlt Hi]|[-> <-]].
  - destruct (IH i Hi Htd Hd Hall) as (j & Hj & Hl). exists j. split; [done|]. rewrite fmap_app.
    by apply lookup_app_l_Some.
  - simplify_eq. apply Hdeps, list_elem_of_lookup in Hd as [j Hj]; [|done]. exists j.
    pose proof (lookup_lt_Some _ _ _ Hj) as Hlt. rewrite length_fmap in Hlt. split; [done|].
    rewrite fmap_app. by apply lookup_app_l_Some.
Qed.

Section causal_sort.
Context {E : Type} `{!TransactionEffectsAPI E}.
Implicit Types (e : E) (l : list E).

Lemma from_vec_lookup l k td :
  NoDup (transaction_digest <$> l) →
  not_seen (Causal.from_vec l) !! k = Some td ↔
  ∃ e, e ∈ l ∧ k = transaction_digest e ∧ td = dependencies_from_effects (Builder.from_effects l) e.
Proof.
  intros Hnd. cbn. rewrite collect_lookup.
  2: { rewrite <- !list_fmap_compose. exact Hnd. }
  rewrite list_elem_of_fmap. split.
  - intros (td' & [= -> ->] & (e & -> & He)%list_elem_of_fmap). by exists e.
  - intros (e & He & -> & ->). exists (dependencies_from_effects (Builder.from_effects l) e).
    split; [done|]. by apply list_elem_of_fmap_2.
Qed.

(** Nothing that the sort works with depends on the order of the effects. *)
Lemma from_vec_perm l l' :
  NoDup (transaction_digest <$> l) → l ≡ₚ l' → Causal.from_vec l = Causal.from_vec l'.
Proof.
  intros Hnd Hl. assert (NoDup (transaction_digest <$> l')) as Hnd' by by rewrite <- Hl.
  assert (∀ e, e ∈ l → dependencies_from_effects (Builder.from_effects l) e =
    dependencies_from_effects (Builder.from_effects l') e) as Hdeps.
  { intros e He. pose proof (λ d, from_effects_dependencies l e d Hnd He) as H1.
    assert (e ∈ l') as He' by by rewrite <- Hl. pose proof (λ d, from_effects_dependencies l' e d Hnd' He') as H2.
    unfold dependencies_from_effects in *. f_equal. apply set_eq. intros d. cbn in H1, H2. rewrite H1, H2.
    unfold depends. by setoid_rewrite Hl. }
  assert (not_seen (Causal.from_vec l) = not_seen (Causal.from_vec l')) as Heq.
  2: { unfold Causal.from_vec in *. cbn in Heq. by rewrite Heq. }
  apply map_eq. intros k. apply option_eq. intros td. rewrite !from_vec_lookup by done.
  split; intros (e & He & -> & ->); exists e.
  - split_and!; [by rewrite <- Hl|done|by apply Hdeps].
  - assert (e ∈ l) by by rewrite Hl. split_and!; [done..|]. symmetry. by apply Hdeps.
Qed.

Lemma sort_result l :
  NoDup (transaction_digest <$> l) →
  ∃ c, Causal.sort_loop (size (not_seen (Causal.from_vec l))) (Causal.from_vec l) = Ret c ∧
    reached (not_seen (Causal.from_vec l)) [] c ∧ NoDup (transaction_digest <$> output c) ∧ output c ≡ₚ l.
Proof.
  intros Hnd. set (all := not_seen (Causal.from_vec l)).
  assert (∀ k td, all !! k = Some td → td_digest td = k ∧ transaction_digest (td_effects td) = k) as Hkeys.
  { intros k td. subst all. rewrite from_vec_lookup by done. by intros (e & _ & -> & ->). }
  assert (reached all [] (Causal.from_vec l)) as Hr.
  { split; [by split|]. intros rank _. split; cbn; [constructor|done|constructor]. }
  destruct (sort_loop_ok all Hkeys (size all) (Causal.from_vec l) Hr) as (c & Hc & [Hok Hord] & Hempty); [done|].
  assert (transaction_digest <$> output c ≡ₚ elements (dom all)) as Hids.
  { pose proof (so_parts _ _ _ Hok) as Hp. rewrite Hempty, dom_empty_L, elements_empty in Hp. cbn in Hp.
    by rewrite app_nil_r in Hp. }
  assert (NoDup (transaction_digest <$> output c)) as Hndo by (rewrite Hids; apply NoDup_elements).
  exists c. split_and!; [done..|].
  apply NoDup_Permutation; [by eapply NoDup_fmap_1|by eapply NoDup_fmap_1|]. intros e.
  pose proof (so_output _ _ _ Hok) as Ho. rewrite Forall_forall in Ho. split.
  - intros He. destruct (Ho e He) as (td & Htd & <-). subst all. rewrite from_vec_lookup in Htd by done.
    by destruct Htd as (e' & He' & _ & ->).
  - intros He. assert (transaction_digest e ∈ transaction_digest <$> output c) as Hin.
    { rewrite Hids. apply elem_of_elements, elem_of_dom. eexists. subst all. apply from_vec_lookup; eauto. }
    apply list_elem_of_fmap in Hin as (e' & Heq & He'). destruct (Ho e' He') as (td & Htd & <-).
    subst all. rewrite from_vec_lookup in Htd by done. destruct Htd as (e2 & He2 & Heq2 & ->).
    by rewrite (digest_inj l e e2) by done.
Qed.

(** C24: [causal_sort] always returns, whatever the dependencies are.  For effects of distinct
    transactions the result has each of them exactly once and does not depend on the order in
    which they were given.  When the dependencies are acyclic (those that the effects list, and those of a
    transaction that overwrites a version of a shared object on the ones that read it), every
    transaction comes after the ones that it depends on. *)
Theorem causal_sort_correct l :
  NoDup (transaction_digest <$> l) →
  ∃ out,
    Causal.causal_sort l = Ret out ∧ out ≡ₚ l ∧
    (∀ l', l' ≡ₚ l → Causal.causal_sort l' = Ret out) ∧
    (∀ rank : TransactionDigest → nat,
       (∀ e e', e ∈ l → e' ∈ l → depends l e (transaction_digest e') →
          (rank (transaction_digest e') < rank (transaction_digest e))%nat) →
       ∀ i j e e', out !! i = Some e → out !! j = Some e' → depends l e (transaction_digest e') → (j < i)%nat).
Proof.
  intros Hnd. destruct (sort_result l Hnd) as (c & Hc & [Hok Hord] & Hndo & Hperm).
  exists (output c). unfold Causal.causal_sort. rewrite Hc. split_and!; [done|done| |].
  { intros l' Hl'. rewrite (from_vec_perm l' l) by (done || by rewrite Hl'). by rewrite Hc. }
  intros rank Hrank i j e e' Hi Hj Hdep.
  assert (∀ x y, output c !! x = Some y → y ∈ l) as Hin
    by (intros x y Hx; rewrite <- Hperm; by eapply list_elem_of_lookup_2).
  assert (acyclic (not_seen (Causal.from_vec l)) rank) as Hac.
  { intros k td d Hk Hd [td' Hd']%elem_of_dom. rewrite from_vec_lookup in Hk, Hd' by done.
    destruct Hk as (e1 & He1 & -> & ->), Hd' as (e2 & He2 & -> & _).
    apply Hrank; [done..|]. by apply from_effects_dependencies. }
  destruct (causal_lookup (not_seen (Causal.from_vec l)) (output c) i e
    (dependencies_from_effects (Builder.from_effects l) e) (transaction_digest e')
    (or_output _ _ _ _ (Hord rank Hac)) Hi) as (j' & Hj' & Hl).
  - apply from_vec_lookup; eauto.
  - apply from_effects_dependencies; eauto.
  - apply elem_of_dom. eexists. apply from_vec_lookup; eauto.
  - assert (j = j') as ->; [|done]. eapply NoDup_lookup; [exact Hndo| |exact Hl]. by rewrite list_lookup_fmap, Hj.
Qed.
End causal_sort.

(** * Examples *)

(** The tests of the source. *)
Module Sorting.
Definition e (digest : Z) (deps : list Z) (shared : list ObjectRef) (modified : list (Z * Z)) : EffectsV1.TransactionEffectsV1 :=
  EffectsV1.mkV1 Success 0 Summary.default_ modified shared digest [] [] [] [] [] [] no_gas_object None deps.

Definition four : list EffectsV1.TransactionEffectsV1 := [e 1 [2; 3] [] []; e 2 [3; 4] [] []; e 3 [] [] []; e 4 [] [] []].
(** 5 and 2 read version 1 of an object that 3 overwrites. *)
Definition locks : list EffectsV1.TransactionEffectsV1 :=
  [e 5 [] [(1, 1, 0)] []; e 2 [] [(1, 1, 0)] []; e 3 [] [(1, 1, 0)] [(1, 1)]].

Lemma four_sorted : fmap (M := outcome) (fmap transaction_digest) (Causal.causal_sort four) = Ret [3; 4; 2; 1].
Proof. vm_compute. reflexivity. Qed.
Lemma locks_sorted : fmap (M := outcome) (fmap transaction_digest) (Causal.causal_sort locks) = Ret [2; 5; 3].
Proof. vm_compute. reflexivity. Qed.
End Sorting.

Lemma causal_sort_correct_witness :
  ∃ out, Causal.causal_sort Sorting.locks = Ret out ∧ out ≡ₚ Sorting.locks ∧
    Causal.causal_sort (reverse Sorting.locks) = Ret out.
Proof.
  destruct (causal_sort_correct Sorting.locks ltac:(apply (bool_decide_unpack _); vm_compute; exact I))
    as (out & H & Hp & Hd & _).
  exists out. split; [exact H|]. split; [exact Hp|]. apply Hd. apply reverse_Permutation.
Defined.
