(* ===== verification/TransactionManager.v ===== *)
(** The transaction manager ([crates/sui-core/src/transaction_manager.rs]), which holds back the
    certificates whose inputs are not available yet, and the two queries to the authority store
    that it relies on ([get_input_object_keys] and [multi_input_objects_available] of
    [crates/sui-core/src/authority/authority_store.rs]).

    [enqueue_impl] takes its lock twice and reads the store in between; it is cut at these points
    ([filter_executed], [with_keys] and [check_cache]; [read_misses]; [finish]), so that other operations can run there.
    The tables of the store are a record of lookups.  The cache of the [lru] crate is a class.  A
    [HashMap] is a [gmap] and an [IndexMap] the list of its entries; the capacity of hash maps, metrics
    and logging are left out.  Times are nanoseconds; [Instant::now()] is an argument. *)
From S2P Require Import Prelude Objects.

(** * Interfaces *)

(** [lru::LruCache] with keys [ObjectID]. *)
Class LruCache := {
  lru : Type → Type;
  lru_unbounded {V} : lru V;
  lru_len {V} : lru V → nat;
  lru_push {V} : ObjectID → V → lru V → option (ObjectID * V) * lru V;
  lru_put {V} : ObjectID → V → lru V → lru V;
  lru_get {V} : ObjectID → lru V → option V * lru V;
  lru_pop {V} : lru V → lru V;
}.

(** Its documentation: a cache without bound evicts nothing by itself; [push] returns the entry
    that it replaces; [pop_lru] removes one entry. *)
Class LruLaws `{!LruCache} := {
  entries {V} : lru V → gmap Z V;
  entries_unbounded V : entries (lru_unbounded (V := V)) = ∅;
  len_entries V (c : lru V) : lru_len c = size (entries c);
  push_entries V k (v : V) c : entries (lru_push k v c).2 = <[k := v]> (entries c);
  push_result V k (v : V) c : (lru_push k v c).1 = (λ old, (k, old)) <$> entries c !! k;
  put_entries V k (v : V) c : entries (lru_put k v c) = <[k := v]> (entries c);
  get_entries V k (c : lru V) : entries (lru_get k c).2 = entries c;
  get_result V k (c : lru V) : (lru_get k c).1 = entries c !! k;
  pop_entries V (c : lru V) : entries c ≠ ∅ →
    ∃ k, is_Some (entries c !! k) ∧ entries (lru_pop c) = delete k (entries c);
}.

(** The tables of the authority store and of the epoch store that are read. *)
Record AuthorityStore := mkAuthorityStore {
  is_tx_already_executed : TransactionDigest → result unit bool;
  contains_object : ObjectID → SequenceNumber → bool;
  latest_version : ObjectID → option SequenceNumber;
  have_deleted_owned_object_at_version_or_after : ObjectID → SequenceNumber → Z → bool;
  deleted_shared_object : ObjectID → SequenceNumber → Z → bool;
  package_alive : ObjectID → bool;
  get_shared_locks : TransactionDigest → list (ObjectID * SequenceNumber);
}.

(** An executable transaction as far as it is looked at. *)
Record Certificate := mkCertificate {
  cert_digest : TransactionDigest;
  cert_epoch : Z;
  cert_input_objects : list InputObjectKind;
  cert_receiving_objects : list ObjectRef;
}.

(** ** Queries *)

Module Store.
(** The shared locks are read when the first shared input is met. *)
Definition input_object_key (s : AuthorityStore) (digest : TransactionDigest) (kind : InputObjectKind) :
    outcome InputKey :=
  match kind with
  | SharedMoveObject id _ _ =>
      version ← unwrap ((collect (get_shared_locks s digest) : gmap Z Z) !! id);
      Ret (VersionedObject id version)
  | InputMovePackage id => Ret (PackageKey id)
  | ImmOrOwnedMoveObject (id, version, _) => Ret (VersionedObject id version)
  end.

Fixpoint get_input_object_keys (s : AuthorityStore) (digest : TransactionDigest) (objects : list InputObjectKind) :
    outcome (gset InputKey) :=
  match objects with
  | [] => Ret ∅
  | kind :: objects =>
      k ← input_object_key s digest kind;
      ks ← get_input_object_keys s digest objects;
      Ret ({[ k ]} ∪ ks)
  end.

Definition input_object_available (s : AuthorityStore) (receiving_objects : gset InputKey) (epoch : Z)
    (input_key : InputKey) : bool :=
  match input_key with
  | VersionedObject id version =>
      if contains_object s id version then true
      else if bool_decide (input_key ∈ receiving_objects) then
        match latest_version s id with Some v => version <=? v | None => false end ||
        have_deleted_owned_object_at_version_or_after s id version epoch
      else deleted_shared_object s id version epoch
  | PackageKey id => package_alive s id
  end.

Definition enumerate {A} (l : list A) : list (nat * A) := imap pair l.
Definition index_le {A} (x y : nat * A) : Prop := (x.1 ≤ y.1)%nat.
#[global] Instance index_le_dec {A} (x y : nat * A) : Decision (index_le x y).
Proof. unfold index_le. apply _. Defined.

(** Keys with and without a version are looked up separately; the results are sorted back into
    the order of the keys. *)
Definition multi_input_objects_available (s : AuthorityStore) (keys : list InputKey)
    (receiving_objects : gset InputKey) (epoch : Z) : list bool :=
  let keys_with_version := filter (λ e : nat * InputKey, is_Some (Key.version e.2)) (enumerate keys) in
  let keys_without_version := filter (λ e : nat * InputKey, ¬ is_Some (Key.version e.2)) (enumerate keys) in
  let results := (λ e : nat * InputKey, (e.1, input_object_available s receiving_objects epoch e.2)) <$>
                   keys_with_version ++ keys_without_version in
  (merge_sort index_le results).*2.
End Store.

(** * The cache of available objects *)

Record CacheInner `{!LruCache} := mkCache {
  versioned_cache : lru SequenceNumber;
  unversioned_cache : lru unit;
  max_size : nat;
}.

Record AvailableObjectsCache `{!LruCache} := mkAvailable {
  cache : CacheInner;
  unbounded_cache_enabled : Z;
}.

Module Cache.
Section cache.
Context `{!LruCache}.

(** [while cache.len() > max_size]; as many rounds as there are entries. *)
Fixpoint shrink_lru {V} (fuel : nat) (max_size : nat) (c : lru V) : lru V :=
  if (max_size <? lru_len c)%nat then
    match fuel with O => c | S fuel => shrink_lru fuel max_size (lru_pop c) end
  else c.

Definition shrink (c : CacheInner) : CacheInner :=
  mkCache _ (shrink_lru (lru_len (versioned_cache c)) (max_size c) (versioned_cache c))
    (shrink_lru (lru_len (unversioned_cache c)) (max_size c) (unversioned_cache c)) (max_size c).

Definition insert_inner (object : InputKey) (c : CacheInner) : CacheInner :=
  match Key.version object with
  | Some version =>
      let '(previous, versioned) := lru_push (Key.id object) version (versioned_cache c) in
      let versioned :=
        match previous with
        | Some (previous_id, previous_version) =>
            if (previous_id =? Key.id object) && (version <? previous_version)
            then lru_put (Key.id object) previous_version versioned else versioned
        | None => versioned
        end in
      mkCache _ versioned (unversioned_cache c) (max_size c)
  | None => mkCache _ (versioned_cache c) (lru_push (Key.id object) tt (unversioned_cache c)).2 (max_size c)
  end.

Definition is_object_available_inner (object : InputKey) (c : CacheInner) : option bool * CacheInner :=
  match Key.version object with
  | Some version =>
      let '(current, versioned) := lru_get (Key.id object) (versioned_cache c) in
      ((λ current, version <=? current) <$> current, mkCache _ versioned (unversioned_cache c) (max_size c))
  | None =>
      let '(r, unversioned) := lru_get (Key.id object) (unversioned_cache c) in
      ((λ _, true) <$> r, mkCache _ (versioned_cache c) unversioned (max_size c))
  end.

Definition new_with_size (size : nat) : AvailableObjectsCache :=
  mkAvailable _ (mkCache _ lru_unbounded lru_unbounded size) 0.
Definition new : AvailableObjectsCache := new_with_size (Z.to_nat 100000).

(** The counter is the number of calls in progress, far from overflow. *)
Definition enable_unbounded_cache (a : AvailableObjectsCache) : AvailableObjectsCache :=
  mkAvailable _ (cache a) (unbounded_cache_enabled a + 1).
Definition disable_unbounded_cache (a : AvailableObjectsCache) : outcome AvailableObjectsCache :=
  assert_ (0 <? unbounded_cache_enabled a);; Ret (mkAvailable _ (cache a) (unbounded_cache_enabled a - 1)).

Definition insert (object : InputKey) (a : AvailableObjectsCache) : AvailableObjectsCache :=
  let c := insert_inner object (cache a) in
  mkAvailable _ (if unbounded_cache_enabled a =? 0 then shrink c else c) (unbounded_cache_enabled a).

Definition is_object_available (object : InputKey) (a : AvailableObjectsCache) : option bool * AvailableObjectsCache :=
  let '(r, c) := is_object_available_inner object (cache a) in (r, mkAvailable _ c (unbounded_cache_enabled a)).
End cache.
End Cache.

(** * The state *)

Record PendingCertificate := mkPending {
  certificate : Certificate;
  expected_effects_digest : option Z;
  waiting_input_objects : gset InputKey;
}.

Record Inner `{!LruCache} := mkInner {
  epoch : Z;
  missing_inputs : gmap InputKey (gset Z);
  input_objects : gmap Z (list (TransactionDigest * Z));
  available_objects_cache : AvailableObjectsCache;
  pending_certificates : gmap Z PendingCertificate;
  executing_certificates : gset Z;
}.

(** The manager with what it writes to: the channel of ready certificates and the table of
    pending executions of the epoch store. *)
Record TransactionManager `{!LruCache} := mkManager {
  inner : Inner;
  tx_ready_certificates : list (Certificate * option Z);
  pending_execution : gset Z;
}.

(** [IndexMap::insert] and [IndexMap::shift_remove]. *)
Fixpoint index_insert {A} (k : Z) (v : A) (l : list (Z * A)) : list (Z * A) :=
  match l with
  | [] => [(k, v)]
  | (k', v') :: l => if k' =? k then (k, v) :: l else (k', v') :: index_insert k v l
  end.
Fixpoint shift_remove {A} (k : Z) (l : list (Z * A)) : option A * list (Z * A) :=
  match l with
  | [] => (None, [])
  | (k', v') :: l =>
      if k' =? k then (Some v', l) else let '(r, l) := shift_remove k l in (r, (k', v') :: l)
  end.

Module Tm.
Section tm.
Context `{!LruCache}.
Implicit Types (i : Inner) (m : TransactionManager) (s : AuthorityStore).

Definition with_cache i a : Inner :=
  mkInner _ (epoch i) (missing_inputs i) (input_objects i) a (pending_certificates i) (executing_certificates i).
Definition with_missing i mi io : Inner :=
  mkInner _ (epoch i) mi io (available_objects_cache i) (pending_certificates i) (executing_certificates i).
Definition with_pending i p : Inner :=
  mkInner _ (epoch i) (missing_inputs i) (input_objects i) (available_objects_cache i) p (executing_certificates i).
Definition with_executing i e : Inner :=
  mkInner _ (epoch i) (missing_inputs i) (input_objects i) (available_objects_cache i) (pending_certificates i) e.
Definition with_inner m i : TransactionManager := mkManager _ i (tx_ready_certificates m) (pending_execution m).
Definition remove_pending_execution m (digest : TransactionDigest) : TransactionManager :=
  mkManager _ (inner m) (tx_ready_certificates m) (pending_execution m ∖ {[ digest ]}).

Definition new_inner (epoch : Z) : Inner := mkInner _ epoch ∅ ∅ Cache.new ∅ ∅.

(** ** Waking up *)

(** Taking the digests out of the queue of an object. *)
Fixpoint remove_waiting (digests : list Z) (input_txns : list (Z * Z)) : outcome (list (Z * Z)) :=
  match digests with
  | [] => Ret input_txns
  | digest :: digests =>
      let '(age_opt, input_txns) := shift_remove digest input_txns in
      assert_ (bool_decide (is_Some age_opt));; remove_waiting digests input_txns
  end.

(** Taking the key out of what the certificates wait for; those that wait for nothing else are
    ready. *)
Fixpoint take_ready (input_key : InputKey) (digests : list Z) (pending : gmap Z PendingCertificate) :
    outcome (list PendingCertificate * gmap Z PendingCertificate) :=
  match digests with
  | [] => Ret ([], pending)
  | digest :: digests =>
      pending_cert ← unwrap (pending !! digest);
      assert_ (bool_decide (input_key ∈ waiting_input_objects pending_cert));;
      let waiting := waiting_input_objects pending_cert ∖ {[ input_key ]} in
      let pending_cert := mkPending (certificate pending_cert) (expected_effects_digest pending_cert) waiting in
      if bool_decide (waiting = ∅) then
        r ← take_ready input_key digests (delete digest pending);
        Ret (pending_cert :: r.1, r.2)
      else take_ready input_key digests (<[digest := pending_cert]> pending)
  end.

Definition find_ready_transactions i (input_key : InputKey) (update_cache : bool) :
    outcome (list PendingCertificate * Inner) :=
  let i := if update_cache then with_cache i (Cache.insert input_key (available_objects_cache i)) else i in
  match missing_inputs i !! input_key with
  | None => Ret ([], i)
  | Some digests =>
      let digests := btree_set_iter digests in
      input_txns ← unwrap (input_objects i !! Key.id input_key);
      input_txns ← remove_waiting digests input_txns;
      let io := match input_txns with
                | [] => delete (Key.id input_key) (input_objects i)
                | _ :: _ => <[Key.id input_key := input_txns]> (input_objects i)
                end in
      let i := with_missing i (delete input_key (missing_inputs i)) io in
      r ← take_ready input_key digests (pending_certificates i);
      Ret (r.1, with_pending i r.2)
  end.

Definition certificate_ready m (pending_certificate : PendingCertificate) : outcome TransactionManager :=
  let cert := certificate pending_certificate in
  assert_ (bool_decide (size (waiting_input_objects pending_certificate) = 0%nat));;
  assert_ (bool_decide (cert_digest cert ∉ executing_certificates (inner m)));;
  let i := with_executing (inner m) ({[ cert_digest cert ]} ∪ executing_certificates (inner m)) in
  Ret (mkManager _ i (tx_ready_certificates m ++ [(cert, expected_effects_digest pending_certificate)])
         (pending_execution m)).

Fixpoint certificates_ready m (l : list PendingCertificate) : outcome TransactionManager :=
  match l with
  | [] => Ret m
  | ready_cert :: l => m ← certificate_ready m ready_cert; certificates_ready m l
  end.

Fixpoint available_loop m (input_keys : list InputKey) (update_cache : bool) : outcome TransactionManager :=
  match input_keys with
  | [] => Ret m
  | input_key :: input_keys =>
      r ← find_ready_transactions (inner m) input_key update_cache;
      m ← certificates_ready (with_inner m r.2) r.1;
      available_loop m input_keys update_cache
  end.

Definition objects_available_locked m (store_epoch : Z) (input_keys : list InputKey) (update_cache : bool) :
    outcome TransactionManager :=
  if negb (epoch (inner m) =? store_epoch) then Ret m else available_loop m input_keys update_cache.

Definition notify_commit m (digest : TransactionDigest) (output_object_keys : list InputKey) (store_epoch : Z) :
    outcome TransactionManager :=
  if negb (epoch (inner m) =? store_epoch) then Ret m
  else
    m ← objects_available_locked m store_epoch output_object_keys true;
    if bool_decide (digest ∈ executing_certificates (inner m)) then
      let m := with_inner m (with_executing (inner m) (executing_certificates (inner m) ∖ {[ digest ]})) in
      Ret (remove_pending_execution m digest)
    else Ret m.

(** ** Enqueueing *)

(** A certificate on its way through [enqueue_impl], with its keys. *)
Abbreviation Enqueued := (Certificate * option Z * gset InputKey)%type (only parsing).

(** [filter]: certificates that have been executed are dropped, also from the table. *)
Fixpoint filter_executed s m (certs : list (Certificate * option Z)) :
    outcome (list (Certificate * option Z) * TransactionManager) :=
  match certs with
  | [] => Ret ([], m)
  | (cert, fx) :: certs =>
      match is_tx_already_executed s (cert_digest cert) with
      | Err _ => Panic
      | Ok true => filter_executed s (remove_pending_execution m (cert_digest cert)) certs
      | Ok false => r ← filter_executed s m certs; Ret ((cert, fx) :: r.1, r.2)
      end
  end.

Definition receiving_keys (cert : Certificate) : gset InputKey :=
  list_to_set ((λ entry : ObjectRef, VersionedObject entry.1.1 entry.1.2) <$> cert_receiving_objects cert).

Definition input_keys s (cert : Certificate) : outcome (gset InputKey) :=
  ks ← Store.get_input_object_keys s (cert_digest cert) (cert_input_objects cert);
  Ret (ks ∪ receiving_keys cert).

Fixpoint with_keys s (certs : list (Certificate * option Z)) : outcome (list Enqueued) :=
  match certs with
  | [] => Ret []
  | (cert, fx_digest) :: certs =>
      ks ← input_keys s cert; r ← with_keys s certs; Ret ((cert, fx_digest, ks) :: r)
  end.

(** The keys of all certificates, with nothing known of them yet. *)
Definition unknown_availability (certs : list Enqueued) : gmap InputKey (option bool) :=
  gset_to_gmap None (⋃ (snd <$> certs)).

(** The first half under the lock: what the cache knows; from here on it evicts nothing. *)
Fixpoint lookup_cache (keys : list InputKey) (a : AvailableObjectsCache) (av : gmap InputKey (option bool)) :
    gmap InputKey (option bool) * AvailableObjectsCache :=
  match keys with
  | [] => (av, a)
  | key :: keys =>
      let '(r, a) := Cache.is_object_available key a in
      lookup_cache keys a (match r with Some available => <[key := Some available]> av | None => av end)
  end.

Definition check_cache m (av : gmap InputKey (option bool)) : gmap InputKey (option bool) * TransactionManager :=
  let '(av, a) := lookup_cache (map_to_list av).*1 (available_objects_cache (inner m)) av in
  (av, with_inner m (with_cache (inner m) (Cache.enable_unbounded_cache a))).

Definition cache_misses (av : gmap InputKey (option bool)) : list InputKey :=
  omap (λ e : InputKey * option bool, match e.2 with None => Some e.1 | Some _ => None end) (map_to_list av).

(** What the store answers, without the lock. *)
Definition read_misses s (store_epoch : Z) (certs : list Enqueued) (av : gmap InputKey (option bool)) :
    list (bool * InputKey) :=
  let receiving_objects : gset InputKey := ⋃ ((λ c : Enqueued, receiving_keys c.1.1) <$> certs) in
  let misses := cache_misses av in
  zip (Store.multi_input_objects_available s misses receiving_objects store_epoch) misses.

(** The second half under the lock. *)
Fixpoint apply_answers (answers : list (bool * InputKey)) (a : AvailableObjectsCache)
    (av : gmap InputKey (option bool)) : outcome (gmap InputKey (option bool) * AvailableObjectsCache) :=
  match answers with
  | [] => Ret (av, a)
  | (available, key) :: answers =>
      let a := if available && bool_decide (Key.version key = None) then Cache.insert key a else a in
      assert_ (bool_decide (is_Some (av !! key)));;
      apply_answers answers a (<[key := Some available]> av)
  end.

Fixpoint recheck (keys : list InputKey) (a : AvailableObjectsCache) (av : gmap InputKey (option bool)) :
    outcome (gmap InputKey (option bool) * AvailableObjectsCache) :=
  match keys with
  | [] => Ret (av, a)
  | key :: keys =>
      value ← unwrap (av !! key);
      value ← unwrap value;
      match value with
      | true => recheck keys a av
      | false =>
          let '(r, a) := Cache.is_object_available key a in
          recheck keys a (match r with Some true => <[key := Some true]> av | _ => av end)
      end
  end.

(** The keys that a certificate has to wait for, entered under its digest. *)
Fixpoint wait_for (now : Z) (digest : TransactionDigest) (av : gmap InputKey (option bool)) (keys : list InputKey)
    i (waiting : gset InputKey) : outcome (gset InputKey * Inner) :=
  match keys with
  | [] => Ret (waiting, i)
  | key :: keys =>
      value ← unwrap (av !! key);
      available ← unwrap value;
      match available with
      | true => wait_for now digest av keys i waiting
      | false =>
          let digests := default ∅ (missing_inputs i !! key) in
          assert_ (bool_decide (digest ∉ digests));;
          let mi := <[key := {[ digest ]} ∪ digests]> (missing_inputs i) in
          let io := <[Key.id key := index_insert digest now (default [] (input_objects i !! Key.id key))]>
                      (input_objects i) in
          wait_for now digest av keys (with_missing i mi io) ({[ key ]} ∪ waiting)
      end
  end.

Definition enqueue_one s (now : Z) (av : gmap InputKey (option bool)) m (c : Enqueued) :
    outcome (result unit unit * TransactionManager) :=
  let '(cert, fx, keys) := c in
  let digest := cert_digest cert in
  if negb (epoch (inner m) =? cert_epoch cert) then Ret (Ok tt, remove_pending_execution m digest)
  else if bool_decide (is_Some (pending_certificates (inner m) !! digest)) then Ret (Ok tt, m)
  else if bool_decide (digest ∈ executing_certificates (inner m)) then Ret (Ok tt, m)
  else
    match is_tx_already_executed s digest with
    | Err e => Ret (Err e, m)
    | Ok true => Ret (Ok tt, remove_pending_execution m digest)
    | Ok false =>
        r ← wait_for now digest av (elements keys) (inner m) ∅;
        let '(waiting, i) := r in
        let m := with_inner m i in
        let pending_cert := mkPending cert fx waiting in
        if bool_decide (waiting = ∅) then m ← certificate_ready m pending_cert; Ret (Ok tt, m)
        else
          assert_ (bool_decide (pending_certificates (inner m) !! digest = None));;
          Ret (Ok tt, with_inner m (with_pending (inner m) (<[digest := pending_cert]> (pending_certificates (inner m)))))
    end.

(** An error ends the loop. *)
Fixpoint enqueue_all s (now : Z) (av : gmap InputKey (option bool)) m (certs : list Enqueued) :
    outcome (result unit unit * TransactionManager) :=
  match certs with
  | [] => Ret (Ok tt, m)
  | c :: certs =>
      r ← enqueue_one s now av m c;
      match r.1 with Err e => Ret (Err e, r.2) | Ok _ => enqueue_all s now av r.2 certs end
  end.

Definition finish s (now : Z) (certs : list Enqueued) (av : gmap InputKey (option bool))
    (answers : list (bool * InputKey)) m : outcome (result unit unit * TransactionManager) :=
  r ← apply_answers answers (available_objects_cache (inner m)) av;
  r ← recheck (map_to_list r.1).*1 r.2 r.1;
  let '(av, a) := r in
  a ← Cache.disable_unbounded_cache a;
  enqueue_all s now av (with_inner m (with_cache (inner m) a)) certs.

(** Nothing else runs in between. *)
Definition enqueue_impl s (store_epoch now : Z) m (certs : list (Certificate * option Z)) :
    outcome (result unit unit * TransactionManager) :=
  r ← filter_executed s m certs;
  let '(certs, m) := r in
  certs ← with_keys s certs;
  let '(av, m) := check_cache m (unknown_availability certs) in
  finish s now certs av (read_misses s store_epoch certs av) m.

Definition enqueue s (store_epoch now : Z) m (certs : list Certificate) :
    outcome (result unit unit * TransactionManager) :=
  enqueue_impl s store_epoch now m ((λ cert : Certificate, (cert, @None Z)) <$> certs).
Definition enqueue_with_expected_effects_digest s (store_epoch now : Z) m (certs : list (Certificate * Z)) :
    outcome (result unit unit * TransactionManager) :=
  enqueue_impl s store_epoch now m ((λ c : Certificate * Z, (c.1, Some c.2)) <$> certs).

(** [all_pending_execution] gives the certificates of the table. *)
Definition new s (store_epoch now : Z) (all_pending_execution : list Certificate) : outcome TransactionManager :=
  let m := mkManager _ (new_inner store_epoch) [] (list_to_set (cert_digest <$> all_pending_execution)) in
  r ← enqueue s store_epoch now m all_pending_execution;
  match r.1 with Ok _ => Ret r.2 | Err _ => Panic end.

Definition reconfigure m (new_epoch : Z) : TransactionManager := with_inner m (new_inner new_epoch).

(** ** Queries *)

Definition get_missing_input m (digest : TransactionDigest) : option (list InputKey) :=
  (λ cert, elements (waiting_input_objects cert)) <$> pending_certificates (inner m) !! digest.

Definition objects_queue_len_and_age m (now : Z) (keys : list ObjectID) : list (ObjectID * Z * option Z) :=
  (λ key, let txns := default [] (input_objects (inner m) !! key) in
          (key, Z.of_nat (length txns), (λ e : Z * Z, now - e.2) <$> head txns)) <$> keys.

Definition inflight_queue_len m : Z :=
  Z.of_nat (size (pending_certificates (inner m)) + size (executing_certificates (inner m))).

Inductive OverloadError :=
  | TooManyTransactionsPendingExecution (queue_len threshold : Z)
  | TooManyTransactionsPendingOnObject (object_id queue_len threshold : Z)
  | TooOldTransactionPendingOnObject (object_id txn_age_sec threshold : Z).

Definition MAX_TM_QUEUE_LENGTH : Z := 100000.
Definition MAX_PER_OBJECT_QUEUE_LENGTH : Z := 200.
Definition as_secs (d : Z) : Z := d / 1000000000.

Fixpoint check_queues (txn_age_threshold : Z) (l : list (ObjectID * Z * option Z)) : result OverloadError unit :=
  match l with
  | [] => Ok tt
  | (object_id, queue_len, txn_age) :: l =>
      if MAX_PER_OBJECT_QUEUE_LENGTH <=? queue_len then
        Err (TooManyTransactionsPendingOnObject object_id queue_len MAX_PER_OBJECT_QUEUE_LENGTH)
      else
        match txn_age with
        | Some age =>
            if txn_age_threshold <=? age then
              Err (TooOldTransactionPendingOnObject object_id (as_secs age) (as_secs txn_age_threshold))
            else check_queues txn_age_threshold l
        | None => check_queues txn_age_threshold l
        end
  end.

Definition check_execution_overload m (now txn_age_threshold : Z) (input_objects : list InputObjectKind) :
    result OverloadError unit :=
  let inflight := inflight_queue_len m in
  if inflight <? MAX_TM_QUEUE_LENGTH then
    check_queues txn_age_threshold (objects_queue_len_and_age m now (Inputs.object_id <$> input_objects))
  else Err (TooManyTransactionsPendingExecution inflight MAX_TM_QUEUE_LENGTH).
End tm.
End Tm.

(** * Properties *)

(** ** Queues of an object *)

(** ** The batched query of the store *)

Section batched.
#[local] Instance index_le_total {A} : Total (@Store.index_le A).
Proof. intros x y. unfold Store.index_le. lia. Qed.
#[local] Instance index_le_trans {A} : Transitive (@Store.index_le A).
Proof. intros x y z. unfold Store.index_le. lia. Qed.

Lemma enumerate_fst {A} (l : list A) : (Store.enumerate l).*1 = seq 0 (length l).
Proof.
  unfold Store.enumerate. rewrite fmap_imap. apply list_eq. intros i. rewrite list_lookup_imap.
  destruct (decide (i < length l)%nat) as [Hi|Hi].
  - destruct (lookup_lt_is_Some_2 l i Hi) as [x ->]. rewrite lookup_seq_lt by done. done.
  - rewrite lookup_ge_None_2 by lia. by rewrite lookup_seq_ge by lia.
Qed.

Lemma sorted_index {B} (l : list (nat * B)) n : l.*1 ≡ₚ seq 0 n → (merge_sort Store.index_le l).*1 = seq 0 n.
Proof.
  intros Hp. apply (StronglySorted_unique le).
  - apply (StronglySorted_fmap _ Store.index_le); [done|]. apply (StronglySorted_merge_sort _).
  - clear Hp. generalize 0%nat. induction n as [|n IH]; intros m; cbn; constructor; [apply IH|].
    apply Forall_forall. intros i Hi%elem_of_seq. lia.
  - by rewrite (merge_sort_Permutation Store.index_le).
Qed.

Lemma multi_available_eq s keys ro ep :
  Store.multi_input_objects_available s keys ro ep = Store.input_object_available s ro ep <$> keys.
Proof.
  unfold Store.multi_input_objects_available. set (f := λ e : nat * InputKey, _). set (l := _ ++ _).
  assert (l ≡ₚ Store.enumerate keys) as Hl by (apply filter_app_complement).
  assert ((f <$> l).*1 = l.*1) as Hf by (rewrite <- list_fmap_compose; by apply list_fmap_ext).
  pose proof (sorted_index (f <$> l) (length keys) ltac:(by rewrite Hf, Hl, enumerate_fst)) as Hs.
  apply list_eq. intros i. rewrite !list_lookup_fmap. set (l' := merge_sort _ _) in *.
  apply (f_equal (.!! i)) in Hs. rewrite list_lookup_fmap in Hs.
  destruct (l' !! i) as [[j b]|] eqn:Hi; cbn in Hs |- *.
  - symmetry in Hs. apply lookup_seq in Hs as [-> Hlt]. cbn in *.
    assert ((i, b) ∈ f <$> l) as Hin.
    { rewrite <- (merge_sort_Permutation Store.index_le). by eapply list_elem_of_lookup_2. }
    apply list_elem_of_fmap in Hin as ([i' k] & [= -> ->] & Hin). rewrite Hl in Hin.
    unfold Store.enumerate in Hin. apply elem_of_lookup_imap in Hin as (i0 & k0 & [= -> ->] & Hk). by rewrite Hk.
  - symmetry in Hs. apply lookup_ge_None in Hs. rewrite length_seq in Hs. by rewrite lookup_ge_None_2 by lia.
Qed.
End batched.

Section index_map.
Context {A : Type}.
Implicit Types l : list (Z * A).

Lemma shift_remove_ok k l :
  NoDup l.*1 → k ∈ l.*1 → ∃ v, shift_remove k l = (Some v, filter (λ e, e.1 ≠ k) l).
Proof.
  induction l as [|[k' v'] l IH]; [by intros _ ?%elem_of_nil|].
  rewrite filter_cons. cbn. intros [Hn Hnd]%NoDup_cons Hk. destruct (Z.eqb_spec k' k) as [->|Hne].
  - exists v'. rewrite decide_False by tauto. f_equal. symmetry. apply filter_id.
    intros e He Heq. apply Hn. rewrite <- Heq. by apply list_elem_of_fmap_2.
  - rewrite decide_True by done. apply elem_of_cons in Hk as [?|Hk]; [congruence|].
    destruct (IH Hnd Hk) as [v ->]. by exists v.
Qed.

Lemma elem_of_index_insert k v l d : d ∈ (index_insert k v l).*1 ↔ d = k ∨ d ∈ l.*1.
Proof.
  induction l as [|[k' v'] l IH]; cbn; [rewrite list_elem_of_singleton, elem_of_nil; tauto|].
  destruct (Z.eqb_spec k' k) as [->|Hne]; cbn; rewrite !elem_of_cons; [tauto|]. rewrite IH. tauto.
Qed.

Lemma NoDup_index_insert k v l : NoDup l.*1 → NoDup (index_insert k v l).*1.
Proof.
  induction l as [|[k' v'] l IH]; cbn; intros Hnd; [apply NoDup_singleton|].
  apply NoDup_cons in Hnd as [Hn Hnd]. destruct (Z.eqb_spec k' k) as [->|Hne]; cbn; apply NoDup_cons; [done|].
  split; [|by apply IH]. rewrite elem_of_index_insert. tauto.
Qed.

Lemma index_insert_nonempty k v l : index_insert k v l ≠ [].
Proof. destruct l as [|[k' v'] l]; cbn; [done|]. by destruct (k' =? k). Qed.
End index_map.

Lemma remove_waiting_ok ds l :
  NoDup l.*1 → NoDup ds → (∀ d, d ∈ ds → d ∈ l.*1) →
  Tm.remove_waiting ds l = Ret (filter (λ e : Z * Z, e.1 ∉ ds) l).
Proof.
  revert l. induction ds as [|d ds IH]; intros l Hl Hds Hin; cbn [Tm.remove_waiting].
  { f_equal. symmetry. apply filter_id. intros e _ []%elem_of_nil. }
  apply NoDup_cons in Hds as [Hd Hds].
  destruct (shift_remove_ok d l Hl (Hin d ltac:(left))) as [v ->]. cbn [assert_ bool_decide decide_rel].
  rewrite bool_decide_true by by eexists. cbn [assert_ mbind outcome_bind]. rewrite IH.
  - f_equal. rewrite list_filter_filter. apply list_filter_iff. intros e. rewrite not_elem_of_cons. tauto.
  - eapply sublist_NoDup; [exact Hl|]. apply fmap_sublist, sublist_filter.
  - done.
  - intros d' Hd'. assert (d' ≠ d) by (intros ->; done). specialize (Hin d' ltac:(by right)).
    apply list_elem_of_fmap in Hin as (e & -> & He). apply list_elem_of_fmap_2, list_elem_of_filter. done.
Qed.

(** ** The indexes of the manager *)

Section manager.
Context `{!LruCache}.
Implicit Types (i : Inner) (m : TransactionManager) (k : InputKey) (p : PendingCertificate).

(** [missing_inputs] and [input_objects] are indexes of [pending_certificates]; a pending
    certificate waits for something, at most one version of an object, and is not executing. *)
Record tm_ok i : Prop := {
  ok_missing : ∀ k d, d ∈ default ∅ (missing_inputs i !! k) ↔
    ∃ p, pending_certificates i !! d = Some p ∧ k ∈ waiting_input_objects p;
  ok_missing_nonempty : ∀ k, missing_inputs i !! k ≠ Some ∅;
  ok_inputs : ∀ id d, d ∈ (default [] (input_objects i !! id)).*1 ↔
    ∃ p k, pending_certificates i !! d = Some p ∧ k ∈ waiting_input_objects p ∧ Key.id k = id;
  ok_inputs_queue : ∀ id l, input_objects i !! id = Some l → NoDup l.*1 ∧ l ≠ [];
  ok_waiting : ∀ d p, pending_certificates i !! d = Some p → waiting_input_objects p ≠ ∅;
  ok_digest : ∀ d p, pending_certificates i !! d = Some p → cert_digest (certificate p) = d;
  ok_executing : ∀ d p, pending_certificates i !! d = Some p → d ∉ executing_certificates i;
  ok_versions : ∀ d p k k', pending_certificates i !! d = Some p → k ∈ waiting_input_objects p →
    k' ∈ waiting_input_objects p → Key.id k = Key.id k' → k = k';
}.

(** A certificate that no longer waits for [k]. *)
Definition drop_key k p : PendingCertificate :=
  mkPending (certificate p) (expected_effects_digest p) (waiting_input_objects p ∖ {[ k ]}).
Definition still_pending k p : option PendingCertificate :=
  if bool_decide (waiting_input_objects p ∖ {[ k ]} = ∅) then None else Some (drop_key k p).
Definition now_ready k p : option PendingCertificate :=
  if bool_decide (waiting_input_objects p ∖ {[ k ]} = ∅) then Some (drop_key k p) else None.

Lemma take_ready_ok k ds pending :
  NoDup ds → (∀ d, d ∈ ds → ∃ p, pending !! d = Some p ∧ k ∈ waiting_input_objects p) →
  ∃ pending', Tm.take_ready k ds pending = Ret (omap (λ d, pending !! d ≫= now_ready k) ds, pending') ∧
    ∀ d, pending' !! d = if bool_decide (d ∈ ds) then pending !! d ≫= still_pending k else pending !! d.
Proof.
  revert pending. induction ds as [|d ds IH]; intros pending Hnd Hin; cbn [Tm.take_ready omap list_omap].
  { exists pending. split; [done|]. intros d. by rewrite bool_decide_false by apply not_elem_of_nil. }
  apply NoDup_cons in Hnd as [Hd Hnd]. destruct (Hin d ltac:(left)) as (p & Hp & Hk). rewrite Hp.
  cbn [unwrap mbind outcome_bind option_bind]. rewrite (bool_decide_true (k ∈ waiting_input_objects p)) by done. cbn [assert_ mbind outcome_bind].
  fold (drop_key k p).
  assert (∀ q, (∀ x, x ≠ d → q !! x = pending !! x) →
    ∃ q', Tm.take_ready k ds q = Ret (omap (λ d, pending !! d ≫= now_ready k) ds, q') ∧
    ∀ x, q' !! x = if bool_decide (x ∈ ds) then pending !! x ≫= still_pending k else q !! x) as Hrest.
  { intros q Hq. assert (∀ x, x ∈ ds → q !! x = pending !! x) as Hq' by (intros x Hx; apply Hq; congruence).
    destruct (IH q Hnd) as (q' & Hr & Hl).
    - intros x Hx. rewrite Hq' by done. apply Hin. by right.
    - exists q'. rewrite Hr. split.
      + do 2 f_equal. apply omap_ext_elem. intros x Hx. by rewrite Hq'.
      + intros x. rewrite Hl. case_bool_decide; [by rewrite Hq'|done]. }
  unfold now_ready at 1. case_bool_decide as Hw.
  - destruct (Hrest (delete d pending)) as (q' & -> & Hl); [intros x Hx; by rewrite lookup_delete_ne|].
    cbn [mbind outcome_bind fst snd]. exists q'. split; [done|]. intros x. rewrite Hl.
    destruct (decide (x = d)) as [->|Hne].
    + rewrite bool_decide_false by done. rewrite bool_decide_true by left. rewrite lookup_delete_eq, Hp. cbn.
      unfold still_pending. by rewrite bool_decide_true.
    + rewrite lookup_delete_ne by done. erewrite bool_decide_ext; [done|]. rewrite elem_of_cons. naive_solver.
  - destruct (Hrest (<[d := drop_key k p]> pending)) as (q' & -> & Hl); [intros x Hx; by rewrite lookup_insert_ne|].
    exists q'. split; [done|]. intros x. rewrite Hl. destruct (decide (x = d)) as [->|Hne].
    + rewrite bool_decide_false by done. rewrite bool_decide_true by left. rewrite lookup_insert_eq, Hp. cbn.
      unfold still_pending. by rewrite bool_decide_false.
    + rewrite lookup_insert_ne by done. erewrite bool_decide_ext; [done|]. rewrite elem_of_cons. naive_solver.
Qed.

Lemma still_pending_other k p :
  waiting_input_objects p ≠ ∅ → k ∉ waiting_input_objects p → still_pending k p = Some p.
Proof.
  intros Hw Hk. assert (waiting_input_objects p ∖ {[ k ]} = waiting_input_objects p) as Heq by set_solver.
  unfold still_pending, drop_key. rewrite Heq, bool_decide_false by done. by destruct p.
Qed.

Lemma still_pending_Some k p p' :
  still_pending k p = Some p' ↔ p' = drop_key k p ∧ waiting_input_objects p ∖ {[ k ]} ≠ ∅.
Proof. unfold still_pending. case_bool_decide; naive_solver. Qed.

Lemma now_ready_Some k p p' :
  now_ready k p = Some p' ↔ p' = drop_key k p ∧ waiting_input_objects p ∖ {[ k ]} = ∅.
Proof. unfold now_ready. case_bool_decide; naive_solver. Qed.

(** The pending certificates after [k] has become available. *)
Definition without_key k i : gmap Z PendingCertificate := omap (still_pending k) (pending_certificates i).

Lemma without_key_lookup k i d p' :
  without_key k i !! d = Some p' ↔
  ∃ p, pending_certificates i !! d = Some p ∧ p' = drop_key k p ∧ waiting_input_objects p ∖ {[ k ]} ≠ ∅.
Proof.
  unfold without_key. rewrite lookup_omap. destruct (pending_certificates i !! d) as [p|]; cbn; [|naive_solver].
  rewrite still_pending_Some. naive_solver.
Qed.

(** Which certificates wait for [k'] after that. *)
Lemma without_key_waiting k i d k' :
  (∃ p', without_key k i !! d = Some p' ∧ k' ∈ waiting_input_objects p') ↔
  k' ≠ k ∧ ∃ p, pending_certificates i !! d = Some p ∧ k' ∈ waiting_input_objects p.
Proof.
  setoid_rewrite without_key_lookup. split.
  - intros (p' & (p & Hp & -> & _) & Hk'). cbn in Hk'. set_solver.
  - intros (Hne & p & Hp & Hk'). exists (drop_key k p). split; [|cbn; set_solver].
    exists p. split_and!; [done..|]. set_solver.
Qed.

(** The queues after that. *)
Definition queue_without k i (digests : gset Z) : list (Z * Z) :=
  filter (λ e : Z * Z, e.1 ∉ btree_set_iter digests) (default [] (input_objects i !! Key.id k)).
Definition inputs_without k i (digests : gset Z) : gmap Z (list (Z * Z)) :=
  match queue_without k i digests with
  | [] => delete (Key.id k) (input_objects i)
  | (_ :: _) as l => <[Key.id k := l]> (input_objects i)
  end.

Lemma inputs_without_lookup k i digests id :
  default [] (inputs_without k i digests !! id) =
    if bool_decide (id = Key.id k) then queue_without k i digests else default [] (input_objects i !! id).
Proof.
  unfold inputs_without. case_bool_decide as Hid.
  - subst id. destruct (queue_without k i digests); [by rewrite lookup_delete_eq|by rewrite lookup_insert_eq].
  - destruct (queue_without k i digests); [by rewrite lookup_delete_ne|by rewrite lookup_insert_ne].
Qed.

Lemma missing_digests i k digests :
  tm_ok i → missing_inputs i !! k = Some digests →
  ∀ d, d ∈ btree_set_iter digests ↔ ∃ p, pending_certificates i !! d = Some p ∧ k ∈ waiting_input_objects p.
Proof.
  intros Hi Hk d. rewrite elem_of_btree_set_iter, <- (ok_missing i Hi). by rewrite Hk.
Qed.

(** The state with [k] taken out of the indexes. *)
Definition wake k i (digests : gset Z) : Inner :=
  Tm.with_pending (Tm.with_missing i (delete k (missing_inputs i)) (inputs_without k i digests)) (without_key k i).

Lemma wake_ok k i digests : tm_ok i → missing_inputs i !! k = Some digests → tm_ok (wake k i digests).
Proof.
  intros Hi Hk. pose proof (missing_digests i k digests Hi Hk) as Hds. split; cbn.
  - intros k' d. rewrite without_key_waiting. destruct (decide (k' = k)) as [->|Hne].
    + rewrite lookup_delete_eq. cbn. set_solver.
    + rewrite lookup_delete_ne by done. rewrite (ok_missing i Hi). tauto.
  - intros k'. destruct (decide (k' = k)) as [->|Hne]; [by rewrite lookup_delete_eq|].
    rewrite lookup_delete_ne by done. apply (ok_missing_nonempty i Hi).
  - intros id d. rewrite inputs_without_lookup.
    assert ((∃ p k', without_key k i !! d = Some p ∧ k' ∈ waiting_input_objects p ∧ Key.id k' = id) ↔
      ∃ k', k' ≠ k ∧ Key.id k' = id ∧ ∃ p, pending_certificates i !! d = Some p ∧ k' ∈ waiting_input_objects p) as ->.
    { split.
      - intros (p & k' & Hp & Hk' & Hid). exists k'. pose proof (proj1 (without_key_waiting k i d k')) as Hw. naive_solver.
      - intros (k' & Hne & Hid & Hp). pose proof (proj2 (without_key_waiting k i d k')) as Hw. naive_solver. }
    case_bool_decide as Hid.
    + subst id. unfold queue_without. rewrite list_elem_of_fmap. split.
      * intros (e & -> & [Hn He]%list_elem_of_filter).
        assert (e.1 ∈ (default [] (input_objects i !! Key.id k)).*1) as Hin by by apply list_elem_of_fmap_2.
        apply (ok_inputs i Hi) in Hin as (p & k' & Hp & Hk' & Hid). exists k'. split; [|eauto].
        intros ->. apply Hn, Hds. eauto.
      * intros (k' & Hne & Hid & p & Hp & Hk').
        assert (d ∈ (default [] (input_objects i !! Key.id k)).*1) as Hin by (apply (ok_inputs i Hi); eauto).
        apply list_elem_of_fmap in Hin as (e & -> & He). exists e. split; [done|].
        apply list_elem_of_filter. split; [|done]. rewrite Hds. intros (p' & Hp' & Hkp). simplify_eq.
        apply Hne. by eapply (ok_versions i Hi).
    + rewrite (ok_inputs i Hi). split; [|naive_solver]. intros (p & k' & Hp & Hk' & <-). exists k'. naive_solver.
  - intros id l Hl. pose proof (inputs_without_lookup k i digests id) as Hlk. rewrite Hl in Hlk. cbn in Hlk. subst l.
    unfold inputs_without in Hl. case_bool_decide as Hid.
    + subst id. destruct (queue_without k i digests) as [|e q] eqn:Hq; [by rewrite lookup_delete_eq in Hl|].
      split; [|done]. rewrite <- Hq. unfold queue_without.
      destruct (input_objects i !! Key.id k) as [l|] eqn:Hl0; [|constructor]. cbn.
      eapply sublist_NoDup; [exact (proj1 (ok_inputs_queue i Hi _ _ Hl0))|]. apply fmap_sublist, sublist_filter.
    + destruct (queue_without k i digests); rewrite ?lookup_delete_ne, ?lookup_insert_ne in Hl by done;
        rewrite Hl; by apply (ok_inputs_queue i Hi id).
  - intros d p (q & _ & -> & Hw)%without_key_lookup. done.
  - intros d p (q & Hq & -> & _)%without_key_lookup. by apply (ok_digest i Hi d q).
  - intros d p (q & Hq & -> & _)%without_key_lookup. by apply (ok_executing i Hi _ q).
  - intros d p k1 k2 (q & Hq & -> & _)%without_key_lookup. cbn. intros [H1 _]%elem_of_difference [H2 _]%elem_of_difference.
    by apply (ok_versions i Hi d q).
Qed.

(** Inserting into the cache does not matter here. *)
Lemma tm_ok_cache i a : tm_ok i → tm_ok (Tm.with_cache i a).
Proof. intros []. by split. Qed.

Lemma NoDup_omap_key {A} (g : Z → option A) (key : A → Z) (ds : list Z) :
  NoDup ds → (∀ d r, g d = Some r → key r = d) → NoDup (key <$> omap g ds).
Proof.
  intros Hnd Hkey. induction Hnd as [|d ds Hd Hnd IH]; [constructor|]. cbn. destruct (g d) as [r|] eqn:Hr; [|done].
  cbn. constructor; [|done]. rewrite (Hkey d r Hr). intros (r' & -> & (d' & Hd' & Hr')%list_elem_of_omap)%list_elem_of_fmap.
  by rewrite (Hkey d' r' Hr') in Hd.
Qed.

(** What is ready when [k] becomes available. *)
Definition readied k i (ready : list PendingCertificate) : Prop :=
  (∀ r, r ∈ ready ↔ ∃ d p, pending_certificates i !! d = Some p ∧ k ∈ waiting_input_objects p ∧
     now_ready k p = Some r) ∧
  NoDup (cert_digest ∘ certificate <$> ready).

Lemma nothing_waits i k :
  tm_ok i → missing_inputs i !! k = None → without_key k i = pending_certificates i ∧ readied k i [].
Proof.
  intros Hi Hk. assert (∀ d p, pending_certificates i !! d = Some p → k ∉ waiting_input_objects p) as Hno.
  { intros d p Hp Hin. assert (d ∈ default ∅ (missing_inputs i !! k)) as Hd by (apply (ok_missing i Hi); eauto).
    rewrite Hk in Hd. cbn in Hd. set_solver. }
  split.
  - unfold without_key. apply map_eq. intros d. rewrite lookup_omap.
    destruct (pending_certificates i !! d) as [p|] eqn:Hp; [|done]. cbn.
    rewrite still_pending_other; [done|by apply (ok_waiting i Hi d)|by apply (Hno d)].
  - split; [|constructor]. intros r. split; [by intros ?%elem_of_nil|].
    intros (d & p & Hp & Hin & _). by destruct (Hno d p Hp).
Qed.

(** The queue of the object has all the digests. *)
Lemma queue_of_missing i k digests :
  tm_ok i → missing_inputs i !! k = Some digests →
  ∃ q, input_objects i !! Key.id k = Some q ∧ NoDup q.*1 ∧ ∀ d, d ∈ btree_set_iter digests → d ∈ q.*1.
Proof.
  intros Hi Hk. pose proof (missing_digests i k digests Hi Hk) as Hds.
  assert (∀ d, d ∈ btree_set_iter digests → d ∈ (default [] (input_objects i !! Key.id k)).*1) as Hin.
  { intros d (p & Hp & Hkp)%Hds. apply (ok_inputs i Hi). eauto. }
  assert (∃ d, d ∈ digests) as [d0 Hd0].
  { apply set_choose_L. intros ->. by apply (ok_missing_nonempty i Hi k). }
  apply elem_of_btree_set_iter, Hin in Hd0. destruct (input_objects i !! Key.id k) as [q|] eqn:Hq.
  - exists q. split_and!; [done|by apply (ok_inputs_queue i Hi (Key.id k))|done].
  - by apply elem_of_nil in Hd0.
Qed.

Lemma find_ready_waiting i k digests :
  tm_ok i → missing_inputs i !! k = Some digests →
  ∃ ready, Tm.find_ready_transactions i k false = Ret (ready, wake k i digests) ∧ readied k i ready.
Proof.
  intros Hi Hk. pose proof (missing_digests i k digests Hi Hk) as Hds.
  destruct (queue_of_missing i k digests Hi Hk) as (q & Hq & Hqnd & Hqin).
  assert (NoDup (btree_set_iter digests)) as Hnd.
  { unfold btree_set_iter. rewrite merge_sort_Permutation. apply NoDup_elements. }
  unfold Tm.find_ready_transactions. rewrite Hk, Hq. cbn [unwrap mbind outcome_bind].
  rewrite remove_waiting_ok by done. cbn [mbind outcome_bind Tm.with_missing pending_certificates].
  destruct (take_ready_ok k (btree_set_iter digests) (pending_certificates i) Hnd) as (pending' & -> & Hlk);
    [by intros d ?%Hds|]. cbn [mbind outcome_bind fst snd].
  assert (pending' = without_key k i) as ->.
  { apply map_eq. intros d. rewrite Hlk. unfold without_key. rewrite lookup_omap. case_bool_decide as Hd; [done|].
    destruct (pending_certificates i !! d) as [p|] eqn:Hp; [|done]. cbn.
    rewrite still_pending_other; [done|by apply (ok_waiting i Hi d)|]. intros Hkp. apply Hd, Hds. eauto. }
  exists (omap (λ d, pending_certificates i !! d ≫= now_ready k) (btree_set_iter digests)). split.
  - unfold wake, inputs_without, queue_without. rewrite Hq. unfold default, id.
    by destruct (filter (λ e : Z * Z, e.1 ∉ btree_set_iter digests) q).
  - split.
    + intros r. rewrite list_elem_of_omap. setoid_rewrite Hds. split.
      * intros (d & (p & Hp & Hkp) & Hr). rewrite Hp in Hr. cbn in Hr. eauto.
      * intros (d & p & Hp & Hkp & Hr). exists d. rewrite Hp. eauto.
    + apply NoDup_omap_key; [done|]. intros d r. destruct (pending_certificates i !! d) as [p|] eqn:Hp; [|done].
      cbn. intros [-> _]%now_ready_Some. cbn. by apply (ok_digest i Hi d).
Qed.

Lemma find_ready_spec i k :
  tm_ok i →
  ∃ ready i', Tm.find_ready_transactions i k true = Ret (ready, i') ∧ tm_ok i' ∧
    available_objects_cache i' = Cache.insert k (available_objects_cache i) ∧
    epoch i' = epoch i ∧ executing_certificates i' = executing_certificates i ∧
    pending_certificates i' = without_key k i ∧ readied k i ready.
Proof.
  intros Hi. change (Tm.find_ready_transactions i k true) with
    (Tm.find_ready_transactions (Tm.with_cache i (Cache.insert k (available_objects_cache i))) k false).
  pose proof (tm_ok_cache i (Cache.insert k (available_objects_cache i)) Hi) as Hi'.
  destruct (missing_inputs i !! k) as [digests|] eqn:Hk.
  - destruct (find_ready_waiting _ k digests Hi' Hk) as (ready & Hr & Hready). rewrite Hr.
    eexists _, _. split; [done|]. split; [by apply wake_ok|]. done.
  - destruct (nothing_waits _ k Hi' Hk) as [Hw Hready].
    exists [], (Tm.with_cache i (Cache.insert k (available_objects_cache i))).
    split_and!; [unfold Tm.find_ready_transactions; cbn; by rewrite Hk|done..|by rewrite <- Hw|done].
Qed.

(** ** Waking up certificates *)

Definition sent p : Certificate * option Z := (certificate p, expected_effects_digest p).

Lemma certificates_ready_ok m l :
  (∀ r, r ∈ l → waiting_input_objects r = ∅ ∧ cert_digest (certificate r) ∉ executing_certificates (inner m)) →
  NoDup (cert_digest ∘ certificate <$> l) →
  Tm.certificates_ready m l = Ret (mkManager _
    (Tm.with_executing (inner m) (list_to_set (cert_digest ∘ certificate <$> l) ∪ executing_certificates (inner m)))
    (tx_ready_certificates m ++ (sent <$> l)) (pending_execution m)).
Proof.
  revert m. induction l as [|r l IH]; intros m Hl Hnd; cbn [Tm.certificates_ready].
  { destruct m as [[] ready pe]. cbn. rewrite app_nil_r. do 3 f_equal. set_solver. }
  destruct (Hl r ltac:(left)) as [Hw Hx]. unfold Tm.certificate_ready. rewrite Hw.
  rewrite (bool_decide_true (_ = 0%nat)) by apply size_empty. cbn [assert_ mbind outcome_bind].
  rewrite (bool_decide_true (_ ∉ _)) by done. cbn [assert_ mbind outcome_bind].
  rewrite fmap_cons in Hnd. apply NoDup_cons in Hnd as [Hn Hnd]. rewrite IH; [|..|done].
  - cbn. rewrite <- app_assoc. do 3 f_equal. set_solver.
  - intros r' Hr'. destruct (Hl r' ltac:(by right)) as [Hw' Hx']. split; [done|]. cbn.
    rewrite not_elem_of_union, not_elem_of_singleton. split; [|done]. intros Heq. apply Hn. cbn. rewrite <- Heq.
    by apply (list_elem_of_fmap_2 (cert_digest ∘ certificate)).
Qed.

(** The manager [m'] is [m] after the keys [ks] have become available, and [new] has been sent. *)
Record woken (ks : list InputKey) m m' (new : list (Certificate * option Z)) : Prop := {
  wk_ok : tm_ok (inner m');
  wk_cache : available_objects_cache (inner m') =
    foldl (λ a k, Cache.insert k a) (available_objects_cache (inner m)) ks;
  wk_epoch : epoch (inner m') = epoch (inner m);
  wk_pending : ∀ d p', pending_certificates (inner m') !! d = Some p' ↔
    ∃ p, pending_certificates (inner m) !! d = Some p ∧
      p' = mkPending (certificate p) (expected_effects_digest p) (waiting_input_objects p ∖ list_to_set ks) ∧
      ¬ waiting_input_objects p ⊆ list_to_set ks;
  wk_ready : tx_ready_certificates m' = tx_ready_certificates m ++ new;
  wk_new : ∀ x, x ∈ new ↔ ∃ d p, pending_certificates (inner m) !! d = Some p ∧ x = sent p ∧
    waiting_input_objects p ⊆ list_to_set ks;
  wk_executing : executing_certificates (inner m') =
    executing_certificates (inner m) ∪ list_to_set (cert_digest ∘ fst <$> new);
  wk_once : NoDup (cert_digest ∘ fst <$> new);
  wk_table : pending_execution m' = pending_execution m;
}.

Lemma woken_nil m : tm_ok (inner m) → woken [] m m [].
Proof.
  intros Hm. split; try done.
  - intros d p'. split.
    + intros Hp. exists p'. split_and!; [done| |].
      * cbn. replace (waiting_input_objects p' ∖ ∅) with (waiting_input_objects p') by set_solver. by destruct p'.
      * pose proof (ok_waiting _ Hm d p' Hp). set_solver.
    + intros (p & Hp & -> & _). rewrite Hp. cbn.
      replace (waiting_input_objects p ∖ ∅) with (waiting_input_objects p) by set_solver. by destruct p.
  - by rewrite app_nil_r.
  - intros x. split; [by intros ?%elem_of_nil|]. intros (d & p & Hp & _ & Hw).
    pose proof (ok_waiting _ Hm d p Hp). set_solver.
  - cbn. set_solver.
  - constructor.
Qed.

Lemma diff_key' k (s : gset InputKey) : s ∖ {[ k ]} = ∅ ↔ s ⊆ {[ k ]}.
Proof.
  split; [|set_solver]. intros Hs x Hx. destruct (decide (x = k)) as [->|Hne]; [set_solver|].
  assert (x ∈ s ∖ {[ k ]}) as Hin by set_solver. by rewrite Hs in Hin.
Qed.
Lemma diff_key k (s : gset InputKey) : s ∖ {[ k ]} = ∅ ↔ s ⊆ {[ k ]} ∪ ∅.
Proof. by rewrite diff_key', union_empty_r_L. Qed.
Lemma last_key k (s : gset InputKey) : s ≠ ∅ → s ⊆ {[ k ]} ∪ ∅ → k ∈ s ∧ s ∖ {[ k ]} = ∅.
Proof.
  intros [x Hx]%set_choose_L Hs. split; [|by apply diff_key]. assert (x = k) as <-; [|done]. set_solver.
Qed.

Lemma woken_one m k :
  tm_ok (inner m) →
  ∃ m' new, (r ← Tm.find_ready_transactions (inner m) k true; Tm.certificates_ready (Tm.with_inner m r.2) r.1) = Ret m' ∧
    woken [k] m m' new.
Proof.
  intros Hm. destruct (find_ready_spec (inner m) k Hm) as (ready & i' & -> & Hi' & Hc & He & Hx & Hp & Hr & Hnd).
  cbn [mbind outcome_bind fst snd].
  rewrite certificates_ready_ok; [|..|done].
  2: { intros r (d & p & Hd & Hin & [-> Hw]%now_ready_Some)%Hr. split; [done|]. cbn. rewrite Hx.
    rewrite (ok_digest _ Hm d p Hd). by apply (ok_executing _ Hm d p). }
  exists (mkManager _ (Tm.with_executing i' (list_to_set (cert_digest ∘ certificate <$> ready) ∪ executing_certificates i'))
    (tx_ready_certificates m ++ (sent <$> ready)) (pending_execution m)), (sent <$> ready).
  split; [done|]. split; cbn [inner tx_ready_certificates pending_execution Tm.with_executing available_objects_cache
    epoch pending_certificates executing_certificates foldl].
  - destruct Hi'. split; try done. cbn. intros d p Hd. rewrite not_elem_of_union, elem_of_list_to_set.
    split; [|by apply (ok_executing0 d p)].
    intros (r & -> & (d' & p' & Hd' & Hin & [-> Hw]%now_ready_Some)%Hr)%list_elem_of_fmap.
    cbn in Hd. rewrite (ok_digest _ Hm d' p' Hd') in Hd.
    rewrite Hp in Hd. apply without_key_lookup in Hd as (q & Hq & _ & Hne). simplify_eq.
  - done.
  - done.
  - intros d p'. rewrite Hp, without_key_lookup. cbn.
    unfold drop_key. setoid_rewrite union_empty_r_L. by setoid_rewrite diff_key'.
  - done.
  - intros x. rewrite list_elem_of_fmap. setoid_rewrite Hr. cbn. split.
    + intros (r & -> & d & p & Hd & Hin & [-> Hw]%now_ready_Some). exists d, p. split_and!; [done..|]. by apply diff_key.
    + intros (d & p & Hd & -> & Hw). exists (drop_key k p). split; [done|]. exists d, p.
      destruct (last_key k _ (ok_waiting _ Hm d p Hd) Hw) as [Hin Hs]. by rewrite now_ready_Some.
  - rewrite Hx. rewrite <- list_fmap_compose. set_solver.
  - rewrite <- list_fmap_compose. exact Hnd.
  - done.
Qed.

Lemma diff_subset (w s u : gset InputKey) : w ∖ s ⊆ u ↔ w ⊆ s ∪ u.
Proof.
  split; [|set_solver]. intros Hs x Hx. destruct (decide (x ∈ s)); [set_solver|].
  apply elem_of_union. right. apply Hs. set_solver.
Qed.

Lemma woken_cons k ks m m1 m2 new1 new2 :
  woken [k] m m1 new1 → woken ks m1 m2 new2 → woken (k :: ks) m m2 (new1 ++ new2).
Proof.
  intros H1 H2. assert (∀ (w : gset InputKey), w ∖ list_to_set [k] ∖ list_to_set ks = w ∖ list_to_set (k :: ks)) as Hd.
  { intros w. cbn. set_solver. }
  assert (∀ (w : gset InputKey), w ∖ list_to_set [k] ⊆ list_to_set ks ↔ w ⊆ list_to_set (k :: ks)) as Hs.
  { intros w. rewrite diff_subset. cbn. by rewrite union_empty_r_L. }
  assert (∀ (w : gset InputKey), w ⊆ list_to_set [k] → w ⊆ list_to_set (k :: ks)) as Hs1 by (intros w; cbn; set_solver).
  split.
  - apply (wk_ok _ _ _ _ H2).
  - by rewrite (wk_cache _ _ _ _ H2), (wk_cache _ _ _ _ H1).
  - by rewrite (wk_epoch _ _ _ _ H2), (wk_epoch _ _ _ _ H1).
  - intros d p'. rewrite (wk_pending _ _ _ _ H2). setoid_rewrite (wk_pending _ _ _ _ H1). split.
    + intros (p1 & (p & Hp & -> & Hn1) & -> & Hn2). cbn in Hn2 |- *. exists p. rewrite Hd. rewrite <- Hs. done.
    + intros (p & Hp & -> & Hn). eexists. split; [exists p; split_and!; [done..|by intros ?%Hs1]|].
      cbn [waiting_input_objects certificate expected_effects_digest]. rewrite Hd, Hs. done.
  - by rewrite (wk_ready _ _ _ _ H2), (wk_ready _ _ _ _ H1), app_assoc.
  - intros x. rewrite elem_of_app, (wk_new _ _ _ _ H1), (wk_new _ _ _ _ H2).
    setoid_rewrite (wk_pending _ _ _ _ H1). split.
    + intros [(d & p & Hp & -> & Hw)|(d & p1 & (p & Hp & -> & _) & -> & Hw)]; exists d, p; split_and!; try done.
      * by apply Hs1.
      * cbn [waiting_input_objects] in Hw. by apply Hs.
    + intros (d & p & Hp & -> & Hw). destruct (decide (waiting_input_objects p ⊆ list_to_set [k])) as [Hin|Hout].
      * left. eauto.
      * right. exists d. eexists. split; [exists p; split_and!; done|]. cbn [waiting_input_objects sent certificate expected_effects_digest].
        split; [done|]. by apply Hs.
  - rewrite (wk_executing _ _ _ _ H2), (wk_executing _ _ _ _ H1), fmap_app, list_to_set_app_L. set_solver.
  - rewrite fmap_app. apply NoDup_app. split_and!; [apply (wk_once _ _ _ _ H1)| |apply (wk_once _ _ _ _ H2)].
    intros d Hd1 (x & -> & (d' & p & Hp & -> & _)%(wk_new _ _ _ _ H2))%list_elem_of_fmap. cbn in Hd1.
    pose proof (wk_ok _ _ _ _ H1) as Hok. rewrite (ok_digest _ Hok d' p Hp) in Hd1.
    apply (ok_executing _ Hok d' p Hp). rewrite (wk_executing _ _ _ _ H1). set_solver.
  - by rewrite (wk_table _ _ _ _ H2), (wk_table _ _ _ _ H1).
Qed.

Lemma available_loop_ok ks m :
  tm_ok (inner m) → ∃ m' new, Tm.available_loop m ks true = Ret m' ∧ woken ks m m' new.
Proof.
  revert m. induction ks as [|k ks IH]; intros m Hm; cbn [Tm.available_loop].
  { exists m, []. split; [done|]. by apply woken_nil. }
  destruct (woken_one m k Hm) as (m1 & new1 & Heq & H1).
  destruct (Tm.find_ready_transactions (inner m) k true) as [r| |]; cbn [mbind outcome_bind] in Heq |- *; [|done..].
  rewrite Heq. cbn [mbind outcome_bind]. destruct (IH m1 (wk_ok _ _ _ _ H1)) as (m2 & new2 & -> & H2).
  exists m2, (new1 ++ new2). split; [done|]. by eapply woken_cons.
Qed.

Lemma tm_ok_executing i (s : gset Z) :
  tm_ok i → s ⊆ executing_certificates i → tm_ok (Tm.with_executing i s).
Proof. intros [] Hs. split; try done. cbn. intros d p Hp Hd. by apply (ok_executing0 d p Hp), Hs. Qed.

Lemma notify_woken m digest keys :
  tm_ok (inner m) →
  ∃ m1 m' new, Tm.notify_commit m digest keys (epoch (inner m)) = Ret m' ∧ woken keys m m1 new ∧ tm_ok (inner m') ∧
    available_objects_cache (inner m') = available_objects_cache (inner m1) ∧ epoch (inner m') = epoch (inner m) ∧
    pending_certificates (inner m') = pending_certificates (inner m1) ∧
    tx_ready_certificates m' = tx_ready_certificates m1 ∧
    executing_certificates (inner m') = executing_certificates (inner m1) ∖ {[ digest ]} ∧
    (digest ∈ executing_certificates (inner m1) → digest ∉ pending_execution m').
Proof.
  intros Hm. unfold Tm.notify_commit, Tm.objects_available_locked. rewrite Z.eqb_refl. cbn [negb].
  destruct (available_loop_ok keys m Hm) as (m1 & new & -> & Hw). cbn [mbind outcome_bind].
  pose proof (wk_ok _ _ _ _ Hw) as Hok. pose proof (wk_epoch _ _ _ _ Hw) as He. exists m1. case_bool_decide as Hd.
  - eexists _, new. split; [reflexivity|]. split_and!; try done; cbn.
    + apply tm_ok_executing; [done|set_solver].
    + set_solver.
  - exists m1, new. split_and!; try done. set_solver.
Qed.

(** C35: [notify_commit] in the epoch of the manager never panics and keeps the indexes of the
    manager consistent.  It sends exactly those certificates for execution, once each, whose last missing
    inputs are among the keys that have become available; the others keep waiting for the rest.
    The transaction that committed is no longer executing, and if it was, it is not
    retried after a restart. *)
Theorem notify_commit_correct m digest keys :
  tm_ok (inner m) →
  ∃ m' new,
    Tm.notify_commit m digest keys (epoch (inner m)) = Ret m' ∧ tm_ok (inner m') ∧
    tx_ready_certificates m' = tx_ready_certificates m ++ new ∧ NoDup (cert_digest ∘ fst <$> new) ∧
    (∀ x, x ∈ new ↔ ∃ d p, pending_certificates (inner m) !! d = Some p ∧
       x = (certificate p, expected_effects_digest p) ∧ waiting_input_objects p ⊆ list_to_set keys) ∧
    (∀ d p', pending_certificates (inner m') !! d = Some p' ↔
       ∃ p, pending_certificates (inner m) !! d = Some p ∧
         p' = mkPending (certificate p) (expected_effects_digest p) (waiting_input_objects p ∖ list_to_set keys) ∧
         ¬ waiting_input_objects p ⊆ list_to_set keys) ∧
    executing_certificates (inner m') =
      (executing_certificates (inner m) ∪ list_to_set (cert_digest ∘ fst <$> new)) ∖ {[ digest ]} ∧
    (digest ∈ executing_certificates (inner m) → digest ∉ pending_execution m').
Proof.
  intros Hm. destruct (notify_woken m digest keys Hm) as (m1 & m' & new & Heq & Hw & Hok & _ & _ & Hp & Hr & Hx & Ht).
  exists m', new. rewrite Hr, Hp, Hx. pose proof (wk_executing _ _ _ _ Hw) as Hex. split_and!.
  - done.
  - done.
  - apply (wk_ready _ _ _ _ Hw).
  - apply (wk_once _ _ _ _ Hw).
  - apply (wk_new _ _ _ _ Hw).
  - apply (wk_pending _ _ _ _ Hw).
  - by rewrite Hex.
  - intros Hin. apply Ht. rewrite Hex. set_solver.
Qed.
End manager.

(** ** The cache *)

Section caching.
Context `{!LruCache} `{!LruLaws}.
Implicit Types (a : AvailableObjectsCache) (k : InputKey).

Definition known_versions a : gmap Z SequenceNumber := entries (versioned_cache (cache a)).
Definition known_packages a : gmap Z unit := entries (unversioned_cache (cache a)).

(** What the cache answers. *)
Definition says a k : option bool :=
  match k with
  | VersionedObject id v => (λ current, v <=? current) <$> known_versions a !! id
  | PackageKey id => (λ _, true) <$> known_packages a !! id
  end.

(** Caches that differ only in what was used last. *)
Record same_entries a a' : Prop := {
  se_versions : known_versions a' = known_versions a;
  se_packages : known_packages a' = known_packages a;
  se_unbounded : unbounded_cache_enabled a' = unbounded_cache_enabled a;
}.

#[export] Instance same_entries_equiv : Equivalence same_entries.
Proof.
  split; [by split|intros ?? []; by split|]. intros ??? [] []. split; congruence.
Qed.

#[export] Instance says_proper : Proper (same_entries ==> eq ==> eq) says.
Proof. intros a a' [Hv Hp _] k _ <-. unfold says. by rewrite Hv, Hp. Qed.

Lemma is_object_available_spec k a :
  (Cache.is_object_available k a).1 = says a k ∧ same_entries a (Cache.is_object_available k a).2.
Proof.
  unfold Cache.is_object_available, Cache.is_object_available_inner, says, known_versions, known_packages.
  destruct k as [id v|id]; cbn.
  - pose proof (get_result _ id (versioned_cache (cache a))) as Hr.
    pose proof (get_entries _ id (versioned_cache (cache a))) as He.
    destruct (lru_get id (versioned_cache (cache a))) as [r c]. cbn in *. rewrite <- Hr. split; [done|]. by split.
  - pose proof (get_result _ id (unversioned_cache (cache a))) as Hr.
    pose proof (get_entries _ id (unversioned_cache (cache a))) as He.
    destruct (lru_get id (unversioned_cache (cache a))) as [r c]. cbn in *. rewrite <- Hr. split; [done|]. by split.
Qed.

(** The entries after an insertion, before the cache shrinks. *)
Definition learn_versions k a : gmap Z SequenceNumber :=
  match k with
  | VersionedObject id v => <[id := Z.max v (default v (known_versions a !! id))]> (known_versions a)
  | PackageKey _ => known_versions a
  end.
Definition learn_packages k a : gmap Z unit :=
  match k with VersionedObject _ _ => known_packages a | PackageKey id => <[id := tt]> (known_packages a) end.

Lemma insert_inner_spec k a :
  entries (versioned_cache (Cache.insert_inner k (cache a))) = learn_versions k a ∧
  entries (unversioned_cache (Cache.insert_inner k (cache a))) = learn_packages k a.
Proof.
  unfold Cache.insert_inner, learn_versions, learn_packages, known_versions, known_packages.
  destruct k as [id v|id]; cbn; [|by rewrite push_entries].
  pose proof (push_result _ id v (versioned_cache (cache a))) as Hr.
  pose proof (push_entries _ id v (versioned_cache (cache a))) as He.
  destruct (lru_push id v (versioned_cache (cache a))) as [prev c]. cbn in *. split; [|done]. rewrite Hr.
  destruct (entries (versioned_cache (cache a)) !! id) as [old|] eqn:Hold; cbn.
  - rewrite Z.eqb_refl. cbn. destruct (Z.ltb_spec v old); cbn.
    + rewrite put_entries, He, insert_insert_eq. by rewrite Z.max_r by lia.
    + rewrite He. by rewrite Z.max_l by lia.
  - rewrite He. by rewrite Z.max_id.
Qed.

Lemma shrink_lru_subset {V} fuel max (c : lru V) :
  entries (Cache.shrink_lru fuel max c) ⊆ entries c ∧
  (lru_len c - fuel <= max → lru_len (Cache.shrink_lru fuel max c) <= max)%nat.
Proof.
  revert c. induction fuel as [|fuel IH]; intros c; cbn [Cache.shrink_lru].
  { destruct (Nat.ltb_spec max (lru_len c)); split; try done; lia. }
  destruct (Nat.ltb_spec max (lru_len c)) as [Hlt|Hle]; [|split; [done|lia]].
  assert (entries c ≠ ∅) as Hne.
  { intros Hc. rewrite len_entries, Hc, map_size_empty in Hlt. lia. }
  destruct (pop_entries _ c Hne) as (k & Hk & Hpop). destruct (IH (lru_pop c)) as [Hs Hl]. split.
  - etrans; [exact Hs|]. rewrite Hpop. apply delete_subseteq.
  - intros Hf. apply Hl. rewrite len_entries, Hpop, map_size_delete_Some by done. rewrite len_entries in Hf. lia.
Qed.

(** Inserting keeps only what was known or is inserted; while the cache is unbounded it keeps
    all of it, and otherwise it stays within its size. *)
Lemma cache_insert_spec k a :
  known_versions (Cache.insert k a) ⊆ learn_versions k a ∧
  known_packages (Cache.insert k a) ⊆ learn_packages k a ∧
  unbounded_cache_enabled (Cache.insert k a) = unbounded_cache_enabled a ∧
  (unbounded_cache_enabled a ≠ 0 →
     known_versions (Cache.insert k a) = learn_versions k a ∧ known_packages (Cache.insert k a) = learn_packages k a) ∧
  (unbounded_cache_enabled a = 0 →
     (size (known_versions (Cache.insert k a)) <= max_size (cache a) ∧
      size (known_packages (Cache.insert k a)) <= max_size (cache a))%nat).
Proof.
  destruct (insert_inner_spec k a) as [Hv Hp]. unfold Cache.insert, known_versions, known_packages.
  destruct (Z.eqb_spec (unbounded_cache_enabled a) 0) as [Hz|Hz]; cbn [cache unbounded_cache_enabled].
  - unfold Cache.shrink. cbn [versioned_cache unversioned_cache].
    set (c := Cache.insert_inner k (cache a)) in *.
    assert (max_size c = max_size (cache a)) as Hm.
    { subst c. unfold Cache.insert_inner. destruct (Key.version k); [|done]. by destruct (lru_push _ _ _). }
    destruct (shrink_lru_subset (lru_len (versioned_cache c)) (max_size c) (versioned_cache c)) as [Hs1 Hl1].
    destruct (shrink_lru_subset (lru_len (unversioned_cache c)) (max_size c) (unversioned_cache c)) as [Hs2 Hl2].
    rewrite Hv in Hs1. rewrite Hp in Hs2. split_and!; [done..| |].
    + done.
    + intros _. rewrite <- !len_entries, <- Hm. split; [apply Hl1|apply Hl2]; lia.
  - rewrite Hv, Hp. split_and!; done.
Qed.

Lemma learn_versions_lookup k a id v :
  learn_versions k a !! id = Some v →
  (known_versions a !! id = Some v ∧ Key.id k ≠ id) ∨ (known_versions a !! id = Some v ∧ k = PackageKey (Key.id k)) ∨
  (∃ v0, k = VersionedObject id v0 ∧ v = Z.max v0 (default v0 (known_versions a !! id))).
Proof.
  destruct k as [id' v'|id']; cbn; [|by auto]. destruct (decide (id' = id)) as [->|Hne].
  - rewrite lookup_insert_eq. intros [= <-]. eauto.
  - rewrite lookup_insert_ne by done. auto.
Qed.

(** The lookups of the first half. *)
Lemma lookup_cache_spec keys a av :
  same_entries a (Tm.lookup_cache keys a av).2 ∧
  ∀ k, (Tm.lookup_cache keys a av).1 !! k =
    if bool_decide (k ∈ keys) then match says a k with Some b => Some (Some b) | None => av !! k end else av !! k.
Proof.
  revert a av. induction keys as [|key keys IH]; intros a av; cbn.
  { split; [done|]. intros k. by rewrite bool_decide_false by apply not_elem_of_nil. }
  destruct (is_object_available_spec key a) as [Hr Hs].
  destruct (Cache.is_object_available key a) as [r a1]. cbn in Hr, Hs.
  set (av1 := match r with Some available => <[key := Some available]> av | None => av end).
  destruct (IH a1 av1) as [Hs1 Hl1]. split; [by etrans|]. intros k. rewrite Hl1. rewrite <- Hs.
  assert (k ≠ key → av1 !! k = av !! k) as Hne by (intros; subst av1; destruct r; [by rewrite lookup_insert_ne|done]).
  destruct (decide (k = key)) as [->|Hk].
  - rewrite (bool_decide_true (key ∈ key :: keys)) by left. subst av1. rewrite <- Hr.
    case_bool_decide; destruct r; by rewrite ?lookup_insert_eq.
  - rewrite Hne by done. erewrite bool_decide_ext; [done|]. rewrite elem_of_cons. naive_solver.
Qed.

(** The answers of the store are taken over; packages are remembered. *)
Lemma apply_answers_spec answers a av :
  (∀ b k, (b, k) ∈ answers → is_Some (av !! k)) → unbounded_cache_enabled a ≠ 0 → NoDup answers.*2 →
  ∃ av' a', Tm.apply_answers answers a av = Ret (av', a') ∧
    (∀ b k, (b, k) ∈ answers → av' !! k = Some (Some b)) ∧ (∀ k, k ∉ answers.*2 → av' !! k = av !! k) ∧
    known_versions a' = known_versions a ∧ unbounded_cache_enabled a' = unbounded_cache_enabled a ∧
    known_packages a ⊆ known_packages a' ∧
    (∀ id, is_Some (known_packages a' !! id) → is_Some (known_packages a !! id) ∨ (true, PackageKey id) ∈ answers).
Proof.
  revert a av. induction answers as [|[b key] answers IH]; intros a av Hin Hu Hnd; cbn [Tm.apply_answers].
  { exists av, a. split_and!; try done; [by intros ?? ?%elem_of_nil|]. auto. }
  cbn in Hnd. apply NoDup_cons in Hnd as [Hn Hnd].
  rewrite (bool_decide_true (is_Some (av !! key))) by (apply (Hin b); left). cbn [assert_ mbind outcome_bind].
  set (a1 := if b && bool_decide (Key.version key = None) then Cache.insert key a else a).
  assert (known_versions a1 = known_versions a ∧ unbounded_cache_enabled a1 = unbounded_cache_enabled a ∧
    known_packages a ⊆ known_packages a1 ∧ (∀ id, is_Some (known_packages a1 !! id) →
      is_Some (known_packages a !! id) ∨ (b = true ∧ key = PackageKey id))) as (Hv & Hu1 & Hp & Hp').
  { subst a1. destruct b; cbn [andb]; [|by auto]. destruct key as [id v|id]; cbn [Key.version].
    { rewrite bool_decide_false by done. auto. }
    rewrite bool_decide_true by done. destruct (cache_insert_spec (PackageKey id) a) as (_ & _ & -> & Hk & _). destruct (Hk Hu) as [-> ->]. cbn.
    split_and!; [done..| |].
    - destruct (known_packages a !! id) as [[]|] eqn:Hid; [by rewrite insert_id|by apply insert_subseteq].
    - intros id'. destruct (decide (id = id')) as [->|Hne]; [auto|]. rewrite lookup_insert_ne by done. auto. }
  destruct (IH a1 (<[key := Some b]> av)) as (av' & a' & -> & Hav & Hav' & Hv' & Hu' & Hp1 & Hp1'); [|by rewrite Hu1|done|].
  { intros b' k Hk. destruct (decide (k = key)) as [->|Hne]; [by rewrite lookup_insert_eq; eexists|].
    rewrite lookup_insert_ne by done. apply (Hin b'). by right. }
  exists av', a'. split_and!; [done|..].
  - intros b' k [[= -> ->]|Hk]%elem_of_cons; [|by apply Hav]. by rewrite Hav', lookup_insert_eq.
  - intros k. cbn. rewrite not_elem_of_cons. intros [Hne Hk]. by rewrite Hav', lookup_insert_ne.
  - by rewrite Hv', Hv.
  - by rewrite Hu', Hu1.
  - by etrans.
  - intros id [Hid|Hid]%Hp1'; [|right; by right]. destruct (Hp' id Hid) as [?|[-> ->]]; [auto|right; left].
Qed.

(** The second look into the cache. *)
Lemma recheck_spec keys a av :
  NoDup keys → (∀ k, k ∈ keys → ∃ b, av !! k = Some (Some b)) →
  ∃ av' a', Tm.recheck keys a av = Ret (av', a') ∧ same_entries a a' ∧
    ∀ k, av' !! k = if bool_decide (k ∈ keys ∧ av !! k = Some (Some false) ∧ says a k = Some true)
                    then Some (Some true) else av !! k.
Proof.
  revert a av. induction keys as [|key keys IH]; intros a av Hnd Hin; cbn [Tm.recheck].
  { exists av, a. split_and!; [done..|]. intros k. rewrite bool_decide_false; [done|]. by intros [?%elem_of_nil _]. }
  apply NoDup_cons in Hnd as [Hn Hnd]. destruct (Hin key ltac:(left)) as [b Hb]. rewrite Hb.
  cbn [unwrap mbind outcome_bind].
  assert (∀ av1 a1, same_entries a a1 → (∀ k, k ≠ key → av1 !! k = av !! k) →
    av1 !! key = (if bool_decide (b = false ∧ says a key = Some true) then Some (Some true) else av !! key) →
    ∃ av' a', Tm.recheck keys a1 av1 = Ret (av', a') ∧ same_entries a a' ∧
    ∀ k, av' !! k = if bool_decide (k ∈ key :: keys ∧ av !! k = Some (Some false) ∧ says a k = Some true)
                    then Some (Some true) else av !! k) as Hrest.
  { intros av1 a1 Hs Hne Hkey. destruct (IH a1 av1 Hnd) as (av' & a' & -> & Hs' & Hl).
    { intros k Hk. rewrite Hne by congruence. apply Hin. by right. }
    exists av', a'. split_and!; [done|by etrans|]. intros k. rewrite Hl. assert (says a1 k = says a k) as -> by by rewrite Hs.
    destruct (decide (k = key)) as [->|Hk].
    - rewrite bool_decide_false by tauto. rewrite Hkey. erewrite bool_decide_ext; [done|]. rewrite Hb, elem_of_cons. naive_solver.
    - rewrite Hne by done. erewrite bool_decide_ext; [done|]. rewrite elem_of_cons. naive_solver. }
  destruct b.
  - apply Hrest; [done..|]. by rewrite bool_decide_false by naive_solver.
  - destruct (is_object_available_spec key a) as [Hr Hs].
    destruct (Cache.is_object_available key a) as [r a1]. cbn in Hr, Hs. apply Hrest; [done|..].
    + intros k Hk. destruct r as [[]|]; by rewrite ?lookup_insert_ne.
    + rewrite <- Hr. destruct r as [[]|]; rewrite ?lookup_insert_eq.
      * by rewrite bool_decide_true.
      * by rewrite bool_decide_false by naive_solver.
      * by rewrite bool_decide_false by naive_solver.
Qed.
End caching.

(** ** Enqueueing *)

Section enqueueing.
Context `{!LruCache}.
Implicit Types (i : Inner) (m : TransactionManager) (k : InputKey) (av : gmap InputKey (option bool)).

(** The keys of [keys] that are not available. *)
Definition unavailable av (keys : gset InputKey) : gset InputKey :=
  filter (λ k, av !! k = Some (Some false)) keys.

Definition distinct_ids (keys : gset InputKey) : Prop :=
  ∀ k k', k ∈ keys → k' ∈ keys → Key.id k = Key.id k' → k = k'.

Lemma unavailable_cons av key keys :
  unavailable av (list_to_set (key :: keys)) =
    (if bool_decide (av !! key = Some (Some false)) then {[ key ]} else ∅) ∪ unavailable av (list_to_set keys).
Proof.
  apply set_eq. intros x. unfold unavailable. cbn.
  rewrite elem_of_union, !elem_of_filter, elem_of_union, elem_of_singleton.
  case_bool_decide; rewrite ?elem_of_singleton, ?elem_of_empty; naive_solver.
Qed.

Lemma wait_for_spec now digest av keys i w :
  NoDup keys → (∀ k, k ∈ keys → ∃ b, av !! k = Some (Some b)) →
  (∀ k, k ∈ keys → digest ∉ default ∅ (missing_inputs i !! k)) →
  ∃ mi io, let u := unavailable av (list_to_set keys) in
    Tm.wait_for now digest av keys i w = Ret (w ∪ u, Tm.with_missing i mi io) ∧
    (∀ k d, d ∈ default ∅ (mi !! k) ↔ d ∈ default ∅ (missing_inputs i !! k) ∨ (d = digest ∧ k ∈ u)) ∧
    (∀ k, mi !! k = Some ∅ → missing_inputs i !! k = Some ∅) ∧
    (∀ id d, d ∈ (default [] (io !! id)).*1 ↔
       d ∈ (default [] (input_objects i !! id)).*1 ∨ (d = digest ∧ ∃ k, k ∈ u ∧ Key.id k = id)) ∧
    ((∀ id l, input_objects i !! id = Some l → NoDup l.*1 ∧ l ≠ []) →
     ∀ id l, io !! id = Some l → NoDup l.*1 ∧ l ≠ []).
Proof.
  revert i w. induction keys as [|key keys IH]; intros i w Hnd Hav Hnew; cbn [Tm.wait_for].
  { exists (missing_inputs i), (input_objects i). assert (unavailable av (list_to_set []) = ∅) as -> by (unfold unavailable; set_solver).
    cbn. split_and!; [|set_solver..|done]. do 2 f_equal; [set_solver|by destruct i]. }
  apply NoDup_cons in Hnd as [Hn Hnd]. destruct (Hav key ltac:(left)) as [b Hb]. rewrite Hb. cbn [unwrap mbind outcome_bind].
  assert (∀ k, k ∈ keys → ∃ b, av !! k = Some (Some b)) as Hav' by (intros ??; apply Hav; by right).
  assert (∀ k, k ∈ keys → digest ∉ default ∅ (missing_inputs i !! k)) as Hnew' by (intros ??; apply Hnew; by right).
  destruct b.
  - destruct (IH i w Hnd Hav' Hnew') as (mi & io & IH'). exists mi, io.
    assert (unavailable av (list_to_set (key :: keys)) = unavailable av (list_to_set keys)) as ->; [|done].
    rewrite unavailable_cons, Hb, bool_decide_false by done. apply union_empty_l_L.
  - assert (unavailable av (list_to_set (key :: keys)) = {[ key ]} ∪ unavailable av (list_to_set keys)) as ->.
    { by rewrite unavailable_cons, Hb, bool_decide_true. }
    rewrite bool_decide_true by (apply Hnew; left). cbn [assert_ mbind outcome_bind].
    set (i1 := Tm.with_missing i _ _).
    assert (∀ k d, d ∈ default ∅ (missing_inputs i1 !! k) ↔ d ∈ default ∅ (missing_inputs i !! k) ∨ (d = digest ∧ k = key)) as Hm1.
    { intros k d. subst i1. cbn. destruct (decide (key = k)) as [->|Hne].
      - rewrite lookup_insert_eq. cbn. set_solver.
      - rewrite lookup_insert_ne by done. naive_solver. }
    assert (∀ id d, d ∈ (default [] (input_objects i1 !! id)).*1 ↔
      d ∈ (default [] (input_objects i !! id)).*1 ∨ (d = digest ∧ Key.id key = id)) as Hio1.
    { intros id d. subst i1. cbn. destruct (decide (Key.id key = id)) as [<-|Hne].
      - rewrite lookup_insert_eq. unfold default at 1, id at 1. rewrite elem_of_index_insert. naive_solver.
      - rewrite lookup_insert_ne by done. naive_solver. }
    destruct (IH i1 ({[ key ]} ∪ w) Hnd Hav') as (mi & io & Heq & Hm & He & Hio & Hq).
    { intros k Hk. rewrite Hm1. intros [?|[_ ->]]; [by apply (Hnew' k)|done]. }
    exists mi, io. rewrite Heq. split_and!.
    + f_equal. f_equal. set_solver.
    + intros k d. rewrite Hm, Hm1, elem_of_union, elem_of_singleton. naive_solver.
    + intros k Hk. apply He in Hk. subst i1. cbn in Hk. destruct (decide (key = k)) as [->|Hne].
      * rewrite lookup_insert_eq in Hk. injection Hk as Hk. set_solver.
      * by rewrite lookup_insert_ne in Hk.
    + intros id d. rewrite Hio, Hio1. setoid_rewrite elem_of_union. setoid_rewrite elem_of_singleton. naive_solver.
    + intros Hold. apply Hq. intros id l. subst i1. cbn. destruct (decide (Key.id key = id)) as [<-|Hne].
      * rewrite lookup_insert_eq. intros [= <-]. split; [|apply index_insert_nonempty]. apply NoDup_index_insert.
        destruct (input_objects i !! Key.id key) as [l|] eqn:Hl; [by apply (Hold _ _ Hl)|constructor].
      * rewrite lookup_insert_ne by done. apply Hold.
Qed.

Abbreviation Enqueued := (Certificate * option Z * gset InputKey)%type (only parsing).

(** The manager [m'] is [m] after [certs] have been enqueued, with the result [r], and [new] has
    been sent.  When no read fails, no certificate is forgotten. *)
Record enqueued (s : AuthorityStore) av (certs : list Enqueued) m (r : result unit unit) m'
    (new : list (Certificate * option Z)) : Prop := {
  en_ok : tm_ok (inner m');
  en_cache : available_objects_cache (inner m') = available_objects_cache (inner m);
  en_epoch : epoch (inner m') = epoch (inner m);
  en_kept : pending_certificates (inner m) ⊆ pending_certificates (inner m') ∧
    executing_certificates (inner m) ⊆ executing_certificates (inner m');
  en_pending : ∀ d p, pending_certificates (inner m') !! d = Some p →
    pending_certificates (inner m) !! d = Some p ∨
    ∃ c, c ∈ certs ∧ p = mkPending c.1.1 c.1.2 (unavailable av c.2);
  en_ready : tx_ready_certificates m' = tx_ready_certificates m ++ new;
  en_new : ∀ x, x ∈ new → ∃ c, c ∈ certs ∧ x = c.1 ∧ unavailable av c.2 = ∅;
  en_all : r = Ok tt → ∀ c, c ∈ certs → cert_epoch c.1.1 = epoch (inner m) →
    is_tx_already_executed s (cert_digest c.1.1) = Ok false →
    is_Some (pending_certificates (inner m') !! cert_digest c.1.1) ∨
    cert_digest c.1.1 ∈ executing_certificates (inner m');
}.

(** A certificate with its keys that are all known to be available or not. *)
Definition well_formed av (c : Enqueued) : Prop :=
  distinct_ids c.2 ∧ ∀ k, k ∈ c.2 → ∃ b, av !! k = Some (Some b).

Lemma enqueued_same s av c m r m' :
  tm_ok (inner m) → inner m' = inner m → tx_ready_certificates m' = tx_ready_certificates m →
  (r = Ok tt → cert_epoch c.1.1 = epoch (inner m) → is_tx_already_executed s (cert_digest c.1.1) = Ok false →
   is_Some (pending_certificates (inner m) !! cert_digest c.1.1) ∨ cert_digest c.1.1 ∈ executing_certificates (inner m)) →
  enqueued s av [c] m r m' [].
Proof.
  intros Hm Hi Hr Hall. split; rewrite ?Hi; try done; [by auto|by rewrite Hr, app_nil_r|by intros x ?%elem_of_nil|].
  intros Hok c' ->%list_elem_of_singleton. by apply Hall.
Qed.

(** The state with a certificate entered under the keys [u]. *)
Lemma enter_ok i digest cert fx u mi io :
  tm_ok i → cert_digest cert = digest → pending_certificates i !! digest = None →
  digest ∉ executing_certificates i → u ≠ ∅ → distinct_ids u →
  (∀ k d, d ∈ default ∅ (mi !! k) ↔ d ∈ default ∅ (missing_inputs i !! k) ∨ (d = digest ∧ k ∈ u)) →
  (∀ k, mi !! k = Some ∅ → missing_inputs i !! k = Some ∅) →
  (∀ id d, d ∈ (default [] (io !! id)).*1 ↔
     d ∈ (default [] (input_objects i !! id)).*1 ∨ (d = digest ∧ ∃ k, k ∈ u ∧ Key.id k = id)) →
  (∀ id l, io !! id = Some l → NoDup l.*1 ∧ l ≠ []) →
  tm_ok (Tm.with_pending (Tm.with_missing i mi io) (<[digest := mkPending cert fx u]> (pending_certificates i))).
Proof.
  intros Hi Hdig Hnone Hex Hu Hids Hm He Hio Hq.
  assert (∀ d p, pending_certificates i !! d = Some p → d ≠ digest) as Hne by (intros d p Hp ->; congruence).
  assert (∀ d p, <[digest := mkPending cert fx u]> (pending_certificates i) !! d = Some p ↔
    (d = digest ∧ p = mkPending cert fx u) ∨ pending_certificates i !! d = Some p) as Hl.
  { intros d p. destruct (decide (digest = d)) as [->|Hd].
    - rewrite lookup_insert_eq. rewrite Hnone. naive_solver.
    - rewrite lookup_insert_ne by done. naive_solver. }
  split; cbn.
  - intros k d. rewrite Hm, (ok_missing i Hi). setoid_rewrite Hl. split.
    + intros [(p & Hp & Hk)|[-> Hk]]; [eauto|]. exists (mkPending cert fx u). auto.
    + intros (p & [[-> ->]|Hp] & Hk); [by right|left; eauto].
  - intros k Hk. by apply (ok_missing_nonempty i Hi k), He.
  - intros id d. rewrite Hio, (ok_inputs i Hi). setoid_rewrite Hl. split.
    + intros [(p & k & Hp & Hk & Hid)|(-> & k & Hk & Hid)]; [eauto 8|]. exists (mkPending cert fx u), k. auto.
    + intros (p & k & [[-> ->]|Hp] & Hk & Hid); [right; eauto|left; eauto].
  - done.
  - intros d p [[-> ->]|Hp]%Hl; [done|by apply (ok_waiting i Hi d)].
  - intros d p [[-> ->]|Hp]%Hl; [done|by apply (ok_digest i Hi d)].
  - intros d p [[-> ->]|Hp]%Hl; [done|by apply (ok_executing i Hi d p)].
  - intros d p k k' [[-> ->]|Hp]%Hl; [apply Hids|by apply (ok_versions i Hi d p)].
Qed.

Lemma unavailable_subset av keys : unavailable av keys ⊆ keys.
Proof. unfold unavailable. set_solver. Qed.

(** A certificate that has to wait for nothing is sent. *)
Lemma send_ok i digest mi io :
  tm_ok i → pending_certificates i !! digest = None →
  (∀ k d, d ∈ default ∅ (mi !! k) ↔ d ∈ default ∅ (missing_inputs i !! k)) →
  (∀ k, mi !! k = Some ∅ → missing_inputs i !! k = Some ∅) →
  (∀ id d, d ∈ (default [] (io !! id)).*1 ↔ d ∈ (default [] (input_objects i !! id)).*1) →
  (∀ id l, io !! id = Some l → NoDup l.*1 ∧ l ≠ []) →
  tm_ok (Tm.with_executing (Tm.with_missing i mi io) ({[ digest ]} ∪ executing_certificates i)).
Proof.
  intros [] Hnone Hm He Hio Hq. split; cbn; try done.
  - intros k d. by rewrite Hm.
  - intros k Hk. by apply (ok_missing_nonempty0 k), He.
  - intros id d. by rewrite Hio.
  - intros d p Hp. rewrite not_elem_of_union, not_elem_of_singleton. split; [congruence|by apply (ok_executing0 d p)].
Qed.

Lemma enqueue_one_ok s now av m c :
  tm_ok (inner m) → well_formed av c →
  ∃ r m' new, Tm.enqueue_one s now av m c = Ret (r, m') ∧ enqueued s av [c] m r m' new.
Proof.
  intros Hm [Hids Hav]. destruct c as [[cert fx] keys]. cbn in Hids, Hav. cbn [Tm.enqueue_one].
  destruct (Z.eqb_spec (epoch (inner m)) (cert_epoch cert)) as [Hep|Hep]; cbn [negb].
  2: { eexists _, _, []. split; [done|]. apply enqueued_same; [done..|]. cbn. congruence. }
  case_bool_decide as Hp.
  { eexists _, _, []. split; [done|]. apply enqueued_same; [done..|]. cbn. auto. }
  case_bool_decide as Hx.
  { eexists _, _, []. split; [done|]. apply enqueued_same; [done..|]. cbn. auto. }
  destruct (is_tx_already_executed s (cert_digest cert)) as [[]|e] eqn:Hexec.
  1, 3: eexists _, _, []; split; [done|]; apply enqueued_same; [done..|]; cbn; congruence.
  rewrite <- eq_None_not_Some in Hp.
  destruct (wait_for_spec now (cert_digest cert) av (elements keys) (inner m) ∅) as (mi & io & Heq & Hmi & He & Hio & Hq).
  { apply NoDup_elements. }
  { intros k Hk%elem_of_elements. by apply Hav. }
  { intros k _ (p & Hpd & _)%(ok_missing _ Hm). congruence. }
  rewrite list_to_set_elements_L in Heq, Hmi, Hio. rewrite Heq. cbn [mbind outcome_bind].
  rewrite union_empty_l_L. set (u := unavailable av keys) in *.
  pose proof (Hq (ok_inputs_queue _ Hm)) as Hq'. case_bool_decide as Hu.
  - rewrite Hu in Hmi, Hio. unfold Tm.certificate_ready. cbn [waiting_input_objects certificate expected_effects_digest].
    rewrite Hu, (bool_decide_true (_ = 0%nat)) by apply size_empty. cbn [assert_ mbind outcome_bind].
    rewrite (bool_decide_true (_ ∉ _)) by done. cbn [assert_ mbind outcome_bind].
    eexists _, _, [(cert, fx)]. split; [reflexivity|]. split; cbn; try done; [..|auto| |].
    + apply send_ok; [done..| | | |done]; [|done|]; intros; rewrite ?Hmi, ?Hio; set_solver.
    + split; [done|set_solver].
    + intros x ->%list_elem_of_singleton. eexists. by rewrite list_elem_of_singleton.
    + intros _ c ->%list_elem_of_singleton _ _. right. set_solver.
  - cbn [pending_certificates Tm.with_inner inner Tm.with_missing]. rewrite (bool_decide_true (_ = None)) by done.
    cbn [assert_ mbind outcome_bind]. eexists _, _, []. split; [reflexivity|]. split; cbn; try done.
    + apply enter_ok; try done. intros k k' Hk Hk'. apply Hids; by apply (unavailable_subset av).
    + split; [by apply insert_subseteq|done].
    + intros d p. destruct (decide (cert_digest cert = d)) as [<-|Hne].
      * rewrite lookup_insert_eq. intros [= <-]. right. eexists. by rewrite list_elem_of_singleton.
      * rewrite lookup_insert_ne by done. by left.
    + by rewrite app_nil_r.
    + by intros x ?%elem_of_nil.
    + intros _ c ->%list_elem_of_singleton _ _. left. cbn. rewrite lookup_insert_eq. by eexists.
Qed.

Lemma enqueued_cons s av c certs m m1 m2 r new1 new2 :
  enqueued s av [c] m (Ok tt) m1 new1 → enqueued s av certs m1 r m2 new2 →
  enqueued s av (c :: certs) m r m2 (new1 ++ new2).
Proof.
  intros H1 H2. destruct (en_kept _ _ _ _ _ _ _ H1) as [Hk1 Hx1], (en_kept _ _ _ _ _ _ _ H2) as [Hk2 Hx2]. split.
  - apply (en_ok _ _ _ _ _ _ _ H2).
  - by rewrite (en_cache _ _ _ _ _ _ _ H2), (en_cache _ _ _ _ _ _ _ H1).
  - by rewrite (en_epoch _ _ _ _ _ _ _ H2), (en_epoch _ _ _ _ _ _ _ H1).
  - split; by etrans.
  - intros d p [Hp|(c' & Hc' & ->)]%(en_pending _ _ _ _ _ _ _ H2); [|right; exists c'; split; [by right|done]].
    destruct (en_pending _ _ _ _ _ _ _ H1 d p Hp) as [?|(c' & ->%list_elem_of_singleton & ->)]; [by left|].
    right. exists c. split; [left|done].
  - by rewrite (en_ready _ _ _ _ _ _ _ H2), (en_ready _ _ _ _ _ _ _ H1), app_assoc.
  - intros x [(c' & ->%list_elem_of_singleton & Hc)%(en_new _ _ _ _ _ _ _ H1)|(c' & Hc' & Hc)%(en_new _ _ _ _ _ _ _ H2)]%elem_of_app.
    + exists c. split; [left|done].
    + exists c'. split; [by right|done].
  - intros Hr c' [->|Hc']%elem_of_cons Hep Hex.
    + destruct (en_all _ _ _ _ _ _ _ H1 eq_refl c) as [[p Hp]|Hx]; [left|done..| |].
      * left. exists p. by apply (lookup_weaken _ _ _ _ Hp).
      * right. by apply Hx2.
    + apply (en_all _ _ _ _ _ _ _ H2 Hr c'); [done| |done]. by rewrite (en_epoch _ _ _ _ _ _ _ H1).
Qed.

Lemma enqueue_all_ok s now av m certs :
  tm_ok (inner m) → (∀ c, c ∈ certs → well_formed av c) →
  ∃ r m' new, Tm.enqueue_all s now av m certs = Ret (r, m') ∧ enqueued s av certs m r m' new.
Proof.
  revert m. induction certs as [|c certs IH]; intros m Hm Hwf; cbn [Tm.enqueue_all].
  { exists (Ok tt), m, []. split; [done|]. split; try done; [by auto|by rewrite app_nil_r|by intros x ?%elem_of_nil|].
    by intros _ c ?%elem_of_nil. }
  destruct (enqueue_one_ok s now av m c Hm (Hwf c ltac:(left))) as (r1 & m1 & new1 & -> & H1).
  cbn [mbind outcome_bind fst snd]. destruct r1 as [[]|e].
  - destruct (IH m1 (en_ok _ _ _ _ _ _ _ H1)) as (r & m' & new & -> & H2); [intros; apply Hwf; by right|].
    exists r, m', (new1 ++ new). split; [done|]. by eapply enqueued_cons.
  - exists (Err e), m1, new1. split; [done|]. destruct H1. split; try done.
    + intros d p [?|(c' & ->%list_elem_of_singleton & ->)]%en_pending0; [by left|]. right. exists c. split; [left|done].
    + intros x (c' & ->%list_elem_of_singleton & Hx)%en_new0. exists c. split; [left|done].
Qed.
End enqueueing.

(** ** The second half of [enqueue_impl] *)

Section finishing.
Context `{!LruCache} `{!LruLaws}.
Implicit Types (m : TransactionManager) (k : InputKey) (av : gmap InputKey (option bool)).

Abbreviation cache_of m := (available_objects_cache (inner m)).

(** The answers fill the gaps of [av]. *)
Definition complete av (answers : list (bool * InputKey)) : Prop :=
  NoDup answers.*2 ∧ (∀ b k, (b, k) ∈ answers → is_Some (av !! k)) ∧
  ∀ k, av !! k = Some None → k ∈ answers.*2.

(** What is taken for available after the second look, and why. *)
Definition resolved av (answers : list (bool * InputKey)) (a : AvailableObjectsCache) (av' : gmap InputKey (option bool)) : Prop :=
  ∀ k, is_Some (av !! k) → ∃ b : bool, av' !! k = Some (Some b) ∧
    if b then av !! k = Some (Some true) ∨ (true, k) ∈ answers ∨ says a k = Some true
    else (av !! k = Some (Some false) ∨ (false, k) ∈ answers) ∧ says a k ≠ Some true.

Lemma resolve_ok av answers a :
  complete av answers → unbounded_cache_enabled a ≠ 0 →
  ∃ av1 a1 av' a', Tm.apply_answers answers a av = Ret (av1, a1) ∧
    Tm.recheck (map_to_list av1).*1 a1 av1 = Ret (av', a') ∧ resolved av answers a1 av' ∧ same_entries a1 a' ∧
    known_versions a1 = known_versions a ∧ unbounded_cache_enabled a1 = unbounded_cache_enabled a ∧
    known_packages a ⊆ known_packages a1 ∧
    (∀ id, is_Some (known_packages a1 !! id) → is_Some (known_packages a !! id) ∨ (true, PackageKey id) ∈ answers).
Proof.
  intros (Hnd & Hdom & Hall) Hu.
  destruct (apply_answers_spec answers a av Hdom Hu Hnd) as (av1 & a1 & Hap & Hav & Hav' & Hv & Hu1 & Hp & Hp').
  assert (∀ k, is_Some (av1 !! k) → is_Some (av !! k) ∧ ∃ b, av1 !! k = Some (Some b) ∧
    (av !! k = Some (Some b) ∨ (b, k) ∈ answers)) as Hk.
  { intros k Hs. destruct (decide (k ∈ answers.*2)) as [Hin|Hout].
    - apply list_elem_of_fmap in Hin as ([b k'] & -> & Hin). cbn in *. split; [by apply (Hdom b)|]. exists b. auto.
    - rewrite (Hav' k Hout) in Hs |- *. split; [done|]. destruct Hs as [[b|] Hb]; [eauto|]. by apply Hall in Hb. }
  destruct (recheck_spec (map_to_list av1).*1 a1 av1) as (av' & a' & Hre & Hs & Hl).
  { apply NoDup_fst_map_to_list. }
  { intros k ([k' o] & -> & Ho%elem_of_map_to_list)%list_elem_of_fmap. cbn.
    destruct (Hk k' ltac:(by eexists)) as [_ (b & Hb & _)]. eauto. }
  exists av1, a1, av', a'. split_and!; [done..| |done|done|done|done|done].
  intros k Hsome.
  assert (is_Some (av1 !! k)) as Hsome1.
  { destruct (decide (k ∈ answers.*2)) as [Hin|Hout]; [|by rewrite Hav'].
    apply list_elem_of_fmap in Hin as ([b k'] & -> & Hin). cbn. rewrite (Hav b k' Hin). by eexists. }
  destruct (Hk k Hsome1) as (_ & b & Hb & Hwhy).
  assert (k ∈ (map_to_list av1).*1) as Hin.
  { apply list_elem_of_fmap. exists (k, Some b). split; [done|]. by apply elem_of_map_to_list. }
  rewrite Hl, Hb. destruct b.
  - exists true. rewrite bool_decide_false by naive_solver. naive_solver.
  - case_bool_decide as Hc; [exists true|exists false]; naive_solver.
Qed.

Lemma finish_ok s now certs av answers m :
  tm_ok (inner m) → 0 < unbounded_cache_enabled (cache_of m) → complete av answers →
  (∀ c, c ∈ certs → distinct_ids c.2 ∧ ∀ k, k ∈ c.2 → is_Some (av !! k)) →
  ∃ r m' m1 a1 av' new, Tm.finish s now certs av answers m = Ret (r, m') ∧
    enqueued s av' certs m1 r m' new ∧ resolved av answers a1 av' ∧
    tx_ready_certificates m1 = tx_ready_certificates m ∧
    pending_certificates (inner m1) = pending_certificates (inner m) ∧ epoch (inner m1) = epoch (inner m) ∧
    known_versions a1 = known_versions (cache_of m) ∧ known_packages (cache_of m) ⊆ known_packages a1 ∧
    known_versions (cache_of m') = known_versions a1 ∧ known_packages (cache_of m') = known_packages a1 ∧
    unbounded_cache_enabled (cache_of m') = unbounded_cache_enabled (cache_of m) - 1 ∧
    (∀ id, is_Some (known_packages a1 !! id) → is_Some (known_packages (cache_of m) !! id) ∨ (true, PackageKey id) ∈ answers).
Proof.
  intros Hm Hu Hcomp Hcerts.
  destruct (resolve_ok av answers (cache_of m) Hcomp ltac:(lia)) as (av1 & a1 & av' & a' & Ha & Hr & Hres & Hs & Hv & Hu1 & Hp & Hp').
  unfold Tm.finish. rewrite Ha. cbn [mbind outcome_bind fst snd]. rewrite Hr. cbn [mbind outcome_bind].
  unfold Cache.disable_unbounded_cache. rewrite (se_unbounded _ _ Hs), Hu1.
  destruct (Z.ltb_spec 0 (unbounded_cache_enabled (cache_of m))); [|lia]. cbn [assert_ mbind outcome_bind].
  set (m1 := Tm.with_inner m (Tm.with_cache (inner m) _)).
  destruct (enqueue_all_ok s now av' m1 certs) as (r & m' & new & -> & Hen).
  { by apply tm_ok_cache. }
  { intros c Hc. destruct (Hcerts c Hc) as [Hids Hdom]. split; [done|]. intros k Hk.
    destruct (Hres k (Hdom k Hk)) as (b & Hb & _). eauto. }
  pose proof (en_cache _ _ _ _ _ _ _ Hen) as Hc.
  exists r, m', m1, a1, av', new. split_and!; try done.
  - unfold known_versions. rewrite Hc. apply (se_versions _ _ Hs).
  - unfold known_packages. rewrite Hc. apply (se_packages _ _ Hs).
  - by rewrite Hc.
Qed.
End finishing.

(** * An implementation of the cache *)

(** Entries with the time of their last use, and the clock. *)
Module Lru.
Record cache (V : Type) := mkLru { slots : gmap Z (Z * V); clock : Z }.
Arguments mkLru {V}.
Arguments slots {V}.
Arguments clock {V}.

Definition touch {V} (k : Z) (v : V) (c : cache V) : cache V := mkLru (<[k := (clock c, v)]> (slots c)) (clock c + 1).

Definition get {V} (k : Z) (c : cache V) : option V * cache V :=
  match slots c !! k with Some e => (Some e.2, touch k e.2 c) | None => (None, c) end.

Definition push {V} (k : Z) (v : V) (c : cache V) : option (Z * V) * cache V :=
  ((λ e, (k, e.2)) <$> slots c !! k, touch k v c).

(** The entry used least recently. *)
Fixpoint oldest {V} (l : list (Z * (Z * V))) : option (Z * (Z * V)) :=
  match l with
  | [] => None
  | e :: l => match oldest l with Some o => if o.2.1 <? e.2.1 then Some o else Some e | None => Some e end
  end.

Definition pop {V} (c : cache V) : cache V :=
  match oldest (map_to_list (slots c)) with Some o => mkLru (delete o.1 (slots c)) (clock c) | None => c end.
End Lru.

Definition stamped_lru : LruCache := {|
  lru := Lru.cache; lru_unbounded _ := Lru.mkLru ∅ 0; lru_len _ c := size (Lru.slots c);
  lru_push _ := Lru.push; lru_put _ := Lru.touch; lru_get _ := Lru.get; lru_pop _ := Lru.pop;
|}.

Lemma oldest_elem {V} (l : list (Z * (Z * V))) : l ≠ [] → ∃ o, Lru.oldest l = Some o ∧ o ∈ l.
Proof.
  induction l as [|e l IH]; [done|]. intros _. cbn. destruct l as [|e' l']; [exists e; split; [done|left]|].
  destruct IH as (o & -> & Ho); [done|]. destruct (o.2.1 <? e.2.1); eexists; (split; [done|]); [by right|left].
Qed.

Definition stamped_entries {V} (c : Lru.cache V) : gmap Z V := snd <$> Lru.slots c.

Lemma touch_entries {V} k (v : V) c : stamped_entries (Lru.touch k v c) = <[k := v]> (stamped_entries c).
Proof. unfold stamped_entries. cbn. by rewrite fmap_insert. Qed.

#[export] Instance stamped_laws : @LruLaws stamped_lru.
Proof.
  apply (Build_LruLaws stamped_lru (@stamped_entries)); cbn; intros V.
  - reflexivity.
  - intros c. unfold stamped_entries. by rewrite map_size_fmap.
  - apply @touch_entries.
  - intros k v c. unfold Lru.push, stamped_entries. cbn. rewrite lookup_fmap. by destruct (Lru.slots c !! k).
  - apply @touch_entries.
  - intros k c. unfold Lru.get. destruct (Lru.slots c !! k) as [e|] eqn:He; [|done]. cbn [snd]. rewrite touch_entries.
    apply insert_id. unfold stamped_entries. by rewrite lookup_fmap, He.
  - intros k c. unfold Lru.get, stamped_entries. rewrite lookup_fmap. by destruct (Lru.slots c !! k).
  - intros c Hne. unfold Lru.pop, stamped_entries.
    destruct (oldest_elem (map_to_list (Lru.slots c))) as ([k e] & -> & Hin%elem_of_map_to_list).
    { intros Hnil%map_to_list_empty_iff. apply Hne. unfold stamped_entries. by rewrite Hnil. }
    exists k. cbn. by rewrite lookup_fmap, fmap_delete, Hin.
Qed.

(** * A certificate that waits *)

Section start.
Context `{!LruCache}.

Lemma new_inner_ok ep : tm_ok (Tm.new_inner ep).
Proof. split; cbn; intros *; rewrite ?lookup_empty; cbn; set_solver. Qed.
End start.

Module Waiting.
#[local] Existing Instance stamped_lru.

(** The certificate needs version 5 of the object 1 and the package 7, and only the package is there. *)
Definition store : AuthorityStore :=
  mkAuthorityStore (λ _, Ok false) (λ _ _, false) (λ _, None) (λ _ _ _, false) (λ _ _ _, false) (λ id, id =? 7) (λ _, []).
Definition cert : Certificate := mkCertificate 100 0 [ImmOrOwnedMoveObject (1, 5, 11); InputMovePackage 7] [].
Definition keys : gset InputKey := {[ VersionedObject 1 5; PackageKey 7 ]}.
Definition start : TransactionManager := mkManager _ (Tm.new_inner 0) [] {[ 100 ]}.
Definition availability : gmap InputKey (option bool) :=
  {[ VersionedObject 1 5 := Some false; PackageKey 7 := Some true ]}.
Definition manager : TransactionManager :=
  match Tm.enqueue_all store 0 availability start [(cert, None, keys)] with Ret r => r.2 | _ => start end.

Lemma keys_distinct : distinct_ids keys.
Proof. intros k k'. unfold keys. rewrite !elem_of_union, !elem_of_singleton. by intros [->| ->] [->| ->]. Qed.

Lemma manager_ok : tm_ok (inner manager).
Proof.
  unfold manager. destruct (enqueue_all_ok store 0 availability start [(cert, None, keys)]) as (r & m' & new & -> & Hen).
  - apply new_inner_ok.
  - intros c ->%list_elem_of_singleton. split; [apply keys_distinct|]. intros k. unfold keys. cbn [snd].
    rewrite elem_of_union, !elem_of_singleton. intros [->| ->]; eexists; vm_compute; reflexivity.
  - apply (en_ok _ _ _ _ _ _ _ Hen).
Qed.

(** The store gives the certificate these keys. *)
Lemma keys_of_cert : Tm.input_keys store cert = Ret keys.
Proof. vm_compute. reflexivity. Qed.

Lemma manager_waits : pending_certificates (inner manager) !! 100 = Some (mkPending cert None {[ VersionedObject 1 5 ]}).
Proof. vm_compute. reflexivity. Qed.

(** Once the object is announced, the certificate is sent. *)
Lemma notify_commit_correct_witness :
  ∃ m' new, Tm.notify_commit manager 42 [VersionedObject 1 5] 0 = Ret m' ∧ tx_ready_certificates m' = new ∧
    (cert, None) ∈ new.
Proof.
  destruct (notify_commit_correct manager 42 [VersionedObject 1 5] manager_ok) as (m' & new & Heq & _ & Hr & _ & Hn & _).
  exists m', new. split_and!; [exact Heq|exact Hr|]. apply Hn. eexists _, _. split; [exact manager_waits|].
  split; [reflexivity|]. cbn [waiting_input_objects]. set_solver.
Defined.
End Waiting.
