(* ===== verification/WakeUps.v ===== *)
(** The transaction manager among the tasks that use it: certificates are enqueued while
    transactions commit and their outputs are announced, in any interleaving.

    [enqueue_impl] looks into its cache under the lock, reads the store without it, and takes
    the lock again; a transaction may commit, and be announced, at any of these points.
    The theorem is that nothing is lost: a certificate that waits for an object that is in the
    store is going to be woken up.

    A commit makes keys available in the store and queues their announcement
    ([notify_commit]); announcements are delivered in any order.  That no wake-up is lost
    needs a condition on the order, which the code does not enforce ([remembered]): the cache
    keeps the highest version only of the objects it has not evicted. *)
From S2P Require Import Prelude Objects TransactionManager.

Abbreviation Enqueued := (Certificate * option Z * gset InputKey)%type (only parsing).

(** A call of [enqueue_impl] that has released the lock: before and after it has read the store. *)
Inductive Call :=
  | Checked (certs : list Enqueued) (av : gmap InputKey (option bool))
  | Answered (certs : list Enqueued) (av : gmap InputKey (option bool)) (answers : list (bool * InputKey)).

Record System `{!LruCache} := mkSystem {
  manager : TransactionManager;
  committed : gset InputKey;
  undelivered : list (TransactionDigest * list InputKey);
  calls : list Call;
}.

(** Some announcement of [q] has the key. *)
Definition is_queued (q : list (TransactionDigest * list InputKey)) (k : InputKey) : Prop := ∃ n, n ∈ q ∧ k ∈ n.2.

(** The object has been committed, at this version or a later one. *)
Definition reached_version (c : gset InputKey) (k : InputKey) : Prop :=
  match k with
  | VersionedObject id v => ∃ v', v <= v' ∧ VersionedObject id v' ∈ c
  | PackageKey _ => k ∈ c
  end.

(** The store finds what has been committed, and nothing that has not been. *)
Definition agrees (s : AuthorityStore) (ep : Z) (c : gset InputKey) : Prop :=
  ∀ receiving k,
    (k ∈ c → Store.input_object_available s receiving ep k = true) ∧
    (Store.input_object_available s receiving ep k = true → reached_version c k).

Section system.
Context `{!LruCache} `{!LruLaws}.

(** The epoch, and the keys of a certificate: its shared locks are fixed within the epoch. *)
Variable ep : Z.
Variable keys_of : Certificate → gset InputKey.

Abbreviation cache_of m := (available_objects_cache (inner m)).

(** When a version of an object is announced after a later one has been, the cache has not
    forgotten the object: it is among the entries that have not been evicted. *)
Definition remembered (c : gset InputKey) (q : list (TransactionDigest * list InputKey)) (a : AvailableObjectsCache)
    (keys : list InputKey) : Prop :=
  ∀ before id v later, keys = before ++ VersionedObject id v :: later →
    is_Some (known_versions (foldl (λ a k, Cache.insert k a) a before) !! id) ∨
    ∀ v', VersionedObject id v' ∈ c → v < v' → is_queued q (VersionedObject id v') ∨ VersionedObject id v' ∈ later.

(** Whether only such announcements are considered, or all of them. *)
Variable steady : bool.

(** [step_start] is the first half of a call that reads the store and the shared locks without
    failure ([first_half_returns] says when); a call that panics there has not taken the lock. *)
Inductive step : System → System → Prop :=
  | step_commit st digest keys :
      step st (mkSystem _ (manager st) (list_to_set keys ∪ committed st) ((digest, keys) :: undelivered st) (calls st))
  | step_notify st q1 q2 digest keys m' :
      undelivered st = q1 ++ (digest, keys) :: q2 →
      (steady = true → remembered (committed st) (q1 ++ q2) (cache_of (manager st)) keys) →
      Tm.notify_commit (manager st) digest keys ep = Ret m' →
      step st (mkSystem _ m' (committed st) (q1 ++ q2) (calls st))
  | step_start st s certs certs1 m1 certs2 av m2 :
      Tm.filter_executed s (manager st) certs = Ret (certs1, m1) → Tm.with_keys s certs1 = Ret certs2 →
      (∀ c, c ∈ certs2 → c.2 = keys_of c.1.1 ∧ distinct_ids c.2) →
      Tm.check_cache m1 (Tm.unknown_availability certs2) = (av, m2) →
      step st (mkSystem _ m2 (committed st) (undelivered st) (Checked certs2 av :: calls st))
  | step_read st c1 c2 certs av s :
      calls st = c1 ++ Checked certs av :: c2 → agrees s ep (committed st) →
      step st (mkSystem _ (manager st) (committed st) (undelivered st)
                 (c1 ++ Answered certs av (Tm.read_misses s ep certs av) :: c2))
  | step_finish st c1 c2 certs av answers s now r m' :
      calls st = c1 ++ Answered certs av answers :: c2 →
      Tm.finish s now certs av answers (manager st) = Ret (r, m') →
      step st (mkSystem _ m' (committed st) (undelivered st) (c1 ++ c2)).

Inductive reachable : System → Prop :=
  | reachable_start c pe : reachable (mkSystem _ (mkManager _ (Tm.new_inner ep) [] pe) c [] [])
  | reachable_step st st' : reachable st → step st st' → reachable st'.

(** ** The invariant *)

(** The versions that the cache knows have been committed; they are the last ones delivered. *)
Definition versions_ok (c : gset InputKey) (queued : InputKey → Prop) (a : AvailableObjectsCache) : Prop :=
  ∀ id v, known_versions a !! id = Some v → VersionedObject id v ∈ c ∧
    (steady = true → ∀ v', VersionedObject id v' ∈ c → v' <= v ∨ queued (VersionedObject id v')).
Definition packages_ok (c : gset InputKey) (a : AvailableObjectsCache) : Prop :=
  ∀ id, is_Some (known_packages a !! id) → PackageKey id ∈ c.

(** A key that was not available: if it is by now, its announcement is still to come, or the
    cache has seen it. *)
Definition missed_ok (c : gset InputKey) (queued : InputKey → Prop) (a : AvailableObjectsCache) (k : InputKey) : Prop :=
  steady = true → k ∈ c → queued k ∨ says a k = Some true.

(** What a call has found out so far is still true enough. *)
Definition found_ok c queued a (certs : list Enqueued) (av : gmap InputKey (option bool)) : Prop :=
  (∀ x, x ∈ certs → x.2 = keys_of x.1.1 ∧ distinct_ids x.2 ∧ ∀ k, k ∈ x.2 → is_Some (av !! k)) ∧
  (∀ k, av !! k = Some (Some false) → missed_ok c queued a k) ∧
  (∀ k, av !! k = Some (Some true) → reached_version c k).

Definition call_ok c queued a (call : Call) : Prop :=
  match call with
  | Checked certs av => found_ok c queued a certs av
  | Answered certs av answers =>
      found_ok c queued a certs av ∧ complete av answers ∧
      (∀ k, (false, k) ∈ answers → missed_ok c queued a k) ∧
      (∀ k, (true, k) ∈ answers → reached_version c k)
  end.

Record sys_ok (st : System) : Prop := {
  sy_tm : tm_ok (inner (manager st));
  sy_epoch : epoch (inner (manager st)) = ep;
  sy_unbounded : unbounded_cache_enabled (cache_of (manager st)) = Z.of_nat (length (calls st));
  sy_versions : versions_ok (committed st) (is_queued (undelivered st)) (cache_of (manager st));
  sy_packages : packages_ok (committed st) (cache_of (manager st));
  sy_queue : ∀ k, is_queued (undelivered st) k → k ∈ committed st;
  sy_waiting : steady = true → ∀ d p k, pending_certificates (inner (manager st)) !! d = Some p → k ∈ waiting_input_objects p →
    k ∈ committed st → is_queued (undelivered st) k;
  sy_inputs : ∀ d p k, pending_certificates (inner (manager st)) !! d = Some p → k ∈ keys_of (certificate p) →
    k ∈ waiting_input_objects p ∨ reached_version (committed st) k;
  sy_sent : ∀ x k, x ∈ tx_ready_certificates (manager st) → k ∈ keys_of x.1 → reached_version (committed st) k;
  sy_calls : ∀ call, call ∈ calls st → call_ok (committed st) (is_queued (undelivered st)) (cache_of (manager st)) call;
}.

Lemma reached_committed c k : k ∈ c → reached_version c k.
Proof. destruct k as [id v|id]; cbn; [|done]. intros Hk. exists v. split; [lia|done]. Qed.

Lemma reached_mono c c' k : c ⊆ c' → reached_version c k → reached_version c' k.
Proof. destruct k as [id v|id]; cbn; [|set_solver]. intros Hc (v' & Hv & Hin). exists v'. split; [done|set_solver]. Qed.

(** What the cache says to be available has been committed. *)
Lemma says_reached c queued a k :
  versions_ok c queued a → packages_ok c a → says a k = Some true → reached_version c k.
Proof.
  intros Hv Hp. destruct k as [id v|id]; cbn.
  - destruct (known_versions a !! id) as [cur|] eqn:Hcur; [|done]. cbn. intros [= Hle%Z.leb_le].
    exists cur. split; [done|]. by destruct (Hv id cur Hcur).
  - destruct (known_packages a !! id) eqn:Hid; [|done]. intros _. apply Hp. by eexists.
Qed.

(** What it says not to be available has not been delivered. *)
Lemma says_missed c queued a k : versions_ok c queued a → says a k = Some false → missed_ok c queued a k.
Proof.
  intros Hv. destruct k as [id v|id]; cbn; [|by destruct (known_packages a !! id)].
  destruct (known_versions a !! id) as [cur|] eqn:Hcur; [|done]. cbn. intros [= Hlt%Z.leb_gt] Hs Hin.
  destruct (Hv id cur Hcur) as [_ Hq]. destruct (Hq Hs v Hin); [lia|by left].
Qed.

Lemma call_ok_mono c c' (q q' : InputKey → Prop) a a' call :
  c ⊆ c' → (∀ k, missed_ok c q a k → missed_ok c' q' a' k) → call_ok c q a call → call_ok c' q' a' call.
Proof.
  intros Hc Hm. assert (∀ certs av, found_ok c q a certs av → found_ok c' q' a' certs av) as Hf.
  { intros certs av (H1 & H2 & H3). split_and!; [done|auto|]. intros k Hk. by eapply reached_mono, H3. }
  destruct call as [certs av|certs av answers]; [apply Hf|]. intros (H1 & H2 & H3 & H4).
  split_and!; [by apply Hf|done|auto|]. intros k Hk. by eapply reached_mono, H4.
Qed.

(** ** Announcements reach the cache *)

Lemma insert_versions_ok c (q q' : InputKey → Prop) k a :
  versions_ok c q a → k ∈ c → (∀ x, q x → q' x ∨ x = k) →
  (∀ id v, steady = true → k = VersionedObject id v → is_Some (known_versions a !! id) ∨
     ∀ v', VersionedObject id v' ∈ c → v < v' → q' (VersionedObject id v')) →
  versions_ok c q' (Cache.insert k a).
Proof.
  intros Hv Hk Hq Hord id v Hid. destruct (cache_insert_spec k a) as (Hsub & _).
  apply (lookup_weaken _ _ _ _ Hid), learn_versions_lookup in Hsub.
  assert (known_versions a !! id = Some v → (∀ v0, k ≠ VersionedObject id v0) → VersionedObject id v ∈ c ∧
    (steady = true → ∀ v', VersionedObject id v' ∈ c → v' <= v ∨ q' (VersionedObject id v'))) as Hold.
  { intros Hv0 Hne. destruct (Hv id v Hv0) as [Hin Hall]. split; [done|]. intros Hs v' Hv'.
    destruct (Hall Hs v' Hv') as [?|Hq0]; [by left|]. destruct (Hq _ Hq0) as [?|Heq]; [by right|]. by destruct (Hne v'). }
  destruct Hsub as [[Hv0 Hne]|[[Hv0 Hpk]|(v0 & -> & ->)]].
  - apply Hold; [done|]. intros v0 ->. by apply Hne.
  - apply Hold; [done|]. intros v0 ->. discriminate Hpk.
  - destruct (known_versions a !! id) as [cur|] eqn:Hcur; cbn.
    + destruct (Hv id cur Hcur) as [Hin Hall]. split; [by destruct (Z.max_spec v0 cur) as [[_ ->]|[_ ->]]|].
      intros Hs v' Hv'. destruct (Hall Hs v' Hv') as [?|Hq0]; [left; lia|].
      destruct (Hq _ Hq0) as [?|[= ->]]; [by right|left; lia].
    + rewrite Z.max_id. split; [done|]. intros Hs v' Hv'. destruct (Z.le_gt_cases v' v0); [by left|].
      right. destruct (Hord id v0 Hs eq_refl) as [[? Hkn]|Hlate]; [by rewrite Hcur in Hkn|]. by apply Hlate.
Qed.

Lemma insert_packages_ok c k a : packages_ok c a → k ∈ c → packages_ok c (Cache.insert k a).
Proof.
  intros Hp Hk id [[] Hid]. destruct (cache_insert_spec k a) as (_ & Hsub & _).
  apply (lookup_weaken _ _ _ _ Hid) in Hsub. destruct k as [id' v'|id']; cbn in Hsub; [by apply Hp; eexists|].
  destruct (decide (id' = id)) as [->|Hne]; [done|]. rewrite lookup_insert_ne in Hsub by done. apply Hp. by eexists.
Qed.

(** An unbounded cache forgets nothing and learns what is inserted. *)
Lemma insert_says k a x :
  unbounded_cache_enabled a ≠ 0 → says a x = Some true ∨ x = k → says (Cache.insert k a) x = Some true.
Proof.
  intros Hu Hx. destruct (cache_insert_spec k a) as (_ & _ & _ & Hk & _). destruct (Hk Hu) as [Hv Hp].
  unfold says. rewrite Hv, Hp. destruct x as [id v|id].
  - destruct k as [id' v'|id']; cbn; [|by destruct Hx].
    destruct (decide (id' = id)) as [->|Hne].
    + rewrite lookup_insert_eq. cbn. f_equal. apply Z.leb_le. destruct Hx as [Hx|[= ->]]; [|lia].
      cbn in Hx. destruct (known_versions a !! id) as [cur|]; [|done]. cbn in Hx |- *. injection Hx as Hx%Z.leb_le. lia.
    + rewrite lookup_insert_ne by done. by destruct Hx as [Hx|[= -> ->]].
  - destruct k as [id' v'|id']; cbn; [by destruct Hx|].
    destruct (decide (id' = id)) as [->|Hne]; [by rewrite lookup_insert_eq|].
    rewrite lookup_insert_ne by done. by destruct Hx as [Hx|[= ->]].
Qed.

Lemma inserts_ok c q keys a :
  versions_ok c (λ k, is_queued q k ∨ k ∈ keys) a → packages_ok c a → (∀ k, k ∈ keys → k ∈ c) →
  (steady = true → remembered c q a keys) →
  let a' := foldl (λ a k, Cache.insert k a) a keys in
  versions_ok c (is_queued q) a' ∧ packages_ok c a' ∧ unbounded_cache_enabled a' = unbounded_cache_enabled a ∧
  (unbounded_cache_enabled a ≠ 0 → ∀ x, says a x = Some true ∨ x ∈ keys → says a' x = Some true).
Proof.
  revert a. induction keys as [|k keys IH]; intros a Hv Hp Hc Hord; cbn [foldl].
  { split_and!; [|done..|]; [|by intros _ x [?|?%elem_of_nil]].
    intros id v Hid. destruct (Hv id v Hid) as [Hin Hall]. split; [done|]. intros Hs v' Hv'.
    destruct (Hall Hs v' Hv') as [?|[?|?%elem_of_nil]]; auto. done. }
  destruct (cache_insert_spec k a) as (_ & _ & Hun & _). destruct (IH (Cache.insert k a)) as (Hv' & Hp' & Hu' & Hs').
  - eapply insert_versions_ok; [exact Hv|apply Hc; left|..].
    + intros x. cbn. rewrite elem_of_cons. tauto.
    + intros id v Hs ->. apply (Hord Hs [] id v keys eq_refl).
  - apply insert_packages_ok; [done|]. apply Hc. left.
  - intros x Hx. apply Hc. by right.
  - intros Hs l1 id v l2 ->. apply (Hord Hs (k :: l1) id v l2 eq_refl).
  - split_and!; [done..|by rewrite Hu'|]. intros Hu x Hx. rewrite Hun in Hs'. apply (Hs' Hu).
    rewrite elem_of_cons in Hx. destruct Hx as [Hx|[->|Hx]]; [left..|by right]; apply insert_says; auto.
Qed.

(** ** Every step keeps the invariant *)

Lemma is_queued_cons n q k : is_queued (n :: q) k ↔ k ∈ n.2 ∨ is_queued q k.
Proof. unfold is_queued. setoid_rewrite elem_of_cons. naive_solver. Qed.

Lemma is_queued_middle q1 n q2 k : is_queued (q1 ++ n :: q2) k ↔ is_queued (q1 ++ q2) k ∨ k ∈ n.2.
Proof. unfold is_queued. setoid_rewrite elem_of_app. setoid_rewrite elem_of_cons. naive_solver. Qed.

Lemma commit_ok st digest keys :
  sys_ok st →
  sys_ok (mkSystem _ (manager st) (list_to_set keys ∪ committed st) ((digest, keys) :: undelivered st) (calls st)).
Proof.
  intros Hst. set (c' := list_to_set keys ∪ committed st).
  assert (∀ k, k ∈ c' ↔ k ∈ keys ∨ k ∈ committed st) as Hc' by (intros k; subst c'; rewrite elem_of_union, elem_of_list_to_set; done).
  assert (committed st ⊆ c') as Hsub by (subst c'; set_solver).
  split; cbn [manager committed undelivered calls].
  - apply (sy_tm _ Hst).
  - apply (sy_epoch _ Hst).
  - apply (sy_unbounded _ Hst).
  - intros id v Hid. destruct (sy_versions _ Hst id v Hid) as [Hin Hall]. split; [by apply Hsub|].
    intros Hs v' Hv'. rewrite is_queued_cons. cbn. apply Hc' in Hv' as [?|Hv']; [tauto|]. destruct (Hall Hs v' Hv'); tauto.
  - intros id Hid. by apply Hsub, (sy_packages _ Hst).
  - intros k. rewrite is_queued_cons, Hc'. cbn. intros [?|Hq]; [by left|right]. by apply (sy_queue _ Hst).
  - intros Hs d p k Hp Hk. rewrite is_queued_cons, Hc'. cbn. intros [?|Hin]; [by left|right]. by apply (sy_waiting _ Hst Hs d p).
  - intros d p k Hp Hk. destruct (sy_inputs _ Hst d p k Hp Hk) as [?|?]; [by left|right]. by eapply reached_mono.
  - intros x k Hx Hk. eapply reached_mono; [exact Hsub|]. by apply (sy_sent _ Hst x).
  - intros call Hcall. eapply call_ok_mono; [exact Hsub| |by apply (sy_calls _ Hst)].
    intros k Hm Hs Hk. rewrite is_queued_cons. cbn. apply Hc' in Hk as [?|Hk]; [tauto|]. destruct (Hm Hs Hk); tauto.
Qed.

Lemma notify_ok st q1 q2 digest keys :
  sys_ok st → undelivered st = q1 ++ (digest, keys) :: q2 →
  ∃ m', Tm.notify_commit (manager st) digest keys ep = Ret m' ∧
    ((steady = true → remembered (committed st) (q1 ++ q2) (cache_of (manager st)) keys) →
     sys_ok (mkSystem _ m' (committed st) (q1 ++ q2) (calls st))).
Proof.
  intros Hst Hq. rewrite <- (sy_epoch _ Hst).
  destruct (notify_woken (manager st) digest keys (sy_tm _ Hst)) as (m1 & m' & new & Heq & Hw & Hok & Hc & He & Hp & Hr & _).
  exists m'. split; [done|]. intros Hord.
  assert (∀ k, is_queued (undelivered st) k ↔ is_queued (q1 ++ q2) k ∨ k ∈ keys) as Hqk
    by (intros k; by rewrite Hq, is_queued_middle).
  assert (∀ k, k ∈ keys → k ∈ committed st) as Hkc by (intros k Hk; apply (sy_queue _ Hst), Hqk; by right).
  destruct (inserts_ok (committed st) (q1 ++ q2) keys (cache_of (manager st))) as (Hv' & Hp' & Hu' & Hs'); [| |done..|].
  { intros id v Hid. destruct (sy_versions _ Hst id v Hid) as [Hin Hall]. split; [done|]. intros Hs v' Hv'.
    rewrite <- Hqk. by apply Hall. }
  { apply (sy_packages _ Hst). }
  rewrite <- (wk_cache _ _ _ _ Hw), <- Hc in Hv', Hp', Hu', Hs'.
  split; cbn [manager committed undelivered calls].
  - done.
  - by rewrite He, (sy_epoch _ Hst).
  - by rewrite Hu', (sy_unbounded _ Hst).
  - done.
  - done.
  - intros k Hk. apply (sy_queue _ Hst), Hqk. by left.
  - intros Hs d p' k Hd Hk Hin. rewrite Hp in Hd. apply (wk_pending _ _ _ _ Hw) in Hd as (p & Hd & -> & _).
    cbn in Hk. apply elem_of_difference in Hk as [Hk Hn]. rewrite elem_of_list_to_set in Hn.
    destruct (proj1 (Hqk k) (sy_waiting _ Hst Hs d p k Hd Hk Hin)); [done|by destruct Hn].
  - intros d p' k Hd Hk. rewrite Hp in Hd. apply (wk_pending _ _ _ _ Hw) in Hd as (p & Hd & -> & _). cbn in Hk |- *.
    destruct (sy_inputs _ Hst d p k Hd Hk) as [Hwk|?]; [|by right]. destruct (decide (k ∈ keys)) as [Hin|Hout].
    + right. by apply reached_committed, Hkc.
    + left. rewrite elem_of_difference, elem_of_list_to_set. done.
  - intros x k Hx Hk. rewrite Hr, (wk_ready _ _ _ _ Hw), elem_of_app in Hx. destruct Hx as [Hx|Hx].
    { by apply (sy_sent _ Hst x). }
    apply (wk_new _ _ _ _ Hw) in Hx as (d & p & Hd & -> & Hsub). cbn in Hk.
    destruct (sy_inputs _ Hst d p k Hd Hk) as [Hwk|?]; [|done]. apply reached_committed, Hkc.
    apply Hsub in Hwk. by rewrite elem_of_list_to_set in Hwk.
  - intros call Hcall. eapply call_ok_mono; [done| |by apply (sy_calls _ Hst)]. intros k Hm Hs Hk.
    assert (unbounded_cache_enabled (cache_of (manager st)) ≠ 0) as Hu.
    { rewrite (sy_unbounded _ Hst). destruct (calls st); [by apply elem_of_nil in Hcall|cbn; lia]. }
    specialize (Hs' Hu k). destruct (Hm Hs Hk) as [[?|?]%Hqk|?]; auto.
Qed.

Lemma filter_executed_inner s m certs certs1 m1 :
  Tm.filter_executed s m certs = Ret (certs1, m1) →
  inner m1 = inner m ∧ tx_ready_certificates m1 = tx_ready_certificates m.
Proof.
  revert m certs1 m1. induction certs as [|[cert fx] certs IH]; intros m certs1 m1; cbn [Tm.filter_executed].
  { by intros [= <- <-]. }
  destruct (is_tx_already_executed s (cert_digest cert)) as [[]|]; [|..|done]; cbn.
  - intros Heq%IH. done.
  - destruct (Tm.filter_executed s m certs) as [[certs2 m2]| |] eqn:Hf; cbn; [|done..].
    intros [= <- <-]. by apply (IH m certs2).
Qed.

(** The first half under the lock. *)
Lemma check_cache_ok m certs av m2 :
  Tm.check_cache m (Tm.unknown_availability certs) = (av, m2) →
  (∃ a2, m2 = Tm.with_inner m (Tm.with_cache (inner m) (Cache.enable_unbounded_cache a2)) ∧ same_entries (cache_of m) a2) ∧
  (∀ c k, c ∈ certs → k ∈ c.2 → is_Some (av !! k)) ∧
  ∀ k b, av !! k = Some (Some b) → says (cache_of m) k = Some b.
Proof.
  unfold Tm.check_cache. set (un := Tm.unknown_availability certs).
  destruct (lookup_cache_spec (map_to_list un).*1 (cache_of m) un) as [Hs Hl].
  destruct (Tm.lookup_cache _ _ un) as [av0 a2]. cbn in Hs, Hl. intros [= <- <-].
  assert (∀ k, un !! k = if decide (k ∈ ⋃ (snd <$> certs)) then Some None else None) as Hun.
  { intros k. subst un. unfold Tm.unknown_availability. rewrite lookup_gset_to_gmap.
    case_decide; [by rewrite option_guard_True|by rewrite option_guard_False]. }
  split_and!; [by exists a2| |].
  - intros c k Hc Hk. rewrite Hl, Hun.
    rewrite decide_True by (apply elem_of_union_list; exists c.2; split; [by apply list_elem_of_fmap_2|done]).
    case_bool_decide; [destruct (says (cache_of m) k)|]; by eexists.
  - intros k b. rewrite Hl, Hun. repeat case_match; naive_solver.
Qed.

Lemma start_ok st s certs certs1 m1 certs2 av m2 :
  sys_ok st → Tm.filter_executed s (manager st) certs = Ret (certs1, m1) →
  (∀ c, c ∈ certs2 → c.2 = keys_of c.1.1 ∧ distinct_ids c.2) →
  Tm.check_cache m1 (Tm.unknown_availability certs2) = (av, m2) →
  sys_ok (mkSystem _ m2 (committed st) (undelivered st) (Checked certs2 av :: calls st)).
Proof.
  intros Hst Hf Hc2 Hcc. apply filter_executed_inner in Hf as [Hi Hr].
  apply check_cache_ok in Hcc as ((a2 & -> & Hs) & Hdom & Hav). rewrite Hi in Hs, Hav.
  destruct Hs as [Hsv Hsp Hsu].
  assert (∀ k, says (cache_of (manager st)) k = says (Cache.enable_unbounded_cache a2) k) as Hsays.
  { intros k. unfold says, known_versions, known_packages in *. cbn. by rewrite Hsv, Hsp. }
  split; cbn [manager committed undelivered calls]; cbn -[says]; rewrite ?Hi, ?Hr; try apply Hst.
  - apply tm_ok_cache, Hst.
  - rewrite Hsu, (sy_unbounded _ Hst). cbn. lia.
  - intros id v. unfold known_versions in *. cbn. rewrite Hsv. apply (sy_versions _ Hst).
  - intros id. unfold known_packages in *. cbn. rewrite Hsp. apply (sy_packages _ Hst).
  - assert (∀ k, missed_ok (committed st) (is_queued (undelivered st)) (cache_of (manager st)) k →
      missed_ok (committed st) (is_queued (undelivered st)) (Cache.enable_unbounded_cache a2) k) as Hm
      by (intros k; unfold missed_ok; by rewrite Hsays).
    intros call [->|Hcall]%elem_of_cons; [|eapply call_ok_mono; [done|exact Hm|by apply (sy_calls _ Hst)]].
    split_and!.
    + intros x Hx. destruct (Hc2 x Hx). split_and!; [done..|]. intros k. by apply Hdom.
    + intros k Hk. by eapply Hm, says_missed, Hav; [apply (sy_versions _ Hst)|].
    + intros k Hk. by eapply says_reached, Hav; [apply (sy_versions _ Hst)|apply (sy_packages _ Hst)|].
Qed.

Lemma omap_fst_NoDup {A B} (f : A * B → option A) (l : list (A * B)) :
  NoDup l.*1 → (∀ e x, f e = Some x → x = e.1) → NoDup (omap f l).
Proof.
  intros Hnd Hf. assert (omap f l `sublist_of` l.*1) as Hsub; [|by eapply sublist_NoDup].
  clear Hnd. induction l as [|e l IH]; cbn; [constructor|].
  destruct (f e) as [x|] eqn:He; [|by constructor]. rewrite (Hf e x He). by constructor.
Qed.

(** The gaps and the answers of the store. *)
Lemma read_misses_ok s certs av :
  complete av (Tm.read_misses s ep certs av) ∧
  ∀ b k, (b, k) ∈ Tm.read_misses s ep certs av → ∃ receiving, Store.input_object_available s receiving ep k = b.
Proof.
  unfold Tm.read_misses. rewrite multi_available_eq.
  set (ro := ⋃ _). set (ms := Tm.cache_misses av).
  assert (∀ k, k ∈ ms ↔ av !! k = Some None) as Hms.
  { intros k. subst ms. unfold Tm.cache_misses. rewrite list_elem_of_omap. split.
    - intros ([k' o] & Hin%elem_of_map_to_list & He). cbn in He. destruct o; [done|]. by injection He as ->.
    - intros Hk. exists (k, None). by rewrite elem_of_map_to_list. }
  assert (NoDup ms) as Hnd.
  { apply omap_fst_NoDup; [apply NoDup_fst_map_to_list|]. intros [k o] x. cbn. destruct o; naive_solver. }
  assert ((zip (Store.input_object_available s ro ep <$> ms) ms).*2 = ms) as Hz
    by (apply snd_zip; by rewrite length_fmap).
  split.
  - unfold complete. rewrite Hz. split_and!; [done| |by intros k ?%Hms].
    intros b k Hin. apply (list_elem_of_fmap_2 snd) in Hin. rewrite Hz in Hin. cbn in Hin. rewrite (proj1 (Hms k) Hin). by eexists.
  - intros b k Hin. exists ro. clear -Hin. induction ms as [|k' ms IH]; cbn in Hin; [by apply elem_of_nil in Hin|].
    apply elem_of_cons in Hin as [[= -> ->]|Hin]; [done|auto].
Qed.

Lemma read_ok st c1 c2 certs av s :
  sys_ok st → calls st = c1 ++ Checked certs av :: c2 → agrees s ep (committed st) →
  sys_ok (mkSystem _ (manager st) (committed st) (undelivered st)
            (c1 ++ Answered certs av (Tm.read_misses s ep certs av) :: c2)).
Proof.
  intros Hst Hc Hag. split; cbn [manager committed undelivered calls]; try apply Hst.
  { rewrite (sy_unbounded _ Hst), Hc, !length_app. done. }
  intros call Hcall. pose proof (sy_calls _ Hst) as Hcalls. rewrite Hc in Hcalls.
  assert (call = Answered certs av (Tm.read_misses s ep certs av) ∨ call ∈ c1 ++ Checked certs av :: c2) as [->|Hin]
    by (rewrite elem_of_app, elem_of_cons in Hcall |- *; tauto); [|by apply Hcalls].
  destruct (read_misses_ok s certs av) as [Hcomp Hans].
  split_and!; [apply (Hcalls (Checked certs av)); rewrite elem_of_app, elem_of_cons; tauto|done|..].
  - intros k (ro & Hk)%Hans _ Hin. rewrite (proj1 (Hag ro k) Hin) in Hk. done.
  - intros k (ro & Hk)%Hans. by apply (Hag ro k).
Qed.

Lemma unavailable_says av keys k : k ∈ unavailable av keys → k ∈ keys ∧ av !! k = Some (Some false).
Proof. unfold unavailable. rewrite elem_of_filter. tauto. Qed.

(** What a call takes for available is, and what it takes for unavailable is announced later. *)
Lemma resolved_ok c q a a1 certs av answers av' x k :
  call_ok c q a (Answered certs av answers) → resolved av answers a1 av' →
  (∀ k, says a k = Some true → says a1 k = Some true) → (says a1 k = Some true → reached_version c k) →
  x ∈ certs → k ∈ keys_of x.1.1 →
  (k ∈ unavailable av' x.2 → steady = true → k ∈ c → q k) ∧ (k ∈ unavailable av' x.2 ∨ reached_version c k).
Proof.
  intros ((Hx & Hf & Ht) & _ & Hf' & Ht') Hres Hmono Hsay Hin Hk.
  destruct (Hx x Hin) as (Hxk & _ & Hdom). rewrite <- Hxk in Hk.
  destruct (Hres k (Hdom k Hk)) as (b & Hb & Hwhy). split.
  - intros [_ Hu]%unavailable_says Hs0 Hc. rewrite Hb in Hu. injection Hu as ->. destruct Hwhy as [Hwhy Hno].
    assert (missed_ok c q a k) as Hm by (destruct Hwhy; auto). destruct (Hm Hs0 Hc) as [?|Hs]; [done|].
    by apply Hmono in Hs.
  - destruct b; [right; destruct Hwhy as [?|[?|?]]; auto|left]. apply elem_of_filter. by rewrite Hb.
Qed.

Lemma finish_step_ok st c1 c2 certs av answers s now :
  sys_ok st → calls st = c1 ++ Answered certs av answers :: c2 →
  ∃ r m', Tm.finish s now certs av answers (manager st) = Ret (r, m') ∧
    sys_ok (mkSystem _ m' (committed st) (undelivered st) (c1 ++ c2)).
Proof.
  intros Hst Hc. pose proof (sy_calls _ Hst) as Hcalls. rewrite Hc in Hcalls.
  pose proof (Hcalls (Answered certs av answers) ltac:(rewrite elem_of_app, elem_of_cons; tauto)) as Hcall.
  destruct Hcall as ((Hx & Hf & Ht) & Hcomp & Hf' & Ht') eqn:Heq. clear Heq.
  pose proof (sy_unbounded _ Hst) as Hu. rewrite Hc, length_app in Hu. cbn in Hu.
  destruct (finish_ok s now certs av answers (manager st) (sy_tm _ Hst) ltac:(lia) Hcomp)
    as (r & m' & m1 & a1 & av' & new & Hfin & Hen & Hres & Hr1 & Hp1 & He1 & Hv1 & Hpk1 & Hv' & Hpk' & Hu' & Hpk).
  { intros x Hin. by destruct (Hx x Hin) as (_ & ? & ?). }
  exists r, m'. split; [done|].
  assert (∀ k, says a1 k = says (cache_of m') k) as Hsays by (intros k; unfold says; by rewrite Hv', Hpk').
  assert (∀ k, says (cache_of (manager st)) k = Some true → says a1 k = Some true) as Hmono.
  { intros [id v|id]; cbn; [by rewrite Hv1|]. destruct (known_packages (cache_of (manager st)) !! id) eqn:Hid; [|done].
    by rewrite (lookup_weaken _ _ _ _ Hid Hpk1). }
  assert (versions_ok (committed st) (is_queued (undelivered st)) (cache_of m')) as Hvok.
  { intros id v. rewrite Hv', Hv1. apply (sy_versions _ Hst). }
  assert (packages_ok (committed st) (cache_of m')) as Hpok.
  { intros id. rewrite Hpk'. intros [Hid|Hid]%Hpk; [by apply (sy_packages _ Hst)|by apply (Ht' (PackageKey id))]. }
  assert (∀ x k, x ∈ certs → k ∈ keys_of x.1.1 →
    (k ∈ unavailable av' x.2 → steady = true → k ∈ committed st → is_queued (undelivered st) k) ∧
    (k ∈ unavailable av' x.2 ∨ reached_version (committed st) k)) as Hdec.
  { intros x k. eapply resolved_ok; [exact Hcall|exact Hres|exact Hmono|]. rewrite Hsays. by eapply says_reached. }
  split; cbn [manager committed undelivered calls]; try done; try apply Hst.
  - apply (en_ok _ _ _ _ _ _ _ Hen).
  - by rewrite (en_epoch _ _ _ _ _ _ _ Hen), He1, (sy_epoch _ Hst).
  - rewrite Hu', Hu, length_app. lia.
  - intros Hs d p k Hd Hk Hin. apply (en_pending _ _ _ _ _ _ _ Hen) in Hd as [Hd|(x & Hxin & ->)].
    + rewrite Hp1 in Hd. by apply (sy_waiting _ Hst Hs d p).
    + cbn in Hk. destruct (Hx x Hxin) as (Hxk & _). apply (Hdec x k Hxin); [|done..]. rewrite <- Hxk.
      by apply unavailable_says in Hk as [? _].
  - intros d p k Hd Hk. apply (en_pending _ _ _ _ _ _ _ Hen) in Hd as [Hd|(x & Hxin & ->)].
    + rewrite Hp1 in Hd. by apply (sy_inputs _ Hst d p).
    + by apply (Hdec x k).
  - intros y k Hy Hk. rewrite (en_ready _ _ _ _ _ _ _ Hen), Hr1, elem_of_app in Hy. destruct Hy as [Hy|Hy].
    { by apply (sy_sent _ Hst y). }
    apply (en_new _ _ _ _ _ _ _ Hen) in Hy as (x & Hxin & -> & Hun).
    destruct (Hdec x k Hxin Hk) as [_ [Hk'|?]]; [|done]. rewrite Hun in Hk'. by apply elem_of_empty in Hk'.
  - intros call Hin. eapply call_ok_mono; [done| |apply Hcalls; rewrite elem_of_app in Hin; rewrite elem_of_app, elem_of_cons; tauto].
    intros k Hm Hs Hk. rewrite <- Hsays. destruct (Hm Hs Hk); auto.
Qed.

Lemma start_state_ok c pe : sys_ok (mkSystem _ (mkManager _ (Tm.new_inner ep) [] pe) c [] []).
Proof.
  assert (known_versions Cache.new = ∅) as Hv by apply entries_unbounded.
  assert (known_packages Cache.new = ∅) as Hp by apply entries_unbounded.
  split; cbn [manager committed undelivered calls Tm.new_inner inner]; cbn; try done.
  - apply new_inner_ok.
  - intros id v. rewrite Hv. by rewrite lookup_empty.
  - intros id. rewrite Hp, lookup_empty. by intros [].
  - by intros k (n & ?%elem_of_nil & _).
  - by intros x k ?%elem_of_nil.
  - by intros call ?%elem_of_nil.
Qed.

Lemma reachable_ok st : reachable st → sys_ok st.
Proof.
  induction 1 as [c pe|st st' _ Hst Hstep]; [apply start_state_ok|]. destruct Hstep as
    [st digest keys|st q1 q2 digest keys m' Hq Hord Hn|st s certs certs1 m1 certs2 av m2 Hf _ Hk Hc|st c1 c2 certs av s Hc Hag
    |st c1 c2 certs av answers s now r m' Hc Hf].
  - by apply commit_ok.
  - destruct (notify_ok st q1 q2 digest keys Hst Hq) as (m0 & Heq & Hok). rewrite Hn in Heq. injection Heq as ->. by apply Hok.
  - by eapply start_ok.
  - by apply read_ok.
  - destruct (finish_step_ok st c1 c2 certs av answers s now Hst Hc) as (r0 & m0 & Heq & Hok).
    rewrite Hf in Heq. by injection Heq as _ ->.
Qed.

(** Announcements that come in the order of the versions meet a cache that remembers enough. *)
Lemma ordered_remembered c q a keys :
  (∀ before id v later, keys = before ++ VersionedObject id v :: later →
     ∀ v', VersionedObject id v' ∈ c → v < v' → is_queued q (VersionedObject id v') ∨ VersionedObject id v' ∈ later) →
  remembered c q a keys.
Proof. intros Hord before id v later Heq. right. by apply (Hord before). Qed.

(** The store answers for the certificate, and its shared locks have been taken. *)
Definition readable (s : AuthorityStore) (cert : Certificate) : Prop :=
  (∃ b, is_tx_already_executed s (cert_digest cert) = Ok b) ∧
  ∀ id v b, SharedMoveObject id v b ∈ cert_input_objects cert →
    is_Some ((collect (get_shared_locks s (cert_digest cert)) : gmap Z Z) !! id).

Lemma input_object_keys_return s digest kinds :
  (∀ id v b, SharedMoveObject id v b ∈ kinds → is_Some ((collect (get_shared_locks s digest) : gmap Z Z) !! id)) →
  ∃ ks, Store.get_input_object_keys s digest kinds = Ret ks.
Proof.
  induction kinds as [|kind kinds IH]; intros Hl; cbn; [by eexists|].
  destruct IH as [ks ->]; [intros id v b Hin; by apply (Hl id v b); right|].
  destruct kind as [id|[[id v] d]|id v b]; cbn; [by eexists..|].
  destruct (Hl id v b ltac:(left)) as [v' ->]. by eexists.
Qed.

Lemma first_half_returns s m certs :
  Forall (readable s) certs.*1 →
  ∃ certs1 m1 certs2, Tm.filter_executed s m certs = Ret (certs1, m1) ∧ Tm.with_keys s certs1 = Ret certs2.
Proof.
  revert m. induction certs as [|[cert fx] certs IH]; intros m; cbn [fmap list_fmap].
  { intros _. by eexists [], m, []. }
  intros [[[b Hb] Hl] Hrest]%Forall_cons. cbn [Tm.filter_executed fst] in *. rewrite Hb. destruct b; [by apply IH|].
  destruct (IH m Hrest) as (certs1 & m1 & certs2 & -> & Hk).
  destruct (input_object_keys_return s (cert_digest cert) (cert_input_objects cert) Hl) as [ks Hks].
  eexists ((cert, fx) :: certs1), m1, _. split; [done|]. cbn. unfold Tm.input_keys. rewrite Hks. cbn. by rewrite Hk.
Qed.

(** C10: However enqueueing, commits and their announcements are interleaved, and in whatever
    order the announcements are delivered: no announcement and no second half of
    [enqueue_impl] panics, and its first half returns if the store can be read and the shared
    locks of the certificates have been taken; the indexes of the manager stay consistent.
    A certificate is sent only when all its inputs have been committed (at the version it
    needs, or a later one), and the inputs that a pending one does not wait for have been.
    If moreover no version of an object is announced after a later one once the cache has
    forgotten the object ([remembered]), no wake-up is lost: when a pending certificate waits
    for a key that has been committed, the announcement of this key is still to be delivered;
    in particular, a certificate is only pending while one of its inputs has not been
    committed or has not been announced.  The calls that take part are those whose keys are
    the ones of the certificates in this epoch, at most one version of every object. *)
Theorem no_lost_wakeup st :
  reachable st →
  tm_ok (inner (manager st)) ∧
  (∀ x k, x ∈ tx_ready_certificates (manager st) → k ∈ keys_of x.1 → reached_version (committed st) k) ∧
  (∀ d p k, pending_certificates (inner (manager st)) !! d = Some p → k ∈ keys_of (certificate p) →
     k ∈ waiting_input_objects p ∨ reached_version (committed st) k) ∧
  (∀ s certs, Forall (readable s) certs.*1 → ∃ certs1 m1 certs2,
     Tm.filter_executed s (manager st) certs = Ret (certs1, m1) ∧ Tm.with_keys s certs1 = Ret certs2) ∧
  (∀ q1 q2 digest keys, undelivered st = q1 ++ (digest, keys) :: q2 →
     ∃ m', Tm.notify_commit (manager st) digest keys ep = Ret m') ∧
  (∀ c1 c2 certs av answers s now, calls st = c1 ++ Answered certs av answers :: c2 →
     ∃ r m', Tm.finish s now certs av answers (manager st) = Ret (r, m')) ∧
  (steady = true →
   (∀ d p k, pending_certificates (inner (manager st)) !! d = Some p → k ∈ waiting_input_objects p →
      k ∈ committed st → is_queued (undelivered st) k) ∧
   (∀ d p, pending_certificates (inner (manager st)) !! d = Some p →
      ∃ k, k ∈ waiting_input_objects p ∧ (k ∉ committed st ∨ is_queued (undelivered st) k))).
Proof.
  intros Hst%reachable_ok. split_and!; [apply (sy_tm _ Hst)|apply (sy_sent _ Hst)|apply (sy_inputs _ Hst)|..].
  - intros s certs. apply first_half_returns.
  - intros q1 q2 digest keys Hq. destruct (notify_ok st q1 q2 digest keys Hst Hq) as (m' & Heq & _). eauto.
  - intros c1 c2 certs av answers s now Hc. destruct (finish_step_ok st c1 c2 certs av answers s now Hst Hc)
      as (r & m' & Heq & _). eauto.
  - intros Hs. split; [by apply (sy_waiting _ Hst)|].
    intros d p Hp. destruct (set_choose_L _ (ok_waiting _ (sy_tm _ Hst) d p Hp)) as [k Hk]. exists k. split; [done|].
    destruct (decide (k ∈ committed st)) as [Hin|?]; [right|by left]. by apply (sy_waiting _ Hst Hs d p).
Qed.
End system.

(** * Two interleavings *)

(** The object of the waiting certificate is committed after the store has been read. *)
Module Race.
#[local] Existing Instance stamped_lru.
Import Waiting.

Definition keys_of (c : Certificate) : gset InputKey := if cert_digest c =? 100 then keys else ∅.
Definition certs : list Enqueued := [(cert, None, keys)].
Definition before : gset InputKey := {[ PackageKey 7 ]}.
Definition checked := Tm.check_cache start (Tm.unknown_availability certs).
Definition answers := Tm.read_misses store 0 certs checked.1.
Definition after : gset InputKey := list_to_set [VersionedObject 1 5] ∪ before.
Definition announcement : TransactionDigest * list InputKey := (42, [VersionedObject 1 5]).
Definition raced : System := mkSystem _ checked.2 after [announcement] [Answered certs checked.1 answers].

Lemma store_agrees : agrees store 0 before.
Proof.
  intros ro [id v|id]; cbn; unfold before; rewrite elem_of_singleton.
  - split; [done|]. by case_bool_decide.
  - rewrite Z.eqb_eq. split; congruence.
Qed.

Lemma raced_reachable : reachable 0 keys_of true raced.
Proof.
  apply (reachable_step 0 keys_of true (mkSystem _ checked.2 before [] [Answered certs checked.1 answers]));
    [|apply (step_commit 0 keys_of true (mkSystem _ checked.2 before [] [Answered certs checked.1 answers]) 42 [VersionedObject 1 5])].
  apply (reachable_step 0 keys_of true (mkSystem _ checked.2 before [] [Checked certs checked.1]));
    [|apply (step_read 0 keys_of true (mkSystem _ checked.2 before [] [Checked certs checked.1]) [] []); [done|apply store_agrees]].
  apply (reachable_step 0 keys_of true (mkSystem _ start before [] [])); [apply reachable_start|].
  apply (step_start 0 keys_of true (mkSystem _ start before [] []) store [(cert, None)] [(cert, None)] start certs);
    [reflexivity|vm_compute; reflexivity| |].
  - intros c ->%list_elem_of_singleton. split; [vm_compute; reflexivity|apply keys_distinct].
  - apply surjective_pairing.
Qed.

Definition finished_manager : TransactionManager :=
  match Tm.finish store 0 certs checked.1 answers checked.2 with Ret r => r.2 | _ => checked.2 end.
Definition finished : System := mkSystem _ finished_manager after [announcement] [].

(** The call ends before the announcement: the certificate waits, and will be woken up. *)
Lemma finished_reachable : reachable 0 keys_of true finished.
Proof.
  pose proof (reachable_ok 0 keys_of true raced raced_reachable) as Hok.
  destruct (finish_step_ok 0 keys_of true raced [] [] certs checked.1 answers store 0 Hok eq_refl) as (r & m' & Heq & _).
  unfold finished, finished_manager. cbn [WakeUps.manager raced] in Heq. rewrite Heq.
  eapply reachable_step; [apply raced_reachable|]. by apply (step_finish 0 keys_of true raced [] [] certs checked.1 answers store 0 r).
Qed.

Lemma finished_waits :
  pending_certificates (inner finished_manager) !! 100 = Some (mkPending cert None {[ VersionedObject 1 5 ]}).
Proof. vm_compute. reflexivity. Qed.

(** The announcement comes before the call ends: the second look into the cache finds it. *)
Lemma announced_first :
  (m ← Tm.notify_commit checked.2 42 [VersionedObject 1 5] 0;
   r ← Tm.finish store 0 certs checked.1 answers m;
   Ret (tx_ready_certificates r.2))
  = Ret [(cert, None)].
Proof. vm_compute. reflexivity. Qed.

Lemma no_lost_wakeup_witness : is_queued (undelivered finished) (VersionedObject 1 5).
Proof.
  destruct (no_lost_wakeup 0 keys_of true finished finished_reachable) as (_ & _ & _ & _ & _ & _ & Hw).
  destruct (Hw eq_refl) as [Hq _]. eapply Hq; [exact finished_waits|cbn [waiting_input_objects]; set_solver|unfold finished, after; cbn [committed]; set_solver].
Defined.
End Race.

(** The condition of [remembered] is needed.  In a full cache (here of one entry), version 5
    of object 1 is announced, then evicted by object 2; when version 4 is announced late, the
    cache denies version 5, which is in the store: [enqueue_impl] would not ask the store, and
    no further announcement is due. *)
Module Forgotten.
#[local] Existing Instance stamped_lru.

Lemma forgotten_version :
  let inserts keys := foldl (λ a k, Cache.insert k a) (Cache.new_with_size 1) keys in
  (Cache.is_object_available (VersionedObject 1 5) (inserts [VersionedObject 1 5])).1 = Some true ∧
  (Cache.is_object_available (VersionedObject 1 5) (inserts [VersionedObject 1 5; VersionedObject 2 3])).1 = None ∧
  (Cache.is_object_available (VersionedObject 1 5)
     (inserts [VersionedObject 1 5; VersionedObject 2 3; VersionedObject 1 4])).1 = Some false ∧
  (Cache.is_object_available (VersionedObject 1 5) (inserts [VersionedObject 1 5; VersionedObject 1 4])).1 = Some true.
Proof. vm_compute. done. Qed.
End Forgotten.
