(* ===== verification/MoveFormat.v ===== *)
(** The binary format of Move modules as far as the bytecode verifier and the interpreter look at
    it ([external-crates/move/crates/move-binary-format/src]): ability sets, signature tokens, the
    tables of a module or script ([file_format.rs], [binary_views.rs], [access.rs]) and the
    instructions ([Bytecode]).

    Indexes into tables, offsets and sets of abilities are integers; a table is a list, and
    indexing out of its bounds panics.  Bytes are integers, and a name, an address or the value of a
    constant is a list of bytes.  The tables that modules and scripts share ([CommonTables] in the
    serializer and the deserializer) are a record of their own. *)
From S2P Require Import Prelude.

(** * Partial results of the VM *)

(** The status codes that the modelled code returns. *)
Inductive StatusCode :=
  | VERIFIER_INVARIANT_VIOLATION
  | UNKNOWN_INVARIANT_VIOLATION_ERROR
  | INVALID_OPERATION_IN_SCRIPT
  | CONSTRAINT_NOT_SATISFIED
  | EMPTY_CODE_UNIT
  | INVALID_FALL_THROUGH
  | VALUE_STACK_PUSH_OVERFLOW
  | NEGATIVE_STACK_SIZE_WITHIN_BLOCK
  | POSITIVE_STACK_SIZE_AT_BLOCK_END
  | VALUE_STACK_OVERFLOW
  | STLOC_UNSAFE_TO_DESTROY_ERROR
  | MOVELOC_UNAVAILABLE_ERROR
  | COPYLOC_UNAVAILABLE_ERROR
  | BORROWLOC_UNAVAILABLE_ERROR
  | UNSAFE_RET_UNUSED_VALUES_WITHOUT_DROP
  | INVALID_LOOP_SPLIT
  | LOOP_MAX_DEPTH_REACHED
  | BAD_MAGIC | UNKNOWN_VERSION | MALFORMED | BAD_HEADER_TABLE | DUPLICATE_TABLE | TRAILING_BYTES
  | UNKNOWN_TABLE_TYPE | UNKNOWN_SERIALIZED_TYPE | UNKNOWN_NATIVE_STRUCT_FLAG | UNKNOWN_OPCODE | UNKNOWN_ABILITY
  | INVALID_FLAG_BITS | BAD_U16 | BAD_U32 | BAD_U64 | BAD_U128 | BAD_U256
  | NO_MODULE_HANDLES | INDEX_OUT_OF_BOUNDS | TOO_MANY_LOCALS | NUMBER_OF_TYPE_ARGUMENTS_MISMATCH
  | TOO_MANY_TYPE_PARAMETERS | TOO_MANY_PARAMETERS | TOO_MANY_TYPE_NODES | TOO_MANY_VECTOR_ELEMENTS | IDENTIFIER_TOO_LONG
  | MAX_FUNCTION_DEFINITIONS_REACHED | MAX_STRUCT_DEFINITIONS_REACHED | MAX_FIELD_DEFINITIONS_REACHED
  | MALFORMED_CONSTANT_DATA | INVALID_CONSTANT_TYPE
  | DUPLICATE_ELEMENT | DUPLICATE_ACQUIRES_ANNOTATION | ZERO_SIZED_STRUCT | INVALID_MODULE_HANDLE | UNIMPLEMENTED_HANDLE
  | INVALID_PHANTOM_TYPE_PARAM_POSITION | INVALID_SIGNATURE_TOKEN | GENERIC_MEMBER_OPCODE_MISMATCH
  | INVALID_FRIEND_DECL_WITH_SELF | INVALID_FRIEND_DECL_WITH_MODULES_OUTSIDE_ACCOUNT_ADDRESS
  | FIELD_MISSING_TYPE_ABILITY | RECURSIVE_STRUCT_DEFINITION | LOOP_IN_INSTANTIATION_GRAPH
  | MISSING_ACQUIRES_ANNOTATION | EXTRANEOUS_ACQUIRES_ANNOTATION | INVALID_ACQUIRES_ANNOTATION
  | INVALID_MAIN_FUNCTION_SIGNATURE | VERIFICATION_ERROR | TOO_MANY_BACK_EDGES | TOO_MANY_BASIC_BLOCKS
  | INVALID_LOOP_BREAK | INVALID_LOOP_CONTINUE
  | POP_WITHOUT_DROP_ABILITY | BR_TYPE_MISMATCH_ERROR | STLOC_TYPE_MISMATCH_ERROR | ABORT_TYPE_MISMATCH_ERROR
  | RET_TYPE_MISMATCH_ERROR | FREEZEREF_TYPE_MISMATCH_ERROR | BORROWFIELD_TYPE_MISMATCH_ERROR | BORROWFIELD_BAD_FIELD_ERROR
  | BORROWLOC_REFERENCE_ERROR | BORROWGLOBAL_TYPE_MISMATCH_ERROR | BORROWGLOBAL_WITHOUT_KEY_ABILITY | CALL_TYPE_MISMATCH_ERROR
  | PACK_TYPE_MISMATCH_ERROR | UNPACK_TYPE_MISMATCH_ERROR | EXISTS_WITHOUT_KEY_ABILITY_OR_BAD_ARGUMENT
  | MOVEFROM_WITHOUT_KEY_ABILITY | MOVEFROM_TYPE_MISMATCH_ERROR | MOVETO_WITHOUT_KEY_ABILITY | MOVETO_TYPE_MISMATCH_ERROR
  | TYPE_MISMATCH | COPYLOC_WITHOUT_COPY_ABILITY | READREF_WITHOUT_COPY_ABILITY | READREF_TYPE_MISMATCH_ERROR
  | WRITEREF_NO_MUTABLE_REFERENCE_ERROR | WRITEREF_WITHOUT_DROP_ABILITY | WRITEREF_TYPE_MISMATCH_ERROR
  | INTEGER_OP_TYPE_MISMATCH_ERROR | BOOLEAN_OP_TYPE_MISMATCH_ERROR | EQUALITY_OP_TYPE_MISMATCH_ERROR
  | EMPTY_VALUE_STACK
  | EXECUTION_STACK_OVERFLOW
  | CALL_STACK_OVERFLOW
  | PC_OVERFLOW
  | ABORTED
  | OTHER_STATUS (code : Z).

(** [PartialVMResult], of code that may panic. *)
Definition VMResult (A : Type) : Type := outcome (result StatusCode A).

#[global] Instance vm_ret : MRet VMResult := fun A a => Ret (Ok a).
#[global] Instance vm_bind : MBind VMResult := fun A B f m =>
  match m with
  | Ret (Ok a) => f a
  | Ret (Err e) => Ret (Err e)
  | Panic => Panic
  | OutOfFuel => OutOfFuel
  end.

Definition vm_err {A} (e : StatusCode) : VMResult A := Ret (Err e).
Definition vm_lift {A} (m : outcome A) : VMResult A :=
  match m with Ret a => Ret (Ok a) | Panic => Panic | OutOfFuel => OutOfFuel end.

(** A partial result among operations on a state. *)
Definition lift_vm {S A} (m : VMResult A) : ST S StatusCode A := λ s,
  match m with Ret r => Ret (r, s) | Panic => Panic | OutOfFuel => OutOfFuel end.

(** Indexing a slice. *)
Definition at_index {A} (l : list A) (i : Z) : outcome A := if i <? 0 then Panic else unwrap (l !! Z.to_nat i).

(** Assigning to a slot of a slice. *)
Definition set_index {A} (l : list A) (i : Z) (x : A) : outcome (list A) :=
  if (0 <=? i) && (i <? Z.of_nat (length l)) then mret (<[Z.to_nat i := x]> l) else Panic.

Lemma at_index_eq {X} (l : list X) i x : 0 <= i → l !! Z.to_nat i = Some x → at_index l i = Ret x.
Proof. intros Hi Hl. unfold at_index. destruct (Z.ltb_spec i 0); [lia|]. by rewrite Hl. Qed.

Lemma set_index_eq {X} (l : list X) i x : 0 <= i < Z.of_nat (length l) → set_index l i x = Ret (<[Z.to_nat i := x]> l).
Proof. intros [Hi Hl]. unfold set_index. destruct (Z.leb_spec 0 i); [|lia]. by destruct (Z.ltb_spec i (Z.of_nat (length l))); [|lia]. Qed.

(** * Abilities *)

Inductive Ability := Copy | Drop | Store | Key.

#[global] Instance ability_eq_dec : EqDecision Ability.
Proof. solve_decision. Defined.

Abbreviation AbilitySet := Z (only parsing).

Module Abilities.
Definition as_u8 (a : Ability) : Z := match a with Copy => 1 | Drop => 2 | Store => 4 | Key => 8 end.

Definition from_u8 (u : Z) : option Ability :=
  if u =? 1 then Some Copy else if u =? 2 then Some Drop else if u =? 4 then Some Store
  else if u =? 8 then Some Key else None.

Definition requires (a : Ability) : Ability := match a with Copy => Copy | Drop => Drop | Store => Store | Key => Store end.

Definition EMPTY : AbilitySet := 0.
Definition PRIMITIVES : AbilitySet := Z.lor (Z.lor (as_u8 Copy) (as_u8 Drop)) (as_u8 Store).
Definition REFERENCES : AbilitySet := Z.lor (as_u8 Copy) (as_u8 Drop).
Definition SIGNER : AbilitySet := as_u8 Drop.
Definition VECTOR : AbilitySet := Z.lor (Z.lor (as_u8 Copy) (as_u8 Drop)) (as_u8 Store).
Definition ALL : AbilitySet := Z.lor (Z.lor (Z.lor (as_u8 Copy) (as_u8 Drop)) (as_u8 Store)) (as_u8 Key).

Definition required_by (a : Ability) : AbilitySet :=
  match a with
  | Copy => Z.lor EMPTY (as_u8 Copy)
  | Drop => Z.lor EMPTY (as_u8 Drop)
  | Store => Z.lor (Z.lor EMPTY (as_u8 Store)) (as_u8 Key)
  | Key => EMPTY
  end.

Definition has_ability (s : AbilitySet) (a : Ability) : bool := Z.land (as_u8 a) s =? as_u8 a.
Definition has_copy (s : AbilitySet) : bool := has_ability s Copy.
Definition has_drop (s : AbilitySet) : bool := has_ability s Drop.
Definition has_store (s : AbilitySet) : bool := has_ability s Store.
Definition has_key (s : AbilitySet) : bool := has_ability s Key.
Definition intersect (s t : AbilitySet) : AbilitySet := Z.land s t.
Definition union (s t : AbilitySet) : AbilitySet := Z.lor s t.
Definition is_subset_bits (sub sup : Z) : bool := Z.land sub sup =? sub.
Definition is_subset (self other : AbilitySet) : bool := is_subset_bits self other.
Definition set_from_u8 (byte : Z) : option AbilitySet := if is_subset_bits byte ALL then Some byte else None.

(** [AbilitySetIterator]. *)
Definition into_iter (s : AbilitySet) : list Ability := omap (λ idx, from_u8 (Z.land s idx)) [1; 2; 4; 8].

Definition polymorphic_abilities (declared_abilities : AbilitySet) (declared_phantom_parameters : list bool)
    (type_arguments : list AbilitySet) : result StatusCode AbilitySet :=
  if negb (length declared_phantom_parameters =? length type_arguments)%nat then Err VERIFIER_INVARIANT_VIOLATION
  else
    let non_phantom := filter (λ e : AbilitySet * bool, negb e.2) (zip type_arguments declared_phantom_parameters) in
    let required := (λ e : AbilitySet * bool, foldl union EMPTY (required_by <$> into_iter e.1)) <$> non_phantom in
    Ok (foldl intersect declared_abilities required).
End Abilities.

(** * Types *)

Inductive SignatureToken :=
  | TBool | TU8 | TU64 | TU128 | TAddress | TSigner
  | TVector (t : SignatureToken)
  | TStruct (idx : Z)
  | TStructInstantiation (idx : Z) (type_args : list SignatureToken)
  | TReference (t : SignatureToken)
  | TMutableReference (t : SignatureToken)
  | TTypeParameter (idx : Z)
  | TU16 | TU32 | TU256.

#[global] Instance signature_token_eq_dec : EqDecision SignatureToken.
Proof.
  unfold EqDecision. fix go 1. intros x y. unfold Decision. decide equality; try apply Z.eq_dec. apply (@list_eq_dec _ go).
Defined.

Module Token.
Definition is_integer (tok : SignatureToken) : bool :=
  match tok with TU8 | TU16 | TU32 | TU64 | TU128 | TU256 => true | _ => false end.
Definition is_reference (tok : SignatureToken) : bool := match tok with TReference _ | TMutableReference _ => true | _ => false end.
Definition is_mutable_reference (tok : SignatureToken) : bool := match tok with TMutableReference _ => true | _ => false end.

Fixpoint is_valid_for_constant (tok : SignatureToken) : bool :=
  match tok with
  | TAddress | TBool | TU8 | TU16 | TU32 | TU64 | TU128 | TU256 => true
  | TVector inner => is_valid_for_constant inner
  | TSigner | TStruct _ | TStructInstantiation _ _ | TReference _ | TMutableReference _ | TTypeParameter _ => false
  end.

(** The parts that the traversals push on their stack. *)
Definition children (tok : SignatureToken) : list SignatureToken :=
  match tok with
  | TReference inner | TMutableReference inner | TVector inner => [inner]
  | TStructInstantiation _ inner => inner
  | _ => []
  end.

(** [SignatureTokenPreorderTraversalIterWithDepth], run to its end: the top of the stack is the
    head of the list. *)
Fixpoint iter_with_depth (fuel : nat) (stack : list (SignatureToken * Z)) : outcome (list (SignatureToken * Z)) :=
  match stack, fuel with
  | [], _ => mret []
  | _ :: _, O => OutOfFuel
  | (tok, depth) :: stack, S fuel =>
      rest ← iter_with_depth fuel (((λ t, (t, depth + 1)) <$> children tok) ++ stack);
      mret ((tok, depth) :: rest)
  end.

(** [SignatureTokenPreorderTraversalIter]. *)
Fixpoint iter (fuel : nat) (stack : list SignatureToken) : outcome (list SignatureToken) :=
  match stack, fuel with
  | [], _ => mret []
  | _ :: _, O => OutOfFuel
  | tok :: stack, S fuel => rest ← iter fuel (children tok ++ stack); mret (tok :: rest)
  end.

(** The number of nodes, which bounds the traversals. *)
Fixpoint size (tok : SignatureToken) : nat :=
  match tok with
  | TReference t | TMutableReference t | TVector t => S (size t)
  | TStructInstantiation _ ts => S (sum_list (size <$> ts))
  | _ => 1
  end.

Definition preorder_traversal_with_depth (tok : SignatureToken) : outcome (list (SignatureToken * Z)) :=
  iter_with_depth (size tok) [(tok, 1)].
Definition preorder_traversal (tok : SignatureToken) : outcome (list SignatureToken) := iter (size tok) [tok].
End Token.

(** * Instructions *)

Module BC.
(** Operands are offsets, indexes of locals and tables, and constants. *)
Inductive Bytecode :=
  | Pop | Ret
  | BrTrue (offset : Z) | BrFalse (offset : Z) | Branch (offset : Z)
  | LdU8 (v : Z) | LdU64 (v : Z) | LdU128 (v : Z)
  | CastU8 | CastU64 | CastU128
  | LdConst (idx : Z) | LdTrue | LdFalse
  | CopyLoc (idx : Z) | MoveLoc (idx : Z) | StLoc (idx : Z)
  | Call (idx : Z) | CallGeneric (idx : Z)
  | Pack (idx : Z) | PackGeneric (idx : Z) | Unpack (idx : Z) | UnpackGeneric (idx : Z)
  | ReadRef | WriteRef | FreezeRef
  | MutBorrowLoc (idx : Z) | ImmBorrowLoc (idx : Z)
  | MutBorrowField (idx : Z) | MutBorrowFieldGeneric (idx : Z)
  | ImmBorrowField (idx : Z) | ImmBorrowFieldGeneric (idx : Z)
  | Add | Sub | Mul | Mod | Div
  | BitOr | BitAnd | Xor | Or | And | Not
  | Eq | Neq | Lt | Gt | Le | Ge
  | Abort | Nop | Shl | Shr
  | VecPack (idx : Z) (num : Z) | VecLen (idx : Z) | VecImmBorrow (idx : Z) | VecMutBorrow (idx : Z)
  | VecPushBack (idx : Z) | VecPopBack (idx : Z) | VecUnpack (idx : Z) (num : Z) | VecSwap (idx : Z)
  | LdU16 (v : Z) | LdU32 (v : Z) | LdU256 (v : Z)
  | CastU16 | CastU32 | CastU256
  | ExistsDeprecated (idx : Z) | ExistsGenericDeprecated (idx : Z)
  | MoveFromDeprecated (idx : Z) | MoveFromGenericDeprecated (idx : Z)
  | MoveToDeprecated (idx : Z) | MoveToGenericDeprecated (idx : Z)
  | MutBorrowGlobalDeprecated (idx : Z) | MutBorrowGlobalGenericDeprecated (idx : Z)
  | ImmBorrowGlobalDeprecated (idx : Z) | ImmBorrowGlobalGenericDeprecated (idx : Z).

Definition is_unconditional_branch (b : Bytecode) : bool :=
  match b with Ret | Abort | Branch _ => true | _ => false end.
Definition is_conditional_branch (b : Bytecode) : bool :=
  match b with BrFalse _ | BrTrue _ => true | _ => false end.
Definition is_branch (b : Bytecode) : bool := is_conditional_branch b || is_unconditional_branch b.
Definition offset (b : Bytecode) : option Z :=
  match b with BrFalse offset | BrTrue offset | Branch offset => Some offset | _ => None end.

(** [as u16], and [+] on [CodeOffset]. *)
Definition u16 (z : Z) : Z := z mod U16_MOD.
Definition len_u16 {A} (l : list A) : Z := u16 (Z.of_nat (length l)).

Definition get_successors (pc : Z) (code : list Bytecode) : outcome (list Z) :=
  assert_ ((pc <? U16_MOD - 1) && (pc <? Z.of_nat (length code)));;
  bytecode ← at_index code pc;
  let v := match offset bytecode with Some offset => [offset] | None => [] end in
  let next_pc := u16 (pc + 1) in
  if len_u16 code <=? next_pc then mret v
  else
    let v := if negb (is_unconditional_branch bytecode) && negb (bool_decide (next_pc ∈ v)) then v ++ [next_pc] else v in
    mret (match v with [x; y] => if y <? x then [y; x] else v | _ => v end).
End BC.

(** * Tables *)

Record ModuleHandle := mkModuleHandle { mh_address : Z; mh_name : Z }.

Record StructTypeParameter := mkTypeParameter { constraints : AbilitySet; is_phantom : bool }.

Record StructHandle := mkStructHandle {
  sh_module : Z;
  sh_name : Z;
  sh_abilities : AbilitySet;
  sh_type_parameters : list StructTypeParameter;
}.

(** [parameters] and [return_] are indexes of signatures. *)
Record FunctionHandle := mkFunctionHandle {
  fh_module : Z;
  fh_name : Z;
  fh_parameters : Z;
  fh_return_ : Z;
  fh_type_parameters : list AbilitySet;
}.

Record FieldHandle := mkFieldHandle { owner : Z; field : Z }.

Record FunctionInstantiation := mkFunctionInstantiation { fi_handle : Z; fi_type_parameters : Z }.
Record StructDefInstantiation := mkStructDefInstantiation { si_def : Z; si_type_parameters : Z }.
Record FieldInstantiation := mkFieldInstantiation { fdi_handle : Z; fdi_type_parameters : Z }.

Record FieldDefinition := mkFieldDefinition { fd_name : Z; fd_signature : SignatureToken }.

Inductive StructFieldInformation :=
  | NativeFields
  | Declared (fields : list FieldDefinition).

Record StructDefinition := mkStructDefinition { sd_struct_handle : Z; field_information : StructFieldInformation }.

Inductive Visibility := Private | Public | Friend.

(** [locals] is the index of a signature. *)
Record CodeUnit := mkCodeUnit { cu_locals : Z; cu_code : list BC.Bytecode }.

Record FunctionDefinition := mkFunctionDefinition {
  fn_function : Z;
  visibility : Visibility;
  is_entry : bool;
  acquires_global_resources : list Z;
  fn_code : option CodeUnit;
}.

Record Constant := mkConstant { type_ : SignatureToken; data : list Z }.

Record Metadata := mkMetadata { key : list Z; value : list Z }.

(** A [Signature]. *)
Abbreviation Signature := (list SignatureToken) (only parsing).
(** The bytes of an [Identifier] and of an [AccountAddress]. *)
Abbreviation Identifier := (list Z) (only parsing).
Abbreviation AccountAddress := (list Z) (only parsing).

Record CommonTables := mkCommon {
  module_handles : list ModuleHandle;
  struct_handles : list StructHandle;
  function_handles : list FunctionHandle;
  function_instantiations : list FunctionInstantiation;
  signatures : list Signature;
  identifiers : list Identifier;
  address_identifiers : list AccountAddress;
  constant_pool : list Constant;
  metadata : list Metadata;
}.

Record CompiledModule := mkModule {
  m_version : Z;
  self_module_handle_idx : Z;
  m_common :> CommonTables;
  field_handles : list FieldHandle;
  friend_decls : list ModuleHandle;
  struct_def_instantiations : list StructDefInstantiation;
  field_instantiations : list FieldInstantiation;
  struct_defs : list StructDefinition;
  function_defs : list FunctionDefinition;
}.

Record CompiledScript := mkScript {
  s_version : Z;
  s_common :> CommonTables;
  s_code : CodeUnit;
  s_type_parameters : list AbilitySet;
  s_parameters : Z;
}.

(** Tables and modules without entries ([Default]). *)
Definition no_tables : CommonTables := mkCommon [] [] [] [] [] [] [] [] [].
Definition empty_module (tables : CommonTables) : CompiledModule := mkModule 6 0 tables [] [] [] [] [] [].

Inductive BinaryIndexedView :=
  | ModuleView (m : CompiledModule)
  | ScriptView (s : CompiledScript).

(** [VerifierConfig] of [move-vm-config]. *)
Record VerifierConfig := mkConfig {
  max_loop_depth : option Z;
  max_function_parameters : option Z;
  max_generic_instantiation_length : option Z;
  max_basic_blocks : option Z;
  max_value_stack_size : Z;
  max_type_nodes : option Z;
  max_push_size : option Z;
  max_dependency_depth : option Z;
  max_struct_definitions : option Z;
  max_fields_in_struct : option Z;
  max_function_definitions : option Z;
  max_constant_vector_len : option Z;
  max_back_edges_per_function : option Z;
  max_back_edges_per_module : option Z;
  max_basic_blocks_in_script : option Z;
  max_per_fun_meter_units : option Z;
  max_per_mod_meter_units : option Z;
  max_idenfitier_len : option Z;
  allow_receiving_object_id : bool;
}.

(** [VerifierConfig::default]. *)
Definition default_config : VerifierConfig :=
  mkConfig None None None None 1024 None None None None None None (Some (1024 * 1024)) None None None
    (Some (1000 * 8000)) (Some (1000 * 8000)) (Some 128) true.

(** [usize as u64]. *)
Definition as_u64 (n : nat) : Z := Z.of_nat n mod U64_MOD.

Module View.
Definition tables (v : BinaryIndexedView) : CommonTables := match v with ModuleView m => m_common m | ScriptView s => s_common s end.

Definition struct_handle_at (v : BinaryIndexedView) (idx : Z) : outcome StructHandle := at_index (struct_handles (tables v)) idx.
Definition function_handle_at (v : BinaryIndexedView) (idx : Z) : outcome FunctionHandle :=
  at_index (function_handles (tables v)) idx.
Definition function_instantiation_at (v : BinaryIndexedView) (idx : Z) : outcome FunctionInstantiation :=
  at_index (function_instantiations (tables v)) idx.
Definition signature_at (v : BinaryIndexedView) (idx : Z) : outcome Signature := at_index (signatures (tables v)) idx.

(** The tables that only modules have, and their entries. *)
Definition in_module {A} (v : BinaryIndexedView) (table : CompiledModule → A) : option A :=
  match v with ModuleView m => Some (table m) | ScriptView _ => None end.
Definition module_entry {A} (v : BinaryIndexedView) (table : CompiledModule → list A) (idx : Z) : VMResult A :=
  match v with
  | ModuleView m => vm_lift (at_index (table m) idx)
  | ScriptView _ => vm_err INVALID_OPERATION_IN_SCRIPT
  end.

Definition struct_def_at (v : BinaryIndexedView) (idx : Z) : VMResult StructDefinition := module_entry v struct_defs idx.
Definition struct_instantiation_at (v : BinaryIndexedView) (idx : Z) : VMResult StructDefInstantiation :=
  module_entry v struct_def_instantiations idx.
Definition field_handle_at (v : BinaryIndexedView) (idx : Z) : VMResult FieldHandle := module_entry v field_handles idx.
Definition field_instantiation_at (v : BinaryIndexedView) (idx : Z) : VMResult FieldInstantiation :=
  module_entry v field_instantiations idx.
Definition constant_at (v : BinaryIndexedView) (idx : Z) : outcome Constant := at_index (constant_pool (tables v)) idx.
Definition version (v : BinaryIndexedView) : Z := match v with ModuleView m => m_version m | ScriptView s => s_version s end.

(** [collect] of partial results: the first error ends it. *)
Fixpoint collect_results {A} (l : list (VMResult A)) : VMResult (list A) :=
  match l with
  | [] => mret []
  | m :: l => x ← m; xs ← collect_results l; mret (x :: xs)
  end.

Fixpoint abilities (v : BinaryIndexedView) (ty : SignatureToken) (constraints : list AbilitySet) : VMResult AbilitySet :=
  match ty with
  | TBool | TU8 | TU16 | TU32 | TU64 | TU128 | TU256 | TAddress => mret Abilities.PRIMITIVES
  | TReference _ | TMutableReference _ => mret Abilities.REFERENCES
  | TSigner => mret Abilities.SIGNER
  | TTypeParameter idx => vm_lift (at_index constraints idx)
  | TVector ty =>
      a ← abilities v ty constraints;
      Ret (Abilities.polymorphic_abilities Abilities.VECTOR [false] [a])
  | TStruct idx => sh ← vm_lift (struct_handle_at v idx); mret (sh_abilities sh)
  | TStructInstantiation idx type_args =>
      sh ← vm_lift (struct_handle_at v idx);
      type_arguments ← collect_results ((λ arg, abilities v arg constraints) <$> type_args);
      Ret (Abilities.polymorphic_abilities (sh_abilities sh) (is_phantom <$> sh_type_parameters sh) type_arguments)
  end.
End View.

(** * The abilities of a generic type *)

Section abilities.
Import Abilities.

Definition bit (a : Ability) : Z := match a with Copy => 0 | Drop => 1 | Store => 2 | Key => 3 end.

Lemma land_pow2 s n : 0 <= n → Z.land (2 ^ n) s = if Z.testbit s n then 2 ^ n else 0.
Proof.
  intros Hn. apply Z.bits_inj'. intros m Hm. rewrite Z.land_spec, Z.pow2_bits_eqb by done.
  destruct (Z.eqb_spec n m) as [->|Hne].
  - destruct (Z.testbit s m); cbn [andb]; [by rewrite Z.pow2_bits_true|by rewrite Z.bits_0].
  - destruct (Z.testbit s n); cbn [andb]; [by rewrite Z.pow2_bits_false|by rewrite Z.bits_0].
Qed.

Lemma as_u8_pow a : as_u8 a = 2 ^ bit a.
Proof. by destruct a. Qed.

Lemma has_ability_bit s a : has_ability s a = Z.testbit s (bit a).
Proof.
  unfold has_ability. rewrite as_u8_pow, land_pow2 by by destruct a.
  destruct (Z.testbit s (bit a)); [apply Z.eqb_refl|by destruct a].
Qed.

(** What an argument allows: its abilities, and [Key] where it has [Store]. *)
Lemma required_bit s a :
  Z.testbit (foldl union EMPTY (required_by <$> into_iter s)) (bit a) = Z.testbit s (bit (requires a)).
Proof.
  unfold into_iter. cbn [omap list_omap].
  rewrite !(Z.land_comm s). change 1 with (2 ^ 0). change 2 with (2 ^ 1). change 4 with (2 ^ 2). change 8 with (2 ^ 3).
  rewrite !land_pow2 by done. change (2 ^ 1) with 2. change (2 ^ 0) with 1. change (2 ^ 2) with 4. change (2 ^ 3) with 8.
  destruct (Z.testbit s 0) eqn:H0, (Z.testbit s 1) eqn:H1, (Z.testbit s 2) eqn:H2, (Z.testbit s 3) eqn:H3;
    destruct a; cbn [bit requires]; rewrite ?H0, ?H1, ?H2; reflexivity.
Qed.

Lemma foldl_intersect_bit l s n : Z.testbit (foldl intersect s l) n = Z.testbit s n && forallb (λ t, Z.testbit t n) l.
Proof.
  revert s. induction l as [|t l IH]; intros s; cbn; [by rewrite andb_true_r|].
  unfold intersect at 2. by rewrite IH, Z.land_spec, andb_assoc.
Qed.

(** [polymorphic_abilities] gives a generic type exactly those of its declared abilities
    whose requirement (the ability itself, or [Store] for [Key]) all its type arguments have,
    phantom ones apart, as its conceptual description says; it fails exactly when the number of
    arguments is wrong. *)
Theorem polymorphic_abilities_correct declared phantoms args :
  match polymorphic_abilities declared phantoms args with
  | Ok s => length phantoms = length args ∧ ∀ a, has_ability s a = true ↔
      has_ability declared a = true ∧
      ∀ i arg, args !! i = Some arg → phantoms !! i = Some false → has_ability arg (requires a) = true
  | Err e => e = VERIFIER_INVARIANT_VIOLATION ∧ length phantoms ≠ length args
  end.
Proof.
  unfold polymorphic_abilities. destruct (Nat.eqb_spec (length phantoms) (length args)) as [Hlen|Hlen]; cbn [negb]; [|done].
  split; [done|]. intros a. rewrite !has_ability_bit, foldl_intersect_bit, andb_true_iff.
  apply and_iff_compat_l. rewrite forallb_forall. setoid_rewrite has_ability_bit. split.
  - intros Hall i arg Ha Hp. rewrite <- required_bit. apply Hall. apply list_elem_of_In, list_elem_of_fmap.
    exists (arg, false). split; [done|]. apply list_elem_of_filter. split; [done|].
    apply list_elem_of_lookup. exists i. rewrite lookup_zip_with, Ha, Hp. done.
  - intros Hall t (e & -> & Hin)%list_elem_of_In%list_elem_of_fmap.
    apply list_elem_of_filter in Hin as [Hph Hin]. apply list_elem_of_lookup in Hin as [i Hi].
    rewrite lookup_zip_with in Hi. destruct (args !! i) as [arg|] eqn:Ha; [|done].
    destruct (phantoms !! i) as [ph|] eqn:Hp; [|done]. injection Hi as <-. cbn [fst snd] in Hph |- *.
    destruct ph; [by destruct Hph|]. rewrite required_bit. by eapply Hall.
Qed.
End abilities.
