(* ===== verification/BinaryFormat.v ===== *)
(** The bytes of the binary format ([move-binary-format/src/file_format_common.rs]): limits, the
    codes of tables, types and instructions, the growing binary that the serializer writes, the
    cursor that the deserializer reads, and integers as ULEB128 or in little endian.

    A writer runs in the state monad [ST] over the binary; its errors are messages in the source and
    constructors of [SerError] here.  A reader runs in [ST] over a cursor: the position and the bytes
    after it.  [usize] is 64 bits wide.  No caller reads on after an error, so a failed read leaves the
    cursor as it is.

    The second half has the laws that writers and readers share: a writer appends the same bytes to
    every binary ([emits]), and a reader accepts exactly the values and bytes of a relation ([denotes]). *)
From S2P Require Import Prelude MoveFormat.

(** * Constants *)

Definition MOVE_MAGIC : list Z := [0xA1; 0x1C; 0xEB; 0x0B].

Definition TABLE_COUNT_MAX : Z := 255.
Definition TABLE_OFFSET_MAX : Z := 0xffffffff.
Definition TABLE_SIZE_MAX : Z := 0xffffffff.
Definition TABLE_CONTENT_SIZE_MAX : Z := 0xffffffff.
Definition TABLE_INDEX_MAX : Z := 65535.
Definition BYTECODE_COUNT_MAX : Z := 65535.
Definition BYTECODE_INDEX_MAX : Z := 65535.
Definition LOCAL_INDEX_MAX : Z := 255.
Definition IDENTIFIER_SIZE_MAX : Z := 65535.
Definition CONSTANT_SIZE_MAX : Z := 65535.
Definition METADATA_KEY_SIZE_MAX : Z := 1023.
Definition METADATA_VALUE_SIZE_MAX : Z := 65535.
Definition SIGNATURE_SIZE_MAX : Z := 255.
Definition ACQUIRES_COUNT_MAX : Z := 255.
Definition FIELD_COUNT_MAX : Z := 255.
Definition FIELD_OFFSET_MAX : Z := 255.
Definition TYPE_PARAMETER_COUNT_MAX : Z := 255.
Definition TYPE_PARAMETER_INDEX_MAX : Z := 65536.
Definition SIGNATURE_TOKEN_DEPTH_MAX : Z := 256.

Definition VERSION_1 : Z := 1.
Definition VERSION_2 : Z := 2.
Definition VERSION_3 : Z := 3.
Definition VERSION_4 : Z := 4.
Definition VERSION_5 : Z := 5.
Definition VERSION_6 : Z := 6.
Definition VERSION_MAX : Z := VERSION_6.
Definition VERSION_MIN : Z := VERSION_5.

Definition U8_MOD : Z := 2 ^ 8.
Definition U32_MOD : Z := 2 ^ 32.

Inductive TableType :=
  | MODULE_HANDLES | STRUCT_HANDLES | FUNCTION_HANDLES | FUNCTION_INST | SIGNATURES | CONSTANT_POOL | IDENTIFIERS
  | ADDRESS_IDENTIFIERS | STRUCT_DEFS | STRUCT_DEF_INST | FUNCTION_DEFS | FIELD_HANDLE | FIELD_INST | FRIEND_DECLS
  | METADATA.

#[global] Instance table_type_eq_dec : EqDecision TableType.
Proof. solve_decision. Defined.

Module TableKind.
Definition as_u8 (k : TableType) : Z :=
  match k with
  | MODULE_HANDLES => 0x1 | STRUCT_HANDLES => 0x2 | FUNCTION_HANDLES => 0x3 | FUNCTION_INST => 0x4 | SIGNATURES => 0x5
  | CONSTANT_POOL => 0x6 | IDENTIFIERS => 0x7 | ADDRESS_IDENTIFIERS => 0x8 | STRUCT_DEFS => 0xA | STRUCT_DEF_INST => 0xB
  | FUNCTION_DEFS => 0xC | FIELD_HANDLE => 0xD | FIELD_INST => 0xE | FRIEND_DECLS => 0xF | METADATA => 0x10
  end.

Definition from_u8 (value : Z) : result StatusCode TableType :=
  match value with
  | 0x1 => Ok MODULE_HANDLES | 0x2 => Ok STRUCT_HANDLES | 0x3 => Ok FUNCTION_HANDLES | 0x4 => Ok FUNCTION_INST
  | 0x5 => Ok SIGNATURES | 0x6 => Ok CONSTANT_POOL | 0x7 => Ok IDENTIFIERS | 0x8 => Ok ADDRESS_IDENTIFIERS
  | 0xA => Ok STRUCT_DEFS | 0xB => Ok STRUCT_DEF_INST | 0xC => Ok FUNCTION_DEFS | 0xD => Ok FIELD_HANDLE
  | 0xE => Ok FIELD_INST | 0xF => Ok FRIEND_DECLS | 0x10 => Ok METADATA
  | _ => Err UNKNOWN_TABLE_TYPE
  end.
End TableKind.

Module SType.
Inductive SerializedType :=
  | BOOL | U8 | U64 | U128 | ADDRESS | REFERENCE | MUTABLE_REFERENCE | STRUCT | TYPE_PARAMETER | VECTOR | STRUCT_INST
  | SIGNER | U16 | U32 | U256.

Definition as_u8 (t : SerializedType) : Z :=
  match t with
  | BOOL => 0x1 | U8 => 0x2 | U64 => 0x3 | U128 => 0x4 | ADDRESS => 0x5 | REFERENCE => 0x6 | MUTABLE_REFERENCE => 0x7
  | STRUCT => 0x8 | TYPE_PARAMETER => 0x9 | VECTOR => 0xA | STRUCT_INST => 0xB | SIGNER => 0xC | U16 => 0xD | U32 => 0xE
  | U256 => 0xF
  end.

Definition from_u8 (value : Z) : result StatusCode SerializedType :=
  match value with
  | 0x1 => Ok BOOL | 0x2 => Ok U8 | 0x3 => Ok U64 | 0x4 => Ok U128 | 0x5 => Ok ADDRESS | 0x6 => Ok REFERENCE
  | 0x7 => Ok MUTABLE_REFERENCE | 0x8 => Ok STRUCT | 0x9 => Ok TYPE_PARAMETER | 0xA => Ok VECTOR | 0xB => Ok STRUCT_INST
  | 0xC => Ok SIGNER | 0xD => Ok U16 | 0xE => Ok U32 | 0xF => Ok U256
  | _ => Err UNKNOWN_SERIALIZED_TYPE
  end.
End SType.

(** [SerializedNativeStructFlag]. *)
Definition NATIVE_STRUCT : Z := 0x1.
Definition DECLARED_STRUCT : Z := 0x2.

Module Op.
Inductive Opcodes :=
  | POP | RET | BR_TRUE | BR_FALSE | BRANCH | LD_U64 | LD_CONST | LD_TRUE | LD_FALSE | COPY_LOC | MOVE_LOC | ST_LOC
  | MUT_BORROW_LOC | IMM_BORROW_LOC | MUT_BORROW_FIELD | IMM_BORROW_FIELD | CALL | PACK | UNPACK | READ_REF
  | WRITE_REF | ADD | SUB | MUL | MOD | DIV | BIT_OR | BIT_AND | XOR | OR | AND | NOT | EQ | NEQ | LT | GT | LE | GE
  | ABORT | NOP | FREEZE_REF | SHL | SHR | LD_U8 | LD_U128 | CAST_U8 | CAST_U64 | CAST_U128
  | MUT_BORROW_FIELD_GENERIC | IMM_BORROW_FIELD_GENERIC | CALL_GENERIC | PACK_GENERIC | UNPACK_GENERIC | VEC_PACK
  | VEC_LEN | VEC_IMM_BORROW | VEC_MUT_BORROW | VEC_PUSH_BACK | VEC_POP_BACK | VEC_UNPACK | VEC_SWAP | LD_U16
  | LD_U32 | LD_U256 | CAST_U16 | CAST_U32 | CAST_U256 | EXISTS_DEPRECATED | MUT_BORROW_GLOBAL_DEPRECATED
  | IMM_BORROW_GLOBAL_DEPRECATED | MOVE_FROM_DEPRECATED | MOVE_TO_DEPRECATED | EXISTS_GENERIC_DEPRECATED
  | MUT_BORROW_GLOBAL_GENERIC_DEPRECATED | IMM_BORROW_GLOBAL_GENERIC_DEPRECATED | MOVE_FROM_GENERIC_DEPRECATED
  | MOVE_TO_GENERIC_DEPRECATED.

Definition as_u8 (o : Opcodes) : Z :=
  match o with
  | POP => 0x01 | RET => 0x02 | BR_TRUE => 0x03 | BR_FALSE => 0x04 | BRANCH => 0x05 | LD_U64 => 0x06
  | LD_CONST => 0x07 | LD_TRUE => 0x08 | LD_FALSE => 0x09 | COPY_LOC => 0x0A | MOVE_LOC => 0x0B | ST_LOC => 0x0C
  | MUT_BORROW_LOC => 0x0D | IMM_BORROW_LOC => 0x0E | MUT_BORROW_FIELD => 0x0F | IMM_BORROW_FIELD => 0x10
  | CALL => 0x11 | PACK => 0x12 | UNPACK => 0x13 | READ_REF => 0x14 | WRITE_REF => 0x15 | ADD => 0x16 | SUB => 0x17
  | MUL => 0x18 | MOD => 0x19 | DIV => 0x1A | BIT_OR => 0x1B | BIT_AND => 0x1C | XOR => 0x1D | OR => 0x1E
  | AND => 0x1F | NOT => 0x20 | EQ => 0x21 | NEQ => 0x22 | LT => 0x23 | GT => 0x24 | LE => 0x25 | GE => 0x26
  | ABORT => 0x27 | NOP => 0x28 | FREEZE_REF => 0x2E | SHL => 0x2F | SHR => 0x30 | LD_U8 => 0x31 | LD_U128 => 0x32
  | CAST_U8 => 0x33 | CAST_U64 => 0x34 | CAST_U128 => 0x35 | MUT_BORROW_FIELD_GENERIC => 0x36
  | IMM_BORROW_FIELD_GENERIC => 0x37 | CALL_GENERIC => 0x38 | PACK_GENERIC => 0x39 | UNPACK_GENERIC => 0x3A
  | VEC_PACK => 0x40 | VEC_LEN => 0x41 | VEC_IMM_BORROW => 0x42 | VEC_MUT_BORROW => 0x43 | VEC_PUSH_BACK => 0x44
  | VEC_POP_BACK => 0x45 | VEC_UNPACK => 0x46 | VEC_SWAP => 0x47 | LD_U16 => 0x48 | LD_U32 => 0x49 | LD_U256 => 0x4A
  | CAST_U16 => 0x4B | CAST_U32 => 0x4C | CAST_U256 => 0x4D | EXISTS_DEPRECATED => 0x29
  | MUT_BORROW_GLOBAL_DEPRECATED => 0x2A | IMM_BORROW_GLOBAL_DEPRECATED => 0x2B | MOVE_FROM_DEPRECATED => 0x2C
  | MOVE_TO_DEPRECATED => 0x2D | EXISTS_GENERIC_DEPRECATED => 0x3B | MUT_BORROW_GLOBAL_GENERIC_DEPRECATED => 0x3C
  | IMM_BORROW_GLOBAL_GENERIC_DEPRECATED => 0x3D | MOVE_FROM_GENERIC_DEPRECATED => 0x3E
  | MOVE_TO_GENERIC_DEPRECATED => 0x3F
  end.

Definition from_u8 (value : Z) : result StatusCode Opcodes :=
  match value with
  | 0x01 => Ok POP | 0x02 => Ok RET | 0x03 => Ok BR_TRUE | 0x04 => Ok BR_FALSE | 0x05 => Ok BRANCH
  | 0x06 => Ok LD_U64 | 0x07 => Ok LD_CONST | 0x08 => Ok LD_TRUE | 0x09 => Ok LD_FALSE | 0x0A => Ok COPY_LOC
  | 0x0B => Ok MOVE_LOC | 0x0C => Ok ST_LOC | 0x0D => Ok MUT_BORROW_LOC | 0x0E => Ok IMM_BORROW_LOC
  | 0x0F => Ok MUT_BORROW_FIELD | 0x10 => Ok IMM_BORROW_FIELD | 0x11 => Ok CALL | 0x12 => Ok PACK | 0x13 => Ok UNPACK
  | 0x14 => Ok READ_REF | 0x15 => Ok WRITE_REF | 0x16 => Ok ADD | 0x17 => Ok SUB | 0x18 => Ok MUL | 0x19 => Ok MOD
  | 0x1A => Ok DIV | 0x1B => Ok BIT_OR | 0x1C => Ok BIT_AND | 0x1D => Ok XOR | 0x1E => Ok OR | 0x1F => Ok AND
  | 0x20 => Ok NOT | 0x21 => Ok EQ | 0x22 => Ok NEQ | 0x23 => Ok LT | 0x24 => Ok GT | 0x25 => Ok LE | 0x26 => Ok GE
  | 0x27 => Ok ABORT | 0x28 => Ok NOP | 0x29 => Ok EXISTS_DEPRECATED | 0x2A => Ok MUT_BORROW_GLOBAL_DEPRECATED
  | 0x2B => Ok IMM_BORROW_GLOBAL_DEPRECATED | 0x2C => Ok MOVE_FROM_DEPRECATED | 0x2D => Ok MOVE_TO_DEPRECATED
  | 0x2E => Ok FREEZE_REF | 0x2F => Ok SHL | 0x30 => Ok SHR | 0x31 => Ok LD_U8 | 0x32 => Ok LD_U128
  | 0x33 => Ok CAST_U8 | 0x34 => Ok CAST_U64 | 0x35 => Ok CAST_U128 | 0x36 => Ok MUT_BORROW_FIELD_GENERIC
  | 0x37 => Ok IMM_BORROW_FIELD_GENERIC | 0x38 => Ok CALL_GENERIC | 0x39 => Ok PACK_GENERIC
  | 0x3A => Ok UNPACK_GENERIC | 0x3B => Ok EXISTS_GENERIC_DEPRECATED
  | 0x3C => Ok MUT_BORROW_GLOBAL_GENERIC_DEPRECATED | 0x3D => Ok IMM_BORROW_GLOBAL_GENERIC_DEPRECATED
  | 0x3E => Ok MOVE_FROM_GENERIC_DEPRECATED | 0x3F => Ok MOVE_TO_GENERIC_DEPRECATED | 0x40 => Ok VEC_PACK
  | 0x41 => Ok VEC_LEN | 0x42 => Ok VEC_IMM_BORROW | 0x43 => Ok VEC_MUT_BORROW | 0x44 => Ok VEC_PUSH_BACK
  | 0x45 => Ok VEC_POP_BACK | 0x46 => Ok VEC_UNPACK | 0x47 => Ok VEC_SWAP | 0x48 => Ok LD_U16 | 0x49 => Ok LD_U32
  | 0x4A => Ok LD_U256 | 0x4B => Ok CAST_U16 | 0x4C => Ok CAST_U32 | 0x4D => Ok CAST_U256
  | _ => Err UNKNOWN_OPCODE
  end.
End Op.

(** The opcode of an instruction, without its operands. *)
Definition opcode (instruction : BC.Bytecode) : Op.Opcodes :=
  match instruction with
  | BC.Pop => Op.POP | BC.Ret => Op.RET | BC.BrTrue _ => Op.BR_TRUE | BC.BrFalse _ => Op.BR_FALSE
  | BC.Branch _ => Op.BRANCH | BC.LdU8 _ => Op.LD_U8 | BC.LdU64 _ => Op.LD_U64 | BC.LdU128 _ => Op.LD_U128
  | BC.CastU8 => Op.CAST_U8 | BC.CastU64 => Op.CAST_U64 | BC.CastU128 => Op.CAST_U128 | BC.LdConst _ => Op.LD_CONST
  | BC.LdTrue => Op.LD_TRUE | BC.LdFalse => Op.LD_FALSE | BC.CopyLoc _ => Op.COPY_LOC | BC.MoveLoc _ => Op.MOVE_LOC
  | BC.StLoc _ => Op.ST_LOC | BC.Call _ => Op.CALL | BC.CallGeneric _ => Op.CALL_GENERIC | BC.Pack _ => Op.PACK
  | BC.PackGeneric _ => Op.PACK_GENERIC | BC.Unpack _ => Op.UNPACK | BC.UnpackGeneric _ => Op.UNPACK_GENERIC
  | BC.ReadRef => Op.READ_REF | BC.WriteRef => Op.WRITE_REF | BC.FreezeRef => Op.FREEZE_REF
  | BC.MutBorrowLoc _ => Op.MUT_BORROW_LOC | BC.ImmBorrowLoc _ => Op.IMM_BORROW_LOC
  | BC.MutBorrowField _ => Op.MUT_BORROW_FIELD | BC.MutBorrowFieldGeneric _ => Op.MUT_BORROW_FIELD_GENERIC
  | BC.ImmBorrowField _ => Op.IMM_BORROW_FIELD | BC.ImmBorrowFieldGeneric _ => Op.IMM_BORROW_FIELD_GENERIC
  | BC.Add => Op.ADD | BC.Sub => Op.SUB | BC.Mul => Op.MUL | BC.Mod => Op.MOD | BC.Div => Op.DIV
  | BC.BitOr => Op.BIT_OR | BC.BitAnd => Op.BIT_AND | BC.Xor => Op.XOR | BC.Shl => Op.SHL | BC.Shr => Op.SHR
  | BC.Or => Op.OR | BC.And => Op.AND | BC.Not => Op.NOT | BC.Eq => Op.EQ | BC.Neq => Op.NEQ | BC.Lt => Op.LT
  | BC.Gt => Op.GT | BC.Le => Op.LE | BC.Ge => Op.GE | BC.Abort => Op.ABORT | BC.Nop => Op.NOP
  | BC.VecPack _ _ => Op.VEC_PACK | BC.VecLen _ => Op.VEC_LEN | BC.VecImmBorrow _ => Op.VEC_IMM_BORROW
  | BC.VecMutBorrow _ => Op.VEC_MUT_BORROW | BC.VecPushBack _ => Op.VEC_PUSH_BACK
  | BC.VecPopBack _ => Op.VEC_POP_BACK | BC.VecUnpack _ _ => Op.VEC_UNPACK | BC.VecSwap _ => Op.VEC_SWAP
  | BC.LdU16 _ => Op.LD_U16 | BC.LdU32 _ => Op.LD_U32 | BC.LdU256 _ => Op.LD_U256 | BC.CastU16 => Op.CAST_U16
  | BC.CastU32 => Op.CAST_U32 | BC.CastU256 => Op.CAST_U256 | BC.ExistsDeprecated _ => Op.EXISTS_DEPRECATED
  | BC.ExistsGenericDeprecated _ => Op.EXISTS_GENERIC_DEPRECATED | BC.MoveFromDeprecated _ => Op.MOVE_FROM_DEPRECATED
  | BC.MoveFromGenericDeprecated _ => Op.MOVE_FROM_GENERIC_DEPRECATED
  | BC.MoveToDeprecated _ => Op.MOVE_TO_DEPRECATED | BC.MoveToGenericDeprecated _ => Op.MOVE_TO_GENERIC_DEPRECATED
  | BC.MutBorrowGlobalDeprecated _ => Op.MUT_BORROW_GLOBAL_DEPRECATED
  | BC.MutBorrowGlobalGenericDeprecated _ => Op.MUT_BORROW_GLOBAL_GENERIC_DEPRECATED
  | BC.ImmBorrowGlobalDeprecated _ => Op.IMM_BORROW_GLOBAL_DEPRECATED
  | BC.ImmBorrowGlobalGenericDeprecated _ => Op.IMM_BORROW_GLOBAL_GENERIC_DEPRECATED
  end.
Definition instruction_key (instruction : BC.Bytecode) : Z := Op.as_u8 (opcode instruction).

(** * Writing *)

Inductive SerError := BinaryTooBig | ValueTooBig | UnsupportedVersion | UnsupportedInteger | MaxDepthReached | UnitTooBig.

(** [BinaryData]. *)
Abbreviation Writer := (ST (list Z) SerError unit) (only parsing).

Definition lenZ {A} (l : list A) : Z := Z.of_nat (length l).

Module Binary.
Definition push (item : Z) : Writer := λ binary,
  match checked_add (lenZ binary) 1 with
  | Some _ => Ret (Ok tt, binary ++ [item])
  | None => Ret (Err BinaryTooBig, binary)
  end.

Definition extend (vec : list Z) : Writer := λ binary,
  match checked_add (lenZ binary) (lenZ vec) with
  | Some _ => Ret (Ok tt, binary ++ vec)
  | None => Ret (Err BinaryTooBig, binary)
  end.

(** A [u64] has ten groups of seven bits. *)
Definition ULEB_FUEL : nat := 10.

Fixpoint write_uleb_loop (fuel : nat) (val : Z) : Writer :=
  match fuel with
  | O => λ _, OutOfFuel
  | S fuel =>
      let cur := Z.land val 0x7f in
      if negb (cur =? val) then push (Z.lor cur 0x80);; write_uleb_loop fuel (Z.shiftr val 7)
      else push cur
  end.

Definition write_u64_as_uleb128 (val : Z) : Writer := write_uleb_loop ULEB_FUEL val.

(** [to_le_bytes] and [from_le_bytes] of an integer of [n] bytes. *)
Fixpoint to_le_bytes (n : nat) (v : Z) : list Z :=
  match n with O => [] | S n => v mod 256 :: to_le_bytes n (v / 256) end.
Definition from_le_bytes (bytes : list Z) : Z := foldr (λ b v, b + 256 * v) 0 bytes.

Definition write_u16 (value : Z) : Writer := extend (to_le_bytes 2 value).
Definition write_u32 (value : Z) : Writer := extend (to_le_bytes 4 value).
Definition write_u64 (value : Z) : Writer := extend (to_le_bytes 8 value).
Definition write_u128 (value : Z) : Writer := extend (to_le_bytes 16 value).
Definition write_u256 (value : Z) : Writer := extend (to_le_bytes 32 value).
End Binary.

(** [for x in l { f(x)? }]. *)
Fixpoint for_each {S E A} (f : A → ST S E unit) (l : list A) : ST S E unit :=
  match l with [] => mret tt | x :: l => f x;; for_each f l end.

(** * Reading *)

Record Cursor := mkCursor { position : Z; remaining : list Z }.

(** A reader with errors [E]; those of [anyhow] carry no information. *)
Abbreviation Reader := (ST Cursor) (only parsing).

(** [map_err(|_| e)]. *)
Definition map_err {S E E' A} (e : E') (m : ST S E A) : ST S E' A := λ s,
  match m s with
  | Ret (Ok a, s) => Ret (Ok a, s)
  | Ret (Err _, s) => Ret (Err e, s)
  | Panic => Panic
  | OutOfFuel => OutOfFuel
  end.

Definition advance (c : Cursor) (n : nat) : Cursor := mkCursor (position c + Z.of_nat n) (drop n (remaining c)).

Module Read.
(** [Read::read_exact] and [Read::read] into a buffer of [n] bytes. *)
Definition read_exact (n : nat) : Reader unit (list Z) := λ c,
  if (n <=? length (remaining c))%nat then Ret (Ok (take n (remaining c)), advance c n) else Ret (Err tt, c).
Definition read {E} (n : nat) : Reader E (list Z) := λ c,
  Ret (Ok (take n (remaining c)), advance c (n `min` length (remaining c))).

Definition read_u8 : Reader unit Z :=
  buf ← read_exact 1; lift_o (at_index buf 0).
Definition read_u32 : Reader unit Z := buf ← read_exact 4; mret (Binary.from_le_bytes buf).

Fixpoint read_uleb_loop (fuel : nat) (value shift : Z) : Reader unit Z :=
  match fuel with
  | O => λ _, OutOfFuel
  | S fuel =>
      byte ← read_u8;
      let cur := Z.land byte 0x7f in
      let shifted := Z.shiftl cur shift mod U64_MOD in
      if negb (Z.shiftr shifted shift =? cur) then throw tt
      else
        let value := Z.lor value shifted in
        if Z.land byte 0x80 =? 0 then if (0 <? shift) && (cur =? 0) then throw tt else mret value
        else
          let shift := shift + 7 in
          if 64 <? shift then throw tt else read_uleb_loop fuel value shift
  end.

Definition read_uleb128_as_u64 : Reader unit Z := read_uleb_loop Binary.ULEB_FUEL 0 0.
End Read.

(** [VersionedBinary]: the content of the tables. *)
Record VersionedBinary := mkBinary { version : Z; binary : list Z; check_no_extraneous_bytes : bool }.

Module Versioned.
(** [VersionedCursor::new]: checks the magic and the version, and returns the version. *)
Definition new (max_version : Z) : Reader StatusCode Z :=
  magic ← Read.read 4;
  if negb (bool_decide (length magic = 4%nat)) || negb (bool_decide (magic = MOVE_MAGIC)) then throw BAD_MAGIC
  else
    version ← map_err MALFORMED Read.read_u32;
    if (version =? 0) || (Z.min max_version VERSION_MAX <? version) then throw UNKNOWN_VERSION else mret version.

(** A slice [start..end] panics out of bounds. *)
Definition slice (b : VersionedBinary) (start end_ : Z) : outcome (list Z) :=
  if (0 <=? start) && (start <=? end_) && (end_ <=? lenZ (binary b))
  then mret (take (Z.to_nat (end_ - start)) (drop (Z.to_nat start) (binary b))) else Panic.

Definition new_cursor (b : VersionedBinary) (start end_ : Z) : outcome Cursor :=
  bytes ← slice b start end_; mret (mkCursor 0 bytes).

Definition read_new_binary (version : Z) (check : bool) (n : Z) : Reader StatusCode VersionedBinary :=
  buffer ← map_err MALFORMED (Read.read_exact (Z.to_nat n));
  mret (mkBinary version buffer check).
End Versioned.

(** * Laws of writers *)

Definition fits (l : list Z) : Prop := lenZ l < U64_MOD.

Lemma fits_nil : fits [].
Proof. done. Qed.
Lemma fits_app_l l k : fits (l ++ k) → fits l.
Proof. unfold fits, lenZ. rewrite length_app. lia. Qed.
Lemma fits_app_r l k : fits (l ++ k) → fits k.
Proof. unfold fits, lenZ. rewrite length_app. lia. Qed.
Create HintDb fits.
#[export] Hint Resolve fits_nil fits_app_l fits_app_r : fits.

(** [w] appends [bs] to whatever has been written. *)
Definition emits (w : Writer) (bs : list Z) : Prop :=
  fits bs ∧ ∀ b, fits (b ++ bs) → w b = Ret (Ok tt, b ++ bs).

(** A writer ends in an error or appends bytes that do not depend on what has been written. *)
Definition writer (w : Writer) : Prop :=
  ∀ b, fits b → ∃ r b', w b = Ret (r, b') ∧
    match r with Ok _ => ∃ bs, b' = b ++ bs ∧ fits b' ∧ emits w bs | Err _ => True end.

Lemma emits_fun w bs bs' : emits w bs → emits w bs' → bs = bs'.
Proof. intros [Hf H] [Hf' H']. specialize (H [] Hf). specialize (H' [] Hf'). cbn in *. congruence. Qed.

Lemma emits_run w bs : writer w → emits w bs ↔ w [] = Ret (Ok tt, bs).
Proof.
  intros Hw. split.
  - intros [Hf H]. exact (H [] Hf).
  - intros H. destruct (Hw [] fits_nil) as (r & b' & Hr & Hok). rewrite H in Hr. injection Hr as <- <-.
    destruct Hok as (bs' & -> & _ & He). exact He.
Qed.

Lemma writer_ret : writer (mret tt).
Proof. intros b Hb. exists (Ok tt), b. split; [done|]. exists []. rewrite app_nil_r.
  split; [done|]. split; [done|]. split; [done|]. intros b' _. by rewrite app_nil_r.
Qed.

Lemma emits_ret bs : emits (mret tt) bs ↔ bs = [].
Proof. rewrite (emits_run _ _ writer_ret). split; [by intros [= ->]|by intros ->]. Qed.

Lemma writer_throw e : writer (throw e).
Proof. intros b Hb. by exists (Err e), b. Qed.

Lemma emits_throw e bs : ¬ emits (throw e) bs.
Proof. rewrite (emits_run _ _ (writer_throw e)). done. Qed.

Lemma writer_extend vec : writer (Binary.extend vec).
Proof.
  intros b Hb. unfold Binary.extend, checked_add, writer, emits, fits in *. case_decide as Hd; [|by eexists _, _].
  eexists _, _. split; [reflexivity|]. unfold lenZ in *. exists vec. rewrite length_app in *. split; [done|]. split; [lia|]. split; [lia|].
  intros b'. rewrite length_app. intros. rewrite decide_True by lia. done.
Qed.

Lemma emits_extend vec bs : emits (Binary.extend vec) bs ↔ fits vec ∧ bs = vec.
Proof.
  rewrite (emits_run _ _ (writer_extend vec)). unfold Binary.extend, checked_add, fits. cbn [lenZ length Z.of_nat].
  change (lenZ (@nil Z)) with 0. rewrite Z.add_0_l. case_decide; split; [by intros [= ->]|by intros [_ ->]|done|by intros [? _]].
Qed.

Lemma push_extend x : Binary.push x = Binary.extend [x].
Proof. done. Qed.

Lemma writer_push x : writer (Binary.push x).
Proof. rewrite push_extend. apply writer_extend. Qed.
Lemma emits_push x bs : emits (Binary.push x) bs ↔ bs = [x].
Proof. rewrite push_extend, emits_extend. split; [by intros [_ ->]|]. by intros ->. Qed.

Lemma writer_bind w1 w2 : writer w1 → writer w2 → writer (w1;; w2).
Proof.
  intros H1 H2 b Hb. unfold mbind, st_bind. destruct (H1 b Hb) as (r & b1 & -> & Hr). destruct r as [[]|e]; [|by eexists _, _].
  destruct Hr as (bs1 & -> & Hf1 & [_ He1]). destruct (H2 _ Hf1) as (r & b2 & Hw & Hr). exists r, b2. split; [done|].
  destruct r as [[]|e]; [|done]. destruct Hr as (bs2 & -> & Hf2 & [_ He2]). rewrite <- app_assoc in *. exists (bs1 ++ bs2).
  split; [done|]. split; [done|]. split; [eauto with fits|]. intros b' Hf'. rewrite app_assoc in Hf'.
  rewrite He1 by eauto with fits. rewrite He2 by done. by rewrite app_assoc.
Qed.

Lemma emits_bind w1 w2 bs : writer w1 → writer w2 →
  emits (w1;; w2) bs ↔ fits bs ∧ ∃ bs1 bs2, bs = bs1 ++ bs2 ∧ emits w1 bs1 ∧ emits w2 bs2.
Proof.
  intros H1 H2. split.
  - intros He. split; [apply He|]. apply emits_run in He; [|by apply writer_bind]. unfold mbind, st_bind in He.
    destruct (H1 [] fits_nil) as (r & b1 & Hw1 & Hr). rewrite Hw1 in He. destruct r as [[]|e]; [|done].
    destruct Hr as (bs1 & -> & Hf1 & He1). cbn [app] in *. destruct (H2 _ Hf1) as (r & b2 & Hw2 & Hr). rewrite Hw2 in He.
    destruct r as [[]|e]; [|done]. destruct Hr as (bs2 & -> & _ & He2). injection He as <-. eauto.
  - intros (Hf & bs1 & bs2 & -> & [_ He1] & [_ He2]). split; [done|]. intros b Hb. unfold mbind, st_bind.
    rewrite app_assoc in Hb. rewrite He1 by eauto with fits. rewrite He2 by done. by rewrite app_assoc.
Qed.

Lemma writer_for_each {A} (f : A → Writer) l : (∀ x, x ∈ l → writer (f x)) → writer (for_each f l).
Proof.
  induction l as [|x l IH]; intros Hf; cbn [for_each]; [apply writer_ret|].
  apply writer_bind; [apply Hf; by left|]. apply IH. intros y Hy. apply Hf. by right.
Qed.

Lemma emits_for_each {A} (f : A → Writer) l bs : (∀ x, x ∈ l → writer (f x)) →
  emits (for_each f l) bs ↔ fits bs ∧ ∃ bss, bs = concat bss ∧ Forall2 (λ x bs, emits (f x) bs) l bss.
Proof.
  revert bs. induction l as [|x l IH]; intros bs Hf; cbn [for_each].
  - rewrite emits_ret. split.
    + intros ->. split; [done|]. by exists [].
    + intros (_ & bss & -> & Hall%Forall2_nil_inv_l). by rewrite Hall.
  - assert (∀ y, y ∈ l → writer (f y)) as Hl by (intros y Hy; apply Hf; by right).
    rewrite emits_bind; [|apply Hf; by left|by apply writer_for_each]. split.
    + intros (Hfit & bs1 & bs2 & -> & He & (_ & bss & -> & Hall)%IH); [|done]. split; [done|]. exists (bs1 :: bss). split; [done|]. by constructor.
    + intros (Hfit & bss & -> & (bs1 & bss' & He & Hall & ->)%Forall2_cons_inv_l). split; [done|]. exists bs1, (concat bss').
      split; [done|]. split; [done|]. apply IH; [done|]. split; [eauto with fits|]. by exists bss'.
Qed.

(** * Laws of readers *)

(** Bytes that are in memory. *)
Definition bytes_ok (l : list Z) : Prop := fits l ∧ Forall (λ b, 0 <= b < 256) l.

Lemma bytes_ok_app_l l k : bytes_ok (l ++ k) → bytes_ok l.
Proof. intros [Hf Hb]. apply Forall_app in Hb as [? _]. split; [by eapply fits_app_l|done]. Qed.
Lemma bytes_ok_app_r l k : bytes_ok (l ++ k) → bytes_ok k.
Proof. intros [Hf Hb]. apply Forall_app in Hb as [_ ?]. split; [by eapply fits_app_r|done]. Qed.
#[export] Hint Resolve bytes_ok_app_l bytes_ok_app_r : fits.

(** [r] accepts exactly the values and bytes of [P], and leaves what follows. *)
Record denotes {E A} (r : Reader E A) (P : A → list Z → Prop) : Prop := {
  denotes_read : ∀ p x bs rest, P x bs → r (mkCursor p (bs ++ rest)) = Ret (Ok x, mkCursor (p + lenZ bs) rest);
  denotes_sound : ∀ p inp x c, bytes_ok inp → r (mkCursor p inp) = Ret (Ok x, c) →
    ∃ bs rest, inp = bs ++ rest ∧ c = mkCursor (p + lenZ bs) rest ∧ P x bs;
}.

Lemma denotes_ext {E A} (r : Reader E A) (P Q : A → list Z → Prop) :
  denotes r P → (∀ x bs, Q x bs → P x bs) → (∀ x bs, bytes_ok bs → P x bs → Q x bs) → denotes r Q.
Proof.
  intros [Hr Hs] HQP HPQ. split; [by eauto|]. intros p inp x c Hok Hrun.
  destruct (Hs _ _ _ _ Hok Hrun) as (bs & rest & -> & -> & HP). eexists bs, rest. split_and!; eauto with fits.
Qed.

Lemma lenZ_app {A} (l k : list A) : lenZ (l ++ k) = lenZ l + lenZ k.
Proof. unfold lenZ. rewrite length_app. lia. Qed.

Lemma lenZ_nil {A} p : p + lenZ (@nil A) = p.
Proof. unfold lenZ. cbn. lia. Qed.

Lemma lenZ_cons {A} p (x : A) l : p + lenZ (x :: l) = p + 1 + lenZ l.
Proof. unfold lenZ. cbn [length]. lia. Qed.

Lemma denotes_ret {E A} (a : A) : denotes (E := E) (mret a) (λ x bs, x = a ∧ bs = []).
Proof.
  split.
  - intros p x bs rest [-> ->]. by rewrite lenZ_nil.
  - intros p inp x c _ [= <- <-]. exists [], inp. by rewrite lenZ_nil.
Qed.

Lemma denotes_throw {E A} (e : E) : denotes (A := A) (throw e) (λ _ _, False).
Proof. by split. Qed.

Lemma denotes_bind_when {E A B} (r : Reader E A) (f : A → Reader E B) P Q :
  denotes r P → (∀ x bs, P x bs → denotes (f x) (Q x)) →
  denotes (r ≫= f) (λ y bs, ∃ x bs1 bs2, bs = bs1 ++ bs2 ∧ P x bs1 ∧ Q x y bs2).
Proof.
  intros [Hr Hs] Hf. split; unfold mbind, st_bind.
  - intros p y bs rest (x & bs1 & bs2 & -> & HP & HQ). rewrite <- app_assoc, (Hr _ x) by done.
    rewrite (denotes_read _ _ (Hf x _ HP) _ y) by done. rewrite lenZ_app. by rewrite Z.add_assoc.
  - intros p inp y c Hok Hrun. destruct (r (mkCursor p inp)) as [[[x|e] c1]| |] eqn:Hr1; [|done..].
    destruct (Hs _ _ _ _ Hok Hr1) as (bs1 & rest & -> & -> & HP).
    destruct (denotes_sound _ _ (Hf x _ HP) _ _ _ _ (bytes_ok_app_r _ _ Hok) Hrun) as (bs2 & rest' & -> & -> & HQ).
    exists (bs1 ++ bs2), rest'. rewrite <- app_assoc, lenZ_app, Z.add_assoc. split_and!; [done..|]. by exists x, bs1, bs2.
Qed.

Lemma denotes_bind {E A B} (r : Reader E A) (f : A → Reader E B) P Q :
  denotes r P → (∀ x, denotes (f x) (Q x)) →
  denotes (r ≫= f) (λ y bs, ∃ x bs1 bs2, bs = bs1 ++ bs2 ∧ P x bs1 ∧ Q x y bs2).
Proof. intros Hr Hf. by apply denotes_bind_when; [|intros x _ _]. Qed.

Lemma denotes_eq {E A} (r r' : Reader E A) P : (∀ c, r c = r' c) → denotes r P → denotes r' P.
Proof. intros Heq [Hr Hs]. split; [intros; rewrite <- Heq; by apply Hr|]. intros p inp x c. rewrite <- Heq. apply Hs. Qed.

Lemma st_bind_assoc {S E A B C} (m : ST S E A) (f : A → ST S E B) (g : B → ST S E C) s :
  ((m ≫= f) ≫= g) s = (m ≫= (λ x, f x ≫= g)) s.
Proof. unfold mbind, st_bind. by destruct (m s) as [[[]]| |]. Qed.

Lemma denotes_map_err {E E' A} (e : E') (r : Reader E A) P : denotes r P → denotes (map_err e r) P.
Proof.
  intros [Hr Hs]. split; unfold map_err.
  - intros p x bs rest HP. by rewrite (Hr _ x).
  - intros p inp x c Hok Hrun. destruct (r (mkCursor p inp)) as [[[a|a] c1]| |] eqn:Hr1; simplify_eq. by eapply Hs.
Qed.

Lemma denotes_read_exact n : denotes (Read.read_exact n) (λ x bs, x = bs ∧ length bs = n).
Proof.
  split; unfold Read.read_exact, advance.
  - intros p x bs rest [-> <-]. cbn [remaining position]. rewrite length_app, (proj2 (Nat.leb_le _ _)) by lia.
    by rewrite take_app_length, drop_app_length.
  - intros p inp x c _. cbn [remaining position]. destruct (Nat.leb_spec n (length inp)); [|done]. intros [= <- <-].
    exists (take n inp), (drop n inp). rewrite take_drop. unfold lenZ. rewrite length_take_le by lia. done.
Qed.

Lemma denotes_u8 : denotes Read.read_u8 (λ x bs, bs = [x]).
Proof.
  eapply denotes_ext; [eapply (denotes_bind _ _ _ (λ buf x bs, at_index buf 0 = Ret x ∧ bs = [])); [apply denotes_read_exact|]| |].
  - intros buf. unfold lift_o. split.
    + intros p x bs rest [-> ->]. by rewrite lenZ_nil.
    + intros p inp x c _ Hrun. destruct (at_index buf 0) eqn:Ha; simplify_eq. exists [], inp. by rewrite lenZ_nil.
  - intros x bs ->. by exists [x], [x], [].
  - cbn. intros x bs _ (buf & bs1 & bs2 & -> & [-> Hlen] & Ha & ->). destruct bs1 as [|y [|]]; try done. cbn in *. by injection Ha as ->.
Qed.

(** [r] neither panics nor runs out of fuel; when it succeeds it has taken at least [k] bytes. *)
Definition takes (k : nat) (c c' : Cursor) : Prop :=
  (length (remaining c') + k <= length (remaining c))%nat ∧
  position c' + lenZ (remaining c') = position c + lenZ (remaining c).

Definition total {E A} (k : nat) (r : Reader E A) : Prop :=
  ∀ c, ∃ res c', r c = Ret (res, c') ∧ match res with Ok _ => takes k c c' | Err _ => True end.

Lemma takes_advance n c : (n <= length (remaining c))%nat → takes n c (advance c n).
Proof. unfold takes, lenZ. cbn [advance remaining position]. rewrite length_drop. lia. Qed.

Lemma total_weaken {E A} k k' (r : Reader E A) : total k r → (k' <= k)%nat → total k' r.
Proof.
  intros Hr Hk c. destruct (Hr c) as (res & c' & Heq & H). exists res, c'. split; [done|]. unfold takes in *. destruct res; [lia|done].
Qed.
Lemma total_ret {E A} (a : A) : total (E := E) 0 (mret a).
Proof. intros c. exists (Ok a), c. split; [done|]. unfold takes. lia. Qed.
Lemma total_throw {E A} k (e : E) : total (A := A) k (throw e).
Proof. intros c. by exists (Err e), c. Qed.
Lemma total_bind {E A B} k1 k2 (r : Reader E A) (f : A → Reader E B) :
  total k1 r → (∀ x, total k2 (f x)) → total (k1 + k2) (r ≫= f).
Proof.
  intros Hr Hf c. unfold mbind, st_bind. destruct (Hr c) as (res & c1 & -> & H1). destruct res as [x|e]; [|by eexists _, _].
  destruct (Hf x c1) as (res & c2 & -> & H2). exists res, c2. split; [done|]. unfold takes in *. destruct res; [lia|done].
Qed.
Lemma total_map_err {E E' A} k (e : E') (r : Reader E A) : total k r → total k (map_err e r).
Proof. intros Hr c. unfold map_err. destruct (Hr c) as (res & c1 & -> & H1). destruct res; by eexists _, _. Qed.
Lemma total_read_exact n : total n (Read.read_exact n).
Proof.
  intros c. unfold Read.read_exact. destruct (Nat.leb_spec n (length (remaining c))); [|by eexists _, _].
  eexists _, _. split; [done|]. by apply takes_advance.
Qed.
Lemma total_read {E} n : total (E := E) 0 (Read.read n).
Proof.
  intros c. eexists _, _. split; [done|]. cbv iota. destruct (takes_advance (n `min` length (remaining c)) c) as [? ?]; [lia|].
  unfold takes. lia.
Qed.
Lemma total_u8 : total 1 Read.read_u8.
Proof.
  intros c. unfold Read.read_u8, mbind, st_bind, Read.read_exact. destruct (remaining c) as [|x l] eqn:Hc; cbn [length Nat.leb]; [by eexists _, _|].
  cbn [lift_o at_index]. eexists _, _. split; [done|]. apply takes_advance. rewrite Hc. cbn [length]. lia.
Qed.

Lemma total_lift_r {E A} (res : result E A) : total 0 (lift_r res).
Proof. intros c. exists res, c. split; [done|]. destruct res; [|done]. unfold takes. lia. Qed.

(** * ULEB128 *)

Lemma land_7f z : Z.land z 0x7f = z mod 128.
Proof. change 0x7f with (Z.ones 7). by rewrite Z.land_ones. Qed.

Lemma shiftr_7 z : Z.shiftr z 7 = z / 128.
Proof. by rewrite Z.shiftr_div_pow2. Qed.

Lemma lor_add a b n : 0 <= n → 0 <= a < 2 ^ n → Z.lor a (b * 2 ^ n) = a + b * 2 ^ n.
Proof.
  intros Hn Ha. destruct (Z.eq_dec a 0) as [->|Hne]; [by rewrite Z.lor_0_l|].
  assert (Z.land a (b * 2 ^ n) = 0) as Hland.
  { apply Z.bits_inj'. intros m Hm. rewrite Z.land_spec, Z.bits_0. destruct (Z.lt_ge_cases m n).
    - rewrite Z.mul_pow2_bits_low by done. apply andb_false_r.
    - rewrite (Z.bits_above_log2 a m); [done|lia|]. apply Z.log2_lt_pow2; [lia|].
      eapply Z.lt_le_trans; [apply Ha|]. apply Z.pow_le_mono_r; lia. }
  rewrite <- Z.lxor_lor by done. by rewrite Z.add_nocarry_lxor.
Qed.

Lemma lor_80 z : 0 <= z < 128 → Z.lor z 0x80 = z + 128.
Proof. intros. by apply (lor_add z 1 7). Qed.

Lemma land_80 b : 0 <= b < 256 → (Z.land b 0x80 =? 0) = (b <? 128).
Proof.
  intros Hb. assert (b = b mod 128 + (b / 128) * 128) as Hdec by (pose proof (Z.div_mod b 128); lia).
  assert (Z.land b 0x80 = (b / 128) * 128) as ->.
  { rewrite Z.land_comm. change (Z.land 0x80 b) with (Z.land (2 ^ 7) b). rewrite land_pow2 by done. rewrite Z.testbit_odd, shiftr_7.
    assert (b / 128 = 0 ∨ b / 128 = 1) as [Hq | Hq] by div_lia; by rewrite Hq. }
  destruct (Z.ltb_spec b 128), (Z.eqb_spec (b / 128 * 128) 0); try done; div_lia.
Qed.

(** The bytes of a number, as in the definition of the format. *)
Fixpoint uleb (fuel : nat) (val : Z) : list Z :=
  match fuel with
  | O => []
  | S fuel => if val <? 128 then [val] else (val mod 128 + 128) :: uleb fuel (val / 128)
  end.

Lemma length_uleb fuel val : (length (uleb fuel val) <= fuel)%nat.
Proof. revert val. induction fuel as [|fuel IH]; intros val; cbn [uleb length]; [lia|]. case_match; cbn [length]; [lia|]. specialize (IH (val / 128)). lia. Qed.

Lemma fits_small l : (length l <= 1000)%nat → fits l.
Proof. unfold fits, lenZ, U64_MOD. lia. Qed.

Lemma write_uleb_step fuel val : Binary.write_uleb_loop (S fuel) val =
  if val mod 128 =? val then Binary.push (val mod 128)
  else Binary.push (Z.lor (val mod 128) 0x80);; Binary.write_uleb_loop fuel (val / 128).
Proof. cbn [Binary.write_uleb_loop]. rewrite land_7f, shiftr_7. by destruct (_ =? _). Qed.

Lemma uleb_step fuel val :
  uleb (S fuel) val = if val <? 128 then [val] else (val mod 128 + 128) :: uleb fuel (val / 128).
Proof. done. Qed.

Lemma write_uleb_eq fuel val : (S fuel <= 10)%nat → 0 <= val < 128 ^ Z.of_nat (S fuel) →
  writer (Binary.write_uleb_loop (S fuel) val) ∧
  ∀ bs, emits (Binary.write_uleb_loop (S fuel) val) bs ↔ bs = uleb (S fuel) val.
Proof.
  revert val. induction fuel as [|fuel IH]; intros val Hfuel Hv; rewrite write_uleb_step, uleb_step;
    destruct (Z.ltb_spec val 128) as [Hlt|Hge].
  1,3: rewrite Z.mod_small, Z.eqb_refl by lia; split; [apply writer_push|intros bs; apply emits_push].
  - change (128 ^ Z.of_nat 1) with 128 in Hv. lia.
  - destruct (Z.eqb_spec (val mod 128) val); [pose proof (Z.mod_pos_bound val 128); lia|].
    destruct (IH (val / 128)) as [Hw He]; [lia| |].
    { rewrite Nat2Z.inj_succ, Z.pow_succ_r in Hv by lia. split; [apply Z.div_pos; lia|]. apply Z.div_lt_upper_bound; lia. }
    split; [apply writer_bind; [apply writer_push|done]|]. intros bs.
    rewrite emits_bind by (done || apply writer_push). setoid_rewrite emits_push. setoid_rewrite He.
    rewrite lor_80 by (apply Z.mod_pos_bound; lia). split.
    + by intros (_ & bs1 & bs2 & -> & -> & ->).
    + intros ->. split; [|by exists [val mod 128 + 128], (uleb (S fuel) (val / 128))]. apply fits_small. pose proof (length_uleb (S fuel) (val / 128)). cbn [length]. lia.
Qed.

(** One turn of the loop on a byte. *)
Lemma read_uleb_step fuel value shift p b rest : 0 <= shift <= 63 → 0 <= value < 2 ^ shift → 0 <= b < 256 →
  Read.read_uleb_loop (S fuel) value shift (mkCursor p (b :: rest)) =
  if 2 ^ 64 <=? b mod 128 * 2 ^ shift then Ret (Err tt, mkCursor (p + 1) rest)
  else if b <? 128 then
    if (0 <? shift) && (b mod 128 =? 0) then Ret (Err tt, mkCursor (p + 1) rest)
    else Ret (Ok (value + b mod 128 * 2 ^ shift), mkCursor (p + 1) rest)
  else if 64 <? shift + 7 then Ret (Err tt, mkCursor (p + 1) rest)
  else Read.read_uleb_loop fuel (value + b mod 128 * 2 ^ shift) (shift + 7) (mkCursor (p + 1) rest).
Proof.
  intros Hs Hval Hb. cbn [Read.read_uleb_loop]. unfold mbind at 1, st_bind at 1.
  change (Read.read_u8 (mkCursor p (b :: rest))) with (Ret (Ok b : result unit Z, mkCursor (p + 1) rest)). cbv iota beta.
  rewrite land_7f, land_80, Z.shiftl_mul_pow2 by lia. set (cur := b mod 128). assert (0 <= cur < 128) by (apply Z.mod_pos_bound; lia).
  assert (0 < 2 ^ shift) by (apply Z.pow_pos_nonneg; lia). rewrite Z.shiftr_div_pow2 by lia.
  destruct (Z.leb_spec (2 ^ 64) (cur * 2 ^ shift)) as [Hbig|Hsmall].
  - destruct (Z.eqb_spec ((cur * 2 ^ shift) mod U64_MOD / 2 ^ shift) cur) as [Heq|]; [exfalso|done].
    assert ((cur * 2 ^ shift) mod U64_MOD < U64_MOD) by (apply Z.mod_pos_bound; done).
    assert (cur * 2 ^ shift < U64_MOD); [|unfold U64_MOD in *; lia].
    eapply Z.le_lt_trans; [|done]. rewrite <- Heq at 1. rewrite Z.mul_comm. apply Z.mul_div_le. done.
  - rewrite Z.mod_small by (unfold U64_MOD; lia). rewrite Z.div_mul, Z.eqb_refl by lia. cbn [negb].
    rewrite lor_add by lia. destruct (b <? 128); [by destruct (_ && _)|]. by destruct (64 <? shift + 7).
Qed.

Definition uleb_group (fuel : nat) (value shift x : Z) (bs : list Z) : Prop :=
  ∃ v, 0 <= v ∧ v * 2 ^ shift < 2 ^ 64 ∧ (shift = 0 ∨ v ≠ 0) ∧ x = value + v * 2 ^ shift ∧ bs = uleb fuel v.

Lemma uleb_group_last fuel value shift b : 0 <= shift → 0 <= b < 128 → b * 2 ^ shift < 2 ^ 64 →
  (0 <? shift) && (b =? 0) = false → uleb_group (S fuel) value shift (value + b * 2 ^ shift) [b].
Proof.
  intros Hs Hb Hlt Hz. exists b. rewrite uleb_step, (proj2 (Z.ltb_lt b 128)) by lia. split_and!; try done; [lia|].
  destruct (Z.ltb_spec 0 shift), (Z.eqb_spec b 0); try done; lia.
Qed.

Lemma uleb_group_more fuel value shift b x bs : 0 <= shift → 128 <= b < 256 →
  uleb_group fuel (value + b mod 128 * 2 ^ shift) (shift + 7) x bs → uleb_group (S fuel) value shift x (b :: bs).
Proof.
  intros Hs Hb (v & Hv & Hlt & Hnz & -> & ->). assert (v ≠ 0) by lia. clear Hnz.
  rewrite Z.pow_add_r in Hlt by lia. change (2 ^ 7) with 128 in Hlt.
  assert (0 < 2 ^ shift) by (apply Z.pow_pos_nonneg; lia). pose proof (Z.mod_pos_bound b 128).
  exists (b mod 128 + v * 128). split; [lia|]. split.
  { destruct (Z.le_gt_cases shift 64) as [H64|H64].
    - assert (2 ^ 64 = 2 ^ (64 - shift) * 2 ^ shift) as Hpow by (rewrite <- Z.pow_add_r by lia; f_equal; lia).
      rewrite Hpow in *. apply Z.mul_lt_mono_pos_r; [done|].
      assert (v * 128 < 2 ^ (64 - shift)) by nia. destruct (Z.le_gt_cases shift 57) as [H57|H57].
      + assert (2 ^ (64 - shift) = 128 * 2 ^ (57 - shift)) as Hp by (change 128 with (2 ^ 7); rewrite <- Z.pow_add_r by lia; f_equal; lia). lia.
      + assert (2 ^ (64 - shift) <= 2 ^ 7) by (apply Z.pow_le_mono_r; lia). lia.
    - assert (2 ^ 64 < 2 ^ shift) by (apply Z.pow_lt_mono_r; lia). nia. }
  split; [lia|]. split.
  - rewrite Z.pow_add_r by lia. lia.
  - rewrite uleb_step, (proj2 (Z.ltb_ge _ 128)) by lia. rewrite Z.div_add, Z.mod_add, Zmod_mod, (Z.div_small (b mod 128)) by lia.
    f_equal. div_lia.
Qed.

Lemma uleb_group_inv fuel value shift x bs : 0 <= shift → uleb_group (S fuel) value shift x bs →
  ∃ b bs', bs = b :: bs' ∧ 0 <= b < 256 ∧ b mod 128 * 2 ^ shift < 2 ^ 64 ∧
    if b <? 128 then bs' = [] ∧ (0 <? shift) && (b mod 128 =? 0) = false ∧ x = value + b mod 128 * 2 ^ shift
    else uleb_group fuel (value + b mod 128 * 2 ^ shift) (shift + 7) x bs'.
Proof.
  intros Hs (v & Hv & Hlt & Hnz & -> & ->). rewrite uleb_step. assert (0 < 2 ^ shift) by (apply Z.pow_pos_nonneg; lia).
  destruct (Z.ltb_spec v 128) as [Hv8|Hv8].
  - exists v, []. rewrite (Z.mod_small v 128), (proj2 (Z.ltb_lt v 128)) by lia. split; [done|]. split; [lia|]. split; [done|]. split; [done|]. split; [|done].
    destruct (Z.ltb_spec 0 shift), (Z.eqb_spec v 0); try done; lia.
  - pose proof (Z.mod_pos_bound v 128). exists (v mod 128 + 128), (uleb fuel (v / 128)).
    replace ((v mod 128 + 128) mod 128) with (v mod 128) by div_lia. rewrite (proj2 (Z.ltb_ge _ 128)) by lia.
    assert (v = v mod 128 + v / 128 * 128) as Hdec by div_lia. split; [done|]. split; [lia|]. split; [nia|].
    exists (v / 128). rewrite Z.pow_add_r by lia. change (2 ^ 7) with 128. 
    split; [div_lia|]. split; [nia|]. split; [right; div_lia|]. split; [nia|done].
Qed.

Lemma denotes_uleb_loop fuel value shift : 0 <= shift → shift + 7 * Z.of_nat fuel = 70 → 0 <= value < 2 ^ shift →
  denotes (Read.read_uleb_loop fuel value shift) (uleb_group fuel value shift).
Proof.
  revert value shift. induction fuel as [|fuel IH]; intros value shift Hs Hsum Hval.
  { split; [|done]. intros p x bs rest (v & Hv & Hlt & Hnz & _). assert (shift = 70) as -> by lia.
    change (2 ^ 70) with (64 * 2 ^ 64) in Hlt. lia. }
  assert (shift <= 63) by lia. assert (0 < 2 ^ shift) by (apply Z.pow_pos_nonneg; lia).
  assert (∀ b, 0 <= b < 256 → let value := value + b mod 128 * 2 ^ shift in
    denotes (Read.read_uleb_loop fuel value (shift + 7)) (uleb_group fuel value (shift + 7))) as Hnext.
  { intros b Hb. apply IH; [lia..|]. pose proof (Z.mod_pos_bound b 128). rewrite Z.pow_add_r by lia. change (2 ^ 7) with 128. nia. }
  split.
  - intros p x bs rest (b & bs' & -> & Hb & Hlt & Hcase)%uleb_group_inv; [|done]. cbn [app].
    rewrite read_uleb_step, (proj2 (Z.leb_gt _ _)) by lia. destruct (b <? 128).
    + by destruct Hcase as (-> & -> & ->).
    + destruct (Z.ltb_spec 64 (shift + 7)).
      { destruct Hcase as (v & Hv & Hlt' & Hnz & _). assert (2 ^ 64 < 2 ^ (shift + 7)) by (apply Z.pow_lt_mono_r; lia). nia. }
      rewrite (denotes_read _ _ (Hnext b Hb) _ x) by done.
      by rewrite lenZ_cons.
  - intros p inp x c Hok Hrun. destruct inp as [|b inp]; [done|].
    pose proof (Forall_cons_1 _ _ _ (proj2 Hok)) as [Hb _].
    rewrite read_uleb_step in Hrun by (done || lia). destruct (Z.leb_spec (2 ^ 64) (b mod 128 * 2 ^ shift)); [done|].
    destruct (Z.ltb_spec b 128).
    + destruct ((0 <? shift) && (b mod 128 =? 0)) eqn:Hz; [done|]. injection Hrun as <- <-. exists [b], inp. split_and!; [done..|].
      rewrite (Z.mod_small b 128) in * by lia. apply uleb_group_last; done || lia.
    + destruct (64 <? shift + 7); [done|].
      destruct (denotes_sound _ _ (Hnext b Hb) _ _ _ _ (bytes_ok_app_r [b] inp Hok) Hrun) as (bs & rest & -> & -> & HP).
      exists (b :: bs), rest. rewrite lenZ_cons. split_and!; [done..|]. apply uleb_group_more; [done|lia|done].
Qed.

Lemma total_uleb_loop fuel value shift : shift + 7 * Z.of_nat fuel = 70 → 0 < shift + 7 → (fuel ≠ 0)%nat →
  total 1 (Read.read_uleb_loop fuel value shift).
Proof.
  revert value shift. induction fuel as [|fuel IH]; intros value shift Hsum Hpos Hne; [done|]. cbn [Read.read_uleb_loop].
  apply (total_bind 1 0); [apply total_u8|]. intros b. cbv zeta. repeat case_match; try apply total_throw; try apply total_ret.
  eapply total_weaken; [apply IH; lia|lia].
Qed.

(** What a [u64] is written as, and read from. *)
Lemma writer_uleb val : 0 <= val < U64_MOD → writer (Binary.write_u64_as_uleb128 val).
Proof. intros Hv. apply write_uleb_eq; [done|]. change (128 ^ Z.of_nat 10) with (2 ^ 70). unfold U64_MOD in Hv. lia. Qed.

Lemma emits_uleb val bs : 0 <= val < U64_MOD → emits (Binary.write_u64_as_uleb128 val) bs ↔ bs = uleb 10 val.
Proof. intros Hv. apply write_uleb_eq; [done|]. change (128 ^ Z.of_nat 10) with (2 ^ 70). unfold U64_MOD in Hv. lia. Qed.

Lemma denotes_uleb : denotes Read.read_uleb128_as_u64 (λ x bs, 0 <= x < U64_MOD ∧ emits (Binary.write_u64_as_uleb128 x) bs).
Proof.
  eapply denotes_ext; [by apply denotes_uleb_loop| |].
  - intros x bs [Hx He]. apply emits_uleb in He as ->; [|done]. exists x. rewrite Z.mul_1_r. split_and!; try done; [apply Hx|apply Hx|by left].
  - intros x bs _ (v & Hv & Hlt & _ & -> & ->). rewrite Z.mul_1_r in *. assert (0 <= v < U64_MOD) by done. split; [done|]. by apply emits_uleb.
Qed.

Lemma total_uleb : total 1 Read.read_uleb128_as_u64.
Proof. by apply total_uleb_loop. Qed.

(** ULEB128 is a canonical encoding of 64 bit integers.  Writing an integer takes at most ten bytes, reading them
    gives it back and stops after them; and whatever the reader accepts is exactly what the writer writes for the result: no
    overlong or overflowing form passes. *)
Theorem uleb_exact x p inp rest c :
  0 <= x < U64_MOD → bytes_ok inp →
  (∃ bs, Binary.write_u64_as_uleb128 x [] = Ret (Ok tt, bs) ∧ (length bs <= 10)%nat ∧
    Read.read_uleb128_as_u64 (mkCursor p (bs ++ rest)) = Ret (Ok x, mkCursor (p + lenZ bs) rest)) ∧
  (∀ y, Read.read_uleb128_as_u64 (mkCursor p inp) = Ret (Ok y, c) →
    0 <= y < U64_MOD ∧ ∃ bs, inp = bs ++ remaining c ∧ Binary.write_u64_as_uleb128 y [] = Ret (Ok tt, bs)).
Proof.
  intros Hx Hok. split.
  - exists (uleb 10 x). assert (emits (Binary.write_u64_as_uleb128 x) (uleb 10 x)) as He by by apply emits_uleb. split; [by apply emits_run; [apply writer_uleb|]|].
    split; [apply length_uleb|]. by apply (denotes_read _ _ denotes_uleb).
  - intros y (bs & rest' & -> & -> & Hy & He)%(denotes_sound _ _ denotes_uleb); [|done]. split; [done|]. exists bs. split; [done|].
    by apply emits_run; [apply writer_uleb|].
Qed.

Lemma uleb_exact_witness :
  (∃ bs, Binary.write_u64_as_uleb128 300 [] = Ret (Ok tt, bs) ∧ (length bs <= 10)%nat ∧
    Read.read_uleb128_as_u64 (mkCursor 0 (bs ++ [7])) = Ret (Ok 300, mkCursor (0 + lenZ bs) [7])) ∧
  ∃ bs, [0x80; 0x80; 0x01] = bs ++ [] ∧ Binary.write_u64_as_uleb128 16384 [] = Ret (Ok tt, bs).
Proof.
  destruct (uleb_exact 300 0 [0x80; 0x80; 0x01] [7] (mkCursor 3 [])) as [H1 H2]; [done|split; [done|by repeat constructor]|].
  split; [exact H1|]. destruct (H2 16384) as [_ ?]; [vm_compute; reflexivity|done].
Defined.

(** * Integers in little endian *)

Lemma length_to_le n v : length (Binary.to_le_bytes n v) = n.
Proof. revert v. induction n as [|n IH]; intros v; cbn; [done|]. by rewrite IH. Qed.

Lemma from_to_le n v : 0 <= v < 256 ^ Z.of_nat n → Binary.from_le_bytes (Binary.to_le_bytes n v) = v.
Proof.
  revert v. induction n as [|n IH]; intros v Hv; [change (256 ^ Z.of_nat 0) with 1 in Hv; cbn; lia|].
  rewrite Nat2Z.inj_succ, Z.pow_succ_r in Hv by lia. cbn [Binary.to_le_bytes]. unfold Binary.from_le_bytes in *. cbn [foldr].
  rewrite IH; [div_lia|]. split; [apply Z.div_pos; lia|]. apply Z.div_lt_upper_bound; lia.
Qed.

Lemma to_from_le n bs : length bs = n → Forall (λ b, 0 <= b < 256) bs →
  0 <= Binary.from_le_bytes bs < 256 ^ Z.of_nat n ∧ Binary.to_le_bytes n (Binary.from_le_bytes bs) = bs.
Proof.
  revert n. induction bs as [|b bs IH]; intros n <- Hb; [done|]. apply Forall_cons in Hb as [Hb Hbs].
  destruct (IH _ eq_refl Hbs) as [Hr Heq]. cbn [length]. rewrite Nat2Z.inj_succ, Z.pow_succ_r by lia. unfold Binary.from_le_bytes in *.
  cbn [foldr]. split; [lia|]. cbn [Binary.to_le_bytes]. rewrite (Z.mul_comm 256), Z.mod_add, Z.div_add, Z.mod_small, Z.div_small, Z.add_0_l by lia.
  by rewrite Heq.
Qed.

Lemma denotes_le n : denotes (buf ← Read.read_exact n; mret (Binary.from_le_bytes buf))
  (λ x bs, 0 <= x < 256 ^ Z.of_nat n ∧ bs = Binary.to_le_bytes n x).
Proof.
  eapply denotes_ext; [eapply denotes_bind; [apply denotes_read_exact|intros; apply denotes_ret]| |]; cbn beta.
  - intros x bs [Hx ->]. exists (Binary.to_le_bytes n x), (Binary.to_le_bytes n x), []. rewrite app_nil_r, length_to_le, from_to_le by done. done.
  - intros x bs [_ Hb] (buf & bs1 & bs2 & -> & [-> Hlen] & -> & ->). rewrite app_nil_r in *. destruct (to_from_le n bs1 Hlen Hb) as [Hr Heq]. done.
Qed.

Lemma total_le n : total n (buf ← Read.read_exact n; mret (Binary.from_le_bytes buf)).
Proof. rewrite <- (Nat.add_0_r n) at 1. apply total_bind; [apply total_read_exact|]. intros. apply total_ret. Qed.

(** * Conditions and repetition *)

Lemma denotes_if {E A} (b : bool) (r1 r2 : Reader E A) P1 P2 : denotes r1 P1 → denotes r2 P2 →
  denotes (if b then r1 else r2) (λ x bs, if b then P1 x bs else P2 x bs).
Proof. by destruct b. Qed.

Lemma denotes_guard {E A} (b : bool) (e : E) (r : Reader E A) P : denotes r P →
  denotes (if b then throw e else r) (λ x bs, b = false ∧ P x bs).
Proof.
  intros Hr. destruct b.
  - eapply denotes_ext; [apply denotes_throw| |]; cbn; [by intros ?? []|done].
  - eapply denotes_ext; [exact Hr| |]; cbn; [by intros ?? []|done].
Qed.

(** [for _ in 0..n { v.push(read()?) }]. *)
Fixpoint read_n {E A} (n : nat) (r : Reader E A) : Reader E (list A) :=
  match n with O => mret [] | S n => x ← r; l ← read_n n r; mret (x :: l) end.

Lemma denotes_read_n {E A} n (r : Reader E A) P : denotes r P →
  denotes (read_n n r) (λ l bs, length l = n ∧ ∃ bss, bs = concat bss ∧ Forall2 P l bss).
Proof.
  intros Hr. induction n as [|n IH]; cbn [read_n].
  - eapply denotes_ext; [apply denotes_ret| |]; cbn beta.
    + intros [|x l] bs (Hlen & bss & -> & Hall); [|done]. by apply Forall2_nil_inv_l in Hall as ->.
    + intros x bs _ [-> ->]. split; [done|]. by exists [].
  - eapply denotes_ext; [eapply denotes_bind; [exact Hr|intros x; eapply denotes_bind; [exact IH|intros; apply denotes_ret]]| |]; cbn beta.
    + intros [|x l] bs (Hlen & bss & -> & Hall); [done|]. apply Forall2_cons_inv_l in Hall as (bs1 & bss' & HP & Hall & ->).
      exists x, bs1, (concat bss'). split_and!; [done..|]. exists l, (concat bss'), []. rewrite app_nil_r. split; [done|]. split; [|done].
      split; [by injection Hlen|by exists bss'].
    + intros l bs _ (x & bs1 & bs2 & -> & HP & l' & bs3 & bs4 & -> & (Hlen & bss & -> & Hall) & -> & ->).
      split; [by cbn; rewrite Hlen|]. exists (bs1 :: bss). rewrite app_nil_r. split; [done|]. by constructor.
Qed.

Lemma total_read_n {E A} n (r : Reader E A) : total 0 r → total 0 (read_n n r).
Proof.
  intros Hr. induction n as [|n IH]; cbn [read_n]; [apply total_ret|].
  apply (total_bind 0 0); [done|]. intros x. apply (total_bind 0 0); [done|]. intros. apply total_ret.
Qed.

(** [while more(cursor.position()) { v.push(read()?) }]. *)
Fixpoint read_while {E A} (fuel : nat) (more : Z → bool) (r : Reader E A) : Reader E (list A) := λ c,
  if more (position c) then
    match fuel with
    | O => OutOfFuel
    | S fuel => (x ← r; l ← read_while fuel more r; mret (x :: l)) c
    end
  else Ret (Ok [], c).

(** On the [count] bytes of a table the loop ends where they end. *)
Definition more_iff (more : Z → bool) (count : Z) : Prop := ∀ p, p <= count → more p = true ↔ p < count.

Section read_while.
Context {E A : Type} (more : Z → bool) (count : Z) (r : Reader E A) (P : A → list Z → Prop).
Hypothesis Hmore : more_iff more count.

Lemma total_read_while fuel p inp : total 1 r → p + lenZ inp = count → (length inp <= fuel)%nat →
  ∃ res, read_while fuel more r (mkCursor p inp) = Ret res.
Proof.
  intros Hr Hp Hfuel. revert p inp Hp Hfuel. induction fuel as [|fuel IH]; intros p inp Hp Hfuel; cbn [read_while position].
  - destruct (more p) eqn:Hm; [|by eexists]. apply Hmore in Hm; unfold lenZ in Hp; lia.
  - destruct (more p) eqn:Hm; [|by eexists]. unfold mbind at 1, st_bind at 1.
    destruct (Hr (mkCursor p inp)) as (res & [p' inp'] & Hrun & Hres). rewrite Hrun. destruct res as [x|e]; [|by eexists].
    unfold takes in Hres. cbn [remaining position] in Hres.
    destruct (IH p' inp') as [[res c] Hw]; [lia|lia|]. unfold mbind, st_bind. rewrite Hw. destruct res; by eexists.
Qed.

Hypothesis Hr : denotes r P.
Hypothesis Hne : ∀ x bs, P x bs → bs ≠ [].

Lemma read_while_read fuel p l bss : Forall2 P l bss → p + lenZ (concat bss) = count → (length (concat bss) <= fuel)%nat →
  read_while fuel more r (mkCursor p (concat bss)) = Ret (Ok l, mkCursor count []).
Proof.
  intros Hall. revert fuel p. induction Hall as [|x bs l bss HP Hall IH]; intros fuel p Hp Hfuel; cbn [concat] in *.
  - rewrite lenZ_nil in Hp. subst p. destruct (more count) eqn:Hm; [apply Hmore in Hm; lia|]. destruct fuel; cbn [read_while position]; by rewrite Hm.
  - assert (0 < lenZ bs) by (unfold lenZ; specialize (Hne _ _ HP); destruct bs; [done|cbn; lia]).
    rewrite lenZ_app in Hp. assert (0 <= lenZ (concat bss)) by (unfold lenZ; lia).
    assert (more p = true) as Hm by (apply Hmore; lia). rewrite length_app in Hfuel. unfold lenZ in *.
    destruct fuel as [|fuel]; [lia|]. cbn [read_while position]. rewrite Hm. unfold mbind, st_bind.
    rewrite (denotes_read _ _ Hr _ x) by done. rewrite IH by (unfold lenZ; lia). done.
Qed.

Lemma read_while_sound fuel p inp l c : bytes_ok inp → p + lenZ inp = count →
  read_while fuel more r (mkCursor p inp) = Ret (Ok l, c) → ∃ bss, inp = concat bss ∧ Forall2 P l bss.
Proof.
  revert p inp l c. induction fuel as [|fuel IH]; intros p inp l c Hok Hp; cbn [read_while position].
  all: destruct (more p) eqn:Hm; [try done|].
  1,3: intros [= <- <-]; exists []; destruct inp as [|b inp]; [done|];
    assert (more p = true) by (apply Hmore; unfold lenZ in Hp; cbn [length] in Hp; lia); congruence.
  unfold mbind, st_bind. destruct (r (mkCursor p inp)) as [[[x|e] c1]| |] eqn:Hrun; try done.
  destruct (denotes_sound _ _ Hr _ _ _ _ Hok Hrun) as (bs & rest & -> & -> & HP).
  destruct (read_while _ _ _ _) as [[[l'|e] c2]| |] eqn:Hw; try done. intros [= <- <-].
  rewrite lenZ_app, Z.add_assoc in Hp. destruct (IH _ _ _ _ (bytes_ok_app_r _ _ Hok) Hp Hw) as (bss & -> & Hall).
  exists (bs :: bss). split; [done|]. by constructor.
Qed.
End read_while.
