(* ===== verification/Serializer.v ===== *)
(** The serializer of modules and scripts ([move-binary-format/src/serializer.rs]).

    A table is written to a temporary binary, and where it starts and how long it is kept in
    [CommonSerializer] or [ModuleSerializer]; the header is written afterwards.  The record of starts
    and sizes is part of the state where the source has [&mut self]. *)
From S2P Require Import Prelude MoveFormat BinaryFormat.
Import Binary.

Module Ser.

(** * Integers *)

Definition write_as_uleb128 (x max : Z) : Writer :=
  if max <? x then throw ValueTooBig else write_u64_as_uleb128 x.

Definition serialize_signature_index (idx : Z) : Writer := write_as_uleb128 idx TABLE_INDEX_MAX.
Definition serialize_module_handle_index (idx : Z) : Writer := write_as_uleb128 idx TABLE_INDEX_MAX.
Definition serialize_identifier_index (idx : Z) : Writer := write_as_uleb128 idx TABLE_INDEX_MAX.
Definition serialize_struct_handle_index (idx : Z) : Writer := write_as_uleb128 idx TABLE_INDEX_MAX.
Definition serialize_address_identifier_index (idx : Z) : Writer := write_as_uleb128 idx TABLE_INDEX_MAX.
Definition serialize_struct_def_index (idx : Z) : Writer := write_as_uleb128 idx TABLE_INDEX_MAX.
Definition serialize_function_handle_index (idx : Z) : Writer := write_as_uleb128 idx TABLE_INDEX_MAX.
Definition serialize_field_handle_index (idx : Z) : Writer := write_as_uleb128 idx TABLE_INDEX_MAX.
Definition serialize_field_inst_index (idx : Z) : Writer := write_as_uleb128 idx TABLE_INDEX_MAX.
Definition serialize_function_inst_index (idx : Z) : Writer := write_as_uleb128 idx TABLE_INDEX_MAX.
Definition serialize_struct_def_inst_index (idx : Z) : Writer := write_as_uleb128 idx TABLE_INDEX_MAX.
Definition seiralize_table_offset (offset : Z) : Writer := write_as_uleb128 offset TABLE_OFFSET_MAX.
Definition serialize_table_size (size : Z) : Writer := write_as_uleb128 size TABLE_SIZE_MAX.
Definition serialize_constant_pool_index (idx : Z) : Writer := write_as_uleb128 idx TABLE_INDEX_MAX.
Definition serialize_bytecode_count (len : Z) : Writer := write_as_uleb128 len BYTECODE_COUNT_MAX.
Definition serialize_identifier_size (len : Z) : Writer := write_as_uleb128 len IDENTIFIER_SIZE_MAX.
Definition serialize_constant_size (len : Z) : Writer := write_as_uleb128 len CONSTANT_SIZE_MAX.
Definition serialize_metadata_key_size (len : Z) : Writer := write_as_uleb128 len METADATA_KEY_SIZE_MAX.
Definition serialize_metadata_value_size (len : Z) : Writer := write_as_uleb128 len METADATA_VALUE_SIZE_MAX.
Definition serialize_field_count (len : Z) : Writer := write_as_uleb128 len FIELD_COUNT_MAX.
Definition serialize_field_offset (offset : Z) : Writer := write_as_uleb128 offset FIELD_OFFSET_MAX.
Definition serialize_acquires_count (len : Z) : Writer := write_as_uleb128 len ACQUIRES_COUNT_MAX.
Definition serialize_signature_size (len : Z) : Writer := write_as_uleb128 len SIGNATURE_SIZE_MAX.
Definition serialize_type_parameter_index (idx : Z) : Writer := write_as_uleb128 idx TYPE_PARAMETER_INDEX_MAX.
Definition serialize_type_parameter_count (len : Z) : Writer := write_as_uleb128 len TYPE_PARAMETER_COUNT_MAX.
Definition serialize_bytecode_offset (offset : Z) : Writer := write_as_uleb128 offset BYTECODE_INDEX_MAX.
Definition serialize_table_count (len : Z) : Writer := write_as_uleb128 len TABLE_COUNT_MAX.
Definition serialize_local_index (idx : Z) : Writer := write_as_uleb128 idx LOCAL_INDEX_MAX.

Definition validate_version (version : Z) : result SerError unit :=
  if negb ((VERSION_MIN <=? version) && (version <=? VERSION_MAX)) then Err UnsupportedVersion else Ok tt.

(** * Entries of tables *)

Definition serialize_module_handle (module_handle : ModuleHandle) : Writer :=
  serialize_address_identifier_index (mh_address module_handle);;
  serialize_identifier_index (mh_name module_handle).

Definition serialize_ability_set (set : AbilitySet) : Writer := write_as_uleb128 set Abilities.ALL.

Definition serialize_ability_sets (sets : list AbilitySet) : Writer :=
  serialize_type_parameter_count (lenZ sets);;
  for_each serialize_ability_set sets.

Definition serialize_type_parameter (type_param : StructTypeParameter) : Writer :=
  serialize_ability_set (constraints type_param);;
  write_as_uleb128 (if is_phantom type_param then 1 else 0) 1.

Definition serialize_type_parameters (type_parameters : list StructTypeParameter) : Writer :=
  serialize_type_parameter_count (lenZ type_parameters);;
  for_each serialize_type_parameter type_parameters.

Definition serialize_struct_handle (struct_handle : StructHandle) : Writer :=
  serialize_module_handle_index (sh_module struct_handle);;
  serialize_identifier_index (sh_name struct_handle);;
  serialize_ability_set (sh_abilities struct_handle);;
  serialize_type_parameters (sh_type_parameters struct_handle).

Definition serialize_function_handle (function_handle : FunctionHandle) : Writer :=
  serialize_module_handle_index (fh_module function_handle);;
  serialize_identifier_index (fh_name function_handle);;
  serialize_signature_index (fh_parameters function_handle);;
  serialize_signature_index (fh_return_ function_handle);;
  serialize_ability_sets (fh_type_parameters function_handle).

Definition serialize_function_instantiation (func_inst : FunctionInstantiation) : Writer :=
  serialize_function_handle_index (fi_handle func_inst);;
  serialize_signature_index (fi_type_parameters func_inst).

Definition serialize_identifier (string : Identifier) : Writer :=
  serialize_identifier_size (lenZ string);;
  for_each push string.

Definition serialize_address (address : AccountAddress) : Writer := for_each push address.

Definition serialize_byte_blob (size_serializer : Z → Writer) (blob : list Z) : Writer :=
  size_serializer (lenZ blob);;
  for_each push blob.

Definition serialize_signature_token_single_node_impl (token : SignatureToken) : Writer :=
  match token with
  | TBool => push (SType.as_u8 SType.BOOL)
  | TU8 => push (SType.as_u8 SType.U8)
  | TU16 => push (SType.as_u8 SType.U16)
  | TU32 => push (SType.as_u8 SType.U32)
  | TU64 => push (SType.as_u8 SType.U64)
  | TU128 => push (SType.as_u8 SType.U128)
  | TU256 => push (SType.as_u8 SType.U256)
  | TAddress => push (SType.as_u8 SType.ADDRESS)
  | TSigner => push (SType.as_u8 SType.SIGNER)
  | TVector _ => push (SType.as_u8 SType.VECTOR)
  | TStruct idx => push (SType.as_u8 SType.STRUCT);; serialize_struct_handle_index idx
  | TStructInstantiation idx type_params =>
      push (SType.as_u8 SType.STRUCT_INST);;
      serialize_struct_handle_index idx;;
      serialize_signature_size (lenZ type_params)
  | TReference _ => push (SType.as_u8 SType.REFERENCE)
  | TMutableReference _ => push (SType.as_u8 SType.MUTABLE_REFERENCE)
  | TTypeParameter idx => push (SType.as_u8 SType.TYPE_PARAMETER);; serialize_type_parameter_index idx
  end.

(** The iterator, which only looks at the token, runs before the bytes are written. *)
Definition serialize_signature_token (token : SignatureToken) : Writer :=
  nodes ← lift_o (Token.preorder_traversal_with_depth token);
  for_each (λ '(token, depth),
    if SIGNATURE_TOKEN_DEPTH_MAX <? depth then throw MaxDepthReached
    else serialize_signature_token_single_node_impl token) nodes.

Definition serialize_signature_tokens (tokens : list SignatureToken) : Writer :=
  serialize_signature_size (lenZ tokens);;
  for_each serialize_signature_token tokens.

Definition serialize_signature (signature : Signature) : Writer := serialize_signature_tokens signature.

Definition serialize_constant (constant : Constant) : Writer :=
  serialize_signature_token (type_ constant);;
  serialize_byte_blob serialize_constant_size (data constant).

Definition serialize_metadata_entry (metadata : Metadata) : Writer :=
  serialize_byte_blob serialize_metadata_key_size (key metadata);;
  serialize_byte_blob serialize_metadata_value_size (value metadata).

Definition serialize_field_definition (field_definition : FieldDefinition) : Writer :=
  serialize_identifier_index (fd_name field_definition);;
  serialize_signature_token (fd_signature field_definition).

Definition serialize_field_definitions (fields : list FieldDefinition) : Writer :=
  serialize_field_count (lenZ fields);;
  for_each serialize_field_definition fields.

Definition serialize_struct_definition (struct_definition : StructDefinition) : Writer :=
  serialize_struct_handle_index (sd_struct_handle struct_definition);;
  match field_information struct_definition with
  | NativeFields => push NATIVE_STRUCT
  | Declared fields => push DECLARED_STRUCT;; serialize_field_definitions fields
  end.

Definition serialize_struct_def_instantiation (struct_inst : StructDefInstantiation) : Writer :=
  serialize_struct_def_index (si_def struct_inst);;
  serialize_signature_index (si_type_parameters struct_inst).

Definition serialize_field_handle (field_handle : FieldHandle) : Writer :=
  serialize_struct_def_index (owner field_handle);;
  serialize_field_offset (field field_handle).

Definition serialize_field_instantiation (field_inst : FieldInstantiation) : Writer :=
  serialize_field_handle_index (fdi_handle field_inst);;
  serialize_signature_index (fdi_type_parameters field_inst).

Definition serialize_acquires (indices : list Z) : Writer :=
  serialize_acquires_count (lenZ indices);;
  for_each serialize_struct_def_index indices.

(** * Code *)

(** The instructions with 16, 32 and 256 bit integers. *)
Definition is_new_integer (opcode : BC.Bytecode) : bool :=
  match opcode with
  | BC.LdU16 _ | BC.LdU32 _ | BC.LdU256 _ | BC.CastU16 | BC.CastU32 | BC.CastU256 => true
  | _ => false
  end.

Definition serialize_operation (opcode : BC.Bytecode) : Writer :=
  match opcode with
  | BC.FreezeRef => push (Op.as_u8 Op.FREEZE_REF)
  | BC.Pop => push (Op.as_u8 Op.POP)
  | BC.Ret => push (Op.as_u8 Op.RET)
  | BC.BrTrue code_offset => push (Op.as_u8 Op.BR_TRUE);; serialize_bytecode_offset code_offset
  | BC.BrFalse code_offset => push (Op.as_u8 Op.BR_FALSE);; serialize_bytecode_offset code_offset
  | BC.Branch code_offset => push (Op.as_u8 Op.BRANCH);; serialize_bytecode_offset code_offset
  | BC.LdU8 value => push (Op.as_u8 Op.LD_U8);; push value
  | BC.LdU64 value => push (Op.as_u8 Op.LD_U64);; write_u64 value
  | BC.LdU128 value => push (Op.as_u8 Op.LD_U128);; write_u128 value
  | BC.CastU8 => push (Op.as_u8 Op.CAST_U8)
  | BC.CastU64 => push (Op.as_u8 Op.CAST_U64)
  | BC.CastU128 => push (Op.as_u8 Op.CAST_U128)
  | BC.LdConst const_idx => push (Op.as_u8 Op.LD_CONST);; serialize_constant_pool_index const_idx
  | BC.LdTrue => push (Op.as_u8 Op.LD_TRUE)
  | BC.LdFalse => push (Op.as_u8 Op.LD_FALSE)
  | BC.CopyLoc local_idx => push (Op.as_u8 Op.COPY_LOC);; serialize_local_index local_idx
  | BC.MoveLoc local_idx => push (Op.as_u8 Op.MOVE_LOC);; serialize_local_index local_idx
  | BC.StLoc local_idx => push (Op.as_u8 Op.ST_LOC);; serialize_local_index local_idx
  | BC.MutBorrowLoc local_idx => push (Op.as_u8 Op.MUT_BORROW_LOC);; serialize_local_index local_idx
  | BC.ImmBorrowLoc local_idx => push (Op.as_u8 Op.IMM_BORROW_LOC);; serialize_local_index local_idx
  | BC.MutBorrowField field_idx => push (Op.as_u8 Op.MUT_BORROW_FIELD);; serialize_field_handle_index field_idx
  | BC.MutBorrowFieldGeneric field_idx => push (Op.as_u8 Op.MUT_BORROW_FIELD_GENERIC);; serialize_field_inst_index field_idx
  | BC.ImmBorrowField field_idx => push (Op.as_u8 Op.IMM_BORROW_FIELD);; serialize_field_handle_index field_idx
  | BC.ImmBorrowFieldGeneric field_idx => push (Op.as_u8 Op.IMM_BORROW_FIELD_GENERIC);; serialize_field_inst_index field_idx
  | BC.Call method_idx => push (Op.as_u8 Op.CALL);; serialize_function_handle_index method_idx
  | BC.Pack class_idx => push (Op.as_u8 Op.PACK);; serialize_struct_def_index class_idx
  | BC.Unpack class_idx => push (Op.as_u8 Op.UNPACK);; serialize_struct_def_index class_idx
  | BC.CallGeneric method_idx => push (Op.as_u8 Op.CALL_GENERIC);; serialize_function_inst_index method_idx
  | BC.PackGeneric class_idx => push (Op.as_u8 Op.PACK_GENERIC);; serialize_struct_def_inst_index class_idx
  | BC.UnpackGeneric class_idx => push (Op.as_u8 Op.UNPACK_GENERIC);; serialize_struct_def_inst_index class_idx
  | BC.ReadRef => push (Op.as_u8 Op.READ_REF)
  | BC.WriteRef => push (Op.as_u8 Op.WRITE_REF)
  | BC.Add => push (Op.as_u8 Op.ADD)
  | BC.Sub => push (Op.as_u8 Op.SUB)
  | BC.Mul => push (Op.as_u8 Op.MUL)
  | BC.Mod => push (Op.as_u8 Op.MOD)
  | BC.Div => push (Op.as_u8 Op.DIV)
  | BC.BitOr => push (Op.as_u8 Op.BIT_OR)
  | BC.BitAnd => push (Op.as_u8 Op.BIT_AND)
  | BC.Xor => push (Op.as_u8 Op.XOR)
  | BC.Shl => push (Op.as_u8 Op.SHL)
  | BC.Shr => push (Op.as_u8 Op.SHR)
  | BC.Or => push (Op.as_u8 Op.OR)
  | BC.And => push (Op.as_u8 Op.AND)
  | BC.Not => push (Op.as_u8 Op.NOT)
  | BC.Eq => push (Op.as_u8 Op.EQ)
  | BC.Neq => push (Op.as_u8 Op.NEQ)
  | BC.Lt => push (Op.as_u8 Op.LT)
  | BC.Gt => push (Op.as_u8 Op.GT)
  | BC.Le => push (Op.as_u8 Op.LE)
  | BC.Ge => push (Op.as_u8 Op.GE)
  | BC.Abort => push (Op.as_u8 Op.ABORT)
  | BC.Nop => push (Op.as_u8 Op.NOP)
  | BC.ExistsDeprecated class_idx => push (Op.as_u8 Op.EXISTS_DEPRECATED);; serialize_struct_def_index class_idx
  | BC.MutBorrowGlobalDeprecated class_idx => push (Op.as_u8 Op.MUT_BORROW_GLOBAL_DEPRECATED);; serialize_struct_def_index class_idx
  | BC.ImmBorrowGlobalDeprecated class_idx => push (Op.as_u8 Op.IMM_BORROW_GLOBAL_DEPRECATED);; serialize_struct_def_index class_idx
  | BC.MoveFromDeprecated class_idx => push (Op.as_u8 Op.MOVE_FROM_DEPRECATED);; serialize_struct_def_index class_idx
  | BC.MoveToDeprecated class_idx => push (Op.as_u8 Op.MOVE_TO_DEPRECATED);; serialize_struct_def_index class_idx
  | BC.ExistsGenericDeprecated class_idx => push (Op.as_u8 Op.EXISTS_GENERIC_DEPRECATED);; serialize_struct_def_inst_index class_idx
  | BC.MutBorrowGlobalGenericDeprecated class_idx => push (Op.as_u8 Op.MUT_BORROW_GLOBAL_GENERIC_DEPRECATED);; serialize_struct_def_inst_index class_idx
  | BC.ImmBorrowGlobalGenericDeprecated class_idx => push (Op.as_u8 Op.IMM_BORROW_GLOBAL_GENERIC_DEPRECATED);; serialize_struct_def_inst_index class_idx
  | BC.MoveFromGenericDeprecated class_idx => push (Op.as_u8 Op.MOVE_FROM_GENERIC_DEPRECATED);; serialize_struct_def_inst_index class_idx
  | BC.MoveToGenericDeprecated class_idx => push (Op.as_u8 Op.MOVE_TO_GENERIC_DEPRECATED);; serialize_struct_def_inst_index class_idx
  | BC.VecPack sig_idx num => push (Op.as_u8 Op.VEC_PACK);; serialize_signature_index sig_idx;; write_u64 num
  | BC.VecLen sig_idx => push (Op.as_u8 Op.VEC_LEN);; serialize_signature_index sig_idx
  | BC.VecImmBorrow sig_idx => push (Op.as_u8 Op.VEC_IMM_BORROW);; serialize_signature_index sig_idx
  | BC.VecMutBorrow sig_idx => push (Op.as_u8 Op.VEC_MUT_BORROW);; serialize_signature_index sig_idx
  | BC.VecPushBack sig_idx => push (Op.as_u8 Op.VEC_PUSH_BACK);; serialize_signature_index sig_idx
  | BC.VecPopBack sig_idx => push (Op.as_u8 Op.VEC_POP_BACK);; serialize_signature_index sig_idx
  | BC.VecUnpack sig_idx num => push (Op.as_u8 Op.VEC_UNPACK);; serialize_signature_index sig_idx;; write_u64 num
  | BC.VecSwap sig_idx => push (Op.as_u8 Op.VEC_SWAP);; serialize_signature_index sig_idx
  | BC.LdU16 value => push (Op.as_u8 Op.LD_U16);; write_u16 value
  | BC.LdU32 value => push (Op.as_u8 Op.LD_U32);; write_u32 value
  | BC.LdU256 value => push (Op.as_u8 Op.LD_U256);; write_u256 value
  | BC.CastU16 => push (Op.as_u8 Op.CAST_U16)
  | BC.CastU32 => push (Op.as_u8 Op.CAST_U32)
  | BC.CastU256 => push (Op.as_u8 Op.CAST_U256)
  end.

Definition serialize_instruction_inner (major_version : Z) (opcode : BC.Bytecode) : Writer :=
  if is_new_integer opcode && (major_version <? VERSION_6) then throw UnsupportedInteger
  else serialize_operation opcode.

Definition serialize_code (major_version : Z) (code : list BC.Bytecode) : Writer :=
  serialize_bytecode_count (lenZ code);;
  for_each (serialize_instruction_inner major_version) code.

Definition serialize_code_unit (major_version : Z) (code : CodeUnit) : Writer :=
  serialize_signature_index (cu_locals code);;
  serialize_code major_version (cu_code code).

(** [Visibility as u8] and the bits of the flags. *)
Definition visibility_u8 (v : Visibility) : Z := match v with Private => 0 | Public => 1 | Friend => 3 end.
Definition DEPRECATED_SCRIPT : Z := 2.
Definition NATIVE : Z := 2.
Definition ENTRY : Z := 4.

Definition serialize_function_definition (major_version : Z) (function_definition : FunctionDefinition) : Writer :=
  serialize_function_handle_index (fn_function function_definition);;
  flags ← (if major_version <? VERSION_5 then
             push (match visibility function_definition, is_entry function_definition with
                   | Public, true => DEPRECATED_SCRIPT
                   | v, _ => visibility_u8 v
                   end);;
             mret 0
           else
             push (visibility_u8 (visibility function_definition));;
             mret (if is_entry function_definition then Z.lor 0 ENTRY else 0));
  push (match fn_code function_definition with None => Z.lor flags NATIVE | Some _ => flags end);;
  serialize_acquires (acquires_global_resources function_definition);;
  match fn_code function_definition with
  | Some code => serialize_code_unit major_version code
  | None => mret tt
  end.

(** * Tables *)

(** [CommonSerializer] and [ModuleSerializer]: a field [(start, size)] for every table. *)
Record Serializer := mkSerializer { major_version : Z; table_count : Z; table_field : TableType → Z * Z }.

Definition new (major_version : Z) : Serializer := mkSerializer major_version 0 (λ _, (0, 0)).

Definition check_index_in_binary (index : Z) : result SerError Z :=
  if U32_MOD - 1 <? index then Err UnitTooBig else Ok index.

Definition checked_calculate_table_size (start : Z) : ST (list Z) SerError Z := λ binary,
  match check_index_in_binary (lenZ binary) with
  | Ok offset => if start <=? offset then Ret (Ok (offset - start), binary) else Panic
  | Err e => Ret (Err e, binary)
  end.

(** [table_count += 1] on [u8]. *)
Definition count_table (self : Serializer) : Serializer :=
  mkSerializer (major_version self) ((table_count self + 1) mod U8_MOD) (table_field self).
Definition set_field (kind : TableType) (v : Z * Z) (self : Serializer) : Serializer :=
  mkSerializer (major_version self) (table_count self) (λ k, if decide (k = kind) then v else table_field self k).

(** What the methods for the single tables have in common: a table without entries is left out. *)
Definition serialize_table {A} (kind : TableType) (entry : A → Writer) (entries : list A) (self : Serializer) :
    ST (list Z) SerError Serializer :=
  match entries with
  | [] => mret self
  | _ :: _ =>
      let self := count_table self in
      start ← (λ binary, Ret (check_index_in_binary (lenZ binary), binary));
      for_each entry entries;;
      size ← checked_calculate_table_size start;
      mret (set_field kind (start, size) self)
  end.

Definition serialize_module_handles := serialize_table MODULE_HANDLES serialize_module_handle.
Definition serialize_struct_handles := serialize_table STRUCT_HANDLES serialize_struct_handle.
Definition serialize_function_handles := serialize_table FUNCTION_HANDLES serialize_function_handle.
Definition serialize_function_instantiations := serialize_table FUNCTION_INST serialize_function_instantiation.
Definition serialize_signatures := serialize_table SIGNATURES serialize_signature.
Definition serialize_identifiers := serialize_table IDENTIFIERS serialize_identifier.
Definition serialize_address_identifiers := serialize_table ADDRESS_IDENTIFIERS serialize_address.
Definition serialize_constants := serialize_table CONSTANT_POOL serialize_constant.
Definition serialize_metadata := serialize_table METADATA serialize_metadata_entry.
Definition serialize_struct_definitions := serialize_table STRUCT_DEFS serialize_struct_definition.
Definition serialize_struct_def_instantiations := serialize_table STRUCT_DEF_INST serialize_struct_def_instantiation.
Definition serialize_function_definitions (function_definitions : list FunctionDefinition) (self : Serializer) :=
  serialize_table FUNCTION_DEFS (serialize_function_definition (major_version self)) function_definitions self.
Definition serialize_field_handles := serialize_table FIELD_HANDLE serialize_field_handle.
Definition serialize_field_instantiations := serialize_table FIELD_INST serialize_field_instantiation.
Definition serialize_friend_declarations := serialize_table FRIEND_DECLS serialize_module_handle.

Definition serialize_common_tables (tables : CommonTables) (self : Serializer) : ST (list Z) SerError Serializer :=
  self ← serialize_module_handles (module_handles tables) self;
  self ← serialize_struct_handles (struct_handles tables) self;
  self ← serialize_function_handles (function_handles tables) self;
  self ← serialize_function_instantiations (function_instantiations tables) self;
  self ← serialize_signatures (signatures tables) self;
  self ← serialize_identifiers (identifiers tables) self;
  self ← serialize_address_identifiers (address_identifiers tables) self;
  self ← serialize_constants (constant_pool tables) self;
  if VERSION_5 <=? major_version self then serialize_metadata (metadata tables) self else mret self.

Definition serialize_tables (module_ : CompiledModule) (self : Serializer) : ST (list Z) SerError Serializer :=
  self ← serialize_common_tables module_ self;
  self ← serialize_struct_definitions (struct_defs module_) self;
  self ← serialize_struct_def_instantiations (struct_def_instantiations module_) self;
  self ← serialize_function_definitions (function_defs module_) self;
  self ← serialize_field_handles (field_handles module_) self;
  self ← serialize_field_instantiations (field_instantiations module_) self;
  serialize_friend_declarations (friend_decls module_) self.

(** * Header *)

Definition serialize_magic : Writer := for_each push MOVE_MAGIC.

Definition serialize_header (self : Serializer) : Writer := serialize_magic;; write_u32 (major_version self).

Definition serialize_table_index (kind : TableType) (offset count : Z) : Writer :=
  if negb (count =? 0) then
    push (TableKind.as_u8 kind);; seiralize_table_offset offset;; serialize_table_size count
  else mret tt.

(** One call of [serialize_table_index] for each of [kinds]. *)
Definition serialize_indices (self : Serializer) (kinds : list TableType) : Writer :=
  for_each (λ kind, serialize_table_index kind (table_field self kind).1 (table_field self kind).2) kinds.

Definition serialize_common_indices (self : Serializer) : Writer :=
  serialize_table_count (table_count self);;
  serialize_indices self
    [MODULE_HANDLES; STRUCT_HANDLES; FUNCTION_HANDLES; FUNCTION_INST; SIGNATURES; IDENTIFIERS; ADDRESS_IDENTIFIERS; CONSTANT_POOL];;
  if VERSION_5 <=? major_version self then serialize_indices self [METADATA] else mret tt.

Definition serialize_table_indices (self : Serializer) : Writer :=
  serialize_common_indices self;;
  serialize_indices self [STRUCT_DEFS; STRUCT_DEF_INST; FUNCTION_DEFS; FIELD_HANDLE; FIELD_INST; FRIEND_DECLS].

(** * Modules and scripts *)

(** [binary] is assigned only when nothing failed. *)
Definition commit (w : Writer) : Writer := λ binary,
  match w binary with Ret (Err e, _) => Ret (Err e, binary) | o => o end.

(** The tables go to a temporary binary. *)
Definition in_temp (w : ST (list Z) SerError Serializer) : ST (list Z) SerError (Serializer * list Z) := λ binary,
  match w [] with
  | Ret (Ok ser, temp) => Ret (Ok (ser, temp), binary)
  | Ret (Err e, _) => Ret (Err e, binary)
  | Panic => Panic
  | OutOfFuel => OutOfFuel
  end.

(** [CompiledModule::serialize_for_version]. *)
Definition module_serialize_for_version (bytecode_version : option Z) (self : CompiledModule) : Writer := commit (
  let version := default VERSION_MAX bytecode_version in
  lift_r (validate_version version);;
  '(ser, temp) ← in_temp (serialize_tables self (new version));
  if U32_MOD - 1 <? lenZ temp then throw UnitTooBig
  else
    serialize_header ser;;
    serialize_table_indices ser;;
    extend temp;;
    serialize_module_handle_index (self_module_handle_idx self)).

Definition serialize_main (script : CompiledScript) (self : Serializer) : Writer :=
  serialize_ability_sets (s_type_parameters script);;
  serialize_signature_index (s_parameters script);;
  serialize_code_unit (major_version self) (s_code script).

(** [CompiledScript::serialize_for_version]. *)
Definition script_serialize_for_version (bytecode_version : option Z) (self : CompiledScript) : Writer := commit (
  let version := default VERSION_MAX bytecode_version in
  lift_r (validate_version version);;
  '(ser, temp) ← in_temp (serialize_common_tables self (new version));
  if TABLE_CONTENT_SIZE_MAX <? lenZ temp then throw UnitTooBig
  else
    serialize_header ser;;
    serialize_common_indices ser;;
    extend temp;;
    serialize_main self ser).
End Ser.
