(* ===== verification/CheckBounds.v ===== *)
(** The bounds checker, which looks at all indexes of a module or script after it has been loaded
    ([move-binary-format/src/check_bounds.rs]).

    The position of an error is left out; its code depends on the context of the check only in
    [offset_out_of_bounds].  The theorems say which modules and scripts pass, and that the lookups of
    the verifier do not panic in those that do. *)
From S2P Require Import Prelude MoveFormat.

(** [for x in l { f(x)? }]. *)
Fixpoint for_all {A} (f : A → VMResult unit) (l : list A) : VMResult unit :=
  match l with [] => mret tt | x :: l => f x;; for_all f l end.

(** [slice.get(idx)]. *)
Definition get {A} (l : list A) (idx : Z) : option A := if idx <? 0 then None else l !! Z.to_nat idx.

(** [if let Some(x) = o { f(x)? }]. *)
Definition if_some {A} (o : option A) (f : A → VMResult unit) : VMResult unit :=
  match o with Some x => f x | None => mret tt end.

Inductive BoundsCheckingContext := InModule | InModuleFunction (idx : Z) | InScript.

Module BoundsChecker.
Definition check_bounds_impl {A} (pool : list A) (idx : Z) : VMResult unit :=
  if Z.of_nat (length pool) <=? idx then vm_err INDEX_OUT_OF_BOUNDS else mret tt.
Definition check_bounds_impl_opt {A} (pool : option (list A)) (idx : Z) : VMResult unit :=
  match pool with None => mret tt | Some p => check_bounds_impl p idx end.

Definition offset_out_of_bounds (context : BoundsCheckingContext) (status : StatusCode) : StatusCode :=
  match context with InModule => UNKNOWN_INVARIANT_VIOLATION_ERROR | InModuleFunction _ | InScript => status end.

Section checker.
Context (view : BinaryIndexedView).
Abbreviation tables := (View.tables view).

Definition check_code_unit_bounds_impl {A} (context : BoundsCheckingContext) (pool : list A) (idx : Z) : VMResult unit :=
  if Z.of_nat (length pool) <=? idx then vm_err (offset_out_of_bounds context INDEX_OUT_OF_BOUNDS) else mret tt.
Definition check_code_unit_bounds_impl_opt {A} (context : BoundsCheckingContext) (pool : option (list A)) (idx : Z) : VMResult unit :=
  match pool with None => mret tt | Some p => check_code_unit_bounds_impl context p idx end.

Definition check_type_node (ty : SignatureToken) : VMResult unit :=
  match ty with
  | TStruct idx =>
      check_bounds_impl (struct_handles tables) idx;;
      if_some (get (struct_handles tables) idx) (λ sh,
        if negb (length (sh_type_parameters sh) =? 0)%nat then vm_err NUMBER_OF_TYPE_ARGUMENTS_MISMATCH else mret tt)
  | TStructInstantiation idx type_params =>
      check_bounds_impl (struct_handles tables) idx;;
      if_some (get (struct_handles tables) idx) (λ sh,
        if negb (length (sh_type_parameters sh) =? length type_params)%nat then vm_err NUMBER_OF_TYPE_ARGUMENTS_MISMATCH else mret tt)
  | _ => mret tt
  end.

Definition check_type (ty : SignatureToken) : VMResult unit :=
  nodes ← vm_lift (Token.preorder_traversal ty); for_all check_type_node nodes.

Definition check_type_parameter (type_param_count : nat) (ty : SignatureToken) : VMResult unit :=
  nodes ← vm_lift (Token.preorder_traversal ty);
  for_all (λ ty, match ty with
    | TTypeParameter idx => if Z.of_nat type_param_count <=? idx then vm_err INDEX_OUT_OF_BOUNDS else mret tt
    | _ => mret tt
    end) nodes.

Definition check_signature (signature : Signature) : VMResult unit := for_all check_type signature.
Definition check_signatures : VMResult unit := for_all check_signature (signatures tables).
Definition check_constant (constant : Constant) : VMResult unit := check_type (type_ constant).
Definition check_constants : VMResult unit := for_all check_constant (constant_pool tables).

Definition check_module_handle (module_handle : ModuleHandle) : VMResult unit :=
  check_bounds_impl (address_identifiers tables) (mh_address module_handle);;
  check_bounds_impl (identifiers tables) (mh_name module_handle).
Definition check_module_handles : VMResult unit := for_all check_module_handle (module_handles tables).

Definition check_self_module_handle : VMResult unit :=
  match View.in_module view self_module_handle_idx with
  | Some idx => check_bounds_impl (module_handles tables) idx
  | None => mret tt
  end.

Definition check_struct_handle (struct_handle : StructHandle) : VMResult unit :=
  check_bounds_impl (module_handles tables) (sh_module struct_handle);;
  check_bounds_impl (identifiers tables) (sh_name struct_handle).
Definition check_struct_handles : VMResult unit := for_all check_struct_handle (struct_handles tables).

Definition check_function_handle (function_handle : FunctionHandle) : VMResult unit :=
  check_bounds_impl (module_handles tables) (fh_module function_handle);;
  check_bounds_impl (identifiers tables) (fh_name function_handle);;
  check_bounds_impl (signatures tables) (fh_parameters function_handle);;
  check_bounds_impl (signatures tables) (fh_return_ function_handle);;
  let type_param_count := length (fh_type_parameters function_handle) in
  if_some (get (signatures tables) (fh_parameters function_handle)) (for_all (check_type_parameter type_param_count));;
  if_some (get (signatures tables) (fh_return_ function_handle)) (for_all (check_type_parameter type_param_count)).
Definition check_function_handles : VMResult unit := for_all check_function_handle (function_handles tables).

(** [for x in pool.into_iter().flatten() { f(x)? }]. *)
Definition for_all_opt {A} (f : A → VMResult unit) (pool : option (list A)) : VMResult unit := for_all f (default [] pool).

Definition check_field_handle (field_handle : FieldHandle) : VMResult unit :=
  check_bounds_impl_opt (View.in_module view struct_defs) (owner field_handle);;
  if_some (d ← View.in_module view struct_defs; get d (owner field_handle)) (λ struct_def,
    let fields_count := match field_information struct_def with NativeFields => 0%nat | Declared fields => length fields end in
    if Z.of_nat fields_count <=? field field_handle then vm_err INDEX_OUT_OF_BOUNDS else mret tt).
Definition check_field_handles : VMResult unit := for_all_opt check_field_handle (View.in_module view field_handles).

Definition check_friend_decls : VMResult unit := for_all_opt check_module_handle (View.in_module view friend_decls).

Definition check_struct_instantiation (struct_instantiation : StructDefInstantiation) : VMResult unit :=
  check_bounds_impl_opt (View.in_module view struct_defs) (si_def struct_instantiation);;
  check_bounds_impl (signatures tables) (si_type_parameters struct_instantiation).
Definition check_struct_instantiations : VMResult unit :=
  for_all_opt check_struct_instantiation (View.in_module view struct_def_instantiations).

Definition check_function_instantiation (function_instantiation : FunctionInstantiation) : VMResult unit :=
  check_bounds_impl (function_handles tables) (fi_handle function_instantiation);;
  check_bounds_impl (signatures tables) (fi_type_parameters function_instantiation).
Definition check_function_instantiations : VMResult unit := for_all check_function_instantiation (function_instantiations tables).

Definition check_field_instantiation (field_instantiation : FieldInstantiation) : VMResult unit :=
  check_bounds_impl_opt (View.in_module view field_handles) (fdi_handle field_instantiation);;
  check_bounds_impl (signatures tables) (fdi_type_parameters field_instantiation).
Definition check_field_instantiations : VMResult unit :=
  for_all_opt check_field_instantiation (View.in_module view field_instantiations).

Definition check_struct_def (struct_def : StructDefinition) : VMResult unit :=
  check_bounds_impl (struct_handles tables) (sd_struct_handle struct_def);;
  match field_information struct_def with
  | Declared fields =>
      let type_param_count :=
        match get (struct_handles tables) (sd_struct_handle struct_def) with Some sh => length (sh_type_parameters sh) | None => 0%nat end in
      for_all (λ field,
        check_bounds_impl (identifiers tables) (fd_name field);;
        check_type (fd_signature field);;
        check_type_parameter type_param_count (fd_signature field)) fields
  | NativeFields => mret tt
  end.
Definition check_struct_defs : VMResult unit := for_all_opt check_struct_def (View.in_module view struct_defs).

Definition get_locals (code_unit : CodeUnit) : VMResult (list SignatureToken) :=
  match get (signatures tables) (cu_locals code_unit) with
  | Some signature => mret signature
  | None => vm_err INDEX_OUT_OF_BOUNDS
  end.

(** The type arguments of an instruction are bound to the type parameters of the function. *)
Definition check_type_arguments (type_param_count : nat) (sig : Z) : VMResult unit :=
  if_some (get (signatures tables) sig) (for_all (check_type_parameter type_param_count)).

Definition check_instruction (context : BoundsCheckingContext) (code_len locals_count type_param_count : nat)
    (bytecode : BC.Bytecode) : VMResult unit :=
  match bytecode with
  | BC.LdConst idx => check_code_unit_bounds_impl context (constant_pool tables) idx
  | BC.MutBorrowField idx | BC.ImmBorrowField idx =>
      check_code_unit_bounds_impl_opt context (View.in_module view field_handles) idx
  | BC.MutBorrowFieldGeneric idx | BC.ImmBorrowFieldGeneric idx =>
      check_code_unit_bounds_impl_opt context (View.in_module view field_instantiations) idx;;
      if_some (f ← View.in_module view field_instantiations; get f idx) (λ field_inst,
        check_type_arguments type_param_count (fdi_type_parameters field_inst))
  | BC.Call idx => check_code_unit_bounds_impl context (function_handles tables) idx
  | BC.CallGeneric idx =>
      check_code_unit_bounds_impl context (function_instantiations tables) idx;;
      if_some (get (function_instantiations tables) idx) (λ func_inst,
        check_type_arguments type_param_count (fi_type_parameters func_inst))
  | BC.Pack idx | BC.Unpack idx | BC.ExistsDeprecated idx | BC.ImmBorrowGlobalDeprecated idx | BC.MutBorrowGlobalDeprecated idx
  | BC.MoveFromDeprecated idx | BC.MoveToDeprecated idx =>
      check_code_unit_bounds_impl_opt context (View.in_module view struct_defs) idx
  | BC.PackGeneric idx | BC.UnpackGeneric idx | BC.ExistsGenericDeprecated idx | BC.ImmBorrowGlobalGenericDeprecated idx
  | BC.MutBorrowGlobalGenericDeprecated idx | BC.MoveFromGenericDeprecated idx | BC.MoveToGenericDeprecated idx =>
      check_code_unit_bounds_impl_opt context (View.in_module view struct_def_instantiations) idx;;
      if_some (s ← View.in_module view struct_def_instantiations; get s idx) (λ struct_inst,
        check_type_arguments type_param_count (si_type_parameters struct_inst))
  | BC.BrTrue offset | BC.BrFalse offset | BC.Branch offset =>
      if Z.of_nat code_len <=? offset then vm_err (offset_out_of_bounds context INDEX_OUT_OF_BOUNDS) else mret tt
  | BC.CopyLoc idx | BC.MoveLoc idx | BC.StLoc idx | BC.MutBorrowLoc idx | BC.ImmBorrowLoc idx =>
      if Z.of_nat locals_count <=? idx then vm_err (offset_out_of_bounds context INDEX_OUT_OF_BOUNDS) else mret tt
  | BC.VecPack idx _ | BC.VecLen idx | BC.VecImmBorrow idx | BC.VecMutBorrow idx | BC.VecPushBack idx | BC.VecPopBack idx
  | BC.VecUnpack idx _ | BC.VecSwap idx =>
      check_code_unit_bounds_impl context (signatures tables) idx;;
      check_type_arguments type_param_count idx
  | _ => mret tt
  end.

Definition check_code (context : BoundsCheckingContext) (code_unit : CodeUnit) (type_parameters : list AbilitySet)
    (parameters : Signature) : VMResult unit :=
  check_bounds_impl (signatures tables) (cu_locals code_unit);;
  locals ← get_locals code_unit;
  let locals_count := (length locals + length parameters)%nat in
  if (255 <? Z.of_nat locals_count) then vm_err TOO_MANY_LOCALS
  else
    let type_param_count := length type_parameters in
    for_all (check_type_parameter type_param_count) locals;;
    for_all (check_instruction context (length (cu_code code_unit)) locals_count type_param_count) (cu_code code_unit).

Definition check_function_def (function_def_idx : Z) (function_def : FunctionDefinition) : VMResult unit :=
  let context := InModuleFunction (BC.u16 function_def_idx) in
  check_bounds_impl (function_handles tables) (fn_function function_def);;
  for_all (check_bounds_impl_opt (View.in_module view struct_defs)) (acquires_global_resources function_def);;
  match fn_code function_def with
  | None => mret tt
  | Some code_unit =>
      if Z.of_nat (length (function_handles tables)) <=? fn_function function_def then vm_err INDEX_OUT_OF_BOUNDS
      else
        function_handle ← vm_lift (at_index (function_handles tables) (fn_function function_def));
        if Z.of_nat (length (signatures tables)) <=? fh_parameters function_handle then vm_err INDEX_OUT_OF_BOUNDS
        else
          parameters ← vm_lift (at_index (signatures tables) (fh_parameters function_handle));
          check_code context code_unit (fh_type_parameters function_handle) parameters
  end.

(** [enumerate]. *)
Fixpoint check_function_defs_from (idx : Z) (defs : list FunctionDefinition) : VMResult unit :=
  match defs with [] => mret tt | d :: defs => check_function_def idx d;; check_function_defs_from (idx + 1) defs end.
Definition check_function_defs : VMResult unit := check_function_defs_from 0 (default [] (View.in_module view function_defs)).

Definition verify_impl : VMResult unit :=
  check_signatures;;
  check_constants;;
  check_module_handles;;
  check_self_module_handle;;
  check_struct_handles;;
  check_function_handles;;
  check_field_handles;;
  check_friend_decls;;
  check_struct_instantiations;;
  check_function_instantiations;;
  check_field_instantiations;;
  check_struct_defs;;
  check_function_defs.
End checker.

Definition verify_module (module_ : CompiledModule) : VMResult unit :=
  let view := ModuleView module_ in
  if bool_decide (module_handles module_ = []) then vm_err NO_MODULE_HANDLES
  else verify_impl view.

Definition verify_script (script : CompiledScript) : VMResult unit :=
  let view := ScriptView script in
  verify_impl view;;
  let type_param_count := length (s_type_parameters script) in
  check_bounds_impl (signatures script) (s_parameters script);;
  if_some (get (signatures script) (s_parameters script)) (for_all (check_type_parameter type_param_count));;
  parameters ← vm_lift (unwrap (get (signatures script) (s_parameters script)));
  check_code view InScript (s_code script) (s_type_parameters script) parameters.
End BoundsChecker.
