(* ===== verification/Deserializer.v ===== *)
(** The deserializer of modules and scripts ([move-binary-format/src/deserializer.rs]), with the names
    that it accepts ([move-core-types/src/identifier.rs]).

    The version of a cursor, which no read changes, is an argument of the readers whose format
    depends on it.  A loop over the bytes of a table has their number as fuel. *)
From S2P Require Import Prelude MoveFormat BinaryFormat CheckBounds.

(** * Identifiers *)

Module Ident.
Definition between (lo hi b : Z) : bool := (lo <=? b) && (b <=? hi).

(** ASCII letters, digits and the underscore. *)
Definition is_valid_identifier_char (b : Z) : bool :=
  (b =? 95) || between 97 122 b || between 65 90 b || between 48 57 b.

Definition all_bytes_valid (b : list Z) (start_offset : nat) : bool := forallb is_valid_identifier_char (drop start_offset b).

(** The bytes of "<SELF>". *)
Definition SELF : list Z := [60; 83; 69; 76; 70; 62].

Definition is_valid (b : list Z) : bool :=
  bool_decide (b = SELF) ||
  match b with
  | [] => false
  | x :: _ =>
      if between 97 122 x || between 65 90 x then all_bytes_valid b 1
      else (x =? 95) && (1 <? length b)%nat && all_bytes_valid b 1
  end.

(** [Identifier::from_utf8]: what is valid is ASCII, so it is UTF-8 as well. *)
Definition from_utf8 (vec : list Z) : option Identifier := if is_valid vec then Some vec else None.
End Ident.

Module Des.

(** * Integers *)

Definition read_u16_internal : Reader StatusCode Z :=
  map_err BAD_U16 (buf ← Read.read_exact 2; mret (Binary.from_le_bytes buf)).
Definition read_u32_internal : Reader StatusCode Z :=
  map_err BAD_U32 (buf ← Read.read_exact 4; mret (Binary.from_le_bytes buf)).
Definition read_u64_internal : Reader StatusCode Z :=
  map_err BAD_U64 (buf ← Read.read_exact 8; mret (Binary.from_le_bytes buf)).
Definition read_u128_internal : Reader StatusCode Z :=
  map_err BAD_U128 (buf ← Read.read_exact 16; mret (Binary.from_le_bytes buf)).
Definition read_u256_internal : Reader StatusCode Z :=
  map_err BAD_U256 (buf ← Read.read_exact 32; mret (Binary.from_le_bytes buf)).

(** [read_uleb_internal::<T>] for an unsigned [T] with [size] values. *)
Definition read_uleb_internal (size max : Z) : Reader StatusCode Z :=
  x ← map_err MALFORMED Read.read_uleb128_as_u64;
  if max <? x then throw MALFORMED
  else if size <=? x then throw UNKNOWN_INVARIANT_VIOLATION_ERROR else mret x.

Definition load_signature_index : Reader StatusCode Z := read_uleb_internal U16_MOD TABLE_INDEX_MAX.
Definition load_module_handle_index : Reader StatusCode Z := read_uleb_internal U16_MOD TABLE_INDEX_MAX.
Definition load_identifier_index : Reader StatusCode Z := read_uleb_internal U16_MOD TABLE_INDEX_MAX.
Definition load_struct_handle_index : Reader StatusCode Z := read_uleb_internal U16_MOD TABLE_INDEX_MAX.
Definition load_address_identifier_index : Reader StatusCode Z := read_uleb_internal U16_MOD TABLE_INDEX_MAX.
Definition load_struct_def_index : Reader StatusCode Z := read_uleb_internal U16_MOD TABLE_INDEX_MAX.
Definition load_function_handle_index : Reader StatusCode Z := read_uleb_internal U16_MOD TABLE_INDEX_MAX.
Definition load_field_handle_index : Reader StatusCode Z := read_uleb_internal U16_MOD TABLE_INDEX_MAX.
Definition load_field_inst_index : Reader StatusCode Z := read_uleb_internal U16_MOD TABLE_INDEX_MAX.
Definition load_function_inst_index : Reader StatusCode Z := read_uleb_internal U16_MOD TABLE_INDEX_MAX.
Definition load_struct_def_inst_index : Reader StatusCode Z := read_uleb_internal U16_MOD TABLE_INDEX_MAX.
Definition load_constant_pool_index : Reader StatusCode Z := read_uleb_internal U16_MOD TABLE_INDEX_MAX.
Definition load_bytecode_count : Reader StatusCode Z := read_uleb_internal U64_MOD BYTECODE_COUNT_MAX.
Definition load_bytecode_index : Reader StatusCode Z := read_uleb_internal U16_MOD BYTECODE_INDEX_MAX.
Definition load_acquires_count : Reader StatusCode Z := read_uleb_internal U64_MOD ACQUIRES_COUNT_MAX.
Definition load_field_count : Reader StatusCode Z := read_uleb_internal U64_MOD FIELD_COUNT_MAX.
Definition load_type_parameter_count : Reader StatusCode Z := read_uleb_internal U64_MOD TYPE_PARAMETER_COUNT_MAX.
Definition load_signature_size : Reader StatusCode Z := read_uleb_internal U64_MOD SIGNATURE_SIZE_MAX.
Definition load_constant_size : Reader StatusCode Z := read_uleb_internal U64_MOD CONSTANT_SIZE_MAX.
Definition load_metadata_key_size : Reader StatusCode Z := read_uleb_internal U64_MOD METADATA_KEY_SIZE_MAX.
Definition load_metadata_value_size : Reader StatusCode Z := read_uleb_internal U64_MOD METADATA_VALUE_SIZE_MAX.
Definition load_identifier_size : Reader StatusCode Z := read_uleb_internal U64_MOD IDENTIFIER_SIZE_MAX.
Definition load_type_parameter_index : Reader StatusCode Z := read_uleb_internal U16_MOD TYPE_PARAMETER_INDEX_MAX.
Definition load_field_offset : Reader StatusCode Z := read_uleb_internal U16_MOD FIELD_OFFSET_MAX.
Definition load_table_count : Reader StatusCode Z := read_uleb_internal U8_MOD TABLE_COUNT_MAX.
Definition load_table_offset : Reader StatusCode Z := read_uleb_internal U32_MOD TABLE_OFFSET_MAX.
Definition load_table_size : Reader StatusCode Z := read_uleb_internal U32_MOD TABLE_SIZE_MAX.
Definition load_local_index : Reader StatusCode Z := read_uleb_internal U8_MOD LOCAL_INDEX_MAX.

(** [cursor.read_u8()] with the error for an unexpected end. *)
Definition read_byte : Reader StatusCode Z := map_err MALFORMED Read.read_u8.

(** * Entries of tables *)

Inductive AbilitySetPosition := FunctionTypeParameters | StructTypeParameters | StructHandlePosition.

(** The flag of a struct and the kind of a type parameter before version 2. *)
Definition deprecated_struct_abilities (byte : Z) : result StatusCode AbilitySet :=
  if byte =? 1 then Ok (Z.lor (Z.lor Abilities.EMPTY (Abilities.as_u8 Store)) (Abilities.as_u8 Key))
  else if byte =? 2 then Ok (Z.lor (Z.lor (Z.lor Abilities.EMPTY (Abilities.as_u8 Store)) (Abilities.as_u8 Copy)) (Abilities.as_u8 Drop))
  else Err UNKNOWN_ABILITY.
Definition deprecated_kind_abilities (byte : Z) : result StatusCode AbilitySet :=
  if byte =? 1 then Ok Abilities.EMPTY
  else if byte =? 2 then Ok (Z.lor (Z.lor Abilities.EMPTY (Abilities.as_u8 Copy)) (Abilities.as_u8 Drop))
  else if byte =? 3 then Ok (Z.lor Abilities.EMPTY (Abilities.as_u8 Key))
  else Err UNKNOWN_ABILITY.

Definition load_ability_set (version : Z) (pos : AbilitySetPosition) : Reader StatusCode AbilitySet :=
  if version <? 2 then
    byte ← read_byte;
    match pos with
    | StructHandlePosition => lift_r (deprecated_struct_abilities byte)
    | FunctionTypeParameters =>
        set ← lift_r (deprecated_kind_abilities byte); mret (Z.lor set (Abilities.as_u8 Store))
    | StructTypeParameters => lift_r (deprecated_kind_abilities byte)
    end
  else
    u ← read_uleb_internal U8_MOD Abilities.ALL;
    match Abilities.set_from_u8 u with Some abilities => mret abilities | None => throw UNKNOWN_ABILITY end.

Definition load_ability_sets (version : Z) (pos : AbilitySetPosition) : Reader StatusCode (list AbilitySet) :=
  len ← load_type_parameter_count;
  read_n (Z.to_nat len) (load_ability_set version pos).

Definition load_struct_type_parameter (version : Z) : Reader StatusCode StructTypeParameter :=
  constraints ← load_ability_set version StructTypeParameters;
  is_phantom ← (if version <? VERSION_3 then mret false else byte ← read_uleb_internal U8_MOD 1; mret (negb (byte =? 0)));
  mret (mkTypeParameter constraints is_phantom).

Definition load_struct_type_parameters (version : Z) : Reader StatusCode (list StructTypeParameter) :=
  len ← load_type_parameter_count;
  read_n (Z.to_nat len) (load_struct_type_parameter version).

Definition load_module_handle : Reader StatusCode ModuleHandle :=
  address ← load_address_identifier_index;
  name ← load_identifier_index;
  mret (mkModuleHandle address name).

Definition load_struct_handle (version : Z) : Reader StatusCode StructHandle :=
  module_ ← load_module_handle_index;
  name ← load_identifier_index;
  abilities ← load_ability_set version StructHandlePosition;
  type_parameters ← load_struct_type_parameters version;
  mret (mkStructHandle module_ name abilities type_parameters).

Definition load_function_handle (version : Z) : Reader StatusCode FunctionHandle :=
  module_ ← load_module_handle_index;
  name ← load_identifier_index;
  parameters ← load_signature_index;
  return_ ← load_signature_index;
  type_parameters ← load_ability_sets version FunctionTypeParameters;
  mret (mkFunctionHandle module_ name parameters return_ type_parameters).

Definition load_struct_instantiation : Reader StatusCode StructDefInstantiation :=
  def ← load_struct_def_index;
  type_parameters ← load_signature_index;
  mret (mkStructDefInstantiation def type_parameters).

Definition load_function_instantiation : Reader StatusCode FunctionInstantiation :=
  handle ← load_function_handle_index;
  type_parameters ← load_signature_index;
  mret (mkFunctionInstantiation handle type_parameters).

(** [cursor.read] of a whole buffer. *)
Definition read_buffer (size : Z) : Reader StatusCode (list Z) :=
  data ← Read.read (Z.to_nat size);
  if negb (lenZ data =? size) then throw MALFORMED else mret data.

Definition load_identifier : Reader StatusCode Identifier :=
  size ← load_identifier_size;
  buffer ← read_buffer size;
  match Ident.from_utf8 buffer with Some s => mret s | None => throw MALFORMED end.

Definition load_byte_blob (size_loader : Reader StatusCode Z) : Reader StatusCode (list Z) :=
  size ← size_loader;
  read_buffer size.

(** * Types *)

Inductive TypeBuilder :=
  | Saturated (tok : SignatureToken)
  | BVector
  | BReference
  | BMutableReference
  | BStructInst (sh_idx : Z) (arity : Z) (ty_args : list SignatureToken).

Definition apply (self : TypeBuilder) (tok : SignatureToken) : outcome TypeBuilder :=
  match self with
  | BVector => mret (Saturated (TVector tok))
  | BReference => mret (Saturated (TReference tok))
  | BMutableReference => mret (Saturated (TMutableReference tok))
  | BStructInst sh_idx arity ty_args =>
      let ty_args := ty_args ++ [tok] in
      mret (if arity <=? lenZ ty_args then Saturated (TStructInstantiation sh_idx ty_args)
            else BStructInst sh_idx arity ty_args)
  | Saturated _ => Panic
  end.

Definition read_next (version : Z) : Reader StatusCode TypeBuilder :=
  byte ← read_byte;
  s ← lift_r (SType.from_u8 byte);
  (if match s with SType.U16 | SType.U32 | SType.U256 => version <? VERSION_6 | _ => false end then throw MALFORMED else mret tt);;
  match s with
  | SType.BOOL => mret (Saturated TBool)
  | SType.U8 => mret (Saturated TU8)
  | SType.U16 => mret (Saturated TU16)
  | SType.U32 => mret (Saturated TU32)
  | SType.U64 => mret (Saturated TU64)
  | SType.U128 => mret (Saturated TU128)
  | SType.U256 => mret (Saturated TU256)
  | SType.ADDRESS => mret (Saturated TAddress)
  | SType.SIGNER => mret (Saturated TSigner)
  | SType.VECTOR => mret BVector
  | SType.REFERENCE => mret BReference
  | SType.MUTABLE_REFERENCE => mret BMutableReference
  | SType.STRUCT => sh_idx ← load_struct_handle_index; mret (Saturated (TStruct sh_idx))
  | SType.STRUCT_INST =>
      sh_idx ← load_struct_handle_index;
      arity ← load_type_parameter_count;
      if arity =? 0 then throw MALFORMED else mret (BStructInst sh_idx arity [])
  | SType.TYPE_PARAMETER => idx ← load_type_parameter_index; mret (Saturated (TTypeParameter idx))
  end.

(** The loop over the stack of types under construction; its top is the head of the list. *)
Fixpoint token_loop (fuel : nat) (version : Z) (stack : list TypeBuilder) : Reader StatusCode SignatureToken :=
  match fuel with
  | O => λ _, OutOfFuel
  | S fuel =>
      if SIGNATURE_TOKEN_DEPTH_MAX <? lenZ stack then throw MALFORMED
      else
        match stack with
        | [] => lift_o Panic
        | Saturated tok :: [] => mret tok
        | Saturated tok :: t :: stack => t ← lift_o (apply t tok); token_loop fuel version (t :: stack)
        | stack => t ← read_next version; token_loop fuel version (t :: stack)
        end
  end.

Definition load_signature_token (version : Z) : Reader StatusCode SignatureToken := λ c,
  (t ← read_next version;
   match t with
   | Saturated tok => mret tok
   | t => token_loop (2 * length (remaining c)) version [t]
   end) c.

Definition load_signature_tokens (version : Z) : Reader StatusCode (list SignatureToken) :=
  len ← load_signature_size;
  read_n (Z.to_nat len) (load_signature_token version).

Definition load_constant (version : Z) : Reader StatusCode Constant :=
  type_ ← load_signature_token version;
  data ← load_byte_blob load_constant_size;
  mret (mkConstant type_ data).

Definition load_metadata_entry : Reader StatusCode Metadata :=
  key ← load_byte_blob load_metadata_key_size;
  value ← load_byte_blob load_metadata_value_size;
  mret (mkMetadata key value).

Definition load_field_def (version : Z) : Reader StatusCode FieldDefinition :=
  name ← load_identifier_index;
  signature ← load_signature_token version;
  mret (mkFieldDefinition name signature).

Definition load_field_defs (version : Z) : Reader StatusCode (list FieldDefinition) :=
  field_count ← load_field_count;
  read_n (Z.to_nat field_count) (load_field_def version).

Definition load_struct_def (version : Z) : Reader StatusCode StructDefinition :=
  struct_handle ← load_struct_handle_index;
  field_information_flag ← read_byte;
  field_information ←
    (if field_information_flag =? NATIVE_STRUCT then mret NativeFields
     else if field_information_flag =? DECLARED_STRUCT then fields ← load_field_defs version; mret (Declared fields)
     else throw UNKNOWN_NATIVE_STRUCT_FLAG);
  mret (mkStructDefinition struct_handle field_information).

Definition load_field_handle : Reader StatusCode FieldHandle :=
  struct_idx ← load_struct_def_index;
  offset ← load_field_offset;
  mret (mkFieldHandle struct_idx offset).

Definition load_field_instantiation : Reader StatusCode FieldInstantiation :=
  handle ← load_field_handle_index;
  type_parameters ← load_signature_index;
  mret (mkFieldInstantiation handle type_parameters).

(** * Code *)

Definition load_operation (opcode : Op.Opcodes) : Reader StatusCode BC.Bytecode :=
  match opcode with
  | Op.POP => mret BC.Pop
  | Op.RET => mret BC.Ret
  | Op.BR_TRUE => idx ← load_bytecode_index; mret (BC.BrTrue idx)
  | Op.BR_FALSE => idx ← load_bytecode_index; mret (BC.BrFalse idx)
  | Op.BRANCH => idx ← load_bytecode_index; mret (BC.Branch idx)
  | Op.LD_U8 => value ← read_byte; mret (BC.LdU8 value)
  | Op.LD_U64 => value ← read_u64_internal; mret (BC.LdU64 value)
  | Op.LD_U128 => value ← read_u128_internal; mret (BC.LdU128 value)
  | Op.CAST_U8 => mret BC.CastU8
  | Op.CAST_U64 => mret BC.CastU64
  | Op.CAST_U128 => mret BC.CastU128
  | Op.LD_CONST => idx ← load_constant_pool_index; mret (BC.LdConst idx)
  | Op.LD_TRUE => mret BC.LdTrue
  | Op.LD_FALSE => mret BC.LdFalse
  | Op.COPY_LOC => idx ← load_local_index; mret (BC.CopyLoc idx)
  | Op.MOVE_LOC => idx ← load_local_index; mret (BC.MoveLoc idx)
  | Op.ST_LOC => idx ← load_local_index; mret (BC.StLoc idx)
  | Op.MUT_BORROW_LOC => idx ← load_local_index; mret (BC.MutBorrowLoc idx)
  | Op.IMM_BORROW_LOC => idx ← load_local_index; mret (BC.ImmBorrowLoc idx)
  | Op.MUT_BORROW_FIELD => idx ← load_field_handle_index; mret (BC.MutBorrowField idx)
  | Op.MUT_BORROW_FIELD_GENERIC => idx ← load_field_inst_index; mret (BC.MutBorrowFieldGeneric idx)
  | Op.IMM_BORROW_FIELD => idx ← load_field_handle_index; mret (BC.ImmBorrowField idx)
  | Op.IMM_BORROW_FIELD_GENERIC => idx ← load_field_inst_index; mret (BC.ImmBorrowFieldGeneric idx)
  | Op.CALL => idx ← load_function_handle_index; mret (BC.Call idx)
  | Op.CALL_GENERIC => idx ← load_function_inst_index; mret (BC.CallGeneric idx)
  | Op.PACK => idx ← load_struct_def_index; mret (BC.Pack idx)
  | Op.PACK_GENERIC => idx ← load_struct_def_inst_index; mret (BC.PackGeneric idx)
  | Op.UNPACK => idx ← load_struct_def_index; mret (BC.Unpack idx)
  | Op.UNPACK_GENERIC => idx ← load_struct_def_inst_index; mret (BC.UnpackGeneric idx)
  | Op.READ_REF => mret BC.ReadRef
  | Op.WRITE_REF => mret BC.WriteRef
  | Op.ADD => mret BC.Add
  | Op.SUB => mret BC.Sub
  | Op.MUL => mret BC.Mul
  | Op.MOD => mret BC.Mod
  | Op.DIV => mret BC.Div
  | Op.BIT_OR => mret BC.BitOr
  | Op.BIT_AND => mret BC.BitAnd
  | Op.XOR => mret BC.Xor
  | Op.SHL => mret BC.Shl
  | Op.SHR => mret BC.Shr
  | Op.OR => mret BC.Or
  | Op.AND => mret BC.And
  | Op.NOT => mret BC.Not
  | Op.EQ => mret BC.Eq
  | Op.NEQ => mret BC.Neq
  | Op.LT => mret BC.Lt
  | Op.GT => mret BC.Gt
  | Op.LE => mret BC.Le
  | Op.GE => mret BC.Ge
  | Op.ABORT => mret BC.Abort
  | Op.NOP => mret BC.Nop
  | Op.FREEZE_REF => mret BC.FreezeRef
  | Op.VEC_PACK => idx ← load_signature_index; num ← read_u64_internal; mret (BC.VecPack idx num)
  | Op.VEC_LEN => idx ← load_signature_index; mret (BC.VecLen idx)
  | Op.VEC_IMM_BORROW => idx ← load_signature_index; mret (BC.VecImmBorrow idx)
  | Op.VEC_MUT_BORROW => idx ← load_signature_index; mret (BC.VecMutBorrow idx)
  | Op.VEC_PUSH_BACK => idx ← load_signature_index; mret (BC.VecPushBack idx)
  | Op.VEC_POP_BACK => idx ← load_signature_index; mret (BC.VecPopBack idx)
  | Op.VEC_UNPACK => idx ← load_signature_index; num ← read_u64_internal; mret (BC.VecUnpack idx num)
  | Op.VEC_SWAP => idx ← load_signature_index; mret (BC.VecSwap idx)
  | Op.LD_U16 => value ← read_u16_internal; mret (BC.LdU16 value)
  | Op.LD_U32 => value ← read_u32_internal; mret (BC.LdU32 value)
  | Op.LD_U256 => value ← read_u256_internal; mret (BC.LdU256 value)
  | Op.CAST_U16 => mret BC.CastU16
  | Op.CAST_U32 => mret BC.CastU32
  | Op.CAST_U256 => mret BC.CastU256
  | Op.EXISTS_DEPRECATED => idx ← load_struct_def_index; mret (BC.ExistsDeprecated idx)
  | Op.EXISTS_GENERIC_DEPRECATED => idx ← load_struct_def_inst_index; mret (BC.ExistsGenericDeprecated idx)
  | Op.MUT_BORROW_GLOBAL_DEPRECATED => idx ← load_struct_def_index; mret (BC.MutBorrowGlobalDeprecated idx)
  | Op.MUT_BORROW_GLOBAL_GENERIC_DEPRECATED => idx ← load_struct_def_inst_index; mret (BC.MutBorrowGlobalGenericDeprecated idx)
  | Op.IMM_BORROW_GLOBAL_DEPRECATED => idx ← load_struct_def_index; mret (BC.ImmBorrowGlobalDeprecated idx)
  | Op.IMM_BORROW_GLOBAL_GENERIC_DEPRECATED => idx ← load_struct_def_inst_index; mret (BC.ImmBorrowGlobalGenericDeprecated idx)
  | Op.MOVE_FROM_DEPRECATED => idx ← load_struct_def_index; mret (BC.MoveFromDeprecated idx)
  | Op.MOVE_FROM_GENERIC_DEPRECATED => idx ← load_struct_def_inst_index; mret (BC.MoveFromGenericDeprecated idx)
  | Op.MOVE_TO_DEPRECATED => idx ← load_struct_def_index; mret (BC.MoveToDeprecated idx)
  | Op.MOVE_TO_GENERIC_DEPRECATED => idx ← load_struct_def_inst_index; mret (BC.MoveToGenericDeprecated idx)
  end.

Definition is_vector_operation (opcode : Op.Opcodes) : bool :=
  match opcode with
  | Op.VEC_PACK | Op.VEC_LEN | Op.VEC_IMM_BORROW | Op.VEC_MUT_BORROW | Op.VEC_PUSH_BACK | Op.VEC_POP_BACK | Op.VEC_UNPACK
  | Op.VEC_SWAP => true
  | _ => false
  end.
Definition is_new_integer (opcode : Op.Opcodes) : bool :=
  match opcode with
  | Op.LD_U16 | Op.LD_U32 | Op.LD_U256 | Op.CAST_U16 | Op.CAST_U32 | Op.CAST_U256 => true
  | _ => false
  end.

(** One turn of the loop of [load_code]. *)
Definition load_instruction (version : Z) : Reader StatusCode BC.Bytecode :=
  byte ← read_byte;
  opcode ← lift_r (Op.from_u8 byte);
  if is_vector_operation opcode && (version <? VERSION_4) then throw MALFORMED
  else if is_new_integer opcode && (version <? VERSION_6) then throw MALFORMED
  else load_operation opcode.

Definition load_code (version : Z) : Reader StatusCode (list BC.Bytecode) :=
  bytecode_count ← load_bytecode_count;
  read_n (Z.to_nat bytecode_count) (load_instruction version).

Definition load_code_unit (version : Z) : Reader StatusCode CodeUnit :=
  locals ← load_signature_index;
  code ← load_code version;
  mret (mkCodeUnit locals code).

Definition load_struct_definition_indices : Reader StatusCode (list Z) :=
  len ← load_acquires_count;
  read_n (Z.to_nat len) load_struct_def_index.

(** [Visibility::try_from]. *)
Definition visibility_try_from (v : Z) : Reader StatusCode Visibility :=
  if v =? 0 then mret Private else if v =? 1 then mret Public else if v =? 3 then mret Friend else throw MALFORMED.

Definition DEPRECATED_PUBLIC_BIT : Z := 1.
Definition DEPRECATED_SCRIPT : Z := 2.
Definition NATIVE : Z := 2.
Definition ENTRY : Z := 4.

Definition load_function_flags (version : Z) : Reader StatusCode (Visibility * bool * Z) :=
  flags ← read_byte;
  if version =? VERSION_1 then
    if negb (Z.land flags DEPRECATED_PUBLIC_BIT =? 0) then mret (Public, false, Z.lxor flags DEPRECATED_PUBLIC_BIT)
    else mret (Private, false, flags)
  else if version <? VERSION_5 then
    vis ← (if flags =? DEPRECATED_SCRIPT then mret (Public, true) else vis ← visibility_try_from flags; mret (vis, false));
    extra_flags ← read_byte;
    mret (vis.1, vis.2, extra_flags)
  else
    vis ← visibility_try_from flags;
    extra_flags ← read_byte;
    let is_entry := negb (Z.land extra_flags ENTRY =? 0) in
    mret (vis, is_entry, if is_entry then Z.lxor extra_flags ENTRY else extra_flags).

Definition load_function_def (version : Z) : Reader StatusCode FunctionDefinition :=
  function ← load_function_handle_index;
  '(visibility, is_entry, extra_flags) ← load_function_flags version;
  acquires_global_resources ← load_struct_definition_indices;
  '(code_unit, extra_flags) ←
    (if negb (Z.land extra_flags NATIVE =? 0) then mret (None, Z.lxor extra_flags NATIVE)
     else code ← load_code_unit version; mret (Some code, extra_flags));
  if negb (extra_flags =? 0) then throw INVALID_FLAG_BITS
  else mret (mkFunctionDefinition function visibility is_entry acquires_global_resources code_unit).

(** * Tables *)

Record Table := mkTable { kind : TableType; offset : Z; count : Z }.

Definition read_table : Reader StatusCode Table :=
  kind ← read_byte;
  table_offset ← load_table_offset;
  count ← load_table_size;
  kind ← lift_r (TableKind.from_u8 kind);
  mret (mkTable kind table_offset count).

Definition read_tables (table_count : Z) : Reader StatusCode (list Table) := read_n (Z.to_nat table_count) read_table.

Fixpoint check_sorted (tables : list Table) (binary_len current_offset : Z) (table_types : list TableType) : result StatusCode Z :=
  match tables with
  | [] => Ok current_offset
  | table :: tables =>
      if negb (offset table =? current_offset) then Err BAD_HEADER_TABLE
      else if count table =? 0 then Err BAD_HEADER_TABLE
      else
        let current_offset := current_offset + count table in
        if U32_MOD <=? current_offset then Err BAD_HEADER_TABLE
        else if bool_decide (kind table ∈ table_types) then Err DUPLICATE_TABLE
        else if binary_len <? current_offset then Err BAD_HEADER_TABLE
        else check_sorted tables binary_len current_offset (kind table :: table_types)
  end.

(** The tables are sorted in place. *)
Definition check_tables (tables : list Table) (binary_len : Z) : list Table * result StatusCode Z :=
  let tables := sort_by_key offset tables in (tables, check_sorted tables binary_len 0 []).

(** What the loaders of the single tables have in common, and the loop of two of them. *)
Definition load_entries_while {A} (more : Z → Z → bool) (entry : Reader StatusCode A) (b : VersionedBinary) (table : Table) :
    VMResult (list A) :=
  let start := offset table in
  let end_ := start + count table in
  cursor ← vm_lift (Versioned.new_cursor b start end_);
  match read_while (Z.to_nat (count table)) (more (count table)) entry cursor with
  | Ret (res, _) => Ret res
  | Panic => Panic
  | OutOfFuel => OutOfFuel
  end.
Definition load_entries {A} (entry : Reader StatusCode A) : VersionedBinary → Table → VMResult (list A) :=
  load_entries_while (λ count position, position <? count) entry.
Definition load_entries_loop {A} (entry : Reader StatusCode A) : VersionedBinary → Table → VMResult (list A) :=
  load_entries_while (λ count position, negb (position =? count)) entry.

Definition load_module_handles := load_entries load_module_handle.
Definition load_struct_handles (b : VersionedBinary) := load_entries (load_struct_handle (version b)) b.
Definition load_function_handles (b : VersionedBinary) := load_entries (load_function_handle (version b)) b.
Definition load_struct_instantiations := load_entries load_struct_instantiation.
Definition load_function_instantiations := load_entries load_function_instantiation.
Definition load_identifiers := load_entries load_identifier.
Definition load_constant_pool (b : VersionedBinary) := load_entries (load_constant (version b)) b.
Definition load_metadata := load_entries load_metadata_entry.
Definition load_signatures (b : VersionedBinary) := load_entries (load_signature_tokens (version b)) b.
Definition load_struct_defs (b : VersionedBinary) := load_entries (load_struct_def (version b)) b.
Definition load_function_defs (b : VersionedBinary) := load_entries (load_function_def (version b)) b.
Definition load_field_handles := load_entries_loop load_field_handle.
Definition load_field_instantiations := load_entries_loop load_field_instantiation.

Definition ADDRESS_LENGTH : Z := 32.

(** [n] addresses from [start]; a slice of the right length converts to an address. *)
Fixpoint load_addresses (b : VersionedBinary) (start : Z) (n : nat) : VMResult (list AccountAddress) :=
  match n with
  | O => mret []
  | S n =>
      let end_addr := start + ADDRESS_LENGTH in
      address ← vm_lift (Versioned.slice b start end_addr);
      if negb (lenZ address =? ADDRESS_LENGTH) then vm_err MALFORMED
      else addresses ← load_addresses b end_addr n; mret (address :: addresses)
  end.

Definition load_address_identifiers (b : VersionedBinary) (table : Table) : VMResult (list AccountAddress) :=
  if negb (count table mod ADDRESS_LENGTH =? 0) then vm_err MALFORMED
  else load_addresses b (offset table) (Z.to_nat (count table / ADDRESS_LENGTH)).

(** The loaders push on the tables they are given. *)
Definition push_module_handles (l : list ModuleHandle) (c : CommonTables) : CommonTables :=
  mkCommon (module_handles c ++ l) (struct_handles c) (function_handles c) (function_instantiations c) (signatures c) (identifiers c) (address_identifiers c) (constant_pool c) (metadata c).
Definition push_struct_handles (l : list StructHandle) (c : CommonTables) : CommonTables :=
  mkCommon (module_handles c) (struct_handles c ++ l) (function_handles c) (function_instantiations c) (signatures c) (identifiers c) (address_identifiers c) (constant_pool c) (metadata c).
Definition push_function_handles (l : list FunctionHandle) (c : CommonTables) : CommonTables :=
  mkCommon (module_handles c) (struct_handles c) (function_handles c ++ l) (function_instantiations c) (signatures c) (identifiers c) (address_identifiers c) (constant_pool c) (metadata c).
Definition push_function_instantiations (l : list FunctionInstantiation) (c : CommonTables) : CommonTables :=
  mkCommon (module_handles c) (struct_handles c) (function_handles c) (function_instantiations c ++ l) (signatures c) (identifiers c) (address_identifiers c) (constant_pool c) (metadata c).
Definition push_signatures (l : list Signature) (c : CommonTables) : CommonTables :=
  mkCommon (module_handles c) (struct_handles c) (function_handles c) (function_instantiations c) (signatures c ++ l) (identifiers c) (address_identifiers c) (constant_pool c) (metadata c).
Definition push_identifiers (l : list Identifier) (c : CommonTables) : CommonTables :=
  mkCommon (module_handles c) (struct_handles c) (function_handles c) (function_instantiations c) (signatures c) (identifiers c ++ l) (address_identifiers c) (constant_pool c) (metadata c).
Definition push_address_identifiers (l : list AccountAddress) (c : CommonTables) : CommonTables :=
  mkCommon (module_handles c) (struct_handles c) (function_handles c) (function_instantiations c) (signatures c) (identifiers c) (address_identifiers c ++ l) (constant_pool c) (metadata c).
Definition push_constant_pool (l : list Constant) (c : CommonTables) : CommonTables :=
  mkCommon (module_handles c) (struct_handles c) (function_handles c) (function_instantiations c) (signatures c) (identifiers c) (address_identifiers c) (constant_pool c ++ l) (metadata c).
Definition push_metadata (l : list Metadata) (c : CommonTables) : CommonTables :=
  mkCommon (module_handles c) (struct_handles c) (function_handles c) (function_instantiations c) (signatures c) (identifiers c) (address_identifiers c) (constant_pool c) (metadata c ++ l).
Definition push_field_handles (l : list FieldHandle) (m : CompiledModule) : CompiledModule :=
  mkModule (m_version m) (self_module_handle_idx m) (m_common m) (field_handles m ++ l) (friend_decls m) (struct_def_instantiations m) (field_instantiations m) (struct_defs m) (function_defs m).
Definition push_friend_decls (l : list ModuleHandle) (m : CompiledModule) : CompiledModule :=
  mkModule (m_version m) (self_module_handle_idx m) (m_common m) (field_handles m) (friend_decls m ++ l) (struct_def_instantiations m) (field_instantiations m) (struct_defs m) (function_defs m).
Definition push_struct_def_instantiations (l : list StructDefInstantiation) (m : CompiledModule) : CompiledModule :=
  mkModule (m_version m) (self_module_handle_idx m) (m_common m) (field_handles m) (friend_decls m) (struct_def_instantiations m ++ l) (field_instantiations m) (struct_defs m) (function_defs m).
Definition push_field_instantiations (l : list FieldInstantiation) (m : CompiledModule) : CompiledModule :=
  mkModule (m_version m) (self_module_handle_idx m) (m_common m) (field_handles m) (friend_decls m) (struct_def_instantiations m) (field_instantiations m ++ l) (struct_defs m) (function_defs m).
Definition push_struct_defs (l : list StructDefinition) (m : CompiledModule) : CompiledModule :=
  mkModule (m_version m) (self_module_handle_idx m) (m_common m) (field_handles m) (friend_decls m) (struct_def_instantiations m) (field_instantiations m) (struct_defs m ++ l) (function_defs m).
Definition push_function_defs (l : list FunctionDefinition) (m : CompiledModule) : CompiledModule :=
  mkModule (m_version m) (self_module_handle_idx m) (m_common m) (field_handles m) (friend_decls m) (struct_def_instantiations m) (field_instantiations m) (struct_defs m) (function_defs m ++ l).

Definition build_common_table (b : VersionedBinary) (table : Table) (common : CommonTables) : VMResult CommonTables :=
  match kind table with
  | MODULE_HANDLES => l ← load_module_handles b table; mret (push_module_handles l common)
  | STRUCT_HANDLES => l ← load_struct_handles b table; mret (push_struct_handles l common)
  | FUNCTION_HANDLES => l ← load_function_handles b table; mret (push_function_handles l common)
  | FUNCTION_INST => l ← load_function_instantiations b table; mret (push_function_instantiations l common)
  | SIGNATURES => l ← load_signatures b table; mret (push_signatures l common)
  | CONSTANT_POOL => l ← load_constant_pool b table; mret (push_constant_pool l common)
  | METADATA =>
      if check_no_extraneous_bytes b || (version b <? VERSION_5) then vm_err MALFORMED
      else l ← load_metadata b table; mret (push_metadata l common)
  | IDENTIFIERS => l ← load_identifiers b table; mret (push_identifiers l common)
  | ADDRESS_IDENTIFIERS => l ← load_address_identifiers b table; mret (push_address_identifiers l common)
  | FUNCTION_DEFS | STRUCT_DEFS | STRUCT_DEF_INST | FIELD_HANDLE | FIELD_INST => mret common
  | FRIEND_DECLS => if version b <? VERSION_2 then vm_err MALFORMED else mret common
  end.

Definition build_module_table (b : VersionedBinary) (table : Table) (module_ : CompiledModule) : VMResult CompiledModule :=
  match kind table with
  | STRUCT_DEFS => l ← load_struct_defs b table; mret (push_struct_defs l module_)
  | STRUCT_DEF_INST => l ← load_struct_instantiations b table; mret (push_struct_def_instantiations l module_)
  | FUNCTION_DEFS => l ← load_function_defs b table; mret (push_function_defs l module_)
  | FIELD_HANDLE => l ← load_field_handles b table; mret (push_field_handles l module_)
  | FIELD_INST => l ← load_field_instantiations b table; mret (push_field_instantiations l module_)
  | FRIEND_DECLS => l ← load_module_handles b table; mret (push_friend_decls l module_)
  | MODULE_HANDLES | STRUCT_HANDLES | FUNCTION_HANDLES | FUNCTION_INST | IDENTIFIERS | ADDRESS_IDENTIFIERS | CONSTANT_POOL
  | METADATA | SIGNATURES => mret module_
  end.

(** [for table in tables { .. }]. *)
Fixpoint for_tables {S} (f : Table → S → VMResult S) (tables : list Table) (s : S) : VMResult S :=
  match tables with [] => mret s | table :: tables => s ← f table s; for_tables f tables s end.

Definition build_common_tables (b : VersionedBinary) (tables : list Table) (common : CommonTables) : VMResult CommonTables :=
  for_tables (build_common_table b) tables common.
Definition build_module_tables (b : VersionedBinary) (tables : list Table) (module_ : CompiledModule) : VMResult CompiledModule :=
  for_tables (build_module_table b) tables module_.

Definition build_script_table (table : Table) (_ : unit) : VMResult unit :=
  match kind table with
  | MODULE_HANDLES | STRUCT_HANDLES | FUNCTION_HANDLES | FUNCTION_INST | SIGNATURES | IDENTIFIERS | ADDRESS_IDENTIFIERS
  | CONSTANT_POOL | METADATA => mret tt
  | STRUCT_DEFS | STRUCT_DEF_INST | FUNCTION_DEFS | FIELD_INST | FIELD_HANDLE | FRIEND_DECLS => vm_err MALFORMED
  end.

Definition build_compiled_module (module_ : CompiledModule) (b : VersionedBinary) (tables : list Table) : VMResult CompiledModule :=
  common ← build_common_tables b tables (m_common module_);
  build_module_tables b tables
    (mkModule (m_version module_) (self_module_handle_idx module_) common (field_handles module_) (friend_decls module_)
      (struct_def_instantiations module_) (field_instantiations module_) (struct_defs module_) (function_defs module_)).

Definition build_compiled_script (script : CompiledScript) (b : VersionedBinary) (tables : list Table) : VMResult CompiledScript :=
  common ← build_common_tables b tables (s_common script);
  for_tables build_script_table tables tt;;
  mret (mkScript (s_version script) common (s_code script) (s_type_parameters script) (s_parameters script)).

(** * Modules and scripts *)

(** The header, up to the content of the tables. *)
Definition load_header (binary_len max_version : Z) (check : bool) : Reader StatusCode (list Table * VersionedBinary) :=
  version ← Versioned.new max_version;
  table_count ← load_table_count;
  tables ← read_tables table_count;
  let '(tables, checked) := check_tables tables binary_len in
  content_len ← lift_r checked;
  table_contents ← Versioned.read_new_binary version check content_len;
  mret (tables, table_contents).

(** Runs a reader on a whole binary. *)
Definition on_binary {A} (r : Reader StatusCode A) (binary : list Z) : VMResult A :=
  match r (mkCursor 0 binary) with Ret (res, _) => Ret res | Panic => Panic | OutOfFuel => OutOfFuel end.

Definition deserialize_compiled_module (binary : list Z) (max_binary_format_version : Z) (check : bool) : VMResult CompiledModule :=
  on_binary (
    '(tables, table_contents) ← load_header (lenZ binary) max_binary_format_version check;
    self_idx ← load_module_handle_index;
    let module_ := mkModule (version table_contents) self_idx no_tables [] [] [] [] [] [] in
    module_ ← lift_vm (build_compiled_module module_ table_contents tables);
    end_pos ← gets position;
    if check && (end_pos <? lenZ binary) then throw TRAILING_BYTES else mret module_) binary.

Definition deserialize_compiled_script (binary : list Z) (max_binary_format_version : Z) : VMResult CompiledScript :=
  on_binary (
    '(tables, table_contents) ← load_header (lenZ binary) max_binary_format_version false;
    type_parameters ← load_ability_sets (version table_contents) FunctionTypeParameters;
    parameters ← load_signature_index;
    code ← load_code_unit (version table_contents);
    let script := mkScript (version table_contents) no_tables code type_parameters parameters in
    lift_vm (build_compiled_script script table_contents tables)) binary.

(** [CompiledModule::deserialize_with_config]. *)
Definition module_deserialize_with_config (binary : list Z) (max_binary_format_version : Z) (check : bool) : VMResult CompiledModule :=
  module_ ← deserialize_compiled_module binary max_binary_format_version check;
  BoundsChecker.verify_module module_;;
  mret module_.

(** [CompiledScript::deserialize_with_max_version]. *)
Definition script_deserialize_with_max_version (binary : list Z) (max_binary_format_version : Z) : VMResult CompiledScript :=
  script ← deserialize_compiled_script binary max_binary_format_version;
  BoundsChecker.verify_script script;;
  mret script.
End Des.
