(* ===== verification/Codec.v ===== *)
(** The entries of tables: what the serializer writes is what the deserializer reads, and nothing
    else ([serializer.rs] against [deserializer.rs], for bytecode of version 5 and 6).

    [valid_..] says that a value has the widths of its Rust type and, where the deserializer asks for
    more, that it is as the deserializer wants it. *)
From S2P Require Import Prelude MoveFormat BinaryFormat Serializer CheckBounds Deserializer.
Import Binary Ser Des.

(** A writer and a reader for the same values. *)
Record codec {A} (valid : A → Prop) (s : A → Writer) (l : Reader StatusCode A) : Prop := {
  codec_writer : ∀ x, valid x → writer (s x);
  codec_denotes : denotes l (λ x bs, valid x ∧ emits (s x) bs);
}.

Definition is_u8 (z : Z) : Prop := 0 <= z < U8_MOD.
Definition is_u16 (z : Z) : Prop := 0 <= z < U16_MOD.
Definition is_u32 (z : Z) : Prop := 0 <= z < U32_MOD.

(** * Integers *)

Lemma writer_int x max : 0 <= x → max < U64_MOD → writer (write_as_uleb128 x max).
Proof.
  intros Hx Hmax. unfold write_as_uleb128. destruct (Z.ltb_spec max x); [apply writer_throw|]. apply writer_uleb. lia.
Qed.

Lemma emits_int x max bs : 0 <= x → max < U64_MOD →
  emits (write_as_uleb128 x max) bs ↔ x <= max ∧ emits (write_u64_as_uleb128 x) bs.
Proof.
  intros Hx Hmax. unfold write_as_uleb128. destruct (Z.ltb_spec max x); [|naive_solver].
  split; [by intros ?%emits_throw|lia].
Qed.

Lemma denotes_int size max : size <= U64_MOD → max < U64_MOD →
  denotes (read_uleb_internal size max) (λ x bs, 0 <= x < size ∧ emits (write_as_uleb128 x max) bs).
Proof.
  intros Hs Hm. eapply denotes_ext.
  { eapply denotes_bind; [apply denotes_map_err, denotes_uleb|]. intros x. do 2 apply denotes_guard. apply denotes_ret. }
  - cbn beta. intros x bs [Hx He]. apply emits_int in He as [Hle He]; [|lia..]. exists x, bs, []. rewrite app_nil_r.
    split; [done|]. split; [split; [lia|done]|]. split; [by apply Z.ltb_ge|]. split; [apply Z.leb_gt; lia|done].
  - cbn beta. intros x bs _ (y & bs1 & bs2 & -> & [Hy He] & Hle%Z.ltb_ge & Hlt%Z.leb_gt & -> & ->). rewrite app_nil_r.
    split; [lia|]. apply emits_int; [lia..|done].
Qed.

Lemma total_int size max : total 1 (read_uleb_internal size max).
Proof.
  apply (total_bind 1 0); [apply total_map_err, total_uleb|]. intros x. repeat case_match; try apply total_throw. apply total_ret.
Qed.

Lemma codec_int size max : size <= U64_MOD → max < U64_MOD →
  codec (λ x, 0 <= x < size) (λ x, write_as_uleb128 x max) (read_uleb_internal size max).
Proof. intros Hs Hm. split; [intros x Hx; apply writer_int; [lia|done]|by apply denotes_int]. Qed.

(** A count, which the maximum alone bounds. *)
Lemma denotes_count max : max < U64_MOD →
  denotes (read_uleb_internal U64_MOD max) (λ x bs, 0 <= x ∧ emits (write_as_uleb128 x max) bs).
Proof.
  intros Hm. eapply denotes_ext; [by apply (denotes_int U64_MOD max)| |]; cbn beta; [|naive_solver lia].
  intros x bs [Hx He]. split; [|done]. apply emits_int in He; lia.
Qed.

Lemma denotes_byte : denotes read_byte (λ x bs, bs = [x]).
Proof. apply denotes_map_err, denotes_u8. Qed.
Lemma total_byte : total 1 read_byte.
Proof. apply total_map_err, total_u8. Qed.

Lemma denotes_le_internal n e : denotes (map_err e (buf ← Read.read_exact n; mret (from_le_bytes buf)) : Reader StatusCode Z)
  (λ x bs, 0 <= x < 256 ^ Z.of_nat n ∧ bs = to_le_bytes n x).
Proof. apply denotes_map_err, denotes_le. Qed.

Lemma fits_le n v : (n <= 1000)%nat → fits (to_le_bytes n v).
Proof. intros Hn. apply fits_small. by rewrite length_to_le. Qed.

Lemma codec_le n e : (n <= 1000)%nat →
  codec (λ x, 0 <= x < 256 ^ Z.of_nat n) (λ x, extend (to_le_bytes n x)) (map_err e (buf ← Read.read_exact n; mret (from_le_bytes buf))).
Proof.
  intros Hn. split; [intros; apply writer_extend|]. eapply denotes_ext; [apply denotes_le_internal| |]; cbn beta.
  - intros x bs [Hx [_ ->]%emits_extend]. done.
  - intros x bs _ [Hx ->]. split; [done|]. apply emits_extend. split; [by apply fits_le|done].
Qed.

(** * Lists *)

Lemma codec_list {A} (V : A → Prop) s l max : codec V s l → max < U64_MOD →
  codec (Forall V) (λ xs, write_as_uleb128 (lenZ xs) max;; for_each s xs)
    (len ← read_uleb_internal U64_MOD max; read_n (Z.to_nat len) l).
Proof.
  intros [Hw Hd] Hmax.
  assert (∀ xs, Forall V xs → writer (for_each s xs)) as Hws.
  { intros xs Hxs. apply writer_for_each. intros x Hx. apply Hw. by eapply Forall_forall. }
  assert (∀ xs : list A, writer (write_as_uleb128 (lenZ xs) max)) as Hwc by (intros xs; apply writer_int; [unfold lenZ; lia|done]).
  split; [intros xs Hxs; by apply writer_bind; auto|]. eapply denotes_ext.
  { eapply denotes_bind; [by apply denotes_count|]. intros len. apply denotes_read_n, Hd. }
  - cbn beta. intros xs bs [Hxs He]. apply emits_bind in He as (Hf & bs1 & bs2 & -> & He1 & He2); [|by auto..].
    exists (lenZ xs), bs1, bs2. split; [done|]. split; [split; [unfold lenZ; lia|done]|]. split; [unfold lenZ; lia|].
    apply emits_for_each in He2 as (_ & bss & -> & Hall); [|intros x Hx; apply Hw; by eapply Forall_forall].
    exists bss. split; [done|]. clear -Hxs Hall. induction Hall as [|x bs xs bss He _ IH]; [constructor|].
    apply Forall_cons in Hxs as [Hx Hxs]. constructor; [done|by apply IH].
  - cbn beta. intros xs bs Hok (len & bs1 & bs2 & -> & [Hlen He] & Hlen' & bss & -> & Hall).
    assert (len = lenZ xs) as -> by (unfold lenZ; lia).
    assert (Forall V xs) as Hxs. { clear -Hall. induction Hall as [|x bs xs bss [Hx _] _ IH]; by constructor. }
    split; [done|]. apply emits_bind; [by auto..|]. split; [apply Hok|]. exists bs1, (concat bss). split; [done|]. split; [done|].
    apply emits_for_each; [intros x Hx; apply Hw; by eapply Forall_forall|]. split; [destruct Hok as [Hok _]; by eapply fits_app_r|].
    exists bss. split; [done|]. eapply Forall2_impl; [exact Hall|]. by intros ?? [_ ?].
Qed.

Lemma total_list {A} (l : Reader StatusCode A) size max : total 0 l → total 1 (len ← read_uleb_internal size max; read_n (Z.to_nat len) l).
Proof. intros Hl. apply (total_bind 1 0); [apply total_int|]. intros. by apply total_read_n. Qed.

(** Bytes. *)
Lemma emits_bytes bs l : emits (for_each push l) bs ↔ fits l ∧ bs = l.
Proof.
  rewrite emits_for_each by (intros; apply writer_push).
  assert (∀ bss, Forall2 (λ x bs, emits (push x) bs) l bss ↔ bss = (λ x, [x]) <$> l) as Hl.
  { induction l as [|x l IH]; intros bss.
    - split; [by intros ->%Forall2_nil_inv_l|by intros ->].
    - split.
      + intros (y & bss' & ->%emits_push & ->%IH & ->)%Forall2_cons_inv_l. done.
      + intros ->. constructor; [by apply emits_push|by apply IH]. }
  setoid_rewrite Hl. assert (concat ((λ x : Z, [x]) <$> l) = l) as Hc by (clear; induction l as [|x l IH]; cbn; [done|by f_equal]).
  split; [intros (Hf & bss & -> & ->); by rewrite Hc in *|]. intros [Hf ->]. split; [done|]. eexists. by rewrite Hc.
Qed.

Lemma writer_bytes l : writer (for_each push l).
Proof. apply writer_for_each. intros; apply writer_push. Qed.

Lemma denotes_buffer size : 0 <= size → denotes (read_buffer size) (λ x bs, x = bs ∧ lenZ bs = size).
Proof.
  intros Hs. unfold read_buffer, mbind, st_bind, Read.read, lenZ. split.
  - intros p x bs rest [-> Hlen]. assert (Z.to_nat size = length bs) as -> by lia. unfold advance. cbn [remaining position].
    rewrite take_app_length, (proj2 (Z.eqb_eq _ _)) by done. cbn [negb]. unfold mret, st_ret.
    rewrite length_app, Nat.min_l by lia. by rewrite drop_app_length.
  - intros p inp x c Hok. unfold advance. cbn [remaining position]. rewrite length_take.
    destruct (Z.eqb_spec (Z.of_nat (Z.to_nat size `min` length inp)) size) as [Heq|]; [|done]. intros [= <- <-].
    exists (take (Z.to_nat size) inp), (drop (Z.to_nat size) inp). unfold lenZ. rewrite take_drop, length_take, Nat.min_l by lia. split_and!; [done..|lia].
Qed.

Lemma total_buffer size : total 0 (read_buffer size).
Proof. apply (total_bind 0 0); [apply total_read|]. intros. case_match; [apply total_throw|apply total_ret]. Qed.

Definition u8s (l : list Z) : Prop := Forall is_u8 l.

Lemma codec_blob max : max < U64_MOD →
  codec u8s (serialize_byte_blob (λ len, write_as_uleb128 len max)) (load_byte_blob (read_uleb_internal U64_MOD max)).
Proof.
  intros Hmax. assert (∀ l : list Z, writer (write_as_uleb128 (lenZ l) max)) as Hwc by (intros xs; apply writer_int; [unfold lenZ; lia|done]).
  split; [intros l _; apply writer_bind; [done|apply writer_bytes]|]. eapply denotes_ext.
  { eapply (denotes_bind _ _ _ (λ size x bs, 0 <= size ∧ x = bs ∧ lenZ bs = size)); [by apply denotes_count|]. intros size.
    destruct (Z.le_gt_cases 0 size) as [Hs|Hs].
    - eapply denotes_ext; [by apply denotes_buffer|naive_solver..].
    - split; [naive_solver lia|]. unfold read_buffer, mbind, st_bind, Read.read, lenZ. intros p inp x c _.
      destruct (Z.eqb_spec (Z.of_nat (length (take (Z.to_nat size) (remaining (mkCursor p inp))))) size); [lia|done]. }
  - cbn beta. intros l bs [Hl He]. unfold serialize_byte_blob in He. apply emits_bind in He as (Hf & bs1 & bs2 & -> & He1 & He2); [|done|apply writer_bytes].
    apply emits_bytes in He2 as [_ ->]. exists (lenZ l), bs1, l. assert (0 <= lenZ l) by (unfold lenZ; lia). done.
  - cbn beta. intros l bs Hok (size & bs1 & bs2 & -> & [Hs He] & _ & -> & <-). split.
    + destruct Hok as [_ Hb]. apply Forall_app in Hb as [_ Hb]. exact Hb.
    + unfold serialize_byte_blob. apply emits_bind; [done|apply writer_bytes|]. split; [apply Hok|]. exists bs1, bs2. split_and!; try done.
      apply emits_bytes. split; [|done]. destruct Hok as [Hok _]. by eapply fits_app_r.
Qed.

(** * Records *)

Create HintDb codec.

(** Conditions on values: widths, and what the context says. *)
Ltac solve_valid := solve [assumption | unfold is_u8, is_u16, is_u32, is_u64, U8_MOD, U16_MOD, U32_MOD in *; lia | auto with codec | intuition auto].

Ltac solve_writer :=
  repeat first
    [ assumption | apply writer_push | apply writer_ret | apply writer_extend | apply writer_bytes
    | apply writer_int; [solve [unfold is_u8, is_u16, is_u32 in *; repeat case_match; lia]|done]
    | eapply codec_writer; [solve [eauto with codec nocore]|solve_valid]
    | apply writer_bind ].

Ltac emits_inv He :=
  lazymatch type of He with
  | emits (_ ≫= _) _ =>
      let Hf := fresh "Hf" in let b1 := fresh "bs" in let b2 := fresh "bs" in let H1 := fresh "He" in
      apply emits_bind in He as (Hf & b1 & b2 & -> & H1 & He); [emits_inv H1; emits_inv He|solve_writer..]
  | emits (push _) _ => apply emits_push in He as ->
  | emits (mret tt) _ => apply emits_ret in He as ->
  | _ => idtac
  end.

(** Builds the values that a reader has passed, from right to left. *)
Ltac denotes_build :=
  lazymatch goal with
  | |- ∃ _ _ _, ?bs = _ ∧ _ =>
      first [eexists _, _, _; split; [reflexivity|] | eexists _, _, []; split; [symmetry; apply app_nil_r|]];
      split; [denotes_build|]; denotes_build
  | |- _ ∧ emits _ _ => split; [|first [eassumption | apply emits_push; reflexivity]]; solve_valid
  | |- _ ∧ _ => split; denotes_build
  | |- _ = _ => reflexivity
  end.

Ltac solve_denotes :=
  repeat first
    [ apply denotes_ret
    | eapply codec_denotes; solve [eauto with codec nocore]
    | apply denotes_byte
    | eapply denotes_bind; [|intros ?] ].

Ltac emits_build Hfit :=
  lazymatch goal with
  | |- emits (_ ≫= _) _ =>
      apply emits_bind; [solve_writer..|]; split; [solve [eauto with fits]|];
      first [eexists [_], _; split; [reflexivity|] | eexists _, _; split; [reflexivity|]];
      split; [emits_build Hfit|emits_build Hfit]
  | |- emits (push _) _ => first [eassumption | apply emits_push; reflexivity]
  | |- emits (mret tt) _ => apply emits_ret; reflexivity
  | |- _ => eassumption
  end.

Lemma codec_index : codec is_u16 (λ x, write_as_uleb128 x TABLE_INDEX_MAX) (read_uleb_internal U16_MOD TABLE_INDEX_MAX).
Proof. by apply codec_int. Qed.
#[export] Hint Resolve codec_index : codec.

Definition valid_module_handle (h : ModuleHandle) : Prop := is_u16 (mh_address h) ∧ is_u16 (mh_name h).

Ltac ex_inv :=
  repeat match goal with
  | H : ∃ _, _ |- _ => destruct H
  | H : _ ∧ _ |- _ => destruct H
  | H : _ = _ |- _ => progress subst
  end.

(** For a record [x] with the serializer [ser] and the loader [load] of its fields in order. *)
Ltac codec_record valid ser load :=
  split;
  [ intros [] Hv; unfold valid in Hv; cbn in Hv; ex_inv; unfold ser; cbn; solve_writer
  | eapply denotes_ext; [unfold load; solve_denotes|..];
    [ intros [] bs [Hv He]; unfold valid in Hv; cbn in Hv; unfold ser in He; cbn in He; ex_inv; emits_inv He; denotes_build
    | cbn beta; intros y bs Hok Hex; ex_inv; rewrite ?app_nil_r in *; pose proof (proj1 Hok) as Hfit;
      split; [unfold valid; cbn; repeat split; solve_valid|unfold ser; cbn; emits_build Hfit] ] ].

Lemma codec_module_handle : codec valid_module_handle serialize_module_handle load_module_handle.
Proof. codec_record valid_module_handle serialize_module_handle load_module_handle. Qed.
#[export] Hint Resolve codec_module_handle : codec.

Definition valid_struct_instantiation (i : StructDefInstantiation) : Prop := is_u16 (si_def i) ∧ is_u16 (si_type_parameters i).
Lemma codec_struct_instantiation :
  codec valid_struct_instantiation serialize_struct_def_instantiation load_struct_instantiation.
Proof. codec_record valid_struct_instantiation serialize_struct_def_instantiation load_struct_instantiation. Qed.

Definition valid_function_instantiation (i : FunctionInstantiation) : Prop := is_u16 (fi_handle i) ∧ is_u16 (fi_type_parameters i).
Lemma codec_function_instantiation :
  codec valid_function_instantiation serialize_function_instantiation load_function_instantiation.
Proof. codec_record valid_function_instantiation serialize_function_instantiation load_function_instantiation. Qed.

Definition valid_field_instantiation (i : FieldInstantiation) : Prop := is_u16 (fdi_handle i) ∧ is_u16 (fdi_type_parameters i).
Lemma codec_field_instantiation : codec valid_field_instantiation serialize_field_instantiation load_field_instantiation.
Proof. codec_record valid_field_instantiation serialize_field_instantiation load_field_instantiation. Qed.

Lemma codec_field_offset : codec is_u16 serialize_field_offset load_field_offset.
Proof. by apply codec_int. Qed.
#[export] Hint Resolve codec_field_offset : codec.

Definition valid_field_handle (h : FieldHandle) : Prop := is_u16 (owner h) ∧ is_u16 (field h).
Lemma codec_field_handle : codec valid_field_handle serialize_field_handle load_field_handle.
Proof. codec_record valid_field_handle serialize_field_handle load_field_handle. Qed.

Lemma codec_identifier_blob : codec u8s (serialize_byte_blob serialize_identifier_size) (load_byte_blob load_identifier_size).
Proof. by apply codec_blob. Qed.
Lemma codec_constant_blob : codec u8s (serialize_byte_blob serialize_constant_size) (load_byte_blob load_constant_size).
Proof. by apply codec_blob. Qed.
Lemma codec_key_blob : codec u8s (serialize_byte_blob serialize_metadata_key_size) (load_byte_blob load_metadata_key_size).
Proof. by apply codec_blob. Qed.
Lemma codec_value_blob : codec u8s (serialize_byte_blob serialize_metadata_value_size) (load_byte_blob load_metadata_value_size).
Proof. by apply codec_blob. Qed.
#[export] Hint Resolve codec_constant_blob codec_key_blob codec_value_blob : codec.

Definition valid_metadata (m : Metadata) : Prop := u8s (key m) ∧ u8s (value m).
Lemma codec_metadata : codec valid_metadata serialize_metadata_entry load_metadata_entry.
Proof. codec_record valid_metadata serialize_metadata_entry load_metadata_entry. Qed.

Definition valid_identifier (i : Identifier) : Prop := u8s i ∧ Ident.is_valid i = true.
Lemma codec_identifier : codec valid_identifier serialize_identifier load_identifier.
Proof.
  destruct codec_identifier_blob as [Hw Hd]. split; [intros x [Hx _]; by apply Hw|].
  eapply denotes_ext.
  { eapply denotes_eq; [intros c; apply st_bind_assoc|]. eapply (denotes_bind _ _ _ (λ y x bs, Ident.is_valid y = true ∧ x = y ∧ bs = [])); [exact Hd|].
    intros y. unfold Ident.from_utf8. destruct (Ident.is_valid y); eapply denotes_ext; [apply denotes_ret|..|apply denotes_throw| |]; naive_solver. }
  - cbn beta. intros x bs [[? ?] He]. exists x, bs, []. rewrite app_nil_r. done.
  - cbn beta. intros x bs _ (y & bs1 & bs2 & -> & [? ?] & ? & -> & ->). rewrite app_nil_r. done.
Qed.

(** * Code *)

(** The widths of the operands, and what is written of them. *)
Definition valid_instruction (i : BC.Bytecode) : Prop :=
  match i with
  | BC.BrTrue x | BC.BrFalse x | BC.Branch x | BC.LdConst x | BC.MutBorrowField x | BC.ImmBorrowField x
  | BC.MutBorrowFieldGeneric x | BC.ImmBorrowFieldGeneric x | BC.Call x | BC.Pack x | BC.Unpack x
  | BC.ExistsDeprecated x | BC.MutBorrowGlobalDeprecated x | BC.ImmBorrowGlobalDeprecated x | BC.MoveFromDeprecated x
  | BC.MoveToDeprecated x | BC.CallGeneric x | BC.PackGeneric x | BC.UnpackGeneric x | BC.ExistsGenericDeprecated x
  | BC.MutBorrowGlobalGenericDeprecated x | BC.ImmBorrowGlobalGenericDeprecated x | BC.MoveFromGenericDeprecated x
  | BC.MoveToGenericDeprecated x | BC.VecLen x | BC.VecImmBorrow x | BC.VecMutBorrow x | BC.VecPushBack x
  | BC.VecPopBack x | BC.VecSwap x | BC.LdU16 x => is_u16 x
  | BC.LdU8 x | BC.CopyLoc x | BC.MoveLoc x | BC.StLoc x | BC.MutBorrowLoc x | BC.ImmBorrowLoc x => is_u8 x
  | BC.LdU64 x => is_u64 x
  | BC.LdU128 x => 0 <= x < 2 ^ 128
  | BC.VecPack x y | BC.VecUnpack x y => is_u16 x ∧ is_u64 y
  | BC.LdU32 x => is_u32 x
  | BC.LdU256 x => 0 <= x < 2 ^ 256
  | _ => True
  end.

Definition operands (i : BC.Bytecode) : Writer :=
  match i with
  | BC.BrTrue x | BC.BrFalse x | BC.Branch x => serialize_bytecode_offset x
  | BC.LdU8 x => push x
  | BC.LdU64 x => write_u64 x
  | BC.LdU128 x => write_u128 x
  | BC.LdConst x => serialize_constant_pool_index x
  | BC.CopyLoc x | BC.MoveLoc x | BC.StLoc x | BC.MutBorrowLoc x | BC.ImmBorrowLoc x => serialize_local_index x
  | BC.MutBorrowField x | BC.ImmBorrowField x => serialize_field_handle_index x
  | BC.MutBorrowFieldGeneric x | BC.ImmBorrowFieldGeneric x => serialize_field_inst_index x
  | BC.Call x => serialize_function_handle_index x
  | BC.Pack x | BC.Unpack x | BC.ExistsDeprecated x | BC.MutBorrowGlobalDeprecated x | BC.ImmBorrowGlobalDeprecated x
  | BC.MoveFromDeprecated x | BC.MoveToDeprecated x => serialize_struct_def_index x
  | BC.CallGeneric x => serialize_function_inst_index x
  | BC.PackGeneric x | BC.UnpackGeneric x | BC.ExistsGenericDeprecated x | BC.MutBorrowGlobalGenericDeprecated x
  | BC.ImmBorrowGlobalGenericDeprecated x | BC.MoveFromGenericDeprecated x | BC.MoveToGenericDeprecated x => serialize_struct_def_inst_index x
  | BC.VecPack x y | BC.VecUnpack x y => serialize_signature_index x;; write_u64 y
  | BC.VecLen x | BC.VecImmBorrow x | BC.VecMutBorrow x | BC.VecPushBack x | BC.VecPopBack x | BC.VecSwap x => serialize_signature_index x
  | BC.LdU16 x => write_u16 x
  | BC.LdU32 x => write_u32 x
  | BC.LdU256 x => write_u256 x
  | _ => mret tt
  end.

Lemma op_from_u8 z op : Op.from_u8 z = Ok op → z = Op.as_u8 op.
Proof. unfold Op.from_u8. repeat case_match; intros [= <-]; reflexivity. Qed.
Lemma op_as_u8 op : Op.from_u8 (Op.as_u8 op) = Ok op.
Proof. by destruct op. Qed.

Lemma emits_eq (w w' : Writer) bs : (∀ b, w b = w' b) → emits w bs ↔ emits w' bs.
Proof. intros Heq. unfold emits. by setoid_rewrite Heq. Qed.
Lemma writer_eq (w w' : Writer) : (∀ b, w b = w' b) → writer w → writer w'.
Proof. intros Heq Hw b Hb. destruct (Hw b Hb) as (r & b' & Hr & Hok). exists r, b'. rewrite <- Heq. split; [done|].
  destruct r; [|done]. destruct Hok as (bs & ? & ? & ?). exists bs. split_and!; [done..|]. by apply (emits_eq w w').
Qed.

Lemma operation_eq i b : (push (instruction_key i);; operands i) b = serialize_operation i b.
Proof. destruct i; try reflexivity; cbn; unfold mbind, st_bind, push; by destruct (checked_add _ _). Qed.

Lemma codec_bytecode_offset : codec is_u16 serialize_bytecode_offset load_bytecode_index.
Proof. by apply codec_int. Qed.
Lemma codec_local_index : codec is_u8 serialize_local_index load_local_index.
Proof. by apply codec_int. Qed.
Lemma codec_byte : codec is_u8 push read_byte.
Proof.
  split; [intros; apply writer_push|]. eapply denotes_ext; [apply denotes_byte|..]; cbn beta.
  - by intros x bs [_ ->%emits_push].
  - intros x bs [_ Hb] ->. apply Forall_cons in Hb as [Hb _]. split; [done|by apply emits_push].
Qed.
Lemma codec_u16 : codec is_u16 write_u16 read_u16_internal.
Proof. apply (codec_le 2). lia. Qed.
Lemma codec_u32 : codec is_u32 write_u32 read_u32_internal.
Proof. apply (codec_le 4). lia. Qed.
Lemma codec_u64 : codec is_u64 write_u64 read_u64_internal.
Proof. apply (codec_le 8). lia. Qed.
Lemma codec_u128 : codec (λ x, 0 <= x < 2 ^ 128) write_u128 read_u128_internal.
Proof. apply (codec_le 16). lia. Qed.
Lemma codec_u256 : codec (λ x, 0 <= x < 2 ^ 256) write_u256 read_u256_internal.
Proof. apply (codec_le 32). lia. Qed.
#[export] Hint Resolve codec_bytecode_offset codec_local_index codec_byte codec_u16 codec_u32 codec_u64 codec_u128 codec_u256 : codec.

Lemma writer_operands i : valid_instruction i → writer (operands i).
Proof. intros Hv. destruct i; cbn in *; ex_inv; solve_writer. Qed.

Lemma operation_read i bs p rest : valid_instruction i → emits (operands i) bs →
  load_operation (opcode i) (mkCursor p (bs ++ rest)) = Ret (Ok i, mkCursor (p + lenZ bs) rest).
Proof.
  intros Hv He. destruct i; cbn in Hv, He; ex_inv; emits_inv He; cbn [opcode load_operation];
    (eapply denotes_read; [solve_denotes|cbn beta; denotes_build]).
Qed.

Lemma operation_sound op p inp i c : bytes_ok inp → load_operation op (mkCursor p inp) = Ret (Ok i, c) →
  ∃ bs rest, inp = bs ++ rest ∧ c = mkCursor (p + lenZ bs) rest ∧ opcode i = op ∧ valid_instruction i ∧ emits (operands i) bs.
Proof.
  intros Hok. destruct op; cbn [load_operation]; intros Hrun;
    (eapply denotes_sound in Hrun; [|solve_denotes|exact Hok]); cbn beta in Hrun;
    destruct Hrun as (bs & rest & -> & -> & HP); exists bs, rest; (split; [reflexivity|]); (split; [reflexivity|]);
    apply bytes_ok_app_l in Hok; ex_inv; rewrite ?app_nil_r in *; pose proof (proj1 Hok) as Hfit;
    (split; [reflexivity|]); (split; [cbn; try split; solve_valid|cbn [operands]; emits_build Hfit]).
Qed.

(** The flags of a function: an entry bit, a native bit, and what is left. *)
Definition flags (entry native : bool) : Z := Z.lor (if entry then ENTRY else 0) (if native then NATIVE else 0).
Definition entry_bit (f : Z) : bool := negb (Z.land f ENTRY =? 0).
Definition without_entry (f : Z) : Z := if entry_bit f then Z.lxor f ENTRY else f.
Definition native_bit (f : Z) : bool := negb (Z.land (without_entry f) NATIVE =? 0).
Definition without_flags (f : Z) : Z := if native_bit f then Z.lxor (without_entry f) NATIVE else without_entry f.

Lemma flags_bits e n : entry_bit (flags e n) = e ∧ native_bit (flags e n) = n ∧ without_flags (flags e n) = 0.
Proof. by destruct e, n. Qed.

Lemma flags_of_bits f : is_u8 f → without_flags f = 0 → f = flags (entry_bit f) (native_bit f).
Proof.
  intros Hf. assert (Forall (λ f, without_flags f = 0 → f = flags (entry_bit f) (native_bit f)) (seqZ 0 256)) as Hall.
  { apply Forall_forall. intros x Hx. destruct (Z.eq_dec x (flags (entry_bit x) (native_bit x))) as [?|Hne]; [done|]. intros H0. exfalso.
    assert (forallb (λ f, negb (without_flags f =? 0) || (f =? flags (entry_bit f) (native_bit f))) (seqZ 0 256) = true) as Hc by (vm_compute; reflexivity).
    rewrite forallb_forall in Hc. specialize (Hc x (proj1 (list_elem_of_In _ _) Hx)). rewrite H0 in Hc. cbn in Hc. by apply Z.eqb_eq in Hc. }
  rewrite Forall_forall in Hall. apply Hall, elem_of_seqZ. unfold is_u8, U8_MOD in Hf. lia.
Qed.

Definition with_entry (e : bool) (x : Z) : Z := if e then Z.lxor x ENTRY else x.
Lemma with_entry_bits f : with_entry (entry_bit f) (without_entry f) = f.
Proof. unfold with_entry, without_entry. destruct (entry_bit f); [|done]. by rewrite Z.lxor_assoc, Z.lxor_nilpotent, Z.lxor_0_r. Qed.

Lemma visibility_u8_try v : visibility_try_from (visibility_u8 v) = mret v.
Proof. by destruct v. Qed.

Lemma denotes_visibility byte : denotes (visibility_try_from byte) (λ v bs, byte = visibility_u8 v ∧ bs = []).
Proof.
  unfold visibility_try_from.
  destruct (Z.eqb_spec byte 0) as [->|]; [|destruct (Z.eqb_spec byte 1) as [->|]; [|destruct (Z.eqb_spec byte 3) as [->|]]].
  1-3: eapply denotes_ext; [apply denotes_ret|..]; cbn beta; [intros [] bs [? ?]; done|by intros v bs _ [-> ->]].
  eapply denotes_ext; [apply denotes_throw|..]; cbn beta; [intros [] bs [? ?]; done|done].
Qed.

(** * Entries that depend on the version *)
Section version.
Context (version : Z).
Hypothesis Hversion : VERSION_5 <= version.

Lemma codec_instruction : codec valid_instruction (serialize_instruction_inner version) (load_instruction version).
Proof using Hversion.
  assert (∀ i, Des.is_new_integer (opcode i) = Ser.is_new_integer i) as Hnew by by intros [].
  assert ((version <? VERSION_4) = false) as H4 by (apply Z.ltb_ge; unfold VERSION_4, VERSION_5 in *; lia).
  assert (∀ i, valid_instruction i → writer (push (instruction_key i);; operands i)) as Hw.
  { intros i Hi. apply writer_bind; [apply writer_push|by apply writer_operands]. }
  split.
  { intros i Hi. unfold serialize_instruction_inner. case_match; [apply writer_throw|]. eapply writer_eq; [apply operation_eq|by apply Hw]. }
  eapply denotes_ext.
  { eapply (denotes_bind _ _ _ (λ byte i bs, byte = instruction_key i ∧ Ser.is_new_integer i && (version <? VERSION_6) = false ∧
      valid_instruction i ∧ emits (operands i) bs)); [apply denotes_byte|]. intros byte. split.
    - intros p i bs rest (-> & Hni & Hi & He). unfold mbind, st_bind, lift_r, instruction_key. rewrite op_as_u8, H4, andb_false_r, Hnew, Hni.
      by apply operation_read.
    - intros p inp i c Hok. unfold mbind, st_bind, lift_r. destruct (Op.from_u8 byte) as [op|] eqn:Hop; [|done].
      apply op_from_u8 in Hop as ->. rewrite H4, andb_false_r. destruct (Des.is_new_integer op && (version <? VERSION_6)) eqn:Hni; [done|].
      intros (bs & rest & -> & -> & <- & Hi & He)%operation_sound; [|done]. exists bs, rest. rewrite Hnew in Hni. done. }
  - cbn beta. intros i bs [Hi He]. unfold serialize_instruction_inner in He. destruct (_ && _) eqn:Hni; [by apply emits_throw in He|].
    apply (emits_eq _ _ _ (operation_eq i)), emits_bind in He as (_ & bs1 & bs2 & -> & ->%emits_push & He); [|apply writer_push|by apply writer_operands].
    by exists (instruction_key i), [instruction_key i], bs2.
  - cbn beta. intros i bs Hok (byte & bs1 & bs2 & -> & -> & -> & Hni & Hi & He). split; [done|].
    unfold serialize_instruction_inner. rewrite Hni. apply (emits_eq _ _ _ (operation_eq i)), emits_bind; [apply writer_push|by apply writer_operands|].
    split; [apply Hok|]. exists [instruction_key i], bs2. split_and!; [done|by apply emits_push|apply He..].
Qed.

Lemma codec_code : codec (Forall valid_instruction) (serialize_code version) (load_code version).
Proof using Hversion. apply codec_list; [apply codec_instruction|done]. Qed.
Hint Resolve codec_code : codec.

Definition valid_code_unit (c : CodeUnit) : Prop := is_u16 (cu_locals c) ∧ Forall valid_instruction (cu_code c).
Lemma codec_code_unit : codec valid_code_unit (serialize_code_unit version) (load_code_unit version).
Proof using Hversion. codec_record valid_code_unit serialize_code_unit load_code_unit. Qed.
Hint Resolve codec_code_unit : codec.

Lemma denotes_flags : denotes (load_function_flags version) (λ '(v, e, x) bs,
  ∃ f, bs = [visibility_u8 v; f] ∧ is_u8 f ∧ e = entry_bit f ∧ x = without_entry f).
Proof using Hversion.
  unfold load_function_flags, VERSION_5, VERSION_1 in *. rewrite (proj2 (Z.eqb_neq version 1)), (proj2 (Z.ltb_ge version 5)) by lia.
  eapply denotes_ext.
  { eapply denotes_bind; [apply denotes_byte|]. intros b. eapply denotes_bind; [apply denotes_visibility|]. intros v.
    eapply denotes_bind; [apply (codec_denotes _ _ _ codec_byte)|]. intros f. apply denotes_ret. }
  - cbn beta. intros [[v e] x] bs (f & -> & Hf & -> & ->). exists (visibility_u8 v), [visibility_u8 v], [f]. split; [done|]. split; [done|].
    exists v, [], [f]. split_and!; [done..|]. exists f, [f], []. split_and!; try done; [apply Hf..|by apply emits_push].
  - cbn beta. intros y bs _ (b & bs1 & bs2 & -> & -> & v & bs3 & bs4 & -> & [-> ->] & f & bs5 & bs6 & -> & [Hf ->%emits_push] & -> & ->). by exists f.
Qed.

Definition valid_function_definition (d : FunctionDefinition) : Prop :=
  is_u16 (fn_function d) ∧ Forall is_u16 (acquires_global_resources d) ∧
  match fn_code d with Some c => valid_code_unit c | None => True end.

(** What is written for a function in these versions. *)
Definition function_definition (d : FunctionDefinition) : Writer :=
  serialize_function_handle_index (fn_function d);;
  push (visibility_u8 (visibility d));;
  push (flags (is_entry d) (bool_decide (fn_code d = None)));;
  serialize_acquires (acquires_global_resources d);;
  match fn_code d with Some c => serialize_code_unit version c | None => mret tt end.

Lemma function_definition_eq d b : function_definition d b = serialize_function_definition version d b.
Proof using Hversion.
  unfold function_definition, serialize_function_definition. rewrite (proj2 (Z.ltb_ge version VERSION_5)) by done.
  unfold mbind, st_bind. destruct (serialize_function_handle_index (fn_function d) b) as [[[[]|] b1]| |]; try done.
  destruct (push (visibility_u8 (visibility d)) b1) as [[[[]|] b2]| |]; try done.
  by destruct d as [? ? [] ? []].
Qed.

Lemma codec_acquires : codec (Forall is_u16) serialize_acquires load_struct_definition_indices.
Proof. apply codec_list; [apply codec_index|done]. Qed.
Hint Resolve codec_acquires : codec.

Lemma writer_code o : match o with Some c => valid_code_unit c | None => True end →
  writer (match o with Some c => serialize_code_unit version c | None => mret tt end).
Proof using Hversion. destruct o; intros Hv; [by apply (codec_writer _ _ _ codec_code_unit)|apply writer_ret]. Qed.

(** The code, if there is any, and the check of the flags that are left. *)
Lemma denotes_body f k : is_u8 f →
  denotes
    ('(code_unit, extra_flags) ←
       (if negb (Z.land (without_entry f) NATIVE =? 0) then mret (None, Z.lxor (without_entry f) NATIVE)
        else code ← load_code_unit version; mret (Some code, without_entry f));
     if negb (extra_flags =? 0) then throw INVALID_FLAG_BITS else mret (k code_unit))
    (λ (d : FunctionDefinition) bs, ∃ o, f = flags (entry_bit f) (bool_decide (o = None)) ∧ d = k o ∧
      match o with Some c => valid_code_unit c | None => True end ∧
      emits (match o with Some c => serialize_code_unit version c | None => mret tt end) bs).
Proof using Hversion.
  intros Hf. change (negb (Z.land (without_entry f) NATIVE =? 0)) with (native_bit f). pose proof (flags_of_bits f Hf) as Hbits.
  assert (∀ e n, f = flags e n → native_bit f = n ∧ without_flags f = 0) as Hinv by (intros e n ->; apply flags_bits).
  pose (Q := λ (y : option CodeUnit * Z) d (bs : list Z), negb (y.2 =? 0) = false ∧ d = k y.1 ∧ bs = []).
  unfold without_flags in *. destruct (native_bit f) eqn:Hn.
  - eapply denotes_ext; [eapply (denotes_bind _ _ _ Q); [apply denotes_ret|intros [o x]; apply denotes_guard, denotes_ret]|..]; cbn beta.
    + intros d bs (o & Hfl & -> & Ho & He). destruct (Hinv _ _ Hfl) as [Ho' H0]. apply symmetry, bool_decide_eq_true in Ho' as ->.
      apply emits_ret in He as ->. exists (None, Z.lxor (without_entry f) NATIVE), [], []. rewrite H0. done.
    + intros d bs _ ([o x] & bs1 & bs2 & -> & [[= -> ->] ->] & Hx & -> & ->). apply negb_false_iff, Z.eqb_eq in Hx. exists None.
      split; [by apply Hbits|]. split; [done|]. split; [done|]. by apply emits_ret.
  - eapply denotes_ext; [eapply (denotes_bind _ _ _ Q); [eapply denotes_bind; [apply (codec_denotes _ _ _ codec_code_unit)|intros c; apply denotes_ret]|intros [o x]; apply denotes_guard, denotes_ret]|..]; cbn beta.
    + intros d bs (o & Hfl & -> & Ho & He). destruct (Hinv _ _ Hfl) as [Ho' H0]. apply symmetry, bool_decide_eq_false in Ho'.
      destruct o as [c|]; [|done]. exists (Some c, without_entry f), bs, []. rewrite app_nil_r, H0. split; [done|]. split; [|done].
      exists c, bs, []. by rewrite app_nil_r.
    + intros d bs _ ([o x] & bs1 & bs2 & -> & (c & bs3 & bs4 & -> & [Hc He] & [= -> ->] & ->) & Hx & -> & ->).
      apply negb_false_iff, Z.eqb_eq in Hx. rewrite !app_nil_r. exists (Some c). split; [by apply Hbits|]. done.
Qed.

Lemma codec_function_definition :
  codec valid_function_definition (serialize_function_definition version) (load_function_def version).
Proof using Hversion.
  assert (∀ d, valid_function_definition d → writer (function_definition d)) as Hw.
  { intros d (? & ? & ?). unfold function_definition. pose proof (writer_code (fn_code d)). solve_writer. auto. }
  split; [intros d Hd; eapply writer_eq; [apply function_definition_eq|by apply Hw]|].
  pose (Q := λ fn (y : Visibility * bool * Z) d bs, ∃ acq bs1 bs2, bs = bs1 ++ bs2 ∧ (Forall is_u16 acq ∧ emits (serialize_acquires acq) bs1) ∧
    ∃ o, with_entry y.1.2 y.2 = flags y.1.2 (bool_decide (o = None)) ∧ d = mkFunctionDefinition fn y.1.1 y.1.2 acq o ∧
      match o with Some c => valid_code_unit c | None => True end ∧
      emits (match o with Some c => serialize_code_unit version c | None => mret tt end) bs2).
  eapply denotes_ext.
  { eapply denotes_bind; [apply (codec_denotes _ _ _ codec_index)|]. intros fn.
    eapply (denotes_bind_when _ _ _ (Q fn)); [apply denotes_flags|]. intros [[v e] x] bs (f & _ & Hf & -> & ->).
    subst Q. cbn beta iota. cbn [fst snd]. rewrite with_entry_bits. eapply denotes_bind; [apply (codec_denotes _ _ _ codec_acquires)|].
    intros acq. apply (denotes_body f (mkFunctionDefinition fn v (entry_bit f) acq) Hf). }
  - cbn beta. intros [fn v e acq o] bs [(Hfn & Hacq & Ho) He]. apply (emits_eq _ _ _ (function_definition_eq _)) in He.
    pose proof (writer_code o Ho). unfold function_definition in He. cbn in *. emits_inv He.
    match goal with |- ∃ _ _ _, bs0 ++ ?r = _ ∧ _ => exists fn, bs0, r end. split; [done|]. split; [done|].
    exists (v, e, without_entry (flags e (bool_decide (o = None)))), [visibility_u8 v; flags e (bool_decide (o = None))]. eexists. split; [done|].
    destruct (flags_bits e (bool_decide (o = None))) as (Hbit & _). split.
    + eexists. split; [done|]. rewrite Hbit. split; [by destruct e, (bool_decide _)|done].
    + rewrite <- Hbit in *. eexists acq, _, _. split; [done|]. split; [done|]. exists o. cbn [fst snd]. rewrite Hbit. rewrite <- Hbit at 1. rewrite with_entry_bits. done.
  - cbn beta. intros d bs Hok (fn & bs1 & bs2 & -> & [Hfn He1] & [[v e] x] & bs3 & bs4 & -> & (f & -> & Hf & -> & ->) & acq & bs5 & bs6 & -> & [Hacq He2] & o & Hfl & -> & Ho & He3).
    cbn [fst snd] in *. rewrite with_entry_bits in Hfl. split; [done|]. apply (emits_eq _ _ _ (function_definition_eq _)).
    unfold function_definition. cbn. rewrite <- Hfl. pose proof (writer_code o Ho). pose proof (proj1 Hok) as Hfit. 
    change ([visibility_u8 v; f] ++ bs5 ++ bs6) with ([visibility_u8 v] ++ [f] ++ bs5 ++ bs6) in *. emits_build Hfit.
Qed.

Lemma codec_ability_set pos : codec is_u8 serialize_ability_set (load_ability_set version pos).
Proof using Hversion.
  split; [intros x Hx; apply writer_int; [apply Hx|done]|]. unfold load_ability_set. unfold VERSION_5 in *.
  rewrite (proj2 (Z.ltb_ge version 2)) by lia. eapply denotes_ext.
  { eapply (denotes_bind _ _ _ (λ u x bs, Abilities.set_from_u8 u = Some x ∧ bs = [])); [by apply denotes_int|]. intros u.
    destruct (Abilities.set_from_u8 u); eapply denotes_ext; [apply denotes_ret|..|apply denotes_throw| |]; naive_solver. }
  - cbn beta. intros x bs [Hx He]. exists x, bs, []. rewrite app_nil_r. split_and!; try done; [apply Hx..|].
    apply emits_int in He as [Hle _]; [|apply Hx|done]. unfold Abilities.set_from_u8, Abilities.is_subset_bits.
    change Abilities.ALL with (Z.ones 4) in *. rewrite Z.land_ones, Z.mod_small, Z.eqb_refl by (change (Z.ones 4) with 15 in Hle; unfold is_u8 in Hx; lia). done.
  - cbn beta. intros x bs _ (u & bs1 & bs2 & -> & [Hu He] & Hset & ->). rewrite app_nil_r.
    unfold Abilities.set_from_u8 in Hset. case_match; simplify_eq. done.
Qed.

Lemma codec_ability_sets pos : codec (Forall is_u8) serialize_ability_sets (load_ability_sets version pos).
Proof using Hversion. apply codec_list; [apply codec_ability_set|done]. Qed.
Definition codec_struct_abilities := codec_ability_set StructHandlePosition.
Definition codec_constraints := codec_ability_set StructTypeParameters.
Definition codec_function_constraints := codec_ability_sets FunctionTypeParameters.
Hint Resolve codec_struct_abilities codec_constraints codec_function_constraints : codec.

Lemma codec_bool : codec (λ _ : bool, True) (λ b : bool, write_as_uleb128 (if b then 1 else 0) 1)
  (byte ← read_uleb_internal U8_MOD 1; mret (negb (byte =? 0))).
Proof.
  split; [intros [] _; by apply writer_int|]. eapply denotes_ext; [eapply denotes_bind; [by apply denotes_int|intros; apply denotes_ret]|..]; cbn beta.
  - intros b bs [_ He]. exists (if b then 1 else 0), bs, []. rewrite app_nil_r. split_and!; try done; by destruct b.
  - intros b bs _ (x & bs1 & bs2 & -> & [Hx He] & -> & ->). rewrite app_nil_r. split; [done|].
    assert (x = 0 ∨ x = 1) as [-> | ->] by (apply emits_int in He; [lia|lia|done]); done.
Qed.
Hint Resolve codec_bool : codec.

Definition valid_type_parameter (p : StructTypeParameter) : Prop := is_u8 (constraints p).
Lemma codec_type_parameter : codec valid_type_parameter serialize_type_parameter (load_struct_type_parameter version).
Proof using Hversion.
  assert ((version <? VERSION_3) = false) as Hv3 by (apply Z.ltb_ge; unfold VERSION_3, VERSION_5 in *; lia).
  unfold load_struct_type_parameter. rewrite Hv3. clear Hv3. codec_record valid_type_parameter serialize_type_parameter load_struct_type_parameter.
Qed.
Lemma codec_type_parameters :
  codec (Forall valid_type_parameter) serialize_type_parameters (load_struct_type_parameters version).
Proof using Hversion. apply codec_list; [apply codec_type_parameter|done]. Qed.
Hint Resolve codec_type_parameters : codec.

Definition valid_struct_handle (h : StructHandle) : Prop :=
  is_u16 (sh_module h) ∧ is_u16 (sh_name h) ∧ is_u8 (sh_abilities h) ∧ Forall valid_type_parameter (sh_type_parameters h).
Lemma codec_struct_handle : codec valid_struct_handle serialize_struct_handle (load_struct_handle version).
Proof using Hversion. codec_record valid_struct_handle serialize_struct_handle load_struct_handle. Qed.

Definition valid_function_handle (h : FunctionHandle) : Prop :=
  is_u16 (fh_module h) ∧ is_u16 (fh_name h) ∧ is_u16 (fh_parameters h) ∧ is_u16 (fh_return_ h) ∧ Forall is_u8 (fh_type_parameters h).
Lemma codec_function_handle : codec valid_function_handle serialize_function_handle (load_function_handle version).
Proof using Hversion. codec_record valid_function_handle serialize_function_handle load_function_handle. Qed.
End version.
