(* ===== verification/TokenCodec.v ===== *)
(** Types in the binary format: the serializer walks over a type in preorder with a stack
    ([SignatureTokenPreorderTraversalIterWithDepth]), the deserializer keeps the types under
    construction on another ([load_signature_token]).  Both agree with the bytes of the tree. *)
From S2P Require Import Prelude MoveFormat BinaryFormat Serializer CheckBounds Deserializer Codec.
Import Binary Ser Des.

(** * Trees *)

Lemma token_ind' (P : SignatureToken → Prop) : (∀ tok, Forall P (Token.children tok) → P tok) → ∀ tok, P tok.
Proof.
  intros Hstep. fix IH 1. intros tok. apply Hstep.
  destruct tok as [| | | | | |t| |i ts|t|t| | | |]; cbn [Token.children]; try (by constructor); try (constructor; [apply IH|constructor]).
  induction ts as [|t ts IHts]; constructor; [apply IH|exact IHts].
Qed.

Fixpoint nodes (tok : SignatureToken) : list SignatureToken :=
  tok :: match tok with
         | TReference t | TMutableReference t | TVector t => nodes t ++ []
         | TStructInstantiation _ ts => concat (nodes <$> ts)
         | _ => []
         end.
Fixpoint nodes_at (d : Z) (tok : SignatureToken) : list (SignatureToken * Z) :=
  (tok, d) :: match tok with
              | TReference t | TMutableReference t | TVector t => nodes_at (d + 1) t ++ []
              | TStructInstantiation _ ts => concat (nodes_at (d + 1) <$> ts)
              | _ => []
              end.
Fixpoint depth (tok : SignatureToken) : Z :=
  1 + match tok with
      | TReference t | TMutableReference t | TVector t => Z.max (depth t) 0
      | TStructInstantiation _ ts => foldr Z.max 0 (depth <$> ts)
      | _ => 0
      end.

Lemma nodes_eq tok : nodes tok = tok :: concat (nodes <$> Token.children tok).
Proof. by destruct tok. Qed.
Lemma nodes_at_eq d tok : nodes_at d tok = (tok, d) :: concat (nodes_at (d + 1) <$> Token.children tok).
Proof. by destruct tok. Qed.
Lemma depth_eq tok : depth tok = 1 + foldr Z.max 0 (depth <$> Token.children tok).
Proof. by destruct tok. Qed.
Lemma size_eq tok : Token.size tok = S (sum_list (Token.size <$> Token.children tok)).
Proof. destruct tok; cbn [Token.size Token.children fmap list_fmap sum_list_with sum_list]; try done; unfold sum_list; cbn; lia. Qed.

Lemma sum_cons x l : sum_list (x :: l) = (x + sum_list l)%nat.
Proof. done. Qed.
Lemma sum_app l k : sum_list (l ++ k) = (sum_list l + sum_list k)%nat.
Proof. apply sum_list_with_app. Qed.

(** The traversals visit the nodes. *)
Lemma iter_with_depth_eq fuel stack : (sum_list (Token.size <$> stack.*1) <= fuel)%nat →
  Token.iter_with_depth fuel stack = Ret (concat ((λ e, nodes_at e.2 e.1) <$> stack)).
Proof.
  revert stack. induction fuel as [|fuel IH]; intros [|[tok d] stack] Hf; try done.
  - rewrite fmap_cons, fmap_cons, size_eq in Hf. cbn in Hf. lia.
  - cbn [Token.iter_with_depth]. rewrite IH.
    + cbn [fmap list_fmap concat fst snd]. rewrite nodes_at_eq. unfold mbind, outcome_bind, mret, outcome_ret. f_equal. cbn [app]. f_equal.
      rewrite fmap_app, concat_app. f_equal. by rewrite <- list_fmap_compose.
    + rewrite !fmap_cons, sum_cons, size_eq in Hf. rewrite fmap_app, fmap_app, sum_app.
      assert (((λ t, (t, d + 1)) <$> Token.children tok).*1 = Token.children tok) as -> by (clear; induction (Token.children tok); cbn; congruence).
      cbn in Hf. lia.
Qed.

Lemma iter_eq fuel stack : (sum_list (Token.size <$> stack) <= fuel)%nat → Token.iter fuel stack = Ret (concat (nodes <$> stack)).
Proof.
  revert stack. induction fuel as [|fuel IH]; intros [|tok stack] Hf; try done.
  - rewrite fmap_cons, sum_cons, size_eq in Hf. lia.
  - cbn [Token.iter]. rewrite IH.
    + cbn [fmap list_fmap concat]. rewrite nodes_eq, fmap_app, concat_app. done.
    + rewrite fmap_cons, sum_cons, size_eq in Hf. rewrite fmap_app, sum_app. lia.
Qed.

Lemma traversal_eq tok : Token.preorder_traversal tok = Ret (nodes tok).
Proof. unfold Token.preorder_traversal. rewrite iter_eq; [by cbn [fmap list_fmap concat]; rewrite app_nil_r|]. cbn. lia. Qed.
Lemma traversal_with_depth_eq tok : Token.preorder_traversal_with_depth tok = Ret (nodes_at 1 tok).
Proof. unfold Token.preorder_traversal_with_depth. rewrite iter_with_depth_eq; [by cbn [fmap list_fmap concat fst snd]; rewrite app_nil_r|]. cbn. lia. Qed.

(** No node is deeper than the tree. *)
Lemma nodes_at_fst d tok : (nodes_at d tok).*1 = nodes tok.
Proof.
  revert d. induction tok as [tok IH] using token_ind'. intros d. rewrite nodes_at_eq, nodes_eq. cbn [fmap list_fmap fst]. f_equal.
  rewrite Forall_forall in IH. induction (Token.children tok) as [|t ts IHts]; [done|]. cbn [fmap list_fmap concat]. rewrite fmap_app. f_equal.
  - apply IH. by left.
  - apply IHts. intros t' Ht'. apply IH. by right.
Qed.

Lemma foldr_max_le l k : 0 <= k → foldr Z.max 0 l <= k ↔ Forall (λ x, x <= k) l.
Proof. intros Hk. induction l as [|x l IH]; cbn; [by split|]. rewrite Forall_cons, <- IH. lia. Qed.

Lemma depth_pos tok : 1 <= depth tok.
Proof. rewrite depth_eq. assert (∀ l, 0 <= foldr Z.max 0 l) as Hf by (induction l; cbn; lia). specialize (Hf (depth <$> Token.children tok)). lia. Qed.

Lemma nodes_at_depth d k tok : Forall (λ e, e.2 <= k) (nodes_at d tok) ↔ d - 1 + depth tok <= k.
Proof.
  revert d. induction tok as [tok IH] using token_ind'. intros d. rewrite nodes_at_eq, depth_eq, Forall_cons. cbn [snd].
  assert (Forall (λ e, e.2 <= k) (concat (nodes_at (d + 1) <$> Token.children tok)) ↔ Forall (λ x, x <= k - d) (depth <$> Token.children tok)) as Hc.
  { rewrite Forall_concat, !Forall_fmap. rewrite !Forall_forall in *. split; intros H t Ht; specialize (H t Ht); cbn in *.
    - apply (IH t Ht) in H. lia.
    - apply (IH t Ht). lia. }
  rewrite Hc. destruct (Z.le_gt_cases d k).
  - rewrite <- foldr_max_le by lia. lia.
  - assert (0 <= foldr Z.max 0 (depth <$> Token.children tok)) by (clear; induction (depth <$> _); cbn; lia). split; lia.
Qed.

(** * Bytes of a type *)

Section version.
Context (version : Z).

(** What the deserializer wants of a node: the widths of indices, arguments for an instantiation, and
    integers that the version has. *)
Definition valid_node (tok : SignatureToken) : Prop :=
  match tok with
  | TStruct idx | TTypeParameter idx => is_u16 idx
  | TStructInstantiation idx args => is_u16 idx ∧ args ≠ []
  | TU16 | TU32 | TU256 => VERSION_6 <= version
  | _ => True
  end.
Definition valid_token (tok : SignatureToken) : Prop := Forall valid_node (nodes tok).

Lemma valid_token_eq tok : valid_token tok ↔ valid_node tok ∧ Forall valid_token (Token.children tok).
Proof. unfold valid_token. rewrite nodes_eq, Forall_cons, Forall_concat, Forall_fmap. done. Qed.

Abbreviation single := serialize_signature_token_single_node_impl.

Lemma codec_type_parameter_index : codec is_u16 serialize_type_parameter_index load_type_parameter_index.
Proof. by apply codec_int. Qed.
Hint Resolve codec_type_parameter_index : codec.

Lemma writer_single tok : valid_node tok → writer (single tok).
Proof.
  intros Hv. destruct tok; cbn in *; ex_inv; solve_writer; apply writer_int; try (unfold lenZ; lia); done.
Qed.

(** The nodes one after the other. *)
Definition enc (tok : SignatureToken) (bs : list Z) : Prop :=
  ∃ bss, bs = concat bss ∧ Forall2 (λ t bs, emits (single t) bs) (nodes tok) bss.

Lemma enc_eq tok bs :
  enc tok bs ↔ ∃ h bss, bs = h ++ concat bss ∧ emits (single tok) h ∧ Forall2 enc (Token.children tok) bss.
Proof.
  unfold enc. rewrite nodes_eq. split.
  - intros (bss & -> & Hall). apply Forall2_cons_inv_l in Hall as (h & bss' & Hh & Hall & ->). cbn [concat].
    assert (∀ ts bss, Forall2 (λ t bs, emits (single t) bs) (concat (nodes <$> ts)) bss →
      ∃ css, concat bss = concat css ∧ Forall2 (λ tok bs, ∃ bss, bs = concat bss ∧ Forall2 (λ t bs, emits (single t) bs) (nodes tok) bss) ts css) as Hsplit.
    { clear. induction ts as [|t ts IH]; intros bss Hall; cbn in Hall.
      - apply Forall2_nil_inv_l in Hall as ->. by exists [].
      - apply Forall2_app_inv_l in Hall as (b1 & b2 & H1 & (css & Hc & Hcss)%IH & ->). exists (concat b1 :: css).
        rewrite concat_app, Hc. split; [done|]. constructor; [by exists b1|done]. }
    destruct (Hsplit _ _ Hall) as (css & -> & Hcss). by exists h, css.
  - intros (h & css & -> & Hh & Hall).
    assert (∃ bss, concat css = concat bss ∧ Forall2 (λ t bs, emits (single t) bs) (concat (nodes <$> Token.children tok)) bss) as (bss & -> & Hbss).
    { clear Hh. induction Hall as [|t bs ts css (b1 & -> & H1) _ (bss & Heq & IH)]; [by exists []|]. exists (b1 ++ bss). cbn.
      rewrite concat_app, Heq. split; [done|by apply Forall2_app]. }
    exists (h :: bss). split; [done|by constructor].
Qed.

Lemma serialize_token_eq tok b : serialize_signature_token tok b =
  for_each (λ '(token, depth), if SIGNATURE_TOKEN_DEPTH_MAX <? depth then throw MaxDepthReached else single token) (nodes_at 1 tok) b.
Proof. unfold serialize_signature_token. by rewrite traversal_with_depth_eq. Qed.

Lemma valid_nodes_at tok x d : valid_token tok → (x, d) ∈ nodes_at 1 tok → valid_node x.
Proof.
  intros Hv Hin. eapply Forall_forall; [exact Hv|]. rewrite <- (nodes_at_fst 1). apply list_elem_of_fmap. by exists (x, d).
Qed.

Lemma writer_token tok : valid_token tok → writer (serialize_signature_token tok).
Proof.
  intros Hv. eapply writer_eq; [intros b; symmetry; apply serialize_token_eq|]. apply writer_for_each. intros [x d] Hin.
  case_match; [apply writer_throw|]. eapply writer_single, valid_nodes_at; done.
Qed.

Lemma emits_token tok bs : valid_token tok →
  emits (serialize_signature_token tok) bs ↔ fits bs ∧ depth tok <= SIGNATURE_TOKEN_DEPTH_MAX ∧ enc tok bs.
Proof.
  intros Hv. rewrite (emits_eq _ _ _ (serialize_token_eq tok)), emits_for_each.
  2: { intros [x d] Hin. case_match; [apply writer_throw|]. eapply writer_single, valid_nodes_at; done. }
  pose proof (nodes_at_depth 1 SIGNATURE_TOKEN_DEPTH_MAX tok) as Hd. replace (1 - 1 + depth tok) with (depth tok) in Hd by lia. rewrite <- Hd.
  unfold enc. rewrite <- (nodes_at_fst 1). apply and_iff_compat_l. split.
  - intros (bss & -> & Hall). assert (∀ x d bs, emits (if SIGNATURE_TOKEN_DEPTH_MAX <? d then throw MaxDepthReached else single x) bs →
      d <= SIGNATURE_TOKEN_DEPTH_MAX ∧ emits (single x) bs) as He.
    { intros x d bs He. destruct (Z.ltb_spec SIGNATURE_TOKEN_DEPTH_MAX d); [by apply emits_throw in He|done]. }
    split; [|exists bss; split; [done|]].
    + clear Hv Hd. induction Hall as [|[x d] b l bss [? _]%He _ IH]; by constructor.
    + rewrite Forall2_fmap_l. eapply Forall2_impl; [exact Hall|]. by intros [x d] b [_ ?]%He.
  - intros (Hdep & bss & -> & Hall). exists bss. split; [done|]. rewrite Forall2_fmap_l in Hall.
    clear Hv Hd. induction Hall as [|[x d] b l bss He _ IH]; [done|]. apply Forall_cons in Hdep as [Hx Hdep]. constructor; [|by apply IH].
    cbn [snd] in Hx. by rewrite (proj2 (Z.ltb_ge _ _) Hx).
Qed.

(** * Types under construction *)

(** The builder that the deserializer starts on the first byte of a type. *)
Definition open_of (tok : SignatureToken) : TypeBuilder :=
  match tok with
  | TVector _ => BVector
  | TReference _ => BReference
  | TMutableReference _ => BMutableReference
  | TStructInstantiation idx args => BStructInst idx (lenZ args) []
  | tok => Saturated tok
  end.

(** [toks] are the parts that are missing in a builder of [tok]. *)
Definition completes (b : TypeBuilder) (toks : list SignatureToken) (tok : SignatureToken) : Prop :=
  match b with
  | Saturated t => toks = [] ∧ tok = t
  | BVector => ∃ t, toks = [t] ∧ tok = TVector t
  | BReference => ∃ t, toks = [t] ∧ tok = TReference t
  | BMutableReference => ∃ t, toks = [t] ∧ tok = TMutableReference t
  | BStructInst idx arity args => toks ≠ [] ∧ lenZ (args ++ toks) = arity ∧ tok = TStructInstantiation idx (args ++ toks)
  end.

Definition unsaturated (b : TypeBuilder) : Prop :=
  match b with Saturated _ => False | BStructInst _ arity args => lenZ args < arity | _ => True end.

Lemma completes_open tok : valid_node tok → completes (open_of tok) (Token.children tok) tok.
Proof. destruct tok; cbn; try done; try (by eexists). intros [_ ?]. done. Qed.

Lemma completes_inv tok toks tok' : completes (open_of tok) toks tok' → open_of tok' = open_of tok ∧ Token.children tok' = toks.
Proof. destruct tok; cbn; try (by intros [-> ->]); try (by intros (t & -> & ->)). intros (_ & Hlen & ->). cbn. by rewrite Hlen. Qed.

Lemma open_single tok tok' : valid_node tok → open_of tok' = open_of tok → valid_node tok' ∧ single tok' = single tok.
Proof.
  intros Hv Hopen. destruct tok, tok'; cbn in Hopen; try discriminate Hopen; try done; try (injection Hopen as ->; done).
  injection Hopen as -> Hlen. destruct Hv as [Hi Ha]. split; [|cbn; by rewrite Hlen].
  split; [done|]. intros ->. apply Ha, nil_length_inv. unfold lenZ in Hlen. cbn in Hlen. lia.
Qed.

Lemma apply_completes b t toks tok : completes b (t :: toks) tok → 
  ∃ b', apply b t = Ret b' ∧ completes b' toks tok ∧ (toks ≠ [] → unsaturated b').
Proof.
  destruct b as [| | | |idx arity args]; cbn; try (by intros [? _]); try (intros (t' & [= -> ->] & ->); by eexists).
  intros (_ & Hlen & ->). eexists. split; [done|]. replace (args ++ t :: toks) with ((args ++ [t]) ++ toks) in * by by rewrite <- app_assoc.
  rewrite lenZ_app in Hlen. destruct toks as [|t' toks].
  - rewrite lenZ_nil in Hlen. rewrite (proj2 (Z.leb_le _ _)) by lia. cbn. by rewrite app_nil_r.
  - rewrite lenZ_cons in Hlen. unfold lenZ in *. rewrite (proj2 (Z.leb_gt _ _)) by lia. cbn [completes]. unfold lenZ. rewrite !length_app in *. cbn [length] in *.
    split; [split; [done|]; split; [lia|done]|intros _; cbn; unfold lenZ; rewrite length_app; cbn; lia].
Qed.

Lemma apply_unsaturated b t : unsaturated b →
  ∃ b', apply b t = Ret b' ∧ ((∃ tok, b' = Saturated tok) ∨ unsaturated b') ∧ ∀ toks tok, completes b' toks tok → completes b (t :: toks) tok.
Proof.
  destruct b as [| | | |idx arity args]; cbn; try done; intros Hun; eexists; (split; [done|]).
  1-3: split; [left; by eexists|]; intros toks tok [-> ->]; by eexists.
  rewrite lenZ_app. change (lenZ [t]) with 1. destruct (Z.leb_spec arity (lenZ args + 1)).
  - split; [left; by eexists|]. intros toks tok [-> ->]. rewrite lenZ_app. change (lenZ [t]) with 1. split; [done|]. split; [lia|done].
  - split; [right; cbn; rewrite lenZ_app; done|]. cbn. intros toks tok (_ & Hlen & ->). rewrite <- app_assoc in *. done.
Qed.

(** * The first byte of a type and its operands *)

Lemma stype_as_u8 s : SType.from_u8 (SType.as_u8 s) = Ok s.
Proof. by destruct s. Qed.
Lemma stype_from_u8 z s : SType.from_u8 z = Ok s → z = SType.as_u8 s.
Proof. unfold SType.from_u8. repeat case_match; intros [= <-]; reflexivity. Qed.

Lemma codec_arity : codec (λ x, 0 <= x) serialize_signature_size load_type_parameter_count.
Proof. split; [intros; by apply writer_int|by apply denotes_count]. Qed.

Definition tag (tok : SignatureToken) : SType.SerializedType :=
  match tok with
  | TBool => SType.BOOL | TU8 => SType.U8 | TU16 => SType.U16 | TU32 => SType.U32 | TU64 => SType.U64 | TU128 => SType.U128
  | TU256 => SType.U256 | TAddress => SType.ADDRESS | TSigner => SType.SIGNER | TVector _ => SType.VECTOR | TStruct _ => SType.STRUCT
  | TStructInstantiation _ _ => SType.STRUCT_INST | TReference _ => SType.REFERENCE
  | TMutableReference _ => SType.MUTABLE_REFERENCE | TTypeParameter _ => SType.TYPE_PARAMETER
  end.
Definition tag_operands (tok : SignatureToken) : Writer :=
  match tok with
  | TStruct idx => serialize_struct_handle_index idx
  | TStructInstantiation idx args => serialize_struct_handle_index idx;; serialize_signature_size (lenZ args)
  | TTypeParameter idx => serialize_type_parameter_index idx
  | _ => mret tt
  end.

Lemma single_eq tok b : (push (SType.as_u8 (tag tok));; tag_operands tok) b = single tok b.
Proof. destruct tok; try reflexivity; cbn; unfold mbind, st_bind, push; by destruct (checked_add _ _). Qed.

Lemma writer_tag tok : valid_node tok → writer (tag_operands tok).
Proof. intros Hv. destruct tok; cbn in *; ex_inv; solve_writer; apply writer_int; try (unfold lenZ; lia); done. Qed.
Hint Resolve codec_arity : codec.

(** The integers that the version does not have. *)
Definition unsupported (s : SType.SerializedType) : bool :=
  match s with SType.U16 | SType.U32 | SType.U256 => version <? VERSION_6 | _ => false end.

Lemma valid_node_supported tok : valid_node tok → unsupported (tag tok) = false.
Proof. destruct tok; cbn; try done; intros; by apply Z.ltb_ge. Qed.

(** What follows the first byte. *)
Definition read_operands (s : SType.SerializedType) : Reader StatusCode TypeBuilder :=
  match s with
  | SType.BOOL => mret (Saturated TBool)
  | SType.U8 => mret (Saturated TU8)
  | SType.U16 => mret (Saturated TU16)
  | SType.U32 => mret (Saturated TU32)
  | SType.U64 => mret (Saturated TU64)
  | SType.U128 => mret (Saturated TU128)
  | SType.U256 => mret (Saturated TU256)
  | SType.ADDRESS => mret (Saturated TAddress)
  | SType.SIGNER => mret (Saturated TSigner)
  | SType.VECTOR => mret BVector
  | SType.REFERENCE => mret BReference
  | SType.MUTABLE_REFERENCE => mret BMutableReference
  | SType.STRUCT => sh_idx ← load_struct_handle_index; mret (Saturated (TStruct sh_idx))
  | SType.STRUCT_INST =>
      sh_idx ← load_struct_handle_index;
      arity ← load_type_parameter_count;
      if arity =? 0 then throw MALFORMED else mret (BStructInst sh_idx arity [])
  | SType.TYPE_PARAMETER => idx ← load_type_parameter_index; mret (Saturated (TTypeParameter idx))
  end.

Lemma denotes_arity idx : denotes (arity ← load_type_parameter_count; if arity =? 0 then throw MALFORMED else mret (BStructInst idx arity []))
  (λ b bs, ∃ args, b = BStructInst idx (lenZ args) [] ∧ args ≠ [] ∧ emits (serialize_signature_size (lenZ (args : list SignatureToken))) bs).
Proof.
  eapply denotes_ext; [eapply denotes_bind; [apply (codec_denotes _ _ _ codec_arity)|intros n; apply denotes_guard, denotes_ret]|..]; cbn beta.
  - intros b bs (args & -> & Hne & He). exists (lenZ args), bs, []. rewrite app_nil_r. unfold lenZ in *. destruct args; [done|]. cbn [length].
    rewrite (proj2 (Z.eqb_neq _ _)) by lia. split; [done|]. split; [split; [lia|done]|done].
  - intros b bs _ (n & bs1 & bs2 & -> & [Hn He] & Hz & -> & ->). apply Z.eqb_neq in Hz. exists (replicate (Z.to_nat n) TBool).
    rewrite app_nil_r. unfold lenZ. rewrite length_replicate, Z2Nat.id by done. split; [done|]. split; [|done].
    destruct (Z.to_nat n) eqn:H0; [lia|done].
Qed.

Definition after_tag (s : SType.SerializedType) (b : TypeBuilder) (bs : list Z) : Prop :=
  ∃ tok, s = tag tok ∧ b = open_of tok ∧ valid_node tok ∧ emits (tag_operands tok) bs.

Lemma writer_arity (args : list SignatureToken) : writer (serialize_signature_size (lenZ args)).
Proof. apply writer_int; [unfold lenZ; lia|done]. Qed.

Lemma denotes_struct_inst : denotes (read_operands SType.STRUCT_INST) (λ b bs, ∃ idx args,
  b = BStructInst idx (lenZ args) [] ∧ is_u16 idx ∧ args ≠ [] ∧ emits (serialize_struct_handle_index idx;; serialize_signature_size (lenZ (args : list SignatureToken))) bs).
Proof.
  eapply denotes_ext; [eapply denotes_bind; [apply (codec_denotes _ _ _ codec_index)|intros idx; apply denotes_arity]|..]; cbn beta.
  - intros b bs (idx & args & -> & Hidx & Hne & He). pose proof (writer_arity args). emits_inv He. eexists idx, _, _. split; [done|].
    split; [done|]. by exists args.
  - intros b bs Hok (idx & bs1 & bs2 & -> & [Hidx He1] & args & -> & Hne & He2). exists idx, args. split_and!; try done; [apply Hidx..|].
    apply emits_bind; [solve_writer|apply writer_arity|]. split; [apply Hok|]. by exists bs1, bs2.
Qed.

Lemma read_operands_read tok p bs rest : valid_node tok → emits (tag_operands tok) bs →
  read_operands (tag tok) (mkCursor p (bs ++ rest)) = Ret (Ok (open_of tok), mkCursor (p + lenZ bs) rest).
Proof.
  intros Hv He. destruct tok as [| | | | | |t| |idx args|t|t| | | |]; cbn in Hv, He; ex_inv.
  9: { eapply denotes_read; [apply denotes_struct_inst|]. by exists idx, args. }
  all: emits_inv He; cbn [tag read_operands open_of]; eapply denotes_read; [solve_denotes|cbn beta; denotes_build].
Qed.

Definition some_token (b : TypeBuilder) : SignatureToken :=
  match b with
  | Saturated t => t
  | BVector => TVector TBool
  | BReference => TReference TBool
  | BMutableReference => TMutableReference TBool
  | BStructInst idx n _ => TStructInstantiation idx (replicate (Z.to_nat n) TBool)
  end.

Lemma read_operands_sound s p inp b c : bytes_ok inp → unsupported s = false → read_operands s (mkCursor p inp) = Ret (Ok b, c) →
  ∃ bs rest, inp = bs ++ rest ∧ c = mkCursor (p + lenZ bs) rest ∧ after_tag s b bs.
Proof.
  intros Hok Hun Hrun. unfold after_tag. destruct s; cbn [unsupported] in Hun; try apply Z.ltb_ge in Hun.
  11: { apply (denotes_sound _ _ denotes_struct_inst) in Hrun as (bs & rest & -> & -> & idx & args & -> & Hidx & Hne & He); [|done].
    exists bs, rest. split_and!; [done..|]. by exists (TStructInstantiation idx args). }
  all: cbn [read_operands] in Hrun; (eapply denotes_sound in Hrun; [|solve_denotes|exact Hok]); cbn beta in Hrun;
    destruct Hrun as (bs & rest & -> & -> & HP); exists bs, rest; (split; [reflexivity|]); (split; [reflexivity|]);
    apply bytes_ok_app_l in Hok; exists (some_token b); ex_inv; rewrite ?app_nil_r in *; cbn; pose proof (proj1 Hok) as Hfit;
    do 3 (split; [first [done | solve_valid]|]); emits_build Hfit.
Qed.

Lemma denotes_read_next :
  denotes (read_next version) (λ b bs, ∃ tok, b = open_of tok ∧ valid_node tok ∧ emits (single tok) bs).
Proof.
  eapply denotes_ext.
  { eapply (denotes_bind _ _ _ (λ byte b bs, ∃ s, byte = SType.as_u8 s ∧ after_tag s b bs)); [apply denotes_byte|]. intros byte.
    apply (denotes_eq (s ← lift_r (SType.from_u8 byte); (if unsupported s then throw MALFORMED else mret tt);; read_operands s)); [done|].
    split.
    - intros p b bs rest (s & -> & tok & -> & -> & Hv & He). unfold mbind, st_bind, lift_r. rewrite stype_as_u8, valid_node_supported by done.
      by apply read_operands_read.
    - intros p inp b c Hok. unfold mbind, st_bind, lift_r. destruct (SType.from_u8 byte) as [s|] eqn:Hs; [|done].
      apply stype_from_u8 in Hs as ->. destruct (unsupported s) eqn:Hun; [done|].
      intros (bs & rest & -> & -> & Hafter)%read_operands_sound; [|done..]. exists bs, rest. split_and!; [done..|by exists s]. }
  - cbn beta. intros b bs (tok & -> & Hv & He). apply (emits_eq _ _ _ (single_eq tok)), emits_bind in He as (_ & bs1 & bs2 & -> & ->%emits_push & He);
      [|apply writer_push|by apply writer_tag].
    exists (SType.as_u8 (tag tok)), [SType.as_u8 (tag tok)], bs2. split; [done|]. split; [done|]. exists (tag tok). split; [done|]. by exists tok.
  - cbn beta. intros b bs Hok (byte & bs1 & bs2 & -> & -> & s & -> & tok & -> & -> & Hv & He). exists tok. split; [done|]. split; [done|].
    apply (emits_eq _ _ _ (single_eq tok)), emits_bind; [apply writer_push|by apply writer_tag|]. split; [apply Hok|].
    eexists _, bs2. split; [done|]. split; [by apply emits_push|done].
Qed.

Lemma total_read_next : total 1 (read_next version).
Proof.
  apply (total_bind 1 0); [apply total_byte|]. intros byte. apply (total_bind 0 0); [apply total_lift_r|]. intros s.
  apply (total_bind 0 0); [case_match; [apply total_throw|apply total_ret]|]. intros [].
  assert (∀ A size max (f : Z → Reader StatusCode A), (∀ x, total 0 (f x)) → total 0 (x ← read_uleb_internal size max; f x)) as Hint.
  { intros A size max f Hf. eapply total_weaken; [apply (total_bind 1 0); [apply total_int|exact Hf]|lia]. }
  destruct s; try apply total_ret; apply Hint; intros x; try apply total_ret. apply Hint. intros y. case_match; [apply total_throw|apply total_ret].
Qed.

(** * The stack of builders *)

(** A builder that can be applied. *)
Definition is_open (b : TypeBuilder) : Prop := match b with Saturated _ => False | _ => True end.

Lemma is_open_unsaturated b : unsaturated b → is_open b.
Proof. by destruct b. Qed.
Hint Resolve is_open_unsaturated : core.

Lemma apply_open b t : is_open b → ∃ b', apply b t = Ret b' ∧ ((∃ tok, b' = Saturated tok) ∨ is_open b').
Proof. destruct b; cbn; try done; intros _; eexists; (split; [done|]); [left; by eexists..|]. case_match; [left; by eexists|by right]. Qed.

Lemma loop_read fuel b st : is_open b → lenZ (b :: st) <= SIGNATURE_TOKEN_DEPTH_MAX →
  token_loop (S fuel) version (b :: st) = (t ← read_next version; token_loop fuel version (t :: b :: st)).
Proof. intros Hun Hlen. cbn [token_loop]. rewrite (proj2 (Z.ltb_ge _ _)) by done. by destruct b. Qed.

Lemma loop_apply fuel tok b st : lenZ (Saturated tok :: b :: st) <= SIGNATURE_TOKEN_DEPTH_MAX →
  token_loop (S fuel) version (Saturated tok :: b :: st) = (t ← lift_o (apply b tok); token_loop fuel version (t :: st)).
Proof. intros Hlen. cbn [token_loop]. by rewrite (proj2 (Z.ltb_ge _ _)). Qed.

Lemma loop_deep fuel st c : SIGNATURE_TOKEN_DEPTH_MAX < lenZ st → token_loop (S fuel) version st c = Ret (Err MALFORMED, c).
Proof. intros Hlen. cbn [token_loop]. by rewrite (proj2 (Z.ltb_lt _ _)). Qed.

Lemma depth_children tok k : 1 <= k → depth tok <= k ↔ Forall (λ t, depth t <= k - 1) (Token.children tok).
Proof. intros Hk. rewrite depth_eq. assert (1 + foldr Z.max 0 (depth <$> Token.children tok) <= k ↔ foldr Z.max 0 (depth <$> Token.children tok) <= k - 1) as -> by lia.
  rewrite foldr_max_le by lia. by rewrite Forall_fmap.
Qed.

Definition fill_fuel (toks : list SignatureToken) : nat := 2 * sum_list (Token.size <$> toks).

(** On the bytes of the missing parts the loop completes the top of the stack. *)
Lemma loop_fill n : ∀ toks b tok st bss fuel p rest, (sum_list (Token.size <$> toks) <= n)%nat → completes b toks tok → (toks ≠ [] → unsaturated b) →
  Forall valid_token toks → Forall (λ t, depth t <= SIGNATURE_TOKEN_DEPTH_MAX - lenZ (b :: st)) toks → Forall2 enc toks bss →
  token_loop (fill_fuel toks + fuel) version (b :: st) (mkCursor p (concat bss ++ rest)) =
  token_loop fuel version (Saturated tok :: st) (mkCursor (p + lenZ (concat bss)) rest).
Proof.
  induction n as [|n IH]; intros [|t toks] b tok st bss fuel p rest Hn Hc Hun Hv Hd Henc.
  1,3: apply Forall2_nil_inv_l in Henc as ->; cbn [concat app]; rewrite lenZ_nil; destruct b; cbn in Hc; try (by destruct Hc as (? & ? & ?)); by destruct Hc as [_ ->].
  { rewrite fmap_cons, sum_cons, size_eq in Hn. lia. }
  rewrite fmap_cons, sum_cons in Hn. apply Forall_cons in Hv as [[Hvn Hvc]%valid_token_eq Hv]. apply Forall_cons in Hd as [Hdt Hd].
  apply Forall2_cons_inv_l in Henc as (bs & bss' & (h & css & -> & Hh & Hcss)%enc_eq & Henc & ->).
  pose proof (depth_pos t). specialize (Hun ltac:(done)).
  replace (fill_fuel (t :: toks) + fuel)%nat with (S (fill_fuel (Token.children t) + S (fill_fuel toks + fuel)))
    by (unfold fill_fuel; rewrite fmap_cons, sum_cons, size_eq; lia).
  rewrite loop_read by (auto || lia). unfold mbind at 1, st_bind at 1. cbn [concat]. rewrite <- !app_assoc.
  rewrite (denotes_read _ _ denotes_read_next _ (open_of t)) by by exists t.
  assert (lenZ (open_of t :: b :: st) = 1 + lenZ (b :: st)) as Hlen by (unfold lenZ; cbn [length]; lia).
  rewrite (IH _ _ t); [| |by apply completes_open| |done| |done].
  - destruct (apply_completes _ _ _ _ Hc) as (b' & Happ & Hc' & Hun'). rewrite loop_apply by (unfold lenZ in *; cbn [length] in *; lia).
    unfold mbind at 1, st_bind at 1, lift_o. rewrite Happ. rewrite (IH _ _ tok); [|rewrite size_eq in Hn; lia|done..].
    f_equal. f_equal. rewrite !lenZ_app. lia.
  - rewrite size_eq in Hn. lia.
  - destruct t; cbn; try done. intros. unfold lenZ. destruct type_args; [done|]. cbn [length]. lia.
  - apply depth_children in Hdt; [|lia]. eapply Forall_impl; [exact Hdt|]. cbn beta. rewrite Hlen. intros. lia.
Qed.

(** A run that ends completes the top of the stack. *)
Lemma loop_filled fuel : ∀ b st p inp x c, bytes_ok inp → ((∃ tok, b = Saturated tok) ∨ unsaturated b) →
  token_loop fuel version (b :: st) (mkCursor p inp) = Ret (Ok x, c) →
  ∃ toks tok bss rest fuel', (fuel' <= fuel)%nat ∧ inp = concat bss ++ rest ∧ completes b toks tok ∧ Forall valid_token toks ∧
    Forall (λ t, depth t <= SIGNATURE_TOKEN_DEPTH_MAX - lenZ (b :: st)) toks ∧ Forall2 enc toks bss ∧
    token_loop fuel' version (Saturated tok :: st) (mkCursor (p + lenZ (concat bss)) rest) = Ret (Ok x, c).
Proof.
  induction fuel as [fuel IH] using (well_founded_induction lt_wf). intros b st p inp x c Hok [[tok ->]|Hun] Hrun.
  { exists [], tok, [], inp, fuel. cbn [concat app]. rewrite lenZ_nil. done. }
  destruct fuel as [|fuel]; [done|]. destruct (Z.le_gt_cases (lenZ (b :: st)) SIGNATURE_TOKEN_DEPTH_MAX) as [Hlen|Hlen]; [|by rewrite loop_deep in Hrun].
  rewrite loop_read in Hrun by auto. unfold mbind at 1, st_bind at 1 in Hrun. destruct (read_next version _) as [[[t|] c1]| |] eqn:Hnext; try done.
  apply (denotes_sound _ _ denotes_read_next) in Hnext as (h & inp1 & -> & -> & tok0 & -> & Hv0 & Hh); [|done].
  apply IH in Hrun as (cs & t & css & inp2 & fuel1 & Hfuel1 & -> & Hct & Hvc & Hdc & Hencc & Hrun); [|lia|eauto with fits|].
  2: { destruct tok0; cbn; eauto. right. destruct Hv0 as [_ Hne]. unfold lenZ. destruct type_args; [done|]. cbn [length]. lia. }
  apply completes_inv in Hct as [Hopen <-]. apply open_single in Hopen as [Hvt Hsingle]; [|done]. rewrite <- Hsingle in Hh. clear Hsingle.
  assert (lenZ (Saturated t :: b :: st) <= SIGNATURE_TOKEN_DEPTH_MAX) as Hlen1.
  { destruct (Z.le_gt_cases (lenZ (Saturated t :: b :: st)) SIGNATURE_TOKEN_DEPTH_MAX); [done|]. destruct fuel1; [done|]. by rewrite loop_deep in Hrun. }
  destruct fuel1 as [|fuel1]; [done|]. rewrite loop_apply in Hrun by done. unfold mbind at 1, st_bind at 1, lift_o in Hrun.
  destruct (apply_unsaturated b t Hun) as (b' & Happ & Hb' & Hcomp). rewrite Happ in Hrun.
  apply IH in Hrun as (toks & tok & bss & rest & fuel' & Hfuel' & -> & Hc & Hv & Hd & Henc & Hrun); [|lia|eauto with fits|done].
  exists (t :: toks), tok, ((h ++ concat css) :: bss), rest, fuel'. cbn [concat]. rewrite <- !app_assoc. split; [lia|]. split; [done|].
  split; [by apply Hcomp|]. split; [constructor; [by apply valid_token_eq|done]|]. unfold lenZ in *. cbn [length] in *. split.
  { constructor; [|done]. apply depth_children; [lia|]. eapply Forall_impl; [exact Hdc|]. cbn beta. intros. lia. }
  split; [constructor; [apply enc_eq; by exists h, css|done]|]. rewrite <- Hrun. f_equal. f_equal. rewrite !length_app. lia.
Qed.

(** The loop ends: a turn reads a byte or takes a builder off the stack. *)
Lemma loop_total fuel : ∀ b st c, Forall is_open st → ((∃ tok, b = Saturated tok) ∨ is_open b) →
  (2 * length (remaining c) + length (b :: st) <= fuel)%nat →
  ∃ res c', token_loop fuel version (b :: st) c = Ret (res, c') ∧ match res with Ok _ => takes 0 c c' | Err _ => True end.
Proof.
  induction fuel as [|fuel IH]; intros b st c Hst Hb Hf; [cbn in Hf; lia|].
  destruct (Z.le_gt_cases (lenZ (b :: st)) SIGNATURE_TOKEN_DEPTH_MAX) as [Hlen|Hlen]; [|rewrite loop_deep by done; by eexists _, _].
  destruct Hb as [[tok ->]|Hun].
  - destruct st as [|b st].
    { cbn [token_loop]. rewrite (proj2 (Z.ltb_ge _ _)) by done. eexists _, _. split; [done|]. unfold takes. lia. }
    apply Forall_cons in Hst as [Hun Hst]. rewrite loop_apply by done. unfold mbind, st_bind, lift_o.
    destruct (apply_open b tok Hun) as (b' & -> & Hb'). apply IH; [done..|]. cbn [length] in *. lia.
  - rewrite loop_read by done. unfold mbind, st_bind. destruct (total_read_next c) as (res & c1 & Hr & Htake). rewrite Hr.
    destruct res as [t|e]; [|by eexists _, _].
    destruct (IH t (b :: st) c1) as (res & c2 & -> & Hres).
    + by constructor.
    + destruct t; cbn; eauto.
    + unfold takes in Htake. cbn [length] in *. lia.
    + exists res, c2. split; [done|]. unfold takes in *. destruct res; [lia|done].
Qed.

Lemma total_token : total 1 (load_signature_token version).
Proof.
  intros c. unfold load_signature_token, mbind, st_bind. destruct (total_read_next c) as (res & c1 & -> & Htake). destruct res as [t|e]; [|by eexists _, _].
  destruct t as [tok| | | |]; [by eexists _, _|..];
    match goal with |- context [token_loop ?fuel _ [?b] _] =>
      (destruct (loop_total fuel b [] c1) as (res & c2 & -> & Hres);
        [constructor|by right|unfold takes in Htake; cbn [length]; lia|])
    end; exists res, c2; (split; [done|]); (destruct res; [unfold takes in *; lia|done]).
Qed.

(** * Tokens *)

Lemma size_enc tok bs : enc tok bs → valid_token tok → (Token.size tok <= length bs)%nat.
Proof.
  revert bs. induction tok as [tok IH] using token_ind'. intros bs (h & bss & -> & Hh & Hall)%enc_eq [Hn Hv]%valid_token_eq.
  rewrite size_eq, length_app. assert (1 <= length h)%nat.
  { apply (emits_eq _ _ _ (single_eq tok)), emits_bind in Hh as (_ & ? & ? & -> & ->%emits_push & _); [cbn; lia|apply writer_push|by apply writer_tag]. }
  assert (sum_list (Token.size <$> Token.children tok) <= length (concat bss))%nat; [|lia]. clear -Hall IH Hv.
  induction Hall as [|t b ts bss He _ IHall]; [cbn; lia|]. apply Forall_cons in IH as [IH1 IH], Hv as [Hv1 Hv].
  rewrite fmap_cons, sum_cons. cbn [concat]. rewrite length_app. specialize (IH1 _ He Hv1). specialize (IHall IH Hv). lia.
Qed.

Lemma codec_token : codec valid_token serialize_signature_token (load_signature_token version).
Proof.
  split; [apply writer_token|]. split.
  - intros p tok bs rest [Hv He]. apply emits_token in He as (Hfit & Hd & Henc); [|done].
    pose proof (size_enc _ _ Henc Hv) as Hsize. rewrite size_eq in Hsize.
    pose proof Hv as [Hvn Hvc]%valid_token_eq. apply enc_eq in Henc as (h & bss & -> & Hh & Hall).
    unfold load_signature_token. cbn [remaining]. unfold mbind, st_bind. rewrite <- app_assoc at 1.
    rewrite (denotes_read _ _ denotes_read_next _ (open_of tok)) by by exists tok.
    set (len := length _). assert (length (h ++ concat bss) <= len)%nat as Hlen by (subst len; rewrite !length_app; lia). clearbody len.
    assert (is_open (open_of tok) → token_loop (2 * len) version [open_of tok] (mkCursor (p + lenZ h) (concat bss ++ rest)) =
      Ret (Ok tok, mkCursor (p + lenZ (h ++ concat bss)) rest)) as Hloop.
    { intros Hopen. replace (2 * len)%nat with (fill_fuel (Token.children tok) + S (2 * len - fill_fuel (Token.children tok) - 1))%nat by (unfold fill_fuel; lia).
      rewrite (loop_fill _ _ _ tok _ _ _ _ _ (le_n _)); [|by apply completes_open| |done| |done].
      - cbn [token_loop]. change (lenZ [Saturated tok]) with 1. cbn. by rewrite lenZ_app, Z.add_assoc.
      - destruct tok; cbn in *; try done. intros. destruct Hvn as [_ Hne]. unfold lenZ. destruct type_args; [done|]. cbn [length]. lia.
      - apply depth_children in Hd; [|done]. done. }
    destruct (open_of tok) eqn:Ho; try (by apply Hloop).
    assert (Saturated tok0 = Saturated tok ∧ Token.children tok = []) as [[= ->] Hnil] by by destruct tok.
    rewrite Hnil in Hall. apply Forall2_nil_inv_l in Hall as ->. cbn [concat]. rewrite app_nil_r. done.
  - intros p inp tok c Hok. unfold load_signature_token. cbn [remaining]. unfold mbind, st_bind.
    destruct (read_next version _) as [[[t|] c1]| |] eqn:Hnext; try done.
    apply (denotes_sound _ _ denotes_read_next) in Hnext as (h & inp1 & -> & -> & tok0 & -> & Hv0 & Hh); [|done].
    set (len := length _). clearbody len. intros Hrun.
    assert (∃ fuel, token_loop fuel version [open_of tok0] (mkCursor (p + lenZ h) inp1) = Ret (Ok tok, c)) as [fuel Hloop].
    { destruct (open_of tok0); try (by exists (2 * len)%nat). injection Hrun as <- <-. by exists 1%nat. }
    apply loop_filled in Hloop as (toks & tok' & bss & rest & fuel' & _ & -> & Hc & Hvs & Hd & Hall & Hloop); [|eauto with fits|].
    2: { destruct tok0; cbn; eauto. right. destruct Hv0 as [_ Hne]. unfold lenZ. destruct type_args; [done|]. cbn [length]. lia. }
    destruct fuel' as [|fuel']; [done|]. cbn [token_loop] in Hloop. change (lenZ [Saturated tok']) with 1 in Hloop. cbn in Hloop. injection Hloop as -> <-.
    apply completes_inv in Hc as [Hopen <-]. apply open_single in Hopen as [Hvt Hsingle]; [|done]. rewrite <- Hsingle in Hh.
    rewrite app_assoc in Hok |- *. exists (h ++ concat bss), rest. rewrite lenZ_app, Z.add_assoc. split; [done|]. split; [done|].
    assert (valid_token tok) by by apply valid_token_eq. split; [done|]. apply emits_token; [done|].
    split; [apply bytes_ok_app_l in Hok; apply Hok|]. split; [by apply depth_children|]. apply enc_eq. by exists h, bss.
Qed.

(** C14: types in signatures are written and read alike.  The serializer walks over a type with a stack of pending
    subterms, the deserializer builds it with a stack of incomplete types.  The deserializer returns on every input, and
    it returns a type exactly when that type is readable at the version and the input starts with what the serializer
    writes for it.  Readable are the types whose indexes fit 16 bits, that name [u16], [u32] and [u256] from version 6
    on only, and that give at least one argument to every struct instantiation; the serializer writes the
    other ones as well (but none of more than 256 levels). *)
Theorem signature_token_exact tok p p' inp rest :
  bytes_ok inp →
  (∃ r c, load_signature_token version (mkCursor p inp) = Ret (r, c)) ∧
  (load_signature_token version (mkCursor p inp) = Ret (Ok tok, mkCursor p' rest) ↔
    valid_token tok ∧ ∃ bs, inp = bs ++ rest ∧ p' = p + lenZ bs ∧ serialize_signature_token tok [] = Ret (Ok tt, bs)).
Proof.
  destruct codec_token as [Hw Hd]. intros Hok. split; [destruct (total_token (mkCursor p inp)) as (r & c & Hrun & _); by exists r, c|]. split.
  - intros Hrun. apply (denotes_sound _ _ Hd) in Hrun as (bs & rest' & -> & [= -> ->] & Hv & He); [|done]. split; [done|].
    exists bs. split; [done|]. split; [done|]. by apply emits_run; [apply Hw|].
  - intros (Hv & bs & -> & -> & Hs). apply (denotes_read _ _ Hd). split; [done|]. by apply emits_run; [apply Hw|].
Qed.

(** * Entries with types *)

Hint Resolve codec_token : codec.

Definition valid_constant (c : Constant) : Prop := valid_token (type_ c) ∧ u8s (data c).
Lemma codec_constant : codec valid_constant serialize_constant (load_constant version).
Proof. codec_record valid_constant serialize_constant load_constant. Qed.

Definition valid_field_definition (f : FieldDefinition) : Prop := is_u16 (fd_name f) ∧ valid_token (fd_signature f).
Lemma codec_field_definition : codec valid_field_definition serialize_field_definition (load_field_def version).
Proof. codec_record valid_field_definition serialize_field_definition load_field_def. Qed.

Lemma codec_field_definitions : codec (Forall valid_field_definition) serialize_field_definitions (load_field_defs version).
Proof. apply codec_list; [apply codec_field_definition|done]. Qed.
Hint Resolve codec_field_definitions : codec.

Lemma codec_signature : codec (Forall valid_token) serialize_signature (load_signature_tokens version).
Proof. apply codec_list; [apply codec_token|done]. Qed.

Definition valid_field_information (i : StructFieldInformation) : Prop :=
  match i with NativeFields => True | Declared fields => Forall valid_field_definition fields end.
Lemma codec_field_information : codec valid_field_information
  (λ i, match i with NativeFields => push NATIVE_STRUCT | Declared fields => push DECLARED_STRUCT;; serialize_field_definitions fields end)
  (flag ← read_byte;
   if flag =? NATIVE_STRUCT then mret NativeFields
   else if flag =? DECLARED_STRUCT then fields ← load_field_defs version; mret (Declared fields)
   else throw UNKNOWN_NATIVE_STRUCT_FLAG).
Proof.
  split; [intros [|fields] Hv; cbn in *; solve_writer|]. eapply denotes_ext.
  { eapply denotes_bind; [apply denotes_byte|]. intros flag. apply denotes_if; [apply denotes_ret|]. apply denotes_if; [solve_denotes|apply denotes_throw]. }
  - cbn beta. intros [|fields] bs [Hv He].
    + apply emits_push in He as ->. by exists NATIVE_STRUCT, [NATIVE_STRUCT], [].
    + cbn in Hv. emits_inv He. eexists DECLARED_STRUCT, _, _. split; [reflexivity|]. split; [done|]. cbn. denotes_build.
  - cbn beta. intros i bs Hok (flag & bs1 & bs2 & -> & -> & Hi). destruct (Z.eqb_spec flag NATIVE_STRUCT) as [->|].
    + destruct Hi as [-> ->]. split; [done|]. by apply emits_push.
    + destruct (Z.eqb_spec flag DECLARED_STRUCT) as [->|]; [|done]. ex_inv. rewrite ?app_nil_r in *. pose proof (proj1 Hok) as Hfit.
      split; [done|]. emits_build Hfit.
Qed.

Definition valid_struct_definition (d : StructDefinition) : Prop := is_u16 (sd_struct_handle d) ∧ valid_field_information (field_information d).
Lemma codec_struct_definition : codec valid_struct_definition serialize_struct_definition (load_struct_def version).
Proof.
  assert (∀ i, valid_field_information i → writer (match i with NativeFields => push NATIVE_STRUCT | Declared fields => push DECLARED_STRUCT;; serialize_field_definitions fields end)) as Hw
    by apply codec_field_information.
  split; [intros [h i] [Hh Hi]; unfold serialize_struct_definition; cbn; apply writer_bind; [solve_writer|by apply Hw]|].
  eapply denotes_ext.
  { unfold load_struct_def. eapply denotes_bind; [apply (codec_denotes _ _ _ codec_index)|]. intros h. eapply denotes_eq; [intros c; apply st_bind_assoc|].
    eapply denotes_bind; [apply (codec_denotes _ _ _ codec_field_information)|]. intros i. apply denotes_ret. }
  - cbn beta. intros [h i] bs [[Hh Hi] He]. cbn in Hh, Hi. specialize (Hw i Hi). unfold serialize_struct_definition in He. cbn in He.
    emits_inv He. denotes_build.
  - cbn beta. intros d bs Hok Hex. ex_inv. rewrite ?app_nil_r in *. split; [done|]. unfold serialize_struct_definition. cbn.
    apply emits_bind; [solve_writer|by apply Hw|]. split; [apply Hok|]. eexists _, _. split; [reflexivity|]. done.
Qed.
End version.

(** * Example *)
Module Types.
(** [vector<S<&u8, T0>>] for the struct [S] with index 3. *)
Definition tok : SignatureToken := TVector (TStructInstantiation 3 [TReference TU8; TTypeParameter 0]).
Definition bytes : list Z := [0xA; 0xB; 3; 2; 0x6; 0x2; 0x9; 0].

Lemma signature_token_exact_witness : load_signature_token 6 (mkCursor 0 (bytes ++ [1])) = Ret (Ok tok, mkCursor 8 [1]).
Proof.
  destruct (signature_token_exact 6 tok 0 8 (bytes ++ [1]) [1]) as [_ Hiff]; [split; [done|by repeat constructor]|].
  apply Hiff. split; [repeat (constructor; try done)|]. exists bytes. split; [done|]. split; [done|]. vm_compute. reflexivity.
Defined.

(** Types that are written and cannot be read. *)
Lemma unreadable_types :
  serialize_signature_token TU16 [] = Ret (Ok tt, [0xD]) ∧ (load_signature_token 5 (mkCursor 0 [0xD])) = Ret (Err MALFORMED, mkCursor 1 []) ∧
  serialize_signature_token (TStructInstantiation 3 []) [] = Ret (Ok tt, [0xB; 3; 0]) ∧
  load_signature_token 6 (mkCursor 0 [0xB; 3; 0]) = Ret (Err MALFORMED, mkCursor 3 []).
Proof. split_and!; vm_compute; reflexivity. Qed.
End Types.
