(* ===== verification/BoundsSafety.v ===== *)
(** What the bounds checker accepts ([move-binary-format/src/check_bounds.rs]): exactly the modules and
    scripts all of whose indexes are in range.  It returns on all of them. *)
From S2P Require Import Prelude MoveFormat BinaryFormat Serializer CheckBounds Deserializer Codec TokenCodec.
Import BoundsChecker.

(** * Checks *)

(** [m] returns, and without an error exactly when [P] holds. *)
Definition checks (m : VMResult unit) (P : Prop) : Prop := ∃ r, m = Ret r ∧ (r = Ok tt ↔ P).

Lemma checks_ret : checks (mret tt) True.
Proof. by exists (Ok tt). Qed.
Lemma checks_err e : checks (vm_err e) False.
Proof. by exists (Err e). Qed.
Lemma checks_iff m P Q : checks m P → (P ↔ Q) → checks m Q.
Proof. intros (r & -> & Hr) HPQ. exists r. split; [done|]. by rewrite Hr. Qed.

Lemma checks_bind m1 (m2 : unit → VMResult unit) P1 P2 : checks m1 P1 → (P1 → checks (m2 tt) P2) → checks (m1 ≫= m2) (P1 ∧ P2).
Proof.
  intros (r1 & -> & H1) H2. destruct r1 as [[]|e].
  - destruct (H2 (proj1 H1 eq_refl)) as (r2 & Hr2 & H2'). exists r2. split; [exact Hr2|]. rewrite H2'. tauto.
  - exists (Err e). split; [done|]. split; [done|]. by intros [?%H1 _].
Qed.

Lemma checks_for_all {A} (f : A → VMResult unit) P l : (∀ x, x ∈ l → checks (f x) (P x)) → checks (for_all f l) (Forall P l).
Proof.
  induction l as [|x l IH]; intros Hf; cbn [for_all].
  - eapply checks_iff; [apply checks_ret|]. by rewrite Forall_nil.
  - eapply checks_iff; [apply checks_bind; [apply Hf; by left|intros _; apply IH; intros; apply Hf; by right]|]. by rewrite Forall_cons.
Qed.

Lemma checks_if_some {A} (o : option A) f P : (∀ x, o = Some x → checks (f x) (P x)) → checks (if_some o f) (∀ x, o = Some x → P x).
Proof.
  intros Hf. destruct o as [x|]; cbn.
  - eapply checks_iff; [by apply Hf|]. naive_solver.
  - eapply checks_iff; [apply checks_ret|]. naive_solver.
Qed.

Lemma checks_unless (b : bool) e P : (b = false ↔ P) → checks (if b then vm_err e else mret tt) P.
Proof. intros HP. destruct b; (eapply checks_iff; [apply checks_err || apply checks_ret|]); rewrite <- HP; [by split|by split]. Qed.

Create HintDb checks.
#[export] Hint Resolve checks_ret checks_err : checks.

(** * Indexes in range *)

Definition below {A} (pool : list A) (idx : Z) : Prop := idx < lenZ pool.
(** [x] is the entry of [pool] at [idx]. *)
Definition entry {A} (pool : list A) (idx : Z) (x : A) : Prop := get pool idx = Some x.

Lemma get_at_index {A} (pool : list A) idx x : get pool idx = Some x ↔ at_index pool idx = Ret x.
Proof. unfold get, at_index. case_match; [done|]. destruct (pool !! Z.to_nat idx); cbn; naive_solver. Qed.

Lemma below_entry {A} (pool : list A) idx : 0 <= idx → below pool idx → ∃ x, entry pool idx x.
Proof.
  unfold below, entry, get, lenZ. intros H0 Hlt. rewrite (proj2 (Z.ltb_ge _ _)) by done. apply lookup_lt_is_Some. lia.
Qed.

Lemma entry_elem {A} (pool : list A) idx x : entry pool idx x → x ∈ pool.
Proof. unfold entry, get. case_match; [done|]. apply list_elem_of_lookup_2. Qed.

Lemma checks_bounds {A} (pool : list A) idx : checks (check_bounds_impl pool idx) (below pool idx).
Proof. unfold check_bounds_impl. apply checks_unless, Z.leb_gt. Qed.

Lemma checks_code_bounds {A} context (pool : list A) idx : checks (check_code_unit_bounds_impl context pool idx) (below pool idx).
Proof. unfold check_code_unit_bounds_impl. apply checks_unless, Z.leb_gt. Qed.
#[export] Hint Resolve checks_bounds checks_code_bounds : checks.

Ltac solve_checks :=
  repeat first
    [ assumption | solve [auto with checks nocore]
    | apply checks_bind; [|intros _]
    | apply checks_for_all; intros ? _
    | apply checks_if_some; intros ? _ ].

(** * Types *)

Section view.
Context (view : BinaryIndexedView).
Abbreviation tables := (View.tables view).

(** The structs that a type names exist and have as many type parameters as it gives arguments. *)
Definition node_in_bounds (ty : SignatureToken) : Prop :=
  match ty with
  | TStruct idx => below (struct_handles tables) idx ∧ ∀ sh, entry (struct_handles tables) idx sh → sh_type_parameters sh = []
  | TStructInstantiation idx args =>
      below (struct_handles tables) idx ∧ ∀ sh, entry (struct_handles tables) idx sh → length (sh_type_parameters sh) = length args
  | _ => True
  end.
Definition type_in_bounds (ty : SignatureToken) : Prop := Forall node_in_bounds (nodes ty).

(** The type parameters that a type names are among the [n] in scope. *)
Definition node_in_scope (n : nat) (ty : SignatureToken) : Prop :=
  match ty with TTypeParameter idx => idx < Z.of_nat n | _ => True end.
Definition type_in_scope (n : nat) (ty : SignatureToken) : Prop := Forall (node_in_scope n) (nodes ty).

Lemma checks_type ty : checks (check_type view ty) (type_in_bounds ty).
Proof.
  unfold check_type. rewrite traversal_eq. apply checks_for_all. intros node _. destruct node; cbn; try apply checks_ret.
  - apply checks_bind; [apply checks_bounds|intros _]. apply checks_if_some. intros sh _. apply checks_unless.
    rewrite negb_false_iff, Nat.eqb_eq. apply length_zero_iff_nil.
  - apply checks_bind; [apply checks_bounds|intros _]. apply checks_if_some. intros sh _. apply checks_unless.
    by rewrite negb_false_iff, Nat.eqb_eq.
Qed.

Lemma checks_type_parameter n ty : checks (check_type_parameter n ty) (type_in_scope n ty).
Proof.
  unfold check_type_parameter. rewrite traversal_eq. apply checks_for_all. intros node _. destruct node; cbn; try apply checks_ret.
  apply checks_unless. by rewrite Z.leb_gt.
Qed.
Hint Resolve checks_type checks_type_parameter : checks.

(** * Tables *)

(** A table that only modules have: in a script an index into it is not looked at, whatever it is. *)
Definition below_opt {A} (pool : option (list A)) (idx : Z) : Prop := match pool with None => True | Some pool => below pool idx end.

Lemma checks_bounds_opt {A} (pool : option (list A)) idx : checks (check_bounds_impl_opt pool idx) (below_opt pool idx).
Proof. destruct pool; [apply checks_bounds|apply checks_ret]. Qed.
Lemma checks_code_bounds_opt {A} context (pool : option (list A)) idx :
  checks (check_code_unit_bounds_impl_opt context pool idx) (below_opt pool idx).
Proof. destruct pool; [apply checks_code_bounds|apply checks_ret]. Qed.
Hint Resolve checks_bounds_opt checks_code_bounds_opt : checks.

Definition module_handle_in_bounds (h : ModuleHandle) : Prop :=
  below (address_identifiers tables) (mh_address h) ∧ below (identifiers tables) (mh_name h).
Definition struct_handle_in_bounds (h : StructHandle) : Prop :=
  below (module_handles tables) (sh_module h) ∧ below (identifiers tables) (sh_name h).
Definition signature_in_scope (n : nat) (idx : Z) : Prop :=
  ∀ sig, entry (signatures tables) idx sig → Forall (type_in_scope n) sig.
Definition function_handle_in_bounds (h : FunctionHandle) : Prop :=
  below (module_handles tables) (fh_module h) ∧ below (identifiers tables) (fh_name h) ∧
  below (signatures tables) (fh_parameters h) ∧ below (signatures tables) (fh_return_ h) ∧
  signature_in_scope (length (fh_type_parameters h)) (fh_parameters h) ∧
  signature_in_scope (length (fh_type_parameters h)) (fh_return_ h).

Definition fields (sd : StructDefinition) : list FieldDefinition :=
  match field_information sd with NativeFields => [] | Declared fields => fields end.
Definition opt_entry {A} (pool : option (list A)) (idx : Z) : option A := p ← pool; get p idx.
Definition field_handle_in_bounds (h : FieldHandle) : Prop :=
  below_opt (View.in_module view struct_defs) (owner h) ∧
  ∀ sd, opt_entry (View.in_module view struct_defs) (owner h) = Some sd → below (fields sd) (field h).
Definition struct_instantiation_in_bounds (i : StructDefInstantiation) : Prop :=
  below_opt (View.in_module view struct_defs) (si_def i) ∧ below (signatures tables) (si_type_parameters i).
Definition function_instantiation_in_bounds (i : FunctionInstantiation) : Prop :=
  below (function_handles tables) (fi_handle i) ∧ below (signatures tables) (fi_type_parameters i).
Definition field_instantiation_in_bounds (i : FieldInstantiation) : Prop :=
  below_opt (View.in_module view field_handles) (fdi_handle i) ∧ below (signatures tables) (fdi_type_parameters i).
Definition struct_arity (idx : Z) : nat :=
  match get (struct_handles tables) idx with Some sh => length (sh_type_parameters sh) | None => 0 end.
Definition field_in_bounds (n : nat) (f : FieldDefinition) : Prop :=
  below (identifiers tables) (fd_name f) ∧ type_in_bounds (fd_signature f) ∧ type_in_scope n (fd_signature f).
Definition struct_def_in_bounds (sd : StructDefinition) : Prop :=
  below (struct_handles tables) (sd_struct_handle sd) ∧ Forall (field_in_bounds (struct_arity (sd_struct_handle sd))) (fields sd).

Lemma checks_module_handle h : checks (check_module_handle view h) (module_handle_in_bounds h).
Proof. unfold check_module_handle. solve_checks. Qed.
Lemma checks_struct_handle h : checks (check_struct_handle view h) (struct_handle_in_bounds h).
Proof. unfold check_struct_handle. solve_checks. Qed.
Lemma checks_scope n idx : checks (check_type_arguments view n idx) (signature_in_scope n idx).
Proof. apply checks_if_some. intros sig _. solve_checks. Qed.
Lemma checks_function_handle h : checks (check_function_handle view h) (function_handle_in_bounds h).
Proof. unfold check_function_handle. solve_checks; apply checks_scope. Qed.
Lemma checks_field_handle h : checks (check_field_handle view h) (field_handle_in_bounds h).
Proof.
  apply checks_bind; [apply checks_bounds_opt|intros _]. apply checks_if_some. intros sd _. apply checks_unless. rewrite Z.leb_gt.
  unfold below, fields, lenZ. by destruct (field_information sd).
Qed.
Lemma checks_struct_instantiation i : checks (check_struct_instantiation view i) (struct_instantiation_in_bounds i).
Proof. unfold check_struct_instantiation. solve_checks. Qed.
Lemma checks_function_instantiation i : checks (check_function_instantiation view i) (function_instantiation_in_bounds i).
Proof. unfold check_function_instantiation. solve_checks. Qed.
Lemma checks_field_instantiation i : checks (check_field_instantiation view i) (field_instantiation_in_bounds i).
Proof. unfold check_field_instantiation. solve_checks. Qed.
Lemma checks_struct_def sd : checks (check_struct_def view sd) (struct_def_in_bounds sd).
Proof.
  unfold check_struct_def, struct_def_in_bounds, fields. apply checks_bind; [apply checks_bounds|intros _].
  destruct (field_information sd); [eapply checks_iff; [apply checks_ret|by rewrite Forall_nil]|].
  apply checks_for_all. intros f _. solve_checks.
Qed.

(** * Code *)

Definition instruction_in_bounds (code_len locals_count n : nat) (i : BC.Bytecode) : Prop :=
  match i with
  | BC.LdConst idx => below (constant_pool tables) idx
  | BC.MutBorrowField idx | BC.ImmBorrowField idx => below_opt (View.in_module view field_handles) idx
  | BC.MutBorrowFieldGeneric idx | BC.ImmBorrowFieldGeneric idx =>
      below_opt (View.in_module view field_instantiations) idx ∧
      ∀ inst, opt_entry (View.in_module view field_instantiations) idx = Some inst → signature_in_scope n (fdi_type_parameters inst)
  | BC.Call idx => below (function_handles tables) idx
  | BC.CallGeneric idx =>
      below (function_instantiations tables) idx ∧
      ∀ inst, entry (function_instantiations tables) idx inst → signature_in_scope n (fi_type_parameters inst)
  | BC.Pack idx | BC.Unpack idx | BC.ExistsDeprecated idx | BC.ImmBorrowGlobalDeprecated idx | BC.MutBorrowGlobalDeprecated idx
  | BC.MoveFromDeprecated idx | BC.MoveToDeprecated idx => below_opt (View.in_module view struct_defs) idx
  | BC.PackGeneric idx | BC.UnpackGeneric idx | BC.ExistsGenericDeprecated idx | BC.ImmBorrowGlobalGenericDeprecated idx
  | BC.MutBorrowGlobalGenericDeprecated idx | BC.MoveFromGenericDeprecated idx | BC.MoveToGenericDeprecated idx =>
      below_opt (View.in_module view struct_def_instantiations) idx ∧
      ∀ inst, opt_entry (View.in_module view struct_def_instantiations) idx = Some inst → signature_in_scope n (si_type_parameters inst)
  | BC.BrTrue target | BC.BrFalse target | BC.Branch target => target < Z.of_nat code_len
  | BC.CopyLoc idx | BC.MoveLoc idx | BC.StLoc idx | BC.MutBorrowLoc idx | BC.ImmBorrowLoc idx => idx < Z.of_nat locals_count
  | BC.VecPack idx _ | BC.VecLen idx | BC.VecImmBorrow idx | BC.VecMutBorrow idx | BC.VecPushBack idx | BC.VecPopBack idx
  | BC.VecUnpack idx _ | BC.VecSwap idx => below (signatures tables) idx ∧ signature_in_scope n idx
  | _ => True
  end.

(** A function has at most 255 parameters and locals, which is as many as an index of a byte can name
    but one. *)
Definition code_in_bounds (code : CodeUnit) (n params : nat) : Prop :=
  ∃ locals, entry (signatures tables) (cu_locals code) locals ∧ (length locals + params <= 255)%nat ∧
    Forall (type_in_scope n) locals ∧
    Forall (instruction_in_bounds (length (cu_code code)) (length locals + params) n) (cu_code code).

Definition function_def_in_bounds (d : FunctionDefinition) : Prop :=
  below (function_handles tables) (fn_function d) ∧
  Forall (below_opt (View.in_module view struct_defs)) (acquires_global_resources d) ∧
  match fn_code d with
  | None => True
  | Some code => ∃ fh params, entry (function_handles tables) (fn_function d) fh ∧ entry (signatures tables) (fh_parameters fh) params ∧
      code_in_bounds code (length (fh_type_parameters fh)) (length params)
  end.

Lemma checks_instruction context len count n i :
  checks (check_instruction view context len count n i) (instruction_in_bounds len count n i).
Proof.
  destruct i; cbn [check_instruction instruction_in_bounds]; solve_checks; try apply checks_scope; apply checks_unless, Z.leb_gt.
Qed.

Lemma checks_code context code (type_parameters : list AbilitySet) (params : Signature) :
  checks (check_code view context code type_parameters params) (code_in_bounds code (length type_parameters) (length params)).
Proof.
  unfold check_code, code_in_bounds, get_locals.
  destruct (checks_bounds (signatures tables) (cu_locals code)) as (r & Hr & Hb). destruct (get (signatures tables) (cu_locals code)) as [locals|] eqn:Hl.
  - assert (r = Ok tt) as ->. { apply Hb. unfold below, lenZ. unfold get in Hl. case_match; [done|]. apply lookup_lt_Some in Hl. lia. }
    rewrite Hr. unfold mbind, vm_bind, mret, vm_ret. cbv zeta. case_match eqn:Hlen.
    + eapply checks_iff; [apply checks_err|]. apply Z.ltb_lt in Hlen. split; [done|]. intros (locals' & Hl' & Hle & _). unfold entry in Hl'. simplify_eq. lia.
    + apply Z.ltb_ge in Hlen. eapply checks_iff; [apply checks_bind|].
      * apply checks_for_all. intros ty _. apply checks_type_parameter.
      * intros _. apply checks_for_all. intros i _. apply checks_instruction.
      * unfold entry. split; [intros []; exists locals; split_and!; try done; lia|]. intros (locals' & Hl' & Hle & ? & ?). simplify_eq. done.
  - rewrite Hr. destruct r as [[]|e].
    + eapply checks_iff; [apply checks_err|]. unfold entry. split; [done|]. intros (? & ? & _). congruence.
    + exists (Err e). split; [done|]. split; [done|]. unfold entry. intros (? & ? & _). congruence.
Qed.

Lemma checks_at_index {A} (pool : list A) idx e (f : A → VMResult unit) P : 0 <= idx → (∀ x, x ∈ pool → checks (f x) (P x)) →
  checks (if Z.of_nat (length pool) <=? idx then vm_err e else x ← vm_lift (at_index pool idx); f x) (∃ x, entry pool idx x ∧ P x).
Proof.
  intros H0 Hf. destruct (Z.leb_spec (Z.of_nat (length pool)) idx) as [Hge|Hlt].
  - eapply checks_iff; [apply checks_err|]. split; [done|]. unfold entry, get. intros (x & Hx & _). case_match; [lia|]. apply lookup_lt_Some in Hx. lia.
  - destruct (below_entry pool idx H0) as [x Hx]; [done|]. rewrite (proj1 (get_at_index _ _ _) Hx).
    eapply checks_iff; [apply Hf; by eapply entry_elem|]. unfold entry in *. split; [by eauto|]. intros (y & Hy & ?). simplify_eq. done.
Qed.

(** The indexes that are used to look up the signature of a function. *)
Definition handles_nonneg : Prop := Forall (λ fh, 0 <= fh_parameters fh) (function_handles tables).

Lemma checks_function_def idx d : handles_nonneg → 0 <= fn_function d → checks (check_function_def view idx d) (function_def_in_bounds d).
Proof.
  intros Hfh Hfn. unfold check_function_def, function_def_in_bounds. apply checks_bind; [solve_checks|intros _].
  apply checks_bind; [apply checks_for_all; intros; apply checks_bounds_opt|intros _]. destruct (fn_code d) as [code|]; [|apply checks_ret].
  eapply checks_iff; [apply checks_at_index; [done|]|].
  - intros fh Hin. eapply Forall_forall in Hfh; [|done]. cbn beta in Hfh. apply checks_at_index; [done|]. intros params _. apply checks_code.
  - split; [intros (fh & ? & params & ? & ?)|intros (fh & params & ? & ? & ?)]; eauto 10.
Qed.

Lemma checks_function_defs idx defs : handles_nonneg → Forall (λ d, 0 <= fn_function d) defs →
  checks (check_function_defs_from view idx defs) (Forall function_def_in_bounds defs).
Proof.
  intros Hfh Hdefs. revert idx. induction Hdefs as [|d defs Hd _ IH]; intros idx; cbn [check_function_defs_from].
  - eapply checks_iff; [apply checks_ret|by rewrite Forall_nil].
  - eapply checks_iff; [apply checks_bind; [by apply checks_function_def|intros _; apply IH]|by rewrite Forall_cons].
Qed.

(** * Modules and scripts *)

Definition all_of {A} (P : A → Prop) (pool : option (list A)) : Prop := Forall P (default [] pool).

(** Every index is in the table that it points to (if the view has that table), every type is applied to as
    many arguments as it has parameters, only type parameters in scope are named, and functions have at most
    255 parameters and locals. *)
Record in_bounds : Prop := {
  ib_signatures : Forall (Forall type_in_bounds) (signatures tables);
  ib_constants : Forall (λ c, type_in_bounds (type_ c)) (constant_pool tables);
  ib_module_handles : Forall module_handle_in_bounds (module_handles tables);
  ib_self : ∀ idx, View.in_module view self_module_handle_idx = Some idx → below (module_handles tables) idx;
  ib_struct_handles : Forall struct_handle_in_bounds (struct_handles tables);
  ib_function_handles : Forall function_handle_in_bounds (function_handles tables);
  ib_field_handles : all_of field_handle_in_bounds (View.in_module view field_handles);
  ib_friends : all_of module_handle_in_bounds (View.in_module view friend_decls);
  ib_struct_insts : all_of struct_instantiation_in_bounds (View.in_module view struct_def_instantiations);
  ib_function_insts : Forall function_instantiation_in_bounds (function_instantiations tables);
  ib_field_insts : all_of field_instantiation_in_bounds (View.in_module view field_instantiations);
  ib_struct_defs : all_of struct_def_in_bounds (View.in_module view struct_defs);
  ib_function_defs : all_of function_def_in_bounds (View.in_module view function_defs);
}.

Lemma checks_verify_impl : handles_nonneg → all_of (λ d, 0 <= fn_function d) (View.in_module view function_defs) →
  checks (verify_impl view) in_bounds.
Proof.
  intros Hfh Hdefs. eapply checks_iff.
  { unfold verify_impl. repeat (apply checks_bind; [|intros _]).
    1-2: apply checks_for_all; intros ? _; first [apply checks_for_all; intros ? _; apply checks_type|apply checks_type].
    1: apply checks_for_all; intros ? _; apply checks_module_handle.
    1: instantiate (1 := ∀ idx, View.in_module view self_module_handle_idx = Some idx → below (module_handles tables) idx).
    1: unfold check_self_module_handle; destruct (View.in_module view self_module_handle_idx);
      [eapply checks_iff; [apply checks_bounds|naive_solver]|eapply checks_iff; [apply checks_ret|naive_solver]].
    all: try (by apply checks_function_defs).
    all: apply checks_for_all; intros ? _;
      first [apply checks_struct_handle|apply checks_function_handle|apply checks_field_handle|apply checks_module_handle
        |apply checks_struct_instantiation|apply checks_function_instantiation|apply checks_field_instantiation|apply checks_struct_def]. }
  split; [intros (? & ? & ? & ? & ? & ? & ? & ? & ? & ? & ? & ? & ?); by split|]. intros []. by split_and!.
Qed.
End view.

Lemma checks_module m : handles_nonneg (ModuleView m) → Forall (λ d, 0 <= fn_function d) (function_defs m) →
  checks (verify_module m) (module_handles m ≠ [] ∧ in_bounds (ModuleView m)).
Proof.
  intros Hfh Hdefs. unfold verify_module. case_bool_decide as Hnil.
  - eapply checks_iff; [apply checks_err|]. naive_solver.
  - eapply checks_iff; [by apply checks_verify_impl|]. naive_solver.
Qed.

Definition script_in_bounds (s : CompiledScript) : Prop :=
  in_bounds (ScriptView s) ∧ ∃ params, entry (signatures s) (s_parameters s) params ∧
    Forall (type_in_scope (length (s_type_parameters s))) params ∧
    code_in_bounds (ScriptView s) (s_code s) (length (s_type_parameters s)) (length params).

Lemma checks_script s : handles_nonneg (ScriptView s) → 0 <= s_parameters s → checks (verify_script s) (script_in_bounds s).
Proof.
  intros Hfh Hp. unfold verify_script, script_in_bounds. apply checks_bind; [by apply checks_verify_impl, Forall_nil|intros _].
  destruct (checks_bounds (signatures s) (s_parameters s)) as (r & Hr & Hb). rewrite Hr. destruct r as [[]|e].
  - destruct (below_entry (signatures s) (s_parameters s) Hp) as [params Hparams]; [by apply Hb|]. unfold entry in *. rewrite Hparams.
    unfold mbind at 1, vm_bind at 1. cbn [if_some unwrap vm_lift].
    eapply checks_iff; [apply checks_bind; [apply checks_for_all; intros ty _; apply checks_type_parameter|intros _; apply checks_code]|].
    split; [naive_solver|]. intros (params' & ? & ?). simplify_eq. done.
  - exists (Err e). split; [done|]. split; [done|]. intros (params & Hparams & _). exfalso. enough (Err e = Ok ()) by done. apply Hb.
    unfold entry, get in Hparams. case_match; [done|]. apply lookup_lt_Some in Hparams. unfold below, lenZ. lia.
Qed.

(** C11: the bounds checker is exact and does not panic.  Of the modules whose indexes are not negative, as
    unsigned integers are, it accepts exactly those that have a module handle, all of whose indexes are in the
    table that they point to, whose types are applied to as many arguments as declared and name only type
    parameters in scope, and whose functions have at most 255 parameters and locals.  Of the scripts, it accepts
    exactly those of which the same holds for the tables that a script has: an instruction that refers to struct
    or field definitions, of which a script has no table, is accepted with any index ([script_index_unchecked]). *)
Theorem bounds_check_exact m s :
  handles_nonneg (ModuleView m) → Forall (λ d, 0 <= fn_function d) (function_defs m) →
  handles_nonneg (ScriptView s) → 0 <= s_parameters s →
  (∃ r, verify_module m = Ret r ∧ (r = Ok tt ↔ module_handles m ≠ [] ∧ in_bounds (ModuleView m))) ∧
  (∃ r, verify_script s = Ret r ∧ (r = Ok tt ↔ script_in_bounds s)).
Proof. intros. split; [by apply checks_module|by apply checks_script]. Qed.

(** * Example *)
Module Bounds.
(** A module with one function, and a script that returns at once. *)
Definition tables : CommonTables := mkCommon [mkModuleHandle 0 0] [] [mkFunctionHandle 0 0 0 0 []] [] [[]] [[77]] [replicate 32 0] [] [].
Definition module_ : CompiledModule :=
  mkModule 6 0 tables [] [] [] [] [] [mkFunctionDefinition 0 Public false [] (Some (mkCodeUnit 0 [BC.Branch 1; BC.Ret]))].
Definition script : CompiledScript := mkScript 6 tables (mkCodeUnit 0 [BC.Ret]) [] 0.

Lemma bounds_check_exact_witness : in_bounds (ModuleView module_) ∧ script_in_bounds script.
Proof.
  destruct (bounds_check_exact module_ script) as [(r & Hr & Hm) (r' & Hr' & Hs)]; [by repeat constructor..|done|].
  split; [apply Hm|apply Hs].
  - assert (verify_module module_ = Ret (Ok tt)) as Hv by (vm_compute; reflexivity). congruence.
  - assert (verify_script script = Ret (Ok tt)) as Hv by (vm_compute; reflexivity). congruence.
Defined.

(** Scripts have no struct definitions; an instruction on one passes in a script and not in a module. *)
Lemma script_index_unchecked :
  verify_script (mkScript 6 tables (mkCodeUnit 0 [BC.Pack 7; BC.Ret]) [] 0) = Ret (Ok tt) ∧
  verify_module (mkModule 6 0 tables [] [] [] [] [] [mkFunctionDefinition 0 Public false [] (Some (mkCodeUnit 0 [BC.Pack 7; BC.Ret]))]) =
    Ret (Err INDEX_OUT_OF_BOUNDS).
Proof. split; vm_compute; reflexivity. Qed.
End Bounds.
