(* ===== verification/Totality.v ===== *)
(** The deserializer returns on every sequence of bytes: each loader takes at least one byte or fails, so
    that no loop runs forever, and nothing that it indexes is out of range. *)
From S2P Require Import Prelude MoveFormat BinaryFormat Serializer CheckBounds Deserializer Codec TokenCodec BoundsSafety.
Import Des.

Create HintDb total.
#[export] Hint Resolve total_int total_byte total_token total_list total_buffer : total.

(** [total 0] of what is made of binds, cases and known readers. *)
Ltac solve_total0 :=
  intros; cbv zeta;
  first
    [ apply total_ret | apply total_throw | apply total_lift_r
    | solve [eapply total_weaken; [eauto with total nocore|lia]]
    | apply (total_bind 0 0); [solve_total0|solve_total0]
    | case_match; solve_total0 ].
(** [total 1] when the first step takes a byte. *)
Ltac solve_total := first [solve [eauto with total nocore] | apply (total_bind 1 0); [solve_total|solve_total0]].

Lemma total_le_internal n e : total n (map_err e (buf ← Read.read_exact n; mret (Binary.from_le_bytes buf)) : Reader StatusCode Z).
Proof. apply total_map_err, total_le. Qed.
Lemma total_u16_internal : total 1 read_u16_internal.
Proof. eapply total_weaken; [apply total_le_internal|lia]. Qed.
Lemma total_u32_internal : total 1 read_u32_internal.
Proof. eapply total_weaken; [apply total_le_internal|lia]. Qed.
Lemma total_u64_internal : total 1 read_u64_internal.
Proof. eapply total_weaken; [apply total_le_internal|lia]. Qed.
Lemma total_u128_internal : total 1 read_u128_internal.
Proof. eapply total_weaken; [apply total_le_internal|lia]. Qed.
Lemma total_u256_internal : total 1 read_u256_internal.
Proof. eapply total_weaken; [apply total_le_internal|lia]. Qed.
#[export] Hint Resolve total_u16_internal total_u32_internal total_u64_internal total_u128_internal total_u256_internal : total.

(** A list of entries, with the count as a byte at least. *)
Lemma total_entries {A} (l : Reader StatusCode A) size max : total 1 l → total 1 (len ← read_uleb_internal size max; read_n (Z.to_nat len) l).
Proof. intros Hl. apply total_list. eapply total_weaken; [done|lia]. Qed.

Section version.
Context (version : Z).

Lemma total_ability_set pos : total 1 (load_ability_set version pos).
Proof. unfold load_ability_set. case_match; solve_total. Qed.
Hint Resolve total_ability_set : total.
Lemma total_ability_sets pos : total 1 (load_ability_sets version pos).
Proof. apply total_entries, total_ability_set. Qed.
Lemma total_type_parameter : total 1 (load_struct_type_parameter version).
Proof. unfold load_struct_type_parameter. solve_total. Qed.
Lemma total_type_parameters : total 1 (load_struct_type_parameters version).
Proof. apply total_entries, total_type_parameter. Qed.
Hint Resolve total_ability_sets total_type_parameters : total.

Lemma total_module_handle : total 1 load_module_handle.
Proof. unfold load_module_handle. solve_total. Qed.
Lemma total_struct_handle : total 1 (load_struct_handle version).
Proof. unfold load_struct_handle. solve_total. Qed.
Lemma total_function_handle : total 1 (load_function_handle version).
Proof. unfold load_function_handle. solve_total. Qed.
Lemma total_struct_instantiation : total 1 load_struct_instantiation.
Proof. unfold load_struct_instantiation. solve_total. Qed.
Lemma total_function_instantiation : total 1 load_function_instantiation.
Proof. unfold load_function_instantiation. solve_total. Qed.
Lemma total_field_handle : total 1 load_field_handle.
Proof. unfold load_field_handle. solve_total. Qed.
Lemma total_field_instantiation : total 1 load_field_instantiation.
Proof. unfold load_field_instantiation. solve_total. Qed.
Lemma total_identifier : total 1 load_identifier.
Proof. unfold load_identifier. solve_total. Qed.
Lemma total_blob size max : total 1 (load_byte_blob (read_uleb_internal size max)).
Proof. unfold load_byte_blob. solve_total. Qed.
Hint Resolve total_blob : total.
Lemma total_metadata : total 1 load_metadata_entry.
Proof. unfold load_metadata_entry. solve_total. Qed.
Lemma total_constant : total 1 (load_constant version).
Proof. unfold load_constant. solve_total. Qed.
Lemma total_signature : total 1 (load_signature_tokens version).
Proof. apply total_entries, total_token. Qed.
Lemma total_field_def : total 1 (load_field_def version).
Proof. unfold load_field_def. solve_total. Qed.
Lemma total_field_defs : total 1 (load_field_defs version).
Proof. apply total_entries, total_field_def. Qed.
Hint Resolve total_field_defs : total.
Lemma total_struct_def : total 1 (load_struct_def version).
Proof. unfold load_struct_def. solve_total. Qed.

Lemma total_operation op : total 0 (load_operation op).
Proof. destruct op; cbn [load_operation]; solve_total0. Qed.
Lemma total_instruction : total 1 (load_instruction version).
Proof.
  unfold load_instruction. apply (total_bind 1 0); [apply total_byte|]. intros. apply (total_bind 0 0); [apply total_lift_r|]. intros op.
  repeat case_match; try apply total_throw. apply total_operation.
Qed.
Lemma total_code : total 1 (load_code version).
Proof. apply total_entries, total_instruction. Qed.
Hint Resolve total_code : total.
Lemma total_code_unit : total 1 (load_code_unit version).
Proof. unfold load_code_unit. solve_total. Qed.
Lemma total_struct_definition_indices : total 1 load_struct_definition_indices.
Proof. apply total_entries, total_int. Qed.
Lemma total_visibility v : total 0 (visibility_try_from v).
Proof. unfold visibility_try_from. solve_total0. Qed.
Hint Resolve total_code_unit total_struct_definition_indices total_visibility : total.
Lemma total_function_flags : total 1 (load_function_flags version).
Proof. unfold load_function_flags. solve_total. Qed.
Hint Resolve total_function_flags : total.
Lemma total_function_def : total 1 (load_function_def version).
Proof. unfold load_function_def. solve_total. Qed.
End version.

(** * What is read is not negative *)

(** When [r] succeeds its result satisfies [P]. *)
Definition yields {E A} (r : Reader E A) (P : A → Prop) : Prop := ∀ c x c', r c = Ret (Ok x, c') → P x.

Lemma yields_ret {E A} (a : A) (P : A → Prop) : P a → yields (E := E) (mret a) P.
Proof. intros HP c x c' [= <- <-]. done. Qed.
Lemma yields_throw {E A} (e : E) (P : A → Prop) : yields (throw e) P.
Proof. by intros c x c' [=]. Qed.
Lemma yields_bind {E A B} (r : Reader E A) (f : A → Reader E B) Q P : yields r Q → (∀ x, Q x → yields (f x) P) → yields (r ≫= f) P.
Proof.
  intros Hr Hf c y c'. unfold mbind, st_bind. destruct (r c) as [[[x|e] c1]| |] eqn:Hrun; try done. intros Hy. eapply Hf; [by eapply Hr|done].
Qed.
Lemma yields_any {E A B} (r : Reader E A) (f : A → Reader E B) P : (∀ x, yields (f x) P) → yields (r ≫= f) P.
Proof. intros Hf. apply (yields_bind _ _ (λ _, True)); [done|]. intros x _. apply Hf. Qed.
Lemma yields_map_err {E E' A} (e : E') (r : Reader E A) P : yields r P → yields (map_err e r) P.
Proof. intros Hr c x c'. unfold map_err. destruct (r c) as [[[y|] c1]| |] eqn:Hrun; try done. intros [= <- <-]. by eapply Hr. Qed.

Lemma yields_uleb_loop fuel value shift : 0 <= value → yields (Read.read_uleb_loop fuel value shift) (λ x, 0 <= x).
Proof.
  revert value shift. induction fuel as [|fuel IH]; intros value shift Hv; cbn [Read.read_uleb_loop]; [done|].
  apply yields_any. intros b. cbv zeta. assert (0 <= Z.lor value (Z.shiftl (Z.land b 0x7f) shift mod U64_MOD)).
  { apply Z.lor_nonneg. split; [done|]. by apply Z.mod_pos_bound. }
  repeat case_match; try apply yields_throw; [by apply yields_ret|by apply IH].
Qed.

Lemma yields_int size max : yields (read_uleb_internal size max) (λ x, 0 <= x).
Proof.
  eapply yields_bind; [apply yields_map_err; by apply yields_uleb_loop|]. intros x Hx. repeat case_match; try apply yields_throw. by apply yields_ret.
Qed.

Lemma yields_read_n {E A} n (r : Reader E A) P : yields r P → yields (read_n n r) (Forall P).
Proof.
  intros Hr. induction n as [|n IH]; cbn [read_n]; [by apply yields_ret, Forall_nil|].
  eapply yields_bind; [done|]. intros x Hx. eapply yields_bind; [done|]. intros l Hl. by apply yields_ret, Forall_cons.
Qed.

Lemma yields_read_while {E A} fuel more (r : Reader E A) P : yields r P → yields (read_while fuel more r) (Forall P).
Proof.
  intros Hr. induction fuel as [|fuel IH]; intros c l c'; cbn [read_while]; (case_match; [try done|intros [= <- <-]; constructor]).
  apply (yields_bind r _ P (Forall P) Hr). intros x Hx. eapply yields_bind; [done|]. intros l' Hl. by apply yields_ret, Forall_cons.
Qed.

Definition fh_nonneg (fh : FunctionHandle) : Prop := 0 <= fh_parameters fh.
Definition fn_nonneg (d : FunctionDefinition) : Prop := 0 <= fn_function d.

Lemma yields_function_handle version : yields (load_function_handle version) fh_nonneg.
Proof.
  do 2 (apply yields_any; intros ?). eapply yields_bind; [apply yields_int|]. intros p Hp. do 2 (apply yields_any; intros ?). by apply yields_ret.
Qed.

Lemma yields_function_def version : yields (load_function_def version) fn_nonneg.
Proof.
  eapply yields_bind; [apply yields_int|]. intros f Hf. apply yields_any. intros [[v e] x]. apply yields_any. intros acq.
  apply yields_any. intros [o y]. case_match; [apply yields_throw|by apply yields_ret].
Qed.

Lemma yields_table : yields read_table (λ t, 0 <= count t).
Proof.
  do 2 (apply yields_any; intros ?). eapply yields_bind; [apply yields_int|]. intros n Hn. apply yields_any. intros k. by apply yields_ret.
Qed.

(** * Tables *)

(** [m] returns, and its value satisfies [P]. *)
Definition safe {A} (m : VMResult A) (P : A → Prop) : Prop := ∃ r, m = Ret r ∧ ∀ a, r = Ok a → P a.

Lemma safe_ret {A} (a : A) (P : A → Prop) : P a → safe (mret a) P.
Proof. intros HP. exists (Ok a). split; [done|]. by intros ? [= <-]. Qed.
Lemma safe_err {A} e (P : A → Prop) : safe (vm_err e) P.
Proof. by exists (Err e). Qed.
Lemma safe_bind {A B} (m : VMResult A) (f : A → VMResult B) Q P : safe m Q → (∀ x, Q x → safe (f x) P) → safe (m ≫= f) P.
Proof.
  intros (r & -> & HQ) Hf. destruct r as [x|e]; [exact (Hf x (HQ x eq_refl))|]. by exists (Err e).
Qed.

Section binary.
Context (b : VersionedBinary).

(** A table that lies in the content of the tables. *)
Definition in_binary (t : Table) : Prop := 0 <= offset t ∧ 0 < count t ∧ offset t + count t <= lenZ (binary b).

Lemma slice_ok start end_ : 0 <= start → start <= end_ → end_ <= lenZ (binary b) →
  ∃ bytes, Versioned.slice b start end_ = Ret bytes ∧ lenZ bytes = end_ - start.
Proof.
  intros H0 H1 H2. unfold Versioned.slice. rewrite !(proj2 (Z.leb_le _ _)) by done. eexists. split; [done|].
  unfold lenZ in *. rewrite length_take, length_drop. lia.
Qed.

Lemma more_lt count : more_iff (λ position, position <? count) count.
Proof. intros p _. apply Z.ltb_lt. Qed.
Lemma more_ne count : more_iff (λ position, negb (position =? count)) count.
Proof. intros p Hp. rewrite negb_true_iff, Z.eqb_neq. lia. Qed.

Lemma safe_entries {A} more (entry : Reader StatusCode A) P t :
  (∀ count, more_iff (more count) count) → in_binary t → total 1 entry → yields entry P → safe (load_entries_while more entry b t) (Forall P).
Proof.
  intros Hmore (H0 & H1 & H2) Htot Hret. unfold load_entries_while, Versioned.new_cursor.
  destruct (slice_ok (offset t) (offset t + count t)) as (bytes & Hs & Hlen); [lia..|]. rewrite Hs. cbn.
  destruct (total_read_while (more (count t)) (count t) entry (Hmore _) (Z.to_nat (count t)) 0 bytes Htot) as [[res c] Hrun];
    [lia|unfold lenZ in Hlen; lia|].
  rewrite Hrun. exists res. split; [done|]. intros l ->. by eapply (yields_read_while _ _ _ _ Hret).
Qed.

Lemma safe_entries_lt {A} (entry : Reader StatusCode A) P t :
  in_binary t → total 1 entry → yields entry P → safe (load_entries entry b t) (Forall P).
Proof. apply safe_entries. intros. apply more_lt. Qed.
Lemma safe_entries_any {A} (entry : Reader StatusCode A) t : in_binary t → total 1 entry → safe (load_entries entry b t) (λ _, True).
Proof. intros Ht He. destruct (safe_entries_lt entry (λ _, True) t Ht He) as (r & Hr & _); [done|]. by exists r. Qed.
Lemma safe_loop_any {A} (entry : Reader StatusCode A) t : in_binary t → total 1 entry → safe (load_entries_loop entry b t) (λ _, True).
Proof.
  intros Ht He. destruct (safe_entries _ entry (λ _, True) t (λ n, more_ne n) Ht He) as (r & Hr & _); [done|]. by exists r.
Qed.

Lemma safe_addresses n : ∀ start, 0 <= start → start + ADDRESS_LENGTH * Z.of_nat n <= lenZ (binary b) → safe (load_addresses b start n) (λ _, True).
Proof.
  unfold ADDRESS_LENGTH. induction n as [|n IH]; intros start H0 Hlen; cbn [load_addresses]; [by apply safe_ret|]. unfold ADDRESS_LENGTH.
  destruct (slice_ok start (start + 32)) as (bytes & Hs & Hb); [lia..|]. rewrite Hs. apply (safe_bind _ _ (λ _, True)); [by apply safe_ret|].
  intros address _. case_match; [apply safe_err|]. eapply safe_bind; [apply IH; lia|]. intros; by apply safe_ret.
Qed.

Definition common_ok (c : CommonTables) : Prop := Forall fh_nonneg (function_handles c).
Definition module_ok (m : CompiledModule) : Prop := common_ok (m_common m) ∧ Forall fn_nonneg (function_defs m).

Lemma safe_push {A S} (m : VMResult A) (f : A → S) Q P : safe m Q → (∀ x, Q x → P (f x)) → safe (x ← m; mret (f x)) P.
Proof. intros Hm Hf. eapply safe_bind; [done|]. intros x Hx. by apply safe_ret, Hf. Qed.

Lemma safe_common_table t c : in_binary t → common_ok c → safe (build_common_table b t c) common_ok.
Proof.
  intros Ht Hc. unfold build_common_table. destruct (kind t); try (by apply safe_ret).
  3: { eapply safe_push; [apply safe_entries_lt; [done|apply total_function_handle|apply yields_function_handle]|].
    intros l Hl. apply Forall_app. done. }
  all: try (by eapply safe_push; [apply safe_entries_any; [done|]|]; auto using total_module_handle, total_struct_handle,
    total_function_instantiation, total_signature, total_constant, total_identifier).
  - unfold load_address_identifiers. case_match; [apply safe_err|]. destruct Ht as (H0 & H1 & H2). eapply safe_push; [apply safe_addresses; [lia|]|done].
    unfold ADDRESS_LENGTH. rewrite Z2Nat.id by div_lia. div_lia.
  - case_match; [apply safe_err|by apply safe_ret].
  - case_match; [apply safe_err|]. eapply safe_push; [apply safe_entries_any; [done|apply total_metadata]|done].
Qed.

Lemma safe_module_table t m : in_binary t → module_ok m → safe (build_module_table b t m) module_ok.
Proof.
  intros Ht [Hc Hd]. unfold build_module_table. destruct (kind t); try (by apply safe_ret).
  all: try (by eapply safe_push; [first [apply safe_entries_any|apply safe_loop_any]; [done|]|]; auto using total_struct_def, total_struct_instantiation,
    total_field_handle, total_field_instantiation, total_module_handle).
  eapply safe_push; [apply safe_entries_lt; [done|apply total_function_def|apply yields_function_def]|].
  intros l Hl. split; [done|]. by apply Forall_app.
Qed.

Lemma safe_for_tables {S} (f : Table → S → VMResult S) P tables s :
  (∀ t s, in_binary t → P s → safe (f t s) P) → Forall in_binary tables → P s → safe (for_tables f tables s) P.
Proof.
  intros Hf Hall. revert s. induction Hall as [|t tables Ht _ IH]; intros s Hs; cbn [for_tables]; [by apply safe_ret|].
  eapply safe_bind; [by apply Hf|]. auto.
Qed.
End binary.

(** * The header *)

Lemma check_sorted_ok tables len : ∀ cur types fin, Forall (λ t, 0 <= count t) tables → 0 <= cur → check_sorted tables len cur types = Ok fin →
  cur <= fin ∧ Forall (λ t, 0 <= offset t ∧ 0 < count t ∧ offset t + count t <= fin) tables.
Proof.
  induction tables as [|t tables IH]; intros cur types fin Hcount Hcur; cbn [check_sorted]; [intros [= <-]; by split|].
  apply Forall_cons in Hcount as [Ht Hcount]. destruct (Z.eqb_spec (offset t) cur) as [Ho|]; [|done]. cbn [negb].
  destruct (Z.eqb_spec (count t) 0); [done|]. do 3 (case_match; [done|]). intros [Hle Hall]%IH; [|done|lia]. split; [lia|]. constructor; [lia|done].
Qed.

Lemma total_header len max check : ∃ k, total k (load_header len max check).
Proof.
  exists 0%nat. unfold load_header. apply (total_bind 0 0).
  { unfold Versioned.new. apply (total_bind 0 0); [apply total_read|]. intros magic. case_match; [apply total_throw|].
    apply (total_bind 0 0); [|intros v; case_match; [apply total_throw|apply total_ret]]. eapply total_weaken; [apply total_map_err; apply (total_le 4)|lia]. }
  intros v. apply (total_bind 0 0); [solve_total0|]. intros n. apply (total_bind 0 0).
  { apply total_read_n. unfold read_table. solve_total0. }
  intros tables. destruct (check_tables tables len) as [sorted checked]. apply (total_bind 0 0); [apply total_lift_r|]. intros content_len.
  apply (total_bind 0 0); [|intros; apply total_ret]. apply (total_bind 0 0); [|intros; apply total_ret].
  eapply total_weaken; [apply total_map_err, total_read_exact|lia].
Qed.

Lemma yields_read_exact n : yields (Read.read_exact n) (λ l, length l = n).
Proof. intros c x c'. unfold Read.read_exact. case_match eqn:Hn; [|done]. intros [= <- <-]. apply Nat.leb_le in Hn. rewrite length_take. lia. Qed.

Lemma yields_header len max check : yields (load_header len max check) (λ '(tables, b), Forall (in_binary b) tables).
Proof.
  unfold load_header. do 2 (apply yields_any; intros ?). eapply yields_bind; [apply yields_read_n, yields_table|]. intros tables Hcount.
  unfold check_tables. destruct (check_sorted _ len 0 []) as [fin|e] eqn:Hcheck; [|intros c y c' [=]].
  apply (yields_bind _ _ (λ n, n = fin)); [by intros c y c' [= <- <-]|]. intros _ ->.
  apply check_sorted_ok in Hcheck as [Hfin Hall]; [|by rewrite sort_by_key_perm|done].
  eapply yields_bind; [eapply yields_bind; [apply yields_map_err, yields_read_exact|intros l Hl; apply (yields_ret _ (λ b, lenZ (binary b) = fin))]|].
  { unfold lenZ. cbn [binary]. cbv beta in Hl. rewrite Hl. lia. }
  intros b Hb. apply yields_ret. eapply Forall_impl; [exact Hall|]. cbn beta. unfold in_binary. by rewrite Hb.
Qed.

(** * Modules and scripts *)

Lemma safe_compiled_module m b tables : Forall (in_binary b) tables → module_ok m → safe (build_compiled_module m b tables) module_ok.
Proof.
  intros Ht [Hc Hd]. unfold build_compiled_module. eapply safe_bind; [apply (safe_for_tables b _ common_ok); [apply safe_common_table|done..]|].
  intros c Hc'. apply (safe_for_tables b); [apply safe_module_table|done|]. by split.
Qed.

Lemma safe_compiled_script s b tables : Forall (in_binary b) tables → common_ok (s_common s) →
  safe (build_compiled_script s b tables) (λ s', common_ok (s_common s') ∧ s_parameters s' = s_parameters s).
Proof.
  intros Ht Hc. unfold build_compiled_script. eapply safe_bind; [apply (safe_for_tables b _ common_ok); [apply safe_common_table|done..]|].
  intros c Hc'. apply (safe_bind _ _ (λ _, True)); [|intros _ _; by apply safe_ret].
  apply (safe_for_tables b _ (λ _, True)); [|done..]. intros t [] _ _. unfold build_script_table. destruct (kind t); try apply safe_err; by apply safe_ret.
Qed.

(** A reader that ends, with what it returns. *)
Definition runs {A} (r : Reader StatusCode A) (P : A → Prop) : Prop := ∀ c, ∃ res c', r c = Ret (res, c') ∧ ∀ x, res = Ok x → P x.

Lemma runs_total {A} k (r : Reader StatusCode A) P : total k r → yields r P → runs r P.
Proof. intros Ht Hr c. destruct (Ht c) as (res & c' & Hrun & _). exists res, c'. split; [done|]. intros x ->. by eapply Hr. Qed.
Lemma runs_bind {A B} (r : Reader StatusCode A) (f : A → Reader StatusCode B) Q P : runs r Q → (∀ x, Q x → runs (f x) P) → runs (r ≫= f) P.
Proof.
  intros Hr Hf c. unfold mbind, st_bind. destruct (Hr c) as (res & c1 & -> & HQ). destruct res as [x|e]; [|by exists (Err e), c1]. apply Hf. by apply HQ.
Qed.
Lemma runs_lift {A} (m : VMResult A) P : safe m P → runs (lift_vm m) P.
Proof. intros (r & -> & HP) c. by exists r, c. Qed.
Lemma safe_on_binary {A} (r : Reader StatusCode A) bytes P : runs r P → safe (on_binary r bytes) P.
Proof. intros Hr. unfold on_binary. destruct (Hr (mkCursor 0 bytes)) as (res & c & -> & HP). by exists res. Qed.

Lemma runs_header len max check : runs (load_header len max check) (λ '(tables, b), Forall (in_binary b) tables).
Proof. destruct (total_header len max check) as [k Hk]. eapply runs_total; [done|apply yields_header]. Qed.

Lemma safe_deserialize_module bytes max check : safe (deserialize_compiled_module bytes max check) module_ok.
Proof.
  apply safe_on_binary. eapply runs_bind; [apply runs_header|]. intros [tables b] Ht. eapply runs_bind; [eapply runs_total; [apply total_int|apply yields_int]|].
  intros idx _. eapply runs_bind; [apply runs_lift, safe_compiled_module; [done|split; constructor]|]. intros m Hm.
  intros c. unfold mbind, st_bind, gets. cbn beta iota. case_match; eexists _, c; (split; [reflexivity|]); [done|]. by intros ? [= <-].
Qed.

Lemma safe_deserialize_script bytes max : safe (deserialize_compiled_script bytes max) (λ s, common_ok (s_common s) ∧ 0 <= s_parameters s).
Proof.
  apply safe_on_binary. eapply runs_bind; [apply runs_header|]. intros [tables b] Ht.
  apply (runs_bind _ _ (λ _, True)); [eapply runs_total; [apply total_ability_sets|done]|]. intros tps _.
  eapply runs_bind; [eapply runs_total; [apply total_int|apply yields_int]|]. intros params Hp.
  apply (runs_bind _ _ (λ _, True)); [eapply runs_total; [apply total_code_unit|done]|]. intros code _. apply runs_lift.
  edestruct (safe_compiled_script (mkScript (version b) no_tables code tps params) b tables Ht) as (r & Hr & HP); [constructor|].
  exists r. split; [done|]. intros s Hs. destruct (HP s Hs) as [? ->]. done.
Qed.

Lemma module_deserialize_returns bytes max check :
  ∃ r, module_deserialize_with_config bytes max check = Ret r ∧
    ∀ m, r = Ok m → deserialize_compiled_module bytes max check = Ret (Ok m) ∧ module_handles m ≠ [] ∧ in_bounds (ModuleView m).
Proof.
  unfold module_deserialize_with_config. destruct (safe_deserialize_module bytes max check) as (r & -> & Hm). destruct r as [m|e]; [|by exists (Err e)].
  destruct (Hm m eq_refl) as [Hc Hd]. destruct (checks_module m Hc Hd) as (r & Hr & Hb). unfold mbind, vm_bind. rewrite Hr. destruct r as [[]|e]; [|by exists (Err e)].
  exists (Ok m). split; [done|]. intros ? [= <-]. split; [done|]. by apply Hb.
Qed.

Lemma script_deserialize_returns bytes max :
  ∃ r, script_deserialize_with_max_version bytes max = Ret r ∧
    ∀ s, r = Ok s → deserialize_compiled_script bytes max = Ret (Ok s) ∧ script_in_bounds s.
Proof.
  unfold script_deserialize_with_max_version. destruct (safe_deserialize_script bytes max) as (r & -> & Hs). destruct r as [s|e]; [|by exists (Err e)].
  destruct (Hs s eq_refl) as [Hc Hp]. destruct (checks_script s Hc Hp) as (r & Hr & Hb). unfold mbind, vm_bind. rewrite Hr. destruct r as [[]|e]; [|by exists (Err e)].
  exists (Ok s). split; [done|]. intros ? [= <-]. split; [done|]. by apply Hb.
Qed.

(** C3: deserialization returns on every input.  Whatever the bytes, the newest version accepted and the
    setting for extra bytes are, loading a module or a script and checking its bounds ends with a value or an
    error: no slice or index is out of range, no loop runs forever, and no value that passes lacks a check. *)
Theorem deserialize_returns bytes max check :
  (∃ r, module_deserialize_with_config bytes max check = Ret r ∧
    ∀ m, r = Ok m → deserialize_compiled_module bytes max check = Ret (Ok m) ∧ module_handles m ≠ [] ∧ in_bounds (ModuleView m)) ∧
  (∃ r, script_deserialize_with_max_version bytes max = Ret r ∧
    ∀ s, r = Ok s → deserialize_compiled_script bytes max = Ret (Ok s) ∧ script_in_bounds s).
Proof. split; [apply module_deserialize_returns|apply script_deserialize_returns]. Qed.
