(* ===== verification/Tables.v ===== *)
(** The tables of a module, uniformly in their kind: the type of the entries, how they are written and
    loaded, and where they are in the module.  Each table is loaded from exactly the bytes that are
    written for its entries, and a module is determined by its tables. *)
From S2P Require Import Prelude MoveFormat BinaryFormat Serializer CheckBounds Deserializer Codec TokenCodec BoundsSafety Totality.
Import Binary Ser Des.

(** * Kinds of tables *)

Record table_spec := TableSpec {
  entry_type : Type;
  valid : entry_type → Prop;
  serialize : entry_type → Writer;
  load : VersionedBinary → Table → VMResult (list entry_type);
  entries : CompiledModule → list entry_type;
  push_entries : list entry_type → CompiledModule → CompiledModule;
}.

Definition with_common (f : CommonTables → CommonTables) (m : CompiledModule) : CompiledModule :=
  mkModule (m_version m) (self_module_handle_idx m) (f (m_common m)) (field_handles m) (friend_decls m)
    (struct_def_instantiations m) (field_instantiations m) (struct_defs m) (function_defs m).

Definition valid_address (a : AccountAddress) : Prop := u8s a ∧ lenZ a = ADDRESS_LENGTH.

Definition table (version : Z) (k : TableType) : table_spec :=
  match k with
  | MODULE_HANDLES => TableSpec _ valid_module_handle serialize_module_handle load_module_handles module_handles (λ l, with_common (push_module_handles l))
  | STRUCT_HANDLES => TableSpec _ valid_struct_handle serialize_struct_handle load_struct_handles struct_handles (λ l, with_common (push_struct_handles l))
  | FUNCTION_HANDLES =>
      TableSpec _ valid_function_handle serialize_function_handle load_function_handles function_handles (λ l, with_common (push_function_handles l))
  | FUNCTION_INST =>
      TableSpec _ valid_function_instantiation serialize_function_instantiation load_function_instantiations function_instantiations
        (λ l, with_common (push_function_instantiations l))
  | SIGNATURES => TableSpec _ (Forall (valid_token version)) serialize_signature load_signatures signatures (λ l, with_common (push_signatures l))
  | CONSTANT_POOL =>
      TableSpec _ (valid_constant version) serialize_constant load_constant_pool constant_pool (λ l, with_common (push_constant_pool l))
  | IDENTIFIERS => TableSpec _ valid_identifier serialize_identifier load_identifiers identifiers (λ l, with_common (push_identifiers l))
  | ADDRESS_IDENTIFIERS =>
      TableSpec _ valid_address serialize_address load_address_identifiers address_identifiers (λ l, with_common (push_address_identifiers l))
  | METADATA => TableSpec _ valid_metadata serialize_metadata_entry load_metadata metadata (λ l, with_common (push_metadata l))
  | STRUCT_DEFS => TableSpec _ (valid_struct_definition version) serialize_struct_definition load_struct_defs struct_defs push_struct_defs
  | STRUCT_DEF_INST =>
      TableSpec _ valid_struct_instantiation serialize_struct_def_instantiation load_struct_instantiations struct_def_instantiations
        push_struct_def_instantiations
  | FUNCTION_DEFS =>
      TableSpec _ valid_function_definition (serialize_function_definition version) load_function_defs function_defs push_function_defs
  | FIELD_HANDLE => TableSpec _ valid_field_handle serialize_field_handle load_field_handles field_handles push_field_handles
  | FIELD_INST =>
      TableSpec _ valid_field_instantiation serialize_field_instantiation load_field_instantiations field_instantiations push_field_instantiations
  | FRIEND_DECLS => TableSpec _ valid_module_handle serialize_module_handle load_module_handles friend_decls push_friend_decls
  end.

Definition is_common (k : TableType) : bool :=
  match k with
  | STRUCT_DEFS | STRUCT_DEF_INST | FUNCTION_DEFS | FIELD_HANDLE | FIELD_INST | FRIEND_DECLS => false
  | _ => true
  end.

Ltac table_codec := first
  [ apply codec_module_handle | by apply codec_struct_handle | by apply codec_function_handle | apply codec_function_instantiation
  | apply codec_signature | apply codec_constant | apply codec_identifier | apply codec_metadata | apply codec_struct_definition
  | apply codec_struct_instantiation | by apply codec_function_definition | apply codec_field_handle | apply codec_field_instantiation ].
Ltac table_total := first
  [ apply total_module_handle | apply total_struct_handle | apply total_function_handle | apply total_function_instantiation
  | apply total_signature | apply total_constant | apply total_identifier | apply total_metadata | apply total_struct_def
  | apply total_struct_instantiation | apply total_function_def | apply total_field_handle | apply total_field_instantiation ].

Section tables.
Context (version : Z).
Hypothesis Hversion : VERSION_5 <= version.
Abbreviation T := (table version).

(** * Where the entries are *)

Lemma entries_push k l m : entries (T k) (push_entries (T k) l m) = entries (T k) m ++ l.
Proof. by destruct k. Qed.

Lemma entries_push_other k k' l m : k ≠ k' → entries (T k') (push_entries (T k) l m) = entries (T k') m.
Proof. by destruct k, k'. Qed.

(** A module without its tables. *)
Definition frame (m : CompiledModule) : Z * Z := (m_version m, self_module_handle_idx m).

Lemma frame_push k l m : frame (push_entries (T k) l m) = frame m.
Proof. by destruct k. Qed.

Lemma module_ext m m' : frame m = frame m' → (∀ k, entries (T k) m = entries (T k) m') → m = m'.
Proof.
  destruct m as [v i [] ? ? ? ? ? ?], m' as [v' i' [] ? ? ? ? ? ?]. intros [= -> ->] He.
  pose proof (He MODULE_HANDLES). pose proof (He STRUCT_HANDLES). pose proof (He FUNCTION_HANDLES). pose proof (He FUNCTION_INST).
  pose proof (He SIGNATURES). pose proof (He CONSTANT_POOL). pose proof (He IDENTIFIERS). pose proof (He ADDRESS_IDENTIFIERS).
  pose proof (He METADATA). pose proof (He STRUCT_DEFS). pose proof (He STRUCT_DEF_INST). pose proof (He FUNCTION_DEFS).
  pose proof (He FIELD_HANDLE). pose proof (He FIELD_INST). pose proof (He FRIEND_DECLS). cbn in *. congruence.
Qed.

(** * Loading a table *)

(** [bs] is what is written for the entries [l]. *)
Definition encodes {A} (V : A → Prop) (s : A → Writer) (l : list A) (bs : list Z) : Prop :=
  ∃ bss, bs = concat bss ∧ Forall2 (λ x bs, V x ∧ emits (s x) bs) l bss.

Lemma codec_nonempty {A} (V : A → Prop) s (r : Reader StatusCode A) x bs :
  codec V s r → total 1 r → V x → emits (s x) bs → bs ≠ [].
Proof.
  intros [_ Hd] Ht Hv He ->. destruct (Ht (mkCursor 0 [])) as (res & c & Hrun & Htake).
  pose proof (denotes_read _ _ Hd 0 x [] [] (conj Hv He)) as Hread. cbn [app] in Hread. rewrite Hread in Hrun. injection Hrun as <- <-.
  unfold takes in Htake. cbn in Htake. lia.
Qed.

Section load.
Context (b : VersionedBinary) (t : Table) (bs : list Z).
Hypothesis Hslice : Versioned.slice b (offset t) (offset t + count t) = Ret bs.
Hypothesis Hcount : count t = lenZ bs.

Section entries.
Context {A} (V : A → Prop) (s : A → Writer) (r : Reader StatusCode A) (more : Z → Z → bool).
Hypothesis Hcodec : codec V s r.
Hypothesis Htotal : total 1 r.
Hypothesis Hmore : ∀ count, more_iff (more count) count.

Lemma entries_read l : encodes V s l bs → load_entries_while more r b t = Ret (Ok l).
Proof using All.
  intros (bss & Hbs & Hall). unfold load_entries_while, Versioned.new_cursor. rewrite Hslice. cbn. rewrite Hbs.
  erewrite (read_while_read _ (count t) _ _ (Hmore _) (codec_denotes _ _ _ Hcodec)); [done| |done|..].
  - intros x bs' [Hv He]. by eapply codec_nonempty.
  - rewrite Hcount, Hbs. lia.
  - rewrite Hcount, Hbs. unfold lenZ. lia.
Qed.

Lemma entries_sound l : bytes_ok bs → load_entries_while more r b t = Ret (Ok l) → encodes V s l bs.
Proof using All.
  intros Hok. unfold load_entries_while, Versioned.new_cursor. rewrite Hslice. cbn. 
  destruct (read_while _ _ _ _) as [[res c]| |] eqn:Hrun; try done. intros [= ->].
  apply (read_while_sound _ (count t) _ _ (Hmore _) (codec_denotes _ _ _ Hcodec)) in Hrun as (bss & -> & Hall); [by exists bss|done|].
  rewrite Hcount. lia.
Qed.
End entries.

(** Addresses are read in pieces of their length. *)
Lemma slice_app start l1 l2 rest : Versioned.slice b start (start + lenZ (l1 ++ l2)) = Ret (l1 ++ l2) → rest = start + lenZ l1 →
  Versioned.slice b start rest = Ret l1 ∧ Versioned.slice b rest (rest + lenZ l2) = Ret l2.
Proof.
  unfold Versioned.slice. intros H ->. destruct (_ && _ && _) eqn:Hc; [|done]. injection H as H.
  apply andb_true_iff in Hc as [[H1%Z.leb_le H2%Z.leb_le]%andb_true_iff H3%Z.leb_le]. rewrite lenZ_app in *.
  assert (0 <= lenZ l1 ∧ 0 <= lenZ l2) as [? ?] by (unfold lenZ; lia).
  rewrite !(proj2 (Z.leb_le _ _)) by lia. cbn [andb]. replace (start + (lenZ l1 + lenZ l2) - start) with (lenZ l1 + lenZ l2) in H by lia.
  replace (start + lenZ l1 - start) with (lenZ l1) by lia. replace (start + lenZ l1 + lenZ l2 - (start + lenZ l1)) with (lenZ l2) by lia.
  unfold lenZ in *. rewrite <- Nat2Z.inj_add, !Nat2Z.id in *. split; unfold mret, outcome_ret; f_equal.
  - apply (f_equal (take (length l1))) in H. rewrite take_take, take_app_length in H. etrans; [|exact H]. f_equal. lia.
  - apply (f_equal (drop (length l1))) in H. rewrite drop_app_length in H. etrans; [|exact H]. rewrite Z2Nat.inj_add, Nat2Z.id by lia.
    rewrite <- take_drop_commute, drop_drop. done.
Qed.

Lemma addresses_read start l : Forall valid_address l → Versioned.slice b start (start + lenZ (concat l)) = Ret (concat l) →
  load_addresses b start (length l) = Ret (Ok l).
Proof.
  intros Hl. revert start. induction Hl as [|a l [Ha Hlen] _ IH]; intros start Hs; [done|]. cbn [length load_addresses concat] in *.
  destruct (slice_app _ _ _ _ Hs eq_refl) as [H1 H2]. rewrite Hlen in *. rewrite H1. cbn. rewrite Hlen, Z.eqb_refl. cbn [negb].
  by rewrite (IH _ H2).
Qed.

Lemma addresses_sound n : ∀ start inp l, lenZ inp = ADDRESS_LENGTH * Z.of_nat n → Versioned.slice b start (start + lenZ inp) = Ret inp →
  load_addresses b start n = Ret (Ok l) → inp = concat l ∧ Forall (λ a, lenZ a = ADDRESS_LENGTH) l.
Proof.
  induction n as [|n IH]; intros start inp l Hlen Hs; cbn [load_addresses].
  { intros [= <-]. destruct inp; [done|]. unfold lenZ in Hlen. cbn in Hlen. lia. }
  unfold ADDRESS_LENGTH in *. assert (∃ l1 l2, inp = l1 ++ l2 ∧ lenZ l1 = 32) as (l1 & l2 & -> & H1).
  { exists (take 32 inp), (drop 32 inp). rewrite take_drop. split; [done|]. unfold lenZ in *. rewrite length_take. lia. }
  destruct (slice_app _ _ _ (start + 32) Hs) as [Hs1 Hs2]; [by rewrite H1|]. rewrite Hs1. cbn. rewrite H1. cbn.
  destruct (load_addresses b (start + 32) n) as [[l'|]| |] eqn:Hrec; try done. intros [= <-].
  rewrite lenZ_app in Hlen. assert (lenZ l2 = 32 * Z.of_nat n) as H2 by lia. destruct (IH _ _ _ H2 Hs2 Hrec) as [-> Hall]. by split; [|constructor].
Qed.

Lemma encodes_addresses l bs' : encodes valid_address serialize_address l bs' → bs' = concat l ∧ Forall valid_address l.
Proof.
  intros (bss & -> & Hall). assert (l = bss ∧ Forall valid_address l) as [-> ?]; [|done].
  induction Hall as [|a bs1 l bss [Hv [_ ->]%emits_bytes] _ [-> IH]]; [by split|]. split; [done|by constructor].
Qed.

Lemma addresses_encode l : bytes_ok (concat l) → Forall (λ a, lenZ a = ADDRESS_LENGTH) l → encodes valid_address serialize_address l (concat l).
Proof.
  intros [Hfit Hbytes] Hall. exists l. split; [done|]. induction Hall as [|a l Ha _ IH]; [done|]. cbn [concat] in *.
  apply Forall_app in Hbytes as [Hb1 Hb2]. constructor; [|apply IH; [eauto with fits|done]]. split; [by split|].
  apply emits_bytes. split; [eauto with fits|done].
Qed.

Lemma address_table_read l : encodes valid_address serialize_address l bs → load_address_identifiers b t = Ret (Ok l).
Proof using All.
  intros [Hbs Hl]%encodes_addresses. assert (lenZ bs = ADDRESS_LENGTH * lenZ l) as Hlen.
  { rewrite Hbs. clear -Hl. unfold lenZ, ADDRESS_LENGTH. induction Hl as [|a l [_ Ha] _ IH]; [done|]. cbn [concat length]. unfold lenZ, ADDRESS_LENGTH in Ha.
    rewrite length_app. lia. }
  unfold load_address_identifiers. rewrite Hcount, Hlen, Z.mul_comm, Z.mod_mul, Z.div_mul by done. cbn [Z.eqb negb].
  unfold lenZ. rewrite Nat2Z.id. apply addresses_read; [done|]. by rewrite <- Hbs, <- Hcount.
Qed.

Lemma address_table_sound l : bytes_ok bs → load_address_identifiers b t = Ret (Ok l) → encodes valid_address serialize_address l bs.
Proof using All.
  intros Hok. unfold load_address_identifiers. destruct (Z.eqb_spec (count t mod ADDRESS_LENGTH) 0) as [Hm|]; [|done]. cbn [negb]. intros Hl.
  unfold ADDRESS_LENGTH in *. rewrite Hcount in *. assert (0 <= lenZ bs) by (unfold lenZ; lia).
  eapply addresses_sound in Hl as [Hbs Hall]; [|unfold ADDRESS_LENGTH; rewrite Z2Nat.id by div_lia; by apply Z.div_exact|exact Hslice].
  subst bs. by apply addresses_encode.
Qed.

(** * Every kind *)

Hypothesis Hbversion : BinaryFormat.version b = version.

Lemma load_read k l : encodes (valid (T k)) (serialize (T k)) l bs → load (T k) b t = Ret (Ok l).
Proof using All.
  destruct k; cbn [table valid serialize load entry_type] in *; try apply address_table_read; apply entries_read; rewrite ?Hbversion;
    first [table_codec | table_total | intros; apply more_lt || apply more_ne].
Qed.

Lemma load_sound k l : bytes_ok bs → load (T k) b t = Ret (Ok l) → encodes (valid (T k)) (serialize (T k)) l bs.
Proof using All.
  intros Hok. destruct k; cbn [table valid serialize load entry_type] in *; try (by apply address_table_sound);
    intros Hl; (eapply entries_sound; [| | |exact Hok|exact Hl]); rewrite ?Hbversion;
    first [table_codec | table_total | intros; apply more_lt || apply more_ne].
Qed.
End load.

(** * Writing a table *)

Lemma writer_entry k x : valid (T k) x → writer (serialize (T k) x).
Proof using Hversion. destruct k; cbn [table valid serialize entry_type] in *; try (intros _; apply writer_bytes); eapply codec_writer; table_codec. Qed.

Lemma entry_nonempty k x bs : valid (T k) x → emits (serialize (T k) x) bs → bs ≠ [].
Proof using Hversion.
  destruct k; cbn [table valid serialize entry_type] in *.
  8: { intros [_ Hlen] [_ ->]%emits_bytes ->. by unfold lenZ in Hlen. }
  all: eapply codec_nonempty; [table_codec|table_total].
Qed.

Lemma encodes_nonempty k l bs : encodes (valid (T k)) (serialize (T k)) l bs → bs = [] ↔ l = [].
Proof using Hversion.
  intros (bss & -> & Hall). destruct Hall as [|x bs l bss [Hv He] _]; [done|]. apply entry_nonempty in He; [|done]. cbn. by destruct bs.
Qed.

Lemma writer_table k l : Forall (valid (T k)) l → writer (for_each (serialize (T k)) l).
Proof using Hversion. intros Hl. apply writer_for_each. intros x Hx. apply writer_entry. by eapply Forall_forall. Qed.

Lemma emits_table k l bs : Forall (valid (T k)) l →
  emits (for_each (serialize (T k)) l) bs ↔ fits bs ∧ encodes (valid (T k)) (serialize (T k)) l bs.
Proof using Hversion.
  intros Hl. rewrite emits_for_each by (intros x Hx; apply writer_entry; by eapply Forall_forall). apply and_iff_compat_l.
  split; intros (bss & -> & Hall); exists bss; (split; [done|]).
  - induction Hall as [|x y l bss He _ IH]; [done|]. apply Forall_cons in Hl as [Hx Hl]. constructor; [done|by apply IH].
  - eapply Forall2_impl; [exact Hall|]. by intros ?? [_ ?].
Qed.

Lemma encodes_valid k l bs : encodes (valid (T k)) (serialize (T k)) l bs → Forall (valid (T k)) l.
Proof. intros (bss & _ & Hall). induction Hall as [|x y l' bss' [Hx _] _ IH]; by constructor. Qed.

(** * Building a module from its tables *)

Section build.
Context (b : VersionedBinary).
Hypothesis Hbversion : BinaryFormat.version b = version.

Definition allowed (k : TableType) : Prop := k = METADATA → check_no_extraneous_bytes b = false.

Lemma build_common t m : is_common (kind t) = true → allowed (kind t) →
  build_common_table b t (m_common m) = (l ← load (T (kind t)) b t; mret (m_common (push_entries (T (kind t)) l m))).
Proof using Hversion Hbversion.
  intros Hc Ha. unfold build_common_table. destruct (kind t); try done. rewrite (Ha eq_refl), Hbversion.
  by rewrite (proj2 (Z.ltb_ge _ _) Hversion).
Qed.

Lemma build_common_skip t c : is_common (kind t) = false → build_common_table b t c = mret c.
Proof using Hversion Hbversion.
  intros Hc. unfold build_common_table. destruct (kind t); try done. rewrite Hbversion, (proj2 (Z.ltb_ge _ _)); [done|].
  unfold VERSION_5, VERSION_2 in *. lia.
Qed.

Lemma build_module t m : build_module_table b t m =
  if is_common (kind t) then mret m else l ← load (T (kind t)) b t; mret (push_entries (T (kind t)) l m).
Proof. unfold build_module_table. by destruct (kind t). Qed.

Section entries.
Context (E : ∀ k, list (entry_type (T k))).

Definition push_all (ks : list TableType) (m : CompiledModule) : CompiledModule := foldl (λ m k, push_entries (T k) (E k) m) m ks.

Lemma entries_push_all ks : ∀ m k, NoDup ks →
  entries (T k) (push_all ks m) = entries (T k) m ++ (if decide (k ∈ ks) then E k else []).
Proof.
  induction ks as [|k' ks IH]; intros m k Hnd; cbn [push_all foldl].
  { rewrite decide_False by set_solver. by rewrite app_nil_r. }
  apply NoDup_cons in Hnd as [Hk' Hnd]. unfold push_all in IH. rewrite IH by done. destruct (decide (k = k')) as [->|Hne].
  - rewrite entries_push, decide_False, decide_True by set_solver. by rewrite app_nil_r.
  - rewrite entries_push_other by done. f_equal. destruct (decide (k ∈ ks)); [rewrite decide_True|rewrite decide_False]; set_solver.
Qed.

Lemma frame_push_all ks : ∀ m, frame (push_all ks m) = frame m.
Proof. induction ks as [|k ks IH]; intros m; [done|]. cbn [push_all foldl]. unfold push_all in IH. by rewrite IH, frame_push. Qed.

Lemma push_all_common ks : ∀ m, Forall (λ k, is_common k = true) ks → push_all ks m = with_common (λ _, m_common (push_all ks m)) m.
Proof.
  induction ks as [|k ks IH]; intros m Hks; [by destruct m|]. apply Forall_cons in Hks as [Hk Hks]. cbn [push_all foldl]. unfold push_all in IH.
  rewrite IH at 1 by done. generalize (m_common (foldl (λ m k, push_entries (T k) (E k) m) (push_entries (T k) (E k) m) ks)). intros c. by destruct k.
Qed.

Definition kinds (tables : list Table) : list TableType := kind <$> tables.
Definition common_kinds (tables : list Table) : list TableType := filter (λ k, is_common k = true) (kinds tables).
Definition module_kinds (tables : list Table) : list TableType := filter (λ k, is_common k = false) (kinds tables).

Definition loads (t : Table) : Prop := allowed (kind t) ∧ load (T (kind t)) b t = Ret (Ok (E (kind t))).

Lemma common_tables_read tables m : Forall loads tables →
  build_common_tables b tables (m_common m) = Ret (Ok (m_common (push_all (common_kinds tables) m))).
Proof using Hversion Hbversion.
  intros Hall. revert m. induction Hall as [|t tables [Ha Hl] _ IH]; intros m; [done|].
  unfold build_common_tables in *. cbn [for_tables]. unfold common_kinds, kinds. rewrite fmap_cons, filter_cons.
  destruct (is_common (kind t)) eqn:Hc.
  - rewrite build_common by done. rewrite Hl. exact (IH _).
  - rewrite build_common_skip by done. exact (IH m).
Qed.

Lemma module_tables_read tables m : Forall loads tables →
  build_module_tables b tables m = Ret (Ok (push_all (module_kinds tables) m)).
Proof.
  intros Hall. revert m. induction Hall as [|t tables [Ha Hl] _ IH]; intros m; [done|].
  unfold build_module_tables in *. cbn [for_tables]. unfold module_kinds, kinds. rewrite fmap_cons, filter_cons, build_module.
  destruct (is_common (kind t)) eqn:Hc.
  - exact (IH m).
  - rewrite Hl. exact (IH _).
Qed.

(** The tables end up in the module, whatever their order is. *)
Lemma build_read tables m : Forall loads tables → NoDup (kinds tables) →
  ∃ m', build_compiled_module m b tables = Ret (Ok m') ∧ frame m' = frame m ∧
    ∀ k, entries (T k) m' = entries (T k) m ++ (if decide (k ∈ kinds tables) then E k else []).
Proof using Hversion Hbversion.
  intros Hall Hnd. unfold build_compiled_module. rewrite common_tables_read by done.
  exists (push_all (module_kinds tables) (push_all (common_kinds tables) m)). split; [|split].
  - cbn. rewrite (push_all_common (common_kinds tables) m) at 2 by (unfold common_kinds; apply Forall_forall; by intros k [? _]%list_elem_of_filter).
    by apply module_tables_read.
  - by rewrite !frame_push_all.
  - intros k. rewrite !entries_push_all by (by apply NoDup_filter). rewrite <- app_assoc. f_equal. unfold common_kinds, module_kinds.
    destruct (decide (k ∈ kinds tables)) as [Hin|Hnin]; [destruct (is_common k) eqn:Hc|].
    + rewrite decide_True, decide_False, app_nil_r; [done|..]; rewrite list_elem_of_filter; naive_solver congruence.
    + rewrite decide_False, decide_True; [done|..]; rewrite list_elem_of_filter; naive_solver congruence.
    + rewrite !decide_False; [done|..]; rewrite list_elem_of_filter; naive_solver.
Qed.
End entries.

(** Conversely, a module that is built comes from tables that load. *)
Lemma for_tables_sound {S} (f : Table → S → VMResult S) tables : ∀ s s', for_tables f tables s = Ret (Ok s') →
  Forall (λ t, ∃ s1 s2, f t s1 = Ret (Ok s2)) tables.
Proof.
  induction tables as [|t tables IH]; intros s s'; cbn [for_tables]; [constructor|]. unfold mbind, vm_bind.
  destruct (f t s) as [[s1|]| |] eqn:Hf; try done. intros Hrest. constructor; [by eexists _, _|by eapply IH].
Qed.

Lemma load_common_sound t c c' : is_common (kind t) = true → build_common_table b t c = Ret (Ok c') →
  allowed (kind t) ∧ ∃ l, load (T (kind t)) b t = Ret (Ok l).
Proof using Hversion Hbversion.
  intros Hc Hb. assert (allowed (kind t)) as Ha.
  { intros Hk. unfold build_common_table in Hb. rewrite Hk in Hb. by destruct (check_no_extraneous_bytes b). }
  split; [done|]. unfold build_common_table, mbind, vm_bind in Hb.
  destruct (kind t); try done; try (case_match; [done|]); cbn [table load entry_type];
    match type of Hb with match ?x with _ => _ end = _ => destruct x as [[l|]| |]; try done end; by exists l.
Qed.

Lemma build_sound tables m m' : build_compiled_module m b tables = Ret (Ok m') →
  Forall (λ t, allowed (kind t) ∧ ∃ l, load (T (kind t)) b t = Ret (Ok l)) tables.
Proof using Hversion Hbversion.
  unfold build_compiled_module, mbind at 1, vm_bind at 1. destruct (build_common_tables b tables m) as [[c|]| |] eqn:Hc; try done. intros Hm.
  apply for_tables_sound in Hc, Hm. rewrite Forall_forall in *. intros t Ht. destruct (Hc t Ht) as (c1 & c2 & Hc1). destruct (Hm t Ht) as (m1 & m2 & Hm1).
  destruct (is_common (kind t)) eqn:Hk; [by eapply load_common_sound|]. rewrite build_module, Hk in Hm1.
  split; [intros Heq; by rewrite Heq in Hk|]. unfold mbind, vm_bind in Hm1. destruct (load (T (kind t)) b t) as [[l|]| |]; try done. by exists l.
Qed.

(** The entries of the table of each kind. *)
Definition loaded (tables : list Table) (k : TableType) : list (entry_type (T k)) :=
  match filter (λ t, kind t = k) tables with
  | [] => []
  | t :: _ => match load (T k) b t with Ret (Ok l) => l | _ => [] end
  end.

Lemma kinds_inj tables t t' : NoDup (kinds tables) → t ∈ tables → t' ∈ tables → kind t = kind t' → t = t'.
Proof.
  intros Hnd (i & Hi)%list_elem_of_lookup (j & Hj)%list_elem_of_lookup Heq. assert (i = j) as ->; [|congruence].
  eapply NoDup_lookup; [exact Hnd|..]; unfold kinds; rewrite list_lookup_fmap; [by rewrite Hi|by rewrite Hj, Heq].
Qed.

Lemma loaded_eq tables t l : NoDup (kinds tables) → t ∈ tables → load (T (kind t)) b t = Ret (Ok l) → loaded tables (kind t) = l.
Proof.
  intros Hnd Ht Hl. unfold loaded. destruct (filter _ tables) as [|t' rest] eqn:Hf.
  - assert (t ∈ filter (λ t', kind t' = kind t) tables) as Hin by by apply list_elem_of_filter. rewrite Hf in Hin. set_solver.
  - assert (t' ∈ filter (λ t', kind t' = kind t) tables) as [Hk Hin]%list_elem_of_filter by (rewrite Hf; by left).
    rewrite (kinds_inj tables t' t) by done. by rewrite Hl.
Qed.

Lemma build_loaded tables m m' : NoDup (kinds tables) → build_compiled_module m b tables = Ret (Ok m') → Forall (loads (loaded tables)) tables.
Proof using Hversion Hbversion.
  intros Hnd Hb%build_sound. rewrite Forall_forall in *. intros t Ht. destruct (Hb t Ht) as [Ha (l & Hl)]. split; [done|].
  rewrite Hl. by rewrite (loaded_eq tables t l).
Qed.
End build.
End tables.
