(* ===== verification/ModuleBytes.v ===== *)
(** What the serializer writes for a module ([CompiledModule::serialize_for_version]).

    The content of the tables is a sequence of segments, one for each table that has entries, in a fixed
    order; the header has their kinds, offsets and sizes. *)
From S2P Require Import Prelude MoveFormat BinaryFormat Serializer CheckBounds Deserializer Codec TokenCodec BoundsSafety Totality Tables.
Import Binary Ser Des.

Definition COMMON_ORDER : list TableType :=
  [MODULE_HANDLES; STRUCT_HANDLES; FUNCTION_HANDLES; FUNCTION_INST; SIGNATURES; IDENTIFIERS; ADDRESS_IDENTIFIERS; CONSTANT_POOL; METADATA].
Definition MODULE_ORDER : list TableType := [STRUCT_DEFS; STRUCT_DEF_INST; FUNCTION_DEFS; FIELD_HANDLE; FIELD_INST; FRIEND_DECLS].

(** The tables that the header describes. *)
Fixpoint laid (off : Z) (segs : list (TableType * list Z)) : list Table :=
  match segs with [] => [] | (k, bs) :: segs => mkTable k off (lenZ bs) :: laid (off + lenZ bs) segs end.

(** The serializer after it has written the segments. *)
Fixpoint after_segments (self : Serializer) (off : Z) (segs : list (TableType * list Z)) : Serializer :=
  match segs with [] => self | (k, bs) :: segs => after_segments (set_field k (off, lenZ bs) (count_table self)) (off + lenZ bs) segs end.

Lemma kinds_laid off segs : kinds (laid off segs) = segs.*1.
Proof. revert off. induction segs as [|[k bs] segs IH]; intros off; [done|]. unfold kinds in *. cbn. by rewrite IH. Qed.

Lemma segments_version segs : ∀ self off, major_version (after_segments self off segs) = major_version self.
Proof. induction segs as [|[k bs] segs IH]; intros self off; [done|]. cbn [after_segments]. by rewrite IH. Qed.

Lemma segments_other segs : ∀ self off k, k ∉ segs.*1 → table_field (after_segments self off segs) k = table_field self k.
Proof.
  induction segs as [|[k' bs] segs IH]; intros self off k Hk; [done|]. cbn [after_segments]. cbn in Hk. rewrite IH by set_solver.
  cbn. rewrite decide_False by set_solver. done.
Qed.

Lemma segments_field segs : ∀ self off t, NoDup segs.*1 → t ∈ laid off segs → table_field (after_segments self off segs) (kind t) = (offset t, count t).
Proof.
  induction segs as [|[k bs] segs IH]; intros self off t Hnd Ht; cbn in Ht; [set_solver|]. cbn in Hnd. apply NoDup_cons in Hnd as [Hk Hnd]. cbn [after_segments].
  apply elem_of_cons in Ht as [->|Ht]; [|by apply IH]. cbn [kind offset count]. rewrite segments_other by done. cbn. by rewrite decide_True.
Qed.

Lemma segments_count segs : ∀ self off, 0 <= table_count self → table_count self + lenZ segs < U8_MOD →
  table_count (after_segments self off segs) = table_count self + lenZ segs.
Proof.
  induction segs as [|[k bs] segs IH]; intros self off H0 Hlen; cbn [after_segments]; [by rewrite lenZ_nil|]. rewrite lenZ_cons in *.
  assert (0 <= lenZ segs) by (unfold lenZ; lia).
  assert (table_count (set_field k (off, lenZ bs) (count_table self)) = table_count self + 1) as Hc by (cbn; apply Z.mod_small; lia).
  rewrite IH; rewrite Hc; lia.
Qed.

Section version.
Context (version : Z).
Hypothesis Hversion : VERSION_5 <= version.
Abbreviation T := (table version).

(** * Tables *)

Definition table_entries_valid (m : CompiledModule) (k : TableType) : Prop := Forall (valid (T k)) (entries (T k) m).

Inductive segments (m : CompiledModule) : list TableType → list (TableType * list Z) → Prop :=
  | segments_nil : segments m [] []
  | segments_skip k ks segs : entries (T k) m = [] → segments m ks segs → segments m (k :: ks) segs
  | segments_cons k ks bs segs : entries (T k) m ≠ [] → encodes (valid (T k)) (serialize (T k)) (entries (T k) m) bs →
      segments m ks segs → segments m (k :: ks) ((k, bs) :: segs).

Lemma segments_in m ks segs k : segments m ks segs → k ∈ segs.*1 → k ∈ ks.
Proof. induction 1; cbn; set_solver. Qed.

Lemma segments_nodup m ks segs : segments m ks segs → NoDup ks → NoDup segs.*1.
Proof.
  induction 1 as [|k ks segs _ _ IH|k ks bs segs _ _ Hs IH]; intros Hnd; [done|..]; apply NoDup_cons in Hnd as [Hk Hnd]; [by apply IH|].
  cbn. apply NoDup_cons. split; [|by apply IH]. intros Hin. by apply Hk, (segments_in m ks segs).
Qed.

Lemma segments_none m ks segs k : segments m ks segs → k ∈ ks → k ∉ segs.*1 → entries (T k) m = [].
Proof. induction 1; cbn; set_solver. Qed.

Lemma segments_bytes m ks segs k bs : segments m ks segs → (k, bs) ∈ segs → encodes (valid (T k)) (serialize (T k)) (entries (T k) m) bs ∧ bs ≠ [].
Proof using Hversion.
  induction 1 as [|k' ks segs He _ IH|k' ks bs' segs Hne He _ IH]; [set_solver|done|].
  intros [[= -> ->]|?]%elem_of_cons; [|by apply IH]. split; [done|]. rewrite (encodes_nonempty _ Hversion _ _ _ He). done.
Qed.

Definition serialize_kind (m : CompiledModule) (k : TableType) (self : Serializer) : ST (list Z) SerError Serializer :=
  serialize_table k (serialize (T k)) (entries (T k) m) self.
Fixpoint serialize_kinds (m : CompiledModule) (ks : list TableType) (self : Serializer) : ST (list Z) SerError Serializer :=
  match ks with [] => mret self | k :: ks => self ← serialize_kind m k self; serialize_kinds m ks self end.

Lemma check_index_ok n : n < U32_MOD → check_index_in_binary n = Ok n.
Proof. intros Hn. unfold check_index_in_binary. by rewrite (proj2 (Z.ltb_ge _ _)) by lia. Qed.
Lemma check_index_inv n x : check_index_in_binary n = Ok x → x = n ∧ n < U32_MOD.
Proof. unfold check_index_in_binary. destruct (Z.ltb_spec (U32_MOD - 1) n); [done|]. intros [= <-]. lia. Qed.

Lemma fits_u32 l : lenZ l < U32_MOD → fits l.
Proof. unfold fits, U32_MOD, U64_MOD. lia. Qed.

(** A table that is written is at the end of the binary. *)
Lemma serialize_kind_ok m k self temp bs : entries (T k) m ≠ [] → encodes (valid (T k)) (serialize (T k)) (entries (T k) m) bs →
  lenZ (temp ++ bs) < U32_MOD →
  serialize_kind m k self temp = Ret (Ok (set_field k (lenZ temp, lenZ bs) (count_table self)), temp ++ bs).
Proof using Hversion.
  intros Hne He Hlen. unfold serialize_kind, serialize_table. pose proof (encodes_valid _ _ _ _ He) as Hv.
  assert (emits (for_each (serialize (T k)) (entries (T k) m)) bs) as [_ Hem].
  { apply (emits_table _ Hversion); [done|]. split; [|done]. apply fits_u32 in Hlen. eauto with fits. }
  destruct (entries (T k) m) as [|x l]; [done|]. unfold mbind, st_bind. rewrite lenZ_app in Hlen. assert (0 <= lenZ bs) by (unfold lenZ; lia).
  rewrite check_index_ok by lia. rewrite Hem by (apply fits_u32; rewrite lenZ_app; lia).
  unfold checked_calculate_table_size. rewrite check_index_ok by (rewrite lenZ_app; lia). rewrite lenZ_app.
  rewrite (proj2 (Z.leb_le _ _)) by lia. replace (lenZ temp + lenZ bs - lenZ temp) with (lenZ bs) by lia. done.
Qed.

Lemma serialize_kind_run m k self temp : table_entries_valid m k → fits temp →
  ∃ r temp', serialize_kind m k self temp = Ret (r, temp') ∧
    ∀ self', r = Ok self' → (entries (T k) m = [] ∧ self' = self ∧ temp' = temp) ∨
      (entries (T k) m ≠ [] ∧ ∃ bs, encodes (valid (T k)) (serialize (T k)) (entries (T k) m) bs ∧ temp' = temp ++ bs ∧ lenZ temp' < U32_MOD).
Proof using Hversion.
  intros Hv Hfit. unfold serialize_kind, serialize_table. unfold table_entries_valid in Hv.
  pose proof (writer_table _ Hversion k _ Hv temp Hfit) as (r & temp' & Hw & Hr).
  pose proof (λ bs, emits_table _ Hversion k _ bs Hv) as Hem.
  destruct (entries (T k) m) as [|x l] eqn:Hl; [exists (Ok self), temp; split; [done|]; left; naive_solver|].
  unfold mbind, st_bind. destruct (check_index_in_binary (lenZ temp)) as [start|e] eqn:Hi; [|by eexists _, _].
  apply check_index_inv in Hi as [-> Hi]. rewrite Hw. destruct r as [[]|e]; [|by eexists _, _]. destruct Hr as (bs & -> & Hfit' & He%Hem).
  unfold checked_calculate_table_size. destruct (check_index_in_binary (lenZ (temp ++ bs))) as [fin|e] eqn:Hi'; [|by eexists _, _].
  apply check_index_inv in Hi' as [-> Hi']. rewrite (proj2 (Z.leb_le _ _)) by (rewrite lenZ_app; unfold lenZ; lia).
  eexists _, _. split; [done|]. intros self' _. right. split; [done|]. exists bs. by destruct He.
Qed.

Lemma serialize_kinds_ok m ks segs : segments m ks segs → ∀ self temp, lenZ (temp ++ concat segs.*2) < U32_MOD →
  serialize_kinds m ks self temp = Ret (Ok (after_segments self (lenZ temp) segs), temp ++ concat segs.*2).
Proof using Hversion.
  induction 1 as [|k ks segs He _ IH|k ks bs segs Hne He _ IH]; intros self temp Hlen; cbn [serialize_kinds].
  - cbn. by rewrite app_nil_r.
  - unfold mbind, st_bind, serialize_kind, serialize_table. rewrite He. by apply IH.
  - cbn in Hlen. rewrite app_assoc in Hlen. unfold mbind, st_bind. rewrite serialize_kind_ok with (bs := bs); [|done..|].
    2: { rewrite lenZ_app in Hlen. unfold lenZ in *. lia. }
    rewrite IH by done. cbn. by rewrite <- app_assoc, lenZ_app.
Qed.

Lemma serialize_kinds_run m ks : Forall (table_entries_valid m) ks → ∀ self temp, fits temp →
  ∃ r temp', serialize_kinds m ks self temp = Ret (r, temp') ∧
    ∀ self', r = Ok self' → ∃ segs, segments m ks segs ∧ temp' = temp ++ concat segs.*2 ∧ (segs ≠ [] → lenZ temp' < U32_MOD).
Proof using Hversion.
  induction 1 as [|k ks Hk _ IH]; intros self temp Hfit; cbn [serialize_kinds].
  { exists (Ok self), temp. split; [done|]. intros _ _. exists []. cbn. rewrite app_nil_r. split; [constructor|done]. }
  unfold mbind, st_bind. destruct (serialize_kind_run m k self temp Hk Hfit) as (r & temp1 & Hrun & Hr). rewrite Hrun. destruct r as [self1|e]; [|by eexists _, _].
  destruct (Hr self1 eq_refl) as [(He & -> & ->)|(Hne & bs & He & -> & Hlen)].
  - destruct (IH self temp Hfit) as (r & temp' & Hrun' & Hr'). exists r, temp'. split; [done|]. intros self' Hself'.
    destruct (Hr' self' Hself') as (segs & Hs & ? & ?). exists segs. split; [by constructor|done].
  - destruct (IH self1 (temp ++ bs)) as (r & temp' & Hrun' & Hr'); [by apply fits_u32|]. exists r, temp'. split; [done|]. intros self' Hself'.
    destruct (Hr' self' Hself') as (segs & Hs & -> & Hle). exists ((k, bs) :: segs). split; [by constructor|]. cbn. rewrite app_assoc. split; [done|].
    intros _. destruct segs; [by rewrite app_nil_r|by apply Hle].
Qed.

(** The calls of the serializer for the single tables. *)
Lemma serialize_kind_version m k self temp self' temp' :
  serialize_kind m k self temp = Ret (Ok self', temp') → major_version self' = major_version self.
Proof.
  unfold serialize_kind, serialize_table. destruct (entries (T k) m); [by intros [= <- <-]|]. unfold mbind, st_bind, checked_calculate_table_size.
  repeat (case_match; try done). intros [= <- <-]. done.
Qed.

Lemma serialize_kinds_version m ks : ∀ self temp self' temp',
  serialize_kinds m ks self temp = Ret (Ok self', temp') → major_version self' = major_version self.
Proof.
  induction ks as [|k ks IH]; intros ? ? ? ?; cbn [serialize_kinds]; [by intros [= <- <-]|]. unfold mbind, st_bind.
  destruct (serialize_kind m k _ _) as [[[]]| |] eqn:Hk; try done. apply serialize_kind_version in Hk. intros ?%IH. congruence.
Qed.

Lemma next_step {B} (P : Serializer → Prop) (w w' : ST (list Z) SerError Serializer) (f g : Serializer → ST (list Z) SerError B) temp :
  w temp = w' temp → (∀ self' temp', w' temp = Ret (Ok self', temp') → P self') → (∀ self' temp', P self' → f self' temp' = g self' temp') →
  (w ≫= f) temp = (w' ≫= g) temp.
Proof. unfold mbind, st_bind. intros -> HP Hfg. destruct (w' temp) as [[[a|] s']| |]; try done. eapply Hfg, HP. done. Qed.

Lemma next_kind {B} m k self w (f g : Serializer → ST (list Z) SerError B) temp :
  w = serialize_kind m k self → major_version self = version →
  (∀ self' temp', major_version self' = version → f self' temp' = g self' temp') →
  (w ≫= f) temp = (serialize_kind m k self ≫= g) temp.
Proof. intros -> Hv. apply next_step; [done|]. intros ?? ?%serialize_kind_version. congruence. Qed.

Lemma st_ret_bind {S E A} (m : ST S E A) s : m s = (x ← m; mret x) s.
Proof. unfold mbind, st_bind. by destruct (m s) as [[[]]| |]. Qed.

Lemma serialize_kinds_app m ks ks' : ∀ self temp,
  serialize_kinds m (ks ++ ks') self temp = (self ← serialize_kinds m ks self; serialize_kinds m ks' self) temp.
Proof.
  induction ks as [|k ks IH]; intros self temp; [done|]. cbn [serialize_kinds app]. rewrite st_bind_assoc.
  apply (next_step (λ _, True)); [done|done|]. intros; apply IH.
Qed.

Lemma common_tables_eq m self temp : major_version self = version →
  serialize_common_tables (m_common m) self temp = serialize_kinds m COMMON_ORDER self temp.
Proof using Hversion.
  intros Hv. unfold serialize_common_tables, COMMON_ORDER. cbn [serialize_kinds].
  do 8 (apply next_kind; [reflexivity|done|]; intros).
  rewrite (proj2 (Z.leb_le _ _)) by congruence. apply st_ret_bind.
Qed.

Lemma module_tables_eq m self temp : major_version self = version →
  serialize_tables m self temp = serialize_kinds m (COMMON_ORDER ++ MODULE_ORDER) self temp.
Proof using Hversion.
  intros Hv. rewrite serialize_kinds_app. unfold serialize_tables.
  apply (next_step (λ self, major_version self = version)); [by apply common_tables_eq|intros ?? ?%serialize_kinds_version; congruence|].
  clear self temp Hv. intros self temp Hv. unfold MODULE_ORDER. cbn [serialize_kinds].
  do 2 (apply next_kind; [reflexivity|done|]; intros).
  apply next_kind; [unfold serialize_function_definitions, serialize_kind; cbn; congruence|done|]. intros.
  do 2 (apply next_kind; [reflexivity|done|]; intros).
  apply st_ret_bind.
Qed.

(** * Header *)

Definition write_index (t : Table) : Writer :=
  push (TableKind.as_u8 (kind t));; seiralize_table_offset (offset t);; serialize_table_size (count t).

Definition is_table (t : Table) : Prop := is_u32 (offset t) ∧ is_u32 (count t).

Lemma kind_as_u8 k : TableKind.from_u8 (TableKind.as_u8 k) = Ok k.
Proof. by destruct k. Qed.
Lemma kind_from_u8 z k : TableKind.from_u8 z = Ok k → z = TableKind.as_u8 k.
Proof. unfold TableKind.from_u8. repeat case_match; intros [= <-]; reflexivity. Qed.

Lemma denotes_kind byte : denotes (lift_r (TableKind.from_u8 byte)) (λ k bs, byte = TableKind.as_u8 k ∧ bs = []).
Proof.
  split.
  - intros p k bs rest [-> ->]. unfold lift_r. rewrite kind_as_u8. by rewrite lenZ_nil.
  - intros p inp k c _ [= Hk <-]. exists [], inp. rewrite lenZ_nil. apply kind_from_u8 in Hk. done.
Qed.

Lemma codec_table_offset : codec is_u32 seiralize_table_offset load_table_offset.
Proof. by apply codec_int. Qed.
Lemma codec_table_size : codec is_u32 serialize_table_size load_table_size.
Proof. by apply codec_int. Qed.
Hint Resolve codec_table_offset codec_table_size : codec.

Lemma codec_index_entry : codec is_table write_index read_table.
Proof.
  split; [intros [k o n] [Ho Hn]; unfold write_index; cbn in *; solve_writer|]. eapply denotes_ext.
  { unfold read_table. eapply denotes_bind; [apply denotes_byte|]. intros byte. eapply denotes_bind; [apply (codec_denotes _ _ _ codec_table_offset)|]. intros o.
    eapply denotes_bind; [apply (codec_denotes _ _ _ codec_table_size)|]. intros n. eapply denotes_bind; [apply denotes_kind|]. intros k. apply denotes_ret. }
  - cbn beta. intros [k o n] bs [[Ho Hn] He]. unfold write_index in He. cbn in Ho, Hn, He. emits_inv He.
    eexists _, [_], _. split; [reflexivity|]. split; [reflexivity|]. eexists o, _, _. split; [reflexivity|]. split; [done|].
    eexists n, _, []. split; [symmetry; apply app_nil_r|]. split; [done|]. by exists k, [], [].
  - cbn beta. intros t bs Hok Hex. ex_inv. rewrite ?app_nil_r in *. pose proof (proj1 Hok) as Hfit. split; [split; done|]. unfold write_index. cbn.
    emits_build Hfit.
Qed.

Lemma indices_eq m ks segs : segments m ks segs → NoDup ks → ∀ ser off b,
  (∀ t, t ∈ laid off segs → table_field ser (kind t) = (offset t, count t)) →
  (∀ k, k ∈ ks → k ∉ segs.*1 → table_field ser k = (0, 0)) →
  serialize_indices ser ks b = for_each write_index (laid off segs) b.
Proof using Hversion.
  unfold serialize_indices. induction 1 as [|k ks segs Hnil Hs IH|k ks bs segs Hne He Hs IH]; intros Hnd ser off b Hfield Hzero; [done|..];
    apply NoDup_cons in Hnd as [Hk Hnd]; cbn [for_each laid].
  - assert (k ∉ segs.*1) as Hks by (intros Hin; by apply Hk, (segments_in m ks segs)).
    rewrite Hzero by (done || by left). unfold serialize_table_index. cbn. apply IH; [done..|]. intros k' Hk'. apply Hzero. by right.
  - assert (k ∉ segs.*1) as Hks by (intros Hin; by apply Hk, (segments_in m ks segs)).
    pose proof (Hfield (mkTable k off (lenZ bs)) ltac:(by left)) as Hf. cbn [kind offset count] in Hf. rewrite Hf. cbn [fst snd].
    assert (bs ≠ []) as Hbs by (rewrite (encodes_nonempty _ Hversion _ _ _ He); done).
    unfold serialize_table_index. rewrite (proj2 (Z.eqb_neq _ _)) by (unfold lenZ; destruct bs; [done|cbn; lia]). cbn [negb].
    unfold mbind, st_bind. change (write_index (mkTable k off (lenZ bs))) with
      (push (TableKind.as_u8 k);; seiralize_table_offset off;; serialize_table_size (lenZ bs)).
    unfold mbind, st_bind. repeat (case_match; try done). apply IH; [done|..].
    + intros t Ht. apply Hfield. by right.
    + intros k' Hk' Hn. apply Hzero; [by right|]. cbn. set_solver.
Qed.

Lemma for_each_app {A} (f : A → Writer) l k b : for_each f (l ++ k) b = (for_each f l;; for_each f k) b.
Proof.
  revert b. induction l as [|x l IH]; intros b; [done|]. cbn [for_each app]. rewrite st_bind_assoc. unfold mbind, st_bind.
  by destruct (f x b) as [[[]]| |].
Qed.

Lemma then_ext (w f g : Writer) b : (∀ b, f b = g b) → (w;; f) b = (w;; g) b.
Proof. intros Hfg. unfold mbind, st_bind. destruct (w b) as [[[]]| |]; try done. Qed.

Lemma common_indices_eq ser b : major_version ser = version →
  serialize_common_indices ser b = (serialize_table_count (table_count ser);; serialize_indices ser COMMON_ORDER) b.
Proof using Hversion.
  intros Hv. unfold serialize_common_indices. rewrite (proj2 (Z.leb_le _ _)) by congruence. apply then_ext. clear b. intros b. symmetry. unfold serialize_indices.
  apply (for_each_app _ [MODULE_HANDLES; STRUCT_HANDLES; FUNCTION_HANDLES; FUNCTION_INST; SIGNATURES; IDENTIFIERS; ADDRESS_IDENTIFIERS; CONSTANT_POOL]).
Qed.

Lemma table_indices_eq ser b : major_version ser = version →
  serialize_table_indices ser b = (serialize_table_count (table_count ser);; serialize_indices ser (COMMON_ORDER ++ MODULE_ORDER)) b.
Proof using Hversion.
  intros Hv. etrans; [|apply then_ext; intros; symmetry; apply for_each_app]. rewrite <- st_bind_assoc.
  unfold serialize_table_indices, mbind at 1 3, st_bind at 1 3. by rewrite common_indices_eq.
Qed.

(** * A module as bytes *)

(** What is written: the magic number, the version, the number of tables, their description, their content,
    and the index of the module in its own table of handles. *)
Definition module_bytes (m : CompiledModule) (segs : list (TableType * list Z)) (bs : list Z) : Prop :=
  segments m (COMMON_ORDER ++ MODULE_ORDER) segs ∧ lenZ (concat segs.*2) < U32_MOD ∧
  ∃ c h i, bs = MOVE_MAGIC ++ to_le_bytes 4 version ++ c ++ h ++ concat segs.*2 ++ i ∧
    emits (serialize_table_count (lenZ segs)) c ∧ emits (for_each write_index (laid 0 segs)) h ∧
    emits (serialize_module_handle_index (self_module_handle_idx m)) i.

Definition valid_module (m : CompiledModule) : Prop := (∀ k, table_entries_valid m k) ∧ is_u16 (self_module_handle_idx m).

Lemma segments_length m ks segs : segments m ks segs → (length segs <= length ks)%nat.
Proof. induction 1; cbn; lia. Qed.

Lemma order_nodup : NoDup (COMMON_ORDER ++ MODULE_ORDER).
Proof. by apply (bool_decide_unpack _). Qed.
Lemma order_all k : k ∈ COMMON_ORDER ++ MODULE_ORDER.
Proof. apply (bool_decide_unpack _). by destruct k. Qed.

Lemma laid_valid segs : ∀ off, 0 <= off → off + lenZ (concat segs.*2) < U32_MOD → Forall is_table (laid off segs).
Proof.
  induction segs as [|[k bs] segs IH]; intros off H0 Hlen; [constructor|]. cbn in *. rewrite lenZ_app in Hlen.
  assert (0 <= lenZ bs ∧ 0 <= lenZ (concat segs.*2)) as [? ?] by (unfold lenZ; lia).
  constructor; [split; cbn; unfold is_u32; lia|]. apply IH; lia.
Qed.

(** The writer of a module whose tables have been written. *)
Definition finish (segs : list (TableType * list Z)) (idx : Z) : Writer :=
  (for_each push MOVE_MAGIC;; write_u32 version);; (serialize_table_count (lenZ segs);; for_each write_index (laid 0 segs));;
  extend (concat segs.*2);; serialize_module_handle_index idx.

Lemma finish_eq m segs idx b : segments m (COMMON_ORDER ++ MODULE_ORDER) segs →
  (serialize_header (after_segments (new version) 0 segs);; serialize_table_indices (after_segments (new version) 0 segs);;
   extend (concat segs.*2);; serialize_module_handle_index idx) b = finish segs idx b.
Proof using Hversion.
  intros Hs. unfold finish, serialize_header, serialize_magic. rewrite segments_version. apply then_ext. clear b. intros b.
  assert (∀ b, serialize_table_indices (after_segments (new version) 0 segs) b = (serialize_table_count (lenZ segs);; for_each write_index (laid 0 segs)) b) as Heq.
  { clear b. intros b. rewrite table_indices_eq by by rewrite segments_version. pose proof (segments_length _ _ _ Hs) as Hlen. cbn in Hlen.
    rewrite segments_count by (cbn; unfold lenZ, U8_MOD; lia). cbn [table_count new]. rewrite Z.add_0_l. apply then_ext. clear b. intros b.
    eapply indices_eq; [exact Hs|apply order_nodup|..].
    - intros t Ht. apply segments_field; [|done]. eapply segments_nodup; [exact Hs|apply order_nodup].
    - intros k _ Hk. by rewrite segments_other. }
  unfold mbind at 1 3, st_bind at 1 3. by rewrite Heq.
Qed.

Lemma writer_index_entries segs : lenZ (concat segs.*2) < U32_MOD → writer (for_each write_index (laid 0 segs)).
Proof.
  intros Hlen. apply writer_for_each. intros t Ht. apply (codec_writer _ _ _ codec_index_entry).
  eapply Forall_forall; [|exact Ht]. by apply laid_valid.
Qed.

Lemma emits_finish segs idx bs : is_u16 idx → lenZ (concat segs.*2) < U32_MOD → is_u32 version → 
  writer (finish segs idx) ∧
  (emits (finish segs idx) bs ↔ fits bs ∧ ∃ c h i, bs = MOVE_MAGIC ++ to_le_bytes 4 version ++ c ++ h ++ concat segs.*2 ++ i ∧
    emits (serialize_table_count (lenZ segs)) c ∧ emits (for_each write_index (laid 0 segs)) h ∧ emits (serialize_module_handle_index idx) i).
Proof.
  intros Hidx Hlen Hv. pose proof (writer_index_entries segs Hlen) as Hwi.
  assert (writer (serialize_table_count (lenZ segs))) as Hwc by (apply writer_int; [unfold lenZ; lia|done]).
  assert (writer (serialize_module_handle_index idx)) as Hwx by (apply writer_int; [apply Hidx|done]).
  assert (writer (finish segs idx)) as Hw by (unfold finish; solve_writer). split; [done|].
  unfold finish. split.
  - intros He. pose proof (proj1 He) as Hfit. split; [done|].
    apply emits_bind in He as (_ & b1 & b2 & -> & He1 & He2); [|solve_writer..]. apply emits_bind in He1 as (_ & b3 & b4 & -> & [_ ->]%emits_bytes & [_ ->]%emits_extend); [|solve_writer..].
    apply emits_bind in He2 as (_ & b5 & b6 & -> & He5 & He6); [|solve_writer..]. apply emits_bind in He5 as (_ & c & h & -> & Hc & Hh); [|solve_writer..].
    apply emits_bind in He6 as (_ & b7 & i & -> & [_ ->]%emits_extend & Hi); [|solve_writer..]. exists c, h, i. rewrite <- !app_assoc. done.
  - intros (Hfit & c & h & i & -> & Hc & Hh & Hi). apply emits_bind; [solve_writer..|]. split; [done|].
    exists (MOVE_MAGIC ++ to_le_bytes 4 version), (c ++ h ++ concat segs.*2 ++ i). rewrite <- app_assoc. split; [done|]. split.
    + apply emits_bind; [solve_writer..|]. split; [apply fits_small; cbn; lia|]. eexists _, _. split; [done|].
      split; [apply emits_bytes; split; [apply fits_small; cbn; lia|done]|]. apply emits_extend. split; [apply fits_small; cbn; lia|done].
    + apply emits_bind; [solve_writer..|]. do 2 apply fits_app_r in Hfit. split; [done|]. exists (c ++ h), (concat segs.*2 ++ i).
      rewrite <- app_assoc. split; [done|]. rewrite app_assoc in Hfit. split; apply emits_bind; try solve_writer; (split; [eauto with fits|]).
      * by exists c, h.
      * eexists _, i. split; [done|]. split; [|done]. apply emits_extend. split; [by apply fits_u32|done].
Qed.

Lemma emits_int_small x max bs : 0 <= x → max < U64_MOD → emits (write_as_uleb128 x max) bs → (length bs <= 10)%nat.
Proof. intros Hx Hm [Hle He]%emits_int; [|done..]. apply emits_uleb in He as ->; [|lia]. apply length_uleb. Qed.

Lemma index_entries_small segs h : lenZ (concat segs.*2) < U32_MOD → emits (for_each write_index (laid 0 segs)) h → (length h <= 21 * length segs)%nat.
Proof.
  intros Hlen%(laid_valid segs 0); [|done]. assert (length segs = length (laid 0 segs)) as ->.
  { clear. generalize 0. induction segs as [|[k bs] segs IH]; intros off; [done|]. cbn. by rewrite <- IH. }
  rewrite emits_for_each; [|intros t Ht; apply (codec_writer _ _ _ codec_index_entry); by eapply Forall_forall in Hlen].
  intros (_ & bss & -> & Hall). induction Hall as [|t bs ts bss He _ IH]; [done|]. apply Forall_cons in Hlen as [[Ho Hn] Hlen]. cbn [concat length].
  rewrite length_app. specialize (IH Hlen). unfold write_index in He. apply emits_bind in He as (_ & b1 & b2 & -> & ->%emits_push & He); [|solve_writer..].
  apply emits_bind in He as (_ & b3 & b4 & -> & H3%emits_int_small & H4%emits_int_small); [|first [done | apply Ho | apply Hn | solve [solve_writer]]..].
  rewrite !length_app. cbn. lia.
Qed.

Lemma module_bytes_fits m segs c h i : segments m (COMMON_ORDER ++ MODULE_ORDER) segs → lenZ (concat segs.*2) < U32_MOD → is_u16 (self_module_handle_idx m) →
  emits (serialize_table_count (lenZ segs)) c → emits (for_each write_index (laid 0 segs)) h →
  emits (serialize_module_handle_index (self_module_handle_idx m)) i → fits (MOVE_MAGIC ++ to_le_bytes 4 version ++ c ++ h ++ concat segs.*2 ++ i).
Proof.
  intros Hs%segments_length Hlen Hidx Hc%emits_int_small Hh%index_entries_small Hi%emits_int_small; [|first [done | apply Hidx | unfold lenZ; lia]..].
  cbn in Hs. unfold fits, lenZ, U32_MOD, U64_MOD in *. rewrite !length_app, length_to_le. cbn [length MOVE_MAGIC]. lia.
Qed.

Lemma serialize_ok m segs bs : is_u16 (self_module_handle_idx m) → version <= VERSION_MAX → module_bytes m segs bs →
  module_serialize_for_version (Some version) m [] = Ret (Ok tt, bs).
Proof using Hversion.
  intros Hidx Hmax (Hs & Hlen & c & h & i & -> & Hc & Hh & Hi). unfold module_serialize_for_version, commit. change (default VERSION_MAX (Some version)) with version.
  unfold mbind at 1, st_bind at 1, lift_r, validate_version. unfold VERSION_MIN. rewrite !(proj2 (Z.leb_le _ _)) by done. cbn [andb negb].
  unfold mbind at 1, st_bind at 1, in_temp. rewrite module_tables_eq by done. rewrite (serialize_kinds_ok m _ segs Hs) by done. cbn [app].
  rewrite (proj2 (Z.ltb_ge _ _)) by lia. rewrite (finish_eq m) by done. change (lenZ (@nil Z)) with 0.
  assert (is_u32 version) as Hu by (unfold is_u32, VERSION_5, VERSION_MAX, VERSION_6, U32_MOD in *; lia).
  edestruct (emits_finish segs (self_module_handle_idx m)) as [Hw [_ He]]; [done..|]. specialize (He ltac:(split; [by eapply module_bytes_fits|by eexists _, _, _])).
  apply emits_run in He; [|done]. by rewrite He.
Qed.

Lemma serialize_sound m : valid_module m → version <= VERSION_MAX →
  ∃ r bs, module_serialize_for_version (Some version) m [] = Ret (r, bs) ∧ (r = Ok tt → ∃ segs, module_bytes m segs bs).
Proof using Hversion.
  intros [Hv Hidx] Hmax. unfold module_serialize_for_version, commit. change (default VERSION_MAX (Some version)) with version.
  unfold mbind at 1, st_bind at 1, lift_r, validate_version. unfold VERSION_MIN. rewrite !(proj2 (Z.leb_le _ _)) by done. cbn [andb negb].
  unfold mbind at 1, st_bind at 1, in_temp. rewrite module_tables_eq by done.
  destruct (serialize_kinds_run m (COMMON_ORDER ++ MODULE_ORDER)) with (self := new version) (temp := @nil Z) as (r & temp & Hrun & Hr);
    [by apply Forall_forall; intros k _|done|]. rewrite Hrun. destruct r as [ser|e]; [|by eexists _, _].
  destruct (Hr ser eq_refl) as (segs & Hs & -> & Hlen). cbn [app] in *.
  assert (lenZ (concat segs.*2) < U32_MOD) as Hlen' by (destruct segs; [done|by apply Hlen]).
  rewrite (serialize_kinds_ok m _ segs Hs) in Hrun by done. injection Hrun as <-.
  rewrite (proj2 (Z.ltb_ge _ _)) by lia. rewrite (finish_eq m) by done.
  assert (is_u32 version) as Hu by (unfold is_u32, VERSION_5, VERSION_MAX, VERSION_6, U32_MOD in *; lia).
  destruct (emits_finish segs (self_module_handle_idx m) [] Hidx Hlen' Hu) as [Hw _]. destruct (Hw [] fits_nil) as (r & bs & Hfin & Hok). rewrite Hfin.
  destruct r as [[]|e]; [|by eexists _, _]. exists (Ok tt), bs. split; [done|]. intros _. exists segs. destruct Hok as (bs' & -> & _ & He). cbn [app].
  apply emits_finish in He as [_ He]; [|done..]. by split_and!.
Qed.
End version.
