(* ===== verification/RoundTrip.v ===== *)
(** Modules in the binary format: what [CompiledModule::serialize_for_version] writes,
    [CompiledModule::deserialize_with_config] reads back, and a module that has been loaded can be written
    again and loads to the same module. *)
From S2P Require Import Prelude MoveFormat BinaryFormat Serializer CheckBounds Deserializer Codec TokenCodec BoundsSafety Totality Tables ModuleBytes.
Import Binary Ser Des.

(** * Tables in order *)

Lemma insert_by_first {A} (key : A → Z) x l : Forall (λ y, key x <= key y) l → insert_by key x l = x :: l.
Proof. destruct l as [|y l]; [done|]. intros [Hy _]%Forall_cons. cbn. by rewrite (proj2 (Z.leb_le _ _)). Qed.

Lemma sort_by_key_id {A} (key : A → Z) l : StronglySorted (λ x y, key x <= key y) l → sort_by_key key l = l.
Proof. induction 1 as [|x l _ IH Hx]; [done|]. unfold sort_by_key in *. cbn. rewrite IH. by apply insert_by_first. Qed.

Lemma laid_from segs : ∀ off, Forall (λ t, off <= offset t) (laid off segs).
Proof.
  induction segs as [|[k bs] segs IH]; intros off; constructor; [done|]. eapply Forall_impl; [apply IH|]. cbn. unfold lenZ. intros. lia.
Qed.

Lemma laid_sorted segs : ∀ off, StronglySorted (λ t t', offset t <= offset t') (laid off segs).
Proof.
  induction segs as [|[k bs] segs IH]; intros off; constructor; [apply IH|]. eapply Forall_impl; [apply laid_from|]. cbn. unfold lenZ. intros. lia.
Qed.

Lemma check_laid segs len : ∀ off types, Forall (λ e, e.2 ≠ []) segs → NoDup segs.*1 → (∀ k, k ∈ segs.*1 → k ∉ types) → 0 <= off →
  off + lenZ (concat segs.*2) < U32_MOD → off + lenZ (concat segs.*2) <= len →
  check_sorted (laid off segs) len off types = Ok (off + lenZ (concat segs.*2)).
Proof.
  induction segs as [|[k bs] segs IH]; intros off types Hne Hnd Htypes Hoff Hu32 Hlen; cbn [laid check_sorted]; [cbn; by rewrite lenZ_nil|].
  cbn in Hnd, Htypes, Hu32, Hlen |- *. rewrite lenZ_app in *. apply NoDup_cons in Hnd as [Hk Hnd]. apply Forall_cons in Hne as [Hbs Hne]. cbn in Hbs.
  assert (0 < lenZ bs) by (unfold lenZ; destruct bs; [done|cbn; lia]). assert (0 <= lenZ (concat segs.*2)) by (unfold lenZ; lia).
  rewrite Z.eqb_refl, (proj2 (Z.eqb_neq _ _)), (proj2 (Z.leb_gt _ _)), (proj2 (Z.ltb_ge _ _)) by lia. cbn [negb].
  rewrite bool_decide_eq_false_2 by set_solver. rewrite IH; [f_equal; lia|done|done|set_solver|lia..].
Qed.

(** The bytes of a table in the content. *)
Lemma slice_middle b pre bs post : binary b = pre ++ bs ++ post → Versioned.slice b (lenZ pre) (lenZ pre + lenZ bs) = Ret bs.
Proof.
  intros Hb. unfold Versioned.slice. rewrite Hb. rewrite !lenZ_app. assert (0 <= lenZ pre ∧ 0 <= lenZ bs ∧ 0 <= lenZ post) as (? & ? & ?) by (unfold lenZ; lia).
  rewrite !(proj2 (Z.leb_le _ _)) by lia. cbn [andb]. replace (lenZ pre + lenZ bs - lenZ pre) with (lenZ bs) by lia. unfold lenZ. rewrite !Nat2Z.id.
  by rewrite drop_app_length, take_app_length.
Qed.

Lemma laid_slice b segs : ∀ pre, binary b = pre ++ concat segs.*2 →
  Forall (λ t, ∃ bs, (kind t, bs) ∈ segs ∧ count t = lenZ bs ∧ Versioned.slice b (offset t) (offset t + count t) = Ret bs) (laid (lenZ pre) segs).
Proof.
  induction segs as [|[k bs] segs IH]; intros pre Hb; [constructor|]. cbn in Hb |- *. constructor.
  - exists bs. cbn. split; [by left|]. split; [done|]. by eapply slice_middle.
  - rewrite <- lenZ_app. rewrite app_assoc in Hb. eapply Forall_impl; [apply (IH _ Hb)|]. cbn. intros t (bs' & ? & ? & ?). exists bs'. split; [by right|done].
Qed.

(** * The header *)

Lemma denotes_magic {A} (r : Reader StatusCode A) P : denotes r P →
  denotes (magic ← Read.read 4; if negb (bool_decide (length magic = 4%nat)) || negb (bool_decide (magic = MOVE_MAGIC)) then throw BAD_MAGIC else r)
    (λ x bs, ∃ bs', bs = MOVE_MAGIC ++ bs' ∧ P x bs').
Proof.
  intros [Hr Hs]. split; unfold mbind, st_bind, Read.read, advance; cbn [remaining position].
  - intros p x bs rest (bs' & -> & HP). rewrite <- app_assoc, (take_app_length' MOVE_MAGIC), (drop_app_length' MOVE_MAGIC) by (rewrite ?length_app; cbn; lia).
    rewrite !bool_decide_eq_true_2 by done. cbn [negb orb]. rewrite (Hr _ x) by done. rewrite length_app. cbn [length MOVE_MAGIC Nat.add Nat.min].
    f_equal. f_equal. rewrite lenZ_app. unfold lenZ. cbn [length MOVE_MAGIC]. f_equal. lia.
  - intros p inp x c Hok. destruct (bool_decide_reflect (length (take 4 inp) = 4%nat)) as [Hlen|]; [|done].
    destruct (bool_decide_reflect (take 4 inp = MOVE_MAGIC)) as [Hmagic|]; [|done]. cbn [negb orb]. rewrite length_take in Hlen.
    rewrite Nat.min_l by lia. intros Hrun. rewrite <- (take_drop 4 inp) in Hok |- *. rewrite Hmagic in *.
    destruct (Hs _ _ _ _ (bytes_ok_app_r _ _ Hok) Hrun) as (bs & rest & -> & -> & HP). exists (MOVE_MAGIC ++ bs), rest. rewrite <- app_assoc. split; [done|].
    split; [|by exists bs]. f_equal. rewrite lenZ_app. unfold lenZ. cbn [length MOVE_MAGIC]. lia.
Qed.

Lemma denotes_version max : denotes (Versioned.new max) (λ v bs, 1 <= v <= Z.min max VERSION_MAX ∧ bs = MOVE_MAGIC ++ to_le_bytes 4 v).
Proof.
  eapply denotes_ext.
  { apply denotes_magic. eapply denotes_bind; [apply denotes_map_err, (denotes_le 4)|]. intros v. apply denotes_guard, denotes_ret. }
  - cbn beta. intros v bs [Hv ->]. exists (to_le_bytes 4 v). split; [done|]. exists v, (to_le_bytes 4 v), []. rewrite app_nil_r. split; [done|].
    split; [split; [|done]; unfold VERSION_MAX, VERSION_6 in Hv; lia|]. split; [|done]. apply orb_false_iff. split; [apply Z.eqb_neq; lia|apply Z.ltb_ge; lia].
  - cbn beta. intros v bs _ (bs' & -> & v' & bs1 & bs2 & -> & [Hv ->] & [H0%Z.eqb_neq Hmax%Z.ltb_ge]%orb_false_iff & -> & ->). rewrite app_nil_r. split; [lia|done].
Qed.

(** The header and the content of the tables; [len] is the length of the whole binary. *)
Definition header (len max : Z) (check : bool) (x : list Table * VersionedBinary) (bs : list Z) : Prop :=
  ∃ v tables fin c h content, bs = MOVE_MAGIC ++ to_le_bytes 4 v ++ c ++ h ++ content ∧
    1 <= v <= Z.min max VERSION_MAX ∧ emits (serialize_table_count (lenZ tables)) c ∧
    Forall is_table tables ∧ emits (for_each write_index tables) h ∧
    check_sorted (sort_by_key offset tables) len 0 [] = Ok fin ∧ lenZ content = fin ∧
    x = (sort_by_key offset tables, mkBinary v content check).

Lemma codec_tables n : denotes (read_n n read_table) (λ ts bs, length ts = n ∧ Forall is_table ts ∧ fits bs ∧ emits (for_each write_index ts) bs).
Proof.
  destruct codec_index_entry as [Hw Hd].
  eapply denotes_ext; [apply denotes_read_n, Hd|..]; cbn beta.
  - intros ts bs (Hn & Hts & _ & He). split; [done|]. rewrite emits_for_each in He by (intros t Ht; apply Hw; by eapply Forall_forall in Hts).
    destruct He as (_ & bss & -> & Hall). exists bss. split; [done|]. clear -Hts Hall. induction Hall as [|t bs ts bss He _ IH]; [done|].
    apply Forall_cons in Hts as [Ht Hts]. constructor; [done|by apply IH].
  - intros ts bs Hok (Hn & bss & -> & Hall). split; [done|].
    assert (Forall is_table ts) as Hts. { clear -Hall. induction Hall as [|x y l bss [Hx _] _ IH]; by constructor. }
    split; [done|]. split; [apply Hok|]. apply emits_for_each; [intros t Ht; apply Hw; by eapply Forall_forall in Hts|]. split; [apply Hok|].
    exists bss. split; [done|]. eapply Forall2_impl; [exact Hall|]. by intros ?? [_ ?].
Qed.

Lemma denotes_check {A} (r : result StatusCode A) : denotes (lift_r r) (λ x bs, r = Ok x ∧ bs = []).
Proof.
  split.
  - intros p x bs rest [-> ->]. by rewrite lenZ_nil.
  - intros p inp x c _ [= -> <-]. exists [], inp. by rewrite lenZ_nil.
Qed.

Lemma denotes_header len max check : denotes (load_header len max check) (header len max check).
Proof.
  eapply denotes_ext.
  { unfold load_header. eapply denotes_bind; [apply denotes_version|]. intros v. eapply denotes_bind; [by apply (denotes_int U8_MOD TABLE_COUNT_MAX)|]. intros n.
    eapply denotes_bind; [apply codec_tables|]. intros tables. cbn [check_tables]. eapply denotes_bind; [apply denotes_check|]. intros fin.
    eapply denotes_bind; [eapply denotes_bind; [apply denotes_map_err, denotes_read_exact|intros; apply denotes_ret]|]. intros b. apply denotes_ret. }
  - cbn beta. intros x bs (v & tables & fin & c & h & content & -> & Hv & Hc & Ht & Hh & Hcheck & Hfin & ->).
    eexists v, (MOVE_MAGIC ++ to_le_bytes 4 v), _. rewrite <- app_assoc. split; [done|]. split; [done|].
    pose proof Hc as [Hle _]%emits_int; [|unfold lenZ; lia|done].
    exists (lenZ tables), c. eexists. split; [done|]. split; [split; [unfold lenZ, U8_MOD, TABLE_COUNT_MAX in *; lia|done]|].
    exists tables, h. eexists. split; [done|]. split; [split_and!; try done; [unfold lenZ; lia|apply Hh]|].
    exists fin, [], content. split; [done|]. split; [done|]. eexists _, content, []. rewrite app_nil_r. split; [done|]. split; [|done].
    exists content, content, []. rewrite app_nil_r. split; [done|]. split; [|done]. split; [done|]. rewrite <- Hfin. unfold lenZ. lia.
  - cbn beta. intros x bs Hok (v & bs1 & bs2 & -> & [Hv ->] & n & c & bs3 & -> & [Hn Hc] & tables & h & bs4 & -> & (Hlen & Ht & _ & Hh) & fin & bs5 & bs6 & -> & [Hcheck ->] &
      b & bs7 & bs8 & -> & (content & bs9 & bs10 & -> & [-> Hfin] & -> & ->) & -> & ->). rewrite !app_nil_r in *.
    exists v, tables, fin, c, h, bs9. cbn [app]. rewrite <- app_assoc. split; [done|]. split; [done|]. unfold lenZ.
    split; [replace (Z.of_nat (length tables)) with n by lia; done|]. split; [done|]. split; [done|]. split; [done|]. split; [|done].
    assert (Forall (λ t, 0 <= count t) (sort_by_key offset tables)) as Hcount.
    { rewrite sort_by_key_perm. eapply Forall_impl; [exact Ht|]. by intros t [_ [? _]]. }
    apply check_sorted_ok in Hcheck as [Hle _]; [|done..]. lia.
Qed.

(** * Reading what has been written *)

Definition with_version (v : Z) (m : CompiledModule) : CompiledModule :=
  mkModule v (self_module_handle_idx m) (m_common m) (field_handles m) (friend_decls m) (struct_def_instantiations m)
    (field_instantiations m) (struct_defs m) (function_defs m).

Lemma length_laid segs : ∀ off, length (laid off segs) = length segs.
Proof. induction segs as [|[k bs] segs IH]; intros off; [done|]. cbn. by rewrite IH. Qed.

Section version.
Context (version : Z).
Hypothesis Hversion : VERSION_5 <= version.
Abbreviation T := (table version).

Lemma segments_header m segs c h len max check :
  segments version m (COMMON_ORDER ++ MODULE_ORDER) segs → lenZ (concat segs.*2) < U32_MOD → lenZ (concat segs.*2) <= len → 1 <= version <= Z.min max VERSION_MAX →
  emits (serialize_table_count (lenZ segs)) c → emits (for_each write_index (laid 0 segs)) h →
  header len max check (laid 0 segs, mkBinary version (concat segs.*2) check) (MOVE_MAGIC ++ to_le_bytes 4 version ++ c ++ h ++ concat segs.*2).
Proof using Hversion.
  intros Hs Hu32 Hlen Hv Hc Hh. exists version, (laid 0 segs), (lenZ (concat segs.*2)), c, h, (concat segs.*2). split; [done|]. split; [done|].
  unfold lenZ at 1. rewrite length_laid. split; [done|]. split; [by apply laid_valid|]. split; [done|].
  rewrite sort_by_key_id by apply laid_sorted. split; [|done]. apply check_laid; [|by eapply segments_nodup, order_nodup|set_solver|done..].
  apply Forall_forall. intros [k bs] Hin. by eapply segments_bytes in Hin as [_ ?].
Qed.

Lemma segments_loads m segs check : segments version m (COMMON_ORDER ++ MODULE_ORDER) segs → metadata m = [] ∨ check = false →
  Forall (loads version (mkBinary version (concat segs.*2) check) (λ k, entries (T k) m)) (laid 0 segs).
Proof using Hversion.
  intros Hs Hmeta. eapply Forall_impl; [apply (laid_slice (mkBinary version (concat segs.*2) check) segs []); done|]. cbn beta.
  intros t (bs & Hin & Hcount & Hslice). pose proof Hin as [He Hne]%(segments_bytes _ Hversion _ _ _ _ _ Hs). split.
  - intros Hk. destruct Hmeta as [Hm|]; [|done]. rewrite Hk in He. apply (encodes_nonempty _ Hversion) in He. naive_solver.
  - by eapply (load_read _ Hversion).
Qed.

(** The module that is built has the tables of [m]. *)
Lemma segments_build m segs check : segments version m (COMMON_ORDER ++ MODULE_ORDER) segs → metadata m = [] ∨ check = false →
  build_compiled_module (mkModule version (self_module_handle_idx m) no_tables [] [] [] [] [] []) (mkBinary version (concat segs.*2) check) (laid 0 segs) =
  Ret (Ok (with_version version m)).
Proof using Hversion.
  intros Hs Hmeta. pose proof (segments_loads m segs check Hs Hmeta) as Hl.
  eapply (build_read _ Hversion) in Hl as (m' & Hb & Hf & He); [|done|rewrite kinds_laid; by eapply segments_nodup, order_nodup].
  rewrite Hb. f_equal. f_equal. apply (module_ext version); [by rewrite Hf|]. intros k. rewrite He.
  transitivity (if decide (k ∈ kinds (laid 0 segs)) then entries (T k) m else []); [by destruct k|]. rewrite kinds_laid. case_decide as Hk; [by destruct k|].
  rewrite <- (segments_none _ Hversion _ _ _ _ Hs (order_all k) Hk). by destruct k.
Qed.

Lemma read_module m segs bs max check : module_bytes version m segs bs → is_u16 (self_module_handle_idx m) → version <= Z.min max VERSION_MAX →
  metadata m = [] ∨ check = false → deserialize_compiled_module bs max check = Ret (Ok (with_version version m)).
Proof using Hversion.
  intros (Hs & Hlen & c & h & i & -> & Hc & Hh & Hi) Hidx Hmax Hmeta. unfold deserialize_compiled_module, on_binary. set (len := lenZ (_ ++ _)).
  assert (lenZ (concat segs.*2) <= len) as Hle. { subst len. rewrite !lenZ_app. unfold lenZ. lia. }
  pose proof (segments_header m segs c h len max check Hs Hlen Hle ltac:(unfold VERSION_5 in *; lia) Hc Hh) as Hhead.
  replace (MOVE_MAGIC ++ to_le_bytes 4 version ++ c ++ h ++ concat segs.*2 ++ i)
    with ((MOVE_MAGIC ++ to_le_bytes 4 version ++ c ++ h ++ concat segs.*2) ++ i) by by rewrite <- !app_assoc.
  unfold mbind at 1, st_bind at 1. rewrite (denotes_read _ _ (denotes_header len max check) _ _ _ _ Hhead).
  unfold mbind at 1, st_bind at 1. rewrite <- (app_nil_r i). unfold load_module_handle_index.
  rewrite (denotes_read _ _ (codec_denotes _ _ _ codec_index) _ (self_module_handle_idx m)) by done.
  cbn [BinaryFormat.version]. unfold mbind at 1, st_bind at 1, lift_vm. rewrite segments_build by done.
  unfold mbind, st_bind, gets. cbn [position]. replace (0 + _ + lenZ i) with len; [by rewrite Z.ltb_irrefl, andb_false_r|].
  subst len. rewrite !lenZ_app. lia.
Qed.
End version.

(** C2: round trip of modules.  Serialization of a module whose entries are valid at a supported version returns.
    If it succeeds, the bytes load, at the same or a higher maximal version, to the same module with that version, up
    to the bounds check; when bytes are checked for leftovers the module has to be without metadata, which
    the deserializer then refuses. *)
Theorem module_round_trip version max check m :
  VERSION_5 <= version → version <= VERSION_MAX → version <= max → valid_module version m → metadata m = [] ∨ check = false →
  ∃ r bs, module_serialize_for_version (Some version) m [] = Ret (r, bs) ∧
    (r = Ok tt → deserialize_compiled_module bs max check = Ret (Ok (with_version version m)) ∧
      (module_handles m ≠ [] → in_bounds (ModuleView (with_version version m)) →
        module_deserialize_with_config bs max check = Ret (Ok (with_version version m)))).
Proof.
  intros Hv Hvmax Hmax Hm Hmeta. destruct (serialize_sound version Hv m Hm Hvmax) as (r & bs & Hrun & Hok). exists r, bs. split; [done|].
  intros [segs Hbs]%Hok. assert (deserialize_compiled_module bs max check = Ret (Ok (with_version version m))) as Hd.
  { eapply read_module; [done|done|apply Hm|lia|done]. }
  split; [done|]. intros Hh Hb. unfold module_deserialize_with_config. rewrite Hd. destruct (safe_deserialize_module bs max check) as (r' & Hr' & Hok').
  rewrite Hd in Hr'. injection Hr' as <-. destruct (Hok' _ eq_refl) as [Hc Hf]. destruct (checks_module _ Hc Hf) as (r' & Hr' & Hiff).
  unfold mbind, vm_bind. rewrite Hr'. destruct r' as [[]|e]; [done|]. by discriminate (proj2 Hiff (conj Hh Hb)).
Qed.

(** * Writing what has been read *)

Lemma int_emits x max : 0 <= x <= max → max < U64_MOD → emits (write_as_uleb128 x max) (uleb 10 x).
Proof. intros Hx Hmax. apply emits_int; [lia|done|]. split; [lia|]. apply emits_uleb; [lia|done]. Qed.

Lemma index_emits t : is_table t → ∃ bs, emits (write_index t) bs ∧ (length bs <= 21)%nat.
Proof.
  intros [Ho Hn]. unfold is_u32, U32_MOD in *. pose proof (int_emits (offset t) TABLE_OFFSET_MAX ltac:(unfold TABLE_OFFSET_MAX; lia) ltac:(done)) as H1.
  pose proof (int_emits (count t) TABLE_SIZE_MAX ltac:(unfold TABLE_SIZE_MAX; lia) ltac:(done)) as H2.
  pose proof (length_uleb 10 (offset t)) as L1. pose proof (length_uleb 10 (count t)) as L2.
  exists ([TableKind.as_u8 (kind t)] ++ uleb 10 (offset t) ++ uleb 10 (count t)). rewrite !length_app. split; [|cbn [length]; lia].
  assert (writer (seiralize_table_offset (offset t))) by (apply writer_int; [lia|done]).
  assert (writer (serialize_table_size (count t))) by (apply writer_int; [lia|done]).
  assert (∀ l, (length l <= 20)%nat → fits l) as Hf by (intros l Hl; apply fits_small; lia).
  apply emits_bind; [solve_writer..|]. split; [apply fits_small; rewrite !length_app; cbn [length]; lia|]. eexists _, _. split; [done|]. split; [by apply emits_push|].
  apply emits_bind; [done..|]. split; [apply Hf; rewrite length_app; lia|]. eexists _, _. by split_and!.
Qed.

Lemma indices_emit ts : Forall is_table ts → (length ts <= 15)%nat → ∃ h, emits (for_each write_index ts) h.
Proof.
  intros Hts Hlen. assert (∃ bss, Forall2 (λ t bs, emits (write_index t) bs) ts bss ∧ (length (concat bss) <= 21 * length ts)%nat) as (bss & Hall & Hsize).
  { clear Hlen. induction Hts as [|t ts Ht _ (bss & Hall & IH)]; [by exists []|]. destruct (index_emits t Ht) as (bs & He & Hbs).
    exists (bs :: bss). split; [by constructor|]. cbn [concat length]. rewrite length_app. lia. }
  exists (concat bss). apply emits_for_each; [intros t Ht; apply (codec_writer _ _ _ codec_index_entry); by eapply Forall_forall in Hts|].
  split; [apply fits_small; lia|]. by exists bss.
Qed.

(** ** The tables of a loaded binary *)

Definition total_count (tables : list Table) : Z := foldr (λ t n, count t + n) 0 tables.
Definition kind_count (tables : list Table) (k : TableType) : Z := total_count (filter (λ t, kind t = k) tables).

Lemma check_sorted_facts tables len : ∀ cur types fin, Forall (λ t, 0 <= count t) tables → check_sorted tables len cur types = Ok fin →
  fin = cur + total_count tables ∧ (cur < U32_MOD → fin < U32_MOD) ∧ NoDup (kinds tables) ∧ (∀ k, k ∈ kinds tables → k ∉ types).
Proof.
  induction tables as [|t tables IH]; intros cur types fin Hcount; cbn [check_sorted total_count foldr].
  { intros [= <-]. split; [lia|]. split; [done|]. unfold kinds. cbn. split; [constructor|set_solver]. }
  apply Forall_cons in Hcount as [Ht Hcount]. case_match; [done|]. case_match; [done|]. destruct (Z.leb_spec U32_MOD (cur + count t)); [done|].
  case_bool_decide as Hk; [done|]. case_match; [done|]. intros (-> & Hu & Hnd & Hdis)%IH; [|done]. fold (total_count tables). split; [lia|]. split; [auto|].
  unfold kinds in *. cbn. split; [apply NoDup_cons; split; [|done]; intros Hin; by apply (Hdis _ Hin); left|set_solver].
Qed.

Lemma total_count_nonneg tables : Forall (λ t, 0 <= count t) tables → 0 <= total_count tables.
Proof. unfold total_count. induction 1; cbn; lia. Qed.

Lemma counts_filter tables k : Forall (λ t, 0 <= count t) tables → Forall (λ t, 0 <= count t) (filter (λ t, kind t = k) tables).
Proof. rewrite !Forall_forall. intros Hall t [_ ?]%list_elem_of_filter. by apply Hall. Qed.

Lemma kind_count_ge tables t : Forall (λ t, 0 <= count t) tables → t ∈ tables → count t <= kind_count tables (kind t).
Proof.
  unfold kind_count. intros Hcount Ht. assert (t ∈ filter (λ t', kind t' = kind t) tables) as Hin by by apply list_elem_of_filter.
  assert (Forall (λ t, 0 <= count t) (filter (λ t', kind t' = kind t) tables)) as Hf by by apply counts_filter.
  revert Hin Hf. generalize (filter (λ t', kind t' = kind t) tables). clear. intros l Hin Hf. induction Hf as [|t' l Ht' Hl IH]; [set_solver|].
  cbn. fold (total_count l). pose proof (total_count_nonneg l Hl). apply elem_of_cons in Hin as [->|Hin]; [lia|]. specialize (IH Hin). lia.
Qed.

Definition sum_kinds (tables : list Table) (ks : list TableType) : Z := foldr (λ k n, kind_count tables k + n) 0 ks.

Lemma sum_kinds_eq tables k ks : sum_kinds tables (k :: ks) = kind_count tables k + sum_kinds tables ks.
Proof. done. Qed.

Lemma sum_kinds_cons t tables ks : NoDup ks → sum_kinds (t :: tables) ks = (if decide (kind t ∈ ks) then count t else 0) + sum_kinds tables ks.
Proof.
  induction ks as [|k ks IH]; intros Hnd; [done|]. apply NoDup_cons in Hnd as [Hk Hnd]. rewrite !sum_kinds_eq, IH by done.
  unfold kind_count. rewrite filter_cons. destruct (decide (kind t = k)) as [Heq|Hne].
  - cbn. rewrite Heq, decide_False, decide_True by set_solver. fold (total_count (filter (λ t, kind t = k) tables)). lia.
  - destruct (decide (kind t ∈ ks)); [rewrite decide_True by set_solver|rewrite decide_False by set_solver]; lia.
Qed.

Lemma sum_kinds_all tables ks : NoDup ks → (∀ k, k ∈ ks) → sum_kinds tables ks = total_count tables.
Proof.
  intros Hnd Hall. induction tables as [|t tables IH].
  - clear. induction ks as [|k ks IH]; [done|]. rewrite sum_kinds_eq. exact IH.
  - rewrite sum_kinds_cons, decide_True, IH by auto. done.
Qed.

Section loaded.
Context (version : Z) (b : VersionedBinary) (tables : list Table) (m0 m : CompiledModule).
Hypothesis Hversion : VERSION_5 <= version.
Hypothesis Hbversion : BinaryFormat.version b = version.
Hypothesis Hbytes : bytes_ok (binary b).
Hypothesis Hin : Forall (in_binary b) tables.
Hypothesis Hnd : NoDup (kinds tables).
Hypothesis Hempty : ∀ k, entries (table version k) m0 = [].
Hypothesis Hbuild : build_compiled_module m0 b tables = Ret (Ok m).
Abbreviation T := (table version).

Lemma slice_bytes start end_ bs : Versioned.slice b start end_ = Ret bs → bytes_ok bs.
Proof using Hbytes.
  unfold Versioned.slice. case_match; [|done]. intros [= <-]. destruct Hbytes as [Hf Hb]. split.
  - unfold fits, lenZ in *. rewrite length_take, length_drop. lia.
  - apply Forall_take, Forall_drop, Hb.
Qed.

(** The entries of each table, with their bytes. *)
Lemma loaded_entries : frame m = frame m0 ∧ (metadata m = [] ∨ check_no_extraneous_bytes b = false) ∧
  ∀ k, entries (T k) m = [] ∨ ∃ bs, encodes (valid (T k)) (serialize (T k)) (entries (T k) m) bs ∧ lenZ bs <= kind_count tables k.
Proof using All.
  pose proof (build_loaded version Hversion b Hbversion tables _ _ Hnd Hbuild) as Hl.
  destruct (build_read version Hversion b Hbversion _ _ m0 Hl Hnd) as (m' & Hb & Hf & He). rewrite Hbuild in Hb. injection Hb as <-. split; [done|].
  assert (∀ k, entries (T k) m = if decide (k ∈ kinds tables) then loaded version b tables k else []) as He' by (intros k; by rewrite He, Hempty).
  clear He. split.
  - destruct (decide (METADATA ∈ kinds tables)) as [(t & Hk & Ht)%list_elem_of_fmap|Hk].
    + right. eapply Forall_forall in Hl as [Ha _]; [|exact Ht]. by apply Ha.
    + left. specialize (He' METADATA). by rewrite decide_False in He' by done.
  - intros k. rewrite He'. destruct (decide (k ∈ kinds tables)) as [(t & -> & Ht)%list_elem_of_fmap|Hk]; [right|by left].
    rewrite Forall_forall in Hl, Hin. destruct (Hl t Ht) as [_ Hload]. destruct (Hin t Ht) as (Ho & Hc & Hle).
    destruct (slice_ok b (offset t) (offset t + count t)) as (bs & Hs & Hlen); [lia..|]. exists bs. split.
    + eapply (load_sound version Hversion b t bs Hs); [lia|done|by eapply slice_bytes|done].
    + pose proof (kind_count_ge tables t) as Hge. rewrite Hlen. etrans; [|apply Hge; [|done]]; [lia|].
      apply Forall_forall. intros t' Ht'. specialize (Hin t' Ht'). unfold in_binary in Hin. lia.
Qed.

Lemma loaded_segments ks : ∃ segs, segments version m ks segs ∧ lenZ (concat segs.*2) <= sum_kinds tables ks.
Proof using All.
  destruct loaded_entries as (_ & _ & He). induction ks as [|k ks (segs & Hs & Hlen)]; [exists []; split; [constructor|done]|].
  rewrite sum_kinds_eq. assert (0 <= kind_count tables k) as H0.
  { apply total_count_nonneg, counts_filter. eapply Forall_impl; [exact Hin|]. unfold in_binary. intros. lia. }
  assert (entries (T k) m = [] ∨ entries (T k) m ≠ []) as [Hnil|Hne] by (destruct (entries (T k) m); auto).
  - exists segs. split; [by constructor|lia].
  - destruct (He k) as [?|(bs & Hbs & Hle)]; [done|]. exists ((k, bs) :: segs). split; [by constructor|]. cbn. rewrite lenZ_app. lia.
Qed.
End loaded.


Lemma for_tables_keeps {S A} (f : Table → S → VMResult S) (g : S → A) tables : (∀ t s s', f t s = Ret (Ok s') → g s' = g s) →
  ∀ s s', for_tables f tables s = Ret (Ok s') → g s' = g s.
Proof.
  intros Hf. induction tables as [|t tables IH]; intros s s'; cbn [for_tables]; [by intros [= <-]|]. unfold mbind, vm_bind.
  destruct (f t s) as [[s1|]| |] eqn:Hs; try done. intros ->%IH. by eapply Hf.
Qed.

Lemma build_frame m b tables m' : build_compiled_module m b tables = Ret (Ok m') → frame m' = frame m.
Proof.
  unfold build_compiled_module, mbind at 1, vm_bind at 1. destruct (build_common_tables b tables m) as [[c|]| |]; try done. intros Hb.
  apply (for_tables_keeps _ frame) in Hb; [done|]. intros t s s'. rewrite (build_module 6). case_match; [by intros [= <-]|].
  unfold mbind, vm_bind. destruct (load _ b t) as [[l|]| |]; try done. intros [= <-]. apply frame_push.
Qed.

(** What a successful load has seen. *)
Lemma load_inv bytes max check m : bytes_ok bytes → deserialize_compiled_module bytes max check = Ret (Ok m) →
  ∃ tables b idx, BinaryFormat.version b <= Z.min max VERSION_MAX ∧ check_no_extraneous_bytes b = check ∧ bytes_ok (binary b) ∧
    Forall (in_binary b) tables ∧ NoDup (kinds tables) ∧ total_count tables < U32_MOD ∧
    is_u16 idx ∧ build_compiled_module (mkModule (BinaryFormat.version b) idx no_tables [] [] [] [] [] []) b tables = Ret (Ok m).
Proof.
  intros Hok. unfold deserialize_compiled_module, on_binary. unfold mbind at 1, st_bind at 1.
  destruct (load_header (lenZ bytes) max check (mkCursor 0 bytes)) as [[[[tables b]|] c]| |] eqn:Hh; try done.
  pose proof (yields_header _ _ _ _ _ _ Hh) as Hin. cbn beta iota in Hin.
  apply (denotes_sound _ _ (denotes_header _ _ _)) in Hh as (hb & rest & -> & -> & Hhead); [|done].
  destruct Hhead as (v & tables' & fin & cb & h & content & -> & Hv & Hcb & Ht & Hhb & Hcheck & Hfin & [= -> ->]). cbn [binary BinaryFormat.version] in *.
  unfold mbind at 1, st_bind at 1. destruct (load_module_handle_index _) as [[[idx|] c]| |] eqn:Hi; try done.
  apply (denotes_sound _ _ (codec_denotes _ _ _ codec_index)) in Hi as (i & rest' & -> & -> & Hidx & Hi); [|by apply bytes_ok_app_r in Hok].
  unfold mbind at 1, st_bind at 1, lift_vm. destruct (build_compiled_module _ _ _) as [[m'|]| |] eqn:Hb; try done.
  unfold mbind at 1, st_bind at 1, gets. destruct (check && _); [done|]. intros [= <-].
  exists (sort_by_key offset tables'), (mkBinary v content check), idx. cbn [binary BinaryFormat.version check_no_extraneous_bytes].
  assert (Forall (λ t, 0 <= count t) (sort_by_key offset tables')) as Hcount.
  { eapply Forall_impl; [exact Hin|]. unfold in_binary. intros. lia. }
  apply check_sorted_facts in Hcheck as (-> & Hu & Hnd & _); [|done]. rewrite Z.add_0_l in *. split; [lia|]. split; [done|].
  split; [apply bytes_ok_app_l in Hok; by do 4 apply bytes_ok_app_r in Hok|].
  split; [done|]. split; [done|]. split; [by apply Hu|]. done.
Qed.

Lemma load_then_save bytes max check m :
  bytes_ok bytes → deserialize_compiled_module bytes max check = Ret (Ok m) → VERSION_5 <= m_version m →
  valid_module (m_version m) m ∧
  ∃ bytes', module_serialize_for_version (Some (m_version m)) m [] = Ret (Ok tt, bytes') ∧
    deserialize_compiled_module bytes' max check = Ret (Ok m).
Proof.
  intros Hok Hd H5. apply load_inv in Hd as (tables & b & idx & Hv & Hcheck & Hbytes & Hin & Hnd & Hsum & Hidx & Hb); [|done].
  set (version := BinaryFormat.version b) in *. set (m0 := mkModule version idx no_tables [] [] [] [] [] []) in *.
  pose proof (build_frame _ _ _ _ Hb) as Hf. injection Hf as Hmv Hmi. rewrite Hmv in *.
  assert (∀ k, entries (table version k) m0 = []) as Hempty by by intros [].
  destruct (loaded_entries version b tables m0 m H5 eq_refl Hbytes Hin Hnd Hempty Hb) as (_ & Hmeta & He). rewrite Hcheck in Hmeta.
  destruct (loaded_segments version b tables m0 m H5 eq_refl Hbytes Hin Hnd Hempty Hb (COMMON_ORDER ++ MODULE_ORDER)) as (segs & Hs & Hlen).
  rewrite sum_kinds_all in Hlen by (apply order_nodup || apply order_all).
  assert (valid_module version m) as Hvalid.
  { split; [|by rewrite Hmi]. intros k. unfold table_entries_valid. destruct (He k) as [->|(bs & Hbs & _)]; [constructor|]. by eapply encodes_valid. }
  split; [done|]. pose proof (segments_length _ _ _ _ Hs) as Hn. cbn in Hn.
  destruct (indices_emit (laid 0 segs)) as [h Hh]; [apply laid_valid; lia|by rewrite length_laid|].
  assert (module_bytes version m segs (MOVE_MAGIC ++ to_le_bytes 4 version ++ uleb 10 (lenZ segs) ++ h ++ concat segs.*2 ++ uleb 10 idx)) as Hmb.
  { split; [done|]. split; [lia|]. eexists _, h, _. split; [done|]. split; [apply int_emits; [unfold lenZ, TABLE_COUNT_MAX; lia|done]|]. split; [done|].
    rewrite Hmi. apply int_emits; [unfold is_u16, U16_MOD, TABLE_INDEX_MAX in *; lia|done]. }
  eexists. split; [eapply (serialize_ok version H5); [by rewrite Hmi|lia|exact Hmb]|].
  rewrite (read_module version H5 m segs _ max check Hmb) by (done || by rewrite Hmi). f_equal. f_equal. destruct m. cbn in *. by subst.
Qed.

Lemma old_version_refused m : m_version m < VERSION_5 → module_serialize_for_version (Some (m_version m)) m [] = Ret (Err UnsupportedVersion, []).
Proof.
  intros Hv. assert (validate_version (m_version m) = Err UnsupportedVersion) as Hvv.
  { unfold validate_version. by rewrite (proj2 (Z.leb_gt VERSION_MIN (m_version m))). }
  unfold module_serialize_for_version. cbv zeta. change (default VERSION_MAX (Some (m_version m))) with (m_version m). by rewrite Hvv.
Qed.

(** C13: writing what has been loaded.  A module that has been loaded from some bytes, if its version is 5 or newer, is
    valid, can be serialized at its version, whatever the order of the tables was, and the result loads to the same
    module.  Modules of versions 1 to 4, which can be loaded, are not serialized at their version: the version is
    refused and nothing is written. *)
Theorem reserialize bytes max check m :
  bytes_ok bytes → deserialize_compiled_module bytes max check = Ret (Ok m) →
  (VERSION_5 <= m_version m → valid_module (m_version m) m ∧
    ∃ bytes', module_serialize_for_version (Some (m_version m)) m [] = Ret (Ok tt, bytes') ∧
      deserialize_compiled_module bytes' max check = Ret (Ok m)) ∧
  (m_version m < VERSION_5 → module_serialize_for_version (Some (m_version m)) m [] = Ret (Err UnsupportedVersion, [])).
Proof. intros Hok Hd. split; [by apply (load_then_save bytes)|]. apply old_version_refused. Qed.

(** * Examples *)
Module Sample.
(** [module 0x0::M { public fun f(x: u64): u64 { x } }]. *)
Definition code : CodeUnit := mkCodeUnit 1 [BC.MoveLoc 0; BC.Ret].
Definition function : FunctionDefinition := mkFunctionDefinition 0 Public false [] (Some code).
Definition handle : FunctionHandle := mkFunctionHandle 0 1 0 0 [].
Definition module_ : CompiledModule :=
  mkModule 6 0 (mkCommon [mkModuleHandle 0 0] [] [handle] [] [[TU64]; []] [[77]; [102]] [replicate 32 0] [] []) [] [] [] [] [] [function].

(** A binary of it with the identifiers as its first table. *)
Definition reordered : list Z :=
  [161; 28; 235; 11; 6; 0; 0; 0; 6] ++
  [1; 4; 2; 3; 6; 5; 5; 11; 3; 7; 0; 4; 8; 14; 32; 12; 46; 9] ++
  [1; 77; 1; 102] ++ [0; 0] ++ [0; 1; 0; 0; 0] ++ [1; 3; 0] ++ replicate 32 0 ++ [0; 1; 0; 0; 1; 2; 11; 0; 2] ++ [0].

Lemma module_valid : valid_module 6 module_.
Proof. split; [|done]. intros []; unfold table_entries_valid; cbn; repeat (constructor; try done). Qed.

Lemma reordered_ok : bytes_ok reordered.
Proof. split; [done|]. apply (bool_decide_unpack _). vm_compute. done. Qed.

Lemma reordered_loads : deserialize_compiled_module reordered 6 true = Ret (Ok module_).
Proof. vm_compute. reflexivity. Qed.

Lemma module_round_trip_witness :
  ∃ bs, module_serialize_for_version (Some 6) module_ [] = Ret (Ok tt, bs) ∧ deserialize_compiled_module bs 6 true = Ret (Ok module_).
Proof.
  destruct (module_round_trip 6 6 true module_) as (r & bs & Hrun & Hok); [done..|apply module_valid|by left|].
  exists bs. assert (r = Ok tt) as -> by (vm_compute in Hrun; congruence). split; [done|]. by apply Hok.
Defined.

Lemma reserialize_witness : ∃ bytes, bytes ≠ reordered ∧
  module_serialize_for_version (Some 6) module_ [] = Ret (Ok tt, bytes) ∧ deserialize_compiled_module bytes 6 true = Ret (Ok module_).
Proof.
  destruct (reserialize reordered 6 true module_ reordered_ok reordered_loads) as [H5 _].
  destruct (H5 ltac:(done)) as (_ & bytes & Hs & Hd). exists bytes.
  split; [|done]. vm_compute in Hs. injection Hs as <-. done.
Defined.
End Sample.
