(* ===== verification/ControlFlowGraph.v ===== *)
(** The control-flow graph of a function ([move-binary-format/src/control_flow_graph.rs]): basic
    blocks, the order in which the abstract interpreter visits them, and the back edges.

    [BTreeMap] and [BTreeSet] are finite maps and sets.  The stack of the depth-first search has
    its top at the front, and the post-order its last block, so that it is the order of traversal
    as it stands.  [exit_to_entry], which is not used, and printing are left out. *)
From S2P Require Import Prelude MoveFormat.

Record BasicBlock := mkBlock { exit : Z; successors : list Z }.

Record VMControlFlowGraph := mkCfg {
  blocks : gmap Z BasicBlock;
  traversal_successors : gmap Z Z;
  loop_heads : gmap Z (gset Z);
}.

Inductive Exploration := InProgress | Done.

(** The state of the depth-first search. *)
Record Search := mkSearch {
  exploration : gmap Z Exploration;
  stack : list Z;
  heads : gmap Z (gset Z);
  post_order : list Z;
}.

Definition ENTRY_BLOCK_ID : Z := 0.

(** A loop whose body may panic. *)
Fixpoint foldM {A B} (f : A → B → outcome A) (a : A) (l : list B) : outcome A :=
  match l with [] => Ret a | x :: l => a ← f a x; foldM f a l end.

Module Cfg.
Import BC.

Definition is_end_of_block (pc : Z) (code : list Bytecode) (block_ids : gset Z) : bool :=
  (u16 (pc + 1) =? len_u16 code) || bool_decide (u16 (pc + 1) ∈ block_ids).

Definition record_block_ids (code : list Bytecode) (block_ids : gset Z) (pc : Z) : outcome (gset Z) :=
  bytecode ← at_index code pc;
  let block_ids := match offset bytecode with Some offset => {[ offset ]} ∪ block_ids | None => block_ids end in
  mret (if is_branch bytecode && (u16 (pc + 1) <? len_u16 code) then {[ u16 (pc + 1) ]} ∪ block_ids else block_ids).

Definition code_offsets (code : list Bytecode) : list Z := u16 <$> seqZ 0 (Z.of_nat (length code)).

(** The body of the loop that creates the blocks; the second component is [entry]. *)
Definition create_block (code : list Bytecode) (block_ids : gset Z) (st : gmap Z BasicBlock * Z) (co_pc : Z) :
    outcome (gmap Z BasicBlock * Z) :=
  if is_end_of_block co_pc code block_ids then
    successors ← get_successors co_pc code;
    mret (<[st.2 := mkBlock co_pc successors]> st.1, u16 (co_pc + 1))
  else mret st.

Definition visit_successor (exploration : gmap Z Exploration) (block : Z) (st : list Z * gmap Z (gset Z)) (succ : Z) :
    list Z * gmap Z (gset Z) :=
  match exploration !! succ with
  | None => (succ :: st.1, st.2)
  | Some InProgress => (st.1, <[succ := {[ block ]} ∪ default ∅ (st.2 !! succ)]> st.2)
  | Some Done => st
  end.

(** One turn of the search, with [block] popped. *)
Definition explore_block (blocks : gmap Z BasicBlock) (s : Search) (block : Z) (rest : list Z) : outcome Search :=
  match exploration s !! block with
  | None =>
      bb ← unwrap (blocks !! block);
      let exploration := <[block := InProgress]> (exploration s) in
      let '(stack, heads) := foldl (visit_successor exploration block) (block :: rest, heads s) (successors bb) in
      mret (mkSearch exploration stack heads (post_order s))
  | Some Done => mret (mkSearch (exploration s) rest (heads s) (post_order s))
  | Some InProgress =>
      mret (mkSearch (<[block := Done]> (exploration s)) rest (heads s) (block :: post_order s))
  end.

Fixpoint explore (fuel : nat) (blocks : gmap Z BasicBlock) (s : Search) : outcome Search :=
  match stack s with
  | [] => mret s
  | block :: rest =>
      match fuel with
      | O => OutOfFuel
      | S fuel => s ← explore_block blocks s block rest; explore fuel blocks s
      end
  end.

(** [windows(2)], collected. *)
Definition windows (order : list Z) : gmap Z Z := collect (zip order (tail order)).

Definition new (code : list Bytecode) : outcome VMControlFlowGraph :=
  block_ids ← foldM (record_block_ids code) {[ ENTRY_BLOCK_ID ]} (code_offsets code);
  st ← foldM (create_block code block_ids) (∅, 0) (code_offsets code);
  let '(blocks, entry) := st in
  assert_ (entry =? len_u16 code);;
  s ← explore (S (3 * length code)) blocks (mkSearch ∅ [ENTRY_BLOCK_ID] ∅ []);
  mret (mkCfg blocks (windows (post_order s)) (heads s)).

(** The methods of the trait. *)
Definition block_start (g : VMControlFlowGraph) (block_id : Z) : Z := block_id.
Definition block_end (g : VMControlFlowGraph) (block_id : Z) : outcome Z := bb ← unwrap (blocks g !! block_id); mret (exit bb).
Definition successors (g : VMControlFlowGraph) (block_id : Z) : outcome (list Z) :=
  bb ← unwrap (blocks g !! block_id); mret (successors bb).
Definition next_block (g : VMControlFlowGraph) (block_id : Z) : option Z := traversal_successors g !! block_id.
Definition instr_indexes (g : VMControlFlowGraph) (block_id : Z) : outcome (list Z) :=
  last ← block_end g block_id; mret (seqZ (block_start g block_id) (last - block_start g block_id + 1)).
Definition block_ids (g : VMControlFlowGraph) : list Z := btree_set_iter (dom (blocks g)).
Definition num_blocks (g : VMControlFlowGraph) : Z := u16 (Z.of_nat (size (blocks g))).
Definition entry_block_id (g : VMControlFlowGraph) : Z := ENTRY_BLOCK_ID.
Definition is_loop_head (g : VMControlFlowGraph) (block_id : Z) : bool := bool_decide (is_Some (loop_heads g !! block_id)).
Definition is_back_edge (g : VMControlFlowGraph) (cur next : Z) : bool :=
  match loop_heads g !! next with Some back_edges => bool_decide (cur ∈ back_edges) | None => false end.
Definition num_back_edges (g : VMControlFlowGraph) : Z := wsum (λ e : Z * gset Z, Z.of_nat (size e.2)) (map_to_list (loop_heads g)).
End Cfg.

(** * Function views ([binary_views.rs]) *)

Record FunctionView := mkFunctionView {
  fv_index : option Z;
  fv_code : list BC.Bytecode;
  fv_parameters : list SignatureToken;
  fv_return_ : list SignatureToken;
  fv_locals : list SignatureToken;
  fv_type_parameters : list AbilitySet;
  fv_cfg : VMControlFlowGraph;
}.

Definition function_view (module_ : CompiledModule) (index : Z) (code : CodeUnit) (function_handle : FunctionHandle) :
    outcome FunctionView :=
  parameters ← at_index (signatures module_) (fh_parameters function_handle);
  return_ ← at_index (signatures module_) (fh_return_ function_handle);
  locals ← at_index (signatures module_) (cu_locals code);
  cfg ← Cfg.new (cu_code code);
  mret (mkFunctionView (Some index) (cu_code code) parameters return_ locals (fh_type_parameters function_handle) cfg).


(** * Basic blocks *)

(** What the binary format and its bounds checker guarantee: code fits into [u16] offsets and
    branches stay inside. *)
Record wf_code (code : list BC.Bytecode) : Prop := {
  wc_length : 0 < Z.of_nat (length code) < U16_MOD;
  wc_offset : ∀ i b o, code !! i = Some b → BC.offset b = Some o → 0 <= o < Z.of_nat (length code);
}.

(** The instruction at [pc], and where control may go from there. *)
Definition wf_codeb (code : list BC.Bytecode) : bool :=
  (0 <? Z.of_nat (length code)) && (Z.of_nat (length code) <? U16_MOD) &&
  forallb (λ b, match BC.offset b with Some o => (0 <=? o) && (o <? Z.of_nat (length code)) | None => true end) code.

Lemma wf_code_bool code : wf_codeb code = true → wf_code code.
Proof.
  unfold wf_codeb. rewrite !andb_true_iff, forallb_forall. intros [[?%Z.ltb_lt ?%Z.ltb_lt] Hall]. split; [done|].
  intros i b o Hi Ho. specialize (Hall b). rewrite Ho, andb_true_iff, Z.leb_le, Z.ltb_lt in Hall.
  by apply Hall, list_elem_of_In, (list_elem_of_lookup_2 _ i).
Qed.

Definition instr_at (code : list BC.Bytecode) (pc : Z) (b : BC.Bytecode) : Prop :=
  0 <= pc ∧ code !! Z.to_nat pc = Some b.
Lemma instr_at_Forall (P : BC.Bytecode → Prop) code : Forall P code → ∀ pc i, instr_at code pc i → P i.
Proof. intros HP pc i [_ Hi]. by eapply Forall_lookup_1. Qed.

Definition goes_to (code : list BC.Bytecode) (pc next : Z) : Prop :=
  ∃ b, instr_at code pc b ∧
    (BC.offset b = Some next ∨
     BC.is_unconditional_branch b = false ∧ next = pc + 1 ∧ pc + 1 < Z.of_nat (length code)).

Section code.
Variable code : list BC.Bytecode.
Hypothesis Hwf : wf_code code.

Abbreviation len := (Z.of_nat (length code)).

Lemma u16_small z : 0 <= z < U16_MOD → BC.u16 z = z.
Proof. apply Z.mod_small. Qed.

Lemma len_u16_eq : BC.len_u16 code = len.
Proof. apply u16_small. destruct (wc_length _ Hwf). lia. Qed.

Lemma next_u16 pc : 0 <= pc < len → BC.u16 (pc + 1) = pc + 1.
Proof. intros. apply u16_small. destruct (wc_length _ Hwf). lia. Qed.

Lemma instr_at_lt pc b : instr_at code pc b → 0 <= pc < len.
Proof. intros [? ?%lookup_lt_Some]. lia. Qed.

Lemma instr_at_ex pc : 0 <= pc < len → ∃ b, instr_at code pc b.
Proof. intros [? ?]. destruct (lookup_lt_is_Some_2 code (Z.to_nat pc)) as [b Hb]; [lia|]. by exists b. Qed.

Lemma instr_at_index pc b : instr_at code pc b → at_index code pc = Ret b.
Proof. intros [? Hb]. unfold at_index. destruct (Z.ltb_spec pc 0); [lia|]. by rewrite Hb. Qed.

Lemma instr_at_fun pc b b' : instr_at code pc b → instr_at code pc b' → b = b'.
Proof. intros [_ H1] [_ H2]. congruence. Qed.

Lemma code_offsets_eq : Cfg.code_offsets code = seqZ 0 len.
Proof.
  unfold Cfg.code_offsets. apply list_eq. intros i. rewrite list_lookup_fmap.
  destruct (seqZ 0 len !! i) as [z|] eqn:Hz; [|done]. apply lookup_seqZ in Hz as [-> Hlt]. cbn. f_equal.
  apply u16_small. destruct (wc_length _ Hwf). lia.
Qed.

Lemma goes_to_lt pc next : goes_to code pc next → 0 <= next < len.
Proof.
  intros (b & Hb & [Ho|(_ & -> & Hlt)]).
  - destruct Hb as [_ Hb]. by eapply (wc_offset _ Hwf).
  - apply instr_at_lt in Hb. lia.
Qed.

Lemma get_successors_ok pc :
  0 <= pc < len → ∃ v, BC.get_successors pc code = Ret v ∧ (∀ x, x ∈ v ↔ goes_to code pc x) ∧ (length v ≤ 2)%nat.
Proof.
  intros Hpc. destruct (instr_at_ex pc Hpc) as [b Hb]. destruct (wc_length _ Hwf).
  unfold BC.get_successors. rewrite (proj2 (Z.ltb_lt pc (U16_MOD - 1))) by lia. rewrite (proj2 (Z.ltb_lt pc len)) by lia.
  cbn [andb assert_ mbind outcome_bind]. rewrite (instr_at_index pc b Hb). cbn [mbind outcome_bind].
  rewrite len_u16_eq, next_u16 by done.
  assert (∀ x, goes_to code pc x ↔ BC.offset b = Some x ∨
    BC.is_unconditional_branch b = false ∧ x = pc + 1 ∧ pc + 1 < len) as Hgo.
  { intros x. split; [|by exists b]. intros (b' & Hb' & Hx). by rewrite (instr_at_fun _ _ _ Hb Hb'). }
  setoid_rewrite Hgo. set (v0 := match BC.offset b with Some offset => [offset] | None => [] end).
  assert (∀ x, x ∈ v0 ↔ BC.offset b = Some x) as Hv0.
  { intros x. subst v0. destruct (BC.offset b); [rewrite list_elem_of_singleton|rewrite elem_of_nil]; naive_solver. }
  assert (length v0 ≤ 1)%nat as Hl0 by (subst v0; destruct (BC.offset b); cbn; lia).
  destruct (Z.leb_spec len (pc + 1)) as [Hend|Hend].
  { exists v0. split_and!; [done| |lia]. intros x. rewrite Hv0. split; [by left|]. intros [?|(_ & _ & ?)]; [done|lia]. }
  set (v1 := if _ && _ then _ else _).
  assert (∀ x, x ∈ v1 ↔ x ∈ v0 ∨ BC.is_unconditional_branch b = false ∧ x = pc + 1) as Hv1.
  { intros x. subst v1. destruct (BC.is_unconditional_branch b); cbn [negb andb]; [naive_solver|].
    case_bool_decide as Hin; cbn [negb]; [naive_solver|]. rewrite elem_of_app, list_elem_of_singleton. naive_solver. }
  assert (length v1 ≤ 2)%nat as Hl1 by (subst v1; case_match; rewrite ?length_app; cbn; lia).
  assert (∀ x, x ∈ v1 ↔ BC.offset b = Some x ∨ BC.is_unconditional_branch b = false ∧ x = pc + 1 ∧ pc + 1 < len) as Hv.
  { intros x. rewrite Hv1, Hv0. naive_solver. }
  clearbody v1. clear Hv1. destruct v1 as [|x [|y [|]]]; eexists; (split; [reflexivity|]); [done|done| |cbn in Hl1; lia].
  case_match; [|done]. split; [|done]. intros z. rewrite <- Hv, !elem_of_cons. tauto.
Qed.

(** ** Where blocks start *)

(** The first instruction, the targets of branches, and what follows a branch. *)
Definition starts_block (pc : Z) : Prop :=
  0 <= pc < len ∧ (pc = 0 ∨ ∃ i b, instr_at code i b ∧ (BC.offset b = Some pc ∨ BC.is_branch b = true ∧ pc = i + 1)).

Lemma record_ids_ok ids n :
  (∀ x, x ∈ ids ↔ 0 <= x < len ∧ (x = 0 ∨ ∃ i b, i < n ∧ instr_at code i b ∧ (BC.offset b = Some x ∨ BC.is_branch b = true ∧ x = i + 1))) →
  0 <= n → n <= len →
  ∃ ids', foldM (Cfg.record_block_ids code) ids (seqZ n (len - n)) = Ret ids' ∧ ∀ x, x ∈ ids' ↔ starts_block x.
Proof.
  remember (Z.to_nat (len - n)) as k eqn:Hk. revert n ids Hk. induction k as [|k IH]; intros n ids Hk Hids Hn Hle.
  { assert (n = len) as -> by lia. rewrite Z.sub_diag. cbn. exists ids. split; [done|]. intros x. rewrite Hids.
    unfold starts_block. split; intros [? Hx]; (split; [done|]); destruct Hx as [?|(i & b & Hx)]; auto; right; exists i, b.
    - tauto.
    - destruct Hx as [Hi Hx]. pose proof (instr_at_lt _ _ Hi). split_and!; [lia|done|done]. }
  rewrite seqZ_cons by lia. cbn [foldM]. destruct (instr_at_ex n) as [b Hb]; [lia|].
  set (ids1 := match BC.offset b with Some offset => {[offset]} ∪ ids | None => ids end).
  assert (Cfg.record_block_ids code ids n = Ret (if BC.is_branch b && (n + 1 <? len) then {[n + 1]} ∪ ids1 else ids1)) as ->.
  { unfold Cfg.record_block_ids. rewrite (instr_at_index n b Hb). cbn [mbind outcome_bind].
    by rewrite len_u16_eq, next_u16 by lia. }
  cbn [mbind outcome_bind]. replace (Z.pred (len - n)) with (len - Z.succ n) by lia.
  apply IH; [lia| |lia|lia].
  intros x. assert (x ∈ ids1 ↔ x ∈ ids ∨ BC.offset b = Some x) as H1.
  { subst ids1. destruct (BC.offset b); [rewrite elem_of_union, elem_of_singleton|]; naive_solver. }
  assert (BC.offset b = Some x → 0 <= x < len) as Ho by (destruct Hb as [_ Hb]; by eapply (wc_offset _ Hwf)).
  assert (x ∈ (if BC.is_branch b && (n + 1 <? len) then {[n + 1]} ∪ ids1 else ids1) ↔
    x ∈ ids ∨ BC.offset b = Some x ∨ BC.is_branch b = true ∧ x = n + 1 ∧ n + 1 < len) as H2.
  { destruct (BC.is_branch b); cbn [andb]; [|naive_solver].
    destruct (Z.ltb_spec (n + 1) len); [rewrite elem_of_union, elem_of_singleton|]; naive_solver lia. }
  rewrite H2, Hids. clear H1 H2 ids1. split.
  - intros [[? [?|(i & b' & ? & ?)]]|[Hx|(? & -> & ?)]].
    + naive_solver.
    + split; [done|]. right. exists i, b'. naive_solver lia.
    + split; [by apply Ho|]. right. exists n, b. split_and!; [lia|done|]. by left.
    + split; [lia|]. right. exists n, b. split_and!; [lia|done|]. by right.
  - intros [? [->|(i & b' & Hi & Hb' & Hx)]]; [by left; auto|].
    destruct (decide (i = n)) as [->|Hne].
    + rewrite (instr_at_fun _ _ _ Hb' Hb) in Hx. right. destruct Hx as [?|[? ->]]; [by left|right; naive_solver lia].
    + left. split; [done|]. right. exists i, b'. naive_solver lia.
Qed.

Lemma record_ids_all :
  ∃ ids, foldM (Cfg.record_block_ids code) {[ ENTRY_BLOCK_ID ]} (Cfg.code_offsets code) = Ret ids ∧
    ∀ x, x ∈ ids ↔ starts_block x.
Proof.
  rewrite code_offsets_eq. destruct (wc_length _ Hwf).
  pose proof (record_ids_ok {[ ENTRY_BLOCK_ID ]} 0) as Hr. rewrite Z.sub_0_r in Hr. apply Hr; [|lia..]. intros x. rewrite elem_of_singleton. unfold ENTRY_BLOCK_ID. split; [naive_solver lia|].
  intros [_ [->|(i & b & Hi & Hb & _)]]; [done|]. apply instr_at_lt in Hb. lia.
Qed.

(** ** The blocks *)

Record block_ok (b : Z) (bb : BasicBlock) : Prop := {
  bo_start : starts_block b;
  bo_exit : b <= exit bb < len;
  bo_succ : ∀ x, x ∈ successors bb ↔ goes_to code (exit bb) x;
  bo_few : (length (successors bb) ≤ 2)%nat;
  bo_inside : ∀ x, b < x <= exit bb → ¬ starts_block x;
  bo_end : exit bb + 1 = len ∨ starts_block (exit bb + 1);
}.

(** The blocks of the first [n] instructions; the next one starts at [entry]. *)
Record created (bs : gmap Z BasicBlock) (entry n : Z) : Prop := {
  cr_entry : 0 <= entry <= n ∧ (entry < len → starts_block entry) ∧ (n = len → entry = n);
  cr_open : ∀ x, entry < x <= n → x < len → ¬ starts_block x;
  cr_blocks : ∀ b bb, bs !! b = Some bb → block_ok b bb ∧ exit bb < entry;
  cr_starts : ∀ x, starts_block x → x < entry → is_Some (bs !! x);
  cr_cover : ∀ pc, 0 <= pc < entry → ∃ b bb, bs !! b = Some bb ∧ b <= pc <= exit bb;
  cr_size : (size bs ≤ Z.to_nat entry)%nat;
}.

Lemma end_of_block ids pc :
  (∀ x, x ∈ ids ↔ starts_block x) → 0 <= pc < len →
  Cfg.is_end_of_block pc code ids = true ↔ pc + 1 = len ∨ starts_block (pc + 1).
Proof.
  intros Hids Hpc. unfold Cfg.is_end_of_block. rewrite len_u16_eq, next_u16 by done.
  rewrite orb_true_iff, Z.eqb_eq, bool_decide_eq_true, Hids. done.
Qed.

Lemma create_one ids bs entry n :
  (∀ x, x ∈ ids ↔ starts_block x) → created bs entry n → 0 <= n < len →
  ∃ bs' entry', Cfg.create_block code ids (bs, entry) n = Ret (bs', entry') ∧ created bs' entry' (n + 1).
Proof.
  intros Hids Hcr Hn. destruct (cr_entry _ _ _ Hcr) as ([Hen1 Hen2] & Hstart & _).
  pose proof (end_of_block ids n Hids Hn) as Hend. unfold Cfg.create_block.
  destruct (Cfg.is_end_of_block n code ids).
  2: { exists bs, entry. split; [done|]. assert (n + 1 ≠ len ∧ ¬ starts_block (n + 1)) as [H1 H2] by naive_solver.
       destruct Hcr as [_ Hopen Hb Hs Hc Hz]. split; try done; [split_and!; (lia || done)|].
       intros x Hx Hlt. destruct (decide (x = n + 1)) as [->|]; [done|]. apply Hopen; lia. }
  destruct (get_successors_ok n Hn) as (v & -> & Hv & Hl). cbn [mbind outcome_bind fst snd]. rewrite next_u16 by done.
  eexists _, _. split; [reflexivity|].
  assert (block_ok entry (mkBlock n v)) as Hbk.
  { split; cbn; [apply Hstart; lia|lia|done|done| |by apply Hend]. intros x Hx. apply (cr_open _ _ _ Hcr); lia. }
  assert (∀ x, starts_block x → x < n + 1 → x ≠ entry → x < entry) as Hlow.
  { intros x Hx Hlt Hne. destruct (Z.lt_trichotomy x entry) as [?|[?|Hgt]]; [done..|].
    destruct (cr_open _ _ _ Hcr x) as []; [lia| |done]. destruct Hx. lia. }
  split.
  - split_and!; [lia..| |done]. intros Hlt. destruct (proj1 Hend eq_refl); [lia|done].
  - intros x ?. lia.
  - intros b bb. rewrite lookup_insert_Some. intros [[<- <-]|[Hne Hb]]; [split; [done|cbn; lia]|].
    destruct (cr_blocks _ _ _ Hcr b bb Hb). split; [done|lia].
  - intros x Hx Hlt. destruct (decide (x = entry)) as [->|Hne]; [by rewrite lookup_insert_eq; eexists|].
    rewrite lookup_insert_ne by done. apply (cr_starts _ _ _ Hcr); auto.
  - intros pc Hpc. destruct (Z.lt_ge_cases pc entry) as [Hlt|Hge].
    + destruct (cr_cover _ _ _ Hcr pc) as (b & bb & Hb & Hin); [lia|]. exists b, bb. split; [|done].
      rewrite lookup_insert_ne; [done|]. lia.
    + exists entry, (mkBlock n v). rewrite lookup_insert_eq. split; [done|cbn; lia].
  - rewrite map_size_insert. pose proof (cr_size _ _ _ Hcr). destruct (bs !! entry); cbn; lia.
Qed.

Lemma create_blocks_ok ids bs entry n :
  (∀ x, x ∈ ids ↔ starts_block x) → created bs entry n → 0 <= n → n <= len →
  ∃ bs', foldM (Cfg.create_block code ids) (bs, entry) (seqZ n (len - n)) = Ret (bs', len) ∧ created bs' len len.
Proof.
  intros Hids. remember (Z.to_nat (len - n)) as k eqn:Hk. revert n bs entry Hk.
  induction k as [|k IH]; intros n bs entry Hk Hcr Hn Hle.
  { assert (n = len) as -> by lia. rewrite Z.sub_diag. cbn.
    destruct (cr_entry _ _ _ Hcr) as (_ & _ & He). rewrite (He eq_refl) in Hcr |- *. by exists bs. }
  rewrite seqZ_cons by lia. cbn [foldM]. destruct (create_one ids bs entry n Hids Hcr) as (bs' & entry' & -> & Hcr'); [lia|].
  cbn [mbind outcome_bind]. replace (Z.pred (len - n)) with (len - Z.succ n) by lia. apply IH; [lia|done|lia|lia].
Qed.

(** The basic blocks of the code. *)
Record blocks_ok (bs : gmap Z BasicBlock) : Prop := {
  bk_block : ∀ b bb, bs !! b = Some bb → block_ok b bb;
  bk_starts : ∀ x, starts_block x → is_Some (bs !! x);
  bk_cover : ∀ pc, 0 <= pc < len → ∃ b bb, bs !! b = Some bb ∧ b <= pc <= exit bb;
  bk_size : (size bs ≤ length code)%nat;
}.

Lemma create_blocks_all ids :
  (∀ x, x ∈ ids ↔ starts_block x) →
  ∃ bs, foldM (Cfg.create_block code ids) (∅, 0) (Cfg.code_offsets code) = Ret (bs, len) ∧ blocks_ok bs.
Proof.
  intros Hids. rewrite code_offsets_eq. destruct (wc_length _ Hwf).
  pose proof (create_blocks_ok ids ∅ 0 0 Hids) as Hc. rewrite Z.sub_0_r in Hc.
  destruct Hc as (bs & Heq & Hcr); [|lia..|].
  { split; [|intros; lia|by intros ?? Hb; rewrite lookup_empty in Hb|intros x [? _] ?; lia|intros; lia|by rewrite map_size_empty].
    split_and!; [lia..| |intros ?; lia]. intros. split; [lia|by left]. }
  exists bs. split; [done|]. split.
  - intros b bb Hb. by destruct (cr_blocks _ _ _ Hcr b bb Hb).
  - intros x Hx. apply (cr_starts _ _ _ Hcr x Hx). destruct Hx. lia.
  - apply (cr_cover _ _ _ Hcr).
  - pose proof (cr_size _ _ _ Hcr). lia.
Qed.

(** Inside of a block control goes to the next instruction. *)
Lemma inside_goes_to b bb pc x : block_ok b bb → b <= pc < exit bb → goes_to code pc x ↔ x = pc + 1.
Proof.
  intros Hb Hpc. pose proof (bo_exit _ _ Hb). pose proof (bo_start _ _ Hb) as [Hb0 _].
  assert (¬ starts_block (pc + 1)) as Hn by (apply (bo_inside _ _ Hb); lia).
  destruct (instr_at_ex pc) as [i Hi]; [lia|]. split.
  - intros Hgo. pose proof (goes_to_lt pc x Hgo) as Hx. destruct Hgo as (i' & Hi' & [Ho|(_ & -> & _)]); [|done].
    rewrite (instr_at_fun _ _ _ Hi' Hi) in Ho. destruct Hn. split; [lia|]. right. exists pc, i. split; [done|]. right.
    split; [|done]. by destruct i.
  - intros ->. exists i. split; [done|]. right. split_and!; [|done|lia].
    destruct (BC.is_unconditional_branch i) eqn:Hu; [|done]. destruct Hn. split; [lia|]. right. exists pc, i.
    split; [done|]. right. split; [|done]. unfold BC.is_branch. by rewrite Hu, orb_true_r.
Qed.

(** Control leaves a block only to the start of a block. *)
Lemma exit_starts b bb x : block_ok b bb → goes_to code (exit bb) x → starts_block x.
Proof.
  intros Hb Hgo. pose proof (goes_to_lt _ _ Hgo) as Hx. split; [done|]. right.
  destruct Hgo as (i & Hi & [Ho|(Hu & -> & Hlt)]); [by exists (exit bb), i; auto|].
  destruct (bo_end _ _ Hb) as [?|[_ [?|?]]]; [lia| |done]. pose proof (instr_at_lt _ _ Hi). lia.
Qed.
End code.

(** * The depth-first search *)

Section search.
Variable bs : gmap Z BasicBlock.

Definition edge (u v : Z) : Prop := ∃ bb, bs !! u = Some bb ∧ v ∈ ControlFlowGraph.successors bb.
Definition back (h : gmap Z (gset Z)) (u v : Z) : Prop := ∃ s, h !! v = Some s ∧ u ∈ s.

(** Why a block is on the stack, or on the path [P] of the blocks in progress. *)
Definition has_parent (P : list Z) (x : Z) : Prop := x = ENTRY_BLOCK_ID ∨ ∃ u, u ∈ P ∧ edge u x.

Section invariant.
Variables (h : gmap Z (gset Z)) (T : list Z).

(** The block [x] is in progress, above [P]: its successors are known, done or still on the stack. *)
Record marker_ok (above : list Z) (x : Z) (P : list Z) : Prop := {
  mk_edges : ∀ v, edge x v → back h x v ∨ v ∈ T ∨ v ∈ above;
  mk_back : ∀ v, back h x v → v = x ∨ v ∈ P;
  mk_parent : has_parent P x;
}.

(** An entry of the stack is one to be explored, or the marker of a block in progress. *)
Fixpoint stack_ok (above stk P : list Z) : Prop :=
  match stk with
  | [] => P = []
  | x :: stk =>
      ((x ∉ P) ∧ has_parent P x ∧ stack_ok (x :: above) stk P) ∨
      (∃ P', P = x :: P' ∧ marker_ok above x P' ∧ stack_ok (x :: above) stk P')
  end.

Record done_ok (l1 : list Z) (d : Z) (l2 P : list Z) : Prop := {
  dn_edges : ∀ v, edge d v → back h d v ∨ v ∈ l2;
  dn_back : ∀ v, back h d v → v = d ∨ v ∈ l1 ∨ v ∈ P;
  dn_parent : has_parent (l1 ++ P) d;
}.
End invariant.

Record search_ok (s : Search) (P : list Z) : Prop := {
  so_progress : ∀ b, exploration s !! b = Some InProgress ↔ b ∈ P;
  so_done : ∀ b, exploration s !! b = Some Done ↔ b ∈ post_order s;
  so_nodup : NoDup P ∧ NoDup (post_order s);
  so_stack : stack_ok (heads s) (post_order s) [] (stack s) P;
  so_order : ∀ l1 d l2, post_order s = l1 ++ d :: l2 → done_ok (heads s) l1 d l2 P;
  so_back : ∀ u v, back (heads s) u v → edge u v ∧ is_Some (exploration s !! u);
  so_entry : ENTRY_BLOCK_ID ∈ stack s ∨ is_Some (exploration s !! ENTRY_BLOCK_ID);
  so_blocks : (∀ x, x ∈ stack s → is_Some (bs !! x)) ∧ (∀ x, is_Some (exploration s !! x) → is_Some (bs !! x));
}.

Lemma has_parent_mono P P' x : (∀ u, u ∈ P → u ∈ P') → has_parent P x → has_parent P' x.
Proof. intros HP [?|(u & Hu & He)]; [by left|right; exists u; auto]. Qed.

Lemma marker_mono h h' T T' above above' x P :
  (∀ v, back h x v ↔ back h' x v) → (∀ v, v ∈ T → v ∈ T') → (∀ v, v ∈ above → v ∈ above' ∨ v ∈ T') →
  marker_ok h T above x P → marker_ok h' T' above' x P.
Proof.
  intros Hh HT Ha [He Hb Hp]. split; [|by intros v Hv%Hh; auto|done].
  intros v [?%Hh|[?|?%Ha]]%He; [by left|right; left; auto|tauto].
Qed.

Lemma marker_stack_mono h h' T T' above above' stk P :
  (∀ u v, u ∈ P → back h u v ↔ back h' u v) → (∀ v, v ∈ T → v ∈ T') → (∀ v, v ∈ above → v ∈ above' ∨ v ∈ T') →
  stack_ok h T above stk P → stack_ok h' T' above' stk P.
Proof.
  intros Hh HT. revert above above' P Hh. induction stk as [|x stk IH]; intros above above' P Hh Ha; cbn; [done|].
  assert (∀ v, v ∈ x :: above → v ∈ x :: above' ∨ v ∈ T') as Ha'.
  { intros v. rewrite !elem_of_cons. intros [?|?%Ha]; tauto. }
  intros [(Hx & Hp & Hs)|(P' & -> & Hm & Hs)]; [left|right].
  - split_and!; [done..|]. by eapply IH.
  - exists P'. split_and!; [done| |].
    + eapply marker_mono; [| | |exact Hm]; [|done|done]. intros v. apply Hh. left.
    + eapply IH; [|done|done]. intros u v Hu. apply Hh. by right.
Qed.

Lemma done_ok_mono h h' l1 l1' d l2 P P' :
  (∀ v, back h d v ↔ back h' d v) → (∀ v, v ∈ l1 ∨ v ∈ P → v ∈ l1' ∨ v ∈ P') →
  done_ok h l1 d l2 P → done_ok h' l1' d l2 P'.
Proof.
  intros Hh Hl [He Hb Hp]. split.
  - intros v [?%Hh|?]%He; tauto.
  - intros v [?|?%Hl]%Hh%Hb; tauto.
  - eapply has_parent_mono; [|exact Hp]. intros u. rewrite !elem_of_app. apply Hl.
Qed.

(** ** Visiting the successors of a block *)

Lemma back_insert h v block u w :
  back (<[v := {[ block ]} ∪ default ∅ (h !! v)]> h) u w ↔ back h u w ∨ u = block ∧ w = v.
Proof.
  unfold back. destruct (decide (v = w)) as [->|Hne].
  - setoid_rewrite lookup_insert_eq. split.
    + intros (s & [= <-] & Hu). rewrite elem_of_union, elem_of_singleton in Hu. destruct Hu as [->|Hu]; [by right|left].
      destruct (h !! w) as [s|]; [by exists s|]. by apply elem_of_empty in Hu.
    + intros [(s & Hs & Hu)|[-> _]]; (eexists; split; [reflexivity|]); [rewrite Hs; cbn|]; set_solver.
  - setoid_rewrite lookup_insert_ne; [|done]. naive_solver.
Qed.

Lemma visit_successors_ok expl block succs stk h :
  ∃ stk' h', foldl (Cfg.visit_successor expl block) (stk, h) succs = (stk' ++ stk, h') ∧
    (∀ x, x ∈ stk' ↔ x ∈ succs ∧ expl !! x = None) ∧ (length stk' ≤ length succs)%nat ∧
    ∀ u v, back h' u v ↔ back h u v ∨ u = block ∧ v ∈ succs ∧ expl !! v = Some InProgress.
Proof.
  revert stk h. induction succs as [|y succs IH]; intros stk h; cbn [foldl].
  { exists [], h. split_and!; [done|..|done|]; intros; rewrite !elem_of_nil; tauto. }
  unfold Cfg.visit_successor at 2. cbn [fst snd]. destruct (expl !! y) as [[]|] eqn:Hy.
  - destruct (IH stk (<[y := {[ block ]} ∪ default ∅ (h !! y)]> h)) as (stk' & h' & -> & Hs & Hl & Hb).
    exists stk', h'. split_and!; [done| |cbn; lia|].
    + intros x. rewrite Hs, elem_of_cons. naive_solver.
    + intros u v. rewrite Hb, back_insert, elem_of_cons. naive_solver.
  - destruct (IH stk h) as (stk' & h' & -> & Hs & Hl & Hb). exists stk', h'. split_and!; [done| |cbn; lia|].
    + intros x. rewrite Hs, elem_of_cons. naive_solver.
    + intros u v. rewrite Hb, elem_of_cons. naive_solver.
  - destruct (IH (y :: stk) h) as (stk' & h' & -> & Hs & Hl & Hb). exists (stk' ++ [y]), h'. split_and!.
    + by rewrite <- app_assoc.
    + intros x. rewrite elem_of_app, Hs, list_elem_of_singleton, elem_of_cons. naive_solver.
    + rewrite length_app. cbn. lia.
    + intros u v. rewrite Hb, elem_of_cons. naive_solver.
Qed.

(** ** The turns of the search *)

Lemma pushed_ok h T stk' above stk P :
  (∀ x, x ∈ stk' → (x ∉ P) ∧ has_parent P x) →
  (∀ ab, (∀ x, x ∈ stk' ∨ x ∈ above → x ∈ ab) → stack_ok h T ab stk P) → stack_ok h T above (stk' ++ stk) P.
Proof.
  revert above. induction stk' as [|x stk' IH]; intros above Hp Hs; cbn.
  - apply Hs. intros x [?%elem_of_nil|?]; done.
  - left. destruct (Hp x ltac:(left)). split_and!; [done..|]. apply IH; [intros y Hy; apply Hp; by right|].
    intros ab Hab. apply Hs. intros y. rewrite elem_of_cons. intros [[->|?]|?]; apply Hab; rewrite elem_of_cons; tauto.
Qed.

Hypothesis bs_closed : ∀ u v, edge u v → is_Some (bs !! v).

Lemma visit_ok s P x rest :
  search_ok s P → stack s = x :: rest → exploration s !! x = None →
  ∃ s' bb, Cfg.explore_block bs s x rest = Ret s' ∧ search_ok s' (x :: P) ∧ bs !! x = Some bb ∧
    exploration s' = <[x := InProgress]> (exploration s) ∧
    (length (stack s') ≤ S (length rest) + length (ControlFlowGraph.successors bb))%nat.
Proof.
  intros Hs Hst Hx. unfold Cfg.explore_block. rewrite Hx.
  destruct (proj1 (so_blocks _ _ Hs) x) as [bb Hbb]; [rewrite Hst; left|]. rewrite Hbb. cbn [unwrap mbind outcome_bind].
  set (expl := <[x := InProgress]> (exploration s)).
  destruct (visit_successors_ok expl x (ControlFlowGraph.successors bb) (x :: rest) (heads s)) as (stk' & h' & -> & Hstk & Hlen & Hh).
  eexists _, bb. split; [reflexivity|]. split; [|split_and!; [done..|cbn; rewrite length_app; cbn; lia]].
  assert (x ∉ P) as HxP by (rewrite <- (so_progress _ _ Hs), Hx; done).
  assert (x ∉ post_order s) as HxT by (rewrite <- (so_done _ _ Hs), Hx; done).
  assert (∀ v, edge x v ↔ v ∈ ControlFlowGraph.successors bb) as Hedge.
  { intros v. unfold edge. rewrite Hbb. naive_solver. }
  assert (∀ b, expl !! b = Some InProgress ↔ b ∈ x :: P) as Hprog.
  { intros b. subst expl. rewrite elem_of_cons. destruct (decide (b = x)) as [->|Hne]; [rewrite lookup_insert_eq; tauto|].
    rewrite lookup_insert_ne, (so_progress _ _ Hs) by done. tauto. }
  assert (∀ b, expl !! b = Some Done ↔ b ∈ post_order s) as Hdone.
  { intros b. subst expl. destruct (decide (b = x)) as [->|Hne]; [rewrite lookup_insert_eq; naive_solver|].
    by rewrite lookup_insert_ne, (so_done _ _ Hs) by done. }
  assert (∀ v, ¬ back (heads s) x v) as Hnob.
  { intros v [_ [? Hv]]%(so_back _ _ Hs). by rewrite Hx in Hv. }
  assert (∀ u v, u ≠ x → back (heads s) u v ↔ back h' u v) as Hold by (intros u v Hu; rewrite Hh; tauto).
  assert (has_parent P x ∧ stack_ok (heads s) (post_order s) [x] rest P) as [Hpar Hrest].
  { pose proof (so_stack _ _ Hs) as Hso. rewrite Hst in Hso. cbn in Hso.
    destruct Hso as [(_ & ? & ?)|(P' & -> & _)]; [done|]. by destruct HxP; left. }
  destruct (so_nodup _ _ Hs) as [HnP HnT]. split; cbn [exploration stack heads post_order].
  - done.
  - done.
  - split; [by constructor|done].
  - apply pushed_ok.
    { intros y [Hy Hny]%Hstk. split; [by rewrite <- Hprog, Hny|]. right. exists x. split; [left|by apply Hedge]. }
    intros ab Hab. cbn. right. exists P. split_and!; [done| |].
    + split; [|intros v; rewrite Hh; intros [?%Hnob|(_ & _ & Hv)]; [done|]|done].
      * intros v Hv%Hedge. destruct (expl !! v) as [[]|] eqn:He.
        -- left. apply Hh. by right.
        -- right. left. by apply Hdone.
        -- right. right. apply Hab. left. by apply Hstk.
      * apply Hprog in Hv. by apply elem_of_cons in Hv.
    + eapply marker_stack_mono; [| | |exact Hrest]; [|done|].
      * intros u v Hu. apply Hold. by intros ->.
      * intros v ->%list_elem_of_singleton. left. left.
  - intros l1 d l2 Heq. eapply done_ok_mono; [| |by apply (so_order _ _ Hs)].
    + intros v. apply Hold. intros ->. apply HxT. rewrite Heq, elem_of_app, elem_of_cons. tauto.
    + intros v. rewrite elem_of_cons. tauto.
  - intros u v [Hb|(-> & Hv & _)]%Hh.
    + destruct (so_back _ _ Hs u v Hb) as [? Hu]. split; [done|]. subst expl.
      destruct (decide (u = x)) as [->|]; [rewrite lookup_insert_eq; by eexists|by rewrite lookup_insert_ne].
    + split; [by apply Hedge|]. subst expl. rewrite lookup_insert_eq. by eexists.
  - destruct (decide (ENTRY_BLOCK_ID = x)) as [<-|Hne]; [right; subst expl; rewrite lookup_insert_eq; by eexists|].
    subst expl. rewrite lookup_insert_ne by done.
    destruct (so_entry _ _ Hs) as [He|?]; [left|by right]. rewrite Hst in He. rewrite elem_of_app. by right.
  - split.
    + intros y. rewrite elem_of_app. intros [[Hy _]%Hstk|Hy]; [by eapply bs_closed, Hedge|].
      apply (proj1 (so_blocks _ _ Hs)). by rewrite Hst.
    + intros y. subst expl. destruct (decide (y = x)) as [->|]; [by rewrite Hbb; eexists|].
      rewrite lookup_insert_ne by done. apply (so_blocks _ _ Hs).
Qed.

Lemma skip_ok s P x rest :
  search_ok s P → stack s = x :: rest → exploration s !! x = Some Done →
  search_ok (mkSearch (exploration s) rest (heads s) (post_order s)) P.
Proof.
  intros Hs Hst Hx. assert (x ∈ post_order s) as HxT by by apply (so_done _ _ Hs).
  assert (x ∉ P) as HxP by (rewrite <- (so_progress _ _ Hs), Hx; done).
  pose proof (so_stack _ _ Hs) as Hso. rewrite Hst in Hso. cbn in Hso.
  destruct Hso as [(_ & _ & Hrest)|(P' & -> & _)]; [|by destruct HxP; left].
  split; cbn [exploration stack heads post_order]; try apply Hs.
  - eapply marker_stack_mono; [| | |exact Hrest]; [done..|]. intros v ->%list_elem_of_singleton. by right.
  - destruct (so_entry _ _ Hs) as [He|?]; [|by right]. rewrite Hst, elem_of_cons in He.
    destruct He as [->|?]; [right; rewrite Hx; by eexists|by left].
  - split; [|apply Hs]. intros y Hy. apply (proj1 (so_blocks _ _ Hs)). rewrite Hst. by right.
Qed.

Lemma finish_block_ok s P x rest :
  search_ok s P → stack s = x :: rest → exploration s !! x = Some InProgress →
  ∃ P', P = x :: P' ∧
    search_ok (mkSearch (<[x := Done]> (exploration s)) rest (heads s) (x :: post_order s)) P'.
Proof.
  intros Hs Hst Hx. assert (x ∈ P) as HxP by by apply (so_progress _ _ Hs).
  pose proof (so_stack _ _ Hs) as Hso. rewrite Hst in Hso. cbn in Hso.
  destruct Hso as [(? & _)|(P' & -> & Hm & Hrest)]; [done|]. exists P'. split; [done|].
  destruct (so_nodup _ _ Hs) as [[HnP HnP']%NoDup_cons HnT].
  assert (x ∉ post_order s) as HxT by (rewrite <- (so_done _ _ Hs), Hx; done).
  split; cbn [exploration stack heads post_order].
  - intros b. destruct (decide (b = x)) as [->|Hne]; [rewrite lookup_insert_eq; naive_solver|].
    rewrite lookup_insert_ne, (so_progress _ _ Hs), elem_of_cons by done. tauto.
  - intros b. rewrite elem_of_cons. destruct (decide (b = x)) as [->|Hne]; [rewrite lookup_insert_eq; tauto|].
    rewrite lookup_insert_ne, (so_done _ _ Hs) by done. tauto.
  - split; [done|by constructor].
  - eapply marker_stack_mono; [| | |exact Hrest]; [done|by right|]. intros v ->%list_elem_of_singleton. right. left.
  - intros [|y l1] d l2; cbn; intros [= <- Heq].
    + subst l2. destruct Hm as [He Hb Hp]. split; [|intros v ?%Hb; tauto|done].
      intros v [?|[?|?%elem_of_nil]]%He; [by left|by right|done].
    + eapply done_ok_mono; [| |by apply (so_order _ _ Hs)]; [done|]. intros v. rewrite !elem_of_cons. tauto.
  - intros u v Hb. destruct (so_back _ _ Hs u v Hb) as [? Hu]. split; [done|].
    destruct (decide (u = x)) as [->|]; [rewrite lookup_insert_eq; by eexists|by rewrite lookup_insert_ne].
  - destruct (decide (ENTRY_BLOCK_ID = x)) as [<-|Hne]; [right; rewrite lookup_insert_eq; by eexists|].
    rewrite lookup_insert_ne by done. destruct (so_entry _ _ Hs) as [He|?]; [left|by right].
    rewrite Hst, elem_of_cons in He. by destruct He.
  - destruct (so_blocks _ _ Hs) as [H1 H2]. split; [intros y Hy; apply H1; rewrite Hst; by right|].
    intros y. destruct (decide (y = x)) as [->|]; [intros _; apply H1; rewrite Hst; left|rewrite lookup_insert_ne by done; apply H2].
Qed.

(** ** The search ends *)

Definition cost (b : Z) : Z := match bs !! b with Some bb => 1 + Z.of_nat (length (ControlFlowGraph.successors bb)) | None => 0 end.

(** Turns left: what is on the stack, and what the blocks not seen yet can push. *)
Definition turns (s : Search) : Z := Z.of_nat (length (stack s)) + wset cost (dom bs ∖ dom (exploration s)).

Lemma cost_nonneg b : 0 <= cost b.
Proof. unfold cost. destruct (bs !! b); lia. Qed.

Lemma cost_rest {E} (m : gmap Z E) x bb e :
  m !! x = None → bs !! x = Some bb →
  wset cost (dom bs ∖ dom m) = 1 + Z.of_nat (length (ControlFlowGraph.successors bb)) + wset cost (dom bs ∖ dom (<[x := e]> m)).
Proof using Type.
  clear bs_closed.
  intros Hx Hbb. rewrite dom_insert_L.
  assert (dom bs ∖ dom m = {[ x ]} ∪ dom bs ∖ ({[ x ]} ∪ dom m)) as ->.
  { apply set_eq. intros y. rewrite elem_of_union, !elem_of_difference, elem_of_union, !elem_of_singleton.
    destruct (decide (y = x)) as [->|]; [|naive_solver]. rewrite !elem_of_dom, Hx, Hbb. split; [by left|]. intros _.
    split; [by eexists|by intros []]. }
  rewrite wset_insert by set_solver. unfold cost at 1. by rewrite Hbb.
Qed.

Lemma turns_visit s s' x bb n :
  exploration s !! x = None → bs !! x = Some bb → exploration s' = <[x := InProgress]> (exploration s) →
  Z.of_nat (length (stack s')) <= n + Z.of_nat (length (ControlFlowGraph.successors bb)) →
  turns s' <= n - 1 + wset cost (dom bs ∖ dom (exploration s)).
Proof.
  intros Hx Hbb He Hlen. unfold turns. rewrite He, (cost_rest (exploration s) x bb InProgress Hx Hbb). lia.
Qed.

Lemma explore_ok fuel s P :
  search_ok s P → turns s <= Z.of_nat fuel →
  ∃ s', Cfg.explore fuel bs s = Ret s' ∧ search_ok s' [] ∧ ENTRY_BLOCK_ID ∈ post_order s'.
Proof.
  revert s P. induction fuel as [|fuel IH]; intros s P Hs Ht; cbn [Cfg.explore]; destruct (stack s) as [|x rest] eqn:Hst.
  1, 3: exists s; pose proof (so_stack _ _ Hs) as Hso; rewrite Hst in Hso; cbn in Hso; subst P; split_and!; [done..|];
    destruct (so_entry _ _ Hs) as [He|[e He]]; [rewrite Hst in He; by apply elem_of_nil in He|]; destruct e;
    [by apply (so_progress _ _ Hs), elem_of_nil in He|by apply (so_done _ _ Hs)].
  { pose proof (wset_nonneg cost cost_nonneg (dom bs ∖ dom (exploration s))). unfold turns in Ht. rewrite Hst in Ht. cbn in Ht. lia. }
  unfold turns in Ht. rewrite Hst in Ht. cbn [length] in Ht. destruct (exploration s !! x) as [[]|] eqn:Hx.
  - unfold Cfg.explore_block. rewrite Hx. cbn [mbind outcome_bind mret outcome_ret].
    destruct (finish_block_ok s P x rest Hs Hst Hx) as (P' & -> & Hs'). apply (IH _ P' Hs'). unfold turns. cbn.
    rewrite dom_insert_lookup_L by (rewrite Hx; by eexists). lia.
  - unfold Cfg.explore_block. rewrite Hx. cbn [mbind outcome_bind mret outcome_ret].
    apply (IH _ P (skip_ok s P x rest Hs Hst Hx)). unfold turns. cbn. lia.
  - destruct (visit_ok s P x rest Hs Hst Hx) as (s' & bb & -> & Hs' & Hbb & He & Hlen). cbn [mbind outcome_bind].
    apply (IH s' (x :: P) Hs').
    pose proof (turns_visit s s' x bb (Z.of_nat (S (length rest))) Hx Hbb He ltac:(lia)). lia.
Qed.

Lemma search_start_ok : is_Some (bs !! ENTRY_BLOCK_ID) → search_ok (mkSearch ∅ [ENTRY_BLOCK_ID] ∅ []) [].
Proof.
  intros He. split; cbn [exploration stack heads post_order].
  - intros b. rewrite lookup_empty, elem_of_nil. naive_solver.
  - intros b. rewrite lookup_empty, elem_of_nil. naive_solver.
  - by split; constructor.
  - cbn. left. split_and!; [apply not_elem_of_nil|by left|done].
  - by intros [] ??.
  - intros u v (? & Hv & _). by rewrite lookup_empty in Hv.
  - left. left.
  - split; [by intros x ->%list_elem_of_singleton|]. intros x [? Hx]. by rewrite lookup_empty in Hx.
Qed.
End search.

(** * The order of traversal *)

Lemma windows_lookup l1 d l2 : NoDup (l1 ++ d :: l2) → Cfg.windows (l1 ++ d :: l2) !! d = head l2.
Proof.
  assert (∀ l : list Z, (zip l (tail l)).*1 `sublist_of` l) as Hsub.
  { induction l as [|x [|y l] IH]; cbn; [apply sublist_nil_l..|]. by constructor. }
  intros Hnd. unfold Cfg.windows. rewrite collect_list_to_map by (eapply sublist_NoDup; [exact Hnd|apply Hsub]).
  induction l1 as [|x l1 IH]; cbn.
  - destruct l2 as [|y l2]; cbn; [by rewrite lookup_empty|by rewrite lookup_insert_eq].
  - cbn in Hnd. apply NoDup_cons in Hnd as [Hx Hnd]. assert (x ≠ d) by (intros ->; apply Hx; rewrite elem_of_app, elem_of_cons; tauto).
    destruct (l1 ++ d :: l2) as [|y l] eqn:Hl; [by destruct l1|]. cbn. rewrite lookup_insert_ne by done. by apply IH.
Qed.

(** The blocks in the order of traversal: a block comes after one that leads to it, edges go
    forward unless they are back edges, and back edges do not. *)
Record order_ok (g : VMControlFlowGraph) (order : list Z) : Prop := {
  oo_nodup : NoDup order;
  oo_entry : head order = Some ENTRY_BLOCK_ID;
  oo_block : ∀ b, b ∈ order → is_Some (blocks g !! b);
  oo_back : ∀ l1 u l2 v, order = l1 ++ u :: l2 → edge (blocks g) u v →
    if Cfg.is_back_edge g u v then v ∈ l1 ++ [u] else v ∈ l2;
  oo_parent : ∀ l1 v l2, order = l1 ++ v :: l2 → v = ENTRY_BLOCK_ID ∨ ∃ u, u ∈ l1 ∧ edge (blocks g) u v;
  oo_next : ∀ l1 u l2, order = l1 ++ u :: l2 → Cfg.next_block g u = head l2;
}.

Lemma is_back_edge_spec g u v : Cfg.is_back_edge g u v = true ↔ back (loop_heads g) u v.
Proof.
  unfold Cfg.is_back_edge, back. destruct (loop_heads g !! v) as [s|]; [rewrite bool_decide_eq_true|]; naive_solver.
Qed.

Lemma search_order bs s :
  search_ok bs s [] → ENTRY_BLOCK_ID ∈ post_order s →
  order_ok (mkCfg bs (Cfg.windows (post_order s)) (heads s)) (post_order s).
Proof.
  intros Hs He. destruct (so_nodup _ _ _ Hs) as [_ Hnd]. split; cbn [blocks].
  - done.
  - destruct (post_order s) as [|d l2] eqn:Hp; [by apply elem_of_nil in He|]. cbn.
    destruct (dn_parent _ _ _ _ _ _ (so_order _ _ _ Hs [] d l2 Hp)) as [->|(u & Hu & _)]; [done|]. by apply elem_of_nil in Hu.
  - intros b Hb%(so_done _ _ _ Hs). apply (so_blocks _ _ _ Hs). by rewrite Hb.
  - intros l1 u l2 v Heq Huv. destruct (so_order _ _ _ Hs l1 u l2 Heq) as [Hed Hbk _].
    destruct (Cfg.is_back_edge _ u v) eqn:Hb.
    + apply is_back_edge_spec in Hb. rewrite elem_of_app, list_elem_of_singleton.
      destruct (Hbk v Hb) as [?|[?|?%elem_of_nil]]; tauto.
    + destruct (Hed v Huv) as [Hbv|?]; [|done]. apply (is_back_edge_spec (mkCfg bs (Cfg.windows (post_order s)) (heads s))) in Hbv. congruence.
  - intros l1 v l2 Heq. destruct (dn_parent _ _ _ _ _ _ (so_order _ _ _ Hs l1 v l2 Heq)) as [?|(u & Hu & ?)]; [by left|right].
    rewrite app_nil_r in Hu. by exists u.
  - intros l1 u l2 Heq. unfold Cfg.next_block. cbn. rewrite Heq in Hnd |- *. by apply windows_lookup.
Qed.

Lemma cost_bound bs (s : gset Z) :
  (∀ b bb, bs !! b = Some bb → (length (successors bb) ≤ 2)%nat) → wset (cost bs) s <= 3 * Z.of_nat (size s).
Proof.
  intros Hf. induction s as [|x s Hx IH] using set_ind_L; [by rewrite wset_empty, size_empty|].
  rewrite wset_insert, size_union, size_singleton by set_solver.
  assert (cost bs x <= 3); [|lia]. unfold cost. destruct (bs !! x) as [bb|] eqn:Hb; [|lia]. specialize (Hf x bb Hb). lia.
Qed.

Lemma cfg_new_ok code :
  wf_code code → ∃ g order, Cfg.new code = Ret g ∧ blocks_ok code (blocks g) ∧ order_ok g order.
Proof.
  intros Hwf. unfold Cfg.new. destruct (record_ids_all code Hwf) as (ids & -> & Hids). cbn [mbind outcome_bind].
  destruct (create_blocks_all code Hwf ids Hids) as (bs & -> & Hbs). cbn [mbind outcome_bind].
  rewrite (len_u16_eq code Hwf), Z.eqb_refl. cbn [assert_ mbind outcome_bind].
  assert (starts_block code ENTRY_BLOCK_ID) as Hen by (destruct (wc_length _ Hwf); split; [unfold ENTRY_BLOCK_ID; lia|by left]).
  destruct (explore_ok bs) with (fuel := S (3 * length code)) (s := mkSearch ∅ [ENTRY_BLOCK_ID] ∅ []) (P := @nil Z)
    as (s & -> & Hs & He).
  - intros u v (bb & Hb & Hv). apply (bk_starts _ _ Hbs). pose proof (bk_block _ _ Hbs u bb Hb) as Hbk.
    eapply exit_starts; [done|exact Hbk|]. by apply (bo_succ _ _ _ Hbk).
  - by apply search_start_ok, (bk_starts _ _ Hbs).
  - unfold turns. cbn [stack exploration length]. rewrite dom_empty_L, difference_empty_L.
    pose proof (cost_bound bs (dom bs) (λ b bb Hb, bo_few _ _ _ (bk_block _ _ Hbs b bb Hb))).
    rewrite size_dom in *. pose proof (bk_size _ _ Hbs). lia.
  - cbn [mbind outcome_bind]. eexists _, (post_order s). split; [reflexivity|]. split; [done|]. by apply search_order.
Qed.

(** ** Every reachable block is visited *)

Lemma order_reachable g order b :
  order_ok g order → b ∈ order ↔ rtc (edge (blocks g)) ENTRY_BLOCK_ID b.
Proof.
  intros Ho. assert (ENTRY_BLOCK_ID ∈ order) as He.
  { pose proof (oo_entry _ _ Ho) as Hh. destruct order as [|x l]; [done|]. injection Hh as ->. left. }
  split.
  - intros Hb. apply list_elem_of_split in Hb as (l1 & l2 & Heq). remember (length l1) as n eqn:Hn.
    revert b l1 l2 Heq Hn. induction n as [n IH] using lt_wf_ind. intros b l1 l2 Heq ->.
    destruct (oo_parent _ _ Ho l1 b l2 Heq) as [->|(u & Hu & Hub)]; [done|].
    apply list_elem_of_split in Hu as (k1 & k2 & ->). eapply rtc_r; [|exact Hub].
    eapply (IH (length k1)); [rewrite length_app; cbn; lia| |done]. rewrite <- app_assoc in Heq. exact Heq.
  - revert b. apply (rtc_ind_r (λ b, b ∈ order)); [done|]. intros c d _ Hcd IH.
    apply list_elem_of_split in IH as (l1 & l2 & Heq). pose proof (oo_back _ _ Ho l1 c l2 d Heq Hcd) as Hd.
    rewrite Heq. destruct (Cfg.is_back_edge g c d); [rewrite elem_of_app, list_elem_of_singleton in Hd|];
      rewrite elem_of_app, elem_of_cons; tauto.
Qed.

(** C29: For code that passed the bounds checker, [VMControlFlowGraph::new] does not panic and
    its search ends.  Every instruction is in a block, blocks are left only at their exit, to the
    start of a block, and their successors are where control may go from there.  The order of traversal
    starts with the entry block and has every block reachable from it once, each after one that leads to it; an edge
    is a back edge exactly when it does not go forward in this order. *)
Theorem cfg_new_correct code :
  wf_code code →
  ∃ g order, Cfg.new code = Ret g ∧
    (∀ pc, 0 <= pc < Z.of_nat (length code) → ∃ b bb, blocks g !! b = Some bb ∧ b <= pc <= exit bb) ∧
    (∀ b bb pc x, blocks g !! b = Some bb → b <= pc < exit bb → goes_to code pc x ↔ x = pc + 1) ∧
    (∀ b bb x, blocks g !! b = Some bb → x ∈ successors bb ↔ goes_to code (exit bb) x) ∧
    (∀ b bb x, blocks g !! b = Some bb → x ∈ successors bb → is_Some (blocks g !! x)) ∧
    NoDup order ∧ head order = Some ENTRY_BLOCK_ID ∧
    (∀ b, b ∈ order ↔ rtc (edge (blocks g)) ENTRY_BLOCK_ID b) ∧
    (∀ l1 u l2 v, order = l1 ++ u :: l2 → edge (blocks g) u v → Cfg.is_back_edge g u v = true ↔ v ∉ l2) ∧
    (∀ l1 v l2, order = l1 ++ v :: l2 → v = ENTRY_BLOCK_ID ∨ ∃ u, u ∈ l1 ∧ edge (blocks g) u v) ∧
    (∀ l1 u l2, order = l1 ++ u :: l2 → Cfg.next_block g u = head l2).
Proof.
  intros Hwf. destruct (cfg_new_ok code Hwf) as (g & order & Hnew & Hb & Ho). exists g, order. split_and!.
  - done.
  - apply (bk_cover _ _ Hb).
  - intros b bb pc x Hbb. eapply inside_goes_to; [done|]. by apply (bk_block _ _ Hb).
  - intros b bb x Hbb. apply (bo_succ _ _ _ (bk_block _ _ Hb b bb Hbb)).
  - intros b bb x Hbb Hx. apply (bk_starts _ _ Hb). pose proof (bk_block _ _ Hb b bb Hbb) as Hbk.
    eapply exit_starts; [done|exact Hbk|]. by apply (bo_succ _ _ _ Hbk).
  - apply (oo_nodup _ _ Ho).
  - apply (oo_entry _ _ Ho).
  - intros b. by apply order_reachable.
  - intros l1 u l2 v Heq Huv. pose proof (oo_back _ _ Ho l1 u l2 v Heq Huv) as Hv. pose proof (oo_nodup _ _ Ho) as Hnd.
    rewrite Heq in Hnd. change (l1 ++ u :: l2) with (l1 ++ [u] ++ l2) in Hnd. rewrite app_assoc in Hnd. apply NoDup_app in Hnd as (_ & Hnd & _).
    destruct (Cfg.is_back_edge g u v); [|naive_solver]. split; [|done]. intros _. by apply Hnd.
  - apply (oo_parent _ _ Ho).
  - apply (oo_next _ _ Ho).
Qed.

(** A loop: [while (true) { }] with an exit. *)
Module Loop.
Definition code : list BC.Bytecode := [BC.LdTrue; BC.BrFalse 4; BC.Nop; BC.Branch 0; BC.Ret].

Lemma code_wf : wf_code code.
Proof. by apply wf_code_bool. Qed.

Lemma cfg_new_correct_witness : ∃ g, Cfg.new code = Ret g ∧ ∃ b bb, blocks g !! b = Some bb ∧ b <= 2 <= exit bb.
Proof.
  destruct (cfg_new_correct code code_wf) as (g & order & Hnew & Hcover & _). exists g. split; [exact Hnew|].
  apply Hcover. split; [lia|reflexivity].
Defined.

(** The jump back to the entry is the only back edge. *)
Lemma loop_back_edges : (g ← Cfg.new code; mret (map_to_list (loop_heads g))) = Ret [(0, {[ 2 ]})].
Proof. vm_compute. reflexivity. Qed.
End Loop.

(** The documentation of the trait promises an entry block even for code without instructions. *)
Lemma empty_code_panics : Cfg.new [] = Panic.
Proof. reflexivity. Qed.
