(* ===== verification/AbsInt.v ===== *)
(** The abstract interpreter of the bytecode verifier ([move-bytecode-verifier/src/absint.rs])
    with its meter ([meter.rs]): it iterates over the blocks of a function until the states before
    the blocks no longer change.

    A meter and an analysis are classes; [PartialVMResult] with [&mut] arguments is the monad [ST]
    over the state of the analysis and of the meter.  The loop has fuel.  Names of scopes and
    messages are left out, and so is the growth of costs by a factor, which is in [f32]. *)
From S2P Require Import Prelude MoveFormat ControlFlowGraph.

(** * Metering *)

Inductive Scope := Transaction | Package | Module_ | Function_.

#[global] Instance scope_eq_dec : EqDecision Scope.
Proof. solve_decision. Defined.

Definition ANALYZE_FUNCTION_BASE_COST : Z := 10.
Definition EXECUTE_BLOCK_BASE_COST : Z := 10.
Definition PER_BACKEDGE_COST : Z := 10.
Definition PER_SUCCESSOR_COST : Z := 10.

Definition U128_MAX : Z := 2 ^ 128 - 1.

(** [saturating_mul] and [saturating_add] on [u128]. *)
Definition sat128 (z : Z) : Z := Z.min U128_MAX z.

Class Meter (M : Type) := meter_add : Scope → Z → M → result StatusCode M.

Record Bounds := mkBounds { units : Z; max : option Z }.
Record BoundMeter := mkBoundMeter { mod_bounds : Bounds; fun_bounds : Bounds }.

Module Bound.
Definition add (b : Bounds) (units_ : Z) : result StatusCode Bounds :=
  match max b with
  | Some max_ =>
      let new_units := sat128 (units b + units_) in
      if max_ <? new_units then Err CONSTRAINT_NOT_SATISFIED else Ok (mkBounds new_units (max b))
  | None => Ok b
  end.

Definition enter_scope (scope : Scope) (m : BoundMeter) : BoundMeter :=
  if decide (scope = Module_) then mkBoundMeter (mkBounds 0 (max (mod_bounds m))) (fun_bounds m)
  else mkBoundMeter (mod_bounds m) (mkBounds 0 (max (fun_bounds m))).

Definition new (max_per_mod_meter_units max_per_fun_meter_units : option Z) : BoundMeter :=
  mkBoundMeter (mkBounds 0 max_per_mod_meter_units) (mkBounds 0 max_per_fun_meter_units).

Definition get_usage (scope : Scope) (m : BoundMeter) : Z :=
  if decide (scope = Module_) then units (mod_bounds m) else units (fun_bounds m).
End Bound.

#[global] Instance bound_meter : Meter BoundMeter := λ scope units m,
  if decide (scope = Module_) then
    match Bound.add (mod_bounds m) units with Ok b => Ok (mkBoundMeter b (fun_bounds m)) | Err e => Err e end
  else
    match Bound.add (fun_bounds m) units with Ok b => Ok (mkBoundMeter (mod_bounds m) b) | Err e => Err e end.

(** [DummyMeter]. *)
#[global] Instance dummy_meter : Meter unit := λ _ _ m, Ok m.

(** * Analyses *)

Inductive JoinResult := Changed | Unchanged.

(** [AbstractDomain] and [TransferFunctions]: [S] is the domain and [A] the analysis itself. *)
Class Analysis (A S M : Type) := {
  join : S → S → ST (A * M) StatusCode (S * JoinResult);
  execute : S → BC.Bytecode → Z → Z → ST (A * M) StatusCode S;
}.

Module Interpreter.
Section interpreter.
Context {A S M : Type} `{!Meter M} `{!Analysis A S M}.
Variables (g : VMControlFlowGraph) (code : list BC.Bytecode).

Definition charge (scope : Scope) (units : Z) : ST (A * M) StatusCode unit := λ s,
  match meter_add scope units s.2 with Ok m => Ret (Ok tt, (s.1, m)) | Err e => Ret (Err e, s) end.

Definition add_items (scope : Scope) (units_per_item : Z) (items : nat) : ST (A * M) StatusCode unit :=
  if (items =? 0)%nat then mret tt else charge scope (sat128 (units_per_item * Z.of_nat items)).

Fixpoint execute_instrs (last_index : Z) (offsets : list Z) (state_acc : S) : ST (A * M) StatusCode S :=
  match offsets with
  | [] => mret state_acc
  | offset :: offsets =>
      instr ← lift_o (at_index code offset);
      state_acc ← execute state_acc instr offset last_index;
      execute_instrs last_index offsets state_acc
  end.

Definition execute_block (block_id : Z) (pre_state : S) : ST (A * M) StatusCode S :=
  charge Function_ EXECUTE_BLOCK_BASE_COST;;
  block_end ← lift_o (Cfg.block_end g block_id);
  offsets ← lift_o (Cfg.instr_indexes g block_id);
  execute_instrs block_end offsets pre_state.

(** The loop over the successors; the result has the next block. *)
Fixpoint propagate (block_id : Z) (post_state : S) (succs : list Z) (inv_map : gmap Z S) (candidate : option Z) :
    ST (A * M) StatusCode (gmap Z S * option Z) :=
  match succs with
  | [] => mret (inv_map, candidate)
  | succ :: succs =>
      charge Function_ PER_SUCCESSOR_COST;;
      match inv_map !! succ with
      | Some old_pre =>
          r ← join old_pre post_state;
          let inv_map := <[succ := r.1]> inv_map in
          match r.2 with
          | Unchanged => propagate block_id post_state succs inv_map candidate
          | Changed =>
              if Cfg.is_back_edge g block_id succ then
                charge Function_ PER_BACKEDGE_COST;; mret (inv_map, Some succ)
              else propagate block_id post_state succs inv_map candidate
          end
      | None => propagate block_id post_state succs (<[succ := post_state]> inv_map) candidate
      end
  end.

Fixpoint analyze_loop (fuel : nat) (inv_map : gmap Z S) (next : option Z) : ST (A * M) StatusCode (gmap Z S) :=
  match next with
  | None => mret inv_map
  | Some block_id =>
      match fuel with
      | O => λ _, OutOfFuel
      | Datatypes.S fuel =>
          match inv_map !! block_id with
          | None => analyze_loop fuel inv_map (Cfg.next_block g block_id)
          | Some pre_state =>
              post_state ← execute_block block_id pre_state;
              succs ← lift_o (Cfg.successors g block_id);
              r ← propagate block_id post_state succs inv_map (Cfg.next_block g block_id);
              analyze_loop fuel r.1 r.2
          end
      end
  end.

Definition analyze_function (fuel : nat) (initial_state : S) : ST (A * M) StatusCode unit :=
  charge Function_ ANALYZE_FUNCTION_BASE_COST;;
  let entry_block_id := Cfg.entry_block_id g in
  inv_map ← analyze_loop fuel {[ entry_block_id := initial_state ]} (Some entry_block_id);
  mret tt.
End interpreter.
End Interpreter.

(** * What an analysis promises *)

(** [returns m P]: [m] returns from every state (no panic, enough fuel), and what it returns, unless
    it is an error, has [P]. *)
Definition returns {St E R} (m : ST St E R) (P : R → Prop) : Prop :=
  ∀ s, ∃ r s', m s = Ret (r, s') ∧ ∀ a, r = Ok a → P a.

(** An analysis of finite height: [good] is the invariant of its states, [leq] their order, and every
    change of a join uses up some of the [height].  [valid] restricts the instructions. *)
Class AnalysisLaws (A S M : Type) `{!Analysis A S M} (valid : BC.Bytecode → Prop) := {
  good : S → Prop;
  leq : S → S → Prop;
  height : S → nat;
  max_height : nat;
  leq_preorder :: PreOrder leq;
  good_height a : good a → (height a ≤ max_height)%nat;
  join_law a b : good a → good b →
    returns (join a b : ST (A * M) StatusCode (S * JoinResult)) (λ r, good r.1 ∧ leq a r.1 ∧ leq b r.1 ∧
      match r.2 with Unchanged => r.1 = a | Changed => (height r.1 < height a)%nat end);
  execute_law st instr index last : good st → valid instr →
    returns (execute st instr index last : ST (A * M) StatusCode S) good;
}.

Section returns.
Context {St E : Type}.

Lemma returns_ret {R} (a : R) (P : R → Prop) : P a → returns (mret a : ST St E R) P.
Proof. intros HP s. eexists _, _. split; [done|]. naive_solver. Qed.

Lemma returns_bind {R R'} (m : ST St E R) (f : R → ST St E R') P Q :
  returns m P → (∀ a, P a → returns (f a) Q) → returns (m ≫= f) Q.
Proof.
  intros Hm Hf s. destruct (Hm s) as ([a|e] & s' & Heq & HP); unfold mbind, st_bind; rewrite Heq.
  - apply (Hf a), HP. done.
  - eexists _, _. split; [done|]. naive_solver.
Qed.

Lemma returns_weaken {R} (m : ST St E R) (P Q : R → Prop) : returns m P → (∀ a, P a → Q a) → returns m Q.
Proof. intros Hm HPQ s. destruct (Hm s) as (r & s' & ? & ?). eexists _, _. split; [done|]. naive_solver. Qed.

Lemma returns_lift {R} (m : outcome R) a (P : R → Prop) : m = Ret a → P a → returns (lift_o m : ST St E R) P.
Proof. intros -> HP s. eexists _, _. split; [done|]. naive_solver. Qed.

(** The result comes from a run. *)
Lemma returns_run {R} (m : ST St E R) P : returns m P → returns m (λ a, P a ∧ ∃ s s', m s = Ret (Ok a, s')).
Proof. intros Hm s. destruct (Hm s) as (r & s' & ? & ?). eexists _, _. split; [done|]. naive_solver. Qed.

Lemma run_bind {R R'} (m : ST St E R) (f : R → ST St E R') s b s' :
  (m ≫= f) s = Ret (Ok b, s') ↔ ∃ a s1, m s = Ret (Ok a, s1) ∧ f a s1 = Ret (Ok b, s').
Proof. unfold mbind, st_bind. destruct (m s) as [[[a|e] s1]| |]; naive_solver. Qed.
End returns.

(** * The iteration reaches a post-fixpoint *)
Section sound.
Import Interpreter.
Context {A S M : Type} `{!Meter M} `{!Analysis A S M} (valid : BC.Bytecode → Prop) `{!AnalysisLaws A S M valid}.
Context (code : list BC.Bytecode) (Hwf : wf_code code).
Context (Hvalid : ∀ pc i, instr_at code pc i → valid i).
Context (g : VMControlFlowGraph) (order : list Z).
Context (Hblocks : blocks_ok code (blocks g)) (Horder : order_ok g order).
Implicit Types (inv : gmap Z S) (st pre post : S).
#[local] Notation "u ~> v" := (edge (blocks g) u v) (at level 70).

Lemma returns_charge scope units (P : unit → Prop) : P tt → returns (charge scope units : ST (A * M) StatusCode unit) P.
Proof. intros HP s. unfold charge. destruct (meter_add _ _ _); eexists _, _; (split; [done|]); by intros [] ?. Qed.

Lemma execute_instrs_ok last offsets st :
  good st → (∀ o, o ∈ offsets → 0 <= o < Z.of_nat (length code)) →
  returns (execute_instrs code last offsets st : ST (A * M) StatusCode S) good.
Proof.
  revert st. induction offsets as [|o os IH]; intros st Hst Hos; cbn [execute_instrs].
  - by apply returns_ret.
  - destruct (instr_at_ex code o) as (i & Hi); [apply Hos; set_solver|].
    eapply returns_bind; [eapply (returns_lift _ i (λ x, x = i)); [by apply instr_at_index|done]|]. intros ? ->.
    eapply returns_bind; [apply execute_law; [done|by eapply Hvalid]|]. intros st' Hst'. apply IH; [done|]. set_solver.
Qed.

(** What [execute_block] ran. *)
Definition block_run (b : Z) pre post : Prop :=
  ∃ bb (s s' : A * M), blocks g !! b = Some bb ∧
    execute_instrs code (exit bb) (seqZ b (exit bb - b + 1)) pre s = Ret (Ok post, s').

Lemma instr_indexes_eq b bb : blocks g !! b = Some bb → Cfg.instr_indexes g b = Ret (seqZ b (exit bb - b + 1)).
Proof. intros Hb. unfold Cfg.instr_indexes, Cfg.block_end. rewrite Hb. done. Qed.

Lemma execute_block_ok b pre :
  b ∈ order → good pre → returns (execute_block g code b pre : ST (A * M) StatusCode S) (λ post, good post ∧ block_run b pre post).
Proof.
  intros Hb Hpre. destruct (oo_block _ _ Horder b Hb) as (bb & Hbb). unfold execute_block.
  eapply returns_bind; [by apply (returns_charge _ _ (λ _, True))|]. intros _ _.
  eapply returns_bind; [eapply (returns_lift _ (exit bb) (λ x, x = exit bb)); [|done]; unfold Cfg.block_end; by rewrite Hbb|]. intros ? ->.
  eapply returns_bind; [eapply (returns_lift _ _ (λ x, x = _)); [by apply instr_indexes_eq|done]|]. intros ? ->.
  pose proof (bk_block _ _ Hblocks b bb Hbb) as [Hstart Hexit _ _ _ _].
  eapply returns_weaken; [apply returns_run, execute_instrs_ok; [done|]|].
  - intros o Ho%elem_of_seqZ. destruct Hstart as [? _]. lia.
  - intros post (Hg & s & s' & Hrun). split; [done|]. exists bb, s, s'. done.
Qed.

(** ** Propagation to the successors *)
Definition all_good inv : Prop := map_Forall (λ _, good) inv.
Definition grows inv inv' : Prop := ∀ x q, inv !! x = Some q → ∃ q', inv' !! x = Some q' ∧ leq q q'.
Definition reaches inv post v : Prop := ∃ q, inv !! v = Some q ∧ leq post q.

(** How much the states can still change. *)
Definition slot inv (b : Z) : nat := match inv !! b with Some q => height q | None => Datatypes.S max_height end.
Definition potential inv : nat := sum_list_with (slot inv) order.

#[local] Instance grows_preorder : PreOrder grows.
Proof.
  split; [intros inv x q Hx; by exists q|]. intros i1 i2 i3 H12 H23 x q Hx.
  destruct (H12 x q Hx) as (q' & Hx' & ?). destruct (H23 x q' Hx') as (q'' & ? & ?).
  exists q''. split; [done|]. by trans q'.
Qed.

Lemma reaches_grows inv inv' post v : reaches inv post v → grows inv inv' → reaches inv' post v.
Proof. intros (q & Hv & ?) Hg. destruct (Hg v q Hv) as (q' & ? & ?). exists q'. split; [done|]. by trans q. Qed.

Lemma sum_le (f f' : Z → nat) l : (∀ x, (f' x ≤ f x)%nat) → (sum_list_with f' l ≤ sum_list_with f l)%nat.
Proof. intros Hf. induction l as [|x l IH]; cbn; [done|]. specialize (Hf x). lia. Qed.

Lemma sum_lt (f f' : Z → nat) l v :
  (∀ x, (f' x ≤ f x)%nat) → v ∈ l → (f' v < f v)%nat → (sum_list_with f' l < sum_list_with f l)%nat.
Proof.
  intros Hf Hv Hlt. induction l as [|x l IH]; cbn; [set_solver|]. pose proof (Hf x). pose proof (sum_le f f' l Hf).
  apply elem_of_cons in Hv as [->|Hv]; [lia|]. specialize (IH Hv). lia.
Qed.

Lemma slot_insert inv v q : (height q ≤ slot inv v)%nat → ∀ x, (slot (<[v := q]> inv) x ≤ slot inv x)%nat.
Proof. intros Hq x. unfold slot at 1. destruct (decide (x = v)) as [->|]; [by rewrite lookup_insert_eq|]. by rewrite lookup_insert_ne. Qed.

Lemma potential_insert inv v q : (height q ≤ slot inv v)%nat → (potential (<[v := q]> inv) ≤ potential inv)%nat.
Proof. intros Hq. by apply sum_le, slot_insert. Qed.

Lemma potential_lower inv v q : v ∈ order → (height q < slot inv v)%nat → (potential (<[v := q]> inv) < potential inv)%nat.
Proof. intros Hv Hq. apply (sum_lt _ _ _ v); [apply slot_insert; lia|done|]. unfold slot at 1. by rewrite lookup_insert_eq. Qed.

(** The invariants of the targets of back edges from [u] are not changed, except that of [v]. *)
Definition keeps (u : Z) (skip : option Z) inv inv' : Prop :=
  ∀ x, Cfg.is_back_edge g u x = true → skip ≠ Some x → is_Some (inv !! x) → inv' !! x = inv !! x.

Record propagated (u : Z) post (succs : list Z) (candidate : option Z) inv (r : gmap Z S * option Z) : Prop := {
  pr_good : all_good r.1;
  pr_grows : grows inv r.1;
  pr_potential : (potential r.1 ≤ potential inv)%nat;
  pr_other : ∀ x, x ∉ succs → r.1 !! x = inv !! x;
  pr_next :
    (r.2 = candidate ∧ (∀ v, v ∈ succs → reaches r.1 post v) ∧ keeps u None inv r.1) ∨
    (∃ v, v ∈ succs ∧ Cfg.is_back_edge g u v = true ∧ r.2 = Some v ∧
      (potential r.1 < potential inv)%nat ∧ keeps u (Some v) inv r.1);
}.

(** One successor joined, or seen for the first time, without a jump. *)
Record joined (u : Z) post (v : Z) inv inv' : Prop := {
  jn_good : all_good inv';
  jn_grows : grows inv inv';
  jn_potential : (potential inv' ≤ potential inv)%nat;
  jn_other : ∀ x, x ≠ v → inv' !! x = inv !! x;
  jn_reaches : reaches inv' post v;
  jn_keeps : Cfg.is_back_edge g u v = true → is_Some (inv !! v) → inv' !! v = inv !! v;
}.

Lemma propagated_cons u post v succs candidate inv inv' r :
  joined u post v inv inv' → propagated u post succs candidate inv' r → propagated u post (v :: succs) candidate inv r.
Proof.
  intros [Hg1 Hgr1 Hp1 Ho1 Hr1 Hk1] [Hg Hgr Hp Ho Hn].
  assert (∀ skip, keeps u skip inv' r.1 → keeps u skip inv r.1) as Hkeeps.
  { intros skip Hk x Hx Hskip Hin. destruct (decide (x = v)) as [->|Hne].
    - rewrite <- (Hk1 Hx Hin). apply Hk; [done..|]. by rewrite Hk1.
    - rewrite <- (Ho1 x Hne). apply Hk; [done..|]. by rewrite Ho1. }
  split; [done|by trans inv'|lia| |].
  - intros x [??]%not_elem_of_cons. rewrite Ho by done. by apply Ho1.
  - destruct Hn as [(-> & Hall & Hk)|(w & ? & ? & ? & ? & Hk)]; [left|right].
    + split; [done|]. split; [|by apply Hkeeps]. intros w [->|Hw]%elem_of_cons; [|by apply Hall]. by eapply reaches_grows.
    + exists w. split_and!; [set_solver|done..|lia|by apply Hkeeps].
Qed.

Lemma all_good_insert inv v q : all_good inv → good q → all_good (<[v := q]> inv).
Proof. intros. by apply map_Forall_insert_2. Qed.

Lemma grows_insert inv v q : (∀ q0, inv !! v = Some q0 → leq q0 q) → grows inv (<[v := q]> inv).
Proof.
  intros Hq x q0 Hx. destruct (decide (x = v)) as [->|Hne].
  - exists q. rewrite lookup_insert_eq. auto.
  - exists q0. by rewrite lookup_insert_ne.
Qed.

Lemma joined_insert u post v inv q :
  all_good inv → good q → (∀ q0, inv !! v = Some q0 → leq q0 q) → leq post q → (height q ≤ slot inv v)%nat →
  (Cfg.is_back_edge g u v = true → is_Some (inv !! v) → inv !! v = Some q) → joined u post v inv (<[v := q]> inv).
Proof.
  intros Hinv Hq Hle Hpost Hh Hk. split.
  - by apply all_good_insert.
  - by apply grows_insert.
  - by apply potential_insert.
  - intros x Hne. by rewrite lookup_insert_ne.
  - exists q. by rewrite lookup_insert_eq.
  - intros. rewrite lookup_insert_eq. by rewrite Hk.
Qed.

Lemma propagate_ok u post succs candidate inv :
  all_good inv → good post → (∀ v, v ∈ succs → v ∈ order) →
  returns (propagate g u post succs inv candidate : ST (A * M) StatusCode _) (propagated u post succs candidate inv).
Proof.
  intros Hinv Hpost. revert inv Hinv. induction succs as [|v succs IH]; intros inv Hinv Hsuccs; cbn [propagate].
  { apply returns_ret. split; [done|done|done|done|]. left. split; [done|]. split; [set_solver|]. by intros x. }
  eapply returns_bind; [by apply (returns_charge _ _ (λ _, True))|]. intros _ _.
  assert (∀ inv', joined u post v inv inv' →
    returns (propagate g u post succs inv' candidate : ST (A * M) StatusCode _) (propagated u post (v :: succs) candidate inv)) as Hgo.
  { intros inv' Hj. eapply returns_weaken; [apply IH; [by eapply jn_good|set_solver]|]. intros r. by apply propagated_cons. }
  destruct (inv !! v) as [old|] eqn:Hv.
  - pose proof (map_Forall_lookup_1 _ _ _ _ Hinv Hv) as Hold. cbn in Hold.
    eapply returns_bind; [by apply (join_law old post)|]. intros [q j] (Hq & Hle & Hle' & Hj). cbn [fst snd] in *.
    assert (slot inv v = height old) as Hslot by (unfold slot; by rewrite Hv).
    destruct j; [destruct (Cfg.is_back_edge g u v) eqn:Hback|].
    + eapply returns_bind; [by apply (returns_charge _ _ (λ _, True))|]. intros _ _. apply returns_ret.
      assert (potential (<[v := q]> inv) < potential inv)%nat by (apply potential_lower; [set_solver|lia]).
      split; cbn [fst snd]; [by apply all_good_insert|apply grows_insert; naive_solver|lia| |].
      * intros x [??]%not_elem_of_cons. by rewrite lookup_insert_ne.
      * right. exists v. split_and!; [set_solver|done..|]. intros x ???. rewrite lookup_insert_ne; congruence.
    + apply Hgo, joined_insert; [done..|naive_solver|done|lia|congruence].
    + subst q. apply Hgo, joined_insert; [done..|naive_solver|done|lia|done].
  - apply Hgo, joined_insert; [done..|naive_solver|done| |].
    + unfold slot. rewrite Hv. apply good_height in Hpost. lia.
    + intros _ [? ?]. congruence.
Qed.

(** ** The loop *)
Definition stable inv (u : Z) : Prop :=
  ∃ pre post, inv !! u = Some pre ∧ block_run u pre post ∧ ∀ v, u ~> v → reaches inv post v.

Record loop_ok (init : S) inv (l : list Z) : Prop := {
  lo_good : all_good inv;
  lo_init : reaches inv init ENTRY_BLOCK_ID;
  lo_stable : ∀ u, u ∈ l → stable inv u;
}.

Lemma stable_mono inv inv' u : grows inv inv' → inv' !! u = inv !! u → stable inv u → stable inv' u.
Proof.
  intros Hg Hu (pre & post & Hpre & Hrun & Hs). exists pre, post. rewrite Hu. split_and!; [done..|].
  intros v Hv. eapply reaches_grows; [by apply Hs|done].
Qed.

(** A block has an invariant when those before it are stable. *)
Lemma visited init inv l1 u l2 : order = l1 ++ u :: l2 → loop_ok init inv l1 → is_Some (inv !! u).
Proof.
  intros Heq [_ (q & Hq & _) Hst]. destruct (oo_parent _ _ Horder l1 u l2 Heq) as [->|(w & Hw & Hwu)]; [by exists q|].
  destruct (Hst w Hw) as (? & ? & _ & _ & Hs). destruct (Hs u Hwu) as (q' & Hq' & _). by exists q'.
Qed.

Lemma successors_of u : u ∈ order → ∃ succs, Cfg.successors g u = Ret succs ∧ ∀ v, v ∈ succs ↔ u ~> v.
Proof.
  intros Hu. destruct (oo_block _ _ Horder u Hu) as (bb & Hbb). exists (ControlFlowGraph.successors bb).
  unfold Cfg.successors. rewrite Hbb. split; [done|]. intros v. unfold edge. rewrite Hbb. naive_solver.
Qed.

Lemma edge_order l1 u l2 v : order = l1 ++ u :: l2 → u ~> v → v ∈ order.
Proof. intros Heq Huv. pose proof (oo_back _ _ Horder l1 u l2 v Heq Huv) as Hv. rewrite Heq. destruct Cfg.is_back_edge; set_solver. Qed.

(** A successor that is not after the block is the target of a back edge. *)
Lemma before_back l1 u l2 x : order = l1 ++ u :: l2 → u ~> x → x ∈ l1 ++ [u] → Cfg.is_back_edge g u x = true.
Proof.
  intros Heq Hux Hx. pose proof (oo_back _ _ Horder l1 u l2 x Heq Hux) as Hv. destruct Cfg.is_back_edge; [done|].
  pose proof (oo_nodup _ _ Horder) as Hnd. rewrite Heq in Hnd. change (l1 ++ u :: l2) with (l1 ++ [u] ++ l2) in Hnd.
  rewrite app_assoc in Hnd. apply NoDup_app in Hnd as (_ & Hnd & _). by destruct (Hnd x Hx).
Qed.

(** The blocks up to the current one keep their invariants, unless one is jumped to. *)
Lemma prefix_kept init inv l1 u l2 succs post candidate r skip x :
  order = l1 ++ u :: l2 → loop_ok init inv l1 → (∀ v, v ∈ succs ↔ u ~> v) → propagated u post succs candidate inv r →
  keeps u skip inv r.1 → x ∈ l1 ++ [u] → skip ≠ Some x → r.1 !! x = inv !! x.
Proof.
  intros Heq Hok Hsuccs Hpr Hk Hx Hskip. destruct (decide (x ∈ succs)) as [Hxs|]; [|by apply (pr_other _ _ _ _ _ _ Hpr)].
  apply Hk; [|done|].
  - eapply before_back; [done|by apply Hsuccs|done].
  - apply elem_of_app in Hx as [Hx|Hx%list_elem_of_singleton].
    + destruct (lo_stable _ _ _ Hok x Hx) as (pre & ? & ? & _). by exists pre.
    + subst. by eapply visited.
Qed.

(** A turn of the loop either goes on to the next block or back to an earlier one. *)
Lemma turn_ok init inv l1 u l2 succs pre post r :
  order = l1 ++ u :: l2 → loop_ok init inv l1 → inv !! u = Some pre → block_run u pre post →
  (∀ v, v ∈ succs ↔ u ~> v) → propagated u post succs (head l2) inv r →
  ∃ k1 k2, order = k1 ++ k2 ∧ r.2 = head k2 ∧ loop_ok init r.1 k1 ∧
    (potential r.1 * Datatypes.S (length order) + length k2 < potential inv * Datatypes.S (length order) + length (u :: l2))%nat.
Proof.
  intros Heq Hok Hpre Hrun Hsuccs Hpr. pose proof Hpr as [Hg Hgr Hp Ho Hn].
  pose proof Hok as [Hgood Hinit Hst]. pose proof (reaches_grows _ _ _ _ Hinit Hgr) as Hinit'.
  destruct Hn as [(Hr & Hall & Hk)|(v & Hv & Hback & Hr & Hlt & Hk)].
  - exists (l1 ++ [u]), l2. split_and!; [by rewrite <- app_assoc|done| |cbn [length]; nia]. split; [done|done|].
    intros x Hx. assert (r.1 !! x = inv !! x) as Hxeq by by eapply prefix_kept.
    apply elem_of_app in Hx as [Hx|Hx%list_elem_of_singleton]; [by eapply stable_mono, Hst|]. subst x.
    exists pre, post. rewrite Hxeq. split_and!; [done..|]. intros w Hw. by apply Hall, Hsuccs.
  - pose proof (oo_back _ _ Horder l1 u l2 v Heq (proj1 (Hsuccs v) Hv)) as Hin. rewrite Hback in Hin.
    apply list_elem_of_split in Hin as (k1 & k3 & Hk13).
    assert (order = k1 ++ v :: (k3 ++ l2)) as Heq'.
    { rewrite Heq. change (u :: l2) with ([u] ++ l2). by rewrite (app_assoc l1), Hk13, <- app_assoc. }
    exists k1, (v :: k3 ++ l2). split_and!; [done|done| |].
    + split; [done|done|]. intros x Hx. assert (x ∈ l1 ++ [u]) as Hx' by (rewrite Hk13; set_solver).
      assert (x ≠ v) as Hne.
      { intros ->. pose proof (oo_nodup _ _ Horder) as Hnd. rewrite Heq' in Hnd. apply NoDup_app in Hnd as (_ & Hnd & _).
        apply (Hnd v Hx). set_solver. }
      assert (x ∈ l1) as Hx1.
      { assert (k1 ++ v :: k3 = l1 ++ [u]) as Hs by done. destruct k3 as [|y k3 _] using rev_ind.
        - apply app_inj_tail in Hs as [-> _]. done.
        - rewrite app_comm_cons, app_assoc in Hs. apply app_inj_tail in Hs as [<- _]. set_solver. }
      eapply stable_mono; [done| |by apply Hst]. apply (prefix_kept init inv l1 u l2 succs post (head l2) r (Some v)); [done..|congruence].
    + assert (length (v :: k3 ++ l2) ≤ length order)%nat by (rewrite Heq', length_app; apply Nat.le_add_l). cbn [length] in *. nia.
Qed.

Lemma analyze_loop_ok init fuel inv l1 l2 :
  order = l1 ++ l2 → loop_ok init inv l1 → (potential inv * Datatypes.S (length order) + length l2 ≤ fuel)%nat →
  returns (analyze_loop g code fuel inv (head l2) : ST (A * M) StatusCode _) (λ inv', loop_ok init inv' order).
Proof.
  revert inv l1 l2. induction fuel as [|fuel IH]; intros inv l1 l2 Heq Hok Hfuel; (destruct l2 as [|u l2]; cbn [head analyze_loop]).
  1,3: apply returns_ret; rewrite Heq, app_nil_r; done.
  - cbn [length] in Hfuel. lia.
  - destruct (visited init inv l1 u l2 Heq Hok) as (pre & Hpre). rewrite Hpre.
    assert (u ∈ order) as Hu by (rewrite Heq; set_solver).
    pose proof (map_Forall_lookup_1 _ _ _ _ (lo_good _ _ _ Hok) Hpre) as Hgood.
    eapply returns_bind; [by apply execute_block_ok|]. intros post [Hpost Hrun].
    destruct (successors_of u Hu) as (succs & Hsuccs & Hin).
    eapply returns_bind; [by eapply (returns_lift _ succs (λ x, x = succs))|]. intros ? ->.
    eapply returns_bind; [apply propagate_ok; [apply Hok|done|]|].
    + intros v Hv. eapply edge_order; [done|by apply Hin].
    + rewrite (oo_next _ _ Horder l1 u l2 Heq). intros r Hpr.
      destruct (turn_ok init inv l1 u l2 succs pre post r) as (k1 & k2 & Hk & -> & Hok' & Hlt); [done..|].
      apply (IH _ k1); [done|done|lia].
Qed.

(** ** Every instruction *)

(** The state before the instruction at [pc] in the run of its block that ended the iteration. *)
Definition before inv (pc : Z) st : Prop :=
  ∃ b bb pre post (s0 s1 s2 : A * M), blocks g !! b = Some bb ∧ b <= pc <= exit bb ∧ inv !! b = Some pre ∧
    execute_instrs code (exit bb) (seqZ b (pc - b)) pre s0 = Ret (Ok st, s1) ∧
    execute_instrs code (exit bb) (seqZ pc (exit bb - pc + 1)) st s1 = Ret (Ok post, s2) ∧
    ∀ v, b ~> v → v ∈ order ∧ reaches inv post v.

Lemma execute_instrs_cons last o os st (s : A * M) st' s' :
  execute_instrs code last (o :: os) st s = Ret (Ok st', s') ↔
  ∃ i st1 s1, at_index code o = Ret i ∧ execute st i o last s = Ret (Ok st1, s1) ∧ execute_instrs code last os st1 s1 = Ret (Ok st', s').
Proof.
  cbn [execute_instrs]. rewrite run_bind. unfold lift_o. destruct (at_index code o) as [i| |]; [|naive_solver..].
  split.
  - intros (i' & s0 & [= <- <-] & (st1 & s1 & ? & ?)%run_bind). by exists i, st1, s1.
  - intros (i' & st1 & s1 & [= <-] & ? & ?). exists i, s. split; [done|]. apply run_bind. by exists st1, s1.
Qed.

Lemma execute_instrs_app last l1 l2 st (s : A * M) st' s' :
  execute_instrs code last (l1 ++ l2) st s = Ret (Ok st', s') ↔
  ∃ st1 s1, execute_instrs code last l1 st s = Ret (Ok st1, s1) ∧ execute_instrs code last l2 st1 s1 = Ret (Ok st', s').
Proof.
  revert st s. induction l1 as [|o l1 IH]; intros st s; cbn [app].
  - cbn [execute_instrs]. unfold mret, st_ret. split; [by eauto|]. intros (? & ? & [= <- <-] & ?). done.
  - rewrite execute_instrs_cons. setoid_rewrite execute_instrs_cons. setoid_rewrite IH. naive_solver.
Qed.

Lemma before_start init inv v : loop_ok init inv order → v ∈ order → ∀ q, inv !! v = Some q → before inv v q.
Proof.
  intros Hok Hv q Hq. destruct (lo_stable _ _ _ Hok v Hv) as (pre & post & Hpre & (bb & s & s' & Hbb & Hrun) & Hs). simplify_eq.
  pose proof (bo_exit _ _ _ (bk_block _ _ Hblocks v bb Hbb)).
  exists v, bb, q, post, s, s, s'. rewrite seqZ_nil by lia. split_and!; [done|lia|lia|done|done|done|].
  intros w Hw. split; [|by apply Hs]. apply list_elem_of_split in Hv as (l1 & l2 & Heq). by eapply edge_order.
Qed.

(** The state before an instruction is good, the instruction executes, and its result is below the state
    before each instruction that can be next. *)
Lemma before_step init inv pc st i :
  loop_ok init inv order → before inv pc st → instr_at code pc i →
  ∃ last (s s' : A * M) post, execute st i pc last s = Ret (Ok post, s') ∧
    ∀ x, goes_to code pc x → ∃ q, before inv x q ∧ leq post q.
Proof.
  intros Hok (b & bb & pre & post & s0 & s1 & s2 & Hbb & Hpc & Hpre & Hto & Hfrom & Hs) Hi.
  pose proof (bk_block _ _ Hblocks b bb Hbb) as Hbk.
  rewrite seqZ_cons in Hfrom by lia. apply execute_instrs_cons in Hfrom as (i' & st' & s1' & Hi' & Hex & Hfrom).
  rewrite (instr_at_index code pc i Hi) in Hi'. simplify_eq. exists (exit bb), s1, s1', st'. split; [done|].
  intros x Hx. destruct (decide (pc = exit bb)) as [->|Hne].
  - rewrite seqZ_nil in Hfrom by lia. cbn [execute_instrs] in Hfrom. unfold mret, st_ret in Hfrom. simplify_eq.
    assert (b ~> x) as Hbx by (exists bb; split; [done|]; by apply (bo_succ _ _ _ Hbk)).
    destruct (Hs x Hbx) as (Hxo & q & Hq & Hle). exists q. split; [|done]. by eapply before_start.
  - apply (inside_goes_to code Hwf b bb pc x Hbk) in Hx; [|lia]. subst x. exists st'. split; [|done].
    exists b, bb, pre, post, s0, s1', s2. split_and!; [done|lia..|done| | |done].
    + replace (pc + 1 - b) with ((pc - b) + 1) by lia. rewrite seqZ_app by lia. apply execute_instrs_app. exists st, s1.
      split; [done|]. replace (b + (pc - b)) with pc by lia. rewrite seqZ_cons, seqZ_nil by lia.
      apply execute_instrs_cons. exists i', st', s1'. split_and!; [by rewrite (instr_at_index code pc i' Hi)|done|done].
    + replace (exit bb - (pc + 1) + 1) with (Z.pred (exit bb - pc + 1)) by lia. by rewrite Z.add_1_r.
Qed.
Lemma before_good init inv pc st : loop_ok init inv order → before inv pc st → good st.
Proof.
  intros Hok (b & bb & pre & post & s0 & s1 & s2 & Hbb & Hpc & Hpre & Hto & _).
  pose proof (bk_block _ _ Hblocks b bb Hbb) as [[? _] Hexit _ _ _ _].
  assert (returns (execute_instrs code (exit bb) (seqZ b (pc - b)) pre : ST (A * M) StatusCode S) good) as Hr.
  { apply execute_instrs_ok; [apply (map_Forall_lookup_1 _ _ _ _ (lo_good _ _ _ Hok) Hpre)|]. intros o Ho%elem_of_seqZ. lia. }
  destruct (Hr s0) as (r & s' & Heq & HP). rewrite Hto in Heq. simplify_eq. by apply HP.
Qed.

Lemma order_length : (length order ≤ length code)%nat.
Proof.
  etrans; [|apply (bk_size _ _ Hblocks)]. rewrite <- size_dom, <- (size_list_to_set (C := gset Z) order) by apply (oo_nodup _ _ Horder).
  apply subseteq_size. intros b Hb%elem_of_list_to_set. apply elem_of_dom, (oo_block _ _ Horder b Hb).
Qed.

Lemma potential_max inv : all_good inv → (potential inv ≤ length order * Datatypes.S max_height)%nat.
Proof.
  intros Hg. unfold potential. clear Horder. induction order as [|b l IH]; [done|]. cbn [sum_list_with length]. unfold slot at 1.
  destruct (inv !! b) eqn:Hb; [|lia]. pose proof (good_height _ (map_Forall_lookup_1 _ _ _ _ Hg Hb)). lia.
Qed.
End sound.

(** Turns of the loop that are enough for [n] instructions and a domain of height [h]. *)
Definition analysis_fuel (n h : nat) : nat := n * Datatypes.S h * Datatypes.S n + n.

(** [P pc st]: [st] can be the state before [pc].  The initial state is covered at the entry; an instruction
    executes without an error at its states, and the result is covered at each instruction that can be next. *)
Definition covers {A S M} `{!Analysis A S M} {valid} `{!AnalysisLaws A S M valid} (code : list BC.Bytecode) (init : S) (P : Z → S → Prop) : Prop :=
  (∃ q, P ENTRY_BLOCK_ID q ∧ leq init q) ∧
  (∀ pc st, P pc st → good st) ∧
  ∀ pc st i, P pc st → instr_at code pc i → ∃ last (s s' : A * M) post, execute st i pc last s = Ret (Ok post, s') ∧
    ∀ x, goes_to code pc x → ∃ q, P x q ∧ leq post q.

Lemma analyze_returns {A S M} `{!Meter M, !Analysis A S M} valid `{!AnalysisLaws A S M valid} code g fuel init :
  wf_code code → (∀ pc i, instr_at code pc i → valid i) → Cfg.new code = Ret g → good init →
  (analysis_fuel (length code) max_height ≤ fuel)%nat →
  returns (Interpreter.analyze_function g code fuel init : ST (A * M) StatusCode unit) (λ _, ∃ P, covers code init P).
Proof.
  intros Hwf Hvalid Hnew Hinit Hfuel. destruct (cfg_new_ok code Hwf) as (g' & order & Hnew' & Hb & Ho).
  rewrite Hnew in Hnew'. injection Hnew' as <-.
  assert (returns (Interpreter.analyze_loop g code fuel {[ENTRY_BLOCK_ID := init]} (head order) : ST (A * M) StatusCode _)
    (λ inv', loop_ok valid code g init inv' order)) as Hloop.
  { assert (all_good valid {[ENTRY_BLOCK_ID := init]}) as Hg by (apply map_Forall_singleton; exact Hinit).
    apply (analyze_loop_ok valid code Hwf Hvalid g order Hb Ho init fuel _ [] order); [done| |].
    - split; [done| |set_solver]. exists init. by rewrite lookup_singleton_eq.
    - pose proof (potential_max valid order _ Hg). pose proof (order_length code g order Hb Ho). unfold analysis_fuel in Hfuel. nia. }
  rewrite (oo_entry _ _ Ho) in Hloop.
  eapply returns_bind; [by apply (returns_charge _ _ (λ _, True))|]. intros _ _.
  eapply returns_bind; [exact Hloop|]. intros inv Hok. apply returns_ret. exists (before valid code g order inv).
  destruct (lo_init _ _ _ _ _ _ Hok) as (q & Hq & Hle). split_and!.
  - exists q. split; [|done]. apply (before_start valid code Hwf Hvalid g order Hb Ho init inv); [done| |exact Hq]. apply head_Some_elem_of, (oo_entry _ _ Ho).
  - intros pc st. by apply (before_good valid code Hwf Hvalid g order Hb Ho init inv).
  - intros pc st i. by apply (before_step valid code Hwf Hvalid g order Hb Ho init inv).
Qed.

(** * When the iteration accepts *)

(** [never_fails m P]: where [m] returns, it returns no error, and its result has [P]. *)
Definition never_fails {St E R} (m : ST St E R) (P : R → Prop) : Prop :=
  ∀ s r s', m s = Ret (r, s') → ∃ a, r = Ok a ∧ P a.

Section never_fails.
Context {St E : Type}.

Lemma nf_ret {R} (a : R) (P : R → Prop) : P a → never_fails (mret a : ST St E R) P.
Proof. intros HP s r s' [= <- <-]. eauto. Qed.

Lemma nf_bind {R R'} (m : ST St E R) (f : R → ST St E R') P Q :
  never_fails m P → (∀ a, P a → never_fails (f a) Q) → never_fails (m ≫= f) Q.
Proof.
  intros Hm Hf s r s'. unfold mbind, st_bind. destruct (m s) as [[r1 s1]| |] eqn:Heq; [|done..].
  destruct (Hm _ _ _ Heq) as (a & -> & HP). by apply Hf.
Qed.

Lemma nf_lift {R} (m : outcome R) (P : R → Prop) : (∀ a, m = Ret a → P a) → never_fails (lift_o m : ST St E R) P.
Proof. intros HP s r s'. unfold lift_o. destruct m; naive_solver. Qed.
End never_fails.

Section accepts.
Import Interpreter.
Context {A S M : Type} `{!Meter M} `{!Analysis A S M}.
Context (code : list BC.Bytecode) (Hwf : wf_code code).
Context (g : VMControlFlowGraph) (Hblocks : blocks_ok code (blocks g)).
(** A meter without a limit, and a property of the states before the instructions under which nothing fails. *)
Context (Hmeter : ∀ scope units (m : M), ∃ m', meter_add scope units m = Ok m').
Context (J : Z → S → Prop).
Context (Hjoin : ∀ pc a b, J pc a → J pc b → never_fails (join a b : ST (A * M) StatusCode _) (λ r, J pc r.1)).
Context (Hexec : ∀ pc last st i, J pc st → instr_at code pc i →
  never_fails (execute st i pc last : ST (A * M) StatusCode S) (λ post, ∀ x, goes_to code pc x → J x post)).
Implicit Types (inv : gmap Z S) (st pre post : S).

Lemma nf_charge scope units (P : unit → Prop) : P tt → never_fails (charge scope units : ST (A * M) StatusCode unit) P.
Proof. intros HP s r s'. unfold charge. destruct (Hmeter scope units s.2) as (m' & ->). intros [= <- <-]. eauto. Qed.

Lemma nf_execute_instrs b bb pc st :
  blocks g !! b = Some bb → b <= pc <= exit bb → J pc st →
  never_fails (execute_instrs code (exit bb) (seqZ pc (exit bb - pc + 1)) st : ST (A * M) StatusCode S)
    (λ post, ∀ x, x ∈ ControlFlowGraph.successors bb → J x post).
Proof.
  intros Hbb. pose proof (bk_block _ _ Hblocks b bb Hbb) as Hbk. destruct (bo_start _ _ _ Hbk) as [Hb _]. pose proof (bo_exit _ _ _ Hbk).
  remember (Z.to_nat (exit bb - pc)) as n eqn:Hn. revert pc st Hn. induction n as [|n IH]; intros pc st Hn Hpc HJ.
  all: rewrite seqZ_cons by lia; cbn [execute_instrs]; (destruct (instr_at_ex code pc) as (i & Hi); [lia|]);
    eapply nf_bind; [apply (nf_lift _ (λ x, x = i)); intros i' Hi'; rewrite (instr_at_index code pc i Hi) in Hi'; congruence|]; intros ? ->;
    eapply nf_bind; [by apply Hexec|]; intros post Hpost.
  - rewrite seqZ_nil by lia. apply nf_ret. intros x Hx. apply Hpost. replace pc with (exit bb) by lia. by apply (bo_succ _ _ _ Hbk).
  - replace (Z.pred (exit bb - pc + 1)) with (exit bb - Z.succ pc + 1) by lia. apply IH; [lia..|].
    apply Hpost, (inside_goes_to code Hwf b bb pc _ Hbk); lia.
Qed.

Lemma nf_propagate u post succs candidate inv :
  map_Forall J inv → (∀ v, v ∈ succs → J v post) →
  never_fails (propagate g u post succs inv candidate : ST (A * M) StatusCode _) (λ r, map_Forall J r.1).
Proof.
  revert inv. induction succs as [|v succs IH]; intros inv Hinv Hs; cbn [propagate]; [by apply nf_ret|].
  eapply nf_bind; [by apply (nf_charge _ _ (λ _, True))|]. intros _ _. destruct (inv !! v) as [old|] eqn:Hv.
  - eapply nf_bind; [apply (Hjoin v); [by apply (map_Forall_lookup_1 _ _ _ _ Hinv)|apply Hs; set_solver]|]. intros [q j] Hq. cbn [fst snd] in *.
    assert (map_Forall J (<[v := q]> inv)) by by apply map_Forall_insert_2.
    assert (∀ w, w ∈ succs → J w post) by set_solver.
    destruct j; [destruct (Cfg.is_back_edge g u v)|]; [|by apply IH..].
    eapply nf_bind; [by apply (nf_charge _ _ (λ _, True))|]. intros _ _. by apply nf_ret.
  - apply IH; [apply map_Forall_insert_2; [apply Hs; set_solver|done]|set_solver].
Qed.

Lemma nf_loop fuel inv next :
  map_Forall J inv → never_fails (analyze_loop g code fuel inv next : ST (A * M) StatusCode _) (λ _, True).
Proof.
  revert inv next. induction fuel as [|fuel IH]; intros inv next Hinv; (destruct next as [b|]; cbn [analyze_loop]); [done|by apply nf_ret|..|by apply nf_ret].
  destruct (inv !! b) as [pre|] eqn:Hpre; [|by apply IH].
  eapply nf_bind with (P := λ post, ∀ bb x, blocks g !! b = Some bb → x ∈ ControlFlowGraph.successors bb → J x post).
  - unfold execute_block. eapply nf_bind; [by apply (nf_charge _ _ (λ _, True))|]. intros _ _.
    destruct (blocks g !! b) as [bb|] eqn:Hbb; unfold Cfg.block_end, Cfg.instr_indexes, Cfg.block_end; rewrite Hbb; [|by intros ?].
    intros s r s' Hr. destruct (nf_execute_instrs b bb b pre Hbb) with (s := s) (r := r) (s' := s') as (post & -> & Hpost).
    + pose proof (bo_exit _ _ _ (bk_block _ _ Hblocks b bb Hbb)). lia.
    + by apply (map_Forall_lookup_1 _ _ _ _ Hinv).
    + exact Hr.
    + exists post. naive_solver.
  - intros post Hpost. eapply nf_bind; [apply (nf_lift _ (λ succs, ∀ x, x ∈ succs → J x post))|].
    + intros succs. unfold Cfg.successors. destruct (blocks g !! b) as [bb|] eqn:Hbb; [|done]. intros [= <-]. naive_solver.
    + intros succs Hs. eapply nf_bind; [by apply nf_propagate|]. intros r Hr. by apply IH.
Qed.

Lemma nf_analyze fuel init : J ENTRY_BLOCK_ID init → never_fails (analyze_function g code fuel init : ST (A * M) StatusCode unit) (λ _, True).
Proof.
  intros HJ. unfold analyze_function. eapply nf_bind; [by apply (nf_charge _ _ (λ _, True))|]. intros _ _.
  eapply nf_bind; [apply nf_loop, map_Forall_singleton; exact HJ|]. intros ? _. by apply nf_ret.
Qed.
End accepts.

(** C19: the abstract interpreter is a sound and terminating analysis for every domain of finite height.  With
    enough turns it returns, never panics, and where it accepts a function there is a state for every
    instruction that control flow reaches such that the initial state is below that of the entry, every
    instruction executes without an error from its state, and what it computes is below the state of each
    instruction that can be next. *)
Theorem analyze_function_correct {A S M} `{!Meter M, !Analysis A S M} valid `{!AnalysisLaws A S M valid} code g fuel init s :
  wf_code code → (∀ pc i, instr_at code pc i → valid i) → Cfg.new code = Ret g → good init →
  (analysis_fuel (length code) max_height ≤ fuel)%nat →
  ∃ r s', Interpreter.analyze_function (A := A) (M := M) g code fuel init s = Ret (r, s') ∧
    (r = Ok tt → ∃ P, covers code init P).
Proof.
  intros Hwf Hvalid Hnew Hinit Hfuel. destruct (analyze_returns valid code g fuel init Hwf Hvalid Hnew Hinit Hfuel s) as (r & s' & Heq & HP).
  exists r, s'. split; [done|]. apply HP.
Qed.
