(* ===== verification/LocalsSafety.v ===== *)
(** The analysis of locals of the bytecode verifier ([move-bytecode-verifier/src/locals_safety/]): which
    locals have a value at each instruction.

    The state and its join are [abstract_state.rs], the transfer function and [verify] are [mod.rs]; the
    iteration is that of AbsInt, to which this file gives an [Analysis] with its laws.  The theorem says what
    the analysis is for in terms of the paths through the code. *)
From S2P Require Import Prelude MoveFormat ControlFlowGraph AbsInt.

Inductive LocalState := Unavailable | MaybeAvailable | Available.

#[global] Instance local_state_eq_dec : EqDecision LocalState.
Proof. solve_decision. Defined.

Definition STEP_BASE_COST : Z := 15.
Definition RET_PER_LOCAL_COST : Z := 30.
Definition JOIN_BASE_COST : Z := 10.
Definition JOIN_PER_LOCAL_COST : Z := 5.

Record AbstractState := mkState {
  current_function : option Z;
  all_local_abilities : list AbilitySet;
  local_states : list LocalState;
}.

Module Locals.
(** [AbstractState::new]. *)
Definition new (resolver : BinaryIndexedView) (fv : FunctionView) : VMResult AbstractState :=
  let num_args := length (fv_parameters fv) in
  let num_locals := (num_args + length (fv_locals fv))%nat in
  let local_states := (λ i, if (i <? num_args)%nat then Available else Unavailable) <$> seq 0 num_locals in
  all_local_abilities ← View.collect_results ((λ st, View.abilities resolver st (fv_type_parameters fv)) <$> (fv_parameters fv ++ fv_locals fv));
  mret (mkState (fv_index fv) all_local_abilities local_states).

Definition local_abilities (st : AbstractState) (idx : Z) : outcome AbilitySet := at_index (all_local_abilities st) idx.
Definition local_state (st : AbstractState) (idx : Z) : outcome LocalState := at_index (local_states st) idx.

Definition with_states (st : AbstractState) (l : list LocalState) : AbstractState :=
  mkState (current_function st) (all_local_abilities st) l.

Definition set_available (st : AbstractState) (idx : Z) : outcome AbstractState :=
  l ← set_index (local_states st) idx Available; mret (with_states st l).

Definition set_unavailable (st : AbstractState) (idx : Z) : outcome AbstractState :=
  s ← local_state st idx;
  assert_ (bool_decide (s = Available));;
  l ← set_index (local_states st) idx Unavailable; mret (with_states st l).

Definition join_local (a b : LocalState) : LocalState :=
  match a, b with
  | Unavailable, Unavailable => Unavailable
  | MaybeAvailable, Unavailable | Unavailable, MaybeAvailable | MaybeAvailable, MaybeAvailable
  | MaybeAvailable, Available | Available, MaybeAvailable | Unavailable, Available
  | Available, Unavailable => MaybeAvailable
  | Available, Available => Available
  end.

Definition join_ (a b : AbstractState) : outcome AbstractState :=
  assert_ (bool_decide (current_function a = current_function b));;
  assert_ (length (all_local_abilities a) =? length (all_local_abilities b))%nat;;
  assert_ (length (local_states a) =? length (local_states b))%nat;;
  mret (with_states a (zip_with join_local (local_states a) (local_states b))).

Section analysis.
Context {M : Type} `{!Meter M}.

Definition join (a b : AbstractState) : ST (unit * M) StatusCode (AbstractState * JoinResult) :=
  Interpreter.charge Function_ JOIN_BASE_COST;;
  Interpreter.add_items Function_ JOIN_PER_LOCAL_COST (length (local_states b));;
  joined ← lift_o (join_ a b);
  lift_o (assert_ (length (local_states a) =? length (local_states joined))%nat);;
  let locals_unchanged := forallb (λ e : LocalState * LocalState, bool_decide (e.1 = e.2)) (zip (local_states a) (local_states joined)) in
  mret (if locals_unchanged then (a, Unchanged) else (joined, Changed)).

Definition execute_inner (state : AbstractState) (bytecode : BC.Bytecode) : ST (unit * M) StatusCode AbstractState :=
  Interpreter.charge Function_ STEP_BASE_COST;;
  match bytecode with
  | BC.StLoc idx =>
      s ← lift_o (local_state state idx);
      match s with
      | Unavailable => lift_o (set_available state idx)
      | MaybeAvailable | Available =>
          a ← lift_o (local_abilities state idx);
          if negb (Abilities.has_drop a) then throw STLOC_UNSAFE_TO_DESTROY_ERROR else lift_o (set_available state idx)
      end
  | BC.MoveLoc idx =>
      s ← lift_o (local_state state idx);
      match s with
      | MaybeAvailable | Unavailable => throw MOVELOC_UNAVAILABLE_ERROR
      | Available => lift_o (set_unavailable state idx)
      end
  | BC.CopyLoc idx =>
      s ← lift_o (local_state state idx);
      match s with MaybeAvailable | Unavailable => throw COPYLOC_UNAVAILABLE_ERROR | Available => mret state end
  | BC.MutBorrowLoc idx | BC.ImmBorrowLoc idx =>
      s ← lift_o (local_state state idx);
      match s with Unavailable | MaybeAvailable => throw BORROWLOC_UNAVAILABLE_ERROR | Available => mret state end
  | BC.Ret =>
      Interpreter.add_items Function_ RET_PER_LOCAL_COST (length (local_states state));;
      lift_o (assert_ (length (local_states state) =? length (all_local_abilities state))%nat);;
      if existsb (λ e : LocalState * AbilitySet, match e.1 with MaybeAvailable | Available => negb (Abilities.has_drop e.2) | Unavailable => false end)
           (zip (local_states state) (all_local_abilities state))
      then throw UNSAFE_RET_UNUSED_VALUES_WITHOUT_DROP else mret state
  | _ => mret state
  end.

#[global] Instance locals_safety_analysis : Analysis unit AbstractState M := {
  AbsInt.join := join;
  execute state bytecode index last_index := execute_inner state bytecode;
}.

Definition verify (fuel : nat) (resolver : BinaryIndexedView) (fv : FunctionView) : ST (unit * M) StatusCode unit :=
  initial ← lift_o (new resolver fv);
  initial_state ← lift_r initial;
  Interpreter.analyze_function (fv_cfg fv) (fv_code fv) fuel initial_state.
End analysis.
End Locals.

(** * The laws of the analysis *)

(** The locals that an instruction names exist. *)
Definition names_locals (n : nat) (i : BC.Bytecode) : Prop :=
  match i with
  | BC.StLoc idx | BC.MoveLoc idx | BC.CopyLoc idx | BC.MutBorrowLoc idx | BC.ImmBorrowLoc idx => 0 <= idx < Z.of_nat n
  | _ => True
  end.

Definition local_leq (a b : LocalState) : Prop := b = MaybeAvailable ∨ a = b.

#[global] Instance local_leq_preorder : PreOrder local_leq.
Proof. split; [by right|]. intros a b c [?|?] [?|?]; unfold local_leq; subst; auto. Qed.

Definition settled (l : list LocalState) : list LocalState := filter (λ s, s ≠ MaybeAvailable) l.

Lemma join_local_ub a b : local_leq a (Locals.join_local a b) ∧ local_leq b (Locals.join_local a b).
Proof. destruct a, b; unfold local_leq; cbn; auto. Qed.

Lemma join_local_cases a b : Locals.join_local a b = a ∨ Locals.join_local a b = MaybeAvailable ∧ a ≠ MaybeAvailable.
Proof. destruct a, b; cbn; auto. Qed.

Lemma join_states_height l l' :
  length l = length l' →
  zip_with Locals.join_local l l' = l ∨ (length (settled (zip_with Locals.join_local l l')) < length (settled l))%nat.
Proof.
  revert l'. induction l as [|a l IH]; intros [|b l'] Hlen; [by left|done..|]. injection Hlen as Hlen. cbn [zip_with]. unfold settled in *.
  assert (length (filter (λ s, s ≠ MaybeAvailable) (zip_with Locals.join_local l l')) ≤ length (filter (λ s, s ≠ MaybeAvailable) l))%nat
    by (destruct (IH l' Hlen) as [->|]; lia).
  destruct (join_local_cases a b) as [->|[-> Ha]].
  - destruct (IH l' Hlen) as [->|Hlt]; [by left|right]. rewrite !filter_cons. case_decide; cbn [length]; lia.
  - right. rewrite filter_cons_False by auto. rewrite filter_cons_True by done. cbn [length]. lia.
Qed.

Lemma unchanged_eq (l l' : list LocalState) :
  length l = length l' → forallb (λ e : LocalState * LocalState, bool_decide (e.1 = e.2)) (zip l l') = true ↔ l' = l.
Proof.
  revert l'. induction l as [|a l IH]; intros [|b l'] Hlen; [done..|]. injection Hlen as Hlen. cbn.
  rewrite andb_true_iff, bool_decide_eq_true, IH by done. naive_solver.
Qed.

Section laws.
Context {M : Type} `{!Meter M}.
(** The function that is analysed and the abilities of its locals. *)
Context (index : option Z) (abs : list AbilitySet).
Implicit Types (st : AbstractState) (av : list bool).

Record state_ok st : Prop := {
  ok_function : current_function st = index;
  ok_abilities : all_local_abilities st = abs;
  ok_length : length (local_states st) = length abs;
}.

Definition state_leq st st' : Prop := Forall2 local_leq (local_states st) (local_states st').

Lemma with_states_ok st l : state_ok st → length l = length abs → state_ok (Locals.with_states st l).
Proof. intros [? ? ?] ?. by split. Qed.

Lemma lookup_local st idx :
  state_ok st → 0 <= idx < Z.of_nat (length abs) →
  ∃ s a, local_states st !! Z.to_nat idx = Some s ∧ abs !! Z.to_nat idx = Some a ∧
    Locals.local_state st idx = Ret s ∧ Locals.local_abilities st idx = Ret a.
Proof.
  intros [Hf Ha Hl] Hidx. destruct (lookup_lt_is_Some_2 (local_states st) (Z.to_nat idx)) as (s & Hs); [lia|].
  destruct (lookup_lt_is_Some_2 abs (Z.to_nat idx)) as (a & Habs); [lia|]. exists s, a. split_and!; [done..| |].
  - apply at_index_eq; [lia|done].
  - apply at_index_eq; [lia|by rewrite Ha].
Qed.

Lemma add_items_returns scope units n (P : unit → Prop) :
  P tt → returns (Interpreter.add_items scope units n : ST (unit * M) StatusCode unit) P.
Proof. intros HP. unfold Interpreter.add_items. case_match; [by apply returns_ret|by apply returns_charge]. Qed.

Lemma join_ok st st' :
  state_ok st → state_ok st' →
  returns (Locals.join st st' : ST (unit * M) StatusCode _) (λ r,
    local_states r.1 = zip_with Locals.join_local (local_states st) (local_states st') ∧
    state_ok r.1 ∧ state_leq st r.1 ∧ state_leq st' r.1 ∧
    match r.2 with Unchanged => r.1 = st | Changed => (length (settled (local_states r.1)) < length (settled (local_states st)))%nat end).
Proof.
  intros Hst Hst'. pose proof Hst as [Hf Ha Hl]. pose proof Hst' as [Hf' Ha' Hl'].
  set (l := zip_with Locals.join_local (local_states st) (local_states st')).
  assert (length l = length (local_states st)) as Hlen by (unfold l; rewrite length_zip_with; lia).
  assert (state_leq st (Locals.with_states st l) ∧ state_leq st' (Locals.with_states st l)) as [Hub Hub'].
  { split; apply Forall2_same_length_lookup; cbn; (split; [lia|]); intros k a c Hk Hc;
      apply lookup_zip_with_Some in Hc as (x & y & -> & ? & ?); simplify_eq; apply join_local_ub. }
  unfold Locals.join. eapply returns_bind; [by apply (returns_charge _ _ (λ _, True))|]. intros _ _.
  eapply returns_bind; [by apply (add_items_returns _ _ _ (λ _, True))|]. intros _ _.
  eapply returns_bind; [eapply (returns_lift _ (Locals.with_states st l) (λ x, x = _)); [|done]|].
  { unfold Locals.join_. rewrite Hf, Hf', Ha, Ha', Hl, Hl'. rewrite bool_decide_true by done. by rewrite !Nat.eqb_refl. }
  intros ? ->. eapply returns_bind; [eapply (returns_lift _ tt (λ _, True)); [|done]|].
  { cbn [local_states Locals.with_states]. by rewrite Hlen, Nat.eqb_refl. }
  intros _ _. apply returns_ret. cbn [local_states Locals.with_states].
  destruct (forallb _ _) eqn:Hall; cbn [fst snd].
  - apply unchanged_eq in Hall; [|lia]. split_and!; [done..|apply Forall2_same_length_lookup; naive_solver reflexivity| |done].
    destruct st as [f a ls]. unfold state_leq in Hub'. cbn in Hub', Hall |- *. by rewrite Hall in Hub'.
  - split_and!; [done|by apply with_states_ok; [|lia]|done..|]. destruct (join_states_height (local_states st) (local_states st')) as [Heq|]; [lia| |done].
    fold l in Heq. apply unchanged_eq in Heq; [congruence|lia].
Qed.
(** ** Locals along a path *)

(** The locals that have a value, as the instructions change them. *)
Definition after (i : BC.Bytecode) av : list bool :=
  match i with
  | BC.StLoc idx => <[Z.to_nat idx := true]> av
  | BC.MoveLoc idx => <[Z.to_nat idx := false]> av
  | _ => av
  end.

(** What an instruction needs: it uses only locals with a value, and a value that is overwritten or is left
    in a local on return has [drop]. *)
Definition local_safe (i : BC.Bytecode) av : Prop :=
  match i with
  | BC.StLoc idx => av !! Z.to_nat idx = Some true → ∀ a, abs !! Z.to_nat idx = Some a → Abilities.has_drop a = true
  | BC.MoveLoc idx | BC.CopyLoc idx | BC.MutBorrowLoc idx | BC.ImmBorrowLoc idx => av !! Z.to_nat idx = Some true
  | BC.Ret => ∀ k a, av !! k = Some true → abs !! k = Some a → Abilities.has_drop a = true
  | _ => True
  end.

Definition models_local (s : LocalState) (b : bool) : Prop :=
  match s with Unavailable => b = false | MaybeAvailable => True | Available => b = true end.

Definition models st av : Prop := Forall2 models_local (local_states st) av.

Lemma models_leq st st' av : state_leq st st' → models st av → models st' av.
Proof.
  intros Hle Hm. unfold models, state_leq in *. rewrite Forall2_same_length_lookup in Hle. rewrite Forall2_same_length_lookup in Hm. rewrite Forall2_same_length_lookup. destruct Hle as [Hl Hle], Hm as [Hl' Hm].
  split; [lia|]. intros k s' b Hs' Hb. destruct (lookup_lt_is_Some_2 (local_states st) k) as (s & Hs).
  { apply lookup_lt_Some in Hs'. lia. }
  destruct (Hle k s s' Hs Hs') as [->|<-]; [done|]. by apply (Hm k).
Qed.

Lemma models_insert st av idx s b :
  models st av → models_local s b → models (Locals.with_states st (<[idx := s]> (local_states st))) (<[idx := b]> av).
Proof. intros Hm Hs. unfold models. cbn. by apply Forall2_insert. Qed.

(** When the transfer function accepts an instruction that names existing locals, the instruction is safe for the locals the
    state stands for, and the next state stands for the locals after it. *)
Definition accepts (i : BC.Bytecode) st post : Prop :=
  state_ok post ∧ ∀ av, models st av → local_safe i av ∧ models post (after i av).

Lemma models_lookup st av k s : models st av → local_states st !! k = Some s → ∃ b, av !! k = Some b ∧ models_local s b.
Proof. intros Hm Hs. eapply Forall2_lookup_l; [exact Hm|done]. Qed.

Lemma set_state_ok st idx s : state_ok st → state_ok (Locals.with_states st (<[Z.to_nat idx := s]> (local_states st))).
Proof. intros Hst. apply with_states_ok; [done|]. rewrite length_insert. by apply Hst. Qed.

Lemma set_available_eq st idx :
  state_ok st → 0 <= idx < Z.of_nat (length abs) →
  Locals.set_available st idx = Ret (Locals.with_states st (<[Z.to_nat idx := Available]> (local_states st))).
Proof. intros [Hf Ha Hl] Hidx. unfold Locals.set_available. rewrite set_index_eq by lia. done. Qed.

Lemma set_unavailable_eq st idx :
  state_ok st → 0 <= idx < Z.of_nat (length abs) → Locals.local_state st idx = Ret Available →
  Locals.set_unavailable st idx = Ret (Locals.with_states st (<[Z.to_nat idx := Unavailable]> (local_states st))).
Proof. intros [Hf Ha Hl] Hidx Hs. unfold Locals.set_unavailable. rewrite Hs. cbn. rewrite set_index_eq by lia. done. Qed.

Lemma stloc_ok st idx :
  state_ok st → 0 <= idx < Z.of_nat (length abs) →
  returns (Locals.execute_inner st (BC.StLoc idx) : ST (unit * M) StatusCode _) (accepts (BC.StLoc idx) st).
Proof.
  intros Hst Hidx. destruct (lookup_local st idx Hst Hidx) as (s & a & Hs & Ha & Hs' & Ha').
  assert ((s = Unavailable ∨ Abilities.has_drop a = true) →
    returns (lift_o (Locals.set_available st idx) : ST (unit * M) StatusCode _) (accepts (BC.StLoc idx) st)) as Hset.
  { intros Hor. eapply returns_lift; [by apply set_available_eq|]. split; [by apply set_state_ok|]. intros av Hm.
    split; [|by apply models_insert]. intros Hav a' Ha2. simplify_eq. destruct Hor as [->|]; [|done].
    destruct (models_lookup _ _ _ _ Hm Hs) as (b & ? & ?). cbn in *. congruence. }
  unfold Locals.execute_inner. eapply returns_bind; [by apply (returns_charge _ _ (λ _, True))|]. intros _ _.
  eapply returns_bind; [by eapply (returns_lift _ s (λ x, x = s))|]. intros ? ->. destruct s; [by apply Hset; left|..].
  all: eapply returns_bind; [by eapply (returns_lift _ a (λ x, x = a))|]; intros ? ->.
  all: destruct (Abilities.has_drop a) eqn:Hd; cbn [negb]; [by apply Hset; right|].
  all: intros s; eexists _, _; by split.
Qed.

(** The other instructions that name a local need a value in it. *)
Lemma needs_value st idx (i : BC.Bytecode) e (k : ST (unit * M) StatusCode AbstractState) :
  state_ok st → 0 <= idx < Z.of_nat (length abs) →
  (Locals.local_state st idx = Ret Available → local_states st !! Z.to_nat idx = Some Available → returns k (accepts i st)) →
  returns (s ← lift_o (Locals.local_state st idx); match s with MaybeAvailable | Unavailable => throw e | Available => k end) (accepts i st).
Proof.
  intros Hst Hidx Hk. destruct (lookup_local st idx Hst Hidx) as (s & a & Hs & _ & Hs' & _).
  eapply returns_bind; [by eapply (returns_lift _ s (λ x, x = s))|]. intros ? ->.
  destruct s; [intros ?; eexists _, _; by split..|]. by apply Hk.
Qed.

Lemma ret_ok st : state_ok st → returns (Locals.execute_inner st BC.Ret : ST (unit * M) StatusCode _) (accepts BC.Ret st).
Proof.
  intros Hst. pose proof Hst as [Hf Ha Hl]. unfold Locals.execute_inner.
  eapply returns_bind; [by apply (returns_charge _ _ (λ _, True))|]. intros _ _.
  eapply returns_bind; [by apply (add_items_returns _ _ _ (λ _, True))|]. intros _ _.
  eapply returns_bind; [eapply (returns_lift _ tt (λ _, True)); [by rewrite Ha, Hl, Nat.eqb_refl|done]|]. intros _ _.
  destruct (existsb _ _) eqn:Hex; [intros ?; eexists _, _; by split|]. apply returns_ret. split; [done|]. intros av Hm. split; [|done].
  intros k a Hav Habs. destruct (Abilities.has_drop a) eqn:Hd; [done|]. destruct (lookup_lt_is_Some_2 (local_states st) k) as (s & Hs).
  { apply lookup_lt_Some in Habs. lia. }
  destruct (models_lookup _ _ _ _ Hm Hs) as (b & ? & Hb). simplify_eq.
  enough (existsb (λ e : LocalState * AbilitySet, match e.1 with MaybeAvailable | Available => negb (Abilities.has_drop e.2) | Unavailable => false end)
    (zip (local_states st) (all_local_abilities st)) = true) by congruence.
  apply existsb_exists. exists (s, a). split; [|destruct s; cbn in *; by rewrite ?Hd].
  apply list_elem_of_In, (list_elem_of_lookup_2 _ k), lookup_zip_with_Some. exists s, a. by rewrite Ha.
Qed.

Lemma execute_ok st i :
  state_ok st → names_locals (length abs) i → returns (Locals.execute_inner st i : ST (unit * M) StatusCode _) (accepts i st).
Proof.
  intros Hst Hi. assert (∀ (i : BC.Bytecode), (∀ av, local_safe i av ∧ after i av = av) → returns (mret st : ST (unit * M) StatusCode _) (accepts i st)) as Hsame.
  { intros j Hj. apply returns_ret. split; [done|]. intros av Hm. destruct (Hj av) as [? ->]. done. }
  destruct i; try (by apply ret_ok); try (by apply stloc_ok); unfold Locals.execute_inner;
    (eapply returns_bind; [by apply (returns_charge _ _ (λ _, True))|]; intros _ _); try (by apply Hsame; intros av; cbn).
  all: apply needs_value; [done|exact Hi|]; intros Hav Hs.
  2: { eapply returns_lift; [by apply set_unavailable_eq|]. split; [by apply set_state_ok|]. intros av Hm. split; [|by apply models_insert].
       by destruct (models_lookup _ _ _ _ Hm Hs) as (b & ? & ->). }
  all: apply returns_ret; split; [done|]; intros av Hm; split; [|done].
  all: by destruct (models_lookup _ _ _ _ Hm Hs) as (b & ? & ->).
Qed.

#[local] Instance state_leq_preorder : PreOrder state_leq.
Proof.
  split.
  - intros st. unfold state_leq. reflexivity.
  - intros a b c ??. unfold state_leq in *. by etrans.
Qed.

#[refine, global] Instance locals_laws : AnalysisLaws unit AbstractState M (names_locals (length abs)) := {
  good := state_ok;
  leq := state_leq;
  height st := length (settled (local_states st));
  max_height := length abs;
}.
Proof.
  - intros st [_ _ Hl]. rewrite <- Hl. apply length_filter.
  - intros st st' Hst Hst'. eapply returns_weaken; [by apply join_ok|]. naive_solver.
  - intros st i ? ? Hst Hi. eapply returns_weaken; [by apply execute_ok|]. by intros post [].
Defined.
End laws.

(** * What the analysis establishes *)

(** The locals with a value where a path through the code gets to. *)
Inductive path (code : list BC.Bytecode) (num_args num_locals : nat) : Z → list bool → Prop :=
  | path_start : path code num_args num_locals ENTRY_BLOCK_ID (replicate num_args true ++ replicate num_locals false)
  | path_step pc av i next :
      path code num_args num_locals pc av → instr_at code pc i → goes_to code pc next →
      path code num_args num_locals next (after i av).

Lemma collect_results_length {A} (l : list (VMResult A)) xs : View.collect_results l = Ret (Ok xs) → length xs = length l.
Proof.
  revert xs. induction l as [|m l IH]; intros xs; cbn; [by intros [= <-]|]. unfold mbind, vm_bind.
  destruct m as [[x|]| |]; [|done..]. destruct (View.collect_results l) as [[ys|]| |]; [|done..]. intros [= <-]. cbn. by rewrite (IH ys).
Qed.

Lemma new_states resolver fv init :
  Locals.new resolver fv = Ret (Ok init) →
  state_ok (fv_index fv) (all_local_abilities init) init ∧
  models init (replicate (length (fv_parameters fv)) true ++ replicate (length (fv_locals fv)) false).
Proof.
  unfold Locals.new. destruct (View.collect_results _) as [[abs|]| |] eqn:Habs; [|done..]. intros [= <-].
  apply collect_results_length in Habs. rewrite length_fmap, length_app in Habs.
  split; [split; cbn; [done..|by rewrite length_fmap, length_seq]|].
  unfold models. cbn [local_states]. rewrite seq_app, fmap_app. apply Forall2_app.
  - apply Forall2_same_length_lookup. rewrite length_fmap, length_seq, length_replicate. split; [done|].
    intros k s b Hs Hb. apply lookup_replicate in Hb as [-> Hk]. apply list_lookup_fmap_Some in Hs as (x & -> & Hx).
    apply lookup_seq in Hx as [-> _]. by rewrite (proj2 (Nat.ltb_lt _ _)) by lia.
  - apply Forall2_same_length_lookup. rewrite length_fmap, length_seq, length_replicate. split; [done|].
    intros k s b Hs Hb. apply lookup_replicate in Hb as [-> Hk]. apply list_lookup_fmap_Some in Hs as (x & -> & Hx).
    apply lookup_seq in Hx as [-> _]. by rewrite (proj2 (Nat.ltb_ge _ _)) by lia.
Qed.

Lemma execute_accepts {M} `{!Meter M} index abs st i (s : unit * M) post s' :
  state_ok index abs st → names_locals (length abs) i → Locals.execute_inner st i s = Ret (Ok post, s') → accepts index abs i st post.
Proof. intros Hst Hi Hex. destruct (execute_ok index abs st i Hst Hi s) as (r & s1 & Heq & HP). rewrite Hex in Heq. simplify_eq. by apply HP. Qed.

Lemma verify_returns {M} `{!Meter M} fuel resolver fv x :
  wf_code (fv_code fv) → Cfg.new (fv_code fv) = Ret (fv_cfg fv) → Locals.new resolver fv = Ret x →
  (∀ pc i, instr_at (fv_code fv) pc i → names_locals (length (fv_parameters fv) + length (fv_locals fv)) i) →
  (analysis_fuel (length (fv_code fv)) (length (fv_parameters fv) + length (fv_locals fv)) ≤ fuel)%nat →
  returns (Locals.verify (M := M) fuel resolver fv) (λ _, ∃ init, x = Ok init ∧
    ∀ pc av i, path (fv_code fv) (length (fv_parameters fv)) (length (fv_locals fv)) pc av → instr_at (fv_code fv) pc i →
      local_safe (all_local_abilities init) i av).
Proof.
  intros Hwf Hcfg Hnew Hnames Hfuel. unfold Locals.verify.
  eapply returns_bind; [by eapply (returns_lift _ x (λ y, y = x))|]. intros ? ->.
  destruct x as [init|e]; [|intros s; eexists _, _; by split].
  eapply returns_bind; [by apply (returns_ret init (λ y, y = init))|]. intros ? ->.
  destruct (new_states resolver fv init Hnew) as (Hok & Hm).
  assert (length (all_local_abilities init) = length (fv_parameters fv) + length (fv_locals fv))%nat as Hlen.
  { rewrite <- (ok_length _ _ _ Hok). apply Forall2_length in Hm. by rewrite Hm, length_app, !length_replicate. }
  pose (laws := locals_laws (M := M) (fv_index fv) (all_local_abilities init)).
  eapply returns_weaken; [apply (analyze_returns (names_locals (length (all_local_abilities init)))); [done|by rewrite Hlen|done|done|cbn; by rewrite Hlen]|].
  intros [] (P & (q & Hq & Hle) & Hgood & Hstep). exists init. split; [done|].
  assert (∀ pc av, path (fv_code fv) (length (fv_parameters fv)) (length (fv_locals fv)) pc av → ∃ st, P pc st ∧ models st av) as Hinv.
  { induction 1 as [|pc av i next Hp (st & HP & Hst) Hi Hgo].
    - exists q. split; [done|]. by eapply models_leq.
    - destruct (Hstep pc st i HP Hi) as (last & s & s' & post & Hex & Hnext). destruct (Hnext next Hgo) as (q' & Hq' & Hle').
      apply (execute_accepts _ _ _ _ _ _ _ (Hgood pc st HP)) in Hex as [_ Hacc]; [|rewrite Hlen; by eapply Hnames].
      exists q'. split; [done|]. eapply models_leq; [exact Hle'|]. by apply Hacc. }
  intros pc av i Hp Hi. destruct (Hinv pc av Hp) as (st & HP & Hst).
  destruct (Hstep pc st i HP Hi) as (last & s & s' & post & Hex & _).
  apply (execute_accepts _ _ _ _ _ _ _ (Hgood pc st HP)) in Hex as [_ Hacc]; [|rewrite Hlen; by eapply Hnames]. by apply Hacc.
Qed.

(** ** Nothing else is rejected *)
Section exact.
Context (code : list BC.Bytecode) (index : option Z) (abs : list AbilitySet) (num_args num_locals : nat).
Context (Hwf : wf_code code) (Hlen : length abs = (num_args + num_locals)%nat).
Context (Hnames : ∀ pc i, instr_at code pc i → names_locals (length abs) i).
Context (Hsafe : ∀ pc av i, path code num_args num_locals pc av → instr_at code pc i → local_safe abs i av).
Implicit Types (st : AbstractState) (av : list bool).

(** A path on which the local has, or has no, value. *)
Definition some_path (pc : Z) (k : nat) (b : bool) : Prop := ∃ av, path code num_args num_locals pc av ∧ av !! k = Some b.

(** Each entry of the state is due to some path. *)
Definition justified (pc : Z) (k : nat) (s : LocalState) : Prop :=
  match s with
  | Available => some_path pc k true
  | Unavailable => some_path pc k false
  | MaybeAvailable => some_path pc k true ∧ some_path pc k false
  end.

Definition due (pc : Z) st : Prop := state_ok index abs st ∧ ∀ k s, local_states st !! k = Some s → justified pc k s.

Lemma path_length pc av : path code num_args num_locals pc av → length av = length abs.
Proof.
  induction 1 as [|pc av i next Hp IH Hi Hgo]; [by rewrite length_app, !length_replicate|].
  destruct i; cbn; by rewrite ?length_insert.
Qed.

Lemma after_other i av k : (∀ idx, i = BC.StLoc idx ∨ i = BC.MoveLoc idx → Z.to_nat idx ≠ k) → after i av !! k = av !! k.
Proof. intros Hk. destruct i; cbn; try done; apply list_lookup_insert_ne; apply Hk; auto. Qed.

Lemma justified_next pc next i k s :
  instr_at code pc i → goes_to code pc next → (∀ idx, i = BC.StLoc idx ∨ i = BC.MoveLoc idx → Z.to_nat idx ≠ k) →
  justified pc k s → justified next k s.
Proof.
  intros Hi Hgo Hk. assert (∀ b, some_path pc k b → some_path next k b) as Hb.
  { intros b (av & Hp & Hav). exists (after i av). split; [by eapply path_step|]. by rewrite after_other. }
  destruct s; cbn; naive_solver.
Qed.

Lemma justified_some pc k s : justified pc k s → ∃ b, some_path pc k b.
Proof. destruct s; cbn; naive_solver. Qed.

(** Writing a local. *)
Lemma due_insert pc next i st idx (b : bool) :
  due pc st → instr_at code pc i → goes_to code pc next → 0 <= idx < Z.of_nat (length abs) →
  (∀ av, after i av = <[Z.to_nat idx := b]> av) → (∀ idx', i = BC.StLoc idx' ∨ i = BC.MoveLoc idx' → idx' = idx) →
  due next (Locals.with_states st (<[Z.to_nat idx := if b then Available else Unavailable]> (local_states st))).
Proof.
  intros [Hok Hst] Hi Hgo Hidx Hafter Honly. split; [by apply set_state_ok|]. intros k s Hk. cbn in Hk.
  apply list_lookup_insert_Some in Hk as [(<- & <- & Hlt)|[Hne Hk]].
  - destruct (lookup_lt_is_Some_2 (local_states st) (Z.to_nat idx)) as (s & Hs); [done|].
    destruct (justified_some _ _ _ (Hst _ _ Hs)) as (b' & av & Hp & Hav).
    enough (some_path next (Z.to_nat idx) b) by by destruct b.
    exists (after i av). split; [by eapply path_step|]. rewrite Hafter. apply list_lookup_insert_eq. by apply lookup_lt_Some in Hav.
  - eapply justified_next; [done..| |by apply Hst]. intros idx' Hor. by rewrite (Honly idx' Hor).
Qed.

Lemma due_same pc next i st : due pc st → instr_at code pc i → goes_to code pc next → (∀ idx, i ≠ BC.StLoc idx ∧ i ≠ BC.MoveLoc idx) → due next st.
Proof.
  intros [Hok Hst] Hi Hgo Hno. split; [done|]. intros k s Hk. eapply justified_next; [done..| |by apply Hst].
  intros idx [?|?]; by destruct (Hno idx).
Qed.

Lemma dummy_limit scope units (m : unit) : ∃ m', meter_add scope units m = Ok m'.
Proof. by exists m. Qed.

Lemma nf_add_items scope units n : never_fails (Interpreter.add_items scope units n : ST (unit * unit) StatusCode unit) (λ _, True).
Proof. unfold Interpreter.add_items. case_match; [by apply nf_ret|]. by apply nf_charge; [apply dummy_limit|]. Qed.

Lemma justified_join pc k a b : justified pc k a → justified pc k b → justified pc k (Locals.join_local a b).
Proof. destruct a, b; cbn; naive_solver. Qed.

Lemma due_join pc st st' :
  due pc st → due pc st' → never_fails (Locals.join st st' : ST (unit * unit) StatusCode _) (λ r, due pc r.1).
Proof.
  intros [Hok Hst] [Hok' Hst'] s r s' Hr.
  assert (never_fails (Locals.join st st' : ST (unit * unit) StatusCode _) (λ _, True)) as Hnf.
  { unfold Locals.join. eapply nf_bind; [by apply (nf_charge dummy_limit _ _ (λ _, True))|]. intros _ _.
    eapply nf_bind; [apply nf_add_items|]. intros _ _. eapply nf_bind; [by apply (nf_lift _ (λ _, True))|]. intros joined _.
    eapply nf_bind; [by apply (nf_lift _ (λ _, True))|]. intros _ _. by apply nf_ret. }
  destruct (Hnf s r s' Hr) as (a & -> & _). exists a. split; [done|].
  destruct (join_ok (M := unit) index abs st st' Hok Hok' s) as (r' & s1 & Hr' & HP). rewrite Hr in Hr'. simplify_eq.
  destruct (HP a eq_refl) as (Hzip & Hoka & _). split; [done|]. intros k x Hx. rewrite Hzip in Hx.
  apply lookup_zip_with_Some in Hx as (y & z & -> & Hy & Hz). apply justified_join; auto.
Qed.

(** The instructions that name a local find a value in it. *)
Lemma nf_needs pc i st idx e (k : ST (unit * unit) StatusCode AbstractState) P :
  due pc st → instr_at code pc i → 0 <= idx < Z.of_nat (length abs) → (∀ av, local_safe abs i av → av !! Z.to_nat idx = Some true) →
  never_fails k P →
  never_fails (s ← lift_o (Locals.local_state st idx); match s with MaybeAvailable | Unavailable => throw e | Available => k end) P.
Proof.
  intros [Hok Hst] Hi Hidx Hneed Hk. destruct (lookup_local _ _ _ _ Hok Hidx) as (s & a & Hs & Ha & Hs' & _). rewrite Hs'.
  assert (s = Available) as ->; [|exact Hk].
  assert (¬ some_path pc (Z.to_nat idx) false) as Hno.
  { intros (av & Hp & Hav). specialize (Hneed av (Hsafe _ _ _ Hp Hi)). congruence. }
  specialize (Hst _ _ Hs). destruct s; cbn in Hst; naive_solver.
Qed.

Lemma nf_stloc pc st idx next :
  due pc st → instr_at code pc (BC.StLoc idx) →
  never_fails (Locals.execute_inner st (BC.StLoc idx) : ST (unit * unit) StatusCode _) (λ post, goes_to code pc next → due next post).
Proof.
  intros Hdue Hi. pose proof Hdue as [Hok Hst]. pose proof (Hnames _ _ Hi : 0 <= idx < _) as Hidx.
  destruct (lookup_local _ _ _ _ Hok Hidx) as (s & a & Hs & Ha & Hs' & Ha').
  assert (never_fails (lift_o (Locals.set_available st idx) : ST (unit * unit) StatusCode _) (λ post, goes_to code pc next → due next post)) as Hset.
  { apply nf_lift. intros post. rewrite (set_available_eq _ _ _ _ Hok Hidx). intros [= <-] Hgo.
    apply (due_insert pc next (BC.StLoc idx) st idx true); [done..|]. naive_solver. }
  unfold Locals.execute_inner. eapply nf_bind; [by apply (nf_charge dummy_limit _ _ (λ _, True))|]. intros _ _. rewrite Hs', Ha'.
  assert (s ≠ Unavailable → Abilities.has_drop a = true) as Hdrop.
  { intros Hne. assert (some_path pc (Z.to_nat idx) true) as (av & Hp & Hav) by (specialize (Hst _ _ Hs); destruct s; naive_solver).
    by apply (Hsafe _ _ _ Hp Hi Hav). }
  destruct s; [exact Hset|..]; intros s0 r s1; unfold mbind, st_bind; cbn [lift_o]; rewrite Hdrop by done; apply Hset.
Qed.

Lemma nf_ret_instr pc st : due pc st → instr_at code pc BC.Ret → never_fails (Locals.execute_inner st BC.Ret : ST (unit * unit) StatusCode _) (λ post, post = st).
Proof.
  intros [Hok Hst] Hi. unfold Locals.execute_inner. eapply nf_bind; [by apply (nf_charge dummy_limit _ _ (λ _, True))|]. intros _ _.
  eapply nf_bind; [apply nf_add_items|]. intros _ _. eapply nf_bind; [by apply (nf_lift _ (λ _, True))|]. intros _ _.
  destruct (existsb _ _) eqn:Hex; [|by apply nf_ret]. apply existsb_exists in Hex as ([s a] & Hin & Hbad).
  apply list_elem_of_In, list_elem_of_lookup in Hin as (k & Hk). apply lookup_zip_with_Some in Hk as (s' & a' & [= <- <-] & Hs & Ha).
  rewrite (ok_abilities _ _ _ Hok) in Ha. exfalso.
  assert (some_path pc k true) as (av & Hp & Hav) by (specialize (Hst _ _ Hs); destruct s; naive_solver).
  pose proof (Hsafe _ _ _ Hp Hi k a Hav Ha) as Hd. destruct s; cbn in Hbad; rewrite ?Hd in Hbad; done.
Qed.

Lemma nf_execute pc st i :
  due pc st → instr_at code pc i →
  never_fails (Locals.execute_inner st i : ST (unit * unit) StatusCode _) (λ post, ∀ x, goes_to code pc x → due x post).
Proof.
  intros Hdue Hi. pose proof (Hnames _ _ Hi) as Hn. pose proof Hdue as [Hok Hst].
  assert ((∀ idx, i ≠ BC.StLoc idx ∧ i ≠ BC.MoveLoc idx) →
    never_fails (mret st : ST (unit * unit) StatusCode _) (λ post, ∀ x, goes_to code pc x → due x post)) as Hsame.
  { intros Hno. apply nf_ret. intros x Hgo. by eapply due_same. }
  destruct i; try (intros s r s' Hr; destruct (nf_ret_instr pc st Hdue Hi s r s' Hr) as (? & -> & ->); eexists; split; [done|];
      intros; by eapply due_same);
    try (intros s r s' Hr; pose proof (λ x, nf_stloc pc st idx x Hdue Hi s r s' Hr) as Hall; destruct (Hall pc) as (post & -> & _); exists post;
      split; [done|]; intros x; destruct (Hall x) as (? & [= <-] & ?); done);
    unfold Locals.execute_inner; (eapply nf_bind; [by apply (nf_charge dummy_limit _ _ (λ _, True))|]; intros _ _); try (by apply Hsame).
  all: eapply (nf_needs pc); [done|exact Hi|done|by intros av|]; try (by apply Hsame).
  apply nf_lift. intros post Hpost x Hgo. destruct (lookup_local _ _ _ _ Hok Hn) as (s & a & Hs & _ & Hs' & _).
  assert (s = Available) as -> by (unfold Locals.set_unavailable in Hpost; rewrite Hs' in Hpost; by destruct s).
  rewrite (set_unavailable_eq _ _ _ _ Hok Hn Hs') in Hpost. injection Hpost as <-.
  apply (due_insert pc x (BC.MoveLoc idx) st idx false); [done..|]. naive_solver.
Qed.
End exact.

Lemma due_start code index abs num_args num_locals init :
  state_ok index abs init → models init (replicate num_args true ++ replicate num_locals false) →
  (∀ s, s ∈ local_states init → s ≠ MaybeAvailable) → due code index abs num_args num_locals ENTRY_BLOCK_ID init.
Proof.
  intros Hok Hm Hno. split; [done|]. intros k s Hs. destruct (models_lookup _ _ _ _ Hm Hs) as (b & Hb & Hsb).
  destruct s; cbn in Hsb |- *; subst; [|by destruct (Hno MaybeAvailable (list_elem_of_lookup_2 _ _ _ Hs))|]; eexists; (split; [apply path_start|done]).
Qed.

Lemma new_definite resolver fv init : Locals.new resolver fv = Ret (Ok init) → ∀ s, s ∈ local_states init → s ≠ MaybeAvailable.
Proof.
  unfold Locals.new. destruct (View.collect_results _) as [[abs|]| |]; [|done..]. intros [= <-] s. cbn [local_states].
  intros (x & -> & _)%list_elem_of_fmap. by case_match.
Qed.

(** C16: the analysis of locals is exact.  For a function whose branches and local indexes are in range it
    returns, and without a limit on its cost it accepts the function if and only if on every path through the
    code each instruction that copies, moves or borrows a local finds a value in it, and no value without the
    [drop] ability is overwritten by [StLoc] or left in a local on [Ret]. *)
Theorem locals_verify_exact fuel resolver fv init :
  wf_code (fv_code fv) → Cfg.new (fv_code fv) = Ret (fv_cfg fv) → Locals.new resolver fv = Ret (Ok init) →
  (∀ pc i, instr_at (fv_code fv) pc i → names_locals (length (fv_parameters fv) + length (fv_locals fv)) i) →
  (analysis_fuel (length (fv_code fv)) (length (fv_parameters fv) + length (fv_locals fv)) ≤ fuel)%nat →
  ∃ r, Locals.verify (M := unit) fuel resolver fv (tt, tt) = Ret (r, (tt, tt)) ∧
    (r = Ok tt ↔ ∀ pc av i, path (fv_code fv) (length (fv_parameters fv)) (length (fv_locals fv)) pc av →
      instr_at (fv_code fv) pc i → local_safe (all_local_abilities init) i av).
Proof.
  intros Hwf Hcfg Hnew Hnames Hfuel.
  destruct (verify_returns (M := unit) fuel resolver fv _ Hwf Hcfg Hnew Hnames Hfuel (tt, tt)) as (r & [[] []] & Heq & HP).
  exists r. split; [done|]. split; [intros Hr; destruct (HP tt Hr) as (? & [= <-] & ?); done|]. intros Hsafe.
  destruct (new_states resolver fv init Hnew) as (Hok & Hm). pose proof (Forall2_length _ _ _ Hm) as Hlen.
  rewrite (ok_length _ _ _ Hok), length_app, !length_replicate in Hlen.
  destruct (cfg_new_ok (fv_code fv) Hwf) as (g & order & Hg & Hb & _). rewrite Hcfg in Hg. injection Hg as <-.
  rewrite <- Hlen in Hnames. unfold Locals.verify in Heq. rewrite Hnew in Heq.
  assert (never_fails (Interpreter.analyze_function (fv_cfg fv) (fv_code fv) fuel init : ST (unit * unit) StatusCode unit) (λ _, True)) as Hnf.
  { apply (nf_analyze (fv_code fv) Hwf (fv_cfg fv) Hb dummy_limit
      (due (fv_code fv) (fv_index fv) (all_local_abilities init) (length (fv_parameters fv)) (length (fv_locals fv)))).
    - intros pc a b. apply due_join.
    - intros pc last st i. by apply nf_execute.
    - apply due_start; [done..|by eapply new_definite]. }
  by destruct (Hnf (tt, tt) r (tt, tt) Heq) as ([] & -> & _).
Qed.

(** * Examples *)
Module LoopLocals.
Definition unit_ : CompiledModule := empty_module (mkCommon [] [] [] [] [[TU64]] [] [] [] []).
Definition resolver : BinaryIndexedView := ModuleView unit_.
Definition handle : FunctionHandle := mkFunctionHandle 0 0 0 0 [].

(** A loop that copies the argument to a local. *)
Definition code : list BC.Bytecode := [BC.CopyLoc 0; BC.StLoc 1; BC.LdTrue; BC.BrFalse 5; BC.Branch 0; BC.Ret].

Definition view (code : list BC.Bytecode) : FunctionView :=
  match function_view unit_ 0 (mkCodeUnit 0 code) handle with
  | Ret fv => fv
  | _ => mkFunctionView None [] [] [] [] [] (mkCfg ∅ ∅ ∅)
  end.

Lemma locals_verify_exact_witness :
  Locals.verify (M := unit) 200 resolver (view code) (tt, tt) = Ret (Ok tt, (tt, tt)) ∧
  ∀ av, path code 1 1 0 av → av !! 0%nat = Some true.
Proof.
  destruct (locals_verify_exact 200 resolver (view code) (mkState (Some 0) [7; 7] [Available; Unavailable])) as (r & Hr & Hiff).
  - by apply wf_code_bool.
  - vm_compute. reflexivity.
  - vm_compute. reflexivity.
  - replace (length (fv_parameters (view code)) + length (fv_locals (view code)))%nat with 2%nat by (vm_compute; reflexivity).
    apply instr_at_Forall. repeat (apply Forall_cons_2; [cbn; try lia; try exact I|]); by apply Forall_nil_2.
  - vm_compute. lia.
  - assert (r = Ok tt) as Hok.
    { assert (Locals.verify (M := unit) 200 resolver (view code) (tt, tt) = Ret (Ok tt, (tt, tt))) as Hok by (vm_compute; reflexivity).
      congruence. }
    rewrite Hok in Hr. split; [exact Hr|]. intros av Hp. apply (proj1 Hiff Hok 0 av (BC.CopyLoc 0) Hp). split; [lia|reflexivity].
Defined.

(** Moving the argument in the loop is rejected: the second turn would find no value. *)
Lemma move_in_loop_rejected :
  Locals.verify (M := unit) 200 resolver (view [BC.MoveLoc 0; BC.StLoc 1; BC.LdTrue; BC.BrFalse 5; BC.Branch 0; BC.Ret]) (tt, tt) =
  Ret (Err MOVELOC_UNAVAILABLE_ERROR, (tt, tt)).
Proof. vm_compute. reflexivity. Qed.

(** A local of a type with [drop] may be [MaybeAvailable] too. *)
Lemma droppable_maybe_available :
  Locals.join_ (mkState None [Abilities.PRIMITIVES] [Available]) (mkState None [Abilities.PRIMITIVES] [Unavailable]) =
  Ret (mkState None [Abilities.PRIMITIVES] [MaybeAvailable]).
Proof. reflexivity. Qed.

Lemma analyze_function_correct_witness :
  ∃ r s', Interpreter.analyze_function (M := unit) (fv_cfg (view code)) code 200 (mkState (Some 0) [7; 7] [Available; Unavailable]) (tt, tt) = Ret (r, s').
Proof.
  destruct (analyze_function_correct (A := unit) (M := unit) (names_locals 2) (AnalysisLaws0 := locals_laws (Some 0) [7; 7]) code (fv_cfg (view code)) 200
    (mkState (Some 0) [7; 7] [Available; Unavailable]) (tt, tt)) as (r & s' & Hr & _).
  - by apply wf_code_bool.
  - apply instr_at_Forall. repeat (apply Forall_cons_2; [cbn; try lia; try exact I|]); by apply Forall_nil_2.
  - vm_compute. reflexivity.
  - by split.
  - vm_compute. lia.
  - by exists r, s'.
Defined.
End LoopLocals.
