(* ===== verification/AbstractStack.v ===== *)
(** The stack of abstract values of the bytecode verifier ([move-abstract-stack/src/lib.rs]), which keeps
    runs of equal values as one entry with a count.

    A method with a [&mut self] receiver is in the monad [ST].  [values] has the top of the stack first,
    where the [Vec] has it last.  Debug assertions are left out, as in a release build; the invariant
    [stack_ok] implies them. *)
From S2P Require Import Prelude.

Inductive AbsStackError := ElementNotEqual | Underflow | Overflow.

Record AbstractStack (T : Type) := mkStack { values : list (Z * T); len : Z }.
Arguments mkStack {T} _ _.
Arguments values {T} _.
Arguments len {T} _.

Module AbsStack.
Section stack.
Context {T : Type} `{!EqDecision T}.

Definition new : AbstractStack T := mkStack [] 0.

Definition is_empty (s : AbstractStack T) : bool := match values s with [] => true | _ => false end.

Definition push_n (item : T) (n : Z) : ST (AbstractStack T) AbsStackError unit := λ s,
  if n =? 0 then Ret (Ok tt, s)
  else
    match checked_add (len s) n with
    | None => Ret (Err Overflow, s)
    | Some new_len =>
        match values s with
        | (count, last_item) :: rest =>
            if decide (item = last_item) then Ret (Ok tt, mkStack ((wadd count n, last_item) :: rest) new_len)
            else Ret (Ok tt, mkStack ((n, item) :: values s) new_len)
        | [] => Ret (Ok tt, mkStack [(n, item)] new_len)
        end
    end.

Definition push (item : T) : ST (AbstractStack T) AbsStackError unit := push_n item 1.

Definition pop_eq_n (n : Z) : ST (AbstractStack T) AbsStackError T := λ s,
  if is_empty s || (len s <? n) then Ret (Err Underflow, s)
  else
    match values s with
    | [] => Panic
    | (count, last) :: rest =>
        if count <? n then Ret (Err ElementNotEqual, s)
        else if count =? n then Ret (Ok last, mkStack rest (wsub (len s) n))
        else Ret (Ok last, mkStack ((wsub count n, last) :: rest) (wsub (len s) n))
    end.

Definition pop : ST (AbstractStack T) AbsStackError T := pop_eq_n 1.

(** The loop of [pop_any_n]; every turn but the last removes an entry. *)
Fixpoint pop_runs (rem : Z) (vs : list (Z * T)) : outcome (list (Z * T)) :=
  if rem <=? 0 then Ret vs
  else
    match vs with
    | [] => Panic
    | (count, last) :: rest =>
        if count <=? rem then pop_runs (wsub rem count) rest else Ret ((wsub count rem, last) :: rest)
    end.

Definition pop_any_n (n : Z) : ST (AbstractStack T) AbsStackError unit := λ s,
  if is_empty s || (len s <? n) then Ret (Err Underflow, s)
  else
    match pop_runs n (values s) with
    | Ret vs => Ret (Ok tt, mkStack vs (wsub (len s) n))
    | Panic => Panic
    | OutOfFuel => OutOfFuel
    end.
End stack.
End AbsStack.

(** * The plain stack *)

Inductive op (T : Type) :=
  | PushN (item : T) (n : Z)
  | PopEqN (n : Z)
  | PopAnyN (n : Z).
Arguments PushN {T} _ _.
Arguments PopEqN {T} _.
Arguments PopAnyN {T} _.

Section refinement.
Context {T : Type} `{!EqDecision T}.
Implicit Types (s : AbstractStack T) (vs : list (Z * T)) (l : list T).

(** [n] is a [u64], for the pops a [NonZeroU64]. *)
Definition op_ok (o : op T) : Prop :=
  match o with PushN _ n => 0 <= n < U64_MOD | PopEqN n | PopAnyN n => 0 < n < U64_MOD end.

Definition run_op (o : op T) : ST (AbstractStack T) AbsStackError (option T) :=
  match o with
  | PushN item n => AbsStack.push_n item n;; mret None
  | PopEqN n => x ← AbsStack.pop_eq_n n; mret (Some x)
  | PopAnyN n => AbsStack.pop_any_n n;; mret None
  end.

(** The stack of all values, one by one, the top first. *)
Definition spec_op (o : op T) l : result AbsStackError (option T) * list T :=
  match o with
  | PushN item n =>
      if decide (Z.of_nat (length l) + n < U64_MOD) then (Ok None, replicate (Z.to_nat n) item ++ l) else (Err Overflow, l)
  | PopEqN n =>
      if decide (Z.of_nat (length l) < n) then (Err Underflow, l)
      else match take (Z.to_nat n) l with
           | x :: rest => if forallb (λ y, bool_decide (y = x)) rest then (Ok (Some x), drop (Z.to_nat n) l) else (Err ElementNotEqual, l)
           | [] => (Err Underflow, l)
           end
  | PopAnyN n => if decide (Z.of_nat (length l) < n) then (Err Underflow, l) else (Ok None, drop (Z.to_nat n) l)
  end.

(** A sequence of operations; the results of all of them, errors too. *)
Fixpoint run_ops (os : list (op T)) s : outcome (list (result AbsStackError (option T)) * AbstractStack T) :=
  match os with
  | [] => Ret ([], s)
  | o :: os => r ← run_op o s; rs ← run_ops os r.2; mret (r.1 :: rs.1, rs.2)
  end.

Fixpoint spec_ops (os : list (op T)) l : list (result AbsStackError (option T)) * list T :=
  match os with
  | [] => ([], l)
  | o :: os => let r := spec_op o l in let rs := spec_ops os r.2 in (r.1 :: rs.1, rs.2)
  end.

Definition flatten vs : list T := concat ((λ e : Z * T, replicate (Z.to_nat e.1) e.2) <$> vs).

(** Runs are not empty and as long as possible. *)
Fixpoint runs_ok vs : Prop :=
  match vs with
  | [] => True
  | (count, x) :: rest => 0 < count ∧ match rest with (_, y) :: _ => x ≠ y | [] => True end ∧ runs_ok rest
  end.

Record stack_ok s : Prop := {
  sk_runs : runs_ok (values s);
  sk_len : len s = Z.of_nat (length (flatten (values s)));
  sk_fits : len s < U64_MOD;
}.

Lemma flatten_cons count x rest : flatten ((count, x) :: rest) = replicate (Z.to_nat count) x ++ flatten rest.
Proof. done. Qed.

Lemma flatten_length count x rest : length (flatten ((count, x) :: rest)) = (Z.to_nat count + length (flatten rest))%nat.
Proof. by rewrite flatten_cons, length_app, length_replicate. Qed.

Lemma runs_ok_tail e vs : runs_ok (e :: vs) → runs_ok vs.
Proof. by destruct e as [? ?]; intros (_ & _ & ?). Qed.

Lemma runs_ok_count count count' x rest : runs_ok ((count, x) :: rest) → 0 < count' → runs_ok ((count', x) :: rest).
Proof. intros (_ & ? & ?) ?. done. Qed.

Lemma flatten_nil vs : runs_ok vs → length (flatten vs) = 0%nat → vs = [].
Proof. destruct vs as [|[c x] vs]; [done|]. intros (? & _) Hl. rewrite flatten_length in Hl. lia. Qed.

(** What an operation does, with its result, is what it does to the plain stack. *)
Definition op_refines (o : op T) s : Prop :=
  ∃ s', run_op o s = Ret ((spec_op o (flatten (values s))).1, s') ∧ stack_ok s' ∧ flatten (values s') = (spec_op o (flatten (values s))).2.

Lemma push_ok item n s : stack_ok s → 0 <= n < U64_MOD → op_refines (PushN item n) s.
Proof.
  intros Hs Hn. pose proof Hs as [Hr Hl Hf]. unfold op_refines. cbn [run_op spec_op]. unfold AbsStack.push_n, mbind, st_bind.
  rewrite <- Hl. destruct (Z.eqb_spec n 0) as [->|Hn0].
  { exists s. rewrite decide_True by lia. by split_and!. }
  unfold checked_add. case_decide; cbn [fst snd]; [|by exists s].
  assert (∀ vs', runs_ok vs' → flatten vs' = replicate (Z.to_nat n) item ++ flatten (values s) → stack_ok (mkStack vs' (len s + n))) as Hok.
  { intros vs' ? Hv. split; cbn [values len]; [done| |done]. rewrite Hv, length_app, length_replicate. lia. }
  destruct (values s) as [|[count x] rest] eqn:Hvs.
  - eexists. split; [done|]. split; [|done]. apply Hok; [cbn; auto with lia|done].
  - destruct (decide (item = x)) as [->|Hne].
    + pose proof (flatten_length count x rest). assert (0 < count) by apply Hr. rewrite wadd_fits by lia.
      assert (flatten ((count + n, x) :: rest) = replicate (Z.to_nat n) x ++ flatten ((count, x) :: rest)) as Hfl.
      { rewrite !flatten_cons, app_assoc, <- replicate_add. f_equal. f_equal. lia. }
      eexists. split; [done|]. split; [|done]. apply Hok; [|done]. apply (runs_ok_count count); [done|lia].
    + eexists. split; [done|]. split; [|done]. apply Hok; [|done]. split_and!; [lia|done|done].
Qed.

(** The top [n] values are equal when they are in one run. *)
Lemma take_run n count x rest :
  0 < n → runs_ok ((count, x) :: rest) → n <= Z.of_nat (length (flatten ((count, x) :: rest))) →
  ∃ l, take (Z.to_nat n) (flatten ((count, x) :: rest)) = x :: l ∧ (forallb (λ y, bool_decide (y = x)) l = true ↔ n <= count).
Proof.
  intros Hn (Hc & Hne & Hr) Hlen. rewrite flatten_length in Hlen. rewrite flatten_cons.
  destruct (Z.to_nat count) as [|c] eqn:Hcc; [lia|]. destruct (Z.to_nat n) as [|m] eqn:Hm; [lia|]. cbn [replicate app take].
  eexists. split; [done|]. rewrite forallb_forall. destruct (decide (m ≤ c)%nat) as [Hle|Hgt].
  - split; [lia|]. intros _ y Hy%list_elem_of_In. rewrite take_app_le in Hy by (rewrite length_replicate; lia).
    apply bool_decide_eq_true. apply elem_of_take in Hy as (k & Hy & _). by apply lookup_replicate in Hy as [-> _].
  - split; [|lia]. intros Hall. exfalso. destruct rest as [|[c' y] rest]; [cbn in Hlen; lia|].
    apply Hne. specialize (Hall y). rewrite bool_decide_eq_true in Hall. symmetry. apply Hall, list_elem_of_In.
    destruct Hr as (Hc' & _). apply elem_of_take. exists c. split; [|lia].
    rewrite lookup_app_r by (rewrite length_replicate; lia). rewrite length_replicate, Nat.sub_diag, flatten_cons.
    destruct (Z.to_nat c') eqn:?; [lia|]. done.
Qed.

Lemma drop_run n count x rest :
  0 <= n <= count → drop (Z.to_nat n) (flatten ((count, x) :: rest)) = replicate (Z.to_nat (count - n)) x ++ flatten rest.
Proof. intros Hn. rewrite flatten_cons, drop_app_le by (rewrite length_replicate; lia). rewrite drop_replicate. f_equal. f_equal. lia. Qed.

Lemma popped_ok s n vs :
  stack_ok s → 0 < n <= len s → runs_ok vs → flatten vs = drop (Z.to_nat n) (flatten (values s)) → stack_ok (mkStack vs (wsub (len s) n)).
Proof. intros [Hr Hl Hf] Hn Hvs Heq. split; cbn [values len]; [done|..]; rewrite wsub_fits by lia; [|lia]. rewrite Heq, length_drop. lia. Qed.

Lemma pop_eq_ok n s : stack_ok s → 0 < n < U64_MOD → op_refines (PopEqN n) s.
Proof.
  intros Hs Hn. pose proof Hs as [Hr Hl Hf]. unfold op_refines. cbn [run_op spec_op]. unfold AbsStack.pop_eq_n, AbsStack.is_empty, mbind, st_bind.
  rewrite <- Hl. destruct (values s) as [|[count x] rest] eqn:Hvs; cbn [orb].
  { rewrite decide_True by (cbn in Hl; lia). by exists s; rewrite Hvs. }
  destruct (Z.ltb_spec (len s) n); [rewrite decide_True by done; by exists s; rewrite Hvs|]. rewrite decide_False by lia.
  destruct (take_run n count x rest) as (l & -> & Hall); [lia|done|lia|].
  destruct (Z.ltb_spec count n); [|destruct (Z.eqb_spec count n) as [->|Hne]].
  - destruct (forallb _ _); [lia|]. exists s. by rewrite Hvs.
  - rewrite (proj2 Hall) by lia. assert (flatten rest = drop (Z.to_nat n) (flatten ((n, x) :: rest))) as Hd.
    { rewrite drop_run by lia. by rewrite Z.sub_diag. }
    eexists. split; [done|]. split; [|exact Hd]. apply popped_ok; [done|lia|by eapply runs_ok_tail|by rewrite Hvs].
  - rewrite (proj2 Hall) by lia. pose proof (flatten_length count x rest). rewrite (wsub_fits count n) by lia.
    assert (flatten ((count - n, x) :: rest) = drop (Z.to_nat n) (flatten ((count, x) :: rest))) as Hd by by rewrite drop_run by lia.
    eexists. split; [done|]. split; [|exact Hd]. apply popped_ok; [done|lia| |by rewrite Hvs]. apply (runs_ok_count count); [done|lia].
Qed.

Lemma pop_runs_ok n vs :
  runs_ok vs → 0 <= n <= Z.of_nat (length (flatten vs)) → Z.of_nat (length (flatten vs)) < U64_MOD →
  ∃ vs', AbsStack.pop_runs n vs = Ret vs' ∧ runs_ok vs' ∧ flatten vs' = drop (Z.to_nat n) (flatten vs).
Proof.
  revert n. induction vs as [|[count x] rest IH]; intros n Hr Hn Hf; cbn [AbsStack.pop_runs].
  { cbn in Hn. destruct (Z.leb_spec n 0); [|lia]. exists []. split_and!; [done..|]. by destruct (Z.to_nat n). }
  destruct (Z.leb_spec n 0); [replace n with 0 by lia; by exists ((count, x) :: rest)|].
  pose proof (flatten_length count x rest). assert (0 < count) by apply Hr. destruct (Z.leb_spec count n).
  - rewrite wsub_fits by lia. destruct (IH (n - count)) as (vs' & -> & Hr' & Hfl); [by eapply runs_ok_tail|lia..|].
    exists vs'. split_and!; [done..|]. rewrite Hfl, flatten_cons, drop_app_ge by (rewrite length_replicate; lia). rewrite length_replicate. f_equal. lia.
  - rewrite wsub_fits by lia. eexists. split_and!; [done|apply (runs_ok_count count); [done|lia]|by rewrite drop_run by lia].
Qed.

Lemma pop_any_ok n s : stack_ok s → 0 < n < U64_MOD → op_refines (PopAnyN n) s.
Proof.
  intros Hs Hn. pose proof Hs as [Hr Hl Hf]. unfold op_refines. cbn [run_op spec_op]. unfold AbsStack.pop_any_n, AbsStack.is_empty, mbind, st_bind.
  rewrite <- Hl. destruct (Z.ltb_spec (len s) n).
  { rewrite orb_true_r, decide_True by done. by exists s. }
  rewrite orb_false_r, decide_False by lia. destruct (pop_runs_ok n (values s)) as (vs' & -> & Hr' & Heq); [done|lia..|].
  assert (match values s with [] => true | _ => false end = false) as -> by (destruct (values s); [cbn in Hl; lia|done]).
  eexists. split; [done|]. split; [|done]. apply popped_ok; [done|lia|done..].
Qed.

Lemma op_ok_refines o s : stack_ok s → op_ok o → op_refines o s.
Proof. destruct o; [apply push_ok|apply pop_eq_ok|apply pop_any_ok]. Qed.

Lemma new_stack_ok : stack_ok AbsStack.new.
Proof. by split. Qed.

(** The runs are determined by the values. *)
Lemma flatten_inj vs vs' : runs_ok vs → runs_ok vs' → flatten vs = flatten vs' → vs = vs'.
Proof.
  assert (∀ vs, runs_ok vs → ∀ x, match vs with (_, y) :: _ => x ≠ y | [] => True end → head (flatten vs) ≠ Some x) as Hhead.
  { intros [|[c y] ws] Hr x Hx; [done|]. destruct Hr as (Hc & _). rewrite flatten_cons. destruct (Z.to_nat c) eqn:?; [lia|]. cbn. congruence. }
  assert (∀ n m x l l', head l ≠ Some x → head l' ≠ Some x → replicate n x ++ l = replicate m x ++ l' → n = m ∧ l = l') as Hrep.
  { induction n as [|n IHn]; intros [|m] x l l' Hl Hl'; cbn; [done|by intros ->|by intros <-|]. intros [= Heq].
    destruct (IHn m x l l' Hl Hl' Heq) as [-> ->]. done. }
  revert vs'. induction vs as [|[c x] vs IH]; intros vs' Hr Hr' Heq.
  { symmetry. apply flatten_nil; [done|]. by rewrite <- Heq. }
  destruct vs' as [|[c' x'] vs'].
  { apply flatten_nil; [done|]. by rewrite Heq. }
  pose proof Hr as (Hc & Hne & Hrs). pose proof Hr' as (Hc' & Hne' & Hrs'). rewrite !flatten_cons in Heq.
  assert (x = x') as <-.
  { destruct (Z.to_nat c) eqn:?; [lia|]. destruct (Z.to_nat c') eqn:?; [lia|]. by injection Heq. }
  destruct (Hrep _ _ _ _ _ (Hhead vs Hrs x Hne) (Hhead vs' Hrs' x Hne') Heq) as [Hcc Hfl].
  rewrite (IH vs' Hrs Hrs' Hfl). f_equal. f_equal. lia.
Qed.

Lemma run_ops_ok os s :
  stack_ok s → Forall op_ok os →
  ∃ s', run_ops os s = Ret ((spec_ops os (flatten (values s))).1, s') ∧ stack_ok s' ∧ flatten (values s') = (spec_ops os (flatten (values s))).2.
Proof.
  revert s. induction os as [|o os IH]; intros s Hs Hos; [by exists s|]. inversion_clear Hos as [|?? Ho Hos'].
  destruct (op_ok_refines o s Hs Ho) as (s1 & Hrun & Hs1 & Hfl). cbn [run_ops spec_ops]. rewrite Hrun.
  destruct (IH s1 Hs1 Hos') as (s2 & Hrun2 & Hs2 & Hfl2). cbn [mbind outcome_bind fst snd]. rewrite Hrun2, <- Hfl. eexists. by split_and!.
Qed.

(** C37: the compressed stack of the verifier is a stack.  Any sequence of its operations, from the empty
    stack, returns without a panic what the operations on the plain list of values return, errors of
    overflow, underflow and unequal elements included, and leaves the same values; the run-length
    representation is determined by those values. *)
Theorem abstract_stack_refines os :
  Forall op_ok os →
  ∃ s, run_ops os AbsStack.new = Ret ((spec_ops os []).1, s) ∧ flatten (values s) = (spec_ops os []).2 ∧
    (∀ os' s', Forall op_ok os' → run_ops os' AbsStack.new = Ret ((spec_ops os' []).1, s') →
      (spec_ops os' []).2 = (spec_ops os []).2 → s' = s).
Proof.
  intros Hos. destruct (run_ops_ok os _ new_stack_ok Hos) as (s & Hrun & Hs & Hfl). exists s. split_and!; [done..|].
  intros os' s' Hos' Hrun' Heq. destruct (run_ops_ok os' _ new_stack_ok Hos') as (s1 & Hrun1 & Hs1 & Hfl1).
  cbn in Hrun1. rewrite Hrun' in Hrun1. injection Hrun1 as <-. change (flatten (values AbsStack.new)) with (@nil T) in Hfl, Hfl1. rewrite Heq in Hfl1.
  destruct Hs as [Hr Hl _], Hs1 as [Hr1 Hl1 _]. rewrite Hfl in Hl. rewrite Hfl1 in Hl1.
  destruct s, s'. cbn [values len] in *. subst. f_equal. apply flatten_inj; [done..|]. congruence.
Qed.
End refinement.

Lemma abstract_stack_refines_witness :
  ∃ s, run_ops [PushN 5 2; PushN 5 1; PushN 7 1; PopEqN 2; PopAnyN 2] AbsStack.new =
    Ret ([Ok None; Ok None; Ok None; Err ElementNotEqual; Ok None], s) ∧ values s = [(2, 5)].
Proof.
  destruct (abstract_stack_refines [PushN 5 2; PushN 5 1; PushN 7 1; PopEqN 2; PopAnyN 2]) as (s & Hrun & _ & _).
  - repeat (apply Forall_cons_2; [by split|]); by apply Forall_nil_2.
  - exists s. split; [exact Hrun|]. vm_compute in Hrun. by injection Hrun as <-.
Defined.
