(* ===== verification/StackUsage.v ===== *)
(** The check of the bytecode verifier that every basic block uses the operand stack in a balanced way
    ([move-bytecode-verifier/src/stack_usage_verifier.rs]).

    The theorem is about the height of the stack on the paths through the code.  Code offsets of errors
    are left out. *)
From S2P Require Import Prelude MoveFormat ControlFlowGraph.

Module StackUsage.
Section verifier.
Context (config : VerifierConfig) (resolver : BinaryIndexedView) (fv : FunctionView).

Definition call_effect (function_handle : FunctionHandle) : VMResult (Z * Z) :=
  parameters ← vm_lift (View.signature_at resolver (fh_parameters function_handle));
  return_ ← vm_lift (View.signature_at resolver (fh_return_ function_handle));
  mret (as_u64 (length parameters), as_u64 (length return_)).

Definition field_count (sd : StructDefinition) : Z :=
  match field_information sd with NativeFields => 0 | Declared fields => as_u64 (length fields) end.

Definition instruction_effect (instruction : BC.Bytecode) : VMResult (Z * Z) :=
  match instruction with
  | BC.Pop | BC.BrTrue _ | BC.BrFalse _ | BC.StLoc _ | BC.Abort => mret (1, 0)
  | BC.LdU8 _ | BC.LdU16 _ | BC.LdU32 _ | BC.LdU64 _ | BC.LdU128 _ | BC.LdU256 _ | BC.LdTrue | BC.LdFalse | BC.LdConst _
  | BC.CopyLoc _ | BC.MoveLoc _ | BC.MutBorrowLoc _ | BC.ImmBorrowLoc _ => mret (0, 1)
  | BC.Not | BC.FreezeRef | BC.ReadRef | BC.ExistsDeprecated _ | BC.ExistsGenericDeprecated _
  | BC.MutBorrowGlobalDeprecated _ | BC.MutBorrowGlobalGenericDeprecated _
  | BC.ImmBorrowGlobalDeprecated _ | BC.ImmBorrowGlobalGenericDeprecated _
  | BC.MutBorrowField _ | BC.MutBorrowFieldGeneric _ | BC.ImmBorrowField _ | BC.ImmBorrowFieldGeneric _
  | BC.MoveFromDeprecated _ | BC.MoveFromGenericDeprecated _
  | BC.CastU8 | BC.CastU16 | BC.CastU32 | BC.CastU64 | BC.CastU128 | BC.CastU256
  | BC.VecLen _ | BC.VecPopBack _ => mret (1, 1)
  | BC.Add | BC.Sub | BC.Mul | BC.Mod | BC.Div | BC.BitOr | BC.BitAnd | BC.Xor | BC.Shl | BC.Shr | BC.Or | BC.And
  | BC.Eq | BC.Neq | BC.Lt | BC.Gt | BC.Le | BC.Ge => mret (2, 1)
  | BC.VecPack _ num => mret (num, 1)
  | BC.VecUnpack _ num => mret (1, num)
  | BC.VecImmBorrow _ | BC.VecMutBorrow _ => mret (2, 1)
  | BC.MoveToDeprecated _ | BC.MoveToGenericDeprecated _ | BC.WriteRef | BC.VecPushBack _ => mret (2, 0)
  | BC.VecSwap _ => mret (3, 0)
  | BC.Branch _ | BC.Nop => mret (0, 0)
  | BC.Ret => mret (as_u64 (length (fv_return_ fv)), 0)
  | BC.Call idx => fh ← vm_lift (View.function_handle_at resolver idx); call_effect fh
  | BC.CallGeneric idx =>
      func_inst ← vm_lift (View.function_instantiation_at resolver idx);
      fh ← vm_lift (View.function_handle_at resolver (fi_handle func_inst));
      call_effect fh
  | BC.Pack idx => sd ← View.struct_def_at resolver idx; mret (field_count sd, 1)
  | BC.PackGeneric idx =>
      struct_inst ← View.struct_instantiation_at resolver idx;
      sd ← View.struct_def_at resolver (si_def struct_inst);
      mret (field_count sd, 1)
  | BC.Unpack idx => sd ← View.struct_def_at resolver idx; mret (1, field_count sd)
  | BC.UnpackGeneric idx =>
      struct_inst ← View.struct_instantiation_at resolver idx;
      sd ← View.struct_def_at resolver (si_def struct_inst);
      mret (1, field_count sd)
  end.

(** One turn of the loop of [verify_block], on [overall_push] and [stack_size_increment]. *)
Definition verify_instruction (st : Z * Z) (instruction : BC.Bytecode) : VMResult (Z * Z) :=
  let '(overall_push, stack_size_increment) := st in
  '(num_pops, num_pushes) ← instruction_effect instruction;
  let overall_push := match checked_add overall_push num_pushes with Some new_pushes => new_pushes | None => overall_push end in
  if match max_push_size config with Some max_push_size => max_push_size <? overall_push | None => false end
  then vm_err VALUE_STACK_PUSH_OVERFLOW
  else if stack_size_increment <? num_pops then vm_err NEGATIVE_STACK_SIZE_WITHIN_BLOCK
  else
    match checked_sub stack_size_increment num_pops with
    | None => vm_err NEGATIVE_STACK_SIZE_WITHIN_BLOCK
    | Some new_incr =>
        match checked_add new_incr num_pushes with
        | None => vm_err POSITIVE_STACK_SIZE_AT_BLOCK_END
        | Some new_incr =>
            if max_value_stack_size config <? new_incr then vm_err VALUE_STACK_OVERFLOW else mret (overall_push, new_incr)
        end
    end.

Fixpoint verify_instructions (offsets : list Z) (st : Z * Z) : VMResult (Z * Z) :=
  match offsets with
  | [] => mret st
  | i :: offsets =>
      instruction ← vm_lift (at_index (fv_code fv) i);
      st ← verify_instruction st instruction;
      verify_instructions offsets st
  end.

Definition verify_block (block_id : Z) : VMResult unit :=
  block_end ← vm_lift (Cfg.block_end (fv_cfg fv) block_id);
  let block_start := Cfg.block_start (fv_cfg fv) block_id in
  '(_, stack_size_increment) ← verify_instructions (seqZ block_start (block_end - block_start + 1)) (0, 0);
  if stack_size_increment =? 0 then mret tt else vm_err POSITIVE_STACK_SIZE_AT_BLOCK_END.

Fixpoint verify_blocks (ids : list Z) : VMResult unit :=
  match ids with [] => mret tt | block_id :: ids => verify_block block_id;; verify_blocks ids end.

Definition verify : VMResult unit := verify_blocks (Cfg.block_ids (fv_cfg fv)).
End verifier.
End StackUsage.

(** * Heights *)
Section heights.
Context (config : VerifierConfig) (resolver : BinaryIndexedView) (fv : FunctionView).
Abbreviation code := (fv_code fv).
Abbreviation effect i := (StackUsage.instruction_effect resolver fv i).

(** The operands of the instructions are [u64]s, the limits are [usize]s that do not fill a [u64]. *)
Definition operands_ok (i : BC.Bytecode) : Prop :=
  match i with BC.VecPack _ num | BC.VecUnpack _ num => 0 <= num < U64_MOD | _ => True end.
Record limits_ok : Prop := {
  lim_stack : 0 <= max_value_stack_size config < U64_MOD;
  lim_push : ∀ m, max_push_size config = Some m → 0 <= m ∧ m + max_value_stack_size config < U64_MOD;
}.

(** What the instructions from [b] up to [pc] push, and how far they raise the stack. *)
Inductive heights (b : Z) : Z → Z → Z → Prop :=
  | heights_start : heights b b 0 0
  | heights_step pc pushed h i pops pushes :
      heights b pc pushed h → instr_at code pc i → effect i = Ret (Ok (pops, pushes)) →
      pops <= h → h - pops + pushes <= max_value_stack_size config →
      (∀ m, max_push_size config = Some m → pushed + pushes <= m) →
      heights b (pc + 1) (pushed + pushes) (h - pops + pushes).

(** A block never takes more than it has put on the stack, keeps the limits, and leaves nothing behind. *)
Definition balanced (b : Z) (bb : BasicBlock) : Prop := ∃ pushed, heights b (exit bb + 1) pushed 0.
Lemma effect_nonneg i pops pushes : operands_ok i → effect i = Ret (Ok (pops, pushes)) → 0 <= pops ∧ 0 <= pushes.
Proof.
  intros Hi Heff. assert (∀ n, 0 <= as_u64 n) as Hu by (intros n; apply Z.mod_pos_bound; done).
  assert (∀ fh, StackUsage.call_effect resolver fh = Ret (Ok (pops, pushes)) → 0 <= pops ∧ 0 <= pushes) as Hcall.
  { intros fh. unfold StackUsage.call_effect, mbind, vm_bind, vm_lift. repeat (case_match; try done). intros [= <- <-]. auto. }
  assert (∀ sd, 0 <= StackUsage.field_count sd) as Hf by (intros sd; unfold StackUsage.field_count; case_match; auto; lia).
  destruct i; cbn in Heff, Hi; unfold mret, vm_ret in Heff; simplify_eq; try lia; try (split; [apply Hu|lia]).
  all: unfold mbind, vm_bind, vm_lift in Heff; repeat (case_match; try done); simplify_eq; try (by eapply Hcall); auto with lia.
Qed.

(** The conditions of a step. *)
Definition step_ok (pushed h pops pushes : Z) : Prop :=
  pops <= h ∧ h - pops + pushes <= max_value_stack_size config ∧ ∀ m, max_push_size config = Some m → pushed + pushes <= m.

(** [overall_push] counts the pushes when there is a limit on them. *)
Definition counts (pushed overall : Z) : Prop :=
  ∀ m, max_push_size config = Some m → overall = pushed ∧ pushed <= m.

Lemma verify_instruction_ok pushed overall h i pops pushes :
  limits_ok → counts pushed overall → 0 <= h → effect i = Ret (Ok (pops, pushes)) → 0 <= pops → 0 <= pushes →
  (step_ok pushed h pops pushes ∧ ∃ overall', StackUsage.verify_instruction config resolver fv (overall, h) i = Ret (Ok (overall', h - pops + pushes)) ∧
     counts (pushed + pushes) overall') ∨
  (¬ step_ok pushed h pops pushes ∧ ∃ e, StackUsage.verify_instruction config resolver fv (overall, h) i = Ret (Err e)).
Proof.
  intros [Hs Hp] Hc Hh Heff Hpops Hpushes. unfold StackUsage.verify_instruction. rewrite Heff. cbn [mbind vm_bind]. unfold checked_add, checked_sub.
  set (overall' := match (if decide (overall + pushes < U64_MOD) then Some (overall + pushes) else None) with Some n => n | None => overall end).
  destruct (match max_push_size config with Some m => m <? overall' | None => false end) eqn:Hover.
  { right. split; [|eauto]. intros (H1 & H2 & H3). destruct (max_push_size config) as [m|] eqn:Hm; [|done].
    apply Z.ltb_lt in Hover. destruct (Hc m Hm) as [-> ?]. specialize (H3 m eq_refl). specialize (Hp m eq_refl).
    unfold overall' in Hover. rewrite decide_True in Hover; lia. }
  destruct (Z.ltb_spec h pops); [right; split; [unfold step_ok; lia|eauto]|]. rewrite decide_True by lia.
  case_decide; [|right; split; [unfold step_ok; lia|eauto]].
  destruct (Z.ltb_spec (max_value_stack_size config) (h - pops + pushes)); [right; split; [unfold step_ok; lia|eauto]|].
  assert (∀ m, max_push_size config = Some m → overall' = pushed + pushes ∧ pushed + pushes <= m) as Hc'.
  { intros m Hm. destruct (Hc m Hm) as [-> ?]. destruct (Hp m Hm). rewrite Hm in Hover. apply Z.ltb_ge in Hover.
    unfold overall' in *. rewrite decide_True in * by lia. lia. }
  left. split; [|by eexists]. split_and!; [lia..|]. intros m Hm. by apply Hc'.
Qed.

Lemma heights_nonneg b pc pushed h : (∀ pc i, instr_at code pc i → operands_ok i) → heights b pc pushed h → 0 <= h ∧ b <= pc.
Proof.
  intros Hops. induction 1 as [|pc pushed h i pops pushes Hh IH Hi Heff]; [lia|].
  destruct (effect_nonneg i pops pushes); [by eapply Hops|done|]. lia.
Qed.

Lemma heights_ge b pc pushed h : heights b pc pushed h → b <= pc.
Proof. induction 1; lia. Qed.

Lemma heights_fun b pc pushed h pushed' h' : heights b pc pushed h → heights b pc pushed' h' → pushed = pushed' ∧ h = h'.
Proof.
  intros H. revert pushed' h'. induction H as [|pc pushed h i pops pushes Hh IH Hi Heff _ _ _]; intros pushed' h' H';
    inversion H' as [|pc' pd hh j ps pu Hh' Hj Heff' _ _ _ Heq]; subst.
  - done.
  - apply heights_ge in Hh'. lia.
  - apply heights_ge in Hh. lia.
  - assert (pc' = pc) as -> by lia. destruct (IH _ _ Hh') as [-> ->]. rewrite (instr_at_fun _ _ _ _ Hj Hi) in Heff'.
    rewrite Heff in Heff'. by simplify_eq.
Qed.

(** To get past an instruction is to make its step. *)
Lemma heights_past b pc x pushed h pushed' h' i :
  heights b x pushed' h' → heights b pc pushed h → pc < x → instr_at code pc i →
  ∃ pops pushes, effect i = Ret (Ok (pops, pushes)) ∧ step_ok pushed h pops pushes.
Proof.
  intros Hx Hpc Hlt Hi. pose proof (heights_ge _ _ _ _ Hpc). revert Hlt. induction Hx as [|y p hh j pops pushes Hy IH Hj Heff H1 H2 H3]; intros Hlt.
  - lia.
  - destruct (decide (y = pc)) as [->|]; [|apply IH; lia]. destruct (heights_fun _ _ _ _ _ _ Hy Hpc) as [-> ->].
    rewrite (instr_at_fun _ _ _ _ Hi Hj). exists pops, pushes. by split.
Qed.

Context (Hlimits : limits_ok) (Hops : ∀ pc i, instr_at code pc i → operands_ok i).
Context (Hpanic : ∀ pc i, instr_at code pc i → ∃ r, effect i = Ret r).

Lemma verify_instructions_ok b pc n pushed overall h :
  heights b pc pushed h → counts pushed overall → 0 <= pc → pc + Z.of_nat n <= Z.of_nat (length code) →
  ∃ r, StackUsage.verify_instructions config resolver fv (seqZ pc (Z.of_nat n)) (overall, h) = Ret r ∧
    match r with
    | Ok (_, h') => ∃ pushed', heights b (pc + Z.of_nat n) pushed' h'
    | Err _ => ∀ pushed' h', ¬ heights b (pc + Z.of_nat n) pushed' h'
    end.
Proof.
  revert pc pushed overall h. induction n as [|n IH]; intros pc pushed overall h Hh Hc Hpc Hlen.
  { eexists. split; [done|]. cbn. rewrite Z.add_0_r. by exists pushed. }
  rewrite seqZ_cons by lia. cbn [StackUsage.verify_instructions]. destruct (instr_at_ex code pc) as (i & Hi); [lia|].
  rewrite (instr_at_index code pc i Hi). cbn [mbind vm_bind vm_lift]. destruct (Hpanic pc i Hi) as ([[pops pushes]|e] & Heff).
  - destruct (effect_nonneg i pops pushes (Hops pc i Hi) Heff). destruct (heights_nonneg _ _ _ _ Hops Hh).
    destruct (verify_instruction_ok pushed overall h i pops pushes Hlimits Hc) as [[(Hs1 & Hs2 & Hs3) (o' & -> & Hc')]|[Hno [e ->]]]; [lia|done|lia..| |].
    + replace (Z.pred (Z.of_nat (S n))) with (Z.of_nat n) by lia. replace (pc + Z.of_nat (S n)) with (Z.succ pc + Z.of_nat n) by lia.
      rewrite <- Z.add_1_r. eapply IH; [by eapply heights_step|done|lia..].
    + eexists. split; [done|]. intros pushed' h' Hx. eapply (heights_past b pc) in Hx as (? & ? & Heff' & Hok); [|done|lia|done].
      rewrite Heff in Heff'. by simplify_eq.
  - unfold StackUsage.verify_instruction. rewrite Heff. eexists. split; [done|]. intros pushed' h' Hx.
    eapply (heights_past b pc) in Hx as (? & ? & Heff' & Hok); [|done|lia|done]. congruence.
Qed.

Lemma verify_block_ok b bb :
  blocks (fv_cfg fv) !! b = Some bb → 0 <= b <= exit bb → exit bb < Z.of_nat (length code) →
  ∃ r, StackUsage.verify_block config resolver fv b = Ret r ∧ (r = Ok tt ↔ balanced b bb).
Proof.
  intros Hbb Hb Hexit. unfold StackUsage.verify_block, Cfg.block_end, Cfg.block_start. rewrite Hbb. cbn [mbind vm_bind outcome_bind vm_lift unwrap mret outcome_ret].
  replace (exit bb - b + 1) with (Z.of_nat (Z.to_nat (exit bb + 1 - b))) by lia.
  destruct (verify_instructions_ok b b (Z.to_nat (exit bb + 1 - b)) 0 0 0) as ([[o h]|e] & -> & Hr); [apply heights_start|intros m Hm; destruct (lim_push Hlimits m Hm); lia|lia..| |].
  - replace (b + Z.of_nat (Z.to_nat (exit bb + 1 - b))) with (exit bb + 1) in Hr by lia. destruct Hr as (pushed & Hr). cbn [mbind vm_bind].
    destruct (Z.eqb_spec h 0) as [->|Hne]; eexists; (split; [done|]); [split; [by exists pushed|done]|].
    split; [done|]. intros (pushed' & Hr'). by destruct (heights_fun _ _ _ _ _ _ Hr Hr').
  - replace (b + Z.of_nat (Z.to_nat (exit bb + 1 - b))) with (exit bb + 1) in Hr by lia. eexists. split; [done|].
    split; [done|]. intros (pushed' & Hr'). by destruct (Hr pushed' 0).
Qed.

Lemma verify_blocks_ok ids :
  (∀ b, b ∈ ids → ∃ r, StackUsage.verify_block config resolver fv b = Ret r ∧ ∀ bb, blocks (fv_cfg fv) !! b = Some bb → r = Ok tt ↔ balanced b bb) →
  ∃ r, StackUsage.verify_blocks config resolver fv ids = Ret r ∧
    (r = Ok tt ↔ ∀ b, b ∈ ids → StackUsage.verify_block config resolver fv b = Ret (Ok tt)).
Proof.
  induction ids as [|b ids IH]; intros Hall; cbn [StackUsage.verify_blocks]; [eexists; split; [done|]; split; [set_solver|done]|].
  destruct (Hall b) as ([[]|e] & Hb & _); [set_solver|..]; rewrite Hb; cbn [mbind vm_bind].
  - destruct IH as (r & -> & Hr); [set_solver|]. exists r. split; [done|]. rewrite Hr. setoid_rewrite elem_of_cons. naive_solver.
  - eexists. split; [done|]. split; [done|]. intros Hx. specialize (Hx b ltac:(set_solver)). congruence.
Qed.

(** ** Along the paths *)

(** The height of the stack, from that at the entry, where a path gets to. *)
Inductive depth : Z → Z → Prop :=
  | depth_start : depth ENTRY_BLOCK_ID 0
  | depth_step pc d i pops pushes next :
      depth pc d → instr_at code pc i → effect i = Ret (Ok (pops, pushes)) → goes_to code pc next → depth next (d - pops + pushes).

Context (Hwf : wf_code code) (Hblocks : blocks_ok code (blocks (fv_cfg fv))).

Lemma verify_exact :
  ∃ r, StackUsage.verify config resolver fv = Ret r ∧ (r = Ok tt ↔ ∀ b bb, blocks (fv_cfg fv) !! b = Some bb → balanced b bb).
Proof.
  assert (∀ b bb, blocks (fv_cfg fv) !! b = Some bb → ∃ r, StackUsage.verify_block config resolver fv b = Ret r ∧ (r = Ok tt ↔ balanced b bb)) as Hblock.
  { intros b bb Hbb. destruct (bk_block _ _ Hblocks b bb Hbb) as [[? _] Hexit _ _ _ _]. apply verify_block_ok; [done|lia..]. }
  unfold StackUsage.verify, Cfg.block_ids. destruct (verify_blocks_ok (btree_set_iter (dom (blocks (fv_cfg fv))))) as (r & Hr & Hiff).
  { intros b [bb Hbb]%elem_of_btree_set_iter%elem_of_dom. destruct (Hblock b bb Hbb) as (r & Hr & Hiff). exists r. split; [done|].
    intros bb' Hbb'. by simplify_eq. }
  exists r. split; [done|]. rewrite Hiff. setoid_rewrite elem_of_btree_set_iter. split.
  - intros Hall b bb Hbb. destruct (Hblock b bb Hbb) as (rb & Hrb & Hib). rewrite (Hall b) in Hrb by (by apply elem_of_dom_2 in Hbb).
    apply Hib. congruence.
  - intros Hall b [bb Hbb]%elem_of_dom. destruct (Hblock b bb Hbb) as (rb & Hrb & Hib). rewrite Hrb. f_equal. by apply Hib, Hall.
Qed.

(** Up to an instruction of a balanced block. *)
Lemma heights_prefix b x pushed h pc : heights b x pushed h → b <= pc <= x → ∃ pushed' h', heights b pc pushed' h'.
Proof.
  induction 1 as [|y p hh j pops pushes Hy IH Hj Heff H1 H2 H3]; intros Hpc.
  - assert (pc = b) as -> by lia. eexists _, _. apply heights_start.
  - destruct (decide (pc = y + 1)) as [->|]; [|apply IH; lia]. eexists _, _. by eapply heights_step.
Qed.

Lemma depth_in_block pc d :
  (∀ b bb, blocks (fv_cfg fv) !! b = Some bb → balanced b bb) → depth pc d →
  ∃ b bb pushed, blocks (fv_cfg fv) !! b = Some bb ∧ b <= pc <= exit bb ∧ heights b pc pushed d.
Proof.
  intros Hall. induction 1 as [|pc d i pops pushes next Hd (b & bb & pushed & Hbb & Hpc & Hh) Hi Heff Hgo].
  - destruct (bk_starts _ _ Hblocks ENTRY_BLOCK_ID) as (bb & Hbb).
    { split; [pose proof (wc_length _ Hwf); unfold ENTRY_BLOCK_ID; lia|by left]. }
    pose proof (bo_exit _ _ _ (bk_block _ _ Hblocks _ _ Hbb)). exists ENTRY_BLOCK_ID, bb, 0. split_and!; [done|lia..|apply heights_start].
  - pose proof (bk_block _ _ Hblocks b bb Hbb) as Hbk. destruct (Hall b bb Hbb) as (pushed' & Hend).
    destruct (heights_past b pc _ _ _ _ _ i Hend Hh ltac:(lia) Hi) as (pops' & pushes' & Heff' & Hs1 & Hs2 & Hs3).
    rewrite Heff in Heff'. simplify_eq. pose proof (heights_step b pc pushed d i _ _ Hh Hi Heff Hs1 Hs2 Hs3) as Hnext.
    destruct (decide (pc = exit bb)) as [->|Hne].
    + destruct (heights_fun _ _ _ _ _ _ Hend Hnext) as [_ <-]. destruct (bk_starts _ _ Hblocks next) as (bb' & Hbb').
      { by eapply exit_starts. }
      pose proof (bo_exit _ _ _ (bk_block _ _ Hblocks _ _ Hbb')). exists next, bb', 0. split_and!; [done|lia..|apply heights_start].
    + apply (inside_goes_to code Hwf b bb pc next Hbk) in Hgo; [|lia]. subst next. eexists b, bb, _. split_and!; [done|lia..|done].
Qed.

Lemma balanced_safe pc d i :
  (∀ b bb, blocks (fv_cfg fv) !! b = Some bb → balanced b bb) → depth pc d → instr_at code pc i →
  ∃ pops pushes, effect i = Ret (Ok (pops, pushes)) ∧ pops <= d ∧ d - pops + pushes <= max_value_stack_size config ∧
    (i = BC.Ret → d = as_u64 (length (fv_return_ fv))) ∧
    (∀ next, goes_to code pc next → starts_block code next → d - pops + pushes = 0).
Proof.
  intros Hall Hd Hi. destruct (depth_in_block pc d Hall Hd) as (b & bb & pushed & Hbb & Hpc & Hh).
  pose proof (bk_block _ _ Hblocks b bb Hbb) as Hbk. destruct (Hall b bb Hbb) as (pushed' & Hend).
  destruct (heights_past b pc _ _ _ _ _ i Hend Hh ltac:(lia) Hi) as (pops & pushes & Heff & Hs1 & Hs2 & Hs3).
  exists pops, pushes. split_and!; [done..| |].
  - intros ->. destruct (decide (pc = exit bb)) as [->|Hne].
    + destruct (heights_fun _ _ _ _ _ _ Hend (heights_step b _ _ _ _ _ _ Hh Hi Heff Hs1 Hs2 Hs3)) as [_ Hz]. injection Heff as <- <-. lia.
    + assert (goes_to code pc (pc + 1)) as Hgo by (apply (inside_goes_to code Hwf b bb pc _ Hbk); lia).
      destruct Hgo as (j & Hj & Hgo). rewrite (instr_at_fun _ _ _ _ Hj Hi) in Hgo. cbn in Hgo. naive_solver.
  - intros next Hgo Hst. destruct (decide (pc = exit bb)) as [->|Hne].
    + by destruct (heights_fun _ _ _ _ _ _ Hend (heights_step b _ _ _ _ _ _ Hh Hi Heff Hs1 Hs2 Hs3)) as [_ Hz].
    + apply (inside_goes_to code Hwf b bb pc next Hbk) in Hgo; [|lia]. subst next. by destruct (bo_inside _ _ _ Hbk (pc + 1)); [lia|].
Qed.
End heights.

(** C22: the stack usage check is exact and keeps the operand stack safe.  For code whose table indexes are in
    range it returns, and accepts if and only if every basic block is balanced: no instruction pops more than
    the block has pushed, the limits hold, and the block leaves nothing.  In accepted code, on every path, no
    instruction reaches below the height at the entry of the function, the height never exceeds the maximum,
    it is zero at every block start, and [Ret] finds exactly the declared number of return values. *)
Theorem stack_usage_correct config resolver fv :
  limits_ok config → wf_code (fv_code fv) → Cfg.new (fv_code fv) = Ret (fv_cfg fv) →
  (∀ pc i, instr_at (fv_code fv) pc i → operands_ok i ∧ ∃ r, StackUsage.instruction_effect resolver fv i = Ret r) →
  ∃ r, StackUsage.verify config resolver fv = Ret r ∧
    (r = Ok tt ↔ ∀ b bb, blocks (fv_cfg fv) !! b = Some bb → balanced config resolver fv b bb) ∧
    (r = Ok tt → ∀ pc d i, depth resolver fv pc d → instr_at (fv_code fv) pc i →
      ∃ pops pushes, StackUsage.instruction_effect resolver fv i = Ret (Ok (pops, pushes)) ∧
        pops <= d ∧ d - pops + pushes <= max_value_stack_size config ∧
        (i = BC.Ret → d = as_u64 (length (fv_return_ fv))) ∧
        (∀ next, goes_to (fv_code fv) pc next → starts_block (fv_code fv) next → d - pops + pushes = 0)).
Proof.
  intros Hlim Hwf Hcfg Hi. destruct (cfg_new_ok (fv_code fv) Hwf) as (g & order & Hg & Hb & _). rewrite Hcfg in Hg. injection Hg as <-.
  destruct (verify_exact config resolver fv Hlim (λ pc i H, proj1 (Hi pc i H)) (λ pc i H, proj2 (Hi pc i H)) Hb) as (r & Hr & Hiff).
  exists r. split_and!; [done..|]. intros Hok pc d i. eapply balanced_safe; [done..|]. by apply Hiff.
Qed.

(** * Examples *)
Module LoopStack.
Definition unit_ : CompiledModule := empty_module (mkCommon [] [] [] [] [[TU64]; []] [] [] [] []).
Definition config : VerifierConfig := default_config.

(** [while (true) { x = x + 1 }; return x]. *)
Definition code : list BC.Bytecode :=
  [BC.LdTrue; BC.BrFalse 7; BC.MoveLoc 0; BC.LdU64 1; BC.Add; BC.StLoc 0; BC.Branch 0; BC.MoveLoc 0; BC.Ret].

Definition view (code : list BC.Bytecode) : FunctionView :=
  match function_view unit_ 0 (mkCodeUnit 1 code) (mkFunctionHandle 0 0 0 0 []) with
  | Ret fv => fv
  | _ => mkFunctionView None [] [] [] [] [] (mkCfg ∅ ∅ ∅)
  end.

Lemma stack_usage_correct_witness :
  ∃ r, StackUsage.verify config (ModuleView unit_) (view code) = Ret r ∧ r = Ok tt ∧
    ∀ d, depth (ModuleView unit_) (view code) 8 d → d = 1.
Proof.
  destruct (stack_usage_correct config (ModuleView unit_) (view code)) as (r & Hr & Hiff & Hsafe).
  - split; [done|]. intros m Hm. discriminate Hm.
  - by apply wf_code_bool.
  - vm_compute. reflexivity.
  - apply (instr_at_Forall (λ i, operands_ok i ∧ ∃ r, StackUsage.instruction_effect (ModuleView unit_) (view code) i = Ret r)).
    repeat (apply Forall_cons_2; [split; [exact I|eexists; reflexivity]|]); by apply Forall_nil_2.
  - exists r. split; [exact Hr|]. assert (r = Ok tt) as Hok.
    { assert (StackUsage.verify config (ModuleView unit_) (view code) = Ret (Ok tt)) as Hv by (vm_compute; reflexivity). congruence. }
    split; [exact Hok|]. intros d Hd. destruct (Hsafe Hok 8 d BC.Ret Hd) as (_ & _ & _ & _ & _ & Hret & _); [split; [lia|reflexivity]|].
    by rewrite (Hret eq_refl).
Defined.

(** A value left on the stack at the end of a block, and one taken from below it. *)
Lemma unbalanced_rejected :
  StackUsage.verify config (ModuleView unit_) (view [BC.LdTrue; BC.Branch 2; BC.Ret]) = Ret (Err POSITIVE_STACK_SIZE_AT_BLOCK_END) ∧
  StackUsage.verify config (ModuleView unit_) (view [BC.Pop; BC.Ret]) = Ret (Err NEGATIVE_STACK_SIZE_WITHIN_BLOCK).
Proof. vm_compute. done. Qed.
End LoopStack.
