(* ===== verification/LoopSummary.v ===== *)
(** The summary of the loops of a function ([move-bytecode-verifier/src/loop_summary.rs]): the depth-first
    spanning tree of the control flow graph, and the partition of its nodes into collapsed loops.

    A [NodeId] is a [Z] below 2^16 and a [NodeMap] a list; indexing may panic.  Stacks have their top
    first.  Both loops have fuel. *)
From S2P Require Import Prelude MoveFormat ControlFlowGraph.

Record LoopSummary := mkSummary {
  node_blocks : list Z;
  descs : list Z;
  backs : list (list Z);
  preds : list (list Z);
}.

Record LoopPartition := mkPartition { parents : list Z; depths : list Z }.

Inductive NodeExploration := NodeInProgress (node : Z) | NodeDone (node : Z).

Inductive Frontier :=
  | Visit (from_node to_block : Z)
  | Finish (block node_id parent : Z).

(** The variables of [LoopSummary::new]. *)
Record Dfs := mkDfs {
  summary : LoopSummary;
  next_node : Z;
  explored : gmap Z NodeExploration;
  frontier : list Frontier;
}.

Module Loops.
(** [NodeId::bump]. *)
Definition bump (n : Z) : Z := BC.u16 (n + 1).

Definition set_block (s : LoopSummary) (node block : Z) : outcome LoopSummary :=
  l ← set_index (node_blocks s) node block; mret (mkSummary l (descs s) (backs s) (preds s)).
Definition set_descs (s : LoopSummary) (node d : Z) : outcome LoopSummary :=
  l ← set_index (descs s) node d; mret (mkSummary (node_blocks s) l (backs s) (preds s)).
Definition push_back (s : LoopSummary) (node from : Z) : outcome LoopSummary :=
  v ← at_index (backs s) node;
  l ← set_index (backs s) node (v ++ [from]); mret (mkSummary (node_blocks s) (descs s) l (preds s)).
Definition push_pred (s : LoopSummary) (node from : Z) : outcome LoopSummary :=
  v ← at_index (preds s) node;
  l ← set_index (preds s) node (v ++ [from]); mret (mkSummary (node_blocks s) (descs s) (backs s) l).

(** What [stack.extend] puts on the stack. *)
Definition visits (from_node : Z) (succs : list Z) : list Frontier := rev (Visit from_node <$> succs).

Definition dfs_step (cfg : VMControlFlowGraph) (s : Dfs) (action : Frontier) (rest : list Frontier) : outcome Dfs :=
  match action with
  | Finish block node_id parent =>
      d ← at_index (descs (summary s)) node_id;
      dp ← at_index (descs (summary s)) parent;
      summary ← set_descs (summary s) parent (BC.u16 (dp + BC.u16 (1 + d)));
      unwrap (explored s !! block);;
      mret (mkDfs summary (next_node s) (<[block := NodeDone node_id]> (explored s)) rest)
  | Visit from_node to_block =>
      match explored s !! to_block with
      | Some (NodeInProgress to_node) =>
          summary ← push_back (summary s) to_node from_node;
          mret (mkDfs summary (next_node s) (explored s) rest)
      | Some (NodeDone to_node) =>
          summary ← push_pred (summary s) to_node from_node;
          mret (mkDfs summary (next_node s) (explored s) rest)
      | None =>
          let to_node := next_node s in
          summary ← set_block (summary s) to_node to_block;
          summary ← push_pred summary to_node from_node;
          succs ← Cfg.successors cfg to_block;
          mret (mkDfs summary (bump to_node) (<[to_block := NodeInProgress to_node]> (explored s))
                  (visits to_node succs ++ Finish to_block to_node from_node :: rest))
      end
  end.

Fixpoint dfs (fuel : nat) (cfg : VMControlFlowGraph) (s : Dfs) : outcome LoopSummary :=
  match frontier s with
  | [] => mret (summary s)
  | action :: rest =>
      match fuel with
      | O => OutOfFuel
      | S fuel => s ← dfs_step cfg s action rest; dfs fuel cfg s
      end
  end.

(** A block is pushed at most once with each of its incoming edges, and finished once. *)
Definition dfs_fuel (cfg : VMControlFlowGraph) : nat := S (3 * size (blocks cfg)).

(** [LoopSummary::new]. *)
Definition new (cfg : VMControlFlowGraph) : outcome LoopSummary :=
  let num_blocks := Z.to_nat (Cfg.num_blocks cfg) in
  let root_block := Cfg.entry_block_id cfg in
  summary ← set_block (mkSummary (replicate num_blocks 0) (replicate num_blocks 0) (replicate num_blocks []) (replicate num_blocks [])) 0 root_block;
  succs ← Cfg.successors cfg root_block;
  dfs (dfs_fuel cfg) cfg (mkDfs summary (bump 0) {[ root_block := NodeInProgress 0 ]} (visits 0 succs)).

Definition is_descendant (s : LoopSummary) (ancestor descendant : Z) : outcome bool :=
  if ancestor <=? descendant then
    d ← at_index (descs s) ancestor; mret (descendant <=? BC.u16 (ancestor + d))
  else mret false.

Definition preorder (s : LoopSummary) : list Z := BC.u16 <$> seqZ 0 (Z.of_nat (length (node_blocks s))).
Definition back_edges (s : LoopSummary) (l : Z) : outcome (list Z) := at_index (backs s) l.
Definition pred_edges (s : LoopSummary) (l : Z) : outcome (list Z) := at_index (preds s) l.

(** ** The partition *)

(** [LoopPartition::new]. *)
Definition new_partition (s : LoopSummary) : LoopPartition :=
  let num_blocks := length (node_blocks s) in
  mkPartition (BC.u16 <$> seqZ 0 (Z.of_nat num_blocks)) (replicate num_blocks 0).

Definition parent (p : LoopPartition) (l : Z) : outcome Z := at_index (parents p) l.
Definition set_parent (p : LoopPartition) (l x : Z) : outcome LoopPartition :=
  ps ← set_index (parents p) l x; mret (mkPartition ps (depths p)).

(** The loop of [containing_loop]: the representative, and the nodes on the way to it. *)
Fixpoint climb (fuel : nat) (p : LoopPartition) (child parent_ grandparent : Z) (descendants : list Z) : outcome (Z * list Z) :=
  match fuel with
  | O => OutOfFuel
  | S fuel =>
      let descendants := descendants ++ [child] in
      great ← parent p grandparent;
      if grandparent =? great then mret (grandparent, descendants)
      else climb fuel p parent_ grandparent great descendants
  end.

Definition containing_loop (p : LoopPartition) (id : Z) : outcome (Z * LoopPartition) :=
  let child := id in
  parent_ ← parent p child;
  grandparent ← parent p parent_;
  if (child =? parent_) || (parent_ =? grandparent) then mret (parent_, p)
  else
    '(root, descendants) ← climb (length (parents p)) p child parent_ grandparent [];
    p ← foldM (λ p descendant, set_parent p descendant root) p descendants;
    mret (root, p).

Definition collapse_loop (p : LoopPartition) (head : Z) (body : gset Z) : outcome (Z * LoopPartition) :=
  depth ← at_index (depths p) head;
  '(p, depth) ← foldM (λ (st : LoopPartition * Z) constituent,
      p ← set_parent st.1 constituent head;
      d ← at_index (depths p) constituent;
      mret (p, Z.max d st.2)) (p, depth) (btree_set_iter body);
  let depth := BC.u16 (depth + 1) in
  ds ← set_index (depths p) head depth;
  mret (depth, mkPartition (parents p) ds).
End Loops.

(** * The spanning tree *)

(** Entries of a [NodeMap]. *)
Definition entry {A} (d : A) (l : list A) (k : Z) : A := default d (l !! Z.to_nat k).

Lemma at_entry {A} (d : A) l k : 0 <= k < Z.of_nat (length l) → at_index l k = Ret (entry d l k).
Proof.
  intros Hk. destruct (lookup_lt_is_Some_2 l (Z.to_nat k)) as (x & Hx); [lia|]. unfold entry. rewrite Hx. apply at_index_eq; [lia|done].
Qed.

Lemma entry_insert {A} (d : A) l k x j :
  0 <= k < Z.of_nat (length l) → 0 <= j → entry d (<[Z.to_nat k := x]> l) j = if decide (j = k) then x else entry d l j.
Proof.
  intros Hk Hj. unfold entry. case_decide; subst; [by rewrite list_lookup_insert_eq by lia|]. by rewrite list_lookup_insert_ne by lia.
Qed.

Lemma entry_replicate {A} (d : A) n k : entry d (replicate n d) k = d.
Proof. unfold entry. destruct (replicate n d !! _) eqn:H; [|done]. by apply lookup_replicate in H as [-> _]. Qed.

Definition block_of (s : LoopSummary) (k : Z) : Z := entry 0 (node_blocks s) k.
Definition descs_of (s : LoopSummary) (k : Z) : Z := entry 0 (descs s) k.
Definition backs_of (s : LoopSummary) (k : Z) : list Z := entry [] (backs s) k.
Definition preds_of (s : LoopSummary) (k : Z) : list Z := entry [] (preds s) k.

(** The first [N] nodes are the blocks that the search has reached, in preorder: the descendants of a
    node are those that follow it, as many as [descs] says. *)
Record tree_ok (bs : gmap Z BasicBlock) (s : LoopSummary) (N : Z) : Prop := {
  to_length : length (node_blocks s) = size bs ∧ length (descs s) = size bs ∧ length (backs s) = size bs ∧ length (preds s) = size bs;
  to_nodes : 0 < N <= Z.of_nat (size bs);
  to_root : block_of s 0 = ENTRY_BLOCK_ID;
  to_inj : ∀ j k, 0 <= j < N → 0 <= k < N → block_of s j = block_of s k → j = k;
  to_edge : ∀ k v, 0 <= k < N → edge bs (block_of s k) v →
    ∃ j, 0 <= j < N ∧ v = block_of s j ∧ j <= k + descs_of s k ∧ (k ∈ backs_of s j ∨ k ∈ preds_of s j);
  to_back : ∀ j k, 0 <= j → k ∈ backs_of s j → j <= k <= j + descs_of s j ∧ k < N ∧ edge bs (block_of s k) (block_of s j);
  to_pred : ∀ j k, 0 <= j → k ∈ preds_of s j → 0 <= k < N ∧ j < N ∧ edge bs (block_of s k) (block_of s j) ∧ (k < j ∨ j + descs_of s j < k);
  to_descs : ∀ k, 0 <= k < N → 0 <= descs_of s k ∧ k + descs_of s k < N ∧
    ∀ x, k <= x <= k + descs_of s k → x + descs_of s x <= k + descs_of s k;
  to_parent : ∀ p, 0 < p < N → ∃ q, 0 <= q < p ∧ edge bs (block_of s q) (block_of s p) ∧
    ∀ h, 0 <= h < p → p <= h + descs_of s h ↔ h <= q <= h + descs_of s h;
}.

Section dfs.
Context (g : VMControlFlowGraph).
Abbreviation bs := (blocks g).
Abbreviation n := (Z.of_nat (size (blocks g))).
Context (Hclosed : ∀ b v, edge bs b v → is_Some (bs !! v)).
Context (Hentry : is_Some (bs !! ENTRY_BLOCK_ID)) (Hsize : n < U16_MOD).
Context (Hfew : ∀ b bb, bs !! b = Some bb → (length (successors bb) ≤ 2)%nat).
Implicit Types (s : Dfs) (path : list Z).

Definition node (e : NodeExploration) : Z := match e with NodeInProgress k | NodeDone k => k end.

(** The counts of the nodes in progress, the innermost first, when the nodes below [upper] are known. *)
Fixpoint path_descs (d : Z → Z) (upper : Z) path : Prop :=
  match path with [] => True | k :: rest => 0 <= k < upper ∧ d k = upper - 1 - k ∧ path_descs d k rest end.

Definition visit_ok (S : LoopSummary) (k : Z) (a : Frontier) : Prop := ∃ v, a = Visit k v ∧ edge bs (block_of S k) v.

(** The stack: the successors that each node in progress has left to visit, and where to finish it. *)
Fixpoint stack_shape (S : LoopSummary) path (stk : list Frontier) : Prop :=
  match path with
  | [] => False
  | [r] => r = 0 ∧ Forall (visit_ok S r) stk
  | k :: ((p :: _) as rest) => ∃ vs stk', stk = vs ++ Finish (block_of S k) k p :: stk' ∧ Forall (visit_ok S k) vs ∧ stack_shape S rest stk'
  end.

(** A finished node. *)
Record done_node s path (k : Z) : Prop := {
  dn_descs : 0 <= descs_of (summary s) k ∧ k + descs_of (summary s) k < next_node s;
  dn_path : ∀ p, p ∈ path → p < k ∨ k + descs_of (summary s) k < p;
  dn_nest : ∀ x, k <= x <= k + descs_of (summary s) k → x + descs_of (summary s) x <= k + descs_of (summary s) k;
  dn_edge : ∀ v, edge bs (block_of (summary s) k) v → ∃ e, explored s !! v = Some e ∧ node e <= k + descs_of (summary s) k;
}.

Record dfs_ok s path : Prop := {
  do_length : length (node_blocks (summary s)) = size bs ∧ length (descs (summary s)) = size bs ∧
    length (backs (summary s)) = size bs ∧ length (preds (summary s)) = size bs;
  do_count : next_node s = Z.of_nat (size (explored s)) ∧ 0 < next_node s;
  do_zero : ∀ k, next_node s <= k → descs_of (summary s) k = 0;
  do_dom : ∀ b e, explored s !! b = Some e → is_Some (bs !! b) ∧ 0 <= node e < next_node s ∧ block_of (summary s) (node e) = b ∧
    (e = NodeInProgress (node e) ↔ node e ∈ path);
  do_node : ∀ k, 0 <= k < next_node s → ∃ e, explored s !! block_of (summary s) k = Some e ∧ node e = k;
  do_path : path_descs (descs_of (summary s)) (next_node s) path;
  do_root : block_of (summary s) 0 = ENTRY_BLOCK_ID;
  do_done : ∀ k, 0 <= k < next_node s → k ∉ path → done_node s path k;
  do_shape : stack_shape (summary s) path (frontier s);
  do_edge : ∀ k v, 0 <= k < next_node s → edge bs (block_of (summary s) k) v →
    Visit k v ∈ frontier s ∨ ∃ e, explored s !! v = Some e ∧ (k ∈ backs_of (summary s) (node e) ∨ k ∈ preds_of (summary s) (node e));
  do_back : ∀ j k, 0 <= j → k ∈ backs_of (summary s) j → j <= k ∧ k < next_node s ∧ edge bs (block_of (summary s) k) (block_of (summary s) j) ∧
    (j ∉ path → k <= j + descs_of (summary s) j);
  do_pred : ∀ j k, 0 <= j → k ∈ preds_of (summary s) j → 0 <= k < next_node s ∧ j < next_node s ∧
    edge bs (block_of (summary s) k) (block_of (summary s) j) ∧ (k < j ∨ ((j ∉ path) ∧ j + descs_of (summary s) j < k));
  do_parent : ∀ p, 0 < p < next_node s → ∃ q, 0 <= q < p ∧ edge bs (block_of (summary s) q) (block_of (summary s) p) ∧
    (∀ h, h < p → h ∈ path → h <= q) ∧
    ∀ h, 0 <= h < p → h ∉ path → p <= h + descs_of (summary s) h ↔ h <= q <= h + descs_of (summary s) h;
}.
Lemma path_descs_lt d upper path : path_descs d upper path → ∀ p, p ∈ path → 0 <= p < upper.
Proof.
  revert upper. induction path as [|k rest IH]; intros upper; [set_solver|]. intros (Hk & _ & Hrest) p [->|Hp]%elem_of_cons; [done|].
  pose proof (IH k Hrest p Hp). lia.
Qed.

Lemma path_descs_ext d d' upper path : path_descs d upper path → (∀ p, p ∈ path → d' p = d p) → path_descs d' upper path.
Proof.
  revert upper. induction path as [|k rest IH]; intros upper; [done|]. intros (Hk & Hd & Hrest) Hext. cbn.
  split_and!; [lia..|rewrite Hext; [done|set_solver]|apply IH; [done|set_solver]].
Qed.

Lemma shape_ext S S' path stk : stack_shape S path stk → (∀ p, p ∈ path → block_of S' p = block_of S p) → stack_shape S' path stk.
Proof.
  assert (∀ k stk, block_of S' k = block_of S k → Forall (visit_ok S k) stk → Forall (visit_ok S' k) stk) as Hv.
  { intros k l Hk Hl. eapply Forall_impl; [exact Hl|]. intros a (v & -> & Hv). exists v. by rewrite Hk. }
  revert stk. induction path as [|k [|p rest] IH]; intros stk; [done|..].
  - intros [-> Hf] Hext. split; [done|]. apply Hv; [apply Hext; set_solver|done].
  - intros (vs & stk' & -> & Hvs & Hrest) Hext. exists vs, stk'. rewrite (Hext k) by set_solver. split_and!; [done| |].
    + apply Hv; [apply Hext; set_solver|done].
    + apply IH; [done|]. intros q Hq. apply Hext. set_solver.
Qed.

Lemma shape_visit S path k v rest :
  stack_shape S path (Visit k v :: rest) → (∃ path', path = k :: path') ∧ edge bs (block_of S k) v ∧ stack_shape S path rest.
Proof.
  destruct path as [|r [|p path]]; [done|..].
  - intros [-> ((v' & [= Hk Hvv] & Hv) & Hrest)%Forall_cons]. subst. split_and!; [by eexists|done|by split].
  - intros (vs & stk' & Heq & Hvs & Hrest). destruct vs as [|a vs]; [discriminate Heq|]. injection Heq as <- ->.
    apply Forall_cons in Hvs as ((v' & [= Hk Hvv] & Hv) & Hvs'). subst. split_and!; [by eexists|done|by exists vs, stk'].
Qed.

Lemma shape_finish S path b k p rest :
  stack_shape S path (Finish b k p :: rest) → (∃ path', path = k :: p :: path') ∧ b = block_of S k ∧ stack_shape S (tail path) rest.
Proof.
  destruct path as [|r [|q path]]; [done|..].
  - by intros [-> ((v' & [=] & Hv) & Hrest)%Forall_cons].
  - intros (vs & stk' & Heq & Hvs & Hrest). destruct vs as [|a vs].
    + injection Heq as -> -> -> ->. split_and!; [by eexists|done|done].
    + injection Heq as <- ->. by apply Forall_cons in Hvs as ((v' & [=] & Hv) & _).
Qed.

(** What is left to visit belongs to nodes in progress. *)
Lemma shape_from S path stk k v : stack_shape S path stk → Visit k v ∈ stk → k ∈ path.
Proof.
  revert stk. induction path as [|r [|p path] IH]; intros stk; [done|..].
  - intros [-> Hf] Hin. rewrite Forall_forall in Hf. destruct (Hf _ Hin) as (v' & [= -> _] & _). set_solver.
  - intros (vs & stk' & -> & Hvs & Hrest) Hin. rewrite Forall_forall in Hvs. apply elem_of_app in Hin as [Hin|[Hin|Hin]%elem_of_cons]; [|done|].
    + destruct (Hvs _ Hin) as (v' & [= -> _] & _). set_solver.
    + right. by apply (IH stk').
Qed.

Lemma shape_root S path stk : stack_shape S path stk → 0 ∈ path.
Proof.
  revert stk. induction path as [|r [|p path] IH]; intros stk; [done|..].
  - intros [-> _]. set_solver.
  - intros (vs & stk' & _ & _ & Hrest). right. by apply (IH stk').
Qed.

(** An edge that leads to a node that has been seen. *)
Lemma record_edge s path k v e rest S' :
  dfs_ok s path → frontier s = Visit k v :: rest → explored s !! v = Some e →
  node_blocks S' = node_blocks (summary s) → descs S' = descs (summary s) → length (backs S') = size bs → length (preds S') = size bs →
  (∀ j x, 0 <= j → x ∈ backs_of S' j ↔ x ∈ backs_of (summary s) j ∨ (j = node e ∧ x = k ∧ j ∈ path)) →
  (∀ j x, 0 <= j → x ∈ preds_of S' j ↔ x ∈ preds_of (summary s) j ∨ (j = node e ∧ x = k ∧ j ∉ path)) →
  dfs_ok (mkDfs S' (next_node s) (explored s) rest) path.
Proof.
  intros [Hlen Hcount Hzero Hdom Hnode Hpath Hroot Hdone Hshape Hedge Hback Hpred Hparent] Hfr He HB HD Hlb Hlp Hbacks Hpreds.
  rewrite Hfr in Hshape. apply shape_visit in Hshape as ((path' & Hp) & Hkv & Hshape).
  destruct (Hdom v e He) as (_ & Hej & Hev & Hein).
  assert (∀ j, block_of S' j = block_of (summary s) j) as HB' by (intros j; unfold block_of; by rewrite HB).
  assert (∀ j, descs_of S' j = descs_of (summary s) j) as HD' by (intros j; unfold descs_of; by rewrite HD).
  assert (0 <= k < next_node s ∧ node e ∈ path → node e <= k) as Hle.
  { intros [_ Hin]. rewrite Hp in Hin, Hpath. destruct Hpath as (_ & _ & Hpath). apply elem_of_cons in Hin as [->|Hin]; [lia|].
    pose proof (path_descs_lt _ _ _ Hpath _ Hin). lia. }
  assert (0 <= k < next_node s) as Hk by (apply (path_descs_lt _ _ _ Hpath); rewrite Hp; set_solver).
  split; cbn [summary next_node explored frontier].
  - destruct Hlen as (? & ? & _). by rewrite HB, HD.
  - done.
  - intros j Hj. rewrite HD'. by apply Hzero.
  - intros b e' He'. rewrite HB'. by apply Hdom.
  - intros j Hj. rewrite HB'. by apply Hnode.
  - by eapply path_descs_ext.
  - by rewrite HB'.
  - intros j Hj Hnp. destruct (Hdone j Hj Hnp) as [H1 H2 H3 H4]. split; cbn [summary next_node explored]; rewrite ?HD', ?HB'; [done..| |done].
    intros x. rewrite HD'. apply H3.
  - by eapply shape_ext.
  - intros j w Hj. rewrite HB'. intros Hw. destruct (Hedge j w Hj Hw) as [Hin|(e' & He' & Hor)].
    + rewrite Hfr in Hin. apply elem_of_cons in Hin as [[= -> ->]|Hin]; [|by left]. right. exists e. split; [done|].
      rewrite Hbacks, Hpreds by lia. destruct (decide (node e ∈ path)); naive_solver.
    + right. exists e'. split; [done|]. destruct (Hdom _ _ He') as (_ & ? & _). rewrite Hbacks, Hpreds by lia. naive_solver.
  - intros j x Hj. rewrite Hbacks by done. rewrite !HB', HD'. intros [Hx|(-> & -> & Hin)]; [by apply Hback|].
    split_and!; [by apply Hle|lia|by rewrite Hev|done].
  - intros j x Hj. rewrite Hpreds by done. rewrite !HB', HD'. intros [Hx|(-> & -> & Hin)]; [by apply Hpred|].
    split_and!; [lia..|by rewrite Hev|]. destruct (dn_path _ _ _ (Hdone (node e) ltac:(lia) Hin) k); [rewrite Hp; set_solver|by left|by right].
  - intros p0 Hp0. destruct (Hparent p0 Hp0) as (q & Hq & Hqe & Hqp & Hqh). exists q. rewrite !HB'. split_and!; [lia|lia|done|done|].
    intros h Hh Hnp. rewrite HD'. by apply Hqh.
Qed.

Lemma elem_of_visits k v succs : Visit k v ∈ Loops.visits k succs ↔ v ∈ succs.
Proof.
  unfold Loops.visits. rewrite list_elem_of_In, <- in_rev, <- list_elem_of_In, list_elem_of_fmap. split; [|by eauto]. intros (? & [= ->] & ?). done.
Qed.

(** The first visit of a block. *)
Lemma new_node_ok s path k v bb rest S' :
  dfs_ok s path → frontier s = Visit k v :: rest → explored s !! v = None → bs !! v = Some bb →
  length (node_blocks S') = size bs → length (preds S') = size bs → descs S' = descs (summary s) → backs S' = backs (summary s) →
  (∀ j, 0 <= j → block_of S' j = if decide (j = next_node s) then v else block_of (summary s) j) →
  (∀ j x, 0 <= j → x ∈ preds_of S' j ↔ x ∈ preds_of (summary s) j ∨ (j = next_node s ∧ x = k)) →
  dfs_ok (mkDfs S' (next_node s + 1) (<[v := NodeInProgress (next_node s)]> (explored s))
            (Loops.visits (next_node s) (successors bb) ++ Finish v (next_node s) k :: rest)) (next_node s :: path).
Proof.
  intros [Hlen Hcount Hzero Hdom Hnode Hpath Hroot Hdone Hshape Hedge Hback Hpred Hparent] Hfr Hv Hbb Hlb Hlp HD Hbk HB Hpreds.
  set (T := next_node s) in *. rewrite Hfr in Hshape. apply shape_visit in Hshape as ((path' & Hp) & Hkv & Hshape).
  pose proof (path_descs_lt _ _ _ Hpath) as Hlt.
  assert (0 <= k < T) as Hk by (apply Hlt; rewrite Hp; set_solver).
  assert (∀ j, descs_of S' j = descs_of (summary s) j) as HD' by (intros j; unfold descs_of; by rewrite HD).
  assert (∀ j, backs_of S' j = backs_of (summary s) j) as Hbk' by (intros j; unfold backs_of; by rewrite Hbk).
  assert (∀ j, 0 <= j < T → block_of S' j = block_of (summary s) j) as HB' by (intros j Hj; rewrite HB, decide_False by lia; done).
  assert (block_of S' T = v) as HBT by (rewrite HB, decide_True by lia; done).
  assert (∀ j, 0 <= j < T → (j ∉ T :: path) ↔ (j ∉ path)) as Hnp by (intros j Hj; rewrite not_elem_of_cons; lia || (split; [naive_solver|]; split; [lia|done])).
  assert (∀ w e, explored s !! w = Some e → <[v := NodeInProgress T]> (explored s) !! w = Some e) as Hex.
  { intros w e He. rewrite lookup_insert_ne; congruence. }
  split; cbn [summary next_node explored frontier].
  - destruct Hlen as (_ & ? & ? & _). by rewrite HD, Hbk.
  - rewrite map_size_insert_None by done. lia.
  - intros j Hj. rewrite HD'. apply Hzero. lia.
  - intros b e He. apply lookup_insert_Some in He as [[<- <-]|[Hne He]].
    + cbn [node]. split_and!; [by eexists|lia|lia|done|]. split; [set_solver|done].
    + destruct (Hdom b e He) as (? & ? & ? & ?). split_and!; [done|lia|lia|by rewrite HB'|]. rewrite elem_of_cons. split; [naive_solver|]. intros [?|?]; [lia|naive_solver].
  - intros j Hj. destruct (decide (j = T)) as [->|Hne].
    + exists (NodeInProgress T). rewrite HBT. by rewrite lookup_insert_eq.
    + destruct (Hnode j ltac:(lia)) as (e & He & Hej). exists e. rewrite HB' by lia. split; [by apply Hex|done].
  - cbn. rewrite HD', Hzero by lia. split_and!; [lia..|]. by eapply path_descs_ext.
  - by rewrite HB' by lia.
  - intros j Hj Hjp. assert (0 <= j < T) as Hj' by (apply not_elem_of_cons in Hjp; lia).
    destruct (Hdone j Hj') as [H1 H2 H3 H4]; [by apply Hnp|]. split; cbn [summary next_node explored]; rewrite ?HD', ?HB' by done.
    + lia.
    + intros p [->|Hpp]%elem_of_cons; [lia|by apply H2].
    + intros x Hx. rewrite HD'. by apply H3.
    + intros w Hw. destruct (H4 w Hw) as (e & He & ?). exists e. split; [by apply Hex|done].
  - rewrite Hp. change (∃ vs stk', Loops.visits T (successors bb) ++ Finish v T k :: rest = vs ++ Finish (block_of S' T) T k :: stk' ∧
      Forall (visit_ok S' T) vs ∧ stack_shape S' (k :: path') stk').
    exists (Loops.visits T (successors bb)), rest. rewrite HBT. split_and!; [done| |].
    + apply Forall_forall. intros a Ha. unfold Loops.visits in Ha. rewrite list_elem_of_In, <- in_rev, <- list_elem_of_In in Ha.
      apply list_elem_of_fmap in Ha as (w & -> & Hw). exists w. split; [done|]. rewrite HBT. by exists bb.
    + rewrite <- Hp. eapply shape_ext; [done|]. intros p Hpp. apply HB', Hlt, Hpp.
  - intros j w Hj Hw. destruct (decide (j = T)) as [->|Hne].
    + left. rewrite HBT in Hw. destruct Hw as (bb' & Hbb' & Hw). simplify_eq. apply elem_of_app. left. by apply elem_of_visits.
    + rewrite HB' in Hw by lia. destruct (Hedge j w ltac:(lia) Hw) as [Hin|(e & He & Hor)].
      * rewrite Hfr in Hin. apply elem_of_cons in Hin as [[= -> ->]|Hin]; [|left; set_solver].
        right. exists (NodeInProgress T). rewrite lookup_insert_eq. split; [done|]. right. apply Hpreds; [cbn; lia|]. by right.
      * right. exists e. split; [by apply Hex|]. destruct (Hdom w e He) as (_ & ? & _). rewrite Hbk', Hpreds by lia. naive_solver.
  - intros j x Hj. rewrite Hbk'. intros Hx. destruct (Hback j x Hj Hx) as (? & ? & ? & Hd). rewrite !HB', HD' by lia.
    split_and!; [lia..|done|]. intros Hjp. apply Hd, Hnp; [lia|done].
  - intros j x Hj. rewrite Hpreds by done. intros [Hx|[-> ->]].
    + destruct (Hpred j x Hj Hx) as (? & ? & ? & Hd). rewrite !HB', HD' by lia. split_and!; [lia..|done|]. destruct Hd as [?|[? ?]]; [by left|right].
      split; [apply Hnp; [lia|done]|done].
    + rewrite HB', HBT by lia. split_and!; [lia..|done|left; lia].
  - intros p0 Hp0. destruct (decide (p0 = T)) as [->|Hne].
    + exists k. rewrite HB', HBT by lia. split_and!; [lia..|done| |].
      * intros h Hh [->|Hin]%elem_of_cons; [lia|]. rewrite Hp in Hin, Hpath. destruct Hpath as (_ & _ & Hpath).
        apply elem_of_cons in Hin as [->|Hin]; [lia|]. pose proof (path_descs_lt _ _ _ Hpath _ Hin). lia.
      * intros h Hh Hhp. apply Hnp in Hhp; [|lia]. rewrite HD'. destruct (Hdone h Hh Hhp) as [H1 H2 _ _].
        specialize (H2 k ltac:(rewrite Hp; set_solver)). lia.
    + destruct (Hparent p0 ltac:(lia)) as (q & Hq & Hqe & Hqp & Hqh). exists q. rewrite !HB' by lia. split_and!; [lia|lia|done| |].
      * intros h Hh [->|Hin]%elem_of_cons; [lia|]. by apply Hqp.
      * intros h Hh Hhp. rewrite HD'. apply Hqh; [done|]. apply Hnp; [lia|done].
Qed.

(** The end of a subtree. *)
Lemma finish_node_ok s path b k p rest S' :
  dfs_ok s path → frontier s = Finish b k p :: rest →
  node_blocks S' = node_blocks (summary s) → backs S' = backs (summary s) → preds S' = preds (summary s) → length (descs S') = size bs →
  (∀ j, 0 <= j → descs_of S' j = if decide (j = p) then descs_of (summary s) p + (1 + descs_of (summary s) k) else descs_of (summary s) j) →
  dfs_ok (mkDfs S' (next_node s) (<[b := NodeDone k]> (explored s)) rest) (tail path).
Proof.
  intros [Hlen Hcount Hzero Hdom Hnode Hpath Hroot Hdone Hshape Hedge Hback Hpred Hparent] Hfr HB Hbk Hpd Hlen' HD.
  set (T := next_node s) in *. rewrite Hfr in Hshape. apply shape_finish in Hshape as ((path' & Hp) & -> & Hshape).
  pose proof (path_descs_lt _ _ _ Hpath) as Hlt. rewrite Hp in Hpath, Hshape. cbn [tail] in *. rewrite Hp. cbn [tail].
  destruct Hpath as (Hk & HDk & Hpk & HDp & Hpath'). pose proof (path_descs_lt _ _ _ Hpath') as Hlt'.
  assert (∀ j, block_of S' j = block_of (summary s) j) as HB' by (intros j; unfold block_of; by rewrite HB).
  assert (∀ j, backs_of S' j = backs_of (summary s) j) as Hbk' by (intros j; unfold backs_of; by rewrite Hbk).
  assert (∀ j, preds_of S' j = preds_of (summary s) j) as Hpd' by (intros j; unfold preds_of; by rewrite Hpd).
  assert (descs_of S' p = T - 1 - p) as HDp' by (rewrite HD, decide_True by lia; lia).
  assert (∀ j, 0 <= j → j ≠ p → descs_of S' j = descs_of (summary s) j) as HD' by (intros j Hj Hne; by rewrite HD, decide_False by lia).
  assert (∀ j, j ∈ p :: path' → j < k) as Hltk by (intros j [->|Hj]%elem_of_cons; [lia|]; specialize (Hlt' j Hj); lia).
  assert (∀ j, j ∈ path ↔ j = k ∨ j ∈ p :: path') as Hin by (intros j; rewrite Hp, (elem_of_cons _ _ k); done).
  destruct (Hnode k Hk) as (ek & Hek & Hnk).
  assert (∀ w e, explored s !! w = Some e → ∃ e', <[block_of (summary s) k := NodeDone k]> (explored s) !! w = Some e' ∧ node e' = node e) as Hex.
  { intros w e He. destruct (decide (w = block_of (summary s) k)) as [->|]; [|exists e; by rewrite lookup_insert_ne].
    exists (NodeDone k). rewrite lookup_insert_eq. split; [done|]. cbn. congruence. }
  split; cbn [summary next_node explored frontier].
  - rewrite HB, Hbk, Hpd. destruct Hlen as (? & _ & ? & ?). done.
  - rewrite map_size_insert_Some by by eexists. done.
  - intros j Hj. rewrite HD' by lia. by apply Hzero.
  - intros w e He. rewrite HB'. apply lookup_insert_Some in He as [[<- <-]|[Hne He]].
    + cbn [node]. destruct (Hdom _ _ Hek) as (? & _). split_and!; [done|lia|lia|done|]. split; [done|]. intros ?%Hltk. lia.
    + destruct (Hdom w e He) as (? & ? & Hw & Hiff). split_and!; [done|lia|lia|done|]. rewrite Hiff, Hin. split; [|naive_solver].
      intros [Hnk'|?]; [|done]. congruence.
  - intros j Hj. rewrite HB'. destruct (Hnode j Hj) as (e & He & <-). destruct (Hex _ _ He) as (e' & ? & ?). by exists e'.
  - cbn. split_and!; [lia..|done|]. eapply path_descs_ext; [exact Hpath'|]. intros j Hj. specialize (Hlt' j Hj). apply HD'; lia.
  - by rewrite HB'.
  - intros j Hj Hjp. assert (j ≠ p) by (intros ->; set_solver).
    destruct (decide (j = k)) as [->|Hjk].
    + split; cbn [summary next_node explored]; rewrite ?HB', ?(HD' k) by lia.
      * lia.
      * intros q Hq%Hltk. lia.
      * intros x Hx. rewrite HD' by lia. destruct (decide (x = k)) as [->|]; [lia|]. destruct (Hdone x ltac:(lia)) as [H1 _ _ _]; [|lia].
        rewrite Hin. intros [?|?%Hltk]; lia.
      * intros w Hw. destruct (Hedge k w Hk Hw) as [Hv|(e & He & _)].
        -- rewrite Hfr in Hv. apply elem_of_cons in Hv as [[=]|Hv]. eapply shape_from in Hv; [|exact Hshape]. apply Hltk in Hv. lia.
        -- destruct (Hex _ _ He) as (e' & He' & Hne'). exists e'. rewrite Hne'. split; [done|]. destruct (Hdom _ _ He) as (_ & ? & _). lia.
    + destruct (Hdone j Hj) as [H1 H2 H3 H4]; [rewrite Hin; naive_solver|]. split; cbn [summary next_node explored]; rewrite ?HB', ?(HD' j) by lia.
      * lia.
      * intros q Hq. apply H2. rewrite Hin. by right.
      * intros x Hx. rewrite HD' by (try lia; intros ->; specialize (H2 p ltac:(rewrite Hin; set_solver)); lia). by apply H3.
      * intros w Hw. destruct (H4 w Hw) as (e & He & ?). destruct (Hex _ _ He) as (e' & He' & Hne'). exists e'. rewrite Hne'. done.
  - eapply shape_ext; [exact Hshape|]. done.
  - intros j w Hj. rewrite HB'. intros Hw. destruct (Hedge j w Hj Hw) as [Hv|(e & He & Hor)].
    + left. rewrite Hfr in Hv. by apply elem_of_cons in Hv as [[=]|Hv].
    + right. destruct (Hex _ _ He) as (e' & He' & Hne'). exists e'. rewrite Hne', Hbk', Hpd'. done.
  - intros j x Hj. rewrite Hbk', !HB'. intros Hx. destruct (Hback j x Hj Hx) as (? & ? & ? & Hd). split_and!; [lia..|done|].
    intros Hjp. rewrite HD' by (try lia; intros ->; set_solver). destruct (decide (j = k)) as [->|Hne]; [lia|]. apply Hd. rewrite Hin. naive_solver.
  - intros j x Hj. rewrite Hpd', !HB'. intros Hx. destruct (Hpred j x Hj Hx) as (? & ? & ? & Hd). split_and!; [lia..|done|].
    destruct Hd as [?|[Hnp ?]]; [by left|right]. rewrite Hin in Hnp. split; [naive_solver|]. rewrite HD' by (try lia; intros ->; set_solver). done.
  - intros p0 Hp0. destruct (Hparent p0 Hp0) as (q & Hq & Hqe & Hqp & Hqh). exists q. rewrite !HB'. split_and!; [lia|lia|done| |].
    + intros h Hh Hhp. apply Hqp; [done|]. rewrite Hin. by right.
    + intros h Hh Hhp. rewrite HD' by (try lia; intros ->; set_solver). destruct (decide (h = k)) as [->|Hne].
      * specialize (Hqp k ltac:(lia) ltac:(rewrite Hin; by left)). lia.
      * apply Hqh; [done|]. rewrite Hin. naive_solver.
Qed.

(** ** Steps *)
Definition dfs_turns s : Z := Z.of_nat (length (frontier s)) + wset (cost bs) (dom bs ∖ dom (explored s)).

Lemma entry_app {A} (l : list (list A)) k x j y : 0 <= k < Z.of_nat (length l) → 0 <= j →
  y ∈ entry [] (<[Z.to_nat k := entry [] l k ++ [x]]> l) j ↔ y ∈ entry [] l j ∨ (j = k ∧ y = x).
Proof.
  intros Hk Hj. rewrite entry_insert by done. case_decide; subst; [|naive_solver]. rewrite elem_of_app, list_elem_of_singleton. naive_solver.
Qed.

Lemma push_back_eq (S : LoopSummary) k x : 0 <= k < Z.of_nat (length (backs S)) →
  Loops.push_back S k x = Ret (mkSummary (node_blocks S) (descs S) (<[Z.to_nat k := backs_of S k ++ [x]]> (backs S)) (preds S)).
Proof. intros Hk. unfold Loops.push_back. rewrite (at_entry []) by done. cbn [mbind outcome_bind]. by rewrite set_index_eq. Qed.

Lemma push_pred_eq (S : LoopSummary) k x : 0 <= k < Z.of_nat (length (preds S)) →
  Loops.push_pred S k x = Ret (mkSummary (node_blocks S) (descs S) (backs S) (<[Z.to_nat k := preds_of S k ++ [x]]> (preds S))).
Proof. intros Hk. unfold Loops.push_pred. rewrite (at_entry []) by done. cbn [mbind outcome_bind]. by rewrite set_index_eq. Qed.

Lemma visit_seen_ok s path k v e rest :
  dfs_ok s path → frontier s = Visit k v :: rest → explored s !! v = Some e →
  ∃ S', Loops.dfs_step g s (Visit k v) rest = Ret (mkDfs S' (next_node s) (explored s) rest) ∧
    dfs_ok (mkDfs S' (next_node s) (explored s) rest) path.
Proof.
  intros Hok Hfr He. pose proof Hok as [(Hl1 & Hl2 & Hl3 & Hl4) Hcount _ Hdom _ _ _ _ _ _ _ _ _].
  destruct (Hdom v e He) as (_ & Hn & _ & Hiff). assert (next_node s <= n) as Hle.
  { destruct Hcount as [-> _]. apply inj_le. rewrite <- !size_dom. apply subseteq_size. intros b [e' He']%elem_of_dom.
    apply elem_of_dom. by destruct (Hdom b e' He') as (? & _). }
  cbn [Loops.dfs_step]. rewrite He. destruct e as [j|j]; cbn [node] in *.
  - rewrite push_back_eq by lia. cbn [mbind outcome_bind]. eexists. split; [done|].
    eapply record_edge; [done..|by cbn; rewrite length_insert|done| |].
    + intros i x Hi. unfold backs_of. cbn [backs node]. rewrite entry_app by lia. naive_solver.
    + intros i x Hi. cbn [node]. split; [by left|]. intros [?|(-> & -> & Hnp)]; [done|]. destruct Hnp. by apply Hiff.
  - rewrite push_pred_eq by lia. cbn [mbind outcome_bind]. eexists. split; [done|].
    eapply record_edge; [done..|by cbn; rewrite length_insert| |].
    + intros i x Hi. cbn [node]. split; [by left|]. intros [?|(-> & -> & Hnp)]; [done|]. by apply Hiff in Hnp.
    + intros i x Hi. unfold preds_of. cbn [preds node]. rewrite entry_app by lia. naive_solver.
Qed.

Lemma visit_new_ok s path k v rest :
  dfs_ok s path → frontier s = Visit k v :: rest → explored s !! v = None →
  ∃ s', Loops.dfs_step g s (Visit k v) rest = Ret s' ∧ dfs_ok s' (next_node s :: path) ∧ dfs_turns s' + 1 <= dfs_turns s.
Proof.
  intros Hok Hfr He. pose proof Hok as [(Hl1 & Hl2 & Hl3 & Hl4) Hcount _ Hdom _ _ _ _ Hshape _ _ _ _].
  rewrite Hfr in Hshape. apply shape_visit in Hshape as (_ & Hkv & _). destruct (Hclosed _ _ Hkv) as (bb & Hbb).
  assert (next_node s < n) as Hlt.
  { destruct Hcount as [-> _]. apply inj_lt. rewrite <- !size_dom. apply subset_size. split.
    - intros b [e' He']%elem_of_dom. apply elem_of_dom. by destruct (Hdom b e' He') as (? & _).
    - intros Hsub. specialize (Hsub v). rewrite !elem_of_dom, He, Hbb in Hsub. by destruct Hsub as [? ?]. }
  cbn [Loops.dfs_step]. rewrite He. unfold Loops.set_block. rewrite set_index_eq by lia. cbn [mbind outcome_bind mret outcome_ret].
  rewrite push_pred_eq by (cbn; lia). cbn [mbind outcome_bind]. unfold Cfg.successors. rewrite Hbb. cbn [unwrap mbind outcome_bind mret outcome_ret].
  assert (Loops.bump (next_node s) = next_node s + 1) as -> by (apply Z.mod_small; lia).
  eexists. split; [done|]. split.
  - apply new_node_ok; [done..|by cbn; rewrite length_insert|by cbn; rewrite length_insert|done|done| |].
    + intros j Hj. unfold block_of at 1. cbn [node_blocks]. rewrite entry_insert by lia. done.
    + intros j x Hj. unfold preds_of. cbn [preds]. rewrite entry_app by (cbn; lia). done.
  - unfold dfs_turns. cbn [frontier explored]. rewrite Hfr, length_app. rewrite (cost_rest bs (explored s) v bb (NodeInProgress (next_node s)) He Hbb).
    unfold Loops.visits. rewrite length_rev, length_fmap. cbn [length]. lia.
Qed.

Lemma dfs_finish_ok s path b k p rest :
  dfs_ok s path → frontier s = Finish b k p :: rest →
  ∃ s', Loops.dfs_step g s (Finish b k p) rest = Ret s' ∧ dfs_ok s' (tail path) ∧ dfs_turns s' + 1 <= dfs_turns s.
Proof.
  intros Hok Hfr. pose proof Hok as [(Hl1 & Hl2 & Hl3 & Hl4) Hcount _ Hdom Hnode Hpath _ _ Hshape _ _ _ _].
  rewrite Hfr in Hshape. apply shape_finish in Hshape as ((path' & Hp) & -> & _). pose proof Hpath as Hpath0. rewrite Hp in Hpath.
  destruct Hpath as (Hk & HDk & Hpk & HDp & _).
  assert (next_node s <= n) as Hle.
  { destruct Hcount as [-> _]. apply inj_le. rewrite <- !size_dom. apply subseteq_size. intros b [e' He']%elem_of_dom.
    apply elem_of_dom. by destruct (Hdom b e' He') as (? & _). }
  destruct (Hnode k Hk) as (e & He & _). cbn [Loops.dfs_step]. rewrite !(at_entry 0) by lia. cbn [mbind outcome_bind].
  change (entry 0 (descs (summary s)) k) with (descs_of (summary s) k). change (entry 0 (descs (summary s)) p) with (descs_of (summary s) p).
  unfold Loops.set_descs. rewrite set_index_eq by lia. cbn [mbind outcome_bind]. rewrite He. cbn [unwrap mbind outcome_bind].
  eexists. split; [done|]. split.
  - eapply finish_node_ok; [done..|by cbn; rewrite length_insert|]. intros j Hj. unfold descs_of at 1. cbn [descs]. rewrite entry_insert by lia.
    case_decide; [|done]. unfold BC.u16. rewrite (Z.mod_small (1 + _)) by lia. rewrite Z.mod_small by lia. done.
  - unfold dfs_turns. cbn [frontier explored]. rewrite Hfr, dom_insert_L. cbn [length].
    assert ({[block_of (summary s) k]} ∪ dom (explored s) = dom (explored s)) as ->; [|lia].
    apply elem_of_dom_2 in He. set_solver.
Qed.

Lemma dfs_run_ok fuel s path :
  dfs_ok s path → dfs_turns s <= Z.of_nat fuel → ∃ S' s', Loops.dfs fuel g s = Ret S' ∧ S' = summary s' ∧ dfs_ok s' [0] ∧ frontier s' = [].
Proof.
  revert s path. induction fuel as [|fuel IH]; intros s path Hok Hfuel.
  all: assert (0 <= wset (cost bs) (dom bs ∖ dom (explored s))) by (apply wset_nonneg; intros; apply cost_nonneg).
  all: unfold dfs_turns in Hfuel; cbn [Loops.dfs]; destruct (frontier s) as [|action rest] eqn:Hfr.
  1,3: assert (path = [0]) as -> by (pose proof (do_shape _ _ Hok) as Hs; rewrite Hfr in Hs; destruct path as [|r [|p path]]; [done|by destruct Hs as [-> _]|];
    destruct Hs as ([|? ?] & ? & ? & _); done); eexists _, s; by split_and!.
  - cbn [length] in Hfuel. lia.
  - assert (∃ s' path', Loops.dfs_step g s action rest = Ret s' ∧ dfs_ok s' path' ∧ dfs_turns s' + 1 <= dfs_turns s) as (s' & path' & -> & Hok' & Ht).
    { destruct action as [k v|b k p].
      - destruct (explored s !! v) as [e|] eqn:He.
        + destruct (visit_seen_ok s path k v e rest Hok Hfr He) as (S' & Hs & Hok'). eexists _, path. split_and!; [done..|].
          unfold dfs_turns. rewrite Hfr. cbn [length frontier explored]. lia.
        + destruct (visit_new_ok s path k v rest Hok Hfr He) as (s' & Hs & Hok' & Ht). by eexists _, _.
      - destruct (dfs_finish_ok s path b k p rest Hok Hfr) as (s' & Hs & Hok' & Ht). by eexists _, _. }
    cbn [mbind outcome_bind]. eapply IH; [done|]. unfold dfs_turns in Ht at 2. rewrite Hfr in Ht. lia.
Qed.

Lemma tree_of_dfs s : dfs_ok s [0] → frontier s = [] → tree_ok bs (summary s) (next_node s).
Proof.
  intros [Hlen Hcount _ Hdom Hnode Hpath Hroot Hdone Hshape Hedge Hback Hpred Hparent] Hfr.
  destruct Hpath as (H0 & HD0 & _).
  assert (∀ k, k ≠ 0 → k ∉ [0]) as Hne by set_solver.
  assert (∀ w e, explored s !! w = Some e → w = block_of (summary s) (node e) ∧ 0 <= node e < next_node s) as Hex.
  { intros w e He. destruct (Hdom w e He) as (_ & ? & ? & _). done. }
  split.
  - done.
  - split; [lia|]. destruct Hcount as [-> _]. apply inj_le. rewrite <- !size_dom. apply subseteq_size. intros b [e' He']%elem_of_dom.
    apply elem_of_dom. by destruct (Hdom b e' He') as (? & _).
  - done.
  - intros j k Hj Hk Heq. destruct (Hnode j Hj) as (e & He & <-), (Hnode k Hk) as (e' & He' & <-). congruence.
  - intros k v Hk Hv. destruct (Hedge k v Hk Hv) as [Hin|(e & He & Hor)]; [rewrite Hfr in Hin; set_solver|].
    destruct (Hex v e He) as [Hv' He']. exists (node e). split_and!; [lia|lia|done| |done].
    destruct (decide (k = 0)) as [->|Hk0]; [lia|]. destruct (dn_edge _ _ _ (Hdone k Hk (Hne k Hk0)) v Hv) as (e' & He2 & ?). by simplify_eq.
  - intros j k Hj Hk. destruct (Hback j k Hj Hk) as (? & ? & ? & Hd). split_and!; [lia| |done|done].
    destruct (decide (j = 0)) as [->|Hj0]; [lia|]. by apply Hd, Hne.
  - intros j k Hj Hk. destruct (Hpred j k Hj Hk) as (? & ? & ? & Hd). split_and!; [lia..|done|]. naive_solver.
  - intros k Hk. destruct (decide (k = 0)) as [->|Hk0].
    + split_and!; [lia..|]. intros x Hx. destruct (decide (x = 0)) as [->|Hx0]; [lia|].
      destruct (dn_descs _ _ _ (Hdone x ltac:(lia) (Hne x Hx0))). lia.
    + destruct (Hdone k Hk (Hne k Hk0)) as [? _ ? _]. split_and!; [lia..|done].
  - intros p Hp. destruct (Hparent p Hp) as (q & Hq & Hqe & _ & Hqh). exists q. split_and!; [lia..|done|].
    intros h Hh. destruct (decide (h = 0)) as [->|Hh0]; [lia|]. by apply Hqh, Hne.
Qed.

(** The summary is the spanning tree of a depth-first search. *)
Lemma loop_summary_ok : ∃ (S : LoopSummary) N, Loops.new g = Ret S ∧ tree_ok bs S N.
Proof.
  destruct Hentry as (bb & Hbb). assert (size bs ≠ 0%nat) as Hsz by (apply map_size_ne_0_lookup; by eexists).
  unfold Loops.new, Cfg.num_blocks, Cfg.entry_block_id, BC.u16. rewrite Z.mod_small, Nat2Z.id by lia.
  unfold Loops.set_block. rewrite set_index_eq by (cbn; rewrite length_replicate; lia). cbn [mbind outcome_bind mret outcome_ret].
  unfold Cfg.successors. rewrite Hbb. cbn [unwrap mbind outcome_bind mret outcome_ret].
  assert (Loops.bump 0 = 1) as -> by done.
  match goal with |- context[Loops.dfs _ _ ?s0] => set (s := s0) end.
  assert (∀ j, 0 <= j → block_of (summary s) j = if decide (j = 0) then ENTRY_BLOCK_ID else 0) as HB.
  { intros j Hj. unfold block_of. cbn [summary s node_blocks]. rewrite entry_insert by (rewrite ?length_replicate; lia). by rewrite entry_replicate. }
  assert (∀ j, descs_of (summary s) j = 0) as HD by (intros j; apply entry_replicate).
  assert (∀ j, backs_of (summary s) j = []) as Hbk by (intros j; apply entry_replicate).
  assert (∀ j, preds_of (summary s) j = []) as Hpd by (intros j; apply entry_replicate).
  assert (block_of (summary s) 0 = ENTRY_BLOCK_ID) as HB0 by (by rewrite HB, decide_True).
  destruct (dfs_run_ok (Loops.dfs_fuel g) s [0]) as (S' & s' & -> & -> & Hok & Hfr).
  - split; cbn [next_node explored frontier s].
    + cbn [summary s node_blocks descs backs preds]. by rewrite length_insert, !length_replicate.
    + by rewrite map_size_singleton.
    + intros j _. apply HD.
    + intros b e [<- <-]%lookup_singleton_Some. cbn [node]. split_and!; [by eexists|lia|lia|done|]. set_solver.
    + intros j Hj. assert (j = 0) as -> by lia. rewrite HB0. exists (NodeInProgress 0). by rewrite lookup_singleton_eq.
    + cbn. rewrite HD. lia.
    + done.
    + intros j Hj Hnp. set_solver by lia.
    + change (0 = 0 ∧ Forall (visit_ok (summary s) 0) (Loops.visits 0 (successors bb))). split; [done|]. apply Forall_forall. intros a Ha. unfold Loops.visits in Ha. rewrite list_elem_of_In, <- in_rev, <- list_elem_of_In in Ha.
      apply list_elem_of_fmap in Ha as (w & -> & Hw). exists w. split; [done|]. rewrite HB0. by exists bb.
    + intros j w Hj. assert (j = 0) as -> by lia. rewrite HB0. intros (bb' & Hbb' & Hw). simplify_eq. left. by apply elem_of_visits.
    + intros j x _. rewrite Hbk. set_solver.
    + intros j x _. rewrite Hpd. set_solver.
    + intros p Hp. lia.
  - unfold dfs_turns, Loops.dfs_fuel. cbn [frontier explored s]. unfold Loops.visits. rewrite length_rev, length_fmap.
    pose proof (cost_rest bs ∅ ENTRY_BLOCK_ID bb (NodeInProgress 0) (lookup_empty _) Hbb) as Hc. rewrite dom_empty_L, difference_empty_L in Hc.
    rewrite insert_empty in Hc. pose proof (cost_bound bs (dom bs) Hfew) as Hb. rewrite size_dom in Hb. lia.
  - exists (summary s'), (next_node s'). split; [done|]. by apply tree_of_dfs.
Qed.
End dfs.
