(* ===== verification/Reducibility.v ===== *)
(** The control flow checks of the bytecode verifier for current bytecode
    ([move-bytecode-verifier/src/control_flow.rs]): the last instruction does not fall through, and the
    control flow graph is reducible, by Tarjan's algorithm on the loop summary.

    The theorem is that the test decides reducibility: whether every cycle has a block that dominates
    the others.  The checks for bytecode up to version 5 are another algorithm, which is left out; code
    offsets of errors are left out too. *)
From S2P Require Import Prelude MoveFormat ControlFlowGraph LoopSummary.

Module ControlFlow.
Definition verify_fallthrough (code : CodeUnit) : VMResult unit :=
  match last (cu_code code) with
  | None => vm_err EMPTY_CODE_UNIT
  | Some last => if negb (BC.is_unconditional_branch last) then vm_err INVALID_FALL_THROUGH else mret tt
  end.

Section reducibility.
Context (config : VerifierConfig) (summary : LoopSummary).

(** The nodes that jump back to the head. *)
Definition collect_back (head : Z) (st : gset Z * LoopPartition) (node : Z) : outcome (gset Z * LoopPartition) :=
  '(node, partition) ← Loops.containing_loop st.2 node;
  mret (if node =? head then st.1 else {[ node ]} ∪ st.1, partition).

(** The loop over the predecessors of a node: the body, the frontier and the partition. *)
Fixpoint follow_preds (head : Z) (preds : list Z) (body : gset Z) (frontier : list Z) (partition : LoopPartition) :
    VMResult (gset Z * list Z * LoopPartition) :=
  match preds with
  | [] => mret (body, frontier, partition)
  | pred :: preds =>
      '(pred, partition) ← vm_lift (Loops.containing_loop partition pred);
      descendant ← vm_lift (Loops.is_descendant summary head pred);
      if negb descendant then vm_err INVALID_LOOP_SPLIT
      else if negb (pred =? head) && negb (bool_decide (pred ∈ body))
      then follow_preds head preds ({[ pred ]} ∪ body) (pred :: frontier) partition
      else follow_preds head preds body frontier partition
  end.

(** A node is put on the frontier at most once. *)
Fixpoint grow_body (fuel : nat) (head : Z) (body : gset Z) (frontier : list Z) (partition : LoopPartition) :
    VMResult (gset Z * LoopPartition) :=
  match frontier with
  | [] => mret (body, partition)
  | node :: frontier =>
      match fuel with
      | O => OutOfFuel
      | S fuel =>
          preds ← vm_lift (Loops.pred_edges summary node);
          '(body, frontier, partition) ← follow_preds head preds body frontier partition;
          grow_body fuel head body frontier partition
      end
  end.

Definition verify_head (partition : LoopPartition) (head : Z) : VMResult LoopPartition :=
  back ← vm_lift (Loops.back_edges summary head);
  match back with
  | [] => mret partition
  | _ =>
      '(body, partition) ← vm_lift (foldM (collect_back head) (∅, partition) back);
      '(body, partition) ← grow_body (length (node_blocks summary)) head body (rev (btree_set_iter body)) partition;
      '(depth, partition) ← vm_lift (Loops.collapse_loop partition head body);
      match max_loop_depth config with
      | Some max_depth => if max_depth <? depth then vm_err LOOP_MAX_DEPTH_REACHED else mret partition
      | None => mret partition
      end
  end.

Fixpoint verify_heads (heads : list Z) (partition : LoopPartition) : VMResult unit :=
  match heads with
  | [] => mret tt
  | head :: heads => partition ← verify_head partition head; verify_heads heads partition
  end.
End reducibility.

Definition verify_reducibility (config : VerifierConfig) (fv : FunctionView) : VMResult unit :=
  summary ← vm_lift (Loops.new (fv_cfg fv));
  verify_heads config summary (rev (Loops.preorder summary)) (Loops.new_partition summary).

(** [verify_function], for a module of version 6 or later. *)
Definition verify_function (config : VerifierConfig) (module_ : CompiledModule) (index : Z) (function_handle : FunctionHandle) (code : CodeUnit) :
    VMResult FunctionView :=
  verify_fallthrough code;;
  fv ← vm_lift (function_view module_ index code function_handle);
  verify_reducibility config fv;;
  mret fv.
End ControlFlow.

(** * Reducible graphs *)
Section graph.
Context (bs : gmap Z BasicBlock).
Abbreviation edge := (edge bs).

(** [walk u l v]: an edge or more from [u] through the blocks of [l] to [v]. *)
Fixpoint walk (u : Z) (l : list Z) (v : Z) : Prop :=
  match l with [] => edge u v | w :: l => edge u w ∧ walk w l v end.

(** A path from the entry to [x] without [h]. *)
Definition avoids (h x : Z) : Prop := ENTRY_BLOCK_ID ≠ h ∧ rtc (λ u v, edge u v ∧ v ≠ h) ENTRY_BLOCK_ID x.

Definition dominates (h x : Z) : Prop := ¬ avoids h x.

(** Every cycle that can be reached has a block that dominates all its blocks. *)
Definition reducible : Prop :=
  ∀ x l, rtc edge ENTRY_BLOCK_ID x → walk x l x → ∃ h, h ∈ x :: l ∧ ∀ y, y ∈ x :: l → dominates h y.

Lemma walk_app u l1 w l2 v : walk u (l1 ++ w :: l2) v ↔ walk u l1 w ∧ walk w l2 v.
Proof. revert u. induction l1 as [|x l1 IH]; intros u; cbn; [done|]. rewrite IH. tauto. Qed.

Lemma avoids_step h u v : avoids h u → edge u v → v ≠ h → avoids h v.
Proof. intros [Hne Hr] Huv Hv. split; [done|]. by eapply rtc_r. Qed.

Lemma avoids_reach h x : avoids h x → rtc edge ENTRY_BLOCK_ID x.
Proof. intros [_ Hr]. eapply rtc_subrel; [|exact Hr]. by intros u v [? _]. Qed.

Lemma avoids_ne h x : avoids h x → x ≠ h.
Proof. intros [Hne Hr]. apply rtc_inv_r in Hr as [<-|(y & _ & _ & ?)]; done. Qed.

Lemma avoids_walk h u l v : avoids h u → walk u l v → (∀ y, y ∈ l → y ≠ h) → v ≠ h → avoids h v.
Proof.
  revert u. induction l as [|w l IH]; intros u Hu; cbn.
  - intros Huv _ Hv. by eapply avoids_step.
  - intros [Huw Hw] Hl Hv. eapply IH; [eapply avoids_step; [done..|apply Hl; set_solver]|done|set_solver|done].
Qed.
End graph.

Section tree.
Context (bs : gmap Z BasicBlock) (S : LoopSummary) (N : Z) (Htree : tree_ok bs S N).
Abbreviation edge := (edge bs).
Abbreviation D := (descs_of S).
Abbreviation blk := (block_of S).

Lemma reach_node v : rtc edge ENTRY_BLOCK_ID v → ∃ k, 0 <= k < N ∧ v = blk k.
Proof.
  revert v. apply (rtc_ind_r (λ v, ∃ k, 0 <= k < N ∧ v = blk k)).
  - exists 0. rewrite (to_root _ _ _ Htree). pose proof (to_nodes _ _ _ Htree). split; [lia|done].
  - intros u v _ Huv (k & Hk & ->). destruct (to_edge _ _ _ Htree k v Hk Huv) as (j & ? & ? & _). eauto.
Qed.

(** Nodes that are not descendants are reached without the node. *)
Lemma not_descendant_avoids h p : 0 <= h < N → 0 <= p < N → ¬ (h <= p <= h + D h) → avoids bs (blk h) (blk p).
Proof.
  intros Hh. remember (Z.to_nat p) as m eqn:Hm. revert p Hm. induction m as [m IH] using lt_wf_ind. intros p -> Hp Hnot.
  destruct (to_descs _ _ _ Htree h Hh) as (HD & _). destruct (decide (p = 0)) as [->|Hp0].
  - rewrite (to_root _ _ _ Htree). split; [|apply rtc_refl]. rewrite <- (to_root _ _ _ Htree). intros Heq.
    apply (to_inj _ _ _ Htree) in Heq; [lia|lia|done].
  - destruct (to_parent _ _ _ Htree p ltac:(lia)) as (q & Hq & Hqp & Hiff). eapply avoids_step; [|exact Hqp|].
    + apply (IH (Z.to_nat q)); [lia|done|lia|]. intros Hanc. apply Hnot. split; [lia|]. by apply Hiff; [lia|].
    + intros Heq. apply (to_inj _ _ _ Htree) in Heq; [lia|done..].
Qed.

(** The way down the tree. *)
Lemma descendant_walk h p : 0 <= h → h < p <= h + D h → p < N → ∃ l, walk bs (blk h) l (blk p) ∧ ∀ y, y ∈ l → ∃ k, y = blk k ∧ h < k <= h + D h.
Proof.
  intros Hh. remember (Z.to_nat p) as m eqn:Hm. revert p Hm. induction m as [m IH] using lt_wf_ind. intros p -> Hp HN.
  destruct (to_parent _ _ _ Htree p ltac:(lia)) as (q & Hq & Hqp & Hiff). destruct (proj1 (Hiff h ltac:(lia))) as [Hhq Hqh]; [lia|].
  destruct (decide (q = h)) as [->|Hne]; [exists []; split; [done|set_solver]|].
  destruct (IH (Z.to_nat q)) with (p := q) as (l & Hl & Hin); [lia|done|lia|lia|]. exists (l ++ [blk q]). split; [by apply walk_app|].
  intros y [Hy|Hy%list_elem_of_singleton]%elem_of_app; [by apply Hin|]. exists q. split; [done|lia].
Qed.

(** A back edge to a node that does not dominate its source is on a cycle without a dominating block. *)
Lemma split_not_reducible c a : 0 <= c → a ∈ backs_of S c → avoids bs (blk c) (blk a) → ¬ reducible bs.
Proof.
  intros Hc Ha Hav Hred. destruct (to_back _ _ _ Htree c a Hc Ha) as (Hca & HaN & Hedge).
  assert (c ≠ a) as Hne by (intros ->; by apply avoids_ne in Hav).
  destruct (descendant_walk c a) as (l & Hl & Hin); [lia..|].
  assert (rtc edge ENTRY_BLOCK_ID (blk c)) as Hreach.
  { eapply rtc_r; [by eapply avoids_reach|done]. }
  destruct (Hred (blk c) (l ++ [blk a])) as (h & Hh & Hdom); [done|by apply walk_app|].
  assert (h = blk c) as ->.
  { assert (∃ k, h = blk k ∧ c <= k <= c + D c) as (k & -> & Hk).
    { apply elem_of_cons in Hh as [->|[Hh|Hh%list_elem_of_singleton]%elem_of_app]; [exists c; split; [done|lia]| |exists a; split; [done|lia]].
      destruct (Hin h Hh) as (k & ? & ?). exists k. split; [done|lia]. }
    destruct (decide (k = c)) as [->|Hkc]; [done|]. exfalso. apply (Hdom (blk c)); [set_solver|].
    destruct (to_descs _ _ _ Htree c ltac:(lia)) as (_ & ? & _). apply not_descendant_avoids; lia. }
  apply (Hdom (blk a)); [set_solver|done].
Qed.

(** Conversely, when the targets of back edges dominate their sources the graph is reducible. *)
Lemma walk_below m x l v :
  0 <= m < N → m <= x <= m + D m → walk bs (blk x) l v → (∀ k, 0 <= k < N → blk k ∈ l → m <= k) →
  ∀ y, y ∈ l → ∃ k, y = blk k ∧ m <= k <= m + D m.
Proof.
  intros Hm. destruct (to_descs _ _ _ Htree m Hm) as (_ & HmN & Hnest). revert x. induction l as [|w l IH]; intros x Hx Hw Hmin y Hy; [set_solver|].
  destruct Hw as [Hxw Hw]. destruct (to_edge _ _ _ Htree x w ltac:(lia) Hxw) as (j & Hj & -> & Hjx & _).
  assert (m <= j <= m + D m) as Hjm by (split; [apply Hmin; [done|set_solver]|specialize (Hnest x Hx); lia]).
  apply elem_of_cons in Hy as [->|Hy]; [by exists j|]. apply (IH j); [done|done| |done]. intros k Hk Hin. apply Hmin; [done|set_solver].
Qed.

Context (Hdom : ∀ c a, 0 <= c → a ∈ backs_of S c → dominates bs (blk c) (blk a)).

Lemma walk_dominated m x l :
  0 <= m < N → m <= x <= m + D m → walk bs (blk x) l (blk m) → (∀ y, y ∈ l → ∃ k, y = blk k ∧ m <= k <= m + D m) →
  dominates bs (blk m) (blk x).
Proof.
  intros Hm. destruct (to_descs _ _ _ Htree m Hm) as (_ & HmN & _).
  assert (∀ z, m <= z <= m + D m → edge (blk z) (blk m) → z ∈ backs_of S m) as Hback.
  { intros z Hz Hzm. destruct (to_edge _ _ _ Htree z (blk m) ltac:(lia) Hzm) as (j & Hj & Heq & _ & Hor).
    apply (to_inj _ _ _ Htree) in Heq; [subst j|done..]. destruct Hor as [?|Hp]; [done|].
    destruct (to_pred _ _ _ Htree m z ltac:(lia) Hp) as (_ & _ & _ & ?). lia. }
  revert x. induction l as [|w l IH]; intros x Hx Hw Hin Hav.
  - apply (Hdom m x); [lia|by apply Hback|done].
  - destruct Hw as [Hxw Hw]. destruct (Hin w) as (k & -> & Hk); [set_solver|]. destruct (decide (k = m)) as [->|Hne].
    + apply (Hdom m x); [lia|by apply Hback|done].
    + apply (IH k); [done|done|set_solver|]. eapply avoids_step; [done..|]. intros Heq. apply (to_inj _ _ _ Htree) in Heq; lia.
Qed.

(** The cycle from its least node. *)
Lemma cycle_dominated m l :
  0 <= m < N → walk bs (blk m) l (blk m) → (∀ k, 0 <= k < N → blk k ∈ l → m <= k) → ∀ y, y ∈ blk m :: l → dominates bs (blk m) y.
Proof.
  intros Hm Hw Hmin. destruct (to_descs _ _ _ Htree m Hm) as (HD & _).
  assert (∀ y, y ∈ l → ∃ k, y = blk k ∧ m <= k <= m + D m) as Hin by (eapply (walk_below m m); [done|lia|done..]).
  intros y [->|Hy]%elem_of_cons; [by intros ?%avoids_ne|]. destruct (Hin y Hy) as (k & -> & Hk).
  apply list_elem_of_split in Hy as (l1 & l2 & ->). apply walk_app in Hw as [_ Hw]. eapply walk_dominated; [done..|set_solver].
Qed.

(** A node of a cycle with the least number. *)
Lemma least_node (l : list Z) : (∀ y, y ∈ l → ∃ k, 0 <= k < N ∧ y = blk k) → l ≠ [] →
  ∃ m, 0 <= m < N ∧ blk m ∈ l ∧ ∀ k, 0 <= k < N → blk k ∈ l → m <= k.
Proof.
  induction l as [|y l IH]; intros Hnode Hne; [done|]. destruct (Hnode y) as (k & Hk & ->); [set_solver|].
  destruct (decide (l = [])) as [->|Hl].
  - exists k. split_and!; [lia..|set_solver|]. intros j Hj Hin. apply list_elem_of_singleton, (to_inj _ _ _ Htree) in Hin; [lia|done..].
  - destruct IH as (m & Hm & Hin & Hmin); [set_solver|done|]. exists (Z.min k m). split; [lia|]. split.
    + destruct (Z.min_spec k m) as [[_ ->]|[_ ->]]; set_solver.
    + intros j Hj [Heq|Hjl]%elem_of_cons; [|specialize (Hmin j Hj Hjl); lia]. apply (to_inj _ _ _ Htree) in Heq; [lia|done..].
Qed.

Lemma dominated_reducible : reducible bs.
Proof.
  intros x l Hx Hw.
  assert (∀ y, y ∈ x :: l → rtc edge ENTRY_BLOCK_ID y) as Hreach.
  { intros y [->|Hy]%elem_of_cons; [done|]. apply list_elem_of_split in Hy as (l1 & l2 & ->). apply walk_app in Hw as [Hw _].
    clear -Hx Hw. revert x Hx Hw. induction l1 as [|w l1 IH]; intros x Hx; cbn; [intros ?; by eapply rtc_r|].
    intros [? ?]. eapply IH; [by eapply rtc_r|done]. }
  destruct (least_node (x :: l)) as (m & Hm & Hin & Hmin); [intros y Hy; by apply reach_node, Hreach|done|].
  exists (blk m). split; [done|]. apply elem_of_cons in Hin as [<-|Hin].
  - apply (cycle_dominated m l); [done..|]. intros k Hk Hkl. apply Hmin; [done|set_solver].
  - apply list_elem_of_split in Hin as (l1 & l2 & ->). apply walk_app in Hw as [Hw1 Hw2]. intros y Hy.
    apply (cycle_dominated m (l2 ++ x :: l1)); [done|by apply walk_app| |set_solver]. intros k Hk Hkl. apply Hmin; [done|set_solver].
Qed.
End tree.

(** * The partition into loops *)
Section partition.
Context (n : Z).
Implicit Types (p : LoopPartition) (x y : Z).

Definition par p x : Z := entry 0 (parents p) x.

(** Parents come before their children. *)
Record part_ok p : Prop := {
  pt_parents : Z.of_nat (length (parents p)) = n;
  pt_depths : Z.of_nat (length (depths p)) = n;
  pt_down : ∀ x, 0 <= x < n → 0 <= par p x <= x;
}.

(** The representative: up the parents as long as they change. *)
Fixpoint climb_to (f : Z → Z) (k : nat) (x : Z) : Z :=
  match k with O => x | S k => if decide (f x = x) then x else climb_to f k (f x) end.

Definition rep p x : Z := climb_to (par p) (Z.to_nat x) x.

Lemma climb_enough (f : Z → Z) k x :
  (∀ y, 0 <= y < n → 0 <= f y <= y) → 0 <= x < n → (Z.to_nat x ≤ k)%nat → climb_to f k x = climb_to f (Z.to_nat x) x.
Proof.
  intros Hf. revert x. induction k as [k IH] using lt_wf_ind. intros x Hx Hk. pose proof (Hf x Hx).
  destruct k as [|k]; [by replace (Z.to_nat x) with 0%nat by lia|]. destruct (Z.to_nat x) as [|m] eqn:Hm; cbn [climb_to].
  - rewrite decide_True by lia. done.
  - case_decide; [done|]. rewrite (IH k) by lia. destruct (decide (k = m)) as [->|]; [by rewrite (IH m) by lia|]. by rewrite (IH m (ltac:(lia)) (f x)) by lia.
Qed.

Lemma rep_unfold p x : part_ok p → 0 <= x < n → rep p x = if decide (par p x = x) then x else rep p (par p x).
Proof.
  intros Hp Hx. pose proof (pt_down _ Hp x Hx). unfold rep at 1. destruct (Z.to_nat x) as [|m] eqn:Hm; cbn [climb_to].
  - by rewrite decide_True by lia.
  - case_decide; [done|]. apply climb_enough; [apply (pt_down _ Hp)|lia|lia].
Qed.

Lemma rep_ok p x : part_ok p → 0 <= x < n → 0 <= rep p x <= x ∧ par p (rep p x) = rep p x.
Proof.
  intros Hp. remember (Z.to_nat x) as m eqn:Hm. revert x Hm. induction m as [m IH] using lt_wf_ind. intros x -> Hx.
  pose proof (pt_down _ Hp x Hx). rewrite rep_unfold by done. case_decide; [lia|]. destruct (IH (Z.to_nat (par p x))) with (x := par p x); [lia..|]. lia.
Qed.

Lemma rep_root p x : part_ok p → 0 <= x < n → par p x = x → rep p x = x.
Proof. intros Hp Hx Hr. rewrite rep_unfold by done. by rewrite decide_True. Qed.

Lemma rep_rep p x : part_ok p → 0 <= x < n → rep p (rep p x) = rep p x.
Proof. intros Hp Hx. destruct (rep_ok p x Hp Hx) as [? ?]. apply rep_root; [done|lia|done]. Qed.

(** Pointing nodes at their representative does not change the partition. *)
Lemma rep_compress p p' :
  part_ok p → part_ok p' → (∀ x, 0 <= x < n → par p' x = par p x ∨ par p' x = rep p x) → ∀ x, 0 <= x < n → rep p' x = rep p x.
Proof.
  intros Hp Hp' Hor x. remember (Z.to_nat x) as m eqn:Hm. revert x Hm. induction m as [m IH] using lt_wf_ind. intros x -> Hx.
  pose proof (pt_down _ Hp x Hx). destruct (rep_ok p x Hp Hx) as [? ?].
  rewrite (rep_unfold p') by done. destruct (Hor x Hx) as [-> | ->].
  - rewrite (rep_unfold p) by done. case_decide; [done|]. apply (IH (Z.to_nat (par p x))); lia.
  - case_decide as Heq; [done|]. rewrite (IH (Z.to_nat (rep p x))) by lia. by apply rep_rep.
Qed.

Lemma set_parent_eq p x y : part_ok p → 0 <= x < n →
  Loops.set_parent p x y = Ret (mkPartition (<[Z.to_nat x := y]> (parents p)) (depths p)).
Proof. intros Hp Hx. unfold Loops.set_parent. rewrite set_index_eq; [done|]. by rewrite (pt_parents _ Hp). Qed.

Lemma par_insert p x y z : part_ok p → 0 <= x < n → 0 <= z →
  par (mkPartition (<[Z.to_nat x := y]> (parents p)) (depths p)) z = if decide (z = x) then y else par p z.
Proof. intros Hp Hx Hz. unfold par. cbn [parents]. rewrite entry_insert; [done| |done]. by rewrite (pt_parents _ Hp). Qed.

Lemma set_parent_ok p x y : part_ok p → 0 <= x < n → 0 <= y <= x → part_ok (mkPartition (<[Z.to_nat x := y]> (parents p)) (depths p)).
Proof.
  intros Hp Hx Hy. split; [cbn; rewrite length_insert; apply Hp|apply Hp|]. intros z Hz. rewrite par_insert by (done || lia).
  case_decide; [lia|]. by apply Hp.
Qed.

Lemma parent_eq p x : part_ok p → 0 <= x < n → Loops.parent p x = Ret (par p x).
Proof. intros Hp Hx. apply at_entry. by rewrite (pt_parents _ Hp). Qed.

Lemma climb_ok p fuel child descendants :
  part_ok p → 0 <= child < n → (Z.to_nat (par p (par p child)) < fuel)%nat →
  ∃ ds, Loops.climb fuel p child (par p child) (par p (par p child)) descendants = Ret (rep p child, descendants ++ ds) ∧
    ∀ d, d ∈ ds → 0 <= d < n ∧ rep p d = rep p child.
Proof.
  intros Hp. revert child descendants. induction fuel as [|fuel IH]; intros child descendants Hc Hfuel; [lia|]. cbn [Loops.climb].
  pose proof (pt_down _ Hp child Hc). pose proof (pt_down _ Hp (par p child) ltac:(lia)). pose proof (pt_down _ Hp (par p (par p child)) ltac:(lia)).
  assert (rep p (par p child) = rep p child) as Hrep.
  { rewrite (rep_unfold p child) by done. case_decide as Heq; [by rewrite Heq, rep_root|done]. }
  rewrite parent_eq by (done || lia). cbn [mbind outcome_bind]. destruct (Z.eqb_spec (par p (par p child)) (par p (par p (par p child)))) as [Heq|Hne].
  - exists [child]. split; [|intros d ->%list_elem_of_singleton; done]. f_equal. f_equal.
    rewrite <- Hrep, (rep_unfold p (par p child)) by (done || lia). case_decide as Hd; [by rewrite Hd|]. symmetry. apply rep_root; [done|lia|done].
  - destruct (IH (par p child) (descendants ++ [child])) as (ds & -> & Hds); [lia|lia|]. exists (child :: ds). rewrite <- app_assoc. cbn [app]. rewrite Hrep. split; [done|].
    intros d [->|Hd]%elem_of_cons; [done|]. destruct (Hds d Hd) as [? ->]. done.
Qed.

Lemma compress_ok p r ds :
  part_ok p → (∀ d, d ∈ ds → 0 <= d < n ∧ rep p d = r) →
  ∃ p', foldM (λ p d, Loops.set_parent p d r) p ds = Ret p' ∧ part_ok p' ∧ (∀ x, 0 <= x < n → rep p' x = rep p x) ∧ depths p' = depths p.
Proof.
  revert p. induction ds as [|d ds IH]; intros p Hp Hds; [by exists p|]. destruct (Hds d) as [Hd Hr]; [set_solver|].
  destruct (rep_ok p d Hp Hd) as [? ?]. cbn [foldM]. rewrite set_parent_eq by done. cbn [mbind outcome_bind].
  set (p1 := mkPartition (<[Z.to_nat d := r]> (parents p)) (depths p)).
  assert (part_ok p1) as Hp1 by (apply set_parent_ok; [done|done|lia]).
  assert (∀ x, 0 <= x < n → rep p1 x = rep p x) as Hrep.
  { apply rep_compress; [done..|]. intros x Hx. unfold p1. rewrite par_insert by (done || lia). case_decide; [right; congruence|by left]. }
  destruct (IH p1 Hp1) as (p' & Hf & Hp' & Hrep' & Hdp).
  { intros y Hy. destruct (Hds y) as [? Hry]; [set_solver|]. split; [done|]. by rewrite Hrep. }
  exists p'. split_and!; [exact Hf|done| |done]. intros x Hx. by rewrite Hrep', Hrep.
Qed.

(** [containing_loop] finds the representative. *)
Lemma containing_loop_ok p x :
  part_ok p → 0 <= x < n →
  ∃ p', Loops.containing_loop p x = Ret (rep p x, p') ∧ part_ok p' ∧ (∀ y, 0 <= y < n → rep p' y = rep p y) ∧ depths p' = depths p.
Proof.
  intros Hp Hx. pose proof (pt_down _ Hp x Hx). pose proof (pt_down _ Hp (par p x) ltac:(lia)). unfold Loops.containing_loop.
  rewrite parent_eq by done. cbn [mbind outcome_bind]. rewrite parent_eq by (done || lia). cbn [mbind outcome_bind].
  destruct ((x =? par p x) || (par p x =? par p (par p x))) eqn:Hor.
  - exists p. split_and!; [|done..]. f_equal. f_equal. apply orb_true_iff in Hor as [Heq%Z.eqb_eq|Heq%Z.eqb_eq].
    + rewrite <- Heq. symmetry. by apply rep_root.
    + rewrite (rep_unfold p x) by done. case_decide as Hd; [done|]. symmetry. apply rep_root; [done|lia|done].
  - destruct (climb_ok p (length (parents p)) x [] Hp Hx) as (ds & -> & Hds).
    { pose proof (pt_parents _ Hp). lia. }
    cbn [mbind outcome_bind app]. destruct (compress_ok p (rep p x) ds Hp Hds) as (p' & -> & ? & ? & ?). by exists p'.
Qed.

(** Collapsing a set of representatives into one that comes before them. *)
Definition merged (p : LoopPartition) (head : Z) (body : gset Z) (x : Z) : Z := if decide (rep p x ∈ body) then head else rep p x.

Lemma collapse_parents_ok p head cs depth :
  part_ok p → NoDup cs → (∀ c, c ∈ cs → head < c < n) → 0 <= head →
  ∃ p' depth', foldM (λ (st : LoopPartition * Z) constituent,
      p ← Loops.set_parent st.1 constituent head; d ← at_index (depths p) constituent; mret (p, Z.max d st.2)) (p, depth) cs = Ret (p', depth') ∧
    part_ok p' ∧ ∀ x, 0 <= x < n → par p' x = if decide (x ∈ cs) then head else par p x.
Proof.
  revert p depth. induction cs as [|c cs IH]; intros p depth Hp Hnd Hcs Hh.
  { exists p, depth. split_and!; [done..|]. intros x Hx. by rewrite decide_False by set_solver. }
  apply NoDup_cons in Hnd as [Hc Hnd]. pose proof (Hcs c ltac:(set_solver)). cbn [foldM fst snd]. rewrite set_parent_eq by (done || lia). cbn [mbind outcome_bind].
  rewrite (at_entry 0) by (cbn; rewrite (pt_depths _ Hp); lia). cbn [mbind outcome_bind mret outcome_ret].
  match goal with |- context[foldM _ (?p1, ?d1) cs] => destruct (IH p1 d1) as (p' & d' & Hf & Hp' & Hpar) end;
    [apply set_parent_ok; [done|lia|lia]|done|set_solver|done|].
  exists p', d'. split_and!; [exact Hf|done|]. intros x Hx. rewrite Hpar, par_insert by (done || lia).
  destruct (decide (x ∈ cs)); [by rewrite decide_True by set_solver|]. destruct (decide (x = c)) as [->|]; [by rewrite decide_True by set_solver|].
  by rewrite decide_False by set_solver.
Qed.

Lemma collapse_loop_ok p head (body : gset Z) :
  part_ok p → 0 <= head < n → par p head = head → (∀ c, c ∈ body → head < c < n ∧ par p c = c) →
  ∃ depth p', Loops.collapse_loop p head body = Ret (depth, p') ∧ part_ok p' ∧ ∀ x, 0 <= x < n → rep p' x = merged p head body x.
Proof.
  intros Hp Hh Hroot Hbody. unfold Loops.collapse_loop. rewrite (at_entry 0) by (rewrite (pt_depths _ Hp); lia). cbn [mbind outcome_bind].
  destruct (collapse_parents_ok p head (btree_set_iter body) (entry 0 (depths p) head) Hp) as (p1 & d1 & Hf & Hp1 & Hpar).
  { unfold btree_set_iter. rewrite merge_sort_Permutation. apply NoDup_elements. }
  { intros c Hc%elem_of_btree_set_iter. by apply Hbody. }
  { lia. }
  rewrite Hf. cbn [mbind outcome_bind]. rewrite set_index_eq by (rewrite (pt_depths _ Hp1); lia). cbn [mbind outcome_bind mret outcome_ret].
  eexists _, _. split; [done|]. set (p' := mkPartition _ _).
  assert (part_ok p') as Hp'.
  { split; [apply Hp1|cbn; rewrite length_insert; apply Hp1|]. intros x Hx. apply (pt_down _ Hp1 x Hx). }
  split; [done|]. assert (∀ x, 0 <= x < n → par p' x = if decide (x ∈ body) then head else par p x) as Hpar'.
  { intros x Hx. unfold par at 1. cbn [p' parents]. fold (par p1 x). rewrite Hpar by done. by rewrite (decide_ext _ _ _ _ (elem_of_btree_set_iter body x)). }
  intros x. remember (Z.to_nat x) as m eqn:Hm. revert x Hm. induction m as [m IH] using lt_wf_ind. intros x -> Hx. unfold merged in *.
  pose proof (pt_down _ Hp x Hx). rewrite rep_unfold, Hpar' by done. destruct (decide (x ∈ body)) as [Hin|Hout].
  - destruct (Hbody x Hin) as [? Hr]. rewrite decide_False by lia. rewrite (rep_root p x) by done. rewrite (decide_True _ _ Hin).
    rewrite (IH (Z.to_nat head)) by lia. rewrite rep_root by done. rewrite decide_False; [done|]. intros Hb%Hbody. lia.
  - rewrite (rep_unfold p x) by done. destruct (decide (par p x = x)) as [Heq|Hne]; [by rewrite decide_False|]. apply (IH (Z.to_nat (par p x))); lia.
Qed.
End partition.

(** * The test *)
Section test.
Context (config : VerifierConfig) (bs : gmap Z BasicBlock) (S : LoopSummary) (N : Z) (Htree : tree_ok bs S N).
Abbreviation n := (Z.of_nat (size bs)).
Context (Hsize : n < U16_MOD).
Abbreviation edge := (edge bs).
Abbreviation D := (descs_of S).
Abbreviation blk := (block_of S).
Implicit Types (p : LoopPartition) (body : gset Z).

(** The heads from [h] on have been collapsed. *)
Record heads_ok (h : Z) p : Prop := {
  hd_part : part_ok n p;
  hd_heads : ∀ x, 0 <= x < n → rep p x = x ∨ h <= rep p x;
  hd_desc : ∀ x, 0 <= x < N → x <= rep p x + D (rep p x);
  hd_closed : ∀ x, 0 <= x < N → rep p x ≠ x → ∀ a, a ∈ backs_of S x ∨ a ∈ preds_of S x → rep p a = rep p x;
  hd_back : ∀ y, h <= y → 0 <= y < N → ∀ a, a ∈ backs_of S y → rep p a = rep p y;
  hd_dom : ∀ y, h <= y → 0 <= y → ∀ a, a ∈ backs_of S y → dominates bs (blk y) (blk a);
}.

(** Another partition with the same representatives. *)
Lemma heads_ok_ext h p p' : part_ok n p' → (∀ x, 0 <= x < n → rep p' x = rep p x) → heads_ok h p → heads_ok h p'.
Proof.
  intros Hp' Hrep [Hp Hheads Hdesc Hclosed Hback Hdom]. pose proof (to_nodes _ _ _ Htree) as HN.
  assert (∀ j a, 0 <= j → a ∈ backs_of S j ∨ a ∈ preds_of S j → 0 <= a < n) as Hnode.
  { intros j a Hj [Ha|Ha]; [destruct (to_back _ _ _ Htree j a Hj Ha) as (? & ? & _)|destruct (to_pred _ _ _ Htree j a Hj Ha) as (? & ? & _)]; lia. }
  split; [done|..].
  - intros x Hx. rewrite Hrep by done. by apply Hheads.
  - intros x Hx. rewrite Hrep by lia. by apply Hdesc.
  - intros x Hx. rewrite Hrep by lia. intros Hne a Ha. rewrite Hrep by (apply (Hnode x); [lia|done]). by apply Hclosed.
  - intros y Hy HyN a Ha. rewrite (Hrep y), (Hrep a) by (lia || (apply (Hnode y); [lia|by left])). by apply Hback.
  - done.
Qed.

(** Nodes of the loop of [c], while its body grows. *)
Definition reaches_back (c r : Z) : Prop :=
  ∃ a, a ∈ backs_of S c ∧ (avoids bs (blk c) (blk r) → avoids bs (blk c) (blk a)).

Record body_ok (c : Z) p body : Prop := {
  bd_node : ∀ r, r ∈ body → c < r <= c + D c ∧ r < N ∧ rep p r = r;
  bd_reach : ∀ r, r ∈ body → reaches_back c r;
  bd_back : ∀ a, a ∈ backs_of S c → rep p a = c ∨ rep p a ∈ body;
}.

Definition inside (c : Z) p body (r : Z) : Prop := ∀ a, a ∈ preds_of S r → rep p a = c ∨ rep p a ∈ body.

(** The partition at the start of the turn and those after path compressions. *)
Context (c : Z) (p0 : LoopPartition) (Hc : 0 <= c < N) (H0 : heads_ok (c + 1) p0).
Definition same p : Prop := part_ok n p ∧ ∀ x, 0 <= x < n → rep p x = rep p0 x.

Lemma same_refl : same p0.
Proof. split; [apply H0|done]. Qed.

Lemma find_loop p x : same p → 0 <= x < n → ∃ p', Loops.containing_loop p x = Ret (rep p0 x, p') ∧ same p'.
Proof.
  intros [Hp Hrep] Hx. destruct (containing_loop_ok n p x Hp Hx) as (p' & Heq & Hp' & Hrep' & _). exists p'. rewrite Heq, Hrep by done.
  split; [done|]. split; [done|]. intros y Hy. by rewrite Hrep', Hrep.
Qed.

Lemma back_node a : a ∈ backs_of S c → c <= a <= c + D c ∧ a < N.
Proof. intros Ha. by destruct (to_back _ _ _ Htree c a ltac:(lia) Ha) as (? & ? & _). Qed.

Lemma pred_node r a : 0 <= r → a ∈ preds_of S r → 0 <= a < N ∧ edge (blk a) (blk r).
Proof. intros Hr Ha. by destruct (to_pred _ _ _ Htree r a Hr Ha) as (? & _ & ? & _). Qed.

Lemma rep0 x : 0 <= x < N → 0 <= rep p0 x <= x ∧ x <= rep p0 x + D (rep p0 x) ∧ (rep p0 x = x ∨ c < rep p0 x) ∧ rep p0 (rep p0 x) = rep p0 x.
Proof.
  intros Hx. pose proof (to_nodes _ _ _ Htree). destruct (rep_ok n p0 x (hd_part _ _ H0)) as [? _]; [lia|].
  destruct (hd_heads _ _ H0 x); [lia|..]; (split_and!; [lia|lia|by apply (hd_desc _ _ H0)|lia|]); apply (rep_rep n); [apply H0|lia|apply H0|lia].
Qed.

Lemma is_descendant_eq q : 0 <= q → Loops.is_descendant S c q = Ret (bool_decide (c <= q <= c + D c)).
Proof.
  intros Hq. pose proof (to_nodes _ _ _ Htree). destruct (to_descs _ _ _ Htree c Hc) as (? & ? & _). destruct (to_length _ _ _ Htree) as (_ & Hl & _).
  unfold Loops.is_descendant. destruct (Z.leb_spec c q).
  - rewrite (at_entry 0) by lia. cbn [mbind outcome_bind mret outcome_ret]. f_equal. unfold BC.u16. fold (descs_of S c). rewrite Z.mod_small by lia.
    apply eq_true_iff_eq. rewrite Z.leb_le, bool_decide_eq_true. lia.
  - rewrite bool_decide_false by lia. done.
Qed.

Lemma down_avoids q a : c < q → q <= a <= q + D q → a < N → avoids bs (blk c) (blk q) → avoids bs (blk c) (blk a).
Proof.
  intros Hq Ha HaN Hav. destruct (decide (a = q)) as [->|Hne]; [done|].
  destruct (descendant_walk bs S N Htree q a) as (l & Hl & Hin); [lia..|]. destruct (to_descs _ _ _ Htree q ltac:(lia)) as (_ & ? & _).
  eapply avoids_walk; [done..| |].
  - intros y Hy Heq. destruct (Hin y Hy) as (k & -> & ?). apply (to_inj _ _ _ Htree) in Heq; lia.
  - intros Heq. apply (to_inj _ _ _ Htree) in Heq; lia.
Qed.

Lemma collect_back_ok l body p :
  (∀ a, a ∈ l → a ∈ backs_of S c) → same p →
  ∃ body' p', foldM (ControlFlow.collect_back c) (body, p) l = Ret (body', p') ∧ same p' ∧
    ∀ r, r ∈ body' ↔ r ∈ body ∨ ∃ a, a ∈ l ∧ r = rep p0 a ∧ r ≠ c.
Proof.
  revert body p. induction l as [|a l IH]; intros body p Hl Hp; [exists body, p; split_and!; [done..|set_solver]|].
  pose proof (to_nodes _ _ _ Htree). destruct (back_node a) as [? ?]; [set_solver|].
  destruct (find_loop p a Hp) as (p1 & Hf & Hp1); [lia|]. 
  assert (ControlFlow.collect_back c (body, p) a = Ret (if rep p0 a =? c then body else {[rep p0 a]} ∪ body, p1)) as Hcb.
  { unfold ControlFlow.collect_back. cbn [fst snd]. by rewrite Hf. }
  cbn [foldM]. rewrite Hcb. cbn [mbind outcome_bind].
  destruct (IH (if rep p0 a =? c then body else {[rep p0 a]} ∪ body) p1) as (body' & p' & -> & Hp' & Hin); [set_solver|done|].
  exists body', p'. split_and!; [done..|]. intros r. rewrite Hin. setoid_rewrite elem_of_cons. destruct (Z.eqb_spec (rep p0 a) c); set_solver.
Qed.

Lemma start_body_ok body :
  (∀ r, r ∈ body ↔ ∃ a, a ∈ backs_of S c ∧ r = rep p0 a ∧ r ≠ c) → body_ok c p0 body.
Proof.
  intros Hin. split.
  - intros r (a & Ha & -> & Hne)%Hin. destruct (back_node a Ha) as [? ?]. destruct (rep0 a) as (? & ? & ? & ?); [lia|]. split_and!; [lia..|done].
  - intros r (a & Ha & -> & Hne)%Hin. exists a. split; [done|]. destruct (back_node a Ha) as [? ?]. destruct (rep0 a) as (? & ? & ? & ?); [lia|].
    apply down_avoids; lia.
  - intros a Ha. destruct (decide (rep p0 a = c)); [by left|right]. apply Hin. eauto.
Qed.

Lemma body_ok_add body q : body_ok c p0 body → c < q <= c + D c → q < N → rep p0 q = q → reaches_back c q → body_ok c p0 ({[ q ]} ∪ body).
Proof. intros [Hn Hr Hb] ????. split; [intros r [->%elem_of_singleton|?]%elem_of_union; by auto with lia..|]. set_solver. Qed.

(** The result of following the predecessors of a node of the body. *)
Lemma follow_preds_ok r l body frontier p :
  body_ok c p0 body → r ∈ body → (∀ a, a ∈ l → a ∈ preds_of S r) → same p →
  (∃ body' frontier' p', ControlFlow.follow_preds S c l body frontier p = Ret (Ok (body', frontier', p')) ∧ same p' ∧ body_ok c p0 body' ∧
     body ⊆ body' ∧ (∀ a, a ∈ l → rep p0 a = c ∨ rep p0 a ∈ body') ∧
     (∀ x, x ∈ frontier' ↔ x ∈ frontier ∨ x ∈ body' ∖ body) ∧ (length frontier' + size body = length frontier + size body')%nat) ∨
  (ControlFlow.follow_preds S c l body frontier p = Ret (Err INVALID_LOOP_SPLIT) ∧ ¬ reducible bs).
Proof.
  revert body frontier p. induction l as [|a l IH]; intros body frontier p Hbody Hr Hl Hp.
  { left. exists body, frontier, p. split_and!; [done..|set_solver|set_solver|done]. }
  pose proof (to_nodes _ _ _ Htree). destruct (bd_node _ _ _ Hbody r Hr) as (? & ? & ?). destruct (pred_node r a) as [Ha Har]; [lia|set_solver|].
  destruct (rep0 a Ha) as (? & ? & Hor & ?). destruct (find_loop p a Hp) as (p1 & Hf & Hp1); [lia|].
  assert (avoids bs (blk c) (blk a) → avoids bs (blk c) (blk r)) as Hstep.
  { intros Hav. eapply avoids_step; [done..|]. intros Heq. apply (to_inj _ _ _ Htree) in Heq; lia. }
  destruct (bd_reach _ _ _ Hbody r Hr) as (b & Hb & Hrb).
  cbn [ControlFlow.follow_preds]. rewrite Hf. cbn [mbind vm_bind vm_lift]. rewrite is_descendant_eq by lia. cbn [mbind vm_bind vm_lift].
  destruct (decide (c <= rep p0 a <= c + D c)) as [Hd|Hd].
  - rewrite bool_decide_true by done. cbn [negb]. destruct (decide (rep p0 a = c)) as [Heq|Hne]; [|destruct (decide (rep p0 a ∈ body)) as [Hin|Hout]].
    + rewrite (proj2 (Z.eqb_eq _ _) Heq). cbn [negb andb]. destruct (IH body frontier p1) as [(body' & fr' & p' & Hrun & Hsm & Hbd & Hsub & Hall & Hfr & Hlen)|]; [done..|set_solver|done| |by right].
      left. exists body', fr', p'. split_and!; [done..| |done|done]. intros x [->|Hx]%elem_of_cons; [by left|by apply Hall].
    + rewrite (proj2 (Z.eqb_neq _ _) Hne), (bool_decide_true (rep p0 a ∈ body)) by done. cbn [negb andb].
      destruct (IH body frontier p1) as [(body' & fr' & p' & Hrun & Hsm & Hbd & Hsub & Hall & Hfr & Hlen)|]; [done..|set_solver|done| |by right].
      left. exists body', fr', p'. split_and!; [done..| |done|done]. intros x [->|Hx]%elem_of_cons; [right; set_solver|by apply Hall].
    + rewrite (proj2 (Z.eqb_neq _ _) Hne), (bool_decide_false (rep p0 a ∈ body)) by done. cbn [negb andb].
      destruct (IH ({[rep p0 a]} ∪ body) (rep p0 a :: frontier) p1) as [(body' & fr' & p' & Hrun & Hsm & Hbd & Hsub & Hall & Hfr & Hlen)|]; [|set_solver|set_solver|done| |by right].
      * apply body_ok_add; [done|lia|lia|done|]. exists b. split; [done|]. intros Hav. apply Hrb, Hstep. eapply (down_avoids (rep p0 a)); [lia..|done].
      * left. exists body', fr', p'. split_and!; [done..|set_solver| | |].
        -- intros x [->|Hx]%elem_of_cons; [right; set_solver|by apply Hall].
        -- intros x. rewrite Hfr, elem_of_cons, !elem_of_difference, elem_of_union, elem_of_singleton.
           assert (rep p0 a ∈ body') by (apply Hsub; set_solver). destruct (decide (x = rep p0 a)) as [->|]; tauto.
        -- rewrite size_union, size_singleton in Hlen by set_solver. cbn [length] in Hlen. lia.
  - rewrite bool_decide_false by done. cbn [negb]. right. split; [done|]. apply (split_not_reducible bs S N Htree c b); [lia|done|].
    apply Hrb, Hstep, (not_descendant_avoids bs S N Htree); [done..|lia].
Qed.

Lemma body_size body : body_ok c p0 body → Z.of_nat (size body) <= n.
Proof.
  intros Hbody. pose proof (to_nodes _ _ _ Htree). assert (body ⊆ list_to_set (seqZ 0 n)) as Hsub.
  { intros r Hr. destruct (bd_node _ _ _ Hbody r Hr) as (? & ? & _). apply elem_of_list_to_set, elem_of_seqZ. lia. }
  apply subseteq_size in Hsub. rewrite size_list_to_set, length_seqZ in Hsub by apply NoDup_seqZ. lia.
Qed.

Lemma inside_mono body body' r : inside c p0 body r → body ⊆ body' → inside c p0 body' r.
Proof. intros Hin Hsub a Ha. destruct (Hin a Ha); [by left|right; set_solver]. Qed.

Lemma grow_body_ok fuel body frontier p :
  body_ok c p0 body → same p → (∀ x, x ∈ frontier → x ∈ body) → (∀ r, r ∈ body → r ∈ frontier ∨ inside c p0 body r) →
  n - Z.of_nat (size body) + Z.of_nat (length frontier) <= Z.of_nat fuel →
  (∃ body' p', ControlFlow.grow_body S fuel c body frontier p = Ret (Ok (body', p')) ∧ same p' ∧ body_ok c p0 body' ∧ ∀ r, r ∈ body' → inside c p0 body' r) ∨
  (ControlFlow.grow_body S fuel c body frontier p = Ret (Err INVALID_LOOP_SPLIT) ∧ ¬ reducible bs).
Proof.
  revert body frontier p. induction fuel as [|fuel IH]; intros body frontier p Hbody Hp Hfr Hin Hfuel;
    pose proof (body_size body Hbody); (destruct frontier as [|r frontier]; cbn [ControlFlow.grow_body]).
  1,3: left; exists body, p; split_and!; [done..|]; intros r Hr; destruct (Hin r Hr); [set_solver|done].
  - cbn [length] in Hfuel. lia.
  - assert (r ∈ body) as Hr by set_solver. destruct (bd_node _ _ _ Hbody r Hr) as (? & ? & _). pose proof (to_nodes _ _ _ Htree).
    destruct (to_length _ _ _ Htree) as (_ & _ & _ & Hl). unfold Loops.pred_edges. rewrite (at_entry []) by lia. cbn [vm_lift mbind vm_bind].
    destruct (follow_preds_ok r (entry [] (preds S) r) body frontier p Hbody Hr (λ a Ha, Ha) Hp) as [(body' & fr' & p' & -> & Hp' & Hbody' & Hsub & Hall & Hfr' & Hlen)|[-> ?]]; [|by right].
    cbn [mbind vm_bind]. apply IH; [done|done| | |cbn [length] in Hfuel; lia].
    + intros x [Hx|Hx]%Hfr'; [|set_solver]. apply Hsub, Hfr. by right.
    + intros x Hx. destruct (decide (x ∈ body)) as [Hxb|Hxb]; [|left; apply Hfr'; right; set_solver].
      destruct (Hin x Hxb) as [[->|Hxf]%elem_of_cons|Hxi]; [right; exact Hall|left; apply Hfr'; by left|right; by eapply inside_mono].
Qed.

(** The partition after the loop of [c] has been collapsed. *)
Section collapsed.
Context (body : gset Z) (p' : LoopPartition) (Hbody : body_ok c p0 body) (Hinside : ∀ r, r ∈ body → inside c p0 body r).
Context (Hp' : part_ok n p') (Hrep : ∀ x, 0 <= x < n → rep p' x = merged p0 c body x).

Lemma head_rep : rep p0 c = c ∧ c ∉ body.
Proof.
  destruct (rep0 c Hc) as (? & _ & ? & _). split; [lia|]. intros Hb. destruct (bd_node _ _ _ Hbody c Hb). lia.
Qed.

Lemma in_loop a : 0 <= a < N → rep p0 a = c ∨ rep p0 a ∈ body → rep p' a = c.
Proof.
  intros Ha Hor. pose proof (to_nodes _ _ _ Htree). rewrite Hrep by lia. unfold merged. case_decide; [done|]. by destruct Hor.
Qed.

Lemma collapsed_closed x : 0 <= x < N → rep p' x ≠ x → ∀ a, a ∈ backs_of S x ∨ a ∈ preds_of S x → rep p' a = rep p' x.
Proof.
  intros Hx Hne a Ha. pose proof (to_nodes _ _ _ Htree). destruct head_rep as [Hcc Hcb].
  assert (0 <= a < N) as HaN.
  { destruct Ha as [Ha|Ha]; [destruct (to_back _ _ _ Htree x a ltac:(lia) Ha) as (? & ? & _)|destruct (to_pred _ _ _ Htree x a ltac:(lia) Ha) as (? & ? & _)]; lia. }
  destruct (decide (rep p0 x ∈ body)) as [Hin|Hout].
  - rewrite (in_loop x) by auto. apply in_loop; [done|]. destruct (decide (rep p0 x = x)) as [Heq|Hnx].
    + rewrite Heq in Hin. destruct Ha as [Ha|Ha]; [|by apply (Hinside x)]. right.
      destruct (bd_node _ _ _ Hbody x Hin) as (? & _). rewrite (hd_back _ _ H0 x ltac:(lia) Hx a Ha). by rewrite Heq.
    + right. rewrite (hd_closed _ _ H0 x Hx Hnx a Ha). done.
  - rewrite (Hrep x) in Hne |- * by lia. unfold merged in Hne |- *. rewrite decide_False in Hne |- * by done.
    rewrite Hrep by lia. unfold merged. rewrite (hd_closed _ _ H0 x Hx Hne a Ha). by rewrite decide_False.
Qed.

(** Paths to the loop go through its head. *)
Lemma loop_dominated a : 0 <= a < N → rep p' a = c → a ≠ c → dominates bs (blk c) (blk a).
Proof.
  intros Ha Hr Hne [Hentry Hpath].
  assert (∀ v, rtc (λ u v, edge u v ∧ v ≠ blk c) ENTRY_BLOCK_ID v → rtc edge ENTRY_BLOCK_ID v ∧ v ≠ blk c ∧ ∀ k, 0 <= k < N → v = blk k → rep p' k ≠ c) as Hall.
  { apply (rtc_ind_r (λ v, rtc edge ENTRY_BLOCK_ID v ∧ v ≠ blk c ∧ ∀ k, 0 <= k < N → v = blk k → rep p' k ≠ c)).
    - split_and!; [done..|]. intros k Hk Heq Hkc. pose proof (to_nodes _ _ _ Htree).
      rewrite <- (to_root _ _ _ Htree) in Heq. apply (to_inj _ _ _ Htree) in Heq; [subst k|lia|done].
      destruct (rep_ok n p' 0 Hp') as [? _]; [lia|]. apply Hentry. rewrite <- (to_root _ _ _ Htree). f_equal. lia.
    - intros u v _ [Huv Hv] (Hu & Huc & IH). split_and!; [by eapply rtc_r|done|]. intros k Hk -> Hkc.
      destruct (reach_node bs S N Htree u Hu) as (j & Hj & ->).
      destruct (to_edge _ _ _ Htree j (blk k) Hj Huv) as (k' & Hk' & Heq & _ & Hor). apply (to_inj _ _ _ Htree) in Heq; [subst k'|done..].
      apply (IH j Hj eq_refl). rewrite <- Hkc. apply collapsed_closed; [done| |done]. intros Heq. apply Hv. f_equal. congruence. }
  destruct (Hall _ Hpath) as (_ & _ & Hbad). by apply (Hbad a).
Qed.

Lemma collapsed_ok : heads_ok c p'.
Proof.
  pose proof (to_nodes _ _ _ Htree). destruct head_rep as [Hcc Hcb]. split.
  - done.
  - intros x Hx. rewrite Hrep by done. unfold merged. case_decide; [right; lia|]. destruct (hd_heads _ _ H0 x Hx); [by left|right; lia].
  - intros x Hx. rewrite Hrep by lia. unfold merged. destruct (rep0 x Hx) as (? & ? & _). case_decide as Hin; [|done].
    destruct (bd_node _ _ _ Hbody _ Hin) as (? & ? & _). destruct (to_descs _ _ _ Htree c Hc) as (_ & _ & Hnest). specialize (Hnest (rep p0 x) ltac:(lia)). lia.
  - apply collapsed_closed.
  - intros y Hy HyN a Ha. destruct (to_back _ _ _ Htree y a ltac:(lia) Ha) as (? & ? & _). destruct (decide (y = c)) as [->|Hne].
    + rewrite !in_loop; [done|lia|by left|lia|by apply (bd_back _ _ _ Hbody)].
    + rewrite !Hrep by lia. unfold merged. by rewrite (hd_back _ _ H0 y ltac:(lia) HyN a Ha).
  - intros y Hy HyN a Ha. destruct (decide (y = c)) as [->|Hne]; [|apply (hd_dom _ _ H0); [lia|done|done]].
    destruct (back_node a Ha) as [? ?]. destruct (decide (a = c)) as [->|]; [by intros ?%avoids_ne|]. apply loop_dominated; [lia| |done].
    apply in_loop; [lia|by apply (bd_back _ _ _ Hbody)].
Qed.
End collapsed.

Definition head_result (r : result StatusCode LoopPartition) : Prop :=
  match r with
  | Ok p' => heads_ok c p'
  | Err INVALID_LOOP_SPLIT => ¬ reducible bs
  | Err LOOP_MAX_DEPTH_REACHED => max_loop_depth config ≠ None
  | Err _ => False
  end.

Lemma verify_head_loop a l : backs_of S c = a :: l → ∃ r, ControlFlow.verify_head config S p0 c = Ret r ∧ head_result r.
Proof.
  intros Hback. pose proof (to_nodes _ _ _ Htree). destruct (to_length _ _ _ Htree) as (Hl1 & _ & Hl & _).
  unfold ControlFlow.verify_head, Loops.back_edges. rewrite (at_entry []) by lia. fold (backs_of S c). cbn [vm_lift mbind vm_bind]. rewrite Hback, <- Hback.
  destruct (collect_back_ok (backs_of S c) ∅ p0 (λ a Ha, Ha) same_refl) as (body & p1 & -> & Hp1 & Hin). cbn [vm_lift mbind vm_bind].
  assert (body_ok c p0 body) as Hbody by (apply start_body_ok; intros r; rewrite Hin; set_solver).
  destruct (grow_body_ok (length (node_blocks S)) body (rev (btree_set_iter body)) p1) as [(body' & p2 & -> & [Hp2 Hrep2] & Hbody' & Hinside)|[-> Hno]]; [done..| | | | |].
  - intros x. rewrite list_elem_of_In, <- in_rev, <- list_elem_of_In. by rewrite elem_of_btree_set_iter.
  - intros r Hr. left. by rewrite list_elem_of_In, <- in_rev, <- list_elem_of_In, elem_of_btree_set_iter.
  - rewrite length_rev. assert (length (btree_set_iter body) = size body) as -> by (unfold btree_set_iter; by rewrite merge_sort_Permutation). lia.
  - cbn [mbind vm_bind]. destruct (collapse_loop_ok n p2 c body') as (depth & p3 & -> & Hp3 & Hrep3); [done|lia|..].
    + destruct (head_rep body' Hbody') as [Hcc _]. destruct (rep_ok n p2 c Hp2) as [_ Hroot]; [lia|]. by rewrite Hrep2, Hcc in Hroot by lia.
    + intros r Hr. destruct (bd_node _ _ _ Hbody' r Hr) as (? & ? & Hrr). split; [lia|].
      destruct (rep_ok n p2 r Hp2) as [_ Hroot]; [lia|]. by rewrite Hrep2, Hrr in Hroot by lia.
    + assert (heads_ok c p3) as Hok.
      { eapply collapsed_ok; [exact Hbody'|done|done|]. intros x Hx. rewrite Hrep3 by done. unfold merged. by rewrite Hrep2. }
      cbn [vm_lift mbind vm_bind]. destruct (max_loop_depth config) as [m|] eqn:Hm; [destruct (m <? depth)|]; eexists; (split; [done|]); [|done..].
      cbn. by rewrite Hm.
  - by eexists.
Qed.
End test.

Section heads.
Context (config : VerifierConfig) (bs : gmap Z BasicBlock) (S : LoopSummary) (N : Z) (Htree : tree_ok bs S N).
Abbreviation n := (Z.of_nat (size bs)).
Context (Hsize : n < U16_MOD).

(** Nodes without back edges are no heads. *)
Lemma heads_ok_skip c p : 0 <= c → backs_of S c = [] → heads_ok bs S N (c + 1) p → heads_ok bs S N c p.
Proof.
  intros Hc Hback [Hp Hheads Hdesc Hclosed Hbk Hdom]. split; [done| |done|done|..].
  - intros x Hx. destruct (Hheads x Hx); [by left|right; lia].
  - intros y Hy HyN a Ha. destruct (decide (y = c)) as [->|]; [rewrite Hback in Ha; set_solver|]. apply Hbk; [lia|done|done].
  - intros y Hy HyN a Ha. destruct (decide (y = c)) as [->|]; [rewrite Hback in Ha; set_solver|]. apply Hdom; [lia|done|done].
Qed.

Lemma verify_head_ok c p : 0 <= c < n → heads_ok bs S N (c + 1) p → ∃ r, ControlFlow.verify_head config S p c = Ret r ∧ head_result config bs S N c r.
Proof.
  intros Hc Hp. destruct (backs_of S c) as [|a l] eqn:Hback.
  - exists (Ok p). split; [|apply heads_ok_skip; [lia|done..]]. destruct (to_length _ _ _ Htree) as (_ & _ & Hl & _).
    unfold ControlFlow.verify_head, Loops.back_edges. rewrite (at_entry []) by lia. fold (backs_of S c). by rewrite Hback.
  - destruct (to_back _ _ _ Htree c a ltac:(lia)) as (? & ? & _); [rewrite Hback; set_solver|]. eapply verify_head_loop; [done|done|lia|done|done].
Qed.

Definition test_result (r : result StatusCode unit) : Prop :=
  match r with
  | Ok _ => reducible bs
  | Err INVALID_LOOP_SPLIT => ¬ reducible bs
  | Err LOOP_MAX_DEPTH_REACHED => max_loop_depth config ≠ None
  | Err _ => False
  end.

Lemma verify_heads_ok (k : nat) p :
  Z.of_nat k <= n → heads_ok bs S N (Z.of_nat k) p →
  ∃ r, ControlFlow.verify_heads config S (rev (seqZ 0 (Z.of_nat k))) p = Ret r ∧ test_result r.
Proof.
  revert p. induction k as [|k IH]; intros p Hk Hp.
  - exists (Ok tt). split; [done|]. apply (dominated_reducible bs S N Htree). intros c a Hc. apply (hd_dom _ _ _ _ _ Hp); lia.
  - rewrite Nat2Z.inj_succ, <- Z.add_1_r, seqZ_app, rev_app_distr by lia. cbn [seqZ]. rewrite (seqZ_cons _ 1), seqZ_nil by lia. cbn [rev app ControlFlow.verify_heads].
    rewrite Z.add_0_l. destruct (verify_head_ok (Z.of_nat k) p) as (r & -> & Hr); [lia|by replace (Z.of_nat k + 1) with (Z.of_nat (Datatypes.S k)) by lia|].
    destruct r as [p'|e]; cbn [mbind vm_bind]; [apply IH; [lia|done]|]. exists (Err e). split; [done|]. by destruct e.
Qed.

Lemma new_partition_ok : heads_ok bs S N n (Loops.new_partition S).
Proof.
  destruct (to_length _ _ _ Htree) as (Hl & _). pose proof (to_nodes _ _ _ Htree).
  assert (∀ x, 0 <= x < n → par (Loops.new_partition S) x = x) as Hpar.
  { intros x Hx. unfold par, entry, Loops.new_partition. cbn [parents]. rewrite Hl, list_lookup_fmap, lookup_seqZ_lt by lia. cbn. unfold BC.u16. rewrite Z.mod_small by lia. lia. }
  assert (part_ok n (Loops.new_partition S)) as Hp.
  { split; unfold Loops.new_partition; cbn [parents depths]; [rewrite length_fmap, length_seqZ; lia|rewrite length_replicate; lia|]. intros x Hx. rewrite Hpar by done. lia. }
  assert (∀ x, 0 <= x < n → rep (Loops.new_partition S) x = x) as Hrep by (intros x Hx; apply (rep_root n); auto).
  split; [done|..].
  - intros x Hx. left. by apply Hrep.
  - intros x Hx. rewrite Hrep by lia. destruct (to_descs _ _ _ Htree x Hx). lia.
  - intros x Hx Hne. rewrite Hrep in Hne by lia. done.
  - lia.
  - intros y Hy _ a Ha. destruct (to_back _ _ _ Htree y a ltac:(lia) Ha) as (? & ? & _). lia.
Qed.
End heads.

Lemma reducibility_decided config fv :
  wf_code (fv_code fv) → Cfg.new (fv_code fv) = Ret (fv_cfg fv) →
  ∃ r, ControlFlow.verify_reducibility config fv = Ret r ∧
    (r = Ok tt → reducible (blocks (fv_cfg fv))) ∧
    (r = Err INVALID_LOOP_SPLIT → ¬ reducible (blocks (fv_cfg fv))) ∧
    (r = Ok tt ∨ r = Err INVALID_LOOP_SPLIT ∨ (r = Err LOOP_MAX_DEPTH_REACHED ∧ max_loop_depth config ≠ None)).
Proof.
  intros Hwf Hcfg. destruct (cfg_new_ok (fv_code fv) Hwf) as (g & order & Hg & Hb & _). rewrite Hcfg in Hg. injection Hg as <-.
  pose proof (wc_length _ Hwf). pose proof (bk_size _ _ Hb).
  destruct (loop_summary_ok (fv_cfg fv)) as (S & N & Hsum & Htree).
  - intros u v (bb & Hbb & Hv). apply (bk_starts _ _ Hb). pose proof (bk_block _ _ Hb u bb Hbb) as Hbk.
    eapply exit_starts; [done|exact Hbk|]. by apply (bo_succ _ _ _ Hbk).
  - apply (bk_starts _ _ Hb). split; [unfold ENTRY_BLOCK_ID; lia|by left].
  - lia.
  - intros b bb Hbb. apply (bo_few _ _ _ (bk_block _ _ Hb b bb Hbb)).
  - unfold ControlFlow.verify_reducibility. rewrite Hsum. cbn [vm_lift mbind vm_bind].
    destruct (to_length _ _ _ Htree) as (Hl & _).
    assert (Loops.preorder S = seqZ 0 (Z.of_nat (size (blocks (fv_cfg fv))))) as ->.
    { unfold Loops.preorder. rewrite Hl. apply list_eq_same_length with (n := size (blocks (fv_cfg fv))); [rewrite length_seqZ; lia|rewrite length_fmap, length_seqZ; lia|].
      intros i x y Hi. rewrite list_lookup_fmap, lookup_seqZ_lt by lia. cbn. intros [= <-] [= <-]. unfold BC.u16. apply Z.mod_small. lia. }
    destruct (verify_heads_ok config (blocks (fv_cfg fv)) S N Htree) with (k := size (blocks (fv_cfg fv))) (p := Loops.new_partition S) as (r & -> & Hr);
      [lia|lia|apply new_partition_ok; [done|lia]|].
    exists r. split; [done|]. destruct r as [[]|[]]; cbn in Hr; naive_solver.
Qed.

(** C15: the reducibility check decides reducibility.  For well-formed code it returns without a panic; it
    accepts only if every cycle of the control flow graph has a block that dominates all blocks of the
    cycle, it reports a split loop only if some cycle has none, and without a limit on the loop depth these
    are the only outcomes.  The test uses a depth-first spanning tree and a union-find structure with
    path compression; the specification mentions neither. *)
Theorem verify_reducibility_exact config fv :
  wf_code (fv_code fv) → Cfg.new (fv_code fv) = Ret (fv_cfg fv) →
  ∃ r, ControlFlow.verify_reducibility config fv = Ret r ∧
    (r = Ok tt → reducible (blocks (fv_cfg fv))) ∧
    (r = Err INVALID_LOOP_SPLIT → ¬ reducible (blocks (fv_cfg fv))) ∧
    (r = Ok tt ∨ r = Err INVALID_LOOP_SPLIT ∨ (r = Err LOOP_MAX_DEPTH_REACHED ∧ max_loop_depth config ≠ None)).
Proof. apply reducibility_decided. Qed.

(** * Examples *)
Module LoopFlow.
Definition config : VerifierConfig := default_config.

Definition view (code : list BC.Bytecode) : FunctionView :=
  match Cfg.new code with
  | Ret g => mkFunctionView None code [] [] [] [] g
  | _ => mkFunctionView None [] [] [] [] [] (mkCfg ∅ ∅ ∅)
  end.

(** Two nested loops. *)
Definition nested : list BC.Bytecode :=
  [BC.LdTrue; BC.BrFalse 6; BC.LdTrue; BC.BrTrue 2; BC.Nop; BC.Branch 0; BC.Ret].

(** A loop that is entered at two places. *)
Definition split_loop : list BC.Bytecode := [BC.LdTrue; BC.BrTrue 4; BC.Nop; BC.Branch 4; BC.LdTrue; BC.BrFalse 2; BC.Ret].

Lemma verify_reducibility_exact_witness :
  reducible (blocks (fv_cfg (view nested))) ∧ ¬ reducible (blocks (fv_cfg (view split_loop))).
Proof.
  split.
  - destruct (verify_reducibility_exact config (view nested)) as (r & Hr & Hok & _); [by apply wf_code_bool|vm_compute; reflexivity|].
    apply Hok. assert (ControlFlow.verify_reducibility config (view nested) = Ret (Ok tt)) as Hv by (vm_compute; reflexivity). congruence.
  - destruct (verify_reducibility_exact config (view split_loop)) as (r & Hr & _ & Hno & _); [by apply wf_code_bool|vm_compute; reflexivity|].
    apply Hno. assert (ControlFlow.verify_reducibility config (view split_loop) = Ret (Err INVALID_LOOP_SPLIT)) as Hv by (vm_compute; reflexivity). congruence.
Defined.

Lemma depth_limit : ControlFlow.verify_reducibility (mkConfig (Some 1) None None None 1024 None None None None None None None None None None None None None true) (view nested) = Ret (Err LOOP_MAX_DEPTH_REACHED).
Proof. vm_compute. reflexivity. Qed.
End LoopFlow.
