(* ===== verification/LoadedCode.v ===== *)
(** The checks of the code of a module that has been loaded: what the deserializer and the bounds checker
    guarantee is all that the control flow, stack usage and locals checks of the bytecode verifier need to
    run without a panic. *)
From S2P Require Import Prelude MoveFormat BinaryFormat Serializer CheckBounds Deserializer Codec TokenCodec BoundsSafety Totality Tables ModuleBytes RoundTrip ControlFlowGraph AbsInt LocalsSafety StackUsage LoopSummary Reducibility.
Import Des.

(** * Lookups *)

Lemma at_index_below {A} (pool : list A) idx : 0 <= idx → below pool idx → ∃ x, at_index pool idx = Ret x ∧ x ∈ pool.
Proof.
  intros H0 Hb. destruct (below_entry pool idx H0 Hb) as [x Hx]. exists x. split; [by apply get_at_index|by eapply entry_elem].
Qed.

Section module_.
Context (m : CompiledModule).
Hypothesis Hvalid : valid_module (m_version m) m.
Hypothesis Hbounds : in_bounds (ModuleView m).

Lemma valid_entry k x : x ∈ entries (table (m_version m) k) m → valid (table (m_version m) k) x.
Proof using Hvalid. destruct Hvalid as [Hv _]. intros Hx. specialize (Hv k). unfold table_entries_valid in Hv. by eapply Forall_forall in Hv. Qed.

Lemma function_handle_found idx : 0 <= idx → below (function_handles m) idx →
  ∃ fh, at_index (function_handles m) idx = Ret fh ∧ valid_function_handle fh ∧ function_handle_in_bounds (ModuleView m) fh.
Proof using All.
  intros H0 Hb. destruct (at_index_below _ _ H0 Hb) as (fh & Hfh & Hin). exists fh. split; [done|]. split; [by apply (valid_entry FUNCTION_HANDLES)|].
  by eapply Forall_forall in Hin; [|apply (ib_function_handles _ Hbounds)].
Qed.

Lemma signature_found idx : is_u16 idx → below (signatures m) idx → ∃ sig, at_index (signatures m) idx = Ret sig ∧ sig ∈ signatures m.
Proof. intros [H0 _]. by apply at_index_below. Qed.

(** ** The effect of instructions on the stack *)

Lemma call_effect_returns fh : valid_function_handle fh → function_handle_in_bounds (ModuleView m) fh →
  ∃ r, StackUsage.call_effect (ModuleView m) fh = Ret r.
Proof.
  intros (_ & _ & Hp & Hr & _) (_ & _ & Hbp & Hbr & _). unfold StackUsage.call_effect, View.signature_at. cbn [View.tables] in *.
  destruct (signature_found _ Hp Hbp) as (ps & -> & _). destruct (signature_found _ Hr Hbr) as (rs & -> & _). cbn. by eexists.
Qed.

Lemma struct_def_found idx : 0 <= idx → below (struct_defs m) idx → ∃ sd, View.struct_def_at (ModuleView m) idx = Ret (Ok sd).
Proof.
  intros H0 Hb. destruct (at_index_below _ _ H0 Hb) as (sd & Hsd & _). exists sd. unfold View.struct_def_at, View.module_entry. by rewrite Hsd.
Qed.

Lemma struct_instantiation_found idx : 0 <= idx → below (struct_def_instantiations m) idx →
  ∃ si sd, View.struct_instantiation_at (ModuleView m) idx = Ret (Ok si) ∧ View.struct_def_at (ModuleView m) (si_def si) = Ret (Ok sd).
Proof using All.
  intros H0 Hb. destruct (at_index_below _ _ H0 Hb) as (si & Hsi & Hin). pose proof (valid_entry STRUCT_DEF_INST si Hin) as [[Hd _] _].
  pose proof (ib_struct_insts _ Hbounds) as Hall. eapply Forall_forall in Hall as [Hbd _]; [|exact Hin]. cbn in Hbd.
  destruct (struct_def_found _ Hd Hbd) as (sd & Hsd). exists si, sd. unfold View.struct_instantiation_at, View.module_entry. by rewrite Hsi.
Qed.

Lemma effect_returns fv i len locals n : valid_instruction i → instruction_in_bounds (ModuleView m) len locals n i →
  ∃ r, StackUsage.instruction_effect (ModuleView m) fv i = Ret r.
Proof using All.
  intros Hv Hb. destruct i; cbn [StackUsage.instruction_effect] in *; try (by eexists); cbn in Hv, Hb; destruct Hv as [H0 _]; unfold mbind, vm_bind.
  - destruct (function_handle_found _ H0 Hb) as (fh & Hfh & ? & ?). unfold View.function_handle_at. cbn [View.tables]. rewrite Hfh. by apply call_effect_returns.
  - destruct (at_index_below _ _ H0 (proj1 Hb)) as (fi & Hfi & Hin). pose proof (valid_entry FUNCTION_INST fi Hin) as [[Hd _] _].
    pose proof (ib_function_insts _ Hbounds) as Hall. eapply Forall_forall in Hall as [Hbd _]; [|exact Hin]. cbn in Hbd.
    destruct (function_handle_found _ Hd Hbd) as (fh & Hfh & ? & ?). unfold View.function_instantiation_at, View.function_handle_at. cbn [View.tables].
    rewrite Hfi. cbn. rewrite Hfh. by apply call_effect_returns.
  - destruct (struct_def_found _ H0 Hb) as (sd & ->). by eexists.
  - destruct (struct_instantiation_found _ H0 (proj1 Hb)) as (si & sd & -> & ->). by eexists.
  - destruct (struct_def_found _ H0 Hb) as (sd & ->). by eexists.
  - destruct (struct_instantiation_found _ H0 (proj1 Hb)) as (si & sd & -> & ->). by eexists.
Qed.

(** ** The abilities of types *)

Lemma collect_returns {A} (l : list (VMResult A)) : Forall (λ x, ∃ r, x = Ret r) l → ∃ r, View.collect_results l = Ret r.
Proof.
  induction 1 as [|x l [r ->] _ [rs IH]]; cbn [View.collect_results]; [by eexists|]. unfold mbind, vm_bind. destruct r; [|by eexists].
  rewrite IH. destruct rs; by eexists.
Qed.

Lemma abilities_return constraints ty : valid_token (m_version m) ty → type_in_bounds (ModuleView m) ty → type_in_scope (length constraints) ty →
  ∃ r, View.abilities (ModuleView m) ty constraints = Ret r.
Proof using All.
  induction ty as [ty IH] using token_ind'. intros [Hv Hvs]%valid_token_eq Hb Hs. unfold type_in_bounds, type_in_scope in Hb, Hs. rewrite nodes_eq in Hb, Hs.
  apply Forall_cons in Hb as [Hb Hbs], Hs as [Hs Hss]. rewrite Forall_concat, Forall_fmap in Hbs, Hss.
  assert (Forall (λ t, ∃ r, View.abilities (ModuleView m) t constraints = Ret r) (Token.children ty)) as Hc.
  { rewrite Forall_forall in *. intros t Ht. apply IH; [done|by apply Hvs|by apply Hbs|by apply Hss]. }
  clear IH Hvs Hbs Hss. destruct ty as [| | | | | |t|idx|idx args|t|t|idx| | |]; cbn in *; try (by eexists).
  - apply Forall_cons in Hc as [[r ->] _]. unfold mbind, vm_bind. destruct r; by eexists.
  - destruct Hv as [H0 _]. destruct (at_index_below _ _ H0 (proj1 Hb)) as (sh & Hsh & _). unfold View.struct_handle_at. cbn [View.tables].
    unfold mbind, vm_bind. rewrite Hsh. by eexists.
  - destruct Hv as [[H0 _] _]. destruct (at_index_below _ _ H0 (proj1 Hb)) as (sh & Hsh & _). unfold View.struct_handle_at. cbn [View.tables].
    unfold mbind, vm_bind. rewrite Hsh. cbn. destruct (collect_returns ((λ arg, View.abilities (ModuleView m) arg constraints) <$> args)) as [r Hr].
    { by rewrite Forall_fmap. }
    rewrite Hr. destruct r; by eexists.
  - destruct Hv as [H0 _]. destruct (at_index_below constraints idx H0) as (a & -> & _); [unfold below, lenZ; lia|]. by eexists.
Qed.

(** * Functions *)

Section function.
Context (d : FunctionDefinition) (code : CodeUnit) (fh : FunctionHandle).
Hypothesis Hd : d ∈ function_defs m.
Hypothesis Hcode : fn_code d = Some code.
Hypothesis Hfh : at_index (function_handles m) (fn_function d) = Ret fh.

(** What is known of the code of a function. *)
Lemma code_facts : ∃ params return_ locals,
  at_index (signatures m) (fh_parameters fh) = Ret params ∧ at_index (signatures m) (fh_return_ fh) = Ret return_ ∧
  at_index (signatures m) (cu_locals code) = Ret locals ∧
  Forall (type_in_scope (length (fh_type_parameters fh))) (params ++ locals) ∧
  Forall (λ ty, valid_token (m_version m) ty ∧ type_in_bounds (ModuleView m) ty) (params ++ locals) ∧
  (length params + length locals <= 255)%nat ∧ Forall valid_instruction (cu_code code) ∧
  Forall (instruction_in_bounds (ModuleView m) (length (cu_code code)) (length locals + length params) (length (fh_type_parameters fh))) (cu_code code).
Proof using All.
  pose proof (valid_entry FUNCTION_DEFS d Hd) as (_ & _ & Hvc). rewrite Hcode in Hvc. destruct Hvc as [_ Hvi].
  pose proof (ib_function_defs _ Hbounds) as Hall. eapply Forall_forall in Hall as (_ & _ & Hc); [|exact Hd]. rewrite Hcode in Hc.
  destruct Hc as (fh' & params & Hfh' & Hparams & locals & Hlocals & Hlen & Hscope & Hi). apply get_at_index in Hfh'. cbn [View.tables] in *.
  rewrite Hfh in Hfh'. injection Hfh' as <-.
  assert (fh ∈ function_handles m) as Hin by by apply get_at_index, entry_elem in Hfh.
  pose proof (valid_entry FUNCTION_HANDLES fh Hin) as (_ & _ & Hp & Hr & _). pose proof (ib_function_handles _ Hbounds) as Hall.
  eapply Forall_forall in Hall as (_ & _ & _ & Hbr & Hsp & _); [|exact Hin].
  destruct (signature_found _ Hr Hbr) as (return_ & Hreturn & _). exists params, return_, locals.
  assert (∀ idx sig, BoundsSafety.entry (signatures m) idx sig → Forall (λ ty, valid_token (m_version m) ty ∧ type_in_bounds (ModuleView m) ty) sig) as Hsig.
  { intros idx sig Hin'%entry_elem. pose proof (valid_entry SIGNATURES sig Hin') as Hv. pose proof (ib_signatures _ Hbounds) as Hb.
    eapply Forall_forall in Hb; [|exact Hin']. cbn in Hv. by apply Forall_and. }
  split; [by apply get_at_index|]. split; [done|]. split; [by apply get_at_index|].
  split; [apply Forall_app; split; [by apply Hsp|done]|]. split; [apply Forall_app; split; by eapply Hsig|]. split; [lia|]. done.
Qed.

Lemma loaded_wf : cu_code code ≠ [] → lenZ (cu_code code) <= BYTECODE_COUNT_MAX → wf_code (cu_code code).
Proof using All.
  intros Hne Hlen. destruct code_facts as (params & return_ & locals & _ & _ & _ & _ & _ & _ & Hv & Hb). unfold lenZ, BYTECODE_COUNT_MAX in Hlen.
  split.
  - unfold U16_MOD. destruct (cu_code code); [done|]. cbn [length] in *. lia.
  - intros i b o Hi Ho. apply list_elem_of_lookup_2 in Hi. eapply Forall_forall in Hv, Hb; [|exact Hi..].
    destruct b; cbn in Ho; simplify_eq; cbn in Hv, Hb; destruct Hv; lia.
Qed.

(** [FunctionView::function]. *)
Lemma function_view_returns index : wf_code (cu_code code) → ∃ fv, function_view m index code fh = Ret fv ∧
  fv_code fv = cu_code code ∧ Cfg.new (fv_code fv) = Ret (fv_cfg fv) ∧ (length (fv_parameters fv) + length (fv_locals fv) <= 255)%nat ∧
  (∀ pc i, instr_at (fv_code fv) pc i → operands_ok i ∧ ∃ r, StackUsage.instruction_effect (ModuleView m) fv i = Ret r) ∧
  (∀ pc i, instr_at (fv_code fv) pc i → names_locals (length (fv_parameters fv) + length (fv_locals fv)) i) ∧
  ∃ r, Locals.new (ModuleView m) fv = Ret r.
Proof using All.
  intros Hwf. destruct code_facts as (params & return_ & locals & Hp & Hr & Hl & Hscope & Htypes & Hlen & Hv & Hb).
  destruct (cfg_new_ok (cu_code code) Hwf) as (g & _ & Hg & _). unfold function_view. rewrite Hp, Hr, Hl. cbn. rewrite Hg. eexists. split; [done|].
  cbn [fv_code fv_cfg fv_parameters fv_locals]. split; [done|]. split; [done|]. split; [done|]. split; [|split].
  - intros pc i [_ Hi%list_elem_of_lookup_2]. eapply Forall_forall in Hv, Hb; [|exact Hi..]. split; [|by eapply effect_returns].
    destruct i; try done; cbn in Hv; apply Hv.
  - intros pc i [_ Hi%list_elem_of_lookup_2]. eapply Forall_forall in Hv, Hb; [|exact Hi..]. destruct i; try done; cbn in Hv, Hb; destruct Hv; cbn; lia.
  - unfold Locals.new. cbn [fv_parameters fv_locals fv_type_parameters fv_index].
    destruct (collect_returns ((λ st, View.abilities (ModuleView m) st (fh_type_parameters fh)) <$> (params ++ locals))) as [r Hres].
    { rewrite Forall_fmap. rewrite Forall_forall in *. intros ty Hty. destruct (Htypes ty Hty). cbn. apply abilities_return; auto. }
    unfold mbind, vm_bind. rewrite Hres. destruct r; by eexists.
Qed.
End function.
End module_.

(** The code of a function that can be written is not too long for its offsets. *)
Lemma written_code_length version d code bs : VERSION_5 <= version → valid_function_definition d → fn_code d = Some code →
  emits (Ser.serialize_function_definition version d) bs → lenZ (cu_code code) <= BYTECODE_COUNT_MAX.
Proof.
  intros H5 Hv Hcode He. pose proof (codec_code_unit version H5) as [Hw _]. destruct Hv as (Hfn & Hacq & Hvc).
  apply (emits_eq _ _ _ (function_definition_eq version H5 d)) in He. unfold function_definition in He. rewrite Hcode in *.
  pose proof (Hw code Hvc) as Hwc. pose proof (codec_acquires) as [Hwa _]. specialize (Hwa _ Hacq). 
  do 4 (apply emits_bind in He as (_ & ? & ? & _ & _ & He); [|solve_writer..]).
  destruct Hvc as [Hl Hi]. pose proof (codec_code version H5) as [Hwcode _]. specialize (Hwcode _ Hi).
  apply emits_bind in He as (_ & ? & ? & _ & _ & He); [|solve_writer..].
  apply emits_bind in He as (_ & ? & ? & _ & He & _).
  - apply emits_int in He as [? _]; [done|unfold lenZ; lia|done].
  - apply writer_int; [unfold lenZ; lia|done].
  - apply writer_for_each. intros i Hin. eapply codec_writer; [by apply codec_instruction|]. by eapply Forall_forall in Hi.
Qed.

Lemma loaded_code_length bytes max check m d code : bytes_ok bytes → deserialize_compiled_module bytes max check = Ret (Ok m) →
  VERSION_5 <= m_version m → d ∈ function_defs m → fn_code d = Some code → lenZ (cu_code code) <= BYTECODE_COUNT_MAX.
Proof.
  intros Hok Hdes H5 Hd Hcode. apply load_inv in Hdes as (tables & b & idx & _ & _ & Hbytes & Hin & Hnd & _ & _ & Hb); [|done].
  pose proof (build_frame _ _ _ _ Hb) as Hf. injection Hf as Hmv _. rewrite Hmv in *.
  destruct (loaded_entries (version b) b tables (mkModule (version b) idx no_tables [] [] [] [] [] []) m H5 eq_refl Hbytes Hin Hnd ltac:(by intros []) Hb) as (_ & _ & He).
  destruct (He FUNCTION_DEFS) as [Hnil|(bs & (bss & _ & Hall) & _)]; cbn in *; [by rewrite Hnil in Hd; apply elem_of_nil in Hd|].
  apply list_elem_of_lookup in Hd as [i Hi]. destruct (Forall2_lookup_l _ _ _ _ _ Hall Hi) as (ds & _ & Hv & Hem). by eapply written_code_length.
Qed.

(** C6: the verifier runs on loaded code.  For every function of a module of version 6 that the deserializer
    and the bounds checker accept, the control flow check returns, and when it passes, so do the checks of the
    operand stack and of the locals (the latter with a meter without limit): no table lookup is out of range, no stack or index operation panics, and
    the fixpoint iteration ends. *)
Theorem loaded_code_checked config bytes max check m d code fh index fuel :
  bytes_ok bytes → module_deserialize_with_config bytes max check = Ret (Ok m) → VERSION_6 <= m_version m → limits_ok config →
  d ∈ function_defs m → fn_code d = Some code → at_index (function_handles m) (fn_function d) = Ret fh →
  (analysis_fuel (length (cu_code code)) 255 <= fuel)%nat →
  ∃ r, ControlFlow.verify_function config m index fh code = Ret r ∧ ∀ fv, r = Ok fv →
    (∃ r, StackUsage.verify config (ModuleView m) fv = Ret r) ∧
    (∃ r, Locals.verify (M := unit) fuel (ModuleView m) fv (tt, tt) = Ret r).
Proof.
  intros Hok Hload H6 Hlim Hd Hcode Hfh Hfuel. assert (VERSION_5 <= m_version m) as H5 by (unfold VERSION_5, VERSION_6 in *; lia). destruct (module_deserialize_returns bytes max check) as (r & Hr & Hm). rewrite Hload in Hr. injection Hr as <-.
  destruct (Hm m eq_refl) as (Hdes & _ & Hbounds). destruct (load_then_save bytes max check m Hok Hdes H5) as [Hvalid _].
  assert (cu_code code ≠ [] → wf_code (cu_code code)) as Hwf.
  { intros Hne. eapply loaded_wf; [done..|]. by eapply loaded_code_length. }
  unfold ControlFlow.verify_function, ControlFlow.verify_fallthrough. destruct (last (cu_code code)) as [i|] eqn:Hlast; [|by eexists].
  assert (wf_code (cu_code code)) as Hwf' by (apply Hwf; intros Hnil; by rewrite Hnil in Hlast).
  destruct (function_view_returns m Hvalid Hbounds d code fh Hd Hcode Hfh index Hwf') as (fv & Hfv & Hfc & Hcfg & Hlen & Hi & Hnames & [x Hnew]).
  rewrite <- Hfc in *. destruct (reducibility_decided config fv Hwf' Hcfg) as (rr & Hrr & _).
  destruct (negb (BC.is_unconditional_branch i)); [by eexists|]. unfold mbind, vm_bind. cbn. rewrite Hfv. cbn. rewrite Hrr. destruct rr as [[]|e]; [|by eexists].
  exists (Ok fv). split; [done|]. intros ? [= <-]. split.
  - destruct (cfg_new_ok (fv_code fv) Hwf') as (g & _ & Hg & Hblk & _). rewrite Hcfg in Hg. injection Hg as <-.
    destruct (verify_exact config (ModuleView m) fv Hlim (λ pc i H, proj1 (Hi pc i H)) (λ pc i H, proj2 (Hi pc i H)) Hblk) as (r & ? & _). by exists r.
  - destruct (LocalsSafety.verify_returns (M := unit) fuel (ModuleView m) fv x Hwf' Hcfg Hnew Hnames) with (s := (tt, tt)) as (r & st & ? & _); [|by eexists].
    etrans; [|exact Hfuel]. unfold analysis_fuel. apply Nat.add_le_mono_r, Nat.mul_le_mono_r, Nat.mul_le_mono_l. lia.
Qed.

(** * Example *)
Module SampleCode.
Definition config : VerifierConfig := default_config.

Lemma loaded_code_checked_witness : ∃ r, ControlFlow.verify_function config Sample.module_ 0 Sample.handle Sample.code = Ret r ∧
  ∀ fv, r = Ok fv → (∃ r, StackUsage.verify config (ModuleView Sample.module_) fv = Ret r) ∧
    (∃ r, Locals.verify (M := unit) (analysis_fuel 2 255) (ModuleView Sample.module_) fv (tt, tt) = Ret r).
Proof.
  apply (loaded_code_checked config Sample.reordered 6 true Sample.module_ Sample.function Sample.code Sample.handle 0 (analysis_fuel 2 255));
    [apply Sample.reordered_ok|vm_compute; reflexivity|done|by split|by left|done|done|done].
Defined.
End SampleCode.
