(* ===== verification/TypeSafety.v ===== *)
(** The type check of function bodies ([move-bytecode-verifier/src/type_safety.rs]): it runs over the
    instructions block by block with a stack of the types of the operands.

    The state is the abstract stack and the meter.  [safe_unwrap_err!] is an error, as in a release build;
    code offsets and messages of errors are left out. *)
From S2P Require Import Prelude MoveFormat ControlFlowGraph AbsInt AbstractStack.

Module TypeSafety.
Definition TYPE_NODE_COST : Z := 30.

(** ** Types *)

Definition materialize_type (struct_handle : Z) (type_args : Signature) : SignatureToken :=
  match type_args with [] => TStruct struct_handle | _ => TStructInstantiation struct_handle type_args end.

Fixpoint instantiate (token : SignatureToken) (subst : Signature) : outcome SignatureToken :=
  match subst with
  | [] => mret token
  | _ :: _ =>
      match token with
      | TBool => mret TBool
      | TU8 => mret TU8
      | TU16 => mret TU16
      | TU32 => mret TU32
      | TU64 => mret TU64
      | TU128 => mret TU128
      | TU256 => mret TU256
      | TAddress => mret TAddress
      | TSigner => mret TSigner
      | TVector ty => ty ← instantiate ty subst; mret (TVector ty)
      | TStruct idx => mret (TStruct idx)
      | TStructInstantiation idx struct_type_args =>
          tys ← mapM (λ ty, instantiate ty subst) struct_type_args; mret (TStructInstantiation idx tys)
      | TReference ty => ty ← instantiate ty subst; mret (TReference ty)
      | TMutableReference ty => ty ← instantiate ty subst; mret (TMutableReference ty)
      | TTypeParameter idx => at_index subst idx
      end
  end.

Definition get_vector_element_type (vector_ref_ty : SignatureToken) (mut_ref_only : bool) : option SignatureToken :=
  match vector_ref_ty with
  | TReference referred_type =>
      if mut_ref_only then None else match referred_type with TVector element_type => Some element_type | _ => None end
  | TMutableReference referred_type => match referred_type with TVector element_type => Some element_type | _ => None end
  | _ => None
  end.

Section checker.
Context {M : Type} `{!Meter M} (resolver : BinaryIndexedView) (fv : FunctionView).

(** [TypeSafetyChecker] and the meter. *)
Abbreviation TS := (ST (AbstractStack SignatureToken * M) StatusCode).

Definition local_at (i : Z) : outcome SignatureToken :=
  let param_count := Z.of_nat (length (fv_parameters fv)) in
  if i <? param_count then at_index (fv_parameters fv) i else at_index (fv_locals fv) (i - param_count).

Definition abilities (t : SignatureToken) : TS AbilitySet := lift_vm (View.abilities resolver t (fv_type_parameters fv)).

(** [safe_unwrap_err!] of an operation on the stack. *)
Definition on_stack {A} (m : ST (AbstractStack SignatureToken) AbsStackError A) : TS A := λ s,
  match m s.1 with
  | Ret (Ok a, stack) => Ret (Ok a, (stack, s.2))
  | Ret (Err _, stack) => Ret (Err UNKNOWN_INVARIANT_VIOLATION_ERROR, (stack, s.2))
  | Panic => Panic
  | OutOfFuel => OutOfFuel
  end.

Definition pop : TS SignatureToken := on_stack AbsStack.pop.

Definition charge_ty_ (ty : SignatureToken) (n : Z) : TS unit :=
  nodes ← lift_o (Token.preorder_traversal ty);
  Interpreter.add_items Function_ TYPE_NODE_COST (Z.to_nat (wmul (Z.of_nat (length nodes)) n)).
Definition charge_ty (ty : SignatureToken) : TS unit := charge_ty_ ty 1.
Fixpoint charge_tys (tys : list SignatureToken) : TS unit :=
  match tys with [] => mret tt | ty :: tys => charge_ty ty;; charge_tys tys end.

Definition push (ty : SignatureToken) : TS unit := charge_ty ty;; on_stack (AbsStack.push ty).
Definition push_n (ty : SignatureToken) (n : Z) : TS unit := charge_ty ty;; on_stack (AbsStack.push_n ty n).

(** [if b { return Err(..) }]. *)
Definition fail_if (b : bool) (status : StatusCode) : TS unit := if b then throw status else mret tt.
Local Notation "x == y" := (bool_decide (x = y)) (at level 70, only parsing).

Definition ref_to (mut_ : bool) (ty : SignatureToken) : SignatureToken := if mut_ then TMutableReference ty else TReference ty.

(** ** Groups of instructions *)

Definition borrow_field (mut_ : bool) (field_handle_index : Z) (type_args : Signature) : TS unit :=
  operand ← pop;
  fail_if (mut_ && negb (Token.is_mutable_reference operand)) BORROWFIELD_TYPE_MISMATCH_ERROR;;
  field_handle ← lift_vm (View.field_handle_at resolver field_handle_index);
  struct_def ← lift_vm (View.struct_def_at resolver (owner field_handle));
  let expected_type := materialize_type (sd_struct_handle struct_def) type_args in
  match operand with
  | TReference inner | TMutableReference inner => fail_if (negb (expected_type == inner)) BORROWFIELD_TYPE_MISMATCH_ERROR
  | _ => throw BORROWFIELD_TYPE_MISMATCH_ERROR
  end;;
  match field_information struct_def with
  | NativeFields => throw BORROWFIELD_BAD_FIELD_ERROR
  | Declared fields =>
      field_def ← lift_o (at_index fields (field field_handle));
      field_type ← lift_o (instantiate (fd_signature field_def) type_args);
      push (ref_to mut_ field_type)
  end.

Definition borrow_loc (mut_ : bool) (idx : Z) : TS unit :=
  loc_signature ← lift_o (local_at idx);
  fail_if (Token.is_reference loc_signature) BORROWLOC_REFERENCE_ERROR;;
  push (ref_to mut_ loc_signature).

Definition borrow_global (mut_ : bool) (idx : Z) (type_args : Signature) : TS unit :=
  operand ← pop;
  fail_if (negb (operand == TAddress)) BORROWGLOBAL_TYPE_MISMATCH_ERROR;;
  struct_def ← lift_vm (View.struct_def_at resolver idx);
  let struct_type := materialize_type (sd_struct_handle struct_def) type_args in
  a ← abilities struct_type;
  fail_if (negb (Abilities.has_key a)) BORROWGLOBAL_WITHOUT_KEY_ABILITY;;
  push (ref_to mut_ struct_type).

Fixpoint pop_args (parameters : list SignatureToken) (type_actuals : Signature) : TS unit :=
  match parameters with
  | [] => mret tt
  | parameter :: parameters =>
      arg ← pop;
      bad ← match type_actuals with
            | [] => mret (negb (arg == parameter))
            | _ :: _ => ty ← lift_o (instantiate parameter type_actuals); mret (negb (arg == ty))
            end;
      fail_if bad CALL_TYPE_MISMATCH_ERROR;;
      pop_args parameters type_actuals
  end.

Fixpoint push_instantiated (tys : list SignatureToken) (type_actuals : Signature) : TS unit :=
  match tys with
  | [] => mret tt
  | ty :: tys => t ← lift_o (instantiate ty type_actuals); push t;; push_instantiated tys type_actuals
  end.

Definition call (function_handle : FunctionHandle) (type_actuals : Signature) : TS unit :=
  parameters ← lift_o (View.signature_at resolver (fh_parameters function_handle));
  pop_args (rev parameters) type_actuals;;
  return_ ← lift_o (View.signature_at resolver (fh_return_ function_handle));
  push_instantiated return_ type_actuals.

Definition type_fields_signature (struct_def : StructDefinition) (type_args : Signature) : TS Signature :=
  match field_information struct_def with
  | NativeFields => throw PACK_TYPE_MISMATCH_ERROR
  | Declared fields => lift_o (mapM (λ field_def, instantiate (fd_signature field_def) type_args) fields)
  end.

(** [for sig in sigs { if pop() != sig { return Err(status) } }]. *)
Fixpoint pop_all (sigs : list SignatureToken) (status : StatusCode) : TS unit :=
  match sigs with
  | [] => mret tt
  | sig :: sigs => arg ← pop; fail_if (negb (arg == sig)) status;; pop_all sigs status
  end.
Fixpoint push_all (sigs : list SignatureToken) : TS unit :=
  match sigs with [] => mret tt | sig :: sigs => push sig;; push_all sigs end.

Definition pack (struct_def : StructDefinition) (type_args : Signature) : TS unit :=
  let struct_type := materialize_type (sd_struct_handle struct_def) type_args in
  field_sig ← type_fields_signature struct_def type_args;
  pop_all (rev field_sig) PACK_TYPE_MISMATCH_ERROR;;
  push struct_type.

Definition unpack (struct_def : StructDefinition) (type_args : Signature) : TS unit :=
  let struct_type := materialize_type (sd_struct_handle struct_def) type_args in
  arg ← pop;
  fail_if (negb (arg == struct_type)) UNPACK_TYPE_MISMATCH_ERROR;;
  field_sig ← type_fields_signature struct_def type_args;
  push_all field_sig.

Definition exists_ (struct_def : StructDefinition) (type_args : Signature) : TS unit :=
  a ← abilities (materialize_type (sd_struct_handle struct_def) type_args);
  fail_if (negb (Abilities.has_key a)) EXISTS_WITHOUT_KEY_ABILITY_OR_BAD_ARGUMENT;;
  operand ← pop;
  fail_if (negb (operand == TAddress)) EXISTS_WITHOUT_KEY_ABILITY_OR_BAD_ARGUMENT;;
  push TBool.

Definition move_from (struct_def : StructDefinition) (type_args : Signature) : TS unit :=
  let struct_type := materialize_type (sd_struct_handle struct_def) type_args in
  a ← abilities struct_type;
  fail_if (negb (Abilities.has_key a)) MOVEFROM_WITHOUT_KEY_ABILITY;;
  operand ← pop;
  fail_if (negb (operand == TAddress)) MOVEFROM_TYPE_MISMATCH_ERROR;;
  push struct_type.

Definition move_to (struct_def : StructDefinition) (type_args : Signature) : TS unit :=
  let struct_type := materialize_type (sd_struct_handle struct_def) type_args in
  a ← abilities struct_type;
  fail_if (negb (Abilities.has_key a)) MOVETO_WITHOUT_KEY_ABILITY;;
  key_struct_operand ← pop;
  signer_reference_operand ← pop;
  fail_if (negb (key_struct_operand == struct_type)) MOVETO_TYPE_MISMATCH_ERROR;;
  match signer_reference_operand with TReference TSigner => mret tt | _ => throw MOVETO_TYPE_MISMATCH_ERROR end.

(** The vector that a reference refers to has elements of the declared type. *)
Definition expect_vector (operand : SignatureToken) (mut_ref_only : bool) (declared_element_type : SignatureToken) : TS unit :=
  match get_vector_element_type operand mut_ref_only with
  | Some ty => fail_if (negb (ty == declared_element_type)) TYPE_MISMATCH
  | None => throw TYPE_MISMATCH
  end.

Definition borrow_vector_element (declared_element_type : SignatureToken) (mut_ref_only : bool) : TS unit :=
  operand_idx ← pop;
  operand_vec ← pop;
  fail_if (negb (operand_idx == TU64)) TYPE_MISMATCH;;
  expect_vector operand_vec mut_ref_only declared_element_type;;
  push (ref_to mut_ref_only declared_element_type).

Definition element_type (idx : Z) : TS SignatureToken :=
  sig ← lift_o (View.signature_at resolver idx); lift_o (at_index sig 0).

Definition cast (ty : SignatureToken) : TS unit :=
  operand ← pop;
  fail_if (negb (Token.is_integer operand)) INTEGER_OP_TYPE_MISMATCH_ERROR;;
  push ty.

(** The instances of generic structs and fields, with the charge for their type arguments. *)
Definition type_args_at (idx : Z) : TS Signature :=
  type_args ← lift_o (View.signature_at resolver idx); charge_tys type_args;; mret type_args.
Definition generic_struct (idx : Z) (f : StructDefinition → Signature → TS unit) : TS unit :=
  struct_inst ← lift_vm (View.struct_instantiation_at resolver idx);
  struct_def ← lift_vm (View.struct_def_at resolver (si_def struct_inst));
  type_args ← type_args_at (si_type_parameters struct_inst);
  f struct_def type_args.
Definition plain_struct (idx : Z) (f : StructDefinition → Signature → TS unit) : TS unit :=
  struct_def ← lift_vm (View.struct_def_at resolver idx); f struct_def [].
Definition generic_field (mut_ : bool) (idx : Z) : TS unit :=
  field_inst ← lift_vm (View.field_instantiation_at resolver idx);
  type_inst ← type_args_at (fdi_type_parameters field_inst);
  borrow_field mut_ (fdi_handle field_inst) type_inst.
Definition generic_global (mut_ : bool) (idx : Z) : TS unit :=
  struct_inst ← lift_vm (View.struct_instantiation_at resolver idx);
  type_inst ← type_args_at (si_type_parameters struct_inst);
  borrow_global mut_ (si_def struct_inst) type_inst.

Definition verify_instr (bytecode : BC.Bytecode) : TS unit :=
  match bytecode with
  | BC.Pop =>
      operand ← pop;
      a ← abilities operand;
      fail_if (negb (Abilities.has_drop a)) POP_WITHOUT_DROP_ABILITY
  | BC.BrTrue _ | BC.BrFalse _ => operand ← pop; fail_if (negb (operand == TBool)) BR_TYPE_MISMATCH_ERROR
  | BC.StLoc idx =>
      operand ← pop;
      local ← lift_o (local_at idx);
      fail_if (negb (operand == local)) STLOC_TYPE_MISMATCH_ERROR
  | BC.Abort => operand ← pop; fail_if (negb (operand == TU64)) ABORT_TYPE_MISMATCH_ERROR
  | BC.Ret => pop_all (rev (fv_return_ fv)) RET_TYPE_MISMATCH_ERROR
  | BC.Branch _ | BC.Nop => mret tt
  | BC.FreezeRef =>
      operand ← pop;
      match operand with TMutableReference inner => push (TReference inner) | _ => throw FREEZEREF_TYPE_MISMATCH_ERROR end
  | BC.MutBorrowField field_handle_index => borrow_field true field_handle_index []
  | BC.MutBorrowFieldGeneric field_inst_index => generic_field true field_inst_index
  | BC.ImmBorrowField field_handle_index => borrow_field false field_handle_index []
  | BC.ImmBorrowFieldGeneric field_inst_index => generic_field false field_inst_index
  | BC.LdU8 _ => push TU8
  | BC.LdU16 _ => push TU16
  | BC.LdU32 _ => push TU32
  | BC.LdU64 _ => push TU64
  | BC.LdU128 _ => push TU128
  | BC.LdU256 _ => push TU256
  | BC.LdConst idx => c ← lift_o (View.constant_at resolver idx); push (type_ c)
  | BC.LdTrue | BC.LdFalse => push TBool
  | BC.CopyLoc idx =>
      local_signature ← lift_o (local_at idx);
      a ← abilities local_signature;
      fail_if (negb (Abilities.has_copy a)) COPYLOC_WITHOUT_COPY_ABILITY;;
      push local_signature
  | BC.MoveLoc idx => local_signature ← lift_o (local_at idx); push local_signature
  | BC.MutBorrowLoc idx => borrow_loc true idx
  | BC.ImmBorrowLoc idx => borrow_loc false idx
  | BC.Call idx => function_handle ← lift_o (View.function_handle_at resolver idx); call function_handle []
  | BC.CallGeneric idx =>
      func_inst ← lift_o (View.function_instantiation_at resolver idx);
      func_handle ← lift_o (View.function_handle_at resolver (fi_handle func_inst));
      type_args ← type_args_at (fi_type_parameters func_inst);
      call func_handle type_args
  | BC.Pack idx => plain_struct idx pack
  | BC.PackGeneric idx => generic_struct idx pack
  | BC.Unpack idx => plain_struct idx unpack
  | BC.UnpackGeneric idx => generic_struct idx unpack
  | BC.ReadRef =>
      operand ← pop;
      match operand with
      | TReference inner | TMutableReference inner =>
          a ← abilities inner;
          fail_if (negb (Abilities.has_copy a)) READREF_WITHOUT_COPY_ABILITY;;
          push inner
      | _ => throw READREF_TYPE_MISMATCH_ERROR
      end
  | BC.WriteRef =>
      ref_operand ← pop;
      val_operand ← pop;
      match ref_operand with
      | TMutableReference ref_inner_signature =>
          a ← abilities ref_inner_signature;
          fail_if (negb (Abilities.has_drop a)) WRITEREF_WITHOUT_DROP_ABILITY;;
          fail_if (negb (val_operand == ref_inner_signature)) WRITEREF_TYPE_MISMATCH_ERROR
      | _ => throw WRITEREF_NO_MUTABLE_REFERENCE_ERROR
      end
  | BC.CastU8 => cast TU8
  | BC.CastU16 => cast TU16
  | BC.CastU32 => cast TU32
  | BC.CastU64 => cast TU64
  | BC.CastU128 => cast TU128
  | BC.CastU256 => cast TU256
  | BC.Add | BC.Sub | BC.Mul | BC.Mod | BC.Div | BC.BitOr | BC.BitAnd | BC.Xor =>
      operand1 ← pop;
      operand2 ← pop;
      if Token.is_integer operand1 && (operand1 == operand2) then push operand1 else throw INTEGER_OP_TYPE_MISMATCH_ERROR
  | BC.Shl | BC.Shr =>
      operand1 ← pop;
      operand2 ← pop;
      if Token.is_integer operand2 && (operand1 == TU8) then push operand2 else throw INTEGER_OP_TYPE_MISMATCH_ERROR
  | BC.Or | BC.And =>
      operand1 ← pop;
      operand2 ← pop;
      if (operand1 == TBool) && (operand2 == TBool) then push TBool else throw BOOLEAN_OP_TYPE_MISMATCH_ERROR
  | BC.Not => operand ← pop; if operand == TBool then push TBool else throw BOOLEAN_OP_TYPE_MISMATCH_ERROR
  | BC.Eq | BC.Neq =>
      operand1 ← pop;
      operand2 ← pop;
      a ← abilities operand1;
      if Abilities.has_drop a && (operand1 == operand2) then push TBool else throw EQUALITY_OP_TYPE_MISMATCH_ERROR
  | BC.Lt | BC.Gt | BC.Le | BC.Ge =>
      operand1 ← pop;
      operand2 ← pop;
      if Token.is_integer operand1 && (operand1 == operand2) then push TBool else throw INTEGER_OP_TYPE_MISMATCH_ERROR
  | BC.MutBorrowGlobalDeprecated idx => borrow_global true idx []
  | BC.MutBorrowGlobalGenericDeprecated idx => generic_global true idx
  | BC.ImmBorrowGlobalDeprecated idx => borrow_global false idx []
  | BC.ImmBorrowGlobalGenericDeprecated idx => generic_global false idx
  | BC.ExistsDeprecated idx => plain_struct idx exists_
  | BC.ExistsGenericDeprecated idx => generic_struct idx exists_
  | BC.MoveFromDeprecated idx => plain_struct idx move_from
  | BC.MoveFromGenericDeprecated idx => generic_struct idx move_from
  | BC.MoveToDeprecated idx => plain_struct idx move_to
  | BC.MoveToGenericDeprecated idx => generic_struct idx move_to
  | BC.VecPack idx num =>
      element_type ← element_type idx;
      (if num =? 0 then mret tt
       else λ s,
         match AbsStack.pop_eq_n num s.1 with
         | Ret (Ok t, stack) => fail_if (negb (element_type == t)) TYPE_MISMATCH (stack, s.2)
         | Ret (Err _, stack) => throw TYPE_MISMATCH (stack, s.2)
         | Panic => Panic
         | OutOfFuel => OutOfFuel
         end);;
      push (TVector element_type)
  | BC.VecLen idx =>
      operand ← pop;
      declared_element_type ← element_type idx;
      expect_vector operand false declared_element_type;;
      push TU64
  | BC.VecImmBorrow idx => declared_element_type ← element_type idx; borrow_vector_element declared_element_type false
  | BC.VecMutBorrow idx => declared_element_type ← element_type idx; borrow_vector_element declared_element_type true
  | BC.VecPushBack idx =>
      operand_elem ← pop;
      operand_vec ← pop;
      declared_element_type ← element_type idx;
      fail_if (negb (declared_element_type == operand_elem)) TYPE_MISMATCH;;
      expect_vector operand_vec true declared_element_type
  | BC.VecPopBack idx =>
      operand_vec ← pop;
      declared_element_type ← element_type idx;
      expect_vector operand_vec true declared_element_type;;
      push declared_element_type
  | BC.VecUnpack idx num =>
      operand_vec ← pop;
      declared_element_type ← element_type idx;
      fail_if (negb (operand_vec == TVector declared_element_type)) TYPE_MISMATCH;;
      push_n declared_element_type num
  | BC.VecSwap idx =>
      operand_idx2 ← pop;
      operand_idx1 ← pop;
      operand_vec ← pop;
      fail_if (negb (operand_idx1 == TU64) || negb (operand_idx2 == TU64)) TYPE_MISMATCH;;
      declared_element_type ← element_type idx;
      expect_vector operand_vec true declared_element_type
  end.

Fixpoint verify_instrs (offsets : list Z) : TS unit :=
  match offsets with
  | [] => mret tt
  | offset :: offsets =>
      instr ← lift_o (at_index (fv_code fv) offset);
      verify_instr instr;;
      verify_instrs offsets
  end.

Fixpoint verify_blocks (ids : list Z) : TS unit :=
  match ids with
  | [] => mret tt
  | block_id :: ids =>
      offsets ← lift_o (Cfg.instr_indexes (fv_cfg fv) block_id);
      verify_instrs offsets;;
      verify_blocks ids
  end.

Definition verify (meter : M) : outcome (result StatusCode unit * M) :=
  r ← verify_blocks (Cfg.block_ids (fv_cfg fv)) (AbsStack.new, meter); mret (r.1, r.2.2).
End checker.
End TypeSafety.
