(* ===== verification/TypingRules.v ===== *)
(** What the type check of function bodies decides: typing rules for the instructions, on the plain
    stack of the types of the operands, and that the check of [type_safety.rs] follows them. *)
From S2P Require Import Prelude MoveFormat BinaryFormat Serializer CheckBounds Deserializer Codec TokenCodec BoundsSafety Totality ControlFlowGraph AbsInt AbstractStack StackUsage TypeSafety.

(** * Types in a context *)

Section types.
Context (resolver : BinaryIndexedView).

(** The structs that a type names exist, and its type parameters are among the [n] in scope. *)
Definition node_ok (n : nat) (ty : SignatureToken) : Prop :=
  match ty with
  | TStruct idx | TStructInstantiation idx _ => ∃ sh, View.struct_handle_at resolver idx = Ret sh
  | TTypeParameter idx => 0 <= idx < Z.of_nat n
  | _ => True
  end.
Definition wt (n : nat) (ty : SignatureToken) : Prop := Forall (node_ok n) (nodes ty).

Lemma wt_eq n ty : wt n ty ↔ node_ok n ty ∧ Forall (wt n) (Token.children ty).
Proof. unfold wt. rewrite nodes_eq, Forall_cons, Forall_concat, Forall_fmap. done. Qed.

Lemma wt_weaken n n' ty : (n <= n')%nat → wt n ty → wt n' ty.
Proof. intros Hn H. eapply Forall_impl; [exact H|]. intros [] Hx; cbn in *; try done. lia. Qed.

Lemma abilities_defined constraints ty : wt (length constraints) ty → ∃ r, View.abilities resolver ty constraints = Ret r.
Proof.
  induction ty as [ty IH] using token_ind'. intros [Hn Hc]%wt_eq.
  assert (Forall (λ t, ∃ r, View.abilities resolver t constraints = Ret r) (Token.children ty)) as Hall.
  { rewrite Forall_forall in *. auto. }
  clear IH Hc. destruct ty as [| | | | | |t|idx|idx args|t|t|idx| | |]; cbn in *; try (by eexists).
  - apply Forall_cons in Hall as [[r ->] _]. unfold mbind, vm_bind. destruct r; by eexists.
  - destruct Hn as [sh ->]. by eexists.
  - destruct Hn as [sh ->]. unfold mbind, vm_bind. cbn.
    assert (∃ r, View.collect_results ((λ arg, View.abilities resolver arg constraints) <$> args) = Ret r) as [r ->]; [|destruct r; by eexists].
    clear sh. induction Hall as [|t ts [r Hr] _ [rs IH]]; cbn [fmap list_fmap View.collect_results]; [by eexists|].
    unfold mbind, vm_bind in *. rewrite Hr. destruct r; [|by eexists]. rewrite IH. destruct rs; by eexists.
  - destruct (at_index constraints idx) eqn:He; [by eexists| |]; unfold at_index, unwrap in He; case_match; try lia; case_match eqn:Hl; try done.
    apply lookup_ge_None in Hl. lia.
Qed.

(** ** Instances of generic types *)

Fixpoint subst (type_args : list SignatureToken) (ty : SignatureToken) : SignatureToken :=
  match ty with
  | TVector t => TVector (subst type_args t)
  | TStructInstantiation idx ts => TStructInstantiation idx (subst type_args <$> ts)
  | TReference t => TReference (subst type_args t)
  | TMutableReference t => TMutableReference (subst type_args t)
  | TTypeParameter idx => default ty (type_args !! Z.to_nat idx)
  | _ => ty
  end.

Lemma mapM_outcome {A B} (f : A → outcome B) (g : A → B) l : Forall (λ x, f x = Ret (g x)) l → mapM f l = Ret (g <$> l).
Proof. induction 1 as [|x l Hx _ IH]; [done|]. cbn. rewrite Hx. cbn. by rewrite IH. Qed.

Lemma instantiate_subst type_args ty : type_args ≠ [] → wt (length type_args) ty → TypeSafety.instantiate ty type_args = Ret (subst type_args ty).
Proof.
  intros Hne. induction ty as [ty IH] using token_ind'. intros [Hn Hc]%wt_eq.
  assert (Forall (λ t, TypeSafety.instantiate t type_args = Ret (subst type_args t)) (Token.children ty)) as Hall.
  { rewrite Forall_forall in *. auto. }
  clear IH Hc. destruct type_args as [|a args]; [done|].
  destruct ty as [| | | | | |t|idx|idx ts|t|t|idx| | |]; cbn [TypeSafety.instantiate subst Token.children] in *; try done.
  1,3,4: apply Forall_cons in Hall as [-> _]; done.
  - by rewrite (mapM_outcome _ (subst (a :: args)) ts Hall).
  - cbn in Hn. unfold at_index. destruct (Z.ltb_spec idx 0); [lia|].
    destruct (lookup_lt_is_Some_2 (a :: args) (Z.to_nat idx)) as [t Ht]; [cbn [length] in *; lia|]. by rewrite Ht.
Qed.

Lemma instantiate_nil ty : TypeSafety.instantiate ty [] = Ret ty.
Proof. by destruct ty. Qed.

Lemma wt_subst n type_args ty : Forall (wt n) type_args → wt (length type_args) ty → wt n (subst type_args ty).
Proof.
  intros Hargs. induction ty as [ty IH] using token_ind'. intros [Hn Hc]%wt_eq.
  assert (Forall (λ t, wt n (subst type_args t)) (Token.children ty)) as Hall.
  { rewrite Forall_forall in *. auto. }
  clear IH Hc. destruct ty as [| | | | | |t|idx|idx ts|t|t|idx| | |]; cbn [subst Token.children] in *; rewrite ?wt_eq; try done.
  1,3,4: apply Forall_cons in Hall as [? _]; split; [done|by repeat constructor].
  - cbn. by rewrite Forall_fmap.
  - cbn in Hn. destruct (lookup_lt_is_Some_2 type_args (Z.to_nat idx)) as [t Ht]; [lia|]. rewrite <- wt_eq, Ht. cbn. by eapply Forall_lookup_1.
Qed.
End types.

(** * Typing rules *)

Section rules.
Context (resolver : BinaryIndexedView) (fv : FunctionView).
Abbreviation scope := (length (fv_type_parameters fv)).

(** A type has an ability. *)
Definition able (a : Ability) (ty : SignatureToken) : Prop :=
  ∃ s, View.abilities resolver ty (fv_type_parameters fv) = Ret (Ok s) ∧ Abilities.has_ability s a = true.

(** [r] is a reference to a [ty], a mutable one if [mut_]. *)
Definition refers (mut_ : bool) (r ty : SignatureToken) : Prop := r = TMutableReference ty ∨ mut_ = false ∧ r = TReference ty.

(** Groups of instructions with the same rule. *)
Definition literal (i : BC.Bytecode) : option SignatureToken :=
  match i with
  | BC.LdU8 _ => Some TU8 | BC.LdU16 _ => Some TU16 | BC.LdU32 _ => Some TU32 | BC.LdU64 _ => Some TU64
  | BC.LdU128 _ => Some TU128 | BC.LdU256 _ => Some TU256 | BC.LdTrue | BC.LdFalse => Some TBool
  | _ => None
  end.
Definition cast_to (i : BC.Bytecode) : option SignatureToken :=
  match i with
  | BC.CastU8 => Some TU8 | BC.CastU16 => Some TU16 | BC.CastU32 => Some TU32 | BC.CastU64 => Some TU64
  | BC.CastU128 => Some TU128 | BC.CastU256 => Some TU256
  | _ => None
  end.
Definition is_arithmetic (i : BC.Bytecode) : bool :=
  match i with BC.Add | BC.Sub | BC.Mul | BC.Mod | BC.Div | BC.BitOr | BC.BitAnd | BC.Xor => true | _ => false end.
Definition is_comparison (i : BC.Bytecode) : bool := match i with BC.Lt | BC.Gt | BC.Le | BC.Ge => true | _ => false end.

Inductive StructOp := OpPack | OpUnpack | OpExists | OpMoveFrom | OpMoveTo | OpBorrow (mut_ : bool).
#[export] Instance StructOp_eq_dec : EqDecision StructOp.
Proof. solve_decision. Defined.
(** The operation, whether it is on a generic struct, and the index of the struct or of the instance. *)
Definition struct_op (i : BC.Bytecode) : option (StructOp * bool * Z) :=
  match i with
  | BC.Pack idx => Some (OpPack, false, idx) | BC.PackGeneric idx => Some (OpPack, true, idx)
  | BC.Unpack idx => Some (OpUnpack, false, idx) | BC.UnpackGeneric idx => Some (OpUnpack, true, idx)
  | BC.ExistsDeprecated idx => Some (OpExists, false, idx) | BC.ExistsGenericDeprecated idx => Some (OpExists, true, idx)
  | BC.MoveFromDeprecated idx => Some (OpMoveFrom, false, idx) | BC.MoveFromGenericDeprecated idx => Some (OpMoveFrom, true, idx)
  | BC.MoveToDeprecated idx => Some (OpMoveTo, false, idx) | BC.MoveToGenericDeprecated idx => Some (OpMoveTo, true, idx)
  | BC.MutBorrowGlobalDeprecated idx => Some (OpBorrow true, false, idx)
  | BC.MutBorrowGlobalGenericDeprecated idx => Some (OpBorrow true, true, idx)
  | BC.ImmBorrowGlobalDeprecated idx => Some (OpBorrow false, false, idx)
  | BC.ImmBorrowGlobalGenericDeprecated idx => Some (OpBorrow false, true, idx)
  | _ => None
  end.
Definition field_op (i : BC.Bytecode) : option (bool * bool * Z) :=
  match i with
  | BC.MutBorrowField idx => Some (true, false, idx) | BC.MutBorrowFieldGeneric idx => Some (true, true, idx)
  | BC.ImmBorrowField idx => Some (false, false, idx) | BC.ImmBorrowFieldGeneric idx => Some (false, true, idx)
  | _ => None
  end.

(** What the indexes of such instructions stand for: the definition and the type arguments. *)
Definition struct_ref (generic : bool) (idx : Z) (sd : StructDefinition) (type_args : Signature) : Prop :=
  if generic then
    ∃ si, View.struct_instantiation_at resolver idx = Ret (Ok si) ∧ View.struct_def_at resolver (si_def si) = Ret (Ok sd) ∧
      View.signature_at resolver (si_type_parameters si) = Ret type_args
  else View.struct_def_at resolver idx = Ret (Ok sd) ∧ type_args = [].
Definition field_ref (generic : bool) (idx : Z) (fh : FieldHandle) (type_args : Signature) : Prop :=
  if generic then
    ∃ fi, View.field_instantiation_at resolver idx = Ret (Ok fi) ∧ View.field_handle_at resolver (fdi_handle fi) = Ret (Ok fh) ∧
      View.signature_at resolver (fdi_type_parameters fi) = Ret type_args
  else View.field_handle_at resolver idx = Ret (Ok fh) ∧ type_args = [].
Definition call_ref (i : BC.Bytecode) (generic : bool) (fh : FunctionHandle) (type_args : Signature) : Prop :=
  match i with
  | BC.Call idx => generic = false ∧ View.function_handle_at resolver idx = Ret fh ∧ type_args = []
  | BC.CallGeneric idx =>
      generic = true ∧ ∃ fi, View.function_instantiation_at resolver idx = Ret fi ∧
        View.function_handle_at resolver (fi_handle fi) = Ret fh ∧ View.signature_at resolver (fi_type_parameters fi) = Ret type_args
  | _ => False
  end.

Definition struct_type (generic : bool) (sd : StructDefinition) (type_args : Signature) : SignatureToken :=
  if generic then TStructInstantiation (sd_struct_handle sd) type_args else TStruct (sd_struct_handle sd).
Definition type_of (generic : bool) (type_args : Signature) (ty : SignatureToken) : SignatureToken :=
  if generic then subst type_args ty else ty.
Definition fields_of (sd : StructDefinition) : option (list SignatureToken) :=
  match field_information sd with NativeFields => None | Declared fields => Some (fd_signature <$> fields) end.
Definition element (idx : Z) (ty : SignatureToken) : Prop :=
  ∃ sig, View.signature_at resolver idx = Ret sig ∧ at_index sig 0 = Ret ty.
Definition local (idx : Z) (ty : SignatureToken) : Prop := at_index (fv_parameters fv ++ fv_locals fv) idx = Ret ty.

(** [typed i σ σ']: [i] takes a stack of operands of the types [σ], the top first, to one of the
    types [σ']. *)
Inductive typed : BC.Bytecode → list SignatureToken → list SignatureToken → Prop :=
  | ty_pop t σ : able Drop t → typed BC.Pop (t :: σ) σ
  | ty_br_true o σ : typed (BC.BrTrue o) (TBool :: σ) σ
  | ty_br_false o σ : typed (BC.BrFalse o) (TBool :: σ) σ
  | ty_branch o σ : typed (BC.Branch o) σ σ
  | ty_nop σ : typed BC.Nop σ σ
  | ty_abort σ : typed BC.Abort (TU64 :: σ) σ
  | ty_ret σ : typed BC.Ret (rev (fv_return_ fv) ++ σ) σ
  | ty_literal i t σ : literal i = Some t → typed i σ (t :: σ)
  | ty_const idx c σ : View.constant_at resolver idx = Ret c → typed (BC.LdConst idx) σ (type_ c :: σ)
  | ty_st_loc idx t σ : local idx t → typed (BC.StLoc idx) (t :: σ) σ
  | ty_copy_loc idx t σ : local idx t → able Copy t → typed (BC.CopyLoc idx) σ (t :: σ)
  | ty_move_loc idx t σ : local idx t → typed (BC.MoveLoc idx) σ (t :: σ)
  | ty_mut_borrow_loc idx t σ : local idx t → Token.is_reference t = false → typed (BC.MutBorrowLoc idx) σ (TMutableReference t :: σ)
  | ty_imm_borrow_loc idx t σ : local idx t → Token.is_reference t = false → typed (BC.ImmBorrowLoc idx) σ (TReference t :: σ)
  | ty_freeze t σ : typed BC.FreezeRef (TMutableReference t :: σ) (TReference t :: σ)
  | ty_read r t σ : refers false r t → able Copy t → typed BC.ReadRef (r :: σ) (t :: σ)
  | ty_write t σ : able Drop t → typed BC.WriteRef (TMutableReference t :: t :: σ) σ
  | ty_cast i t t' σ : cast_to i = Some t' → Token.is_integer t = true → typed i (t :: σ) (t' :: σ)
  | ty_arithmetic i t σ : is_arithmetic i = true → Token.is_integer t = true → typed i (t :: t :: σ) (t :: σ)
  | ty_shl t σ : Token.is_integer t = true → typed BC.Shl (TU8 :: t :: σ) (t :: σ)
  | ty_shr t σ : Token.is_integer t = true → typed BC.Shr (TU8 :: t :: σ) (t :: σ)
  | ty_or σ : typed BC.Or (TBool :: TBool :: σ) (TBool :: σ)
  | ty_and σ : typed BC.And (TBool :: TBool :: σ) (TBool :: σ)
  | ty_not σ : typed BC.Not (TBool :: σ) (TBool :: σ)
  | ty_eq t σ : able Drop t → typed BC.Eq (t :: t :: σ) (TBool :: σ)
  | ty_neq t σ : able Drop t → typed BC.Neq (t :: t :: σ) (TBool :: σ)
  | ty_comparison i t σ : is_comparison i = true → Token.is_integer t = true → typed i (t :: t :: σ) (TBool :: σ)
  | ty_call i generic fh type_args ps rs σ :
      call_ref i generic fh type_args →
      View.signature_at resolver (fh_parameters fh) = Ret ps → View.signature_at resolver (fh_return_ fh) = Ret rs →
      typed i (rev (type_of generic type_args <$> ps) ++ σ) (rev (type_of generic type_args <$> rs) ++ σ)
  | ty_pack i generic idx sd type_args fs σ :
      struct_op i = Some (OpPack, generic, idx) → struct_ref generic idx sd type_args → fields_of sd = Some fs →
      typed i (rev (type_of generic type_args <$> fs) ++ σ) (struct_type generic sd type_args :: σ)
  | ty_unpack i generic idx sd type_args fs σ :
      struct_op i = Some (OpUnpack, generic, idx) → struct_ref generic idx sd type_args → fields_of sd = Some fs →
      typed i (struct_type generic sd type_args :: σ) (rev (type_of generic type_args <$> fs) ++ σ)
  | ty_exists i generic idx sd type_args σ :
      struct_op i = Some (OpExists, generic, idx) → struct_ref generic idx sd type_args → able Key (struct_type generic sd type_args) →
      typed i (TAddress :: σ) (TBool :: σ)
  | ty_move_from i generic idx sd type_args σ :
      struct_op i = Some (OpMoveFrom, generic, idx) → struct_ref generic idx sd type_args → able Key (struct_type generic sd type_args) →
      typed i (TAddress :: σ) (struct_type generic sd type_args :: σ)
  | ty_move_to i generic idx sd type_args σ :
      struct_op i = Some (OpMoveTo, generic, idx) → struct_ref generic idx sd type_args → able Key (struct_type generic sd type_args) →
      typed i (struct_type generic sd type_args :: TReference TSigner :: σ) σ
  | ty_borrow_global i mut_ generic idx sd type_args σ :
      struct_op i = Some (OpBorrow mut_, generic, idx) → struct_ref generic idx sd type_args → able Key (struct_type generic sd type_args) →
      typed i (TAddress :: σ) (TypeSafety.ref_to mut_ (struct_type generic sd type_args) :: σ)
  | ty_borrow_field i mut_ generic idx fh sd type_args fs t r σ :
      field_op i = Some (mut_, generic, idx) → field_ref generic idx fh type_args →
      View.struct_def_at resolver (owner fh) = Ret (Ok sd) → fields_of sd = Some fs → at_index fs (field fh) = Ret t →
      refers mut_ r (struct_type generic sd type_args) →
      typed i (r :: σ) (TypeSafety.ref_to mut_ (type_of generic type_args t) :: σ)
  | ty_vec_pack idx n t σ : element idx t → typed (BC.VecPack idx n) (replicate (Z.to_nat n) t ++ σ) (TVector t :: σ)
  | ty_vec_unpack idx n t σ : element idx t → typed (BC.VecUnpack idx n) (TVector t :: σ) (replicate (Z.to_nat n) t ++ σ)
  | ty_vec_len idx t r σ : element idx t → refers false r (TVector t) → typed (BC.VecLen idx) (r :: σ) (TU64 :: σ)
  | ty_vec_imm_borrow idx t r σ :
      element idx t → refers false r (TVector t) → typed (BC.VecImmBorrow idx) (TU64 :: r :: σ) (TReference t :: σ)
  | ty_vec_mut_borrow idx t r σ :
      element idx t → refers true r (TVector t) → typed (BC.VecMutBorrow idx) (TU64 :: r :: σ) (TMutableReference t :: σ)
  | ty_vec_push_back idx t r σ : element idx t → refers true r (TVector t) → typed (BC.VecPushBack idx) (t :: r :: σ) σ
  | ty_vec_pop_back idx t r σ : element idx t → refers true r (TVector t) → typed (BC.VecPopBack idx) (r :: σ) (t :: σ)
  | ty_vec_swap idx t r σ : element idx t → refers true r (TVector t) → typed (BC.VecSwap idx) (TU64 :: TU64 :: r :: σ) σ.

(** ** What is known of an instruction before its types are checked *)

Definition struct_ok (sd : StructDefinition) (type_args : Signature) : Prop :=
  node_ok resolver scope (TStruct (sd_struct_handle sd)) ∧
  ∀ fs, fields_of sd = Some fs → Forall (wt resolver (length type_args)) fs ∧ Z.of_nat (length fs) < U64_MOD.
Definition field_ok (fh : FieldHandle) (type_args : Signature) : Prop :=
  safe (View.struct_def_at resolver (owner fh)) (λ sd,
    struct_ok sd type_args ∧ ∀ fs, fields_of sd = Some fs → ∃ t, at_index fs (field fh) = Ret t).
Definition args_ok (idx : Z) (type_args : Signature) : Prop :=
  View.signature_at resolver idx = Ret type_args ∧ type_args ≠ [] ∧ Forall (wt resolver scope) type_args.
Definition call_ok (fh : FunctionHandle) (type_args : Signature) : Prop :=
  ∃ ps rs, View.signature_at resolver (fh_parameters fh) = Ret ps ∧ View.signature_at resolver (fh_return_ fh) = Ret rs ∧
    Forall (wt resolver (length type_args)) (ps ++ rs) ∧ Z.of_nat (length ps) < U64_MOD ∧ Z.of_nat (length rs) < U64_MOD.

(** The lookups of an instruction do not panic, generic ones have type arguments, and all types are
    known and in scope. *)
Definition instr_ok (i : BC.Bytecode) : Prop :=
  match i with
  | BC.CopyLoc idx | BC.MoveLoc idx | BC.StLoc idx | BC.MutBorrowLoc idx | BC.ImmBorrowLoc idx =>
      ∃ t, local idx t ∧ wt resolver scope t
  | BC.LdConst idx => ∃ c, View.constant_at resolver idx = Ret c ∧ wt resolver scope (type_ c)
  | BC.Call idx => ∃ fh, View.function_handle_at resolver idx = Ret fh ∧ call_ok fh []
  | BC.CallGeneric idx => ∃ fi fh type_args, View.function_instantiation_at resolver idx = Ret fi ∧
      View.function_handle_at resolver (fi_handle fi) = Ret fh ∧ args_ok (fi_type_parameters fi) type_args ∧ call_ok fh type_args
  | BC.Pack idx | BC.Unpack idx | BC.ExistsDeprecated idx | BC.MoveFromDeprecated idx | BC.MoveToDeprecated idx
  | BC.MutBorrowGlobalDeprecated idx | BC.ImmBorrowGlobalDeprecated idx =>
      safe (View.struct_def_at resolver idx) (λ sd, struct_ok sd [])
  | BC.PackGeneric idx | BC.UnpackGeneric idx | BC.ExistsGenericDeprecated idx | BC.MoveFromGenericDeprecated idx
  | BC.MoveToGenericDeprecated idx | BC.MutBorrowGlobalGenericDeprecated idx | BC.ImmBorrowGlobalGenericDeprecated idx =>
      safe (View.struct_instantiation_at resolver idx) (λ si, ∃ type_args, args_ok (si_type_parameters si) type_args ∧
        safe (View.struct_def_at resolver (si_def si)) (λ sd, struct_ok sd type_args))
  | BC.MutBorrowField idx | BC.ImmBorrowField idx => safe (View.field_handle_at resolver idx) (λ fh, field_ok fh [])
  | BC.MutBorrowFieldGeneric idx | BC.ImmBorrowFieldGeneric idx =>
      safe (View.field_instantiation_at resolver idx) (λ fi, ∃ type_args, args_ok (fdi_type_parameters fi) type_args ∧
        safe (View.field_handle_at resolver (fdi_handle fi)) (λ fh, field_ok fh type_args))
  | BC.VecPack idx n | BC.VecUnpack idx n => (∃ t, element idx t ∧ wt resolver scope t) ∧ 0 <= n < U64_MOD
  | BC.VecLen idx | BC.VecImmBorrow idx | BC.VecMutBorrow idx | BC.VecPushBack idx | BC.VecPopBack idx | BC.VecSwap idx =>
      ∃ t, element idx t ∧ wt resolver scope t
  | _ => True
  end.
End rules.
