(* ===== verification/TypeCheck.v ===== *)
(** The type check of function bodies follows the typing rules: what it accepts is typed, and it accepts
    what is typed. *)
From S2P Require Import Prelude MoveFormat BinaryFormat Serializer CheckBounds Deserializer Codec TokenCodec BoundsSafety Totality ControlFlowGraph AbsInt AbstractStack StackUsage TypeSafety TypingRules.
Import TypeSafety.

Section check.
Context {M : Type} `{!Meter M} (resolver : BinaryIndexedView) (fv : FunctionView).
Abbreviation TS := (ST (AbstractStack SignatureToken * M) StatusCode).
Abbreviation scope := (length (fv_type_parameters fv)).
Abbreviation state := (AbstractStack SignatureToken * M)%type.
Abbreviation typed := (TypingRules.typed resolver fv).
Abbreviation wt := (TypingRules.wt resolver scope).

(** * What a computation does to the plain stack *)

Definition flat (s : state) : list SignatureToken := flatten (values s.1).

(** [m], run on a stack [σ], returns, and what it returns, unless it is an error, has [Φ]. *)
Definition wp {A} (m : TS A) (σ : list SignatureToken) (Φ : A → list SignatureToken → Prop) : Prop :=
  ∀ s : state, stack_ok s.1 → flat s = σ → ∃ r s', m s = Ret (r, s') ∧ ∀ a, r = Ok a → stack_ok s'.1 ∧ Φ a (flat s').

(** [m] takes the stack [σ] to [σ'] and returns [a]. *)
Definition succeeds {A} (m : TS A) (σ : list SignatureToken) (a : A) (σ' : list SignatureToken) : Prop :=
  ∀ s : state, stack_ok s.1 → flat s = σ → ∃ s', m s = Ret (Ok a, s') ∧ stack_ok s'.1 ∧ flat s' = σ'.

Lemma wp_ret {A} (a : A) σ (Φ : A → list SignatureToken → Prop) : Φ a σ → wp (mret a) σ Φ.
Proof. intros HΦ s Hs <-. exists (Ok a), s. split; [done|]. by intros ? [= <-]. Qed.
Lemma wp_bind {A B} (m : TS A) (k : A → TS B) σ Φ : wp m σ (λ a σ', wp (k a) σ' Φ) → wp (m ≫= k) σ Φ.
Proof.
  intros Hm s Hs Hσ. destruct (Hm s Hs Hσ) as (r & s' & Hrun & Hk). unfold mbind, st_bind. rewrite Hrun. destruct r as [a|e]; [|by eexists _, _].
  destruct (Hk a eq_refl) as [Hs' Hk']. by apply Hk'.
Qed.
Lemma wp_throw {A} e σ (Φ : A → list SignatureToken → Prop) : wp (throw e) σ Φ.
Proof. intros s Hs _. by exists (Err e), s. Qed.
Lemma wp_fail_if b e σ Φ : (b = false → Φ tt σ) → wp (fail_if b e) σ Φ.
Proof. destruct b; intros HΦ; [apply wp_throw|by apply wp_ret, HΦ]. Qed.
Lemma wp_lift_o {A} (m : outcome A) a σ (Φ : A → list SignatureToken → Prop) : m = Ret a → Φ a σ → wp (lift_o m) σ Φ.
Proof. intros -> HΦ s Hs <-. exists (Ok a), s. split; [done|]. by intros ? [= <-]. Qed.
Lemma wp_lift_vm {A} (m : VMResult A) P σ (Φ : A → list SignatureToken → Prop) :
  safe m P → (∀ a, m = Ret (Ok a) → P a → Φ a σ) → wp (lift_vm m) σ Φ.
Proof. intros (r & -> & HP) HΦ s Hs <-. exists r, s. split; [done|]. intros a ->. split; [done|]. by apply HΦ, HP. Qed.
Lemma wp_mono {A} (m : TS A) σ (Φ Ψ : A → list SignatureToken → Prop) : wp m σ Φ → (∀ a σ', Φ a σ' → Ψ a σ') → wp m σ Ψ.
Proof. intros Hm HΦ s Hs Hσ. destruct (Hm s Hs Hσ) as (r & s' & ? & Hr). exists r, s'. split; [done|]. intros a Ha. destruct (Hr a Ha). auto. Qed.

Lemma succeeds_ret {A} (a : A) σ : succeeds (mret a) σ a σ.
Proof. intros s Hs Hσ. by exists s. Qed.
Lemma succeeds_bind {A B} (m : TS A) (k : A → TS B) σ a σ1 b σ2 : succeeds m σ a σ1 → succeeds (k a) σ1 b σ2 → succeeds (m ≫= k) σ b σ2.
Proof. intros Hm Hk s Hs Hσ. destruct (Hm s Hs Hσ) as (s1 & Hrun & Hs1 & Hσ1). unfold mbind, st_bind. rewrite Hrun. by apply Hk. Qed.
Lemma succeeds_lift_o {A} (m : outcome A) a σ : m = Ret a → succeeds (lift_o m) σ a σ.
Proof. intros -> s Hs Hσ. by exists s. Qed.
Lemma succeeds_lift_vm {A} (m : VMResult A) a σ : m = Ret (Ok a) → succeeds (lift_vm m) σ a σ.
Proof. intros -> s Hs Hσ. by exists s. Qed.
Lemma succeeds_fail_if b e σ : b = false → succeeds (fail_if b e) σ tt σ.
Proof. intros ->. apply succeeds_ret. Qed.

(** ** The stack *)

Lemma pop_eq_run n (s : state) : stack_ok s.1 → 0 < n < U64_MOD →
  (∃ t σ' st, flat s = replicate (Z.to_nat n) t ++ σ' ∧ AbsStack.pop_eq_n n s.1 = Ret (Ok t, st) ∧ stack_ok st ∧ flatten (values st) = σ') ∨
  (∃ e st, AbsStack.pop_eq_n n s.1 = Ret (Err e, st) ∧ ∀ t σ', flat s ≠ replicate (Z.to_nat n) t ++ σ').
Proof.
  intros Hs Hn. destruct (pop_eq_ok n s.1 Hs Hn) as (st & Hrun & Hst & Hflat). cbn [run_op spec_op] in *. fold (flat s) in *.
  unfold mbind, st_bind, mret, st_ret in Hrun. destruct (AbsStack.pop_eq_n n s.1) as [[[t|e] st']| |] eqn:Hp; try done.
  - left. case_decide as Hlen; [by cbn in Hrun|]. destruct (take (Z.to_nat n) (flat s)) as [|x rest] eqn:Htake; [by cbn in Hrun|].
    destruct (forallb _ rest) eqn:Hall; [|by cbn in Hrun]. cbn in Hrun, Hflat. injection Hrun as <- <-. exists t, (drop (Z.to_nat n) (flat s)), st'.
    split; [|done]. rewrite <- (take_drop (Z.to_nat n) (flat s)) at 1. f_equal. rewrite Htake.
    assert (length (t :: rest) = Z.to_nat n) as Hl by (rewrite <- Htake, length_take; lia). rewrite <- Hl. cbn [length replicate]. f_equal.
    symmetry. apply replicate_as_Forall_2; [done|]. apply Is_true_true, forallb_True in Hall. eapply Forall_impl; [exact Hall|]. intros y Hy. by apply bool_decide_unpack in Hy.
  - right. exists e, st'. split; [done|]. intros t σ' Hσ. rewrite Hσ in *. case_decide as Hlen; [rewrite length_app, length_replicate in Hlen; lia|].
    rewrite take_app_length' in Hrun by (symmetry; apply length_replicate). destruct (Z.to_nat n) as [|k] eqn:Hk; [lia|]. cbn [replicate] in *.
    replace (forallb (λ y, bool_decide (y = t)) (replicate k t)) with true in Hrun; [done|]. symmetry. clear.
    induction k; cbn; [done|]. by rewrite bool_decide_eq_true_2.
Qed.

Lemma pop_run (s : state) t σ : stack_ok s.1 → flat s = t :: σ → ∃ st, pop s = Ret (Ok t, (st, s.2)) ∧ stack_ok st ∧ flatten (values st) = σ.
Proof.
  intros Hs Hσ. unfold pop, on_stack, AbsStack.pop.
  destruct (pop_eq_run 1 s Hs ltac:(unfold U64_MOD; lia)) as [(t' & σ' & st & Hf & -> & ? & ?)|(e & st & _ & Hno)].
  - rewrite Hσ in Hf. cbn in Hf. injection Hf as -> ->. by exists st.
  - by destruct (Hno t σ).
Qed.

Lemma wp_pop σ Φ : (∀ t σ', σ = t :: σ' → Φ t σ') → wp pop σ Φ.
Proof.
  intros HΦ s Hs <-. destruct (flat s) as [|t σ] eqn:Hσ.
  - unfold pop, on_stack, AbsStack.pop.
    destruct (pop_eq_run 1 s Hs ltac:(unfold U64_MOD; lia)) as [(t' & σ' & st & Hf & _)|(e & st & -> & _)]; [by rewrite Hσ in Hf|]. by eexists _, _.
  - destruct (pop_run s t σ Hs Hσ) as (st & -> & Hst & Hf). eexists _, _. split; [done|]. intros ? [= <-]. split; [done|]. unfold flat. cbn [fst]. rewrite Hf. by apply HΦ.
Qed.
Lemma succeeds_pop t σ : succeeds pop (t :: σ) t σ.
Proof. intros s Hs Hσ. destruct (pop_run s t σ Hs Hσ) as (st & -> & Hst & Hf). by eexists. Qed.

Lemma charge_ty_run ty (s : state) : ∃ r μ, charge_ty ty s = Ret (r, (s.1, μ)).
Proof.
  unfold charge_ty, charge_ty_, mbind, st_bind. rewrite traversal_eq. cbn [lift_o]. unfold Interpreter.add_items. case_match; [destruct s; by eexists _, _|].
  unfold Interpreter.charge. destruct (meter_add _ _ _); [by eexists _, _|]. destruct s. by eexists _, _.
Qed.

Lemma push_n_run n t (s : state) : stack_ok s.1 → 0 <= n < U64_MOD →
  ∃ r st, AbsStack.push_n t n s.1 = Ret (r, st) ∧ stack_ok st ∧
    (∀ u, r = Ok u → flatten (values st) = replicate (Z.to_nat n) t ++ flat s) ∧ (Z.of_nat (length (flat s)) + n < U64_MOD → r = Ok tt).
Proof.
  intros Hs Hn. destruct (push_ok t n s.1 Hs Hn) as (st & Hrun & Hst & Hflat). cbn [run_op spec_op] in *. fold (flat s) in *.
  unfold mbind, st_bind, mret, st_ret in Hrun. destruct (AbsStack.push_n t n s.1) as [[[[]|e] st']| |] eqn:Hp; try done; case_decide as Hd; cbn in Hrun, Hflat; simplify_eq.
  - exists (Ok tt), st. split_and!; [done..|by intros _ _|done].
  - exists (Err Overflow), st. split_and!; [done..|by intros ? [=]|lia].
Qed.

Lemma wp_push_n t n σ (Φ : unit → list SignatureToken → Prop) : 0 <= n < U64_MOD → Φ tt (replicate (Z.to_nat n) t ++ σ) → wp (push_n t n) σ Φ.
Proof.
  intros Hn HΦ s Hs Hσ. unfold push_n, mbind, st_bind. destruct (charge_ty_run t s) as (r & μ & ->). destruct r as [[]|e]; [|by eexists _, _].
  unfold on_stack. cbn [fst]. destruct (push_n_run n t s Hs Hn) as (r & st & -> & Hst & Hf & _). destruct r as [[]|e]; [|by eexists _, _].
  eexists _, _. split; [done|]. intros [] _. split; [done|]. unfold flat in *. cbn [fst]. rewrite (Hf tt eq_refl). by subst σ.
Qed.
Lemma wp_push t σ (Φ : unit → list SignatureToken → Prop) : Φ tt (t :: σ) → wp (push t) σ Φ.
Proof. apply (wp_push_n t 1). unfold U64_MOD. lia. Qed.

(** A meter that never refuses. *)
Definition unmetered : Prop := ∀ scope units (μ : M), ∃ μ', meter_add scope units μ = Ok μ'.

Lemma charge_ty_free ty (s : state) : unmetered → ∃ μ, charge_ty ty s = Ret (Ok tt, (s.1, μ)).
Proof.
  intros Hfree. unfold charge_ty, charge_ty_, mbind, st_bind. rewrite traversal_eq. cbn [lift_o]. unfold Interpreter.add_items. case_match; [destruct s; by eexists|].
  unfold Interpreter.charge. edestruct Hfree as [μ' ->]. by eexists.
Qed.
Lemma succeeds_push_n t n σ : unmetered → 0 <= n < U64_MOD → Z.of_nat (length σ) + n < U64_MOD →
  succeeds (push_n t n) σ tt (replicate (Z.to_nat n) t ++ σ).
Proof.
  intros Hfree Hn Hlen s Hs Hσ. unfold push_n, mbind, st_bind. destruct (charge_ty_free t s Hfree) as [μ ->]. unfold on_stack. cbn [fst].
  subst σ. destruct (push_n_run n t s Hs Hn) as (r & st & -> & Hst & Hf & Hok). rewrite (Hok Hlen). eexists. split; [done|]. split; [done|].
  unfold flat at 1. cbn [fst]. by apply (Hf tt), Hok.
Qed.
Lemma succeeds_push t σ : unmetered → Z.of_nat (length (t :: σ)) < U64_MOD → succeeds (push t) σ tt (t :: σ).
Proof. intros Hfree Hlen. apply (succeeds_push_n t 1); [done|unfold U64_MOD; lia|]. cbn [length] in Hlen. lia. Qed.
Lemma succeeds_charge_tys tys σ : unmetered → succeeds (charge_tys tys) σ tt σ.
Proof.
  intros Hfree. induction tys as [|ty tys IH]; [apply succeeds_ret|]. cbn [charge_tys]. eapply succeeds_bind; [|exact IH].
  intros s Hs Hσ. destruct (charge_ty_free ty s Hfree) as [μ Hc]. by exists (s.1, μ).
Qed.
Lemma wp_charge_tys tys σ (Φ : unit → list SignatureToken → Prop) : Φ tt σ → wp (charge_tys tys) σ Φ.
Proof.
  intros HΦ. induction tys as [|ty tys IH]; [by apply wp_ret|]. cbn [charge_tys]. apply wp_bind. intros s Hs Hσ.
  destruct (charge_ty_run ty s) as (r & μ & Hc). exists r, (s.1, μ). split; [done|]. intros [] _. split; [done|]. unfold flat in *. cbn [fst] in *. by rewrite Hσ.
Qed.

(** ** Lookups and groups of operands *)

Lemma local_at_eq idx : local_at fv idx = at_index (fv_parameters fv ++ fv_locals fv) idx.
Proof.
  unfold local_at, at_index. destruct (Z.ltb_spec idx (Z.of_nat (length (fv_parameters fv)))); case_match; try done; try lia.
  - by rewrite lookup_app_l by lia.
  - case_match; [lia|]. rewrite lookup_app_r by lia. do 2 f_equal. lia.
Qed.

Lemma wp_abilities ty σ Φ : wt ty → (∀ a, View.abilities resolver ty (fv_type_parameters fv) = Ret (Ok a) → Φ a σ) → wp (abilities resolver fv ty) σ Φ.
Proof.
  intros Hty HΦ. apply (wp_lift_vm _ (λ _, True)).
  - destruct (abilities_defined resolver _ ty Hty) as [r Hr]. by exists r.
  - intros a Ha _. by apply HΦ.
Qed.

Lemma wp_pop_all sigs e σ (Φ : unit → list SignatureToken → Prop) : (∀ σ', σ = sigs ++ σ' → Φ tt σ') → wp (pop_all sigs e) σ Φ.
Proof.
  revert σ. induction sigs as [|sig sigs IH]; intros σ HΦ; cbn [pop_all]; [by apply wp_ret, HΦ|].
  apply wp_bind, wp_pop. intros t σ1 ->. apply wp_bind, wp_fail_if. intros Heq%negb_false_iff%bool_decide_eq_true. subst t.
  apply IH. intros σ' ->. by apply HΦ.
Qed.
Lemma succeeds_pop_all sigs e σ : succeeds (pop_all sigs e) (sigs ++ σ) tt σ.
Proof.
  induction sigs as [|sig sigs IH]; cbn [pop_all app]; [apply succeeds_ret|]. eapply succeeds_bind; [apply succeeds_pop|].
  eapply succeeds_bind; [|exact IH]. apply succeeds_fail_if. by rewrite bool_decide_eq_true_2.
Qed.
Lemma wp_push_all sigs σ (Φ : unit → list SignatureToken → Prop) : Φ tt (rev sigs ++ σ) → wp (push_all sigs) σ Φ.
Proof.
  revert σ. induction sigs as [|sig sigs IH]; intros σ HΦ; cbn [push_all]; [by apply wp_ret|].
  apply wp_bind, wp_push, IH. cbn [rev] in HΦ. by rewrite <- app_assoc in HΦ.
Qed.
Lemma succeeds_push_all sigs σ : unmetered → Z.of_nat (length (rev sigs ++ σ)) < U64_MOD → succeeds (push_all sigs) σ tt (rev sigs ++ σ).
Proof.
  intros Hfree. revert σ. induction sigs as [|sig sigs IH]; intros σ Hlen; cbn [push_all rev app]; [apply succeeds_ret|].
  cbn [rev] in Hlen. rewrite <- app_assoc in *. eapply succeeds_bind; [|by apply IH]. apply succeeds_push; [done|]. rewrite length_app in Hlen. cbn [app length] in *. lia.
Qed.

(** The type arguments of a plain or a generic instruction. *)
Definition args_for (generic : bool) (type_args : Signature) : Prop :=
  if generic then type_args ≠ [] ∧ Forall wt type_args else type_args = [].

Lemma instantiate_eq generic type_args ty : args_for generic type_args → TypingRules.wt resolver (length type_args) ty →
  instantiate ty type_args = Ret (type_of generic type_args ty).
Proof. destruct generic; cbn; [intros [] ?; by eapply instantiate_subst|intros -> _; apply instantiate_nil]. Qed.
Lemma wt_type_of generic type_args ty : args_for generic type_args → TypingRules.wt resolver (length type_args) ty → wt (type_of generic type_args ty).
Proof. destruct generic; cbn; [intros []; by apply wt_subst|intros ->]. apply wt_weaken. cbn. lia. Qed.
Lemma materialize_eq generic type_args sd : args_for generic type_args → materialize_type (sd_struct_handle sd) type_args = struct_type generic sd type_args.
Proof. destruct generic; cbn; [by intros [? _]; destruct type_args|by intros ->]. Qed.
Lemma wt_struct_type generic type_args sd : args_for generic type_args → struct_ok resolver fv sd type_args → wt (struct_type generic sd type_args).
Proof. intros Hargs [Hsh _]. apply wt_eq. destruct generic; cbn in *; [by destruct Hargs|done]. Qed.

Lemma wp_pop_args generic type_args params σ (Φ : unit → list SignatureToken → Prop) :
  args_for generic type_args → Forall (TypingRules.wt resolver (length type_args)) params →
  (∀ σ', σ = (type_of generic type_args <$> params) ++ σ' → Φ tt σ') → wp (pop_args params type_args) σ Φ.
Proof.
  intros Hargs Hps. revert σ. induction Hps as [|param params Hp _ IH]; intros σ HΦ; cbn [pop_args]; [by apply wp_ret, HΦ|].
  apply wp_bind, wp_pop. intros t σ1 ->. apply wp_bind. apply wp_mono with (λ bad σ', σ' = σ1 ∧ bad = negb (bool_decide (t = type_of generic type_args param))).
  - destruct type_args as [|a args] eqn:Ha; rewrite <- Ha in *.
    + apply wp_ret. split; [done|]. destruct generic; [by destruct Hargs|done].
    + apply wp_bind. eapply wp_lift_o; [by apply instantiate_eq|]. by apply wp_ret.
  - intros bad σ' [-> ->]. apply wp_bind, wp_fail_if. intros Heq%negb_false_iff%bool_decide_eq_true. subst t. apply IH. intros σ' ->. by apply HΦ.
Qed.
Lemma succeeds_pop_args generic type_args params σ :
  args_for generic type_args → Forall (TypingRules.wt resolver (length type_args)) params →
  succeeds (pop_args params type_args) ((type_of generic type_args <$> params) ++ σ) tt σ.
Proof.
  intros Hargs. induction 1 as [|param params Hp _ IH]; cbn [pop_args fmap list_fmap app]; [apply succeeds_ret|].
  eapply succeeds_bind; [apply succeeds_pop|]. eapply (succeeds_bind _ _ _ false); [|eapply succeeds_bind; [by apply succeeds_fail_if|exact IH]].
  destruct type_args as [|a args] eqn:Ha; rewrite <- Ha in *.
  - destruct generic; [by destruct Hargs|]. cbn [type_of]. rewrite bool_decide_eq_true_2 by done. apply succeeds_ret.
  - eapply succeeds_bind; [by apply succeeds_lift_o, instantiate_eq|]. rewrite bool_decide_eq_true_2 by done. apply succeeds_ret.
Qed.

Lemma push_instantiated_eq generic type_args tys s : args_for generic type_args → Forall (TypingRules.wt resolver (length type_args)) tys →
  push_instantiated tys type_args s = push_all (type_of generic type_args <$> tys) s.
Proof.
  intros Hargs Htys. revert s. induction Htys as [|ty tys Hty _ IH]; intros s; [done|]. cbn [push_instantiated push_all fmap list_fmap].
  unfold mbind, st_bind at 1. rewrite (instantiate_eq _ _ _ Hargs Hty). cbn [lift_o]. unfold st_bind. destruct (push _ s) as [[[] s']| |]; [apply IH|done..].
Qed.

Lemma fields_signature_eq generic type_args sd fs (s : state) : args_for generic type_args → struct_ok resolver fv sd type_args → fields_of sd = Some fs →
  type_fields_signature sd type_args s = Ret (Ok (type_of generic type_args <$> fs), s).
Proof.
  intros Hargs [_ Hfs] Hf. destruct (Hfs fs Hf) as [Hwt _]. unfold fields_of, type_fields_signature in *. destruct (field_information sd) as [|fields]; [done|].
  injection Hf as <-. rewrite Forall_fmap in Hwt. rewrite (mapM_outcome _ (λ f, type_of generic type_args (fd_signature f))).
  - cbn [lift_o]. do 3 f_equal. by rewrite <- list_fmap_compose.
  - eapply Forall_impl; [exact Hwt|]. intros f Hf. cbn in *. by apply instantiate_eq.
Qed.

Lemma refers_vector operand mut_ t : get_vector_element_type operand mut_ = Some t ↔ refers mut_ operand (TVector t).
Proof.
  unfold refers. split.
  - destruct operand as [| | | | | |x|x|x y|x|x|x| | |]; cbn; try done; [destruct mut_; [done|]|]; destruct x; try done; intros [= ->]; auto.
  - by intros [->|[-> ->]].
Qed.
Lemma wp_expect_vector operand mut_ t σ (Φ : unit → list SignatureToken → Prop) :
  (refers mut_ operand (TVector t) → Φ tt σ) → wp (expect_vector operand mut_ t) σ Φ.
Proof.
  intros HΦ. unfold expect_vector. destruct (get_vector_element_type operand mut_) as [ty|] eqn:Hv; [|apply wp_throw].
  apply wp_fail_if. intros Heq%negb_false_iff%bool_decide_eq_true. subst ty. by apply HΦ, refers_vector.
Qed.
Lemma succeeds_expect_vector operand mut_ t σ : refers mut_ operand (TVector t) → succeeds (expect_vector operand mut_ t) σ tt σ.
Proof. intros Hr%refers_vector. unfold expect_vector. rewrite Hr. apply succeeds_fail_if. by rewrite bool_decide_eq_true_2. Qed.

Lemma wp_element idx t σ Φ : element resolver idx t → Φ t σ → wp (element_type resolver idx) σ Φ.
Proof. intros (sig & Hsig & Ht) HΦ. apply wp_bind. eapply wp_lift_o; [done|]. by eapply wp_lift_o. Qed.
Lemma succeeds_element idx t σ : element resolver idx t → succeeds (element_type resolver idx) σ t σ.
Proof. intros (sig & Hsig & Ht). eapply succeeds_bind; by apply succeeds_lift_o. Qed.

Lemma wp_type_args idx type_args σ Φ : args_ok resolver fv idx type_args → Φ type_args σ → wp (type_args_at resolver idx) σ Φ.
Proof. intros (Hsig & _) HΦ. apply wp_bind. eapply wp_lift_o; [done|]. apply wp_bind, wp_charge_tys. by apply wp_ret. Qed.
Lemma succeeds_type_args idx type_args σ : unmetered → View.signature_at resolver idx = Ret type_args → succeeds (type_args_at resolver idx) σ type_args σ.
Proof. intros Hfree Hsig. eapply succeeds_bind; [by apply succeeds_lift_o|]. eapply succeeds_bind; [by apply succeeds_charge_tys|apply succeeds_ret]. Qed.

(** * What is accepted is typed *)

Definition post (i : BC.Bytecode) (σ : list SignatureToken) : unit → list SignatureToken → Prop := λ _ σ', typed i σ σ' ∧ Forall wt σ'.

Lemma able_intro a ty s : View.abilities resolver ty (fv_type_parameters fv) = Ret (Ok s) → negb (Abilities.has_ability s a) = false → able resolver fv a ty.
Proof. intros Hs Ha%negb_false_iff. by exists s. Qed.

Lemma wt_types generic type_args tys : args_for generic type_args → Forall (TypingRules.wt resolver (length type_args)) tys → Forall wt (rev (type_of generic type_args <$> tys)).
Proof.
  intros Hargs Htys. apply Forall_rev. rewrite Forall_fmap. eapply Forall_impl; [exact Htys|]. intros ty Hty. by apply wt_type_of.
Qed.

Lemma wp_fields generic type_args sd σ Φ : args_for generic type_args → struct_ok resolver fv sd type_args →
  (∀ fs, fields_of sd = Some fs → Φ (type_of generic type_args <$> fs) σ) → wp (type_fields_signature sd type_args) σ Φ.
Proof.
  intros Hargs Hok HΦ s Hs Hf. destruct (fields_of sd) as [fs|] eqn:Hfs.
  - rewrite (fields_signature_eq generic type_args sd fs s Hargs Hok Hfs). eexists _, _. split; [done|]. intros ? [= <-]. split; [done|]. rewrite Hf. by apply HΦ.
  - unfold fields_of, type_fields_signature in *. destruct (field_information sd); [|done]. by eexists _, _.
Qed.

Section struct_ops.
Context (i : BC.Bytecode) (generic : bool) (idx : Z) (sd : StructDefinition) (type_args : Signature) (σ : list SignatureToken).
Hypothesis Hargs : args_for generic type_args.
Hypothesis Hok : struct_ok resolver fv sd type_args.
Hypothesis Href : struct_ref resolver generic idx sd type_args.
Hypothesis Hσ : Forall wt σ.

Lemma wp_pack : struct_op i = Some (OpPack, generic, idx) → wp (pack sd type_args) σ (post i σ).
Proof using All.
  intros Hop. unfold pack. apply wp_bind, (wp_fields generic); [done..|]. intros fs Hfs. apply wp_bind, wp_pop_all. intros σ' Heq. rewrite (materialize_eq generic) by done.
  apply wp_push. subst σ. apply Forall_app in Hσ as [_ Hσ']. split; [by eapply ty_pack|]. constructor; [by apply wt_struct_type|done].
Qed.
Lemma wp_unpack : struct_op i = Some (OpUnpack, generic, idx) → wp (unpack sd type_args) σ (post i σ).
Proof using All.
  intros Hop. unfold unpack. apply wp_bind, wp_pop. intros t σ' Heq. rewrite (materialize_eq generic) by done.
  apply wp_bind, wp_fail_if. intros Ht%negb_false_iff%bool_decide_eq_true. subst t. apply wp_bind, (wp_fields generic); [done..|]. intros fs Hfs.
  apply wp_push_all. rewrite Heq in *. apply Forall_cons in Hσ as [_ Hσ']. split; [by eapply ty_unpack|].
  apply Forall_app. split; [|done]. destruct Hok as [_ Hf]. destruct (Hf fs Hfs). by apply wt_types.
Qed.
Lemma wp_exists : struct_op i = Some (OpExists, generic, idx) → wp (exists_ resolver fv sd type_args) σ (post i σ).
Proof using All.
  intros Hop. unfold exists_. rewrite (materialize_eq generic) by done. apply wp_bind, wp_abilities; [by apply wt_struct_type|]. intros a Ha.
  apply wp_bind, wp_fail_if. intros Hk. apply wp_bind, wp_pop. intros t σ' Heq. apply wp_bind, wp_fail_if. intros Ht%negb_false_iff%bool_decide_eq_true.
  apply wp_push. rewrite Heq in *. subst t. apply Forall_cons in Hσ as [_ Hσ']. split; [eapply ty_exists; by eauto using able_intro|]. by constructor; [apply wt_eq|].
Qed.
Lemma wp_move_from : struct_op i = Some (OpMoveFrom, generic, idx) → wp (move_from resolver fv sd type_args) σ (post i σ).
Proof using All.
  intros Hop. unfold move_from. rewrite (materialize_eq generic) by done. apply wp_bind, wp_abilities; [by apply wt_struct_type|]. intros a Ha.
  apply wp_bind, wp_fail_if. intros Hk. apply wp_bind, wp_pop. intros t σ' Heq. apply wp_bind, wp_fail_if. intros Ht%negb_false_iff%bool_decide_eq_true.
  apply wp_push. rewrite Heq in *. subst t. apply Forall_cons in Hσ as [_ Hσ']. split; [eapply ty_move_from; by eauto using able_intro|].
  by constructor; [apply wt_struct_type|].
Qed.
Lemma wp_move_to : struct_op i = Some (OpMoveTo, generic, idx) → wp (move_to resolver fv sd type_args) σ (post i σ).
Proof using All.
  intros Hop. unfold move_to. rewrite (materialize_eq generic) by done. apply wp_bind, wp_abilities; [by apply wt_struct_type|]. intros a Ha.
  apply wp_bind, wp_fail_if. intros Hk. apply wp_bind, wp_pop. intros t σ' Heq. apply wp_bind, wp_pop. intros r σ1 Heq'.
  apply wp_bind, wp_fail_if. intros Ht%negb_false_iff%bool_decide_eq_true. subst t σ'.
  destruct r as [| | | | | |x|x|x y|[]|x|x| | |]; try apply wp_throw. apply wp_ret. rewrite Heq in *. do 2 apply Forall_cons in Hσ as [_ Hσ].
  split; [eapply ty_move_to; by eauto using able_intro|done].
Qed.
End struct_ops.

Lemma wp_plain_struct idx f σ Φ : safe (View.struct_def_at resolver idx) (λ sd, struct_ok resolver fv sd []) →
  (∀ sd, struct_ok resolver fv sd [] → struct_ref resolver false idx sd [] → wp (f sd []) σ Φ) → wp (plain_struct resolver idx f) σ Φ.
Proof. intros Hs Hf. apply wp_bind. eapply wp_lift_vm; [exact Hs|]. intros sd Hsd Hok. by apply Hf. Qed.
Lemma wp_generic_struct idx f σ Φ :
  safe (View.struct_instantiation_at resolver idx) (λ si, ∃ type_args, args_ok resolver fv (si_type_parameters si) type_args ∧
    safe (View.struct_def_at resolver (si_def si)) (λ sd, struct_ok resolver fv sd type_args)) →
  (∀ sd type_args, args_for true type_args → struct_ok resolver fv sd type_args → struct_ref resolver true idx sd type_args → wp (f sd type_args) σ Φ) →
  wp (generic_struct resolver idx f) σ Φ.
Proof.
  intros Hs Hf. apply wp_bind. eapply wp_lift_vm; [exact Hs|]. intros si Hsi (type_args & Hargs & Hsd). apply wp_bind. eapply wp_lift_vm; [exact Hsd|].
  intros sd Hdef Hok. apply wp_bind. eapply wp_type_args; [done|]. destruct Hargs as (? & ? & ?). apply Hf; [done..|]. by exists si.
Qed.

Lemma wp_borrow_global i mut_ generic idx idx' type_args σ :
  struct_op i = Some (OpBorrow mut_, generic, idx) → args_for generic type_args →
  safe (View.struct_def_at resolver idx') (λ sd, struct_ok resolver fv sd type_args) →
  (∀ sd, View.struct_def_at resolver idx' = Ret (Ok sd) → struct_ref resolver generic idx sd type_args) →
  Forall wt σ → wp (borrow_global resolver fv mut_ idx' type_args) σ (post i σ).
Proof.
  intros Hop Hargs Hs Href Hσ. unfold borrow_global. apply wp_bind, wp_pop. intros t σ' ->. apply wp_bind, wp_fail_if. intros Ht%negb_false_iff%bool_decide_eq_true. subst t.
  apply wp_bind. eapply wp_lift_vm; [exact Hs|]. intros sd Hsd Hok. cbv zeta. rewrite (materialize_eq generic) by done.
  assert (wt (struct_type generic sd type_args)) as Hwt by by apply wt_struct_type.
  apply wp_bind, wp_abilities; [done|]. intros a Ha. apply wp_bind, wp_fail_if. intros Hk. apply wp_push. apply Forall_cons in Hσ as [_ Hσ].
  split; [eapply ty_borrow_global; by eauto using able_intro|]. constructor; [|done]. apply wt_eq. destruct mut_; by repeat constructor.
Qed.

Lemma at_index_fmap {A B} (f : A → B) l idx b : at_index (f <$> l) idx = Ret b → ∃ a, at_index l idx = Ret a ∧ b = f a.
Proof.
  unfold at_index. case_match; [done|]. rewrite list_lookup_fmap. destruct (l !! Z.to_nat idx); [|done]. cbn. intros [= <-]. by eexists.
Qed.
Lemma at_index_elem {A} (l : list A) idx x : at_index l idx = Ret x → x ∈ l.
Proof. unfold at_index. case_match; [done|]. destruct (l !! Z.to_nat idx) eqn:Hl; [|done]. cbn. intros [= <-]. by eapply list_elem_of_lookup_2. Qed.

Lemma wp_borrow_field i mut_ generic idx idx' type_args σ :
  field_op i = Some (mut_, generic, idx) → args_for generic type_args →
  safe (View.field_handle_at resolver idx') (λ fh, field_ok resolver fv fh type_args) →
  (∀ fh, View.field_handle_at resolver idx' = Ret (Ok fh) → field_ref resolver generic idx fh type_args) →
  Forall wt σ → wp (borrow_field resolver mut_ idx' type_args) σ (post i σ).
Proof.
  intros Hop Hargs Hs Href Hσ. unfold borrow_field. apply wp_bind, wp_pop. intros r σ' ->. apply wp_bind, wp_fail_if. intros Hmut.
  apply wp_bind. eapply wp_lift_vm; [exact Hs|]. intros fh Hfh Hfok. apply wp_bind. eapply wp_lift_vm; [exact Hfok|]. intros sd Hsd [Hok Hfield]. cbv zeta.
  rewrite (materialize_eq generic) by done. apply wp_bind.
  apply wp_mono with (λ _ σ1, σ1 = σ' ∧ refers mut_ r (struct_type generic sd type_args)).
  { destruct r as [| | | | | |x|x|x y|x|x|x| | |]; try apply wp_throw; apply wp_fail_if; intros Heq%negb_false_iff%bool_decide_eq_true; rewrite Heq.
    - split; [done|]. right. by destruct mut_.
    - split; [done|by left]. }
  intros [] σ1 [-> Hr]. unfold fields_of in *. destruct (field_information sd) as [|fields] eqn:Hinfo; [apply wp_throw|].
  destruct (Hfield _ eq_refl) as [t Ht]. destruct (at_index_fmap _ _ _ _ Ht) as (fd & Hfd & ->). apply wp_bind. eapply wp_lift_o; [done|]. apply wp_bind.
  assert (TypingRules.wt resolver (length type_args) (fd_signature fd)) as Hwt.
  { destruct Hok as [_ Hf]. unfold fields_of in Hf. rewrite Hinfo in Hf. destruct (Hf _ eq_refl) as [Hall _]. rewrite Forall_forall in Hall. apply Hall. by eapply at_index_elem. }
  eapply wp_lift_o; [by apply instantiate_eq|]. apply wp_push. apply Forall_cons in Hσ as [_ Hσ]. split.
  - eapply ty_borrow_field; try done; [by apply Href|]. unfold fields_of. by rewrite Hinfo.
  - constructor; [|done]. apply wt_eq. destruct mut_; (split; [done|]); repeat constructor; by apply wt_type_of.
Qed.

Lemma fmap_rev {A B} (f : A → B) l : f <$> rev l = rev (f <$> l).
Proof. induction l as [|x l IH]; cbn [rev fmap list_fmap]; [done|]. by rewrite fmap_app, IH. Qed.

Lemma wp_call i generic fh type_args σ : call_ref resolver i generic fh type_args → args_for generic type_args → call_ok resolver fh type_args →
  Forall wt σ → wp (call resolver fh type_args) σ (post i σ).
Proof.
  intros Href Hargs (ps & rs & Hps & Hrs & Hwt & _) Hσ. apply Forall_app in Hwt as [Hwtp Hwtr]. unfold call. apply wp_bind. eapply wp_lift_o; [done|].
  apply wp_bind, (wp_pop_args generic); [done|by apply Forall_rev|]. intros σ' ->. apply wp_bind. eapply wp_lift_o; [done|].
  apply Forall_app in Hσ as [_ Hσ]. intros s Hs Hf. rewrite (push_instantiated_eq generic) by done. revert s Hs Hf. apply wp_push_all. split.
  - rewrite fmap_rev. by eapply ty_call.
  - apply Forall_app. split; [by apply wt_types|done].
Qed.

Lemma wt_inner mut_ r ty : refers mut_ r ty → wt r → wt ty.
Proof. intros [->|[_ ->]] [_ H]%wt_eq; by apply Forall_cons in H as [? _]. Qed.
Lemma wt_ref ty : wt ty → wt (TReference ty) ∧ wt (TMutableReference ty) ∧ wt (TVector ty).
Proof. intros Hty. split_and!; apply wt_eq; by repeat constructor. Qed.
Lemma wt_leaf ty : match ty with TBool | TU8 | TU16 | TU32 | TU64 | TU128 | TU256 | TAddress | TSigner => true | _ => false end = true → wt ty.
Proof. intros Ht. apply wt_eq. by destruct ty. Qed.

Ltac wp_clean :=
  repeat match goal with
  | H : Forall _ (_ :: _) |- _ => apply Forall_cons in H as [? H]
  | H : negb _ = false |- _ => apply negb_false_iff in H
  | H : bool_decide _ = true |- _ => apply bool_decide_eq_true in H; subst
  | H : _ && _ = true |- _ => apply andb_true_iff in H as [? H]
  | H : _ || _ = false |- _ => apply orb_false_iff in H as [? H]
  end.
Lemma refers_imm t : refers false (TReference t) t.
Proof. by right. Qed.
Lemma refers_mut mut_ t : refers mut_ (TMutableReference t) t.
Proof. by left. Qed.

Ltac wp_inner := first [assumption|eapply wt_inner; [apply refers_imm|assumption]|eapply wt_inner; [apply (refers_mut true)|assumption]].
Ltac wp_wt := first [wp_inner|by apply wt_leaf|apply wt_ref; wp_inner].
Ltac wp_run :=
  repeat (cbv beta zeta;
    lazymatch goal with
    | |- wp (mbind _ _) _ _ => apply wp_bind
    | |- wp (throw _) _ _ => apply wp_throw
    | |- wp (mret _) _ _ => apply wp_ret
    | |- wp (push _) _ _ => apply wp_push
    | |- wp pop _ _ => apply wp_pop; intros ? ? ->; wp_clean
    | |- wp (fail_if _ _) _ _ => apply wp_fail_if; intros ?; wp_clean
    | |- wp (abilities _ _ _) _ _ => apply wp_abilities; [wp_wt|intros ? ?]
    | |- wp (element_type _ _) _ _ => eapply wp_element; [eassumption|]
    | |- wp (lift_o _) _ _ => eapply wp_lift_o; [rewrite ?local_at_eq; eassumption|]
    | |- wp (expect_vector _ _ _) _ _ => apply wp_expect_vector; intros ?
    | |- wp (if ?b then _ else _) _ _ => destruct b eqn:?; wp_clean
    | |- wp (match ?x with _ => _ end) _ _ => destruct x
    end).
Lemma able_eq a ty s : View.abilities resolver ty (fv_type_parameters fv) = Ret (Ok s) → Abilities.has_ability s a = true → able resolver fv a ty.
Proof. by exists s. Qed.

Ltac wp_post := split; [econstructor; eauto using able_eq, refers_imm, refers_mut|repeat match goal with |- Forall _ (_ :: _) => apply Forall_cons; split end; wp_wt].

Lemma wp_generic_field i mut_ idx σ : field_op i = Some (mut_, true, idx) →
  safe (View.field_instantiation_at resolver idx) (λ fi, ∃ type_args, args_ok resolver fv (fdi_type_parameters fi) type_args ∧
    safe (View.field_handle_at resolver (fdi_handle fi)) (λ fh, field_ok resolver fv fh type_args)) →
  Forall wt σ → wp (generic_field resolver mut_ idx) σ (post i σ).
Proof.
  intros Hop Hs Hσ. apply wp_bind. eapply wp_lift_vm; [exact Hs|]. intros fi Hfi (type_args & Hargs & Hfh). apply wp_bind. eapply wp_type_args; [done|].
  destruct Hargs as (Hsig & ? & ?). eapply wp_borrow_field; try done. intros fh Hf. by exists fi.
Qed.
Lemma wp_generic_global i mut_ idx σ : struct_op i = Some (OpBorrow mut_, true, idx) →
  safe (View.struct_instantiation_at resolver idx) (λ si, ∃ type_args, args_ok resolver fv (si_type_parameters si) type_args ∧
    safe (View.struct_def_at resolver (si_def si)) (λ sd, struct_ok resolver fv sd type_args)) →
  Forall wt σ → wp (generic_global resolver fv mut_ idx) σ (post i σ).
Proof.
  intros Hop Hs Hσ. apply wp_bind. eapply wp_lift_vm; [exact Hs|]. intros si Hsi (type_args & Hargs & Hsd). apply wp_bind. eapply wp_type_args; [done|].
  destruct Hargs as (Hsig & ? & ?). eapply wp_borrow_global; try done. intros sd Hf. by exists si.
Qed.

Lemma wp_vec_pack idx num t σ : element resolver idx t → wt t → 0 <= num < U64_MOD → Forall wt σ → wp (verify_instr resolver fv (BC.VecPack idx num)) σ (post (BC.VecPack idx num) σ).
Proof.
  intros He Ht Hnum Hσ. cbn [verify_instr]. apply wp_bind. eapply wp_element; [done|]. apply wp_bind.
  apply wp_mono with (λ _ σ', σ = replicate (Z.to_nat num) t ++ σ').
  - destruct (Z.eqb_spec num 0) as [->|Hne]; [by apply wp_ret|]. intros s Hs Hf.
    destruct (pop_eq_run num s Hs ltac:(lia)) as [(t' & σ' & st & Heq & -> & Hst & Hfl)|(e & st & -> & _)]; [|by eexists _, _].
    unfold fail_if. case_match eqn:Hb; [by eexists _, _|]. apply negb_false_iff, bool_decide_eq_true in Hb. subst t'. eexists _, _. split; [done|].
    intros [] _. split; [done|]. unfold flat in *. cbn [fst]. congruence.
  - intros [] σ' Heq. apply wp_push. rewrite Heq in *. apply Forall_app in Hσ as [_ Hσ]. split; [by apply ty_vec_pack|]. constructor; [by apply wt_ref|done].
Qed.

Ltac wp_struct generic :=
  first [eapply (wp_pack _ generic)|eapply (wp_unpack _ generic)|eapply (wp_exists _ generic)
        |eapply (wp_move_from _ generic)|eapply (wp_move_to _ generic)]; first [eassumption|exact eq_refl].

Lemma verify_instr_sound i σ : instr_ok resolver fv i → Forall wt σ → wp (verify_instr resolver fv i) σ (post i σ).
Proof.
  intros Hok Hσ. destruct i; cbn [instr_ok] in Hok; try (by destruct Hok as ((t & ? & ?) & ?); apply (wp_vec_pack _ _ t));
    cbn [verify_instr]; try (by apply wp_generic_field); try (by apply wp_generic_global);
    try (by eapply wp_borrow_field); try (by eapply wp_borrow_global);
    try (apply wp_plain_struct; [done|]; intros sd Hsd Href; wp_struct false);
    try (apply wp_generic_struct; [done|]; intros sd type_args Hargs Hsd Href; wp_struct true);
    unfold borrow_loc, borrow_vector_element, cast, ref_to in *; try (destruct Hok as (t & Ht & Hwt)); wp_run; try (by wp_post).
  - apply wp_pop_all. intros σ' ->. apply Forall_app in Hσ as [_ ?]. by split; [constructor|].
  - by eapply wp_call.
  - destruct Hwt as (type_args & Hfi & Hfh & Hargs & Hcall).
    eapply wp_lift_o; [done|]. apply wp_bind. eapply wp_lift_o; [done|]. apply wp_bind. eapply wp_type_args; [done|]. destruct Hargs as (? & ? & ?).
    eapply (wp_call _ true); [by split; [|exists t]|done..].
  - destruct t as (ty & ? & ?). eapply wp_element; [done|]. wp_run. apply wp_push_n; [done|]. split; [by apply ty_vec_unpack|].
    apply Forall_app. split; [by apply Forall_replicate|done].
Qed.

(** * What is typed is accepted *)

Lemma safe_ok {A} (m : VMResult A) P a : safe m P → m = Ret (Ok a) → P a.
Proof. intros (r & -> & HP) [= ->]. by apply HP. Qed.

Lemma struct_ref_ok i op generic idx sd type_args : instr_ok resolver fv i → struct_op i = Some (op, generic, idx) →
  struct_ref resolver generic idx sd type_args → args_for generic type_args ∧ struct_ok resolver fv sd type_args.
Proof.
  intros Hok Hop Href. destruct i; cbn in Hop; simplify_eq; cbn [instr_ok struct_ref] in *.
  all: try (destruct Href as [Hsd ->]; split; [done|by apply (safe_ok _ _ _ Hok)]).
  all: destruct Href as (si & Hsi & Hsd & Hsig); destruct (safe_ok _ _ _ Hok Hsi) as (args & (Hsig' & ? & ?) & Hs); rewrite Hsig in Hsig'; simplify_eq;
    (split; [done|by apply (safe_ok _ _ _ Hs)]).
Qed.
Lemma field_ref_ok i mut_ generic idx fh type_args : instr_ok resolver fv i → field_op i = Some (mut_, generic, idx) →
  field_ref resolver generic idx fh type_args → args_for generic type_args ∧ field_ok resolver fv fh type_args.
Proof.
  intros Hok Hop Href. destruct i; cbn in Hop; simplify_eq; cbn [instr_ok field_ref] in *.
  all: try (destruct Href as [Hsd ->]; split; [done|by apply (safe_ok _ _ _ Hok)]).
  all: destruct Href as (si & Hsi & Hsd & Hsig); destruct (safe_ok _ _ _ Hok Hsi) as (args & (Hsig' & ? & ?) & Hs); rewrite Hsig in Hsig'; simplify_eq;
    (split; [done|by apply (safe_ok _ _ _ Hs)]).
Qed.
Lemma call_ref_ok i generic fh type_args : instr_ok resolver fv i → call_ref resolver i generic fh type_args → args_for generic type_args ∧ call_ok resolver fh type_args.
Proof.
  intros Hok Href. destruct i; try done; cbn [instr_ok call_ref] in *.
  - destruct Href as (-> & Hfh & ->). destruct Hok as (fh' & Hfh' & Hc). split; [done|]. congruence.
  - destruct Href as (-> & fi & Hfi & Hfh & Hsig). destruct Hok as (fi' & fh' & args & Hfi' & Hfh' & (Hsig' & ? & ?) & Hc).
    rewrite Hfi in Hfi'. injection Hfi' as <-. rewrite Hfh in Hfh'. injection Hfh' as <-. rewrite Hsig in Hsig'. by injection Hsig' as <-.
Qed.

Lemma succeeds_abilities a ty s σ : View.abilities resolver ty (fv_type_parameters fv) = Ret (Ok s) → Abilities.has_ability s a = true →
  succeeds (abilities resolver fv ty) σ s σ.
Proof. intros Hs _. by apply succeeds_lift_vm. Qed.

Section complete.
Hypothesis Hfree : unmetered.

Lemma succeeds_fields generic type_args sd fs σ : args_for generic type_args → struct_ok resolver fv sd type_args → fields_of sd = Some fs →
  succeeds (type_fields_signature sd type_args) σ (type_of generic type_args <$> fs) σ.
Proof using Type. intros ? ? ? s Hs Hσ. rewrite (fields_signature_eq generic) with (fs := fs) by done. by exists s. Qed.

(** The instructions on a struct, once it has been looked up. *)
Definition struct_action (op : StructOp) : StructDefinition → Signature → TS unit :=
  match op with
  | OpPack => pack | OpUnpack => unpack | OpExists => exists_ resolver fv | OpMoveFrom => move_from resolver fv | OpMoveTo => move_to resolver fv
  | OpBorrow _ => λ _ _, mret tt
  end.

Lemma succeeds_struct i op generic idx sd type_args σ σ' :
  struct_op i = Some (op, generic, idx) → match op with OpBorrow _ => false | _ => true end = true → struct_ref resolver generic idx sd type_args →
  succeeds (struct_action op sd type_args) σ tt σ' → succeeds (verify_instr resolver fv i) σ tt σ'.
Proof using Hfree.
  intros Hop Hb Href Hs. destruct i; cbn in Hop; simplify_eq; try done; cbn [verify_instr struct_action struct_ref] in *.
  all: try (destruct Href as [Hsd ->]; eapply succeeds_bind; [by apply succeeds_lift_vm|exact Hs]).
  all: destruct Href as (si & Hsi & Hsd & Hsig); eapply succeeds_bind; [by apply succeeds_lift_vm|]; eapply succeeds_bind; [by apply succeeds_lift_vm|];
    eapply succeeds_bind; [by apply succeeds_type_args|exact Hs].
Qed.

Ltac succ_bool := rewrite ?negb_false_iff, ?negb_true_iff, ?orb_false_iff, ?bool_decide_eq_true, ?bool_decide_eq_false; try done; try (by unfold Abilities.has_key).
Ltac succ_len := cbn [length] in *; rewrite ?length_app, ?length_rev, ?length_fmap, ?length_replicate in *; lia.
Ltac succ_run :=
  repeat (cbv beta zeta iota;
    lazymatch goal with
    | |- succeeds (mbind _ _) _ _ _ => eapply succeeds_bind
    | |- succeeds (mret _) _ _ _ => apply succeeds_ret
    | |- succeeds pop _ _ _ => apply succeeds_pop
    | |- succeeds (push _) _ _ _ => apply succeeds_push; [exact Hfree|try succ_len]
    | |- succeeds (fail_if _ _) _ _ _ => apply succeeds_fail_if; succ_bool
    | |- succeeds (abilities _ _ _) _ _ _ => eapply succeeds_abilities; eassumption
    | |- succeeds (element_type _ _) _ _ _ => eapply succeeds_element; eassumption
    | |- succeeds (expect_vector _ _ _) _ _ _ => apply succeeds_expect_vector; eassumption
    | |- succeeds (lift_o _) _ _ _ => apply succeeds_lift_o; rewrite ?local_at_eq; eassumption
    | |- succeeds (pop_all _ _) _ _ _ => apply succeeds_pop_all
    | |- succeeds (push_all _) _ _ _ => apply succeeds_push_all; [exact Hfree|try succ_len]
    | |- succeeds (if ?b then _ else _) _ _ _ =>
        replace b with true by (symmetry; rewrite ?andb_true_iff, ?bool_decide_eq_true; try done; try (by split))
    end).

Lemma succeeds_call i generic fh type_args ps rs σ : call_ref resolver i generic fh type_args → args_for generic type_args → call_ok resolver fh type_args →
  View.signature_at resolver (fh_parameters fh) = Ret ps → View.signature_at resolver (fh_return_ fh) = Ret rs →
  Z.of_nat (length (rev (type_of generic type_args <$> rs) ++ σ)) < U64_MOD →
  succeeds (verify_instr resolver fv i) (rev (type_of generic type_args <$> ps) ++ σ) tt (rev (type_of generic type_args <$> rs) ++ σ).
Proof using Hfree.
  intros Href Hargs (ps' & rs' & Hps' & Hrs' & Hwt & _) Hps Hrs Hlen. rewrite Hps in Hps'. injection Hps' as <-. rewrite Hrs in Hrs'. injection Hrs' as <-.
  apply Forall_app in Hwt as [Hwtp Hwtr].
  assert (succeeds (call resolver fh type_args) (rev (type_of generic type_args <$> ps) ++ σ) tt (rev (type_of generic type_args <$> rs) ++ σ)) as Hcall.
  { unfold call. eapply succeeds_bind; [by apply succeeds_lift_o|]. rewrite <- fmap_rev.
    eapply succeeds_bind; [apply succeeds_pop_args; [done|by apply Forall_rev]|]. eapply succeeds_bind; [by apply succeeds_lift_o|].
    intros s Hs Hσ. rewrite (push_instantiated_eq generic) by done. revert s Hs Hσ. by apply succeeds_push_all. }
  destruct i; try done; cbn [call_ref verify_instr] in *.
  - destruct Href as (-> & Hfh & ->). eapply succeeds_bind; [by apply succeeds_lift_o|done].
  - destruct Href as (-> & fi & Hfi & Hfh & Hsig). eapply succeeds_bind; [by apply succeeds_lift_o|]. eapply succeeds_bind; [by apply succeeds_lift_o|].
    eapply succeeds_bind; [by apply succeeds_type_args|done].
Qed.

Lemma succeeds_borrow_global mut_ generic idx sd type_args s σ : args_for generic type_args → View.struct_def_at resolver idx = Ret (Ok sd) →
  View.abilities resolver (struct_type generic sd type_args) (fv_type_parameters fv) = Ret (Ok s) → Abilities.has_ability s Key = true →
  Z.of_nat (length (TAddress :: σ)) < U64_MOD →
  succeeds (borrow_global resolver fv mut_ idx type_args) (TAddress :: σ) tt (ref_to mut_ (struct_type generic sd type_args) :: σ).
Proof using Hfree.
  intros Hargs Hsd Hs Hab Hlen. unfold borrow_global. do 2 (eapply succeeds_bind; [by succ_run|]). eapply succeeds_bind; [by apply succeeds_lift_vm|].
  cbv zeta. rewrite (materialize_eq generic) by done. succ_run.
Qed.

Lemma succeeds_borrow_field mut_ generic idx fh sd type_args fs t r σ : args_for generic type_args → struct_ok resolver fv sd type_args →
  View.field_handle_at resolver idx = Ret (Ok fh) → View.struct_def_at resolver (owner fh) = Ret (Ok sd) → fields_of sd = Some fs →
  at_index fs (field fh) = Ret t → refers mut_ r (struct_type generic sd type_args) → Z.of_nat (length (r :: σ)) < U64_MOD →
  succeeds (borrow_field resolver mut_ idx type_args) (r :: σ) tt (ref_to mut_ (type_of generic type_args t) :: σ).
Proof using Hfree.
  intros Hargs [_ Hok] Hfh Hsd Hfs Ht Hr Hlen. destruct (Hok fs Hfs) as [Hwt _]. unfold borrow_field. eapply succeeds_bind; [apply succeeds_pop|].
  eapply succeeds_bind; [apply succeeds_fail_if; destruct Hr as [->|[-> ->]]; [by destruct mut_|done]|].
  eapply succeeds_bind; [by apply succeeds_lift_vm|]. eapply succeeds_bind; [by apply succeeds_lift_vm|]. cbv zeta. rewrite (materialize_eq generic) by done.
  eapply succeeds_bind. { destruct Hr as [->|[_ ->]]; apply succeeds_fail_if; by rewrite bool_decide_eq_true_2. }
  unfold fields_of in Hfs. destruct (field_information sd) as [|fields]; [done|]. injection Hfs as <-.
  destruct (at_index_fmap _ _ _ _ Ht) as (fd & Hfd & ->). eapply succeeds_bind; [by apply succeeds_lift_o|].
  eapply succeeds_bind; [apply succeeds_lift_o, instantiate_eq; [done|]|by apply succeeds_push].
  rewrite Forall_forall in Hwt. apply Hwt. by eapply at_index_elem.
Qed.

Lemma borrow_global_instr i mut_ generic idx : struct_op i = Some (OpBorrow mut_, generic, idx) →
  verify_instr resolver fv i = if generic then generic_global resolver fv mut_ idx else borrow_global resolver fv mut_ idx [].
Proof using Type. intros Hop. destruct i; cbn in Hop; by simplify_eq. Qed.
Lemma borrow_field_instr i mut_ generic idx : field_op i = Some (mut_, generic, idx) →
  verify_instr resolver fv i = if generic then generic_field resolver mut_ idx else borrow_field resolver mut_ idx [].
Proof using Type. intros Hop. destruct i; cbn in Hop; by simplify_eq. Qed.

Lemma succeeds_vec_pack idx n t σ : element resolver idx t → 0 <= n < U64_MOD → Z.of_nat (length (TVector t :: σ)) < U64_MOD →
  succeeds (verify_instr resolver fv (BC.VecPack idx n)) (replicate (Z.to_nat n) t ++ σ) tt (TVector t :: σ).
Proof using Hfree.
  intros He Hn Hlen. cbn [verify_instr]. eapply succeeds_bind; [by apply succeeds_element|]. eapply succeeds_bind; [|by apply succeeds_push].
  destruct (Z.eqb_spec n 0) as [->|Hne]; [apply succeeds_ret|]. intros s Hs Hσ.
  destruct (pop_eq_run n s Hs ltac:(lia)) as [(t' & σ' & st & Heq & -> & Hst & Hf)|(e & st & _ & Hno)]; [|by destruct (Hno t σ)].
  rewrite Hσ in Heq. destruct (Z.to_nat n) as [|k] eqn:Hk; [lia|]. cbn [replicate app] in Heq. injection Heq as <- Heq. apply app_inv_head in Heq as <-.
  unfold fail_if. rewrite bool_decide_eq_true_2 by done. cbn. by eexists.
Qed.

Lemma verify_instr_complete i σ σ' : instr_ok resolver fv i → typed i σ σ' → Z.of_nat (length σ') < U64_MOD → succeeds (verify_instr resolver fv i) σ tt σ'.
Proof using Hfree.
  intros Hok Ht Hlen. destruct Ht.
  all: try match goal with Hop : struct_op _ = _, Href : struct_ref _ _ _ _ _ |- _ =>
    destruct (struct_ref_ok _ _ _ _ _ _ Hok Hop Href) as [Hargs Hsok] end.
  all: try match goal with Ha : able _ _ _ _ |- _ => destruct Ha as (s & Hs & Hab) end.
  all: try match goal with H : literal _ = Some _ |- _ => destruct i; cbn in H; simplify_eq end.
  all: try match goal with H : cast_to _ = Some _ |- _ => destruct i; cbn in H; simplify_eq end.
  all: try match goal with H : is_arithmetic ?i = true |- _ => destruct i; cbn in H; try done end.
  all: try match goal with H : is_comparison ?i = true |- _ => destruct i; cbn in H; try done end.
  all: try (by destruct Hok; apply succeeds_vec_pack).
  all: cbn [verify_instr]; unfold borrow_loc, borrow_vector_element, cast, ref_to in *; succ_run.
  - destruct H as [->|[_ ->]]; succ_run.
  - destruct (call_ref_ok _ _ _ _ Hok H). by eapply succeeds_call.
  - eapply succeeds_struct; [done..|]. cbn [struct_action]. unfold pack. eapply succeeds_bind; [by apply succeeds_fields|]. rewrite (materialize_eq generic) by done. succ_run.
  - eapply succeeds_struct; [done..|]. cbn [struct_action]. unfold unpack. rewrite (materialize_eq generic) by done.
    do 2 (eapply succeeds_bind; [by succ_run|]). eapply succeeds_bind; [by apply succeeds_fields|]. by succ_run.
  - eapply succeeds_struct; [done..|]. cbn [struct_action]. unfold exists_. rewrite (materialize_eq generic) by done. succ_run.
  - eapply succeeds_struct; [done..|]. cbn [struct_action]. unfold move_from. rewrite (materialize_eq generic) by done. succ_run.
  - eapply succeeds_struct; [done..|]. cbn [struct_action]. unfold move_to. rewrite (materialize_eq generic) by done. succ_run.
  - rewrite (borrow_global_instr i mut_ generic idx) by done. destruct generic; cbn [struct_ref] in *.
    + destruct H0 as (si & Hsi & Hsd & Hsig). eapply succeeds_bind; [by apply succeeds_lift_vm|]. eapply succeeds_bind; [by apply succeeds_type_args|].
      by eapply (succeeds_borrow_global mut_ true).
    + destruct H0 as [Hsd ->]. by eapply (succeeds_borrow_global mut_ false).
  - destruct (field_ref_ok _ _ _ _ _ _ Hok H H0) as [Hargs Hfok]. destruct (safe_ok _ _ _ Hfok H1) as [Hsok _].
    rewrite (borrow_field_instr i mut_ generic idx) by done. destruct generic; cbn [field_ref] in *.
    + destruct H0 as (fi & Hfi & Hfh & Hsig). eapply succeeds_bind; [by apply succeeds_lift_vm|]. eapply succeeds_bind; [by apply succeeds_type_args|].
      by eapply (succeeds_borrow_field mut_ true).
    + destruct H0 as [Hsd ->]. by eapply (succeeds_borrow_field mut_ false).
  - apply succeeds_push_n; [done|apply Hok|]. rewrite length_app, length_replicate in Hlen. destruct Hok. lia.
Qed.
End complete.
End check.
