(* ===== verification/TypedCode.v ===== *)
(** What the type check of a function body says about the paths through the code. *)
From S2P Require Import Prelude MoveFormat BinaryFormat Serializer CheckBounds Deserializer Codec TokenCodec BoundsSafety Totality ControlFlowGraph AbsInt AbstractStack StackUsage TypeSafety TypingRules TypeCheck.

Section code.
Context (config : VerifierConfig) (resolver : BinaryIndexedView) (fv : FunctionView).
Abbreviation code := (fv_code fv).
Abbreviation typed := (TypingRules.typed resolver fv).
Abbreviation effect i := (StackUsage.instruction_effect resolver fv i).

(** * The rules are functional *)

Lemma struct_ref_fun generic idx sd sd' args args' : struct_ref resolver generic idx sd args → struct_ref resolver generic idx sd' args' → sd = sd' ∧ args = args'.
Proof.
  destruct generic; cbn.
  - intros (si & H1 & H2 & H3) (si' & H1' & H2' & H3'). rewrite H1 in H1'. injection H1' as <-. rewrite H2 in H2'. injection H2' as <-. rewrite H3 in H3'. by injection H3'.
  - intros [H1 ->] [H1' ->]. rewrite H1 in H1'. by injection H1'.
Qed.
Lemma field_ref_fun generic idx fh fh' args args' : field_ref resolver generic idx fh args → field_ref resolver generic idx fh' args' → fh = fh' ∧ args = args'.
Proof.
  destruct generic; cbn.
  - intros (si & H1 & H2 & H3) (si' & H1' & H2' & H3'). rewrite H1 in H1'. injection H1' as <-. rewrite H2 in H2'. injection H2' as <-. rewrite H3 in H3'. by injection H3'.
  - intros [H1 ->] [H1' ->]. rewrite H1 in H1'. by injection H1'.
Qed.
Lemma call_ref_fun i generic generic' fh fh' args args' : call_ref resolver i generic fh args → call_ref resolver i generic' fh' args' → generic = generic' ∧ fh = fh' ∧ args = args'.
Proof.
  destruct i; try done; cbn.
  - intros (-> & H1 & ->) (-> & H1' & ->). rewrite H1 in H1'. by injection H1'.
  - intros (-> & si & H1 & H2 & H3) (-> & si' & H1' & H2' & H3'). rewrite H1 in H1'. injection H1' as <-. rewrite H2 in H2'. injection H2' as <-. rewrite H3 in H3'. by injection H3'.
Qed.
Lemma element_fun idx t t' : element resolver idx t → element resolver idx t' → t = t'.
Proof. intros (s & H1 & H2) (s' & H1' & H2'). rewrite H1 in H1'. injection H1' as <-. rewrite H2 in H2'. by injection H2'. Qed.
Lemma refers_fun mut_ r t t' : refers mut_ r t → refers mut_ r t' → t = t'.
Proof. intros [->|[? ->]] [Hr|[? Hr]]; by simplify_eq. Qed.

Ltac typed_functional :=
  repeat match goal with
  | H : struct_ref _ _ _ _ _, H' : struct_ref _ _ _ _ _ |- _ => destruct (struct_ref_fun _ _ _ _ _ _ H H') as [? ?]; clear H'; subst
  | H : field_ref _ _ _ _ _, H' : field_ref _ _ _ _ _ |- _ => destruct (field_ref_fun _ _ _ _ _ _ H H') as [? ?]; clear H'; subst
  | H : call_ref _ _ _ _ _, H' : call_ref _ _ _ _ _ |- _ => destruct (call_ref_fun _ _ _ _ _ _ _ H H') as (? & ? & ?); clear H'; subst
  | H : element _ _ _, H' : element _ _ _ |- _ => pose proof (element_fun _ _ _ H H'); clear H'; subst
  | H : refers _ ?r _, H' : refers _ ?r _ |- _ => pose proof (refers_fun _ _ _ _ H H'); clear H'; subst
  | H : ?x = Ret _, H' : ?x = Ret _ |- _ => rewrite H in H'; injection H' as ?; subst
  | H : ?x = Some _, H' : ?x = Some _ |- _ => rewrite H in H'; injection H' as ?; subst
  | H : ?l ++ _ = ?l ++ _ |- _ => apply app_inv_head in H; subst
  end.

Lemma typed_fun i σ σ1 σ2 : typed i σ σ1 → typed i σ σ2 → σ1 = σ2.
Proof.
  intros H1 H2. destruct i; inversion H1; subst; try done; cbn [literal cast_to struct_op field_op] in *; simplify_eq;
    inversion H2; subst; try done; unfold local in *; cbn [literal cast_to struct_op field_op] in *; simplify_eq; typed_functional; done.
Qed.

(** * The rules and the heights of the stack *)

Context (Hret : Z.of_nat (length (fv_return_ fv)) < U64_MOD).

Lemma as_u64_small n : Z.of_nat n < U64_MOD → as_u64 n = Z.of_nat n.
Proof. intros Hn. apply Z.mod_small. lia. Qed.

Definition heightZ (σ : list SignatureToken) : Z := Z.of_nat (length σ).

Lemma field_count_eq sd args fs : struct_ok resolver fv sd args → fields_of sd = Some fs → StackUsage.field_count sd = Z.of_nat (length fs).
Proof.
  intros [_ Hok] Hfs. destruct (Hok fs Hfs) as [_ Hlen]. unfold fields_of, StackUsage.field_count in *. destruct (field_information sd); [done|].
  injection Hfs as <-. rewrite length_fmap in *. by apply as_u64_small.
Qed.

Lemma call_effect_eq i generic fh args ps rs : instr_ok resolver fv i → call_ref resolver i generic fh args →
  View.signature_at resolver (fh_parameters fh) = Ret ps → View.signature_at resolver (fh_return_ fh) = Ret rs →
  effect i = Ret (Ok (Z.of_nat (length ps), Z.of_nat (length rs))).
Proof.
  intros Hok Href Hps Hrs. destruct (call_ref_ok _ _ _ _ _ _ Hok Href) as [_ (ps' & rs' & Hps' & Hrs' & _ & Hp & Hr)].
  rewrite Hps in Hps'. injection Hps' as <-. rewrite Hrs in Hrs'. injection Hrs' as <-.
  assert (StackUsage.call_effect resolver fh = Ret (Ok (Z.of_nat (length ps), Z.of_nat (length rs)))) as Hc.
  { unfold StackUsage.call_effect. rewrite Hps, Hrs. cbn. by rewrite !as_u64_small. }
  destruct i; try done; cbn in *.
  - destruct Href as (-> & -> & _). exact Hc.
  - destruct Href as (-> & fi & -> & Hfh & _). cbn. rewrite Hfh. exact Hc.
Qed.
Lemma struct_effect_eq i op generic idx sd args fs : instr_ok resolver fv i → struct_op i = Some (op, generic, idx) → struct_ref resolver generic idx sd args →
  fields_of sd = Some fs → op = OpPack ∨ op = OpUnpack →
  effect i = Ret (Ok (if decide (op = OpPack) then (Z.of_nat (length fs), 1) else (1, Z.of_nat (length fs)))).
Proof.
  intros Hok Hop Href Hfs Hor. destruct (struct_ref_ok _ _ _ _ _ _ _ _ Hok Hop Href) as [_ Hsok]. pose proof (field_count_eq _ _ _ Hsok Hfs) as Hc.
  destruct i; cbn in Hop; simplify_eq; try (by destruct Hor); cbn [struct_ref] in Href; cbn [StackUsage.instruction_effect].
  all: try (destruct Href as [-> _]; cbn; by rewrite Hc).
  all: destruct Href as (si & -> & Hsd & _); cbn; rewrite Hsd; cbn; by rewrite Hc.
Qed.

Ltac height_lia := cbn [length]; rewrite ?length_app, ?length_rev, ?length_fmap, ?length_replicate, ?as_u64_small by done; lia.
Ltac height_done := eexists _, _; split; [reflexivity|cbn [instr_ok] in *; height_lia].
Lemma typed_effect i σ σ' : instr_ok resolver fv i → typed i σ σ' →
  ∃ pops pushes, effect i = Ret (Ok (pops, pushes)) ∧ pops <= heightZ σ ∧ heightZ σ' = heightZ σ - pops + pushes.
Proof.
  intros Hok Ht. unfold heightZ. destruct Ht.
  all: try match goal with Hop : struct_op _ = _, Href : struct_ref _ _ _ _ _ |- _ =>
    destruct (struct_ref_ok _ _ _ _ _ _ _ _ Hok Hop Href) as [Hargs Hsok] end.
  all: try match goal with H : literal _ = Some _ |- _ => destruct i; cbn in H; simplify_eq end.
  all: try match goal with H : cast_to _ = Some _ |- _ => destruct i; cbn in H; simplify_eq end.
  all: try match goal with H : is_arithmetic ?i = true |- _ => destruct i; cbn in H; try done end.
  all: try match goal with H : is_comparison ?i = true |- _ => destruct i; cbn in H; try done end.
  all: try height_done.
  - rewrite (call_effect_eq i generic fh type_args ps rs) by done. eexists _, _. split; [done|]. height_lia.
  - rewrite (struct_effect_eq i OpPack generic idx sd type_args fs) by auto. eexists _, _. split; [done|]. height_lia.
  - rewrite (struct_effect_eq i OpUnpack generic idx sd type_args fs) by auto. eexists _, _. split; [done|]. height_lia.
  - destruct i; cbn in H; simplify_eq; height_done.
  - destruct i; cbn in H; simplify_eq; height_done.
  - destruct i; cbn in H; simplify_eq; height_done.
  - destruct i; cbn in H; simplify_eq; height_done.
  - destruct i; cbn in H; simplify_eq; height_done.
Qed.
(** * Blocks *)

Fixpoint typed_seq (l : list BC.Bytecode) (σ σ' : list SignatureToken) : Prop :=
  match l with [] => σ' = σ | i :: l => ∃ σ1, typed i σ σ1 ∧ typed_seq l σ1 σ' end.

(** The [n] instructions from [b] on. *)
Definition instrs_from (b : Z) (n : nat) : list BC.Bytecode := take n (drop (Z.to_nat b) code).

(** The instructions of a block fit together, from an empty stack to an empty stack. *)
Definition well_typed (b : Z) (bb : BasicBlock) : Prop := typed_seq (instrs_from b (Z.to_nat (exit bb + 1 - b))) [] [].

Lemma typed_seq_app l1 l2 σ σ' : typed_seq (l1 ++ l2) σ σ' ↔ ∃ σ1, typed_seq l1 σ σ1 ∧ typed_seq l2 σ1 σ'.
Proof using Type.
  revert σ. induction l1 as [|i l1 IH]; intros σ; cbn [app typed_seq]; [naive_solver|]. setoid_rewrite IH. naive_solver.
Qed.
Lemma typed_seq_fun l σ σ1 σ2 : typed_seq l σ σ1 → typed_seq l σ σ2 → σ1 = σ2.
Proof using Type.
  revert σ. induction l as [|i l IH]; intros σ; cbn [typed_seq]; [congruence|]. intros (σ3 & H1 & H2) (σ4 & H3 & H4).
  rewrite (typed_fun _ _ _ _ H1 H3) in H2. by eapply IH.
Qed.

Lemma instrs_from_cons pc n i : instr_at code pc i → instrs_from pc (S n) = i :: instrs_from (pc + 1) n.
Proof using Type.
  intros [Hpc Hi]. unfold instrs_from. rewrite (drop_S _ _ _ Hi). cbn [take]. do 3 f_equal. lia.
Qed.
Lemma instrs_from_snoc b pc i : 0 <= b <= pc → instr_at code pc i → instrs_from b (Z.to_nat (pc + 1 - b)) = instrs_from b (Z.to_nat (pc - b)) ++ [i].
Proof using Type.
  intros Hb [Hpc Hi]. unfold instrs_from. replace (Z.to_nat (pc + 1 - b)) with (S (Z.to_nat (pc - b))) by lia. apply take_S_r.
  rewrite lookup_drop. by replace (Z.to_nat b + Z.to_nat (pc - b))%nat with (Z.to_nat pc) by lia.
Qed.

Context (Hok : ∀ pc i, instr_at code pc i → instr_ok resolver fv i).

(** Along a block the heights are those of the stack usage check. *)
Lemma typed_heights b pc pushed h σ : 0 <= b → heights config resolver fv b pc pushed h → typed_seq (instrs_from b (Z.to_nat (pc - b))) [] σ → heightZ σ = h.
Proof using Hret Hok.
  intros Hb Hh. revert σ. induction Hh as [|pc pushed h i pops pushes Hh IH Hi Heff _ _ _]; intros σ.
  - rewrite Z.sub_diag. cbn. by intros ->.
  - pose proof (heights_ge _ _ _ _ _ _ _ Hh). rewrite (instrs_from_snoc b pc i) by (done || lia). intros (σ1 & H1 & (σ2 & H2 & ->))%typed_seq_app.
    destruct (typed_effect i σ1 σ2 (Hok pc i Hi) H2) as (pops' & pushes' & Heff' & _ & ->). rewrite Heff in Heff'. injection Heff' as <- <-. by rewrite (IH σ1 H1).
Qed.

Section run.
Context {M : Type} `{!Meter M}.
Abbreviation wt := (TypingRules.wt resolver (length (fv_type_parameters fv))).

Lemma verify_instrs_sound n pc σ : 0 <= pc → pc + Z.of_nat n <= Z.of_nat (length code) → Forall wt σ →
  wp (TypeSafety.verify_instrs (M := M) resolver fv (seqZ pc (Z.of_nat n))) σ (λ _ σ', typed_seq (instrs_from pc n) σ σ' ∧ Forall wt σ').
Proof using Hok.
  revert pc σ. induction n as [|n IH]; intros pc σ Hpc Hlen Hσ; [by apply wp_ret|].
  rewrite seqZ_cons by lia. cbn [TypeSafety.verify_instrs]. destruct (instr_at_ex code pc) as (i & Hi); [lia|].
  apply wp_bind. eapply wp_lift_o; [by apply instr_at_index|]. apply wp_bind. eapply wp_mono; [by apply verify_instr_sound; [eapply Hok|]|].
  intros [] σ1 [H1 Hσ1]. replace (Z.pred (Z.of_nat (S n))) with (Z.of_nat n) by lia. rewrite <- Z.add_1_r. rewrite (instrs_from_cons pc n i) by done.
  eapply wp_mono; [apply IH; [lia..|done]|]. intros [] σ' [H2 Hσ']. split; [by exists σ1|done].
Qed.

Lemma verify_instrs_complete n pc σ σ' : unmetered (M := M) → 0 <= pc → pc + Z.of_nat n <= Z.of_nat (length code) →
  (∀ k σk, (k ≤ n)%nat → typed_seq (instrs_from pc k) σ σk → heightZ σk < U64_MOD) → typed_seq (instrs_from pc n) σ σ' →
  succeeds (TypeSafety.verify_instrs (M := M) resolver fv (seqZ pc (Z.of_nat n))) σ tt σ'.
Proof using Hok.
  intros Hfree. revert pc σ. induction n as [|n IH]; intros pc σ Hpc Hlen Hb Hs; [rewrite Hs; apply succeeds_ret|].
  rewrite seqZ_cons by lia. cbn [TypeSafety.verify_instrs]. destruct (instr_at_ex code pc) as (i & Hi); [lia|].
  rewrite (instrs_from_cons pc n i Hi) in Hs. destruct Hs as (σ1 & H1 & Hs).
  eapply succeeds_bind; [by apply succeeds_lift_o, instr_at_index|]. eapply succeeds_bind.
  - apply verify_instr_complete; [done|by eapply Hok|done|]. apply (Hb 1%nat); [lia|]. rewrite (instrs_from_cons pc 0 i Hi). by exists σ1.
  - replace (Z.pred (Z.of_nat (S n))) with (Z.of_nat n) by lia. rewrite <- Z.add_1_r. apply IH; [lia..| |done].
    intros k σk Hk Hσk. apply (Hb (S k)); [lia|]. rewrite (instrs_from_cons pc k i Hi). by exists σ1.
Qed.

Context (Hlimits : limits_ok config) (Hwf : wf_code code) (Hblocks : blocks_ok code (blocks (fv_cfg fv))).
Context (Hbal : ∀ b bb, blocks (fv_cfg fv) !! b = Some bb → balanced config resolver fv b bb).

Lemma block_indexes b bb : blocks (fv_cfg fv) !! b = Some bb →
  Cfg.instr_indexes (fv_cfg fv) b = Ret (seqZ b (Z.of_nat (Z.to_nat (exit bb + 1 - b)))) ∧ 0 <= b ∧ b <= exit bb ∧ exit bb < Z.of_nat (length code).
Proof using Hblocks.
  intros Hbb. destruct (bk_block _ _ Hblocks b bb Hbb) as [[? _] Hexit _ _ _ _]. split; [|lia]. unfold Cfg.instr_indexes, Cfg.block_end, Cfg.block_start.
  rewrite Hbb. cbn. do 2 f_equal. lia.
Qed.
Lemma block_empties b bb σ : blocks (fv_cfg fv) !! b = Some bb → typed_seq (instrs_from b (Z.to_nat (exit bb + 1 - b))) [] σ → σ = [].
Proof using Hret Hok Hblocks Hbal.
  intros Hbb Hs. destruct (block_indexes b bb Hbb) as (_ & ? & _). destruct (Hbal b bb Hbb) as (pushed & Hh).
  pose proof (typed_heights b _ _ _ σ ltac:(lia) Hh Hs) as Hl. unfold heightZ in Hl. destruct σ; [done|]. cbn in Hl. lia.
Qed.
Lemma heights_max b pc pushed h : heights config resolver fv b pc pushed h → h <= max_value_stack_size config.
Proof using Hlimits. destruct Hlimits. destruct 1; lia. Qed.
Lemma block_bound b bb k σ : blocks (fv_cfg fv) !! b = Some bb → (k ≤ Z.to_nat (exit bb + 1 - b))%nat → typed_seq (instrs_from b k) [] σ → heightZ σ < U64_MOD.
Proof using Hret Hok Hblocks Hbal Hlimits.
  intros Hbb Hk Hs. destruct (block_indexes b bb Hbb) as (_ & ? & ? & _). destruct (Hbal b bb Hbb) as (pushed & Hh).
  destruct (heights_prefix _ _ _ b _ _ _ (b + Z.of_nat k) Hh) as (p' & h' & Hh'); [lia|].
  replace k with (Z.to_nat (b + Z.of_nat k - b)) in Hs by lia. pose proof (typed_heights b _ _ _ σ ltac:(lia) Hh' Hs) as ->.
  pose proof (heights_max _ _ _ _ Hh'). pose proof (lim_stack _ Hlimits). lia.
Qed.

Lemma verify_blocks_sound ids : (∀ b, b ∈ ids → is_Some (blocks (fv_cfg fv) !! b)) →
  wp (TypeSafety.verify_blocks (M := M) resolver fv ids) [] (λ _ σ', σ' = [] ∧ ∀ b bb, b ∈ ids → blocks (fv_cfg fv) !! b = Some bb → well_typed b bb).
Proof using All.
  induction ids as [|b ids IH]; intros Hids; cbn [TypeSafety.verify_blocks]; [apply wp_ret; set_solver|].
  destruct (Hids b) as [bb Hbb]; [set_solver|]. destruct (block_indexes b bb Hbb) as (Hix & ? & ? & ?). apply wp_bind. eapply wp_lift_o; [done|].
  apply wp_bind. eapply wp_mono; [apply verify_instrs_sound; [lia..|done]|]. intros [] σ [Hs _]. pose proof (block_empties b bb σ Hbb Hs) as ->.
  eapply wp_mono; [apply IH; set_solver|]. intros [] σ' [-> Hall]. split; [done|]. intros b' bb' [->|Hin]%elem_of_cons Hb'; [|by apply Hall]. by simplify_eq.
Qed.
Lemma verify_blocks_complete ids : unmetered (M := M) → (∀ b, b ∈ ids → ∃ bb, blocks (fv_cfg fv) !! b = Some bb ∧ well_typed b bb) →
  succeeds (TypeSafety.verify_blocks (M := M) resolver fv ids) [] tt [].
Proof using All.
  intros Hfree. induction ids as [|b ids IH]; intros Hids; cbn [TypeSafety.verify_blocks]; [apply succeeds_ret|].
  destruct (Hids b) as (bb & Hbb & Hs); [set_solver|]. destruct (block_indexes b bb Hbb) as (Hix & ? & ? & ?).
  eapply succeeds_bind; [by apply succeeds_lift_o|]. eapply succeeds_bind; [|apply IH; set_solver].
  apply verify_instrs_complete; [done|lia..| |done]. intros k σk. by apply block_bound.
Qed.

Lemma type_check_exact (meter : M) : ∃ r meter', TypeSafety.verify resolver fv meter = Ret (r, meter') ∧
  (r = Ok tt → ∀ b bb, blocks (fv_cfg fv) !! b = Some bb → well_typed b bb) ∧
  (unmetered (M := M) → (∀ b bb, blocks (fv_cfg fv) !! b = Some bb → well_typed b bb) → r = Ok tt).
Proof using All.
  assert (∀ b, b ∈ Cfg.block_ids (fv_cfg fv) ↔ is_Some (blocks (fv_cfg fv) !! b)) as Hids.
  { intros b. unfold Cfg.block_ids. by rewrite elem_of_btree_set_iter, elem_of_dom. }
  destruct (verify_blocks_sound (Cfg.block_ids (fv_cfg fv)) (λ b, proj1 (Hids b)) (AbsStack.new, meter)) as (r & s & Hrun & Hr); [apply new_stack_ok|done|].
  exists r, s.2. split; [|split].
  - unfold TypeSafety.verify. by rewrite Hrun.
  - intros -> b bb Hbb. destruct (Hr tt eq_refl) as (_ & _ & Hall). apply Hall; [|done]. apply Hids. by exists bb.
  - intros Hfree Hall. destruct (verify_blocks_complete (Cfg.block_ids (fv_cfg fv)) Hfree) with (AbsStack.new (T := SignatureToken), meter) as (s' & Hrun' & _); [|apply new_stack_ok|done|].
    + intros b [bb Hbb]%Hids. eauto.
    + rewrite Hrun in Hrun'. by injection Hrun'.
Qed.
End run.

(** * Paths *)

(** The types of the operands where a path gets to. *)
Inductive types_at : Z → list SignatureToken → Prop :=
  | types_start : types_at ENTRY_BLOCK_ID []
  | types_step pc σ i σ' next : types_at pc σ → instr_at code pc i → typed i σ σ' → goes_to code pc next → types_at next σ'.

Context (Hlimits : limits_ok config) (Hwf : wf_code code) (Hblocks : blocks_ok code (blocks (fv_cfg fv))).
Context (Hbal : ∀ b bb, blocks (fv_cfg fv) !! b = Some bb → balanced config resolver fv b bb).

Lemma types_in_block pc σ : types_at pc σ →
  ∃ b bb, blocks (fv_cfg fv) !! b = Some bb ∧ b <= pc <= exit bb ∧ typed_seq (instrs_from b (Z.to_nat (pc - b))) [] σ.
Proof using All.
  assert (∀ b, starts_block code b → ∃ b' bb, blocks (fv_cfg fv) !! b' = Some bb ∧ b' <= b <= exit bb ∧ typed_seq (instrs_from b' (Z.to_nat (b - b'))) [] []) as Hstart.
  { intros b Hs. destruct (bk_starts _ _ Hblocks b Hs) as (bb & Hbb). destruct (block_indexes Hblocks b bb Hbb) as (_ & ? & ? & _).
    exists b, bb. split_and!; [done|lia..|]. by rewrite Z.sub_diag. }
  induction 1 as [|pc σ i σ' next Hd (b & bb & Hbb & Hpc & Hs) Hi Ht Hgo].
  - apply Hstart. split; [pose proof (wc_length _ Hwf); unfold ENTRY_BLOCK_ID; lia|by left].
  - pose proof (bk_block _ _ Hblocks b bb Hbb) as Hbk. destruct (block_indexes Hblocks b bb Hbb) as (_ & ? & ? & _).
    assert (typed_seq (instrs_from b (Z.to_nat (pc + 1 - b))) [] σ') as Hnext.
    { rewrite (instrs_from_snoc b pc i) by (done || lia). apply typed_seq_app. exists σ. split; [done|]. by exists σ'. }
    destruct (decide (pc = exit bb)) as [->|Hne].
    + rewrite (block_empties Hblocks Hbal b bb σ' Hbb Hnext). apply Hstart. by eapply exit_starts.
    + apply (inside_goes_to code Hwf b bb pc next Hbk) in Hgo; [|lia]. subst next. exists b, bb. split_and!; [done|lia..|done].
Qed.

Lemma same_block b bb b' bb' pc : blocks (fv_cfg fv) !! b = Some bb → blocks (fv_cfg fv) !! b' = Some bb' → b <= pc <= exit bb → b' <= pc <= exit bb' → b = b'.
Proof using Hblocks.
  intros Hbb Hbb' Hpc Hpc'. pose proof (bk_block _ _ Hblocks b bb Hbb) as Hb. pose proof (bk_block _ _ Hblocks b' bb' Hbb') as Hb'.
  destruct (Z.lt_trichotomy b b') as [Hlt|[?|Hgt]]; [|done|].
  - destruct (bo_inside _ _ _ Hb b'); [lia|]. apply Hb'.
  - destruct (bo_inside _ _ _ Hb' b); [lia|]. apply Hb.
Qed.
Lemma types_unique pc σ σ' : types_at pc σ → types_at pc σ' → σ = σ'.
Proof using All.
  intros (b & bb & Hbb & Hpc & Hs)%types_in_block (b' & bb' & Hbb' & Hpc' & Hs')%types_in_block.
  rewrite <- (same_block b bb b' bb' pc) in Hs' by done. by eapply typed_seq_fun.
Qed.

Lemma types_depth pc σ : types_at pc σ → depth resolver fv pc (heightZ σ).
Proof using Hret Hok.
  induction 1 as [|pc σ i σ' next Hd IH Hi Ht Hgo]; [constructor|]. destruct (typed_effect i σ σ' (Hok pc i Hi) Ht) as (pops & pushes & Heff & _ & ->).
  by eapply depth_step.
Qed.

Lemma types_progress pc σ i : (∀ b bb, blocks (fv_cfg fv) !! b = Some bb → well_typed b bb) → types_at pc σ → instr_at code pc i → ∃ σ', typed i σ σ'.
Proof using All.
  intros Hall (b & bb & Hbb & Hpc & Hs)%types_in_block Hi. destruct (block_indexes Hblocks b bb Hbb) as (_ & ? & ? & _). pose proof (Hall b bb Hbb) as Hw. unfold well_typed, instrs_from in Hw.
  replace (Z.to_nat (exit bb + 1 - b)) with (Z.to_nat (pc + 1 - b) + Z.to_nat (exit bb - pc))%nat in Hw by lia.
  rewrite <- take_take_drop in Hw. apply typed_seq_app in Hw as (σ1 & Hw & _). fold (instrs_from b (Z.to_nat (pc + 1 - b))) in Hw.
  rewrite (instrs_from_snoc b pc i) in Hw by (done || lia). apply typed_seq_app in Hw as (σ2 & Hw & (σ3 & Ht & _)).
  rewrite (typed_seq_fun _ _ _ _ Hs Hw). by exists σ3.
Qed.

Lemma types_return pc σ : (∀ b bb, blocks (fv_cfg fv) !! b = Some bb → well_typed b bb) → types_at pc σ → instr_at code pc BC.Ret → σ = rev (fv_return_ fv).
Proof using All.
  intros Hall Hσ Hi. destruct (types_progress pc σ BC.Ret Hall Hσ Hi) as (σ' & Ht).
  destruct (balanced_safe config resolver fv Hwf Hblocks pc _ BC.Ret Hbal (types_depth pc σ Hσ) Hi) as (_ & _ & _ & _ & _ & Hd & _). specialize (Hd eq_refl).
  inversion Ht; subst; try done. unfold heightZ in Hd. rewrite length_app, length_rev, as_u64_small in Hd by done.
  destruct σ'; [by rewrite app_nil_r|]. cbn in Hd. lia.
Qed.
End code.

(** * What the stack usage check has accepted *)

Lemma safe_returns {A} (m : VMResult A) : safe m (λ _, True) → ∃ r, m = Ret r.
Proof. intros (r & -> & _). by exists r. Qed.
Lemma call_ok_effect resolver fh args : call_ok resolver fh args → ∃ r, StackUsage.call_effect resolver fh = Ret r.
Proof. intros (ps & rs & Hps & Hrs & _). unfold StackUsage.call_effect. rewrite Hps, Hrs. by eexists. Qed.
Lemma instr_ok_effect resolver fv i : instr_ok resolver fv i → operands_ok i ∧ ∃ r, StackUsage.instruction_effect resolver fv i = Ret r.
Proof.
  intros Hok. split; [destruct i; try done; apply Hok|]. destruct i; cbn in *; try (by eexists).
  - destruct Hok as (fh & -> & Hc). by apply call_ok_effect in Hc.
  - destruct Hok as (fi & fh & args & -> & Hfh & _ & Hc). cbn. rewrite Hfh. by apply call_ok_effect in Hc.
  - apply safe_returns. by eapply safe_bind; [|intros; apply safe_ret].
  - apply safe_returns. eapply safe_bind; [exact Hok|]. intros si (args & _ & Hsd). by eapply safe_bind; [|intros; apply safe_ret].
  - apply safe_returns. by eapply safe_bind; [|intros; apply safe_ret].
  - apply safe_returns. eapply safe_bind; [exact Hok|]. intros si (args & _ & Hsd). by eapply safe_bind; [|intros; apply safe_ret].
Qed.
Lemma stack_accepted config resolver fv : (∀ pc i, instr_at (fv_code fv) pc i → instr_ok resolver fv i) →
  limits_ok config → blocks_ok (fv_code fv) (blocks (fv_cfg fv)) → StackUsage.verify config resolver fv = Ret (Ok tt) →
  ∀ b bb, blocks (fv_cfg fv) !! b = Some bb → balanced config resolver fv b bb.
Proof.
  intros Hok Hlim Hb Hv. destruct (verify_exact config resolver fv Hlim) as (r & Hr & Hiff); [intros pc i Hi; by apply (instr_ok_effect resolver fv), (Hok pc)..|done|].
  rewrite Hv in Hr. injection Hr as <-. by apply Hiff.
Qed.

(** What is known along the paths of accepted code. *)
Definition paths_typed (resolver : BinaryIndexedView) (fv : FunctionView) : Prop :=
  ∀ pc σ i, types_at resolver fv pc σ → instr_at (fv_code fv) pc i →
    (∃ σ', typed resolver fv i σ σ') ∧ (∀ σ', types_at resolver fv pc σ' → σ' = σ) ∧
    depth resolver fv pc (heightZ σ) ∧ (i = BC.Ret → σ = rev (fv_return_ fv)).

Lemma type_check_spec {M : Type} `{!Meter M} config resolver fv (meter : M) :
  limits_ok config → wf_code (fv_code fv) → Cfg.new (fv_code fv) = Ret (fv_cfg fv) →
  (∀ pc i, instr_at (fv_code fv) pc i → instr_ok resolver fv i) → Z.of_nat (length (fv_return_ fv)) < U64_MOD →
  StackUsage.verify config resolver fv = Ret (Ok tt) →
  ∃ r meter', TypeSafety.verify resolver fv meter = Ret (r, meter') ∧
    (unmetered (M := M) → r = Ok tt ↔ ∀ b bb, blocks (fv_cfg fv) !! b = Some bb → well_typed resolver fv b bb) ∧
    (r = Ok tt → paths_typed resolver fv).
Proof.
  intros Hlim Hwf Hcfg Hok Hret Hstack. destruct (cfg_new_ok (fv_code fv) Hwf) as (g & order & Hg & Hb & _). rewrite Hcfg in Hg. injection Hg as <-.
  pose proof (stack_accepted config resolver fv Hok Hlim Hb Hstack) as Hbal.
  destruct (type_check_exact config resolver fv Hret Hok Hlim Hwf Hb Hbal meter) as (r & meter' & Hrun & Hs & Hc).
  exists r, meter'. split_and!; [done|intros Hfree; split; auto|]. intros Hr pc σ i Hσ Hi. pose proof (Hs Hr) as Hall.
  split_and!; [by eapply types_progress|intros; by eapply types_unique|by eapply types_depth|]. intros ->. by eapply types_return.
Qed.

(** C7: the type check of function bodies is exact and keeps the operands typed.  For a body that the stack
    usage check has accepted, whose lookups do not fail, the check returns, whatever the meter; with a
    meter that never refuses it accepts if and only if the instructions of every basic block fit the typing
    rules, from an empty stack to an empty stack.  In accepted code no path gets stuck: wherever one gets to,
    the instruction there fits the types of the operands, these are the same on every path, their number is
    the height that the stack usage check computed, and [Ret] finds exactly the declared types. *)
Theorem type_check_correct {M : Type} `{!Meter M} config resolver fv (meter : M) :
  limits_ok config → wf_code (fv_code fv) → Cfg.new (fv_code fv) = Ret (fv_cfg fv) →
  (∀ pc i, instr_at (fv_code fv) pc i → instr_ok resolver fv i) → Z.of_nat (length (fv_return_ fv)) < U64_MOD →
  StackUsage.verify config resolver fv = Ret (Ok tt) →
  ∃ r meter', TypeSafety.verify resolver fv meter = Ret (r, meter') ∧
    (unmetered (M := M) → r = Ok tt ↔ ∀ b bb, blocks (fv_cfg fv) !! b = Some bb → well_typed resolver fv b bb) ∧
    (r = Ok tt → ∀ pc σ i, types_at resolver fv pc σ → instr_at (fv_code fv) pc i →
      (∃ σ', typed resolver fv i σ σ') ∧ (∀ σ', types_at resolver fv pc σ' → σ' = σ) ∧
      depth resolver fv pc (heightZ σ) ∧ (i = BC.Ret → σ = rev (fv_return_ fv))).
Proof. apply type_check_spec. Qed.

(** * Examples *)
Module LoopTypes.
Import LoopStack.

Lemma type_check_correct_witness :
  ∃ r, TypeSafety.verify (ModuleView unit_) (view code) tt = Ret (r, tt) ∧ r = Ok tt ∧
    ∀ σ, types_at (ModuleView unit_) (view code) 8 σ → σ = [TU64].
Proof.
  destruct (type_check_correct config (ModuleView unit_) (view code) tt) as (r & [] & Hr & _ & Hpaths).
  - split; [done|]. intros m Hm. discriminate Hm.
  - by apply wf_code_bool.
  - vm_compute. reflexivity.
  - apply (instr_at_Forall (instr_ok (ModuleView unit_) (view code))).
    repeat (apply Forall_cons_2; [first [exact I|exists TU64; split; [reflexivity|by apply wt_eq]]|]); by apply Forall_nil_2.
  - done.
  - vm_compute. reflexivity.
  - exists r. split; [exact Hr|]. assert (r = Ok tt) as Hok.
    { assert (TypeSafety.verify (ModuleView unit_) (view code) tt = Ret (Ok tt, tt)) as Hv by (vm_compute; reflexivity). congruence. }
    split; [exact Hok|]. intros σ Hσ. destruct (Hpaths Hok 8 σ BC.Ret Hσ) as (_ & _ & _ & Hret); [split; [lia|reflexivity]|]. by apply Hret.
Defined.

(** Operands of different types, and a result of the wrong type. *)
Lemma ill_typed_rejected :
  TypeSafety.verify (ModuleView unit_) (view [BC.LdTrue; BC.LdU64 1; BC.Add; BC.Ret]) tt = Ret (Err INTEGER_OP_TYPE_MISMATCH_ERROR, tt) ∧
  TypeSafety.verify (ModuleView unit_) (view [BC.LdTrue; BC.Ret]) tt = Ret (Err RET_TYPE_MISMATCH_ERROR, tt).
Proof. vm_compute. done. Qed.
End LoopTypes.
