(* ===== verification/Lookups.v ===== *)
(** What is known of the tables of a module that has been loaded: every lookup that the passes of the
    bytecode verifier make finds an entry, and the types there are known and in scope. *)
From S2P Require Import Prelude MoveFormat BinaryFormat Serializer CheckBounds Deserializer Codec TokenCodec BoundsSafety Totality Tables ModuleBytes RoundTrip ControlFlowGraph AbsInt AbstractStack StackUsage LocalsSafety LoopSummary Reducibility LoadedCode TypeSafety TypingRules.

(** As many arguments as parameters, in all parts of a type. *)
Section arity.
Context (resolver : BinaryIndexedView).
Definition node_arity (ty : SignatureToken) : Prop :=
  match ty with
  | TStructInstantiation idx args => ∃ sh, View.struct_handle_at resolver idx = Ret sh ∧ length (sh_type_parameters sh) = length args
  | TStruct idx => ∃ sh, View.struct_handle_at resolver idx = Ret sh ∧ sh_type_parameters sh = []
  | _ => True
  end.
Definition arity_ok (ty : SignatureToken) : Prop := Forall node_arity (nodes ty).
Lemma arity_ok_eq ty : arity_ok ty ↔ node_arity ty ∧ Forall arity_ok (Token.children ty).
Proof. unfold arity_ok at 1. by rewrite nodes_eq, Forall_cons, Forall_concat, Forall_fmap. Qed.
End arity.

Section module_.
Context (m : CompiledModule).
Hypothesis Hvalid : valid_module (m_version m) m.
Hypothesis Hbounds : in_bounds (ModuleView m).
Abbreviation view := (ModuleView m).

Lemma wt_intro n ty : valid_token (m_version m) ty → type_in_bounds view ty → type_in_scope n ty → TypingRules.wt view n ty.
Proof.
  unfold valid_token, type_in_bounds, type_in_scope, TypingRules.wt. rewrite !Forall_forall. intros Hv Hb Hs x Hx.
  specialize (Hv x Hx). specialize (Hb x Hx). specialize (Hs x Hx). destruct x; cbn in *; try done.
  - destruct Hv as [H0 _], Hb as [Hb _]. destruct (at_index_below _ _ H0 Hb) as (sh & Hsh & _). by exists sh.
  - destruct Hv as [[H0 _] _], Hb as [Hb _]. destruct (at_index_below _ _ H0 Hb) as (sh & Hsh & _). by exists sh.
  - destruct Hv. lia.
Qed.
Lemma arity_intro ty : valid_token (m_version m) ty → type_in_bounds view ty → arity_ok view ty.
Proof.
  unfold valid_token, type_in_bounds, arity_ok. rewrite !Forall_forall. intros Hv Hb x Hx.
  specialize (Hv x Hx). specialize (Hb x Hx). destruct x; cbn in *; try done.
  - destruct Hv as [H0 _], Hb as [Hb Ha]. destruct (at_index_below _ _ H0 Hb) as (sh & Hsh & _). exists sh. split; [done|]. by apply Ha, get_at_index.
  - destruct Hv as [[H0 _] _], Hb as [Hb Ha]. destruct (at_index_below _ _ H0 Hb) as (sh & Hsh & _). exists sh. split; [done|]. by apply Ha, get_at_index.
Qed.

(** ** Signatures and functions *)

Definition signature_known (n : nat) (idx : Z) : Prop :=
  ∃ sig, View.signature_at view idx = Ret sig ∧ sig ∈ signatures m ∧ Forall (TypingRules.wt view n) sig.

Lemma signature_is_known n idx : is_u16 idx → below (signatures m) idx → signature_in_scope view n idx → signature_known n idx.
Proof using All.
  intros Hu Hb Hs. destruct (signature_found m idx Hu Hb) as (sig & Hsig & Hin). exists sig. split; [done|]. split; [done|].
  pose proof (valid_entry m Hvalid SIGNATURES sig Hin) as Hv. pose proof (ib_signatures _ Hbounds) as Hall. eapply Forall_forall in Hall; [|exact Hin].
  specialize (Hs sig (proj2 (get_at_index _ _ _) Hsig)). cbn in Hv. rewrite Forall_forall in *. intros ty Hty. apply wt_intro; auto.
Qed.

Definition handle_known (fh : FunctionHandle) : Prop :=
  signature_known (length (fh_type_parameters fh)) (fh_parameters fh) ∧ signature_known (length (fh_type_parameters fh)) (fh_return_ fh).
Lemma handle_is_known fh : fh ∈ function_handles m → handle_known fh.
Proof using All.
  intros Hin. pose proof (valid_entry m Hvalid FUNCTION_HANDLES fh Hin) as (_ & _ & Hp & Hr & _).
  pose proof (ib_function_handles _ Hbounds) as Hall. eapply Forall_forall in Hall as (_ & _ & Hbp & Hbr & Hsp & Hsr); [|exact Hin].
  split; by apply signature_is_known.
Qed.
Lemma function_is_known idx : 0 <= idx → below (function_handles m) idx → ∃ fh, View.function_handle_at view idx = Ret fh ∧ handle_known fh.
Proof using All. intros H0 Hb. destruct (at_index_below _ _ H0 Hb) as (fh & Hfh & Hin). exists fh. split; [done|]. by apply handle_is_known. Qed.

Lemma function_inst_is_known n idx : 0 <= idx → below (function_instantiations m) idx →
  (∀ inst, BoundsSafety.entry (function_instantiations m) idx inst → signature_in_scope view n (fi_type_parameters inst)) →
  ∃ fi fh, View.function_instantiation_at view idx = Ret fi ∧ View.function_handle_at view (fi_handle fi) = Ret fh ∧ handle_known fh ∧
    signature_known n (fi_type_parameters fi).
Proof using All.
  intros H0 Hb Hs. destruct (at_index_below _ _ H0 Hb) as (fi & Hfi & Hin). pose proof (valid_entry m Hvalid FUNCTION_INST fi Hin) as [[Hd _] Ht].
  pose proof (ib_function_insts _ Hbounds) as Hall. eapply Forall_forall in Hall as [Hbd Hbt]; [|exact Hin].
  destruct (function_is_known _ Hd Hbd) as (fh & Hfh & Hk). exists fi, fh. split_and!; [done..|]. apply signature_is_known; [done..|]. by apply Hs, get_at_index.
Qed.

(** ** Structs and fields *)

Definition field_known (n : nat) (ty : SignatureToken) : Prop := TypingRules.wt view n ty ∧ arity_ok view ty.
Definition struct_known (sd : StructDefinition) (sh : StructHandle) : Prop :=
  sd ∈ struct_defs m ∧ View.struct_handle_at view (sd_struct_handle sd) = Ret sh ∧
  ∀ fs, field_information sd = Declared fs → Forall (λ f, field_known (length (sh_type_parameters sh)) (fd_signature f)) fs.

Lemma struct_def_is_known sd : sd ∈ struct_defs m → ∃ sh, struct_known sd sh.
Proof using All.
  intros Hin. pose proof (valid_entry m Hvalid STRUCT_DEFS sd Hin) as [[H0 _] Hv]. pose proof (ib_struct_defs _ Hbounds) as Hall.
  eapply Forall_forall in Hall as [Hb Hf]; [|exact Hin]. cbn [View.tables] in Hb, Hf. destruct (at_index_below _ _ H0 Hb) as (sh & Hsh & _). exists sh.
  split; [done|]. split; [done|]. intros fs Hfs. unfold struct_arity in Hf. cbn [View.tables] in Hf. rewrite (proj2 (get_at_index _ _ _) Hsh) in Hf. unfold fields in Hf. rewrite Hfs in *.
  cbn in Hv. rewrite Forall_forall in *. intros f Hfin. destruct (Hf f Hfin) as (_ & ? & ?). destruct (Hv f Hfin). split; [by apply wt_intro|by apply arity_intro].
Qed.
Lemma struct_is_known idx : 0 <= idx → below (struct_defs m) idx → ∃ sd sh, View.struct_def_at view idx = Ret (Ok sd) ∧ struct_known sd sh.
Proof using All.
  intros H0 Hb. destruct (at_index_below _ _ H0 Hb) as (sd & Hsd & Hin). destruct (struct_def_is_known sd Hin) as (sh & Hsh). exists sd, sh. split; [|done].
  unfold View.struct_def_at, View.module_entry. by rewrite Hsd.
Qed.
Lemma struct_inst_is_known n idx : 0 <= idx → below (struct_def_instantiations m) idx →
  (∀ inst, opt_entry (Some (struct_def_instantiations m)) idx = Some inst → signature_in_scope view n (si_type_parameters inst)) →
  ∃ si sd sh, View.struct_instantiation_at view idx = Ret (Ok si) ∧ View.struct_def_at view (si_def si) = Ret (Ok sd) ∧ struct_known sd sh ∧
    signature_known n (si_type_parameters si).
Proof using All.
  intros H0 Hb Hs. destruct (at_index_below _ _ H0 Hb) as (si & Hsi & Hin). pose proof (valid_entry m Hvalid STRUCT_DEF_INST si Hin) as [[Hd _] Ht].
  pose proof (ib_struct_insts _ Hbounds) as Hall. eapply Forall_forall in Hall as [Hbd Hbt]; [|exact Hin]. cbn in Hbd.
  destruct (struct_is_known _ Hd Hbd) as (sd & sh & Hsd & Hk). exists si, sd, sh. split; [unfold View.struct_instantiation_at, View.module_entry; by rewrite Hsi|].
  split; [done|]. split; [done|]. apply signature_is_known; [done..|]. apply Hs. cbn. by apply get_at_index.
Qed.

Lemma field_handle_is_known idx : 0 <= idx → below (field_handles m) idx →
  ∃ fh sd sh, View.field_handle_at view idx = Ret (Ok fh) ∧ View.struct_def_at view (owner fh) = Ret (Ok sd) ∧ struct_known sd sh ∧
    ∀ fs, field_information sd = Declared fs → ∃ f, at_index fs (field fh) = Ret f.
Proof using All.
  intros H0 Hb. destruct (at_index_below _ _ H0 Hb) as (fh & Hfh & Hin). pose proof (valid_entry m Hvalid FIELD_HANDLE fh Hin) as [[Ho _] [Hf _]].
  pose proof (ib_field_handles _ Hbounds) as Hall. eapply Forall_forall in Hall as [Hbo Hbf]; [|exact Hin]. cbn in Hbo.
  destruct (struct_is_known _ Ho Hbo) as (sd & sh & Hsd & Hk). exists fh, sd, sh. split; [unfold View.field_handle_at, View.module_entry; by rewrite Hfh|].
  split_and!; [done..|]. intros fs Hfs. assert (below fs (field fh)) as Hbelow.
  { specialize (Hbf sd). unfold fields in Hbf. rewrite Hfs in Hbf. apply Hbf. cbn. apply get_at_index. unfold View.struct_def_at, View.module_entry in Hsd.
    destruct (at_index (struct_defs m) (owner fh)); try done. cbn in Hsd. congruence. }
  destruct (at_index_below _ _ Hf Hbelow) as (f & ? & _). by exists f.
Qed.
Lemma field_inst_is_known n idx : 0 <= idx → below (field_instantiations m) idx →
  (∀ inst, opt_entry (Some (field_instantiations m)) idx = Some inst → signature_in_scope view n (fdi_type_parameters inst)) →
  ∃ fi fh sd sh, View.field_instantiation_at view idx = Ret (Ok fi) ∧ View.field_handle_at view (fdi_handle fi) = Ret (Ok fh) ∧
    View.struct_def_at view (owner fh) = Ret (Ok sd) ∧ struct_known sd sh ∧
    (∀ fs, field_information sd = Declared fs → ∃ f, at_index fs (field fh) = Ret f) ∧ signature_known n (fdi_type_parameters fi).
Proof using All.
  intros H0 Hb Hs. destruct (at_index_below _ _ H0 Hb) as (fi & Hfi & Hin). pose proof (valid_entry m Hvalid FIELD_INST fi Hin) as [[Hd _] Ht].
  pose proof (ib_field_insts _ Hbounds) as Hall. eapply Forall_forall in Hall as [Hbd Hbt]; [|exact Hin]. cbn in Hbd.
  destruct (field_handle_is_known _ Hd Hbd) as (fh & sd & sh & ? & ? & ? & ?). exists fi, fh, sd, sh.
  split; [unfold View.field_instantiation_at, View.module_entry; by rewrite Hfi|]. split_and!; [done..|].
  apply signature_is_known; [done..|]. apply Hs. cbn. by apply get_at_index.
Qed.
End module_.

(** What the deserializer and the bounds checker together guarantee of a module. *)
Lemma loaded_module bytes max check m : bytes_ok bytes → Des.module_deserialize_with_config bytes max check = Ret (Ok m) → VERSION_5 <= m_version m →
  Des.deserialize_compiled_module bytes max check = Ret (Ok m) ∧ valid_module (m_version m) m ∧ in_bounds (ModuleView m).
Proof.
  intros Hok Hload H5. destruct (module_deserialize_returns bytes max check) as (r & Hr & Hm). rewrite Hload in Hr. injection Hr as <-.
  destruct (Hm m eq_refl) as (Hdes & _ & Hbounds). by destruct (load_then_save bytes max check m Hok Hdes H5) as [Hvalid _].
Qed.
