(* ===== verification/SignatureCheck.v ===== *)
(** The check of the types that a module or script uses
    ([move-bytecode-verifier/src/signature.rs]): references only at the top, type arguments that satisfy the
    constraints of the parameters they are for, phantom parameters only in phantom positions.

    The state is the cache of the signatures that have been checked, with the abilities of the type parameters
    that they were checked for.  Positions and messages of errors are left out. *)
From S2P Require Import Prelude MoveFormat BinaryFormat CheckBounds.

Module SignatureChecker.
Section checker.
Context (resolver : BinaryIndexedView).

(** [SignatureChecker]. *)
Definition Cache : Type := gmap Z (gset (list AbilitySet)).
Abbreviation SC := (ST Cache StatusCode).

(** ** References *)

Fixpoint check_signature_token (ty : SignatureToken) : VMResult unit :=
  match ty with
  | TU8 | TU16 | TU32 | TU64 | TU128 | TU256 | TBool | TAddress | TSigner | TStruct _ | TTypeParameter _ => mret tt
  | TReference _ | TMutableReference _ => vm_err INVALID_SIGNATURE_TOKEN
  | TVector ty => check_signature_token ty
  | TStructInstantiation _ type_arguments => for_all check_signature_token type_arguments
  end.

Definition check_signature_tokens (tys : list SignatureToken) : VMResult unit := for_all check_signature_token tys.

Definition check_signature (idx : Z) : VMResult unit :=
  signature ← vm_lift (View.signature_at resolver idx);
  for_all (λ token, match token with
    | TReference inner | TMutableReference inner => check_signature_token inner
    | _ => check_signature_token token
    end) signature.

Definition verify_signature_pool (signatures : list Signature) : VMResult unit :=
  for_all (λ i, check_signature (BC.u16 i)) (seqZ 0 (Z.of_nat (length signatures))).

(** ** Type arguments *)

Definition check_generic_instance (type_arguments : list SignatureToken) (constraints global_abilities : list AbilitySet) : VMResult unit :=
  if negb (length type_arguments =? length constraints)%nat then vm_err NUMBER_OF_TYPE_ARGUMENTS_MISMATCH
  else
    for_all (λ e : AbilitySet * SignatureToken,
      given ← View.abilities resolver e.2 global_abilities;
      if negb (Abilities.is_subset e.1 given) then vm_err CONSTRAINT_NOT_SATISFIED else mret tt) (zip constraints type_arguments).

Definition type_param_constraints (sh : StructHandle) : list AbilitySet := constraints <$> sh_type_parameters sh.

Definition check_type_instantiation_ (type_parameters : list AbilitySet) (s : SignatureToken) : VMResult unit :=
  match s with
  | TStructInstantiation idx type_arguments =>
      sh ← vm_lift (View.struct_handle_at resolver idx);
      check_generic_instance type_arguments (type_param_constraints sh) type_parameters
  | _ => mret tt
  end.

Definition check_type_instantiation (s : SignatureToken) (type_parameters : list AbilitySet) : VMResult unit :=
  if VERSION_6 <=? View.version resolver then
    nodes ← vm_lift (Token.preorder_traversal s); for_all (check_type_instantiation_ type_parameters) nodes
  else check_type_instantiation_ type_parameters s.

Definition check_instantiation (idx : Z) (type_parameters : list AbilitySet) : SC unit :=
  cache ← gets id;
  if match cache !! idx with Some checked_abilities => bool_decide (type_parameters ∈ checked_abilities) | None => false end then mret tt
  else
    lift_vm (signature ← vm_lift (View.signature_at resolver idx);
             for_all (λ ty, check_type_instantiation ty type_parameters) signature);;
    modify (λ cache, <[idx := {[ type_parameters ]} ∪ default ∅ (cache !! idx)]> cache).

(** [for x in l { f(x)? }] with the cache. *)
Fixpoint for_each {A} (f : A → SC unit) (l : list A) : SC unit :=
  match l with [] => mret tt | x :: l => f x;; for_each f l end.

Definition verify_function_signatures (function_handles : list FunctionHandle) : SC unit :=
  for_each (λ fh,
    check_instantiation (fh_return_ fh) (fh_type_parameters fh);;
    check_instantiation (fh_parameters fh) (fh_type_parameters fh)) function_handles.

(** ** Fields *)

Fixpoint check_phantom_params (ty : SignatureToken) (is_phantom_pos : bool) (type_parameters : list StructTypeParameter) : VMResult unit :=
  match ty with
  | TVector ty => check_phantom_params ty false type_parameters
  | TStructInstantiation idx type_arguments =>
      sh ← vm_lift (View.struct_handle_at resolver idx);
      (fix go (i : Z) (tys : list SignatureToken) : VMResult unit :=
         match tys with
         | [] => mret tt
         | ty :: tys =>
             p ← vm_lift (at_index (sh_type_parameters sh) i);
             check_phantom_params ty (is_phantom p) type_parameters;;
             go (i + 1) tys
         end) 0 type_arguments
  | TTypeParameter idx =>
      p ← vm_lift (at_index type_parameters idx);
      if is_phantom p && negb is_phantom_pos then vm_err INVALID_PHANTOM_TYPE_PARAM_POSITION else mret tt
  | _ => mret tt
  end.

Definition verify_fields (struct_defs : list StructDefinition) : VMResult unit :=
  for_all (λ struct_def,
    match field_information struct_def with
    | NativeFields => mret tt
    | Declared fields =>
        struct_handle ← vm_lift (View.struct_handle_at resolver (sd_struct_handle struct_def));
        for_all (λ field_def,
          check_signature_token (fd_signature field_def);;
          check_type_instantiation (fd_signature field_def) (type_param_constraints struct_handle);;
          check_phantom_params (fd_signature field_def) false (sh_type_parameters struct_handle)) fields
    end) struct_defs.

(** ** Code *)

Definition check_arguments (type_arguments_at : Z) (constraints type_parameters : list AbilitySet) : VMResult unit :=
  type_arguments ← vm_lift (View.signature_at resolver type_arguments_at);
  check_signature_tokens type_arguments;;
  check_generic_instance type_arguments constraints type_parameters.

Definition verify_instr (type_parameters : list AbilitySet) (instr : BC.Bytecode) : VMResult unit :=
  match instr with
  | BC.CallGeneric idx =>
      func_inst ← vm_lift (View.function_instantiation_at resolver idx);
      func_handle ← vm_lift (View.function_handle_at resolver (fi_handle func_inst));
      check_arguments (fi_type_parameters func_inst) (fh_type_parameters func_handle) type_parameters
  | BC.PackGeneric idx | BC.UnpackGeneric idx | BC.ExistsGenericDeprecated idx | BC.MoveFromGenericDeprecated idx
  | BC.MoveToGenericDeprecated idx | BC.ImmBorrowGlobalGenericDeprecated idx | BC.MutBorrowGlobalGenericDeprecated idx =>
      struct_inst ← View.struct_instantiation_at resolver idx;
      struct_def ← View.struct_def_at resolver (si_def struct_inst);
      struct_handle ← vm_lift (View.struct_handle_at resolver (sd_struct_handle struct_def));
      check_arguments (si_type_parameters struct_inst) (type_param_constraints struct_handle) type_parameters
  | BC.ImmBorrowFieldGeneric idx | BC.MutBorrowFieldGeneric idx =>
      field_inst ← View.field_instantiation_at resolver idx;
      field_handle ← View.field_handle_at resolver (fdi_handle field_inst);
      struct_def ← View.struct_def_at resolver (owner field_handle);
      struct_handle ← vm_lift (View.struct_handle_at resolver (sd_struct_handle struct_def));
      check_arguments (fdi_type_parameters field_inst) (type_param_constraints struct_handle) type_parameters
  | BC.VecPack idx _ | BC.VecLen idx | BC.VecImmBorrow idx | BC.VecMutBorrow idx | BC.VecPushBack idx | BC.VecPopBack idx
  | BC.VecUnpack idx _ | BC.VecSwap idx =>
      type_arguments ← vm_lift (View.signature_at resolver idx);
      if negb (length type_arguments =? 1)%nat then vm_err NUMBER_OF_TYPE_ARGUMENTS_MISMATCH
      else check_signature_tokens type_arguments
  | _ => mret tt
  end.

Definition verify_code (code : CodeUnit) (type_parameters : list AbilitySet) : SC unit :=
  check_instantiation (cu_locals code) type_parameters;;
  lift_vm (for_all (verify_instr type_parameters) (cu_code code)).

Definition verify_code_units (function_handles : list FunctionHandle) (function_defs : list FunctionDefinition) : SC unit :=
  for_each (λ func_def,
    match fn_code func_def with
    | None => mret tt
    | Some code =>
        func_handle ← lift_o (at_index function_handles (fn_function func_def));
        verify_code code (fh_type_parameters func_handle)
    end) function_defs.
End checker.

Definition verify_module_impl (module_ : CompiledModule) : VMResult unit :=
  let resolver := ModuleView module_ in
  r ← (lift_vm (verify_signature_pool resolver (signatures module_));;
       verify_function_signatures resolver (function_handles module_);;
       lift_vm (verify_fields resolver (struct_defs module_));;
       verify_code_units resolver (function_handles module_) (function_defs module_)) ∅;
  Ret r.1.

Definition verify_script_impl (script : CompiledScript) : VMResult unit :=
  let resolver := ScriptView script in
  r ← (lift_vm (verify_signature_pool resolver (signatures script));;
       verify_function_signatures resolver (function_handles script);;
       check_instantiation resolver (s_parameters script) (s_type_parameters script);;
       verify_code resolver (s_code script) (s_type_parameters script)) ∅;
  Ret r.1.
End SignatureChecker.
