(* ===== verification/SignatureSafety.v ===== *)
(** What the signature check accepts ([move-bytecode-verifier/src/signature.rs]): it returns on every module
    whose indexes are in range, and its cache does not change what it decides. *)
From S2P Require Import Prelude MoveFormat BinaryFormat Serializer CheckBounds Deserializer Codec TokenCodec BoundsSafety Totality Tables ModuleBytes RoundTrip ControlFlowGraph AbsInt AbstractStack StackUsage LocalsSafety LoopSummary Reducibility LoadedCode TypeSafety TypingRules Lookups SignatureCheck.
Import SignatureChecker.

(** * What is checked *)

Section spec.
Context (resolver : BinaryIndexedView).

(** No part of the type is a reference. *)
Definition ref_free (ty : SignatureToken) : Prop := Forall (λ n, Token.is_reference n = false) (nodes ty).
(** The type may itself be a reference, but not to a type with references. *)
Definition ref_at_top (ty : SignatureToken) : Prop := match ty with TReference t | TMutableReference t => ref_free t | _ => ref_free ty end.

(** Each argument has the abilities that its parameter asks for. *)
Definition satisfies (tps : list AbilitySet) (c : AbilitySet) (arg : SignatureToken) : Prop :=
  ∃ given, View.abilities resolver arg tps = Ret (Ok given) ∧ Abilities.is_subset c given = true.
Definition args_satisfy (tps cs : list AbilitySet) (args : list SignatureToken) : Prop := Forall2 (satisfies tps) cs args.

Definition node_satisfied (tps : list AbilitySet) (ty : SignatureToken) : Prop :=
  match ty with
  | TStructInstantiation idx args => ∃ sh, View.struct_handle_at resolver idx = Ret sh ∧ args_satisfy tps (type_param_constraints sh) args
  | _ => True
  end.
(** All parts of a type, or just the whole of it in an old module. *)
Definition satisfied (tps : list AbilitySet) (ty : SignatureToken) : Prop :=
  if VERSION_6 <=? View.version resolver then Forall (node_satisfied tps) (nodes ty) else node_satisfied tps ty.
Definition signature_satisfied (tps : list AbilitySet) (idx : Z) : Prop :=
  ∃ sig, View.signature_at resolver idx = Ret sig ∧ Forall (satisfied tps) sig.

(** [occurs idx q pos ty]: in the type [ty], at a phantom position if [pos], the type parameter [idx] occurs,
    at a phantom position if [q]. *)
Inductive occurs (idx : Z) (q : bool) : bool → SignatureToken → Prop :=
  | occurs_here : occurs idx q q (TTypeParameter idx)
  | occurs_vector pos ty : occurs idx q false ty → occurs idx q pos (TVector ty)
  | occurs_argument pos sidx args sh i p arg :
      View.struct_handle_at resolver sidx = Ret sh → sh_type_parameters sh !! i = Some p → args !! i = Some arg →
      occurs idx q (is_phantom p) arg → occurs idx q pos (TStructInstantiation sidx args).
(** Phantom type parameters occur at phantom positions only. *)
Definition phantom_ok (tps : list StructTypeParameter) (pos : bool) (ty : SignatureToken) : Prop :=
  ∀ idx q p, occurs idx q pos ty → at_index tps idx = Ret p → is_phantom p = true → q = true.

Definition field_ok_in (sh : StructHandle) (f : FieldDefinition) : Prop :=
  ref_free (fd_signature f) ∧ satisfied (type_param_constraints sh) (fd_signature f) ∧ phantom_ok (sh_type_parameters sh) false (fd_signature f).
Definition fields_ok (sd : StructDefinition) : Prop :=
  ∀ fs, field_information sd = Declared fs → ∃ sh, View.struct_handle_at resolver (sd_struct_handle sd) = Ret sh ∧ Forall (field_ok_in sh) fs.

(** The type arguments of an instruction: no references, and as the parameters ask for. *)
Definition arguments_ok (tps cs : list AbilitySet) (idx : Z) : Prop :=
  ∃ args, View.signature_at resolver idx = Ret args ∧ Forall ref_free args ∧ args_satisfy tps cs args.
Definition struct_arguments_ok (tps : list AbilitySet) (def args : Z) : Prop :=
  ∃ sd sh, View.struct_def_at resolver def = Ret (Ok sd) ∧ View.struct_handle_at resolver (sd_struct_handle sd) = Ret sh ∧
    arguments_ok tps (type_param_constraints sh) args.
Definition instr_types_ok (tps : list AbilitySet) (i : BC.Bytecode) : Prop :=
  match i with
  | BC.CallGeneric idx => ∃ fi fh, View.function_instantiation_at resolver idx = Ret fi ∧ View.function_handle_at resolver (fi_handle fi) = Ret fh ∧
      arguments_ok tps (fh_type_parameters fh) (fi_type_parameters fi)
  | BC.PackGeneric idx | BC.UnpackGeneric idx | BC.ExistsGenericDeprecated idx | BC.MoveFromGenericDeprecated idx
  | BC.MoveToGenericDeprecated idx | BC.ImmBorrowGlobalGenericDeprecated idx | BC.MutBorrowGlobalGenericDeprecated idx =>
      ∃ si, View.struct_instantiation_at resolver idx = Ret (Ok si) ∧ struct_arguments_ok tps (si_def si) (si_type_parameters si)
  | BC.ImmBorrowFieldGeneric idx | BC.MutBorrowFieldGeneric idx =>
      ∃ fi fh, View.field_instantiation_at resolver idx = Ret (Ok fi) ∧ View.field_handle_at resolver (fdi_handle fi) = Ret (Ok fh) ∧
        struct_arguments_ok tps (owner fh) (fdi_type_parameters fi)
  | BC.VecPack idx _ | BC.VecLen idx | BC.VecImmBorrow idx | BC.VecMutBorrow idx | BC.VecPushBack idx | BC.VecPopBack idx
  | BC.VecUnpack idx _ | BC.VecSwap idx => ∃ t, View.signature_at resolver idx = Ret [t] ∧ ref_free t
  | _ => True
  end.
Definition code_types_ok (tps : list AbilitySet) (code : CodeUnit) : Prop :=
  signature_satisfied tps (cu_locals code) ∧ Forall (instr_types_ok tps) (cu_code code).
End spec.

Record signatures_ok (m : CompiledModule) : Prop := {
  so_pool : ∀ idx sig, is_u16 idx → View.signature_at (ModuleView m) idx = Ret sig → Forall ref_at_top sig;
  so_handles : Forall (λ fh, signature_satisfied (ModuleView m) (fh_type_parameters fh) (fh_return_ fh) ∧
    signature_satisfied (ModuleView m) (fh_type_parameters fh) (fh_parameters fh)) (function_handles m);
  so_fields : Forall (fields_ok (ModuleView m)) (struct_defs m);
  so_code : Forall (λ d, ∀ code, fn_code d = Some code → ∃ fh, at_index (function_handles m) (fn_function d) = Ret fh ∧
    code_types_ok (ModuleView m) (fh_type_parameters fh) code) (function_defs m);
}.

(** * Types *)

(** A check after a lookup. *)
Lemma checks_get {A} (o : outcome A) f x P : o = Ret x → checks (f x) (P x) → checks (vm_lift o ≫= f) (∃ y, o = Ret y ∧ P y).
Proof. intros -> (r & Hr & Hiff). exists r. split; [done|]. naive_solver. Qed.
Lemma checks_get_vm {A} (o : VMResult A) f x P : o = Ret (Ok x) → checks (f x) (P x) → checks (o ≫= f) (∃ y, o = Ret (Ok y) ∧ P y).
Proof. intros -> (r & Hr & Hiff). exists r. split; [done|]. naive_solver. Qed.

Section types.
Context (resolver : BinaryIndexedView).

Lemma ref_free_eq ty : ref_free ty ↔ Token.is_reference ty = false ∧ Forall ref_free (Token.children ty).
Proof. unfold ref_free. by rewrite nodes_eq, Forall_cons, Forall_concat, Forall_fmap. Qed.

Lemma checks_token ty : checks (check_signature_token ty) (ref_free ty).
Proof.
  induction ty as [ty IH] using token_ind'. eapply checks_iff; [|symmetry; apply ref_free_eq].
  destruct ty as [| | | | | |t|idx|idx args|t|t|idx| | |]; cbn [check_signature_token Token.is_reference Token.children] in *;
    try (eapply checks_iff; [apply checks_ret|]; by rewrite Forall_nil); try (eapply checks_iff; [apply checks_err|]; naive_solver).
  - apply Forall_cons in IH as [IH _]. eapply checks_iff; [exact IH|]. rewrite Forall_singleton. naive_solver.
  - rewrite Forall_forall in IH. eapply checks_iff; [by apply (checks_for_all _ ref_free)|naive_solver].
Qed.
Lemma checks_tokens tys : checks (check_signature_tokens tys) (Forall ref_free tys).
Proof. apply checks_for_all. intros ty _. apply checks_token. Qed.
Lemma checks_top ty :
  checks (match ty with TReference inner | TMutableReference inner => check_signature_token inner | _ => check_signature_token ty end) (ref_at_top ty).
Proof. destruct ty; apply checks_token. Qed.

(** ** Type arguments *)

Lemma zip_Forall {A B} (P : A → B → Prop) l k : length l = length k → Forall (λ e : A * B, P e.1 e.2) (zip l k) ↔ Forall2 P l k.
Proof.
  revert k. induction l as [|x l IH]; intros [|y k] Hlen; try done; cbn [zip zip_with].
  rewrite Forall_cons, Forall2_cons, IH by (cbn in Hlen; lia). done.
Qed.

Lemma checks_generic tps cs args : Forall (TypingRules.wt resolver (length tps)) args →
  checks (check_generic_instance resolver args cs tps) (args_satisfy resolver tps cs args).
Proof.
  intros Hargs. unfold check_generic_instance. destruct (Nat.eqb_spec (length args) (length cs)) as [Hlen|Hlen]; cbn [negb].
  - eapply checks_iff; [|apply (zip_Forall (satisfies resolver tps)); lia]. apply checks_for_all. intros [c arg] Hin. cbn [fst snd].
    apply elem_of_zip_r in Hin. eapply Forall_forall in Hargs; [|exact Hin]. destruct (abilities_defined resolver tps arg Hargs) as ([given|e] & Hr).
    + rewrite Hr. cbn [mbind vm_bind]. eapply checks_iff; [by apply checks_unless|]. unfold satisfies. rewrite Hr, negb_false_iff. naive_solver.
    + rewrite Hr. exists (Err e). split; [done|]. unfold satisfies. rewrite Hr. naive_solver.
  - eapply checks_iff; [apply checks_err|]. split; [done|]. intros Hall%Forall2_length. lia.
Qed.

Lemma wt_nodes n ty x : TypingRules.wt resolver n ty → x ∈ nodes ty → TypingRules.wt resolver n x.
Proof.
  revert x. induction ty as [ty IH] using token_ind'. intros x Hty Hx. rewrite nodes_eq in Hx. apply elem_of_cons in Hx as [->|Hx]; [done|].
  apply wt_eq in Hty as [_ Hc]. apply list_elem_of_In, in_concat in Hx as (l & Hl%list_elem_of_In & Hx%list_elem_of_In).
  apply list_elem_of_fmap in Hl as (c & -> & Hin).
  rewrite Forall_forall in IH, Hc. eapply IH; [done|by apply Hc|done].
Qed.

Lemma checks_node tps ty : TypingRules.wt resolver (length tps) ty → checks (check_type_instantiation_ resolver tps ty) (node_satisfied resolver tps ty).
Proof.
  intros [Hn Hc]%wt_eq. destruct ty; cbn in *; try apply checks_ret. destruct Hn as [sh Hsh]. rewrite Hsh. cbn [mbind vm_bind vm_lift].
  eapply checks_iff; [by apply checks_generic|]. naive_solver.
Qed.
Lemma checks_satisfied tps ty : TypingRules.wt resolver (length tps) ty → checks (check_type_instantiation resolver ty tps) (satisfied resolver tps ty).
Proof.
  intros Hty. unfold check_type_instantiation, satisfied. case_match; [|by apply checks_node]. rewrite traversal_eq. cbn [mbind vm_bind vm_lift].
  apply checks_for_all. intros x Hx. by apply checks_node, (wt_nodes _ ty).
Qed.

(** ** Phantom parameters *)

Lemma at_index_lookup {A} (l : list A) (i : nat) x : at_index l (Z.of_nat i) = Ret x ↔ l !! i = Some x.
Proof. unfold at_index. destruct (Z.ltb_spec (Z.of_nat i) 0); [lia|]. rewrite Nat2Z.id. destruct (l !! i); cbn; naive_solver. Qed.

Lemma checks_phantom tps pos ty : TypingRules.wt resolver (length tps) ty → arity_ok resolver ty →
  checks (check_phantom_params resolver ty pos tps) (phantom_ok resolver tps pos ty).
Proof.
  revert pos. induction ty as [ty IH] using token_ind'. intros pos [Hn Hc]%wt_eq [Ha Hac]%arity_ok_eq.
  destruct ty as [| | | | | |t|sidx|sidx args|t|t|idx| | |]; cbn [check_phantom_params Token.children] in *;
    try (eapply checks_iff; [apply checks_ret|]; split; [|done]; by intros _ idx' q p Ho; inversion Ho).
  - apply Forall_cons in IH as [IH _], Hc as [Hc _], Hac as [Hac _]. eapply checks_iff; [by apply IH|]. split.
    + intros Hok idx q p Ho. inversion Ho; subst. by apply Hok.
    + intros Hok idx q p Ho. eapply Hok. by constructor.
  - destruct Ha as (sh & Hsh & Hlen). rewrite Hsh. cbn [mbind vm_bind vm_lift].
    cut (∀ (k : nat) as_, args = take k args ++ as_ → length (take k args) = k →
      checks ((fix go i tys := match tys with [] => mret tt | ty :: tys =>
         p ← vm_lift (at_index (sh_type_parameters sh) i); check_phantom_params resolver ty (is_phantom p) tps;; go (i + 1) tys end) (Z.of_nat k) as_)
        (∀ i p arg, (k <= i)%nat → sh_type_parameters sh !! i = Some p → args !! i = Some arg → phantom_ok resolver tps (is_phantom p) arg)).
    { intros Hcut. eapply checks_iff; [apply (Hcut 0%nat args); [by rewrite take_0|by rewrite take_0]|]. split.
      - intros Hok idx q p Ho. inversion Ho; subst. replace sh0 with sh in * by congruence. eapply Hok; [|done..]. lia.
      - intros Hok i p arg _ Hp Harg idx q p' Ho. eapply Hok. by econstructor. }
    intros k as_. revert k. induction as_ as [|a as_ IHas]; intros k Heq Hk.
    { eapply checks_iff; [apply checks_ret|]. split; [|done]. intros _ i p arg Hi _ Harg. rewrite app_nil_r in Heq. apply lookup_lt_Some in Harg.
      rewrite <- Heq in Hk. lia. }
    assert (args !! k = Some a) as Hak by (rewrite Heq, lookup_app_r, Hk, Nat.sub_diag by lia; done).
    assert (a ∈ args) as Hin by by eapply list_elem_of_lookup_2.
    destruct (lookup_lt_is_Some_2 (sh_type_parameters sh) k) as [p Hp]; [apply lookup_lt_Some in Hak; lia|].
    rewrite (proj2 (at_index_lookup _ _ _) Hp). cbn [mbind vm_bind vm_lift]. eapply checks_iff; [apply checks_bind|].
    + rewrite Forall_forall in IH, Hc, Hac. apply IH; auto.
    + intros _. replace (Z.of_nat k + 1) with (Z.of_nat (S k)) by lia. apply IHas.
      * rewrite (take_S_r _ _ _ Hak), <- app_assoc. done.
      * rewrite length_take. apply lookup_lt_Some in Hak. lia.
    + split.
      * intros [Hok Hrest] i p' arg Hi Hp' Harg. destruct (decide (i = k)) as [->|]; [by simplify_eq|]. eapply Hrest; [|done..]. lia.
      * intros Hok. split; [by eapply (Hok k)|]. intros i p' arg Hi. apply Hok. lia.
  - cbn in Hn. destruct (lookup_lt_is_Some_2 tps (Z.to_nat idx)) as [p Hp]; [lia|].
    assert (at_index tps idx = Ret p) as Hat by (rewrite <- (Z2Nat.id idx) by lia; by apply at_index_lookup). rewrite Hat. cbn [mbind vm_bind vm_lift].
    eapply checks_iff; [by apply checks_unless|]. rewrite andb_false_iff, negb_false_iff. split.
    + intros Hor idx' q p' Ho. inversion Ho; subst. rewrite Hat. intros [= <-] ?. by destruct Hor as [Hf|Ht]; [congruence|].
    + intros Hok. destruct (is_phantom p) eqn:Hph; [|by left]. right. eapply Hok; [constructor|done|done].
Qed.
End types.

(** * The cache *)

Section cache.
Context (resolver : BinaryIndexedView).
Abbreviation SC := (ST Cache StatusCode).

(** What the cache says has been checked. *)
Definition cache_ok (c : Cache) : Prop := ∀ idx s tps, c !! idx = Some s → tps ∈ s → signature_satisfied resolver tps idx.

(** From such a cache, [m] decides [P] and leaves such a cache. *)
Definition decides (m : SC unit) (P : Prop) : Prop := ∀ c, cache_ok c → ∃ r c', m c = Ret (r, c') ∧ cache_ok c' ∧ (r = Ok tt ↔ P).

Lemma decides_iff m P Q : decides m P → (P ↔ Q) → decides m Q.
Proof. intros Hm HPQ c Hc. destruct (Hm c Hc) as (r & c' & ? & ? & Hr). exists r, c'. by rewrite <- HPQ. Qed.
Lemma decides_lift (m : VMResult unit) P : checks m P → decides (lift_vm m) P.
Proof. intros (r & -> & Hr) c Hc. by exists r, c. Qed.
Lemma decides_ret : decides (mret tt) True.
Proof. intros c Hc. by exists (Ok tt), c. Qed.
Lemma decides_bind m1 (m2 : unit → SC unit) P1 P2 : decides m1 P1 → (P1 → decides (m2 tt) P2) → decides (m1 ≫= m2) (P1 ∧ P2).
Proof.
  intros H1 H2 c Hc. destruct (H1 c Hc) as (r & c1 & Hr & Hc1 & Hiff). unfold mbind, st_bind. rewrite Hr. destruct r as [[]|e].
  - destruct (H2 (proj1 Hiff eq_refl) c1 Hc1) as (r2 & c2 & ? & ? & Hiff2). exists r2, c2. split_and!; [done..|]. rewrite Hiff2. tauto.
  - exists (Err e), c1. split_and!; [done..|]. split; [done|]. by intros [?%Hiff _].
Qed.
Lemma decides_for_each {A} (f : A → SC unit) P l : (∀ x, x ∈ l → decides (f x) (P x)) → decides (for_each f l) (Forall P l).
Proof.
  induction l as [|x l IH]; intros Hf; cbn [for_each].
  - eapply decides_iff; [apply decides_ret|]. by rewrite Forall_nil.
  - eapply decides_iff; [apply decides_bind; [apply Hf; by left|intros _; apply IH; intros; apply Hf; by right]|]. by rewrite Forall_cons.
Qed.

Lemma decides_instantiation idx tps sig : View.signature_at resolver idx = Ret sig → Forall (TypingRules.wt resolver (length tps)) sig →
  decides (check_instantiation resolver idx tps) (signature_satisfied resolver tps idx).
Proof.
  intros Hsig Hwt c Hc. unfold check_instantiation. unfold mbind at 1, st_bind at 1, gets. cbn [id].
  destruct (match c !! idx with Some s => bool_decide (tps ∈ s) | None => false end) eqn:Hhit.
  - destruct (c !! idx) as [s|] eqn:Hs; [|done]. apply bool_decide_eq_true in Hhit. exists (Ok tt), c. split_and!; [done..|]. split; [|done]. intros _. by eapply Hc.
  - assert (checks (for_all (λ ty, check_type_instantiation resolver ty tps) sig) (Forall (satisfied resolver tps) sig)) as (r & Hr & Hiff).
    { rewrite Forall_forall in Hwt. apply checks_for_all. intros ty Hty. by apply checks_satisfied, Hwt. }
    assert (signature_satisfied resolver tps idx ↔ Forall (satisfied resolver tps) sig) as Hss.
    { unfold signature_satisfied. rewrite Hsig. naive_solver. }
    unfold mbind at 1, st_bind, lift_vm. rewrite Hsig. cbn [mbind vm_bind vm_lift]. rewrite Hr. destruct r as [[]|e].
    + exists (Ok tt), (<[idx := {[ tps ]} ∪ default ∅ (c !! idx)]> c). split; [done|]. rewrite Hss. split; [|done]. intros idx' s tps' Hl.
      apply (lookup_insert_Some (M := gmap Z)) in Hl as [[<- <-]|[Hne Hs]]; [|by eapply Hc].
      intros [->%elem_of_singleton|Hin]%elem_of_union; [by apply Hss, Hiff|]. destruct (c !! idx) as [s|] eqn:Hs; cbn in Hin; [by eapply Hc|set_solver].
    + eexists _, _. split; [done|]. by rewrite Hss.
Qed.
End cache.

(** * Modules *)

Section module_.
Context (m : CompiledModule).
Hypothesis Hvalid : valid_module (m_version m) m.
Hypothesis Hbounds : in_bounds (ModuleView m).
Abbreviation view := (ModuleView m).

Lemma checks_pool : checks (verify_signature_pool view (signatures m))
  (∀ idx sig, is_u16 idx → View.signature_at view idx = Ret sig → Forall ref_at_top sig).
Proof using Type.
  unfold verify_signature_pool. eapply checks_iff; [apply (checks_for_all _ (λ i, ∃ sig, View.signature_at view (BC.u16 i) = Ret sig ∧ Forall ref_at_top sig))|].
  - intros i [j [-> Hj]%lookup_seqZ]%list_elem_of_lookup. unfold check_signature.
    assert (0 <= BC.u16 (0 + Z.of_nat j) < Z.of_nat (length (signatures m))) as Hr by (pose proof (Z.mod_pos_bound (0 + Z.of_nat j) U16_MOD eq_refl); pose proof (Z.mod_le (0 + Z.of_nat j) U16_MOD); unfold BC.u16; lia).
    destruct (at_index_below (signatures m) (BC.u16 (0 + Z.of_nat j))) as (sig & Hsig & _); [lia|unfold below, lenZ; lia|].
    unfold View.signature_at in *. cbn [View.tables]. rewrite Hsig. cbn [mbind vm_bind vm_lift]. eapply checks_iff; [apply checks_for_all; intros ty _; apply checks_top|naive_solver].
  - rewrite Forall_forall. split.
    + intros Hall idx sig [Hu0 Hu1] Hsig. destruct (Hall idx) as (sig' & Hsig' & ?).
      * apply elem_of_seqZ. unfold View.signature_at in Hsig. cbn in Hsig. apply get_at_index in Hsig. unfold get in Hsig. case_match; [done|]. apply lookup_lt_Some in Hsig. lia.
      * unfold BC.u16 in Hsig'. rewrite Z.mod_small in Hsig' by (unfold U16_MOD in *; lia).
        rewrite Hsig in Hsig'. by injection Hsig' as <-.
    + intros Hall i Hi%elem_of_seqZ. assert (is_u16 (BC.u16 i)) as Hu by (apply Z.mod_pos_bound; done).
      assert (BC.u16 i <= i) by (apply Z.mod_le; [lia|done]). destruct Hu as [Hu0 Hu1].
      destruct (at_index_below (signatures m) (BC.u16 i)) as (sig & Hsig & _); [lia|unfold below, lenZ; lia|]. exists sig. split; [done|]. by apply (Hall (BC.u16 i)).
Qed.

Lemma decides_known n tps idx : length tps = n → signature_known m n idx → decides view (check_instantiation view idx tps) (signature_satisfied view tps idx).
Proof. intros <- (sig & Hsig & _ & Hwt). by eapply decides_instantiation. Qed.

Lemma decides_handles : decides view (verify_function_signatures view (function_handles m))
  (Forall (λ fh, signature_satisfied view (fh_type_parameters fh) (fh_return_ fh) ∧ signature_satisfied view (fh_type_parameters fh) (fh_parameters fh)) (function_handles m)).
Proof using All.
  apply decides_for_each. intros fh Hfh. destruct (handle_is_known m Hvalid Hbounds fh Hfh). apply decides_bind; [|intros _]; by eapply decides_known.
Qed.

Lemma checks_fields : checks (verify_fields view (struct_defs m)) (Forall (fields_ok view) (struct_defs m)).
Proof using All.
  apply checks_for_all. intros sd Hsd. destruct (struct_def_is_known m Hvalid Hbounds sd Hsd) as (sh & _ & Hsh & Hfs). unfold fields_ok.
  destruct (field_information sd) as [|fs] eqn:Hinfo; [eapply checks_iff; [apply checks_ret|done]|]. rewrite Hsh. cbn [mbind vm_bind vm_lift].
  specialize (Hfs fs eq_refl). eapply checks_iff; [apply (checks_for_all _ (field_ok_in view sh))|naive_solver].
  intros f Hf. rewrite Forall_forall in Hfs. destruct (Hfs f Hf) as [Hwt Har].
  apply checks_bind; [apply checks_token|intros _]. apply checks_bind; [apply checks_satisfied; unfold type_param_constraints; by rewrite length_fmap|intros _]. by apply checks_phantom.
Qed.

Lemma checks_arguments n tps cs idx : length tps = n → signature_known m n idx → checks (check_arguments view idx cs tps) (arguments_ok view tps cs idx).
Proof using Type.
  intros <- (sig & Hsig & _ & Hwt). unfold check_arguments, arguments_ok. rewrite Hsig. cbn [mbind vm_bind vm_lift].
  eapply checks_iff; [apply checks_bind; [apply checks_tokens|intros _; by apply checks_generic]|naive_solver].
Qed.

Lemma checks_struct_arguments tps def args sd sh : View.struct_def_at view def = Ret (Ok sd) → View.struct_handle_at view (sd_struct_handle sd) = Ret sh →
  signature_known m (length tps) args → checks
    (sd ← View.struct_def_at view def; sh ← vm_lift (View.struct_handle_at view (sd_struct_handle sd)); check_arguments view args (type_param_constraints sh) tps)
    (struct_arguments_ok view tps def args).
Proof using Type.
  intros Hsd Hsh Hk. eapply checks_iff; [apply (checks_get_vm _ _ sd (λ sd, ∃ sh, View.struct_handle_at view (sd_struct_handle sd) = Ret sh ∧
    arguments_ok view tps (type_param_constraints sh) args)); [done|]; apply (checks_get _ _ sh); [done|]; by eapply checks_arguments|].
  unfold struct_arguments_ok. naive_solver.
Qed.
Lemma checks_instr len locals tps i : valid_instruction i → instruction_in_bounds view len locals (length tps) i →
  checks (verify_instr view tps i) (instr_types_ok view tps i).
Proof using All.
  intros Hv Hb. destruct i; cbn [verify_instr instr_types_ok] in *; try apply checks_ret; cbn in Hv, Hb.
  all: try (assert (signature_known m (length tps) idx) as (sig & Hsig & _ & _) by (destruct Hb; first [by apply signature_is_known|destruct Hv; by apply signature_is_known]);
    rewrite Hsig; cbn [mbind vm_bind vm_lift]; destruct sig as [|t [|? ?]]; cbn [length Nat.eqb negb];
    (eapply checks_iff; [first [apply checks_err|apply checks_tokens]|]; rewrite ?Forall_singleton; naive_solver)).
  all: destruct Hv as [H0 _], Hb as [Hb Hs].
  all: try (destruct (struct_inst_is_known m Hvalid Hbounds (length tps) idx H0 Hb Hs) as (si & sd & sh & Hsi & Hsd & (_ & Hsh & _) & Hk);
    apply (checks_get_vm _ _ si); [done|]; by eapply checks_struct_arguments).
  all: try (destruct (field_inst_is_known m Hvalid Hbounds (length tps) idx H0 Hb Hs) as (fi & fh & sd & sh & Hfi & Hfh & Hsd & (_ & Hsh & _) & _ & Hk);
    eapply checks_iff; [apply (checks_get_vm _ _ fi (λ fi, ∃ fh, View.field_handle_at view (fdi_handle fi) = Ret (Ok fh) ∧
      struct_arguments_ok view tps (owner fh) (fdi_type_parameters fi))); [done|]; apply (checks_get_vm _ _ fh); [done|]; by eapply checks_struct_arguments|naive_solver]).
  destruct (function_inst_is_known m Hvalid Hbounds (length tps) idx H0 Hb Hs) as (fi & fh & Hfi & Hfh & _ & Hk).
  eapply checks_iff; [apply (checks_get _ _ fi (λ fi, ∃ fh, View.function_handle_at view (fi_handle fi) = Ret fh ∧
    arguments_ok view tps (fh_type_parameters fh) (fi_type_parameters fi))); [done|]; apply (checks_get _ _ fh); [done|]; by eapply checks_arguments|naive_solver].
Qed.

Lemma decides_code d : d ∈ function_defs m → decides view
  (match fn_code d with None => mret tt | Some code => fh ← lift_o (at_index (function_handles m) (fn_function d)); verify_code view code (fh_type_parameters fh) end)
  (∀ code, fn_code d = Some code → ∃ fh, at_index (function_handles m) (fn_function d) = Ret fh ∧ code_types_ok view (fh_type_parameters fh) code).
Proof using All.
  intros Hd. destruct (fn_code d) as [code|] eqn:Hcode; [|eapply decides_iff; [apply decides_ret|done]].
  pose proof (ib_function_defs _ Hbounds) as Hall. eapply Forall_forall in Hall as (_ & _ & Hc); [|exact Hd]. rewrite Hcode in Hc.
  destruct Hc as (fh & params & Hfh & _ & locals & Hlocals & _ & Hscope & Hi). apply get_at_index in Hfh. cbn [View.tables] in *.
  pose proof (valid_entry m Hvalid FUNCTION_DEFS d Hd) as (_ & _ & Hvc). rewrite Hcode in Hvc. destruct Hvc as [Hu Hvi].
  assert (signature_known m (length (fh_type_parameters fh)) (cu_locals code)) as Hk.
  { apply signature_is_known; [done..| |].
    - unfold BoundsSafety.entry, get in Hlocals. unfold below, lenZ. case_match; [done|]. apply lookup_lt_Some in Hlocals. lia.
    - intros sig Hsig. unfold BoundsSafety.entry in *. cbn [View.tables] in *. by simplify_eq. }
  eapply decides_iff; [|].
  - rewrite Hfh. intros c Hc. unfold mbind, st_bind, lift_o.
    apply (decides_bind view _ (λ _, lift_vm (for_all (verify_instr view (fh_type_parameters fh)) (cu_code code)))
      (signature_satisfied view (fh_type_parameters fh) (cu_locals code)) (Forall (instr_types_ok view (fh_type_parameters fh)) (cu_code code))); [by eapply decides_known| |exact Hc].
    intros _. apply decides_lift, checks_for_all. intros i Hin. rewrite Forall_forall in Hi, Hvi. eapply checks_instr; [by apply Hvi|by apply Hi].
  - unfold code_types_ok. rewrite Hfh. naive_solver.
Qed.

Lemma signature_check_decides : checks (verify_module_impl m) (signatures_ok m).
Proof using All.
  assert (decides view (lift_vm (verify_signature_pool view (signatures m));; verify_function_signatures view (function_handles m);;
    lift_vm (verify_fields view (struct_defs m));; verify_code_units view (function_handles m) (function_defs m)) (signatures_ok m)) as Hd.
  { eapply decides_iff.
    - apply decides_bind; [apply decides_lift, checks_pool|intros _]. apply decides_bind; [apply decides_handles|intros _].
      apply decides_bind; [apply decides_lift, checks_fields|intros _]. apply decides_for_each. intros d Hd. by apply decides_code.
    - split; [intros (? & ? & ? & ?); by split|by intros []]. }
  destruct (Hd ∅) as (r & c & Hrun & _ & Hiff); [by intros ? ? ? ?|]. exists r. split; [|done]. unfold verify_module_impl. cbv zeta. rewrite Hrun. done.
Qed.
End module_.

(** C12: the check of signatures is exact, and its cache is sound.  On every module that the deserializer and the
    bounds checker accept it returns, and it accepts exactly the modules in which references occur at the top of
    a type only, every type argument, in signatures, fields, locals and instructions, has the abilities that its
    type parameter asks for, and phantom type parameters occur at phantom positions only. *)
Theorem signature_check_exact bytes max check m :
  bytes_ok bytes → Des.module_deserialize_with_config bytes max check = Ret (Ok m) → VERSION_5 <= m_version m →
  ∃ r, verify_module_impl m = Ret r ∧ (r = Ok tt ↔ signatures_ok m).
Proof.
  intros Hok Hload H5. destruct (loaded_module bytes max check m Hok Hload H5) as (_ & Hvalid & Hbounds). by apply signature_check_decides.
Qed.

(** * Example *)
Module SampleSignatures.
Lemma signature_check_exact_witness : signatures_ok Sample.module_.
Proof.
  destruct (signature_check_exact Sample.reordered 6 true Sample.module_) as (r & Hr & Hiff); [apply Sample.reordered_ok|vm_compute; reflexivity|done|].
  apply Hiff. vm_compute in Hr. congruence.
Defined.

(** A reference to a reference, in a signature. *)
Lemma reference_rejected : verify_module_impl (empty_module (mkCommon [] [] [] [] [[TReference (TReference TU8)]] [] [] [] [])) = vm_err INVALID_SIGNATURE_TOKEN.
Proof. vm_compute. reflexivity. Qed.
End SampleSignatures.
