(* ===== verification/ModuleChecks.v ===== *)
(** The checks of the bytecode verifier that look at the tables of a module or at one instruction at a time
    ([move-bytecode-verifier/src]: [limits.rs], [check_duplication.rs], [instruction_consistency.rs],
    [constants.rs], [friends.rs], [ability_field_requirements.rs], [script_signature.rs]).

    Positions and messages of errors are left out.  Values of constants are decoded by the [bcs] library,
    which is a parameter. *)
From S2P Require Import Prelude MoveFormat BinaryFormat CheckBounds.

(** [if let Some(limit) = limit { if n > limit { return Err(status) } }]. *)
Definition within (limit : option Z) (n : Z) (status : StatusCode) : VMResult unit :=
  match limit with Some limit => if limit <? n then vm_err status else mret tt | None => mret tt end.

(** [usize] of a length. *)
Definition len {A} (l : list A) : Z := Z.of_nat (length l).

(** * Constants ([move-binary-format/src/constant.rs], [constants.rs]) *)

(** [MoveTypeLayout], whose structs no constant has, and [MoveValue]. *)
Inductive MoveTypeLayout :=
  | LBool | LU8 | LU64 | LU128 | LAddress | LVector (l : MoveTypeLayout) | LStruct (fields : list MoveTypeLayout) | LSigner | LU16 | LU32 | LU256.
Inductive MoveValue :=
  | VU8 (n : Z) | VU64 (n : Z) | VU128 (n : Z) | VBool (b : bool) | VAddress (a : list Z) | VVector (vs : list MoveValue)
  | VStruct (fields : list MoveValue) | VSigner (a : list Z) | VU16 (n : Z) | VU32 (n : Z) | VU256 (n : Z).

(** [bcs::from_bytes_seed]. *)
Class Bcs := from_bytes_seed : MoveTypeLayout → list Z → option MoveValue.

Module Constants.
Fixpoint sig_to_ty (sig : SignatureToken) : option MoveTypeLayout :=
  match sig with
  | TSigner => Some LSigner
  | TAddress => Some LAddress
  | TBool => Some LBool
  | TU8 => Some LU8
  | TU16 => Some LU16
  | TU32 => Some LU32
  | TU64 => Some LU64
  | TU128 => Some LU128
  | TU256 => Some LU256
  | TVector v => l ← sig_to_ty v; Some (LVector l)
  | TReference _ | TMutableReference _ | TStruct _ | TTypeParameter _ | TStructInstantiation _ _ => None
  end.

Section constants.
Context `{!Bcs}.

Definition deserialize_constant (c : Constant) : option MoveValue :=
  ty ← sig_to_ty (type_ c); from_bytes_seed ty (data c).

Definition verify_constant_type (type_ : SignatureToken) : VMResult unit :=
  if Token.is_valid_for_constant type_ then mret tt else vm_err INVALID_CONSTANT_TYPE.
Definition verify_constant_data (constant : Constant) : VMResult unit :=
  match deserialize_constant constant with Some _ => mret tt | None => vm_err MALFORMED_CONSTANT_DATA end.
Definition verify_constant (constant : Constant) : VMResult unit :=
  verify_constant_type (type_ constant);; verify_constant_data constant.
Definition verify_module_impl (module_ : CompiledModule) : VMResult unit := for_all verify_constant (constant_pool module_).
Definition verify_script_impl (script : CompiledScript) : VMResult unit := for_all verify_constant (constant_pool script).
End constants.
End Constants.

(** * Limits ([limits.rs]) *)

Module Limits.
Section limits.
Context `{!Bcs} (config : VerifierConfig) (resolver : BinaryIndexedView).
Abbreviation tables := (View.tables resolver).

Definition verify_struct_handles : VMResult unit :=
  match max_generic_instantiation_length config with
  | Some limit => for_all (λ sh, within (Some limit) (len (sh_type_parameters sh)) TOO_MANY_TYPE_PARAMETERS) (struct_handles tables)
  | None => mret tt
  end.

Definition verify_function_handles : VMResult unit :=
  for_all (λ fh,
    within (max_generic_instantiation_length config) (len (fh_type_parameters fh)) TOO_MANY_TYPE_PARAMETERS;;
    match max_function_parameters config with
    | Some limit =>
        parameters ← vm_lift (View.signature_at resolver (fh_parameters fh));
        within (Some limit) (len parameters) TOO_MANY_PARAMETERS
    | None => mret tt
    end) (function_handles tables).

Definition STRUCT_SIZE_WEIGHT : Z := 4.
Definition PARAM_SIZE_WEIGHT : Z := 4.
Definition node_size (t : SignatureToken) : Z :=
  match t with TStruct _ | TStructInstantiation _ _ => STRUCT_SIZE_WEIGHT | TTypeParameter _ => PARAM_SIZE_WEIGHT | _ => 1 end.
Definition verify_type_node (ty : SignatureToken) : VMResult unit :=
  match max_type_nodes config with
  | Some max =>
      nodes ← vm_lift (Token.preorder_traversal ty);
      within (Some max) (wsum node_size nodes) TOO_MANY_TYPE_NODES
  | None => mret tt
  end.

Definition verify_type_nodes : VMResult unit :=
  for_all (λ sign, for_all verify_type_node sign) (signatures tables);;
  for_all (λ cons, verify_type_node (type_ cons)) (constant_pool tables);;
  BoundsChecker.for_all_opt (λ sdef, match field_information sdef with
    | Declared fdefs => for_all (λ fdef, verify_type_node (fd_signature fdef)) fdefs
    | NativeFields => mret tt
    end) (View.in_module resolver struct_defs).

Definition verify_definitions : VMResult unit :=
  if_some (View.in_module resolver function_defs) (λ defs, within (max_function_definitions config) (len defs) MAX_FUNCTION_DEFINITIONS_REACHED);;
  if_some (View.in_module resolver struct_defs) (λ defs,
    within (max_struct_definitions config) (len defs) MAX_STRUCT_DEFINITIONS_REACHED;;
    match max_fields_in_struct config with
    | Some max_fields_in_struct =>
        for_all (λ def, match field_information def with
          | NativeFields => mret tt
          | Declared fields => within (Some max_fields_in_struct) (len fields) MAX_FIELD_DEFINITIONS_REACHED
          end) defs
    | None => mret tt
    end).

Definition verify_constants : VMResult unit :=
  for_all (λ constant, match type_ constant with
    | TVector _ =>
        match Constants.deserialize_constant constant with
        | None => vm_err MALFORMED_CONSTANT_DATA
        | Some (VVector elems) => within (max_constant_vector_len config) (len elems) TOO_MANY_VECTOR_ELEMENTS
        | Some _ => vm_err INVALID_CONSTANT_TYPE
        end
    | _ => mret tt
    end) (constant_pool tables).

Definition verify_identifiers : VMResult unit :=
  match max_idenfitier_len config with
  | Some max_idenfitier_len => for_all (λ identifier : list Z, within (Some max_idenfitier_len) (len identifier) IDENTIFIER_TOO_LONG) (identifiers tables)
  | None => mret tt
  end.

Definition verify_module_impl : VMResult unit :=
  verify_constants;; verify_function_handles;; verify_struct_handles;; verify_type_nodes;; verify_identifiers;; verify_definitions.
Definition verify_script_impl : VMResult unit := verify_function_handles;; verify_struct_handles;; verify_type_nodes.
End limits.
End Limits.

(** * Duplicates ([check_duplication.rs]) *)

#[global] Instance constant_eq_dec : EqDecision Constant.
Proof. solve_decision. Defined.
#[global] Instance module_handle_eq_dec : EqDecision ModuleHandle.
Proof. solve_decision. Defined.
#[global] Instance field_handle_eq_dec : EqDecision FieldHandle.
Proof. solve_decision. Defined.
#[global] Instance function_instantiation_eq_dec : EqDecision FunctionInstantiation.
Proof. solve_decision. Defined.
#[global] Instance field_instantiation_eq_dec : EqDecision FieldInstantiation.
Proof. solve_decision. Defined.
#[global] Instance struct_instantiation_eq_dec : EqDecision StructDefInstantiation.
Proof. solve_decision. Defined.

Module Duplication.
(** The loop of [first_duplicate_element], with the set of what it has seen as a list. *)
Fixpoint first_duplicate_from {T} `{EqDecision T} (uniq : list T) (i : Z) (l : list T) : option Z :=
  match l with
  | [] => None
  | x :: l => if bool_decide (x ∈ uniq) then Some (BC.u16 i) else first_duplicate_from (x :: uniq) (i + 1) l
  end.
Definition first_duplicate_element {T} `{EqDecision T} (l : list T) : option Z := first_duplicate_from [] 0 l.

Definition no_duplicates {T} `{EqDecision T} (l : list T) (status : StatusCode) : VMResult unit :=
  match first_duplicate_element l with Some _ => vm_err status | None => mret tt end.

Definition check_identifiers (identifiers : list Identifier) : VMResult unit := no_duplicates identifiers DUPLICATE_ELEMENT.
Definition check_address_identifiers (address_identifiers : list AccountAddress) : VMResult unit :=
  no_duplicates address_identifiers DUPLICATE_ELEMENT.
Definition check_constants (constant_pool : list Constant) : VMResult unit := no_duplicates constant_pool DUPLICATE_ELEMENT.
Definition check_signatures (signatures : list Signature) : VMResult unit := no_duplicates signatures DUPLICATE_ELEMENT.
Definition check_module_handles (module_handles : list ModuleHandle) : VMResult unit := no_duplicates module_handles DUPLICATE_ELEMENT.
Definition check_struct_handles (struct_handles : list StructHandle) : VMResult unit :=
  no_duplicates ((λ x, (sh_module x, sh_name x)) <$> struct_handles) DUPLICATE_ELEMENT.
Definition check_function_instantiations (function_instantiations : list FunctionInstantiation) : VMResult unit :=
  no_duplicates function_instantiations DUPLICATE_ELEMENT.
Definition check_function_handles (function_handles : list FunctionHandle) : VMResult unit :=
  no_duplicates ((λ x, (fh_module x, fh_name x)) <$> function_handles) DUPLICATE_ELEMENT.

Section module_.
Context (module_ : CompiledModule).

Definition check_field_handles : VMResult unit := no_duplicates (field_handles module_) DUPLICATE_ELEMENT.
Definition check_struct_instantiations : VMResult unit := no_duplicates (struct_def_instantiations module_) DUPLICATE_ELEMENT.
Definition check_field_instantiations : VMResult unit := no_duplicates (field_instantiations module_) DUPLICATE_ELEMENT.

(** Every definition is of the module itself. *)
Definition points_to_self {H} (handle_at : Z → outcome H) (module_of : H → Z) (indexes : list Z) : VMResult unit :=
  for_all (λ idx, h ← vm_lift (handle_at idx);
    if negb (module_of h =? self_module_handle_idx module_) then vm_err INVALID_MODULE_HANDLE else mret tt) indexes.
(** Every handle of the module itself has a definition. *)
Definition implemented {H} (handle_at : Z → outcome H) (module_of : H → Z) (count : nat) (indexes : list Z) : VMResult unit :=
  for_all (λ x, let y := BC.u16 x in
    h ← vm_lift (handle_at y);
    if (module_of h =? self_module_handle_idx module_) && negb (bool_decide (y ∈ indexes)) then vm_err UNIMPLEMENTED_HANDLE else mret tt)
    (seqZ 0 (Z.of_nat count)).

Definition check_struct_definitions : VMResult unit :=
  let indexes := sd_struct_handle <$> struct_defs module_ in
  no_duplicates indexes DUPLICATE_ELEMENT;;
  for_all (λ struct_def, match field_information struct_def with
    | NativeFields => mret tt
    | Declared fields => if bool_decide (fields = []) then vm_err ZERO_SIZED_STRUCT else no_duplicates (fd_name <$> fields) DUPLICATE_ELEMENT
    end) (struct_defs module_);;
  points_to_self (View.struct_handle_at (ModuleView module_)) sh_module indexes;;
  implemented (View.struct_handle_at (ModuleView module_)) sh_module (length (struct_handles module_)) indexes.

Definition check_function_defintions : VMResult unit :=
  let indexes := fn_function <$> function_defs module_ in
  no_duplicates indexes DUPLICATE_ELEMENT;;
  for_all (λ function_def, no_duplicates (acquires_global_resources function_def) DUPLICATE_ACQUIRES_ANNOTATION) (function_defs module_);;
  points_to_self (View.function_handle_at (ModuleView module_)) fh_module indexes;;
  implemented (View.function_handle_at (ModuleView module_)) fh_module (length (function_handles module_)) indexes.

Definition verify_module_impl : VMResult unit :=
  check_identifiers (identifiers module_);;
  check_address_identifiers (address_identifiers module_);;
  check_constants (constant_pool module_);;
  check_signatures (signatures module_);;
  check_module_handles (module_handles module_);;
  check_module_handles (friend_decls module_);;
  check_struct_handles (struct_handles module_);;
  check_function_handles (function_handles module_);;
  check_function_instantiations (function_instantiations module_);;
  check_field_handles;;
  check_field_instantiations;;
  check_function_defintions;;
  check_struct_definitions;;
  check_struct_instantiations.
End module_.

Definition verify_script_impl (script : CompiledScript) : VMResult unit :=
  check_identifiers (identifiers script);;
  check_address_identifiers (address_identifiers script);;
  check_constants (constant_pool script);;
  check_signatures (signatures script);;
  check_module_handles (module_handles script);;
  check_struct_handles (struct_handles script);;
  check_function_handles (function_handles script);;
  check_function_instantiations (function_instantiations script).
End Duplication.

(** * Generic and plain instructions ([instruction_consistency.rs]) *)

Module Consistency.
Section checker.
Context (resolver : BinaryIndexedView).

Definition is_empty {A} (l : list A) : bool := match l with [] => true | _ => false end.

Definition check_type_op (struct_def_index : Z) (generic : bool) : VMResult unit :=
  struct_def ← View.struct_def_at resolver struct_def_index;
  struct_handle ← vm_lift (View.struct_handle_at resolver (sd_struct_handle struct_def));
  if eqb (is_empty (sh_type_parameters struct_handle)) generic then vm_err GENERIC_MEMBER_OPCODE_MISMATCH else mret tt.
Definition check_field_op (field_handle_index : Z) (generic : bool) : VMResult unit :=
  field_handle ← View.field_handle_at resolver field_handle_index;
  check_type_op (owner field_handle) generic.
Definition check_function_op (func_handle_index : Z) (generic : bool) : VMResult unit :=
  function_handle ← vm_lift (View.function_handle_at resolver func_handle_index);
  if eqb (is_empty (fh_type_parameters function_handle)) generic then vm_err GENERIC_MEMBER_OPCODE_MISMATCH else mret tt.

Definition check_instruction (instr : BC.Bytecode) : VMResult unit :=
  match instr with
  | BC.MutBorrowField field_handle_index | BC.ImmBorrowField field_handle_index => check_field_op field_handle_index false
  | BC.MutBorrowFieldGeneric field_inst_index | BC.ImmBorrowFieldGeneric field_inst_index =>
      field_inst ← View.field_instantiation_at resolver field_inst_index; check_field_op (fdi_handle field_inst) true
  | BC.Call idx => check_function_op idx false
  | BC.CallGeneric idx => func_inst ← vm_lift (View.function_instantiation_at resolver idx); check_function_op (fi_handle func_inst) true
  | BC.Pack idx | BC.Unpack idx | BC.MutBorrowGlobalDeprecated idx | BC.ImmBorrowGlobalDeprecated idx | BC.ExistsDeprecated idx
  | BC.MoveFromDeprecated idx | BC.MoveToDeprecated idx => check_type_op idx false
  | BC.PackGeneric idx | BC.UnpackGeneric idx | BC.MutBorrowGlobalGenericDeprecated idx | BC.ImmBorrowGlobalGenericDeprecated idx
  | BC.ExistsGenericDeprecated idx | BC.MoveFromGenericDeprecated idx | BC.MoveToGenericDeprecated idx =>
      struct_inst ← View.struct_instantiation_at resolver idx; check_type_op (si_def struct_inst) true
  | BC.VecPack _ num | BC.VecUnpack _ num => if U16_MOD - 1 <? num then vm_err CONSTRAINT_NOT_SATISFIED else mret tt
  | _ => mret tt
  end.

Definition check_instructions (code : CodeUnit) : VMResult unit := for_all check_instruction (cu_code code).
End checker.

Definition verify_module_impl (module_ : CompiledModule) : VMResult unit :=
  for_all (λ func_def, match fn_code func_def with None => mret tt | Some code => check_instructions (ModuleView module_) code end)
    (function_defs module_).
Definition verify_script_impl (script : CompiledScript) : VMResult unit := check_instructions (ScriptView script) (s_code script).
End Consistency.

(** * Friends ([friends.rs]) *)

Module Friends.
Definition verify_module_impl (module_ : CompiledModule) : VMResult unit :=
  self_handle ← vm_lift (at_index (module_handles module_) (self_module_handle_idx module_));
  if bool_decide (self_handle ∈ friend_decls module_) then vm_err INVALID_FRIEND_DECL_WITH_SELF
  else
    self_address ← vm_lift (at_index (address_identifiers module_) (mh_address self_handle));
    for_all (λ handle, address ← vm_lift (at_index (address_identifiers module_) (mh_address handle));
      if negb (bool_decide (address = self_address)) then vm_err INVALID_FRIEND_DECL_WITH_MODULES_OUTSIDE_ACCOUNT_ADDRESS else mret tt)
      (friend_decls module_).
End Friends.

(** * Abilities of fields ([ability_field_requirements.rs]) *)

Module AbilityFields.
Definition required_abilities (sh : StructHandle) : AbilitySet :=
  foldl (λ acc required, Abilities.union acc (Abilities.as_u8 required)) Abilities.EMPTY (Abilities.requires <$> Abilities.into_iter (sh_abilities sh)).

Definition verify_module_impl (module_ : CompiledModule) : VMResult unit :=
  let view := ModuleView module_ in
  for_all (λ struct_def,
    sh ← vm_lift (View.struct_handle_at view (sd_struct_handle struct_def));
    match field_information struct_def with
    | NativeFields => mret tt
    | Declared fields =>
        let type_parameter_abilities := (λ _, Abilities.ALL) <$> sh_type_parameters sh in
        for_all (λ field,
          field_abilities ← View.abilities view (fd_signature field) type_parameter_abilities;
          if negb (Abilities.is_subset (required_abilities sh) field_abilities) then vm_err FIELD_MISSING_TYPE_ABILITY else mret tt) fields
    end) (struct_defs module_).
End AbilityFields.

(** * Entry functions ([script_signature.rs]) *)

Module ScriptSignature.
Definition FnCheckScriptSignature : Type := BinaryIndexedView → bool → Z → option Z → VMResult unit.

Definition no_additional_script_signature_checks : FnCheckScriptSignature := λ _ _ _ _, mret tt.

Fixpoint skip_while {A} (p : A → bool) (l : list A) : list A :=
  match l with [] => [] | x :: l => if p x then skip_while p l else x :: l end.

Definition legacy_script_signature_checks : FnCheckScriptSignature := λ resolver _ parameters_idx return_idx,
  parameters ← vm_lift (View.signature_at resolver parameters_idx);
  return_types ← match return_idx with Some idx => vm_lift (View.signature_at resolver idx) | None => mret [] end;
  let all_args_have_valid_type :=
    if View.version resolver <=? VERSION_1 then
      forallb Token.is_valid_for_constant (skip_while (λ typ, match typ with TReference TSigner => true | _ => false end) parameters)
    else forallb Token.is_valid_for_constant (skip_while (λ typ, match typ with TSigner => true | _ => false end) parameters) in
  if negb all_args_have_valid_type || negb (bool_decide (return_types = [])) then vm_err INVALID_MAIN_FUNCTION_SIGNATURE else mret tt.

Definition verify_main_signature_impl (resolver : BinaryIndexedView) (is_entry_ : bool) (parameters_idx : Z) (return_idx : option Z)
    (check_signature : FnCheckScriptSignature) : VMResult unit :=
  (if (View.version resolver <? VERSION_5) && is_entry_ then legacy_script_signature_checks resolver is_entry_ parameters_idx return_idx
   else mret tt);;
  check_signature resolver is_entry_ parameters_idx return_idx.

Definition verify_script (script : CompiledScript) (check_signature : FnCheckScriptSignature) : VMResult unit :=
  if VERSION_5 <=? s_version script then mret tt
  else verify_main_signature_impl (ScriptView script) true (s_parameters script) None check_signature.

Definition verify_module_function_signature (module_ : CompiledModule) (idx : Z) (check_signature : FnCheckScriptSignature) : VMResult unit :=
  fdef ← vm_lift (at_index (function_defs module_) idx);
  fhandle ← vm_lift (View.function_handle_at (ModuleView module_) (fn_function fdef));
  verify_main_signature_impl (ModuleView module_) (is_entry fdef) (fh_parameters fhandle) (Some (fh_return_ fhandle)) check_signature.

Definition verify_module (module_ : CompiledModule) (check_signature : FnCheckScriptSignature) : VMResult unit :=
  if m_version module_ <? VERSION_5 then mret tt
  else
    for_all (λ e : Z * FunctionDefinition, verify_module_function_signature module_ (BC.u16 e.1) check_signature)
      (filter (λ e : Z * FunctionDefinition, is_entry e.2 = true) (zip (seqZ 0 (len (function_defs module_))) (function_defs module_))).
End ScriptSignature.
