(* ===== verification/StructAbilities.v ===== *)
(** Abilities of structs: what the checks of signatures ([signature.rs]) and of the abilities of fields
    ([ability_field_requirements.rs]) show together.  A struct is checked once, with all abilities assumed for
    its type parameters; what is shown is about all instances of the struct. *)
From S2P Require Import Prelude MoveFormat BinaryFormat Serializer CheckBounds Deserializer Codec TokenCodec BoundsSafety Totality Tables ModuleBytes RoundTrip ControlFlowGraph AbsInt AbstractStack StackUsage LocalsSafety LoopSummary Reducibility LoadedCode TypeSafety TypingRules Lookups SignatureCheck SignatureSafety ModuleChecks.
Import Ser Des Abilities.

(** * Sets of abilities *)

Lemma requires_idemp a : requires (requires a) = requires a.
Proof. by destruct a. Qed.

Lemma elem_of_into_iter s a : a ∈ into_iter s ↔ has_ability s a = true.
Proof.
  rewrite has_ability_bit. unfold into_iter. cbn [omap list_omap].
  rewrite !(Z.land_comm s). change 1 with (2 ^ 0). change 2 with (2 ^ 1). change 4 with (2 ^ 2). change 8 with (2 ^ 3).
  rewrite !land_pow2 by done.
  destruct (Z.testbit s 0) eqn:H0, (Z.testbit s 1) eqn:H1, (Z.testbit s 2) eqn:H2, (Z.testbit s 3) eqn:H3;
    destruct a; cbn [bit]; rewrite ?H0, ?H1, ?H2, ?H3, <- (bool_decide_eq_true (_ ∈ _)); vm_compute; done.
Qed.

Lemma is_subset_bit s t : is_subset s t = true ↔ ∀ n, 0 <= n → Z.testbit s n = true → Z.testbit t n = true.
Proof.
  unfold is_subset, is_subset_bits. rewrite Z.eqb_eq. split.
  - intros Heq n _ Hs. rewrite <- Heq, Z.land_spec, andb_true_iff in Hs. apply Hs.
  - intros Hall. apply Z.bits_inj'. intros n Hn. rewrite Z.land_spec. specialize (Hall n Hn). destruct (Z.testbit s n), (Z.testbit t n); naive_solver.
Qed.

Lemma as_u8_subset a t : is_subset (as_u8 a) t = has_ability t a.
Proof. done. Qed.

Lemma union_subset s t u : is_subset (union s t) u = true ↔ is_subset s u = true ∧ is_subset t u = true.
Proof.
  rewrite !is_subset_bit. unfold union. setoid_rewrite Z.lor_spec. setoid_rewrite orb_true_iff. naive_solver.
Qed.

Lemma foldl_union_subset l s t : is_subset (foldl (λ acc a, union acc (as_u8 a)) s l) t = true ↔ is_subset s t = true ∧ Forall (λ a, has_ability t a = true) l.
Proof.
  revert s. induction l as [|a l IH]; intros s; cbn [foldl]; [rewrite Forall_nil; tauto|].
  rewrite IH, union_subset, as_u8_subset, Forall_cons. tauto.
Qed.

Lemma required_abilities_subset sh t :
  is_subset (AbilityFields.required_abilities sh) t = true ↔ ∀ a, has_ability (sh_abilities sh) a = true → has_ability t (requires a) = true.
Proof.
  unfold AbilityFields.required_abilities. rewrite foldl_union_subset, Forall_fmap, Forall_forall. setoid_rewrite elem_of_into_iter. naive_solver.
Qed.

(** * Abilities of types *)

Section types.
Context (resolver : BinaryIndexedView).

(** The type has the ability, if its type parameters have those of [constraints]. *)
Definition has (constraints : list AbilitySet) (a : Ability) (ty : SignatureToken) : Prop :=
  ∃ s, View.abilities resolver ty constraints = Ret (Ok s) ∧ has_ability s a = true.
(** The type is complete and has abilities. *)
Definition proper (n : nat) (ty : SignatureToken) : Prop := TypingRules.wt resolver n ty ∧ arity_ok resolver ty.

Lemma proper_eq n ty : proper n ty ↔ node_ok resolver n ty ∧ node_arity resolver ty ∧ Forall (proper n) (Token.children ty).
Proof. unfold proper. rewrite wt_eq, arity_ok_eq, Forall_and. tauto. Qed.

Lemma collect_abilities constraints tys ss : Forall2 (λ t s, View.abilities resolver t constraints = Ret (Ok s)) tys ss →
  View.collect_results ((λ t, View.abilities resolver t constraints) <$> tys) = Ret (Ok ss).
Proof. induction 1 as [|t s ts ss Ht _ IH]; [done|]. cbn. rewrite Ht. unfold mbind, vm_bind in *. cbn. by rewrite IH. Qed.

Lemma abilities_vector constraints t s : View.abilities resolver t constraints = Ret (Ok s) →
  ∃ s', View.abilities resolver (TVector t) constraints = Ret (Ok s') ∧
    ∀ a, has_ability s' a = true ↔ has_ability VECTOR a = true ∧ has_ability s (requires a) = true.
Proof.
  intros Hs. cbn [View.abilities]. rewrite Hs. unfold mbind, vm_bind. pose proof (polymorphic_abilities_correct VECTOR [false] [s]) as Hp.
  destruct (polymorphic_abilities VECTOR [false] [s]) as [s'|e]; [|by destruct Hp as [_ []]]. exists s'. split; [done|]. intros a.
  destruct Hp as [_ ->]. apply and_iff_compat_l. split; [intros Hall; by apply (Hall 0%nat s)|]. by intros Ha [|i] arg [= <-] _.
Qed.

Lemma abilities_instance constraints idx sh tys ss : View.struct_handle_at resolver idx = Ret sh → length (sh_type_parameters sh) = length tys →
  Forall2 (λ t s, View.abilities resolver t constraints = Ret (Ok s)) tys ss →
  ∃ s', View.abilities resolver (TStructInstantiation idx tys) constraints = Ret (Ok s') ∧ ∀ a, has_ability s' a = true ↔
    has_ability (sh_abilities sh) a = true ∧ ∀ i p t, sh_type_parameters sh !! i = Some p → tys !! i = Some t → is_phantom p = false → has constraints (requires a) t.
Proof.
  intros Hsh Hlen Hss. cbn [View.abilities]. rewrite Hsh. cbn [mbind vm_bind vm_lift]. unfold mbind, vm_bind. rewrite (collect_abilities _ _ _ Hss).
  pose proof (polymorphic_abilities_correct (sh_abilities sh) (is_phantom <$> sh_type_parameters sh) ss) as Hp.
  destruct (polymorphic_abilities _ _ ss) as [s'|e]; [|destruct Hp as [_ []]; rewrite length_fmap, Hlen; by eapply Forall2_length].
  exists s'. split; [done|]. intros a. destruct Hp as [_ ->]. apply and_iff_compat_l. split.
  - intros Hall i p t Hpi Ht Hph. destruct (Forall2_lookup_l _ _ _ _ _ Hss Ht) as (s & Hs & Habs). exists s. split; [done|].
    apply (Hall i); [done|]. by rewrite list_lookup_fmap, Hpi; cbn; rewrite Hph.
  - intros Hall i s Hs Hph. rewrite list_lookup_fmap in Hph. destruct (sh_type_parameters sh !! i) as [p|] eqn:Hpi; [|done]. injection Hph as Hph.
    destruct (Forall2_lookup_r _ _ _ _ _ Hss Hs) as (t & Ht & Habs). destruct (Hall i p t Hpi Ht Hph) as (s0 & Hs0 & ?). congruence.
Qed.

Lemma abilities_found constraints ty : proper (length constraints) ty → ∃ s, View.abilities resolver ty constraints = Ret (Ok s).
Proof.
  induction ty as [ty IH] using token_ind'. intros (Hn & Ha & Hc)%proper_eq.
  assert (Forall (λ t, ∃ s, View.abilities resolver t constraints = Ret (Ok s)) (Token.children ty)) as Hall.
  { rewrite Forall_forall in *. auto. }
  clear IH Hc. destruct ty as [| | | | | |t|idx|idx tys|t|t|idx| | |]; cbn [Token.children] in *; try (by eexists).
  - apply Forall_cons in Hall as [[s Hs] _]. destruct (abilities_vector _ _ _ Hs) as (s' & ? & _). by exists s'.
  - destruct Hn as [sh Hsh]. cbn [View.abilities]. rewrite Hsh. by eexists.
  - destruct Ha as (sh & Hsh & Hlen). apply Forall_exists_Forall2_l in Hall as [ss Hss].
    destruct (abilities_instance _ _ _ _ _ Hsh Hlen Hss) as (s' & ? & _). by exists s'.
  - destruct (lookup_lt_is_Some_2 constraints (Z.to_nat idx)) as [s Hs]; [cbn in Hn; lia|]. exists s. cbn. unfold at_index. cbn in Hn.
    destruct (Z.ltb_spec idx 0); [lia|]. by rewrite Hs.
Qed.

(** ** Instances *)

Lemma subst_nil ty : subst [] ty = ty.
Proof.
  induction ty as [ty IH] using token_ind'. destruct ty; cbn [subst Token.children] in *; try done.
  1,3,4: apply Forall_cons in IH as [-> _]; done.
  f_equal. induction IH as [|t ts Ht _ IHts]; [done|]. cbn. by rewrite Ht, IHts.
Qed.

Lemma proper_subst n args ty : Forall (proper n) args → proper (length args) ty → proper n (subst args ty).
Proof.
  intros Hargs [Hwt Har]. split; [apply wt_subst; [|done]; eapply Forall_impl; [exact Hargs|by intros t []]|].
  revert Hwt Har. induction ty as [ty IH] using token_ind'. intros [Hn Hc]%wt_eq [Ha Hca]%arity_ok_eq.
  assert (Forall (λ t, arity_ok resolver (subst args t)) (Token.children ty)) as Hall. { rewrite Forall_forall in *. auto. }
  clear IH Hc Hca. destruct ty as [| | | | | |t|idx|idx tys|t|t|idx| | |]; cbn [subst Token.children] in *; rewrite ?arity_ok_eq; try done.
  1,3,4: apply Forall_cons in Hall as [? _]; split; [done|by repeat constructor].
  - cbn. rewrite length_fmap, Forall_fmap. done.
  - cbn in Hn. destruct (lookup_lt_is_Some_2 args (Z.to_nat idx)) as [t Ht]; [lia|]. rewrite <- arity_ok_eq, Ht. cbn. eapply Forall_lookup_1 in Hargs as []; done.
Qed.

Lemma abilities_all constraints tys : Forall (proper (length constraints)) tys →
  ∃ ss, Forall2 (λ t s, View.abilities resolver t constraints = Ret (Ok s)) tys ss.
Proof. intros Hall. apply Forall_exists_Forall2_l. eapply Forall_impl; [exact Hall|]. apply abilities_found. Qed.

(** An instance of a type has an ability that the type has, if the arguments have it that take the place of
    type parameters outside phantom positions. *)
Lemma has_subst assumed constraints args b ty : requires b = b → length assumed = length args → Forall (proper (length constraints)) args →
  proper (length args) ty → has assumed b ty → (∀ idx arg, 0 <= idx → occurs resolver idx false false ty → args !! Z.to_nat idx = Some arg → has constraints b arg) →
  has constraints b (subst args ty).
Proof.
  intros Hb Hlen Hargs. induction ty as [ty IH] using token_ind'. intros Hty Hhas Hocc. pose proof Hty as (Hn & Ha & Hc)%proper_eq.
  destruct ty as [| | | | | |t|idx|idx tys|t|t|idx| | |]; cbn [subst Token.children] in *; try done.
  - apply Forall_cons in IH as [IH _], Hc as [Hc _]. destruct (abilities_found assumed t) as [s Hs]; [by rewrite Hlen|].
    destruct (abilities_vector _ _ _ Hs) as (s0 & Hs0 & Hiff). destruct Hhas as (s0' & Hs0' & Hbit). assert (s0' = s0) as -> by congruence.
    apply Hiff in Hbit as [Hv Hbit]. rewrite Hb in Hbit. destruct IH as (s1 & Hs1 & Hbit1); [done|by exists s| |].
    { intros i arg H0 Hi. apply Hocc; [done|]. by constructor. }
    destruct (abilities_vector _ _ _ Hs1) as (s2 & Hs2 & Hiff2). exists s2. split; [done|]. apply Hiff2. by rewrite Hb.
  - destruct Ha as (sh & Hsh & Hl). destruct (abilities_all assumed tys) as [ss Hss]; [by rewrite Hlen|].
    destruct (abilities_instance _ _ _ _ _ Hsh Hl Hss) as (s0 & Hs0 & Hiff). destruct Hhas as (s0' & Hs0' & Hbit). assert (s0' = s0) as -> by congruence.
    apply Hiff in Hbit as [Hv Hbit]. rewrite Hb in Hbit.
    destruct (abilities_all constraints (subst args <$> tys)) as [ss1 Hss1].
    { rewrite Forall_fmap. eapply Forall_impl; [exact Hc|]. intros t Ht. by apply proper_subst. }
    destruct (abilities_instance constraints idx sh (subst args <$> tys) ss1 Hsh) as (s1 & Hs1 & Hiff1); [by rewrite length_fmap|done|].
    exists s1. split; [done|]. apply Hiff1. rewrite Hb. split; [done|]. intros i p t Hp Ht Hph.
    rewrite list_lookup_fmap in Ht. destruct (tys !! i) as [t0|] eqn:Ht0; [|done]. injection Ht as <-.
    rewrite Forall_forall in IH, Hc. apply list_elem_of_lookup_2 in Ht0 as Hin. apply IH; [done|by apply Hc|by eapply Hbit|].
    intros j arg H0 Hj. apply Hocc; [done|]. eapply occurs_argument; [done..|]. by rewrite Hph.
  - cbn in Hn. destruct (lookup_lt_is_Some_2 args (Z.to_nat idx)) as [t Ht]; [lia|]. rewrite Ht. cbn. eapply Hocc; [|constructor|done]. lia.
Qed.
End types.

(** * The check of fields *)

Section module_.
Context (m : CompiledModule).
Hypothesis Hvalid : valid_module (m_version m) m.
Hypothesis Hbounds : in_bounds (ModuleView m).
Abbreviation view := (ModuleView m).

(** With all abilities for its type parameters, a field has what the abilities of the struct require. *)
Definition field_able (sh : StructHandle) (f : FieldDefinition) : Prop :=
  ∀ a, has_ability (sh_abilities sh) a = true → has view ((λ _, ALL) <$> sh_type_parameters sh) (requires a) (fd_signature f).
Definition fields_able (sd : StructDefinition) : Prop := ∃ sh, View.struct_handle_at view (sd_struct_handle sd) = Ret sh ∧
  ∀ fs, field_information sd = Declared fs → Forall (field_able sh) fs.

Lemma field_ability_check_decides : checks (AbilityFields.verify_module_impl m) (Forall fields_able (struct_defs m)).
Proof using All.
  apply checks_for_all. intros sd Hsd. destruct (struct_def_is_known m Hvalid Hbounds sd Hsd) as (sh & _ & Hsh & Hfs).
  apply (checks_get _ _ sh); [done|]. destruct (field_information sd) as [|fs] eqn:Hinfo; [eapply checks_iff; [apply checks_ret|done]|].
  specialize (Hfs fs eq_refl). rewrite Forall_forall in Hfs. eapply checks_iff; [apply (checks_for_all _ (field_able sh))|naive_solver].
  intros f Hf. destruct (abilities_found view ((λ _, ALL) <$> sh_type_parameters sh) (fd_signature f)) as [s Hs]; [rewrite length_fmap; by apply Hfs|].
  rewrite Hs. cbn [mbind vm_bind]. apply checks_unless. rewrite negb_false_iff, required_abilities_subset.
  apply forall_proper. intros a. split; [intros H Ha; exists s; auto|]. intros H (s' & Hs' & ?)%H. congruence.
Qed.

(** Every instance of a struct: its fields have what its abilities require. *)
Lemma instance_abilities sd fs sh f args constraints s a : signatures_ok m → Forall fields_able (struct_defs m) →
  sd ∈ struct_defs m → field_information sd = Declared fs → f ∈ fs → View.struct_handle_at view (sd_struct_handle sd) = Ret sh →
  length args = length (sh_type_parameters sh) → Forall (proper view (length constraints)) args →
  View.abilities view (TypeSafety.materialize_type (sd_struct_handle sd) args) constraints = Ret (Ok s) → has_ability s a = true →
  ∃ ty, TypeSafety.instantiate (fd_signature f) args = Ret ty ∧ has view constraints (requires a) ty.
Proof using All.
  intros Hsig Hable Hsd Hfs Hf Hsh Hlen Hargs Hs Ha. destruct (struct_def_is_known m Hvalid Hbounds sd Hsd) as (sh' & _ & Hsh' & Hk).
  assert (sh' = sh) as -> by congruence. specialize (Hk fs Hfs). rewrite Forall_forall in Hk. rewrite Forall_forall in Hable. destruct (Hk f Hf) as [Hwt Har].
  destruct (Hable sd Hsd) as (sh' & Hsh'' & Hall). assert (sh' = sh) as -> by congruence. specialize (Hall fs Hfs). rewrite Forall_forall in Hall.
  pose proof (so_fields _ Hsig) as Hfields. rewrite Forall_forall in Hfields. destruct (Hfields sd Hsd fs Hfs) as (sh' & Hsh3 & Hph).
  assert (sh' = sh) as -> by congruence. rewrite Forall_forall in Hph. destruct (Hph f Hf) as (_ & _ & Hphantom).
  exists (subst args (fd_signature f)). split.
  { destruct args as [|x args]; [by rewrite instantiate_nil, subst_nil|]. eapply instantiate_subst; [done|]. by rewrite Hlen. }
  assert (has_ability (sh_abilities sh) a = true ∧ ∀ i p t, sh_type_parameters sh !! i = Some p → args !! i = Some t → is_phantom p = false →
    has view constraints (requires a) t) as [Hdecl Hreq].
  { destruct args as [|x args]; cbn [TypeSafety.materialize_type] in Hs.
    - cbn in Hs. rewrite Hsh in Hs. cbn in Hs. injection Hs as <-. done.
    - destruct (abilities_all view constraints _ Hargs) as [ss Hss]. destruct (abilities_instance view constraints _ sh (x :: args) ss Hsh) as (s' & Hs' & Hiff); [done..|].
      assert (s' = s) as -> by congruence. by apply Hiff. }
  eapply (has_subst view); [apply requires_idemp| |done| |by apply Hall|]; [by rewrite length_fmap|by split; [rewrite Hlen|]|].
  intros idx arg H0 Hocc Harg. destruct (lookup_lt_is_Some_2 (sh_type_parameters sh) (Z.to_nat idx)) as [p Hp].
  { rewrite <- Hlen. by eapply lookup_lt_Some. }
  eapply Hreq; [done..|]. destruct (is_phantom p) eqn:Hpp; [|done]. exfalso. assert (at_index (sh_type_parameters sh) idx = Ret p) as Hat.
  { unfold at_index. destruct (Z.ltb_spec idx 0); [lia|]. by rewrite Hp. }
  discriminate (Hphantom idx false p Hocc Hat Hpp).
Qed.
End module_.

(** C9: abilities of structs are sound.  On every module that the deserializer and the bounds checker accept, the
    check of signatures and the check of the abilities of fields return, and if they accept the module, then for
    every struct it defines, all type arguments and every ability that this instance of the struct has, each
    field, instantiated with the same arguments, has the ability that is required (the same, or [store] for
    [key]).  The check looks at the definition only, with all abilities assumed for type parameters; that phantom
    parameters occur at phantom positions only is what makes this enough. *)
Theorem struct_abilities_sound bytes max check m :
  bytes_ok bytes → module_deserialize_with_config bytes max check = Ret (Ok m) → VERSION_5 <= m_version m →
  ∃ r1 r2, SignatureChecker.verify_module_impl m = Ret r1 ∧ AbilityFields.verify_module_impl m = Ret r2 ∧
    (r1 = Ok tt → r2 = Ok tt → ∀ sd fs sh f args constraints s a,
      sd ∈ struct_defs m → field_information sd = Declared fs → f ∈ fs → View.struct_handle_at (ModuleView m) (sd_struct_handle sd) = Ret sh →
      length args = length (sh_type_parameters sh) → Forall (proper (ModuleView m) (length constraints)) args →
      View.abilities (ModuleView m) (TypeSafety.materialize_type (sd_struct_handle sd) args) constraints = Ret (Ok s) → has_ability s a = true →
      ∃ ty s', TypeSafety.instantiate (fd_signature f) args = Ret ty ∧ View.abilities (ModuleView m) ty constraints = Ret (Ok s') ∧
        has_ability s' (requires a) = true).
Proof.
  intros Hok Hload H5. destruct (loaded_module bytes max check m Hok Hload H5) as (_ & Hvalid & Hbounds).
  destruct (signature_check_decides m Hvalid Hbounds) as (r1 & Hr1 & H1). destruct (field_ability_check_decides m Hvalid Hbounds) as (r2 & Hr2 & H2).
  exists r1, r2. split; [done|]. split; [done|]. intros Hok1%H1 Hok2%H2 sd fs sh f args constraints s a Hsd Hfs Hf Hsh Hlen Hargs Hs Ha.
  destruct (instance_abilities m Hvalid Hbounds sd fs sh f args constraints s a) as (ty & ? & s' & ? & ?); [done..|]. by exists ty, s'.
Qed.

(** * Example *)
Module Generic.
(** [module 0x0::M { struct S<T, phantom P> has copy, drop { f: vector<T> } }]. *)
Definition handle (abilities : AbilitySet) : StructHandle := mkStructHandle 0 1 abilities [mkTypeParameter 0 false; mkTypeParameter 0 true].
Definition def (ty : SignatureToken) : StructDefinition := mkStructDefinition 0 (Declared [mkFieldDefinition 2 ty]).
Definition module_ (abilities : AbilitySet) (ty : SignatureToken) : CompiledModule :=
  mkModule 6 0 (mkCommon [mkModuleHandle 0 0] [handle abilities] [] [] [] [[77]; [83]; [102]] [replicate 32 0] [] []) [] [] [] [] [def ty] [].
Definition bytes : list Z :=
  match module_serialize_for_version (Some 6) (module_ 3 (TVector (TTypeParameter 0))) [] with Ret (_, bs) => bs | _ => [] end.

(** A phantom parameter at another position, and an ability that a field does not have. *)
Lemma phantom_rejected : SignatureChecker.verify_module_impl (module_ 3 (TVector (TTypeParameter 1))) = vm_err INVALID_PHANTOM_TYPE_PARAM_POSITION.
Proof. vm_compute. reflexivity. Qed.
Lemma missing_ability_rejected : AbilityFields.verify_module_impl (module_ 3 TSigner) = vm_err FIELD_MISSING_TYPE_ABILITY.
Proof. vm_compute. reflexivity. Qed.

Lemma struct_abilities_sound_witness :
  ∃ ty s', TypeSafety.instantiate (TVector (TTypeParameter 0)) [TU64; TSigner] = Ret ty ∧
    View.abilities (ModuleView (module_ 3 (TVector (TTypeParameter 0)))) ty [] = Ret (Ok s') ∧ has_ability s' Copy = true.
Proof.
  destruct (struct_abilities_sound bytes 6 true (module_ 3 (TVector (TTypeParameter 0)))) as (r1 & r2 & H1 & H2 & Hall);
    [split; [done|]; apply (bool_decide_unpack _); vm_compute; done|vm_compute; reflexivity|done|].
  apply (Hall ltac:(vm_compute in H1; congruence) ltac:(vm_compute in H2; congruence) (def (TVector (TTypeParameter 0))) [mkFieldDefinition 2 (TVector (TTypeParameter 0))]
    (handle 3) (mkFieldDefinition 2 (TVector (TTypeParameter 0))) [TU64; TSigner] [] 3 Copy); try done; [by left|by left|].
  repeat constructor; done.
Defined.
End Generic.
