(* ===== verification/Declarations.v ===== *)
(** What the checks of duplicates, of friends and of the limits accept
    ([move-bytecode-verifier/src]: [check_duplication.rs], [friends.rs], [limits.rs]). *)
From S2P Require Import Prelude MoveFormat BinaryFormat Serializer CheckBounds Deserializer Codec TokenCodec BoundsSafety Totality Tables ModuleBytes RoundTrip ControlFlowGraph AbsInt AbstractStack StackUsage LocalsSafety LoopSummary Reducibility LoadedCode TypeSafety TypingRules Lookups SignatureCheck SignatureSafety ModuleChecks.
Import Ser Des.

(** What a check decides may be replaced by an equivalent condition. *)
#[export] Instance checks_proper c : Proper (iff ==> iff) (checks c).
Proof. intros P Q HPQ. by split; intros ?; eapply checks_iff. Qed.

(** * Duplicates *)

Section duplicates.
Context {T : Type} `{EqDecision T}.

Lemma first_duplicate_from_None uniq i (l : list T) :
  Duplication.first_duplicate_from uniq i l = None ↔ NoDup l ∧ ∀ x, x ∈ l → x ∉ uniq.
Proof.
  revert uniq i. induction l as [|x l IH]; intros uniq i; cbn [Duplication.first_duplicate_from].
  - split; [|done]. split; [constructor|]. by intros x ?%elem_of_nil.
  - case_bool_decide as Hx; [split; [done|]; intros [_ Hall]; by destruct (Hall x ltac:(by left))|]. rewrite IH, NoDup_cons. setoid_rewrite elem_of_cons. naive_solver.
Qed.
Lemma checks_no_duplicates (l : list T) e : checks (Duplication.no_duplicates l e) (NoDup l).
Proof.
  unfold Duplication.no_duplicates, Duplication.first_duplicate_element. pose proof (first_duplicate_from_None [] 0 l) as Hd.
  destruct (Duplication.first_duplicate_from [] 0 l); (eapply checks_iff; [first [apply checks_err|apply checks_ret]|]).
  - split; [done|]. intros Hnd. enough (Some z = None) by done. apply Hd. split; [done|]. by intros x _ ?%elem_of_nil.
  - split; [|done]. intros _. by apply Hd.
Qed.
End duplicates.
#[export] Hint Resolve checks_no_duplicates : checks.

(** The entries of [indexes] are those of the table that belong to the module [self]. *)
Definition defines {H} (self : Z) (module_of : H → Z) (table : list H) (indexes : list Z) : Prop :=
  ∀ y h, is_u16 y → at_index table y = Ret h → module_of h = self ↔ y ∈ indexes.

Lemma checks_defines {H} m (module_of : H → Z) (table : list H) indexes : Forall (λ y, is_u16 y ∧ below table y) indexes →
  checks (Duplication.points_to_self m (at_index table) module_of indexes;; Duplication.implemented m (at_index table) module_of (length table) indexes)
    (defines (self_module_handle_idx m) module_of table indexes).
Proof.
  intros Hidx. rewrite Forall_forall in Hidx. eapply checks_iff; [apply checks_bind; [|intros _]|].
  - apply (checks_for_all _ (λ y, ∃ h, at_index table y = Ret h ∧ module_of h = self_module_handle_idx m)). intros y Hy.
    destruct (Hidx y Hy) as [[H0 _] Hb]. destruct (at_index_below _ _ H0 Hb) as (h & Hh & _). apply (checks_get _ _ h); [done|].
    apply checks_unless. by rewrite negb_false_iff, Z.eqb_eq.
  - apply (checks_for_all _ (λ x, ∃ h, at_index table (BC.u16 x) = Ret h ∧ (module_of h = self_module_handle_idx m → BC.u16 x ∈ indexes))).
    intros x [Hx0 Hx]%elem_of_seqZ. assert (0 <= BC.u16 x <= x) as [Hy0 Hy]. { unfold BC.u16, U16_MOD. split; [by apply Z.mod_pos_bound|by apply Z.mod_le]. }
    destruct (at_index_below table (BC.u16 x) Hy0) as (h & Hh & _); [unfold below, lenZ; lia|]. apply (checks_get _ _ h); [done|]. apply checks_unless.
    rewrite andb_false_iff, Z.eqb_neq, negb_false_iff, bool_decide_eq_true. destruct (decide (module_of h = self_module_handle_idx m)); naive_solver.
  - rewrite !Forall_forall. split.
    + intros [H1 H2] y h Hy Hh. split; [|intros Hin; destruct (H1 y Hin) as (h' & Hh' & <-); congruence]. intros Hself.
      assert (BC.u16 y = y) as Hyy by (apply Z.mod_small; unfold is_u16 in Hy; lia). destruct (H2 y) as (h' & Hh' & Hin).
      { apply elem_of_seqZ. apply get_at_index in Hh. unfold BoundsSafety.entry, get in Hh. case_match; [done|]. apply lookup_lt_Some in Hh. lia. }
      rewrite Hyy in *. apply Hin. congruence.
    + intros Hdef. split.
      * intros y Hy. destruct (Hidx y Hy) as [Hu Hb]. destruct (at_index_below _ _ (proj1 Hu) Hb) as (h & Hh & _). exists h. split; [done|]. by eapply Hdef.
      * intros x [Hx0 Hx]%elem_of_seqZ. assert (0 <= BC.u16 x <= x) as [Hy0 Hy]. { unfold BC.u16, U16_MOD. split; [by apply Z.mod_pos_bound|by apply Z.mod_le]. }
        destruct (at_index_below table (BC.u16 x) Hy0) as (h & Hh & _); [unfold below, lenZ; lia|]. exists h. split; [done|]. intros Hself. eapply Hdef; [|done..].
        apply Z.mod_pos_bound. done.
Qed.

(** * Modules *)

(** What belongs to a module is declared once, and defined if it is of the module itself. *)
Record declared_once (m : CompiledModule) : Prop := {
  do_identifiers : NoDup (identifiers m);
  do_addresses : NoDup (address_identifiers m);
  do_constants : NoDup (constant_pool m);
  do_signatures : NoDup (signatures m);
  do_modules : NoDup (module_handles m);
  do_friends : NoDup (friend_decls m);
  do_struct_names : NoDup ((λ h, (sh_module h, sh_name h)) <$> struct_handles m);
  do_function_names : NoDup ((λ h, (fh_module h, fh_name h)) <$> function_handles m);
  do_function_insts : NoDup (function_instantiations m);
  do_field_handles : NoDup (field_handles m);
  do_field_insts : NoDup (field_instantiations m);
  do_functions : NoDup (fn_function <$> function_defs m);
  do_acquires : Forall (λ d, NoDup (acquires_global_resources d)) (function_defs m);
  do_function_defs : defines (self_module_handle_idx m) fh_module (function_handles m) (fn_function <$> function_defs m);
  do_structs : NoDup (sd_struct_handle <$> struct_defs m);
  do_fields : Forall (λ d, ∀ fs, field_information d = Declared fs → fs ≠ [] ∧ NoDup (fd_name <$> fs)) (struct_defs m);
  do_struct_defs : defines (self_module_handle_idx m) sh_module (struct_handles m) (sd_struct_handle <$> struct_defs m);
  do_struct_insts : NoDup (struct_def_instantiations m);
}.

(** The friends of a module are other modules of the same account. *)
Definition friends_ok (m : CompiledModule) : Prop :=
  ∃ self, at_index (module_handles m) (self_module_handle_idx m) = Ret self ∧ (self ∉ friend_decls m) ∧
    ∃ account, at_index (address_identifiers m) (mh_address self) = Ret account ∧
      Forall (λ friend, at_index (address_identifiers m) (mh_address friend) = Ret account) (friend_decls m).

Section module_.
Context (m : CompiledModule).
Hypothesis Hvalid : valid_module (m_version m) m.
Hypothesis Hbounds : in_bounds (ModuleView m).

Lemma struct_indexes : Forall (λ y, is_u16 y ∧ below (struct_handles m) y) (sd_struct_handle <$> struct_defs m).
Proof using All.
  rewrite Forall_fmap, Forall_forall. intros d Hd. pose proof (valid_entry m Hvalid STRUCT_DEFS d Hd) as [Hu _].
  pose proof (ib_struct_defs _ Hbounds) as Hall. eapply Forall_forall in Hall as [Hb _]; [|exact Hd]. done.
Qed.
Lemma function_indexes : Forall (λ y, is_u16 y ∧ below (function_handles m) y) (fn_function <$> function_defs m).
Proof using All.
  rewrite Forall_fmap, Forall_forall. intros d Hd. pose proof (valid_entry m Hvalid FUNCTION_DEFS d Hd) as [Hu _].
  pose proof (ib_function_defs _ Hbounds) as Hall. eapply Forall_forall in Hall as [Hb _]; [|exact Hd]. done.
Qed.

Lemma checks_function_definitions : checks (Duplication.check_function_defintions m)
  (NoDup (fn_function <$> function_defs m) ∧ Forall (λ d, NoDup (acquires_global_resources d)) (function_defs m) ∧
    defines (self_module_handle_idx m) fh_module (function_handles m) (fn_function <$> function_defs m)).
Proof using All.
  apply checks_bind; [auto with checks|intros _]. apply checks_bind; [apply checks_for_all; auto with checks|intros _]. apply checks_defines, function_indexes.
Qed.
Lemma checks_struct_definitions : checks (Duplication.check_struct_definitions m)
  (NoDup (sd_struct_handle <$> struct_defs m) ∧ Forall (λ d, ∀ fs, field_information d = Declared fs → fs ≠ [] ∧ NoDup (fd_name <$> fs)) (struct_defs m) ∧
    defines (self_module_handle_idx m) sh_module (struct_handles m) (sd_struct_handle <$> struct_defs m)).
Proof using All.
  apply checks_bind; [auto with checks|intros _]. apply checks_bind; [apply checks_for_all; intros d _|intros _; apply checks_defines, struct_indexes].
  destruct (field_information d) as [|fs]; [eapply checks_iff; [apply checks_ret|done]|].
  case_bool_decide; (eapply checks_iff; [first [apply checks_err|apply checks_no_duplicates]|naive_solver]).
Qed.

Lemma duplication_check_decides : checks (Duplication.verify_module_impl m) (declared_once m).
Proof using All.
  eapply checks_iff.
  { unfold Duplication.verify_module_impl.
    repeat (apply checks_bind; [first [apply checks_function_definitions|apply checks_struct_definitions|apply checks_no_duplicates]|intros _]).
    apply checks_no_duplicates. }
  split; [intros (? & ? & ? & ? & ? & ? & ? & ? & ? & ? & ? & (? & ? & ?) & (? & ? & ?) & ?); by split|]. intros []. by split_and!.
Qed.

Lemma address_found h : h ∈ module_handles m ∨ h ∈ friend_decls m →
  ∃ account, at_index (address_identifiers m) (mh_address h) = Ret account.
Proof using All.
  intros Hh. assert (is_u16 (mh_address h) ∧ below (address_identifiers m) (mh_address h)) as [[H0 _] Hb].
  { destruct Hh as [Hh|Hh].
    - pose proof (valid_entry m Hvalid MODULE_HANDLES h Hh) as [Hu _]. pose proof (ib_module_handles _ Hbounds) as Hall. eapply Forall_forall in Hall as [Hb _]; [|exact Hh]. done.
    - pose proof (valid_entry m Hvalid FRIEND_DECLS h Hh) as [Hu _]. pose proof (ib_friends _ Hbounds) as Hall. eapply Forall_forall in Hall as [Hb _]; [|exact Hh]. done. }
  destruct (at_index_below _ _ H0 Hb) as (account & ? & _). by exists account.
Qed.

Lemma friend_check_decides : checks (Friends.verify_module_impl m) (friends_ok m).
Proof using All.
  assert (∃ self, at_index (module_handles m) (self_module_handle_idx m) = Ret self ∧ self ∈ module_handles m) as (self & Hself & Hin).
  { pose proof (ib_self _ Hbounds _ eq_refl) as Hb. destruct Hvalid as [_ Hi]. apply at_index_below; [|done]. apply Hi. }
  unfold friends_ok. apply (checks_get _ _ self); [done|]. case_bool_decide as Hf; [eapply checks_iff; [apply checks_err|naive_solver]|].
  destruct (address_found self ltac:(by left)) as [account Ha].
  eapply checks_iff; [apply (checks_get _ _ account (λ account, Forall (λ friend, at_index (address_identifiers m) (mh_address friend) = Ret account) (friend_decls m))); [done|]|naive_solver].
  apply checks_for_all. intros friend Hfr. destruct (address_found friend ltac:(by right)) as [a Hfa].
  rewrite Hfa. cbn [mbind vm_bind vm_lift]. apply checks_unless. rewrite negb_false_iff, bool_decide_eq_true. naive_solver.
Qed.
End module_.

(** * Limits *)

(** A number up to the limit, if there is one. *)
Definition up_to (limit : option Z) (n : Z) : Prop := ∀ max, limit = Some max → n <= max.
Lemma checks_within limit n e : checks (within limit n e) (up_to limit n).
Proof.
  destruct limit as [max|]; unfold within, up_to; [|eapply checks_iff; [apply checks_ret|done]]. apply checks_unless. rewrite Z.ltb_ge. naive_solver.
Qed.

(** The size of a type: names of structs and type parameters count four, everything else counts one. *)
Fixpoint type_size (ty : SignatureToken) : Z :=
  match ty with
  | TStruct _ | TTypeParameter _ => 4
  | TStructInstantiation _ args => 4 + zsum (type_size <$> args)
  | TVector t | TReference t | TMutableReference t => 1 + type_size t
  | TBool | TU8 | TU16 | TU32 | TU64 | TU128 | TU256 | TAddress | TSigner => 1
  end.

Lemma type_size_nodes ty : wsum Limits.node_size (nodes ty) = type_size ty.
Proof.
  induction ty as [ty IH] using token_ind'. rewrite nodes_eq, wsum_cons.
  assert (wsum Limits.node_size (concat (nodes <$> Token.children ty)) = zsum (type_size <$> Token.children ty)) as ->.
  { induction IH as [|t ts Ht _ IHts]; [done|]. cbn [fmap list_fmap concat]. rewrite wsum_app, Ht. cbn [zsum foldr]. f_equal. exact IHts. }
  destruct ty; cbn [type_size Limits.node_size Token.children fmap list_fmap]; unfold zsum; cbn [foldr]; unfold Limits.STRUCT_SIZE_WEIGHT, Limits.PARAM_SIZE_WEIGHT; lia.
Qed.
(** The types that a module has in its tables. *)
Definition module_types (m : CompiledModule) : list SignatureToken :=
  concat (signatures m) ++ (type_ <$> constant_pool m) ++
  concat ((λ d, match field_information d with Declared fs => fd_signature <$> fs | NativeFields => [] end) <$> struct_defs m).

Section limits.
Context `{!Bcs} (config : VerifierConfig) (m : CompiledModule).
Hypothesis Hvalid : valid_module (m_version m) m.
Hypothesis Hbounds : in_bounds (ModuleView m).
Abbreviation view := (ModuleView m).

Definition vector_constant_ok (c : Constant) : Prop :=
  ∀ ty, type_ c = TVector ty → ∃ elems, Constants.deserialize_constant c = Some (VVector elems) ∧ up_to (max_constant_vector_len config) (lenZ elems).
Record within_limits : Prop := {
  wl_constants : Forall vector_constant_ok (constant_pool m);
  wl_functions : Forall (λ fh, up_to (max_generic_instantiation_length config) (lenZ (fh_type_parameters fh)) ∧
    ∃ parameters, View.signature_at view (fh_parameters fh) = Ret parameters ∧ up_to (max_function_parameters config) (lenZ parameters)) (function_handles m);
  wl_structs : Forall (λ sh, up_to (max_generic_instantiation_length config) (lenZ (sh_type_parameters sh))) (struct_handles m);
  wl_types : Forall (λ ty, up_to (max_type_nodes config) (type_size ty)) (module_types m);
  wl_identifiers : Forall (λ id, up_to (max_idenfitier_len config) (lenZ id)) (identifiers m);
  wl_function_defs : up_to (max_function_definitions config) (lenZ (function_defs m));
  wl_struct_defs : up_to (max_struct_definitions config) (lenZ (struct_defs m));
  wl_fields : Forall (λ d, ∀ fs, field_information d = Declared fs → up_to (max_fields_in_struct config) (lenZ fs)) (struct_defs m);
}.

(** A limit that is looked up before the loop. *)
Lemma checks_limited {A} limit (f : Z → A → VMResult unit) P l : (∀ max, limit = Some max → ∀ x, x ∈ l → checks (f max x) (P x)) →
  (limit = None → ∀ x, P x) → checks (match limit with Some max => for_all (f max) l | None => mret tt end) (Forall P l).
Proof using Type.
  intros Hf Hnone. destruct limit; [apply checks_for_all; auto|]. eapply checks_iff; [apply checks_ret|]. split; [|done]. intros _. apply Forall_true. auto.
Qed.

Lemma checks_limit_constants : checks (Limits.verify_constants config view) (Forall vector_constant_ok (constant_pool m)).
Proof using Type.
  apply checks_for_all. intros c _. unfold vector_constant_ok. destruct (type_ c); try (eapply checks_iff; [apply checks_ret|done]).
  destruct (Constants.deserialize_constant c) as [[]|]; try (eapply checks_iff; [apply checks_err|]; naive_solver).
  eapply checks_iff; [apply checks_within|]. unfold len, lenZ. naive_solver.
Qed.

Lemma checks_limit_functions : checks (Limits.verify_function_handles config view)
  (Forall (λ fh, up_to (max_generic_instantiation_length config) (lenZ (fh_type_parameters fh)) ∧
    ∃ parameters, View.signature_at view (fh_parameters fh) = Ret parameters ∧ up_to (max_function_parameters config) (lenZ parameters)) (function_handles m)).
Proof using All.
  apply checks_for_all. intros fh Hfh. apply checks_bind; [apply checks_within|intros _].
  destruct (handle_is_known m Hvalid Hbounds fh Hfh) as [(ps & Hps & _) _]. rewrite Hps. cbn [mbind vm_bind vm_lift].
  destruct (max_function_parameters config) as [max|]; (eapply checks_iff; [first [apply checks_within|apply checks_ret]|]); unfold up_to, len, lenZ; naive_solver.
Qed.

Lemma checks_limit_type ty : checks (Limits.verify_type_node config ty) (up_to (max_type_nodes config) (type_size ty)).
Proof using Type.
  unfold Limits.verify_type_node. rewrite traversal_eq. rewrite <- type_size_nodes. destruct (max_type_nodes config) as [max|]; [apply checks_within|].
  eapply checks_iff; [apply checks_ret|]. unfold up_to. naive_solver.
Qed.
Lemma checks_limit_types : checks (Limits.verify_type_nodes config view) (Forall (λ ty, up_to (max_type_nodes config) (type_size ty)) (module_types m)).
Proof using Type.
  unfold module_types. eapply checks_iff; [|rewrite !Forall_app, !Forall_concat, !Forall_fmap; reflexivity].
  apply checks_bind; [apply checks_for_all; intros sig _; apply checks_for_all; intros ty _; apply checks_limit_type|intros _].
  apply checks_bind; [apply checks_for_all; intros c _; apply checks_limit_type|intros _].
  apply checks_for_all. intros d _. cbn. destruct (field_information d) as [|fs]; [eapply checks_iff; [apply checks_ret|]; by rewrite Forall_nil|].
  rewrite Forall_fmap. apply checks_for_all. intros f _. apply checks_limit_type.
Qed.

Lemma checks_limit_definitions : checks (Limits.verify_definitions config view)
  (up_to (max_function_definitions config) (lenZ (function_defs m)) ∧ up_to (max_struct_definitions config) (lenZ (struct_defs m)) ∧
    Forall (λ d, ∀ fs, field_information d = Declared fs → up_to (max_fields_in_struct config) (lenZ fs)) (struct_defs m)).
Proof using Type.
  apply checks_bind; [apply checks_within|intros _]. apply checks_bind; [apply checks_within|intros _].
  apply checks_limited; [|unfold up_to; naive_solver]. intros max Hmax d _.
  destruct (field_information d) as [|fs]; (eapply checks_iff; [first [apply checks_within|apply checks_ret]|]); rewrite ?Hmax; unfold len, lenZ; naive_solver.
Qed.

Lemma limit_check_decides : checks (Limits.verify_module_impl config view) within_limits.
Proof using All.
  eapply checks_iff.
  { unfold Limits.verify_module_impl. apply checks_bind; [apply checks_limit_constants|intros _]. apply checks_bind; [apply checks_limit_functions|intros _].
    apply checks_bind; [|intros _; apply checks_bind; [apply checks_limit_types|intros _; apply checks_bind; [|intros _; apply checks_limit_definitions]]].
    - apply (checks_limited _ _ (λ sh, up_to (max_generic_instantiation_length config) (lenZ (sh_type_parameters sh)))); [|unfold up_to; naive_solver].
      intros max Hmax sh _. rewrite Hmax. apply checks_within.
    - apply (checks_limited _ _ (λ id, up_to (max_idenfitier_len config) (lenZ id))); [|unfold up_to; naive_solver].
      intros max Hmax id _. rewrite Hmax. apply checks_within. }
  split; [intros (? & ? & ? & ? & ? & ? & ? & ?); by split|]. intros []. by split_and!.
Qed.
End limits.

(** C23: the checks of the tables of a module are exact.  On every module that the deserializer and the bounds
    checker accept they return.  The check of duplicates accepts exactly the modules in which no table, no list
    of fields and no list of acquired resources has a duplicate, every struct that is not native has a field, and
    the struct and function definitions are, each once, those of the handles of the module itself (handles with
    a 16-bit index).  The check of friends accepts exactly the modules whose friends are other modules of the
    same account.  The check of limits accepts exactly the modules that keep every limit of the configuration
    (where the size of a type counts each name of a struct and each type parameter four times) and whose constants
    of a vector type decode to vectors. *)
Theorem declaration_checks_exact `{!Bcs} config bytes max check m :
  bytes_ok bytes → module_deserialize_with_config bytes max check = Ret (Ok m) → VERSION_5 <= m_version m →
  ∃ r1 r2 r3, Duplication.verify_module_impl m = Ret r1 ∧ (r1 = Ok tt ↔ declared_once m) ∧
    Friends.verify_module_impl m = Ret r2 ∧ (r2 = Ok tt ↔ friends_ok m) ∧
    Limits.verify_module_impl config (ModuleView m) = Ret r3 ∧ (r3 = Ok tt ↔ within_limits config m).
Proof.
  intros Hok Hload H5. destruct (loaded_module bytes max check m Hok Hload H5) as (_ & Hvalid & Hbounds).
  destruct (duplication_check_decides m Hvalid Hbounds) as (r1 & ? & ?). destruct (friend_check_decides m Hvalid Hbounds) as (r2 & ? & ?).
  destruct (limit_check_decides config m Hvalid Hbounds) as (r3 & ? & ?). by exists r1, r2, r3.
Qed.

(** * Example *)
Module SampleTables.
(** A decoder that accepts no constant: the module has none. *)
#[local] Instance no_constants : Bcs := λ _ _, None.

Lemma declaration_checks_exact_witness : declared_once Sample.module_ ∧ friends_ok Sample.module_ ∧ within_limits default_config Sample.module_.
Proof.
  destruct (declaration_checks_exact default_config Sample.reordered 6 true Sample.module_) as (r1 & r2 & r3 & H1 & E1 & H2 & E2 & H3 & E3);
    [apply Sample.reordered_ok|vm_compute; reflexivity|done|].
  split; [apply E1; vm_compute in H1; congruence|]. split; [apply E2; vm_compute in H2; congruence|apply E3; vm_compute in H3; congruence].
Defined.

(** A function that is declared and not defined. *)
Lemma undefined_rejected : Duplication.verify_module_impl (mkModule 6 0 (m_common Sample.module_) [] [] [] [] [] []) = vm_err UNIMPLEMENTED_HANDLE.
Proof. vm_compute. reflexivity. Qed.
End SampleTables.
