(* ===== verification/LoadedTypes.v ===== *)
(** The type check of loaded code: what the deserializer, the bounds checker and the passes that run before
    it guarantee is all that the type check of function bodies needs to run without a panic. *)
From S2P Require Import Prelude MoveFormat BinaryFormat Serializer CheckBounds Deserializer Codec TokenCodec BoundsSafety Totality Tables ModuleBytes RoundTrip ControlFlowGraph AbsInt AbstractStack StackUsage LocalsSafety LoopSummary Reducibility LoadedCode TypeSafety TypingRules TypeCheck TypedCode Lookups SignatureCheck SignatureSafety ModuleChecks.
Import Ser Des.

(** * What the consistency check accepts *)

Section consistency.
Context (view : BinaryIndexedView).

(** A member with type parameters, or without. *)
Definition is_generic {A} (type_parameters : list A) (generic : bool) : Prop := if generic then type_parameters ≠ [] else type_parameters = [].
Definition struct_generic (idx : Z) (generic : bool) : Prop :=
  ∃ sd, View.struct_def_at view idx = Ret (Ok sd) ∧ ∃ sh, View.struct_handle_at view (sd_struct_handle sd) = Ret sh ∧ is_generic (sh_type_parameters sh) generic.
Definition field_generic (idx : Z) (generic : bool) : Prop := ∃ fh, View.field_handle_at view idx = Ret (Ok fh) ∧ struct_generic (owner fh) generic.
Definition function_generic (idx : Z) (generic : bool) : Prop :=
  ∃ fh, View.function_handle_at view idx = Ret fh ∧ is_generic (fh_type_parameters fh) generic.

Definition consistent (i : BC.Bytecode) : Prop :=
  match i with
  | BC.MutBorrowField idx | BC.ImmBorrowField idx => field_generic idx false
  | BC.MutBorrowFieldGeneric idx | BC.ImmBorrowFieldGeneric idx =>
      ∃ fi, View.field_instantiation_at view idx = Ret (Ok fi) ∧ field_generic (fdi_handle fi) true
  | BC.Call idx => function_generic idx false
  | BC.CallGeneric idx => ∃ fi, View.function_instantiation_at view idx = Ret fi ∧ function_generic (fi_handle fi) true
  | BC.Pack idx | BC.Unpack idx | BC.MutBorrowGlobalDeprecated idx | BC.ImmBorrowGlobalDeprecated idx | BC.ExistsDeprecated idx
  | BC.MoveFromDeprecated idx | BC.MoveToDeprecated idx => struct_generic idx false
  | BC.PackGeneric idx | BC.UnpackGeneric idx | BC.MutBorrowGlobalGenericDeprecated idx | BC.ImmBorrowGlobalGenericDeprecated idx
  | BC.ExistsGenericDeprecated idx | BC.MoveFromGenericDeprecated idx | BC.MoveToGenericDeprecated idx =>
      ∃ si, View.struct_instantiation_at view idx = Ret (Ok si) ∧ struct_generic (si_def si) true
  | BC.VecPack _ num | BC.VecUnpack _ num => num < U16_MOD
  | _ => True
  end.

Lemma checks_is_generic {A} (tps : list A) generic e :
  checks (if eqb (Consistency.is_empty tps) generic then vm_err e else mret tt) (is_generic tps generic).
Proof. apply checks_unless. destruct tps, generic; cbn; naive_solver. Qed.
Lemma checks_type_op idx generic sd sh : View.struct_def_at view idx = Ret (Ok sd) → View.struct_handle_at view (sd_struct_handle sd) = Ret sh →
  checks (Consistency.check_type_op view idx generic) (struct_generic idx generic).
Proof. intros Hsd Hsh. apply (checks_get_vm _ _ sd); [done|]. apply (checks_get _ _ sh); [done|]. apply checks_is_generic. Qed.
Lemma checks_function_op idx generic fh : View.function_handle_at view idx = Ret fh →
  checks (Consistency.check_function_op view idx generic) (function_generic idx generic).
Proof. intros Hfh. apply (checks_get _ _ fh); [done|]. apply checks_is_generic. Qed.
End consistency.

Section module_.
Context (m : CompiledModule).
Hypothesis Hvalid : valid_module (m_version m) m.
Hypothesis Hbounds : in_bounds (ModuleView m).
Abbreviation view := (ModuleView m).

Lemma checks_consistent len locals n i : valid_instruction i → instruction_in_bounds view len locals n i →
  checks (Consistency.check_instruction view i) (consistent view i).
Proof using All.
  intros Hv Hb. destruct i; cbn [Consistency.check_instruction consistent] in *; try apply checks_ret; cbn in Hv, Hb;
    try (apply checks_unless; rewrite Z.ltb_ge; lia).
  all: destruct Hv as [H0 _].
  all: try (destruct (struct_is_known m Hvalid Hbounds idx H0 Hb) as (sd & sh & Hsd & (_ & Hsh & _)); by eapply checks_type_op).
  all: try (destruct (field_handle_is_known m Hvalid Hbounds idx H0 Hb) as (fh & sd & sh & Hfh & Hsd & (_ & Hsh & _) & _);
    apply (checks_get_vm _ _ fh); [done|]; by eapply checks_type_op).
  all: try (destruct (function_is_known m Hvalid Hbounds idx H0 Hb) as (fh & Hfh & _); by eapply checks_function_op).
  all: destruct Hb as [Hb Hs].
  all: try (destruct (struct_inst_is_known m Hvalid Hbounds n idx H0 Hb Hs) as (si & sd & sh & Hsi & Hsd & (_ & Hsh & _) & Hk);
    apply (checks_get_vm _ _ si); [done|]; by eapply checks_type_op).
  all: try (destruct (field_inst_is_known m Hvalid Hbounds n idx H0 Hb Hs) as (fi & fh & sd & sh & Hfi & Hfh & Hsd & (_ & Hsh & _) & _ & Hk);
    apply (checks_get_vm _ _ fi); [done|]; apply (checks_get_vm _ _ fh); [done|]; by eapply checks_type_op).
  destruct (function_inst_is_known m Hvalid Hbounds n idx H0 Hb Hs) as (fi & fh & Hfi & Hfh & _ & Hk).
  apply (checks_get _ _ fi); [done|]. by eapply checks_function_op.
Qed.

Lemma checks_consistency : checks (Consistency.verify_module_impl m)
  (Forall (λ d, ∀ code, fn_code d = Some code → Forall (consistent view) (cu_code code)) (function_defs m)).
Proof using All.
  apply checks_for_all. intros d Hd. destruct (fn_code d) as [code|] eqn:Hcode; [|eapply checks_iff; [apply checks_ret|done]].
  pose proof (ib_function_defs _ Hbounds) as Hall. eapply Forall_forall in Hall as (_ & _ & Hc); [|exact Hd]. rewrite Hcode in Hc.
  destruct Hc as (fh & params & Hfh & _ & locals & Hlocals & _ & Hscope & Hi).
  pose proof (valid_entry m Hvalid FUNCTION_DEFS d Hd) as (_ & _ & Hvc). rewrite Hcode in Hvc. destruct Hvc as [Hu Hvi]. rewrite Forall_forall in Hi, Hvi.
  eapply checks_iff; [apply (checks_for_all _ (consistent view)); intros i Hin; eapply checks_consistent; [by apply Hvi|by apply Hi]|naive_solver].
Qed.

Lemma checks_constants `{!Bcs} : checks (Constants.verify_module_impl m)
  (Forall (λ c, Token.is_valid_for_constant (type_ c) = true ∧ ∃ v, Constants.deserialize_constant c = Some v) (constant_pool m)).
Proof using Type.
  apply checks_for_all. intros c _. apply checks_bind; [|intros _].
  - unfold Constants.verify_constant_type. destruct (Token.is_valid_for_constant (type_ c)); eapply checks_iff; [apply checks_ret|done|apply checks_err|done].
  - unfold Constants.verify_constant_data. destruct (Constants.deserialize_constant c); eapply checks_iff; [apply checks_ret|naive_solver|apply checks_err|naive_solver].
Qed.

(** * Instructions *)

(** The sizes of signatures and structs. *)
Record sized : Prop := {
  sz_signatures : ∀ sig, sig ∈ signatures m → lenZ sig <= SIGNATURE_SIZE_MAX;
  sz_fields : ∀ sd fs, sd ∈ struct_defs m → field_information sd = Declared fs → lenZ fs <= FIELD_COUNT_MAX;
}.
Hypothesis Hsized : sized.

Context (fv : FunctionView).
Abbreviation n := (length (fv_type_parameters fv)).

Lemma struct_ok_intro sd sh args : struct_known m sd sh → length args = length (sh_type_parameters sh) → struct_ok view fv sd args.
Proof using Hsized.
  intros (Hin & Hsh & Hfs) Hlen. split; [by exists sh|]. unfold fields_of. intros fs Hfields. destruct (field_information sd) as [|fds] eqn:Hinfo; [done|].
  injection Hfields as <-. split.
  - rewrite Forall_fmap, Hlen. eapply Forall_impl; [by apply Hfs|]. by intros f [? _].
  - rewrite length_fmap. pose proof (sz_fields Hsized sd fds Hin Hinfo) as Hl. unfold lenZ, FIELD_COUNT_MAX in Hl. unfold U64_MOD. lia.
Qed.
Lemma field_ok_intro fh sd sh args : View.struct_def_at view (owner fh) = Ret (Ok sd) → struct_known m sd sh → length args = length (sh_type_parameters sh) →
  (∀ fs, field_information sd = Declared fs → ∃ f, at_index fs (field fh) = Ret f) → field_ok view fv fh args.
Proof using Hsized.
  intros Hsd Hk Hlen Hf. exists (Ok sd). split; [done|]. intros ? [= <-]. split; [by eapply struct_ok_intro|]. unfold fields_of. intros fs Hfields.
  destruct (field_information sd) as [|fds]; [done|]. injection Hfields as <-. destruct (Hf fds eq_refl) as [f Hfd]. exists (fd_signature f).
  unfold at_index in *. case_match; [done|]. rewrite list_lookup_fmap. destruct (fds !! _); [|done]. cbn in *. congruence.
Qed.
Lemma call_ok_intro fh args : handle_known m fh → length args = length (fh_type_parameters fh) → call_ok view fh args.
Proof using Hsized.
  intros [(ps & Hps & Hpin & Hpw) (rs & Hrs & Hrin & Hrw)] Hlen. exists ps, rs. split; [done|]. split; [done|]. rewrite Hlen. split; [by apply Forall_app|].
  pose proof (sz_signatures Hsized ps Hpin) as Hp. pose proof (sz_signatures Hsized rs Hrin) as Hr. unfold lenZ, SIGNATURE_SIZE_MAX, U64_MOD in *. lia.
Qed.

(** The type arguments of an instruction that the signature check has accepted. *)
Lemma arguments_fit {A} (tps : list A) (cs : list AbilitySet) idx : signature_known m n idx → arguments_ok view (fv_type_parameters fv) cs idx →
  length cs = length tps → tps ≠ [] → ∃ args, args_ok view fv idx args ∧ length args = length tps.
Proof using Type.
  intros (sig & Hsig & _ & Hwt) (args & Hargs & _ & Hall) Hlen Hne. rewrite Hsig in Hargs. injection Hargs as <-. exists sig. apply Forall2_length in Hall.
  split; [|lia]. split_and!; [done| |done]. intros ->. destruct tps; [done|]. cbn in *. lia.
Qed.

Lemma constant_wt k ty : Token.is_valid_for_constant ty = true → TypingRules.wt view k ty.
Proof using Type.
  induction ty as [ty IH] using token_ind'. intros Hv. apply wt_eq. destruct ty; cbn in *; try done. apply Forall_cons in IH as [IH _]. split; [done|]. by repeat constructor; apply IH.
Qed.

Context (Hconst : Forall (λ c, Token.is_valid_for_constant (type_ c) = true) (constant_pool m)).
Context (Hlocals : Forall (TypingRules.wt view n) (fv_parameters fv ++ fv_locals fv)).

Lemma found {A} (o : VMResult A) x P : o = Ret (Ok x) → P x → safe o P.
Proof using Type. intros -> HP. exists (Ok x). split; [done|]. by intros ? [= <-]. Qed.

Lemma plain_struct_known idx : 0 <= idx → below (struct_defs m) idx → struct_generic view idx false →
  safe (View.struct_def_at view idx) (λ sd, struct_ok view fv sd []).
Proof using Hvalid Hbounds Hsized.
  intros H0 Hb (sd' & Hsd' & sh' & Hsh' & Hg). destruct (struct_is_known m Hvalid Hbounds idx H0 Hb) as (sd & sh & Hsd & Hk).
  eapply found; [done|]. rewrite Hsd in Hsd'. injection Hsd' as <-. eapply struct_ok_intro; [done|]. destruct Hk as (_ & Hsh & _).
  rewrite Hsh in Hsh'. injection Hsh' as <-. cbn in Hg. by rewrite Hg.
Qed.
Lemma generic_struct_known idx : 0 <= idx → below (struct_def_instantiations m) idx →
  (∀ inst, opt_entry (Some (struct_def_instantiations m)) idx = Some inst → signature_in_scope view n (si_type_parameters inst)) →
  (∃ si, View.struct_instantiation_at view idx = Ret (Ok si) ∧ struct_generic view (si_def si) true) →
  (∃ si, View.struct_instantiation_at view idx = Ret (Ok si) ∧ struct_arguments_ok view (fv_type_parameters fv) (si_def si) (si_type_parameters si)) →
  safe (View.struct_instantiation_at view idx) (λ si, ∃ type_args, args_ok view fv (si_type_parameters si) type_args ∧
    safe (View.struct_def_at view (si_def si)) (λ sd, struct_ok view fv sd type_args)).
Proof using Hvalid Hbounds Hsized.
  intros H0 Hb Hs (si1 & Hsi1 & sd1 & Hsd1 & sh1 & Hsh1 & Hg) (si2 & Hsi2 & sd2 & sh2 & Hsd2 & Hsh2 & Ha).
  destruct (struct_inst_is_known m Hvalid Hbounds n idx H0 Hb Hs) as (si & sd & sh & Hsi & Hsd & Hk & Hsig).
  rewrite Hsi in Hsi1, Hsi2. injection Hsi1 as <-. injection Hsi2 as <-. rewrite Hsd in Hsd1, Hsd2. injection Hsd1 as <-. injection Hsd2 as <-.
  pose proof Hk as (_ & Hsh & _). rewrite Hsh in Hsh1, Hsh2. injection Hsh1 as <-. injection Hsh2 as <-.
  destruct (arguments_fit (sh_type_parameters sh) _ _ Hsig Ha) as (args & Hargs & Hlen); [by unfold SignatureChecker.type_param_constraints; rewrite length_fmap|done|].
  eapply found; [done|]. exists args. split; [done|]. eapply found; [done|]. by eapply struct_ok_intro.
Qed.
Lemma plain_field_known idx : 0 <= idx → below (field_handles m) idx → field_generic view idx false →
  safe (View.field_handle_at view idx) (λ fh, field_ok view fv fh []).
Proof using Hvalid Hbounds Hsized.
  intros H0 Hb (fh1 & Hfh1 & sd1 & Hsd1 & sh1 & Hsh1 & Hg). destruct (field_handle_is_known m Hvalid Hbounds idx H0 Hb) as (fh & sd & sh & Hfh & Hsd & Hk & Hf).
  rewrite Hfh in Hfh1. injection Hfh1 as <-. rewrite Hsd in Hsd1. injection Hsd1 as <-. pose proof Hk as (_ & Hsh & _). rewrite Hsh in Hsh1. injection Hsh1 as <-.
  cbn in Hg. eapply found; [done|]. eapply field_ok_intro; [done..| |done]. by rewrite Hg.
Qed.
Lemma generic_field_known idx : 0 <= idx → below (field_instantiations m) idx →
  (∀ inst, opt_entry (Some (field_instantiations m)) idx = Some inst → signature_in_scope view n (fdi_type_parameters inst)) →
  (∃ fi, View.field_instantiation_at view idx = Ret (Ok fi) ∧ field_generic view (fdi_handle fi) true) →
  (∃ fi fh, View.field_instantiation_at view idx = Ret (Ok fi) ∧ View.field_handle_at view (fdi_handle fi) = Ret (Ok fh) ∧
    struct_arguments_ok view (fv_type_parameters fv) (owner fh) (fdi_type_parameters fi)) →
  safe (View.field_instantiation_at view idx) (λ fi, ∃ type_args, args_ok view fv (fdi_type_parameters fi) type_args ∧
    safe (View.field_handle_at view (fdi_handle fi)) (λ fh, field_ok view fv fh type_args)).
Proof using Hvalid Hbounds Hsized.
  intros H0 Hb Hs (fi1 & Hfi1 & fh1 & Hfh1 & sd1 & Hsd1 & sh1 & Hsh1 & Hg) (fi2 & fh2 & Hfi2 & Hfh2 & sd2 & sh2 & Hsd2 & Hsh2 & Ha).
  destruct (field_inst_is_known m Hvalid Hbounds n idx H0 Hb Hs) as (fi & fh & sd & sh & Hfi & Hfh & Hsd & Hk & Hf & Hsig).
  rewrite Hfi in Hfi1, Hfi2. injection Hfi1 as <-. injection Hfi2 as <-. rewrite Hfh in Hfh1, Hfh2. injection Hfh1 as <-. injection Hfh2 as <-.
  rewrite Hsd in Hsd1, Hsd2. injection Hsd1 as <-. injection Hsd2 as <-. pose proof Hk as (_ & Hsh & _). rewrite Hsh in Hsh1, Hsh2. injection Hsh1 as <-. injection Hsh2 as <-.
  destruct (arguments_fit (sh_type_parameters sh) _ _ Hsig Ha) as (args & Hargs & Hlen); [by unfold SignatureChecker.type_param_constraints; rewrite length_fmap|done|].
  eapply found; [done|]. exists args. split; [done|]. eapply found; [done|]. by eapply field_ok_intro.
Qed.
Lemma generic_call_known idx : 0 <= idx → below (function_instantiations m) idx →
  (∀ inst, BoundsSafety.entry (function_instantiations m) idx inst → signature_in_scope view n (fi_type_parameters inst)) →
  (∃ fi, View.function_instantiation_at view idx = Ret fi ∧ function_generic view (fi_handle fi) true) →
  (∃ fi fh, View.function_instantiation_at view idx = Ret fi ∧ View.function_handle_at view (fi_handle fi) = Ret fh ∧
    arguments_ok view (fv_type_parameters fv) (fh_type_parameters fh) (fi_type_parameters fi)) →
  ∃ fi fh type_args, View.function_instantiation_at view idx = Ret fi ∧ View.function_handle_at view (fi_handle fi) = Ret fh ∧
    args_ok view fv (fi_type_parameters fi) type_args ∧ call_ok view fh type_args.
Proof using Hvalid Hbounds Hsized.
  intros H0 Hb Hs (fi1 & Hfi1 & fh1 & Hfh1 & Hg) (fi2 & fh2 & Hfi2 & Hfh2 & Ha).
  destruct (function_inst_is_known m Hvalid Hbounds n idx H0 Hb Hs) as (fi & fh & Hfi & Hfh & Hk & Hsig).
  rewrite Hfi in Hfi1, Hfi2. injection Hfi1 as <-. injection Hfi2 as <-. rewrite Hfh in Hfh1, Hfh2. injection Hfh1 as <-. injection Hfh2 as <-.
  destruct (arguments_fit (fh_type_parameters fh) _ _ Hsig Ha eq_refl Hg) as (args & Hargs & Hlen). exists fi, fh, args. split_and!; [done..|]. by apply call_ok_intro.
Qed.
Lemma element_known idx : is_u16 idx → below (signatures m) idx → signature_in_scope view n idx →
  (∃ t, View.signature_at view idx = Ret [t] ∧ ref_free t) → ∃ t, element view idx t ∧ TypingRules.wt view n t.
Proof using Hvalid Hbounds.
  intros Hu Hb Hs (t & Ht & _). destruct (signature_is_known m Hvalid Hbounds n idx Hu Hb Hs) as (sig & Hsig & _ & Hwt). rewrite Ht in Hsig. injection Hsig as <-.
  apply Forall_cons in Hwt as [Hwt _]. exists t. split; [|done]. by exists [t].
Qed.
Lemma local_known idx : 0 <= idx → idx < Z.of_nat (length (fv_locals fv) + length (fv_parameters fv)) → ∃ t, local fv idx t ∧ TypingRules.wt view n t.
Proof using Hlocals.
  intros H0 Hlt. destruct (at_index_below (fv_parameters fv ++ fv_locals fv) idx) as (t & Ht & Hin); [done|unfold below, lenZ; rewrite length_app; lia|].
  exists t. split; [done|]. by eapply Forall_forall in Hlocals.
Qed.

Lemma instr_known len i : valid_instruction i →
  instruction_in_bounds view len (length (fv_locals fv) + length (fv_parameters fv)) n i → consistent view i → instr_types_ok view (fv_type_parameters fv) i →
  instr_ok view fv i.
Proof using All.
  intros Hv Hb Hc Ht. destruct i; cbn [instr_ok] in *; try done; cbn in Hv, Hb;
    try (by destruct Hv; apply local_known); try (by destruct Hv; apply plain_struct_known); try (by destruct Hv; apply plain_field_known);
    try (by destruct Hv, Hb; apply generic_struct_known); try (by destruct Hv, Hb; apply generic_field_known); try (by destruct Hb; apply element_known);
    try (by destruct Hv as [? ?], Hb; split; [apply element_known|]).
  - destruct Hv as [H0 _]. destruct (at_index_below _ _ H0 Hb) as (c & Hconst' & Hin). exists c. split; [done|]. apply constant_wt. by eapply Forall_forall in Hconst.
  - destruct Hv as [H0 _], Hc as (fh' & Hfh' & Hg). destruct (function_is_known m Hvalid Hbounds idx H0 Hb) as (fh & Hfh & Hk). rewrite Hfh in Hfh'. injection Hfh' as <-.
    exists fh. split; [done|]. apply call_ok_intro; [done|]. cbn in Hg. by rewrite Hg.
  - destruct Hv, Hb. by apply generic_call_known.
Qed.
End module_.

(** * What can be written is not too large *)

Lemma written_list_size {A} (s : A → Writer) (l : list A) max bs : max < U64_MOD → (∀ x, x ∈ l → writer (s x)) →
  emits (write_as_uleb128 (lenZ l) max;; for_each s l) bs → lenZ l <= max.
Proof.
  intros Hmax Hs He. apply emits_bind in He as (_ & ? & ? & _ & He & _).
  - by apply emits_int in He as [? _]; [|unfold lenZ; lia|].
  - apply writer_int; [unfold lenZ; lia|done].
  - by apply writer_for_each.
Qed.

Lemma written_signature_size version sig bs : Forall (valid_token version) sig → emits (Ser.serialize_signature sig) bs → lenZ sig <= SIGNATURE_SIZE_MAX.
Proof.
  intros Hv He. eapply written_list_size; [done| |exact He]. intros ty Hty. eapply writer_token. by eapply Forall_forall in Hv.
Qed.
Lemma written_fields_size version sd fs bs : valid_struct_definition version sd → field_information sd = Declared fs →
  emits (Ser.serialize_struct_definition sd) bs → lenZ fs <= FIELD_COUNT_MAX.
Proof.
  intros [Hu Hv] Hfs He. unfold Ser.serialize_struct_definition in He. rewrite Hfs in *. cbn in Hv.
  assert (∀ f, f ∈ fs → writer (Ser.serialize_field_definition f)) as Hw.
  { intros f Hf. eapply codec_writer; [apply (codec_field_definition version)|]. by eapply Forall_forall in Hv. }
  assert (writer (Ser.serialize_field_definitions fs)) as Hwf.
  { eapply codec_writer; [apply (codec_field_definitions version)|done]. }
  apply emits_bind in He as (_ & ? & ? & _ & _ & He); [|solve_writer..]. apply emits_bind in He as (_ & ? & ? & _ & _ & He); [|solve_writer..].
  by eapply written_list_size.
Qed.

Lemma loaded_sized bytes max check m : bytes_ok bytes → deserialize_compiled_module bytes max check = Ret (Ok m) → VERSION_5 <= m_version m → sized m.
Proof.
  intros Hok Hdes H5. apply load_inv in Hdes as (tables & b & idx & _ & _ & Hbytes & Hin & Hnd & _ & _ & Hb); [|done].
  pose proof (build_frame _ _ _ _ Hb) as Hf. injection Hf as Hmv _. rewrite Hmv in *.
  destruct (loaded_entries (version b) b tables (mkModule (version b) idx no_tables [] [] [] [] [] []) m H5 eq_refl Hbytes Hin Hnd ltac:(by intros []) Hb) as (_ & _ & He).
  split.
  - intros sig Hsig. destruct (He SIGNATURES) as [Hnil|(bs & (bss & _ & Hall) & _)]; cbn in *; [by rewrite Hnil in Hsig; apply elem_of_nil in Hsig|].
    apply list_elem_of_lookup in Hsig as [i Hi]. destruct (Forall2_lookup_l _ _ _ _ _ Hall Hi) as (ds & _ & Hv & Hem). by eapply written_signature_size.
  - intros sd fs Hsd Hfs. destruct (He STRUCT_DEFS) as [Hnil|(bs & (bss & _ & Hall) & _)]; cbn in *; [by rewrite Hnil in Hsd; apply elem_of_nil in Hsd|].
    apply list_elem_of_lookup in Hsd as [i Hi]. destruct (Forall2_lookup_l _ _ _ _ _ Hall Hi) as (ds & _ & Hv & Hem). by eapply written_fields_size.
Qed.

(** * Functions *)

Lemma control_flow_view config m index fh code fv : ControlFlow.verify_function config m index fh code = Ret (Ok fv) →
  function_view m index code fh = Ret fv ∧ cu_code code ≠ [].
Proof.
  unfold ControlFlow.verify_function, ControlFlow.verify_fallthrough, mbind, vm_bind, vm_lift. intros Hv.
  destruct (last (cu_code code)) as [i|] eqn:Hlast; [|done]. destruct (negb (BC.is_unconditional_branch i)); [done|].
  cbn in Hv. destruct (function_view m index code fh) as [fv'| |]; try done. destruct (ControlFlow.verify_reducibility config fv') as [[[]|e]| |]; try done.
  cbn in Hv. injection Hv as <-. split; [done|]. intros Hnil. by rewrite Hnil in Hlast.
Qed.

Section function.
Context (m : CompiledModule).
Hypothesis Hvalid : valid_module (m_version m) m.
Hypothesis Hbounds : in_bounds (ModuleView m).
Hypothesis Hsized : sized m.
Context (d : FunctionDefinition) (code : CodeUnit) (fh : FunctionHandle) (index : Z) (fv : FunctionView).
Hypothesis Hd : d ∈ function_defs m.
Hypothesis Hcode : fn_code d = Some code.
Hypothesis Hfh : at_index (function_handles m) (fn_function d) = Ret fh.
Hypothesis Hfv : function_view m index code fh = Ret fv.
Hypothesis Hsig : signatures_ok m.
Hypothesis Hcons : Forall (λ d, ∀ code, fn_code d = Some code → Forall (consistent (ModuleView m)) (cu_code code)) (function_defs m).
Hypothesis Hconst : Forall (λ c, Token.is_valid_for_constant (type_ c) = true) (constant_pool m).

(** What the passes before it guarantee to the type check. *)
Lemma function_known : fv_code fv = cu_code code ∧ Cfg.new (fv_code fv) = Ret (fv_cfg fv) ∧ Z.of_nat (length (fv_return_ fv)) < U64_MOD ∧
  ∀ pc i, instr_at (fv_code fv) pc i → instr_ok (ModuleView m) fv i.
Proof using All.
  destruct (code_facts m Hvalid Hbounds d code fh Hd Hcode Hfh) as (params & return_ & locals & Hp & Hr & Hl & Hscope & Htypes & _ & Hv & Hb).
  unfold function_view in Hfv. rewrite Hp, Hr, Hl in Hfv. cbn in Hfv. destruct (Cfg.new (cu_code code)) as [g| |] eqn:Hg; [|done..]. cbn in Hfv. injection Hfv as <-.
  cbn [fv_code fv_cfg fv_return_]. split; [done|]. split; [done|]. split.
  - apply get_at_index in Hr. apply entry_elem in Hr. pose proof (sz_signatures m Hsized return_ Hr) as Hs. unfold lenZ, SIGNATURE_SIZE_MAX in Hs. unfold U64_MOD. lia.
  - intros pc i [_ Hi%list_elem_of_lookup_2]. rewrite Forall_forall in Hcons.
    pose proof (so_code _ Hsig) as Hsc. rewrite Forall_forall in Hsc. destruct (Hsc d Hd code Hcode) as (fh' & Hfh' & _ & Hit). rewrite Hfh in Hfh'. injection Hfh' as <-.
    specialize (Hcons d Hd code Hcode). rewrite Forall_forall in Hv, Hb, Hit. apply Forall_forall with (x := i) in Hcons; [|done]. eapply (instr_known m Hvalid Hbounds Hsized); [done| |by apply Hv|by apply Hb|done|by apply Hit].
    cbn [fv_parameters fv_locals fv_type_parameters]. rewrite Forall_forall in *. intros ty Hty. destruct (Htypes ty Hty). by apply wt_intro; [..|apply Hscope].
Qed.
End function.

(** C8: the passes before the type check give it what it needs.  On every module of version 6 that the
    deserializer and the bounds checker accept, the checks of signatures, of generic instructions and of
    constants return.  If they accept the module, then for every function body that passes the control flow and
    stack usage checks the type check returns, whatever the meter, and if it accepts, no path through the code
    gets stuck: every instruction fits the types of its operands, which are the same on all paths. *)
Theorem loaded_types_checked {M : Type} `{!Meter M} `{!Bcs} config bytes max check m (meter : M) :
  bytes_ok bytes → module_deserialize_with_config bytes max check = Ret (Ok m) → VERSION_6 <= m_version m → limits_ok config →
  ∃ r1 r2 r3, SignatureChecker.verify_module_impl m = Ret r1 ∧ Consistency.verify_module_impl m = Ret r2 ∧ Constants.verify_module_impl m = Ret r3 ∧
    (r1 = Ok tt → r2 = Ok tt → r3 = Ok tt → ∀ d code fh index fv,
      d ∈ function_defs m → fn_code d = Some code → at_index (function_handles m) (fn_function d) = Ret fh →
      ControlFlow.verify_function config m index fh code = Ret (Ok fv) → StackUsage.verify config (ModuleView m) fv = Ret (Ok tt) →
      ∃ r meter', TypeSafety.verify (ModuleView m) fv meter = Ret (r, meter') ∧ (r = Ok tt → paths_typed (ModuleView m) fv)).
Proof.
  intros Hok Hload H6 Hlim. assert (VERSION_5 <= m_version m) as H5 by (unfold VERSION_5, VERSION_6 in *; lia).
  destruct (loaded_module bytes max check m Hok Hload H5) as (Hdes & Hvalid & Hbounds).
  pose proof (loaded_sized bytes max check m Hok Hdes H5) as Hsized.
  destruct (signature_check_decides m Hvalid Hbounds) as (r1 & Hr1 & H1). destruct (checks_consistency m Hvalid Hbounds) as (r2 & Hr2 & H2).
  destruct (checks_constants m) as (r3 & Hr3 & H3). exists r1, r2, r3. split_and!; [done..|].
  intros Hok1%H1 Hok2%H2 Hok3%H3 d code fh index fv Hd Hcode Hfh Hcf Hst. apply control_flow_view in Hcf as [Hfv Hne].
  destruct (function_known m Hvalid Hbounds Hsized d code fh index fv Hd Hcode Hfh Hfv Hok1 Hok2) as (Hfc & Hcfg & Hret & Hi).
  { eapply Forall_impl; [exact Hok3|]. by intros c [? _]. }
  assert (wf_code (fv_code fv)) as Hwf. { rewrite Hfc. eapply loaded_wf; [done..|]. by eapply loaded_code_length. }
  destruct (type_check_spec config (ModuleView m) fv meter Hlim Hwf Hcfg Hi Hret Hst) as (rt & meter' & ? & _ & ?). by exists rt, meter'.
Qed.

(** * Example *)
Module SampleTypes.
(** A decoder of single bytes. *)
#[local] Instance sample_bcs : Bcs := λ ty bytes, match ty, bytes with LU8, [b] => Some (VU8 b) | _, _ => None end.
Definition fv : FunctionView :=
  match function_view Sample.module_ 0 Sample.code Sample.handle with Ret fv => fv | _ => mkFunctionView None [] [] [] [] [] (mkCfg ∅ ∅ ∅) end.

Lemma loaded_types_checked_witness : ∃ r meter', TypeSafety.verify (ModuleView Sample.module_) fv tt = Ret (r, meter') ∧
  (r = Ok tt → paths_typed (ModuleView Sample.module_) fv).
Proof.
  destruct (loaded_types_checked default_config Sample.reordered 6 true Sample.module_ tt) as (r1 & r2 & r3 & H1 & H2 & H3 & Hall);
    [apply Sample.reordered_ok|vm_compute; reflexivity|done|by split|].
  apply (Hall ltac:(vm_compute in H1; congruence) ltac:(vm_compute in H2; congruence) ltac:(vm_compute in H3; congruence) Sample.function Sample.code Sample.handle 0 fv);
    [by left|done|done|vm_compute; reflexivity|vm_compute; reflexivity].
Defined.
End SampleTypes.
